(* ===== verification/_CoqProject ===== *)
-Q . S2P
Prelude.v
Wire.v
Collections.v
Scored.v
Scalars.v
Json.v
JsonText.v
Sketches.v
Cms.v
TopK.v
Stream.v
Vecset.v
Store.v
StoreInv.v
StoreView.v
StoreProps.v
StoreKinds.v
StoreKindsProps.v
StoreScalars.v
StoreScalarsProps.v
StoreJson.v
StoreKeeps.v
StoreSafety.v
StoreBehaviour.v
Ring.v
Hints.v
Progress.v
Protect.v
Config.v
Engine.v
EngineProps.v
Telemetry.v
Flight.v
FlightProps.v
Modes.v
ModeOps.v
ModesInv.v
ModesProps.v
Replication.v
Deltas.v
Mesh.v
MeshProps.v
Membership.v
Tracker.v
Warmup.v
WarmupProps.v
Join.v
CacheApi.v
ApiProps.v
Estimates.v
Owners.v
ShellText.v
Shell.v
ShellProps.v
Drift.v
Status.v
Node.v
Bench.v
