(* ===== verification/Prelude.v ===== *)
(** * SuperCache: a model of the cache and its correctness

    SuperCache is a distributed in-memory cache in Go.  A node keeps, per
    keyspace, one store of versioned entries (pkg/store).  An entry is an opaque
    value or the blob of a typed value (set, list, hash, sorted set, geo index,
    counter, bitmap, Bloom filter, HyperLogLog, Top-K, Count-Min, stream, JSON,
    vector set); the codecs and the algorithms on these blobs are packages of their own.  A
    consistent hash ring (internal/ring) names the owner and the replicas of a
    key; the owner applies a write and a fan-out pool (internal/peer) sends it to
    the replicas, remembering what failed as hints to be replayed.  The engine
    (pkg/engine) ties these together: it validates a command, sends it to the
    owner of the key or runs it on its own store, mints the version, replicates,
    loads missing values from a data source behind a circuit breaker and a rate
    limit (pkg/protect), and applies what peers send.  Nodes find each other by
    gossip (pkg/membership), which rebuilds the ring; a warm-up manager
    (pkg/warmup) then prefetches hot keys and hands local entries to the new
    replicas.  Peers call each other through internal/peerserver, applications
    use pkg/client against internal/cacheserver, and people the shell cmd/sc.
    A node (cmd/supercache-node) counts what it does (pkg/telemetry) and shows
    itself over HTTP (pkg/admin); cmd/scbench measures it.

    ** Conventions

    Bytes are [Z] between 0 and 255, strings and slices are lists of them, and
    Go maps are [gmap]s or [gset]s.  uint64 and int64 arithmetic is on [Z] with
    the wrap-around written out ([u64], [+u], [i64]).  A float64 is its IEEE bit
    pattern.  The clock is an argument, an unbounded instant that the code turns
    into int64 nanoseconds with wrap-around ([unixNano]); theorems about fresh
    expiries say that they fit ([expiry_fits]).  Every exported method of the store and
    every operation of the hint queues runs inside one critical section of a
    mutex in the code, so it is one function from the state to a result and the
    next state; concurrency is the choice of the order of these functions, as a
    sequence of operations ([StoreSafety.run]) or a step relation
    ([Hints.hint_step], [Protect.request_step], [Flight.goes], [Warmup.wstep]).
    Slices are values here: the code copies at its borders
    ([copyEntry], [cloneEntry]).  Iteration over a Go map in the ring, the flush
    loop and Range is any enumeration; where the code sorts, the order is the
    sorted one.

    ** Files

    - Prelude (this file): integers, byte strings, list and map lemmas, tactics,
      the decode loop [for_bytes] and its induction principle.
    - Wire: encoding/binary (uvarint, little-endian words), strconv, byte order,
      sorting; the framing used by every codec.
    - Collections: pkg/set, pkg/list, pkg/hashx.
    - Scored: pkg/zset and the index and codec of pkg/geo.
    - Scalars: pkg/counter and pkg/bitmapx.
    - Json: the tree, the path operations and the encoder of pkg/jsonx.
    - JsonText: the text reader and the path parser of pkg/jsonx.
    - Sketches: pkg/bloom and pkg/hllx, with FNV-1a and the 64-bit mixer.
    - Cms: pkg/cmsx.   - TopK: pkg/topkx.   - Stream: pkg/stream/codec.go.
    - Vecset: pkg/vecset/codec.go, scores in the IEEE binary64 specification.
    - Store: pkg/store/entry.go and memory.go: entries, flags, the LRU list with
      its byte budget, eviction, Set, AcceptIfNewer, AcceptNegative, Delete,
      DeleteIfVersion, Range.  The class [Kind] states what the store needs of a
      lazily encoded collection; sets, hashes, lists, sorted sets and geo
      indexes are its instances.
    - StoreInv: the structural invariant [mem_wf] and eviction.
    - StoreView: the observable map of live entries ([view]) and how each
      primitive step of the store acts on it.
    - StoreProps: specifications of the untyped operations on that map and the
      refinement theorems; convergence of replicas that take the same messages
      in other orders and at other times.
    - StoreKinds, StoreKindsProps: pkg/store/{set,zset,geo,hash,list}.go over
      [Kind] and their refinement.
    - StoreScalars, StoreScalarsProps: pkg/store/{counter,bloom,bitmap,hll,topk,
      cms,stream,vecset}.go and their refinement.
    - StoreJson: pkg/store/json.go and its refinement.
    - StoreKeeps: the typed methods keep the invariant whatever expiry they carry.
    - StoreSafety: the type [op] of all modelled methods; every method refines
      its specification and keeps the invariant, hence any sequence does.
    - StoreBehaviour: what a caller observes (read-your-writes per kind) and
      four behaviours that differ from what the code or its comments intend.
    - Ring: internal/ring/ring.go.
    - Hints: internal/peer/hints.go and the FanoutPool of transport.go.
    - Progress: rounds of the hint flusher against a peer that comes back.
    - Protect: pkg/protect; the critical sections of Allow one by one and the
      interleavings of concurrent requests.   - Config: pkg/keyspace/config.go.
    - Engine: pkg/engine/{engine,cluster,errors}.go on plain keyspaces: the
      record [Engine] of keyspaces, [ksRuntime] with its store, guard and version
      map; Put, Get, Delete, loads, routing, replication.  The network and the
      data source are the record [Env] of functions over a world [W].  A loading
      caller keeps the runtime it got before the load ([Held]), also when the
      keyspace is replaced or deleted meanwhile.
    - EngineProps: versions, read-your-writes, deletes, forwarding, loads.
    - Telemetry: pkg/telemetry, the traced reads and writes of the engine, and
      what the counters say after any reads.
    - Flight: Get and GetOrLoadLocal of many goroutines at once on a node that
      loads: a goroutine is a program point, [section] its next critical section,
      [goes] the steps; the class [FlightGroup] states what singleflight promises.
    - FlightProps: exclusion, progress, one load for a herd of readers.
    - Modes: the eng packages of the fifteen modes over the record [Host]
      (modehost.go) as programs of a state monad [hm], and
      Engine.ApplyPutWithRingGen, which dispatches an entry of a peer.
    - ModeOps: the typed commands of pkg/engine (set.go to stream.go): checks,
      routing, local mutation or a call of the owner, reads through the owner.
      [ModeEnv] adds the typed calls to [Env].
    - ModesInv: [host_ok] and the rules by which a host program keeps it.
    - ModesProps: one datatype [Cmd] of the commands and [exec]; refusals, and
      the invariant along any sequence of steps of a node.
    - Replication: owner-inbox entries, snapshots from peers, what an owner
      sends, writes on nodes that do not own the name.
    - Deltas: sets, sorted sets, geo indexes and hashes send each mutation; what
      keeps a replica in step, and three ways a delta is lost.
    - Mesh: the status codes of internal/grpcmap, the handlers of
      internal/peerserver and the calls of the transport: nodes, by address,
      that answer each other.  [mesh d] is the environment of a node whose calls
      may cause calls of their own to the depth [d].
    - MeshProps: puts, increments and deletes through nodes that do not own the
      name; status codes that change on the way, calls that bounce.
    - Membership: pkg/membership: metadata, the ring of a view, events.
    - Tracker: pkg/warmup/tracker.go, the bounded count of accesses.
    - Warmup: pkg/warmup/manager.go over the class [Cache], the engine's instance
      of it (warmup_hook.go), and the workers as a step relation.
    - WarmupProps: what a topology change schedules and how workers serve it;
      the laws of [Cache] and the engine's proof of them.
    - Join: the hand-off from a node to one that joins, end to end.
    - CacheApi: the handlers of internal/cacheserver and the methods of
      pkg/client.   - ApiProps: the client sees what the engine does.
    - Estimates: distance and radius search of pkg/geo and the count of
      pkg/hllx, from the store to the client, over the record [Math].
    - Owners: the fetch of pkg/*/eng over the class [ModeHost], its instance
      modehost.go, and the calls of an owner in pkg/engine/*_cluster.go; they
      never meet a nil cluster ([writes_reach_owner]) and the engine's copies
      agree with the packages ([engine_copies_agree]).
    - ShellText: the tokenizer and the flags of cmd/sc, with the functions of
      strings, strconv and encoding/base64 it uses.
    - Shell: session, commands and loop of cmd/sc over the record [ShEnv].
    - ShellProps: what a typed line does.
    - Drift: ConfigHash of pkg/keyspace with SHA-256 and the JSON of a struct.
    - Status: pkg/engine/status.go and the handlers of pkg/admin over the class
      [StatusProvider], whose instance is the node.
    - Node: pkg/tlsconfig, pkg/datasource, the options of the engine, and the
      TLS, seeds and demo keyspaces of cmd/supercache-node.
    - Bench: cmd/scbench, cmd/scbench-diff and internal/benchmetrics.

    ** What the theorems show

    Deletion and replication: a live tombstone blocks every version-checked write
    that is not newer, through every method and whatever eviction does
    ([tombstone_gate]; Set and the hard Delete of the store check no version);
    replicas that apply the same puts and deletes in different orders and at
    different times converge ([replicas_converge]).  Memory: any sequence of calls keeps the LRU list, the
    byte count and the caches consistent ([run_invariant]), and eviction never
    drops a live pinned entry and otherwise follows recency
    ([eviction_contract]).  Placement: owner, replicas, agreement between nodes
    and minimal disruption ([ring_*]).  Hinted hand-off: bounded, consistent,
    last-writer-wins queues, in-order replay, no loss on a full job queue, and
    the schedule on which a newer hint is lost ([hint_*], [flush_*],
    [submit_*]).  Data structures: bounds of the sketches, order and ranges of
    the sorted set, exact radius search ([geo_radius_exact]), append-only streams,
    exact similarity search, JSON text and paths, exact codecs.  Breaker: it opens
    at its threshold and lets one probe through, also of concurrent requests that
    come after it tripped ([breaker_contract]).  Progress: hints are delivered once
    their peer answers ([hints_drain]).  Callers: each typed write is read back,
    and refused exactly on the stated branches.  Engine: minted versions are above
    all that was seen, a put is read back, a delete survives late puts, loads
    never overwrite newer values, writes are forwarded at most once.  Concurrent
    readers of a missing key, however they interleave, ask the source once and
    get its answer ([herd_asks_once]), and none of them hangs while the source
    answers ([flights_return]).
    Modes: bad
    commands are refused without effect ([commands_refused]); nodes stay well
    formed ([modes_invariant]); the owner publishes what it stored
    ([owner_publishes]), a replica installs it exactly when it is newer
    ([snapshot_applied]) or follows the deltas in step ([delta_in_step]); other
    nodes leave the write to the owner ([foreign_writes], [inbox_owner_only]).
    Cluster: a write through a node that does not own the key is read back
    through it and the owner ([mesh_put_get]), a counter is one counter wherever
    it is incremented, and restarts when it has expired ([mesh_counter]), an acknowledged delete has reached every
    replica ([mesh_delete]).  Topology: nodes with converged gossip agree on
    placement ([members_agree]); a change schedules exactly the prefetches and
    hand-offs that fit ([topology_schedules]), the workers serve them hot first
    and finish ([hot_jobs_first], [workers_drain]), and a node that joins is
    seeded ([join_handoff]).  Interfaces: the client returns what the engine
    returned ([client_exact]); a typed line makes the call it spells
    ([line_makes_call]) and the session stays on its seeds
    ([repl_keeps_session]).  Operations: the counters agree with what reads
    returned ([reads_accounted]); nodes that show the same hashes have the same
    keyspaces ([drift_shown]); mutual TLS is what the flags say ([buildTLS_spec]);
    a benchmark matrix resolves to cells that can run ([matrix_resolves]) and a
    comparison has one row per cell ([diff_rows]).

    ** Fuel

    Loops that are not structural run on fuel: uvarint and decimal loops on ten
    and twenty digits (a 64-bit word has no more), sort.Search on the length of
    the slice, the decode loops on the number of bytes (each round consumes at
    least one), eviction on the length of the list (each round removes one
    element), flushPeerHints on the number of hints plus one, the JSON reader on
    two units per byte and the path parser on one ([parsers_depth]), the
    loops of the shell over its tokens and bytes on their number, the binary
    search of Zipf keys on their number ([zipf_search_spec]).  A mesh has a
    depth: calls past it have timed out.  The theorems state
    results, not partial correctness, so the fuel is shown to be enough.

    ** What is not modelled

    How close a HyperLogLog count or a distance is to the truth is not stated:
    the functions of the math package they use are arguments.  Apart from Flight
    and [Protect.request_step], where each critical section is a step, an
    operation of the engine is one step; deadlines of contexts and tracing spans are left out.  Listening,
    dialling, serving and printing are I/O around the parts above, and so is most
    of main in the commands; the gossip library, singleflight, the data source,
    certificates and the gRPC runtime are arguments.  Texts of errors, help,
    numbers and durations are left out, except the error texts on which the shell
    decides to retry.  The test harness internal/testcluster, the examples, the
    generated protocol code and the clients in other languages are left out. *)

From stdpp Require Export base tactics option list gmap sorting fin_maps fin_sets.
From Stdlib Require Export ZArith Lia.
#[global] Open Scope Z_scope.

(** ** Bytes and machine integers

    Go strings and byte slices are both sequences of bytes; a byte is a [Z]
    between 0 and 255.  A nil slice and an empty slice are both [[]]: the
    modelled code tells them apart only in the WarmKeys of a configuration,
    which is an option. *)
Abbreviation byte := Z (only parsing).
Abbreviation bytes := (list Z).

Declare Scope go_scope.
Delimit Scope go_scope with go.
#[global] Open Scope go_scope.

Definition MaxUint64 : Z := 2 ^ 64 - 1.
Definition MaxInt64 : Z := 2 ^ 63 - 1.
Definition MinInt64 : Z := - 2 ^ 63.

(** uint64 and uint8 conversions, and the two's-complement reading of a word. *)
Definition u64 (x : Z) : Z := x mod 2 ^ 64.
Definition u8 (x : Z) : Z := x mod 2 ^ 8.
Definition i64 (x : Z) : Z := if x <? 2 ^ 63 then x else x - 2 ^ 64.

(** [len(b)] of a slice, string or list, as a Go [int]. *)
Definition len {A} (l : list A) : Z := Z.of_nat (length l).
#[global] Arguments len : simpl never.

(** Time.UnixNano: the instant [t], in nanoseconds since 1970, as int64. *)
Definition unixNano (t : Z) : Z := i64 (u64 t).

(** The instant a TTL from now ends at is an int64 (until the year 2262); a TTL
    of 0 or less is no TTL. *)
Definition expiry_fits (now ttl : Z) : Prop := 0 < ttl -> MinInt64 <= now + ttl <= MaxInt64.

Notation "x +u y" := (u64 (x + y)) (at level 50, left associativity) : go_scope.
Notation "x *u y" := (u64 (x * y)) (at level 40, left associativity) : go_scope.

(** ** Automation *)

Create HintDb go discriminated.
#[export] Hint Constants Opaque : go.

(** Case split on the innermost boolean comparison or match of the goal. *)
Ltac zcmp :=
  repeat match goal with
  | |- context [?x <? ?y] => destruct (Z.ltb_spec x y)
  | |- context [?x <=? ?y] => destruct (Z.leb_spec x y)
  | |- context [?x =? ?y] => destruct (Z.eqb_spec x y)
  | H : context [?x <? ?y] |- _ => destruct (Z.ltb_spec x y)
  | H : context [?x <=? ?y] |- _ => destruct (Z.leb_spec x y)
  | H : context [?x =? ?y] |- _ => destruct (Z.eqb_spec x y)
  end.

(** Turn boolean comparison hypotheses into propositions. *)
Ltac zprop :=
  repeat match goal with
  | H : (_ <? _) = true |- _ => apply Z.ltb_lt in H
  | H : (_ <? _) = false |- _ => apply Z.ltb_ge in H
  | H : (_ <=? _) = true |- _ => apply Z.leb_le in H
  | H : (_ <=? _) = false |- _ => apply Z.leb_gt in H
  | H : (_ =? _) = true |- _ => apply Z.eqb_eq in H
  | H : (_ =? _) = false |- _ => apply Z.eqb_neq in H
  | H : (_ && _)%bool = true |- _ => apply andb_prop in H; destruct H
  | H : (_ || _)%bool = false |- _ => apply orb_false_elim in H; destruct H
  | H : negb _ = true |- _ => apply negb_true_iff in H
  | H : negb _ = false |- _ => apply negb_false_iff in H
  end.

(** ** Lemmas on words and lengths *)

Lemma u64_small x : 0 <= x <= MaxUint64 -> u64 x = x.
Proof. unfold u64, MaxUint64. intros. apply Z.mod_small. lia. Qed.

Lemma u64_range x : 0 <= u64 x <= MaxUint64.
Proof. unfold u64, MaxUint64. pose proof (Z.mod_pos_bound x (2 ^ 64)). lia. Qed.

Lemma unixNano_small t : MinInt64 <= t <= MaxInt64 -> unixNano t = t.
Proof.
  unfold unixNano, i64, u64, MinInt64, MaxInt64. intros Ht. destruct (Z.lt_ge_cases t 0) as [Hn|Hn].
  - rewrite <- (Z.mod_add t 1), Z.mod_small by lia. destruct (Z.ltb_spec (t + 1 * 2 ^ 64) (2 ^ 63)); lia.
  - rewrite Z.mod_small by lia. destruct (Z.ltb_spec t (2 ^ 63)); lia.
Qed.

Lemma u64_succ x : 0 <= x < MaxUint64 -> x +u 1 = x + 1.
Proof. intros. apply u64_small. unfold MaxUint64 in *. lia. Qed.

Lemma len_nonneg {A} (l : list A) : 0 <= len l.
Proof. unfold len. lia. Qed.

Lemma len_app {A} (l1 l2 : list A) : len (l1 ++ l2) = len l1 + len l2.
Proof. unfold len. rewrite length_app. lia. Qed.

Lemma len_cons {A} (x : A) l : len (x :: l) = 1 + len l.
Proof. unfold len. simpl. lia. Qed.

Lemma len_nil {A} : len (@nil A) = 0.
Proof. done. Qed.

#[export] Hint Resolve u64_range len_nonneg : go.

Lemma take_app_len {A} (l k : list A) : take (Z.to_nat (len l)) (l ++ k) = l.
Proof. unfold len. rewrite Nat2Z.id. apply take_app_length. Qed.

Lemma drop_app_len {A} (l k : list A) : drop (Z.to_nat (len l)) (l ++ k) = k.
Proof. unfold len. rewrite Nat2Z.id. apply drop_app_length. Qed.

(** ** Sums of integers over lists *)

Definition zsum (l : list Z) : Z := foldr Z.add 0 l.

Lemma zsum_app l1 l2 : zsum (l1 ++ l2) = zsum l1 + zsum l2.
Proof. induction l1; simpl; [done|]. unfold zsum in *. simpl. lia. Qed.

Lemma zsum_perm l1 l2 : l1 ≡ₚ l2 -> zsum l1 = zsum l2.
Proof. induction 1; unfold zsum in *; simpl in *; lia. Qed.

Lemma zsum_nonneg l : Forall (fun x => 0 <= x) l -> 0 <= zsum l.
Proof. induction 1; unfold zsum in *; simpl in *; lia. Qed.

#[global] Instance zsum_proper : Proper ((≡ₚ) ==> (=)) zsum.
Proof. intros ???. by apply zsum_perm. Qed.

Lemma len_concat {A} (ls : list (list A)) : len (concat ls) = zsum (map len ls).
Proof. induction ls; simpl; [done|]. rewrite len_app, IHls. done. Qed.

(** Counting along a renaming. *)
Lemma len_filter_map {A B} (f : A -> B) (P : A -> Prop) (Q : B -> Prop)
    `{!forall x, Decision (P x)} `{!forall y, Decision (Q y)} (l : list A) :
  (forall x, x ∈ l -> P x <-> Q (f x)) -> len (filter P l) = len (filter Q (f <$> l)).
Proof.
  induction l as [|a l IH]; intros Hpq; [done|]. rewrite fmap_cons, !filter_cons.
  assert (Ha : P a <-> Q (f a)) by (apply Hpq; constructor).
  specialize (IH (fun x Hx => Hpq x (list_elem_of_further _ _ _ Hx))).
  destruct (decide (P a)), (decide (Q (f a))); try tauto. by rewrite !len_cons, IH.
Qed.

(** ** Rebuilding a map from its listed bindings

    Inserting the bindings of a map one by one, in any order that lists each
    key once, gives the map back: the shape of every decoder below. *)

Lemma fold_insert_binding {A V} (key : A -> bytes) (val : A -> V) (l : list A) (acc : gmap bytes V)
    (k : bytes) :
  NoDup (map key l) ->
  (forall a, a ∈ l -> key a = k ->
     fold_left (fun m a => <[key a := val a]> m) l acc !! k = Some (val a)) /\
  ((forall a, a ∈ l -> key a <> k) ->
     fold_left (fun m a => <[key a := val a]> m) l acc !! k = acc !! k).
Proof.
  revert acc. induction l as [|a l IH]; intros acc Hnd; cbn [fold_left map] in *.
  { split; [intros a Ha; by apply elem_of_nil in Ha|done]. }
  inv Hnd. destruct (IH (<[key a := val a]> acc) ltac:(done)) as [IH1 IH2]. split.
  - intros a' [->|Ha]%elem_of_cons Hk; [|by apply IH1].
    rewrite IH2; [by rewrite Hk, lookup_insert_eq|].
    intros a'' Ha'' Heq.
    match goal with H : key _ ∉ _ |- _ => apply H end.
    apply list_elem_of_fmap. exists a''. split; [congruence|done].
  - intros Hne. rewrite IH2 by (intros; apply Hne; by apply elem_of_cons; right).
    rewrite lookup_insert_ne; [done|]. apply Hne, elem_of_cons. by left.
Qed.

Lemma fold_insert_map {A V} (key : A -> bytes) (val : A -> V) (l : list A) (m : gmap bytes V) :
  NoDup (map key l) ->
  (forall k v, m !! k = Some v <-> exists a, a ∈ l /\ key a = k /\ val a = v) ->
  fold_left (fun m a => <[key a := val a]> m) l ∅ = m.
Proof.
  intros Hnd Hm. apply map_eq. intros k.
  destruct (fold_insert_binding key val l ∅ k Hnd) as [H1 H2].
  destruct (m !! k) as [v|] eqn:E.
  - apply Hm in E as (a & Ha & Hk & <-). by apply H1.
  - rewrite H2; [done|]. intros a Ha Hk.
    assert (m !! k = Some (val a)) by (apply Hm; eauto). congruence.
Qed.

(** ** The loop [for len(b) > 0 { ... }] of the decoders

    [step s b] parses one record from the non-empty rest [b] and updates the
    accumulator [s]; [None] is an early error return.  A record always
    consumes input ([Consuming]), so [length b] rounds are enough: the result
    does not depend on the fuel ([parse_loop_fuel]). *)

Fixpoint parse_loop {S} (step : S -> bytes -> option (S * bytes)) (fuel : nat)
    (s : S) (b : bytes) : option S :=
  match b with
  | [] => Some s
  | _ :: _ =>
      match fuel with
      | O => None
      | Datatypes.S n =>
          match step s b with
          | None => None
          | Some (s', b') => parse_loop step n s' b'
          end
      end
  end.

Definition for_bytes {S} (step : S -> bytes -> option (S * bytes)) (s : S) (b : bytes)
    : option S :=
  parse_loop step (length b) s b.

Class Consuming {S} (step : S -> bytes -> option (S * bytes)) : Prop :=
  consuming : forall s b s' b', step s b = Some (s', b') -> (length b' < length b)%nat.

Section loop.
Context {S : Type} (step : S -> bytes -> option (S * bytes)) `{!Consuming step}.

Lemma parse_loop_fuel n s b :
  (length b <= n)%nat -> parse_loop step n s b = for_bytes step s b.
Proof.
  unfold for_bytes.
  cut (forall n m s b, (length b <= n)%nat -> (length b <= m)%nat ->
                       parse_loop step n s b = parse_loop step m s b).
  { intros H Hn. by apply H. }
  clear n s b. induction n as [|n IH]; intros m s b Hn Hm.
  - destruct b; simpl in *; [by destruct m|lia].
  - destruct b as [|x b]; [by destruct m|].
    destruct m as [|m]; [simpl in Hm; lia|]. simpl.
    destruct (step s (x :: b)) as [[s' b']|] eqn:E; [|done].
    apply consuming in E. simpl in *. apply IH; lia.
Qed.

Lemma for_bytes_step s b :
  b <> [] ->
  for_bytes step s b =
    match step s b with None => None | Some (s', b') => for_bytes step s' b' end.
Proof.
  destruct b as [|x b]; [done|]. intros _.
  unfold for_bytes at 1. simpl.
  destruct (step s (x :: b)) as [[s' b']|] eqn:E; [|done].
  apply consuming in E. simpl in E. apply parse_loop_fuel. lia.
Qed.

(** What holds of the accumulator after every accepted record. *)
Lemma for_bytes_inv (I : S -> Prop) (P : bytes -> Prop) s b s1 :
  (forall s b s' b', I s -> P b -> step s b = Some (s', b') -> I s' /\ P b') ->
  I s -> P b -> for_bytes step s b = Some s1 -> I s1.
Proof.
  intros Hstep. unfold for_bytes. generalize (length b) as n. intros n. revert s b.
  induction n as [|n IH]; intros s [|x b] HI HP; simpl; try (by intros [= <-]).
  destruct (step s (x :: b)) as [[s' b']|] eqn:E; [|done].
  destruct (Hstep _ _ _ _ HI HP E). by apply IH.
Qed.

(** Decoding a concatenation of encoded records folds the update over them,
    as long as every record is accepted in the state it meets. *)
Lemma for_bytes_concat {A} (enc : A -> bytes) (upd : S -> A -> S)
    (ok : S -> list A -> Prop) l s :
  (forall s a l rest, ok s (a :: l) ->
     enc a <> [] /\ step s (enc a ++ rest) = Some (upd s a, rest) /\ ok (upd s a) l) ->
  ok s l ->
  for_bytes step s (concat (map enc l)) = Some (fold_left upd l s).
Proof.
  intros Hrec. revert s. induction l as [|a l IH]; intros s Hok; [done|].
  cbn [map concat fold_left].
  destruct (Hrec _ _ _ (concat (map enc l)) Hok) as (Hne & Hst & Hok').
  rewrite for_bytes_step, Hst by (by destruct (enc a)).
  by apply IH.
Qed.
End loop.

(** ** Filters that keep everything or nothing *)

Lemma filter_all {A} (P : A -> Prop) `{!forall x, Decision (P x)} (l : list A) :
  Forall P l -> filter P l = l.
Proof. induction 1 as [|x l Hx _ IH]; [done|]. rewrite filter_cons, decide_True by done. by rewrite IH. Qed.

Lemma filter_none {A} (P : A -> Prop) `{!forall x, Decision (P x)} (l : list A) :
  Forall (fun x => ~ P x) l -> filter P l = [].
Proof. induction 1 as [|x l Hx _ IH]; [done|]. by rewrite filter_cons, decide_False. Qed.

Lemma StronglySorted_filter {A} (R : relation A) (P : A -> Prop) `{!forall x, Decision (P x)} (l : list A) :
  StronglySorted R l -> StronglySorted R (filter P l).
Proof.
  induction 1 as [|x l Hs IH Hx]; [constructor|]. rewrite filter_cons. case_decide; [|done].
  constructor; [done|]. apply Forall_forall. intros y [_ Hy]%list_elem_of_filter.
  by apply (proj1 (Forall_forall _ _) Hx).
Qed.

Lemma take_map_prefix {A B} (f : A -> B) (l : list A) n m :
  (n <= m)%nat -> map f (take n l) `prefix_of` map f (take m l).
Proof.
  intros Hnm. exists (map f (take (m - n) (drop n l))). rewrite <- map_app. f_equal.
  rewrite <- (take_drop n l) at 1. rewrite take_app, take_take.
  rewrite Nat.min_r by lia. f_equal.
  rewrite length_take. destruct (Nat.le_gt_cases n (length l)).
  - by rewrite Nat.min_l.
  - rewrite drop_ge by lia. by rewrite !take_nil.
Qed.
