(* ===== verification/Wire.v ===== *)
(** * Wire formats: byte order, little-endian words, uvarints, framed records

    The pieces of Go's [encoding/binary] and [bytes] that the codecs under
    pkg/ use, with their round-trip laws, and the [uvarintSize] helper every
    codec package declares. *)
From S2P Require Import Prelude.

(** ** [bytes.Compare] and [sort.Strings]: the lexicographic order *)

Fixpoint bytes_compare (a b : bytes) : comparison :=
  match a, b with
  | [], [] => Eq
  | [], _ :: _ => Lt
  | _ :: _, [] => Gt
  | x :: a, y :: b =>
      match Z.compare x y with
      | Eq => bytes_compare a b
      | c => c
      end
  end.

Definition bytes_ltb (a b : bytes) : bool :=
  match bytes_compare a b with Lt => true | _ => false end.

Definition bytes_le (a b : bytes) : Prop := bytes_compare a b <> Gt.

#[global] Instance bytes_le_dec : RelDecision bytes_le.
Proof. intros a b. unfold bytes_le. solve_decision. Defined.

Lemma bytes_compare_eq a b : bytes_compare a b = Eq <-> a = b.
Proof.
  revert b. induction a as [|x a IH]; intros [|y b]; simpl; try done.
  destruct (Z.compare_spec x y) as [->|H|H]; [|split; [done|intros [= ]; lia]..].
  rewrite IH. split; congruence.
Qed.

Lemma bytes_compare_antisym a b : bytes_compare b a = CompOpp (bytes_compare a b).
Proof.
  revert b. induction a as [|x a IH]; intros [|y b]; simpl; try done.
  rewrite (Z.compare_antisym x y). destruct (x ?= y); simpl; auto.
Qed.

Lemma bytes_compare_lt_trans a b c :
  bytes_compare a b = Lt -> bytes_compare b c = Lt -> bytes_compare a c = Lt.
Proof.
  revert b c. induction a as [|x a IH]; intros [|y b] [|z c]; simpl; try done.
  destruct (Z.compare_spec x y) as [->|H1|H1]; [| |done].
  - destruct (y ?= z); eauto; done.
  - intros _. destruct (Z.compare_spec y z) as [->|H2|H2]; [| |done];
      intros _; destruct (Z.compare_spec x z); try lia; done.
Qed.

#[global] Instance bytes_le_total : Total bytes_le.
Proof.
  intros a b. unfold bytes_le. rewrite (bytes_compare_antisym a b).
  destruct (bytes_compare a b); simpl; auto.
Qed.

#[global] Instance bytes_le_antisymm : AntiSymm (=) bytes_le.
Proof.
  intros a b. unfold bytes_le. rewrite (bytes_compare_antisym a b).
  destruct (bytes_compare a b) eqn:E; simpl; try done.
  intros _ _. by apply bytes_compare_eq.
Qed.

#[global] Instance bytes_le_trans : Transitive bytes_le.
Proof.
  intros a b c. unfold bytes_le.
  destruct (bytes_compare a b) eqn:E1; [|intros _|done].
  { apply bytes_compare_eq in E1 as ->. done. }
  destruct (bytes_compare b c) eqn:E2; [|intros _|done].
  { apply bytes_compare_eq in E2 as <-. by rewrite E1. }
  by rewrite (bytes_compare_lt_trans a b c).
Qed.

(** ** Sorting distinct keys is canonical *)

Section sort.
Context {A : Type} (R : relation A) `{!RelDecision R, !Transitive R, !Total R}.

Lemma merge_sort_elem x l : x ∈ merge_sort R l <-> x ∈ l.
Proof. by rewrite (merge_sort_Permutation R l). Qed.

Lemma merge_sort_len l : len (merge_sort R l) = len l.
Proof. unfold len. by rewrite (merge_sort_Permutation R l). Qed.

Lemma merge_sort_fixed `{!AntiSymm (=) R} l : StronglySorted R l -> merge_sort R l = l.
Proof.
  intros H. eapply (StronglySorted_unique R); [|done|].
  - apply (StronglySorted_merge_sort R).
  - apply merge_sort_Permutation.
Qed.

Lemma merge_sort_nil_inv l : merge_sort R l = [] <-> l = [].
Proof.
  split; [|by intros ->]. intros E.
  apply Permutation_nil. by rewrite <- E, merge_sort_Permutation.
Qed.
End sort.

(** ** Little-endian 64-bit words ([binary.LittleEndian]) *)

Fixpoint le_encode (n : nat) (v : Z) : bytes :=
  match n with
  | O => []
  | S n => v mod 256 :: le_encode n (v / 256)
  end.

Fixpoint le_decode (b : bytes) : Z :=
  match b with
  | [] => 0
  | x :: b => x + 256 * le_decode b
  end.

(** PutUint64 writes eight bytes; Uint64 reads the first eight of its argument. *)
Definition PutUint64 (v : Z) : bytes := le_encode 8 v.
Definition Uint64 (b : bytes) : Z := le_decode (take 8 b).

Definition is_byte (x : Z) : Prop := 0 <= x < 256.
Abbreviation bytes_ok := (Forall is_byte).

Lemma is_byte_mod x : is_byte x <-> x mod 2 ^ 8 = x.
Proof.
  unfold is_byte. change 256 with (2 ^ 8). split; [apply Z.mod_small|].
  intros <-. by apply Z.mod_pos_bound.
Qed.

(** A bitwise combination that is false on (false, false) keeps bytes bytes. *)
Lemma is_byte_lor x y : is_byte x -> is_byte y -> is_byte (Z.lor x y).
Proof.
  rewrite !is_byte_mod, <- !Z.land_ones by lia. rewrite Z.land_lor_distr_l. by intros -> ->.
Qed.

Lemma is_byte_land x y : is_byte x -> is_byte (Z.land x y).
Proof.
  rewrite !is_byte_mod, <- !Z.land_ones by lia. intros Hx.
  by rewrite <- Z.land_assoc, (Z.land_comm y), Z.land_assoc, Hx.
Qed.

Lemma is_byte_ldiff x y : is_byte x -> is_byte (Z.ldiff x y).
Proof. intros Hx. rewrite Z.ldiff_land. by apply is_byte_land. Qed.

Lemma le_encode_length n v : length (le_encode n v) = n.
Proof. revert v. induction n; simpl; auto. Qed.

Lemma le_encode_ok n v : bytes_ok (le_encode n v).
Proof.
  revert v. induction n as [|n IH]; intros v; simpl; constructor; auto.
  unfold is_byte. pose proof (Z.mod_pos_bound v 256). lia.
Qed.

Lemma le_decode_encode n v : le_decode (le_encode n v) = v mod 256 ^ Z.of_nat n.
Proof.
  revert v. induction n as [|n IH]; intros v; cbn [le_encode le_decode].
  { by rewrite Z.mod_1_r. }
  rewrite IH, Nat2Z.inj_succ, Z.pow_succ_r by lia.
  by rewrite Z.rem_mul_r by lia.
Qed.

Lemma le_decode_range b : bytes_ok b -> 0 <= le_decode b < 256 ^ len b.
Proof.
  unfold is_byte. induction 1 as [|x b Hx Hb IH]; [done|].
  rewrite len_cons, Z.add_1_l, Z.pow_succ_r by apply len_nonneg. cbn [le_decode]. lia.
Qed.

Lemma le_encode_decode b : bytes_ok b -> le_encode (length b) (le_decode b) = b.
Proof.
  unfold is_byte. induction 1 as [|x b Hx Hb IH]; [done|].
  cbn [length le_encode le_decode]. f_equal.
  - rewrite (Z.mul_comm 256), Z.mod_add by lia. apply Z.mod_small. lia.
  - rewrite (Z.mul_comm 256), Z.div_add by lia.
    by rewrite (Z.div_small x), Z.add_0_l by lia.
Qed.

Lemma PutUint64_length v : length (PutUint64 v) = 8%nat.
Proof. apply le_encode_length. Qed.

Lemma Uint64_PutUint64 v rest : 0 <= v <= MaxUint64 -> Uint64 (PutUint64 v ++ rest) = v.
Proof.
  intros Hv. unfold Uint64. rewrite take_app_le by (by rewrite PutUint64_length).
  rewrite take_ge by (by rewrite PutUint64_length).
  unfold PutUint64. rewrite le_decode_encode. apply Z.mod_small.
  unfold MaxUint64 in Hv. change (256 ^ Z.of_nat 8) with (2 ^ 64). lia.
Qed.

(** ** Uvarints ([binary.PutUvarint], [binary.AppendUvarint], [binary.Uvarint]) *)

(** At most ten bytes ([MaxVarintLen64]) are written for a uint64. *)
Fixpoint put_uvarint_loop (fuel : nat) (x : Z) : bytes :=
  match fuel with
  | O => []
  | S n => if x <? 128 then [x]
           else Z.lor (u8 x) 128 :: put_uvarint_loop n (Z.shiftr x 7)
  end.

Definition PutUvarint (x : Z) : bytes := put_uvarint_loop 10 x.

(** The result pairs the value with the number of bytes read; a count [<= 0]
    reports a short or overlong encoding. *)
Fixpoint uvarint_loop (buf : bytes) (i x s : Z) : Z * Z :=
  match buf with
  | [] => (0, 0)
  | b :: rest =>
      if i =? 10 then (0, - (i + 1))
      else if b <? 128 then
        if (i =? 9) && (1 <? b) then (0, - (i + 1))
        else (Z.lor x (u64 (Z.shiftl b s)), i + 1)
      else uvarint_loop rest (i + 1) (Z.lor x (u64 (Z.shiftl (Z.land b 127) s))) (s + 7)
  end.

Definition Uvarint (buf : bytes) : Z * Z := uvarint_loop buf 0 0 0.

Lemma lor_add a b s : 0 <= s -> 0 <= a < 2 ^ s -> Z.lor a (Z.shiftl b s) = a + b * 2 ^ s.
Proof.
  intros Hs Ha. rewrite Z.shiftl_mul_pow2 by lia.
  rewrite <- (Z.lxor_lor a (b * 2 ^ s)), <- (Z.add_nocarry_lxor a (b * 2 ^ s)); try done.
  all: apply Z.bits_inj'; intros n Hn; rewrite Z.land_spec, Z.bits_0.
  all: destruct (Z.ltb_spec n s);
    [rewrite Z.mul_pow2_bits_low by lia; by rewrite andb_false_r|].
  all: rewrite <- (Z.mod_small a (2 ^ s)) by lia;
    rewrite Z.mod_pow2_bits_high by lia; done.
Qed.

Lemma put_uvarint_cont x : 128 <= x -> Z.lor (u8 x) 128 = x mod 128 + 128.
Proof.
  intros Hx. unfold u8.
  assert (Hm : x mod 2 ^ 8 = x mod 128 + 128 * (x / 128 mod 2)).
  { change (2 ^ 8) with (128 * 2). rewrite Z.rem_mul_r by lia. done. }
  pose proof (Z.mod_pos_bound x 128). pose proof (Z.mod_pos_bound (x / 128) 2).
  rewrite Hm.
  assert (x / 128 mod 2 = 0 \/ x / 128 mod 2 = 1) as [E|E] by lia; rewrite E.
  - rewrite Z.mul_0_r, Z.add_0_r. apply (lor_add (x mod 128) 1 7); lia.
  - rewrite Z.mul_1_r. change 128 with (1 * 2 ^ 7) at 2.
    rewrite <- (lor_add (x mod 128) 1 7) by lia.
    change 128 with (Z.shiftl 1 7) at 2. rewrite <- Z.lor_assoc, Z.lor_diag.
    apply (lor_add (x mod 128) 1 7); lia.
Qed.

Lemma land_127 b : Z.land b 127 = b mod 128.
Proof. change 127 with (Z.ones 7). by rewrite Z.land_ones by lia. Qed.

(** One round trip of the loops: [k] groups of seven bits are already read. *)
Lemma uvarint_put_loop n x rest i acc :
  0 <= i -> i + Z.of_nat n = 10 -> 0 <= x < 2 ^ (64 - 7 * i) -> (0 < n)%nat ->
  0 <= acc < 2 ^ (7 * i) ->
  uvarint_loop (put_uvarint_loop n x ++ rest) i acc (7 * i) =
    (acc + x * 2 ^ (7 * i), i + len (put_uvarint_loop n x)).
Proof.
  revert x i acc. induction n as [|n IH]; intros x i acc Hi Hn Hx Hpos Hacc; [lia|].
  assert (Hs : 0 <= 7 * i) by lia.
  assert (Hbound : x * 2 ^ (7 * i) < 2 ^ 64).
  { replace 64 with ((64 - 7 * i) + 7 * i) by lia. rewrite Z.pow_add_r by lia.
    pose proof (Z.pow_pos_nonneg 2 (7 * i)). nia. }
  cbn [put_uvarint_loop]. destruct (Z.ltb_spec x 128) as [Hlt|Hge].
  - cbn [app uvarint_loop].
    destruct (Z.eqb_spec i 10); [lia|].
    destruct (Z.ltb_spec x 128); [|lia].
    assert (((i =? 9) && (1 <? x))%bool = false) as ->.
    { destruct (Z.eqb_spec i 9) as [->|]; [|done]. simpl.
      change (2 ^ (64 - 7 * 9)) with 2 in Hx. apply Z.ltb_ge. lia. }
    unfold u64. rewrite Z.mod_small.
    + rewrite lor_add by lia. f_equal; unfold len; simpl; lia.
    + rewrite Z.shiftl_mul_pow2 by lia. nia.
  - cbn [app uvarint_loop]. rewrite put_uvarint_cont by lia.
    pose proof (Z.mod_pos_bound x 128).
    destruct (Z.eqb_spec i 10); [lia|].
    destruct (Z.ltb_spec (x mod 128 + 128) 128); [lia|].
    rewrite land_127. assert ((x mod 128 + 128) mod 128 = x mod 128) as ->.
    { by rewrite <- Z.add_mod_idemp_r, Z.mod_same, Z.add_0_r, Z.mod_mod by lia. }
    rewrite Z.shiftr_div_pow2 by lia. change (2 ^ 7) with 128.
    assert (Hdiv : x = 128 * (x / 128) + x mod 128) by (apply Z.div_mod; lia).
    assert (Hp : 2 ^ (7 * (i + 1)) = 128 * 2 ^ (7 * i)).
    { replace (7 * (i + 1)) with (7 + 7 * i) by lia. rewrite Z.pow_add_r by lia. done. }
    assert (Hi9 : i <= 8).
    { destruct (Z.eq_dec i 9) as [->|]; [|lia].
      change (2 ^ (64 - 7 * 9)) with 2 in Hx. lia. }
    assert (Hu : u64 (Z.shiftl (x mod 128) (7 * i)) = Z.shiftl (x mod 128) (7 * i)).
    { unfold u64. apply Z.mod_small. rewrite Z.shiftl_mul_pow2 by lia.
      pose proof (Z.pow_pos_nonneg 2 (7 * i)). nia. }
    rewrite Hu, lor_add by lia.
    replace (7 * i + 7) with (7 * (i + 1)) by lia.
    rewrite IH; try lia.
    + f_equal; [rewrite Hp; nia|]. rewrite len_cons. lia.
    + split; [apply Z.div_pos; lia|].
      apply Z.div_lt_upper_bound; [lia|].
      replace 128 with (2 ^ 7) by done. rewrite <- Z.pow_add_r by lia.
      replace (7 + (64 - 7 * (i + 1))) with (64 - 7 * i) by lia. lia.
    + rewrite Hp. pose proof (Z.pow_pos_nonneg 2 (7 * i)). nia.
Qed.

(** Reading back a written uvarint gives the value and consumes exactly its bytes. *)
Lemma Uvarint_PutUvarint x rest :
  0 <= x <= MaxUint64 -> Uvarint (PutUvarint x ++ rest) = (x, len (PutUvarint x)).
Proof.
  intros Hx. unfold Uvarint, PutUvarint. unfold MaxUint64 in Hx.
  pose proof (uvarint_put_loop 10 x rest 0 0) as H.
  change (7 * 0) with 0 in H. rewrite H; try lia. f_equal. lia.
Qed.

Lemma PutUvarint_ne x : PutUvarint x <> [].
Proof.
  unfold PutUvarint. generalize 9%nat. intros n. cbn [put_uvarint_loop]. by destruct (x <? 128).
Qed.

Lemma len_pos {A} (l : list A) : l <> [] -> 0 < len l.
Proof. destruct l; [done|]. intros _. rewrite len_cons. pose proof (len_nonneg l). lia. Qed.

Lemma PutUvarint_pos x : (len (PutUvarint x) <=? 0) = false.
Proof. apply Z.leb_gt, len_pos, PutUvarint_ne. Qed.

Lemma uvarint_loop_count b i x s v w :
  uvarint_loop b i x s = (v, w) -> 0 <= i -> 0 < w -> i < w <= i + len b.
Proof.
  revert i x s. induction b as [|c b IH]; intros i x s; simpl; intros E Hi Hw.
  { simplify_eq. lia. }
  rewrite len_cons. pose proof (len_nonneg b).
  destruct (Z.eqb_spec i 10); [simplify_eq; lia|].
  destruct (Z.ltb_spec c 128).
  - destruct ((i =? 9) && (1 <? c))%bool; simplify_eq; lia.
  - apply IH in E; lia.
Qed.

Lemma Uvarint_count b v w : Uvarint b = (v, w) -> 0 < w -> w <= len b.
Proof. intros E Hw. apply uvarint_loop_count in E; lia. Qed.

(** ** [uvarintSize]: the length a uvarint will take *)

Fixpoint uvarintSize_loop (fuel : nat) (x n : Z) : Z :=
  match fuel with
  | O => n
  | S f => if 128 <=? x then uvarintSize_loop f (Z.shiftr x 7) (n + 1) else n
  end.

(** Ten rounds are enough for a uint64: 7 bits go per round. *)
Definition uvarintSize (x : Z) : Z := uvarintSize_loop 10 x 1.

Lemma uvarintSize_loop_put n x k :
  0 <= x < 2 ^ (7 * Z.of_nat n) -> (0 < n)%nat ->
  uvarintSize_loop n x (k + 1) = k + len (put_uvarint_loop n x).
Proof.
  revert x k. induction n as [|n IH]; intros x k Hx Hn; [lia|].
  cbn [uvarintSize_loop put_uvarint_loop].
  destruct (Z.ltb_spec x 128), (Z.leb_spec 128 x); try lia.
  { rewrite len_cons, len_nil. lia. }
  rewrite len_cons. rewrite Z.shiftr_div_pow2 by lia. change (2 ^ 7) with 128.
  assert (x / 128 < 2 ^ (7 * Z.of_nat n)).
  { apply Z.div_lt_upper_bound; [lia|]. replace 128 with (2 ^ 7) by done.
    rewrite <- Z.pow_add_r by lia.
    replace (7 + 7 * Z.of_nat n) with (7 * Z.of_nat (S n)) by lia. lia. }
  assert (0 <= x / 128) by (apply Z.div_pos; lia).
  destruct n as [|n].
  { change (7 * Z.of_nat 0) with 0 in *. change (2 ^ 0) with 1 in *.
    change (2 ^ (7 * Z.of_nat 1)) with 128 in Hx. lia. }
  rewrite IH by lia. lia.
Qed.

Lemma uvarintSize_exact x : 0 <= x <= MaxUint64 -> uvarintSize x = len (PutUvarint x).
Proof.
  intros Hx. unfold uvarintSize, PutUvarint. unfold MaxUint64 in Hx.
  change 1 with (0 + 1) at 1. rewrite uvarintSize_loop_put; try lia.
Qed.

(** ** Length-prefixed byte strings *)

(** uvarint(len item) || item *)
Definition frame (item : bytes) : bytes := PutUvarint (len item) ++ item.

(** The shared shape of the decoders: read a uvarint length, check that many
    bytes remain, split them off. *)
Definition unframe (b : bytes) : option (bytes * bytes) :=
  let '(n, w) := Uvarint b in
  if w <=? 0 then None
  else
    let b := drop (Z.to_nat w) b in
    if len b <? n then None
    else Some (take (Z.to_nat n) b, drop (Z.to_nat n) b).

(** The bound the codecs rely on: a length fits the uvarint that frames it.
    Go slices are shorter still (their length is an [int]). *)
Definition fits (b : bytes) : Prop := len b <= MaxUint64.

Lemma fits_u64 b : fits b -> 0 <= len b <= MaxUint64.
Proof. unfold fits. pose proof (len_nonneg b). lia. Qed.

#[global] Instance fits_dec b : Decision (fits b).
Proof. unfold fits. apply _. Defined.

Lemma frame_ne item : frame item <> [].
Proof. unfold frame. pose proof (PutUvarint_ne (len item)). by destruct (PutUvarint _). Qed.

Lemma unframe_frame item rest : fits item -> unframe (frame item ++ rest) = Some (item, rest).
Proof.
  intros Hf. unfold unframe, frame. rewrite <- app_assoc.
  rewrite Uvarint_PutUvarint by (by apply fits_u64).
  rewrite PutUvarint_pos.
  rewrite drop_app_len. rewrite len_app. pose proof (len_nonneg rest).
  destruct (Z.ltb_spec (len item + len rest) (len item)); [lia|].
  by rewrite take_app_len, drop_app_len.
Qed.

(** Every decoded item fits. *)
Lemma u64_lor x y : 0 <= x <= MaxUint64 -> 0 <= y <= MaxUint64 -> 0 <= Z.lor x y <= MaxUint64.
Proof.
  unfold MaxUint64. intros Hx Hy.
  assert (E : Z.lor x y mod 2 ^ 64 = Z.lor x y).
  { rewrite <- Z.land_ones, Z.land_lor_distr_l, !Z.land_ones, !Z.mod_small by lia. done. }
  rewrite <- E. pose proof (Z.mod_pos_bound (Z.lor x y) (2 ^ 64)). lia.
Qed.

Lemma uvarint_loop_range b i x s :
  0 <= x <= MaxUint64 -> 0 <= (uvarint_loop b i x s).1 <= MaxUint64.
Proof.
  revert i x s. induction b as [|c b IH]; intros i x s Hx; simpl.
  { unfold MaxUint64; lia. }
  repeat case_match; simpl; try (unfold MaxUint64; lia);
    [|apply IH]; apply u64_lor; auto using u64_range.
Qed.

Lemma Uvarint_range b : 0 <= (Uvarint b).1 <= MaxUint64.
Proof. apply uvarint_loop_range. unfold MaxUint64. lia. Qed.

Lemma unframe_fits b item rest : unframe b = Some (item, rest) -> fits item.
Proof.
  unfold unframe. pose proof (Uvarint_range b) as Hr. destruct (Uvarint b) as [n w].
  repeat case_match; intros; simplify_eq. unfold fits, len. rewrite length_take. simpl in *. lia.
Qed.

Lemma unframe_ok b item rest :
  bytes_ok b -> unframe b = Some (item, rest) -> bytes_ok item /\ bytes_ok rest.
Proof.
  unfold unframe. intros Hb. destruct (Uvarint b) as [n w].
  repeat case_match; intros; simplify_eq. auto using Forall_take, Forall_drop.
Qed.

Lemma Uint64_range b : bytes_ok b -> 0 <= Uint64 b <= MaxUint64.
Proof.
  intros Hb. unfold Uint64, MaxUint64. pose proof (le_decode_range (take 8 b) (Forall_take _ _ _ Hb)).
  assert (256 ^ len (take 8 b) <= 256 ^ 8).
  { apply Z.pow_le_mono_r; [lia|]. unfold len. rewrite length_take. lia. }
  change (256 ^ 8) with (2 ^ 64) in *. lia.
Qed.

Lemma unframe_shorter b item rest :
  unframe b = Some (item, rest) -> (length rest < length b)%nat.
Proof.
  unfold unframe. destruct (Uvarint b) as [n w] eqn:E.
  destruct (Z.leb_spec w 0); [done|].
  destruct (Z.ltb_spec (len (drop (Z.to_nat w) b)) n); [done|].
  intros [= <- <-]. apply Uvarint_count in E; [|lia].
  unfold len in *. rewrite !length_drop. lia.
Qed.

Lemma frame_len item : fits item -> len (frame item) = uvarintSize (len item) + len item.
Proof.
  intros. unfold frame. rewrite len_app, uvarintSize_exact by (by apply fits_u64). done.
Qed.

#[global] Arguments PutUvarint : simpl never.
#[global] Arguments Uvarint : simpl never.
#[global] Arguments uvarintSize : simpl never.
#[global] Arguments PutUint64 : simpl never.
#[global] Arguments Uint64 : simpl never.
#[global] Arguments frame : simpl never.
#[global] Arguments unframe : simpl never.
#[export] Hint Resolve frame_ne PutUvarint_ne : go.

Example uvarint_300 : PutUvarint 300 = [172; 2] /\ Uvarint [172; 2; 7] = (300, 2).
Proof. by vm_compute. Qed.

(** ** Decimal numbers (fmt's %d, strconv.ParseUint with base 10) *)

Definition is_digit (b : byte) : bool := (48 <=? b) && (b <=? 57).

(** Digits of [n], most significant first; twenty digits hold any uint64. *)
Fixpoint format_loop (fuel : nat) (n : Z) (acc : bytes) : bytes :=
  match fuel with
  | O => acc
  | S f =>
      let acc := 48 + n mod 10 :: acc in
      if n <? 10 then acc else format_loop f (n / 10) acc
  end.

Definition FormatUint (n : Z) : bytes := format_loop 20 n [].

(** A syntax error or a value past the uint64 range is [None]. *)
Fixpoint parse_loop10 (s : bytes) (n : Z) : option Z :=
  match s with
  | [] => Some n
  | c :: s =>
      if is_digit c then
        let n := n * 10 + (c - 48) in
        if MaxUint64 <? n then None else parse_loop10 s n
      else None
  end.

Definition ParseUint (s : bytes) : option Z :=
  match s with [] => None | _ => parse_loop10 s 0 end.

Lemma digit_ok n : is_digit (48 + n mod 10) = true.
Proof.
  unfold is_digit. pose proof (Z.mod_pos_bound n 10).
  destruct (Z.leb_spec 48 (48 + n mod 10)), (Z.leb_spec (48 + n mod 10) 57); lia || done.
Qed.

Lemma format_loop_parse f n acc k :
  0 <= n < 10 ^ Z.of_nat f -> n <= MaxUint64 -> (0 < f)%nat -> acc = [] \/ parse_loop10 acc n = Some k ->
  (acc = [] -> k = n) ->
  parse_loop10 (format_loop f n acc) 0 = Some k.
Proof.
  revert n acc. induction f as [|f IH]; intros n acc Hn Hmax Hf Hacc Hk; [lia|].
  cbn [format_loop]. pose proof (Z.mod_pos_bound n 10). pose proof (Z.div_mod n 10).
  assert (Hstep : parse_loop10 (48 + n mod 10 :: acc) (n / 10) = Some k).
  { cbn [parse_loop10]. rewrite digit_ok.
    replace (n / 10 * 10 + (48 + n mod 10 - 48)) with n by lia.
    destruct (Z.ltb_spec MaxUint64 n); [lia|]. destruct Hacc as [->|]; [|done].
    simpl. by rewrite Hk. }
  destruct (Z.ltb_spec n 10).
  - by rewrite Z.div_small in Hstep by lia.
  - assert (n / 10 <= n) by (apply Z.div_le_upper_bound; lia).
    apply IH; try done; [| lia| |by right].
    + rewrite Nat2Z.inj_succ, Z.pow_succ_r in Hn by lia.
      split; [apply Z.div_pos; lia|apply Z.div_lt_upper_bound; lia].
    + destruct f; [|lia]. simpl in Hn. lia.
Qed.

Lemma format_loop_ne f n acc : format_loop (S f) n acc <> [].
Proof.
  cbn [format_loop]. case_match; [done|].
  assert (Hacc : 48 + n mod 10 :: acc <> []) by done. revert Hacc.
  generalize (48 + n mod 10 :: acc) as l, (n / 10) as k.
  induction f as [|f IH]; intros l k Hl; cbn [format_loop]; [done|].
  case_match; [done|]. by apply IH.
Qed.

Lemma ParseUint_Format n : 0 <= n <= MaxUint64 -> ParseUint (FormatUint n) = Some n.
Proof.
  intros Hn. unfold ParseUint, FormatUint.
  assert (E : parse_loop10 (format_loop 20 n []) 0 = Some n).
  { apply format_loop_parse; auto; [|lia|lia]. unfold MaxUint64 in Hn. split; [lia|].
    apply Z.le_lt_trans with (2 ^ 64 - 1); [lia|reflexivity]. }
  pose proof (format_loop_ne 19 n []) as Hne.
  by destruct (format_loop 20 n []).
Qed.

Lemma format_loop_digits f n acc :
  Forall (fun c => is_digit c = true) acc -> Forall (fun c => is_digit c = true) (format_loop f n acc).
Proof.
  revert n acc. induction f as [|f IH]; intros n acc Hacc; cbn [format_loop]; [done|].
  assert (Forall (fun c => is_digit c = true) (48 + n mod 10 :: acc)).
  { constructor; [apply digit_ok|done]. }
  case_match; [done|]. by apply IH.
Qed.

Lemma FormatUint_digits n : Forall (fun c => is_digit c = true) (FormatUint n).
Proof. apply format_loop_digits. constructor. Qed.

#[global] Arguments FormatUint : simpl never.
#[global] Arguments ParseUint : simpl never.
