(* ===== verification/Collections.v ===== *)
(** * Exact sets, lists and hashes: pkg/set, pkg/list, pkg/hashx

    The in-memory collections behind ModeSet, ModeList and ModeHash and the
    blobs they are stored and replicated as.  A Go map keyed by [string(item)]
    is a [gset]/[gmap] keyed by the item's bytes. *)
From S2P Require Import Prelude Wire.

(** ** Exact sets (pkg/set/set.go) *)

Abbreviation SetT := (gset bytes).

Definition Set_New : SetT := ∅.
Definition Set_Add (s : SetT) (item : bytes) : SetT := {[item]} ∪ s.
Definition Set_FromMembers (its : list bytes) : SetT := fold_left Set_Add its Set_New.
Definition Set_Remove (s : SetT) (item : bytes) : SetT := s ∖ {[item]}.
Definition Set_Contains (s : SetT) (item : bytes) : bool := bool_decide (item ∈ s).
Definition Set_Len (s : SetT) : Z := Z.of_nat (size s).

(** Map keys in an arbitrary order, then [sort.Strings]. *)
Definition Set_Members (s : SetT) : list bytes := merge_sort bytes_le (elements s).

Definition Set_Encode (s : SetT) : bytes := concat (map frame (Set_Members s)).
Definition Set_EncodeItems (its : list bytes) : bytes := Set_Encode (Set_FromMembers its).

(** A sum over the map, in whatever order Go ranges over it. *)
Definition Set_ApproxWireBytes (s : SetT) : Z :=
  zsum (map (fun k => uvarintSize (len k) + len k) (elements s)).

(** One round of the decoding loop: bad uvarint and truncated item are errors. *)
Definition set_decode_step (out : list bytes) (b : bytes) : option (list bytes * bytes) :=
  match unframe b with
  | None => None
  | Some (item, rest) => Some (out ++ [item], rest)
  end.

Definition Set_Decode (b : bytes) : option (list bytes) :=
  match for_bytes set_decode_step [] b with
  | None => None
  | Some out => Some (Set_Members (Set_FromMembers out))
  end.

Definition Set_DecodeSet (b : bytes) : option SetT :=
  match Set_Decode b with
  | None => None
  | Some mem => Some (Set_FromMembers mem)
  end.

#[global] Instance set_decode_step_consuming : Consuming set_decode_step.
Proof.
  intros s b s' b'. unfold set_decode_step.
  destruct (unframe b) as [[i r]|] eqn:E; intros; simplify_eq. by eapply unframe_shorter.
Qed.

Lemma elem_of_FromMembers (x : bytes) its : x ∈ Set_FromMembers its <-> x ∈ its.
Proof.
  unfold Set_FromMembers, Set_New.
  cut (forall s : SetT, x ∈ fold_left Set_Add its s <-> x ∈ its \/ x ∈ s).
  { intros H. rewrite H. set_solver. }
  induction its as [|y its IH]; intros s; cbn [fold_left]; [set_solver|].
  rewrite IH. unfold Set_Add. set_solver.
Qed.

Lemma elem_of_Members (x : bytes) s : x ∈ Set_Members s <-> x ∈ s.
Proof. unfold Set_Members. rewrite merge_sort_elem. apply elem_of_elements. Qed.

Lemma FromMembers_Members s : Set_FromMembers (Set_Members s) = s.
Proof. apply set_eq. intros x. by rewrite elem_of_FromMembers, elem_of_Members. Qed.

Lemma Members_sorted s : StronglySorted bytes_le (Set_Members s).
Proof. apply (StronglySorted_merge_sort bytes_le). Qed.

Lemma Members_NoDup s : NoDup (Set_Members s).
Proof. unfold Set_Members. rewrite merge_sort_Permutation. apply NoDup_elements. Qed.

Lemma Members_size s : len (Set_Members s) = Set_Len s.
Proof. unfold Set_Members, Set_Len. by rewrite merge_sort_len. Qed.

(** Every member is small enough to have been a Go slice. *)
Definition set_fits (s : SetT) : Prop := forall x : bytes, x ∈ s -> fits x.

(** The accumulating decoders of pkg/set and pkg/list read framed items back. *)
Lemma set_decode_loop its acc :
  Forall fits its ->
  for_bytes set_decode_step acc (concat (map frame its)) = Some (acc ++ its).
Proof.
  intros Hf.
  rewrite (for_bytes_concat set_decode_step frame (fun o i => o ++ [i])
             (fun _ l => Forall fits l)); [|intros s a l rest Ha|done].
  - f_equal. clear Hf. revert acc.
    induction its as [|i its IH]; intros acc; simpl; [by rewrite app_nil_r|].
    rewrite IH, <- app_assoc. done.
  - inv Ha. unfold set_decode_step. rewrite unframe_frame by done.
    split_and!; [apply frame_ne|done|done].
Qed.

Lemma set_fits_members s : set_fits s -> Forall fits (Set_Members s).
Proof. intros H. apply Forall_forall. intros x Hx. by apply H, elem_of_Members. Qed.

Lemma Set_Decode_Encode s : set_fits s -> Set_Decode (Set_Encode s) = Some (Set_Members s).
Proof.
  intros Hs. unfold Set_Decode, Set_Encode.
  rewrite set_decode_loop by (by apply set_fits_members).
  simpl. by rewrite FromMembers_Members.
Qed.

Lemma Set_DecodeSet_Encode s : set_fits s -> Set_DecodeSet (Set_Encode s) = Some s.
Proof.
  intros Hs. unfold Set_DecodeSet. rewrite Set_Decode_Encode by done.
  by rewrite FromMembers_Members.
Qed.

(** The size estimate used for MaxBytes accounting is the exact blob size. *)
Lemma Set_ApproxWireBytes_exact s : set_fits s -> Set_ApproxWireBytes s = len (Set_Encode s).
Proof.
  intros Hs. unfold Set_ApproxWireBytes, Set_Encode, Set_Members.
  rewrite len_concat, map_map, (merge_sort_Permutation bytes_le (elements s)).
  f_equal. apply map_ext_in. intros x Hx. symmetry. apply frame_len, Hs.
  by apply elem_of_elements, list_elem_of_In.
Qed.

(** Whatever arrives on the wire, a decoded set re-encodes to one canonical blob. *)
Lemma set_decode_loop_fits b out :
  for_bytes set_decode_step [] b = Some out -> Forall fits out.
Proof.
  apply (for_bytes_inv _ (Forall fits) (fun _ => True)); [|done|done].
  intros s b' s' b'' Hs _. unfold set_decode_step.
  destruct (unframe b') as [[i r]|] eqn:E; intros; simplify_eq.
  split; [|done]. apply Forall_app. split; [done|]. repeat constructor. by eapply unframe_fits.
Qed.

Lemma Set_DecodeSet_fits b s : Set_DecodeSet b = Some s -> set_fits s.
Proof.
  unfold Set_DecodeSet, Set_Decode. destruct (for_bytes _ _ _) as [out|] eqn:E; [|done].
  intros [= <-] x. rewrite elem_of_FromMembers, elem_of_Members, elem_of_FromMembers.
  apply set_decode_loop_fits in E. rewrite Forall_forall in E. apply E.
Qed.

Lemma Set_Decode_sorted b mem :
  Set_Decode b = Some mem -> StronglySorted bytes_le mem /\ NoDup mem.
Proof.
  unfold Set_Decode. destruct (for_bytes _ _ _); intros; simplify_eq.
  split; [apply Members_sorted|apply Members_NoDup].
Qed.

(** ** Lists (pkg/list/codec.go) *)

(** [List.items], index 0 = head. *)
Abbreviation ListT := (list bytes).

Definition List_New : ListT := [].
Definition List_LPush (l : ListT) (item : bytes) : ListT := item :: l.
Definition List_RPush (l : ListT) (item : bytes) : ListT := l ++ [item].

Definition List_LPop (l : ListT) : option bytes * ListT :=
  match l with
  | [] => (None, [])
  | x :: l => (Some x, l)
  end.

(** [items[n-1]] and [items[:n-1]]. *)
Definition List_RPop (l : ListT) : option bytes * ListT :=
  match l with
  | [] => (None, [])
  | _ :: _ => (last l, take (length l - 1) l)
  end.

Definition List_Len (l : ListT) : Z := len l.

Definition List_resolve (l : ListT) (idx : Z) : option Z :=
  let n := List_Len l in
  if n =? 0 then None
  else
    let idx := if idx <? 0 then n + idx else idx in
    if (idx <? 0) || (n <=? idx) then None else Some idx.

Definition List_Index (l : ListT) (idx : Z) : option bytes :=
  match List_resolve l idx with
  | None => None
  | Some i => l !! Z.to_nat i
  end.

(** The Redis-style clamp of an inclusive window [start, stop] over [n]
    elements, written out in list.Range, zset.Range and NormalizeByteRange. *)
Definition redis_window (n start stop : Z) : option (Z * Z) :=
  if n =? 0 then None
  else
    let start := if start <? 0 then n + start else start in
    let stop := if stop <? 0 then n + stop else stop in
    let start := if start <? 0 then 0 else start in
    let stop := if n <=? stop then n - 1 else stop in
    if (stop <? start) || (n <=? start) then None else Some (start, stop).

(** [for i := start; i <= stop; i++ { out = append(out, items[i]) }] *)
Definition slice_loop {A} (l : list A) (start stop : Z) : list A :=
  omap (fun i => l !! i) (seq (Z.to_nat start) (Z.to_nat (stop - start + 1))).

Definition List_Range (l : ListT) (start stop : Z) : list bytes :=
  match redis_window (List_Len l) start stop with
  | None => []
  | Some (lo, hi) => slice_loop l lo hi
  end.

Definition List_Encode (l : ListT) : bytes := concat (map frame l).

Definition List_ApproxWireBytes (l : ListT) : Z :=
  zsum (map (fun it => uvarintSize (len it) + len it) l).

Definition List_Decode (b : bytes) : option ListT := for_bytes set_decode_step List_New b.

Lemma List_Decode_Encode l : Forall fits l -> List_Decode (List_Encode l) = Some l.
Proof. apply set_decode_loop. Qed.

Lemma List_ApproxWireBytes_exact l :
  Forall fits l -> List_ApproxWireBytes l = len (List_Encode l).
Proof.
  intros Hl. unfold List_ApproxWireBytes, List_Encode. rewrite len_concat, map_map.
  f_equal. apply map_ext_in. intros x Hx. symmetry. apply frame_len.
  rewrite Forall_forall in Hl. by apply Hl, list_elem_of_In.
Qed.

Lemma redis_window_bounds n start stop lo hi :
  0 <= n -> redis_window n start stop = Some (lo, hi) -> 0 <= lo <= hi /\ hi < n.
Proof. unfold redis_window. intros Hn. zcmp; simpl; intros; simplify_eq; lia. Qed.

(** A window inside the list selects the contiguous segment. *)
Lemma slice_loop_segment {A} (l : list A) lo hi :
  0 <= lo <= hi -> hi < len l ->
  slice_loop l lo hi = take (Z.to_nat (hi - lo + 1)) (drop (Z.to_nat lo) l).
Proof.
  unfold slice_loop, len. intros Hlo Hhi.
  assert (Hb : (Z.to_nat lo + Z.to_nat (hi - lo + 1) <= length l)%nat) by lia.
  generalize dependent (Z.to_nat (hi - lo + 1)). generalize (Z.to_nat lo).
  clear. intros i k. revert i. induction k as [|k IH]; intros i Hb; [done|].
  destruct (lookup_lt_is_Some_2 l i) as [x Hx]; [lia|].
  cbn [seq omap]. simpl. rewrite Hx, IH by lia.
  by rewrite (drop_S l x i Hx).
Qed.

Lemma List_Range_segment l start stop lo hi :
  redis_window (len l) start stop = Some (lo, hi) ->
  List_Range l start stop = take (Z.to_nat (hi - lo + 1)) (drop (Z.to_nat lo) l).
Proof.
  intros E. unfold List_Range, List_Len. rewrite E.
  apply redis_window_bounds in E; [|apply len_nonneg].
  apply slice_loop_segment; lia.
Qed.

Lemma List_RPop_RPush l x : List_RPop (List_RPush l x) = (Some x, l).
Proof.
  unfold List_RPop, List_RPush. destruct (l ++ [x]) eqn:E; [by destruct l|].
  rewrite <- E, last_snoc, length_app. simpl. f_equal. apply take_app_length'. lia.
Qed.

(** ** Hashes (pkg/hashx/hashx.go) *)

Abbreviation HashT := (gmap bytes bytes).

Definition Hash_New : HashT := ∅.
Definition Hash_Set (h : HashT) (field value : bytes) : HashT := <[field := value]> h.
Definition Hash_Del (h : HashT) (field : bytes) : HashT := delete field h.
Definition Hash_Get (h : HashT) (field : bytes) : option bytes := h !! field.
Definition Hash_Exists (h : HashT) (field : bytes) : bool := bool_decide (is_Some (h !! field)).
Definition Hash_Len (h : HashT) : Z := Z.of_nat (size h).

(** Sort the keys, then look each one up. *)
Definition Hash_keys (h : HashT) : list bytes :=
  merge_sort bytes_le (map fst (map_to_list h)).

Definition Hash_All (h : HashT) : list (bytes * bytes) :=
  map (fun k => (k, default [] (h !! k))) (Hash_keys h).

Definition hash_pair (fv : bytes * bytes) : bytes := frame fv.1 ++ frame fv.2.

Definition Hash_Encode (h : HashT) : bytes := concat (map hash_pair (Hash_All h)).

Definition Hash_ApproxWireBytes (h : HashT) : Z :=
  zsum (map (fun kv => uvarintSize (len kv.1) + len kv.1
                       + (uvarintSize (len kv.2) + len kv.2)) (map_to_list h)).

Definition consumePair (b : bytes) : option (bytes * bytes * bytes) :=
  match unframe b with
  | None => None
  | Some (field, b) =>
      match unframe b with
      | None => None
      | Some (value, rest) => Some (field, value, rest)
      end
  end.

Definition hash_decode_step (h : HashT) (b : bytes) : option (HashT * bytes) :=
  match consumePair b with
  | None => None
  | Some (field, value, rest) => Some (Hash_Set h field value, rest)
  end.

Definition Hash_Decode (b : bytes) : option HashT := for_bytes hash_decode_step Hash_New b.

Definition Hash_EncodeSet (field value : bytes) : bytes := frame field ++ frame value.

(** Exactly one pair: an empty payload and leftover bytes are errors. *)
Definition Hash_DecodeSet (b : bytes) : option (bytes * bytes) :=
  match b with
  | [] => None
  | _ =>
      match consumePair b with
      | Some (field, value, []) => Some (field, value)
      | _ => None
      end
  end.

Lemma consumePair_shorter b f v rest :
  consumePair b = Some (f, v, rest) -> (length rest < length b)%nat.
Proof.
  unfold consumePair. destruct (unframe b) as [[f' b1]|] eqn:E1; [|done].
  destruct (unframe b1) as [[v' b2]|] eqn:E2; [|done]. intros [= -> -> ->].
  apply unframe_shorter in E1, E2. lia.
Qed.

#[global] Instance hash_decode_step_consuming : Consuming hash_decode_step.
Proof.
  intros s b s' b'. unfold hash_decode_step.
  destruct (consumePair b) as [[[f v] r]|] eqn:E; intros; simplify_eq.
  by eapply consumePair_shorter.
Qed.

Lemma consumePair_app f v rest :
  fits f -> fits v -> consumePair (hash_pair (f, v) ++ rest) = Some (f, v, rest).
Proof.
  intros Hf Hv. unfold consumePair, hash_pair. simpl. rewrite <- app_assoc.
  by rewrite !unframe_frame.
Qed.

Definition hash_fits (h : HashT) : Prop := forall k v, h !! k = Some v -> fits k /\ fits v.

Lemma elem_of_Hash_All h k v : (k, v) ∈ Hash_All h <-> h !! k = Some v.
Proof.
  unfold Hash_All, Hash_keys. rewrite list_elem_of_fmap. split.
  - intros (k' & [= -> ->] & Hin). rewrite merge_sort_elem in Hin.
    apply list_elem_of_fmap in Hin as ([k0 v0] & -> & Hm).
    apply elem_of_map_to_list in Hm. simpl. by rewrite Hm.
  - intros E. exists k. rewrite E. split; [done|]. rewrite merge_sort_elem.
    apply list_elem_of_fmap. exists (k, v). split; [done|]. by apply elem_of_map_to_list.
Qed.

Lemma Hash_All_perm h : Hash_All h ≡ₚ map_to_list h.
Proof.
  unfold Hash_All, Hash_keys. rewrite (merge_sort_Permutation bytes_le).
  rewrite map_map. erewrite map_ext_in; [by rewrite map_id|].
  intros [k v] Hin. apply list_elem_of_In, elem_of_map_to_list in Hin. simpl.
  by rewrite Hin.
Qed.

Lemma Hash_All_fold h : fold_left (fun m kv => Hash_Set m kv.1 kv.2) (Hash_All h) Hash_New = h.
Proof.
  assert (Hnd : NoDup (map fst (Hash_All h))).
  { unfold Hash_All. rewrite map_map, map_id. unfold Hash_keys.
    rewrite merge_sort_Permutation. apply NoDup_fst_map_to_list. }
  apply (fold_insert_map fst snd); [done|]. intros k v.
  rewrite <- elem_of_Hash_All. split; [by exists (k, v)|].
  intros ([k' v'] & Hin & <- & <-). done.
Qed.

Lemma Hash_Decode_Encode h : hash_fits h -> Hash_Decode (Hash_Encode h) = Some h.
Proof.
  intros Hh. unfold Hash_Decode, Hash_Encode.
  rewrite (for_bytes_concat hash_decode_step hash_pair (fun m kv => Hash_Set m kv.1 kv.2)
             (fun _ l => Forall (fun kv => fits kv.1 /\ fits kv.2) l)).
  - by rewrite Hash_All_fold.
  - intros s [k v] l rest Ha. inv Ha. destruct_and?. unfold hash_decode_step.
    rewrite consumePair_app by done. split_and!; [|done|done].
    unfold hash_pair. simpl. pose proof (frame_ne k). by destruct (frame k).
  - apply Forall_forall. intros [k v] Hin. by apply Hh, elem_of_Hash_All.
Qed.

Lemma Hash_Decode_fits b h : Hash_Decode b = Some h -> hash_fits h.
Proof.
  apply (for_bytes_inv _ hash_fits (fun _ => True)); [|done|done].
  intros s b' s' b'' Hs _. unfold hash_decode_step, consumePair.
  destruct (unframe b') as [[f r]|] eqn:E1; [|done].
  destruct (unframe r) as [[v r']|] eqn:E2; intros; simplify_eq.
  split; [|done]. intros k x. unfold Hash_Set. rewrite lookup_insert_Some.
  intros [[<- <-]|[_ Hk]]; [|by apply Hs].
  split; by eapply unframe_fits.
Qed.

Lemma Hash_ApproxWireBytes_exact h :
  hash_fits h -> Hash_ApproxWireBytes h = len (Hash_Encode h).
Proof.
  intros Hh. unfold Hash_ApproxWireBytes, Hash_Encode.
  rewrite len_concat, map_map, (Hash_All_perm h).
  f_equal. apply map_ext_in. intros [k v] Hx.
  apply list_elem_of_In, elem_of_map_to_list, Hh in Hx as [Hk Hv].
  unfold hash_pair. simpl. rewrite len_app, !frame_len; done.
Qed.

Lemma Hash_DecodeSet_EncodeSet f v :
  fits f -> fits v -> Hash_DecodeSet (Hash_EncodeSet f v) = Some (f, v).
Proof.
  intros Hf Hv. unfold Hash_DecodeSet, Hash_EncodeSet.
  pose proof (consumePair_app f v [] Hf Hv) as H. rewrite app_nil_r in H.
  unfold hash_pair in H. simpl in H. rewrite H.
  pose proof (frame_ne f). by destruct (frame f).
Qed.

(** collection codecs round-trip.  Sets, lists and hashes decode to what
    was encoded, the size estimate charged to the byte budget is the exact
    encoded length, and the owner-inbox form of a field write decodes to its
    field and value. *)
Theorem collection_codecs :
  (forall s, set_fits s -> Set_DecodeSet (Set_Encode s) = Some s /\ Set_ApproxWireBytes s = len (Set_Encode s)) /\
  (forall l, Forall fits l -> List_Decode (List_Encode l) = Some l /\ List_ApproxWireBytes l = len (List_Encode l)) /\
  (forall h, hash_fits h -> Hash_Decode (Hash_Encode h) = Some h /\ Hash_ApproxWireBytes h = len (Hash_Encode h)) /\
  (forall f v, fits f -> fits v -> Hash_DecodeSet (Hash_EncodeSet f v) = Some (f, v)).
Proof.
  split_and!; intros.
  - split; [by apply Set_DecodeSet_Encode|by apply Set_ApproxWireBytes_exact].
  - split; [by apply List_Decode_Encode|by apply List_ApproxWireBytes_exact].
  - split; [by apply Hash_Decode_Encode|by apply Hash_ApproxWireBytes_exact].
  - by apply Hash_DecodeSet_EncodeSet.
Qed.
