(* ===== verification/Scored.v ===== *)
(** * Sorted sets and point indexes: pkg/zset, pkg/geo

    A float64 is its IEEE-754 bit pattern (what [math.Float64bits] returns), a
    [Z] below [2^64]; comparisons are computed on the pattern.  The
    distance and radius queries of geo (trigonometry) are not modelled. *)
From S2P Require Import Prelude Wire Collections.

(** ** float64 bit patterns *)

Abbreviation float64 := Z (only parsing).

Definition sign_bit : Z := 2 ^ 63.
(** The bits without the sign. *)
Definition f64_mag (x : float64) : Z := x mod sign_bit.
Definition f64_inf : Z := 0x7FF0000000000000.
Definition IsNaN (x : float64) : bool := f64_inf <? f64_mag x.
Definition IsInf (x : float64) : bool := f64_mag x =? f64_inf.

(** Sign-magnitude patterns ordered as integers; both zeros map to 0. *)
Definition f64_key (x : float64) : Z := if x <? sign_bit then f64_mag x else - f64_mag x.

Definition f64_lt (x y : float64) : bool :=
  negb (IsNaN x) && negb (IsNaN y) && (f64_key x <? f64_key y).
Definition f64_eq (x y : float64) : bool :=
  negb (IsNaN x) && negb (IsNaN y) && (f64_key x =? f64_key y).
Definition f64_le (x y : float64) : bool := f64_lt x y || f64_eq x y.

Definition is_f64 (x : float64) : Prop := 0 <= x <= MaxUint64.

(** A few literals of the source. *)
Definition f64_180 : float64 := 0x4066800000000000.
Definition f64_90 : float64 := 0x4056800000000000.
Definition f64_neg (x : float64) : float64 := if x <? sign_bit then x + sign_bit else x - sign_bit.

(** ** The pairs of a map in key order *)

Section by_key.
Context {V : Type}.
Implicit Types (g : gmap bytes V).

Definition by_key g : list (bytes * V) :=
  omap (fun k => (fun p => (k, p)) <$> g !! k) (merge_sort bytes_le (map fst (map_to_list g))).

Lemma elem_of_by_key g k p : (k, p) ∈ by_key g <-> g !! k = Some p.
Proof.
  unfold by_key. rewrite list_elem_of_omap. split.
  - intros (k' & Hin & E). destruct (g !! k') eqn:Ek; simplify_eq/=. done.
  - intros E. exists k. rewrite E. split; [|done]. rewrite merge_sort_elem.
    apply list_elem_of_fmap. exists (k, p). split; [done|]. by apply elem_of_map_to_list.
Qed.

Lemma by_key_fst g : map fst (by_key g) = merge_sort bytes_le (map fst (map_to_list g)).
Proof.
  unfold by_key.
  assert (Hall : Forall (fun k => is_Some (g !! k)) (merge_sort bytes_le (map fst (map_to_list g)))).
  { apply Forall_forall. intros k Hk. rewrite merge_sort_elem in Hk.
    apply list_elem_of_fmap in Hk as ([k' p] & -> & Hm). apply elem_of_map_to_list in Hm. by eexists. }
  induction Hall as [|k l [p Hp] Hl IH]; [done|]. simpl. rewrite Hp. simpl. f_equal. exact IH.
Qed.

Lemma by_key_perm g : by_key g ≡ₚ map_to_list g.
Proof.
  apply NoDup_Permutation.
  - apply (NoDup_fmap_1 fst). change (NoDup (map fst (by_key g))).
    rewrite by_key_fst, merge_sort_Permutation. apply NoDup_fst_map_to_list.
  - apply NoDup_map_to_list.
  - intros [k p]. by rewrite elem_of_by_key, elem_of_map_to_list.
Qed.

Lemma fold_by_key g : fold_left (fun m (kp : bytes * V) => <[kp.1 := kp.2]> m) (by_key g) ∅ = g.
Proof.
  apply (fold_insert_map fst snd); [rewrite by_key_perm; apply NoDup_fst_map_to_list|]. intros k v.
  rewrite <- elem_of_by_key. split; [by exists (k, v)|]. intros ([k' v'] & Hin & <- & <-). done.
Qed.

Lemma by_key_singleton k (p : V) : by_key {[k := p]} = [(k, p)].
Proof. apply Permutation_singleton_r. by rewrite by_key_perm, map_to_list_singleton. Qed.

Lemma by_key_len g : len (by_key g) = Z.of_nat (size g).
Proof. unfold len. by rewrite by_key_perm, length_map_to_list. Qed.
End by_key.

(** ** Sorted sets (pkg/zset/zset.go) *)

Record ZMember := { zm_member : bytes; zm_score : float64 }.

#[global] Instance ZMember_eq_dec : EqDecision ZMember.
Proof. solve_decision. Defined.

(** [ZSet.scores] *)
Abbreviation ZSetT := (gmap bytes float64).

Definition ZSet_New : ZSetT := ∅.

(** NaN scores are rejected ([None] is the error return). *)
Definition ZSet_Add (z : ZSetT) (member : bytes) (score : float64) : option ZSetT :=
  if IsNaN score then None else Some (<[member := score]> z).

Definition ZSet_Rem (z : ZSetT) (member : bytes) : ZSetT := delete member z.
Definition ZSet_Score (z : ZSetT) (member : bytes) : option float64 := z !! member.
Definition ZSet_Card (z : ZSetT) : Z := Z.of_nat (size z).

(** The [less] function given to sort.Slice. *)
Definition zless (a b : ZMember) : bool :=
  if negb (f64_eq (zm_score a) (zm_score b)) then f64_lt (zm_score a) (zm_score b)
  else bytes_ltb (zm_member a) (zm_member b).

Definition zle (a b : ZMember) : Prop := zless b a = false.
#[global] Instance zle_dec : RelDecision zle.
Proof. intros a b. unfold zle. apply _. Defined.

Definition zmembers (z : ZSetT) : list ZMember :=
  map (fun kv => {| zm_member := kv.1; zm_score := kv.2 |}) (map_to_list z).

Definition ZSet_ordered (z : ZSetT) : list ZMember := merge_sort zle (zmembers z).

Definition ZSet_Range (z : ZSetT) (start stop : Z) : list ZMember :=
  let all := ZSet_ordered z in
  match redis_window (len all) start stop with
  | None => []
  | Some (lo, hi) => slice_loop all lo hi
  end.

(** Skip below [min], stop at the first score above [max]. *)
Fixpoint zrange_scan (all : list ZMember) (min max : float64) : list ZMember :=
  match all with
  | [] => []
  | m :: all =>
      if f64_lt (zm_score m) min then zrange_scan all min max
      else if f64_lt max (zm_score m) then []
      else m :: zrange_scan all min max
  end.

Definition ZSet_RangeByScore (z : ZSetT) (min max : float64) : list ZMember :=
  zrange_scan (ZSet_ordered z) min max.

Definition zrecord (m : ZMember) : bytes := PutUint64 (zm_score m) ++ frame (zm_member m).

Definition ZSet_Encode (z : ZSetT) : bytes := concat (map zrecord (ZSet_ordered z)).

Definition ZSet_ApproxWireBytes (z : ZSetT) : Z :=
  zsum (map (fun kv => 8 + (uvarintSize (len kv.1) + len kv.1)) (map_to_list z)).

Definition zset_decode_step (z : ZSetT) (b : bytes) : option (ZSetT * bytes) :=
  if len b <? 8 then None
  else
    let score := Uint64 b in
    match unframe (drop 8 b) with
    | None => None
    | Some (mem, rest) =>
        match ZSet_Add z mem score with
        | None => None
        | Some z => Some (z, rest)
        end
    end.

Definition ZSet_Decode (b : bytes) : option ZSetT := for_bytes zset_decode_step ZSet_New b.

(** A rejected NaN leaves the fresh set empty, so the payload is empty. *)
Definition ZSet_EncodeAdd (member : bytes) (score : float64) : bytes :=
  ZSet_Encode (default ZSet_New (ZSet_Add ZSet_New member score)).

Definition ZSet_DecodeAdd (b : bytes) : option (bytes * float64) :=
  match ZSet_Decode b with
  | None => None
  | Some z =>
      match ZSet_ordered z with
      | [m] => Some (zm_member m, zm_score m)
      | _ => None
      end
  end.

(** ** Facts about the order *)

Lemma f64_key_le x y : IsNaN x = false -> IsNaN y = false ->
  f64_lt y x = false <-> f64_key x <= f64_key y.
Proof. unfold f64_lt. intros -> ->. simpl. split; intros; zprop; [lia|by apply Z.ltb_ge]. Qed.

(** On NaN-free members the comparison is the lexicographic order on
    (score, member). *)
Definition zok (m : ZMember) : Prop := IsNaN (zm_score m) = false.

Lemma zle_spec a b : zok a -> zok b ->
  zle a b <-> f64_key (zm_score a) < f64_key (zm_score b) \/
              (f64_key (zm_score a) = f64_key (zm_score b) /\
               bytes_le (zm_member a) (zm_member b)).
Proof.
  unfold zok, zle, zless, f64_eq, f64_lt, bytes_ltb, bytes_le. intros -> ->. simpl.
  rewrite (bytes_compare_antisym (zm_member a)).
  destruct (Z.eqb_spec (f64_key (zm_score b)) (f64_key (zm_score a))) as [->|]; simpl.
  - destruct (bytes_compare (zm_member a) (zm_member b)); simpl; intuition (try lia; try done).
  - destruct (Z.ltb_spec (f64_key (zm_score b)) (f64_key (zm_score a))); intuition (try lia; done).
Qed.

#[global] Instance zle_total : Total zle.
Proof.
  intros a b. unfold zle, zless.
  destruct (f64_eq (zm_score a) (zm_score b)) eqn:E1.
  - assert (f64_eq (zm_score b) (zm_score a) = true) as ->.
    { unfold f64_eq in *. zprop. rewrite H, H1. simpl. apply Z.eqb_eq. lia. }
    simpl. unfold bytes_ltb. rewrite (bytes_compare_antisym (zm_member a)).
    destruct (bytes_compare (zm_member a) (zm_member b)); simpl; auto.
  - assert (f64_eq (zm_score b) (zm_score a) = false) as ->.
    { unfold f64_eq in *. rewrite (Z.eqb_sym (f64_key (zm_score b))).
      by rewrite (andb_comm (negb (IsNaN (zm_score b)))). }
    simpl. unfold f64_lt. destruct (IsNaN _), (IsNaN _); simpl; auto.
    destruct (Z.ltb_spec (f64_key (zm_score b)) (f64_key (zm_score a))); auto.
    right. apply Z.ltb_ge. lia.
Qed.

(** Members with distinct names are never equivalent without being equal. *)
Lemma zle_trans a b c : zok a -> zok b -> zok c -> zle a b -> zle b c -> zle a c.
Proof.
  intros Ha Hb Hc. rewrite !zle_spec by done.
  intros [?|[? ?]] [?|[? ?]]; try (left; lia).
  right. split; [lia|]. by transitivity (zm_member b).
Qed.

(** Every score of a well-formed sorted set is a non-NaN float64. *)
Definition zset_ok (z : ZSetT) : Prop :=
  forall k s, z !! k = Some s -> is_f64 s /\ IsNaN s = false /\ fits k.

Lemma ordered_perm z : ZSet_ordered z ≡ₚ zmembers z.
Proof. apply merge_sort_Permutation. Qed.

Lemma elem_of_ordered m z : m ∈ ZSet_ordered z <-> z !! zm_member m = Some (zm_score m).
Proof.
  rewrite ordered_perm. unfold zmembers. rewrite list_elem_of_fmap. split.
  - intros ([k s] & -> & Hin). by apply elem_of_map_to_list in Hin.
  - intros E. exists (zm_member m, zm_score m).
    split; [by destruct m|]. by apply elem_of_map_to_list.
Qed.

Lemma ordered_len z : len (ZSet_ordered z) = ZSet_Card z.
Proof.
  unfold len, ZSet_Card. rewrite ordered_perm. unfold zmembers.
  by rewrite length_map, length_map_to_list.
Qed.

(** Merge sort needs transitivity only on the elements at hand. *)
Lemma Sorted_StronglySorted_on {A} (R : relation A) (P : A -> Prop) l :
  (forall a b c, P a -> P b -> P c -> R a b -> R b c -> R a c) ->
  Forall P l -> Sorted R l -> StronglySorted R l.
Proof.
  intros Htr HP Hs. induction Hs as [|a l Hs IH Hhd]; [constructor|].
  inv HP. specialize (IH ltac:(done)). constructor; [done|].
  destruct Hhd as [|b l Hab]; [constructor|]. inv IH.
  constructor; [done|].
  match goal with H : Forall P (b :: l) |- _ => inv H end.
  rewrite Forall_forall in *. intros x Hx. eapply Htr; [..|by eauto|by eauto]; eauto.
Qed.

Lemma zset_ok_members z : zset_ok z -> Forall zok (ZSet_ordered z).
Proof.
  intros Hz. apply Forall_forall. intros m Hm. apply elem_of_ordered, Hz in Hm. by destruct_and!.
Qed.

Lemma ordered_sorted z : zset_ok z -> StronglySorted zle (ZSet_ordered z).
Proof.
  intros Hz. apply (Sorted_StronglySorted_on zle zok).
  - apply zle_trans.
  - by apply zset_ok_members.
  - apply (Sorted_merge_sort zle).
Qed.

(** ** Range by score is exactly the filter *)

Lemma zrange_scan_filter l min max :
  Forall zok l -> StronglySorted zle l -> IsNaN min = false -> IsNaN max = false ->
  zrange_scan l min max =
    filter (fun m => f64_key min <= f64_key (zm_score m) <= f64_key max) l.
Proof.
  intros Hok Hs Hmin Hmax. induction Hs as [|m l Hs IH Hall]; [done|].
  inv Hok. specialize (IH ltac:(done)). simpl. rewrite filter_cons.
  destruct (f64_lt (zm_score m) min) eqn:E1.
  { unfold f64_lt in E1. zprop. rewrite decide_False by lia. done. }
  apply f64_key_le in E1; try done.
  destruct (f64_lt max (zm_score m)) eqn:E2.
  - unfold f64_lt in E2. zprop. rewrite decide_False by lia.
    symmetry. clear IH. induction l as [|m' l IHl]; [done|].
    inv Hall. match goal with H : Forall zok (_ :: _) |- _ => inv H end. inv Hs.
    rewrite filter_cons, decide_False; [by apply IHl|].
    match goal with H : zle _ _ |- _ => apply zle_spec in H; try done end. lia.
  - apply f64_key_le in E2; try done. rewrite decide_True by lia. by rewrite IH.
Qed.

(** ** Codec *)

#[global] Instance zset_decode_step_consuming : Consuming zset_decode_step.
Proof.
  intros s b s' b'. unfold zset_decode_step. destruct (Z.ltb_spec (len b) 8); [done|].
  destruct (unframe (drop 8 b)) as [[i r]|] eqn:E; [|done].
  destruct (ZSet_Add s i (Uint64 b)); intros; simplify_eq.
  apply unframe_shorter in E. rewrite length_drop in E. lia.
Qed.

Definition zput (z : ZSetT) (m : ZMember) : ZSetT := <[zm_member m := zm_score m]> z.

Lemma zset_step_record z m rest :
  is_f64 (zm_score m) -> zok m -> fits (zm_member m) ->
  zset_decode_step z (zrecord m ++ rest) = Some (zput z m, rest).
Proof.
  intros Hf Hn Hl. unfold zset_decode_step, zrecord. rewrite <- app_assoc.
  assert (Hlen : 8 <= len (PutUint64 (zm_score m) ++ frame (zm_member m) ++ rest)).
  { rewrite len_app. unfold len at 1. rewrite PutUint64_length.
    pose proof (len_nonneg (frame (zm_member m) ++ rest)). lia. }
  destruct (Z.ltb_spec (len (PutUint64 (zm_score m) ++ frame (zm_member m) ++ rest)) 8); [lia|].
  rewrite Uint64_PutUint64 by done.
  replace 8%nat with (length (PutUint64 (zm_score m))) by apply PutUint64_length.
  rewrite drop_app_length, unframe_frame by done.
  unfold ZSet_Add. by rewrite Hn.
Qed.

Lemma fold_zput_ordered z : fold_left zput (ZSet_ordered z) ZSet_New = z.
Proof.
  assert (Hnd : NoDup (map zm_member (ZSet_ordered z))).
  { rewrite ordered_perm. unfold zmembers. rewrite map_map. simpl.
    apply NoDup_fst_map_to_list. }
  apply (fold_insert_map zm_member zm_score); [done|]. intros k v. split.
  - intros E. exists {| zm_member := k; zm_score := v |}. split; [by apply elem_of_ordered|done].
  - intros (m & Hm & <- & <-). by apply elem_of_ordered.
Qed.

Lemma ZSet_Decode_Encode z : zset_ok z -> ZSet_Decode (ZSet_Encode z) = Some z.
Proof.
  intros Hz. unfold ZSet_Decode, ZSet_Encode.
  rewrite (for_bytes_concat zset_decode_step zrecord zput
             (fun _ l => Forall (fun m => is_f64 (zm_score m) /\ zok m /\ fits (zm_member m)) l)).
  - by rewrite fold_zput_ordered.
  - intros s m l rest Ha. inv Ha. destruct_and!. split_and!; [|by apply zset_step_record|done].
    unfold zrecord. pose proof (PutUint64_length (zm_score m)). by destruct (PutUint64 (zm_score m)).
  - apply Forall_forall. intros m Hm. by apply elem_of_ordered, Hz in Hm.
Qed.

Lemma ZSet_Add_ok z m s z' :
  zset_ok z -> is_f64 s -> fits m -> ZSet_Add z m s = Some z' -> zset_ok z'.
Proof.
  unfold ZSet_Add. intros Hz Hs Hm. destruct (IsNaN s) eqn:En; [done|]. intros [= <-] k x.
  rewrite lookup_insert_Some. intros [[<- <-]|[_ Hk]]; [done|by apply Hz].
Qed.

Lemma ZSet_Decode_ok b z : bytes_ok b -> ZSet_Decode b = Some z -> zset_ok z.
Proof.
  apply (for_bytes_inv _ zset_ok bytes_ok); [|done].
  intros s b' s' b'' Hs Hb. unfold zset_decode_step. case_match; [done|].
  destruct (unframe (drop 8 b')) as [[mem r]|] eqn:E; [|done].
  destruct (ZSet_Add s mem (Uint64 b')) as [z'|] eqn:Ea; intros; simplify_eq.
  split; [|eapply unframe_ok, E; by apply Forall_drop].
  eapply ZSet_Add_ok, Ea; [done|by apply Uint64_range|by eapply unframe_fits].
Qed.

Lemma zrecord_len m :
  fits (zm_member m) -> len (zrecord m) = 8 + (uvarintSize (len (zm_member m)) + len (zm_member m)).
Proof.
  intros. unfold zrecord. rewrite len_app, frame_len by done.
  unfold len at 1. by rewrite PutUint64_length.
Qed.

Lemma ZSet_ApproxWireBytes_exact z :
  zset_ok z -> ZSet_ApproxWireBytes z = len (ZSet_Encode z).
Proof.
  intros Hz. unfold ZSet_ApproxWireBytes, ZSet_Encode.
  rewrite len_concat, map_map, ordered_perm. unfold zmembers. rewrite map_map.
  f_equal. apply map_ext_in. intros [k s] Hx.
  apply list_elem_of_In, elem_of_map_to_list, Hz in Hx. destruct_and!.
  by rewrite zrecord_len.
Qed.

(** The fan-out payload of one upsert reads back as that upsert. *)
Lemma ZSet_DecodeAdd_EncodeAdd m s :
  is_f64 s -> IsNaN s = false -> fits m -> ZSet_DecodeAdd (ZSet_EncodeAdd m s) = Some (m, s).
Proof.
  intros Hs Hn Hf. unfold ZSet_DecodeAdd, ZSet_EncodeAdd, ZSet_Add. rewrite Hn. simpl.
  rewrite ZSet_Decode_Encode.
  - unfold ZSet_ordered, zmembers. unfold ZSet_New. rewrite insert_empty, map_to_list_singleton.
    done.
  - intros k s' Hk. unfold ZSet_New in Hk.
    apply lookup_insert_Some in Hk as [[<- <-]|[_ Hk]]; [done|by rewrite lookup_empty in Hk].
Qed.

(** ** Point indexes (pkg/geo/geo.go) *)

Record GPoint := { g_lon : float64; g_lat : float64 }.
#[global] Instance GPoint_eq_dec : EqDecision GPoint.
Proof. solve_decision. Defined.

(** [Index.pts] *)
Abbreviation GeoT := (gmap bytes GPoint).

Definition Geo_New : GeoT := ∅.

Definition ValidCoord (lon lat : float64) : bool :=
  if IsNaN lon || IsNaN lat || IsInf lon || IsInf lat then false
  else f64_le (f64_neg f64_180) lon && f64_le lon f64_180 &&
       f64_le (f64_neg f64_90) lat && f64_le lat f64_90.

Definition Geo_Add (g : GeoT) (member : bytes) (lon lat : float64) : option GeoT :=
  if negb (ValidCoord lon lat) then None
  else Some (<[member := {| g_lon := lon; g_lat := lat |}]> g).

Definition Geo_Rem (g : GeoT) (member : bytes) : GeoT := delete member g.
Definition Geo_Pos (g : GeoT) (member : bytes) : option GPoint := g !! member.
Definition Geo_Card (g : GeoT) : Z := Z.of_nat (size g).

(** Members in byte order with their points. *)
Definition Geo_orderedMembers (g : GeoT) : list (bytes * GPoint) := by_key g.

Definition grecord (kp : bytes * GPoint) : bytes :=
  PutUint64 (g_lon kp.2) ++ PutUint64 (g_lat kp.2) ++ frame kp.1.

Definition Geo_Encode (g : GeoT) : bytes := concat (map grecord (Geo_orderedMembers g)).

Definition Geo_ApproxWireBytes (g : GeoT) : Z :=
  zsum (map (fun kv => 16 + (uvarintSize (len kv.1) + len kv.1)) (map_to_list g)).

Definition geo_decode_step (g : GeoT) (b : bytes) : option (GeoT * bytes) :=
  if len b <? 16 then None
  else
    let lon := Uint64 b in
    let lat := Uint64 (drop 8 b) in
    match unframe (drop 16 b) with
    | None => None
    | Some (mem, rest) =>
        match Geo_Add g mem lon lat with
        | None => None
        | Some g => Some (g, rest)
        end
    end.

Definition Geo_Decode (b : bytes) : option GeoT := for_bytes geo_decode_step Geo_New b.

Definition Geo_EncodeAdd (member : bytes) (lon lat : float64) : bytes :=
  Geo_Encode (default Geo_New (Geo_Add Geo_New member lon lat)).

Definition Geo_DecodeAdd (b : bytes) : option (bytes * float64 * float64) :=
  match Geo_Decode b with
  | None => None
  | Some g =>
      match Geo_orderedMembers g with
      | [(m, p)] => Some (m, g_lon p, g_lat p)
      | _ => None
      end
  end.

#[global] Instance geo_decode_step_consuming : Consuming geo_decode_step.
Proof.
  intros s b s' b'. unfold geo_decode_step. destruct (Z.ltb_spec (len b) 16); [done|].
  destruct (unframe (drop 16 b)) as [[i r]|] eqn:E; [|done].
  destruct (Geo_Add _ _ _ _); intros; simplify_eq.
  apply unframe_shorter in E. rewrite length_drop in E. lia.
Qed.

(** Every stored coordinate passed [ValidCoord]. *)
Definition geo_ok (g : GeoT) : Prop :=
  forall k p, g !! k = Some p ->
    is_f64 (g_lon p) /\ is_f64 (g_lat p) /\ ValidCoord (g_lon p) (g_lat p) = true /\ fits k.

Definition gput (g : GeoT) (kp : bytes * GPoint) : GeoT := <[kp.1 := kp.2]> g.

Lemma fold_gput_ordered g : fold_left gput (Geo_orderedMembers g) Geo_New = g.
Proof.
  apply fold_by_key.
Qed.

Lemma geo_step_record g k p rest :
  is_f64 (g_lon p) -> is_f64 (g_lat p) -> ValidCoord (g_lon p) (g_lat p) = true -> fits k ->
  geo_decode_step g (grecord (k, p) ++ rest) = Some (gput g (k, p), rest).
Proof.
  intros H1 H2 H3 H4. unfold geo_decode_step, grecord. simpl fst. simpl snd.
  rewrite <- !app_assoc.
  set (b := PutUint64 (g_lon p) ++ PutUint64 (g_lat p) ++ frame k ++ rest).
  assert (Hlen : 16 <= len b).
  { unfold b. rewrite !len_app. unfold len at 1 2. rewrite !PutUint64_length.
    pose proof (len_nonneg (frame k)). pose proof (len_nonneg rest). lia. }
  destruct (Z.ltb_spec (len b) 16); [lia|].
  assert (Hd : drop 8 b = PutUint64 (g_lat p) ++ frame k ++ rest).
  { unfold b. replace 8%nat with (length (PutUint64 (g_lon p))) by apply PutUint64_length.
    by rewrite drop_app_length. }
  replace (drop 16 b) with (drop 8 (drop 8 b)) by (by rewrite drop_drop).
  rewrite Hd. replace (Uint64 b) with (g_lon p)
    by (unfold b; symmetry; by rewrite Uint64_PutUint64).
  rewrite Uint64_PutUint64 by done.
  replace 8%nat with (length (PutUint64 (g_lat p))) by apply PutUint64_length.
  rewrite drop_app_length, unframe_frame by done.
  unfold Geo_Add. rewrite H3. simpl. unfold gput. by destruct p.
Qed.

Lemma Geo_Decode_Encode g : geo_ok g -> Geo_Decode (Geo_Encode g) = Some g.
Proof.
  intros Hg. unfold Geo_Decode, Geo_Encode.
  rewrite (for_bytes_concat geo_decode_step grecord gput
    (fun _ l => Forall (fun kp => is_f64 (g_lon kp.2) /\ is_f64 (g_lat kp.2) /\
                         ValidCoord (g_lon kp.2) (g_lat kp.2) = true /\ fits kp.1) l)).
  - by rewrite fold_gput_ordered.
  - intros s [k p] l rest Ha. inv Ha. destruct_and!. simpl in *.
    split_and!; [|by apply geo_step_record|done].
    unfold grecord. pose proof (PutUint64_length (g_lon p)). simpl. by destruct (PutUint64 (g_lon p)).
  - apply Forall_forall. intros [k p] Hm. by apply elem_of_by_key, Hg in Hm.
Qed.

Lemma Geo_Add_ok g m lon lat g' :
  geo_ok g -> is_f64 lon -> is_f64 lat -> fits m -> Geo_Add g m lon lat = Some g' -> geo_ok g'.
Proof.
  unfold Geo_Add. intros Hg Hlon Hlat Hm. destruct (ValidCoord lon lat) eqn:Ev; [|done].
  intros [= <-] k x.
  rewrite lookup_insert_Some. intros [[<- <-]|[_ Hk]]; [done|by apply Hg].
Qed.

Lemma Geo_Decode_ok b g : bytes_ok b -> Geo_Decode b = Some g -> geo_ok g.
Proof.
  apply (for_bytes_inv _ geo_ok bytes_ok); [|done].
  intros s b' s' b'' Hs Hb. unfold geo_decode_step. case_match; [done|].
  destruct (unframe (drop 16 b')) as [[mem r]|] eqn:E; [|done].
  destruct (Geo_Add _ _ _ _) as [z'|] eqn:Ea; intros; simplify_eq.
  split; [|eapply unframe_ok, E; by apply Forall_drop].
  eapply Geo_Add_ok, Ea; [done|by apply Uint64_range|apply Uint64_range; by apply Forall_drop
    |by eapply unframe_fits].
Qed.

Lemma Geo_ApproxWireBytes_exact g : geo_ok g -> Geo_ApproxWireBytes g = len (Geo_Encode g).
Proof.
  intros Hg. unfold Geo_ApproxWireBytes, Geo_Encode, Geo_orderedMembers.
  rewrite len_concat, map_map, by_key_perm.
  f_equal. apply map_ext_in. intros [k p] Hx.
  apply list_elem_of_In, elem_of_map_to_list, Hg in Hx. destruct_and!.
  unfold grecord. cbn [fst snd]. rewrite !len_app, frame_len by done.
  unfold len at 3 4. rewrite !PutUint64_length. lia.
Qed.

Lemma Geo_DecodeAdd_EncodeAdd m lon lat :
  is_f64 lon -> is_f64 lat -> ValidCoord lon lat = true -> fits m ->
  Geo_DecodeAdd (Geo_EncodeAdd m lon lat) = Some (m, lon, lat).
Proof.
  intros H1 H2 Hv Hf. unfold Geo_DecodeAdd, Geo_EncodeAdd, Geo_Add. rewrite Hv. cbn [negb default].
  rewrite Geo_Decode_Encode.
  - unfold Geo_orderedMembers, Geo_New, id. by rewrite insert_empty, by_key_singleton.
  - intros k p Hk. unfold Geo_New, id in Hk.
    apply lookup_insert_Some in Hk as [[<- <-]|[_ Hk]]; [done|by rewrite lookup_empty in Hk].
Qed.

(** scored codecs round-trip, floats bit for bit: sorted sets and geo
    indexes decode to what was encoded, their size estimate is the exact
    encoded length, and the inbox forms of ZAdd and GeoAdd decode to their
    arguments. *)
Theorem scored_codecs :
  (forall z, zset_ok z -> ZSet_Decode (ZSet_Encode z) = Some z /\ ZSet_ApproxWireBytes z = len (ZSet_Encode z)) /\
  (forall g, geo_ok g -> Geo_Decode (Geo_Encode g) = Some g /\ Geo_ApproxWireBytes g = len (Geo_Encode g)) /\
  (forall m s, is_f64 s -> IsNaN s = false -> fits m -> ZSet_DecodeAdd (ZSet_EncodeAdd m s) = Some (m, s)) /\
  (forall m lon lat, is_f64 lon -> is_f64 lat -> ValidCoord lon lat = true -> fits m ->
     Geo_DecodeAdd (Geo_EncodeAdd m lon lat) = Some (m, lon, lat)).
Proof.
  split_and!; intros.
  - split; [by apply ZSet_Decode_Encode|by apply ZSet_ApproxWireBytes_exact].
  - split; [by apply Geo_Decode_Encode|by apply Geo_ApproxWireBytes_exact].
  - by apply ZSet_DecodeAdd_EncodeAdd.
  - by apply Geo_DecodeAdd_EncodeAdd.
Qed.

(** ranges of a sorted set.  The members in rank order are sorted by
    (score, member), a rank range is the contiguous segment Redis documents,
    and a score range returns exactly the members whose score lies in it,
    although the scan stops at the first score above the maximum. *)
Theorem zset_ranges z :
  zset_ok z ->
  StronglySorted zle (ZSet_ordered z) /\
  (forall start stop lo hi, redis_window (ZSet_Card z) start stop = Some (lo, hi) ->
     ZSet_Range z start stop = take (Z.to_nat (hi - lo + 1)) (drop (Z.to_nat lo) (ZSet_ordered z))) /\
  (forall min max, IsNaN min = false -> IsNaN max = false ->
     ZSet_RangeByScore z min max =
       filter (fun m => f64_key min <= f64_key (zm_score m) <= f64_key max) (ZSet_ordered z)).
Proof.
  intros Hz. split_and!; [by apply ordered_sorted| |].
  - intros start stop lo hi E. unfold ZSet_Range. cbv zeta. rewrite ordered_len, E.
    apply redis_window_bounds in E; [|rewrite <- ordered_len; apply len_nonneg].
    apply slice_loop_segment; rewrite ?ordered_len; lia.
  - intros. apply zrange_scan_filter; auto using ordered_sorted, zset_ok_members.
Qed.

Lemma zset_ranges_witness :
  ZSet_RangeByScore {[ [97] := f64_90 ]} f64_90 f64_180 = [{| zm_member := [97]; zm_score := f64_90 |}].
Proof.
  assert (Hz : zset_ok {[ [97] := f64_90 ]}).
  { intros k s. rewrite lookup_singleton_Some. intros [<- <-].
    split_and!; [split; vm_compute; congruence|reflexivity|vm_compute; congruence]. }
  destruct (zset_ranges _ Hz) as (_ & _ & H). rewrite H; reflexivity.
Defined.
