(* ===== verification/Scalars.v ===== *)
(** * Counters and bitmaps: pkg/counter, pkg/bitmapx

    The int64 counter blob with its overflow-checked addition, and the packed
    Redis-order bit string with its window queries. *)
From S2P Require Import Prelude Wire Collections.

(** ** Counters (pkg/counter/counter.go) *)

Definition is_i64 (v : Z) : Prop := MinInt64 <= v <= MaxInt64.

(** uint64(v) of a signed value is its residue modulo 2^64. *)
Definition Counter_Encode (v : Z) : bytes := PutUint64 (u64 v).

Definition Counter_Decode (b : bytes) : option Z :=
  if negb (len b =? 8) then None else Some (i64 (Uint64 b)).

(** [None] is ErrOverflow. *)
Definition Counter_Add (cur delta : Z) : option Z :=
  if (0 <? delta) && (MaxInt64 - delta <? cur) then None
  else if (delta <? 0) && (cur <? MinInt64 - delta) then None
  else Some (cur + delta).

Lemma i64_u64 v : is_i64 v -> i64 (u64 v) = v.
Proof.
  unfold is_i64, i64, u64, MinInt64, MaxInt64. intros Hv.
  destruct (Z.ltb_spec v 0).
  - rewrite <- (Z.mod_unique v (2 ^ 64) (-1) (v + 2 ^ 64)) by lia.
    destruct (Z.ltb_spec (v + 2 ^ 64) (2 ^ 63)); lia.
  - rewrite Z.mod_small by lia. destruct (Z.ltb_spec v (2 ^ 63)); lia.
Qed.

Lemma Counter_Decode_Encode v : is_i64 v -> Counter_Decode (Counter_Encode v) = Some v.
Proof.
  intros Hv. unfold Counter_Decode, Counter_Encode.
  assert (len (PutUint64 (u64 v)) = 8) as -> by (unfold len; by rewrite PutUint64_length).
  simpl. rewrite <- (app_nil_r (PutUint64 _)), Uint64_PutUint64 by apply u64_range.
  by rewrite i64_u64.
Qed.

Lemma Counter_Decode_range b v : bytes_ok b -> Counter_Decode b = Some v -> is_i64 v.
Proof.
  intros Hb. unfold Counter_Decode. destruct (Z.eqb_spec (len b) 8) as [E|]; [|done].
  simpl. intros [= <-]. unfold Uint64. rewrite take_ge by (unfold len in E; lia).
  apply le_decode_range in Hb. rewrite E in Hb. change (256 ^ 8) with (2 ^ 64) in Hb.
  unfold is_i64, i64, MinInt64, MaxInt64.
  destruct (Z.ltb_spec (le_decode b) (2 ^ 63)); lia.
Qed.

(** Addition is exact or refused: it never wraps. *)
Lemma Counter_Add_spec cur delta :
  is_i64 cur -> is_i64 delta ->
  Counter_Add cur delta = if bool_decide (is_i64 (cur + delta)) then Some (cur + delta) else None.
Proof.
  unfold Counter_Add, is_i64. intros Hc Hd.
  destruct (Z.ltb_spec 0 delta), (Z.ltb_spec (MaxInt64 - delta) cur),
    (Z.ltb_spec delta 0), (Z.ltb_spec cur (MinInt64 - delta)); simpl; try lia.
  all: (rewrite bool_decide_true by (unfold MinInt64, MaxInt64 in *; lia); done) ||
       (rewrite bool_decide_false by (unfold MinInt64, MaxInt64 in *; lia); done).
Qed.

(** ** Bitmaps (pkg/bitmapx/bitmapx.go) *)

(** math.MaxInt on a 64-bit platform. *)
Definition EncodedLen (offset : Z) : option Z :=
  let need := offset / 8 + 1 in
  if MaxInt64 <? need then None else Some need.

(** MSB first, as Redis SETBIT. *)
Definition bitMask (offset : Z) : Z * Z := (offset / 8, Z.shiftl 1 (7 - offset mod 8)).

Definition Bitmap_Get (buf : bytes) (offset : Z) : bool :=
  match EncodedLen offset with
  | None => false
  | Some need =>
      let i := need - 1 in
      if (i <? 0) || (len buf <=? i) then false
      else
        let '(_, mask) := bitMask offset in
        negb (Z.land (default 0 (buf !! Z.to_nat i)) mask =? 0)
  end.

Definition Bitmap_Set (buf : bytes) (offset : Z) (bit : bool) : bytes :=
  match EncodedLen offset with
  | None => buf
  | Some need =>
      let buf := if len buf <? need
                 then buf ++ replicate (Z.to_nat (need - len buf)) 0 else buf in
      let '(i, mask) := bitMask offset in
      alter (fun b => if bit then Z.lor b mask else Z.ldiff b mask) (Z.to_nat i) buf
  end.

(** lo, hi, empty *)
Definition NormalizeByteRange (n start stop : Z) : option (Z * Z) := redis_window n start stop.

(** bits.OnesCount8 *)
Definition OnesCount8 (b : byte) : Z :=
  zsum (map (fun s => Z.b2z (Z.testbit b s)) [7; 6; 5; 4; 3; 2; 1; 0]).

Definition Bitmap_Count (buf : bytes) (start stop : Z) : Z :=
  match NormalizeByteRange (len buf) start stop with
  | None => 0
  | Some (lo, hi) => zsum (map OnesCount8 (slice_loop buf lo hi))
  end.

(** The inner loop over the eight bits of byte [b], from bit position [s] on. *)
Fixpoint pos_bits (b : byte) (bit : bool) (s : Z) (fuel : nat) : option Z :=
  match fuel with
  | O => None
  | S f =>
      let set := negb (Z.land b (Z.shiftl 1 (7 - s)) =? 0) in
      if Bool.eqb set bit then Some s else pos_bits b bit (s + 1) f
  end.

(** The outer loop over the bytes [lo..hi], [k] of them. *)
Fixpoint pos_bytes (buf : bytes) (bit : bool) (i : Z) (k : nat) : option Z :=
  match k with
  | O => None
  | S k =>
      match pos_bits (default 0 (buf !! Z.to_nat i)) bit 0 8 with
      | Some s => Some (i * 8 + s)
      | None => pos_bytes buf bit (i + 1) k
      end
  end.

Definition Bitmap_Pos (buf : bytes) (bit : bool) (start stop : Z) : option Z :=
  match NormalizeByteRange (len buf) start stop with
  | None => None
  | Some (lo, hi) => pos_bytes buf bit lo (Z.to_nat (hi - lo + 1))
  end.

Definition Bitmap_EncodeSet (offset : Z) (bit : bool) : bytes :=
  PutUvarint offset ++ [if bit then 1 else 0].

Definition Bitmap_DecodeSet (b : bytes) : option (Z * bool) :=
  let '(v, w) := Uvarint b in
  if w <=? 0 then None
  else
    match drop (Z.to_nat w) b with
    | [0] => Some (v, false)
    | [1] => Some (v, true)
    | _ => None
    end.

(** *** Single bits *)

Lemma land_bit b k : 0 <= k -> negb (Z.land b (Z.shiftl 1 k) =? 0) = Z.testbit b k.
Proof.
  intros Hk. rewrite Z.shiftl_1_l.
  destruct (Z.testbit b k) eqn:E.
  - apply negb_true_iff, Z.eqb_neq. intros H0.
    assert (H : Z.testbit (Z.land b (2 ^ k)) k = true).
    { by rewrite Z.land_spec, E, Z.pow2_bits_true by lia. }
    by rewrite H0, Z.bits_0 in H.
  - apply negb_false_iff, Z.eqb_eq. apply Z.bits_inj'. intros n Hn.
    rewrite Z.land_spec, Z.bits_0, Z.pow2_bits_eqb by lia.
    destruct (Z.eqb_spec k n) as [<-|]; [by rewrite E|by rewrite andb_false_r].
Qed.

Definition offset_ok (o : Z) : Prop := 0 <= o /\ o / 8 + 1 <= MaxInt64.

Lemma EncodedLen_ok o : offset_ok o -> EncodedLen o = Some (o / 8 + 1).
Proof. unfold offset_ok, EncodedLen. intros [? ?]. destruct (Z.ltb_spec MaxInt64 (o / 8 + 1)); [lia|done]. Qed.

(** The bit at an addressable offset is the MSB-first bit of its byte; past
    the end it is zero. *)
Lemma Bitmap_Get_testbit buf o :
  offset_ok o ->
  Bitmap_Get buf o = Z.testbit (default 0 (buf !! Z.to_nat (o / 8))) (7 - o mod 8).
Proof.
  intros Ho. unfold Bitmap_Get. rewrite EncodedLen_ok by done. simpl.
  destruct Ho as [Ho _]. assert (0 <= o / 8) by (apply Z.div_pos; lia).
  pose proof (Z.mod_pos_bound o 8).
  replace (o / 8 + 1 - 1) with (o / 8) by lia.
  destruct (Z.ltb_spec (o / 8) 0); [lia|]. simpl.
  destruct (Z.leb_spec (len buf) (o / 8)).
  - rewrite lookup_ge_None_2 by (unfold len in *; lia). simpl. by rewrite Z.bits_0.
  - rewrite land_bit by lia. done.
Qed.

Lemma grow_lookup buf need i :
  default 0 ((if len buf <? need then buf ++ replicate (Z.to_nat (need - len buf)) 0 else buf) !! i)
  = default 0 (buf !! i).
Proof.
  destruct (Z.ltb_spec (len buf) need); [|done].
  destruct (decide (i < length buf)%nat); [by rewrite lookup_app_l|].
  rewrite lookup_app_r, (lookup_ge_None_2 buf) by lia.
  destruct (replicate _ _ !! _) eqn:E; [|done]. apply lookup_replicate in E as [-> _]. done.
Qed.

Lemma grow_length buf need :
  length (if len buf <? need then buf ++ replicate (Z.to_nat (need - len buf)) 0 else buf)
  = Nat.max (length buf) (Z.to_nat need).
Proof.
  destruct (Z.ltb_spec (len buf) need); [rewrite length_app, length_replicate|];
    unfold len in *; lia.
Qed.

Lemma Bitmap_Set_len buf o b :
  offset_ok o -> len (Bitmap_Set buf o b) = Z.max (len buf) (o / 8 + 1).
Proof.
  intros Ho. unfold Bitmap_Set. rewrite EncodedLen_ok by done. simpl.
  unfold len at 1. rewrite length_alter, grow_length.
  destruct Ho as [Ho _]. assert (0 <= o / 8) by (apply Z.div_pos; lia). unfold len. lia.
Qed.

Lemma Bitmap_Get_nil o : offset_ok o -> Bitmap_Get [] o = false.
Proof.
  intros Ho. unfold Bitmap_Get. rewrite EncodedLen_ok by done. cbv zeta. change (len []) with 0.
  destruct (Z.ltb_spec (o / 8 + 1 - 1) 0), (Z.leb_spec 0 (o / 8 + 1 - 1)); done || lia.
Qed.

(** A write is read back, and leaves every other bit alone. *)
Lemma Bitmap_Get_Set buf o b o' :
  offset_ok o -> offset_ok o' ->
  Bitmap_Get (Bitmap_Set buf o b) o' = if o =? o' then b else Bitmap_Get buf o'.
Proof.
  intros Ho Ho'. rewrite (Bitmap_Get_testbit _ _ Ho'), (Bitmap_Get_testbit _ _ Ho').
  unfold Bitmap_Set. rewrite EncodedLen_ok by done. cbn [bitMask].
  set (gb := if len buf <? o / 8 + 1 then _ else buf).
  assert (Hgb : forall i, default 0 (gb !! i) = default 0 (buf !! i)) by (intros; apply grow_lookup).
  assert (Hgl : (Z.to_nat (o / 8) < length gb)%nat).
  { unfold gb. rewrite grow_length. destruct Ho as [Ho _].
    assert (0 <= o / 8) by (apply Z.div_pos; lia). lia. }
  destruct Ho as [Ho _], Ho' as [Ho' _].
  assert (0 <= o / 8) by (apply Z.div_pos; lia). assert (0 <= o' / 8) by (apply Z.div_pos; lia).
  pose proof (Z.mod_pos_bound o 8). pose proof (Z.mod_pos_bound o' 8).
  pose proof (Z.div_mod o 8). pose proof (Z.div_mod o' 8).
  destruct (Z.eq_dec (o / 8) (o' / 8)) as [Ediv|Ndiv].
  - rewrite <- Ediv, list_lookup_alter_eq.
    destruct (lookup_lt_is_Some_2 gb _ Hgl) as [x Hx].
    specialize (Hgb (Z.to_nat (o / 8))). rewrite Hx in Hgb |- *. simpl in Hgb |- *. rewrite <- Hgb.
    rewrite Z.shiftl_1_l. destruct b.
    + rewrite Z.lor_spec, Z.pow2_bits_eqb by lia.
      destruct (Z.eqb_spec (7 - o mod 8) (7 - o' mod 8)), (Z.eqb_spec o o'); try lia;
        by rewrite ?orb_true_r, ?orb_false_r.
    + rewrite Z.ldiff_spec, Z.pow2_bits_eqb by lia.
      destruct (Z.eqb_spec (7 - o mod 8) (7 - o' mod 8)), (Z.eqb_spec o o'); try lia; simpl;
        by rewrite ?andb_true_r, ?andb_false_r.
  - rewrite list_lookup_alter_ne by lia. rewrite Hgb.
    destruct (Z.eqb_spec o o'); [subst; lia|done].
Qed.

Lemma bitMask_byte o : is_byte (Z.shiftl 1 (7 - o mod 8)).
Proof.
  pose proof (Z.mod_pos_bound o 8). unfold is_byte. rewrite Z.shiftl_1_l.
  split; [apply Z.pow_nonneg; lia|change 256 with (2 ^ 8); apply Z.pow_lt_mono_r; lia].
Qed.

Lemma Bitmap_Set_bytes_ok buf o b : bytes_ok buf -> bytes_ok (Bitmap_Set buf o b).
Proof.
  intros Hb. unfold Bitmap_Set. destruct (EncodedLen o) as [need|] eqn:E; [|done].
  cbn [bitMask].
  set (gb := if len buf <? need then _ else buf).
  assert (Hg : bytes_ok gb).
  { unfold gb. case_match; [|done]. apply Forall_app. split; [done|].
    apply Forall_replicate. unfold is_byte. lia. }
  apply Forall_alter; [done|]. intros x _ Hx.
  destruct b; [apply is_byte_lor|apply is_byte_ldiff]; auto using bitMask_byte.
Qed.

(** *** Windows *)

(** The offsets covered by the inclusive byte window [lo..hi]. *)
Definition window_offsets (lo hi : Z) : list Z := seqZ (8 * lo) (8 * (hi - lo + 1)).

Lemma OnesCount8_filter b :
  OnesCount8 b = len (filter (fun s => Z.testbit b (7 - s) = true) [0;1;2;3;4;5;6;7]).
Proof.
  unfold OnesCount8. cbn [map]. rewrite !filter_cons.
  repeat match goal with |- context [decide (Z.testbit b (7 - ?k) = true)] =>
    let k' := eval compute in (7 - k) in change (7 - k) with k' end.
  repeat (case_decide as D;
    [rewrite D|apply not_true_is_false in D; rewrite D]; clear D); reflexivity.
Qed.

Lemma Bitmap_Get_split buf i s :
  0 <= i -> i + 1 <= MaxInt64 -> 0 <= s < 8 ->
  Bitmap_Get buf (i * 8 + s) = Z.testbit (default 0 (buf !! Z.to_nat i)) (7 - s).
Proof.
  intros Hi Hb Hs.
  assert (Hd : (i * 8 + s) / 8 = i) by (symmetry; apply Z.div_unique with s; lia).
  assert (Hm : (i * 8 + s) mod 8 = s) by (symmetry; apply Z.mod_unique with i; lia).
  rewrite Bitmap_Get_testbit; [by rewrite Hd, Hm|]. unfold offset_ok. rewrite Hd. lia.
Qed.

Lemma count_bytes buf i k :
  0 <= i -> i + Z.of_nat k <= len buf -> len buf <= MaxInt64 ->
  zsum (map OnesCount8 (omap (fun j => buf !! j) (seq (Z.to_nat i) k))) =
  len (filter (fun o => Bitmap_Get buf o = true) (seqZ (8 * i) (8 * Z.of_nat k))).
Proof.
  revert i. induction k as [|k IH]; intros i Hi Hk Hl; [done|].
  destruct (lookup_lt_is_Some_2 buf (Z.to_nat i)) as [b Hb]; [unfold len in *; lia|].
  cbn [seq omap list_omap]. rewrite Hb. cbn [map zsum foldr].
  fold (zsum (map OnesCount8 (omap (fun j => buf !! j) (seq (S (Z.to_nat i)) k)))).
  replace (S (Z.to_nat i)) with (Z.to_nat (i + 1)) by lia. rewrite IH by lia.
  replace (8 * Z.of_nat (S k)) with (8 + 8 * Z.of_nat k) by lia.
  rewrite seqZ_app by lia. rewrite filter_app, len_app.
  replace (8 * i + 8) with (8 * (i + 1)) by lia. f_equal.
  rewrite OnesCount8_filter.
  assert (Hs : seqZ (8 * i) 8 = (fun s => 8 * i + s) <$> [0;1;2;3;4;5;6;7]).
  { change [0;1;2;3;4;5;6;7] with (seqZ 0 8). by rewrite fmap_add_seqZ, Z.add_0_r. }
  rewrite Hs. apply len_filter_map. intros s Hs'.
  assert (0 <= s <= 7) by (set_unfold; intuition lia).
  rewrite (Z.mul_comm 8 i), Bitmap_Get_split by lia. by rewrite Hb.
Qed.

(** BITCOUNT counts exactly the set offsets of the window. *)
Lemma Bitmap_Count_spec buf start stop lo hi :
  len buf <= MaxInt64 -> NormalizeByteRange (len buf) start stop = Some (lo, hi) ->
  Bitmap_Count buf start stop =
    len (filter (fun o => Bitmap_Get buf o = true) (window_offsets lo hi)).
Proof.
  intros Hl E. unfold Bitmap_Count. rewrite E.
  apply redis_window_bounds in E; [|apply len_nonneg].
  unfold slice_loop, window_offsets. rewrite count_bytes by lia.
  by replace (Z.of_nat (Z.to_nat (hi - lo + 1))) with (hi - lo + 1) by lia.
Qed.

Lemma pos_bits_spec b bit s fuel :
  0 <= s -> s + Z.of_nat fuel = 8 ->
  match pos_bits b bit s fuel with
  | Some p => s <= p < 8 /\ Z.testbit b (7 - p) = bit /\
              forall q, s <= q < p -> Z.testbit b (7 - q) <> bit
  | None => forall q, s <= q < 8 -> Z.testbit b (7 - q) <> bit
  end.
Proof.
  revert s. induction fuel as [|f IH]; intros s Hs Hf; cbn [pos_bits]; [intros; lia|].
  rewrite land_bit by lia.
  destruct (Bool.eqb (Z.testbit b (7 - s)) bit) eqn:E.
  - apply eqb_prop in E. split_and!; [lia|lia|done|lia].
  - apply eqb_false_iff in E. specialize (IH (s + 1) ltac:(lia) ltac:(lia)).
    assert (Hq : forall q, s <= q -> q < s + 1 -> Z.testbit b (7 - q) <> bit).
    { intros q H1 H2. by replace q with s by lia. }
    destruct (pos_bits b bit (s + 1) f) as [p|].
    + destruct IH as (? & ? & IH). split_and!; [lia|lia|done|].
      intros q Hq'. destruct (Z.ltb_spec q (s + 1)); [apply Hq; lia|apply IH; lia].
    + intros q Hq'. destruct (Z.ltb_spec q (s + 1)); [apply Hq; lia|apply IH; lia].
Qed.

Lemma pos_bytes_spec buf bit i k :
  0 <= i -> i + Z.of_nat k <= MaxInt64 ->
  match pos_bytes buf bit i k with
  | Some p => 8 * i <= p < 8 * (i + Z.of_nat k) /\ Bitmap_Get buf p = bit /\
              forall q, 8 * i <= q < p -> Bitmap_Get buf q <> bit
  | None => forall q, 8 * i <= q < 8 * (i + Z.of_nat k) -> Bitmap_Get buf q <> bit
  end.
Proof.
  revert i. induction k as [|k IH]; intros i Hi Hk; cbn [pos_bytes]; [intros; lia|].
  pose proof (pos_bits_spec (default 0 (buf !! Z.to_nat i)) bit 0 8 ltac:(lia) ltac:(lia)) as Hb.
  assert (Hq : forall q, 8 * i <= q < 8 * i + 8 ->
            Bitmap_Get buf q = Z.testbit (default 0 (buf !! Z.to_nat i)) (7 - (q - 8 * i))).
  { intros q ?. rewrite <- Bitmap_Get_split by lia. f_equal. lia. }
  destruct (pos_bits _ bit 0 8) as [s|].
  - destruct Hb as (? & ? & Hb). split_and!; [lia|lia| |].
    + rewrite Hq by lia. by replace (i * 8 + s - 8 * i) with s by lia.
    + intros q ?. rewrite Hq by lia. apply Hb. lia.
  - specialize (IH (i + 1) ltac:(lia) ltac:(lia)).
    assert (Hlow : forall q, 8 * i <= q < 8 * i + 8 -> Bitmap_Get buf q <> bit).
    { intros q ?. rewrite Hq by lia. apply Hb. lia. }
    destruct (pos_bytes buf bit (i + 1) k) as [p|].
    + destruct IH as (? & ? & IH). split_and!; [lia|lia|done|].
      intros q ?. destruct (Z.ltb_spec q (8 * i + 8)); [apply Hlow; lia|apply IH; lia].
    + intros q ?. destruct (Z.ltb_spec q (8 * i + 8)); [apply Hlow; lia|apply IH; lia].
Qed.

Lemma Bitmap_DecodeSet_EncodeSet o b :
  0 <= o <= MaxUint64 -> Bitmap_DecodeSet (Bitmap_EncodeSet o b) = Some (o, b).
Proof.
  intros Ho. unfold Bitmap_DecodeSet, Bitmap_EncodeSet. rewrite Uvarint_PutUvarint by done.
  rewrite PutUvarint_pos.
  rewrite drop_app_len. by destruct b.
Qed.

(** scalar codecs round-trip: a counter over the whole int64 range, and
    the inbox form of a bit write over every uint64 offset. *)
Theorem scalar_codecs :
  (forall v, is_i64 v -> Counter_Decode (Counter_Encode v) = Some v) /\
  (forall o b, 0 <= o <= MaxUint64 -> Bitmap_DecodeSet (Bitmap_EncodeSet o b) = Some (o, b)).
Proof. split; [apply Counter_Decode_Encode|apply Bitmap_DecodeSet_EncodeSet]. Qed.

(** BITCOUNT and BITPOS agree with BITGET.  Over the byte window the
    arguments select, the count is the number of set offsets, and the position
    is the least offset that holds the bit, or none when no offset does. *)
Theorem bitmap_windows buf start stop lo hi bit :
  len buf <= MaxInt64 -> NormalizeByteRange (len buf) start stop = Some (lo, hi) ->
  Bitmap_Count buf start stop =
    len (filter (fun o => Bitmap_Get buf o = true) (window_offsets lo hi)) /\
  match Bitmap_Pos buf bit start stop with
  | Some p => 8 * lo <= p < 8 * (hi + 1) /\ Bitmap_Get buf p = bit /\
              forall q, 8 * lo <= q < p -> Bitmap_Get buf q <> bit
  | None => forall q, 8 * lo <= q < 8 * (hi + 1) -> Bitmap_Get buf q <> bit
  end.
Proof.
  intros Hl E. split; [by apply Bitmap_Count_spec|].
  unfold Bitmap_Pos. rewrite E. apply redis_window_bounds in E; [|apply len_nonneg].
  pose proof (pos_bytes_spec buf bit lo (Z.to_nat (hi - lo + 1)) ltac:(lia) ltac:(lia)) as H.
  replace (lo + Z.of_nat (Z.to_nat (hi - lo + 1))) with (hi + 1) in H by lia. exact H.
Qed.

Lemma bitmap_windows_witness : Bitmap_Count [128; 1] 0 (-1) = 2.
Proof. rewrite (proj1 (bitmap_windows [128; 1] 0 (-1) 0 1 true ltac:(vm_compute; congruence) eq_refl)). reflexivity. Defined.
