(* ===== verification/Json.v ===== *)
(** * JSON documents: pkg/jsonx

    The decoded document tree (encoding/json with UseNumber), the path
    operations Get, Set and Del, the compact encoder and the owner-inbox
    payload of a path write.  The text decoder and the path parser are not
    modelled here. *)
From S2P Require Import Prelude Wire.

(** The values [any] takes after Decode: nil, bool, string, json.Number,
    []any and map[string]any.  Clone is a deep copy, so values here are
    immutable and Clone is the identity. *)
#[warnings="-register-all"]
Inductive json :=
| JNull
| JBool (b : bool)
| JString (s : bytes)
| JNumber (s : bytes)
| JArray (l : list json)
| JObject (m : gmap bytes json).

(** Seg{Key} with IsIndex false, Seg{Index} with IsIndex true. *)
Inductive Seg :=
| SKey (Key : bytes)
| SIndex (Index : Z).

#[global] Instance Seg_eq_dec : EqDecision Seg.
Proof. solve_decision. Defined.

Abbreviation Path := (list Seg).

Inductive jerr := ErrType | ErrIndex.

(** ** Path operations *)

Definition jnth (l : list json) (i : Z) : option json :=
  if (i <? 0) || (len l <=? i) then None else l !! Z.to_nat i.

Fixpoint Json_Get (cur : json) (p : Path) : option json :=
  match p with
  | [] => Some cur
  | SIndex i :: p =>
      match cur with
      | JArray arr => match jnth arr i with Some c => Json_Get c p | None => None end
      | _ => None
      end
  | SKey k :: p =>
      match cur with
      | JObject obj => match obj !! k with Some c => Json_Get c p | None => None end
      | _ => None
      end
  end.

Fixpoint createPath (p : Path) (val : json) : json + jerr :=
  match p with
  | [] => inl val
  | SIndex _ :: _ => inr ErrType
  | SKey k :: rest =>
      match createPath rest val with
      | inr e => inr e
      | inl child => inl (JObject {[ k := child ]})
      end
  end.

Fixpoint setRec (cur : json) (p : Path) (val : json) : json + jerr :=
  match p with
  | [] => inl val
  | SIndex n :: rest =>
      match cur with
      | JArray arr =>
          if n <? 0 then inr ErrIndex
          else if n <? len arr then
            match setRec (default JNull (arr !! Z.to_nat n)) rest val with
            | inr e => inr e
            | inl child => inl (JArray (<[Z.to_nat n := child]> arr))
            end
          else if n =? len arr then
            match createPath rest val with
            | inr e => inr e
            | inl child => inl (JArray (arr ++ [child]))
            end
          else inr ErrIndex
      | _ => inr ErrType
      end
  | SKey k :: rest =>
      match cur with
      | JObject obj =>
          match rest with
          | [] => inl (JObject (<[k := val]> obj))
          | _ :: _ =>
              match obj !! k with
              | None =>
                  match createPath rest val with
                  | inr e => inr e
                  | inl next => inl (JObject (<[k := next]> obj))
                  end
              | Some child =>
                  match setRec child rest val with
                  | inr e => inr e
                  | inl newChild => inl (JObject (<[k := newChild]> obj))
                  end
              end
          end
      | _ => inr ErrType
      end
  end.

Definition Json_Set (doc : json) (p : Path) (val : json) : json + jerr :=
  match p with
  | [] => inl val
  | _ :: _ =>
      match doc with
      | JNull => inr ErrType
      | _ => setRec doc p val
      end
  end.

(** [None] is ok=false: nothing was removed. *)
Fixpoint delRec (cur : json) (p : Path) : option json :=
  match p with
  | [] => None
  | SIndex i :: rest =>
      match cur with
      | JArray arr =>
          if (i <? 0) || (len arr <=? i) then None
          else match rest with
          | [] => Some (JArray (take (Z.to_nat i) arr ++ drop (Z.to_nat (i + 1)) arr))
          | _ :: _ =>
              match delRec (default JNull (arr !! Z.to_nat i)) rest with
              | None => None
              | Some child => Some (JArray (<[Z.to_nat i := child]> arr))
              end
          end
      | _ => None
      end
  | SKey k :: rest =>
      match cur with
      | JObject obj =>
          match obj !! k with
          | None => None
          | Some child =>
              match rest with
              | [] => Some (JObject (delete k obj))
              | _ :: _ =>
                  match delRec child rest with
                  | None => None
                  | Some newChild => Some (JObject (<[k := newChild]> obj))
                  end
              end
          end
      | _ => None
      end
  end.

(** The returned root and whether a node was removed. *)
Definition Json_Del (doc : json) (p : Path) : json * bool :=
  match p with
  | [] => (JObject ∅, true)
  | _ :: _ =>
      match doc with
      | JNull => (JNull, false)
      | _ => match delRec doc p with
             | None => (doc, false)
             | Some newRoot => (newRoot, true)
             end
      end
  end.

(** ** The inbox payload of a path write *)

Definition Json_EncodeSet (path raw : bytes) : bytes := PutUvarint (len path) ++ path ++ raw.

Definition Json_DecodeSet (b : bytes) : option (bytes * bytes) :=
  let '(v, w) := Uvarint b in
  if w <=? 0 then None
  else
    let rest := drop (Z.to_nat w) b in
    if len rest <? v then None
    else Some (take (Z.to_nat v) rest, drop (Z.to_nat v) rest).

(** ** The compact encoder (encoding/json, SetEscapeHTML(false)) *)

Definition hexdigit (x : Z) : byte := if x <? 10 then 48 + x else 87 + x.

Definition is_cont (b : byte) : bool := (128 <=? b) && (b <=? 191).

(** Length of the well-formed UTF-8 sequence at the head, 0 if there is none. *)
Definition rune_len (s : bytes) : nat :=
  match s with
  | [] => 0%nat
  | b0 :: s =>
      if b0 <? 128 then 1%nat
      else match s with
      | [] => 0%nat
      | b1 :: s =>
          if (194 <=? b0) && (b0 <=? 223) && is_cont b1 then 2%nat
          else match s with
          | [] => 0%nat
          | b2 :: s =>
              if (((b0 =? 224) && (160 <=? b1) && (b1 <=? 191))
                  || (((225 <=? b0) && (b0 <=? 236) || (238 <=? b0) && (b0 <=? 239)) && is_cont b1)
                  || ((b0 =? 237) && (128 <=? b1) && (b1 <=? 159))) && is_cont b2 then 3%nat
              else match s with
              | [] => 0%nat
              | b3 :: _ =>
                  if (((b0 =? 240) && (144 <=? b1) && (b1 <=? 191))
                      || ((241 <=? b0) && (b0 <=? 243) && is_cont b1)
                      || ((b0 =? 244) && (128 <=? b1) && (b1 <=? 143)))
                     && is_cont b2 && is_cont b3 then 4%nat
                  else 0%nat
              end
          end
      end
  end.

Definition escape_ascii (b : byte) : bytes :=
  if (b =? 34) || (b =? 92) then [92; b]
  else if b =? 8 then [92; 98]
  else if b =? 12 then [92; 102]
  else if b =? 10 then [92; 110]
  else if b =? 13 then [92; 114]
  else if b =? 9 then [92; 116]
  else if b <? 32 then [92; 117; 48; 48; hexdigit (b / 16); hexdigit (b mod 16)]
  else [b].

(** One character of a string: its encoding and the bytes it takes. *)
Definition escape_rune (s : bytes) : bytes * nat :=
  match rune_len s with
  | O => ([92; 117; 102; 102; 102; 100], 1%nat)
  | 1%nat => (escape_ascii (default 0 (head s)), 1%nat)
  | n =>
      let r := take n s in
      if bool_decide (r = [226; 128; 168]) then ([92; 117; 50; 48; 50; 56], n)
      else if bool_decide (r = [226; 128; 169]) then ([92; 117; 50; 48; 50; 57], n)
      else (r, n)
  end.

Fixpoint escape_string (fuel : nat) (s : bytes) : bytes :=
  match fuel, s with
  | S f, _ :: _ => let '(e, n) := escape_rune s in e ++ escape_string f (drop n s)
  | _, _ => []
  end.

Definition encode_string (s : bytes) : bytes := 34 :: escape_string (length s) s ++ [34].

Fixpoint skip_digits (s : bytes) : bytes :=
  match s with
  | b :: s' => if is_digit b then skip_digits s' else s
  | [] => []
  end.

(** encoding/json's isValidNumber. *)
Definition isValidNumber (s : bytes) : bool :=
  let s := match s with c :: s' => if c =? 45 then s' else s | [] => [] end in
  let after_int :=
    match s with
    | c :: s' =>
        if c =? 48 then Some s'
        else if (49 <=? c) && (c <=? 57) then Some (skip_digits s') else None
    | [] => None
    end in
  match after_int with
  | None => false
  | Some s =>
      let s := match s with
               | c :: d :: s' => if (c =? 46) && is_digit d then skip_digits s' else s
               | _ => s end in
      let s := match s with
               | c :: d :: s' =>
                   if (c =? 101) || (c =? 69) then
                     if (d =? 43) || (d =? 45) then
                       match s' with [] => s | _ :: _ => skip_digits s' end
                     else skip_digits (d :: s')
                   else s
               | _ => s end in
      match s with [] => true | _ => false end
  end.

(** Join non-failing parts with commas; one failure fails the whole value. *)
Definition join_comma (l : list bytes) : bytes :=
  match l with
  | [] => []
  | x :: l => x ++ concat (map (fun y => 44 :: y) l)
  end.

(** Object members in key order, each already encoded. *)
Definition key_le (x y : bytes * option bytes) : Prop := bytes_le x.1 y.1.
#[global] Instance key_le_dec : RelDecision key_le.
Proof. intros ??. unfold key_le. apply _. Defined.

Definition encode_member (kv : bytes * option bytes) : option bytes :=
  match kv.2 with
  | None => None
  | Some v => Some (encode_string kv.1 ++ [58] ++ v)
  end.

Fixpoint Json_Encode (v : json) : option bytes :=
  match v with
  | JNull => Some [110; 117; 108; 108]
  | JBool true => Some [116; 114; 117; 101]
  | JBool false => Some [102; 97; 108; 115; 101]
  | JString s => Some (encode_string s)
  | JNumber [] => Some [48]
  | JNumber s => if isValidNumber s then Some s else None
  | JArray l =>
      match mapM id (map Json_Encode l) with
      | None => None
      | Some parts => Some ([91] ++ join_comma parts ++ [93])
      end
  | JObject m =>
      match mapM encode_member (merge_sort key_le (map_to_list (Json_Encode <$> m))) with
      | None => None
      | Some parts => Some ([123] ++ join_comma parts ++ [125])
      end
  end.

Definition Json_ApproxWireBytes (v : json) : Z :=
  match Json_Encode v with Some b => len b | None => 0 end.

(** {"a":[null,"x\n"],"b":1.5} *)
Example Json_Encode_sample :
  Json_Encode (JObject (<[[98] := JNumber [49; 46; 53]]>
                 {[ [97] := JArray [JNull; JString [120; 10]] ]}))
  = Some ([123; 34; 97; 34; 58; 91; 110; 117; 108; 108; 44; 34; 120; 92; 110; 34; 93; 44;
           34; 98; 34; 58; 49; 46; 53; 125]).
Proof. vm_compute. reflexivity. Qed.

(** ** Laws of the path operations *)

Lemma jnth_Some (l : list json) i c :
  jnth l i = Some c <-> 0 <= i < len l /\ l !! Z.to_nat i = Some c.
Proof.
  unfold jnth. destruct (Z.ltb_spec i 0), (Z.leb_spec (len l) i); simpl;
    intuition (try done; lia).
Qed.

Lemma jnth_in (l : list json) i : 0 <= i < len l -> jnth l i = l !! Z.to_nat i.
Proof.
  intros. unfold jnth. destruct (Z.ltb_spec i 0), (Z.leb_spec (len l) i); simpl; done || lia.
Qed.

Lemma jnth_insert (l : list json) i j c :
  0 <= i < len l -> jnth (<[Z.to_nat i := c]> l) j = if j =? i then Some c else jnth l j.
Proof.
  intros Hi. unfold jnth, len in *. rewrite length_insert.
  destruct (Z.ltb_spec j 0), (Z.leb_spec (Z.of_nat (length l)) j), (Z.eqb_spec j i); simpl; try lia; try done.
  - subst. rewrite list_lookup_insert_eq by lia. done.
  - rewrite list_lookup_insert_ne by lia. done.
Qed.

Lemma jnth_snoc (l : list json) j c :
  jnth (l ++ [c]) j = if j =? len l then Some c else jnth l j.
Proof.
  unfold jnth, len. rewrite length_app. simpl.
  destruct (Z.ltb_spec j 0), (Z.leb_spec (Z.of_nat (length l + 1)) j),
    (Z.leb_spec (Z.of_nat (length l)) j), (Z.eqb_spec j (Z.of_nat (length l)));
    simpl; try lia; try done.
  - subst. rewrite Nat2Z.id, lookup_app_r, Nat.sub_diag by lia. done.
  - rewrite lookup_app_l by lia. done.
Qed.

Lemma Json_Get_key obj k p :
  Json_Get (JObject obj) (SKey k :: p) =
  match obj !! k with Some c => Json_Get c p | None => None end.
Proof. done. Qed.

Lemma Json_Get_index arr i p :
  Json_Get (JArray arr) (SIndex i :: p) =
  match jnth arr i with Some c => Json_Get c p | None => None end.
Proof. done. Qed.

(** Two paths that part ways: neither is a prefix of the other. *)
Fixpoint diverge (p q : Path) : bool :=
  match p, q with
  | s :: p, t :: q => if bool_decide (s = t) then diverge p q else true
  | _, _ => false
  end.

Lemma createPath_get p val doc : createPath p val = inl doc -> Json_Get doc p = Some val.
Proof.
  revert doc. induction p as [|[k|i] p IH]; intros doc; simpl; [by intros [= ->]| |done].
  destruct (createPath p val) as [child|]; [|done]. intros [= <-].
  rewrite lookup_singleton_eq. by apply IH.
Qed.

Lemma createPath_frame p val doc q :
  createPath p val = inl doc -> diverge p q = true -> Json_Get doc q = None.
Proof.
  revert doc q. induction p as [|[k|i] p IH]; intros doc q; simpl; [done| |done].
  destruct (createPath p val) as [child|]; [|done]. intros [= <-].
  destruct q as [|[k'|i'] q]; [done| |done]. case_bool_decide as D.
  - injection D as <-. intros Hd. simpl. rewrite lookup_singleton_eq. by apply IH.
  - intros _. simpl. rewrite lookup_singleton_ne; [done|congruence].
Qed.

Lemma setRec_get cur p val doc : setRec cur p val = inl doc -> Json_Get doc p = Some val.
Proof.
  revert cur doc. induction p as [|[k|n] p IH]; intros cur doc; cbn [setRec]; [by intros [= ->]| |].
  - destruct cur as [| | | | |obj]; try done.
    destruct p as [|s p]; [intros [= <-]; simpl; by rewrite lookup_insert_eq|].
    destruct (obj !! k) as [child|].
    + destruct (setRec child (s :: p) val) eqn:E; [|done]. intros [= <-].
      rewrite ?Json_Get_key, ?Json_Get_index. rewrite lookup_insert_eq. by eapply IH.
    + destruct (createPath (s :: p) val) eqn:E; [|done]. intros [= <-].
      rewrite ?Json_Get_key, ?Json_Get_index. rewrite lookup_insert_eq. by apply createPath_get.
  - destruct cur as [| | | |arr|]; try done.
    destruct (Z.ltb_spec n 0); [done|]. destruct (Z.ltb_spec n (len arr)).
    + destruct (setRec _ p val) eqn:E; [|done]. intros [= <-]. rewrite ?Json_Get_key, ?Json_Get_index.
      rewrite jnth_insert, Z.eqb_refl by lia. by eapply IH.
    + destruct (Z.eqb_spec n (len arr)); [|done].
      destruct (createPath p val) eqn:E; [|done]. intros [= <-]. rewrite ?Json_Get_key, ?Json_Get_index.
      rewrite jnth_snoc. subst. rewrite Z.eqb_refl. by apply createPath_get.
Qed.

Lemma setRec_frame cur p val doc q :
  setRec cur p val = inl doc -> diverge p q = true -> Json_Get doc q = Json_Get cur q.
Proof.
  revert cur doc q. induction p as [|[k|n] p IH]; intros cur doc q; cbn [setRec]; [done| |].
  - destruct cur as [| | | | |obj]; try done.
    destruct q as [|[k'|i'] q]; [done| |].
    2:{ intros Hs _. assert (exists o, doc = JObject o) as [o ->]; [|done].
        repeat (case_match; simplify_eq); eauto. }
    cbn [diverge]. destruct (decide (k = k')) as [<-|Hne].
    + rewrite bool_decide_true by done. destruct p as [|s p]; [done|].
      intros Hs Hd. rewrite ?Json_Get_key, ?Json_Get_index. destruct (obj !! k) as [child|] eqn:Ek.
      * destruct (setRec child (s :: p) val) eqn:E; simplify_eq.
        rewrite Json_Get_key, lookup_insert_eq. by eapply IH.
      * destruct (createPath (s :: p) val) eqn:E; simplify_eq.
        rewrite Json_Get_key, lookup_insert_eq. by eapply createPath_frame.
    + intros Hs _. assert (exists c, doc = JObject (<[k := c]> obj)) as [c ->].
      { repeat (case_match; simplify_eq); eauto. }
      rewrite ?Json_Get_key, ?Json_Get_index. by rewrite lookup_insert_ne.
  - destruct cur as [| | | |arr|]; try done.
    destruct (Z.ltb_spec n 0); [done|].
    destruct q as [|[k'|i'] q]; [done| |].
    { intros Hs _. assert (exists o, doc = JArray o) as [o ->]; [|done].
      repeat (case_match; simplify_eq); eauto. }
    cbn [diverge]. intros Hs Hd. rewrite ?Json_Get_key, ?Json_Get_index.
    destruct (Z.ltb_spec n (len arr)).
    + destruct (setRec _ p val) eqn:E; simplify_eq. rewrite ?Json_Get_key, ?Json_Get_index. rewrite jnth_insert by lia.
      case_bool_decide as D.
      * injection D as <-. rewrite Z.eqb_refl, jnth_in by lia.
        destruct (lookup_lt_is_Some_2 arr (Z.to_nat n)) as [c Hc]; [unfold len in *; lia|].
        rewrite Hc in *. by eapply IH.
      * destruct (Z.eqb_spec i' n); [congruence|done].
    + destruct (Z.eqb_spec n (len arr)) as [->|]; [|done].
      destruct (createPath p val) eqn:E; simplify_eq. rewrite ?Json_Get_key, ?Json_Get_index. rewrite jnth_snoc.
      case_bool_decide as D.
      * injection D as <-. rewrite Z.eqb_refl. unfold jnth.
        rewrite Z.leb_refl, orb_true_r. by eapply createPath_frame.
      * destruct (Z.eqb_spec i' (len arr)); [congruence|done].
Qed.

(** An existing node can always be overwritten. *)
Lemma setRec_total cur p val :
  is_Some (Json_Get cur p) -> exists doc, setRec cur p val = inl doc.
Proof.
  revert cur. induction p as [|[k|n] p IH]; intros cur; cbn [setRec]; [by eexists| |].
  - destruct cur as [| | | | |obj]; simpl; try by intros [? ?].
    destruct (obj !! k) as [c|] eqn:Ek; [|by intros [? ?]].
    intros [doc Hd]%IH. destruct p; rewrite ?Hd; by eexists.
  - destruct cur as [| | | |arr|]; simpl; try by intros [? ?].
    destruct (jnth arr n) as [c|] eqn:En; [|by intros [? ?]].
    apply jnth_Some in En as [? En]. rewrite En.
    destruct (Z.ltb_spec n 0), (Z.ltb_spec n (len arr)); try lia.
    intros [doc Hd]%IH. simpl. rewrite Hd. by eexists.
Qed.

(** A null document has no nodes below its root. *)
Lemma Json_Set_setRec doc p val d :
  Json_Set doc p val = inl d -> setRec doc p val = inl d.
Proof. unfold Json_Set. destruct p; [done|]. by destruct doc. Qed.

Lemma delRec_none cur p : p <> [] -> delRec cur p = None <-> Json_Get cur p = None.
Proof.
  revert cur. induction p as [|[k|n] p IH]; intros cur Hp; [done| |].
  - destruct cur as [| | | | |obj]; try done. cbn [delRec]. rewrite Json_Get_key.
    destruct (obj !! k) as [c|]; [|done]. destruct p as [|s p]; [done|].
    rewrite <- IH by done. by destruct (delRec c (s :: p)).
  - destruct cur as [| | | |arr|]; try done. cbn [delRec]. rewrite Json_Get_index.
    destruct (jnth arr n) as [c|] eqn:En; unfold jnth in En;
      destruct ((n <? 0) || (len arr <=? n)) eqn:Eb; try done.
    + rewrite En. destruct p as [|s p]; [done|]. rewrite <- IH by done. simpl default.
      by destruct (delRec c (s :: p)).
    + exfalso. apply orb_false_iff in Eb as [? ?]. zprop.
      apply lookup_ge_None_1 in En. unfold len in *. lia.
Qed.

(** Deleting an object member removes exactly that member. *)
Lemma delRec_key cur p k doc :
  delRec cur (p ++ [SKey k]) = Some doc ->
  Json_Get doc (p ++ [SKey k]) = None /\
  forall q, diverge (p ++ [SKey k]) q = true -> Json_Get doc q = Json_Get cur q.
Proof.
  revert cur doc. induction p as [|[k'|n] p IH]; intros cur doc; cbn [app delRec].
  - destruct cur as [| | | | |obj]; try done. destruct (obj !! k) as [c|]; [|done].
    intros [= <-]. split; [rewrite Json_Get_key; by rewrite lookup_delete_eq|].
    intros [|[k''|i] q]; [done| |done]. cbn [diverge]. rewrite !Json_Get_key.
    case_bool_decide as D; [done|]. rewrite lookup_delete_ne; [done|congruence].
  - destruct cur as [| | | | |obj]; try done. destruct (obj !! k') as [c|] eqn:Ec; [|done].
    destruct (p ++ [SKey k]) as [|s r] eqn:Er; [by destruct p|]. rewrite <- Er in *.
    destruct (delRec c (p ++ [SKey k])) as [c'|] eqn:Ed; [|done]. intros [= <-].
    destruct (IH _ _ Ed) as [IH1 IH2]. rewrite Json_Get_key, lookup_insert_eq. split; [done|].
    intros [|[k''|i] q]; [done| |done]. cbn [diverge]. rewrite !Json_Get_key.
    case_bool_decide as D; [injection D as <-; rewrite lookup_insert_eq, Ec; apply IH2|].
    rewrite lookup_insert_ne; [done|congruence].
  - destruct cur as [| | | |arr|]; try done.
    destruct ((n <? 0) || (len arr <=? n)) eqn:Eb; [done|].
    apply orb_false_iff in Eb as [? ?]. zprop.
    destruct (p ++ [SKey k]) as [|s r] eqn:Er; [by destruct p|]. rewrite <- Er in *.
    destruct (lookup_lt_is_Some_2 arr (Z.to_nat n)) as [c Hc]; [unfold len in *; lia|].
    rewrite Hc. simpl default.
    destruct (delRec c (p ++ [SKey k])) as [c'|] eqn:Ed; [|done]. intros [= <-].
    destruct (IH _ _ Ed) as [IH1 IH2].
    rewrite Json_Get_index, jnth_insert, Z.eqb_refl by lia. split; [done|].
    intros [|[k''|i] q]; [done|done|]. cbn [diverge]. rewrite !Json_Get_index, jnth_insert by lia.
    case_bool_decide as D.
    + injection D as <-. rewrite Z.eqb_refl, jnth_in, Hc by lia. apply IH2.
    + destruct (Z.eqb_spec i n); [congruence|done].
Qed.

Lemma Json_Del_delRec doc p :
  p <> [] -> Json_Del doc p = match delRec doc p with
                              | None => (doc, false) | Some d => (d, true) end.
Proof. destruct p as [|[k|i] p]; [done|by destruct doc|by destruct doc]. Qed.

Lemma Json_DecodeSet_EncodeSet path raw :
  len path <= MaxUint64 -> Json_DecodeSet (Json_EncodeSet path raw) = Some (path, raw).
Proof.
  intros Hp. pose proof (len_nonneg path). unfold Json_DecodeSet, Json_EncodeSet.
  rewrite Uvarint_PutUvarint by lia.
  rewrite PutUvarint_pos.
  rewrite drop_app_len, len_app. pose proof (len_nonneg raw).
  destruct (Z.ltb_spec (len path + len raw) (len path)); [lia|].
  by rewrite take_app_len, drop_app_len.
Qed.

(** a path write is read back and touches nothing else.  When Set
    succeeds, Get at the same path returns the value, and Get at every path
    that parts ways with it is unchanged. *)
Theorem json_set_get doc p val d :
  Json_Set doc p val = inl d ->
  Json_Get d p = Some val /\ (forall q, diverge p q = true -> Json_Get d q = Json_Get doc q).
Proof.
  intros H%Json_Set_setRec. split; [by eapply setRec_get|]. intros q Hq. exact (setRec_frame _ _ _ _ _ H Hq).
Qed.

Lemma json_set_get_witness : exists d,
  Json_Set (JObject {[ [97] := JArray [JNull] ]}) [SKey [97]; SIndex 1; SKey [98]] (JBool true) = inl d /\
  Json_Get d [SKey [97]; SIndex 1; SKey [98]] = Some (JBool true) /\
  Json_Get d [SKey [97]; SIndex 0] = Some JNull.
Proof.
  destruct (Json_Set (JObject {[ [97] := JArray [JNull] ]}) [SKey [97]; SIndex 1; SKey [98]] (JBool true))
    as [d|] eqn:E; [|vm_compute in E; discriminate E].
  exists d. destruct (json_set_get _ _ _ _ E) as [H1 H2].
  split; [reflexivity|]. split; [exact H1|]. rewrite H2; reflexivity.
Defined.

(** a path delete reports what it did.  Del below the root answers false
    exactly when Get misses, and then returns the document unchanged; a
    removed object member is gone, and paths that part ways with it keep
    their values. *)
Theorem json_del_get doc p k :
  let q := p ++ [SKey k] in
  ((Json_Del doc q).2 = false <-> Json_Get doc q = None) /\
  ((Json_Del doc q).2 = false -> (Json_Del doc q).1 = doc) /\
  ((Json_Del doc q).2 = true ->
     Json_Get (Json_Del doc q).1 q = None /\
     forall r, diverge q r = true -> Json_Get (Json_Del doc q).1 r = Json_Get doc r).
Proof.
  cbv zeta. assert (Hq : p ++ [SKey k] <> []) by (by destruct p).
  rewrite (Json_Del_delRec _ _ Hq), <- (delRec_none _ _ Hq).
  destruct (delRec doc (p ++ [SKey k])) as [d|] eqn:E; simpl; [|done].
  split_and!; [done|done|]. intros _. by apply delRec_key.
Qed.
