(* ===== verification/JsonText.v ===== *)
(** * JSON text: Decode and ParsePath of pkg/jsonx

    What json.Decoder with UseNumber makes of a byte slice (Go 1.22
    encoding/json): the scanner's grammar with its nesting limit, unquoting
    with surrogate pairs and repair of invalid UTF-8, last member wins.  A
    Decoder reads one value and leaves the rest; More then skips space and
    looks at one byte. *)
From S2P Require Import Prelude Wire Json.
From Stdlib Require Import ZifyBool.

(** ** Strings *)

Definition is_space (c : byte) : bool := (c =? 32) || (c =? 9) || (c =? 13) || (c =? 10).

Fixpoint skip_space (s : bytes) : bytes :=
  match s with
  | c :: s' => if is_space c then skip_space s' else s
  | [] => []
  end.

Definition hexval (c : byte) : option Z :=
  if is_digit c then Some (c - 48)
  else if (97 <=? c) && (c <=? 102) then Some (c - 87)
  else if (65 <=? c) && (c <=? 70) then Some (c - 55)
  else None.

(** Four hexadecimal digits and what follows them. *)
Definition getu4 (s : bytes) : option (Z * bytes) :=
  match s with
  | a :: b :: c :: d :: s =>
      match hexval a, hexval b, hexval c, hexval d with
      | Some a, Some b, Some c, Some d => Some (((a * 16 + b) * 16 + c) * 16 + d, s)
      | _, _, _, _ => None
      end
  | _ => None
  end.

Fixpoint strip_prefix (p s : bytes) : option bytes :=
  match p, s with
  | [], _ => Some s
  | a :: p, b :: s => if a =? b then strip_prefix p s else None
  | _ :: _, [] => None
  end.

Definition replacement : bytes := [239; 191; 189].

Definition isSurrogate (r : Z) : bool := (55296 <=? r) && (r <? 57344).

(** utf8.EncodeRune *)
Definition encode_rune (r : Z) : bytes :=
  if r <? 128 then [r]
  else if r <? 2048 then [192 + r / 64; 128 + r mod 64]
  else if isSurrogate r || (1114111 <? r) then replacement
  else if r <? 65536 then [224 + r / 4096; 128 + r / 64 mod 64; 128 + r mod 64]
  else [240 + r / 262144; 128 + r / 4096 mod 64; 128 + r / 64 mod 64; 128 + r mod 64].

(** utf16.DecodeRune of a surrogate and the escape after it, if that is the
    second half. *)
Definition low_half (r : Z) (s : bytes) : option (Z * bytes) :=
  match strip_prefix [92; 117] s with
  | Some s =>
      match getu4 s with
      | Some (r2, s) =>
          if (r <? 56320) && (56320 <=? r2) && (r2 <? 57344)
          then Some ((r - 55296) * 1024 + (r2 - 56320) + 65536, s) else None
      | None => None
      end
  | None => None
  end.

(** What follows a backslash: the bytes it stands for and the rest. *)
Definition unescape (s : bytes) : option (bytes * bytes) :=
  match s with
  | [] => None
  | c :: s =>
      if (c =? 34) || (c =? 92) || (c =? 47) then Some ([c], s)
      else if c =? 98 then Some ([8], s)
      else if c =? 102 then Some ([12], s)
      else if c =? 110 then Some ([10], s)
      else if c =? 114 then Some ([13], s)
      else if c =? 116 then Some ([9], s)
      else if c =? 117 then
        match getu4 s with
        | None => None
        | Some (r, s) =>
            if isSurrogate r then
              match low_half r s with
              | Some (r, s) => Some (encode_rune r, s)
              | None => Some (replacement, s)
              end
            else Some (encode_rune r, s)
        end
      else None
  end.

Definition prepend (out : bytes) (r : option (bytes * bytes)) : option (bytes * bytes) :=
  match r with Some (str, rest) => Some (out ++ str, rest) | None => None end.

(** The string whose opening quote has been read, and the rest. *)
Fixpoint parse_string (fuel : nat) (s : bytes) : option (bytes * bytes) :=
  match fuel, s with
  | S f, c :: s' =>
      if c =? 34 then Some ([], s')
      else if c =? 92 then
        match unescape s' with
        | Some (out, s) => prepend out (parse_string f s)
        | None => None
        end
      else if c <? 32 then None
      else if c <? 128 then prepend [c] (parse_string f s')
      else
        match rune_len s with
        | O => prepend replacement (parse_string f s')
        | n => prepend (take n s) (parse_string f (drop n s))
        end
  | _, _ => None
  end.

Definition read_string (s : bytes) : option (bytes * bytes) := parse_string (S (length s)) s.

(** ** Numbers *)

Definition scan_int (s : bytes) : option bytes :=
  match s with
  | c :: s =>
      if c =? 48 then Some s
      else if (49 <=? c) && (c <=? 57) then Some (skip_digits s) else None
  | [] => None
  end.

(** At least one digit. *)
Definition scan_digits1 (s : bytes) : option bytes :=
  match s with c :: s => if is_digit c then Some (skip_digits s) else None | [] => None end.

Definition scan_frac (s : bytes) : option bytes :=
  match s with
  | c :: s' => if c =? 46 then scan_digits1 s' else Some s
  | [] => Some []
  end.

Definition scan_exp (s : bytes) : option bytes :=
  match s with
  | c :: s' =>
      if (c =? 101) || (c =? 69) then
        match s' with
        | d :: s'' => if (d =? 43) || (d =? 45) then scan_digits1 s'' else scan_digits1 s'
        | [] => None
        end
      else Some s
  | [] => Some []
  end.

Definition scan_number (s : bytes) : option bytes :=
  let s := match s with c :: s' => if c =? 45 then s' else s | [] => [] end in
  match scan_int s with
  | None => None
  | Some s => match scan_frac s with None => None | Some s => scan_exp s end
  end.

(** json.Number keeps the text. *)
Definition parse_number (s : bytes) : option (json * bytes) :=
  match scan_number s with
  | Some rest => Some (JNumber (take (length s - length rest) s), rest)
  | None => None
  end.

(** ** Values *)

Definition maxNestingDepth : nat := Z.to_nat 10000.

Definition parse_literal (p : bytes) (v : json) (s : bytes) : option (json * bytes) :=
  match strip_prefix p s with Some rest => Some (v, rest) | None => None end.

(** The closing bracket comes next. *)
Definition closes (c : byte) (s : bytes) : option bytes :=
  match skip_space s with d :: rest => if d =? c then Some rest else None | [] => None end.

(** [depth] is the number of open arrays and objects.  [parse_elems] and
    [parse_members] read a non-empty rest of an array or object, closing
    bracket included. *)
Fixpoint parse_value (fuel : nat) (depth : nat) (s : bytes) : option (json * bytes) :=
  match fuel, skip_space s with
  | S f, c :: s' =>
      if c =? 34 then
        match read_string s' with Some (str, rest) => Some (JString str, rest) | None => None end
      else if c =? 91 then
        if (maxNestingDepth <=? depth)%nat then None
        else match closes 93 s' with
             | Some rest => Some (JArray [], rest)
             | None =>
                 match parse_elems f (S depth) s' with
                 | Some (l, rest) => Some (JArray l, rest)
                 | None => None
                 end
             end
      else if c =? 123 then
        if (maxNestingDepth <=? depth)%nat then None
        else match closes 125 s' with
             | Some rest => Some (JObject ∅, rest)
             | None =>
                 match parse_members f (S depth) ∅ s' with
                 | Some (m, rest) => Some (JObject m, rest)
                 | None => None
                 end
             end
      else if c =? 116 then parse_literal [114; 117; 101] (JBool true) s'
      else if c =? 102 then parse_literal [97; 108; 115; 101] (JBool false) s'
      else if c =? 110 then parse_literal [117; 108; 108] JNull s'
      else if (c =? 45) || is_digit c then parse_number (c :: s')
      else None
  | _, _ => None
  end
with parse_elems (fuel : nat) (depth : nat) (s : bytes) : option (list json * bytes) :=
  match fuel with
  | S f =>
      match parse_value f depth s with
      | None => None
      | Some (v, s) =>
          match skip_space s with
          | c :: s =>
              if c =? 44 then
                match parse_elems f depth s with
                | Some (l, rest) => Some (v :: l, rest)
                | None => None
                end
              else if c =? 93 then Some ([v], s)
              else None
          | [] => None
          end
      end
  | O => None
  end
with parse_members (fuel : nat) (depth : nat) (m : gmap bytes json) (s : bytes)
    : option (gmap bytes json * bytes) :=
  match fuel, skip_space s with
  | S f, c :: s =>
      if c =? 34 then
        match read_string s with
        | None => None
        | Some (k, s) =>
            match skip_space s with
            | c :: s =>
                if c =? 58 then
                  match parse_value f depth s with
                  | None => None
                  | Some (v, s) =>
                      match skip_space s with
                      | c :: s =>
                          if c =? 44 then parse_members f depth (<[k := v]> m) s
                          else if c =? 125 then Some (<[k := v]> m, s)
                          else None
                      | [] => None
                      end
                  end
                else None
            | [] => None
            end
        end
      else None
  | _, _ => None
  end.

(** Every call of parse_value below an array or object has read a byte. *)
Definition value_fuel (s : bytes) : nat := 2 * length s + 2.

(** dec.More() *)
Definition More (s : bytes) : bool :=
  match skip_space s with
  | c :: _ => negb (c =? 93) && negb (c =? 125)
  | [] => false
  end.

Definition Json_Decode (b : bytes) : option json :=
  match b with
  | [] => None
  | _ :: _ =>
      match parse_value (value_fuel b) 0 b with
      | None => None
      | Some (v, rest) => if More rest then None else Some v
      end
  end.

(** ** Paths *)

Definition isIdentStart (c : byte) : bool :=
  (c =? 95) || ((65 <=? c) && (c <=? 90)) || ((97 <=? c) && (c <=? 122)).

Definition isIdentCont (c : byte) : bool := isIdentStart c || is_digit c.

Fixpoint take_ident (s : bytes) : bytes * bytes :=
  match s with
  | c :: s' => if isIdentCont c then let '(id, rest) := take_ident s' in (c :: id, rest) else ([], s)
  | [] => ([], [])
  end.

Definition parseIndex (s : bytes) : option (Z * bytes) :=
  match s with
  | [] => None
  | c :: s' =>
      if c =? 48 then Some (0, s')
      else if (c <? 49) || (57 <? c) then None
      else
        let rest := skip_digits s' in
        match ParseUint (take (length s - length rest) s) with
        | Some n => if MaxInt64 <? n then None else Some (n, rest)
        | None => None
        end
  end.

(** One segment: the rest of ParsePath's loop body after its first byte. *)
Definition parse_seg (s : bytes) : option (Seg * bytes) :=
  let closing seg s :=
    match s with c :: s => if c =? 93 then Some (seg, s) else None | [] => None end in
  match s with
  | [] => None
  | c :: s =>
      if c =? 46 then
        match s with
        | d :: s => if isIdentStart d then let '(id, rest) := take_ident s in Some (SKey (d :: id), rest) else None
        | [] => None
        end
      else if c =? 91 then
        match s with
        | [] => None
        | d :: s' =>
            if d =? 34 then
              match read_string s' with Some (key, s) => closing (SKey key) s | None => None end
            else
              match parseIndex s with Some (idx, s) => closing (SIndex idx) s | None => None end
        end
      else None
  end.

Fixpoint parse_segs (fuel : nat) (s : bytes) : option Path :=
  match s, fuel with
  | [], _ => Some []
  | _ :: _, S f =>
      match parse_seg s with
      | Some (seg, rest) => match parse_segs f rest with Some p => Some (seg :: p) | None => None end
      | None => None
      end
  | _ :: _, O => None
  end.

Definition ParsePath (s : bytes) : option Path :=
  match s with
  | [] => Some []
  | c :: s => if c =? 36 then parse_segs (length s) s else None
  end.

(** {"a":[1, "\u00e9\ud83d\ude00"],"a":null} *)
Example Json_Decode_sample :
  Json_Decode [123; 34; 97; 34; 58; 91; 49; 44; 32; 34; 92; 117; 48; 48; 101; 57; 92; 117; 100; 56; 51; 100;
               92; 117; 100; 101; 48; 48; 34; 93; 44; 34; 98; 34; 58; 110; 117; 108; 108; 125]
  = Some (JObject (<[[97] := JArray [JNumber [49]; JString [195; 169; 240; 159; 152; 128]]]> {[ [98] := JNull ]})).
Proof. vm_compute. reflexivity. Qed.

(** $.a["b\n"][12] *)
Example ParsePath_sample :
  ParsePath [36; 46; 97; 91; 34; 98; 92; 110; 34; 93; 91; 49; 50; 93] = Some [SKey [97]; SKey [98; 10]; SIndex 12].
Proof. vm_compute. reflexivity. Qed.

(** ** Reading consumes input, and the fuel is enough *)

Lemma skip_space_shorter s : (length (skip_space s) <= length s)%nat.
Proof. induction s as [|c s IH]; cbn; [done|]. destruct (is_space c); cbn; lia. Qed.

Lemma skip_digits_shorter s : (length (skip_digits s) <= length s)%nat.
Proof. induction s as [|c s IH]; cbn; [done|]. destruct (is_digit c); cbn; lia. Qed.

Lemma getu4_shorter s r s' : getu4 s = Some (r, s') -> (length s' < length s)%nat.
Proof. unfold getu4. repeat case_match; try done. intros [= <- <-]. cbn. lia. Qed.

Lemma strip_prefix_shorter p s rest : strip_prefix p s = Some rest -> (length rest <= length s)%nat.
Proof.
  revert s. induction p as [|a p IH]; intros s; cbn; [by intros [= <-]|]. destruct s as [|b s]; [done|].
  destruct (a =? b); [|done]. intros H%IH. cbn. lia.
Qed.

Lemma low_half_shorter r s r' s' : low_half r s = Some (r', s') -> (length s' < length s)%nat.
Proof.
  unfold low_half. destruct (strip_prefix [92; 117] s) as [t|] eqn:E; [|done]. apply strip_prefix_shorter in E.
  destruct (getu4 t) as [[r2 t']|] eqn:E2; [|done]. apply getu4_shorter in E2. destruct (_ && _); [|done].
  intros [= <- <-]. lia.
Qed.

Lemma unescape_shorter s out s' : unescape s = Some (out, s') -> (length s' < length s)%nat.
Proof.
  unfold unescape. intros H. repeat case_match; simplify_eq; cbn; try lia;
  repeat match goal with
  | H : getu4 _ = Some _ |- _ => apply getu4_shorter in H
  | H : low_half _ _ = Some _ |- _ => apply low_half_shorter in H
  end; lia.
Qed.

Lemma prepend_Some out r str rest :
  prepend out r = Some (str, rest) <-> exists str', r = Some (str', rest) /\ str = out ++ str'.
Proof. unfold prepend. destruct r as [[a b]|]; naive_solver. Qed.

Lemma parse_string_shorter f s str rest : parse_string f s = Some (str, rest) -> (length rest < length s)%nat.
Proof.
  revert s str. induction f as [|f IH]; intros [|c s] str; cbn [parse_string]; try done.
  destruct (c =? 34); [intros [= <- <-]; cbn; lia|]. destruct (c =? 92).
  { destruct (unescape s) as [[out s']|] eqn:E; [|done]. apply unescape_shorter in E.
    intros (str' & H & _)%prepend_Some. apply IH in H. cbn. lia. }
  destruct (c <? 32); [done|]. destruct (c <? 128).
  { intros (str' & H & _)%prepend_Some. apply IH in H. cbn. lia. }
  destruct (rune_len (c :: s)) as [|n]; intros (str' & H & _)%prepend_Some; apply IH in H; cbn.
  - lia.
  - rewrite length_drop in H. cbn in H. lia.
Qed.

Lemma parse_string_fuel f f' s :
  (length s < f)%nat -> (length s < f')%nat -> parse_string f s = parse_string f' s.
Proof.
  revert f' s. induction f as [|f IH]; intros [|f'] [|c s] Hf Hf'; cbn [length] in *; try lia; [done|].
  cbn [parse_string]. destruct (c =? 34); [done|]. destruct (c =? 92).
  { destruct (unescape s) as [[out s']|] eqn:E; [|done]. apply unescape_shorter in E. rewrite (IH f' s'); [done|lia|lia]. }
  rewrite (IH f' s) by lia. destruct (c <? 32); [done|]. destruct (c <? 128); [done|].
  destruct (rune_len (c :: s)) as [|n]; [done|]. rewrite (IH f'); [done|..]; rewrite length_drop; cbn; lia.
Qed.

Lemma read_string_fuel f s : (length s < f)%nat -> parse_string f s = read_string s.
Proof. intros. apply parse_string_fuel; lia. Qed.

Lemma read_string_shorter s str rest : read_string s = Some (str, rest) -> (length rest < length s)%nat.
Proof. apply parse_string_shorter. Qed.

Lemma scan_digits1_shorter s s' : scan_digits1 s = Some s' -> (length s' < length s)%nat.
Proof.
  destruct s as [|c s]; [done|]. cbn. destruct (is_digit c); [|done]. intros [= <-].
  pose proof (skip_digits_shorter s). lia.
Qed.

Lemma scan_number_shorter s rest : scan_number s = Some rest -> (length rest < length s)%nat.
Proof.
  unfold scan_number. set (s1 := match s with [] => [] | c :: s' => _ end).
  assert (H1 : (length s1 <= length s)%nat) by (unfold s1; destruct s as [|c s']; [done|]; destruct (c =? 45); cbn; lia).
  destruct (scan_int s1) as [s2|] eqn:E2; [|done].
  assert (H2 : (length s2 < length s1)%nat).
  { revert E2. unfold scan_int. destruct s1 as [|c s1]; [done|]. pose proof (skip_digits_shorter s1).
    repeat case_match; intros [= <-]; cbn; lia. }
  destruct (scan_frac s2) as [s3|] eqn:E3; [|done].
  assert (H3 : (length s3 <= length s2)%nat).
  { revert E3. unfold scan_frac. destruct s2 as [|c s2]; [by intros [= <-]|]. destruct (c =? 46); [|by intros [= <-]].
    intros E%scan_digits1_shorter. cbn. lia. }
  unfold scan_exp. destruct s3 as [|c s3]; [intros [= <-]; lia|].
  destruct (_ || _); [|intros [= <-]; lia]. destruct s3 as [|d s3]; [done|].
  destruct (_ || _); intros E%scan_digits1_shorter; cbn in *; lia.
Qed.

Lemma parse_number_shorter s v rest : parse_number s = Some (v, rest) -> (length rest < length s)%nat.
Proof. unfold parse_number. destruct (scan_number s) eqn:E; [|done]. intros [= <- <-]. by apply scan_number_shorter. Qed.

Lemma skip_space_cons s c s' : skip_space s = c :: s' -> (length s' < length s)%nat.
Proof. intros E. pose proof (skip_space_shorter s) as H. rewrite E in H. cbn in H. lia. Qed.

Lemma closes_shorter c s rest : closes c s = Some rest -> (length rest < length s)%nat.
Proof.
  unfold closes. destruct (skip_space s) as [|d r] eqn:E; [done|]. apply skip_space_cons in E.
  destruct (d =? c); [|done]. by intros [= <-].
Qed.

(** The three readers at once: what they leave is shorter than what they got. *)
Lemma parse_shorter f :
  (forall d s v r, parse_value f d s = Some (v, r) -> (length r < length s)%nat) /\
  (forall d s l r, parse_elems f d s = Some (l, r) -> (length r < length s)%nat) /\
  (forall d m s m' r, parse_members f d m s = Some (m', r) -> (length r < length s)%nat).
Proof.
  induction f as [|f (IHv & IHe & IHm)]; [split_and!; done|]. split_and!.
  - intros d s v r. cbn [parse_value]. destruct (skip_space s) as [|c s'] eqn:Es; [done|].
    apply skip_space_cons in Es. intros H. repeat case_match; simplify_eq;
    repeat match goal with
    | H : read_string _ = Some _ |- _ => apply read_string_shorter in H
    | H : parse_number _ = Some _ |- _ => apply parse_number_shorter in H
    | H : parse_elems _ _ _ = Some _ |- _ => apply IHe in H
    | H : parse_members _ _ _ _ = Some _ |- _ => apply IHm in H
    | H : closes _ _ = Some _ |- _ => apply closes_shorter in H
    | H : parse_literal _ _ _ = Some _ |- _ => unfold parse_literal in H; case_match; simplify_eq
    | H : strip_prefix _ _ = Some _ |- _ => apply strip_prefix_shorter in H
    end; cbn in *; lia.
  - intros d s l r. cbn [parse_elems]. intros H. repeat case_match; simplify_eq;
    repeat match goal with
    | H : parse_value _ _ _ = Some _ |- _ => apply IHv in H
    | H : parse_elems _ _ _ = Some _ |- _ => apply IHe in H
    | H : skip_space _ = _ :: _ |- _ => apply skip_space_cons in H
    end; lia.
  - intros d m s m' r. cbn [parse_members]. intros H. repeat case_match; simplify_eq;
    repeat match goal with
    | H : read_string _ = Some _ |- _ => apply read_string_shorter in H
    | H : parse_value _ _ _ = Some _ |- _ => apply IHv in H
    | H : parse_members _ _ _ _ = Some _ |- _ => apply IHm in H
    | H : skip_space _ = _ :: _ |- _ => apply skip_space_cons in H
    end; lia.
Qed.

Lemma parse_value_shorter f d s v r : parse_value f d s = Some (v, r) -> (length r < length s)%nat.
Proof. apply (parse_shorter f). Qed.

(** More fuel than two units per byte changes nothing. *)
Lemma parse_fuel f :
  (forall f' d s, (2 * length s + 1 <= f)%nat -> (2 * length s + 1 <= f')%nat -> parse_value f d s = parse_value f' d s) /\
  (forall f' d s, (2 * length s + 2 <= f)%nat -> (2 * length s + 2 <= f')%nat -> parse_elems f d s = parse_elems f' d s) /\
  (forall f' d m s, (2 * length s + 2 <= f)%nat -> (2 * length s + 2 <= f')%nat ->
     parse_members f d m s = parse_members f' d m s).
Proof.
  induction f as [|f (IHv & IHe & IHm)]; [split_and!; lia|]. split_and!; intros [|f']; try lia.
  - intros d s Hf Hf'. cbn [parse_value]. destruct (skip_space s) as [|c s'] eqn:Es; [done|].
    apply skip_space_cons in Es. rewrite (IHe f' (S d) s'), (IHm f' (S d) ∅ s') by lia. done.
  - intros d s Hf Hf'. cbn [parse_elems]. rewrite (IHv f' d s) by lia.
    destruct (parse_value f' d s) as [[v r]|] eqn:E; [|done]. apply parse_value_shorter in E.
    destruct (skip_space r) as [|c r'] eqn:Er; [done|]. apply skip_space_cons in Er. rewrite (IHe f' d r') by lia. done.
  - intros d m s Hf Hf'. cbn [parse_members]. destruct (skip_space s) as [|c s'] eqn:Es; [done|].
    apply skip_space_cons in Es. destruct (c =? 34); [|done].
    destruct (read_string s') as [[k s1]|] eqn:E1; [|done]. apply read_string_shorter in E1.
    destruct (skip_space s1) as [|c2 s2] eqn:E2; [done|]. apply skip_space_cons in E2. destruct (c2 =? 58); [|done].
    rewrite (IHv f' d s2) by lia. destruct (parse_value f' d s2) as [[v s3]|] eqn:E3; [|done].
    apply parse_value_shorter in E3. destruct (skip_space s3) as [|c4 s4] eqn:E4; [done|].
    apply skip_space_cons in E4. rewrite (IHm f' d (<[k := v]> m) s4) by lia. done.
Qed.

(** The value at the head of a text, whatever the fuel. *)
Definition read_value (d : nat) (s : bytes) : option (json * bytes) := parse_value (value_fuel s) d s.

Lemma read_value_fuel f d s : (2 * length s + 1 <= f)%nat -> parse_value f d s = read_value d s.
Proof. intros. apply (parse_fuel f); unfold value_fuel; lia. Qed.

(** ** Well-formed documents *)

(** One UTF-8 sequence; a string of them. *)
Definition is_rune (r : bytes) : Prop := bytes_ok r /\ r <> [] /\ rune_len r = length r.

Inductive utf8 : bytes -> Prop :=
| utf8_nil : utf8 []
| utf8_app r s : is_rune r -> utf8 s -> utf8 (r ++ s).

(** Strings are UTF-8 and numbers are JSON numbers. *)
Inductive json_wf : json -> Prop :=
| wf_null : json_wf JNull
| wf_bool b : json_wf (JBool b)
| wf_string s : utf8 s -> json_wf (JString s)
| wf_number s : isValidNumber s = true -> json_wf (JNumber s)
| wf_array l : (forall v, v ∈ l -> json_wf v) -> json_wf (JArray l)
| wf_object m :
    (forall k v, m !! k = Some v -> utf8 k) -> (forall k v, m !! k = Some v -> json_wf v) -> json_wf (JObject m).

(** The number of arrays and objects inside one another. *)
Fixpoint json_depth (v : json) : nat :=
  match v with
  | JArray l => S (max_list (map json_depth l))
  | JObject m => S (max_list (map snd (map_to_list (json_depth <$> m))))
  | _ => 0%nat
  end.

Definition json_ok (v : json) : Prop := json_wf v /\ (json_depth v <= maxNestingDepth)%nat.

Lemma max_list_le l n : (forall x, x ∈ l -> (x <= n)%nat) <-> (max_list l <= n)%nat.
Proof.
  induction l as [|x l IH]; cbn; [split; [lia|intros _ x Hx; by apply elem_of_nil in Hx]|].
  rewrite Nat.max_lub_iff, <- IH. split.
  - intros H. split; [apply H; by left|]. intros y Hy. apply H. by right.
  - intros [H1 H2] y [->|Hy]%elem_of_cons; auto.
Qed.

Lemma depth_array l n : (json_depth (JArray l) <= S n)%nat <-> forall v, v ∈ l -> (json_depth v <= n)%nat.
Proof.
  cbn [json_depth]. rewrite <- Nat.succ_le_mono, <- max_list_le. split.
  - intros H v Hv. apply H, list_elem_of_fmap. eauto.
  - intros H x (v & -> & Hv)%list_elem_of_fmap. by apply H.
Qed.

Lemma depth_object m n :
  (json_depth (JObject m) <= S n)%nat <-> forall k v, m !! k = Some v -> (json_depth v <= n)%nat.
Proof.
  cbn [json_depth]. rewrite <- Nat.succ_le_mono, <- max_list_le. split.
  - intros H k v Hk. apply H, list_elem_of_fmap. exists (k, json_depth v). split; [done|].
    apply elem_of_map_to_list. by rewrite lookup_fmap, Hk.
  - intros H x ([k y] & -> & Hy)%list_elem_of_fmap. apply elem_of_map_to_list in Hy. cbn.
    rewrite lookup_fmap in Hy. destruct (m !! k) as [v|] eqn:E; [|done]. injection Hy as <-. by eapply H.
Qed.

(** ** Runes *)

Lemma rune_len_le s : (rune_len s <= length s)%nat.
Proof. unfold rune_len. repeat case_match; cbn; lia. Qed.

(** Only the bytes of the sequence itself are looked at. *)
Lemma rune_len_app r s : r <> [] -> rune_len r = length r -> rune_len (r ++ s) = length r.
Proof.
  destruct r as [|b0 [|b1 [|b2 [|b3 [|b4 r]]]]]; [done|..]; intros _ H; cbn [app length] in *;
    unfold rune_len in *; repeat case_match; simplify_eq; try done; congruence.
Qed.

Lemma rune_len_take s n : rune_len s = S n -> rune_len (take (S n) s) = S n.
Proof.
  intros H. destruct s as [|b0 [|b1 [|b2 [|b3 s]]]]; unfold rune_len in H; repeat case_match; simplify_eq;
    simpl (take _ _); unfold rune_len; repeat case_match; simplify_eq; try done; congruence.
Qed.

Lemma take_rune s n : bytes_ok s -> rune_len s = S n -> is_rune (take (S n) s).
Proof.
  intros Hb H. pose proof (rune_len_le s) as Hl. split_and!.
  - by apply Forall_take.
  - destruct s; [done|]. by cbn.
  - rewrite (rune_len_take s n H), length_take. lia.
Qed.

Lemma ascii_rune c : 0 <= c < 128 -> is_rune [c].
Proof.
  intros Hc. split_and!; [constructor; [unfold is_byte; lia|done]|done|].
  cbn. by destruct (Z.ltb_spec c 128); [|lia].
Qed.

(** The three forms of a longer sequence. *)
Lemma rune2 b0 b1 : 194 <= b0 <= 223 -> 128 <= b1 <= 191 -> is_rune [b0; b1].
Proof.
  intros. split_and!; [repeat constructor; lia|done|]. cbn.
  replace (b0 <? 128) with false by lia. unfold is_cont.
  by replace ((194 <=? b0) && (b0 <=? 223) && ((128 <=? b1) && (b1 <=? 191))) with true by lia.
Qed.

Lemma rune3 b0 b1 b2 :
  224 <= b0 <= 239 -> 128 <= b1 <= 191 -> 128 <= b2 <= 191 -> (b0 = 224 -> 160 <= b1) -> (b0 = 237 -> b1 <= 159) ->
  is_rune [b0; b1; b2].
Proof.
  intros. split_and!; [repeat constructor; lia|done|]. cbn.
  replace (b0 <? 128) with false by lia. replace ((194 <=? b0) && (b0 <=? 223)) with false by lia. cbn [andb].
  unfold is_cont. case_match; [done|lia].
Qed.

Lemma rune4 b0 b1 b2 b3 :
  240 <= b0 <= 244 -> 128 <= b1 <= 191 -> 128 <= b2 <= 191 -> 128 <= b3 <= 191 ->
  (b0 = 240 -> 144 <= b1) -> (b0 = 244 -> b1 <= 143) -> is_rune [b0; b1; b2; b3].
Proof.
  intros. split_and!; [repeat constructor; lia|done|]. cbn.
  replace (b0 <? 128) with false by lia. replace ((194 <=? b0) && (b0 <=? 223)) with false by lia. cbn [andb].
  unfold is_cont. case_match; [lia|]. case_match; [done|lia].
Qed.

Lemma encode_rune_ok r : 0 <= r -> is_rune (encode_rune r).
Proof.
  intros Hr. unfold encode_rune. destruct (Z.ltb_spec r 128); [by apply ascii_rune|].
  destruct (Z.ltb_spec r 2048); [apply rune2; Z.to_euclidean_division_equations; lia|].
  destruct (isSurrogate r || (1114111 <? r)) eqn:Es; [split_and!; [by repeat constructor|done|done]|].
  unfold isSurrogate in Es. destruct (Z.ltb_spec r 65536).
  - apply rune3; Z.to_euclidean_division_equations; lia.
  - apply rune4; Z.to_euclidean_division_equations; lia.
Qed.

(** ** Numbers: the encoder's check and the scanner agree *)

(** What may follow a number without being part of it. *)
Definition num_stop (t : bytes) : Prop :=
  match t with c :: _ => is_digit c = false /\ c <> 46 /\ c <> 101 /\ c <> 69 | [] => True end.

Definition head_not (P : byte -> bool) (t : bytes) : Prop :=
  match t with c :: _ => P c = false | [] => True end.

Lemma skip_digits_split s : exists p, s = p ++ skip_digits s /\ forall t, head_not is_digit t -> skip_digits (p ++ t) = t.
Proof.
  induction s as [|c s IH]; cbn.
  - exists []. split; [done|]. intros [|c t]; cbn; [done|]. by intros ->.
  - destruct (is_digit c) eqn:Ec.
    + destruct IH as (p & Hp & Ht). exists (c :: p). cbn. rewrite Ec, <- Hp. by split.
    + exists []. split; [done|]. intros [|d t]; cbn; [done|]. by intros ->.
Qed.

Lemma scan_digits1_split s r :
  scan_digits1 s = Some r -> exists p, s = p ++ r /\ p <> [] /\ forall t, head_not is_digit t -> scan_digits1 (p ++ t) = Some t.
Proof.
  destruct s as [|c s]; cbn; [done|]. destruct (is_digit c) eqn:Ec; [|done]. intros [= <-].
  destruct (skip_digits_split s) as (p & Hp & Ht). exists (c :: p). cbn. rewrite Ec, <- Hp.
  split_and!; [done|done|]. intros t Hs. by rewrite Ht.
Qed.

Lemma scan_int_split s r :
  scan_int s = Some r -> exists p, s = p ++ r /\ p <> [] /\ forall t, head_not is_digit t -> scan_int (p ++ t) = Some t.
Proof.
  destruct s as [|c s]; cbn; [done|]. destruct (c =? 48) eqn:E0.
  { intros [= <-]. exists [c]. cbn. by rewrite E0. }
  destruct (_ && _) eqn:E1; [|done]. intros [= <-]. destruct (skip_digits_split s) as (p & Hp & Ht).
  exists (c :: p). cbn. rewrite E0, E1, <- Hp. split_and!; [done|done|]. intros t Hs. by rewrite Ht.
Qed.

Lemma scan_frac_split s r :
  scan_frac s = Some r -> exists p, s = p ++ r /\ (p = [] \/ head p = Some 46) /\
    forall t, head_not is_digit t -> head_not (Z.eqb 46) t -> scan_frac (p ++ t) = Some t.
Proof.
  assert (Hnil : forall t, head_not (Z.eqb 46) t -> scan_frac ([] ++ t) = Some t).
  { intros [|c t]; cbn [app scan_frac head_not]; [done|]. rewrite Z.eqb_sym. by intros ->. }
  destruct s as [|c s]; cbn [scan_frac]; [intros [= <-]; exists []; eauto|].
  destruct (Z.eqb_spec c 46) as [->|]; [|intros [= <-]; exists []; eauto].
  intros (p & -> & Hne & Ht)%scan_digits1_split. exists (46 :: p). split_and!; [done|by right|].
  intros t Hs _. cbn. by apply Ht.
Qed.

Definition is_exp (c : byte) : bool := (c =? 101) || (c =? 69).

Lemma scan_exp_split s r :
  scan_exp s = Some r -> exists p, s = p ++ r /\ (p = [] \/ exists c p', p = c :: p' /\ is_exp c = true) /\
    forall t, head_not is_digit t -> head_not is_exp t -> scan_exp (p ++ t) = Some t.
Proof.
  assert (Hnil : forall t, head_not is_exp t -> scan_exp ([] ++ t) = Some t).
  { intros [|c t]; cbn; [done|]. unfold is_exp. by intros ->. }
  destruct s as [|c s]; cbn [scan_exp]; [intros [= <-]; exists []; eauto|]. change ((c =? 101) || (c =? 69)) with (is_exp c).
  destruct (is_exp c) eqn:Ec; [|intros [= <-]; exists []; eauto].
  destruct s as [|d s]; [done|]. destruct ((d =? 43) || (d =? 45)) eqn:Ed;
    intros (p & Hp & Hne & Ht)%scan_digits1_split.
  - exists (c :: d :: p). rewrite Hp. split_and!; [done|right; eauto|]. intros t Hs _. cbn.
    change ((c =? 101) || (c =? 69)) with (is_exp c). rewrite Ec, Ed. by apply Ht.
  - destruct p as [|d' p]; [done|]. injection Hp as <- ->. exists (c :: d :: p).
    split_and!; [done|right; eauto|]. intros t Hs _. cbn [app scan_exp].
    change ((c =? 101) || (c =? 69)) with (is_exp c). rewrite Ec, Ed. by apply Ht.
Qed.

Lemma num_stop_not t : num_stop t -> head_not is_digit t /\ head_not (Z.eqb 46) t /\ head_not is_exp t.
Proof. destruct t as [|c t]; cbn [num_stop head_not]; [done|]. intros (H1 & H2 & H3 & H4). unfold is_exp. split_and!; [done|lia|lia]. Qed.

(** A scanned number is scanned again, in front of anything that cannot continue it. *)
Lemma scan_number_split s r :
  scan_number s = Some r -> exists p, s = p ++ r /\ p <> [] /\ forall t, num_stop t -> scan_number (p ++ t) = Some t.
Proof.
  unfold scan_number at 1. cbv zeta. set (s1 := match s with [] => [] | c :: s' => _ end).
  destruct (scan_int s1) as [s2|] eqn:E1; [|done]. destruct (scan_frac s2) as [s3|] eqn:E2; [|done]. intros E3.
  apply scan_int_split in E1 as (p1 & H1 & Hne & T1). apply scan_frac_split in E2 as (p2 & H2 & Hd & T2).
  apply scan_exp_split in E3 as (p3 & H3 & He & T3).
  assert (Hrun : forall t, num_stop t ->
    match scan_int (p1 ++ p2 ++ p3 ++ t) with
    | None => None | Some s => match scan_frac s with None => None | Some s => scan_exp s end end = Some t).
  { intros t (Ht1 & Ht2 & Ht3)%num_stop_not.
    assert (Hx : head_not is_digit (p3 ++ t) /\ head_not (Z.eqb 46) (p3 ++ t)).
    { destruct He as [->|(c & p' & -> & Hc)]; [done|]. cbn [app head_not]. unfold is_exp, is_digit in *. lia. }
    rewrite T1; [rewrite T2 by apply Hx; by apply T3|].
    destruct Hd as [->|Hd]; [apply Hx|]. destruct p2; [done|]. injection Hd as ->. by cbn. }
  assert (Hp1 : exists c p1', p1 = c :: p1' /\ (c =? 45) = false).
  { destruct p1 as [|c p1']; [done|]. exists c, p1'. split; [done|]. destruct (Z.eqb_spec c 45) as [->|]; [|done].
    specialize (T1 [] I). cbn in T1. done. }
  unfold s1 in H1. destruct s as [|c s]; [destruct p1; done|]. destruct (c =? 45) eqn:Ec.
  - exists (c :: p1 ++ p2 ++ p3). split_and!; [cbn; rewrite <- !app_assoc; congruence|done|].
    intros t Ht. unfold scan_number. cbn [app]. rewrite Ec, <- !app_assoc. by apply Hrun.
  - exists (p1 ++ p2 ++ p3). split_and!; [rewrite <- !app_assoc; congruence|by destruct p1|].
    intros t Ht. unfold scan_number. rewrite <- !app_assoc. destruct Hp1 as (c' & p1' & -> & Hc'). cbn [app]. rewrite Hc'.
    by apply Hrun.
Qed.

Lemma isValidNumber_scan s : isValidNumber s = true <-> scan_number s = Some [].
Proof.
  unfold isValidNumber, scan_number. cbv zeta. set (s1 := match s with [] => [] | c :: s' => _ end). clearbody s1. clear s.
  change (match s1 with [] => None | c :: s' => if c =? 48 then Some s' else
    if (49 <=? c) && (c <=? 57) then Some (skip_digits s') else None end) with (scan_int s1).
  destruct (scan_int s1) as [s|]; [|done]. unfold scan_frac.
  assert (Hexp : forall s, match (match s with
               | c :: d :: s' => if (c =? 101) || (c =? 69) then
                     if (d =? 43) || (d =? 45) then match s' with [] => s | _ :: _ => skip_digits s' end
                     else skip_digits (d :: s') else s
               | _ => s end) with [] => true | _ :: _ => false end = true <-> scan_exp s = Some []).
  { clear. intros [|c [|d s]]; cbn [scan_exp]; [done|by destruct (_ || _)|].
    destruct ((c =? 101) || (c =? 69)); [|done]. destruct ((d =? 43) || (d =? 45)) eqn:Ed.
    - destruct s as [|x s]; [done|]. cbn [scan_digits1 skip_digits]. destruct (is_digit x); [|done].
      destruct (skip_digits s); naive_solver.
    - cbn [scan_digits1 skip_digits]. destruct (is_digit d); [|done]. destruct (skip_digits s); naive_solver. }
  destruct s as [|c [|d s]]; [done| |].
  - destruct (Z.eqb_spec c 46) as [->|]; [done|]. apply (Hexp [c]).
  - destruct (c =? 46) eqn:Ec; cbn [andb]; [|apply (Hexp (c :: d :: s))]. cbn [scan_digits1]. destruct (is_digit d).
    + apply (Hexp (skip_digits s)).
    + replace ((c =? 101) || (c =? 69)) with false by lia. done.
Qed.

(** ** What Decode returns is well-formed *)

Lemma skip_space_ok s : bytes_ok s -> bytes_ok (skip_space s).
Proof. induction 1 as [|c s Hc Hs IH]; cbn; [done|]. destruct (is_space c); [done|by constructor]. Qed.

Lemma skip_space_cons_ok s c s' : bytes_ok s -> skip_space s = c :: s' -> is_byte c /\ bytes_ok s'.
Proof. intros H E. apply skip_space_ok in H. rewrite E in H. by inv H. Qed.

Lemma closes_ok c s rest : bytes_ok s -> closes c s = Some rest -> bytes_ok rest.
Proof.
  unfold closes. intros Hs. destruct (skip_space s) as [|d r] eqn:E; [done|].
  apply skip_space_cons_ok in E as [_ ?]; [|done]. destruct (d =? c); [|done]. by intros [= <-].
Qed.

Lemma hexval_range c x : hexval c = Some x -> 0 <= x < 16.
Proof. unfold hexval, is_digit. repeat case_match; intros [= <-]; lia. Qed.

Lemma getu4_ok s r s' : bytes_ok s -> getu4 s = Some (r, s') -> 0 <= r /\ bytes_ok s'.
Proof.
  unfold getu4. intros Hs H. repeat case_match; simplify_eq.
  repeat match goal with H : hexval _ = Some _ |- _ => apply hexval_range in H end.
  repeat match goal with H : Forall _ (_ :: _) |- _ => inv H end. split; [lia|done].
Qed.

Lemma strip_prefix_ok p s rest : bytes_ok s -> strip_prefix p s = Some rest -> bytes_ok rest.
Proof.
  revert s. induction p as [|a p IH]; intros s Hs; cbn; [by intros [= <-]|]. destruct s as [|b s]; [done|].
  inv Hs. destruct (a =? b); [by apply IH|done].
Qed.

Lemma low_half_ok r s r' s' : isSurrogate r = true -> bytes_ok s -> low_half r s = Some (r', s') -> 0 <= r' /\ bytes_ok s'.
Proof.
  unfold low_half, isSurrogate. intros Hr Hs. destruct (strip_prefix [92; 117] s) as [t|] eqn:E; [|done].
  apply strip_prefix_ok in E; [|done]. destruct (getu4 t) as [[r2 t']|] eqn:E2; [|done]. apply getu4_ok in E2 as [? ?]; [|done].
  case_match; [|done]. intros [= <- <-]. split; [lia|done].
Qed.

Lemma unescape_ok s out s' : bytes_ok s -> unescape s = Some (out, s') -> is_rune out /\ bytes_ok s'.
Proof.
  destruct s as [|c s]; [done|]. intros Hs. inv Hs. unfold unescape. intros H.
  repeat case_match; simplify_eq; (split; [|try done]); try (apply ascii_rune; lia);
  repeat match goal with H : getu4 _ = Some _ |- _ => apply getu4_ok in H as [? ?]; [|done] end;
  try match goal with H : low_half _ _ = Some _ |- _ => apply low_half_ok in H as [? ?]; [|done|done] end;
  try done; try (by apply encode_rune_ok).
  split_and!; [by repeat constructor|done|done].
Qed.

Lemma replacement_rune : is_rune replacement.
Proof. split_and!; [by repeat constructor|done|done]. Qed.

Lemma parse_string_ok f s str rest : bytes_ok s -> parse_string f s = Some (str, rest) -> utf8 str /\ bytes_ok rest.
Proof.
  revert s str. induction f as [|f IH]; intros [|c s] str Hs; cbn [parse_string]; try done.
  inversion_clear Hs as [|? ? Hc Hs']. destruct (c =? 34); [intros [= <- <-]; split; [constructor|done]|].
  assert (Hgo : forall out t str, is_rune out -> bytes_ok t -> prepend out (parse_string f t) = Some (str, rest) ->
    utf8 str /\ bytes_ok rest).
  { intros out t str0 Ho Ht (str' & H & ->)%prepend_Some. apply IH in H as [Hu Hr]; [|done]. split; [by constructor|done]. }
  destruct (Z.eqb_spec c 92).
  { destruct (unescape s) as [[out s']|] eqn:E; [|done]. apply unescape_ok in E as [? ?]; [|done]. by apply Hgo. }
  destruct (Z.ltb_spec c 32); [done|]. destruct (Z.ltb_spec c 128).
  { apply Hgo; [apply ascii_rune; lia|done]. }
  destruct (rune_len (c :: s)) as [|i] eqn:En.
  - apply Hgo; [apply replacement_rune|done].
  - assert (bytes_ok (c :: s)) by (by constructor). apply Hgo; [by apply take_rune|by apply Forall_drop].
Qed.

Lemma read_string_ok s str rest : bytes_ok s -> read_string s = Some (str, rest) -> utf8 str /\ bytes_ok rest.
Proof. apply parse_string_ok. Qed.

Lemma parse_number_ok s v rest :
  bytes_ok s -> parse_number s = Some (v, rest) -> json_wf v /\ json_depth v = 0%nat /\ bytes_ok rest.
Proof.
  intros Hs. unfold parse_number. destruct (scan_number s) as [r|] eqn:E; [|done]. intros [= <- <-].
  apply scan_number_split in E as (p & -> & _ & Ht). rewrite length_app, Nat.add_sub, take_app_length.
  apply Forall_app in Hs as [_ Hr]. split_and!; [|done|done]. constructor. apply isValidNumber_scan.
  rewrite <- (app_nil_r p). by apply Ht.
Qed.

Definition elem_ok (d : nat) (v : json) : Prop := json_wf v /\ (d + json_depth v <= maxNestingDepth)%nat.

Lemma elem_array d l :
  (d < maxNestingDepth)%nat -> (forall v, v ∈ l -> elem_ok (S d) v) -> elem_ok d (JArray l).
Proof.
  intros Hd Hl. split; [constructor; intros v Hv; by apply Hl|].
  assert (json_depth (JArray l) <= S (maxNestingDepth - S d))%nat; [|lia].
  apply depth_array. intros v Hv. destruct (Hl v Hv). lia.
Qed.

Lemma elem_object d m :
  (d < maxNestingDepth)%nat -> (forall k v, m !! k = Some v -> utf8 k /\ elem_ok (S d) v) -> elem_ok d (JObject m).
Proof.
  intros Hd Hm. split; [constructor; intros k v Hk; by apply (Hm k v)|].
  assert (json_depth (JObject m) <= S (maxNestingDepth - S d))%nat; [|lia].
  apply depth_object. intros k v Hk. destruct (Hm k v Hk) as [_ []]. lia.
Qed.

Lemma elem_scalar d v : (d <= maxNestingDepth)%nat -> json_wf v -> json_depth v = 0%nat -> elem_ok d v.
Proof. intros Hd Hv E. split; [done|]. rewrite E. lia. Qed.

Lemma parse_value_step_ok f d s v r :
  (forall d s l r, bytes_ok s -> (d <= maxNestingDepth)%nat -> parse_elems f d s = Some (l, r) ->
     (forall v, v ∈ l -> elem_ok d v) /\ bytes_ok r) ->
  (forall d m s m' r, bytes_ok s -> (d <= maxNestingDepth)%nat -> (forall k v, m !! k = Some v -> utf8 k /\ elem_ok d v) ->
     parse_members f d m s = Some (m', r) -> (forall k v, m' !! k = Some v -> utf8 k /\ elem_ok d v) /\ bytes_ok r) ->
  bytes_ok s -> (d <= maxNestingDepth)%nat -> parse_value (S f) d s = Some (v, r) -> elem_ok d v /\ bytes_ok r.
Proof.
  intros IHe IHm Hs Hd. cbn [parse_value]. destruct (skip_space s) as [|c s'] eqn:Es; [done|].
  destruct (skip_space_cons_ok _ _ _ Hs Es) as [Hc Hs'].
  destruct (c =? 34).
  { destruct (read_string s') as [[str rest]|] eqn:E; [|done]. intros [= <- <-].
    apply read_string_ok in E as [? ?]; [|done]. split; [|done]. apply elem_scalar; [done|by constructor|done]. }
  destruct (c =? 91).
  { destruct (Nat.leb_spec maxNestingDepth d); [done|]. destruct (closes 93 s') as [r'|] eqn:Ec.
    - intros [= <- <-]. apply closes_ok in Ec; [|done]. split; [|done]. apply elem_array; [done|].
      intros x Hx. by apply elem_of_nil in Hx.
    - destruct (parse_elems f (S d) s') as [[l rest]|] eqn:E; [|done]. intros [= <- <-].
      apply IHe in E as [Hl Hr]; [|done|lia]. split; [by apply elem_array|done]. }
  destruct (c =? 123).
  { destruct (Nat.leb_spec maxNestingDepth d); [done|]. destruct (closes 125 s') as [r'|] eqn:Ec.
    - intros [= <- <-]. apply closes_ok in Ec; [|done]. split; [|done]. apply elem_object; [done|].
      intros k x Hx. by rewrite lookup_empty in Hx.
    - destruct (parse_members f (S d) ∅ s') as [[m rest]|] eqn:E; [|done]. intros [= <- <-].
      apply IHm in E as [Hl Hr]; [|done|lia|intros k x Hx; by rewrite lookup_empty in Hx].
      split; [by apply elem_object|done]. }
  assert (Hlit : forall p x, json_wf x -> json_depth x = 0%nat -> parse_literal p x s' = Some (v, r) -> elem_ok d v /\ bytes_ok r).
  { unfold parse_literal. intros p x Hx Hx0. destruct (strip_prefix p s') as [r'|] eqn:E; [|done]. intros [= <- <-].
    apply strip_prefix_ok in E; [|done]. split; [by apply elem_scalar|done]. }
  destruct (c =? 116); [apply Hlit; [constructor|done]|]. destruct (c =? 102); [apply Hlit; [constructor|done]|].
  destruct (c =? 110); [apply Hlit; [constructor|done]|]. destruct (_ || _); [|done].
  intros (H1 & H2 & H3)%parse_number_ok; [|by constructor]. split; [by apply elem_scalar|done].
Qed.

Lemma parse_ok f :
  (forall d s v r, bytes_ok s -> (d <= maxNestingDepth)%nat -> parse_value f d s = Some (v, r) -> elem_ok d v /\ bytes_ok r) /\
  (forall d s l r, bytes_ok s -> (d <= maxNestingDepth)%nat -> parse_elems f d s = Some (l, r) ->
     (forall v, v ∈ l -> elem_ok d v) /\ bytes_ok r) /\
  (forall d m s m' r, bytes_ok s -> (d <= maxNestingDepth)%nat -> (forall k v, m !! k = Some v -> utf8 k /\ elem_ok d v) ->
     parse_members f d m s = Some (m', r) -> (forall k v, m' !! k = Some v -> utf8 k /\ elem_ok d v) /\ bytes_ok r).
Proof.
  induction f as [|f (IHv & IHe & IHm)]; [split_and!; done|]. split_and!.
  - intros d s v r. by apply parse_value_step_ok.
  - intros d s l r Hs Hd. cbn [parse_elems]. destruct (parse_value f d s) as [[v s1]|] eqn:E1; [|done].
    apply IHv in E1 as [Hv Hs1]; [|done|done]. destruct (skip_space s1) as [|c s2] eqn:E2; [done|].
    destruct (skip_space_cons_ok _ _ _ Hs1 E2) as [_ Hs2]. destruct (c =? 44).
    + destruct (parse_elems f d s2) as [[l' r']|] eqn:E3; [|done]. apply IHe in E3 as [Hl Hr]; [|done|done].
      intros [= <- <-]. split; [|done]. intros x [->|Hx]%elem_of_cons; auto.
    + destruct (c =? 93); [|done]. intros [= <- <-]. split; [|done]. by intros x ->%list_elem_of_singleton.
  - intros d m s m' r Hs Hd Hm. cbn [parse_members]. destruct (skip_space s) as [|c s1] eqn:E1; [done|].
    destruct (skip_space_cons_ok _ _ _ Hs E1) as [_ Hs1]. destruct (c =? 34); [|done].
    destruct (read_string s1) as [[k s2]|] eqn:E2; [|done]. apply read_string_ok in E2 as [Hk Hs2]; [|done].
    destruct (skip_space s2) as [|c3 s3] eqn:E3; [done|]. destruct (skip_space_cons_ok _ _ _ Hs2 E3) as [_ Hs3].
    destruct (c3 =? 58); [|done]. destruct (parse_value f d s3) as [[v s4]|] eqn:E4; [|done].
    apply IHv in E4 as [Hv Hs4]; [|done|done]. destruct (skip_space s4) as [|c5 s5] eqn:E5; [done|].
    destruct (skip_space_cons_ok _ _ _ Hs4 E5) as [_ Hs5].
    assert (Hm' : forall k' v', <[k := v]> m !! k' = Some v' -> utf8 k' /\ elem_ok d v').
    { intros k' v'. rewrite lookup_insert_Some. intros [[<- <-]|[_ H]]; [done|by apply Hm]. }
    destruct (c5 =? 44); [by apply IHm|]. destruct (c5 =? 125); [|done]. by intros [= <- <-].
Qed.

(** ** Reading back what the encoder writes *)

Lemma read_string_cons c s :
  read_string (c :: s) =
    if c =? 34 then Some ([], s)
    else if c =? 92 then match unescape s with Some (out, t) => prepend out (read_string t) | None => None end
    else if c <? 32 then None
    else if c <? 128 then prepend [c] (read_string s)
    else match rune_len (c :: s) with
         | O => prepend replacement (read_string s)
         | n => prepend (take n (c :: s)) (read_string (drop n (c :: s)))
         end.
Proof.
  unfold read_string at 1. cbn [parse_string]. destruct (c =? 34); [done|]. destruct (c =? 92).
  { destruct (unescape s) as [[out t]|] eqn:E; [|done]. apply unescape_shorter in E. rewrite read_string_fuel; [done|cbn; lia]. }
  rewrite (read_string_fuel (length (c :: s)) s) by (cbn; lia). destruct (c <? 32); [done|]. destruct (c <? 128); [done|].
  destruct (rune_len (c :: s)) as [|n]; [done|]. rewrite read_string_fuel; [done|]. rewrite length_drop. cbn. lia.
Qed.

Lemma hexval_digit x : 0 <= x < 16 -> hexval (hexdigit x) = Some x.
Proof.
  intros Hx. unfold hexdigit, hexval, is_digit. destruct (Z.ltb_spec x 10).
  - replace ((48 <=? 48 + x) && (48 + x <=? 57)) with true by lia. f_equal. lia.
  - replace ((48 <=? 87 + x) && (87 + x <=? 57)) with false by lia.
    replace ((97 <=? 87 + x) && (87 + x <=? 102)) with true by lia. f_equal. lia.
Qed.

Lemma read_ascii b t : 0 <= b < 128 -> read_string (escape_ascii b ++ t) = prepend [b] (read_string t).
Proof.
  intros Hb. unfold escape_ascii.
  assert (Hesc : forall c, (c =? 34) || (c =? 92) || (c =? 47) = true -> read_string (92 :: c :: t) = prepend [c] (read_string t)).
  { intros c Hc. rewrite read_string_cons. cbn [unescape Z.eqb Pos.eqb]. by rewrite Hc. }
  destruct ((b =? 34) || (b =? 92)) eqn:E1; [apply Hesc; by rewrite E1|].
  destruct (Z.eqb_spec b 8) as [->|]; [by cbn [app]; rewrite read_string_cons|]. destruct (Z.eqb_spec b 12) as [->|]; [by cbn [app]; rewrite read_string_cons|].
  destruct (Z.eqb_spec b 10) as [->|]; [by cbn [app]; rewrite read_string_cons|]. destruct (Z.eqb_spec b 13) as [->|]; [by cbn [app]; rewrite read_string_cons|].
  destruct (Z.eqb_spec b 9) as [->|]; [by cbn [app]; rewrite read_string_cons|]. destruct (Z.ltb_spec b 32).
  - cbn [app]. rewrite read_string_cons. cbn [app unescape Z.eqb Pos.eqb orb getu4].
    rewrite !hexval_digit by (Z.to_euclidean_division_equations; lia). change (hexval 48) with (Some 0). cbn [app].
    replace (((0 * 16 + 0) * 16 + b / 16) * 16 + b mod 16) with b by (Z.to_euclidean_division_equations; lia).
    replace (isSurrogate b) with false by (unfold isSurrogate; lia). unfold encode_rune.
    by replace (b <? 128) with true by lia.
  - cbn [app]. rewrite read_string_cons. replace (b =? 34) with false by lia. replace (b =? 92) with false by lia.
    replace (b <? 32) with false by lia. by replace (b <? 128) with true by lia.
Qed.

Lemma rune_head r c t : rune_len r = length r -> r = c :: t -> t <> [] -> 128 <= c.
Proof.
  intros Hl -> Ht. destruct (Z.ltb_spec c 128) as [Hc|]; [|done]. exfalso. unfold rune_len in Hl.
  apply Z.ltb_lt in Hc. rewrite Hc in Hl. destruct t; [done|]. cbn in Hl. lia.
Qed.

Lemma read_rune r t : is_rune r -> read_string ((escape_rune r).1 ++ t) = prepend r (read_string t).
Proof.
  intros (Hb & Hne & Hl). unfold escape_rune. rewrite Hl. destruct r as [|c [|d r]]; [done| |].
  { cbn [length fst head default]. apply read_ascii. inv Hb. unfold is_byte in *. split; [lia|].
    unfold rune_len in Hl. destruct (Z.ltb_spec c 128); [done|]. by cbn in Hl. }
  pose proof (rune_head _ c (d :: r) Hl eq_refl ltac:(done)) as Hc. set (s := c :: d :: r) in *.
  change (length s) with (S (S (length r))). cbv iota beta. change (S (S (length r))) with (length s).
  rewrite firstn_all. repeat case_bool_decide; cbn [fst].
  - cbn [app]. by rewrite read_string_cons, H.
  - cbn [app]. by rewrite read_string_cons, H0.
  - unfold s at 1. cbn [app]. rewrite read_string_cons.
    replace (c =? 34) with false by lia. replace (c =? 92) with false by lia. replace (c <? 32) with false by lia.
    replace (c <? 128) with false by lia. change (c :: d :: r ++ t) with (s ++ t).
    rewrite (rune_len_app s t ltac:(done) Hl). destruct (length s) eqn:El; [done|]. rewrite <- El.
    cbv zeta. by rewrite take_app_length, drop_app_length.
Qed.

Lemma escape_rune_app r s : is_rune r -> escape_rune (r ++ s) = ((escape_rune r).1, length r).
Proof.
  intros (Hb & Hne & Hl). unfold escape_rune. rewrite (rune_len_app r s Hne Hl), Hl. destruct r as [|c [|d r]]; [done|done|].
  cbn [length]. cbv iota beta zeta. change (S (S (length r))) with (length (c :: d :: r)).
  rewrite take_app_length, firstn_all. by repeat case_bool_decide.
Qed.

Lemma escape_string_app f r s :
  is_rune r -> (length (r ++ s) <= f)%nat ->
  exists f', escape_string f (r ++ s) = (escape_rune r).1 ++ escape_string f' s /\ (length s <= f')%nat.
Proof.
  intros Hr Hf. pose proof (escape_rune_app r s Hr) as E. pose proof Hr as (Hb & Hne & Hl). destruct r as [|c r]; [done|].
  cbn [app length] in Hf. destruct f as [|f]; [lia|]. exists f. rewrite length_app in Hf. split; [|lia].
  cbn [app escape_string] in *. rewrite E. change (c :: r ++ s) with ((c :: r) ++ s). by rewrite drop_app_length.
Qed.

Lemma read_escaped s f t : utf8 s -> (length s <= f)%nat -> read_string (escape_string f s ++ 34 :: t) = Some (s, t).
Proof.
  intros Hu. revert f. induction Hu as [|r s Hr Hu IH]; intros f Hf; [by destruct f|].
  destruct (escape_string_app f r s Hr Hf) as (f' & -> & Hf'). rewrite <- app_assoc, (read_rune r _ Hr), IH by done. done.
Qed.

Lemma read_encoded s t : utf8 s -> exists u, encode_string s ++ t = 34 :: u /\ read_string u = Some (s, t).
Proof.
  intros Hu. exists (escape_string (length s) s ++ 34 :: t). unfold encode_string.
  split; [cbn; by rewrite <- app_assoc|by apply read_escaped].
Qed.

(** Equations of the readers without fuel. *)
Definition read_elems (d : nat) (s : bytes) : option (list json * bytes) := parse_elems (value_fuel s) d s.
Definition read_members (d : nat) (m : gmap bytes json) (s : bytes) : option (gmap bytes json * bytes) :=
  parse_members (value_fuel s) d m s.

Lemma read_elems_fuel f d s : (2 * length s + 2 <= f)%nat -> parse_elems f d s = read_elems d s.
Proof. intros. apply (parse_fuel f); unfold value_fuel; lia. Qed.

Lemma read_members_fuel f d m s : (2 * length s + 2 <= f)%nat -> parse_members f d m s = read_members d m s.
Proof. intros. apply (parse_fuel f); unfold value_fuel; lia. Qed.

Lemma read_elems_eq d s :
  read_elems d s =
    match read_value d s with
    | None => None
    | Some (v, s) =>
        match skip_space s with
        | c :: s =>
            if c =? 44 then match read_elems d s with Some (l, rest) => Some (v :: l, rest) | None => None end
            else if c =? 93 then Some ([v], s) else None
        | [] => None
        end
    end.
Proof.
  unfold read_elems at 1. destruct (value_fuel s) as [|f] eqn:Ef; unfold value_fuel in Ef; [lia|]. cbn [parse_elems].
  rewrite read_value_fuel by lia. destruct (read_value d s) as [[v s1]|] eqn:E; [|done].
  apply parse_value_shorter in E. destruct (skip_space s1) as [|c s2] eqn:E2; [done|]. apply skip_space_cons in E2.
  rewrite read_elems_fuel by lia. done.
Qed.

Lemma read_members_eq d m k s s1 s2 v s3 :
  read_string s = Some (k, s1) -> skip_space s1 = 58 :: s2 -> read_value d s2 = Some (v, s3) ->
  read_members d m (34 :: s) =
    match skip_space s3 with
    | c :: s => if c =? 44 then read_members d (<[k := v]> m) s else if c =? 125 then Some (<[k := v]> m, s) else None
    | [] => None
    end.
Proof.
  intros E1 E2 E3. pose proof (read_string_shorter _ _ _ E1) as L1. pose proof (skip_space_cons _ _ _ E2) as L2.
  pose proof (parse_value_shorter _ _ _ _ _ E3) as L3.
  unfold read_members at 1. destruct (value_fuel (34 :: s)) as [|f] eqn:Ef; unfold value_fuel in Ef; cbn [length] in Ef; [lia|].
  cbn [parse_members skip_space is_space Z.eqb Pos.eqb orb]. rewrite E1, E2.
  cbn [Z.eqb Pos.eqb]. rewrite read_value_fuel, E3 by lia.
  destruct (skip_space s3) as [|c s4] eqn:E4; [done|]. apply skip_space_cons in E4.
  rewrite read_members_fuel by lia. done.
Qed.

Lemma read_array d s :
  (d < maxNestingDepth)%nat ->
  read_value d (91 :: s) =
    match closes 93 s with
    | Some rest => Some (JArray [], rest)
    | None => match read_elems (S d) s with Some (l, rest) => Some (JArray l, rest) | None => None end
    end.
Proof.
  intros Hd. unfold read_value. destruct (value_fuel (91 :: s)) as [|f] eqn:Ef; unfold value_fuel in Ef; cbn [length] in Ef; [lia|].
  cbn [parse_value skip_space is_space Z.eqb Pos.eqb orb]. rewrite (proj2 (Nat.leb_gt _ _) Hd).
  rewrite read_elems_fuel; [done|lia].
Qed.

Lemma read_object d s :
  (d < maxNestingDepth)%nat ->
  read_value d (123 :: s) =
    match closes 125 s with
    | Some rest => Some (JObject ∅, rest)
    | None => match read_members (S d) ∅ s with Some (m, rest) => Some (JObject m, rest) | None => None end
    end.
Proof.
  intros Hd. unfold read_value. destruct (value_fuel (123 :: s)) as [|f] eqn:Ef; unfold value_fuel in Ef; cbn [length] in Ef; [lia|].
  cbn [parse_value skip_space is_space Z.eqb Pos.eqb orb]. rewrite (proj2 (Nat.leb_gt _ _) Hd).
  rewrite read_members_fuel; [done|lia].
Qed.

(** How an encoded value starts. *)
Definition value_start (c : byte) : Prop :=
  c = 110 \/ c = 116 \/ c = 102 \/ c = 34 \/ c = 91 \/ c = 123 \/ c = 45 \/ is_digit c = true.

Lemma number_start s : isValidNumber s = true -> exists c s', s = c :: s' /\ (c = 45 \/ is_digit c = true).
Proof.
  intros H%isValidNumber_scan. unfold scan_number in H. destruct s as [|c s]; [done|]. exists c, s. split; [done|].
  destruct (Z.eqb_spec c 45); [by left|right]. unfold scan_int in H.
  destruct (Z.eqb_spec c 48) as [->|]; [done|]. unfold is_digit.
  destruct ((49 <=? c) && (c <=? 57)) eqn:E; [lia|done].
Qed.

Lemma encode_start v b : json_wf v -> Json_Encode v = Some b -> exists c b', b = c :: b' /\ value_start c.
Proof.
  unfold value_start. intros Hw. destruct Hw as [|[]|s Hs|s Hs|l Hl|m Hm1 Hm2]; cbn [Json_Encode].
  1-4: intros [= <-]; eauto 10.
  - destruct (number_start s Hs) as (c & s' & -> & Hc). rewrite Hs. intros [= <-]. naive_solver.
  - destruct (mapM _ _); [|done]. intros [= <-]. eauto 10.
  - destruct (mapM _ _); [|done]. intros [= <-]. eauto 10.
Qed.

Lemma start_no_space c s : value_start c -> skip_space (c :: s) = c :: s.
Proof.
  intros H. cbn [skip_space]. replace (is_space c) with false; [done|].
  unfold value_start, is_digit, is_space in *. lia.
Qed.

Lemma start_not_close c d s : value_start c -> d = 93 \/ d = 125 -> closes d (c :: s) = None.
Proof.
  intros H Hd. unfold closes. rewrite start_no_space by done. replace (c =? d) with false; [done|].
  unfold value_start, is_digit in *. lia.
Qed.

Lemma join_comma_cons x y l : join_comma (x :: y :: l) = x ++ 44 :: join_comma (y :: l).
Proof. done. Qed.

(** [v] is read back at depth [d], whatever follows. *)
Definition reads_back (d : nat) (v : json) : Prop :=
  forall b t, Json_Encode v = Some b -> num_stop t -> read_value d (b ++ t) = Some (v, t).

Lemma read_encoded_elems d l parts t :
  l <> [] -> Forall2 (fun v b => Json_Encode v = Some b) l parts -> (forall v, v ∈ l -> reads_back d v) ->
  read_elems d (join_comma parts ++ 93 :: t) = Some (l, t).
Proof.
  intros Hl H2 Hr. revert Hl. induction H2 as [|v b l parts Hb H2 IH]; [done|]. intros _.
  assert (Hv : reads_back d v) by (apply Hr; by left). rewrite read_elems_eq.
  destruct H2 as [|v' b' l parts Hb' H2].
  - cbn [join_comma map concat]. rewrite app_nil_r, (Hv b) by done. done.
  - rewrite join_comma_cons, <- app_assoc. cbn [app]. rewrite (Hv b) by done. cbn [skip_space is_space Z.eqb Pos.eqb orb].
    rewrite IH; [done| |done]. intros x Hx. apply Hr. by right.
Qed.

Lemma encode_member_inv k v p :
  encode_member (k, Json_Encode v) = Some p -> exists b, Json_Encode v = Some b /\ p = encode_string k ++ 58 :: b.
Proof. unfold encode_member. cbn. destruct (Json_Encode v) as [b|]; [|done]. intros [= <-]. eauto. Qed.

Lemma read_encoded_members d m l parts t :
  l <> [] -> Forall2 (fun (kv : bytes * json) p => encode_member (kv.1, Json_Encode kv.2) = Some p) l parts ->
  (forall kv, kv ∈ l -> utf8 kv.1 /\ reads_back d kv.2) ->
  read_members d m (join_comma parts ++ 125 :: t) = Some (fold_left (fun m kv => <[kv.1 := kv.2]> m) l m, t).
Proof.
  intros Hl H2 Hr. revert m Hl. induction H2 as [|[k v] p l parts Hp H2 IH]; [done|]. intros m _.
  destruct (Hr (k, v)) as [Hk Hv]; [by left|]. cbn [fst snd] in Hp, Hk, Hv.
  apply encode_member_inv in Hp as (b & Hb & ->).
  assert (Hone : forall u, num_stop u -> exists s, (encode_string k ++ 58 :: b) ++ u = 34 :: s /\
    read_members d m (34 :: s) = match skip_space u with
      | c :: s => if c =? 44 then read_members d (<[k := v]> m) s else if c =? 125 then Some (<[k := v]> m, s) else None
      | [] => None end).
  { intros u Hu. rewrite <- app_assoc. cbn [app]. destruct (read_encoded k (58 :: b ++ u) Hk) as (s & -> & Hs).
    exists s. split; [done|]. by rewrite (read_members_eq d m k s (58 :: b ++ u) (b ++ u) v u Hs eq_refl (Hv b u Hb Hu)). }
  destruct H2 as [|[k' v'] p' l parts Hp' H2].
  - cbn [join_comma map concat]. rewrite app_nil_r. destruct (Hone (125 :: t)) as (s & -> & ->); done.
  - rewrite join_comma_cons, <- app_assoc. cbn [app]. destruct (Hone (44 :: join_comma (p' :: parts) ++ 125 :: t)) as (s & -> & ->); [done|].
    cbn [skip_space is_space Z.eqb Pos.eqb orb]. rewrite IH; [done| |done]. intros x Hx. apply Hr. by right.
Qed.

(** The members of an object in the order they are written. *)
Lemma sorted_members (m : gmap bytes json) : exists l,
  merge_sort key_le (map_to_list (Json_Encode <$> m)) = map (prod_map id Json_Encode) l /\ l ≡ₚ map_to_list m.
Proof.
  destruct (Permutation_map_inv (prod_map id Json_Encode) (l1 := merge_sort key_le (map_to_list (Json_Encode <$> m))) (map_to_list m))
    as (l & Hl & Hp); [|by exists l].
  rewrite merge_sort_Permutation. by rewrite map_to_list_fmap.
Qed.

Lemma read_literal d c p v t :
  value_start c -> Forall (fun x => c <> x) [34; 91; 123; 45] -> is_digit c = false ->
  (c = 116 /\ p = [114; 117; 101] /\ v = JBool true \/ c = 102 /\ p = [97; 108; 115; 101] /\ v = JBool false \/
   c = 110 /\ p = [117; 108; 108] /\ v = JNull) ->
  read_value d (c :: p ++ t) = Some (v, t).
Proof. intros _ _ _ [(-> & -> & ->)|[(-> & -> & ->)|(-> & -> & ->)]]; reflexivity. Qed.

Lemma read_number d s t : isValidNumber s = true -> num_stop t -> read_value d (s ++ t) = Some (JNumber s, t).
Proof.
  intros Hs Ht. destruct (number_start s Hs) as (c & s' & -> & Hc). apply isValidNumber_scan in Hs.
  apply scan_number_split in Hs as (p & Hp & _ & Hrun). rewrite app_nil_r in Hp. subst p.
  unfold read_value. destruct (value_fuel _) as [|f] eqn:Ef; [unfold value_fuel in Ef; lia|]. cbn [parse_value app].
  rewrite start_no_space by (unfold value_start; tauto).
  replace (c =? 34) with false by (unfold is_digit in *; lia). replace (c =? 91) with false by (unfold is_digit in *; lia).
  replace (c =? 123) with false by (unfold is_digit in *; lia). replace (c =? 116) with false by (unfold is_digit in *; lia).
  replace (c =? 102) with false by (unfold is_digit in *; lia). replace (c =? 110) with false by (unfold is_digit in *; lia).
  replace ((c =? 45) || is_digit c) with true by (unfold is_digit in *; lia).
  unfold parse_number. specialize (Hrun t Ht). cbn [app] in Hrun. rewrite Hrun. change (c :: s' ++ t) with ((c :: s') ++ t).
  by rewrite length_app, Nat.add_sub, take_app_length.
Qed.

Lemma read_string_value d s t : utf8 s -> read_value d (encode_string s ++ t) = Some (JString s, t).
Proof.
  intros Hs. destruct (read_encoded s t Hs) as (u & -> & Hu). unfold read_value.
  destruct (value_fuel _) as [|f] eqn:Ef; [unfold value_fuel in Ef; lia|].
  cbn [parse_value skip_space is_space Z.eqb Pos.eqb orb]. by rewrite Hu.
Qed.

Lemma encoded_reads_back n v d :
  (json_depth v <= n)%nat -> json_wf v -> (d + json_depth v <= maxNestingDepth)%nat -> reads_back d v.
Proof.
  revert v d. induction n as [|n IH]; intros v d Hn Hw Hd b t Hb Ht.
  all: destruct Hw as [|[]|s Hs|s Hs|l Hl|m Hk Hm]; cbn [Json_Encode] in Hb; try (cbn in Hn; lia).
  1-3,6-8: by injection Hb as <-.
  1,3: injection Hb as <-; by apply read_string_value.
  1-2: rewrite Hs in Hb; assert (s <> []) by (by intros ->); destruct s; [done|]; injection Hb as <-; by apply read_number.
  - destruct (mapM id (map Json_Encode l)) as [parts|] eqn:Ep; [|done]. injection Hb as <-. cbn [app].
    assert (Hd' : (d < maxNestingDepth)%nat) by (cbn in Hd; lia).
    rewrite (read_array d _ Hd'), <- app_assoc. cbn [app]. apply mapM_Some_1, Forall2_fmap_l in Ep.
    pose proof (proj1 (depth_array l n) Hn) as Hdep.
    destruct l as [|v l]; [inv Ep; done|]. inversion Ep as [|v' b0 l' parts' Hb0 Ep']; subst. cbn in Hb0.
    destruct (encode_start v b0) as (c & b' & -> & Hc); [apply Hl; by left|done|].
    assert (Hcl : closes 93 (join_comma ((c :: b') :: parts') ++ 93 :: t) = None) by (apply start_not_close; [done|by left]).
    rewrite Hcl, (read_encoded_elems (S d) (v :: l)); [done|done|exact Ep|].
    intros x Hx. apply IH; [by apply Hdep|by apply Hl|].
    assert (json_depth (JArray (v :: l)) <= S (maxNestingDepth - S d))%nat as H by lia.
    pose proof (proj1 (depth_array _ _) H x Hx). lia.
  - destruct (mapM encode_member _) as [parts|] eqn:Ep; [|done]. injection Hb as <-. cbn [app].
    assert (Hd' : (d < maxNestingDepth)%nat) by (cbn in Hd; lia).
    rewrite (read_object d _ Hd'), <- app_assoc. cbn [app]. destruct (sorted_members m) as (l & El & Hp).
    rewrite El in Ep. apply mapM_Some_1, Forall2_fmap_l in Ep.
    assert (Hin : forall kv, kv ∈ l -> m !! kv.1 = Some kv.2).
    { intros [k v] Hkv. apply elem_of_map_to_list. by rewrite <- Hp. }
    assert (Hmap : fold_left (fun m kv => <[kv.1 := kv.2]> m) l ∅ = m).
    { apply (fold_insert_map fst snd l m).
      - rewrite Hp. apply NoDup_fst_map_to_list.
      - intros k v. split; [intros Hkv; exists (k, v); by rewrite Hp, elem_of_map_to_list|intros ([k' v'] & Hkv & <- & <-); by apply (Hin _ Hkv)]. }
    destruct l as [|[k v] l]; [by inv Ep|].
    assert (Hcl : closes 125 (join_comma parts ++ 125 :: t) = None).
    { inversion Ep as [|kv p l' parts' Hp1 Ep']; subst parts. cbn in Hp1. by destruct (encode_member_inv _ _ _ Hp1) as (b & _ & ->). }
    rewrite Hcl, (read_encoded_members (S d) ∅ ((k, v) :: l)); [by rewrite Hmap|done|exact Ep|].
    intros kv Hkv. apply Hin in Hkv. split; [by eapply Hk|]. apply IH; [by eapply (proj1 (depth_object m n) Hn)|by eapply Hm|].
    assert (json_depth (JObject m) <= S (maxNestingDepth - S d))%nat as H by lia.
    pose proof (proj1 (depth_object _ _) H _ _ Hkv). lia.
Qed.

Lemma mapM_total {A B} (f : A -> option B) (l : list A) : (forall x, x ∈ l -> is_Some (f x)) -> is_Some (mapM f l).
Proof. intros H. apply mapM_is_Some_2, Forall_forall. exact H. Qed.

(** The encoder only refuses malformed numbers. *)
Lemma encode_total n v : (json_depth v <= n)%nat -> json_wf v -> is_Some (Json_Encode v).
Proof.
  revert v. induction n as [|n IH]; intros v Hn Hw; destruct Hw as [|[]|s Hs|s Hs|l Hl|m Hk Hm]; cbn [Json_Encode]; try done;
    try (cbn in Hn; lia).
  1,2: rewrite Hs; by destruct s.
  - assert (is_Some (mapM id (map Json_Encode l))) as [parts ->]; [|done].
    apply mapM_total. intros x (v & -> & Hv)%list_elem_of_fmap. apply IH; [by apply (proj1 (depth_array l n) Hn)|by apply Hl].
  - assert (is_Some (mapM encode_member (merge_sort key_le (map_to_list (Json_Encode <$> m))))) as [parts ->]; [|done].
    apply mapM_total. intros [k o] Hko. rewrite merge_sort_Permutation in Hko.
    apply elem_of_map_to_list, lookup_fmap_Some in Hko as (v & <- & Hv).
    assert (is_Some (Json_Encode v)) as [b Hb] by (apply IH; [by eapply (proj1 (depth_object m n) Hn)|by eapply Hm]).
    unfold encode_member. cbn. by rewrite Hb.
Qed.

Lemma encode_ok v : json_ok v -> is_Some (Json_Encode v).
Proof. intros [Hw _]. by eapply encode_total. Qed.

Lemma Json_Decode_read b : b <> [] -> Json_Decode b = match read_value 0 b with
  | Some (v, rest) => if More rest then None else Some v | None => None end.
Proof. by destruct b. Qed.

(** An encoded document followed by text that holds no further value. *)
Lemma decode_encoded v b t :
  json_ok v -> Json_Encode v = Some b -> num_stop t -> More t = false -> Json_Decode (b ++ t) = Some v.
Proof.
  intros [Hw Hd] Hb Ht Hm. destruct (encode_start v b Hw Hb) as (c & b' & E & _).
  rewrite Json_Decode_read by (by subst). rewrite (encoded_reads_back _ v 0 (le_n _) Hw Hd b t Hb Ht). by rewrite Hm.
Qed.

(** ** Paths read back *)

(** The text of a path: keys always quoted. *)
Definition seg_text (s : Seg) : bytes :=
  match s with
  | SKey k => 91 :: encode_string k ++ [93]
  | SIndex i => 91 :: FormatUint i ++ [93]
  end.

Definition path_text (p : Path) : bytes := 36 :: concat (map seg_text p).

Definition seg_ok (s : Seg) : Prop :=
  match s with SKey k => utf8 k | SIndex i => 0 <= i <= MaxInt64 end.

Lemma format_loop_head f n acc : 0 < n < 10 ^ Z.of_nat f -> exists c s, format_loop f n acc = c :: s /\ 49 <= c <= 57.
Proof.
  revert n acc. induction f as [|f IH]; intros n acc Hn; [cbn in Hn; lia|]. cbn [format_loop].
  destruct (Z.ltb_spec n 10).
  - exists (48 + n mod 10), acc. split; [done|]. rewrite Z.mod_small by lia. lia.
  - apply IH. rewrite Nat2Z.inj_succ, Z.pow_succ_r in Hn by lia.
    split; [apply Z.div_str_pos; lia|apply Z.div_lt_upper_bound; lia].
Qed.

Lemma skip_all_digits s t : Forall (fun c => is_digit c = true) s -> head_not is_digit t -> skip_digits (s ++ t) = t.
Proof.
  intros Hs Ht. induction Hs as [|c s Hc Hs IH]; cbn; [|by rewrite Hc]. destruct t; cbn in *; [done|by rewrite Ht].
Qed.

Lemma parseIndex_text i t : 0 <= i <= MaxInt64 -> head_not is_digit t -> parseIndex (FormatUint i ++ t) = Some (i, t).
Proof.
  intros Hi Ht. destruct (decide (i = 0)) as [->|Hne]; [done|].
  assert (Hm : MaxInt64 <= MaxUint64 /\ MaxUint64 < 10 ^ Z.of_nat 20) by done.
  destruct (format_loop_head 20 i []) as (c & s & E & Hc); [lia|]. fold (FormatUint i) in E.
  pose proof (FormatUint_digits i) as Hd. pose proof (ParseUint_Format i) as Hp. rewrite E in *. cbn [app parseIndex].
  replace (c =? 48) with false by lia. replace ((c <? 49) || (57 <? c)) with false by lia.
  inv Hd. rewrite (skip_all_digits s t) by done. change (c :: s ++ t) with ((c :: s) ++ t).
  rewrite length_app, Nat.add_sub, take_app_length, Hp by lia. destruct (Z.ltb_spec MaxInt64 i); [lia|done].
Qed.

Lemma parse_seg_text s t : seg_ok s -> parse_seg (seg_text s ++ t) = Some (s, t).
Proof.
  destruct s as [k|i]; cbn [seg_ok seg_text]; intros Hs; cbn [app]; rewrite <- app_assoc; cbn [app].
  - destruct (read_encoded k (93 :: t) Hs) as (u & -> & Hu). unfold parse_seg. cbn [Z.eqb Pos.eqb]. by rewrite Hu.
  - pose proof (parseIndex_text i (93 :: t) Hs eq_refl) as Hp. pose proof (FormatUint_digits i) as Hd.
    destruct (FormatUint i) as [|c s] eqn:E; [discriminate Hp|]. inv Hd. unfold parse_seg. cbn [Z.eqb Pos.eqb app] in *.
    replace (c =? 34) with false by (unfold is_digit in *; lia). by rewrite Hp.
Qed.

Lemma parse_segs_text p f :
  (length (concat (map seg_text p)) <= f)%nat -> Forall seg_ok p -> parse_segs f (concat (map seg_text p)) = Some p.
Proof.
  intros Hf Hp. revert f Hf. induction Hp as [|s p Hs Hp IH]; intros f Hf; [by destruct f|]. cbn [map concat] in *.
  rewrite length_app in Hf. pose proof (parse_seg_text s (concat (map seg_text p)) Hs) as E.
  destruct (seg_text s ++ concat (map seg_text p)) as [|c u] eqn:Eu; [discriminate E|].
  assert (0 < length (seg_text s))%nat by (destruct s; cbn; lia).
  destruct f as [|f]; [lia|]. cbn [parse_segs]. rewrite E, IH by lia. done.
Qed.

(** ** Parsed paths and edited documents stay well formed *)

Lemma take_ident_split s id rest :
  take_ident s = (id, rest) -> s = id ++ rest /\ Forall (fun c => isIdentCont c = true) id.
Proof.
  revert id rest. induction s as [|c s IH]; intros id rest; cbn; [by intros [= <- <-]|].
  destruct (isIdentCont c) eqn:Ec; [|by intros [= <- <-]].
  destruct (take_ident s) as [i r]. intros [= <- <-]. destruct (IH i r eq_refl) as [-> Hi]. split; [done|by constructor].
Qed.

Lemma ident_utf8 id : Forall (fun c => isIdentCont c = true) id -> utf8 id.
Proof.
  induction 1 as [|c id Hc _ IH]; [constructor|]. apply (utf8_app [c]); [|done].
  apply ascii_rune. unfold isIdentCont, isIdentStart, is_digit in Hc. lia.
Qed.

Lemma parse_loop10_range s n k : 0 <= n -> parse_loop10 s n = Some k -> 0 <= k.
Proof.
  revert n. induction s as [|c s IH]; intros n Hn; cbn; [by intros [= <-]|].
  destruct (is_digit c) eqn:Ec; [|done]. destruct (_ <? _); [done|]. apply IH. unfold is_digit in Ec. lia.
Qed.

Lemma parseIndex_ok s i rest : bytes_ok s -> parseIndex s = Some (i, rest) -> 0 <= i <= MaxInt64 /\ bytes_ok rest.
Proof.
  intros Hs. destruct s as [|c s]; cbn [parseIndex]; [done|]. inversion Hs as [|? ? Hc Hs']; subst.
  destruct (c =? 48); [by intros [= <- <-]|]. destruct (_ || _); [done|].
  destruct (ParseUint _) as [n|] eqn:En; [|done]. destruct (Z.ltb_spec MaxInt64 n); [done|]. intros [= <- <-].
  split.
  - split; [|done]. unfold ParseUint in En. destruct (take _ _); [done|]. by apply parse_loop10_range in En.
  - destruct (skip_digits_split s) as (p & E & _). rewrite E in Hs'. by apply Forall_app in Hs' as [_ ?].
Qed.

Lemma parse_seg_ok s seg rest : bytes_ok s -> parse_seg s = Some (seg, rest) -> seg_ok seg /\ bytes_ok rest.
Proof.
  intros Hs. unfold parse_seg. destruct s as [|c s]; [done|]. inversion Hs as [|? ? Hc Hs']; subst. destruct (c =? 46).
  { destruct s as [|d s]; [done|]. inversion Hs' as [|? ? Hd Hs'']; subst. destruct (isIdentStart d) eqn:Ed; [|done].
    destruct (take_ident s) as [id r] eqn:Et. intros [= <- <-]. destruct (take_ident_split _ _ _ Et) as [-> Hid].
    apply Forall_app in Hs'' as [_ Hr]. split; [|done]. apply ident_utf8. constructor; [|done]. unfold isIdentCont. by rewrite Ed. }
  destruct (c =? 91); [|done]. destruct s as [|d s]; [done|].
  assert (Hcl : forall seg' s', bytes_ok s' ->
    match s' with c :: s => if c =? 93 then Some (seg', s) else None | [] => None end = Some (seg, rest) ->
    seg = seg' /\ bytes_ok rest).
  { intros seg' s' Hb. destruct s' as [|x s']; [done|]. destruct (x =? 93); [|done]. intros [= <- <-]. by inv Hb. }
  destruct (d =? 34).
  - inversion Hs' as [|? ? Hd Hs'']; subst. destruct (read_string s) as [[key r]|] eqn:Er; [|done].
    apply read_string_ok in Er as [Hk Hr]; [|done]. by intros [-> ?]%Hcl.
  - destruct (parseIndex (d :: s)) as [[i r]|] eqn:Ei; [|done]. apply parseIndex_ok in Ei as [Hi Hr]; [|done]. by intros [-> ?]%Hcl.
Qed.

Lemma ParsePath_ok path p : bytes_ok path -> ParsePath path = Some p -> Forall seg_ok p.
Proof.
  unfold ParsePath. intros Hb. destruct Hb as [|c s Hc Hb]; [by intros [= <-]|]. destruct (c =? 36); [|done].
  generalize (length s) as f. intros f. revert s Hb p. clear. induction f as [|f IH]; intros s Hb p; destruct s as [|x s]; cbn [parse_segs]; try done;
    try (by intros [= <-]). destruct (parse_seg (x :: s)) as [[seg rest]|] eqn:E; [|done].
  apply parse_seg_ok in E as [Hseg Hr]; [|done]. destruct (parse_segs f rest) as [p'|] eqn:Ep; [|done]. intros [= <-].
  constructor; [done|by apply (IH rest)].
Qed.

(** [v] is well formed and nests at most [n] levels. *)
Definition within (n : nat) (v : json) : Prop := json_wf v /\ (json_depth v <= n)%nat.

Lemma within_array n l : within (S n) (JArray l) <-> forall v, v ∈ l -> within n v.
Proof.
  split.
  - intros [Hw Hd] v Hv. inv Hw. split; [auto|]. by apply (proj1 (depth_array l n) Hd).
  - intros H. split; [constructor; intros v Hv; by apply H|]. apply depth_array. intros v Hv. by apply H.
Qed.

Lemma within_object n m : within (S n) (JObject m) <-> forall k v, m !! k = Some v -> utf8 k /\ within n v.
Proof.
  split.
  - intros [Hw Hd] k v Hv. inv Hw. split_and!; [by eauto|]. split; [by eauto|]. by eapply (proj1 (depth_object m n) Hd).
  - intros H. split; [constructor; intros k v Hv; by apply (H k v Hv)|]. apply depth_object. intros k v Hv. by apply (H k v Hv).
Qed.

Lemma within_insert n m k v : utf8 k -> within n v -> within (S n) (JObject m) -> within (S n) (JObject (<[k := v]> m)).
Proof. rewrite !within_object. intros Hk Hv Hm k' v' [[<- <-]|[_ H]]%lookup_insert_Some; auto. Qed.

Lemma within_empty n : within (S n) (JObject ∅).
Proof. apply within_object. intros k v H. by rewrite lookup_empty in H. Qed.

Lemma createPath_within p val n d :
  Forall seg_ok p -> json_wf val -> (length p + json_depth val <= n)%nat -> createPath p val = inl d -> within n d.
Proof.
  intros Hp. revert n d. induction Hp as [|[k|i] p Hs Hp IH]; cbn [createPath length]; intros n d Hw Hn; [|destruct n as [|n]; [lia|]|done].
  - intros [= <-]. split; [done|lia].
  - destruct (createPath p val) as [c|] eqn:E; [|done]. intros [= <-].
    apply (within_insert n ∅ k c Hs); [|apply within_empty]. apply (IH n c Hw); [lia|done].
Qed.

Lemma setRec_within p val cur n d :
  Forall seg_ok p -> json_wf val -> (length p + json_depth val <= n)%nat -> within n cur ->
  setRec cur p val = inl d -> within n d.
Proof.
  intros Hp Hw. revert cur n d. induction Hp as [|[k|i] p Hs Hp IH]; intros cur n d Hn Hc; cbn [setRec length] in *.
  1: { intros [= <-]. split; [done|lia]. }
  all: destruct n as [|n]; [lia|]; destruct cur as [| | | |l|m]; try done.
  - destruct p as [|s p].
    { intros [= <-]. apply within_insert; [done|split; [done|cbn in Hn; lia]|done]. }
    destruct (m !! k) as [child|] eqn:Ek.
    + destruct (setRec child (s :: p) val) as [c|] eqn:E; [|done]. intros [= <-].
      apply within_insert; [done| |done]. apply (IH child n c); [lia| |done].
      by apply (proj1 (within_object n m) Hc k).
    + destruct (createPath (s :: p) val) as [c|] eqn:E; [|done]. intros [= <-].
      apply within_insert; [done| |done]. apply (createPath_within (s :: p) val n c); try done. cbn [length] in *; lia.
  - destruct (i <? 0); [done|]. pose proof (proj1 (within_array n l) Hc) as Hl. destruct (i <? len l) eqn:Ei.
    + destruct (setRec _ p val) as [c|] eqn:E; [|done]. intros [= <-]. apply within_array. intros v Hv.
      apply list_elem_of_lookup in Hv as [j Hj]. apply list_lookup_insert_Some in Hj as [(<- & <- & Hlt)|(_ & Hj)].
      * apply (IH _ n c) in E; [done|lia|]. destruct (lookup_lt_is_Some_2 l (Z.to_nat i) Hlt) as [x Hx]. rewrite Hx. cbn.
        apply Hl. by eapply list_elem_of_lookup_2.
      * apply Hl. by eapply list_elem_of_lookup_2.
    + destruct (i =? len l); [|done]. destruct (createPath p val) as [c|] eqn:E; [|done]. intros [= <-]. apply within_array.
      intros v. rewrite elem_of_app, elem_of_cons, elem_of_nil. intros [Hv|[->|[]]]; [by apply Hl|].
      apply (createPath_within p val n c); try done. lia.
Qed.

Lemma Json_Set_within p val doc n d :
  Forall seg_ok p -> json_wf val -> (length p + json_depth val <= n)%nat -> within n doc ->
  Json_Set doc p val = inl d -> within n d.
Proof.
  intros Hp Hw Hn Hd. unfold Json_Set. destruct p as [|s p]; [intros [= <-]; split; [done|cbn in Hn; lia]|].
  destruct doc; try done; by apply setRec_within.
Qed.

Lemma delRec_within p cur n d : within n cur -> delRec cur p = Some d -> within n d.
Proof.
  revert cur n d. induction p as [|[k|i] p IH]; intros cur n d Hc; cbn [delRec]; [done|..];
    destruct cur as [| | | |l|m]; try done; (destruct n as [|n]; [destruct Hc as [_ Hd]; cbn in Hd; lia|]).
  - destruct (m !! k) as [child|] eqn:Ek; [|done]. destruct p as [|s p].
    + intros [= <-]. apply within_object. intros k' v [_ Hv]%lookup_delete_Some. by apply (proj1 (within_object n m) Hc).
    + destruct (delRec child (s :: p)) as [c|] eqn:E; [|done]. intros [= <-].
      destruct (proj1 (within_object n m) Hc k child Ek) as [Hk Hch]. apply within_insert; [done|by apply (IH child)|done].
  - destruct (_ || _) eqn:Ei; [done|]. pose proof (proj1 (within_array n l) Hc) as Hl. destruct p as [|s p].
    + intros [= <-]. apply within_array. intros v. rewrite elem_of_app.
      intros [Hv|Hv]; apply Hl; [eapply subseteq_take, Hv|eapply subseteq_drop, Hv].
    + destruct (delRec _ (s :: p)) as [c|] eqn:E; [|done]. intros [= <-]. apply within_array. intros v Hv.
      apply list_elem_of_lookup in Hv as [j Hj]. apply list_lookup_insert_Some in Hj as [(<- & <- & Hlt)|(_ & Hj)].
      * apply (IH _ n c) in E; [done|]. destruct (lookup_lt_is_Some_2 l (Z.to_nat i) Hlt) as [x Hx]. rewrite Hx. cbn.
        apply Hl. by eapply list_elem_of_lookup_2.
      * apply Hl. by eapply list_elem_of_lookup_2.
Qed.

Lemma Json_Del_within p doc n : within (S n) doc -> within (S n) (Json_Del doc p).1.
Proof.
  intros Hd. unfold Json_Del. destruct p as [|s p]; [apply within_empty|].
  destruct (delRec doc (s :: p)) as [d|] eqn:E; [apply (delRec_within _ _ _ _ Hd) in E|]; destruct doc; done.
Qed.

Lemma Json_Get_within p doc n v : within n doc -> Json_Get doc p = Some v -> within n v.
Proof.
  revert doc n. induction p as [|[k|i] p IH]; intros doc n Hd; cbn [Json_Get]; [by intros [= <-]|..];
    destruct doc as [| | | |l|m]; try done; (destruct n as [|n]; [destruct Hd as [_ Hd]; cbn in Hd; lia|]).
  - destruct (m !! k) as [c|] eqn:Ek; [|done]. intros H. apply (IH c n) in H; [split; [apply H|destruct H; lia]|].
    by apply (proj1 (within_object n m) Hd k).
  - destruct (jnth l i) as [c|] eqn:Ek; [|done]. apply jnth_Some in Ek as [_ Ek]. intros H.
    apply (IH c n) in H; [split; [apply H|destruct H; lia]|].
    apply (proj1 (within_array n l) Hd). by eapply list_elem_of_lookup_2.
Qed.

(** ** The text round trips *)

(** C37: Reading back what the encoder wrote: every well-formed document of at
    most 10000 nested levels has an encoding, and Decode returns the document. *)
Theorem json_text_roundtrip (v : json) :
  json_ok v -> exists b, Json_Encode v = Some b /\ Json_Decode b = Some v.
Proof.
  intros Hv. destruct (encode_ok v Hv) as [b Hb]. exists b. split; [done|].
  rewrite <- (app_nil_r b). by apply decode_encoded.
Qed.

Lemma decode_json_ok b v : bytes_ok b -> Json_Decode b = Some v -> json_ok v.
Proof.
  intros Hb H. rewrite Json_Decode_read in H by (by intros ->).
  destruct (read_value 0 b) as [[w rest]|] eqn:E; [|done]. destruct (More rest); simplify_eq.
  apply (proj1 (parse_ok _)) in E as [[]]; [by split|done|lia].
Qed.

(** C38: Decode is total on byte strings and only ever yields documents that are
    well formed: valid UTF-8 strings and keys, numbers of the JSON grammar, at
    most 10000 levels.  The encoder therefore accepts all of them. *)
Theorem decode_well_formed (b : bytes) (v : json) :
  bytes_ok b -> Json_Decode b = Some v -> json_ok v /\ is_Some (Json_Encode v).
Proof.
  intros Hb H. pose proof (decode_json_ok b v Hb H) as Hv. split; [done|by apply encode_ok].
Qed.

(** Decode stops looking at a closing bracket: an encoded document followed
    by [93] (']') and anything at all is accepted, although the doc comment
    promises ErrJSON for trailing junk. *)
Theorem decode_accepts_trailing_closer (v : json) (b junk : bytes) :
  json_ok v -> Json_Encode v = Some b -> Json_Decode (b ++ 93 :: junk) = Some v.
Proof. intros Hv Hb. by apply decode_encoded. Qed.

(** A path written out with quoted keys and decimal indices parses back to
    itself, for UTF-8 keys and indices that fit an int. *)
Theorem path_text_roundtrip (p : Path) : Forall seg_ok p -> ParsePath (path_text p) = Some p.
Proof. intros Hp. cbn. by apply parse_segs_text. Qed.

Definition wit_doc : json := JObject {[ [97] := JArray [JNumber [49; 46; 53]; JBool true; JString [195; 169]] ]}.

Lemma utf8_runes (l : list bytes) : Forall is_rune l -> utf8 (concat l).
Proof. induction 1; cbn; by constructor. Qed.

Lemma wit_doc_ok : json_ok wit_doc.
Proof.
  split; [|apply Nat.leb_le; by vm_compute].
  constructor; intros k v [<- <-]%lookup_singleton_Some.
  - apply (utf8_runes [[97]]). apply Forall_cons_2; [apply ascii_rune; lia|constructor].
  - constructor. intros v. rewrite !elem_of_cons, elem_of_nil. intros [->|[->|[->|[]]]]; constructor; [done|].
    apply (utf8_runes [[195; 169]]). apply Forall_cons_2; [by apply rune2|constructor].
Defined.

Lemma json_text_roundtrip_witness : exists b, Json_Encode wit_doc = Some b /\ Json_Decode b = Some wit_doc.
Proof. apply (json_text_roundtrip wit_doc), wit_doc_ok. Defined.

(** ["a\u0041"] with a duplicate key *)
Definition wit_text : bytes := [123; 34; 97; 34; 58; 49; 44; 34; 92; 117; 48; 48; 54; 49; 34; 58; 50; 125].

Lemma decode_well_formed_witness :
  Json_Decode wit_text = Some (JObject {[ [97] := JNumber [50] ]}) /\ json_ok (JObject {[ [97] := JNumber [50] ]}).
Proof.
  assert (H : Json_Decode wit_text = Some (JObject {[ [97] := JNumber [50] ]})) by (vm_compute; reflexivity).
  split; [exact H|]. apply (decode_well_formed wit_text); [|exact H]. repeat apply Forall_cons_2; try (split; by vm_compute). constructor.
Defined.

Lemma decode_accepts_trailing_closer_witness :
  Json_Decode ([110; 117; 108; 108] ++ 93 :: [33; 33]) = Some JNull.
Proof.
  apply (decode_accepts_trailing_closer JNull [110; 117; 108; 108] [33; 33]); [|reflexivity].
  split; [constructor|apply Nat.leb_le; reflexivity].
Defined.

Lemma path_text_roundtrip_witness :
  ParsePath (path_text [SKey [97; 34]; SIndex 120]) = Some [SKey [97; 34]; SIndex 120].
Proof.
  apply (path_text_roundtrip [SKey [97; 34]; SIndex 120]). repeat apply Forall_cons_2; [|cbn; unfold MaxInt64; lia|constructor].
  apply (utf8_runes [[97]; [34]]). repeat apply Forall_cons_2; [apply ascii_rune; lia..|constructor].
Defined.

(** ** The parsers end on their own *)

Lemma parse_seg_shorter s seg rest : parse_seg s = Some (seg, rest) -> (length rest < length s)%nat.
Proof.
  unfold parse_seg. destruct s as [|c s]; [done|]. destruct (c =? 46).
  { destruct s as [|d s]; [done|]. destruct (isIdentStart d); [|done]. destruct (take_ident s) as [id r] eqn:Et.
    intros [= <- <-]. destruct (take_ident_split _ _ _ Et) as [-> _]. cbn. rewrite length_app. lia. }
  destruct (c =? 91); [|done]. destruct s as [|d s]; [done|].
  assert (Hcl : forall (sg : Seg) t, match t with c :: s => if c =? 93 then Some (sg, s) else None | [] => None end = Some (seg, rest) ->
    (length rest < length t)%nat).
  { intros sg [|c' t]; [done|]. destruct (c' =? 93); [|done]. intros [= _ <-]. cbn. lia. }
  destruct (d =? 34).
  - destruct (read_string s) as [[k t]|] eqn:E; [|done]. apply read_string_shorter in E. intros H%Hcl. cbn. lia.
  - unfold parseIndex. pose proof (skip_digits_shorter s) as Hd. destruct (d =? 48); [intros H%Hcl; cbn; lia|].
    destruct (_ || _); [done|]. destruct (ParseUint _) as [n|]; [|done]. destruct (_ <? n); [done|].
    intros H%Hcl. cbn in *. lia.
Qed.

Lemma parse_segs_fuel f f' s : (length s <= f)%nat -> (length s <= f')%nat -> parse_segs f s = parse_segs f' s.
Proof.
  revert f' s. induction f as [|f IH]; intros [|f'] [|c s]; cbn [length]; try lia; try done. intros Hf Hf'.
  cbn [parse_segs]. destruct (parse_seg (c :: s)) as [[seg rest]|] eqn:E; [|done].
  apply parse_seg_shorter in E. cbn [length] in E. by rewrite (IH f' rest) by lia.
Qed.

(** The depth that bounds the recursion of the readers is enough: the reader of
    JSON values nests at most two calls per byte, the reader of strings and the
    path parser one.  Any larger bound gives the same answer, so a refusal is
    always the parser's own, and a value that is read has consumed a byte. *)
Theorem parsers_depth :
  (forall f d s, (2 * length s + 1 <= f)%nat ->
     parse_value f d s = parse_value (2 * length s + 1) d s /\
     forall v rest, parse_value f d s = Some (v, rest) -> (length rest < length s)%nat) /\
  (forall f s, (length s < f)%nat -> parse_string f s = read_string s) /\
  (forall f s, (length s <= f)%nat -> parse_segs f s = parse_segs (length s) s).
Proof.
  split_and!; intros.
  - split; [apply (parse_fuel f); lia|apply parse_value_shorter].
  - by apply read_string_fuel.
  - by apply parse_segs_fuel.
Qed.
