(* ===== verification/Sketches.v ===== *)
(** * Bloom filters and HyperLogLog sketches: pkg/bloom, pkg/hllx

    Both are packed bit strings, least significant bit first.  A Bloom filter
    has no false negatives and merging is the union; a HyperLogLog sketch is
    the per-register maximum over the added items, so it depends only on the
    set of items. *)
From S2P Require Import Prelude Wire.

(** ** FNV hashing (hash/fnv, hllx.Hash64, cmsx.Hash64) *)

Definition offset64 : Z := 14695981039346656037.
Definition prime64 : Z := 1099511628211.

(** FNV-1a: xor, then multiply. *)
Definition Hash64 (item : bytes) : Z :=
  fold_left (fun h c => Z.lxor h c *u prime64) item offset64.

(** FNV-1: multiply, then xor. *)
Definition fnv64 (item : bytes) : Z :=
  fold_left (fun h c => Z.lxor (h *u prime64) c) item offset64.

Definition hash2 (item : bytes) : Z * Z :=
  let h1 := Hash64 item in
  let h2 := fnv64 item in
  (h1, if Z.land h2 1 =? 0 then h2 +u 1 else h2).

(** ** Bit strings *)

Definition bit_at (b : bytes) (i : Z) : bool :=
  Z.testbit (default 0 (b !! Z.to_nat (i / 8))) (i mod 8).

(** f.bits[idx/8] |= 1 << (idx % 8) *)
Definition set_bit (b : bytes) (i : Z) : bytes :=
  alter (fun x => Z.lor x (Z.shiftl 1 (i mod 8))) (Z.to_nat (i / 8)) b.

(** ** Bloom filters *)

Record Filter := mkFilter { fbits : bytes; f_m : Z; f_k : Z }.

Definition Bloom_New (mBits k : Z) : Filter :=
  let mBits := if mBits <? 8 then 8 else mBits in
  let k := if k <? 1 then 1 else k in
  mkFilter (replicate (Z.to_nat ((mBits + 7) / 8)) 0) mBits k.

Definition Bloom_Open (mBits k : Z) (bits : bytes) : option Filter :=
  if (mBits <? 8) || (k <? 1) then None
  else if negb (len bits =? (mBits + 7) / 8) then None
  else Some (mkFilter bits mBits k).

(** The probe positions of the loops in Add, Test and Indexes. *)
Definition probes (m k : Z) (item : bytes) : list Z :=
  let '(h1, h2) := hash2 item in
  map (fun i => (h1 +u (i *u h2)) mod m) (seqZ 0 k).

Definition Bloom_Add (f : Filter) (item : bytes) : Filter :=
  mkFilter (fold_left set_bit (probes (f_m f) (f_k f) item) (fbits f)) (f_m f) (f_k f).

Definition Bloom_Test (f : Filter) (item : bytes) : bool :=
  if len (fbits f) =? 0 then false
  else forallb (bit_at (fbits f)) (probes (f_m f) (f_k f) item).

Definition Bloom_Merge (f other : Filter) : option Filter :=
  if negb (f_m f =? f_m other) || negb (f_k f =? f_k other)
     || negb (len (fbits f) =? len (fbits other)) then None
  else Some (mkFilter (zip_with Z.lor (fbits f) (fbits other)) (f_m f) (f_k f)).

Definition Bloom_Indexes (mBits k : Z) (item : bytes) : list Z :=
  probes (if mBits <? 8 then 8 else mBits) (if k <? 1 then 1 else k) item.

(** What New and Open establish and Add and Merge keep. *)
Definition filter_ok (f : Filter) : Prop :=
  8 <= f_m f /\ 1 <= f_k f /\ len (fbits f) = (f_m f + 7) / 8 /\ bytes_ok (fbits f).

Lemma probes_range m k item : 0 < m -> Forall (fun i => 0 <= i < m) (probes m k item).
Proof.
  intros Hm. unfold probes. destruct (hash2 item) as [h1 h2]. apply Forall_fmap, Forall_true.
  intros i. by apply Z.mod_pos_bound.
Qed.

Lemma bit_at_set_bit b i j :
  0 <= i -> 0 <= j -> i / 8 < len b -> bit_at (set_bit b i) j = bit_at b j || (i =? j).
Proof.
  intros Hi Hj Hl. unfold bit_at, set_bit.
  assert (0 <= i / 8) by (apply Z.div_pos; lia). assert (0 <= j / 8) by (apply Z.div_pos; lia).
  pose proof (Z.mod_pos_bound i 8). pose proof (Z.mod_pos_bound j 8).
  pose proof (Z.div_mod i 8). pose proof (Z.div_mod j 8).
  destruct (Z.eq_dec (i / 8) (j / 8)) as [E|E].
  - rewrite <- E, list_lookup_alter_eq.
    destruct (lookup_lt_is_Some_2 b (Z.to_nat (i / 8))) as [x ->]; [unfold len in Hl; lia|]. simpl.
    rewrite Z.lor_spec, Z.shiftl_1_l, Z.pow2_bits_eqb by lia. f_equal.
    destruct (Z.eqb_spec (i mod 8) (j mod 8)), (Z.eqb_spec i j); done || lia.
  - rewrite list_lookup_alter_ne by lia. destruct (Z.eqb_spec i j); [subst; lia|].
    by rewrite orb_false_r.
Qed.

Lemma set_bit_len b i : len (set_bit b i) = len b.
Proof. unfold len, set_bit. by rewrite length_alter. Qed.

Lemma set_bit_ok b i : bytes_ok b -> bytes_ok (set_bit b i).
Proof.
  intros Hb. apply Forall_alter; [done|]. intros x _ Hx. apply is_byte_lor; [done|].
  pose proof (Z.mod_pos_bound i 8). unfold is_byte. rewrite Z.shiftl_1_l.
  split; [apply Z.pow_nonneg; lia|change 256 with (2 ^ 8); apply Z.pow_lt_mono_r; lia].
Qed.

Lemma set_bits_len ps b : len (fold_left set_bit ps b) = len b.
Proof. revert b. induction ps as [|p ps IH]; intros b; simpl; [done|]. by rewrite IH, set_bit_len. Qed.

Lemma set_bits_ok ps b : bytes_ok b -> bytes_ok (fold_left set_bit ps b).
Proof. revert b. induction ps as [|p ps IH]; intros b Hb; simpl; [done|]. by apply IH, set_bit_ok. Qed.

Lemma bit_at_set_bits ps b j :
  0 <= j -> Forall (fun i => 0 <= i /\ i / 8 < len b) ps ->
  bit_at (fold_left set_bit ps b) j = bit_at b j || bool_decide (j ∈ ps).
Proof.
  intros Hj. revert b. induction ps as [|p ps IH]; intros b Hps; cbn [fold_left].
  { rewrite bool_decide_false by (by intros ?%elem_of_nil). by rewrite orb_false_r. }
  inv Hps. destruct H1 as [Hp1 Hp2].
  rewrite IH by (by rewrite set_bit_len). rewrite bit_at_set_bit by lia.
  rewrite <- orb_assoc. f_equal.
  destruct (Z.eqb_spec p j) as [->|Hne].
  - symmetry. apply bool_decide_true. by constructor.
  - rewrite orb_false_l. apply bool_decide_ext. rewrite elem_of_cons. split; [by right|intros [|]; congruence].
Qed.

Lemma probes_fit m k item (b : bytes) :
  0 < m -> len b = (m + 7) / 8 -> Forall (fun i => 0 <= i /\ i / 8 < len b) (probes m k item).
Proof.
  intros Hm Hl. eapply Forall_impl; [by apply probes_range|]. intros i Hi. simpl in Hi. split; [lia|].
  rewrite Hl. apply Z.div_lt_upper_bound; [lia|]. pose proof (Z.div_mod (m + 7) 8).
  pose proof (Z.mod_pos_bound (m + 7) 8). lia.
Qed.

Lemma Bloom_Add_bits f item j :
  filter_ok f -> 0 <= j ->
  bit_at (fbits (Bloom_Add f item)) j =
    bit_at (fbits f) j || bool_decide (j ∈ probes (f_m f) (f_k f) item).
Proof.
  intros (Hm & Hk & Hl & _) Hj. apply bit_at_set_bits; [done|]. apply probes_fit; [lia|done].
Qed.

Lemma Bloom_Add_ok f item : filter_ok f -> filter_ok (Bloom_Add f item).
Proof.
  intros (Hm & Hk & Hl & Hb). split_and!; simpl; [done|done|by rewrite set_bits_len|by apply set_bits_ok].
Qed.

Lemma Bloom_New_ok m k : filter_ok (Bloom_New m k).
Proof.
  unfold Bloom_New, filter_ok. simpl. split_and!; [zcmp; lia|zcmp; lia| |].
  - unfold len. rewrite length_replicate, Z2Nat.id; [done|].
    apply Z.div_pos; [|lia]. zcmp; lia.
  - apply Forall_replicate. unfold is_byte. lia.
Qed.

Lemma Bloom_Open_ok m k bits f : bytes_ok bits -> Bloom_Open m k bits = Some f -> filter_ok f.
Proof.
  intros Hb. unfold Bloom_Open. destruct ((m <? 8) || (k <? 1)) eqn:E; [done|].
  destruct (Z.eqb_spec (len bits) ((m + 7) / 8)); [|done]. simpl. intros [= <-].
  apply orb_false_iff in E as [? ?]. zprop. split_and!; simpl; done || lia.
Qed.

(** Membership as a statement about bits. *)
Lemma Bloom_Test_spec f item :
  filter_ok f ->
  Bloom_Test f item = true <-> forall j, j ∈ probes (f_m f) (f_k f) item -> bit_at (fbits f) j = true.
Proof.
  intros (Hm & Hk & Hl & _). unfold Bloom_Test.
  assert (0 < (f_m f + 7) / 8) by (apply Z.div_str_pos; lia).
  destruct (Z.eqb_spec (len (fbits f)) 0); [lia|].
  rewrite forallb_forall. split; intros H' j Hj; apply H'; by apply list_elem_of_In.
Qed.

Lemma probes_nonneg m k item j : 0 < m -> j ∈ probes m k item -> 0 <= j.
Proof.
  intros Hm Hj. pose proof (probes_range m k item Hm) as Hr. rewrite Forall_forall in Hr.
  apply Hr in Hj. lia.
Qed.

Lemma Bloom_Test_Add f item : filter_ok f -> Bloom_Test (Bloom_Add f item) item = true.
Proof.
  intros Hf. apply Bloom_Test_spec; [by apply Bloom_Add_ok|]. intros j Hj.
  change (j ∈ probes (f_m f) (f_k f) item) in Hj.
  rewrite Bloom_Add_bits; [|done|eapply probes_nonneg, Hj; destruct Hf; lia].
  by rewrite bool_decide_true, orb_true_r.
Qed.

Lemma Bloom_Test_mono f x item : filter_ok f -> Bloom_Test f x = true -> Bloom_Test (Bloom_Add f item) x = true.
Proof.
  intros Hf Hx. rewrite Bloom_Test_spec in * by auto using Bloom_Add_ok. intros j Hj.
  change (j ∈ probes (f_m f) (f_k f) x) in Hj.
  rewrite Bloom_Add_bits; [|done|eapply probes_nonneg, Hj; destruct Hf; lia].
  by rewrite Hx.
Qed.

Lemma Bloom_adds_mono items x f :
  filter_ok f -> Bloom_Test f x = true -> Bloom_Test (fold_left Bloom_Add items f) x = true.
Proof.
  revert f. induction items as [|i items IH]; intros f Hf Hx; simpl; [done|].
  apply IH; auto using Bloom_Add_ok, Bloom_Test_mono.
Qed.

(** No false negatives, whatever was added before and after. *)
Lemma Bloom_adds_test (items : list bytes) f (x : bytes) :
  filter_ok f -> x ∈ items -> Bloom_Test (fold_left Bloom_Add items f) x = true.
Proof.
  revert f. induction items as [|i items IH]; intros f Hf; simpl; [by intros ?%elem_of_nil|].
  intros [->|Hin]%elem_of_cons; [|by apply IH; [apply Bloom_Add_ok|]].
  apply Bloom_adds_mono; auto using Bloom_Add_ok, Bloom_Test_Add.
Qed.

(** Merging. *)
Lemma Bloom_Merge_Some f g :
  filter_ok f -> filter_ok g -> f_m f = f_m g -> f_k f = f_k g ->
  exists h, Bloom_Merge f g = Some h /\ filter_ok h /\ f_m h = f_m f /\ f_k h = f_k f /\
    forall j, bit_at (fbits h) j = bit_at (fbits f) j || bit_at (fbits g) j.
Proof.
  intros (Hm & Hk & Hl & Hb) (_ & _ & Hl' & Hb') Em Ek.
  assert (Hlen : length (fbits f) = length (fbits g)) by (rewrite Em in Hl; unfold len in *; lia).
  unfold Bloom_Merge. rewrite Em, Ek, !Z.eqb_refl. rewrite Hl, Hl', Em, Z.eqb_refl. simpl.
  eexists. split; [done|]. split_and!; [| done | done |].
  - split_and!; simpl; [lia|lia| |].
    + unfold len in *. rewrite length_zip_with. rewrite Em in *. lia.
    + apply Forall_lookup. intros i z. rewrite lookup_zip_with_Some.
      intros (x & y & -> & Hx & Hy). rewrite Forall_lookup in Hb, Hb'.
      apply is_byte_lor; [by eapply Hb|by eapply Hb'].
  - intros j. unfold bit_at. cbn [fbits]. rewrite lookup_zip_with.
    destruct (fbits f !! Z.to_nat (j / 8)) as [x|] eqn:E1; simpl.
    + apply lookup_lt_Some in E1. rewrite Hlen in E1.
      apply lookup_lt_is_Some_2 in E1 as [y ->]. simpl. apply Z.lor_spec.
    + apply lookup_ge_None_1 in E1. rewrite lookup_ge_None_2 by lia. simpl. by rewrite !Z.bits_0.
Qed.

(** A byte string is determined by its length and its bits. *)
Lemma byte_high x n : is_byte x -> 8 <= n -> Z.testbit x n = false.
Proof. rewrite is_byte_mod. intros <- Hn. apply Z.mod_pow2_bits_high. lia. Qed.

Lemma bits_ext a b :
  bytes_ok a -> bytes_ok b -> length a = length b ->
  (forall j, 0 <= j < 8 * len a -> bit_at a j = bit_at b j) -> a = b.
Proof.
  intros Ha Hb Hl Hbits. apply list_eq. intros i.
  destruct (decide (i < length a)%nat) as [Hi|Hi].
  2:{ rewrite !lookup_ge_None_2 by lia. done. }
  destruct (lookup_lt_is_Some_2 a i Hi) as [x Hx].
  destruct (lookup_lt_is_Some_2 b i) as [y Hy]; [lia|]. rewrite Hx, Hy. f_equal.
  rewrite Forall_lookup in Ha, Hb. pose proof (Ha _ _ Hx) as Hbx. pose proof (Hb _ _ Hy) as Hby.
  apply Z.bits_inj'. intros n Hn. destruct (Z.ltb_spec n 8); [|by rewrite !byte_high].
  specialize (Hbits (8 * Z.of_nat i + n) ltac:(unfold len; lia)). unfold bit_at in Hbits.
  assert (Hd : (8 * Z.of_nat i + n) / 8 = Z.of_nat i) by (symmetry; apply Z.div_unique with n; lia).
  assert (Hm : (8 * Z.of_nat i + n) mod 8 = n) by (symmetry; apply Z.mod_unique with (Z.of_nat i); lia).
  by rewrite Hd, Hm, Nat2Z.id, Hx, Hy in Hbits.
Qed.

Definition added (m k : Z) (items : list bytes) (j : Z) : bool :=
  existsb (fun item => bool_decide (j ∈ probes m k item)) items.

Lemma Bloom_adds_bits items f :
  filter_ok f ->
  let f' := fold_left Bloom_Add items f in
  filter_ok f' /\ f_m f' = f_m f /\ f_k f' = f_k f /\ length (fbits f') = length (fbits f) /\
  forall j, 0 <= j -> bit_at (fbits f') j = bit_at (fbits f) j || added (f_m f) (f_k f) items j.
Proof.
  revert f. induction items as [|i items IH]; intros f Hf; cbn [fold_left].
  { split_and!; try done. intros. simpl. by rewrite orb_false_r. }
  destruct (IH (Bloom_Add f i) (Bloom_Add_ok f i Hf)) as (H1 & H2 & H3 & H4 & H5).
  split_and!; [done|done|done| |].
  - rewrite H4. pose proof (set_bits_len (probes (f_m f) (f_k f) i) (fbits f)) as Hl.
    unfold len in Hl. simpl. lia.
  - intros j Hj. rewrite H5, Bloom_Add_bits by done. cbn [added existsb]. by rewrite <- orb_assoc.
Qed.

Lemma added_app m k xs ys j : added m k (xs ++ ys) j = added m k xs j || added m k ys j.
Proof. unfold added. apply existsb_app. Qed.

Lemma bit_at_zeros n j : bit_at (replicate n 0) j = false.
Proof.
  unfold bit_at. destruct (replicate n 0 !! _) eqn:E; simpl; [|by rewrite Z.bits_0].
  apply lookup_replicate in E as [-> _]. by rewrite Z.bits_0.
Qed.

(** Merging two filters built from two collections gives the filter of both. *)
Lemma Bloom_Merge_adds m k xs ys :
  Bloom_Merge (fold_left Bloom_Add xs (Bloom_New m k)) (fold_left Bloom_Add ys (Bloom_New m k)) =
  Some (fold_left Bloom_Add (xs ++ ys) (Bloom_New m k)).
Proof.
  pose proof (Bloom_New_ok m k) as Hn.
  destruct (Bloom_adds_bits xs _ Hn) as (X1 & X2 & X3 & X4 & X5).
  destruct (Bloom_adds_bits ys _ Hn) as (Y1 & Y2 & Y3 & Y4 & Y5).
  destruct (Bloom_adds_bits (xs ++ ys) _ Hn) as (Z1 & Z2 & Z3 & Z4 & Z5).
  destruct (Bloom_Merge_Some _ _ X1 Y1) as (h & -> & Hh & Hm & Hk & Hbits); [congruence..|].
  f_equal. set (f := fold_left Bloom_Add (xs ++ ys) _) in *.
  assert (E : fbits h = fbits f).
  { apply bits_ext; [apply Hh|apply Z1| |].
    - destruct Hh as (_ & _ & Hl & _), Z1 as (_ & _ & Hl' & _).
      rewrite Hm, X2 in Hl. rewrite Z2 in Hl'. unfold len in *. lia.
    - intros j Hj. rewrite Hbits, X5, Y5, Z5, added_app by lia.
      simpl. rewrite bit_at_zeros. done. }
  destruct h, f; simpl in *; congruence.
Qed.

(** ** HyperLogLog (pkg/hllx/hllx.go) *)

Definition Precision : Z := 14.
Definition Registers : Z := 16384.
Definition RegBits : Z := 6.
Definition HLL_DenseSize : Z := 12288.

Definition HLL_New : bytes := replicate (Z.to_nat HLL_DenseSize) 0.

Definition mix64 (x : Z) : Z :=
  let x := Z.lxor x (Z.shiftr x 30) in
  let x := x *u 0xbf58476d1ce4e5b9 in
  let x := Z.lxor x (Z.shiftr x 27) in
  let x := x *u 0x94d049bb133111eb in
  Z.lxor x (Z.shiftr x 31).

(** math/bits.LeadingZeros64 *)
Definition LeadingZeros64 (x : Z) : Z := if x =? 0 then 64 else 63 - Z.log2 x.

Definition GetReg (regs : bytes) (i : Z) : Z :=
  if (i <? 0) || (Registers <=? i) || negb (len regs =? HLL_DenseSize) then 0
  else
    let off := i * RegBits / 8 in
    let fb := i * RegBits mod 8 in
    let b0 := default 0 (regs !! Z.to_nat off) in
    let b1 := if off + 1 <? len regs then default 0 (regs !! Z.to_nat (off + 1)) else 0 in
    Z.land (Z.lor (Z.shiftr b0 fb) (Z.shiftl b1 (8 - fb) mod 2 ^ 16)) 0x3f.

(** The masks are bytes: a shifted-out bit is dropped. *)
Definition SetReg (regs : bytes) (i v : Z) : bytes :=
  if (i <? 0) || (Registers <=? i) || negb (len regs =? HLL_DenseSize) then regs
  else
    let v := Z.land v 0x3f in
    let off := i * RegBits / 8 in
    let fb := i * RegBits mod 8 in
    let fb8 := 8 - fb in
    let regs := alter (fun b => Z.lor (Z.ldiff b (u8 (Z.shiftl 0x3f fb))) (u8 (Z.shiftl v fb)))
                  (Z.to_nat off) regs in
    if off + 1 <? len regs then
      alter (fun b => Z.lor (Z.ldiff b (Z.shiftr 0x3f fb8)) (Z.shiftr v fb8)) (Z.to_nat (off + 1)) regs
    else regs.

(** The register an item hashes to and the rank it carries. *)
Definition hll_idx (item : bytes) : Z := Z.shiftr (mix64 (Hash64 item)) (64 - Precision).

Definition hll_rho (item : bytes) : Z :=
  let w := u64 (Z.shiftl (mix64 (Hash64 item)) Precision) in
  let rho := if w =? 0 then (64 - Precision) + 1 else LeadingZeros64 w + 1 in
  if 63 <? rho then 63 else rho.

Definition HLL_Add (regs item : bytes) : bytes :=
  if negb (len regs =? HLL_DenseSize) || (len item =? 0) then regs
  else
    let idx := hll_idx item in
    let rho := hll_rho item in
    if GetReg regs idx <? u8 rho then SetReg regs idx (u8 rho) else regs.

(** for i := 0; i < Registers; i++ *)
Definition HLL_merge (dst src : bytes) : option bytes :=
  if negb (len dst =? HLL_DenseSize) || negb (len src =? HLL_DenseSize) then None
  else
    Some (fold_left (fun dst i =>
            if GetReg dst i <? GetReg src i then SetReg dst i (GetReg src i) else dst)
            (seqZ 0 Registers) dst).

#[global] Arguments GetReg : simpl never.
#[global] Arguments SetReg : simpl never.
#[global] Arguments hll_idx : simpl never.
#[global] Arguments hll_rho : simpl never.

Definition dense (regs : bytes) : Prop := len regs = HLL_DenseSize /\ bytes_ok regs.

(** *** Registers as bit slices *)

Lemma testbit_3f t : Z.testbit 0x3f t = (0 <=? t) && (t <? 6).
Proof. change 0x3f with (Z.ones 6). by rewrite Z.testbit_ones by lia. Qed.

Lemma reg_pos i :
  0 <= i < Registers ->
  let off := i * RegBits / 8 in let fb := i * RegBits mod 8 in
  6 * i = 8 * off + fb /\ 0 <= fb < 8 /\ 0 <= off < HLL_DenseSize /\
  (off + 1 < HLL_DenseSize \/ fb + 6 <= 8).
Proof.
  unfold Registers, RegBits, HLL_DenseSize. intros Hi. cbv zeta.
  pose proof (Z.div_mod (i * 6) 8). pose proof (Z.mod_pos_bound (i * 6) 8). lia.
Qed.

Lemma bit_pos q r : 0 <= r < 8 -> (8 * q + r) / 8 = q /\ (8 * q + r) mod 8 = r.
Proof.
  intros Hr. split; symmetry; [apply Z.div_unique with r|apply Z.mod_unique with q]; lia.
Qed.

Lemma dense_byte regs n : dense regs -> is_byte (default 0 (regs !! n)).
Proof.
  intros [_ Hb]. destruct (regs !! n) eqn:E; simpl; [|unfold is_byte; lia].
  rewrite Forall_lookup in Hb. by eapply Hb.
Qed.

Lemma GetReg_bits regs i t :
  dense regs -> 0 <= i < Registers -> 0 <= t ->
  Z.testbit (GetReg regs i) t = (t <? 6) && bit_at regs (6 * i + t).
Proof.
  intros Hd Hi Ht. pose proof (reg_pos i Hi) as (E & Hfb & Hoff & Hlast).
  pose proof (proj1 Hd) as Hl. unfold GetReg. rewrite Hl, Z.eqb_refl.
  destruct (Z.ltb_spec i 0), (Z.leb_spec Registers i); try lia. cbn [orb negb]. cbv zeta in *.
  set (off := i * RegBits / 8) in *. set (fb := i * RegBits mod 8) in *.
  rewrite Z.land_spec, testbit_3f, Z.lor_spec, Z.shiftr_spec by lia.
  destruct (Z.leb_spec 0 t); [|lia]. destruct (Z.ltb_spec t 6); [|by rewrite andb_false_r].
  rewrite andb_true_r. cbn [andb]. rewrite Z.mod_pow2_bits_low, Z.shiftl_spec by lia.
  unfold bit_at. destruct (Z.ltb_spec (t + fb) 8).
  - replace (6 * i + t) with (8 * off + (t + fb)) by lia.
    destruct (bit_pos off (t + fb)) as [-> ->]; [lia|].
    rewrite (Z.testbit_neg_r _ (t - (8 - fb))) by lia. by rewrite orb_false_r.
  - replace (6 * i + t) with (8 * (off + 1) + (t - (8 - fb))) by lia.
    destruct (bit_pos (off + 1) (t - (8 - fb))) as [-> ->]; [lia|].
    rewrite byte_high by (auto using dense_byte || lia).
    destruct (Z.ltb_spec (off + 1) HLL_DenseSize); [done|lia].
Qed.

Lemma is_byte_shiftr x n : 0 <= n -> is_byte x -> is_byte (Z.shiftr x n).
Proof.
  intros Hn Hx. apply is_byte_mod, Z.bits_inj'. intros j Hj.
  destruct (Z.ltb_spec j 8); [by rewrite Z.mod_pow2_bits_low by lia|].
  rewrite Z.mod_pow2_bits_high, Z.shiftr_spec by lia. symmetry. apply byte_high; [done|lia].
Qed.

Lemma is_byte_u8 x : is_byte (u8 x).
Proof. unfold u8, is_byte. pose proof (Z.mod_pos_bound x (2 ^ 8)). lia. Qed.

Lemma SetReg_dense regs i v : dense regs -> dense (SetReg regs i v).
Proof.
  intros [Hl Hb]. unfold SetReg. case_match; [done|]. cbv zeta.
  assert (0 <= 8 - i * RegBits mod 8) by (pose proof (Z.mod_pos_bound (i * RegBits) 8); lia).
  assert (is_byte (Z.land v 0x3f)).
  { rewrite Z.land_comm. apply is_byte_land. unfold is_byte. lia. }
  match goal with |- context [alter ?f ?n regs] => set (regs1 := alter f n regs) end.
  assert (Hd : dense regs1).
  { split; [unfold len, regs1; by rewrite length_alter|]. apply Forall_alter; [done|].
    intros x _ Hx. auto using is_byte_lor, is_byte_ldiff, is_byte_u8. }
  case_match; [|done]. destruct Hd as [Hl1 Hb1].
  split; [unfold len; by rewrite length_alter|]. apply Forall_alter; [done|].
  intros x _ Hx. auto using is_byte_lor, is_byte_ldiff, is_byte_shiftr.
Qed.

(** Bits of one byte after the masked write. *)
Lemma bit_at_alter b n f q r :
  0 <= q -> 0 <= r < 8 -> 0 <= n < len b ->
  bit_at (alter f (Z.to_nat n) b) (8 * q + r) =
    if q =? n then Z.testbit (f (default 0 (b !! Z.to_nat n))) r else bit_at b (8 * q + r).
Proof.
  intros Hq Hr Hn. unfold bit_at. destruct (bit_pos q r Hr) as [-> ->].
  destruct (Z.eqb_spec q n) as [->|].
  - rewrite list_lookup_alter_eq.
    by destruct (lookup_lt_is_Some_2 b (Z.to_nat n)) as [x ->]; [unfold len in Hn; lia|].
  - by rewrite list_lookup_alter_ne by lia.
Qed.

(** The masked writes, bit by bit. *)
Lemma low_byte b v fb r :
  0 <= fb < 8 -> 0 <= r < 8 ->
  Z.testbit (Z.lor (Z.ldiff b (u8 (Z.shiftl 0x3f fb))) (u8 (Z.shiftl (Z.land v 0x3f) fb))) r =
  if (0 <=? r - fb) && (r - fb <? 6) then Z.testbit v (r - fb) else Z.testbit b r.
Proof.
  intros Hfb Hr. unfold u8. rewrite Z.lor_spec, Z.ldiff_spec, !Z.mod_pow2_bits_low by lia.
  rewrite !Z.shiftl_spec, Z.land_spec, testbit_3f by lia.
  destruct ((0 <=? r - fb) && (r - fb <? 6)); simpl; rewrite ?andb_false_r, ?andb_true_r;
    by rewrite ?orb_false_r.
Qed.

Lemma high_byte b v fb8 r :
  0 <= fb8 -> 0 <= r < 8 ->
  Z.testbit (Z.lor (Z.ldiff b (Z.shiftr 0x3f fb8)) (Z.shiftr (Z.land v 0x3f) fb8)) r =
  if r + fb8 <? 6 then Z.testbit v (r + fb8) else Z.testbit b r.
Proof.
  intros Hfb Hr. rewrite Z.lor_spec, Z.ldiff_spec, !Z.shiftr_spec, Z.land_spec, testbit_3f by lia.
  destruct (Z.leb_spec 0 (r + fb8)); [|lia].
  destruct (r + fb8 <? 6); simpl; rewrite ?andb_false_r, ?andb_true_r; by rewrite ?orb_false_r.
Qed.

Lemma bit_at_byte b q r : 0 <= r < 8 -> bit_at b (8 * q + r) = Z.testbit (default 0 (b !! Z.to_nat q)) r.
Proof. intros Hr. unfold bit_at. by destruct (bit_pos q r Hr) as [-> ->]. Qed.

Lemma SetReg_bits regs i v q r :
  dense regs -> 0 <= i < Registers -> 0 <= q < HLL_DenseSize -> 0 <= r < 8 ->
  let n := 8 * q + r in
  bit_at (SetReg regs i v) n =
    if (6 * i <=? n) && (n <? 6 * i + 6) then Z.testbit v (n - 6 * i) else bit_at regs n.
Proof.
  intros Hd Hi Hq Hr. cbv zeta. pose proof (reg_pos i Hi) as (E & Hfb & Hoff & Hlast).
  pose proof (proj1 Hd) as Hl. unfold SetReg. rewrite Hl, Z.eqb_refl.
  destruct (Z.ltb_spec i 0), (Z.leb_spec Registers i); try lia. cbn [orb negb]. cbv zeta in *.
  set (off := i * RegBits / 8) in *. set (fb := i * RegBits mod 8) in *.
  match goal with |- context [alter ?f (Z.to_nat off) regs] =>
    set (regs1 := alter f (Z.to_nat off) regs) end.
  assert (Hl1 : len regs1 = HLL_DenseSize) by (unfold len, regs1; by rewrite length_alter).
  assert (H1 : bit_at regs1 (8 * q + r) =
    if q =? off then
      if (0 <=? r - fb) && (r - fb <? 6) then Z.testbit v (r - fb) else bit_at regs (8 * q + r)
    else bit_at regs (8 * q + r)).
  { unfold regs1. rewrite bit_at_alter by lia. destruct (Z.eqb_spec q off) as [->|]; [|done].
    rewrite low_byte by lia. by rewrite bit_at_byte by lia. }
  rewrite Hl1. destruct (Z.ltb_spec (off + 1) HLL_DenseSize).
  - rewrite bit_at_alter, H1 by lia. rewrite high_byte by lia.
    assert (Hb1 : regs1 !! Z.to_nat (off + 1) = regs !! Z.to_nat (off + 1)).
    { unfold regs1. apply list_lookup_alter_ne. lia. }
    rewrite Hb1. destruct (Z.eqb_spec q (off + 1)) as [->|].
    + rewrite <- bit_at_byte by lia. zcmp; cbn [andb]; try lia; try done. f_equal. lia.
    + zcmp; cbn [andb]; try lia; try done. f_equal. lia.
  - rewrite H1. zcmp; cbn [andb]; try lia; try done. f_equal. lia.
Qed.

Lemma testbit_6 x t : 0 <= x < 64 -> 0 <= t -> Z.testbit x t = (t <? 6) && Z.testbit x t.
Proof.
  intros Hx Ht. destruct (Z.ltb_spec t 6); [done|]. simpl.
  rewrite <- (Z.mod_small x (2 ^ 6)) by lia. apply Z.mod_pow2_bits_high. lia.
Qed.

Lemma GetReg_range regs i : 0 <= GetReg regs i < 64.
Proof.
  unfold GetReg. case_match; [lia|]. cbv zeta. change 0x3f with (Z.ones 6).
  rewrite Z.land_ones by lia. apply Z.mod_pos_bound. lia.
Qed.

(** A register write is read back and touches no other register. *)
Lemma GetReg_SetReg regs i j v :
  dense regs -> 0 <= i < Registers -> 0 <= j < Registers -> 0 <= v < 64 ->
  GetReg (SetReg regs i v) j = if i =? j then v else GetReg regs j.
Proof.
  intros Hd Hi Hj Hv. apply Z.bits_inj'. intros t Ht.
  rewrite GetReg_bits by auto using SetReg_dense.
  assert (Hx : 0 <= (if i =? j then v else GetReg regs j) < 64).
  { case_match; [lia|apply GetReg_range]. }
  rewrite (testbit_6 _ t Hx Ht). destruct (Z.ltb_spec t 6); [|done]. simpl.
  pose proof (Z.div_mod (6 * j + t) 8). pose proof (Z.mod_pos_bound (6 * j + t) 8).
  assert (0 <= (6 * j + t) / 8 < HLL_DenseSize).
  { unfold Registers, HLL_DenseSize in *. split; [apply Z.div_pos; lia|apply Z.div_lt_upper_bound; lia]. }
  replace (6 * j + t) with (8 * ((6 * j + t) / 8) + (6 * j + t) mod 8) by lia.
  rewrite SetReg_bits by (done || lia).
  replace (8 * ((6 * j + t) / 8) + (6 * j + t) mod 8) with (6 * j + t) by lia.
  destruct (Z.eqb_spec i j) as [->|].
  - destruct (Z.leb_spec (6 * j) (6 * j + t)), (Z.ltb_spec (6 * j + t) (6 * j + 6)); try lia. simpl.
    f_equal. lia.
  - destruct (Z.leb_spec (6 * i) (6 * j + t)), (Z.ltb_spec (6 * j + t) (6 * i + 6)); try lia; simpl.
    all: rewrite GetReg_bits by done; by destruct (Z.ltb_spec t 6); [|lia].
Qed.

(** A dense sketch is determined by its registers. *)
Lemma regs_ext a b :
  dense a -> dense b -> (forall i, 0 <= i < Registers -> GetReg a i = GetReg b i) -> a = b.
Proof.
  intros Ha Hb Hr. apply bits_ext; [apply Ha|apply Hb| |].
  { destruct Ha as [Ha _], Hb as [Hb _]. unfold len in *. lia. }
  intros j Hj. destruct Ha as [Hla Hba] eqn:Ea. rewrite Hla in Hj.
  unfold HLL_DenseSize, Registers in *.
  pose proof (Z.div_mod j 6). pose proof (Z.mod_pos_bound j 6).
  assert (0 <= j / 6 < 16384) by (split; [apply Z.div_pos; lia|apply Z.div_lt_upper_bound; lia]).
  specialize (Hr (j / 6) ltac:(done)). apply (f_equal (fun x => Z.testbit x (j mod 6))) in Hr.
  rewrite !GetReg_bits in Hr by (done || (unfold Registers; lia)).
  destruct (Z.ltb_spec (j mod 6) 6); [|lia]. simpl in Hr.
  by replace (6 * (j / 6) + j mod 6) with j in Hr by lia.
Qed.

(** *** Adding items *)

Lemma HLL_New_dense : dense HLL_New.
Proof.
  split; [unfold len, HLL_New; by rewrite length_replicate|].
  apply Forall_replicate. unfold is_byte. lia.
Qed.

Lemma lxor_shiftr_range x n : 0 <= n -> 0 <= x < 2 ^ 64 -> 0 <= Z.lxor x (Z.shiftr x n) < 2 ^ 64.
Proof.
  intros Hn Hx. assert (Hs : 0 <= Z.shiftr x n) by (apply Z.shiftr_nonneg; lia).
  assert (E : Z.lxor x (Z.shiftr x n) mod 2 ^ 64 = Z.lxor x (Z.shiftr x n)).
  { apply Z.bits_inj'. intros j Hj.
    destruct (Z.ltb_spec j 64); [by rewrite Z.mod_pow2_bits_low by lia|].
    rewrite Z.mod_pow2_bits_high by lia. symmetry. rewrite Z.lxor_spec, Z.shiftr_spec by lia.
    rewrite <- (Z.mod_small x (2 ^ 64)) by lia. by rewrite !Z.mod_pow2_bits_high by lia. }
  rewrite <- E. apply Z.mod_pos_bound. lia.
Qed.

Lemma mix64_range x : 0 <= x < 2 ^ 64 -> 0 <= mix64 x < 2 ^ 64.
Proof.
  intros Hx. unfold mix64. cbv zeta. apply lxor_shiftr_range; [lia|].
  unfold u64. apply Z.mod_pos_bound. lia.
Qed.

Lemma Hash64_range item : bytes_ok item -> 0 <= Hash64 item < 2 ^ 64.
Proof.
  intros _. unfold Hash64. assert (H0 : 0 <= offset64 < 2 ^ 64) by (unfold offset64; lia).
  revert H0. generalize offset64 as h. induction item as [|c item IH]; intros h Hh; simpl; [done|].
  apply IH. unfold u64. apply Z.mod_pos_bound. lia.
Qed.

Lemma hll_idx_range item : bytes_ok item -> 0 <= hll_idx item < Registers.
Proof.
  intros Hb. unfold hll_idx, Precision, Registers. pose proof (mix64_range _ (Hash64_range _ Hb)).
  rewrite Z.shiftr_div_pow2 by lia.
  split; [apply Z.div_pos; lia|apply Z.div_lt_upper_bound; lia].
Qed.

Lemma hll_rho_range item : 0 < hll_rho item < 64.
Proof.
  unfold hll_rho, Precision, LeadingZeros64. cbv zeta.
  set (w := u64 _). assert (Hw : 0 <= w < 2 ^ 64) by (apply Z.mod_pos_bound; lia).
  destruct (Z.eqb_spec w 0); [destruct (Z.ltb_spec 63 (64 - 14 + 1)); lia|].
  assert (Z.log2 w < 64) by (apply Z.log2_lt_pow2; lia). pose proof (Z.log2_nonneg w).
  destruct (Z.ltb_spec 63 (63 - Z.log2 w + 1)); lia.
Qed.

Lemma u8_rho item : u8 (hll_rho item) = hll_rho item.
Proof. unfold u8. apply Z.mod_small. pose proof (hll_rho_range item). lia. Qed.

Lemma HLL_Add_dense regs item : dense regs -> dense (HLL_Add regs item).
Proof. intros Hd. unfold HLL_Add. repeat case_match; auto using SetReg_dense. Qed.

(** Contribution of an item to register [i]. *)
Definition hll_mark (item : bytes) (i : Z) : Z :=
  if bool_decide (item <> []) && (i =? hll_idx item) then hll_rho item else 0.

Lemma GetReg_Add regs item i :
  dense regs -> bytes_ok item -> 0 <= i < Registers ->
  GetReg (HLL_Add regs item) i = Z.max (GetReg regs i) (hll_mark item i).
Proof.
  intros Hd Hb Hi. unfold HLL_Add, hll_mark. rewrite (proj1 Hd), Z.eqb_refl. cbn [negb orb].
  pose proof (GetReg_range regs i). pose proof (hll_rho_range item).
  destruct item as [|c item].
  { rewrite bool_decide_false by auto. change (len [] =? 0) with true. cbn [andb]. lia. }
  set (it := c :: item) in *.
  assert ((len it =? 0) = false) as ->.
  { apply Z.eqb_neq. unfold it. rewrite len_cons. pose proof (len_nonneg item). lia. }
  rewrite bool_decide_true by done. rewrite u8_rho. cbn [andb].
  pose proof (hll_idx_range it Hb).
  destruct (Z.ltb_spec (GetReg regs (hll_idx it)) (hll_rho it)).
  - rewrite GetReg_SetReg by (done || lia).
    destruct (Z.eqb_spec (hll_idx it) i), (Z.eqb_spec i (hll_idx it)); subst; lia.
  - destruct (Z.eqb_spec i (hll_idx it)); subst; lia.
Qed.

Definition hll_marks (items : list bytes) (i : Z) : Z :=
  foldr (fun item acc => Z.max (hll_mark item i) acc) 0 items.

Lemma GetReg_adds items regs i :
  dense regs -> Forall bytes_ok items -> 0 <= i < Registers ->
  GetReg (fold_left HLL_Add items regs) i = Z.max (GetReg regs i) (hll_marks items i) /\
  dense (fold_left HLL_Add items regs).
Proof.
  intros Hd Hb Hi. revert regs Hd. induction Hb as [|x xs Hx Hb IH]; intros regs Hd; simpl.
  { pose proof (GetReg_range regs i). split; [lia|done]. }
  destruct (IH (HLL_Add regs x)) as [-> Hd']; [by apply HLL_Add_dense|]. split; [|done].
  rewrite GetReg_Add by done. unfold hll_marks. simpl. lia.
Qed.

Lemma hll_marks_le items i x : x ∈ items -> hll_mark x i <= hll_marks items i.
Proof.
  induction 1 as [|y items Hx IH]; unfold hll_marks in *; simpl in *; lia.
Qed.

Lemma hll_mark_nonneg item i : 0 <= hll_mark item i.
Proof. unfold hll_mark. pose proof (hll_rho_range item). case_match; lia. Qed.

Lemma hll_marks_lub items i v :
  0 <= v -> (forall x, x ∈ items -> hll_mark x i <= v) -> hll_marks items i <= v.
Proof.
  intros Hv. induction items as [|x items IH]; intros Hx; unfold hll_marks in *; simpl; [lia|].
  pose proof (Hx x ltac:(constructor)). specialize (IH (fun y Hy => Hx y (list_elem_of_further _ _ _ Hy))). lia.
Qed.

Lemma hll_marks_nonneg items i : 0 <= hll_marks items i.
Proof. induction items as [|x items IH]; unfold hll_marks in *; simpl; lia. Qed.

Lemma hll_marks_app xs ys i : hll_marks (xs ++ ys) i = Z.max (hll_marks xs i) (hll_marks ys i).
Proof.
  induction xs as [|x xs IH]; unfold hll_marks in *; simpl; [|lia].
  pose proof (hll_marks_nonneg ys i). unfold hll_marks in *. lia.
Qed.

Lemma hll_marks_set (xs ys : list bytes) i :
  (forall x, x ∈ xs <-> x ∈ ys) -> hll_marks xs i = hll_marks ys i.
Proof.
  intros Hs. apply Z.le_antisymm; apply hll_marks_lub; auto using hll_marks_nonneg;
    intros x Hx; apply hll_marks_le; by apply Hs.
Qed.

Definition hll_of (items : list bytes) : bytes := fold_left HLL_Add items HLL_New.

Lemma hll_of_regs items i :
  Forall bytes_ok items -> 0 <= i < Registers ->
  GetReg (hll_of items) i = hll_marks items i /\ dense (hll_of items).
Proof.
  intros Hb Hi. destruct (GetReg_adds items HLL_New i HLL_New_dense Hb Hi) as [E Hd].
  split; [|done]. unfold hll_of. rewrite E.
  pose proof (hll_marks_nonneg items i). assert (GetReg HLL_New i = 0); [|lia].
  apply Z.bits_inj'. intros t Ht. rewrite Z.bits_0, GetReg_bits by auto using HLL_New_dense.
  unfold HLL_New. rewrite bit_at_zeros. apply andb_false_r.
Qed.

(** *** Merging registers *)

Definition merge_reg (src dst : bytes) (i : Z) : bytes :=
  if GetReg dst i <? GetReg src i then SetReg dst i (GetReg src i) else dst.

Lemma merge_reg_dense src dst i : dense dst -> dense (merge_reg src dst i).
Proof. intros. unfold merge_reg. case_match; auto using SetReg_dense. Qed.

Lemma merge_reg_get src dst i j :
  dense dst -> 0 <= i < Registers -> 0 <= j < Registers ->
  GetReg (merge_reg src dst i) j = if i =? j then Z.max (GetReg dst j) (GetReg src j) else GetReg dst j.
Proof.
  intros Hd Hi Hj. unfold merge_reg. destruct (Z.ltb_spec (GetReg dst i) (GetReg src i)).
  - rewrite GetReg_SetReg by auto using GetReg_range. destruct (Z.eqb_spec i j); subst; lia.
  - destruct (Z.eqb_spec i j); subst; lia.
Qed.

Lemma merge_regs_get src l dst j :
  dense dst -> Forall (fun i => 0 <= i < Registers) l -> NoDup l -> 0 <= j < Registers ->
  dense (fold_left (merge_reg src) l dst) /\
  GetReg (fold_left (merge_reg src) l dst) j =
    if bool_decide (j ∈ l) then Z.max (GetReg dst j) (GetReg src j) else GetReg dst j.
Proof.
  intros Hd Hl Hnd Hj. revert dst Hd. induction Hl as [|i l Hi Hl IH]; intros dst Hd; cbn [fold_left].
  { split; [done|]. by rewrite bool_decide_false by (by intros ?%elem_of_nil). }
  inv Hnd. destruct (IH ltac:(done) (merge_reg src dst i)) as [Hd' E]; [by apply merge_reg_dense|].
  split; [done|]. rewrite E, merge_reg_get by done.
  destruct (Z.eqb_spec i j) as [->|Hne].
  - rewrite bool_decide_false by done. by rewrite bool_decide_true by constructor.
  - rewrite (bool_decide_ext (j ∈ i :: l) (j ∈ l)); [done|]. rewrite elem_of_cons.
    split; [intros [|]; congruence|by right].
Qed.

Lemma HLL_merge_spec dst src :
  dense dst -> dense src ->
  exists out, HLL_merge dst src = Some out /\ dense out /\
    forall j, 0 <= j < Registers -> GetReg out j = Z.max (GetReg dst j) (GetReg src j).
Proof.
  intros Hd Hs. unfold HLL_merge. rewrite (proj1 Hd), (proj1 Hs), Z.eqb_refl. cbn [negb orb].
  change (fun dst i => if GetReg dst i <? GetReg src i then SetReg dst i (GetReg src i) else dst)
    with (merge_reg src).
  assert (Hl : Forall (fun i => 0 <= i < Registers) (seqZ 0 Registers)).
  { apply Forall_forall. intros i. rewrite elem_of_seqZ. lia. }
  eexists. split; [done|]. split.
  { apply (merge_regs_get src _ dst 0); auto using NoDup_seqZ. unfold Registers. lia. }
  intros j Hj. destruct (merge_regs_get src (seqZ 0 Registers) dst j) as [_ ->];
    auto using NoDup_seqZ. rewrite bool_decide_true; [done|]. rewrite elem_of_seqZ. lia.
Qed.

(** ** Main properties *)

(** no false negatives.  Whatever else is added before or after, an item
    that was added to a well-formed filter is reported present. *)
Theorem bloom_no_false_negatives f (before after : list bytes) (x : bytes) :
  filter_ok f ->
  Bloom_Test (fold_left Bloom_Add after (Bloom_Add (fold_left Bloom_Add before f) x)) x = true.
Proof.
  intros Hf. assert (Hb : filter_ok (fold_left Bloom_Add before f)).
  { by apply Bloom_adds_bits. }
  apply Bloom_adds_mono; auto using Bloom_Add_ok, Bloom_Test_Add.
Qed.

Lemma bloom_no_false_negatives_witness :
  Bloom_Test (fold_left Bloom_Add [[98]] (Bloom_Add (fold_left Bloom_Add [] (Bloom_New 64 3)) [97])) [97] = true.
Proof. apply bloom_no_false_negatives. apply Bloom_New_ok. Defined.

(** merging is the union.  Merging the filters of two collections of
    items gives the filter of the two collections together, bit for bit. *)
Theorem bloom_merge_union m k xs ys :
  Bloom_Merge (fold_left Bloom_Add xs (Bloom_New m k)) (fold_left Bloom_Add ys (Bloom_New m k)) =
  Some (fold_left Bloom_Add (xs ++ ys) (Bloom_New m k)).
Proof. apply Bloom_Merge_adds. Qed.

(** a HyperLogLog sketch depends only on the set of items added: neither
    their order nor repetitions change a byte of it. *)
Theorem hll_set_semantics (xs ys : list bytes) :
  Forall bytes_ok xs -> Forall bytes_ok ys -> (forall x, x ∈ xs <-> x ∈ ys) -> hll_of xs = hll_of ys.
Proof.
  intros Hx Hy Hs.
  assert (H0 : 0 <= 0 < Registers) by (unfold Registers; lia).
  apply regs_ext; [by eapply hll_of_regs|by eapply hll_of_regs|].
  intros i Hi. destruct (hll_of_regs xs i) as [-> _]; [done..|].
  destruct (hll_of_regs ys i) as [-> _]; [done..|]. by apply hll_marks_set.
Qed.

Lemma hll_set_semantics_witness : hll_of [[97]; [98]; [97]] = hll_of [[98]; [97]].
Proof.
  apply hll_set_semantics; [repeat constructor; unfold is_byte; lia..|]. set_solver.
Defined.

(** merging two sketches is the sketch of all their items. *)
Theorem hll_merge_union (xs ys : list bytes) :
  Forall bytes_ok xs -> Forall bytes_ok ys ->
  HLL_merge (hll_of xs) (hll_of ys) = Some (hll_of (xs ++ ys)).
Proof.
  intros Hx Hy. assert (H0 : 0 <= 0 < Registers) by (unfold Registers; lia).
  destruct (hll_of_regs xs 0 Hx H0) as [_ Hdx], (hll_of_regs ys 0 Hy H0) as [_ Hdy].
  assert (Hxy : Forall bytes_ok (xs ++ ys)) by (by apply Forall_app).
  destruct (HLL_merge_spec _ _ Hdx Hdy) as (out & -> & Hdo & Hreg). f_equal.
  apply regs_ext; [done|by eapply (hll_of_regs _ 0)|]. intros i Hi. rewrite Hreg by done.
  destruct (hll_of_regs xs i Hx Hi) as [-> _], (hll_of_regs ys i Hy Hi) as [-> _],
    (hll_of_regs (xs ++ ys) i Hxy Hi) as [-> _].
  by rewrite hll_marks_app.
Qed.

Lemma hll_merge_union_witness : HLL_merge (hll_of [[97]]) (hll_of [[98]]) = Some (hll_of [[97]; [98]]).
Proof. apply (hll_merge_union [[97]] [[98]]); repeat constructor; unfold is_byte; lia. Defined.
