(* ===== verification/Cms.v ===== *)
(** * Count-Min sketches: pkg/cmsx

    Four rows of 2048 little-endian uint64 cells in one blob.  An increment is
    all-or-nothing under overflow; a query never underestimates and never
    exceeds the total weight. *)
From S2P Require Import Prelude Wire Sketches.

Definition Depth : Z := 4.
Definition Width : Z := 2048.
Definition CellBytes : Z := 8.
Definition CMS_DenseSize : Z := 65536.

Inductive cms_err := CMS_ErrSize | CMS_ErrEmpty | CMS_ErrOverflow | CMS_ErrInbox.

Definition CMS_New : bytes := replicate (Z.to_nat CMS_DenseSize) 0.

Definition delta (n : Z) : Z := if n =? 0 then 1 else n.

(** Column of [item] in row [i]. *)
Definition column (item : bytes) (i : Z) : Z :=
  let x := mix64 (Hash64 item) in
  let h1 := Z.shiftr x 32 in
  let h2 := Z.lor (Z.land x 0xffffffff) 1 in
  Z.land (h1 +u (i *u h2)) (Width - 1).

Definition cellOff (row col : Z) : Z := (row * Width + col) * CellBytes.

(** binary.LittleEndian.Uint64(b[off:]) and PutUint64(b[off:], v) *)
Definition get64 (b : bytes) (off : Z) : Z := Uint64 (drop (Z.to_nat off) b).
Definition put64 (b : bytes) (off v : Z) : bytes :=
  take (Z.to_nat off) b ++ PutUint64 v ++ drop (Z.to_nat (off + 8)) b.

Definition rows : list Z := [0; 1; 2; 3].

Definition CMS_Incr (sketch item : bytes) (n : Z) : bytes + cms_err :=
  if negb (len sketch =? CMS_DenseSize) then inr CMS_ErrSize
  else if len item =? 0 then inr CMS_ErrEmpty
  else
    let d := delta n in
    if existsb (fun i => MaxUint64 - d <? get64 sketch (cellOff i (column item i))) rows
    then inr CMS_ErrOverflow
    else
      inl (fold_left (fun b i =>
             let off := cellOff i (column item i) in put64 b off (get64 b off +u d)) rows sketch).

Definition CMS_Query (sketch item : bytes) : Z :=
  if negb (len sketch =? CMS_DenseSize) || (len item =? 0) then 0
  else
    fold_left (fun min i =>
      let v := get64 sketch (cellOff i (column item i)) in if v <? min then v else min)
      rows MaxUint64.

Definition CMS_EncodeInbox (n : Z) (item : bytes) : bytes + cms_err :=
  if len item =? 0 then inr CMS_ErrEmpty else inl (PutUvarint (delta n) ++ item).

Definition CMS_DecodeInbox (b : bytes) : (Z * bytes) + cms_err :=
  let '(n, k) := Uvarint b in
  if k <=? 0 then inr CMS_ErrInbox
  else
    let item := drop (Z.to_nat k) b in
    if len item =? 0 then inr CMS_ErrEmpty else inl (n, item).

#[global] Arguments column : simpl never.
#[global] Arguments get64 : simpl never.
#[global] Arguments put64 : simpl never.

Lemma elem_of_rows r : r ∈ rows <-> 0 <= r < Depth.
Proof. unfold rows, Depth. set_unfold. lia. Qed.

(** ** Cells *)

Definition sketch_ok (b : bytes) : Prop := len b = CMS_DenseSize /\ bytes_ok b.

Lemma put64_len b off v : 0 <= off -> off + 8 <= len b -> len (put64 b off v) = len b.
Proof.
  intros Ho Hl. unfold put64, len in *.
  rewrite !length_app, length_take, PutUint64_length, length_drop. lia.
Qed.

Lemma get64_put64_eq b off v :
  0 <= off -> off + 8 <= len b -> 0 <= v <= MaxUint64 -> get64 (put64 b off v) off = v.
Proof.
  intros Ho Hl Hv. unfold get64, put64. rewrite drop_app_length'.
  - by apply Uint64_PutUint64.
  - rewrite length_take. unfold len in Hl. lia.
Qed.

Lemma get64_put64_ne b off off' v :
  0 <= off -> off + 8 <= len b -> 0 <= off' -> off' + 8 <= off \/ off + 8 <= off' ->
  get64 (put64 b off v) off' = get64 b off'.
Proof.
  intros Ho Hl Ho' Hd. unfold get64, put64, Uint64. f_equal.
  apply list_eq. intros i. destruct (decide (i < 8)%nat); [|by rewrite !lookup_take_ge by lia].
  rewrite !lookup_take_lt, !lookup_drop by lia. destruct Hd as [Hd|Hd].
  - rewrite lookup_app_l by (rewrite length_take; unfold len in Hl; lia).
    by rewrite lookup_take_lt by lia.
  - rewrite lookup_app_r by (rewrite length_take; lia).
    rewrite lookup_app_r by (rewrite length_take, PutUint64_length; unfold len in Hl; lia).
    rewrite lookup_drop, length_take, PutUint64_length. f_equal. unfold len in Hl. lia.
Qed.

Lemma put64_ok b off v : bytes_ok b -> bytes_ok (put64 b off v).
Proof.
  intros Hb. unfold put64. apply Forall_app. split; [by apply Forall_take|].
  apply Forall_app. split; [apply le_encode_ok|by apply Forall_drop].
Qed.

Lemma get64_range b off : bytes_ok b -> 0 <= get64 b off <= MaxUint64.
Proof. intros Hb. apply Uint64_range. by apply Forall_drop. Qed.

Lemma column_range item i : 0 <= column item i < Width.
Proof.
  unfold column. cbv zeta. change (Width - 1) with (Z.ones 11). change Width with (2 ^ 11).
  rewrite Z.land_ones by lia. apply Z.mod_pos_bound. lia.
Qed.

(** The cell of row [i], column [c]. *)
Definition cell (b : bytes) (i c : Z) : Z := get64 b (cellOff i c).

Lemma cellOff_fits i c : 0 <= i < Depth -> 0 <= c < Width -> 0 <= cellOff i c /\ cellOff i c + 8 <= CMS_DenseSize.
Proof. unfold cellOff, Depth, Width, CellBytes, CMS_DenseSize. lia. Qed.

Lemma cellOff_apart i c i' c' :
  0 <= i < Depth -> 0 <= c < Width -> 0 <= i' < Depth -> 0 <= c' < Width -> (i, c) <> (i', c') ->
  cellOff i' c' + 8 <= cellOff i c \/ cellOff i c + 8 <= cellOff i' c'.
Proof.
  unfold cellOff, Depth, Width, CellBytes. intros Hi Hc Hi' Hc' Hne.
  assert (i <> i' \/ c <> c') by (destruct (Z.eq_dec i i'), (Z.eq_dec c c'); subst; tauto). lia.
Qed.

(** One write of the loop. *)
Definition bump (item : bytes) (d : Z) (b : bytes) (i : Z) : bytes :=
  let off := cellOff i (column item i) in put64 b off (get64 b off +u d).

Lemma bump_ok item d b i : sketch_ok b -> 0 <= i < Depth -> sketch_ok (bump item d b i).
Proof.
  intros [Hl Hb] Hi. destruct (cellOff_fits i (column item i) Hi (column_range item i)).
  split; [unfold bump; rewrite put64_len; lia|by apply put64_ok].
Qed.

Lemma bump_cell item d b i r c :
  sketch_ok b -> 0 <= i < Depth -> 0 <= r < Depth -> 0 <= c < Width ->
  cell (bump item d b i) r c =
    if (r =? i) && (c =? column item i) then cell b r c +u d else cell b r c.
Proof.
  intros [Hl Hb] Hi Hr Hc. pose proof (column_range item i).
  destruct (cellOff_fits i (column item i)); [done..|]. unfold cell, bump. cbv zeta.
  destruct (Z.eqb_spec r i) as [->|], (Z.eqb_spec c (column item i)) as [->|]; cbn [andb];
    rewrite ?get64_put64_eq by (lia || apply u64_range); try done;
    (rewrite get64_put64_ne; [done|lia|lia|unfold cellOff, Depth, Width, CellBytes in *; lia|];
     apply cellOff_apart; try done; congruence).
Qed.

(** ** Increments *)

Lemma CMS_Incr_inl sketch item n sketch' :
  CMS_Incr sketch item n = inl sketch' ->
  len sketch = CMS_DenseSize /\ item <> [] /\
  (forall i, i ∈ rows -> cell sketch i (column item i) + delta n <= MaxUint64) /\
  sketch' = fold_left (bump item (delta n)) rows sketch.
Proof.
  unfold CMS_Incr. destruct (Z.eqb_spec (len sketch) CMS_DenseSize); [|done]. cbn [negb].
  destruct (Z.eqb_spec (len item) 0); [done|]. cbv zeta.
  destruct (existsb _ rows) eqn:E; [done|]. intros [= <-].
  split_and!; [done|by intros ->| |done].
  intros i Hi. apply not_true_iff_false in E. unfold cell.
  destruct (Z.ltb_spec (MaxUint64 - delta n) (get64 sketch (cellOff i (column item i)))) as [Hlt|]; [|lia].
  exfalso. apply E, existsb_exists. exists i. split; [by apply list_elem_of_In|by apply Z.ltb_lt].
Qed.

(** Each row's cell of the item grows by exactly the delta; all others stay. *)
Lemma CMS_Incr_cell sketch item n sketch' r c :
  sketch_ok sketch -> 0 <= n -> CMS_Incr sketch item n = inl sketch' ->
  0 <= r < Depth -> 0 <= c < Width ->
  cell sketch' r c = cell sketch r c + (if c =? column item r then delta n else 0) /\ sketch_ok sketch'.
Proof.
  intros Hok Hn (Hl & _ & Hover & ->)%CMS_Incr_inl Hr Hc.
  assert (Hd : forall i, 0 <= i < 4 -> 0 <= i < Depth) by (unfold Depth; lia).
  assert (0 <= delta n) by (unfold delta; case_match; lia).
  pose proof (bump_ok item (delta n) sketch 0 Hok ltac:(apply Hd; lia)) as H1.
  pose proof (bump_ok item (delta n) _ 1 H1 ltac:(apply Hd; lia)) as H2.
  pose proof (bump_ok item (delta n) _ 2 H2 ltac:(apply Hd; lia)) as H3.
  pose proof (bump_ok item (delta n) _ 3 H3 ltac:(apply Hd; lia)) as H4.
  cbn [fold_left rows]. split; [|done].
  rewrite !bump_cell by (done || apply Hd; lia).
  assert (Hr' : r = 0 \/ r = 1 \/ r = 2 \/ r = 3) by (unfold Depth in Hr; lia).
  assert (Hin : r ∈ rows) by (by apply elem_of_rows).
  specialize (Hover r Hin).
  pose proof (get64_range sketch (cellOff r c) (proj2 Hok)) as Hg. fold (cell sketch r c) in Hg.
  destruct (Z.eqb_spec c (column item r)) as [->|Hne].
  - destruct Hr' as [-> | [-> | [-> | ->]]]; cbn [Z.eqb andb Pos.eqb]; rewrite Z.eqb_refl; cbn [andb];
      apply u64_small; lia.
  - destruct Hr' as [-> | [-> | [-> | ->]]]; cbn [Z.eqb andb Pos.eqb];
      apply Z.eqb_neq in Hne; rewrite Hne; cbn [andb]; lia.
Qed.

Lemma CMS_Query_spec sketch item :
  len sketch = CMS_DenseSize -> item <> [] ->
  (forall i, i ∈ rows -> CMS_Query sketch item <= cell sketch i (column item i)) /\
  (CMS_Query sketch item = MaxUint64 \/
   exists i, i ∈ rows /\ CMS_Query sketch item = cell sketch i (column item i)).
Proof.
  intros Hl Hne. unfold CMS_Query. rewrite Hl, Z.eqb_refl.
  assert ((len item =? 0) = false) as ->.
  { apply Z.eqb_neq. pose proof (len_pos item Hne). lia. }
  cbn [negb orb].
  assert (Hf : forall l acc, let m := fold_left (fun min i => let v := get64 sketch (cellOff i (column item i)) in
      if v <? min then v else min) l acc in
    m <= acc /\ (forall i, i ∈ l -> m <= cell sketch i (column item i)) /\
    (m = acc \/ exists i, i ∈ l /\ m = cell sketch i (column item i))).
  { induction l as [|x l IH]; intros acc; cbn [fold_left]; cbv zeta.
    { split_and!; [lia|by intros ? ?%elem_of_nil|by left]. }
    specialize (IH (if get64 sketch (cellOff x (column item x)) <? acc
                    then get64 sketch (cellOff x (column item x)) else acc)).
    cbv zeta in IH. destruct IH as (IH1 & IH2 & IH3). unfold cell in *. split_and!.
    - destruct (Z.ltb_spec (get64 sketch (cellOff x (column item x))) acc); lia.
    - intros i [->|Hi]%elem_of_cons; [|by apply IH2].
      destruct (Z.ltb_spec (get64 sketch (cellOff x (column item x))) acc); lia.
    - destruct IH3 as [IH3|(i & Hi & IH3)]; [|right; exists i; split; [by right|done]].
      rewrite IH3. destruct (Z.ltb_spec (get64 sketch (cellOff x (column item x))) acc); [right|by left].
      exists x. split; [by left|done]. }
  destruct (Hf rows MaxUint64) as (_ & H2 & H3). done.
Qed.

(** ** Main properties *)

(** A run of increments; every one must succeed. *)
Fixpoint incrs (sketch : bytes) (ops : list (bytes * Z)) : option bytes :=
  match ops with
  | [] => Some sketch
  | (item, n) :: ops =>
      match CMS_Incr sketch item n with
      | inl sketch => incrs sketch ops
      | inr _ => None
      end
  end.

(** The true weight of [x], and the total weight. *)
Definition weight (x : bytes) (ops : list (bytes * Z)) : Z :=
  zsum (map (fun op => if bool_decide (op.1 = x) then delta op.2 else 0) ops).
Definition total_weight (ops : list (bytes * Z)) : Z := zsum (map (fun op => delta op.2) ops).

Lemma incrs_cell ops sketch sketch' r c :
  sketch_ok sketch -> Forall (fun op => 0 <= op.2) ops -> incrs sketch ops = Some sketch' ->
  0 <= r < Depth -> 0 <= c < Width ->
  sketch_ok sketch' /\
  cell sketch' r c = cell sketch r c +
    zsum (map (fun op => if c =? column op.1 r then delta op.2 else 0) ops).
Proof.
  intros Hok Hn. revert sketch Hok. induction Hn as [|[item n] ops Hn Hns IH]; intros sketch Hok E Hr Hc.
  { injection E as <-. unfold zsum. simpl. split; [done|lia]. }
  simpl in E. destruct (CMS_Incr sketch item n) as [s1|] eqn:E1; [|done].
  destruct (CMS_Incr_cell sketch item n s1 r c) as [H1 Hok1]; [done..|].
  destruct (IH s1 Hok1 E Hr Hc) as [Hok' ->]. split; [done|]. rewrite H1.
  unfold zsum. cbn [map foldr fst snd]. lia.
Qed.

Lemma CMS_New_ok : sketch_ok CMS_New.
Proof.
  split; [unfold len, CMS_New; by rewrite length_replicate|].
  apply Forall_replicate. unfold is_byte. lia.
Qed.

Lemma cell_New r c : 0 <= r < Depth -> 0 <= c < Width -> cell CMS_New r c = 0.
Proof.
  intros Hr Hc. unfold cell, get64, Uint64, CMS_New. rewrite drop_replicate, take_replicate.
  generalize (Nat.min 8 (Z.to_nat CMS_DenseSize - Z.to_nat (cellOff r c)))%nat as n.
  induction n as [|n IH]; [done|]. simpl. rewrite IH. done.
Qed.

Lemma delta_nonneg n : 0 <= n -> 1 <= delta n.
Proof. unfold delta. case_match; zprop; lia. Qed.

(** Any row bounds the weight from above. *)
Lemma weight_le_row x ops r :
  Forall (fun op => 0 <= op.2) ops ->
  0 <= weight x ops <= zsum (map (fun op => if column x r =? column op.1 r then delta op.2 else 0) ops) /\
  zsum (map (fun op => if column x r =? column op.1 r then delta op.2 else 0) ops) <= total_weight ops.
Proof.
  unfold weight, total_weight, zsum.
  induction 1 as [|[item n] ops Hn Hns IH]; cbn [map foldr fst snd] in *; [lia|].
  pose proof (delta_nonneg n Hn).
  case_bool_decide as D; [subst; rewrite Z.eqb_refl; lia|].
  destruct (column x r =? column item r); lia.
Qed.

Lemma incrs_New_cell ops sketch r c :
  Forall (fun op => 0 <= op.2) ops -> incrs CMS_New ops = Some sketch ->
  0 <= r < Depth -> 0 <= c < Width ->
  sketch_ok sketch /\
  cell sketch r c = zsum (map (fun op => if c =? column op.1 r then delta op.2 else 0) ops).
Proof.
  intros Hn E Hr Hc. destruct (incrs_cell ops CMS_New sketch r c CMS_New_ok Hn E Hr Hc) as [Hs Hv].
  split; [exact Hs|]. rewrite Hv, cell_New by assumption. apply Z.add_0_l.
Qed.

#[global] Opaque CMS_New.

(** C40: a Count-Min query after any run of successful increments is at least
    the true weight of the item and at most the total weight of the run. *)
Theorem cms_query_bounds ops sketch x :
  Forall (fun op => 0 <= op.2) ops -> x <> [] -> incrs CMS_New ops = Some sketch ->
  weight x ops <= CMS_Query sketch x <= total_weight ops.
Proof.
  intros Hn Hx E.
  assert (Hcell : forall r, r ∈ rows -> sketch_ok sketch /\ cell sketch r (column x r) =
    zsum (map (fun op => if column x r =? column op.1 r then delta op.2 else 0) ops)).
  { intros r Hr%elem_of_rows. by apply incrs_New_cell; [..|apply column_range]. }
  assert (H0 : 0 ∈ rows) by (apply elem_of_rows; unfold Depth; lia).
  destruct (Hcell 0 H0) as [[Hl Hb] Hc0].
  destruct (CMS_Query_spec sketch x Hl Hx) as [Hle Hex].
  pose proof (Hle 0 H0) as Hle0. destruct (weight_le_row x ops 0 Hn) as [Hw Ht].
  split; [|lia]. destruct Hex as [->|(i & Hi & ->)].
  - pose proof (get64_range sketch (cellOff 0 (column x 0)) Hb). unfold cell in *. lia.
  - destruct (Hcell i Hi) as [_ ->]. by apply weight_le_row.
Qed.

(** Overflow is detected before anything is written, and nothing else fails. *)
Lemma CMS_Incr_result sketch item n :
  len sketch = CMS_DenseSize -> item <> [] ->
  (exists sketch', CMS_Incr sketch item n = inl sketch') <->
  (forall i, 0 <= i < Depth -> cell sketch i (column item i) + delta n <= MaxUint64).
Proof.
  intros Hl Hne. split.
  - intros [s' (_ & _ & Hi & _)%CMS_Incr_inl] i Hr. by apply Hi, elem_of_rows.
  - intros Hi. unfold CMS_Incr. rewrite Hl, Z.eqb_refl.
    pose proof (len_pos item Hne). destruct (Z.eqb_spec (len item) 0); [lia|].
    cbn [negb]. cbv zeta. destruct (existsb _ rows) eqn:E; [|by eexists].
    apply existsb_exists in E as (i & Hin%list_elem_of_In%elem_of_rows & Hlt%Z.ltb_lt).
    specialize (Hi i Hin). unfold cell in Hi. lia.
Qed.

Lemma cms_query_bounds_witness : exists sketch,
  incrs CMS_New [([97], 3)] = Some sketch /\
  weight [97] [([97], 3)] <= CMS_Query sketch [97] <= total_weight [([97], 3)].
Proof.
  destruct (proj2 (CMS_Incr_result CMS_New [97] 3 (proj1 CMS_New_ok) ltac:(done))) as [s Hs].
  { intros i Hi. rewrite cell_New; [|exact Hi|apply column_range]. unfold MaxUint64, delta. simpl. lia. }
  exists s. assert (E : incrs CMS_New [([97], 3)] = Some s) by (simpl; by rewrite Hs).
  split; [exact E|]. apply cms_query_bounds; [|done|exact E].
  repeat constructor. simpl. lia.
Defined.

(** an increment travels to the owner unchanged: the inbox payload of a
    non-empty item decodes to the item and the effective delta. *)
Theorem cms_inbox_roundtrip n item :
  0 <= n <= MaxUint64 -> item <> [] ->
  exists b, CMS_EncodeInbox n item = inl b /\ CMS_DecodeInbox b = inl (delta n, item).
Proof.
  intros Hn Hne. unfold CMS_EncodeInbox, CMS_DecodeInbox.
  pose proof (len_pos item Hne).
  destruct (Z.eqb_spec (len item) 0); [lia|]. eexists. split; [done|].
  assert (Hd : 0 <= delta n <= MaxUint64) by (unfold delta, MaxUint64 in *; case_match; lia).
  rewrite Uvarint_PutUvarint by done.
  rewrite PutUvarint_pos.
  rewrite drop_app_len. by destruct (Z.eqb_spec (len item) 0); [lia|].
Qed.

Lemma cms_inbox_roundtrip_witness :
  exists b, CMS_EncodeInbox 0 [97] = inl b /\ CMS_DecodeInbox b = inl (delta 0, [97]).
Proof. apply cms_inbox_roundtrip; [unfold MaxUint64; lia|done]. Defined.
