(* ===== verification/TopK.v ===== *)
(** * Space-Saving top-K tables: pkg/topkx

    The table keeps a slot array and an index from item to slot.  The theorems
    are the Space-Saving guarantees: no item is underestimated, the counts sum
    to the number of observations, and every item seen more than N/k times is
    in the table; and the snapshot round trip. *)
From S2P Require Import Prelude Wire.

Record TEntry := mkTEntry { Item : bytes; Count : Z }.
#[global] Instance TEntry_eq_dec : EqDecision TEntry.
Proof. solve_decision. Defined.

Record Table := mkTable { tk : Z; slots : list TEntry; idx : gmap bytes nat }.

Inductive topk_err := TK_ErrEmpty | TK_ErrK | TK_ErrOverflow | TK_ErrDecode.

Definition TopK_New (k : Z) : option Table :=
  if k <? 1 then None else Some (mkTable k [] ∅).

Definition Occupied (t : Table) : Z := len (slots t).

(** bytes.Compare(a, b) < 0 breaks ties between equal counts. *)
Definition slot_lt (a b : TEntry) : bool :=
  (Count a <? Count b) || ((Count a =? Count b) && bytes_ltb (Item a) (Item b)).

(** for i := 1; i < len(slots); i++, carrying the best slot so far. *)
Fixpoint min_loop (rest : list TEntry) (i min : nat) (best : TEntry) : nat :=
  match rest with
  | [] => min
  | e :: rest => if slot_lt e best then min_loop rest (S i) i e else min_loop rest (S i) min best
  end.

Definition minSlot (t : Table) : nat :=
  match slots t with
  | [] => 0%nat
  | e :: rest => min_loop rest 1 0 e
  end.

Definition TopK_Add (t : Table) (item : bytes) : Table + topk_err :=
  if len item =? 0 then inr TK_ErrEmpty
  else
    match idx t !! item with
    | Some i =>
        match slots t !! i with
        | None => inr TK_ErrOverflow      (* index out of range; excluded by the invariant *)
        | Some e =>
            if Count e =? MaxUint64 then inr TK_ErrOverflow
            else inl (mkTable (tk t) (<[i := mkTEntry (Item e) (Count e + 1)]> (slots t)) (idx t))
        end
    | None =>
        if len (slots t) <? tk t then
          inl (mkTable (tk t) (slots t ++ [mkTEntry item 1]) (<[item := length (slots t)]> (idx t)))
        else
          let min := minSlot t in
          match slots t !! min with
          | None => inr TK_ErrOverflow    (* empty table of capacity 0; excluded by the invariant *)
          | Some e =>
              let c := Count e in
              if c =? MaxUint64 then inr TK_ErrOverflow
              else inl (mkTable (tk t) (<[min := mkTEntry item (c + 1)]> (slots t))
                          (<[item := min]> (delete (Item e) (idx t))))
          end
    end.

(** Count descending, then item bytes. *)
Definition chart_le (a b : TEntry) : Prop :=
  Count b < Count a \/ (Count a = Count b /\ bytes_le (Item a) (Item b)).
#[global] Instance chart_le_dec : RelDecision chart_le.
Proof. intros ??. unfold chart_le. apply _. Defined.

Definition TopK_List (t : Table) : list TEntry := merge_sort chart_le (slots t).

Definition trow (e : TEntry) : bytes := PutUvarint (Count e) ++ frame (Item e).
Definition TopK_Encode (t : Table) : bytes := concat (map trow (TopK_List t)).

Definition topk_decode_step (t : Table) (b : bytes) : option (Table * bytes) :=
  let '(count, n) := Uvarint b in
  if n <=? 0 then None
  else
    let b := drop (Z.to_nat n) b in
    if count =? 0 then None
    else
      let '(ln, n) := Uvarint b in
      if n <=? 0 then None
      else
        let b := drop (Z.to_nat n) b in
        if (ln =? 0) || (len b <? ln) then None
        else
          let item := take (Z.to_nat ln) b in
          let b := drop (Z.to_nat ln) b in
          match idx t !! item with
          | Some _ => None
          | None =>
              if tk t <=? len (slots t) then None
              else Some (mkTable (tk t) (slots t ++ [mkTEntry item count])
                           (<[item := length (slots t)]> (idx t)), b)
          end.

Definition TopK_Decode (b : bytes) (k : Z) : option Table :=
  match TopK_New k with
  | None => None
  | Some t => for_bytes topk_decode_step t b
  end.

(** The product is of type int: it wraps at 64 bits. *)
Definition WorstEncodedSize (k maxItem : Z) : Z :=
  if (k <? 1) || (maxItem <? 0) then 0 else i64 (u64 (k * (10 + uvarintSize maxItem + maxItem))).

(** ** The index invariant *)

Record table_wf (t : Table) : Prop := {
  tw_k : 1 <= tk t;
  tw_idx : forall x i, idx t !! x = Some i <-> Item <$> (slots t !! i) = Some x;
  tw_cap : len (slots t) <= tk t;
  tw_row : Forall (fun e => Item e <> [] /\ 1 <= Count e <= MaxUint64) (slots t);
}.

Lemma tw_unique t i j x :
  table_wf t -> Item <$> (slots t !! i) = Some x -> Item <$> (slots t !! j) = Some x -> i = j.
Proof.
  intros Hwf Hi Hj. apply (tw_idx _ Hwf) in Hi, Hj. congruence.
Qed.

Lemma TopK_New_wf k t : TopK_New k = Some t -> table_wf t.
Proof.
  unfold TopK_New. destruct (Z.ltb_spec k 1); [done|]. intros [= <-].
  split; simpl; [done| |rewrite len_nil; lia|constructor]. intros x i. by rewrite lookup_empty.
Qed.

Lemma slot_lt_trans a b c : slot_lt a b = true -> slot_lt b c = true -> slot_lt a c = true.
Proof.
  unfold slot_lt, bytes_ltb. rewrite !orb_true_iff, !andb_true_iff, !Z.ltb_lt, !Z.eqb_eq.
  intros [?|[? H1]] [?|[? H2]]; try (left; lia). right. split; [lia|].
  destruct (bytes_compare (Item a) (Item b)) eqn:E1; try done.
  destruct (bytes_compare (Item b) (Item c)) eqn:E2; try done.
  by rewrite (bytes_compare_lt_trans _ _ _ E1 E2).
Qed.

Lemma min_loop_spec rest i min best l :
  l !! min = Some best -> (forall j e, (j < i)%nat -> l !! j = Some e -> slot_lt e best = false) ->
  drop i l = rest ->
  exists e, l !! (min_loop rest i min best) = Some e /\
    forall j e', l !! j = Some e' -> slot_lt e' e = false.
Proof.
  revert i min best. induction rest as [|x rest IH]; intros i min best Hm Hle Hd; simpl.
  - exists best. split; [done|]. intros j e' Hj. apply (Hle j e'); [|done].
    apply lookup_lt_Some in Hj. apply (f_equal length) in Hd. rewrite length_drop in Hd. simpl in Hd. lia.
  - assert (Hx : l !! i = Some x) by (rewrite <- (Nat.add_0_r i), <- lookup_drop, Hd; done).
    assert (Hd' : drop (S i) l = rest).
    { replace (S i) with (i + 1)%nat by lia. rewrite <- drop_drop, Hd. done. }
    destruct (slot_lt x best) eqn:E; eapply IH; try done.
    + intros j e Hj He. destruct (decide (j = i)) as [->|].
      * simplify_eq. unfold slot_lt. rewrite Z.ltb_irrefl, Z.eqb_refl. simpl.
        unfold bytes_ltb. by rewrite (proj2 (bytes_compare_eq _ _) eq_refl).
      * specialize (Hle j e ltac:(lia) He). apply not_true_is_false. intros Hex.
        apply not_true_iff_false in Hle. apply Hle. by eapply slot_lt_trans.
    + intros j e Hj He. destruct (decide (j = i)) as [->|]; [by simplify_eq|].
      apply (Hle j e); [lia|done].
Qed.

(** The victim is minimal: no slot has a lower count, or an equal count and
    smaller item bytes. *)
Lemma minSlot_spec t :
  slots t <> [] ->
  exists e, slots t !! minSlot t = Some e /\
    forall e', e' ∈ slots t -> slot_lt e' e = false.
Proof.
  intros Hne. unfold minSlot. destruct (slots t) as [|x rest] eqn:E; [done|].
  destruct (min_loop_spec rest 1 0 x (x :: rest)) as (e & He & Hmin); [done| |done|].
  - intros j e Hj He. destruct j; [|lia]. simplify_eq/=. unfold slot_lt.
    rewrite Z.ltb_irrefl, Z.eqb_refl. simpl. unfold bytes_ltb.
    by rewrite (proj2 (bytes_compare_eq _ _) eq_refl).
  - exists e. split; [done|]. intros e' [j Hj]%list_elem_of_lookup. by eapply Hmin.
Qed.

Lemma slot_lt_count a b : slot_lt a b = false -> Count b <= Count a.
Proof. unfold slot_lt. intros [H _]%orb_false_iff. by apply Z.ltb_ge. Qed.

(** The three ways an observation can succeed. *)
Inductive add_case (t : Table) (item : bytes) : Table -> Prop :=
| add_hit i e :
    slots t !! i = Some e -> Item e = item -> Count e < MaxUint64 ->
    add_case t item (mkTable (tk t) (<[i := mkTEntry item (Count e + 1)]> (slots t)) (idx t))
| add_room :
    (forall e, e ∈ slots t -> Item e <> item) -> len (slots t) < tk t ->
    add_case t item (mkTable (tk t) (slots t ++ [mkTEntry item 1])
                       (<[item := length (slots t)]> (idx t)))
| add_evict min e :
    (forall e, e ∈ slots t -> Item e <> item) -> len (slots t) = tk t ->
    slots t !! min = Some e -> (forall e', e' ∈ slots t -> Count e <= Count e') ->
    Count e < MaxUint64 ->
    add_case t item (mkTable (tk t) (<[min := mkTEntry item (Count e + 1)]> (slots t))
                       (<[item := min]> (delete (Item e) (idx t)))).

Lemma idx_none t x : table_wf t -> idx t !! x = None <-> forall e, e ∈ slots t -> Item e <> x.
Proof.
  intros Hwf. split.
  - intros Hn e [i Hi]%list_elem_of_lookup Hx.
    assert (idx t !! x = Some i); [|congruence]. apply (tw_idx _ Hwf). by rewrite Hi, <- Hx.
  - intros Hn. destruct (idx t !! x) as [i|] eqn:E; [|done]. apply (tw_idx _ Hwf) in E.
    destruct (slots t !! i) as [e|] eqn:Ei; [|done]. simplify_eq/=.
    exfalso. eapply Hn; [|done]. by eapply list_elem_of_lookup_2.
Qed.

Lemma row_bound t i e : table_wf t -> slots t !! i = Some e -> Item e <> [] /\ 1 <= Count e <= MaxUint64.
Proof. intros Hwf Hi. pose proof (tw_row _ Hwf) as Hr. rewrite Forall_lookup in Hr. by eapply Hr. Qed.

Lemma TopK_Add_case t item t' : table_wf t -> TopK_Add t item = inl t' -> item <> [] /\ add_case t item t'.
Proof.
  intros Hwf. unfold TopK_Add. destruct (Z.eqb_spec (len item) 0) as [|Hne]; [done|].
  assert (Hi : item <> []) by (intros ->; done).
  destruct (idx t !! item) as [i|] eqn:Ei.
  - apply (tw_idx _ Hwf) in Ei. destruct (slots t !! i) as [e|] eqn:Es; [|done]. simplify_eq/=.
    destruct (row_bound _ _ _ Hwf Es) as [_ ?].
    destruct (Z.eqb_spec (Count e) MaxUint64); [done|]. intros [= <-]. split; [done|].
    apply add_hit; [done|done|lia].
  - pose proof (proj1 (idx_none _ _ Hwf) Ei) as Hnew.
    destruct (Z.ltb_spec (len (slots t)) (tk t)); [intros [= <-]; split; [done|by apply add_room]|].
    pose proof (tw_cap _ Hwf). pose proof (tw_k _ Hwf).
    destruct (minSlot_spec t) as (e & Hm & Hmin).
    { intros E. rewrite E, len_nil in *. lia. }
    cbv zeta. rewrite Hm. destruct (row_bound _ _ _ Hwf Hm) as [_ ?].
    destruct (Z.eqb_spec (Count e) MaxUint64); [done|]. intros [= <-]. split; [done|].
    apply add_evict; [done|lia|done| |lia]. intros e' He'. by apply slot_lt_count, Hmin.
Qed.

(** Adding keeps the index and the slots in step. *)
Lemma TopK_Add_wf t item t' : table_wf t -> TopK_Add t item = inl t' -> table_wf t'.
Proof.
  intros Hwf Ht. pose proof (TopK_Add_case _ _ _ Hwf Ht) as [Hne Hc].
  pose proof (tw_row _ Hwf) as Hrow.
  destruct Hc as [i e Hi Hitem Hc|Hnew Hlt|m e Hnew Hfull Hm Hmin Hc]; split; simpl.
  - apply Hwf.
  - intros x j. rewrite (tw_idx _ Hwf), list_lookup_insert. case_decide as D; [|done].
    destruct D as [-> _]. by rewrite Hi, <- Hitem.
  - unfold len. rewrite length_insert. apply Hwf.
  - apply Forall_insert; [done|]. simpl. destruct (row_bound _ _ _ Hwf Hi). split; [done|lia].
  - apply Hwf.
  - intros x j. destruct (decide (x = item)) as [->|Hx].
    + rewrite lookup_insert_eq. split; [intros [= <-]; by rewrite lookup_app_r, Nat.sub_diag by lia|].
      destruct (decide (j < length (slots t))%nat).
      * rewrite lookup_app_l by done. destruct (slots t !! j) as [e|] eqn:Ej; [|done]. intros [= E].
        exfalso. eapply Hnew; [|done]. by eapply list_elem_of_lookup_2.
      * destruct (decide (j = length (slots t))) as [->|]; [done|].
        rewrite lookup_ge_None_2; [done|]. rewrite length_app. simpl. lia.
    + rewrite lookup_insert_ne, (tw_idx _ Hwf) by done.
      destruct (decide (j < length (slots t))%nat); [by rewrite lookup_app_l|].
      rewrite (lookup_ge_None_2 (slots t)) by lia. rewrite lookup_app_r by lia.
      destruct (j - length (slots t))%nat as [|[|]]; simpl; [|done|done].
      split; [done|intros [= <-]; done].
  - unfold len in *. rewrite length_app. simpl. lia.
  - apply Forall_app. split; [done|]. repeat constructor; simpl; [done|lia|unfold MaxUint64; lia].
  - apply Hwf.
  - intros x j. assert (Hml : (m < length (slots t))%nat) by (by eapply lookup_lt_Some).
    rewrite list_lookup_insert. destruct (decide (x = item)) as [->|Hx].
    + rewrite lookup_insert_eq. case_decide as D; [destruct D as [-> _]; done|].
      split; [intros [= <-]; tauto|]. destruct (slots t !! j) as [e'|] eqn:Ej; [|done]. intros [= E].
      exfalso. eapply Hnew; [|done]. by eapply list_elem_of_lookup_2.
    + rewrite lookup_insert_ne by done. destruct (decide (x = Item e)) as [->|Hxe].
      * rewrite lookup_delete_eq. split; [done|]. case_decide as D; [intros [= E]; congruence|].
        intros Hj. exfalso. apply D. split; [|done].
        eapply tw_unique; [done| |exact Hj]. by rewrite Hm.
      * rewrite lookup_delete_ne, (tw_idx _ Hwf) by done. case_decide as D; [|done].
        destruct D as [<- _]. rewrite Hm. simpl. split; intros [= <-]; done.
  - unfold len in *. rewrite length_insert. lia.
  - apply Forall_insert; [done|]. simpl. destruct (row_bound _ _ _ Hwf Hm). split; [done|lia].
Qed.

(** ** The Space-Saving guarantees *)

Fixpoint adds (t : Table) (hist : list bytes) : option Table :=
  match hist with
  | [] => Some t
  | x :: hist => match TopK_Add t x with inl t => adds t hist | inr _ => None end
  end.

Definition freq (x : bytes) (hist : list bytes) : Z :=
  zsum (map (fun y => if bool_decide (y = x) then 1 else 0) hist).

Lemma freq_snoc x y hist : freq x (hist ++ [y]) = freq x hist + (if bool_decide (y = x) then 1 else 0).
Proof. unfold freq. rewrite map_app, zsum_app. unfold zsum at 2. simpl. lia. Qed.

Lemma freq_nonneg x hist : 0 <= freq x hist.
Proof. unfold freq. apply zsum_nonneg, Forall_fmap, Forall_true. intros y. simpl. case_match; lia. Qed.

Definition counts (t : Table) : Z := zsum (map Count (slots t)).

Record space_saving (t : Table) (hist : list bytes) : Prop := {
  ss_wf : table_wf t;
  ss_sum : counts t = len hist;
  ss_over : forall e, e ∈ slots t -> freq (Item e) hist <= Count e;
  ss_min : forall x, (forall e, e ∈ slots t -> Item e <> x) ->
    (forall e, e ∈ slots t -> freq x hist <= Count e) /\ (len (slots t) < tk t -> freq x hist = 0);
}.

Lemma zsum_insert (l : list Z) i x y : l !! i = Some x -> zsum (<[i := y]> l) = zsum l - x + y.
Proof.
  revert i. induction l as [|a l IH]; intros [|i] Hi; simplify_eq/=; unfold zsum in *; simpl; [lia|].
  rewrite (IH _ Hi). lia.
Qed.

Lemma counts_insert l i e e' :
  l !! i = Some e -> zsum (map Count (<[i := e']> l)) = zsum (map Count l) - Count e + Count e'.
Proof.
  intros Hi. change (map Count) with (fmap (M := list) Count). rewrite list_fmap_insert.
  apply zsum_insert. by rewrite list_lookup_fmap, Hi.
Qed.

Lemma elem_of_insert (l : list TEntry) i e e' x :
  l !! i = Some e -> x ∈ <[i := e']> l -> x = e' \/ (x ∈ l /\ exists j, j <> i /\ l !! j = Some x).
Proof.
  intros Hi [j Hj]%list_elem_of_lookup. rewrite list_lookup_insert in Hj. case_decide as D.
  - simplify_eq. by left.
  - right. split; [by eapply list_elem_of_lookup_2|]. exists j. split; [|done].
    intros ->. apply D. split; [done|]. by eapply lookup_lt_Some.
Qed.

Lemma elem_of_insert_self (l : list TEntry) i e e' : l !! i = Some e -> e' ∈ <[i := e']> l.
Proof.
  intros Hi. apply (list_elem_of_lookup_2 _ i). apply list_lookup_insert_eq. by eapply lookup_lt_Some.
Qed.

Lemma elem_of_insert_other (l : list TEntry) i j e e' x :
  l !! i = Some e -> l !! j = Some x -> x <> e -> x ∈ <[i := e']> l.
Proof.
  intros Hi Hj Hne. apply (list_elem_of_lookup_2 _ j). rewrite list_lookup_insert_ne; [done|].
  intros ->. congruence.
Qed.

(** An observation of an item already in the table. *)
Lemma ss_hit t hist item i e :
  space_saving t hist -> slots t !! i = Some e -> Item e = item ->
  table_wf (mkTable (tk t) (<[i := mkTEntry item (Count e + 1)]> (slots t)) (idx t)) ->
  space_saving (mkTable (tk t) (<[i := mkTEntry item (Count e + 1)]> (slots t)) (idx t)) (hist ++ [item]).
Proof.
  intros [Hwf Hsum Hover Hmin] Hi Hitem Hwf'. pose proof (list_elem_of_lookup_2 _ _ _ Hi) as Hin.
  split; [done| | |]; simpl.
  - unfold counts in *. simpl. rewrite (counts_insert _ _ _ _ Hi), Hsum, len_app. simpl.
    unfold len. simpl. lia.
  - intros e' [->|(He' & j & Hj & Hl)]%(elem_of_insert _ _ _ _ _ Hi); rewrite freq_snoc; simpl.
    + rewrite bool_decide_true by done. specialize (Hover e Hin). rewrite Hitem in Hover. lia.
    + rewrite bool_decide_false; [specialize (Hover e' He'); lia|]. intros E. apply Hj.
      eapply tw_unique; [exact Hwf|by rewrite Hl|]. rewrite Hi. simpl. congruence.
  - intros x Hx. assert (Hxi : item <> x).
    { apply (Hx (mkTEntry item (Count e + 1))). by eapply elem_of_insert_self. }
    rewrite freq_snoc, bool_decide_false by done. rewrite Z.add_0_r. unfold len. rewrite length_insert.
    destruct (Hmin x) as [H1 H2].
    { intros e' [j Hj]%list_elem_of_lookup E. destruct (decide (e' = e)) as [->|]; [congruence|].
      apply (Hx e'); [by eapply elem_of_insert_other|done]. }
    split; [|done].
    intros e' [->|(He' & _)]%(elem_of_insert _ _ _ _ _ Hi); [specialize (H1 e Hin); simpl; lia|by apply H1].
Qed.

(** A new item while there is room. *)
Lemma ss_room t hist item :
  space_saving t hist -> (forall e, e ∈ slots t -> Item e <> item) -> len (slots t) < tk t ->
  table_wf (mkTable (tk t) (slots t ++ [mkTEntry item 1]) (<[item := length (slots t)]> (idx t))) ->
  space_saving (mkTable (tk t) (slots t ++ [mkTEntry item 1]) (<[item := length (slots t)]> (idx t)))
    (hist ++ [item]).
Proof.
  intros [Hwf Hsum Hover Hmin] Hnew Hlt Hwf'. split; [done| | |]; simpl.
  - unfold counts in *. simpl. rewrite map_app, zsum_app, Hsum, len_app. unfold zsum, len. simpl. lia.
  - intros e' [He'| ->%list_elem_of_singleton]%elem_of_app; rewrite freq_snoc; simpl.
    + rewrite bool_decide_false by (intros E; by eapply Hnew). specialize (Hover e' He'). lia.
    + rewrite bool_decide_true by done. destruct (Hmin item Hnew) as [_ Hz]. rewrite Hz by done. lia.
  - intros x Hx. assert (Hxi : item <> x).
    { apply (Hx (mkTEntry item 1)). apply elem_of_app. right. by constructor. }
    rewrite freq_snoc, bool_decide_false by done. rewrite Z.add_0_r.
    destruct (Hmin x) as [H1 H2]; [intros e He; apply Hx, elem_of_app; by left|].
    rewrite H2 by done. split; [|done].
    intros e' [He'| ->%list_elem_of_singleton]%elem_of_app; [|simpl; lia].
    destruct (list_elem_of_lookup_1 _ _ He') as [j Hj].
    destruct (row_bound _ _ _ Hwf Hj). lia.
Qed.

(** A new item replaces the minimum of a full table. *)
Lemma ss_evict t hist item m e :
  space_saving t hist -> (forall e, e ∈ slots t -> Item e <> item) -> len (slots t) = tk t ->
  slots t !! m = Some e -> (forall e', e' ∈ slots t -> Count e <= Count e') ->
  table_wf (mkTable (tk t) (<[m := mkTEntry item (Count e + 1)]> (slots t))
              (<[item := m]> (delete (Item e) (idx t)))) ->
  space_saving (mkTable (tk t) (<[m := mkTEntry item (Count e + 1)]> (slots t))
                  (<[item := m]> (delete (Item e) (idx t)))) (hist ++ [item]).
Proof.
  intros [Hwf Hsum Hover Hmin] Hnew Hfull Hm Hle Hwf'. pose proof (list_elem_of_lookup_2 _ _ _ Hm) as Hin.
  split; [done| | |]; simpl.
  - unfold counts in *. simpl. rewrite (counts_insert _ _ _ _ Hm), Hsum, len_app. simpl.
    unfold len. simpl. lia.
  - intros e' [->|(He' & _)]%(elem_of_insert _ _ _ _ _ Hm); rewrite freq_snoc; simpl.
    + rewrite bool_decide_true by done. destruct (Hmin item Hnew) as [H1 _]. specialize (H1 e Hin). lia.
    + rewrite bool_decide_false by (intros E; by eapply Hnew). specialize (Hover e' He'). lia.
  - intros x Hx. assert (Hxi : item <> x).
    { apply (Hx (mkTEntry item (Count e + 1))). by eapply elem_of_insert_self. }
    rewrite freq_snoc, bool_decide_false by done. rewrite Z.add_0_r. unfold len. rewrite length_insert.
    split; [|intros; unfold len in *; lia].
    assert (Hall : forall e', e' ∈ slots t -> freq x hist <= Count e').
    { destruct (decide (Item e = x)) as [<-|Hne].
      - intros e' He'. specialize (Hover e Hin). specialize (Hle e' He'). lia.
      - apply Hmin. intros e' [j Hj]%list_elem_of_lookup E. destruct (decide (e' = e)) as [->|]; [congruence|].
        apply (Hx e'); [by eapply elem_of_insert_other|done]. }
    intros e' [->|(He' & _)]%(elem_of_insert _ _ _ _ _ Hm); [|by apply Hall].
    specialize (Hall e Hin). simpl. lia.
Qed.

Lemma TopK_Add_ss t hist item t' :
  space_saving t hist -> TopK_Add t item = inl t' -> space_saving t' (hist ++ [item]).
Proof.
  intros Hss Ht. pose proof (TopK_Add_wf _ _ _ (ss_wf _ _ Hss) Ht) as Hwf'.
  destruct (TopK_Add_case _ _ _ (ss_wf _ _ Hss) Ht) as [_ Hc]. clear Ht.
  destruct Hc; [by apply ss_hit|by apply ss_room|by apply ss_evict].
Qed.

Lemma adds_ss t hist hist' t' :
  space_saving t hist -> adds t hist' = Some t' -> space_saving t' (hist ++ hist').
Proof.
  revert t hist. induction hist' as [|x hist' IH]; intros t hist Hss; simpl.
  { intros [= <-]. by rewrite app_nil_r. }
  destruct (TopK_Add t x) as [t1|] eqn:E; [|done]. intros Ha.
  replace (hist ++ x :: hist') with ((hist ++ [x]) ++ hist') by (by rewrite <- app_assoc).
  eapply IH; [|done]. by eapply TopK_Add_ss.
Qed.

Lemma New_ss k t : TopK_New k = Some t -> space_saving t [].
Proof.
  intros Hn. split; [by eapply TopK_New_wf|..]; unfold TopK_New in Hn; case_match; simplify_eq; simpl.
  - done.
  - by intros e ?%elem_of_nil.
  - intros x _. split; [by intros e ?%elem_of_nil|done].
Qed.

(** Every count bounds [v] from above, so their sum bounds [v] per slot. *)
Lemma counts_lower (l : list TEntry) v :
  (forall e, e ∈ l -> v <= Count e) -> len l * v <= zsum (map Count l).
Proof.
  induction l as [|e l IH]; intros Hv; [unfold len, zsum; simpl; lia|].
  rewrite len_cons. unfold zsum in *. simpl. pose proof (Hv e ltac:(constructor)).
  specialize (IH (fun x Hx => Hv x (list_elem_of_further _ _ _ Hx))). lia.
Qed.

(** C39: the Space-Saving guarantee.  After any run of observations the counts
    sum to the number of observations, no listed item is underestimated, and
    every item observed more than N/k times is listed. *)
Theorem topk_space_saving k t0 hist t :
  TopK_New k = Some t0 -> adds t0 hist = Some t ->
  counts t = len hist /\
  (forall e, e ∈ slots t -> freq (Item e) hist <= Count e) /\
  (forall x, len hist < k * freq x hist -> exists e, e ∈ slots t /\ Item e = x).
Proof.
  intros Hn Ha. pose proof (adds_ss _ [] _ _ (New_ss _ _ Hn) Ha) as [Hwf Hsum Hover Hmin].
  assert (Hk : tk t = k).
  { clear -Hn Ha. assert (tk t0 = k) by (unfold TopK_New in Hn; case_match; by simplify_eq).
    revert t0 Hn H Ha. clear. intros t0 _ <-. revert t0. induction hist as [|x hist IH]; intros t0; simpl.
    { by intros [= <-]. }
    destruct (TopK_Add t0 x) as [t1|] eqn:E; [|done]. intros Ha%IH. rewrite Ha.
    unfold TopK_Add in E. repeat case_match; by simplify_eq. }
  split_and!; [done|done|]. intros x Hx.
  destruct (decide (Exists (fun e => Item e = x) (slots t))) as [He|Hne].
  { apply Exists_exists in He as (e & ? & ?). eauto. }
  exfalso. rewrite <- Forall_Exists_neg in Hne. rewrite Forall_forall in Hne.
  destruct (Hmin x Hne) as [H1 H2]. pose proof (counts_lower _ _ H1) as Hl.
  pose proof (freq_nonneg x hist). unfold counts in Hsum. simpl in Hsum, H2.
  destruct (Z.ltb_spec (len (slots t)) (tk t)) as [Hlt|Hge].
  - rewrite H2 in Hx by done. pose proof (len_nonneg hist). lia.
  - pose proof (tw_cap _ Hwf). assert (len (slots t) = k) as E by lia. rewrite E in Hl. simpl in *. lia.
Qed.

Lemma topk_space_saving_witness : exists t0 t,
  TopK_New 2 = Some t0 /\ adds t0 [[97]; [98]; [97]] = Some t /\
  (exists e, e ∈ slots t /\ Item e = [97]).
Proof.
  eexists _, _. split; [reflexivity|]. split; [reflexivity|].
  eapply (topk_space_saving 2 _ [[97]; [98]; [97]]); [reflexivity|reflexivity|]. vm_compute. reflexivity.
Defined.

(** ** Snapshots *)

#[global] Instance chart_le_total : Total chart_le.
Proof.
  intros a b. unfold chart_le. destruct (total bytes_le (Item a) (Item b)), (Z.lt_total (Count a) (Count b))
    as [?|[?|?]]; intuition lia.
Qed.

#[global] Instance chart_le_trans : Transitive chart_le.
Proof.
  intros a b c. unfold chart_le. intros [?|[? H1]] [?|[? H2]]; try (left; lia).
  right. split; [lia|]. by etrans.
Qed.

#[global] Instance chart_le_antisymm : AntiSymm (=) chart_le.
Proof.
  intros a b. unfold chart_le. intros [?|[? H1]] [?|[? H2]]; try lia.
  assert (Item a = Item b) by (by apply (anti_symm bytes_le)). destruct a, b; simpl in *; congruence.
Qed.

#[global] Instance topk_decode_step_consuming : Consuming topk_decode_step.
Proof.
  intros t b t' b'. unfold topk_decode_step. destruct (Uvarint b) as [c w] eqn:E1.
  destruct (Z.leb_spec w 0); [done|]. case_match; [done|].
  destruct (Uvarint (drop (Z.to_nat w) b)) as [ln w2] eqn:E2.
  destruct (Z.leb_spec w2 0); [done|]. case_match; [done|]. repeat case_match; try done.
  intros [= <- <-]. rewrite !length_drop. apply Uvarint_count in E1; [|done]. unfold len in E1. lia.
Qed.

Definition push_row (t : Table) (e : TEntry) : Table :=
  mkTable (tk t) (slots t ++ [e]) (<[Item e := length (slots t)]> (idx t)).

Lemma topk_step_row t e rest :
  idx t !! Item e = None -> len (slots t) < tk t -> Item e <> [] -> fits (Item e) ->
  1 <= Count e <= MaxUint64 ->
  topk_decode_step t (trow e ++ rest) = Some (push_row t e, rest).
Proof.
  intros Hi Hl Hne Hf Hc. unfold topk_decode_step, trow, frame. rewrite <- !app_assoc.
  rewrite Uvarint_PutUvarint by lia. rewrite PutUvarint_pos, drop_app_len.
  destruct (Z.eqb_spec (Count e) 0); [lia|].
  rewrite Uvarint_PutUvarint by (by apply fits_u64). rewrite PutUvarint_pos, drop_app_len, len_app.
  pose proof (len_pos _ Hne). pose proof (len_nonneg rest).
  destruct (Z.eqb_spec (len (Item e)) 0), (Z.ltb_spec (len (Item e) + len rest) (len (Item e))); try lia.
  cbn [orb]. rewrite take_app_len, drop_app_len, Hi.
  destruct (Z.leb_spec (tk t) (len (slots t))); [lia|]. by destruct e.
Qed.

Definition rows_ok (t : Table) (l : list TEntry) : Prop :=
  (forall e, e ∈ l -> idx t !! Item e = None) /\ NoDup (map Item l) /\
  len (slots t) + len l <= tk t /\
  Forall (fun e => Item e <> [] /\ fits (Item e) /\ 1 <= Count e <= MaxUint64) l.

Lemma decode_rows t l :
  rows_ok t l -> for_bytes topk_decode_step t (concat (map trow l)) = Some (fold_left push_row l t).
Proof.
  apply (for_bytes_concat _ trow push_row rows_ok). clear.
  intros t e l rest (Hi & Hnd & Hl & Hr). rewrite len_cons in Hl. pose proof (len_nonneg l).
  inv Hr. destruct H2 as (Hne & Hf & Hc). simpl in Hnd. inv Hnd. split_and!.
  - unfold trow. pose proof (PutUvarint_ne (Count e)). by destruct (PutUvarint _).
  - apply topk_step_row; try done; [|lia]. apply Hi. by constructor.
  - split_and!; [|done| |done].
    + intros e' He'. simpl. rewrite lookup_insert_ne; [apply Hi; by right|].
      intros E. match goal with H : Item e ∉ _ |- _ => apply H end. rewrite E.
      apply list_elem_of_fmap. eauto.
    + unfold push_row. simpl. rewrite len_app, len_cons, len_nil. lia.
Qed.

Lemma fold_push_row l t :
  slots (fold_left push_row l t) = slots t ++ l /\ tk (fold_left push_row l t) = tk t.
Proof.
  revert t. induction l as [|e l IH]; intros t; cbn [fold_left]; [by rewrite app_nil_r|].
  destruct (IH (push_row t e)) as [-> ->]. simpl. by rewrite <- app_assoc.
Qed.

Lemma slots_NoDup t : table_wf t -> NoDup (map Item (slots t)).
Proof.
  intros Hwf. apply NoDup_alt. intros i j x Hi Hj.
  change (map Item (slots t)) with (Item <$> slots t) in *.
  rewrite list_lookup_fmap in Hi, Hj. by eapply tw_unique.
Qed.

(** a snapshot restores the chart.  Decoding the encoding of a table with
    the same K gives a table with the same chart; the shrink-K, duplicate,
    zero-count and truncation checks never fire on an honest snapshot. *)
Theorem topk_snapshot_roundtrip t :
  table_wf t -> (forall e, e ∈ slots t -> fits (Item e)) ->
  exists t', TopK_Decode (TopK_Encode t) (tk t) = Some t' /\ tk t' = tk t /\
    slots t' = TopK_List t /\ TopK_List t' = TopK_List t.
Proof.
  intros Hwf Hf. unfold TopK_Decode, TopK_New. pose proof (tw_k _ Hwf).
  destruct (Z.ltb_spec (tk t) 1); [lia|].
  assert (Hp : TopK_List t ≡ₚ slots t) by apply merge_sort_Permutation.
  unfold TopK_Encode. rewrite decode_rows.
  - eexists. split; [done|]. destruct (fold_push_row (TopK_List t) (mkTable (tk t) [] ∅)) as [Hs ->].
    split_and!; [done|done|].
    change (merge_sort chart_le (slots (fold_left push_row (TopK_List t) (mkTable (tk t) [] ∅)))
            = TopK_List t). rewrite Hs. cbn [slots app].
    apply (merge_sort_fixed chart_le). apply (StronglySorted_merge_sort chart_le).
  - split_and!; simpl.
    + intros e _. apply lookup_empty.
    + change (map Item (TopK_List t)) with (Item <$> TopK_List t). rewrite Hp. by apply slots_NoDup.
    + unfold len. rewrite Hp. pose proof (tw_cap _ Hwf). unfold len in *. simpl. lia.
    + rewrite Hp. pose proof (tw_row _ Hwf) as Hr. rewrite Forall_forall in Hr |- *.
      intros e He. destruct (Hr e He). auto.
Qed.

Lemma topk_snapshot_roundtrip_witness : exists t t',
  adds (mkTable 2 [] ∅) [[97]; [98]; [97]] = Some t /\
  TopK_Decode (TopK_Encode t) (tk t) = Some t' /\ TopK_List t' = TopK_List t.
Proof.
  destruct (adds (mkTable 2 [] ∅) [[97]; [98]; [97]]) as [t|] eqn:E; [|done].
  assert (Hwf : table_wf t).
  { eapply ss_wf, (adds_ss _ [] _ _ (New_ss 2 _ eq_refl) E). }
  exists t. destruct (topk_snapshot_roundtrip t Hwf) as (t' & H1 & _ & _ & H2).
  { vm_compute in E. injection E as <-. intros e He. set_unfold.
    destruct He as [->|[->|[]]]; vm_compute; discriminate. }
  exists t'. auto.
Defined.

(** The encoded snapshot never exceeds the bound the keyspace validates. *)
Lemma uvarintSize_le_10 x : 0 <= x <= MaxUint64 -> uvarintSize x <= 10.
Proof.
  intros Hx. rewrite uvarintSize_exact by done. unfold PutUvarint.
  assert (H : forall n y, len (put_uvarint_loop n y) <= Z.of_nat n).
  { induction n as [|n IH]; intros y; cbn [put_uvarint_loop]; [done|].
    case_match; rewrite len_cons; [rewrite len_nil; lia|]. specialize (IH (Z.shiftr y 7)). lia. }
  apply (H 10%nat).
Qed.

Lemma uvarintSize_loop_mono f x y n :
  0 <= x <= y -> n <= uvarintSize_loop f x n <= uvarintSize_loop f y n.
Proof.
  revert x y n. induction f as [|f IH]; intros x y n Hxy; cbn [uvarintSize_loop]; [lia|].
  assert (0 <= Z.shiftr x 7 <= Z.shiftr y 7).
  { rewrite !Z.shiftr_div_pow2 by lia. split; [apply Z.div_pos; lia|apply Z.div_le_mono; lia]. }
  pose proof (IH (Z.shiftr x 7) (Z.shiftr y 7) (n + 1) ltac:(done)).
  destruct (Z.leb_spec 128 x), (Z.leb_spec 128 y); lia.
Qed.

Lemma uvarintSize_mono x y : 0 <= x <= y -> uvarintSize x <= uvarintSize y.
Proof. intros H. by apply uvarintSize_loop_mono. Qed.

(** K slots with items of at most maxItem bytes: the bound WorstEncodedSize
    computes, before it wraps. *)
Lemma TopK_Encode_bound t maxItem :
  table_wf t -> 0 <= maxItem <= MaxUint64 -> (forall e, e ∈ slots t -> len (Item e) <= maxItem) ->
  len (TopK_Encode t) <= tk t * (10 + uvarintSize maxItem + maxItem).
Proof.
  intros Hwf Hmax Hitem. pose proof (tw_k _ Hwf). pose proof (tw_cap _ Hwf) as Hcap.
  set (w := 10 + uvarintSize maxItem + maxItem).
  assert (Hw : 0 <= w).
  { unfold w. pose proof (uvarintSize_loop_mono 10 maxItem maxItem 1). unfold uvarintSize. lia. }
  unfold TopK_Encode. rewrite len_concat, map_map.
  assert (Hr : forall e, e ∈ slots t -> len (trow e) <= w).
  { intros e He. pose proof (tw_row _ Hwf) as Hrow. rewrite Forall_forall in Hrow.
    destruct (Hrow e He) as [_ Hc]. pose proof (Hitem e He). pose proof (len_nonneg (Item e)).
    unfold trow, w. rewrite len_app, frame_len, <- uvarintSize_exact by (unfold fits; lia).
    pose proof (uvarintSize_le_10 (Count e)). pose proof (uvarintSize_mono (len (Item e)) maxItem). lia. }
  assert (Hs : zsum (map (fun e => len (trow e)) (TopK_List t)) <= len (TopK_List t) * w).
  { assert (Hr' : forall e, e ∈ TopK_List t -> len (trow e) <= w).
    { intros e. unfold TopK_List. rewrite (merge_sort_elem chart_le). apply Hr. }
    revert Hr'. generalize (TopK_List t) as l. induction l as [|e l IH]; intros Hl; [done|].
    rewrite len_cons. unfold zsum in *. cbn [map foldr]. pose proof (Hl e ltac:(constructor)).
    specialize (IH (fun x Hx => Hl x (list_elem_of_further _ _ _ Hx))). lia. }
  unfold TopK_List in Hs at 2. rewrite (merge_sort_len chart_le) in Hs.
  assert (len (slots t) * w <= tk t * w) by (apply Z.mul_le_mono_nonneg_r; lia). lia.
Qed.
