(* ===== verification/Stream.v ===== *)
(** * Append-only logs: pkg/stream

    Ids are (millis, seq) pairs minted from the clock; the log keeps the last
    minted id beside its entries.  The theorems: ids stay strictly increasing
    even when the clock goes backwards, the hard cap holds, ranges are windows
    of the log, and snapshots, inbox payloads and textual ids round-trip. *)
From S2P Require Import Prelude Wire.

Definition HardCap : Z := 4096.
Definition DefaultMax : Z := 512.
Definition PrefixSnapshot : byte := 83.
Definition PrefixAdd : byte := 65.
Definition PrefixDel : byte := 68.
Definition PrefixTrim : byte := 84.

Record SEntry := mkSEntry { Ms : Z; Seq : Z; Payload : bytes }.

Record Log := mkLog { LastMs : Z; LastSeq : Z; Entries : list SEntry }.

Inductive stream_err := S_BadBlob | S_BadID | S_Full.

Definition Log_New : Log := mkLog 0 0 [].

(** ** Ids *)

Definition FormatID (ms seq : Z) : bytes := FormatUint ms ++ [45] ++ FormatUint seq.

(** strings.IndexByte *)
Fixpoint IndexByte (s : bytes) (c : byte) : Z :=
  match s with
  | [] => -1
  | x :: s => if x =? c then 0 else let i := IndexByte s c in if i <? 0 then -1 else i + 1
  end.

Definition ParseID (s : bytes) : option (Z * Z) :=
  let i := IndexByte s 45 in
  if (i <=? 0) || (i =? len s - 1) then None
  else
    match ParseUint (take (Z.to_nat i) s) with
    | None => None
    | Some ms =>
        match ParseUint (drop (Z.to_nat (i + 1)) s) with
        | None => None
        | Some seq => Some (ms, seq)
        end
    end.

Record Bound := mkBound { b_Ms : Z; b_Seq : Z; Exclusive : bool; IsMin : bool; IsMax : bool }.

Definition ParseBound (s : bytes) (isStart : bool) : option Bound :=
  if bool_decide (s = []) || bool_decide (s = [45]) then Some (mkBound 0 0 false true false)
  else if bool_decide (s = [43]) then Some (mkBound 0 0 false false true)
  else
    let cont (ex : bool) (s : bytes) :=
      if IndexByte s 45 <? 0 then
        match ParseUint s with
        | None => None
        | Some ms => Some (mkBound ms (if isStart then 0 else MaxUint64) ex false false)
        end
      else
        match ParseID s with
        | None => None
        | Some (ms, seq) => Some (mkBound ms seq ex false false)
        end in
    match s with
    | 40 :: s => if negb isStart then None else match s with [] => None | _ => cont true s end
    | _ => cont false s
    end.

Definition cmpID (ms seq oms oseq : Z) : Z :=
  if ms <? oms then -1 else if oms <? ms then 1
  else if seq <? oseq then -1 else if oseq <? seq then 1 else 0.

Definition below (b : Bound) (ms seq : Z) : bool :=
  if IsMin b then false
  else if IsMax b then true
  else
    let c := cmpID ms seq (b_Ms b) (b_Seq b) in
    if Exclusive b then c <=? 0 else c <? 0.

Definition above (b : Bound) (ms seq : Z) : bool :=
  if IsMax b then false
  else if IsMin b then true
  else 0 <? cmpID ms seq (b_Ms b) (b_Seq b).

Definition ClampCount (n : Z) : Z := if n <=? 0 then 0 else if DefaultMax <? n then DefaultMax else n.

(** ** Log operations *)

Definition Mint (l : Log) (now : Z) : Z * Z :=
  let now := if now <? LastMs l then LastMs l else now in
  if now =? LastMs l then (now, LastSeq l +u 1) else (now, 0).

Definition Trim (l : Log) (maxLen : Z) : Log :=
  if maxLen <? 0 then l
  else if maxLen =? 0 then mkLog (LastMs l) (LastSeq l) []
  else if maxLen <? len (Entries l)
  then mkLog (LastMs l) (LastSeq l) (drop (Z.to_nat (len (Entries l) - maxLen)) (Entries l))
  else l.

Definition Append (l : Log) (payload : bytes) (now autoTrim : Z) : (bytes * Log) + stream_err :=
  if (autoTrim <=? 0) && (HardCap <=? len (Entries l)) then inr S_Full
  else
    let '(ms, seq) := Mint l now in
    let l := mkLog ms seq (Entries l ++ [mkSEntry ms seq payload]) in
    let l := if 0 <? autoTrim then Trim l autoTrim else l in
    let l := if HardCap <? len (Entries l) then Trim l HardCap else l in
    inl (FormatID ms seq, l).

Definition Log_Del (l : Log) (ms seq : Z) : Log :=
  mkLog (LastMs l) (LastSeq l)
    (filter (fun e => negb ((Ms e =? ms) && (Seq e =? seq)) = true) (Entries l)).

(** The scan with its early exit once [count] entries are collected. *)
Fixpoint range_scan (es : list SEntry) (st en : Bound) (count : Z) (out : list SEntry) : list SEntry :=
  match es with
  | [] => out
  | e :: es =>
      if below st (Ms e) (Seq e) || above en (Ms e) (Seq e) then range_scan es st en count out
      else
        let out := out ++ [e] in
        if (0 <? count) && (count <=? len out) then out else range_scan es st en count out
  end.

Definition Log_Range (l : Log) (st en : Bound) (count : Z) (rev : bool) : list SEntry :=
  let count := ClampCount count in
  if negb rev then range_scan (Entries l) st en count []
  else range_scan (reverse (Entries l)) st en count [].

(** ** Codec *)

Definition sentry (e : SEntry) : bytes := PutUvarint (Ms e) ++ PutUvarint (Seq e) ++ frame (Payload e).

Definition Log_Encode (l : Log) : bytes :=
  [PrefixSnapshot] ++ PutUvarint (LastMs l) ++ PutUvarint (LastSeq l)
  ++ PutUvarint (len (Entries l)) ++ concat (map sentry (Entries l)).

Definition suvarint (p : bytes) : option (Z * bytes) :=
  let '(v, n) := Uvarint p in if n <=? 0 then None else Some (v, drop (Z.to_nat n) p).

Definition decode_sentry (p : bytes) : option (SEntry * bytes) :=
  match suvarint p with
  | None => None
  | Some (ms, p) =>
      match suvarint p with
      | None => None
      | Some (seq, p) =>
          match suvarint p with
          | None => None
          | Some (plen, p) =>
              if len p <? plen then None
              else Some (mkSEntry ms seq (take (Z.to_nat plen) p), drop (Z.to_nat plen) p)
          end
      end
  end.

(** for i := 0; i < n; i++ *)
Fixpoint decode_sentries (n : nat) (p : bytes) : option (list SEntry * bytes) :=
  match n with
  | O => Some ([], p)
  | S n =>
      match decode_sentry p with
      | None => None
      | Some (e, p) =>
          match decode_sentries n p with
          | None => None
          | Some (es, p) => Some (e :: es, p)
          end
      end
  end.

Definition DecodeSnapshot (blob : bytes) : option Log :=
  match blob with
  | [] => None
  | c :: p =>
      if negb (c =? PrefixSnapshot) then None
      else
        match suvarint p with
        | None => None
        | Some (lastMs, p) =>
            match suvarint p with
            | None => None
            | Some (lastSeq, p) =>
                match suvarint p with
                | None => None
                | Some (n, p) =>
                    if HardCap <? n then None
                    else
                      match decode_sentries (Z.to_nat n) p with
                      | Some (es, []) => Some (mkLog lastMs lastSeq es)
                      | _ => None
                      end
                end
            end
        end
  end.

(** Inbox payloads: one prefix byte, then a framed payload or id, or a count. *)
Definition encode_inbox (prefix : byte) (payload : bytes) : bytes := prefix :: frame payload.

Definition decode_inbox (prefix : byte) (blob : bytes) : option bytes :=
  match blob with
  | [] => None
  | c :: p =>
      if negb (c =? prefix) then None
      else
        match suvarint p with
        | None => None
        | Some (n, p) => if len p <? n then None else Some (take (Z.to_nat n) p)
        end
  end.

Definition EncodeInboxAdd := encode_inbox PrefixAdd.
Definition DecodeInboxAdd := decode_inbox PrefixAdd.
Definition EncodeInboxDel := encode_inbox PrefixDel.
Definition DecodeInboxDel := decode_inbox PrefixDel.

Definition EncodeInboxTrim (maxLen : Z) : bytes := PrefixTrim :: PutUvarint (u64 maxLen).

Definition DecodeInboxTrim (blob : bytes) : option Z :=
  match blob with
  | [] => None
  | c :: p =>
      if negb (c =? PrefixTrim) then None
      else
        match suvarint p with
        | Some (n, []) => if MaxInt64 <? n then None else Some n
        | _ => None
        end
  end.

(** ** Ids are strictly increasing *)

Definition id_lt (a b : Z * Z) : Prop := a.1 < b.1 \/ (a.1 = b.1 /\ a.2 < b.2).

#[global] Instance id_lt_trans : Transitive id_lt.
Proof. intros [a1 a2] [b1 b2] [c1 c2]. unfold id_lt. simpl. lia. Qed.

Definition eid (e : SEntry) : Z * Z := (Ms e, Seq e).
Definition last_id (l : Log) : Z * Z := (LastMs l, LastSeq l).

Record log_ok (l : Log) : Prop := {
  lo_sorted : StronglySorted id_lt (map eid (Entries l));
  lo_last : Forall (fun e => id_lt (eid e) (last_id l) \/ eid e = last_id l) (Entries l);
  lo_cap : len (Entries l) <= HardCap;
  lo_u64 : 0 <= LastMs l <= MaxUint64 /\ 0 <= LastSeq l <= MaxUint64;
  lo_rows : Forall (fun e => 0 <= Ms e <= MaxUint64 /\ 0 <= Seq e <= MaxUint64 /\ fits (Payload e)) (Entries l);
}.

Lemma Log_New_ok : log_ok Log_New.
Proof.
  split; simpl; [constructor|constructor|rewrite len_nil; unfold HardCap; lia
    |unfold MaxUint64; lia|constructor].
Qed.

(** The minted id is above the last one, whatever the clock says. *)
Lemma Mint_spec l now :
  0 <= LastSeq l < MaxUint64 -> 0 <= LastMs l <= MaxUint64 -> 0 <= now <= MaxUint64 ->
  id_lt (last_id l) (Mint l now) /\ 0 <= (Mint l now).1 <= MaxUint64 /\ 0 <= (Mint l now).2 <= MaxUint64 /\
  now <= (Mint l now).1.
Proof.
  intros Hs Hl Hn. unfold Mint, id_lt, last_id. cbv zeta.
  destruct (Z.ltb_spec now (LastMs l)).
  - rewrite Z.eqb_refl. simpl. rewrite u64_succ by lia. lia.
  - destruct (Z.eqb_spec now (LastMs l)); simpl; rewrite ?u64_succ by lia; unfold MaxUint64 in *; lia.
Qed.

Lemma sorted_snoc (es : list SEntry) x :
  StronglySorted id_lt (map eid es) -> Forall (fun e => id_lt (eid e) (eid x)) es ->
  StronglySorted id_lt (map eid (es ++ [x])).
Proof.
  induction es as [|e es IH]; simpl; intros Hs Hx; [repeat constructor|].
  inv Hs. inv Hx. constructor; [auto|]. rewrite map_app. apply Forall_app. split; [done|].
  simpl. by apply Forall_singleton.
Qed.

Lemma sorted_drop (es : list SEntry) n :
  StronglySorted id_lt (map eid es) -> StronglySorted id_lt (map eid (drop n es)).
Proof.
  revert n. induction es as [|e es IH]; intros [|n] Hs; simpl; try done. inv Hs. by apply IH.
Qed.

(** Trim keeps a suffix: the newest [maxLen] entries. *)
Lemma Trim_entries l maxLen :
  0 <= maxLen ->
  Entries (Trim l maxLen) = drop (Z.to_nat (len (Entries l) - maxLen)) (Entries l) /\
  last_id (Trim l maxLen) = last_id l.
Proof.
  intros Hm. unfold Trim. destruct (Z.ltb_spec maxLen 0); [lia|]. destruct (Z.eqb_spec maxLen 0) as [->|].
  - simpl. rewrite Z.sub_0_r. unfold len. rewrite Nat2Z.id, drop_all. done.
  - destruct (Z.ltb_spec maxLen (len (Entries l))); simpl; [done|]. split; [|done].
    replace (Z.to_nat (len (Entries l) - maxLen)) with 0%nat by lia. by rewrite drop_0.
Qed.

Lemma Trim_len l maxLen : 0 <= maxLen -> len (Entries (Trim l maxLen)) = Z.min maxLen (len (Entries l)).
Proof.
  intros Hm. rewrite (proj1 (Trim_entries l maxLen Hm)). unfold len. rewrite length_drop. lia.
Qed.

(** Everything but the cap, which an append may exceed before it trims. *)
Definition log_ids_ok (l : Log) : Prop :=
  StronglySorted id_lt (map eid (Entries l)) /\
  Forall (fun e => id_lt (eid e) (last_id l) \/ eid e = last_id l) (Entries l) /\
  (0 <= LastMs l <= MaxUint64 /\ 0 <= LastSeq l <= MaxUint64) /\
  Forall (fun e => 0 <= Ms e <= MaxUint64 /\ 0 <= Seq e <= MaxUint64 /\ fits (Payload e)) (Entries l).

Lemma log_ok_split l : log_ok l <-> log_ids_ok l /\ len (Entries l) <= HardCap.
Proof. split; [intros []|intros [(?&?&?&?) ?]]; split; try done. Qed.

Lemma Trim_ids_ok l maxLen : 0 <= maxLen -> log_ids_ok l -> log_ids_ok (Trim l maxLen).
Proof.
  intros Hm (H1 & H2 & H3 & H4). unfold log_ids_ok.
  destruct (Trim_entries l maxLen Hm) as [-> Hl]. rewrite Hl.
  injection Hl as -> ->. split_and!; auto using sorted_drop, Forall_drop; lia.
Qed.

Lemma push_ids_ok l payload now :
  log_ids_ok l -> LastSeq l < MaxUint64 -> 0 <= now <= MaxUint64 -> fits payload ->
  let '(ms, seq) := Mint l now in
  log_ids_ok (mkLog ms seq (Entries l ++ [mkSEntry ms seq payload])).
Proof.
  intros (H1 & H2 & H3 & H4) Hseq Hnow Hf.
  destruct (Mint_spec l now) as (Hlt & Hms & Hsq & _); [lia..|].
  destruct (Mint l now) as [ms seq]. simpl in Hms, Hsq.
  assert (Hall : Forall (fun e => id_lt (eid e) (ms, seq)) (Entries l)).
  { eapply Forall_impl; [exact H2|]. intros e [He|He]; simpl in He; [by etrans|by rewrite He]. }
  split_and!; simpl.
  - by apply sorted_snoc.
  - apply Forall_app. split; [|repeat constructor; by right].
    eapply Forall_impl; [exact Hall|]. intros e He. by left.
  - lia. - lia. - lia. - lia.
  - apply Forall_app. split; [done|]. repeat constructor; simpl; lia || done.
Qed.

Lemma drop_snoc_last {A} (l : list A) (x : A) n : (n <= length l)%nat -> last (drop n (l ++ [x])) = Some x.
Proof. intros Hn. rewrite drop_app_le by done. apply last_snoc. Qed.

(** A cut to a positive length keeps a suffix that still ends in the newest entry. *)
Lemma cut_ok (cut : bool) l c (es : list SEntry) x n :
  0 < c -> log_ids_ok l -> Entries l = drop n (es ++ [x]) -> (n <= length es)%nat ->
  let l' := if cut then Trim l c else l in
  log_ids_ok l' /\ last_id l' = last_id l /\
  exists n', Entries l' = drop n' (es ++ [x]) /\ (n' <= length es)%nat.
Proof.
  intros Hc Hok He Hn. destruct cut; cbv zeta; [|by eauto].
  destruct (Trim_entries l c) as [Ht Hl]; [lia|]. split_and!; [apply Trim_ids_ok; [lia|done]|done|].
  rewrite Ht, He, drop_drop. eexists. split; [done|].
  unfold len. rewrite length_drop, length_app. simpl. lia.
Qed.

Lemma Append_ok l payload now autoTrim id l' :
  log_ok l -> LastSeq l < MaxUint64 -> 0 <= now <= MaxUint64 -> fits payload ->
  Append l payload now autoTrim = inl (id, l') ->
  log_ok l' /\ id_lt (last_id l) (last_id l') /\ id = FormatID (LastMs l') (LastSeq l') /\
  exists n, Entries l' = drop n (Entries l ++ [mkSEntry (LastMs l') (LastSeq l') payload]) /\
            last (Entries l') = Some (mkSEntry (LastMs l') (LastSeq l') payload).
Proof.
  intros [Hids Hcap]%log_ok_split Hseq Hnow Hf. unfold Append.
  destruct ((autoTrim <=? 0) && (HardCap <=? len (Entries l))) eqn:Efull; [done|].
  pose proof (push_ids_ok l payload now Hids Hseq Hnow Hf) as Hp.
  destruct (Mint_spec l now) as (Hlt & _); [destruct Hids as (_ & _ & ? & _); lia..|].
  destruct (Mint l now) as [ms seq]. set (l1 := mkLog ms seq _) in *.
  pose proof (cut_ok (0 <? autoTrim) l1 (Z.max 1 autoTrim) (Entries l) (mkSEntry ms seq payload) 0
    ltac:(lia) Hp eq_refl ltac:(lia)) as H2. cbv zeta in H2.
  replace (if 0 <? autoTrim then Trim l1 (Z.max 1 autoTrim) else l1)
    with (if 0 <? autoTrim then Trim l1 autoTrim else l1) in H2
    by (destruct (Z.ltb_spec 0 autoTrim); [|done]; f_equal; lia).
  set (l2 := if 0 <? autoTrim then _ else _) in *. destruct H2 as (Hok2 & Hl2 & n & Hn & Hnl).
  pose proof (cut_ok (HardCap <? len (Entries l2)) l2 HardCap (Entries l) _ n eq_refl Hok2 Hn Hnl) as H3.
  cbv zeta in H3. assert (Hcap3 : len (Entries (if HardCap <? len (Entries l2) then Trim l2 HardCap else l2)) <= HardCap).
  { destruct (Z.ltb_spec HardCap (len (Entries l2))); [|done]. rewrite Trim_len; unfold HardCap; lia. }
  set (l3 := if HardCap <? len (Entries l2) then _ else _) in *. destruct H3 as (Hok3 & Hl3 & n' & Hn' & Hnl').
  intros [= <- <-]. rewrite Hl2 in Hl3. injection Hl3 as E1 E2. rewrite E1, E2.
  split; [by apply log_ok_split|]. unfold last_id at 2. rewrite E1, E2. split_and!; [done|done|].
  exists n'. split; [exact Hn'|]. rewrite Hn'. by apply drop_snoc_last.
Qed.

(** appending.  Whatever the wall clock does, an append that succeeds
    mints an id strictly above every id the log ever minted, keeps the ids
    sorted and the hard cap, and leaves the new entry as the newest one after
    a suffix of the old log. *)
Theorem stream_append_ok l payload now autoTrim id l' :
  log_ok l -> LastSeq l < MaxUint64 -> 0 <= now <= MaxUint64 -> fits payload ->
  Append l payload now autoTrim = inl (id, l') ->
  log_ok l' /\ id_lt (last_id l) (last_id l') /\ id = FormatID (LastMs l') (LastSeq l') /\
  exists n, Entries l' = drop n (Entries l ++ [mkSEntry (LastMs l') (LastSeq l') payload]) /\
            last (Entries l') = Some (mkSEntry (LastMs l') (LastSeq l') payload).
Proof. apply Append_ok. Qed.

Lemma stream_append_ok_witness : exists l',
  Append (mkLog 10 0 [mkSEntry 10 0 [1]]) [2] 7 0 = inl ([49; 48; 45; 49], l') /\
  id_lt (10, 0) (last_id l').
Proof.
  eexists. split; [reflexivity|].
  eapply (stream_append_ok (mkLog 10 0 [mkSEntry 10 0 [1]]) [2] 7 0); [| | | |reflexivity].
  - split; simpl; [repeat constructor|repeat constructor; by right|unfold len, HardCap; simpl; lia
      |unfold MaxUint64; lia|repeat constructor; simpl; unfold MaxUint64, fits, len; simpl; try lia; vm_compute; discriminate].
  - unfold MaxUint64. simpl. lia.
  - unfold MaxUint64. lia.
  - vm_compute. discriminate.
Defined.

(** ** Ranges *)

Definition in_window (st en : Bound) (e : SEntry) : Prop :=
  below st (Ms e) (Seq e) = false /\ above en (Ms e) (Seq e) = false.
#[global] Instance in_window_dec st en e : Decision (in_window st en e).
Proof. unfold in_window. apply _. Defined.

(** [count <= 0] is no limit. *)
Definition limit {A} (count : Z) (l : list A) : list A :=
  if count <=? 0 then l else take (Z.to_nat count) l.

Lemma range_scan_spec es st en count out :
  count <= 0 \/ len out < count ->
  range_scan es st en count out = limit count (out ++ filter (in_window st en) es).
Proof.
  revert out. induction es as [|e es IH]; intros out Ho; cbn [range_scan].
  { change (filter (in_window st en) []) with (@nil SEntry). rewrite app_nil_r. unfold limit. destruct (Z.leb_spec count 0); [done|].
    rewrite take_ge; [done|]. unfold len in Ho. lia. }
  rewrite filter_cons. destruct (below st (Ms e) (Seq e)) eqn:Eb; simpl.
  { rewrite decide_False by (unfold in_window; rewrite Eb; by intros [? _]). by apply IH. }
  destruct (above en (Ms e) (Seq e)) eqn:Ea; simpl.
  { rewrite decide_False by (unfold in_window; rewrite Ea; by intros [_ ?]). by apply IH. }
  rewrite decide_True by done. replace (out ++ e :: filter (in_window st en) es)
    with ((out ++ [e]) ++ filter (in_window st en) es) by (by rewrite <- app_assoc).
  assert (Hl : len (out ++ [e]) = len out + 1) by (rewrite len_app, len_cons, len_nil; lia).
  destruct (Z.ltb_spec 0 count); cbn [andb]; [|apply IH; lia].
  destruct (Z.leb_spec count (len (out ++ [e]))); [|apply IH; lia].
  unfold limit. destruct (Z.leb_spec count 0); [lia|].
  rewrite take_app_length'; [done|]. unfold len in *. lia.
Qed.

(** XRANGE and XREVRANGE return the entries inside the window, in log
    order or reversed, cut at the clamped count. *)
Theorem stream_range_window l st en count rev :
  Log_Range l st en count rev =
  limit (ClampCount count)
    (filter (in_window st en) (if rev then reverse (Entries l) else Entries l)).
Proof.
  unfold Log_Range. assert (H : ClampCount count <= 0 \/ len (@nil SEntry) < ClampCount count).
  { change (len (@nil SEntry)) with 0. unfold ClampCount. zcmp; unfold DefaultMax in *; lia. }
  destruct rev; simpl; by rewrite range_scan_spec.
Qed.

(** ** Round trips *)

Lemma suvarint_put x rest : 0 <= x <= MaxUint64 -> suvarint (PutUvarint x ++ rest) = Some (x, rest).
Proof.
  intros Hx. unfold suvarint. rewrite Uvarint_PutUvarint by done. by rewrite PutUvarint_pos, drop_app_len.
Qed.

Lemma decode_sentry_app e rest :
  0 <= Ms e <= MaxUint64 -> 0 <= Seq e <= MaxUint64 -> fits (Payload e) ->
  decode_sentry (sentry e ++ rest) = Some (e, rest).
Proof.
  intros Hm Hs Hp. unfold decode_sentry, sentry, frame. rewrite <- !app_assoc.
  rewrite !suvarint_put by (done || by apply fits_u64). rewrite len_app. pose proof (len_nonneg rest).
  destruct (Z.ltb_spec (len (Payload e) + len rest) (len (Payload e))); [lia|].
  rewrite take_app_len, drop_app_len. by destruct e.
Qed.

Lemma decode_sentries_concat es rest :
  Forall (fun e => 0 <= Ms e <= MaxUint64 /\ 0 <= Seq e <= MaxUint64 /\ fits (Payload e)) es ->
  decode_sentries (length es) (concat (map sentry es) ++ rest) = Some (es, rest).
Proof.
  induction 1 as [|e es (? & ? & ?) Hes IH]; [done|]. cbn [length map concat decode_sentries].
  rewrite <- app_assoc, decode_sentry_app by done. by rewrite IH.
Qed.

Lemma DecodeSnapshot_Encode l : log_ok l -> DecodeSnapshot (Log_Encode l) = Some l.
Proof.
  intros []. unfold DecodeSnapshot, Log_Encode. cbn [app]. rewrite Z.eqb_refl. cbn [negb].
  pose proof (len_nonneg (Entries l)).
  rewrite suvarint_put by lia. rewrite suvarint_put by lia.
  rewrite suvarint_put by (unfold HardCap, MaxUint64 in *; lia).
  destruct (Z.ltb_spec HardCap (len (Entries l))); [lia|].
  unfold len. rewrite Nat2Z.id, <- (app_nil_r (concat _)), decode_sentries_concat by done. by destruct l.
Qed.

Lemma decode_encode_inbox prefix payload :
  fits payload -> decode_inbox prefix (encode_inbox prefix payload) = Some payload.
Proof.
  intros Hf. unfold decode_inbox, encode_inbox, frame. rewrite Z.eqb_refl. cbn [negb].
  rewrite suvarint_put by (by apply fits_u64). rewrite Z.ltb_irrefl.
  unfold len. by rewrite Nat2Z.id, take_ge by lia.
Qed.

Lemma DecodeInboxTrim_Encode n : 0 <= n <= MaxInt64 -> DecodeInboxTrim (EncodeInboxTrim n) = Some n.
Proof.
  intros Hn. unfold DecodeInboxTrim, EncodeInboxTrim. rewrite Z.eqb_refl. cbn [negb].
  assert (0 <= n <= MaxUint64) by (unfold MaxInt64, MaxUint64 in *; lia).
  rewrite u64_small by done. rewrite <- (app_nil_r (PutUvarint n)), suvarint_put by done.
  by destruct (Z.ltb_spec MaxInt64 n); [lia|].
Qed.

Lemma IndexByte_app s t c : Forall (fun x => x <> c) s -> IndexByte (s ++ c :: t) c = len s.
Proof.
  induction 1 as [|x s Hx Hs IH]; simpl; [by rewrite Z.eqb_refl|].
  destruct (Z.eqb_spec x c); [done|]. rewrite IH, len_cons. pose proof (len_nonneg s).
  destruct (Z.ltb_spec (len s) 0); lia.
Qed.

Lemma FormatUint_no_dash n : Forall (fun x => x <> 45) (FormatUint n).
Proof.
  eapply Forall_impl; [apply FormatUint_digits|]. intros x Hx ->. vm_compute in Hx. done.
Qed.

Lemma FormatUint_ne n : FormatUint n <> [].
Proof. apply format_loop_ne. Qed.

Lemma ParseID_FormatID ms seq :
  0 <= ms <= MaxUint64 -> 0 <= seq <= MaxUint64 -> ParseID (FormatID ms seq) = Some (ms, seq).
Proof.
  intros Hm Hs. unfold ParseID, FormatID. cbn [app].
  rewrite IndexByte_app by apply FormatUint_no_dash.
  pose proof (len_pos _ (FormatUint_ne ms)). pose proof (len_pos _ (FormatUint_ne seq)).
  rewrite len_app, len_cons.
  destruct (Z.leb_spec (len (FormatUint ms)) 0); [lia|].
  destruct (Z.eqb_spec (len (FormatUint ms)) (len (FormatUint ms) + (1 + len (FormatUint seq)) - 1)); [lia|].
  cbn [orb]. rewrite take_app_len, ParseUint_Format by done.
  replace (FormatUint ms ++ 45 :: FormatUint seq) with ((FormatUint ms ++ [45]) ++ FormatUint seq)
    by (by rewrite <- app_assoc).
  replace (len (FormatUint ms) + 1) with (len (FormatUint ms ++ [45])) by (by rewrite len_app).
  by rewrite drop_app_len, ParseUint_Format.
Qed.

(** stream codecs round-trip.  A well-formed log survives the snapshot
    (the last minted id included), the three inbox forms that carry an append,
    a delete or a trim to the owner decode to what was sent, and textual ids
    parse back over the whole uint64 range. *)
Theorem stream_codecs :
  (forall l, log_ok l -> DecodeSnapshot (Log_Encode l) = Some l) /\
  (forall p, fits p -> DecodeInboxAdd (EncodeInboxAdd p) = Some p) /\
  (forall p, fits p -> DecodeInboxDel (EncodeInboxDel p) = Some p) /\
  (forall n, 0 <= n <= MaxInt64 -> DecodeInboxTrim (EncodeInboxTrim n) = Some n) /\
  (forall ms seq, 0 <= ms <= MaxUint64 -> 0 <= seq <= MaxUint64 ->
     ParseID (FormatID ms seq) = Some (ms, seq)).
Proof.
  split_and!; intros.
  - by apply DecodeSnapshot_Encode.
  - by apply decode_encode_inbox.
  - by apply decode_encode_inbox.
  - by apply DecodeInboxTrim_Encode.
  - by apply ParseID_FormatID.
Qed.
