(* ===== verification/Vecset.v ===== *)
(** * Vector sets: pkg/vecset/codec.go

    A float32 is its IEEE-754 bit pattern, a [Z] below [2^32].  The scores are
    computed in binary64 with the operations of the standard's specification
    (SpecFloat, round to nearest even, no fused multiply-add), as the amd64
    build does. *)
From Stdlib Require Import Floats.SpecFloat.
From S2P Require Import Prelude Wire Collections Scored.

(** ** float32 *)

Abbreviation float32 := Z (only parsing).

Definition f32_sign : Z := 2 ^ 31.
Definition f32_inf : Z := 0x7F800000.
Definition f32_mag (x : float32) : Z := x mod f32_sign.
Definition IsNaN32 (x : float32) : bool := f32_inf <? f32_mag x.
Definition IsInf32 (x : float32) : bool := f32_mag x =? f32_inf.
Definition is_f32 (x : float32) : Prop := 0 <= x < 2 ^ 32.

(** Sign-magnitude patterns ordered as integers; both zeros map to 0. *)
Definition f32_key (x : float32) : Z := if x <? f32_sign then f32_mag x else - f32_mag x.
Definition f32_lt (x y : float32) : bool := negb (IsNaN32 x) && negb (IsNaN32 y) && (f32_key x <? f32_key y).
Definition f32_eq (x y : float32) : bool := negb (IsNaN32 x) && negb (IsNaN32 y) && (f32_key x =? f32_key y).

Definition signed (s : bool) (m : Z) : Z := if s then - m else m.

(** float64(x) *)
Definition to64 (x : float32) : spec_float :=
  let s := negb (x <? f32_sign) in
  let e := f32_mag x / 2 ^ 23 in
  let f := f32_mag x mod 2 ^ 23 in
  if e =? 255 then if f =? 0 then S754_infinity s else S754_nan
  else if e =? 0 then binary_normalize 53 1024 (signed s f) (-149) s
  else binary_normalize 53 1024 (signed s (2 ^ 23 + f)) (e - 150) s.

(** float32(x): rounded to nearest even *)
Definition to32 (x : spec_float) : float32 :=
  let bit (s : bool) := if s then f32_sign else 0 in
  match x with
  | S754_nan => 0x7FC00000
  | S754_infinity s => bit s + f32_inf
  | S754_zero s => bit s
  | S754_finite s m e =>
      match binary_normalize 24 128 (signed s (Zpos m)) e s with
      | S754_nan => 0x7FC00000
      | S754_infinity s => bit s + f32_inf
      | S754_zero s => bit s
      | S754_finite s m e =>
          if Zpos m <? 2 ^ 23 then bit s + Zpos m else bit s + (e + 150) * 2 ^ 23 + (Zpos m - 2 ^ 23)
      end
  end.

Abbreviation add64 := (SFadd 53 1024).
Abbreviation sub64 := (SFsub 53 1024).
Abbreviation mul64 := (SFmul 53 1024).
Abbreviation div64 := (SFdiv 53 1024).
Abbreviation sqrt64 := (SFsqrt 53 1024).
Definition zero64 : spec_float := S754_zero false.
Definition is_zero64 (x : spec_float) : bool := match x with S754_zero _ => true | _ => false end.

(** ** Limits *)

Definition MinDim : Z := 2.
Definition MaxDim : Z := 256.
Definition MaxMembers : Z := 512.
Definition MaxMemberLen : Z := 255.
Definition DefaultK : Z := 10.
Definition MaxK : Z := 50.
Definition snapshotHeader : Z := 5.

Inductive Metric := MetricCosine | MetricL2 | MetricIP.

Definition VS_WorstEncodedSize (dim count idLen : Z) : Z :=
  let dim := if dim <? MinDim then MaxDim else dim in
  let idLen := if idLen <? 1 then MaxMemberLen else idLen in
  let count := if count <? 0 then MaxMembers else count in
  snapshotHeader + count * (1 + idLen + 4 * dim).

Definition ClampK (k : Z) : Z := if k <=? 0 then DefaultK else if MaxK <? k then MaxK else k.

Definition ValidDim (dim : Z) : bool := (MinDim <=? dim) && (dim <=? MaxDim).

(** [x != 0] is false for both zeros. *)
Definition IsZero (vec : list float32) : bool := forallb (fun x => f32_mag x =? 0) vec && negb (len vec =? 0).

Definition finite32 (x : float32) : bool := negb (IsNaN32 x) && negb (IsInf32 x).
Definition Finite (vec : list float32) : bool := forallb finite32 vec.

(** ** The set *)

Record VSet := mkVSet { Dim : Z; vals : gmap bytes (list float32) }.

Definition VS_NewSet (dim : Z) : VSet := mkVSet dim ∅.
Definition VS_Card (s : VSet) : Z := Z.of_nat (size (vals s)).
Definition VS_Emb (s : VSet) (member : bytes) : option (list float32) := vals s !! member.

Definition bad_member (member : bytes) : bool := (len member <? 1) || (MaxMemberLen <? len member).

(** [None] is any of errBadVec, errBadMember and errFull: every caller only
    tests for an error. *)
Definition VS_Add (s : VSet) (member : bytes) (vec : list float32) : option VSet :=
  if negb (ValidDim (Dim s)) || negb (len vec =? Dim s) || negb (Finite vec) then None
  else if bad_member member then None
  else if bool_decide (vals s !! member = None) && (MaxMembers <=? VS_Card s) then None
  else Some (mkVSet (Dim s) (<[member := vec]> (vals s))).

Definition VS_Rem (s : VSet) (member : bytes) : VSet := mkVSet (Dim s) (delete member (vals s)).

(** ** The snapshot *)

Definition put_floats (vec : list float32) : bytes := concat (map (le_encode 4) vec).

(** [byte(len(k))], the name and the vector. *)
Definition vs_record (kv : bytes * list float32) : bytes := [u8 (len kv.1)] ++ kv.1 ++ put_floats kv.2.

Definition VS_Encode (s : VSet) : bytes :=
  [83] ++ le_encode 2 (Dim s) ++ le_encode 2 (VS_Card s) ++ concat (map vs_record (by_key (vals s))).

(** [n] finite floats off the front. *)
Fixpoint get_floats (n : nat) (b : bytes) : option (list float32 * bytes) :=
  match n with
  | O => Some ([], b)
  | S n =>
      let x := le_decode (take 4 b) in
      if negb (finite32 x) then None
      else match get_floats n (drop 4 b) with
           | None => None
           | Some (vec, b) => Some (x :: vec, b)
           end
  end.

(** The body of DecodeSnapshot's loop on the blob from [off] on. *)
Definition vs_decode_step (s : VSet) (b : bytes) : option (VSet * bytes) :=
  match b with
  | [] => None
  | idLen :: b =>
      if (idLen <? 1) || (MaxMemberLen <? idLen) || (len b <? idLen + 4 * Dim s) then None
      else
        match get_floats (Z.to_nat (Dim s)) (drop (Z.to_nat idLen) b) with
        | None => None
        | Some (vec, rest) =>
            match VS_Add s (take (Z.to_nat idLen) b) vec with
            | None => None
            | Some s => Some (s, rest)
            end
        end
  end.

Fixpoint vs_decode_loop (n : nat) (s : VSet) (b : bytes) : option VSet :=
  match n with
  | O => match b with [] => Some s | _ :: _ => None end
  | S n => match vs_decode_step s b with None => None | Some (s, b) => vs_decode_loop n s b end
  end.

Definition VS_DecodeSnapshot (blob : bytes) : option VSet :=
  if (len blob <? snapshotHeader) || negb (default 0 (head blob) =? 83) then None
  else
    let dim := le_decode (take 2 (drop 1 blob)) in
    let count := le_decode (take 2 (drop 3 blob)) in
    if negb (ValidDim dim) || (count <? 0) || (MaxMembers <? count) then None
    else vs_decode_loop (Z.to_nat count) (VS_NewSet dim) (drop 5 blob).

(** ** Owner inbox *)

Definition VS_EncodeInboxAdd (member : bytes) (vec : list float32) : option bytes :=
  if bad_member member || negb (ValidDim (len vec)) || negb (Finite vec) then None
  else Some ([65; u8 (len member)] ++ member ++ put_floats vec).

Definition VS_EncodeInboxRem (member : bytes) : option bytes :=
  if bad_member member then None else Some (82 :: member).

Definition VS_DecodeInboxAdd (blob : bytes) : option (bytes * list float32) :=
  match blob with
  | tag :: idLen :: b =>
      if negb (tag =? 65) then None
      else if (idLen <? 1) || (MaxMemberLen <? idLen) || (len blob <=? 2 + idLen) then None
      else
        let rest := len blob - 2 - idLen in
        if negb (rest mod 4 =? 0) then None
        else if negb (ValidDim (rest / 4)) then None
        else match get_floats (Z.to_nat (rest / 4)) (drop (Z.to_nat idLen) b) with
             | None => None
             | Some (vec, _) => Some (take (Z.to_nat idLen) b, vec)
             end
  | _ => None
  end.

Definition VS_DecodeInboxRem (blob : bytes) : option bytes :=
  match blob with
  | tag :: (_ :: _) as member =>
      if negb (tag =? 82) then None else if bad_member member then None else Some member
  | _ => None
  end.

(** ** Similarity *)

Definition Score (a b : list float32) (m : Metric) : float32 :=
  if (len a =? 0) || negb (len a =? len b) then 0
  else
    let xs := zip (map to64 a) (map to64 b) in
    match m with
    | MetricL2 =>
        to32 (sqrt64 (fold_left (fun s xy => let d := sub64 xy.1 xy.2 in add64 s (mul64 d d)) xs zero64))
    | MetricIP => to32 (fold_left (fun dot xy => add64 dot (mul64 xy.1 xy.2)) xs zero64)
    | MetricCosine =>
        let '(dot, na, nb) :=
          fold_left (fun '(dot, na, nb) xy =>
            (add64 dot (mul64 xy.1 xy.2), add64 na (mul64 xy.1 xy.1), add64 nb (mul64 xy.2 xy.2)))
            xs (zero64, zero64, zero64) in
        if is_zero64 na || is_zero64 nb then 0 else to32 (div64 dot (mul64 (sqrt64 na) (sqrt64 nb)))
    end.

Definition better (scoreA scoreB : float32) (m : Metric) : bool :=
  match m with MetricL2 => f32_lt scoreA scoreB | _ => f32_lt scoreB scoreA end.

Record Hit := mkHit { h_member : bytes; h_score : float32 }.

(** The [less] function given to sort.Slice. *)
Definition hit_less (m : Metric) (a b : Hit) : bool :=
  if negb (f32_eq (h_score a) (h_score b)) then better (h_score a) (h_score b) m
  else bytes_ltb (h_member a) (h_member b).

Definition hit_le (m : Metric) (a b : Hit) : Prop := hit_less m b a = false.
#[global] Instance hit_le_dec m : RelDecision (hit_le m).
Proof. intros a b. unfold hit_le. apply _. Defined.

Definition vs_rows (s : VSet) (query : list float32) (m : Metric) : list Hit :=
  map (fun kv => mkHit kv.1 (Score query kv.2 m)) (map_to_list (vals s)).

Definition VS_Sim (s : VSet) (query : list float32) (k : Z) (m : Metric) : option (list Hit) :=
  if negb (len query =? Dim s) || negb (Finite query) then None
  else Some (take (Z.to_nat (ClampK k)) (merge_sort (hit_le m) (vs_rows s query m))).

(** [1, 0] against [1, 1] and [2, 0]; 0.70710677 is the float32 nearest to 1/sqrt 2. *)
Example Score_sample :
  let one := 0x3F800000 in
  Score [one; 0] [one; one] MetricCosine = 0x3F3504F3 /\
  Score [one; 0] [0x40000000; 0] MetricCosine = one /\
  Score [one; 0] [0; one] MetricL2 = 0x3FB504F3 /\
  Score [one; 0] [0xC0000000; one] MetricIP = 0xC0000000.
Proof. vm_compute. done. Qed.

(** ** Well-formed sets *)

Definition vec_ok (dim : Z) (vec : list float32) : Prop := len vec = dim /\ Forall is_f32 vec /\ Finite vec = true.

Definition member_ok (member : bytes) : Prop := 1 <= len member <= MaxMemberLen.

Record vset_ok (s : VSet) : Prop := {
  vs_dim : ValidDim (Dim s) = true;
  vs_card : VS_Card s <= MaxMembers;
  vs_vals k v : vals s !! k = Some v -> member_ok k /\ vec_ok (Dim s) v;
}.

Lemma bad_member_false member : bad_member member = false <-> member_ok member.
Proof. unfold bad_member, member_ok. rewrite orb_false_iff, !Z.ltb_ge. lia. Qed.

Lemma VS_Add_Some s member vec s' :
  VS_Add s member vec = Some s' <->
  (ValidDim (Dim s) = true /\ len vec = Dim s /\ Finite vec = true /\ member_ok member /\
   (is_Some (vals s !! member) \/ VS_Card s < MaxMembers)) /\ s' = mkVSet (Dim s) (<[member := vec]> (vals s)).
Proof.
  unfold VS_Add. destruct (ValidDim (Dim s)); [|split; [done|naive_solver]]. cbn [negb orb].
  destruct (Z.eqb_spec (len vec) (Dim s)); [|split; [done|naive_solver]]. cbn [negb orb].
  destruct (Finite vec); [|split; [done|naive_solver]]. cbn [negb].
  destruct (bad_member member) eqn:Em.
  { split; [done|]. intros ((_ & _ & _ & Hm & _) & _). apply bad_member_false in Hm. congruence. }
  apply bad_member_false in Em. destruct (vals s !! member) as [v|] eqn:Ev.
  - rewrite bool_decide_false by done. cbn [andb]. split; [intros [= <-]; naive_solver|intros [_ ->]; done].
  - rewrite bool_decide_true by done. cbn [andb]. destruct (Z.leb_spec MaxMembers (VS_Card s)).
    + split; [done|]. intros ((_ & _ & _ & _ & [[? ?]|?]) & _); [done|lia].
    + split; [intros [= <-]; naive_solver|intros [_ ->]; done].
Qed.

Lemma VS_Card_insert s member vec :
  VS_Card (mkVSet (Dim s) (<[member := vec]> (vals s))) =
    if bool_decide (is_Some (vals s !! member)) then VS_Card s else VS_Card s + 1.
Proof.
  unfold VS_Card. cbn. rewrite map_size_insert. destruct (vals s !! member) as [v|].
  - by rewrite bool_decide_true by eauto.
  - rewrite bool_decide_false by (by intros [? ?]). lia.
Qed.

Lemma VS_Add_ok s member vec s' : vset_ok s -> Forall is_f32 vec -> VS_Add s member vec = Some s' -> vset_ok s'.
Proof.
  intros [Hd Hc Hv] Hf ((_ & Hl & Hfin & Hm & Hfull) & ->)%VS_Add_Some. split; [done| |].
  - rewrite VS_Card_insert. case_bool_decide; [done|]. destruct Hfull; [done|lia].
  - cbn. intros k v [[<- <-]|[_ Hk]]%lookup_insert_Some; [done|by apply Hv].
Qed.

Lemma VS_Rem_ok s member : vset_ok s -> vset_ok (VS_Rem s member).
Proof.
  intros [Hd Hc Hv]. split; [done| |].
  - etransitivity; [|exact Hc]. apply Nat2Z.inj_le. cbn [VS_Rem vals]. rewrite map_size_delete. destruct (vals s !! member); cbn; lia.
  - cbn. intros k v [_ Hk]%lookup_delete_Some. by apply Hv.
Qed.

Lemma VS_NewSet_ok dim : ValidDim dim = true -> vset_ok (VS_NewSet dim).
Proof. intros Hd. split; [done|done|]. cbn. intros k v Hk. by rewrite lookup_empty in Hk. Qed.

(** ** Codec *)

Lemma le_decode_put n v rest : 0 <= v < 256 ^ Z.of_nat n -> le_decode (take n (le_encode n v ++ rest)) = v.
Proof.
  intros Hv. replace n with (length (le_encode n v)) at 1 by apply le_encode_length.
  by rewrite take_app_length, le_decode_encode, Z.mod_small.
Qed.

Lemma drop_put n v rest : drop n (le_encode n v ++ rest) = rest.
Proof. replace n with (length (le_encode n v)) at 1 by apply le_encode_length. apply drop_app_length. Qed.

Lemma put_floats_len vec : len (put_floats vec) = 4 * len vec.
Proof.
  unfold put_floats. induction vec as [|x vec IH]; [done|]. cbn [map concat]. rewrite len_app, IH, len_cons.
  unfold len at 1. rewrite le_encode_length. lia.
Qed.

Lemma get_put_floats vec rest :
  Forall is_f32 vec -> Finite vec = true -> get_floats (length vec) (put_floats vec ++ rest) = Some (vec, rest).
Proof.
  induction 1 as [|x vec Hx Hvec IH]; [done|]. unfold Finite. cbn [forallb]. intros [Hfx Hf]%andb_prop.
  cbn [length get_floats]. unfold put_floats. cbn [map concat]. rewrite <- app_assoc.
  rewrite le_decode_put by (unfold is_f32 in Hx; lia). rewrite Hfx, drop_put. cbn [negb]. unfold put_floats in IH. by rewrite IH.
Qed.

Lemma get_floats_ok n b vec rest :
  bytes_ok b -> (4 * n <= length b)%nat -> get_floats n b = Some (vec, rest) ->
  len vec = Z.of_nat n /\ Forall is_f32 vec /\ Finite vec = true /\ rest = drop (4 * n) b.
Proof.
  revert b vec rest. induction n as [|n IH]; intros b vec rest Hb Hl; cbn [get_floats]; [by intros [= <- <-]|].
  destruct (finite32 (le_decode (take 4 b))) eqn:Ef; [|done]. cbn [negb].
  destruct (get_floats n (drop 4 b)) as [[v r]|] eqn:E; [|done]. intros [= <- <-].
  apply IH in E as (H1 & H2 & H3 & ->); [|by apply Forall_drop|rewrite length_drop; lia]. split_and!.
  - rewrite len_cons. lia.
  - constructor; [|done]. pose proof (le_decode_range (take 4 b) (Forall_take _ _ _ Hb)) as Hr.
    unfold len in Hr. rewrite length_take, Nat.min_l in Hr by lia. exact Hr.
  - unfold Finite. cbn. by rewrite Ef.
  - rewrite drop_drop. f_equal. lia.
Qed.

Lemma u8_small x : 0 <= x < 256 -> u8 x = x.
Proof. intros. unfold u8. by rewrite Z.mod_small. Qed.

Lemma vs_step_record s k v rest :
  vset_ok s -> member_ok k -> vec_ok (Dim s) v -> vals s !! k = None -> VS_Card s < MaxMembers ->
  vs_decode_step s (vs_record (k, v) ++ rest) = Some (mkVSet (Dim s) (<[k := v]> (vals s)), rest).
Proof.
  intros Hs Hk (Hl & Hf & Hfin) Hnew Hcard. unfold vs_record. cbn [fst snd app vs_decode_step].
  unfold member_ok, MaxMemberLen in Hk. rewrite u8_small by lia.
  rewrite <- app_assoc, !len_app, put_floats_len. pose proof (len_nonneg rest).
  destruct (Z.ltb_spec (len k) 1); [lia|]. destruct (Z.ltb_spec MaxMemberLen (len k)); [unfold MaxMemberLen in *; lia|].
  destruct (Z.ltb_spec (len k + (4 * len v + len rest)) (len k + 4 * Dim s)); [lia|]. cbn [orb].
  rewrite drop_app_len, take_app_len. replace (Z.to_nat (Dim s)) with (length v) by (unfold len in Hl; lia).
  rewrite get_put_floats by done.
  rewrite (proj2 (VS_Add_Some s k v (mkVSet (Dim s) (<[k := v]> (vals s))))); [done|].
  split; [|done]. split_and!; [apply Hs|done|done|done|by right].
Qed.

Lemma vs_decode_records l s :
  vset_ok s -> Forall (fun kv => member_ok kv.1 /\ vec_ok (Dim s) kv.2) l -> NoDup (map fst l) ->
  (forall k, k ∈ map fst l -> vals s !! k = None) -> VS_Card s + len l <= MaxMembers ->
  vs_decode_loop (length l) s (concat (map vs_record l)) =
    Some (mkVSet (Dim s) (fold_left (fun m kv => <[kv.1 := kv.2]> m) l (vals s))).
Proof.
  revert s. induction l as [|[k v] l IH]; intros s Hs Hl Hnd Hfresh Hc; [by destruct s|]. cbn [map concat length vs_decode_loop] in *.
  inversion Hl as [|? ? [Hk Hv] Hl']; subst. inversion Hnd as [|? ? Hnk Hnd']; subst. cbn [fst snd] in *. rewrite len_cons in Hc.
  pose proof (len_nonneg l). assert (Hnew : vals s !! k = None) by (apply Hfresh; by left).
  rewrite vs_step_record by (done || lia).
  rewrite IH; [done| |done|done| |].
  - apply (VS_Add_ok s k v); [done|apply Hv|]. apply VS_Add_Some. split; [|done].
    destruct Hv as (? & ? & ?). split_and!; [apply Hs|done|done|done|right; lia].
  - intros k' Hk'. cbn. rewrite lookup_insert_ne by (intros ->; done). apply Hfresh. by right.
  - rewrite VS_Card_insert, bool_decide_false; [lia|]. rewrite Hnew. by intros [? ?].
Qed.

Lemma VS_Decode_Encode s : vset_ok s -> VS_DecodeSnapshot (VS_Encode s) = Some s.
Proof.
  intros Hs. pose proof Hs as [Hd Hc Hv]. unfold ValidDim, MinDim, MaxDim, MaxMembers in *. apply andb_prop in Hd as [Hd1%Z.leb_le Hd2%Z.leb_le].
  assert (Hcn : 0 <= VS_Card s) by (unfold VS_Card; lia).
  unfold VS_DecodeSnapshot, VS_Encode. set (recs := concat _). rewrite !len_app.
  replace (len (le_encode 2 (Dim s))) with 2 by (unfold len; by rewrite le_encode_length).
  replace (len (le_encode 2 (VS_Card s))) with 2 by (unfold len; by rewrite le_encode_length).
  pose proof (len_nonneg recs). cbn [app head]. unfold snapshotHeader.
  change (len [83]) with 1. destruct (Z.ltb_spec (1 + (2 + (2 + len recs))) 5) as [Hlt|_]; [lia|]. cbn [default negb orb Z.eqb Pos.eqb].
  change (drop 1 (83 :: ?x)) with x. change (drop 3 (83 :: ?x)) with (drop 2 x). change (drop 5 (83 :: ?x)) with (drop 4 x).
  rewrite le_decode_put by (cbn; lia). rewrite drop_put, le_decode_put by (cbn; lia).
  replace (drop 4 (le_encode 2 (Dim s) ++ le_encode 2 (VS_Card s) ++ recs)) with recs.
  2: { change 4%nat with (2 + 2)%nat. by rewrite <- drop_drop, !drop_put. }
  unfold ValidDim, MinDim, MaxDim, MaxMembers.
  replace ((2 <=? Dim s) && (Dim s <=? 256)) with true by lia. replace (VS_Card s <? 0) with false by lia.
  replace (512 <? VS_Card s) with false by lia. cbn [negb orb].
  replace (Z.to_nat (VS_Card s)) with (length (by_key (vals s))).
  2: { pose proof (by_key_len (vals s)) as Hl. unfold len in Hl. unfold VS_Card. lia. }
  unfold recs. rewrite vs_decode_records.
  - cbn [VS_NewSet Dim vals]. rewrite fold_by_key. by destruct s.
  - apply VS_NewSet_ok. unfold ValidDim, MinDim, MaxDim. lia.
  - apply Forall_forall. intros [k v] Hk%elem_of_by_key. by apply Hv.
  - rewrite by_key_perm. apply NoDup_fst_map_to_list.
  - intros k _. apply lookup_empty.
  - change (VS_Card (VS_NewSet (Dim s))) with 0. rewrite by_key_len. unfold VS_Card in Hc. unfold MaxMembers. lia.
Qed.

Lemma vs_decode_step_ok s b s' b' :
  vset_ok s -> bytes_ok b -> vs_decode_step s b = Some (s', b') -> vset_ok s' /\ Dim s' = Dim s /\ bytes_ok b'.
Proof.
  intros Hs Hb. destruct b as [|idLen b]; [done|]. cbn [vs_decode_step]. inversion Hb as [|? ? Hi Hb']; subst.
  destruct (Z.ltb_spec idLen 1); [done|]. destruct (MaxMemberLen <? idLen); [done|].
  destruct (Z.ltb_spec (len b) (idLen + 4 * Dim s)) as [|Hl]; [done|]. cbn [orb].
  destruct (get_floats _ _) as [[vec rest]|] eqn:Ef; [|done]. destruct (VS_Add s _ vec) as [s2|] eqn:Ea; [|done]. intros [= <- <-].
  pose proof Hs as [Hd _ _]. unfold ValidDim, MinDim in Hd. unfold len in Hl.
  apply get_floats_ok in Ef as (_ & Hf & _ & ->); [|by apply Forall_drop|rewrite length_drop; lia].
  split_and!; [by eapply VS_Add_ok| |by repeat apply Forall_drop].
  by apply VS_Add_Some in Ea as [_ ->].
Qed.

Lemma vs_decode_loop_ok n s b s' :
  vset_ok s -> bytes_ok b -> vs_decode_loop n s b = Some s' -> vset_ok s'.
Proof.
  revert s b. induction n as [|n IH]; intros s b Hs Hb; cbn [vs_decode_loop].
  - destruct b; [by intros [= <-]|done].
  - destruct (vs_decode_step s b) as [[s2 b2]|] eqn:E; [|done]. apply vs_decode_step_ok in E as (? & _ & ?); [|done|done]. by apply IH.
Qed.

Lemma VS_Decode_ok blob s : bytes_ok blob -> VS_DecodeSnapshot blob = Some s -> vset_ok s.
Proof.
  intros Hb. unfold VS_DecodeSnapshot. destruct (_ || _); [done|]. destruct (ValidDim _) eqn:Ed; [|done]. cbn [negb orb].
  destruct (_ || _); [done|]. apply vs_decode_loop_ok; [by apply VS_NewSet_ok|by apply Forall_drop].
Qed.

Lemma VS_InboxAdd_roundtrip member vec b :
  Forall is_f32 vec -> VS_EncodeInboxAdd member vec = Some b -> VS_DecodeInboxAdd b = Some (member, vec).
Proof.
  intros Hf. unfold VS_EncodeInboxAdd. destruct (bad_member member) eqn:Em; [done|]. apply bad_member_false in Em.
  destruct (ValidDim (len vec)) eqn:Ed; [|done]. destruct (Finite vec) eqn:Ef; [|done]. cbn [negb orb]. intros [= <-].
  unfold member_ok, MaxMemberLen in Em. cbn [app VS_DecodeInboxAdd]. rewrite u8_small by lia. cbn [Z.eqb Pos.eqb negb].
  rewrite !len_cons, len_app, put_floats_len. assert (2 <= len vec) by (unfold ValidDim, MinDim in Ed; lia).
  replace (len member <? 1) with false by lia. replace (MaxMemberLen <? len member) with false by (unfold MaxMemberLen; lia).
  replace (1 + (1 + (len member + 4 * len vec)) <=? 2 + len member) with false by lia. cbn [orb].
  replace (1 + (1 + (len member + 4 * len vec)) - 2 - len member) with (len vec * 4) by lia.
  rewrite Z.mod_mul, Z.div_mul by lia. cbn [Z.eqb negb]. rewrite Ed. cbn [negb]. rewrite drop_app_len, take_app_len.
  unfold len at 1. rewrite Nat2Z.id, <- (app_nil_r (put_floats vec)), get_put_floats by done. done.
Qed.

Lemma VS_InboxRem_roundtrip member b : VS_EncodeInboxRem member = Some b -> VS_DecodeInboxRem b = Some member.
Proof.
  unfold VS_EncodeInboxRem. destruct (bad_member member) eqn:Em; [done|]. intros [= <-]. cbn. destruct member as [|c m]; [done|].
  by rewrite Em.
Qed.

(** ** Similarity search *)

Definition hit_ok (h : Hit) : Prop := IsNaN32 (h_score h) = false.

(** Smaller is better for a distance, larger for the other metrics. *)
Definition rank (m : Metric) (h : Hit) : Z :=
  match m with MetricL2 => f32_key (h_score h) | _ => - f32_key (h_score h) end.

Lemma hit_le_spec m a b : hit_ok a -> hit_ok b ->
  hit_le m a b <-> rank m a < rank m b \/ (rank m a = rank m b /\ bytes_le (h_member a) (h_member b)).
Proof.
  unfold hit_ok, hit_le, hit_less, better, rank, f32_eq, f32_lt, bytes_ltb, bytes_le. intros -> ->. cbn [negb andb].
  rewrite (bytes_compare_antisym (h_member a)).
  destruct (Z.eqb_spec (f32_key (h_score b)) (f32_key (h_score a))) as [->|]; cbn [negb].
  - destruct m, (bytes_compare (h_member a) (h_member b)); cbn; intuition (try lia; try done).
  - destruct m; rewrite Z.ltb_ge; intuition lia.
Qed.

#[global] Instance hit_le_total m : Total (hit_le m).
Proof.
  intros a b. unfold hit_le, hit_less, better, f32_eq, f32_lt, bytes_ltb.
  rewrite (bytes_compare_antisym (h_member a)), (Z.eqb_sym (f32_key (h_score b))).
  destruct (IsNaN32 (h_score a)), (IsNaN32 (h_score b)), m; cbn [negb andb]; auto.
  all: destruct (Z.eqb_spec (f32_key (h_score a)) (f32_key (h_score b))); cbn [negb];
    [destruct (bytes_compare (h_member a) (h_member b)); cbn; auto|rewrite !Z.ltb_ge; lia].
Qed.

Lemma hit_le_trans m a b c : hit_ok a -> hit_ok b -> hit_ok c -> hit_le m a b -> hit_le m b c -> hit_le m a c.
Proof.
  intros Ha Hb Hc. rewrite !hit_le_spec by done. intros [?|[? ?]] [?|[? ?]]; try (left; lia).
  right. split; [lia|]. by transitivity (h_member b).
Qed.

Lemma elem_of_vs_rows s q m h : h ∈ vs_rows s q m <-> exists v, vals s !! h_member h = Some v /\ h_score h = Score q v m.
Proof.
  unfold vs_rows. rewrite list_elem_of_fmap. split.
  - intros ([k v] & -> & Hk%elem_of_map_to_list). by exists v.
  - intros (v & Hv & Hs). exists (h_member h, v). rewrite elem_of_map_to_list. split; [|done]. destruct h. cbn in *. by subst.
Qed.

(** No score is NaN. *)
Definition scores_ok (s : VSet) (query : list float32) (m : Metric) : Prop :=
  forall k v, vals s !! k = Some v -> IsNaN32 (Score query v m) = false.

Lemma rows_ok s q m : scores_ok s q m -> Forall hit_ok (vs_rows s q m).
Proof. intros Hs. apply Forall_forall. intros h (v & Hv & E)%elem_of_vs_rows. unfold hit_ok. rewrite E. by eapply Hs. Qed.

(** K-nearest search is exact: VSim returns the first ClampK(k) members of
    the whole set in the metric's order with ties broken by name, so there are
    min(ClampK(k), card) hits, each is a member with its own score, and no
    member left out would have ranked before one of them. *)
Theorem vsim_exact s query k m hits :
  scores_ok s query m -> VS_Sim s query k m = Some hits ->
  len hits = Z.min (ClampK k) (VS_Card s) /\
  StronglySorted (hit_le m) hits /\
  (forall h, h ∈ hits -> exists v, vals s !! h_member h = Some v /\ h_score h = Score query v m) /\
  (forall k' v h, vals s !! k' = Some v -> h ∈ hits -> mkHit k' (Score query v m) ∈ hits \/ hit_le m h (mkHit k' (Score query v m))).
Proof.
  intros Hs. unfold VS_Sim. destruct (_ || _); [done|]. intros [= <-]. set (l := merge_sort (hit_le m) (vs_rows s query m)).
  assert (Hp : l ≡ₚ vs_rows s query m) by apply merge_sort_Permutation.
  assert (Hsorted : StronglySorted (hit_le m) l).
  { apply (Sorted_StronglySorted_on _ hit_ok); [apply hit_le_trans|rewrite Hp; by apply rows_ok|apply (Sorted_merge_sort (hit_le m))]. }
  assert (Hk : 0 < ClampK k) by (unfold ClampK, DefaultK, MaxK; zcmp; lia).
  split_and!.
  - unfold len. rewrite length_take, Hp. unfold vs_rows. rewrite length_map, length_map_to_list. unfold VS_Card. lia.
  - rewrite <- (take_drop (Z.to_nat (ClampK k)) l) in Hsorted. by eapply StronglySorted_app_1_l.
  - intros h Hh. apply subseteq_take in Hh. rewrite Hp in Hh. by apply elem_of_vs_rows.
  - intros k' v h Hv Hh. set (h' := mkHit k' (Score query v m)). assert (Hin : h' ∈ l) by (rewrite Hp; apply elem_of_vs_rows; by exists v).
    rewrite <- (take_drop (Z.to_nat (ClampK k)) l) in Hin, Hsorted. apply elem_of_app in Hin as [|Hin]; [by left|right].
    by eapply StronglySorted_app_1_elem_of.
Qed.

(** Snapshots and owner-inbox payloads of vector sets read back bit for
    bit: a well-formed set of up to 512 members decodes to itself, decoding any
    byte string yields a well-formed set or an error, and the two inbox forms
    decode to their arguments. *)
Theorem vecset_codecs :
  (forall s, vset_ok s -> VS_DecodeSnapshot (VS_Encode s) = Some s) /\
  (forall blob s, bytes_ok blob -> VS_DecodeSnapshot blob = Some s -> vset_ok s) /\
  (forall member vec b, Forall is_f32 vec -> VS_EncodeInboxAdd member vec = Some b -> VS_DecodeInboxAdd b = Some (member, vec)) /\
  (forall member b, VS_EncodeInboxRem member = Some b -> VS_DecodeInboxRem b = Some member).
Proof. split_and!; eauto using VS_Decode_Encode, VS_Decode_ok, VS_InboxAdd_roundtrip, VS_InboxRem_roundtrip. Qed.

Definition wit_one : float32 := 0x3F800000.
Definition wit_vset : VSet := mkVSet 2 (<[[97] := [wit_one; 0]]> {[ [98] := [0; wit_one] ]}).

Lemma vsim_exact_witness :
  exists hits, VS_Sim wit_vset [wit_one; wit_one] 0 MetricIP = Some hits /\ len hits = 2.
Proof.
  exists [mkHit [97] wit_one; mkHit [98] wit_one]. split; [by vm_compute|].
  assert (H : Z.min (ClampK 0) (VS_Card wit_vset) = 2) by (by vm_compute). rewrite <- H.
  apply (vsim_exact wit_vset [wit_one; wit_one] 0 MetricIP [mkHit [97] wit_one; mkHit [98] wit_one]); [|by vm_compute].
  intros k v. unfold wit_vset. cbn [vals]. rewrite lookup_insert_Some, lookup_singleton_Some.
  intros [[_ <-]|[_ [_ <-]]]; by vm_compute.
Defined.
