(* ===== verification/Store.v ===== *)
(** * The in-memory store: pkg/store/entry.go and pkg/store/memory.go

    Versioned entries with expiry and flags, the LRU list with its byte
    budget, and the untyped operations.  Every exported method runs inside one
    critical section of the store mutex, so an operation is a function from
    the store to a result and the next store; the clock is read as a constant
    [now] (Unix nanoseconds) within a critical section. *)
From S2P Require Import Prelude Wire Collections Scored Json.

(** ** Entries *)

Definition FlagNegative : Z := Z.shiftl 1 0.
Definition FlagTombstone : Z := Z.shiftl 1 1.
Definition FlagBloom : Z := Z.shiftl 1 2.
Definition FlagBloomAdd : Z := Z.shiftl 1 3.
Definition FlagSet : Z := Z.shiftl 1 4.
Definition FlagSetAdd : Z := Z.shiftl 1 5.
Definition FlagSetRemove : Z := Z.shiftl 1 6.
Definition FlagZSet : Z := Z.shiftl 1 7.
Definition FlagZSetAdd : Z := Z.shiftl 1 8.
Definition FlagZSetRem : Z := Z.shiftl 1 9.
Definition FlagGeo : Z := Z.shiftl 1 10.
Definition FlagGeoAdd : Z := Z.shiftl 1 11.
Definition FlagGeoRem : Z := Z.shiftl 1 12.
Definition FlagList : Z := Z.shiftl 1 13.
Definition FlagListLPush : Z := Z.shiftl 1 14.
Definition FlagListRPush : Z := Z.shiftl 1 15.
Definition FlagHash : Z := Z.shiftl 1 16.
Definition FlagHashSet : Z := Z.shiftl 1 17.
Definition FlagHashDel : Z := Z.shiftl 1 18.
Definition FlagCounter : Z := Z.shiftl 1 19.
Definition FlagJSON : Z := Z.shiftl 1 20.
Definition FlagJSONSet : Z := Z.shiftl 1 21.
Definition FlagJSONDel : Z := Z.shiftl 1 22.
Definition FlagBitmap : Z := Z.shiftl 1 23.
Definition FlagBitmapSet : Z := Z.shiftl 1 24.
Definition FlagHLL : Z := Z.shiftl 1 25.
Definition FlagHLLAdd : Z := Z.shiftl 1 26.
Definition FlagTopK : Z := Z.shiftl 1 27.
Definition FlagTopKAdd : Z := Z.shiftl 1 28.
Definition FlagCMS : Z := Z.shiftl 1 29.
Definition FlagCMSIncr : Z := Z.shiftl 1 30.
Definition FlagVectorSet : Z := Z.shiftl 1 31.
Definition FlagStream : Z := Z.shiftl 1 32.

Record Entry := mkEntry {
  Value : bytes;
  Version : Z;      (* uint64 *)
  ExpireAt : Z;     (* unix nano; 0 = no expiry *)
  Flags : Z;        (* uint64 *)
}.

(** [e.Flags & f != 0]. *)
Definition has_flag (f : Z) (e : Entry) : bool := negb (Z.land (Flags e) f =? 0).

Definition IsNegative : Entry -> bool := has_flag FlagNegative.
Definition IsTombstone : Entry -> bool := has_flag FlagTombstone.
Definition IsBloom : Entry -> bool := has_flag FlagBloom.
Definition IsSet : Entry -> bool := has_flag FlagSet.
Definition IsZSet : Entry -> bool := has_flag FlagZSet.
Definition IsGeo : Entry -> bool := has_flag FlagGeo.
Definition IsList : Entry -> bool := has_flag FlagList.
Definition IsHash : Entry -> bool := has_flag FlagHash.
Definition IsCounter : Entry -> bool := has_flag FlagCounter.
Definition IsJSON : Entry -> bool := has_flag FlagJSON.
Definition IsBitmap : Entry -> bool := has_flag FlagBitmap.
Definition IsHLL : Entry -> bool := has_flag FlagHLL.
Definition IsTopK : Entry -> bool := has_flag FlagTopK.
Definition IsCMS : Entry -> bool := has_flag FlagCMS.
Definition IsVectorSet : Entry -> bool := has_flag FlagVectorSet.
Definition IsStream : Entry -> bool := has_flag FlagStream.

Definition Expired (e : Entry) (now : Z) : bool :=
  if ExpireAt e =? 0 then false else ExpireAt e <=? now.

Definition Cost (e : Entry) : Z := len (Value e) + 64.
Definition entryCost (key : bytes) (e : Entry) : Z := len key + Cost e.

(** Byte slices are immutable values here, so the defensive copy is the
    identity on the four fields. *)
Definition copyEntry (e : Entry) : Entry :=
  mkEntry (Value e) (Version e) (ExpireAt e) (Flags e).

Lemma copyEntry_id e : copyEntry e = e.
Proof. by destruct e. Qed.

(** ** The LRU store *)

Record lruItem := mkItem {
  entry : Entry;
  cost : Z;
  setCache : option SetT;  setDirty : bool;
  zCache : option ZSetT;   zDirty : bool;
  gCache : option GeoT;    gDirty : bool;
  lCache : option ListT;   lDirty : bool;
  hCache : option HashT;   hDirty : bool;
  jCache : json;           jDirty : bool;   (* nil is JNull *)
}.

(** &lruItem{key: key, entry: e, cost: cost}: every cache nil and clean. *)
Definition newItem (e : Entry) (c : Z) : lruItem :=
  mkItem e c None false None false None false None false None false JNull false.

Definition with_entry (it : lruItem) (e : Entry) (c : Z) : lruItem :=
  mkItem e c (setCache it) (setDirty it) (zCache it) (zDirty it) (gCache it) (gDirty it)
    (lCache it) (lDirty it) (hCache it) (hDirty it) (jCache it) (jDirty it).

(** [order] lists the keys of the LRU list, front (most recent) first; an
    element is identified with the key of its item, and [items] maps a key to
    the item its element holds. *)
Record Memory := mkMemory {
  maxBytes : Z;
  mbytes : Z;
  items : gmap bytes lruItem;
  order : list bytes;
  tombstoneTTL : Z;
  hits : Z; misses : Z; evictions : Z; staleSkip : Z;   (* atomic uint64 *)
}.

Definition DefaultTombstoneTTL : Z := 5 * 60 * 1000000000.

(** NewMemory with the options already applied. *)
Definition NewMemory (maxBytes tombstoneTTL : Z) : Memory :=
  mkMemory maxBytes 0 ∅ [] tombstoneTTL 0 0 0 0.

Definition with_content (m : Memory) (b : Z) (its : gmap bytes lruItem) (o : list bytes) : Memory :=
  mkMemory (maxBytes m) b its o (tombstoneTTL m) (hits m) (misses m) (evictions m) (staleSkip m).

Definition add_hit (m : Memory) : Memory :=
  mkMemory (maxBytes m) (mbytes m) (items m) (order m) (tombstoneTTL m)
    (hits m +u 1) (misses m) (evictions m) (staleSkip m).
Definition add_miss (m : Memory) : Memory :=
  mkMemory (maxBytes m) (mbytes m) (items m) (order m) (tombstoneTTL m)
    (hits m) (misses m +u 1) (evictions m) (staleSkip m).
Definition add_eviction (m : Memory) : Memory :=
  mkMemory (maxBytes m) (mbytes m) (items m) (order m) (tombstoneTTL m)
    (hits m) (misses m) (evictions m +u 1) (staleSkip m).
Definition add_stale (m : Memory) : Memory :=
  mkMemory (maxBytes m) (mbytes m) (items m) (order m) (tombstoneTTL m)
    (hits m) (misses m) (evictions m) (staleSkip m +u 1).

(** [if m.bytes < 0 { m.bytes = 0 }] *)
Definition clamp0 (b : Z) : Z := if b <? 0 then 0 else b.

Definition without (k : bytes) (o : list bytes) : list bytes := filter (fun x => x <> k) o.

Definition removeElement (m : Memory) (key : bytes) (it : lruItem) : Memory :=
  with_content m (clamp0 (mbytes m - cost it)) (delete key (items m)) (without key (order m)).

(** m.order.PushFront(it); m.items[key] = el; m.bytes += cost *)
Definition pushFront (m : Memory) (key : bytes) (it : lruItem) : Memory :=
  with_content m (mbytes m + cost it) (<[key := it]> (items m)) (key :: order m).

(** The item an element holds is updated in place, and the byte total with it. *)
Definition updateItem (m : Memory) (key : bytes) (it it' : lruItem) : Memory :=
  with_content m (mbytes m + (cost it' - cost it)) (<[key := it']> (items m)) (order m).

Definition clampBytes (m : Memory) : Memory := with_content m (clamp0 (mbytes m)) (items m) (order m).

Definition moveToFront (m : Memory) (key : bytes) : Memory :=
  with_content m (mbytes m) (items m) (key :: without key (order m)).

(** Entry kinds that are never evicted while they are live. *)
Definition pinned (e : Entry) : bool :=
  IsTombstone e || IsBloom e || IsSet e || IsZSet e || IsGeo e || IsList e || IsHash e
  || IsCounter e || IsJSON e || IsBitmap e || IsHLL e || IsTopK e || IsCMS e
  || IsVectorSet e || IsStream e.

(** The walk from the back of the list; every listed key has an item. *)
Fixpoint victim_scan (now : Z) (its : gmap bytes lruItem) (back : list bytes)
    : option (bytes * lruItem) :=
  match back with
  | [] => None
  | k :: rest =>
      match its !! k with
      | None => victim_scan now its rest
      | Some it =>
          if pinned (entry it) && negb (Expired (entry it) now)
          then victim_scan now its rest else Some (k, it)
      end
  end.

Definition lruVictim (now : Z) (m : Memory) : option (bytes * lruItem) :=
  victim_scan now (items m) (reverse (order m)).

(** Each round removes one element, so the length of the list is enough fuel. *)
Fixpoint evict_loop (fuel : nat) (now : Z) (m : Memory) : Memory :=
  match fuel with
  | O => m
  | S f =>
      if (maxBytes m <? mbytes m) && (0 <? len (order m)) then
        match lruVictim now m with
        | None => m
        | Some (k, it) => evict_loop f now (add_eviction (removeElement m k it))
        end
      else m
  end.

Definition evictLocked (now : Z) (m : Memory) : Memory :=
  if maxBytes m <=? 0 then m else evict_loop (length (order m)) now m.

Definition present (m : Memory) (key : bytes) : bool := bool_decide (is_Some (items m !! key)).

(** ** Typed kinds

    set.go, zset.go, geo.go, list.go and hash.go keep a decoded value beside
    the encoded blob: one record of operations per kind. *)

Class Kind (T : Type) := {
  kflag : Z;
  knew : T;
  kdecode : bytes -> option T;
  kencode : T -> bytes;
  kapprox : T -> Z;
  kcache : lruItem -> option T;
  kdirty : lruItem -> bool;
  with_cache : lruItem -> option T -> bool -> lruItem;
}.
Arguments kflag T {_}.
Arguments kcache T {_} _.
Arguments kdirty T {_} _.

#[global] Instance SetKind : Kind SetT := {
  kflag := FlagSet; knew := Set_New; kdecode := Set_DecodeSet; kencode := Set_Encode;
  kapprox := Set_ApproxWireBytes; kcache := setCache; kdirty := setDirty;
  with_cache it c d := mkItem (entry it) (cost it) c d (zCache it) (zDirty it)
    (gCache it) (gDirty it) (lCache it) (lDirty it) (hCache it) (hDirty it) (jCache it) (jDirty it);
}.

(** ZSet and Geo, like Hash below, are all finite maps on members; the value
    type tells the instances apart. *)
#[global] Instance ZSetKind : Kind ZSetT := {
  kflag := FlagZSet; knew := ZSet_New; kdecode := ZSet_Decode; kencode := ZSet_Encode;
  kapprox := ZSet_ApproxWireBytes; kcache := zCache; kdirty := zDirty;
  with_cache it c d := mkItem (entry it) (cost it) (setCache it) (setDirty it) c d
    (gCache it) (gDirty it) (lCache it) (lDirty it) (hCache it) (hDirty it) (jCache it) (jDirty it);
}.

#[global] Instance GeoKind : Kind GeoT := {
  kflag := FlagGeo; knew := Geo_New; kdecode := Geo_Decode; kencode := Geo_Encode;
  kapprox := Geo_ApproxWireBytes; kcache := gCache; kdirty := gDirty;
  with_cache it c d := mkItem (entry it) (cost it) (setCache it) (setDirty it) (zCache it) (zDirty it)
    c d (lCache it) (lDirty it) (hCache it) (hDirty it) (jCache it) (jDirty it);
}.

#[global] Instance ListKind : Kind ListT := {
  kflag := FlagList; knew := List_New; kdecode := List_Decode; kencode := List_Encode;
  kapprox := List_ApproxWireBytes; kcache := lCache; kdirty := lDirty;
  with_cache it c d := mkItem (entry it) (cost it) (setCache it) (setDirty it) (zCache it) (zDirty it)
    (gCache it) (gDirty it) c d (hCache it) (hDirty it) (jCache it) (jDirty it);
}.

#[global] Instance HashKind : Kind HashT := {
  kflag := FlagHash; knew := Hash_New; kdecode := Hash_Decode; kencode := Hash_Encode;
  kapprox := Hash_ApproxWireBytes; kcache := hCache; kdirty := hDirty;
  with_cache it c d := mkItem (entry it) (cost it) (setCache it) (setDirty it) (zCache it) (zDirty it)
    (gCache it) (gDirty it) (lCache it) (lDirty it) c d (jCache it) (jDirty it);
}.

(** flushSetValueLocked and its four siblings: materialise the blob. *)
Definition flushValueLocked {T} `{Kind T} (m : Memory) (key : bytes) (it : lruItem)
    : Memory * lruItem :=
  match kcache T it with
  | Some c =>
      if kdirty T it && has_flag (kflag T) (entry it) then
        let e := mkEntry (kencode c) (Version (entry it)) (ExpireAt (entry it)) (Flags (entry it)) in
        let it' := with_entry (with_cache it (Some c) false) e (entryCost key e) in
        (clampBytes (updateItem m key it it'), it')
      else (m, it)
  | None => (m, it)
  end.

Definition flushSetValueLocked := flushValueLocked (T := SetT).
Definition flushZSetValueLocked := flushValueLocked (T := ZSetT).
Definition flushGeoValueLocked := flushValueLocked (T := GeoT).
Definition flushListValueLocked := flushValueLocked (T := ListT).
Definition flushHashValueLocked := flushValueLocked (T := HashT).

Definition flushJSONValueLocked (m : Memory) (key : bytes) (it : lruItem) : Memory * lruItem :=
  if negb (jDirty it) || negb (IsJSON (entry it)) then (m, it)
  else
    match Json_Encode (jCache it) with
    | None => (m, it)
    | Some blob =>
        let e := mkEntry blob (Version (entry it)) (ExpireAt (entry it)) (Flags (entry it)) in
        let it' := mkItem e (entryCost key e) (setCache it) (setDirty it) (zCache it) (zDirty it)
                     (gCache it) (gDirty it) (lCache it) (lDirty it) (hCache it) (hDirty it)
                     (jCache it) false in
        (clampBytes (updateItem m key it it'), it')
    end.

(** The six flushes Get and Peek run in a row. *)
Definition flushAll (m : Memory) (key : bytes) (it : lruItem) : Memory * lruItem :=
  let '(m, it) := flushSetValueLocked m key it in
  let '(m, it) := flushZSetValueLocked m key it in
  let '(m, it) := flushGeoValueLocked m key it in
  let '(m, it) := flushListValueLocked m key it in
  let '(m, it) := flushHashValueLocked m key it in
  flushJSONValueLocked m key it.

(** ** The untyped operations *)

Definition Get (now : Z) (m : Memory) (key : bytes) : option Entry * Memory :=
  match items m !! key with
  | None => (None, add_miss m)
  | Some it =>
      if Expired (entry it) now then (None, add_miss (removeElement m key it))
      else if IsTombstone (entry it) then (None, add_miss m)
      else
        let '(m, it) := flushAll m key it in
        (Some (copyEntry (entry it)), add_hit (moveToFront m key))
  end.

Definition Peek (now : Z) (m : Memory) (key : bytes) : option Entry * Memory :=
  match items m !! key with
  | None => (None, m)
  | Some it =>
      if Expired (entry it) now then (None, removeElement m key it)
      else
        let '(m, it) := flushAll m key it in
        (Some (copyEntry (entry it)), m)
  end.

(** it.entry = copyEntry(e); it.cost = cost; every cache nil and clean. *)
Definition replaceItem (m : Memory) (key : bytes) (it : lruItem) (e : Entry) : Memory :=
  moveToFront (updateItem m key it (newItem (copyEntry e) (entryCost key e))) key.

Definition insertNew (m : Memory) (key : bytes) (e : Entry) : Memory :=
  pushFront m key (newItem (copyEntry e) (entryCost key e)).

Definition tooBig (m : Memory) (c : Z) : bool := (0 <? maxBytes m) && (maxBytes m <? c).

Definition Store_Set (now : Z) (m : Memory) (key : bytes) (e : Entry) : bool * Memory :=
  if tooBig m (entryCost key e) then (false, m)
  else
    match items m !! key with
    | Some it => (true, evictLocked now (replaceItem m key it e))
    | None => (true, evictLocked now (insertNew m key e))
    end.

Definition AcceptIfNewer (now : Z) (m : Memory) (key : bytes) (e : Entry) : bool * Memory :=
  match items m !! key with
  | Some it =>
      if negb (Expired (entry it) now) && (Version e <=? Version (entry it))
      then (false, add_stale m)
      else if tooBig m (entryCost key e) then (false, m)
      else (true, evictLocked now (replaceItem m key it e))
  | None =>
      if tooBig m (entryCost key e) then (false, m)
      else (true, evictLocked now (insertNew m key e))
  end.

(** The entry is replaced but the decoded caches are left in place. *)
Definition overwriteEntry (m : Memory) (key : bytes) (it : lruItem) (e : Entry) : Memory :=
  moveToFront (updateItem m key it (with_entry it (copyEntry e) (entryCost key e))) key.

Definition AcceptNegative (now : Z) (m : Memory) (key : bytes) (e : Entry) : bool * Memory :=
  if tooBig m (entryCost key e) then (false, m)
  else
    match items m !! key with
    | Some it =>
        let store := (true, evictLocked now (overwriteEntry m key it e)) in
        if Expired (entry it) now then store
        else if IsTombstone (entry it) then
          if Version e <=? Version (entry it) then (false, add_stale m) else store
        else if negb (IsNegative (entry it)) then (false, m)
        else if Version e <=? Version (entry it) then (false, add_stale m) else store
    | None => (true, evictLocked now (insertNew m key e))
    end.

Definition Delete (m : Memory) (key : bytes) : bool * Memory :=
  match items m !! key with
  | None => (false, m)
  | Some it => (true, removeElement m key it)
  end.

Definition tombstoneExpireAt (now : Z) (m : Memory) : Z :=
  if tombstoneTTL m <=? 0 then 0 else unixNano (now + tombstoneTTL m).

Definition tombstone (now : Z) (m : Memory) (v : Z) : Entry :=
  mkEntry [] v (tombstoneExpireAt now m) FlagTombstone.

Definition DeleteIfVersion (now : Z) (m : Memory) (key : bytes) (deleteVersion : Z) : bool * Memory :=
  let tomb := tombstone now m deleteVersion in
  match items m !! key with
  | Some it =>
      if negb (Expired (entry it) now) && (deleteVersion <? Version (entry it))
      then (false, add_stale m)
      else (true, evictLocked now (overwriteEntry m key it tomb))
  | None => (true, evictLocked now (insertNew m key tomb))
  end.

Record Stats := mkStats {
  st_Hits : Z; st_Misses : Z; st_Evictions : Z; st_Items : Z; st_Bytes : Z; st_StaleSkip : Z }.

Definition Memory_Stats (m : Memory) : Stats :=
  mkStats (hits m) (misses m) (evictions m) (Z.of_nat (size (items m))) (mbytes m) (staleSkip m).

Definition PeekVersion (now : Z) (m : Memory) (key : bytes) : option Z * Memory :=
  match items m !! key with
  | None => (None, m)
  | Some it =>
      if Expired (entry it) now then (None, removeElement m key it)
      else (Some (Version (entry it)), m)
  end.

(** The snapshot of keys comes from a Go map, in no particular order: [keys]
    is any enumeration of them.  The callback [fn] threads its own state and
    answers whether to go on; each key is peeked when its turn comes. *)
Fixpoint range_keys {A} (tombs : bool) (fn : A -> bytes -> Entry -> A * bool) (now : Z)
    (m : Memory) (keys : list bytes) (a : A) : A * Memory :=
  match keys with
  | [] => (a, m)
  | k :: rest =>
      match Peek now m k with
      | (None, m) => range_keys tombs fn now m rest a
      | (Some ent, m) =>
          if negb tombs && IsTombstone ent then range_keys tombs fn now m rest a
          else
            let '(a, go) := fn a k ent in
            if go then range_keys tombs fn now m rest a else (a, m)
      end
  end.

Definition Range {A} (fn : A -> bytes -> Entry -> A * bool) (now : Z) (m : Memory)
    (keys : list bytes) (a : A) : A * Memory := range_keys false fn now m keys a.
Definition RangeAll {A} (fn : A -> bytes -> Entry -> A * bool) (now : Z) (m : Memory)
    (keys : list bytes) (a : A) : A * Memory := range_keys true fn now m keys a.

Definition Close (m : Memory) : Memory := with_content m 0 ∅ [].
