(* ===== verification/StoreInv.v ===== *)
(** * Structural invariant and eviction of the store

    [mem_wf]: the LRU list and the key map describe the same elements, and the
    byte counter is the sum of the item costs.  Every primitive step keeps it;
    eviction keeps live pinned entries, takes the least recent evictable entry
    first, and stops only within the budget or when nothing is evictable. *)
From S2P Require Import Prelude Wire Collections Scored Json Store.

Definition total (its : gmap bytes lruItem) : Z := map_fold (fun _ it acc => cost it + acc) 0 its.

Lemma total_insert its k it : its !! k = None -> total (<[k := it]> its) = cost it + total its.
Proof. intros Hk. unfold total. rewrite map_fold_insert_L; [done|lia|done]. Qed.

Lemma total_delete its k it : its !! k = Some it -> total (delete k its) = total its - cost it.
Proof.
  intros Hk. rewrite <- (insert_delete_id its k it Hk) at 2.
  rewrite total_insert by apply lookup_delete_eq. lia.
Qed.

Lemma total_update its k it it' :
  its !! k = Some it -> total (<[k := it']> its) = total its + (cost it' - cost it).
Proof.
  intros Hk. rewrite <- insert_delete_eq, total_insert by apply lookup_delete_eq.
  rewrite (total_delete _ _ _ Hk). lia.
Qed.

Lemma total_nonneg its : map_Forall (fun _ it => 0 <= cost it) its -> 0 <= total its.
Proof.
  induction its as [|k it its Hk IH] using map_ind; [done|]. intros Hf.
  apply map_Forall_insert in Hf as [? ?]; [|done]. rewrite total_insert by done.
  specialize (IH ltac:(done)). lia.
Qed.

Record mem_wf (m : Memory) : Prop := {
  wf_nodup : NoDup (order m);
  wf_dom : forall k, k ∈ order m <-> is_Some (items m !! k);
  wf_bytes : mbytes m = total (items m);
  wf_cost : map_Forall (fun _ it => 0 <= cost it) (items m);
}.

Create HintDb store.

Lemma elem_of_len {A} (x : A) (l : list A) : x ∈ l -> 0 < len l.
Proof. intros [i Hi]%list_elem_of_lookup. apply lookup_lt_Some in Hi. unfold len. lia. Qed.

Lemma elem_of_without (x k : bytes) (o : list bytes) : x ∈ without k o <-> x <> k /\ x ∈ o.
Proof. unfold without. by rewrite list_elem_of_filter. Qed.

Lemma without_NoDup k o : NoDup o -> NoDup (without k o).
Proof. apply NoDup_filter. Qed.

Lemma without_length (k : bytes) (o : list bytes) : NoDup o -> k ∈ o -> S (length (without k o)) = length o.
Proof.
  unfold without. induction 1 as [|x o Hx Ho IH]; [by intros ?%elem_of_nil|].
  intros Hk. rewrite filter_cons. case_decide as D.
  - apply elem_of_cons in Hk as [->|Hk]; [done|]. simpl. by rewrite IH.
  - assert (x = k) as -> by (destruct (decide (x = k)); tauto). simpl. f_equal.
    clear -Hx. induction o as [|y o IH]; [done|]. rewrite filter_cons.
    apply not_elem_of_cons in Hx as [? ?]. rewrite decide_True by congruence. simpl. by rewrite IH.
Qed.

Lemma wf_total_nonneg m : mem_wf m -> 0 <= mbytes m.
Proof. intros []. rewrite wf_bytes0. by apply total_nonneg. Qed.

(** The [< 0] guards never fire. *)
Lemma clampBytes_id m : mem_wf m -> clampBytes m = m.
Proof.
  intros Hwf. unfold clampBytes, clamp0. pose proof (wf_total_nonneg m Hwf).
  destruct (Z.ltb_spec (mbytes m) 0); [lia|]. by destruct m.
Qed.

Lemma NewMemory_wf mb ttl : mem_wf (NewMemory mb ttl).
Proof.
  split; simpl; [constructor| |done|apply map_Forall_empty].
  intros k. rewrite lookup_empty. split; [by intros ?%elem_of_nil|by intros [? ?]].
Qed.

Lemma Close_wf m : mem_wf (Close m).
Proof. by destruct (NewMemory_wf 0 0). Qed.

Lemma removeElement_wf m k it : mem_wf m -> items m !! k = Some it -> mem_wf (removeElement m k it).
Proof.
  intros [Hnd Hdom Hb Hc] Hk. split; simpl.
  - by apply without_NoDup.
  - intros x. rewrite elem_of_without, Hdom, lookup_delete_is_Some. naive_solver.
  - rewrite (total_delete _ _ _ Hk), Hb. unfold clamp0.
    assert (0 <= total (delete k (items m))).
    { apply total_nonneg. by apply map_Forall_delete. }
    rewrite (total_delete _ _ _ Hk) in *. destruct (Z.ltb_spec (total (items m) - cost it) 0); lia.
  - by apply map_Forall_delete.
Qed.

Lemma pushFront_wf m k it :
  mem_wf m -> items m !! k = None -> 0 <= cost it -> mem_wf (pushFront m k it).
Proof.
  intros [Hnd Hdom Hb Hc] Hk Hcost. split; simpl.
  - constructor; [|done]. rewrite Hdom, Hk. by intros [? ?].
  - intros x. rewrite elem_of_cons, Hdom, lookup_insert_is_Some.
    destruct (decide (k = x)); naive_solver.
  - rewrite total_insert, Hb by done. lia.
  - by apply map_Forall_insert_2.
Qed.

Lemma updateItem_wf m k it it' :
  mem_wf m -> items m !! k = Some it -> 0 <= cost it' -> mem_wf (updateItem m k it it').
Proof.
  intros [Hnd Hdom Hb Hc] Hk Hcost. split; simpl.
  - done.
  - intros x. rewrite Hdom, lookup_insert_is_Some.
    destruct (decide (k = x)) as [<-|]; [rewrite Hk|]; naive_solver.
  - rewrite (total_update _ _ _ _ Hk), Hb. lia.
  - by apply map_Forall_insert_2.
Qed.

Lemma moveToFront_wf m k : mem_wf m -> is_Some (items m !! k) -> mem_wf (moveToFront m k).
Proof.
  intros [Hnd Hdom Hb Hc] Hk. split; simpl; [| |done|done].
  - constructor; [rewrite elem_of_without; tauto|by apply without_NoDup].
  - intros x. rewrite elem_of_cons, elem_of_without, <- Hdom.
    destruct (decide (x = k)) as [->|]; [rewrite Hdom|]; tauto.
Qed.

Lemma clampBytes_wf m : mem_wf m -> mem_wf (clampBytes m).
Proof. intros H. by rewrite clampBytes_id. Qed.

Lemma entryCost_nonneg k e : 0 <= entryCost k e.
Proof. unfold entryCost, Cost. pose proof (len_nonneg k). pose proof (len_nonneg (Value e)). lia. Qed.

(** ** Eviction *)

Definition evictable (now : Z) (it : lruItem) : Prop :=
  pinned (entry it) && negb (Expired (entry it) now) = false.

#[global] Instance evictable_dec now it : Decision (evictable now it).
Proof. unfold evictable. apply _. Defined.

(** The walk returns the first evictable item, counted from the back. *)
Lemma victim_scan_spec now its back k it :
  victim_scan now its back = Some (k, it) ->
  exists newer older, back = older ++ k :: newer /\ its !! k = Some it /\ evictable now it /\
    forall k' it', k' ∈ older -> its !! k' = Some it' -> ~ evictable now it'.
Proof.
  induction back as [|x back IH]; simpl; [done|].
  destruct (its !! x) as [itx|] eqn:Ex.
  - destruct (pinned (entry itx) && negb (Expired (entry itx) now)) eqn:Ep.
    + intros (newer & older & -> & Hk & He & Hold)%IH. exists newer, (x :: older).
      split_and!; [done|done|done|]. intros k' it' [->|Hin]%elem_of_cons Hl; [|by eapply Hold].
      unfold evictable. rewrite Ex in Hl. injection Hl as <-. by rewrite Ep.
    + intros [= <- <-]. exists back, []. split_and!; try done. by intros ?? ?%elem_of_nil.
  - intros (newer & older & -> & Hk & He & Hold)%IH. exists newer, (x :: older).
    split_and!; [done|done|done|]. intros k' it' [->|Hin]%elem_of_cons Hl; [congruence|by eapply Hold].
Qed.

Lemma victim_scan_none now its back :
  victim_scan now its back = None ->
  forall k it, k ∈ back -> its !! k = Some it -> ~ evictable now it.
Proof.
  induction back as [|x back IH]; simpl; [by intros _ ?? ?%elem_of_nil|].
  intros Hv k it [->|Hin]%elem_of_cons Hl.
  - rewrite Hl in Hv. unfold evictable. by destruct (pinned _ && _).
  - destruct (its !! x); [destruct (pinned _ && _)|]; try done; by eapply IH.
Qed.

Lemma lruVictim_in now m k it : lruVictim now m = Some (k, it) -> items m !! k = Some it /\ evictable now it.
Proof. intros (? & ? & ? & ? & ? & ?)%victim_scan_spec. done. Qed.

Lemma lruVictim_none now m :
  mem_wf m -> lruVictim now m = None -> map_Forall (fun _ it => ~ evictable now it) (items m).
Proof.
  intros Hwf Hv k it Hk. eapply victim_scan_none; [done| |done].
  rewrite elem_of_reverse, (wf_dom _ Hwf). eauto.
Qed.

(** One round of the loop. *)
Inductive evict_step (now : Z) : Memory -> Memory -> Prop :=
| evict_one m k it :
    maxBytes m < mbytes m -> lruVictim now m = Some (k, it) ->
    evict_step now m (add_eviction (removeElement m k it)).

Abbreviation evict_steps now := (rtc (evict_step now)).

Lemma evict_step_wf now m m' : mem_wf m -> evict_step now m m' -> mem_wf m'.
Proof.
  intros Hwf Hs. destruct Hs as [m k it ? Hv]. apply lruVictim_in in Hv as [Hk _].
  destruct (removeElement_wf _ _ _ Hwf Hk). by split.
Qed.

Lemma evict_loop_steps now fuel m : evict_steps now m (evict_loop fuel now m).
Proof.
  revert m. induction fuel as [|f IH]; intros m; simpl; [done|].
  destruct (Z.ltb_spec (maxBytes m) (mbytes m)); [|done].
  destruct (0 <? len (order m)); [|done]. simpl.
  destruct (lruVictim now m) as [[k it]|] eqn:E; [|done].
  eapply rtc_l; [by apply evict_one|apply IH].
Qed.

Lemma evictLocked_steps now m : evict_steps now m (evictLocked now m).
Proof. unfold evictLocked. case_match; [done|apply evict_loop_steps]. Qed.

(** What survives any number of rounds. *)
Lemma evict_steps_ind now m m' (I : Memory -> Prop) :
  evict_steps now m m' -> I m ->
  (forall m k it, I m -> maxBytes m < mbytes m -> lruVictim now m = Some (k, it) ->
     I (add_eviction (removeElement m k it))) -> I m'.
Proof. intros Hs HI Hstep. induction Hs as [|m m1 m2 [? k it ? ?] _ IH]; [done|]. apply IH. by apply Hstep. Qed.

Lemma evictLocked_wf now m : mem_wf m -> mem_wf (evictLocked now m).
Proof.
  intros Hwf. eapply (evict_steps_ind now m _ mem_wf); [apply evictLocked_steps|done|].
  intros m0 k it H1 H2 H3. by apply (evict_step_wf now m0), evict_one.
Qed.

(** Entries are only dropped, never changed. *)
Lemma evictLocked_sub now m : items (evictLocked now m) ⊆ items m.
Proof.
  eapply (evict_steps_ind now m _ (fun m' => items m' ⊆ items m)); [apply evictLocked_steps|done|].
  intros m0 k it Hs _ _. simpl. etrans; [apply delete_subseteq|done].
Qed.

(** A live pinned entry stays, whatever the pressure. *)
Lemma evictLocked_keeps now m k it :
  items m !! k = Some it -> ~ evictable now it -> items (evictLocked now m) !! k = Some it.
Proof.
  intros Hk Hp. eapply (evict_steps_ind now m _ (fun m' => items m' !! k = Some it));
    [apply evictLocked_steps|done|].
  intros m0 k0 it0 H0 _ [Hv He]%lruVictim_in. simpl.
  rewrite lookup_delete_ne; [done|]. intros ->. congruence.
Qed.

Lemma evictLocked_params now m :
  maxBytes (evictLocked now m) = maxBytes m /\ tombstoneTTL (evictLocked now m) = tombstoneTTL m /\
  hits (evictLocked now m) = hits m /\ misses (evictLocked now m) = misses m /\
  staleSkip (evictLocked now m) = staleSkip m.
Proof.
  eapply (evict_steps_ind now m _ (fun m' => maxBytes m' = maxBytes m /\ tombstoneTTL m' = tombstoneTTL m
    /\ hits m' = hits m /\ misses m' = misses m /\ staleSkip m' = staleSkip m));
    [apply evictLocked_steps|done|done].
Qed.

(** The loop ends within the budget, or with live pinned entries only. *)
Lemma evict_loop_done now fuel m :
  mem_wf m -> (length (order m) <= fuel)%nat ->
  let m' := evict_loop fuel now m in
  mbytes m' <= maxBytes m' \/ map_Forall (fun _ it => ~ evictable now it) (items m').
Proof.
  revert m. induction fuel as [|f IH]; intros m Hwf Hf; simpl.
  { right. intros k it Hk. exfalso.
    assert (k ∈ order m) as Hin by (apply (wf_dom _ Hwf); eauto).
    apply elem_of_len in Hin. unfold len in Hin. lia. }
  destruct (Z.ltb_spec (maxBytes m) (mbytes m)); [|by left].
  destruct (Z.ltb_spec 0 (len (order m))).
  - simpl. destruct (lruVictim now m) as [[k it]|] eqn:E.
    + apply IH; [by eapply evict_step_wf, evict_one|]. apply lruVictim_in in E as [Hk _].
      assert (k ∈ order m) as Hin by (apply (wf_dom _ Hwf); eauto). simpl.
      pose proof (without_length k _ (wf_nodup _ Hwf) Hin). lia.
    + right. by eapply lruVictim_none.
  - right. intros k it Hk. exfalso.
    assert (k ∈ order m) as Hin by (apply (wf_dom _ Hwf); eauto).
    apply elem_of_len in Hin. lia.
Qed.

Lemma evictLocked_done now m :
  mem_wf m -> 0 < maxBytes m ->
  let m' := evictLocked now m in
  mbytes m' <= maxBytes m' \/ map_Forall (fun _ it => ~ evictable now it) (items m').
Proof.
  intros Hwf Hm. unfold evictLocked. destruct (Z.leb_spec (maxBytes m) 0); [lia|].
  by apply evict_loop_done.
Qed.

(** Within the budget nothing is evicted. *)
Lemma evictLocked_noop now m : maxBytes m <= 0 \/ mbytes m <= maxBytes m -> evictLocked now m = m.
Proof.
  intros H. unfold evictLocked. destruct (Z.leb_spec (maxBytes m) 0); [done|].
  destruct (length (order m)); [done|]. simpl.
  destruct (Z.ltb_spec (maxBytes m) (mbytes m)); [lia|done].
Qed.

#[export] Hint Resolve removeElement_wf pushFront_wf updateItem_wf moveToFront_wf clampBytes_wf
  evictLocked_wf entryCost_nonneg NewMemory_wf Close_wf : store.

(** ** Which entries eviction drops *)

(** [a] was used more recently than [b]. *)
Definition more_recent (o : list bytes) (a b : bytes) : Prop :=
  exists l1 l2, o = l1 ++ a :: l2 /\ b ∈ l2.

Lemma more_recent_without o k a b : more_recent (without k o) a b -> more_recent o a b.
Proof.
  intros (l1 & l2 & Ho & Hb). unfold without in Ho.
  assert (H : forall l, filter (fun x => x <> k) l = l1 ++ a :: l2 -> more_recent l a b).
  { clear Ho o. induction l1 as [|y l1 IH] in |- *; intros l.
    - induction l as [|x l IHl]; [done|]. rewrite filter_cons. case_decide.
      + intros [= -> Hf]. exists [], l. split; [done|].
        assert (b ∈ filter (fun x => x <> k) l) as [_ ?]%list_elem_of_filter by (by rewrite Hf). done.
      + intros (m1 & m2 & -> & ?)%IHl. by exists (x :: m1), m2.
    - induction l as [|x l IHl]; [done|]. rewrite filter_cons. case_decide.
      + intros [= -> (m1 & m2 & -> & ?)%IH]. by exists (y :: m1), m2.
      + intros (m1 & m2 & -> & ?)%IHl. by exists (x :: m1), m2. }
  by apply H.
Qed.

(** Every evictable item kept by the victim walk is more recent than the victim. *)
Lemma lruVictim_oldest now m k it k' it' :
  mem_wf m -> lruVictim now m = Some (k, it) -> items m !! k' = Some it' -> evictable now it' ->
  k' <> k -> more_recent (order m) k' k.
Proof.
  intros Hwf Hv Hk' He Hne. unfold lruVictim in Hv.
  apply victim_scan_spec in Hv as (newer & older & Ho & _ & _ & Hold).
  assert (Hin : k' ∈ order m) by (apply (wf_dom _ Hwf); eauto).
  rewrite <- elem_of_reverse, Ho, elem_of_app, elem_of_cons in Hin.
  destruct Hin as [Hin|[->|Hin]]; [by destruct (Hold k' it')|done|].
  apply list_elem_of_split in Hin as (n1 & n2 & ->).
  apply (f_equal reverse) in Ho. rewrite reverse_involutive in Ho.
  exists (reverse n2), (reverse n1 ++ k :: reverse older). split.
  - rewrite Ho. rewrite reverse_app, reverse_cons, reverse_app, reverse_cons. by rewrite <- !(assoc_L (++)).
  - set_solver.
Qed.

(** C10: eviction.  Shrinking a store with a byte budget ends within the budget
    or with live pinned entries only; a live pinned entry (a tombstone or a
    typed value) is never dropped, no entry is altered, and among the others
    the least recently used go first: an evictable entry is kept only if it is
    more recent than every entry dropped. *)
Theorem eviction_contract now m :
  mem_wf m -> 0 < maxBytes m ->
  let m' := evictLocked now m in
  (mbytes m' <= maxBytes m' \/ map_Forall (fun _ it => ~ evictable now it) (items m')) /\
  (forall k it, items m !! k = Some it -> ~ evictable now it -> items m' !! k = Some it) /\
  items m' ⊆ items m /\
  (forall k k' it', is_Some (items m !! k) -> items m' !! k = None ->
     items m' !! k' = Some it' -> evictable now it' -> more_recent (order m) k' k).
Proof.
  intros Hwf Hm. cbv zeta. split_and!.
  - by apply evictLocked_done.
  - apply evictLocked_keeps.
  - apply evictLocked_sub.
  - eapply (evict_steps_ind now m _ (fun m' => mem_wf m' /\
      (forall a b, more_recent (order m') a b -> more_recent (order m) a b) /\
      (forall k k' it', is_Some (items m !! k) -> items m' !! k = None ->
         items m' !! k' = Some it' -> evictable now it' -> more_recent (order m) k' k)));
      [apply evictLocked_steps| |].
    + split_and!; [done|done|]. intros k k' it' [it Hk] Hn. congruence.
    + intros m0 k0 it0 (Hwf0 & Hord & Hold) Hb Hv. split_and!.
      * by eapply evict_step_wf, evict_one.
      * intros a b Hab. apply Hord. exact (more_recent_without _ k0 a b Hab).
      * intros k k' it' Hk Hn. simpl in Hn |- *. rewrite lookup_delete_Some. intros [Hne Hk'] He.
        destruct (decide (k = k0)) as [->|Hk0].
        -- apply Hord. by apply (lruVictim_oldest now m0 k0 it0 k' it').
        -- rewrite lookup_delete_ne in Hn by done. by apply (Hold k k' it').
Qed.

(** Two 100-byte values under a 200-byte budget. *)
Definition wit_full : Memory :=
  pushFront (pushFront (NewMemory 200 0) [1] (newItem (mkEntry (replicate 100 0) 1 0 0) 165))
    [2] (newItem (mkEntry (replicate 100 0) 2 0 0) 165).

Lemma eviction_contract_witness :
  let m' := evictLocked 0 wit_full in
  items m' !! [1] = None /\ more_recent (order wit_full) [2] [1].
Proof.
  assert (Hwf : mem_wf wit_full).
  { apply pushFront_wf; [apply pushFront_wf; [apply NewMemory_wf|done|simpl; lia]|done|simpl; lia]. }
  split; [reflexivity|].
  destruct (eviction_contract 0 wit_full Hwf eq_refl) as (_ & _ & _ & H).
  eapply (H [1] [2]); [eexists; reflexivity|reflexivity|reflexivity|reflexivity].
Defined.
