(* ===== verification/StoreView.v ===== *)
(** * Lazy blobs and the observable store

    A typed item may hold a decoded value newer than its blob ([kdirty]).
    [item_ok] is the coherence invariant of the five decoded caches, [view]
    the map of live entries as Peek reports them, and [spec_*] the untyped
    operations on that map.  The theorems say that the store refines the map:
    exactly when it is unbounded, and up to the eviction of unpinned entries
    under a byte budget. *)
From S2P Require Import Prelude Wire Collections Scored Json JsonText Store StoreInv.

(** ** What a decoded kind promises to the store *)

Class KindLaws (T : Type) `{!Kind T} := {
  kok : T -> Prop;
  cache_with it c d : kcache T (with_cache it c d) = c;
  dirty_with it c d : kdirty T (with_cache it c d) = d;
  entry_with it c d : entry (with_cache (T := T) it c d) = entry it;
  cost_with it c d : cost (with_cache (T := T) it c d) = cost it;
  jdirty_with it c d : jDirty (with_cache (T := T) it c d) = jDirty it;
  jcache_with it c d : jCache (with_cache (T := T) it c d) = jCache it;
  cache_entry it e c : kcache T (with_entry it e c) = kcache T it;
  dirty_entry it e c : kdirty T (with_entry it e c) = kdirty T it;
  cache_new e c : kcache T (newItem e c) = None;
  dirty_new e c : kdirty T (newItem e c) = false;
  new_ok : kok knew;
  decode_encode c : kok c -> kdecode (kencode c) = Some c;
  approx_exact c : kok c -> kapprox c = len (kencode c);
  decode_ok b c : bytes_ok b -> kdecode b = Some c -> kok c;
  flag_tomb v ver ex : IsTombstone (mkEntry v ver ex (kflag T)) = false;
  flag_own v ver ex : has_flag (kflag T) (mkEntry v ver ex (kflag T)) = true;
  flag_pinned e : has_flag (kflag T) e = true -> pinned e = true;
}.

Ltac kind_laws := try reflexivity; try (intros; reflexivity).
Ltac pinned_tac :=
  intros e He; unfold pinned, IsTombstone, IsBloom, IsSet, IsZSet, IsGeo, IsList, IsHash,
    IsCounter, IsJSON, IsBitmap, IsHLL, IsTopK, IsCMS, IsVectorSet, IsStream; simpl in He;
  rewrite He, ?orb_true_r; reflexivity.

#[global] Program Instance SetLaws : KindLaws SetT := {| kok := set_fits |}.
Solve Obligations with kind_laws.
Next Obligation. intros x Hx. set_solver. Qed.
Next Obligation. intros c. apply Set_DecodeSet_Encode. Qed.
Next Obligation. intros c. apply Set_ApproxWireBytes_exact. Qed.
Next Obligation. intros b c _. apply Set_DecodeSet_fits. Qed.
Next Obligation. pinned_tac. Qed.

#[global] Program Instance ZSetLaws : KindLaws ZSetT := {| kok := zset_ok |}.
Solve Obligations with kind_laws.
Next Obligation. intros k s. simpl. unfold ZSet_New, Geo_New, Hash_New. by rewrite lookup_empty. Qed.
Next Obligation. intros c. apply ZSet_Decode_Encode. Qed.
Next Obligation. intros c. apply ZSet_ApproxWireBytes_exact. Qed.
Next Obligation. intros b c. apply ZSet_Decode_ok. Qed.
Next Obligation. pinned_tac. Qed.

#[global] Program Instance GeoLaws : KindLaws GeoT := {| kok := geo_ok |}.
Solve Obligations with kind_laws.
Next Obligation. intros k s. simpl. unfold ZSet_New, Geo_New, Hash_New. by rewrite lookup_empty. Qed.
Next Obligation. intros c. apply Geo_Decode_Encode. Qed.
Next Obligation. intros c. apply Geo_ApproxWireBytes_exact. Qed.
Next Obligation. intros b c. apply Geo_Decode_ok. Qed.
Next Obligation. pinned_tac. Qed.

#[global] Program Instance ListLaws : KindLaws ListT := {| kok := Forall fits |}.
Solve Obligations with kind_laws.
Next Obligation. constructor. Qed.
Next Obligation. intros c. apply List_Decode_Encode. Qed.
Next Obligation. intros c. apply List_ApproxWireBytes_exact. Qed.
Next Obligation. intros b c _. apply set_decode_loop_fits. Qed.
Next Obligation. pinned_tac. Qed.

#[global] Program Instance HashLaws : KindLaws HashT := {| kok := hash_fits |}.
Solve Obligations with kind_laws.
Next Obligation. intros k s. simpl. unfold ZSet_New, Geo_New, Hash_New. by rewrite lookup_empty. Qed.
Next Obligation. intros c. apply Hash_Decode_Encode. Qed.
Next Obligation. intros c. apply Hash_ApproxWireBytes_exact. Qed.
Next Obligation. intros b c _. apply Hash_Decode_fits. Qed.
Next Obligation. pinned_tac. Qed.

(** ** Coherence of the decoded caches *)

Definition kind_ok (T : Type) `{KindLaws T} (it : lruItem) : Prop :=
  has_flag (kflag T) (entry it) = true ->
  match kcache T it with
  | None => kdirty T it = false /\ bytes_ok (Value (entry it))
  | Some c =>
      kok c /\ if kdirty T it then Flags (entry it) = kflag T
               else kdecode (Value (entry it)) = Some c
  end.

(** None of the five kinds with a lazy blob. *)
Definition unkinded (e : Entry) : bool :=
  negb (IsSet e) && negb (IsZSet e) && negb (IsGeo e) && negb (IsList e) && negb (IsHash e).

(** No decoded cache at all: a plain value, a negative, a tombstone, a blob. *)
Definition untyped (e : Entry) : bool := unkinded e && negb (IsJSON e).

(** The store writes a document's blob at once, so a cached document is the
    decoding of the blob.  A cached null is indistinguishable from no cache. *)
Definition doc_ok (it : lruItem) : Prop :=
  jDirty it = false /\
  (IsJSON (entry it) = true ->
   jCache it = JNull /\ bytes_ok (Value (entry it)) \/
   json_ok (jCache it) /\ Json_Decode (Value (entry it)) = Some (jCache it)).

(** A Bloom entry carries no decoded kind: its blob is updated in place. *)
Definition one_kind (e : Entry) : Prop := IsBloom e = true -> untyped e = true.

(** What the callers of Set and AcceptIfNewer owe: bytes, and no clash of kinds. *)
Definition entry_ok (e : Entry) : Prop := bytes_ok (Value e) /\ one_kind e.

Record item_ok (it : lruItem) : Prop := {
  ok_set : kind_ok SetT it;
  ok_zset : kind_ok ZSetT it;
  ok_geo : kind_ok GeoT it;
  ok_list : kind_ok ListT it;
  ok_hash : kind_ok HashT it;
  ok_json : doc_ok it;
  ok_bloom : one_kind (entry it);
}.

Lemma one_kind_ext e e' : Flags e = Flags e' -> one_kind e' -> one_kind e.
Proof. unfold one_kind, untyped, unkinded, IsJSON, IsBloom, IsSet, IsZSet, IsGeo, IsList, IsHash, has_flag. by intros ->. Qed.

Definition store_ok (m : Memory) : Prop := mem_wf m /\ map_Forall (fun _ it => item_ok it) (items m).

(** The decoded value a typed read sees. *)
Definition tview {T} `{Kind T} (it : lruItem) : option T :=
  match kcache T it with Some c => Some c | None => kdecode (Value (entry it)) end.

(** ** Flushing *)

Definition flush1 (T : Type) `{Kind T} (key : bytes) (it : lruItem) : lruItem :=
  match kcache T it with
  | Some c =>
      if kdirty T it && has_flag (kflag T) (entry it) then
        let e := mkEntry (kencode c) (Version (entry it)) (ExpireAt (entry it)) (Flags (entry it)) in
        with_entry (with_cache it (Some c) false) e (entryCost key e)
      else it
  | None => it
  end.

Definition flush_item (key : bytes) (it : lruItem) : lruItem :=
  flush1 HashT key (flush1 ListT key (flush1 GeoT key (flush1 ZSetT key (flush1 SetT key it)))).

Lemma updateItem_same m k it : items m !! k = Some it -> updateItem m k it it = m.
Proof.
  intros Hk. destruct m; unfold updateItem, with_content; simpl in *. f_equal; [lia|].
  by apply insert_id.
Qed.

Lemma updateItem_twice m k a b c : updateItem (updateItem m k a b) k b c = updateItem m k a c.
Proof. unfold updateItem, with_content. simpl. f_equal; [lia|]. apply insert_insert_eq. Qed.

Lemma lookup_updateItem m k it it' : items (updateItem m k it it') !! k = Some it'.
Proof. apply lookup_insert_eq. Qed.

Section kind.
Context {T : Type} `{KindLaws T}.

Lemma flush1_cost key it : 0 <= cost it -> 0 <= cost (flush1 T key it).
Proof. unfold flush1. repeat case_match; [|done..]. intros _. apply entryCost_nonneg. Qed.

Lemma flushValueLocked_eq m key it :
  mem_wf m -> items m !! key = Some it ->
  flushValueLocked (T := T) m key it = (updateItem m key it (flush1 T key it), flush1 T key it).
Proof.
  intros Hwf Hk. unfold flushValueLocked, flush1.
  destruct (kcache T it) as [c|]; [|by rewrite updateItem_same].
  destruct (kdirty T it && has_flag (kflag T) (entry it)); [|by rewrite updateItem_same].
  rewrite clampBytes_id; [done|]. apply updateItem_wf; [done|done|apply entryCost_nonneg].
Qed.

Lemma flush1_meta key it :
  let e := entry (flush1 T key it) in
  Version e = Version (entry it) /\ ExpireAt e = ExpireAt (entry it) /\ Flags e = Flags (entry it).
Proof. unfold flush1. repeat case_match; done. Qed.

(** Flushing does not change what a typed read of the same kind sees, and
    leaves the blob current. *)
Lemma flush1_own key it :
  has_flag (kflag T) (entry it) = true -> kind_ok T it ->
  tview (T := T) (flush1 T key it) = tview (T := T) it /\
  kdecode (Value (entry (flush1 T key it))) = tview (T := T) it.
Proof.
  unfold kind_ok, tview, flush1. intros Hf Hok. specialize (Hok Hf). rewrite Hf.
  destruct (kcache T it) as [c|] eqn:Ec; [|by rewrite Ec].
  destruct Hok as [Hc Hd], (kdirty T it); simpl.
  - rewrite cache_entry, cache_with. split; [done|by apply decode_encode].
  - by rewrite Ec.
Qed.

(** An item that is not dirty in this kind is not touched. *)
Lemma flush1_id key it :
  has_flag (kflag T) (entry it) = false \/ kdirty T it = false -> flush1 T key it = it.
Proof.
  unfold flush1. intros [-> | ->]; destruct (kcache T it); rewrite ?andb_false_r; done.
Qed.

Lemma kind_ok_unflagged it : has_flag (kflag T) (entry it) = false -> kind_ok T it.
Proof. unfold kind_ok. by intros ->. Qed.

Lemma kind_ok_new e c : bytes_ok (Value e) -> kind_ok T (newItem e c).
Proof. intros Hb _. by rewrite cache_new, dirty_new. Qed.

Lemma flush1_kind_ok key it : kind_ok T it -> kind_ok T (flush1 T key it).
Proof.
  intros Hok. destruct (has_flag (kflag T) (entry it)) eqn:Hf; [|by rewrite flush1_id by auto].
  specialize (Hok Hf). unfold kind_ok, flush1. rewrite Hf.
  destruct (kcache T it) as [c|] eqn:Ec; [|by rewrite Ec].
  destruct Hok as [Hc Hd], (kdirty T it) eqn:Ed; simpl.
  - rewrite cache_entry, cache_with, dirty_entry, dirty_with. intros _. split; [done|].
    by apply decode_encode.
  - by rewrite Ec, Ed.
Qed.

(** Dirty in one kind means flagged with that kind alone. *)
Lemma dirty_flags it :
  kind_ok T it -> has_flag (kflag T) (entry it) = true -> is_Some (kcache T it) ->
  kdirty T it = true -> Flags (entry it) = kflag T.
Proof.
  unfold kind_ok. intros Hok Hf [c Hc] Hd. specialize (Hok Hf). rewrite Hc, Hd in Hok. tauto.
Qed.

(** Either nothing is pending, or the item belongs to this kind alone. *)
Lemma flush1_cases key it :
  kind_ok T it ->
  flush1 T key it = it \/ Flags (entry it) = kflag T.
Proof.
  intros Hok. unfold flush1.
  destruct (kcache T it) as [c|] eqn:Ec; [|by left].
  destruct (kdirty T it) eqn:Ed; [|by left].
  destruct (has_flag (kflag T) (entry it)) eqn:Ef; [|by left]. right.
  apply dirty_flags; rewrite ?Ec; eauto.
Qed.
End kind.

Lemma has_flag_ext f e e' : Flags e = Flags e' -> has_flag f e = has_flag f e'.
Proof. unfold has_flag. by intros ->. Qed.

Lemma Expired_ext e e' now : ExpireAt e = ExpireAt e' -> Expired e now = Expired e' now.
Proof. unfold Expired. by intros ->. Qed.

(** ** All kinds together *)

(** What the generic operations need to know about one of the five kinds
    among the others: their flag bits do not overlap. *)
Class StoreKind (T : Type) `{!Kind T, !KindLaws T} := {
  sk_ok it : item_ok it -> kind_ok T it;
  sk_only it : Flags (entry it) = kflag T -> kind_ok T it -> jDirty it = false -> item_ok it;
  sk_flush key it :
    item_ok it -> has_flag (kflag T) (entry it) = true -> flush_item key it = flush1 T key it;
  sk_flush_ok key it : item_ok it -> item_ok (flush1 T key it);
  sk_warm it c d : item_ok it -> kind_ok T (with_cache it c d) -> item_ok (with_cache (T := T) it c d);
}.

Lemma flag_other f g e : Flags e = f -> Z.land f g = 0 -> has_flag g e = false.
Proof. unfold has_flag. by intros -> ->. Qed.

Ltac other_kind Hf := apply kind_ok_unflagged; apply (flag_other _ _ _ Hf); reflexivity.

(** In a kind whose flag the item does not carry alone, nothing is pending. *)
Lemma flush1_other (T : Type) `{KindLaws T} f key it :
  kind_ok T it -> has_flag f (entry it) = true -> Z.land (kflag T) f = 0 -> flush1 T key it = it.
Proof.
  intros Hok Hf Hland. destruct (flush1_cases key it Hok) as [|Hfl]; [done|].
  by rewrite (flag_other _ _ _ Hfl Hland) in Hf.
Qed.

Lemma flush1_jDirty (T : Type) `{KindLaws T} key it : jDirty (flush1 T key it) = jDirty it.
Proof. unfold flush1. repeat case_match; try done. simpl. apply jdirty_with. Qed.

(** Flushing one kind keeps an item coherent in another. *)
Lemma flush1_kind_other (T T' : Type) `{KindLaws T} `{KindLaws T'} key it :
  Z.land (kflag T) (kflag T') = 0 -> kind_ok T it -> kind_ok T' it -> kind_ok T' (flush1 T key it).
Proof.
  intros Hland HT HT'. destruct (flush1_cases key it HT) as [->|Hfl]; [done|].
  apply kind_ok_unflagged, (flag_other (kflag T)); [|done].
  destruct (flush1_meta (T := T) key it) as (_ & _ & ->). done.
Qed.

Lemma flush1_jCache (T : Type) `{KindLaws T} key it : jCache (flush1 T key it) = jCache it.
Proof. unfold flush1. repeat case_match; try done. simpl. apply jcache_with. Qed.

Lemma flush1_doc_ok (T : Type) `{KindLaws T} key it :
  Z.land (kflag T) FlagJSON = 0 -> kind_ok T it -> doc_ok it -> doc_ok (flush1 T key it).
Proof.
  intros Hland HT Hd. destruct (flush1_cases key it HT) as [->|Hfl]; [done|]. destruct Hd as [Hd _].
  split; [by rewrite (flush1_jDirty T)|]. unfold IsJSON. rewrite (flag_other (kflag T)); [done| |done].
  destruct (flush1_meta (T := T) key it) as (_ & _ & ->). done.
Qed.

Lemma doc_ok_unflagged it : IsJSON (entry it) = false -> jDirty it = false -> doc_ok it.
Proof. intros Hf Hd. split; [done|]. by rewrite Hf. Qed.

Ltac flush_ok_tac :=
  intros key it []; split;
  [first [by apply flush1_kind_ok | match goal with |- kind_ok ?T' (flush1 ?T _ _) =>
     apply (flush1_kind_other T T'); [reflexivity|assumption..] end] ..
  |match goal with |- doc_ok (flush1 ?T _ _) => by apply (flush1_doc_ok T) end
  |match goal with H : one_kind _ |- one_kind (entry (flush1 ?T _ _)) => eapply one_kind_ext, H;
     by destruct (flush1_meta (T := T) key it) as (_ & _ & ->) end].

Ltac warm_tac := intros it c d [] Hk; split; first [exact Hk | assumption].

Ltac only_tac :=
  intros it Hf Hk Hj; split; [first [exact Hk | other_kind Hf] .. | apply doc_ok_unflagged; [by apply (flag_other _ _ _ Hf)|exact Hj] |];
  apply (one_kind_ext _ (mkEntry [] 0 0 (Flags (entry it)))); [done|]; rewrite Hf; done.

(** Nothing is pending in the kinds flushed before or after the item's own. *)
Lemma flush1_after (T T' : Type) `{KindLaws T} `{KindLaws T'} key it :
  Z.land (kflag T) (kflag T') = 0 -> Z.land (kflag T') (kflag T) = 0 ->
  kind_ok T it -> kind_ok T' it -> has_flag (kflag T) (entry it) = true ->
  flush1 T' key (flush1 T key it) = flush1 T key it.
Proof.
  intros Hl Hl' HT HT' Hf. apply (flush1_other T' (kflag T)); [by eapply flush1_kind_other| |done].
  rewrite <- Hf. apply has_flag_ext. by destruct (flush1_meta (T := T) key it) as (_ & _ & ->).
Qed.

Tactic Notation "flush_tac" constr(Tself) :=
  intros key it [] Hf; unfold flush_item;
  repeat first
    [ rewrite (flush1_after Tself SetT key it) by done | rewrite (flush1_after Tself ZSetT key it) by done
    | rewrite (flush1_after Tself GeoT key it) by done | rewrite (flush1_after Tself ListT key it) by done
    | rewrite (flush1_after Tself HashT key it) by done
    | rewrite (flush1_other SetT (kflag Tself) key it) by done
    | rewrite (flush1_other ZSetT (kflag Tself) key it) by done
    | rewrite (flush1_other GeoT (kflag Tself) key it) by done
    | rewrite (flush1_other ListT (kflag Tself) key it) by done
    | rewrite (flush1_other HashT (kflag Tself) key it) by done ];
  reflexivity.

#[global] Instance SetStoreKind : StoreKind SetT.
Proof. split; [by intros it []|only_tac|flush_tac SetT|flush_ok_tac|warm_tac]. Qed.
#[global] Instance ZSetStoreKind : StoreKind ZSetT.
Proof. split; [by intros it []|only_tac|flush_tac ZSetT|flush_ok_tac|warm_tac]. Qed.
#[global] Instance GeoStoreKind : StoreKind GeoT.
Proof. split; [by intros it []|only_tac|flush_tac GeoT|flush_ok_tac|warm_tac]. Qed.
#[global] Instance ListStoreKind : StoreKind ListT.
Proof. split; [by intros it []|only_tac|flush_tac ListT|flush_ok_tac|warm_tac]. Qed.
#[global] Instance HashStoreKind : StoreKind HashT.
Proof. split; [by intros it []|only_tac|flush_tac HashT|flush_ok_tac|warm_tac]. Qed.

Lemma flush1_idem (T : Type) `{KindLaws T} key it :
  flush1 T key (flush1 T key it) = flush1 T key it.
Proof.
  unfold flush1. destruct (kcache T it) as [c|] eqn:Ec; [|by rewrite Ec].
  destruct (kdirty T it && has_flag (kflag T) (entry it)) eqn:Ed; [|by rewrite Ec, Ed].
  by rewrite cache_entry, cache_with, dirty_entry, dirty_with.
Qed.

(** Either no blob is pending, or exactly one kind is. *)
Inductive pending (key : bytes) (it : lruItem) : Prop :=
| pending_none : flush_item key it = it -> pending key it
| pending_kind T `{StoreKind T} :
    has_flag (kflag T) (entry it) = true -> flush_item key it = flush1 T key it -> pending key it.

Arguments pending_kind key it T {_ _ _} _ _.

Lemma flag_exact (T : Type) `{KindLaws T} e : Flags e = kflag T -> has_flag (kflag T) e = true.
Proof. intros Hf. rewrite <- (flag_own [] 0 0). by apply has_flag_ext. Qed.

Lemma pending_flag (T : Type) `{StoreKind T} key it :
  item_ok it -> Flags (entry it) = kflag T -> pending key it.
Proof.
  intros Hok Hf. apply (flag_exact T) in Hf. apply (pending_kind key it T); [done|]. by apply sk_flush.
Qed.

Lemma pending_cases key it : item_ok it -> pending key it.
Proof.
  intros Hok. pose proof Hok as [].
  destruct (flush1_cases (T := SetT) key it) as [E1|?]; [done| |by eapply (pending_flag SetT)].
  destruct (flush1_cases (T := ZSetT) key it) as [E2|?]; [done| |by eapply (pending_flag ZSetT)].
  destruct (flush1_cases (T := GeoT) key it) as [E3|?]; [done| |by eapply (pending_flag GeoT)].
  destruct (flush1_cases (T := ListT) key it) as [E4|?]; [done| |by eapply (pending_flag ListT)].
  destruct (flush1_cases (T := HashT) key it) as [E5|?]; [done| |by eapply (pending_flag HashT)].
  apply pending_none. unfold flush_item. by rewrite E1, E2, E3, E4, E5.
Qed.

Lemma flush_item_meta key it :
  let e := entry (flush_item key it) in
  Version e = Version (entry it) /\ ExpireAt e = ExpireAt (entry it) /\ Flags e = Flags (entry it).
Proof.
  unfold flush_item. cbv zeta.
  repeat match goal with |- context [flush1 ?T key ?x] =>
    lazymatch x with context [flush1] => fail | _ =>
      let E := fresh in pose proof (flush1_meta (T := T) key x) as E; cbv zeta in E;
      generalize dependent (flush1 T key x); intros ? (? & ? & ?) end end.
  split_and!; congruence.
Qed.

Lemma flush_item_ok key it : item_ok it -> item_ok (flush_item key it).
Proof. intros Hok. unfold flush_item. by do 5 apply sk_flush_ok. Qed.

Lemma flush_item_idem key it : item_ok it -> flush_item key (flush_item key it) = flush_item key it.
Proof.
  intros Hok. destruct (pending_cases key it Hok) as [E|T ? ? ? Hf E]; [by rewrite !E|].
  assert (Hf' : has_flag (kflag T) (entry (flush1 T key it)) = true).
  { rewrite <- Hf. apply has_flag_ext. by destruct (flush1_meta (T := T) key it) as (_ & _ & ->). }
  rewrite E, (sk_flush key (flush1 T key it) (sk_flush_ok key it Hok) Hf'). by apply flush1_idem.
Qed.

Lemma flush_item_cost key it : 0 <= cost it -> 0 <= cost (flush_item key it).
Proof. intros Hc. unfold flush_item. by do 5 apply flush1_cost. Qed.

Lemma flush_item_jDirty key it : jDirty (flush_item key it) = jDirty it.
Proof.
  unfold flush_item. by rewrite (flush1_jDirty HashT), (flush1_jDirty ListT), (flush1_jDirty GeoT),
    (flush1_jDirty ZSetT), (flush1_jDirty SetT).
Qed.

Lemma flushAll_eq m key it :
  mem_wf m -> items m !! key = Some it -> jDirty it = false ->
  flushAll m key it = (updateItem m key it (flush_item key it), flush_item key it).
Proof.
  intros Hwf Hk Hj. pose proof (wf_cost _ Hwf _ _ Hk) as Hc. simpl in Hc.
  unfold flushAll, flushSetValueLocked, flushZSetValueLocked, flushGeoValueLocked,
    flushListValueLocked, flushHashValueLocked.
  rewrite flushValueLocked_eq by done.
  assert (Hu : forall it', 0 <= cost it' ->
    mem_wf (updateItem m key it it') /\ items (updateItem m key it it') !! key = Some it').
  { intros it' Hc'. split; [by apply updateItem_wf|apply lookup_updateItem]. }
  do 4 (rewrite flushValueLocked_eq, updateItem_twice by (apply Hu; by repeat apply flush1_cost)).
  pose proof (flush_item_jDirty key it) as Hj'. unfold flush_item in *.
  unfold flushJSONValueLocked. by rewrite Hj', Hj.
Qed.

(** ** The observable map *)

Definition view (now : Z) (m : Memory) : gmap bytes Entry :=
  map_imap (fun k it => if Expired (entry it) now then None else Some (entry (flush_item k it)))
    (items m).

Lemma lookup_view now m k :
  view now m !! k =
  match items m !! k with
  | None => None
  | Some it => if Expired (entry it) now then None else Some (entry (flush_item k it))
  end.
Proof. unfold view. rewrite map_lookup_imap. by destruct (items m !! k). Qed.

Lemma view_ext now m m' : items m = items m' -> view now m = view now m'.
Proof. unfold view. by intros ->. Qed.

Lemma view_delete now m k :
  map_imap (fun k it => if Expired (entry it) now then None else Some (entry (flush_item k it)))
    (delete k (items m)) = delete k (view now m).
Proof.
  apply map_eq. intros x. rewrite map_lookup_imap. unfold view.
  destruct (decide (x = k)) as [->|]; [by rewrite !lookup_delete_eq|].
  by rewrite !lookup_delete_ne, map_lookup_imap by done.
Qed.

(** Removing an expired item is not observable. *)
Lemma view_remove_expired now m k it :
  items m !! k = Some it -> Expired (entry it) now = true ->
  view now (removeElement m k it) = view now m.
Proof.
  intros Hk He. unfold view at 1. simpl. rewrite view_delete.
  apply delete_id. by rewrite lookup_view, Hk, He.
Qed.

(** ** Refinement of the observable map *)

(** [m] implements the map [s]: it shows nothing else, it keeps every pinned
    entry of [s], and without a budget it is exactly [s]. *)
Record refines (now : Z) (s : gmap bytes Entry) (m : Memory) : Prop := {
  ref_sub : view now m ⊆ s;
  ref_pinned k e : s !! k = Some e -> pinned e = true -> view now m !! k = Some e;
  ref_exact : maxBytes m <= 0 -> view now m = s;
}.

Lemma refines_view now m : refines now (view now m) m.
Proof. by split. Qed.

Lemma pinned_ext e e' : Flags e = Flags e' -> pinned e = pinned e'.
Proof.
  intros Hf. unfold pinned, IsTombstone, IsBloom, IsSet, IsZSet, IsGeo, IsList, IsHash,
    IsCounter, IsJSON, IsBitmap, IsHLL, IsTopK, IsCMS, IsVectorSet, IsStream.
  by rewrite !(has_flag_ext _ e e' Hf).
Qed.

Lemma view_sub now m m' : items m' ⊆ items m -> view now m' ⊆ view now m.
Proof.
  intros Hs. apply map_subseteq_spec. intros k e. rewrite !lookup_view.
  destruct (items m' !! k) as [it|] eqn:E; [|done].
  by rewrite (lookup_weaken _ _ _ _ E Hs).
Qed.

Lemma refines_evict now m : refines now (view now m) (evictLocked now m).
Proof.
  split.
  - apply view_sub, evictLocked_sub.
  - intros k e. rewrite !lookup_view. destruct (items m !! k) as [it|] eqn:E; [|done].
    destruct (Expired (entry it) now) eqn:Ex; [done|]. intros [= <-] Hp.
    rewrite (evictLocked_keeps now m k it E), Ex; [done|].
    rewrite (pinned_ext _ (entry it)) in Hp by (by destruct (flush_item_meta k it) as (_ & _ & ->)).
    unfold evictable. by rewrite Hp, Ex.
  - intros Hm. rewrite evictLocked_noop; [done|].
    left. by destruct (evictLocked_params now m) as (<- & _).
Qed.

Lemma refines_ext now s m m' : items m = items m' -> maxBytes m = maxBytes m' -> refines now s m -> refines now s m'.
Proof.
  intros Hi Hm [H1 H2 H3]. rewrite (view_ext now m m' Hi) in *.
  split; [done|done|by rewrite <- Hm].
Qed.

(** Writing an entry that may already be expired. *)
Definition insert_live (now : Z) (k : bytes) (e : Entry) (s : gmap bytes Entry) : gmap bytes Entry :=
  if Expired e now then delete k s else <[k := e]> s.

Lemma view_insert now m m' k it :
  items m' = <[k := it]> (items m) ->
  view now m' = insert_live now k (entry (flush_item k it)) (view now m).
Proof.
  intros Hi. apply map_eq. intros x. unfold insert_live.
  rewrite (Expired_ext _ (entry it)) by (by destruct (flush_item_meta k it) as (_ & -> & _)).
  rewrite lookup_view, Hi. destruct (decide (x = k)) as [->|].
  - rewrite lookup_insert_eq. case_match; [by rewrite lookup_delete_eq|by rewrite lookup_insert_eq].
  - rewrite lookup_insert_ne by done.
    rewrite <- lookup_view. case_match; [by rewrite lookup_delete_ne|by rewrite lookup_insert_ne].
Qed.

Lemma flush_new k e c : flush_item k (newItem e c) = newItem e c.
Proof. done. Qed.

Lemma view_insertNew now m k e : view now (insertNew m k e) = insert_live now k e (view now m).
Proof. rewrite (view_insert now m _ k (newItem (copyEntry e) (entryCost k e))) by done. by rewrite flush_new, copyEntry_id. Qed.

Lemma view_replaceItem now m k it e :
  view now (replaceItem m k it e) = insert_live now k e (view now m).
Proof. rewrite (view_insert now m _ k (newItem (copyEntry e) (entryCost k e))) by done. by rewrite flush_new, copyEntry_id. Qed.

Lemma unkinded_flags e : unkinded e = true ->
  has_flag (kflag SetT) e = false /\ has_flag (kflag ZSetT) e = false /\
  has_flag (kflag GeoT) e = false /\ has_flag (kflag ListT) e = false /\
  has_flag (kflag HashT) e = false.
Proof. unfold unkinded, IsSet, IsZSet, IsGeo, IsList, IsHash. intros H. by zprop. Qed.

Lemma untyped_inv e : untyped e = true -> unkinded e = true /\ IsJSON e = false.
Proof. unfold untyped. intros H. by zprop. Qed.

Lemma flush_unkinded k it : unkinded (entry it) = true -> flush_item k it = it.
Proof.
  intros (H1 & H2 & H3 & H4 & H5)%unkinded_flags. unfold flush_item.
  rewrite (flush1_id (T := SetT)) by auto. rewrite (flush1_id (T := ZSetT)) by auto.
  rewrite (flush1_id (T := GeoT)) by auto. rewrite (flush1_id (T := ListT)) by auto.
  by rewrite (flush1_id (T := HashT)) by auto.
Qed.

Lemma flush_untyped k it : untyped (entry it) = true -> flush_item k it = it.
Proof. intros [Hu _]%untyped_inv. by apply flush_unkinded. Qed.

Lemma view_overwriteEntry now m k it e :
  untyped e = true ->
  view now (overwriteEntry m k it e) = insert_live now k e (view now m).
Proof.
  intros Hu. rewrite (view_insert now m _ k (with_entry it (copyEntry e) (entryCost k e))) by done.
  rewrite flush_untyped; rewrite copyEntry_id; done.
Qed.

(** ** Coherence is preserved *)

Lemma item_ok_new e c : entry_ok e -> item_ok (newItem e c).
Proof. intros [Hb Ho]. split; try by apply kind_ok_new. all: [>split; [done|by left]|done]. Qed.

Lemma item_ok_untyped it e c : untyped e = true -> item_ok it -> item_ok (with_entry it e c).
Proof.
  intros Hu []. destruct (untyped_inv e Hu) as [(H1 & H2 & H3 & H4 & H5)%unkinded_flags Hj].
  split; [by apply kind_ok_unflagged ..|apply doc_ok_unflagged; [done|by destruct ok_json0]|by intros _].
Qed.

Lemma evictLocked_ok now m : store_ok m -> store_ok (evictLocked now m).
Proof.
  intros [Hwf Hok]. split; [by apply evictLocked_wf|].
  intros k it Hk. apply (Hok k). eapply lookup_weaken; [done|apply evictLocked_sub].
Qed.

Lemma removeElement_ok m k it : store_ok m -> items m !! k = Some it -> store_ok (removeElement m k it).
Proof.
  intros [Hwf Hok] Hk. split; [by apply removeElement_wf|]. by apply map_Forall_delete.
Qed.

Lemma pushFront_ok m k it :
  store_ok m -> items m !! k = None -> 0 <= cost it -> item_ok it -> store_ok (pushFront m k it).
Proof. intros [Hwf Hok] Hk Hc Hit. split; [by apply pushFront_wf|]. by apply map_Forall_insert_2. Qed.

Lemma updateItem_ok m k it it' :
  store_ok m -> items m !! k = Some it -> 0 <= cost it' -> item_ok it' -> store_ok (updateItem m k it it').
Proof. intros [Hwf Hok] Hk Hc Hit. split; [by apply updateItem_wf|]. by apply map_Forall_insert_2. Qed.

Lemma moveToFront_ok m k : store_ok m -> is_Some (items m !! k) -> store_ok (moveToFront m k).
Proof. intros [Hwf Hok] Hk. split; [by apply moveToFront_wf|done]. Qed.

Lemma clampBytes_ok m : store_ok m -> store_ok (clampBytes m).
Proof. intros Hok. rewrite clampBytes_id by apply Hok. done. Qed.

Lemma insertNew_ok m k e :
  store_ok m -> items m !! k = None -> entry_ok e -> store_ok (insertNew m k e).
Proof. intros. apply pushFront_ok; auto using item_ok_new with store. apply entryCost_nonneg. Qed.

Lemma replaceItem_ok m k it e :
  store_ok m -> items m !! k = Some it -> entry_ok e -> store_ok (replaceItem m k it e).
Proof.
  intros. apply moveToFront_ok; [|rewrite lookup_updateItem; eauto].
  apply updateItem_ok; auto using item_ok_new. apply entryCost_nonneg.
Qed.

Lemma overwriteEntry_ok m k it e :
  store_ok m -> items m !! k = Some it -> untyped e = true -> store_ok (overwriteEntry m k it e).
Proof.
  intros Hok Hk Hu. apply moveToFront_ok; [|rewrite lookup_updateItem; eauto].
  apply updateItem_ok; [done|done|apply entryCost_nonneg|].
  rewrite copyEntry_id. apply item_ok_untyped; [done|by apply (proj2 Hok k)].
Qed.

(** The counters are not part of the invariant. *)
Lemma store_ok_ext m m' :
  items m = items m' -> order m = order m' -> mbytes m = mbytes m' -> store_ok m -> store_ok m'.
Proof. unfold store_ok. intros Hi Ho Hb [[H1 H2 H3 H4] H5]. rewrite Hi, Ho, Hb in *. done. Qed.

Lemma NewMemory_ok mb ttl : store_ok (NewMemory mb ttl).
Proof. split; [apply NewMemory_wf|apply map_Forall_empty]. Qed.

#[export] Hint Resolve evictLocked_ok removeElement_ok pushFront_ok updateItem_ok moveToFront_ok
  clampBytes_ok insertNew_ok replaceItem_ok overwriteEntry_ok : store.
