(* ===== verification/StoreProps.v ===== *)
(** * The untyped operations refine a versioned map

    [spec_*] state pkg/store/memory.go's contract on the observable map of
    live entries; the [_refines] theorems prove it of the LRU store.  On an
    unbounded store replicas that apply the same versioned puts and deletes in
    any order agree ([replicas_converge]). *)
From S2P Require Import Prelude Wire Collections Scored Json Store StoreInv StoreView.

Implicit Types (m : Memory) (e : Entry) (k : bytes) (s : gmap bytes Entry).

(** ** Specifications *)

Definition spec_Set (now : Z) (big : bool) (s : gmap bytes Entry) (k : bytes) (e : Entry)
    : bool * gmap bytes Entry :=
  if big then (false, s) else (true, insert_live now k e s).

(** Stored when the key is not live or the version is strictly newer. *)
Definition newer_than (s : gmap bytes Entry) (k : bytes) (v : Z) : bool :=
  match s !! k with None => true | Some e0 => Version e0 <? v end.

Definition spec_AcceptIfNewer (now : Z) (big : bool) (s : gmap bytes Entry) (k : bytes) (e : Entry)
    : bool * gmap bytes Entry :=
  if newer_than s k (Version e) && negb big then (true, insert_live now k e s) else (false, s).

(** Only a missing key, an older negative or an older tombstone gives way. *)
Definition spec_AcceptNegative (now : Z) (big : bool) (s : gmap bytes Entry) (k : bytes) (e : Entry)
    : bool * gmap bytes Entry :=
  let room := match s !! k with
              | None => true
              | Some e0 => (IsTombstone e0 || IsNegative e0) && (Version e0 <? Version e)
              end in
  if room && negb big then (true, insert_live now k e s) else (false, s).

(** A delete also wins over an equal version. *)
Definition spec_DeleteIfVersion (now : Z) (tomb : Entry) (s : gmap bytes Entry) (k : bytes)
    : bool * gmap bytes Entry :=
  match s !! k with
  | Some e0 => if Version tomb <? Version e0 then (false, s) else (true, insert_live now k tomb s)
  | None => (true, insert_live now k tomb s)
  end.

(** What an implemented operation owes its specification. *)
Definition implements {R} (now : Z) (impl : R * Memory) (spec : R * gmap bytes Entry) : Prop :=
  impl.1 = spec.1 /\ refines now spec.2 impl.2 /\ store_ok impl.2.

Lemma implements_write {R} now m (r : R) s :
  store_ok m -> view now m = s -> implements now (r, evictLocked now m) (r, s).
Proof. intros Hok <-. split_and!; [done|apply refines_evict|by apply evictLocked_ok]. Qed.

Lemma implements_skip {R} now m (r : R) : store_ok m -> implements now (r, m) (r, view now m).
Proof. intros Hok. split_and!; [done|apply refines_view|done]. Qed.

Lemma implements_stale {R} now m (r : R) : store_ok m -> implements now (r, add_stale m) (r, view now m).
Proof.
  intros Hok. split_and!; [done|by eapply refines_ext, refines_view|by apply (store_ok_ext m)].
Qed.

Lemma implements_drop {R} now m (r : R) k it :
  store_ok m -> items m !! k = Some it -> Expired (entry it) now = true ->
  implements now (r, removeElement m k it) (r, view now m).
Proof.
  intros Hok Hk He. split_and!; [done| |by apply removeElement_ok].
  rewrite <- (view_remove_expired now m k it Hk He). apply refines_view.
Qed.

(** The two ways a key is not live. *)
Lemma view_live now m k it :
  items m !! k = Some it -> Expired (entry it) now = false ->
  view now m !! k = Some (entry (flush_item k it)).
Proof. intros Hk He. by rewrite lookup_view, Hk, He. Qed.

Lemma view_dead now m k it :
  items m !! k = Some it -> Expired (entry it) now = true -> view now m !! k = None.
Proof. intros Hk He. by rewrite lookup_view, Hk, He. Qed.

Lemma view_missing now m k : items m !! k = None -> view now m !! k = None.
Proof. intros Hk. by rewrite lookup_view, Hk. Qed.

Lemma flushed_version k it : Version (entry (flush_item k it)) = Version (entry it).
Proof. by destruct (flush_item_meta k it). Qed.

Lemma flushed_flag f k it : has_flag f (entry (flush_item k it)) = has_flag f (entry it).
Proof. apply has_flag_ext. by destruct (flush_item_meta k it) as (_ & _ & ->). Qed.

#[export] Hint Resolve implements_write implements_skip implements_stale implements_drop : store.

(** ** Reads *)

Lemma Peek_view now m k :
  store_ok m ->
  (Peek now m k).1 = view now m !! k /\ view now (Peek now m k).2 = view now m /\
  store_ok (Peek now m k).2.
Proof.
  intros Hok. unfold Peek. destruct (items m !! k) as [it|] eqn:Ek.
  2:{ rewrite view_missing by done. done. }
  destruct (Expired (entry it) now) eqn:Ex.
  { rewrite (view_dead _ _ _ it) by done. split_and!; [done| |by apply removeElement_ok].
    by apply view_remove_expired. }
  pose proof (proj2 Hok k it Ek) as Hit. simpl in Hit.
  rewrite flushAll_eq; [|apply Hok|done|apply Hit]. simpl.
  rewrite (view_live _ _ _ it), copyEntry_id by done. split_and!; [done| |].
  - rewrite (view_insert now m _ k (flush_item k it)) by done.
    rewrite flush_item_idem by done. unfold insert_live.
    rewrite (Expired_ext _ (entry it)) by (by destruct (flush_item_meta k it) as (_ & -> & _)).
    rewrite Ex. apply insert_id. by apply view_live.
  - apply updateItem_ok; [done|done|apply flush_item_cost|by apply flush_item_ok].
    by apply (wf_cost _ (proj1 Hok) k).
Qed.

(** Get is Peek without tombstones, plus recency and the hit/miss counters. *)
Lemma Get_Peek now m k :
  store_ok m ->
  let g := Get now m k in let p := Peek now m k in
  g.1 = match p.1 with Some e => if IsTombstone e then None else Some e | None => None end /\
  view now g.2 = view now m /\ store_ok g.2.
Proof.
  intros Hok. destruct (Peek_view now m k Hok) as (Hp1 & Hp2 & Hp3). cbv zeta.
  rewrite Hp1. clear Hp1. revert Hp2 Hp3. unfold Get, Peek.
  destruct (items m !! k) as [it|] eqn:Ek.
  2:{ rewrite view_missing by done. intros _ _. split_and!; [done|done|by apply (store_ok_ext m)]. }
  destruct (Expired (entry it) now) eqn:Ex.
  { rewrite (view_dead _ _ _ it) by done. simpl. intros Hv Hs. split_and!; [done|done|by eapply store_ok_ext, Hs]. }
  rewrite (view_live _ _ _ it) by done. unfold IsTombstone. rewrite flushed_flag.
  fold (IsTombstone (entry it)). destruct (IsTombstone (entry it)) eqn:Et.
  { intros _ _. split_and!; [done|done|by apply (store_ok_ext m)]. }
  pose proof (proj2 Hok k it Ek) as Hit. simpl in Hit.
  rewrite flushAll_eq; [|apply Hok|done|apply Hit]. rewrite copyEntry_id. simpl.
  intros Hv Hs. split_and!; [done|done|].
  assert (Hm : store_ok (moveToFront (updateItem m k it (flush_item k it)) k)).
  { apply moveToFront_ok; [done|]. rewrite lookup_updateItem. eauto. }
  by eapply store_ok_ext, Hm.
Qed.

(** ** Writes *)

Lemma newer_live now m k it v :
  items m !! k = Some it ->
  newer_than (view now m) k v = negb (negb (Expired (entry it) now) && (v <=? Version (entry it))).
Proof.
  intros Hk. unfold newer_than. rewrite lookup_view, Hk.
  destruct (Expired (entry it) now); [done|]. rewrite flushed_version. simpl.
  destruct (Z.ltb_spec (Version (entry it)) v), (Z.leb_spec v (Version (entry it))); done || lia.
Qed.

Lemma newer_missing now m k v : items m !! k = None -> newer_than (view now m) k v = true.
Proof. intros Hk. unfold newer_than. by rewrite view_missing. Qed.

Lemma Store_Set_implements now m k e :
  store_ok m -> entry_ok e ->
  implements now (Store_Set now m k e) (spec_Set now (tooBig m (entryCost k e)) (view now m) k e).
Proof.
  intros Hok Hb. unfold Store_Set, spec_Set. destruct (tooBig _ _); [eauto with store|].
  destruct (items m !! k) as [it|] eqn:Ek; apply implements_write;
    auto using view_replaceItem, view_insertNew with store.
Qed.

Lemma AcceptIfNewer_implements now m k e :
  store_ok m -> entry_ok e ->
  implements now (AcceptIfNewer now m k e)
    (spec_AcceptIfNewer now (tooBig m (entryCost k e)) (view now m) k e).
Proof.
  intros Hok Hb. unfold AcceptIfNewer, spec_AcceptIfNewer.
  destruct (items m !! k) as [it|] eqn:Ek.
  - rewrite (newer_live _ _ _ it) by done.
    destruct (negb (Expired (entry it) now) && (Version e <=? Version (entry it)));
      simpl; [eauto with store|].
    destruct (tooBig _ _); simpl; [eauto with store|].
    apply implements_write; auto using view_replaceItem with store.
  - rewrite newer_missing by done. destruct (tooBig _ _); simpl; [eauto with store|].
    apply implements_write; auto using view_insertNew with store.
Qed.

Lemma AcceptNegative_implements now m k e :
  store_ok m -> Flags e = FlagNegative -> bytes_ok (Value e) ->
  implements now (AcceptNegative now m k e)
    (spec_AcceptNegative now (tooBig m (entryCost k e)) (view now m) k e).
Proof.
  intros Hok Hf Hb. unfold AcceptNegative, spec_AcceptNegative.
  assert (Hu : untyped e = true).
  { unfold untyped, unkinded, IsJSON, IsSet, IsZSet, IsGeo, IsList, IsHash, has_flag. by rewrite Hf. }
  assert (Ho : entry_ok e) by (split; [done|by intros _]).
  destruct (tooBig _ _); [rewrite andb_false_r; eauto with store|]. rewrite andb_true_r.
  destruct (items m !! k) as [it|] eqn:Ek.
  2:{ rewrite view_missing by done. apply implements_write; auto using view_insertNew with store. }
  rewrite lookup_view, Ek. destruct (Expired (entry it) now) eqn:Ex.
  { apply implements_write; auto using view_overwriteEntry with store. }
  rewrite flushed_version. unfold IsTombstone, IsNegative. rewrite !flushed_flag.
  destruct (has_flag FlagTombstone (entry it)), (has_flag FlagNegative (entry it)); simpl;
    destruct (Z.leb_spec (Version e) (Version (entry it))),
      (Z.ltb_spec (Version (entry it)) (Version e)); try lia; eauto with store;
    apply implements_write; auto using view_overwriteEntry with store.
Qed.

Lemma tombstone_untyped now m v : untyped (tombstone now m v) = true.
Proof. done. Qed.

Lemma DeleteIfVersion_implements now m k v :
  store_ok m ->
  implements now (DeleteIfVersion now m k v)
    (spec_DeleteIfVersion now (tombstone now m v) (view now m) k).
Proof.
  intros Hok. unfold DeleteIfVersion, spec_DeleteIfVersion. cbv zeta.
  destruct (items m !! k) as [it|] eqn:Ek.
  - rewrite lookup_view, Ek. destruct (Expired (entry it) now) eqn:Ex; simpl.
    { apply implements_write; auto using view_overwriteEntry with store. }
    rewrite flushed_version. destruct (v <? Version (entry it)); [eauto with store|].
    apply implements_write; auto using view_overwriteEntry with store.
  - rewrite view_missing by done.
    apply implements_write; [|apply view_insertNew]. apply insertNew_ok; [done|done|split; [constructor|done]].
Qed.

(** ** Convergence of replicas *)

Inductive msg :=
| MPut (k : bytes) (e : Entry)      (* ApplyPut of a plain entry *)
| MDel (k : bytes) (v : Z).         (* ApplyDelete *)

Definition apply_msg (now : Z) (m : Memory) (x : msg) : Memory :=
  match x with
  | MPut k e => (AcceptIfNewer now m k e).2
  | MDel k v => (DeleteIfVersion now m k v).2
  end.

Definition msg_key (x : msg) : bytes := match x with MPut k _ => k | MDel k _ => k end.

(** Two puts of one key at one version carry the same entry. *)
Definition compatible (x y : msg) : Prop :=
  match x, y with
  | MPut k e, MPut k' e' => k = k' -> Version e = Version e' -> e = e'
  | _, _ => True
  end.

Definition msg_tomb (now ttl v : Z) : Entry :=
  mkEntry [] v (if ttl <=? 0 then 0 else unixNano (now + ttl)) FlagTombstone.

(** The entry a message leaves on a replica that takes it at [now]. *)
Definition msg_entry (now ttl : Z) (x : msg) : Entry :=
  match x with MPut _ e => e | MDel _ v => msg_tomb now ttl v end.

(** What a put must be newer than to be taken; a delete also wins a tie. *)
Definition msg_bound (x : msg) : Z := match x with MPut _ e => Version e | MDel _ v => v + 1 end.

Definition spec_msg (now ttl : Z) (x : msg) (s : gmap bytes Entry) : gmap bytes Entry :=
  if newer_than s (msg_key x) (msg_bound x) then <[msg_key x := msg_entry now ttl x]> s else s.

Lemma tomb_live now ttl v : expiry_fits now ttl -> Expired (msg_tomb now ttl v) now = false.
Proof.
  unfold expiry_fits, Expired, msg_tomb. simpl. intros Hf. destruct (Z.leb_spec ttl 0); [done|].
  rewrite unixNano_small by lia. zcmp; lia || done.
Qed.

Lemma apply_msg_params now m x :
  maxBytes (apply_msg now m x) = maxBytes m /\ tombstoneTTL (apply_msg now m x) = tombstoneTTL m.
Proof.
  assert (He : forall m', maxBytes m' = maxBytes m -> tombstoneTTL m' = tombstoneTTL m ->
    maxBytes (evictLocked now m') = maxBytes m /\ tombstoneTTL (evictLocked now m') = tombstoneTTL m).
  { intros m' H1 H2. destruct (evictLocked_params now m') as (-> & -> & _). done. }
  destruct x; simpl; unfold AcceptIfNewer, DeleteIfVersion; repeat case_match; try done; by apply He.
Qed.

Definition msg_ok (x : msg) : Prop := match x with MPut _ e => entry_ok e | MDel _ _ => True end.

(** The message leaves an entry that is live when it is taken. *)
Lemma apply_msg_spec now m x :
  store_ok m -> maxBytes m <= 0 -> msg_ok x -> Expired (msg_entry now (tombstoneTTL m) x) now = false ->
  view now (apply_msg now m x) = spec_msg now (tombstoneTTL m) x (view now m) /\
  store_ok (apply_msg now m x).
Proof.
  intros Hok Hmax Hx Hl. pose proof (apply_msg_params now m x) as [Hp _]. unfold spec_msg.
  destruct x as [k e|k v]; cbn [apply_msg msg_key msg_bound msg_entry] in *.
  - destruct (AcceptIfNewer_implements now m k e Hok Hx) as (_ & Href & Hs).
    split; [|done]. rewrite (ref_exact _ _ _ Href) by lia. unfold spec_AcceptIfNewer, tooBig.
    destruct (Z.ltb_spec 0 (maxBytes m)); [lia|]. simpl. rewrite andb_true_r. unfold insert_live.
    rewrite Hl. by destruct (newer_than _ _ _).
  - destruct (DeleteIfVersion_implements now m k v Hok) as (_ & Href & Hs). split; [|done].
    rewrite (ref_exact _ _ _ Href) by lia. unfold spec_DeleteIfVersion, newer_than.
    change (tombstone now m v) with (msg_tomb now (tombstoneTTL m) v). unfold insert_live.
    rewrite Hl. destruct (view now m !! k) as [e0|]; [|done]. simpl.
    destruct (Z.ltb_spec v (Version e0)), (Z.ltb_spec (Version e0) (v + 1)); done || lia.
Qed.

(** ** Time *)

(** Between [t0] and [t1] no item of the store expires. *)
Definition steady (t0 t1 : Z) (m : Memory) : Prop :=
  map_Forall (fun _ it => Expired (entry it) t0 = true \/ Expired (entry it) t1 = false) (items m).

Lemma Expired_later e t t' : t <= t' -> Expired e t = true -> Expired e t' = true.
Proof. unfold Expired. zcmp; done || lia. Qed.

Lemma Expired_earlier e t t' : t <= t' -> Expired e t' = false -> Expired e t = false.
Proof. unfold Expired. zcmp; done || lia. Qed.

Lemma steady_view t0 t1 t t' m :
  steady t0 t1 m -> t0 <= t <= t1 -> t0 <= t' <= t1 -> view t m = view t' m.
Proof.
  intros Hs Ht Ht'. apply map_eq. intros k. rewrite !lookup_view. destruct (items m !! k) as [it|] eqn:Ek; [|done].
  destruct (Hs k it Ek) as [Hx|Hx].
  - by rewrite !(Expired_later (entry it) t0) by (done || lia).
  - by rewrite !(Expired_earlier (entry it) _ t1) by (done || lia).
Qed.

Lemma view_steady t0 t1 m : t0 <= t1 -> view t1 m = view t0 m -> steady t0 t1 m.
Proof.
  intros Ht Hv k it Hk. pose proof (f_equal (.!! k) Hv) as H. cbn in H. rewrite !lookup_view, Hk in H.
  destruct (Expired (entry it) t0); [by left|]. right. by destruct (Expired (entry it) t1).
Qed.

(** A message changes no item but the one it files. *)
Lemma apply_msg_items now m x k it :
  items (apply_msg now m x) !! k = Some it ->
  items m !! k = Some it \/ ExpireAt (entry it) = ExpireAt (msg_entry now (tombstoneTTL m) x).
Proof.
  assert (He : forall m' it', items m' = <[msg_key x := it']> (items m) ->
    ExpireAt (entry it') = ExpireAt (msg_entry now (tombstoneTTL m) x) -> items (evictLocked now m') !! k = Some it ->
    items m !! k = Some it \/ ExpireAt (entry it) = ExpireAt (msg_entry now (tombstoneTTL m) x)).
  { intros m' it' Hi Hx Hk. apply (lookup_weaken _ (items m')) in Hk; [|apply evictLocked_sub].
    rewrite Hi in Hk. apply lookup_insert_Some in Hk as [[_ <-]|[_ Hk]]; [by right|by left]. }
  destruct x as [k' e|k' v]; cbn [apply_msg msg_key] in *; unfold AcceptIfNewer, DeleteIfVersion;
    repeat case_match; cbn [snd]; try (by left); by eapply He.
Qed.

Lemma steady_step t0 t1 t m x :
  steady t0 t1 m -> Expired (msg_entry t (tombstoneTTL m) x) t1 = false -> steady t0 t1 (apply_msg t m x).
Proof.
  intros Hs Hx k it Hk. destruct (apply_msg_items t m x k it Hk) as [Hk'|He]; [by apply (Hs k)|].
  right. by rewrite (Expired_ext _ _ _ He).
Qed.

(** ** Any two compatible messages commute *)

Lemma newer_insert s k k' e v :
  newer_than (<[k := e]> s) k' v = if bool_decide (k = k') then Version e <? v else newer_than s k' v.
Proof.
  unfold newer_than. case_bool_decide as D; [subst; by rewrite lookup_insert_eq|by rewrite lookup_insert_ne].
Qed.

Lemma spec_msg_comm now ttl x y s :
  compatible x y -> spec_msg now ttl x (spec_msg now ttl y s) = spec_msg now ttl y (spec_msg now ttl x s).
Proof.
  intros Hc. destruct (decide (msg_key x = msg_key y)) as [Hk|Hk].
  - unfold spec_msg. destruct x as [k e|k v], y as [k' e'|k' v']; simpl in Hk, Hc |- *; subst k'.
    all: destruct (newer_than s k _) eqn:E1; destruct (newer_than s k _) eqn:E2 in |- *;
      rewrite ?newer_insert, ?bool_decide_true, ?E1, ?E2 by done.
    all: unfold newer_than in E1, E2; destruct (s !! k); simpl; zcmp; try done; try lia.
    all: rewrite ?insert_insert_eq; try done; try (by rewrite Hc by (done || lia)).
    all: try (f_equal; f_equal; lia).
  - unfold spec_msg. destruct x as [k e|k v], y as [k' e'|k' v']; simpl in Hk |- *;
      destruct (newer_than s k _) eqn:E1; destruct (newer_than s k' _) eqn:E2;
      rewrite ?newer_insert, ?bool_decide_false, ?E1, ?E2 by congruence; try done;
      by rewrite insert_insert_ne.
Qed.

Lemma spec_msgs_perm now ttl xs ys s :
  xs ≡ₚ ys -> (forall x y, x ∈ xs -> y ∈ xs -> compatible x y) ->
  fold_left (fun s x => spec_msg now ttl x s) xs s = fold_left (fun s x => spec_msg now ttl x s) ys s.
Proof.
  intros Hp. revert s. induction Hp as [|x xs ys Hp IH|x y xs|xs ys zs Hp1 IH1 Hp2 IH2]; intros s Hc; simpl.
  - done.
  - apply IH. intros; apply Hc; by apply elem_of_cons; right.
  - rewrite (spec_msg_comm now ttl x y) by (apply Hc; set_solver). done.
  - rewrite IH1 by done. apply IH2. intros x y Hx Hy. apply Hc; by rewrite Hp1.
Qed.

(** ** What a replica shows *)

(** An entry up to the expiry of a tombstone, which each replica counts from
    the moment it takes the delete. *)
Definition core (e : Entry) : Entry :=
  if IsTombstone e then mkEntry (Value e) (Version e) 0 (Flags e) else e.

Definition shown (now : Z) (m : Memory) : gmap bytes Entry := core <$> view now m.

Definition core_msg (x : msg) : msg := match x with MPut k e => MPut k (core e) | MDel k v => MDel k v end.

Lemma core_version e : Version (core e) = Version e.
Proof. unfold core. by destruct (IsTombstone e). Qed.

Lemma core_newer s k v : newer_than (core <$> s) k v = newer_than s k v.
Proof. unfold newer_than. rewrite lookup_fmap. destruct (s !! k); [|done]. cbn. by rewrite core_version. Qed.

Lemma core_compatible x y : compatible x y -> compatible (core_msg x) (core_msg y).
Proof.
  destruct x as [k e|k v], y as [k' e'|k' v']; cbn; try done. rewrite !core_version. intros Hc Hk Hv. by rewrite Hc.
Qed.

(** Forgetting the expiry of tombstones forgets when and where a message came in. *)
Lemma core_step now ttl x s : core <$> spec_msg now ttl x s = spec_msg 0 0 (core_msg x) (core <$> s).
Proof.
  unfold spec_msg. destruct x as [k e|k v]; cbn [core_msg msg_key msg_bound msg_entry];
    rewrite ?core_version, core_newer; destruct (newer_than s k _); rewrite ?fmap_insert; done.
Qed.

(** Messages in the order a replica takes them, each with the time it takes it. *)
Definition apply_msgs (m : Memory) (xs : list (Z * msg)) : Memory :=
  fold_left (fun m x => apply_msg x.1 m x.2) xs m.

(** Taken between [t0] and [t1], well formed, and what it leaves on a replica
    with this tombstone TTL outlasts [t1]. *)
Definition taken (t0 t1 ttl : Z) (x : Z * msg) : Prop :=
  t0 <= x.1 <= t1 /\ msg_ok x.2 /\ Expired (msg_entry x.1 ttl x.2) t1 = false.

Lemma apply_msgs_shown t0 t1 m xs :
  t0 <= t1 -> store_ok m -> maxBytes m <= 0 -> steady t0 t1 m -> Forall (taken t0 t1 (tombstoneTTL m)) xs ->
  shown t1 (apply_msgs m xs) = fold_left (fun s x => spec_msg 0 0 (core_msg x) s) xs.*2 (shown t1 m).
Proof.
  intros Ht Hok Hmax Hs Hxs. remember (tombstoneTTL m) as ttl eqn:Httl.
  revert m Hok Hmax Hs Httl. induction Hxs as [|[t x] xs (Htx & Hx & Hl) Hxs IH]; intros m Hok Hmax Hs ->; [done|].
  cbn [fst snd] in *. destruct (apply_msg_params t m x) as [Hp1 Hp2].
  destruct (apply_msg_spec t m x Hok Hmax Hx) as [Hv Hs']; [apply (Expired_earlier _ t t1); [lia|done]|].
  assert (Hs1 : steady t0 t1 (apply_msg t m x)) by (by apply steady_step).
  cbn [apply_msgs fold_left fmap list_fmap snd fst]. fold (apply_msgs (apply_msg t m x) xs).
  rewrite IH by (done || lia || by rewrite Hp2). f_equal. unfold shown.
  rewrite (steady_view t0 t1 t1 t) by (done || lia). rewrite Hv, core_step.
  by rewrite (steady_view t0 t1 t t1 m) by (done || lia).
Qed.

(** C2: replicas converge.  Two replicas without a byte budget that show the
    same entries at [t0], and that between [t0] and [t1] take the same
    versioned puts and deletes, each in its own order, at its own times and with
    its own tombstone TTL, show the same entries at [t1] up to the expiry of
    tombstones, if no two distinct puts share a key and a version and nothing
    they hold or take expires before [t1]. *)
Theorem replicas_converge t0 t1 m1 m2 xs ys :
  t0 <= t1 -> store_ok m1 -> store_ok m2 -> maxBytes m1 <= 0 -> maxBytes m2 <= 0 ->
  shown t0 m1 = shown t0 m2 -> view t1 m1 = view t0 m1 -> view t1 m2 = view t0 m2 ->
  Forall (taken t0 t1 (tombstoneTTL m1)) xs -> Forall (taken t0 t1 (tombstoneTTL m2)) ys ->
  xs.*2 ≡ₚ ys.*2 -> (forall x y, x ∈ xs.*2 -> y ∈ xs.*2 -> compatible x y) ->
  shown t1 (apply_msgs m1 xs) = shown t1 (apply_msgs m2 ys).
Proof.
  intros Ht Hok1 Hok2 Hm1 Hm2 Hv H1 H2 Hxs Hys Hp Hc.
  rewrite !(apply_msgs_shown t0 t1) by (done || by apply view_steady).
  unfold shown in *. rewrite H1, H2, Hv.
  assert (Hf : forall l s, fold_left (fun s x => spec_msg 0 0 (core_msg x) s) l s =
                           fold_left (fun s x => spec_msg 0 0 x s) (core_msg <$> l) s)
    by (induction l; intros; cbn; auto).
  rewrite !Hf. apply spec_msgs_perm; [by apply fmap_Permutation|].
  intros x y (x' & -> & Hx)%list_elem_of_fmap (y' & -> & Hy)%list_elem_of_fmap. by apply core_compatible, Hc.
Qed.

Definition wit_msgs : list (Z * msg) :=
  [(5, MPut [107] (mkEntry [1] 1 0 0)); (6, MDel [107] 2); (9, MPut [107] (mkEntry [3] 3 0 0)); (9, MDel [108] 4)].
Definition wit_msgs' : list (Z * msg) :=
  [(6, MDel [108] 4); (6, MPut [107] (mkEntry [3] 3 0 0)); (7, MDel [107] 2); (8, MPut [107] (mkEntry [1] 1 0 0))].

(** Two replicas with different tombstone TTLs; their tombstones of 108 differ. *)
Lemma replicas_converge_witness :
  shown 10 (apply_msgs (NewMemory 0 100) wit_msgs) = shown 10 (apply_msgs (NewMemory 0 50) wit_msgs') /\
  ExpireAt <$> view 10 (apply_msgs (NewMemory 0 100) wit_msgs) !! [108] = Some 109 /\
  ExpireAt <$> view 10 (apply_msgs (NewMemory 0 50) wit_msgs') !! [108] = Some 56.
Proof.
  split; [|split; reflexivity].
  apply (replicas_converge 5 10); [lia|apply NewMemory_ok|apply NewMemory_ok|simpl; lia|simpl; lia|done|done|done|..].
  1,2: apply Forall_forall; intros x Hx; unfold wit_msgs, wit_msgs' in Hx; rewrite !elem_of_cons, elem_of_nil in Hx;
    destruct Hx as [->|[->|[->|[->|[]]]]]; (split; [cbn; lia|split; [|done]]); cbn [snd msg_ok]; try done;
    (split; [apply Forall_singleton; unfold is_byte; lia|done]).
  - unfold wit_msgs, wit_msgs'. cbn [fmap list_fmap snd].
    rewrite <- reverse_Permutation. reflexivity.
  - intros x y Hx Hy. unfold wit_msgs in *. cbn [fmap list_fmap snd] in *. rewrite !elem_of_cons, elem_of_nil in Hx, Hy.
    destruct Hx as [->|[->|[->|[->|[]]]]], Hy as [->|[->|[->|[->|[]]]]]; cbn; intros; done || lia.
Defined.
