(* ===== verification/StoreKinds.v ===== *)
(** * Sets, sorted sets, geo indexes, hashes and lists in the store

    pkg/store/set.go, zset.go, geo.go, hash.go and list.go.  The first four
    share their control flow line by line; it is written once over [Kind] and
    instantiated under the source's names. *)
From S2P Require Import Prelude Wire Collections Scored Json Store.

Section kinds.
Context {T : Type} `{!Kind T}.

(** insertSetLocked and its siblings. *)
Definition insertLocked (now : Z) (m : Memory) (key : bytes) (ent : Entry) (cache : option T)
    (dirty : bool) : bool * Memory :=
  let c := match cache with
           | Some t => if dirty then len key + 64 + kapprox t else entryCost key ent
           | None => entryCost key ent
           end in
  let it := with_cache (newItem (copyEntry ent) c) cache dirty in
  let m := evictLocked now (pushFront m key it) in
  (present m key, m).

(** The decoded value of a live entry; the decoded cache is kept. *)
Definition peekLocked (now : Z) (m : Memory) (key : bytes) : option T * Memory :=
  match items m !! key with
  | None => (None, m)
  | Some it =>
      if Expired (entry it) now then (None, removeElement m key it)
      else if IsTombstone (entry it) || negb (has_flag (kflag T) (entry it)) then (None, m)
      else
        match kcache T it with
        | Some t => (Some t, m)
        | None =>
            match kdecode (Value (entry it)) with
            | None => (None, m)
            | Some t => (Some t, updateItem m key it (with_cache it (Some t) (kdirty T it)))
            end
        end
  end.

(** The live entry takes the mutated value; its blob is encoded later. *)
Definition storeDirty (now : Z) (m : Memory) (key : bytes) (it : lruItem) (t : T)
    (version expireAt : Z) : Memory :=
  let e := mkEntry (Value (entry it)) version
             (if expireAt =? 0 then ExpireAt (entry it) else expireAt) (kflag T) in
  let it' := with_entry (with_cache it (Some t) true) e (len key + 64 + kapprox t) in
  evictLocked now (moveToFront (updateItem m key it it') key).

Definition cachedOrDecoded (it : lruItem) : option T :=
  match kcache T it with Some t => Some t | None => kdecode (Value (entry it)) end.

(** setMutateLocked, zMutateLocked, gMutateLocked, hMutateLocked.  [mut]
    answers [None] for an error; only zset and geo mutators can fail. *)
Definition mutateLocked (now : Z) (m : Memory) (key : bytes) (version expireAt : Z)
    (mut : T -> option T) : bool * Memory :=
  let create m :=
    match mut knew with
    | None => (false, m)
    | Some t =>
        insertLocked now m key (mkEntry (kencode t) version expireAt (kflag T)) (Some t) false
    end in
  match items m !! key with
  | None => create m
  | Some it =>
      if Expired (entry it) now then create (removeElement m key it)
      else if IsTombstone (entry it) then
        if version <=? Version (entry it) then (false, add_stale m)
        else create (removeElement m key it)
      else if has_flag (kflag T) (entry it) then
        match cachedOrDecoded it with
        | None => (false, m)
        | Some t =>
            match mut t with
            | None => (false, m)
            | Some t =>
                let m := storeDirty now m key it t version expireAt in
                (present m key, m)
            end
        end
      else (false, m)
  end.

(** SetRemove, ZRem, GeoRem, HDel: nothing is created. *)
Definition removeLocked (now : Z) (m : Memory) (key : bytes) (version expireAt : Z)
    (mut : T -> T) : bool * Memory :=
  match items m !! key with
  | None => (true, m)
  | Some it =>
      if Expired (entry it) now then (true, removeElement m key it)
      else if IsTombstone (entry it) then
        if version <=? Version (entry it) then (false, add_stale m) else (true, m)
      else if negb (has_flag (kflag T) (entry it)) then (false, m)
      else mutateLocked now m key version expireAt (fun t => Some (mut t))
  end.

(** The rest of an install, once the version check passed: the old element
    is gone before the blob is decoded. *)
Definition installBlob (now : Z) (m : Memory) (key blob : bytes) (version expireAt : Z)
    : bool * Memory :=
  match kdecode blob with
  | None => (false, m)
  | Some t => insertLocked now m key (mkEntry blob version expireAt (kflag T)) (Some t) false
  end.

(** ZInstall, GeoInstall, LInstall, HInstall. *)
Definition installLocked (now : Z) (m : Memory) (key blob : bytes) (version expireAt : Z)
    : bool * Memory :=
  match items m !! key with
  | None => installBlob now m key blob version expireAt
  | Some it =>
      let install := installBlob now (removeElement m key it) key blob version expireAt in
      if Expired (entry it) now then install
      else if IsTombstone (entry it) then
        if version <=? Version (entry it) then (false, add_stale m) else install
      else if has_flag (kflag T) (entry it) then
        if version <=? Version (entry it) then (false, add_stale m) else install
      else if version <=? Version (entry it) then (false, m) else install
  end.
End kinds.

(** Reads run on the peeked value. *)
Definition with_peek {T R} `{!Kind T} (now : Z) (m : Memory) (key : bytes) (none : R) (f : T -> R)
    : R * Memory :=
  let '(t, m) := peekLocked now m key in
  (match t with None => none | Some t => f t end, m).

(** ** Sets (set.go) *)

Definition setPeekLocked := peekLocked (T := SetT).
Definition setMutateLocked := mutateLocked (T := SetT).
Definition insertSetLocked := insertLocked (T := SetT).

Definition SetAdd now m key item version expireAt : bool * Memory :=
  setMutateLocked now m key version expireAt (fun s => Some (Set_Add s item)).
Definition SetRemove now m key item version expireAt : bool * Memory :=
  removeLocked now m key version expireAt (fun s => Set_Remove s item).
Definition SetContains now m key item : bool * Memory :=
  with_peek now m key false (fun s => Set_Contains s item).
Definition HasSet now m key : bool * Memory := with_peek now m key false (fun _ : SetT => true).
Definition SetCard now m key : Z * Memory := with_peek now m key 0 Set_Len.
Definition SetMembers now m key : list bytes * Memory := with_peek now m key [] Set_Members.

(** An equal version is dropped without counting it as stale. *)
Definition SetInstall (now : Z) (m : Memory) (key blob : bytes) (version expireAt : Z)
    : bool * Memory :=
  match items m !! key with
  | None => installBlob (T := SetT) now m key blob version expireAt
  | Some it =>
      let install := installBlob (T := SetT) now (removeElement m key it) key blob version expireAt in
      if Expired (entry it) now then install
      else if IsTombstone (entry it) then
        if version <=? Version (entry it) then (false, add_stale m) else install
      else if IsSet (entry it) then
        if version <? Version (entry it) then (false, add_stale m)
        else if version =? Version (entry it) then (false, m) else install
      else if version <=? Version (entry it) then (false, m) else install
  end.

(** ** Sorted sets (zset.go) *)

Definition zPeekLocked := peekLocked (T := ZSetT).
Definition zMutateLocked := mutateLocked (T := ZSetT).
Definition insertZSetLocked := insertLocked (T := ZSetT).

Definition ZAdd now m key member score version expireAt : bool * Memory :=
  zMutateLocked now m key version expireAt (fun z => ZSet_Add z member score).
Definition ZRem now m key member version expireAt : bool * Memory :=
  removeLocked now m key version expireAt (fun z => ZSet_Rem z member).
Definition ZScore now m key member : option Z * Memory :=
  with_peek now m key None (fun z => ZSet_Score z member).
Definition ZCard now m key : Z * Memory := with_peek now m key 0 ZSet_Card.
Definition HasZSet now m key : bool * Memory := with_peek now m key false (fun _ : ZSetT => true).
Definition ZRange now m key start stop : list ZMember * Memory :=
  with_peek now m key [] (fun z => ZSet_Range z start stop).
Definition ZRangeByScore now m key min max : list ZMember * Memory :=
  with_peek now m key [] (fun z => ZSet_RangeByScore z min max).
Definition ZInstall := installLocked (T := ZSetT).

(** ** Geo indexes (geo.go) *)

Definition gPeekLocked := peekLocked (T := GeoT).
Definition gMutateLocked := mutateLocked (T := GeoT).
Definition insertGeoLocked := insertLocked (T := GeoT).

Definition GeoAdd now m key member lon lat version expireAt : bool * Memory :=
  gMutateLocked now m key version expireAt (fun g => Geo_Add g member lon lat).
Definition GeoRem now m key member version expireAt : bool * Memory :=
  removeLocked now m key version expireAt (fun g => Geo_Rem g member).
Definition GeoPos now m key member : option GPoint * Memory :=
  with_peek now m key None (fun g => Geo_Pos g member).
Definition GeoCard now m key : Z * Memory := with_peek now m key 0 Geo_Card.
Definition HasGeo now m key : bool * Memory := with_peek now m key false (fun _ : GeoT => true).
Definition GeoInstall := installLocked (T := GeoT).

(** ** Hashes (hash.go) *)

Definition hPeekLocked := peekLocked (T := HashT).
Definition hMutateLocked := mutateLocked (T := HashT).
Definition insertHashLocked := insertLocked (T := HashT).

Definition HSet now m key field value version expireAt : bool * Memory :=
  hMutateLocked now m key version expireAt (fun h => Some (Hash_Set h field value)).
Definition HDel now m key field version expireAt : bool * Memory :=
  removeLocked now m key version expireAt (fun h => Hash_Del h field).
Definition HGet now m key field : option bytes * Memory :=
  with_peek now m key None (fun h => Hash_Get h field).
Definition HExists now m key field : bool * Memory :=
  with_peek now m key false (fun h => Hash_Exists h field).
Definition HLen now m key : Z * Memory := with_peek now m key 0 Hash_Len.
Definition HasHash now m key : bool * Memory := with_peek now m key false (fun _ : HashT => true).
Definition HGetAll now m key : list (bytes * bytes) * Memory := with_peek now m key [] Hash_All.
Definition HInstall := installLocked (T := HashT).

(** ** Lists (list.go): the stored version is local + 1, or 1 on creation *)

Definition lPeekLocked := peekLocked (T := ListT).
Definition insertListLocked := insertLocked (T := ListT).

Definition lCreate (now : Z) (m : Memory) (key : bytes) (stored expireAt : Z)
    (mut : ListT -> ListT) : bool * Memory :=
  let l := mut List_New in
  insertListLocked now m key (mkEntry (List_Encode l) stored expireAt FlagList) (Some l) false.

Definition lMutateLocked (now : Z) (m : Memory) (key : bytes) (version expireAt : Z)
    (mut : ListT -> ListT) : bool * Memory :=
  match items m !! key with
  | None => lCreate now m key 1 expireAt mut
  | Some it =>
      if Expired (entry it) now then lCreate now (removeElement m key it) key 1 expireAt mut
      else if IsTombstone (entry it) then
        if version <=? Version (entry it) then (false, add_stale m)
        else lCreate now (removeElement m key it) key (Version (entry it) +u 1) expireAt mut
      else if IsList (entry it) then
        match cachedOrDecoded (T := ListT) it with
        | None => (false, m)
        | Some l =>
            let m := storeDirty now m key it (mut l) (Version (entry it) +u 1) expireAt in
            (present m key, m)
        end
      else (false, m)
  end.

Definition LPush now m key item version expireAt : bool * Memory :=
  lMutateLocked now m key version expireAt (fun l => List_LPush l item).
Definition RPush now m key item version expireAt : bool * Memory :=
  lMutateLocked now m key version expireAt (fun l => List_RPush l item).

(** (item, popped) as an option, applied, and the next store. *)
Definition lPopLocked (now : Z) (m : Memory) (key : bytes) (version expireAt : Z) (left : bool)
    : option bytes * bool * Memory :=
  match items m !! key with
  | None => (None, true, m)
  | Some it =>
      if Expired (entry it) now then (None, true, removeElement m key it)
      else if IsTombstone (entry it) then
        if version <=? Version (entry it) then (None, false, add_stale m) else (None, true, m)
      else if negb (IsList (entry it)) then (None, false, m)
      else
        match cachedOrDecoded (T := ListT) it with
        | None => (None, false, m)
        | Some l =>
            match (if left then List_LPop l else List_RPop l) with
            | (None, _) => (None, true, m)
            | (Some item, l) =>
                (Some item, true, storeDirty now m key it l (Version (entry it) +u 1) expireAt)
            end
        end
  end.

Definition LPop now m key version expireAt := lPopLocked now m key version expireAt true.
Definition RPop now m key version expireAt := lPopLocked now m key version expireAt false.
Definition LLen now m key : Z * Memory := with_peek now m key 0 List_Len.
Definition HasList now m key : bool * Memory := with_peek now m key false (fun _ : ListT => true).
Definition LIndex now m key idx : option bytes * Memory :=
  with_peek now m key None (fun l => List_Index l idx).
Definition LRange now m key start stop : list bytes * Memory :=
  with_peek now m key [] (fun l => List_Range l start stop).
Definition LInstall := installLocked (T := ListT).
