(* ===== verification/StoreKindsProps.v ===== *)
(** * The typed operations refine the observable map

    Against the interface [StoreKind], the lazily encoded store behaves like a
    map that re-encodes the value on every mutation; the five kinds discharge
    the interface. *)
From S2P Require Import Prelude Wire Collections Scored Json Store StoreInv StoreView StoreProps StoreKinds.

Definition live_at (now expireAt : Z) : Prop := expireAt = 0 \/ now < expireAt.

Lemma live_Expired now e : live_at now (ExpireAt e) <-> Expired e now = false.
Proof. unfold live_at, Expired. zcmp; simpl; intuition (try done; try lia). Qed.

Section spec.
Context {T : Type} `{!Kind T}.

Definition typed_entry (t : T) (version expireAt : Z) : Entry :=
  mkEntry (kencode t) version expireAt (kflag T).

Definition spec_create (now : Z) (s : gmap bytes Entry) (k : bytes) (version expireAt : Z)
    (mut : T -> option T) : bool * gmap bytes Entry :=
  match mut knew with
  | None => (false, s)
  | Some t => (true, <[k := typed_entry t version expireAt]> s)
  end.

(** A mutation creates, supersedes an older tombstone, or rewrites a live
    value of its own kind; anything else refuses it. *)
Definition spec_mutate (now : Z) (s : gmap bytes Entry) (k : bytes) (version expireAt : Z)
    (mut : T -> option T) : bool * gmap bytes Entry :=
  match s !! k with
  | None => spec_create now s k version expireAt mut
  | Some e =>
      if IsTombstone e then
        if version <=? Version e then (false, s)
        else spec_create now (delete k s) k version expireAt mut
      else if has_flag (kflag T) e then
        match kdecode (Value e) with
        | None => (false, s)
        | Some t =>
            match mut t with
            | None => (false, s)
            | Some t => (true, <[k := typed_entry t version
                                  (if expireAt =? 0 then ExpireAt e else expireAt)]> s)
            end
        end
      else (false, s)
  end.

Definition spec_remove (now : Z) (s : gmap bytes Entry) (k : bytes) (version expireAt : Z)
    (mut : T -> T) : bool * gmap bytes Entry :=
  match s !! k with
  | None => (true, s)
  | Some e =>
      if IsTombstone e then (negb (version <=? Version e), s)
      else if has_flag (kflag T) e then
        spec_mutate now s k version expireAt (fun t => Some (mut t))
      else (false, s)
  end.

(** An install replaces whatever is older; a blob that does not decode
    removes it instead. *)
Definition spec_install (now : Z) (s : gmap bytes Entry) (k blob : bytes) (version expireAt : Z)
    : bool * gmap bytes Entry :=
  if newer_than s k version then
    match kdecode (T := T) blob with
    | None => (false, delete k s)
    | Some _ => (true, <[k := mkEntry blob version expireAt (kflag T)]> s)
    end
  else (false, s).

Definition spec_read (s : gmap bytes Entry) (k : bytes) : option T :=
  match s !! k with
  | None => None
  | Some e => if IsTombstone e || negb (has_flag (kflag T) e) then None else kdecode (Value e)
  end.
End spec.

Lemma refines_present now s m k e :
  refines now s m -> s !! k = Some e -> pinned e = true -> present m k = true.
Proof.
  intros Href Hk Hp. pose proof (ref_pinned _ _ _ Href k e Hk Hp) as Hv.
  rewrite lookup_view in Hv. unfold present. destruct (items m !! k); [|done].
  by apply bool_decide_true.
Qed.

Section typed.
Context {T : Type} `{StoreKind T}.

Lemma typed_pinned t v x : pinned (typed_entry (T := T) t v x) = true.
Proof. apply flag_pinned, flag_own. Qed.

(** A write of a live typed entry is kept and reported. *)
Lemma implements_typed now m s k e :
  store_ok m -> view now m = <[k := e]> s -> pinned e = true ->
  implements now (present (evictLocked now m) k, evictLocked now m) (true, <[k := e]> s).
Proof.
  intros Hok Hv Hp. pose proof (refines_evict now m) as Href. rewrite Hv in Href.
  rewrite (refines_present _ _ _ k e Href) by (done || apply lookup_insert_eq).
  split_and!; [done|done|by apply evictLocked_ok].
Qed.

Lemma insertLocked_implements now m k e t :
  store_ok m -> items m !! k = None -> Flags e = kflag T -> kok t ->
  kdecode (Value e) = Some t -> live_at now (ExpireAt e) ->
  implements now (insertLocked now m k e (Some t) false) (true, <[k := e]> (view now m)).
Proof.
  intros Hok Hk Hf Ht Hd Hl%live_Expired. unfold insertLocked. rewrite copyEntry_id.
  set (it := with_cache (newItem e (entryCost k e)) (Some t) false).
  assert (He : entry it = e) by (unfold it; by rewrite entry_with).
  assert (Hit : item_ok it).
  { apply (sk_only (T := T)); [by rewrite He| |unfold it; by rewrite jdirty_with].
    intros _. unfold it. by rewrite cache_with, dirty_with, entry_with. }
  assert (Hfl : flush_item k it = it).
  { rewrite (sk_flush (T := T)); [|done|rewrite He; by apply flag_exact].
    apply flush1_id. right. unfold it. by rewrite dirty_with. }
  cbv zeta. apply implements_typed.
  - apply pushFront_ok; [done|done| |done]. unfold it. rewrite cost_with. apply entryCost_nonneg.
  - rewrite (view_insert now m _ k it) by done. rewrite Hfl, He. unfold insert_live. by rewrite Hl.
  - apply (flag_pinned (T := T)). by apply flag_exact.
Qed.

Lemma storeDirty_implements now m k it t v x :
  store_ok m -> items m !! k = Some it -> kok t ->
  live_at now (if x =? 0 then ExpireAt (entry it) else x) ->
  implements now (present (storeDirty now m k it t v x) k, storeDirty now m k it t v x)
    (true, <[k := typed_entry t v (if x =? 0 then ExpireAt (entry it) else x)]> (view now m)).
Proof.
  intros Hok Hk Ht Hl. unfold storeDirty.
  set (e := mkEntry _ _ _ _). set (it' := with_entry _ _ _).
  assert (Hit : item_ok it').
  { apply (sk_only (T := T)); [done| |unfold it'; simpl; rewrite jdirty_with; by apply (proj2 Hok k)].
    intros _. unfold it'. by rewrite cache_entry, dirty_entry, cache_with, dirty_with. }
  assert (Hfl : entry (flush_item k it') = typed_entry t v (ExpireAt e)).
  { rewrite (sk_flush (T := T)); [|done|apply flag_own]. unfold flush1, it'.
    rewrite cache_entry, dirty_entry, cache_with, dirty_with.
    replace (has_flag (kflag T) _) with true by (symmetry; apply flag_own). done. }
  apply implements_typed; [| |apply typed_pinned].
  - apply moveToFront_ok; [|rewrite lookup_updateItem; eauto].
    apply updateItem_ok; [done|done| |done].
    unfold it'. simpl. rewrite approx_exact by done. pose proof (len_nonneg k).
    pose proof (len_nonneg (kencode t)). lia.
  - rewrite (view_insert now m _ k it') by done. rewrite Hfl. unfold insert_live.
    rewrite (proj1 (live_Expired now (typed_entry t v (ExpireAt e))) Hl). done.
Qed.

(** The decoded cache and the blob Peek would return agree. *)
Lemma cachedOrDecoded_view k it :
  item_ok it -> has_flag (kflag T) (entry it) = true ->
  cachedOrDecoded (T := T) it = kdecode (Value (entry (flush_item k it))) /\
  (forall t : T, cachedOrDecoded it = Some t -> kok t).
Proof.
  intros Hit Hf. pose proof (sk_ok (T := T) it Hit) as Hk. split.
  - rewrite (sk_flush (T := T)) by done. by destruct (flush1_own (T := T) k it).
  - intros t. unfold cachedOrDecoded. specialize (Hk Hf).
    destruct (kcache T it); [intros [= <-]; tauto|]. apply decode_ok. tauto.
Qed.

Lemma removed_missing m k it : items (removeElement m k it) !! k = None.
Proof. apply lookup_delete_eq. Qed.

Lemma view_removed now m k it : view now (removeElement m k it) = delete k (view now m).
Proof. apply view_delete. Qed.

Lemma create_implements now m s k v x (mut : T -> option T) :
  store_ok m -> items m !! k = None -> view now m = s -> live_at now x ->
  (forall t t', kok t -> mut t = Some t' -> kok t') ->
  implements now
    (match mut knew with
     | None => (false, m)
     | Some t => insertLocked now m k (mkEntry (kencode t) v x (kflag T)) (Some t) false
     end) (spec_create now s k v x mut).
Proof.
  intros Hok Hk <- Hl Hmut. unfold spec_create. destruct (mut knew) as [t|] eqn:Em.
  - assert (kok t) by (eapply Hmut, Em; apply new_ok).
    apply insertLocked_implements; try done. by apply decode_encode.
  - by apply implements_skip.
Qed.

(** Generic contract of the four mutating operations. *)
Lemma mutateLocked_implements now m k v x (mut : T -> option T) :
  store_ok m -> live_at now x -> (forall t t', kok t -> mut t = Some t' -> kok t') ->
  implements now (mutateLocked now m k v x mut) (spec_mutate now (view now m) k v x mut).
Proof.
  intros Hok Hl Hmut. unfold mutateLocked, spec_mutate. cbv zeta.
  destruct (items m !! k) as [it|] eqn:Ek.
  2:{ rewrite view_missing by done. by apply create_implements. }
  rewrite lookup_view, Ek. destruct (Expired (entry it) now) eqn:Ex.
  { apply create_implements; auto using removed_missing, view_remove_expired with store. }
  unfold IsTombstone. rewrite !flushed_flag, flushed_version.
  destruct (has_flag FlagTombstone (entry it)).
  { destruct (v <=? Version (entry it)); [eauto with store|].
    apply create_implements; auto using removed_missing, view_removed with store. }
  destruct (has_flag (kflag T) (entry it)) eqn:Ef; [|eauto with store].
  destruct (cachedOrDecoded_view k it (proj2 Hok k it Ek) Ef) as [<- Ht].
  destruct (cachedOrDecoded it) as [t|] eqn:Ec; [|eauto with store].
  destruct (mut t) as [t'|] eqn:Em; [|eauto with store].
  destruct (flush_item_meta k it) as (_ & -> & _).
  apply storeDirty_implements; [done|done|by eapply Hmut, Em; auto|].
  destruct (x =? 0); [by apply live_Expired|done].
Qed.

Lemma removeLocked_implements now m k v x (mut : T -> T) :
  store_ok m -> live_at now x -> (forall t, kok t -> kok (mut t)) ->
  implements now (removeLocked now m k v x mut) (spec_remove now (view now m) k v x mut).
Proof.
  intros Hok Hl Hmut.
  pose proof (mutateLocked_implements now m k v x (fun t => Some (mut t)) Hok Hl) as Hm.
  unfold removeLocked, spec_remove.
  destruct (items m !! k) as [it|] eqn:Ek; [|rewrite view_missing by done; eauto with store].
  rewrite lookup_view, Ek. destruct (Expired (entry it) now) eqn:Ex; [eauto with store|].
  unfold IsTombstone. rewrite !flushed_flag, flushed_version.
  destruct (has_flag FlagTombstone (entry it)).
  { destruct (v <=? Version (entry it)); simpl; eauto with store. }
  destruct (has_flag (kflag T) (entry it)); simpl; [|eauto with store].
  apply Hm. intros t t' ? [= <-]. auto.
Qed.

Lemma installBlob_implements now m s k blob v x :
  store_ok m -> items m !! k = None -> view now m = delete k s -> live_at now x -> bytes_ok blob ->
  implements now (installBlob (T := T) now m k blob v x)
    (match kdecode (T := T) blob with
     | None => (false, delete k s)
     | Some _ => (true, <[k := mkEntry blob v x (kflag T)]> s) end).
Proof.
  intros Hok Hk Hv Hl Hb. unfold installBlob. destruct (kdecode blob) as [t|] eqn:Ed.
  - rewrite <- (insert_delete_eq s), <- Hv.
    apply insertLocked_implements; try done. by eapply decode_ok.
  - rewrite <- Hv. by apply implements_skip.
Qed.

Lemma installBlob_over now m k it blob v x :
  store_ok m -> items m !! k = Some it -> live_at now x -> bytes_ok blob ->
  implements now (installBlob (T := T) now (removeElement m k it) k blob v x)
    (match kdecode (T := T) blob with
     | None => (false, delete k (view now m))
     | Some _ => (true, <[k := mkEntry blob v x (kflag T)]> (view now m)) end).
Proof.
  intros. apply installBlob_implements; auto using removed_missing, view_removed with store.
Qed.

(** Generic contract of the snapshot installs. *)
Lemma installLocked_implements now m k blob v x :
  store_ok m -> live_at now x -> bytes_ok blob ->
  implements now (installLocked (T := T) now m k blob v x)
    (spec_install (T := T) now (view now m) k blob v x).
Proof.
  intros Hok Hl Hb. unfold installLocked, spec_install. cbv zeta.
  destruct (items m !! k) as [it|] eqn:Ek.
  - rewrite (newer_live _ _ _ it) by done.
    pose proof (installBlob_over now m k it blob v x Hok Ek Hl Hb) as Hi.
    destruct (Expired (entry it) now); simpl; [done|].
    destruct (IsTombstone (entry it)), (has_flag (kflag T) (entry it)),
      (v <=? Version (entry it)); simpl; eauto with store.
  - rewrite newer_missing by done. apply installBlob_implements; try done.
    rewrite delete_id; [done|]. by apply view_missing.
Qed.

(** Filling the decoded cache of a clean item. *)
Lemma warm_item k it t :
  item_ok it -> has_flag (kflag T) (entry it) = true -> kcache T it = None ->
  kdecode (Value (entry it)) = Some t ->
  let it' := with_cache it (Some t) (kdirty T it) in
  item_ok it' /\ flush_item k it' = it' /\ flush_item k it = it.
Proof.
  intros Hit Hf Hc Hd. cbv zeta. pose proof (sk_ok (T := T) it Hit Hf) as Hk.
  rewrite Hc in Hk. destruct Hk as [Hdir Hb]. rewrite Hdir.
  assert (Hok' : item_ok (with_cache it (Some t) false)).
  { apply sk_warm; [done|]. intros _. rewrite cache_with, dirty_with, entry_with.
    split; [by eapply decode_ok|done]. }
  split_and!; [done| |].
  - rewrite (sk_flush (T := T)); [|done|by rewrite entry_with].
    apply flush1_id. rewrite dirty_with. by right.
  - rewrite (sk_flush (T := T)) by done. apply flush1_id. by right.
Qed.

(** Typed reads see the value Peek's blob decodes to, and change nothing
    observable. *)
Lemma peekLocked_read now m k :
  store_ok m ->
  (peekLocked (T := T) now m k).1 = spec_read (view now m) k /\
  view now (peekLocked (T := T) now m k).2 = view now m /\
  store_ok (peekLocked (T := T) now m k).2.
Proof.
  intros Hok. unfold peekLocked, spec_read.
  destruct (items m !! k) as [it|] eqn:Ek; [|by rewrite view_missing].
  destruct (Expired (entry it) now) eqn:Ex.
  { rewrite (view_dead _ _ _ it) by done.
    split_and!; [done|by apply view_remove_expired|by apply removeElement_ok]. }
  rewrite (view_live _ _ _ it) by done. unfold IsTombstone. rewrite !flushed_flag.
  destruct (has_flag FlagTombstone (entry it) || negb (has_flag (kflag T) (entry it))) eqn:Et; [done|].
  apply orb_false_elim in Et as [_ Ef%negb_false_iff].
  pose proof (proj2 Hok k it Ek) as Hit. simpl in Hit.
  destruct (cachedOrDecoded_view k it Hit Ef) as [Hv Hk]. rewrite <- Hv. unfold cachedOrDecoded in *.
  destruct (kcache T it) as [t|] eqn:Ec; [done|].
  destruct (kdecode (Value (entry it))) as [t|] eqn:Ed; [|done]. split; [done|].
  pose proof (warm_item k it t Hit Ef Ec Ed) as (Hok' & Hfl & Hfl'). split.
  - rewrite (view_insert now m _ k (with_cache it (Some t) (kdirty T it))) by done.
    rewrite Hfl, entry_with. unfold insert_live. rewrite Ex.
    apply insert_id. rewrite (view_live _ _ _ it) by done. by rewrite Hfl'.
  - apply updateItem_ok; [done|done|rewrite cost_with; by apply (wf_cost _ (proj1 Hok) k)|done].
Qed.
End typed.

(** ** Lists: versions are assigned locally *)

Definition spec_lMutate (now : Z) (s : gmap bytes Entry) (k : bytes) (version expireAt : Z)
    (mut : ListT -> ListT) : bool * gmap bytes Entry :=
  let create v := (true, <[k := typed_entry (mut List_New) v expireAt]> s) in
  match s !! k with
  | None => create 1
  | Some e =>
      if IsTombstone e then
        if version <=? Version e then (false, s) else create (Version e +u 1)
      else if IsList e then
        match List_Decode (Value e) with
        | None => (false, s)
        | Some l => (true, <[k := typed_entry (mut l) (Version e +u 1)
                                   (if expireAt =? 0 then ExpireAt e else expireAt)]> s)
        end
      else (false, s)
  end.

(** (item, applied) and the next map: a pop of a missing or empty list is a
    successful no-op. *)
Definition spec_lPop (now : Z) (s : gmap bytes Entry) (k : bytes) (version expireAt : Z) (left : bool)
    : (option bytes * bool) * gmap bytes Entry :=
  match s !! k with
  | None => ((None, true), s)
  | Some e =>
      if IsTombstone e then ((None, negb (version <=? Version e)), s)
      else if negb (IsList e) then ((None, false), s)
      else
        match List_Decode (Value e) with
        | None => ((None, false), s)
        | Some l =>
            match (if left then List_LPop l else List_RPop l) with
            | (None, _) => ((None, true), s)
            | (Some item, l) =>
                ((Some item, true), <[k := typed_entry l (Version e +u 1)
                                           (if expireAt =? 0 then ExpireAt e else expireAt)]> s)
            end
        end
  end.

Lemma lCreate_implements now m s k v x (mut : ListT -> ListT) :
  store_ok m -> items m !! k = None -> view now m = delete k s -> live_at now x ->
  (forall l, Forall fits l -> Forall fits (mut l)) ->
  implements now (lCreate now m k v x mut) (true, <[k := typed_entry (mut List_New) v x]> s).
Proof.
  intros Hok Hk Hv Hl Hmut. unfold lCreate, insertListLocked.
  assert (Hf : Forall fits (mut List_New)) by (apply Hmut; constructor).
  rewrite <- (insert_delete_eq s), <- Hv.
  apply insertLocked_implements; try done. by apply List_Decode_Encode.
Qed.

Lemma lMutateLocked_implements now m k v x (mut : ListT -> ListT) :
  store_ok m -> live_at now x -> (forall l, Forall fits l -> Forall fits (mut l)) ->
  implements now (lMutateLocked now m k v x mut) (spec_lMutate now (view now m) k v x mut).
Proof.
  intros Hok Hl Hmut. unfold lMutateLocked, spec_lMutate. cbv zeta.
  destruct (items m !! k) as [it|] eqn:Ek.
  2:{ rewrite view_missing by done. apply lCreate_implements; try done.
      rewrite delete_id; [done|]. by apply view_missing. }
  rewrite lookup_view, Ek. destruct (Expired (entry it) now) eqn:Ex.
  { apply lCreate_implements; auto using removed_missing, view_removed with store. }
  unfold IsTombstone, IsList. rewrite !flushed_flag, flushed_version.
  destruct (has_flag FlagTombstone (entry it)).
  { destruct (v <=? Version (entry it)); [eauto with store|].
    apply lCreate_implements; auto using removed_missing, view_removed with store. }
  destruct (has_flag FlagList (entry it)) eqn:Ef; [|eauto with store].
  destruct (cachedOrDecoded_view (T := ListT) k it (proj2 Hok k it Ek)) as [Hc Ht]; [exact Ef|].
  change (kdecode (T := ListT)) with List_Decode in Hc. rewrite <- Hc.
  destruct (cachedOrDecoded it) as [l|] eqn:Ec; [|eauto with store].
  destruct (flush_item_meta k it) as (_ & -> & _).
  apply (storeDirty_implements (T := ListT)); [done|done|by apply Hmut, Ht|].
  destruct (x =? 0); [by apply live_Expired|done].
Qed.

Lemma pop_fits (left : bool) l x l' :
  Forall fits l -> (if left then List_LPop l else List_RPop l) = (x, l') -> Forall fits l'.
Proof.
  intros Hl. destruct left; unfold List_LPop, List_RPop.
  - destruct l; intros; simplify_eq; [done|]. by inv Hl.
  - repeat case_match; intros; simplify_eq; auto using Forall_take.
Qed.

Lemma lPopLocked_implements now m k v x left :
  store_ok m -> live_at now x ->
  implements now (lPopLocked now m k v x left) (spec_lPop now (view now m) k v x left).
Proof.
  intros Hok Hl. unfold lPopLocked, spec_lPop.
  destruct (items m !! k) as [it|] eqn:Ek; [|rewrite view_missing by done; eauto with store].
  rewrite lookup_view, Ek. destruct (Expired (entry it) now) eqn:Ex; [eauto with store|].
  unfold IsTombstone, IsList. rewrite !flushed_flag, flushed_version.
  destruct (has_flag FlagTombstone (entry it)).
  { destruct (v <=? Version (entry it)); simpl; eauto with store. }
  destruct (has_flag FlagList (entry it)) eqn:Ef; simpl; [|eauto with store].
  destruct (cachedOrDecoded_view (T := ListT) k it (proj2 Hok k it Ek)) as [Hc Ht]; [exact Ef|].
  change (kdecode (T := ListT)) with List_Decode in Hc. rewrite <- Hc.
  destruct (cachedOrDecoded it) as [l|] eqn:Ec; [|eauto with store].
  destruct (if left then List_LPop l else List_RPop l) as [[item|] l'] eqn:Ep; [|eauto with store].
  destruct (flush_item_meta k it) as (_ & -> & _).
  assert (Forall fits l') by (eapply pop_fits, Ep; by apply Ht).
  destruct (storeDirty_implements (T := ListT) now m k it l' (Version (entry it) +u 1) x)
    as (_ & Href & Hs); [done|done|done| |split_and!; done].
  destruct (x =? 0); [by apply live_Expired|done].
Qed.

(** ** Reading back *)

Lemma with_peek_read {T R} `{StoreKind T} now m k (none : R) (f : T -> R) :
  store_ok m ->
  (with_peek now m k none f).1 =
    match spec_read (view now m) k with None => none | Some t => f t end /\
  view now (with_peek now m k none f).2 = view now m.
Proof.
  intros Hok. unfold with_peek. destruct (peekLocked_read (T := T) now m k Hok) as (H1 & H2 & _).
  destruct (peekLocked now m k) as [t m']; simpl in *. by subst t.
Qed.

Lemma read_typed {T} `{StoreKind T} now s m k (t : T) v x :
  refines now s m -> s !! k = Some (typed_entry t v x) -> kok t ->
  spec_read (view now m) k = Some t.
Proof.
  intros Href Hk Ht. unfold spec_read.
  rewrite (ref_pinned _ _ _ Href k _ Hk) by apply typed_pinned.
  unfold typed_entry. rewrite flag_tomb, flag_own. simpl. by apply decode_encode.
Qed.

(** A successful mutation is what the next typed read sees. *)
Lemma mutate_read {T} `{StoreKind T} now m m' k v x (mut : T -> option T) :
  store_ok m -> live_at now x -> (forall t t', kok t -> mut t = Some t' -> kok t') ->
  mutateLocked now m k v x mut = (true, m') ->
  exists t, mut (default knew (spec_read (view now m) k)) = Some t /\
            spec_read (view now m') k = Some t.
Proof.
  intros Hok Hl Hmut E.
  destruct (mutateLocked_implements now m k v x mut Hok Hl Hmut) as (Hr & Href & _).
  rewrite E in Hr, Href. simpl in Hr, Href. revert Hr Href.
  assert (Hkn : kok (knew (T := T))) by apply new_ok.
  unfold spec_mutate, spec_read at 1.
  destruct (view now m !! k) as [e|] eqn:Ev.
  2:{ unfold spec_create. simpl. destruct (mut knew) as [t|] eqn:Em; [|done]. intros _ Href.
      exists t. split; [done|]. eapply read_typed; [done|apply lookup_insert_eq|by eapply Hmut, Em]. }
  destruct (IsTombstone e) eqn:Et; simpl.
  { destruct (v <=? Version e); [done|]. unfold spec_create.
    destruct (mut knew) as [t|] eqn:Em; [|done]. intros _ Href.
    exists t. split; [done|]. eapply read_typed; [done|apply lookup_insert_eq|by eapply Hmut, Em]. }
  destruct (has_flag (kflag T) e) eqn:Ef; [|done]. simpl.
  destruct (kdecode (Value e)) as [t0|] eqn:Ed; [|done].
  destruct (mut t0) as [t|] eqn:Em; [|done]. intros _ Href. simpl.
  exists t. split; [done|]. eapply read_typed; [done|apply lookup_insert_eq|].
  eapply Hmut, Em. rewrite lookup_view in Ev.
  destruct (items m !! k) as [it|] eqn:Ei; [|done]. destruct (Expired _ _); [done|]. simplify_eq.
  rewrite flushed_flag in Ef.
  destruct (cachedOrDecoded_view k it (proj2 Hok k it Ei) Ef) as [Hc Ht]. apply Ht. congruence.
Qed.
