(* ===== verification/StoreScalars.v ===== *)
(** * Counters, Bloom filters, bitmaps, sketches and streams in the store

    pkg/store/counter.go, bloom.go, bitmap.go, hll.go, topk.go, cms.go,
    stream.go and vecset.go.  These kinds keep no decoded cache: every mutation rewrites the
    blob.  bitmap.go, hll.go, topk.go, cms.go and the appends of stream.go and
    vecset.go share one control flow ([upsertLocked]) around a pure update of the blob. *)
From S2P Require Import Prelude Wire Collections Scored Scalars Json Sketches Cms.
From S2P Require Import TopK Stream Vecset Store.

(** insertCounterLocked, insertBitmapLocked, insertHLLLocked, insertTopKLocked,
    insertCMSLocked and the tails of sxInsertLocked and SXInstall. *)
Definition insertPlainLocked (now : Z) (m : Memory) (key : bytes) (ent : Entry) : bool * Memory :=
  let m := evictLocked now (insertNew m key ent) in (present m key, m).

(** The common tail of bCommitLocked, hllCommitLocked, topkReplaceLocked,
    cmsCommitLocked, cmsInsertOverLocked, sxCommitLocked and sxCreateLocked:
    the entry is rewritten in place, and keeps its expiry when none is given. *)
Definition commitEntry (it : lruItem) (value : bytes) (stored expireAt flag : Z) : Entry :=
  mkEntry value stored (if expireAt =? 0 then ExpireAt (entry it) else expireAt) flag.

Definition commitLocked (now : Z) (m : Memory) (key : bytes) (it : lruItem) (value : bytes)
    (stored expireAt flag : Z) : Memory :=
  let e := commitEntry it value stored expireAt flag in
  evictLocked now (moveToFront (clampBytes (updateItem m key it (with_entry it e (entryCost key e)))) key).

(** The version gate and the four branches of BSet, HLLAdd, TopKAdd, CMSIncr
    and XAdd.  [compute None] builds a fresh blob, [compute (Some v)] updates a
    live one; it answers a refusal, or the new blob and the result as a
    function of whether the entry survived eviction. *)
Definition upsertLocked {R} (now : Z) (m : Memory) (key : bytes) (version expireAt flag : Z)
    (reject : R) (compute : option bytes -> R + (bytes * (bool -> R))) : R * Memory :=
  let insert m :=
    match compute None with
    | inl r => (r, m)
    | inr (blob, res) =>
        let '(ok, m) := insertPlainLocked now m key (mkEntry blob 1 expireAt flag) in (res ok, m)
    end in
  let commit it cur :=
    match compute cur with
    | inl r => (r, m)
    | inr (blob, res) =>
        let m := commitLocked now m key it blob (Version (entry it) +u 1) expireAt flag in
        (res (present m key), m)
    end in
  match items m !! key with
  | None => insert m
  | Some it =>
      if Expired (entry it) now then insert (removeElement m key it)
      else if IsTombstone (entry it) then
        if version <=? Version (entry it) then (reject, add_stale m) else commit it None
      else if negb (has_flag flag (entry it)) then (reject, m)
      else commit it (Some (Value (entry it)))
  end.

(** hasBitmapLocked and its siblings. *)
Definition hasLocked (flag : Z) (now : Z) (m : Memory) (key : bytes) : bool * Memory :=
  match items m !! key with
  | None => (false, m)
  | Some it =>
      if Expired (entry it) now then (false, removeElement m key it)
      else (negb (IsTombstone (entry it)) && has_flag flag (entry it), m)
  end.

(** Reads of the live blob. *)
Definition with_blob {R} (flag : Z) (now : Z) (m : Memory) (key : bytes) (f : bytes -> R)
    : option R * Memory :=
  let '(ok, m) := hasLocked flag now m key in
  (if ok then match items m !! key with Some it => Some (f (Value (entry it))) | None => None end
   else None, m).

(** CInstall, BInstall, HLLInstall, TopKInstall and CMSInstall after their
    checks of the blob. *)
Definition installPlain (flag : Z) (now : Z) (m : Memory) (key blob : bytes) (version expireAt : Z)
    : bool * Memory :=
  let ent := mkEntry blob version expireAt flag in
  match items m !! key with
  | None => insertPlainLocked now m key ent
  | Some it =>
      let install := insertPlainLocked now (removeElement m key it) key ent in
      if Expired (entry it) now then install
      else if IsTombstone (entry it) then
        if version <=? Version (entry it) then (false, add_stale m) else install
      else if has_flag flag (entry it) then
        if version <=? Version (entry it) then (false, add_stale m) else install
      else if version <=? Version (entry it) then (false, m) else install
  end.

Definition over (maxValue n : Z) : bool := (0 <? maxValue) && (maxValue <? n).

(** ** Counters (counter.go) *)

(** (value, applied, overflow) *)
Definition cInsertLocked (now : Z) (m : Memory) (key : bytes) (val version expireAt : Z)
    : (Z * bool * bool) * Memory :=
  let '(ok, m) := insertPlainLocked now m key (mkEntry (Counter_Encode val) version expireAt FlagCounter) in
  (if ok then (val, true, false) else (0, false, false), m).

Definition CIncr (now : Z) (m : Memory) (key : bytes) (delta version expireAt : Z)
    : (Z * bool * bool) * Memory :=
  match items m !! key with
  | None => cInsertLocked now m key delta 1 expireAt
  | Some it =>
      if Expired (entry it) now then cInsertLocked now (removeElement m key it) key delta 1 expireAt
      else if IsTombstone (entry it) then
        if version <=? Version (entry it) then ((0, false, false), add_stale m)
        else cInsertLocked now (removeElement m key it) key delta (Version (entry it) +u 1) expireAt
      else if negb (IsCounter (entry it)) then ((0, false, false), m)
      else
        match Counter_Decode (Value (entry it)) with
        | None => ((0, false, false), m)
        | Some cur =>
            match Counter_Add cur delta with
            | None => ((cur, false, true), m)
            | Some next =>
                let e := commitEntry it (Counter_Encode next) (Version (entry it) +u 1) expireAt FlagCounter in
                ((next, true, false),
                 evictLocked now (moveToFront
                   (updateItem m key it (with_entry it e (entryCost key e))) key))
            end
        end
  end.

Definition CGet (now : Z) (m : Memory) (key : bytes) : option Z * Memory :=
  match items m !! key with
  | None => (None, m)
  | Some it =>
      if Expired (entry it) now then (None, removeElement m key it)
      else if IsTombstone (entry it) || negb (IsCounter (entry it)) then (None, m)
      else (Counter_Decode (Value (entry it)), m)
  end.

Definition HasCounter (now : Z) (m : Memory) (key : bytes) : bool * Memory :=
  let '(v, m) := CGet now m key in (match v with Some _ => true | None => false end, m).

Definition CInstall (now : Z) (m : Memory) (key blob : bytes) (version expireAt : Z) : bool * Memory :=
  match Counter_Decode blob with
  | None => (false, m)
  | Some _ => installPlain FlagCounter now m key blob version expireAt
  end.

(** ** Bloom filters (bloom.go): a live filter is updated in place, version kept *)

Definition bloomMutateLocked (now : Z) (m : Memory) (key : bytes) (mBits k version expireAt : Z)
    (mut : Filter -> Filter) : bool * Memory :=
  let create m :=
    match Bloom_Open mBits k (replicate (Z.to_nat (Z.quot (mBits + 7) 8)) 0) with
    | None => (false, m)
    | Some f => insertPlainLocked now m key (mkEntry (fbits (mut f)) version expireAt FlagBloom)
    end in
  match items m !! key with
  | None => create m
  | Some it =>
      if Expired (entry it) now then create (removeElement m key it)
      else if IsTombstone (entry it) then
        if version <=? Version (entry it) then (false, add_stale m) else create (removeElement m key it)
      else if IsBloom (entry it) then
        match Bloom_Open mBits k (Value (entry it)) with
        | None => (false, m)
        | Some f =>
            let e := mkEntry (fbits (mut f)) (Version (entry it)) (ExpireAt (entry it)) (Flags (entry it)) in
            (true, moveToFront (updateItem m key it (with_entry it e (cost it))) key)
        end
      else (false, m)
  end.

Definition BloomAdd now m key item mBits k version expireAt : bool * Memory :=
  bloomMutateLocked now m key mBits k version expireAt (fun f => Bloom_Add f item).

Definition BloomTest (now : Z) (m : Memory) (key item : bytes) (mBits k : Z) : bool * Memory :=
  match items m !! key with
  | None => (false, m)
  | Some it =>
      if Expired (entry it) now then (false, removeElement m key it)
      else if IsTombstone (entry it) || negb (IsBloom (entry it)) then (false, m)
      else
        (match Bloom_Open mBits k (Value (entry it)) with
         | None => false
         | Some f => Bloom_Test f item
         end, m)
  end.

(** The error of Merge is dropped; a mismatch leaves the filter as it was. *)
Definition BloomMerge (now : Z) (m : Memory) (key bits : bytes) (mBits k version expireAt : Z)
    : bool * Memory :=
  match Bloom_Open mBits k bits with
  | None => (false, m)
  | Some remote =>
      bloomMutateLocked now m key mBits k version expireAt
        (fun f => default f (Bloom_Merge f remote))
  end.

(** ** Bitmaps (bitmap.go): (applied, tooLarge) *)

Definition bitmapCompute (offset : Z) (bit : bool) (maxValue : Z) (cur : option bytes)
    : (bool * bool) + (bytes * (bool -> bool * bool)) :=
  let next := Bitmap_Set (default [] cur) offset bit in
  if over maxValue (len next) then inl (false, true) else inr (next, fun still => (still, false)).

Definition BSet (now : Z) (m : Memory) (key : bytes) (offset : Z) (bit : bool)
    (version expireAt maxValue : Z) : (bool * bool) * Memory :=
  match EncodedLen offset with
  | None => ((false, true), m)
  | Some need =>
      if over maxValue need then ((false, true), m)
      else upsertLocked now m key version expireAt FlagBitmap (false, false)
             (bitmapCompute offset bit maxValue)
  end.

Definition BGet now m key offset : option bool * Memory :=
  with_blob FlagBitmap now m key (fun b => Bitmap_Get b offset).
Definition BCount now m key start stop : option Z * Memory :=
  with_blob FlagBitmap now m key (fun b => Bitmap_Count b start stop).
Definition BPos now m key bit start stop : option (option Z) * Memory :=
  with_blob FlagBitmap now m key (fun b => Bitmap_Pos b bit start stop).
Definition HasBitmap := hasLocked FlagBitmap.
Definition BInstall := installPlain FlagBitmap.

(** ** HyperLogLog (hll.go): (applied, tooLarge) *)

Definition hllCompute (item : bytes) (cur : option bytes)
    : (bool * bool) + (bytes * (bool -> bool * bool)) :=
  let work :=
    match cur with
    | Some c => if len c =? HLL_DenseSize then HLL_Add c item else HLL_Add HLL_New item
    | None => HLL_Add HLL_New item
    end in
  inr (work, fun still => (still, false)).

Definition HLLAdd (now : Z) (m : Memory) (key item : bytes) (version expireAt maxValue : Z)
    : (bool * bool) * Memory :=
  if over maxValue HLL_DenseSize then ((false, true), m)
  else upsertLocked now m key version expireAt FlagHLL (false, false) (hllCompute item).

Definition HasHLL := hasLocked FlagHLL.
Definition HLLInstall (now : Z) (m : Memory) (key blob : bytes) (version expireAt : Z) : bool * Memory :=
  if negb (len blob =? HLL_DenseSize) then (false, m)
  else installPlain FlagHLL now m key blob version expireAt.

(** ** Top-K (topk.go): (applied, tooLarge).  A nil blob and an empty blob
    both stand for an empty table. *)

Definition topkApply (cur : option bytes) (item : bytes) (k maxValue : Z)
    : (bool * bool) + (bytes * (bool -> bool * bool)) :=
  match (match cur with None => TopK_New k | Some c => TopK_Decode c k end) with
  | None => inl (false, false)
  | Some tab =>
      match TopK_Add tab item with
      | inr _ => inl (false, false)
      | inl tab =>
          let blob := TopK_Encode tab in
          if over maxValue (len blob) then inl (false, true)
          else inr (blob, fun still => (still, false))
      end
  end.

Definition TopKAdd (now : Z) (m : Memory) (key item : bytes) (version expireAt k maxValue : Z)
    : (bool * bool) * Memory :=
  if k <? 1 then ((false, true), m)
  else if len item =? 0 then ((false, false), m)
  else upsertLocked now m key version expireAt FlagTopK (false, false)
         (fun cur => topkApply cur item k maxValue).

Definition TopKList (now : Z) (m : Memory) (key : bytes) (k : Z) : option (list TEntry) * Memory :=
  let '(r, m) := with_blob FlagTopK now m key (fun b => TopK_Decode b k) in
  (match r with Some (Some tab) => Some (TopK_List tab) | _ => None end, m).

Definition HasTopK := hasLocked FlagTopK.
Definition TopKInstall (now : Z) (m : Memory) (key blob : bytes) (version expireAt k : Z) : bool * Memory :=
  match TopK_Decode blob k with
  | None => (false, m)
  | Some _ => installPlain FlagTopK now m key blob version expireAt
  end.

(** ** Count-Min (cms.go): (applied, tooLarge) *)

Definition cmsCompute (item : bytes) (n : Z) (cur : option bytes)
    : (bool * bool) + (bytes * (bool -> bool * bool)) :=
  let incr b := match CMS_Incr b item n with
                | inr _ => inl (false, false)
                | inl b => inr (b, fun still => (still, false))
                end in
  match cur with
  | Some c => if negb (len c =? CMS_DenseSize) then inl (false, false) else incr c
  | None => incr CMS_New
  end.

Definition CMSIncr (now : Z) (m : Memory) (key item : bytes) (n version expireAt maxValue : Z)
    : (bool * bool) * Memory :=
  if len item =? 0 then ((false, false), m)
  else if over maxValue CMS_DenseSize then ((false, true), m)
  else upsertLocked now m key version expireAt FlagCMS (false, false) (cmsCompute item n).

Definition CMSQuery now m key item : option Z * Memory :=
  with_blob FlagCMS now m key (fun b => CMS_Query b item).
Definition HasCMS := hasLocked FlagCMS.
Definition CMSInstall (now : Z) (m : Memory) (key blob : bytes) (version expireAt : Z) : bool * Memory :=
  if negb (len blob =? CMS_DenseSize) then (false, m)
  else installPlain FlagCMS now m key blob version expireAt.

(** ** Streams (stream.go): (id, applied, tooLarge, full); [nowMs] is NowMilli() *)

Definition xaddCompute (payload : bytes) (autoTrim maxValue nowMs : Z) (cur : option bytes)
    : (bytes * bool * bool * bool) + (bytes * (bool -> bytes * bool * bool * bool)) :=
  match (match cur with None => Some Log_New | Some c => DecodeSnapshot c end) with
  | None => inl ([], false, false, false)
  | Some lg =>
      match Append lg payload nowMs autoTrim with
      | inr S_Full => inl ([], false, false, true)
      | inr _ => inl ([], false, false, false)
      | inl (id, lg) =>
          let blob := Log_Encode lg in
          if over maxValue (len blob) then inl ([], false, true, false)
          else inr (blob, fun still => (id, still, false, false))
      end
  end.

Definition XAdd (now nowMs : Z) (m : Memory) (key payload : bytes)
    (version expireAt maxValue autoTrim : Z) : (bytes * bool * bool * bool) * Memory :=
  upsertLocked now m key version expireAt FlagStream ([], false, false, false)
    (xaddCompute payload autoTrim maxValue nowMs).

(** sxWriteLocked, and the tail of VRem.  No eviction: an entry that shrinks is
    not meant to push others out. *)
Definition writeLocked (flag : Z) (m : Memory) (key : bytes) (it : lruItem) (blob : bytes) (stored expireAt : Z) : Memory :=
  let e := commitEntry it blob stored expireAt flag in
  moveToFront (clampBytes (updateItem m key it (with_entry it e (entryCost key e)))) key.

(** XDel and XTrim after their argument checks, and VRem: [f] rewrites the live
    blob, or fails on one that does not decode. *)
Definition editLocked (flag : Z) (now : Z) (m : Memory) (key : bytes) (version expireAt : Z)
    (f : bytes -> option bytes) : bool * Memory :=
  match items m !! key with
  | None => (true, m)
  | Some it =>
      if Expired (entry it) now then (true, removeElement m key it)
      else if IsTombstone (entry it) then
        if version <=? Version (entry it) then (false, add_stale m) else (true, m)
      else if negb (has_flag flag (entry it)) then (false, m)
      else
        match f (Value (entry it)) with
        | None => (false, m)
        | Some blob => (true, writeLocked flag m key it blob (Version (entry it) +u 1) expireAt)
        end
  end.

Definition logEdit (f : Log -> Log) (b : bytes) : option bytes :=
  match DecodeSnapshot b with None => None | Some lg => Some (Log_Encode (f lg)) end.

Definition XDel (now : Z) (m : Memory) (key id : bytes) (version expireAt : Z) : bool * Memory :=
  match ParseID id with
  | None => (false, m)
  | Some (ms, seq) => editLocked FlagStream now m key version expireAt (logEdit (fun lg => Log_Del lg ms seq))
  end.

Definition XTrim (now : Z) (m : Memory) (key : bytes) (maxLen version expireAt : Z) : bool * Memory :=
  if maxLen <? 0 then (false, m)
  else editLocked FlagStream now m key version expireAt (logEdit (fun lg => Trim lg maxLen)).

Definition liveStreamLocked (now : Z) (m : Memory) (key : bytes) : option Log * Memory :=
  let '(r, m) := with_blob FlagStream now m key DecodeSnapshot in
  (match r with Some (Some lg) => Some lg | _ => None end, m).

(** [None] is a bad bound; [Some None] a missing stream. *)
Definition XRange (now : Z) (m : Memory) (key start stop : bytes) (count : Z) (rev : bool)
    : option (option (list (bytes * bytes))) * Memory :=
  match ParseBound start true, ParseBound stop false with
  | Some sb, Some eb =>
      let '(lg, m) := liveStreamLocked now m key in
      (Some (match lg with
             | None => None
             | Some lg => Some (map (fun e => (FormatID (Ms e) (Seq e), Payload e))
                                  (Log_Range lg sb eb count rev))
             end), m)
  | _, _ => (None, m)
  end.

Definition XLen (now : Z) (m : Memory) (key : bytes) : option Z * Memory :=
  let '(lg, m) := liveStreamLocked now m key in
  (match lg with Some lg => Some (len (Entries lg)) | None => None end, m).

Definition HasStream (now : Z) (m : Memory) (key : bytes) : bool * Memory :=
  let '(lg, m) := liveStreamLocked now m key in
  (match lg with Some _ => true | None => false end, m).

(** Any live entry with a version that high is stale-counted, whatever its kind. *)
Definition SXInstall (now : Z) (m : Memory) (key blob : bytes) (version expireAt : Z) : bool * Memory :=
  match DecodeSnapshot blob with
  | None => (false, m)
  | Some _ =>
      let ent := mkEntry blob version expireAt FlagStream in
      match items m !! key with
      | None => insertPlainLocked now m key ent
      | Some it =>
          if negb (Expired (entry it) now) && (version <=? Version (entry it)) then (false, add_stale m)
          else insertPlainLocked now (removeElement m key it) key ent
      end
  end.

(** ** Vector sets (vecset.go): (applied, tooLarge) *)

Definition vaddCompute (member : bytes) (vec : list float32) (maxValue : Z) (cur : option bytes)
    : (bool * bool) + (bytes * (bool -> bool * bool)) :=
  match (match cur with None => Some (VS_NewSet (len vec)) | Some c => VS_DecodeSnapshot c end) with
  | None => inl (false, false)
  | Some s =>
      if negb (Dim s =? len vec) then inl (false, false)
      else match VS_Add s member vec with
      | None => inl (false, false)
      | Some s =>
          let blob := VS_Encode s in
          if over maxValue (len blob) then inl (false, true) else inr (blob, fun still => (still, false))
      end
  end.

Definition VAdd (now : Z) (m : Memory) (key member : bytes) (vec : list float32) (version expireAt maxValue : Z)
    : (bool * bool) * Memory :=
  if bad_member member || negb (ValidDim (len vec)) || negb (Finite vec) then ((false, false), m)
  else upsertLocked now m key version expireAt FlagVectorSet (false, false) (vaddCompute member vec maxValue).

Definition vremEdit (member : bytes) (b : bytes) : option bytes :=
  match VS_DecodeSnapshot b with None => None | Some s => Some (VS_Encode (VS_Rem s member)) end.

Definition VRem (now : Z) (m : Memory) (key member : bytes) (version expireAt : Z) : bool * Memory :=
  editLocked FlagVectorSet now m key version expireAt (vremEdit member).

Definition HasVectorSet := hasLocked FlagVectorSet.

Definition liveVSLocked (now : Z) (m : Memory) (key : bytes) : option VSet * Memory :=
  let '(r, m) := with_blob FlagVectorSet now m key VS_DecodeSnapshot in
  (match r with Some (Some s) => Some s | _ => None end, m).

Definition VSim (now : Z) (m : Memory) (key : bytes) (vec : list float32) (k : Z) (metric : Metric)
    : option (list Hit) * Memory :=
  let '(s, m) := liveVSLocked now m key in
  (match s with Some s => VS_Sim s vec k metric | None => None end, m).

Definition VCard (now : Z) (m : Memory) (key : bytes) : option Z * Memory :=
  let '(s, m) := liveVSLocked now m key in (match s with Some s => Some (VS_Card s) | None => None end, m).

Definition VDim (now : Z) (m : Memory) (key : bytes) : option Z * Memory :=
  let '(s, m) := liveVSLocked now m key in (match s with Some s => Some (Dim s) | None => None end, m).

Definition VEmb (now : Z) (m : Memory) (key member : bytes) : option (list float32) * Memory :=
  let '(s, m) := liveVSLocked now m key in (match s with Some s => VS_Emb s member | None => None end, m).

Definition VSInstall (now : Z) (m : Memory) (key blob : bytes) (version expireAt : Z) : bool * Memory :=
  match VS_DecodeSnapshot blob with
  | None => (false, m)
  | Some _ => installPlain FlagVectorSet now m key blob version expireAt
  end.
