(* ===== verification/StoreScalarsProps.v ===== *)
(** * The blob-only kinds refine the observable map

    One contract for the shared control flow of bitmaps, sketches, top-K tables
    and streams ([upsertLocked_implements]), the contracts of counters and
    Bloom filters, and what a caller observes: increments add up, bits read
    back, and a value recreated over a tombstone inherits its expiry. *)
From S2P Require Import Prelude Wire Collections Scored Scalars Json Sketches Cms.
From S2P Require Import TopK Stream Store StoreInv StoreView StoreProps StoreKinds StoreKindsProps.
From S2P Require Import StoreScalars.

(** ** Flags of the blob-only kinds *)

Definition lazy_disjoint (flag : Z) : Prop :=
  Z.land (kflag SetT) flag = 0 /\ Z.land (kflag ZSetT) flag = 0 /\ Z.land (kflag GeoT) flag = 0 /\
  Z.land (kflag ListT) flag = 0 /\ Z.land (kflag HashT) flag = 0.

Record scalar_flag (flag : Z) : Prop := {
  sf_land : lazy_disjoint flag;
  sf_untyped v ver x : untyped (mkEntry v ver x flag) = true;
  sf_pinned v ver x : pinned (mkEntry v ver x flag) = true;
  sf_tomb v ver x : IsTombstone (mkEntry v ver x flag) = false;
  sf_own v ver x : has_flag flag (mkEntry v ver x flag) = true;
}.

Ltac scalar_flag_tac := split; [split_and!|..]; reflexivity.
Lemma counter_flag : scalar_flag FlagCounter. Proof. scalar_flag_tac. Qed.
Lemma bloom_flag : scalar_flag FlagBloom. Proof. scalar_flag_tac. Qed.
Lemma bitmap_flag : scalar_flag FlagBitmap. Proof. scalar_flag_tac. Qed.
Lemma hll_flag : scalar_flag FlagHLL. Proof. scalar_flag_tac. Qed.
Lemma topk_flag : scalar_flag FlagTopK. Proof. scalar_flag_tac. Qed.
Lemma cms_flag : scalar_flag FlagCMS. Proof. scalar_flag_tac. Qed.
Lemma stream_flag : scalar_flag FlagStream. Proof. scalar_flag_tac. Qed.
Lemma vecset_flag : scalar_flag FlagVectorSet. Proof. scalar_flag_tac. Qed.
#[export] Hint Resolve counter_flag bloom_flag bitmap_flag hll_flag topk_flag cms_flag stream_flag
  vecset_flag : store.

(** An item of such a kind has no pending blob. *)
Lemma flush_disjoint flag k it :
  lazy_disjoint flag -> item_ok it -> has_flag flag (entry it) = true -> flush_item k it = it.
Proof.
  intros (H1 & H2 & H3 & H4 & H5) [] Hf. unfold flush_item.
  rewrite (flush1_other SetT flag) by done. rewrite (flush1_other ZSetT flag) by done.
  rewrite (flush1_other GeoT flag) by done. rewrite (flush1_other ListT flag) by done.
  by rewrite (flush1_other HashT flag) by done.
Qed.

Lemma flush_scalar flag k it :
  scalar_flag flag -> item_ok it -> has_flag flag (entry it) = true -> flush_item k it = it.
Proof. intros [Hl _ _ _ _]. by apply flush_disjoint. Qed.

Lemma view_scalar flag now m k it :
  scalar_flag flag -> store_ok m -> items m !! k = Some it -> has_flag flag (entry it) = true ->
  Expired (entry it) now = false -> view now m !! k = Some (entry it).
Proof.
  intros Hs Hok Hk Hf Hx. rewrite (view_live _ _ _ it) by done.
  by rewrite (flush_scalar flag) by (done || by apply (proj2 Hok k)).
Qed.

(** ** Primitive steps *)

Lemma item_ok_new_untyped e c : untyped e = true -> item_ok (newItem e c).
Proof.
  intros Hu. destruct (untyped_inv e Hu) as [(H1 & H2 & H3 & H4 & H5)%unkinded_flags Hj].
  split; [by apply kind_ok_unflagged ..|by apply doc_ok_unflagged|by intros _].
Qed.

Lemma insertPlain_implements now m k e :
  store_ok m -> items m !! k = None -> untyped e = true -> pinned e = true -> live_at now (ExpireAt e) ->
  implements now (insertPlainLocked now m k e) (true, <[k := e]> (view now m)).
Proof.
  intros Hok Hk Hu Hp Hl%live_Expired. apply implements_typed; [| |done].
  - apply pushFront_ok; [done|done|apply entryCost_nonneg|]. rewrite copyEntry_id.
    by apply item_ok_new_untyped.
  - rewrite view_insertNew. unfold insert_live. by rewrite Hl.
Qed.

Lemma updateEntry_ok m k it e :
  store_ok m -> items m !! k = Some it -> untyped e = true ->
  store_ok (updateItem m k it (with_entry it e (entryCost k e))).
Proof.
  intros Hok Hk Hu. apply updateItem_ok; [done|done|apply entryCost_nonneg|].
  apply item_ok_untyped; [done|by apply (proj2 Hok k)].
Qed.

Lemma view_updateEntry now m m' k it e :
  items m' = items (updateItem m k it (with_entry it e (entryCost k e))) ->
  untyped e = true -> live_at now (ExpireAt e) ->
  view now m' = <[k := e]> (view now m).
Proof.
  intros Hi Hu Hl%live_Expired. rewrite (view_insert now m _ k (with_entry it e (entryCost k e))) by done.
  rewrite flush_untyped by done. unfold insert_live. simpl. by rewrite Hl.
Qed.

Lemma committed_live now it x :
  live_at now x -> Expired (entry it) now = false ->
  live_at now (if x =? 0 then ExpireAt (entry it) else x).
Proof. intros Hl Hx. destruct (x =? 0); [by apply live_Expired|done]. Qed.

Lemma commitLocked_implements flag now m k it blob v x :
  scalar_flag flag -> store_ok m -> items m !! k = Some it -> Expired (entry it) now = false ->
  live_at now x ->
  implements now (present (commitLocked now m k it blob v x flag) k, commitLocked now m k it blob v x flag)
    (true, <[k := commitEntry it blob v x flag]> (view now m)).
Proof.
  intros Hs Hok Hk Hx Hl. unfold commitLocked. cbv zeta. set (e := commitEntry it blob v x flag).
  assert (Hu : untyped e = true) by apply Hs.
  pose proof (updateEntry_ok m k it e Hok Hk Hu) as Hok'. rewrite clampBytes_id by apply Hok'.
  apply implements_typed; [| |apply Hs].
  - apply moveToFront_ok; [done|]. rewrite lookup_updateItem. eauto.
  - eapply view_updateEntry; [done|done|]. by apply committed_live.
Qed.

Lemma implements_map {R R' : Type} now (f : R -> R') impl spec :
  implements now impl spec -> implements now (f impl.1, impl.2) (f spec.1, spec.2).
Proof. intros (H1 & H2 & H3). split_and!; simpl; [by rewrite H1|done|done]. Qed.

(** ** The shared upsert *)

Definition spec_upsert {R : Type} (now : Z) (s : gmap bytes Entry) (k : bytes) (version expireAt flag : Z)
    (reject : R) (compute : option bytes -> R + (bytes * (bool -> R))) : R * gmap bytes Entry :=
  let write e cur :=
    match compute cur with
    | inl r => (r, s)
    | inr (blob, res) =>
        (res true, <[k := mkEntry blob (Version e +u 1)
                            (if expireAt =? 0 then ExpireAt e else expireAt) flag]> s)
    end in
  match s !! k with
  | None =>
      match compute None with
      | inl r => (r, s)
      | inr (blob, res) => (res true, <[k := mkEntry blob 1 expireAt flag]> s)
      end
  | Some e =>
      if IsTombstone e then if version <=? Version e then (reject, s) else write e None
      else if negb (has_flag flag e) then (reject, s)
      else write e (Some (Value e))
  end.

Lemma upsert_insert {R : Type} now m k x flag (compute : option bytes -> R + (bytes * (bool -> R))) :
  scalar_flag flag -> store_ok m -> items m !! k = None -> live_at now x ->
  implements now
    (match compute None with
     | inl r => (r, m)
     | inr (blob, res) =>
         let '(ok, m) := insertPlainLocked now m k (mkEntry blob 1 x flag) in (res ok, m)
     end)
    (match compute None with
     | inl r => (r, view now m)
     | inr (blob, res) => (res true, <[k := mkEntry blob 1 x flag]> (view now m))
     end).
Proof.
  intros Hs Hok Hk Hl. destruct (compute None) as [r|[blob res]]; [eauto with store|].
  pose proof (insertPlain_implements now m k (mkEntry blob 1 x flag)) as Hi.
  specialize (Hi Hok Hk ltac:(apply Hs) ltac:(apply Hs) Hl). apply (implements_map _ res) in Hi.
  by destruct (insertPlainLocked now m k (mkEntry blob 1 x flag)).
Qed.

Lemma upsertLocked_implements {R : Type} now m k v x flag (reject : R) compute :
  scalar_flag flag -> store_ok m -> live_at now x ->
  implements now (upsertLocked now m k v x flag reject compute)
    (spec_upsert now (view now m) k v x flag reject compute).
Proof.
  intros Hs Hok Hl. unfold upsertLocked, spec_upsert. cbv zeta.
  destruct (items m !! k) as [it|] eqn:Ek.
  2:{ rewrite view_missing by done. by apply upsert_insert. }
  destruct (Expired (entry it) now) eqn:Ex.
  { rewrite (view_dead _ _ _ it) by done. rewrite <- (view_remove_expired now m k it) by done.
    apply upsert_insert; auto using removed_missing with store. }
  rewrite (view_live _ _ _ it) by done. unfold IsTombstone. rewrite !flushed_flag, flushed_version.
  destruct (flush_item_meta k it) as (_ & Hexp & _). rewrite Hexp.
  assert (Hcommit : forall cur,
    implements now
      (match compute cur with
       | inl r => (r, m)
       | inr (blob, res) =>
           let m := commitLocked now m k it blob (Version (entry it) +u 1) x flag in
           (res (present m k), m) end)
      (match compute cur with
       | inl r => (r, view now m)
       | inr (blob, res) =>
           (res true, <[k := mkEntry blob (Version (entry it) +u 1)
                               (if x =? 0 then ExpireAt (entry it) else x) flag]> (view now m)) end)).
  { intros cur. destruct (compute cur) as [r|[blob res]]; [eauto with store|]. cbv zeta.
    apply (implements_map _ res _ _
      (commitLocked_implements flag now m k it blob (Version (entry it) +u 1) x Hs Hok Ek Ex Hl)). }
  destruct (has_flag FlagTombstone (entry it)).
  { destruct (v <=? Version (entry it)); [eauto with store|]. apply Hcommit. }
  destruct (has_flag flag (entry it)) eqn:Ef; simpl; [|eauto with store].
  rewrite (flush_scalar flag k it) by (done || by apply (proj2 Hok k)). apply Hcommit.
Qed.

Lemma installPlain_implements flag now m k blob v x :
  scalar_flag flag -> store_ok m -> live_at now x ->
  implements now (installPlain flag now m k blob v x)
    (if newer_than (view now m) k v then (true, <[k := mkEntry blob v x flag]> (view now m))
     else (false, view now m)).
Proof.
  intros Hs Hok Hl. unfold installPlain. cbv zeta. set (e := mkEntry blob v x flag).
  destruct (items m !! k) as [it|] eqn:Ek.
  - rewrite (newer_live _ _ _ it) by done.
    assert (Hi : implements now (insertPlainLocked now (removeElement m k it) k e)
                   (true, <[k := e]> (view now m))).
    { rewrite <- (insert_delete_eq (view now m)), <- (view_removed now m k it).
      apply insertPlain_implements; auto using removed_missing with store; apply Hs. }
    destruct (Expired (entry it) now); simpl; [done|].
    destruct (IsTombstone (entry it)), (has_flag flag (entry it)), (v <=? Version (entry it));
      simpl; eauto with store.
  - rewrite newer_missing by done. apply insertPlain_implements; try done; apply Hs.
Qed.

(** Reads of the live blob. *)
Definition spec_blob (flag : Z) (s : gmap bytes Entry) (k : bytes) : option bytes :=
  match s !! k with
  | None => None
  | Some e => if negb (IsTombstone e) && has_flag flag e then Some (Value e) else None
  end.

Lemma with_blob_read {R : Type} flag now m k (f : bytes -> R) :
  scalar_flag flag -> store_ok m ->
  (with_blob flag now m k f).1 = f <$> spec_blob flag (view now m) k /\
  view now (with_blob flag now m k f).2 = view now m /\ store_ok (with_blob flag now m k f).2.
Proof.
  intros Hs Hok. unfold with_blob, hasLocked, spec_blob.
  destruct (items m !! k) as [it|] eqn:Ek; [|by rewrite view_missing].
  destruct (Expired (entry it) now) eqn:Ex.
  { rewrite (view_dead _ _ _ it) by done.
    split_and!; [done|by apply view_remove_expired|by apply removeElement_ok]. }
  rewrite (view_live _ _ _ it) by done. unfold IsTombstone. rewrite !flushed_flag.
  destruct (negb (has_flag FlagTombstone (entry it)) && has_flag flag (entry it)) eqn:E; [|done].
  apply andb_prop in E as [_ Ef]. rewrite Ek.
  by rewrite (flush_scalar flag) by (done || by apply (proj2 Hok k)).
Qed.

(** ** Counters *)

Definition spec_CIncr (now : Z) (s : gmap bytes Entry) (k : bytes) (delta version expireAt : Z)
    : (Z * bool * bool) * gmap bytes Entry :=
  let create v := ((delta, true, false), <[k := mkEntry (Counter_Encode delta) v expireAt FlagCounter]> s) in
  match s !! k with
  | None => create 1
  | Some e =>
      if IsTombstone e then
        if version <=? Version e then ((0, false, false), s) else create (Version e +u 1)
      else if negb (IsCounter e) then ((0, false, false), s)
      else
        match Counter_Decode (Value e) with
        | None => ((0, false, false), s)
        | Some cur =>
            match Counter_Add cur delta with
            | None => ((cur, false, true), s)
            | Some next =>
                ((next, true, false),
                 <[k := mkEntry (Counter_Encode next) (Version e +u 1)
                          (if expireAt =? 0 then ExpireAt e else expireAt) FlagCounter]> s)
            end
        end
  end.

Lemma cInsert_implements now m s k val v x :
  store_ok m -> items m !! k = None -> view now m = delete k s -> live_at now x ->
  implements now (cInsertLocked now m k val v x)
    ((val, true, false), <[k := mkEntry (Counter_Encode val) v x FlagCounter]> s).
Proof.
  intros Hok Hk Hv Hl. unfold cInsertLocked.
  pose proof (insertPlain_implements now m k (mkEntry (Counter_Encode val) v x FlagCounter)) as Hi.
  specialize (Hi Hok Hk eq_refl eq_refl Hl). rewrite Hv, insert_delete_eq in Hi.
  apply (implements_map _ (fun ok : bool => if ok then (val, true, false) else (0, false, false))) in Hi.
  by destruct (insertPlainLocked _ _ _ _).
Qed.

Lemma view_absent_delete now m k : items m !! k = None -> view now m = delete k (view now m).
Proof. intros Hk. rewrite delete_id; [done|]. by apply view_missing. Qed.

Lemma CIncr_implements now m k d v x :
  store_ok m -> live_at now x ->
  implements now (CIncr now m k d v x) (spec_CIncr now (view now m) k d v x).
Proof.
  intros Hok Hl. unfold CIncr, spec_CIncr. cbv zeta.
  destruct (items m !! k) as [it|] eqn:Ek.
  2:{ rewrite view_missing by done. apply cInsert_implements; auto using view_absent_delete. }
  destruct (Expired (entry it) now) eqn:Ex.
  { rewrite (view_dead _ _ _ it) by done.
    apply cInsert_implements; auto using removed_missing, view_removed with store. }
  rewrite (view_live _ _ _ it) by done. unfold IsTombstone, IsCounter. rewrite !flushed_flag, flushed_version.
  destruct (has_flag FlagTombstone (entry it)).
  { destruct (v <=? Version (entry it)); [eauto with store|].
    apply cInsert_implements; auto using removed_missing, view_removed with store. }
  destruct (has_flag FlagCounter (entry it)) eqn:Ef; simpl; [|eauto with store].
  rewrite (flush_scalar FlagCounter k it) by (eauto with store || by apply (proj2 Hok k)).
  destruct (Counter_Decode (Value (entry it))) as [cur|]; [|eauto with store].
  destruct (Counter_Add cur d) as [next|]; [|eauto with store].
  set (e := commitEntry it _ _ _ _).
  assert (Hu : untyped e = true) by done.
  destruct (implements_write (R := Z * bool * bool) now
    (moveToFront (updateItem m k it (with_entry it e (entryCost k e))) k) (next, true, false)
    (<[k := e]> (view now m))) as (? & ? & ?); [| |done].
  - apply moveToFront_ok; [by apply updateEntry_ok|]. rewrite lookup_updateItem. eauto.
  - eapply view_updateEntry; [done|done|]. by apply committed_live.
Qed.

(** ** Bloom filters *)

(** The filter an add or a merge starts from. *)
Definition spec_bloom (now : Z) (s : gmap bytes Entry) (k : bytes) (mBits kk version expireAt : Z)
    (mut : Filter -> Filter) : bool * gmap bytes Entry :=
  let create :=
    match Bloom_Open mBits kk (replicate (Z.to_nat (Z.quot (mBits + 7) 8)) 0) with
    | None => (false, delete k s)
    | Some f => (true, <[k := mkEntry (fbits (mut f)) version expireAt FlagBloom]> s)
    end in
  match s !! k with
  | None => create
  | Some e =>
      if IsTombstone e then if version <=? Version e then (false, s) else create
      else if IsBloom e then
        match Bloom_Open mBits kk (Value e) with
        | None => (false, s)
        | Some f => (true, <[k := mkEntry (fbits (mut f)) (Version e) (ExpireAt e) (Flags e)]> s)
        end
      else (false, s)
  end.

Lemma bloom_create_implements now m s k mBits kk v x (mut : Filter -> Filter) :
  store_ok m -> items m !! k = None -> view now m = delete k s -> live_at now x ->
  implements now
    (match Bloom_Open mBits kk (replicate (Z.to_nat (Z.quot (mBits + 7) 8)) 0) with
     | None => (false, m)
     | Some f => insertPlainLocked now m k (mkEntry (fbits (mut f)) v x FlagBloom) end)
    (match Bloom_Open mBits kk (replicate (Z.to_nat (Z.quot (mBits + 7) 8)) 0) with
     | None => (false, delete k s)
     | Some f => (true, <[k := mkEntry (fbits (mut f)) v x FlagBloom]> s) end).
Proof.
  intros Hok Hk Hv Hl. destruct (Bloom_Open _ _ _) as [f|]; [|rewrite <- Hv; eauto with store].
  rewrite <- (insert_delete_eq s), <- Hv. by apply insertPlain_implements.
Qed.

Lemma bloomMutate_implements now m k mBits kk v x (mut : Filter -> Filter) :
  store_ok m -> live_at now x ->
  implements now (bloomMutateLocked now m k mBits kk v x mut)
    (spec_bloom now (view now m) k mBits kk v x mut).
Proof.
  intros Hok Hl. unfold bloomMutateLocked, spec_bloom. cbv zeta.
  destruct (items m !! k) as [it|] eqn:Ek.
  2:{ rewrite view_missing by done. apply bloom_create_implements; auto using view_absent_delete. }
  destruct (Expired (entry it) now) eqn:Ex.
  { rewrite (view_dead _ _ _ it) by done.
    apply bloom_create_implements; auto using removed_missing, view_removed with store. }
  rewrite (view_live _ _ _ it) by done. unfold IsTombstone, IsBloom. rewrite !flushed_flag, flushed_version.
  destruct (has_flag FlagTombstone (entry it)).
  { destruct (v <=? Version (entry it)); [eauto with store|].
    apply bloom_create_implements; auto using removed_missing, view_removed with store. }
  destruct (has_flag FlagBloom (entry it)) eqn:Ef; simpl; [|eauto with store].
  assert (Hfl : flush_item k it = it).
  { apply (flush_scalar FlagBloom); [apply bloom_flag|by apply (proj2 Hok k)|done]. }
  rewrite Hfl.
  destruct (Bloom_Open mBits kk (Value (entry it))) as [f|]; [|eauto with store].
  set (e := mkEntry _ _ _ _). assert (Hu : untyped e = true) by (by apply (ok_bloom _ (proj2 Hok k it Ek))).
  assert (Hok' : store_ok (updateItem m k it (with_entry it e (cost it)))).
  { apply updateItem_ok; [done|done|exact (wf_cost _ (proj1 Hok) k it Ek)|].
    apply item_ok_untyped; [done|by apply (proj2 Hok k)]. }
  assert (Hv : view now (moveToFront (updateItem m k it (with_entry it e (cost it))) k)
               = <[k := e]> (view now m)).
  { rewrite (view_insert now m _ k (with_entry it e (cost it))) by done.
    rewrite flush_untyped by done. unfold insert_live, Expired. simpl. unfold Expired in Ex. by rewrite Ex. }
  split_and!; [done|simpl; rewrite <- Hv; apply refines_view|].
  apply moveToFront_ok; [done|]. rewrite lookup_updateItem. eauto.
Qed.

(** ** Stream edits and installs *)

Definition spec_edit (flag : Z) (s : gmap bytes Entry) (k : bytes) (version expireAt : Z) (f : bytes -> option bytes)
    : bool * gmap bytes Entry :=
  match s !! k with
  | None => (true, s)
  | Some e =>
      if IsTombstone e then (negb (version <=? Version e), s)
      else if negb (has_flag flag e) then (false, s)
      else
        match f (Value e) with
        | None => (false, s)
        | Some blob =>
            (true, <[k := mkEntry blob (Version e +u 1) (if expireAt =? 0 then ExpireAt e else expireAt) flag]> s)
        end
  end.

Lemma edit_implements flag now m k v x f :
  scalar_flag flag -> store_ok m -> live_at now x ->
  implements now (editLocked flag now m k v x f) (spec_edit flag (view now m) k v x f).
Proof.
  intros Hs Hok Hl. unfold editLocked, spec_edit.
  destruct (items m !! k) as [it|] eqn:Ek; [|rewrite view_missing by done; eauto with store].
  destruct (Expired (entry it) now) eqn:Ex; [rewrite (view_dead _ _ _ it) by done; eauto with store|].
  rewrite (view_live _ _ _ it) by done. unfold IsTombstone. rewrite !flushed_flag, flushed_version.
  destruct (has_flag FlagTombstone (entry it)).
  { destruct (v <=? Version (entry it)); simpl; eauto with store. }
  destruct (has_flag flag (entry it)) eqn:Ef; simpl; [|eauto with store].
  rewrite (flush_scalar flag k it) by (eauto with store || by apply (proj2 Hok k)).
  destruct (f (Value (entry it))) as [blob|]; [|eauto with store].
  unfold writeLocked. set (e := commitEntry it _ _ _ _).
  assert (Hu : untyped e = true) by apply Hs.
  pose proof (updateEntry_ok m k it e Hok Ek Hu) as Hok'. rewrite clampBytes_id by apply Hok'.
  assert (Hv : view now (moveToFront (updateItem m k it (with_entry it e (entryCost k e))) k)
               = <[k := e]> (view now m)).
  { eapply view_updateEntry; [done|done|]. by apply committed_live. }
  match goal with |- implements _ _ (true, ?s) => change s with (<[k := e]> (view now m)) end.
  rewrite <- Hv. apply implements_skip, moveToFront_ok; [done|]. rewrite lookup_updateItem. eauto.
Qed.

Lemma SXInstall_implements now m k blob v x :
  store_ok m -> live_at now x ->
  implements now (SXInstall now m k blob v x)
    (match DecodeSnapshot blob with
     | None => (false, view now m)
     | Some _ => if newer_than (view now m) k v
                 then (true, <[k := mkEntry blob v x FlagStream]> (view now m)) else (false, view now m)
     end).
Proof.
  intros Hok Hl. unfold SXInstall. cbv zeta. destruct (DecodeSnapshot blob); [|eauto with store].
  set (e := mkEntry blob v x FlagStream). destruct (items m !! k) as [it|] eqn:Ek.
  - rewrite (newer_live _ _ _ it) by done. destruct (negb _ && _); simpl; [eauto with store|].
    rewrite <- (insert_delete_eq (view now m)), <- (view_removed now m k it).
    apply insertPlain_implements; auto using removed_missing with store.
  - rewrite newer_missing by done. by apply insertPlain_implements.
Qed.

Lemma SetInstall_implements now m k blob v x :
  store_ok m -> live_at now x -> bytes_ok blob ->
  implements now (SetInstall now m k blob v x)
    (spec_install (T := SetT) now (view now m) k blob v x).
Proof.
  intros Hok Hl Hb. unfold SetInstall, spec_install. cbv zeta.
  destruct (items m !! k) as [it|] eqn:Ek.
  - rewrite (newer_live _ _ _ it) by done.
    pose proof (installBlob_over (T := SetT) now m k it blob v x Hok Ek Hl Hb) as Hi.
    destruct (Expired (entry it) now); simpl; [done|].
    destruct (IsTombstone (entry it)), (IsSet (entry it));
      destruct (Z.leb_spec v (Version (entry it))), (Z.ltb_spec v (Version (entry it))),
        (Z.eqb_spec v (Version (entry it))); simpl; try lia; eauto with store.
  - rewrite newer_missing by done. apply (installBlob_implements (T := SetT)); auto using view_absent_delete.
Qed.
