(* ===== verification/StoreJson.v ===== *)
(** * JSON documents in the store

    pkg/store/json.go.  A document item keeps the decoded tree beside its
    blob; every write encodes at once, so the blob is never behind the tree.
    The methods refine the observable map: JSet is the shared upsert of the
    blob-only kinds around "decode, set the path, encode", and JDel and JGet
    read the document the blob decodes to. *)
From S2P Require Import Prelude Wire Collections Scored Json JsonText Store StoreInv.
From S2P Require Import StoreView StoreProps StoreKinds StoreKindsProps StoreScalars StoreScalarsProps.

(** ** The methods *)

Definition with_doc (it : lruItem) (doc : json) (dirty : bool) : lruItem :=
  mkItem (entry it) (cost it) (setCache it) (setDirty it) (zCache it) (zDirty it) (gCache it) (gDirty it)
    (lCache it) (lDirty it) (hCache it) (hDirty it) doc dirty.

Definition insertJSONLocked (now : Z) (m : Memory) (key : bytes) (ent : Entry) (cache : json) (dirty : bool)
    : bool * Memory :=
  let cost := if dirty then len key + 64 + Json_ApproxWireBytes cache else entryCost key ent in
  let it := with_doc (newItem (copyEntry ent) cost) cache dirty in
  let m := evictLocked now (pushFront m key it) in
  (present m key, m).

(** The document, and the item and store with a nil cache filled. *)
Definition jDocLocked (m : Memory) (key : bytes) (it : lruItem) : option json * lruItem * Memory :=
  if jDirty it then (Some (jCache it), it, m)
  else match jCache it with
  | JNull =>
      match Json_Decode (Value (entry it)) with
      | None => (None, it, m)
      | Some v => let it' := with_doc it v (jDirty it) in (Some v, it', updateItem m key it it')
      end
  | doc => (Some doc, it, m)
  end.

(** The entry rewritten in place with its tree: the shared tail of
    jCommitReplaceLocked and JDel. *)
Definition jWriteLocked (now : Z) (m : Memory) (key : bytes) (it : lruItem) (newDoc : json) (blob : bytes)
    (stored expireAt : Z) : Memory :=
  let e := commitEntry it blob stored expireAt FlagJSON in
  let it' := with_doc (with_entry it e (entryCost key e)) newDoc false in
  evictLocked now (moveToFront (clampBytes (updateItem m key it it')) key).

(** (applied, tooLarge) *)
Definition jCommitReplaceLocked (now : Z) (m : Memory) (key : bytes) (it : lruItem) (newDoc : json)
    (stored expireAt maxValue : Z) : (bool * bool) * Memory :=
  match Json_Encode newDoc with
  | None => ((false, false), m)
  | Some blob =>
      if over maxValue (len blob) then ((false, true), m)
      else
        let m := jWriteLocked now m key it newDoc blob stored expireAt in
        ((present m key, false), m)
  end.

Definition jCommitInsertLocked (now : Z) (m : Memory) (key : bytes) (newDoc : json)
    (stored expireAt maxValue : Z) : (bool * bool) * Memory :=
  match Json_Encode newDoc with
  | None => ((false, false), m)
  | Some blob =>
      if over maxValue (len blob) then ((false, true), m)
      else
        let '(ok, m) := insertJSONLocked now m key (mkEntry blob stored expireAt FlagJSON) newDoc false in
        ((ok, false), m)
  end.

Definition jSetCreate (p : Path) (val : json) : json + jerr :=
  match p with [] => inl val | _ => Json_Set (JObject ∅) p val end.

Definition JSet (now : Z) (m : Memory) (key path raw : bytes) (version expireAt maxValue : Z)
    : (bool * bool) * Memory :=
  match Json_Decode raw with
  | None => ((false, false), m)
  | Some val =>
      match ParsePath path with
      | None => ((false, false), m)
      | Some p =>
          let insert m :=
            match jSetCreate p val with
            | inr _ => ((false, false), m)
            | inl newDoc => jCommitInsertLocked now m key newDoc 1 expireAt maxValue
            end in
          match items m !! key with
          | None => insert m
          | Some it =>
              if Expired (entry it) now then insert (removeElement m key it)
              else if IsTombstone (entry it) then
                if version <=? Version (entry it) then ((false, false), add_stale m)
                else
                  match jSetCreate p val with
                  | inr _ => ((false, false), m)
                  | inl newDoc =>
                      jCommitReplaceLocked now m key it newDoc (Version (entry it) +u 1) expireAt maxValue
                  end
              else if negb (IsJSON (entry it)) then ((false, false), m)
              else
                match jDocLocked m key it with
                | (None, _, m) => ((false, false), m)
                | (Some doc, it, m) =>
                    match Json_Set doc p val with
                    | inr _ => ((false, false), m)
                    | inl newDoc =>
                        jCommitReplaceLocked now m key it newDoc (Version (entry it) +u 1) expireAt maxValue
                    end
                end
          end
      end
  end.

(** (ok, mutated) *)
Definition JDel (now : Z) (m : Memory) (key path : bytes) (version expireAt : Z) : (bool * bool) * Memory :=
  match items m !! key with
  | None => ((true, false), m)
  | Some it =>
      if Expired (entry it) now then ((true, false), removeElement m key it)
      else if IsTombstone (entry it) then
        if version <=? Version (entry it) then ((false, false), add_stale m) else ((false, false), m)
      else if negb (IsJSON (entry it)) then ((false, false), m)
      else
        match ParsePath path with
        | None => ((false, false), m)
        | Some p =>
            match jDocLocked m key it with
            | (None, _, m) => ((false, false), m)
            | (Some doc, it, m) =>
                let '(newDoc, removed) := Json_Del doc p in
                if negb removed then ((true, false), m)
                else
                  match Json_Encode newDoc with
                  | None => ((false, false), m)
                  | Some blob =>
                      ((true, true), jWriteLocked now m key it newDoc blob (Version (entry it) +u 1) expireAt)
                  end
            end
        end
  end.

Definition hasJSONLocked := hasLocked FlagJSON.
Definition HasJSON := hasJSONLocked.

Definition JGet (now : Z) (m : Memory) (key path : bytes) : option bytes * Memory :=
  let '(ok, m) := hasJSONLocked now m key in
  if negb ok then (None, m)
  else
    match ParsePath path, items m !! key with
    | Some p, Some it =>
        if match p with [] => negb (jDirty it) | _ => false end then (Some (Value (entry it)), m)
        else
          match jDocLocked m key it with
          | (None, _, m) => (None, m)
          | (Some doc, _, m) =>
              (match Json_Get doc p with Some node => Json_Encode node | None => None end, m)
          end
    | _, _ => (None, m)
    end.

Definition JInstall (now : Z) (m : Memory) (key blob : bytes) (version expireAt : Z) : bool * Memory :=
  match Json_Decode blob with
  | None => (false, m)
  | Some doc =>
      let ent := mkEntry blob version expireAt FlagJSON in
      match items m !! key with
      | None => insertJSONLocked now m key ent doc false
      | Some it =>
          let install := insertJSONLocked now (removeElement m key it) key ent doc false in
          if Expired (entry it) now then install
          else if IsTombstone (entry it) then
            if version <=? Version (entry it) then (false, add_stale m) else install
          else if IsJSON (entry it) then
            if version <=? Version (entry it) then (false, add_stale m) else install
          else if version <=? Version (entry it) then (false, m) else install
      end
  end.

(** ** Steps on a document item *)

Lemma json_disjoint : lazy_disjoint FlagJSON.
Proof. by split_and!. Qed.

Lemma flush_json k it : item_ok it -> IsJSON (entry it) = true -> flush_item k it = it.
Proof. intros Hok Hj. by apply (flush_disjoint FlagJSON k it json_disjoint). Qed.

(** A tree and the blob that goes with it. *)
Definition doc_blob (doc : json) (blob : bytes) : Prop := json_ok doc /\ Json_Decode blob = Some doc.

Lemma encode_doc_blob doc blob : json_ok doc -> Json_Encode doc = Some blob -> doc_blob doc blob.
Proof. intros Hd Hb. split; [done|]. rewrite <- (app_nil_r blob). by apply decode_encoded. Qed.

Lemma json_entry_flags v ver x :
  let e := mkEntry v ver x FlagJSON in unkinded e = true /\ IsJSON e = true /\ IsBloom e = false /\ pinned e = true /\ IsTombstone e = false.
Proof. done. Qed.

(** An item that holds a document entry and its tree. *)
Lemma item_ok_doc it e c doc :
  Flags e = FlagJSON -> doc_blob doc (Value e) -> item_ok (with_doc (with_entry it e c) doc false).
Proof.
  intros Hf [Hd Hb]. destruct e as [v ver x f]. cbn in *. subst f.
  split; try (apply kind_ok_unflagged; reflexivity); [|done]. split; [done|]. intros _. by right.
Qed.

Lemma view_doc now m m' k it e doc c :
  items m' = <[k := with_doc (with_entry it e c) doc false]> (items m) -> Flags e = FlagJSON -> live_at now (ExpireAt e) ->
  view now m' = <[k := e]> (view now m).
Proof.
  intros Hi Hf Hl%live_Expired. rewrite (view_insert now m m' k _ Hi). rewrite flush_unkinded.
  - unfold insert_live. cbn. by rewrite Hl.
  - cbn. destruct e as [v ver x f]. cbn in *. by subst f.
Qed.

Lemma insertJSON_implements now m k blob v x doc :
  store_ok m -> items m !! k = None -> doc_blob doc blob -> live_at now x ->
  let e := mkEntry blob v x FlagJSON in
  implements now (insertJSONLocked now m k e doc false) (true, <[k := e]> (view now m)).
Proof.
  intros Hok Hk Hd Hl e. unfold insertJSONLocked. cbv zeta. rewrite copyEntry_id.
  apply implements_typed; [| |done].
  - apply pushFront_ok; [done|done|apply entryCost_nonneg|].
    by apply (item_ok_doc (newItem e (entryCost k e)) e (entryCost k e) doc).
  - by apply (view_doc now m _ k (newItem e (entryCost k e)) e doc (entryCost k e)).
Qed.

Lemma jWrite_implements now m k it blob v x doc :
  store_ok m -> items m !! k = Some it -> Expired (entry it) now = false -> doc_blob doc blob -> live_at now x ->
  implements now (present (jWriteLocked now m k it doc blob v x) k, jWriteLocked now m k it doc blob v x)
    (true, <[k := commitEntry it blob v x FlagJSON]> (view now m)).
Proof.
  intros Hok Hk Hx Hd Hl. unfold jWriteLocked. cbv zeta. set (e := commitEntry it blob v x FlagJSON).
  assert (Hok' : store_ok (updateItem m k it (with_doc (with_entry it e (entryCost k e)) doc false))).
  { apply updateItem_ok; [done|done|apply entryCost_nonneg|by apply item_ok_doc]. }
  rewrite clampBytes_id by apply Hok'. apply implements_typed; [| |done].
  - apply moveToFront_ok; [done|]. rewrite lookup_updateItem. eauto.
  - eapply view_doc; [done|done|]. by apply committed_live.
Qed.

(** Filling a nil cache is not observable. *)
Record warmed (now : Z) (m : Memory) (k : bytes) (it : lruItem) (it' : lruItem) (m' : Memory) : Prop := {
  wm_ok : store_ok m';
  wm_item : items m' !! k = Some it';
  wm_entry : entry it' = entry it;
  wm_view : view now m' = view now m;
  wm_max : maxBytes m' = maxBytes m;
}.

Lemma jDoc_warmed now m k it :
  store_ok m -> items m !! k = Some it -> Expired (entry it) now = false -> IsJSON (entry it) = true ->
  let '(d, it', m') := jDocLocked m k it in
  d = Json_Decode (Value (entry it)) /\ (forall doc, d = Some doc -> json_ok doc) /\ warmed now m k it it' m'.
Proof.
  intros Hok Hk Hx Hj. pose proof (proj2 Hok k it Hk) as Hit. cbn in Hit. destruct (ok_json _ Hit) as [Hd Hc]. specialize (Hc Hj).
  assert (Hdoc : forall doc, Json_Decode (Value (entry it)) = Some doc -> json_ok doc).
  { intros doc E. destruct Hc as [[_ Hb]|[Hd' Hdec]]; [by apply (decode_json_ok _ _ Hb E)|by simplify_eq]. }
  assert (Hw : warmed now m k it it m) by (by split). unfold jDocLocked. rewrite Hd.
  destruct (jCache it) eqn:Ec; try (destruct Hc as [[? _]|[Hd' Hdec]]; [done|]; rewrite Hdec in *; by split_and!).
  destruct (Json_Decode (Value (entry it))) as [v|] eqn:E; [|done]. split_and!; [done|done|].
  assert (Hit' : item_ok (with_doc it v false)).
  { destruct Hit. split; try done. split; [done|]. intros _. right. split; [by apply Hdoc|done]. }
  split; [|apply lookup_updateItem|done| |done].
  - apply updateItem_ok; try done. exact (wf_cost _ (proj1 Hok) _ _ Hk).
  - rewrite (view_insert now m _ k (with_doc it v false)) by done. unfold insert_live.
    rewrite (flush_json k (with_doc it v false)) by done. cbn [with_doc entry]. rewrite Hx. apply insert_id.
    rewrite (view_live _ _ _ it) by done. by rewrite flush_json.
Qed.

(** ** Specifications on the observable map *)

(** The new document from the live blob, if there is one. *)
Definition jsonEdit (p : Path) (val : json) (cur : option bytes) : option json :=
  match (match cur with
         | None => jSetCreate p val
         | Some b => match Json_Decode b with None => inr ErrType | Some doc => Json_Set doc p val end
         end) with
  | inl d => Some d
  | inr _ => None
  end.

Definition jsonCompute (p : Path) (val : json) (maxValue : Z) (cur : option bytes)
    : (bool * bool) + (bytes * (bool -> bool * bool)) :=
  match jsonEdit p val cur with
  | None => inl (false, false)
  | Some newDoc =>
      match Json_Encode newDoc with
      | None => inl (false, false)
      | Some blob => if over maxValue (len blob) then inl (false, true) else inr (blob, fun still => (still, false))
      end
  end.

Definition spec_JSet (now : Z) (s : gmap bytes Entry) (k path raw : bytes) (v x maxValue : Z)
    : (bool * bool) * gmap bytes Entry :=
  match Json_Decode raw, ParsePath path with
  | Some val, Some p => spec_upsert now s k v x FlagJSON (false, false) (jsonCompute p val maxValue)
  | _, _ => ((false, false), s)
  end.

Definition spec_JDel (s : gmap bytes Entry) (k path : bytes) (v x : Z) : (bool * bool) * gmap bytes Entry :=
  match s !! k with
  | None => ((true, false), s)
  | Some e =>
      if IsTombstone e || negb (IsJSON e) then ((false, false), s)
      else
        match ParsePath path, Json_Decode (Value e) with
        | Some p, Some doc =>
            let '(newDoc, removed) := Json_Del doc p in
            if negb removed then ((true, false), s)
            else match Json_Encode newDoc with
            | None => ((false, false), s)
            | Some blob => ((true, true), <[k := mkEntry blob (Version e +u 1) (if x =? 0 then ExpireAt e else x) FlagJSON]> s)
            end
        | _, _ => ((false, false), s)
        end
  end.

Definition spec_JGet (s : gmap bytes Entry) (k path : bytes) : option bytes :=
  match s !! k with
  | None => None
  | Some e =>
      if IsTombstone e || negb (IsJSON e) then None
      else
        match ParsePath path with
        | None => None
        | Some [] => Some (Value e)
        | Some p => match Json_Decode (Value e) with
                    | None => None
                    | Some doc => match Json_Get doc p with Some node => Json_Encode node | None => None end
                    end
        end
  end.

(** What a caller of JSet owes: bytes, and a value whose nesting below the
    path stays within what Decode reads back. *)
Definition jset_ok (path raw : bytes) : Prop :=
  bytes_ok path /\ bytes_ok raw /\
  forall p val, ParsePath path = Some p -> Json_Decode raw = Some val ->
    (length p + json_depth val <= maxNestingDepth)%nat.

Lemma implements_warmed {R : Type} now m k it it' m' (r : R) :
  warmed now m k it it' m' -> implements now (r, m') (r, view now m).
Proof. intros []. split_and!; [done| |done]. cbn. rewrite <- wm_view0. apply refines_view. Qed.

Lemma jCommitReplace_implements now m k it doc v x mv :
  store_ok m -> items m !! k = Some it -> Expired (entry it) now = false -> json_ok doc -> live_at now x ->
  implements now (jCommitReplaceLocked now m k it doc v x mv)
    (match Json_Encode doc with
     | None => ((false, false), view now m)
     | Some blob => if over mv (len blob) then ((false, true), view now m)
         else ((true, false), <[k := commitEntry it blob v x FlagJSON]> (view now m)) end).
Proof.
  intros Hok Hk Hx Hd Hl. unfold jCommitReplaceLocked. destruct (Json_Encode doc) as [blob|] eqn:Eb; [|eauto with store].
  destruct (over mv (len blob)); [eauto with store|]. cbv zeta.
  apply (implements_map _ (fun ok : bool => (ok, false)) _ _
    (jWrite_implements now m k it blob v x doc Hok Hk Hx (encode_doc_blob doc blob Hd Eb) Hl)).
Qed.

Lemma jCommitInsert_implements now m k doc v x mv :
  store_ok m -> items m !! k = None -> json_ok doc -> live_at now x ->
  implements now (jCommitInsertLocked now m k doc v x mv)
    (match Json_Encode doc with
     | None => ((false, false), view now m)
     | Some blob => if over mv (len blob) then ((false, true), view now m)
         else ((true, false), <[k := mkEntry blob v x FlagJSON]> (view now m)) end).
Proof.
  intros Hok Hk Hd Hl. unfold jCommitInsertLocked. destruct (Json_Encode doc) as [blob|] eqn:Eb; [|eauto with store].
  destruct (over mv (len blob)); [eauto with store|].
  pose proof (insertJSON_implements now m k blob v x doc Hok Hk (encode_doc_blob doc blob Hd Eb) Hl) as Hi.
  apply (implements_map _ (fun ok : bool => (ok, false))) in Hi. by destruct (insertJSONLocked _ _ _ _ _ _).
Qed.

Section jset.
Context (now : Z) (m : Memory) (k path raw : bytes) (v x mv : Z) (p : Path) (val : json).
Context (Hok : store_ok m) (Hl : live_at now x) (Hargs : jset_ok path raw).
Context (Hp : ParsePath path = Some p) (Hval : Json_Decode raw = Some val).

Lemma jset_value : Forall seg_ok p /\ json_ok val /\ (length p + json_depth val <= maxNestingDepth)%nat.
Proof.
  destruct Hargs as (Hb & Hr & Hd). split_and!; [by apply (ParsePath_ok path)|by apply (decode_json_ok raw)|by apply Hd].
Qed.

Lemma jSetCreate_ok d : jSetCreate p val = inl d -> json_ok d.
Proof.
  destruct jset_value as (Hs & [Hw Hd] & Hn). unfold jSetCreate. destruct p as [|s p'] eqn:Ep; [intros [= <-]; by split|].
  apply Json_Set_within; try done. assert (E : maxNestingDepth = S (pred maxNestingDepth)) by (cbn in Hn; lia).
  rewrite E. apply within_empty.
Qed.

Lemma Json_Set_ok doc d : json_ok doc -> Json_Set doc p val = inl d -> json_ok d.
Proof. intros Hdoc. destruct jset_value as (Hs & [Hw Hd] & Hn). by apply Json_Set_within. Qed.

Lemma jset_create m' :
  store_ok m' -> items m' !! k = None ->
  implements now
    (match jSetCreate p val with
     | inr _ => ((false, false), m')
     | inl newDoc => jCommitInsertLocked now m' k newDoc 1 x mv end)
    (match jsonCompute p val mv None with
     | inl r => (r, view now m')
     | inr (blob, res) => (res true, <[k := mkEntry blob 1 x FlagJSON]> (view now m')) end).
Proof.
  intros Hok' Hk. unfold jsonCompute, jsonEdit. destruct (jSetCreate p val) as [d|] eqn:Ed; [|eauto with store].
  pose proof (jCommitInsert_implements now m' k d 1 x mv Hok' Hk (jSetCreate_ok d Ed) Hl) as H.
  destruct (Json_Encode d) as [blob|]; [|done]. by destruct (over mv (len blob)).
Qed.

Lemma jset_commit it' d m' cur e :
  store_ok m' -> items m' !! k = Some it' -> entry it' = e -> Expired e now = false -> json_ok d -> jsonEdit p val cur = Some d ->
  implements now (jCommitReplaceLocked now m' k it' d (Version (entry it') +u 1) x mv)
    (match jsonCompute p val mv cur with
     | inl r => (r, view now m')
     | inr (blob, res) => (res true, <[k := mkEntry blob (Version e +u 1) (if x =? 0 then ExpireAt e else x) FlagJSON]> (view now m')) end).
Proof.
  intros Hok' Hk <- Hx Hd Hcur. unfold jsonCompute. rewrite Hcur.
  pose proof (jCommitReplace_implements now m' k it' d (Version (entry it') +u 1) x mv Hok' Hk Hx Hd Hl) as H.
  destruct (Json_Encode d) as [blob|]; [|done]. by destruct (over mv (len blob)).
Qed.

Lemma JSet_parsed_implements : implements now (JSet now m k path raw v x mv) (spec_JSet now (view now m) k path raw v x mv).
Proof.
  unfold JSet, spec_JSet, spec_upsert. rewrite Hval, Hp. cbv zeta.
  destruct (items m !! k) as [it|] eqn:Ek.
  2:{ rewrite view_missing by done. by apply jset_create. }
  destruct (Expired (entry it) now) eqn:Ex.
  { rewrite (view_dead _ _ _ it) by done. rewrite <- (view_remove_expired now m k it) by done.
    apply jset_create; auto using removed_missing with store. }
  rewrite (view_live _ _ _ it) by done. unfold IsTombstone, IsJSON. rewrite !flushed_flag, flushed_version.
  destruct (flush_item_meta k it) as (_ & Hexp & _). rewrite Hexp.
  destruct (has_flag FlagTombstone (entry it)).
  { destruct (v <=? Version (entry it)); [eauto with store|].
    destruct (jSetCreate p val) as [d|] eqn:Ed.
    - apply jset_commit; try done; [by apply jSetCreate_ok|]. unfold jsonEdit. by rewrite Ed.
    - unfold jsonCompute, jsonEdit. rewrite Ed. eauto with store. }
  destruct (has_flag FlagJSON (entry it)) eqn:Ej; cbn [negb]; [|eauto with store].
  rewrite (flush_json k it) by (done || by apply (proj2 Hok k)).
  pose proof (jDoc_warmed now m k it Hok Ek Ex Ej) as H. destruct (jDocLocked m k it) as [[o it'] m'].
  destruct H as (-> & Hdoc & Hw). pose proof Hw as []. rewrite <- wm_view0.
  destruct (Json_Decode (Value (entry it))) as [doc|] eqn:Edoc.
  - destruct (Json_Set doc p val) as [d|] eqn:Ed.
    + apply jset_commit; try done; [apply (Json_Set_ok doc); auto|]. unfold jsonEdit. by rewrite Edoc, Ed.
    + unfold jsonCompute, jsonEdit. rewrite Edoc, Ed. eauto with store.
  - unfold jsonCompute, jsonEdit. rewrite Edoc. eauto with store.
Qed.
End jset.

Lemma JSet_implements now m k path raw v x mv :
  store_ok m -> live_at now x -> jset_ok path raw ->
  implements now (JSet now m k path raw v x mv) (spec_JSet now (view now m) k path raw v x mv).
Proof.
  intros Hok Hl Ha. destruct (Json_Decode raw) as [val|] eqn:Er; [destruct (ParsePath path) as [p|] eqn:Ep|].
  - by apply (JSet_parsed_implements now m k path raw v x mv p val).
  - unfold JSet, spec_JSet. rewrite Er, Ep. eauto with store.
  - unfold JSet, spec_JSet. rewrite Er. eauto with store.
Qed.

Lemma json_del_ok doc p : json_ok doc -> (Json_Del doc p).2 = true -> json_ok (Json_Del doc p).1.
Proof.
  intros Hd _. assert (E : maxNestingDepth = S (pred maxNestingDepth)) by (unfold maxNestingDepth; lia).
  unfold json_ok. rewrite E in *. by apply (Json_Del_within p doc).
Qed.

Lemma JDel_implements now m k path v x :
  store_ok m -> live_at now x ->
  implements now (JDel now m k path v x) (spec_JDel (view now m) k path v x).
Proof.
  intros Hok Hl. unfold JDel, spec_JDel. destruct (items m !! k) as [it|] eqn:Ek.
  2:{ rewrite view_missing by done. eauto with store. }
  destruct (Expired (entry it) now) eqn:Ex.
  { rewrite (view_dead _ _ _ it), <- (view_remove_expired now m k it) by done. eauto with store. }
  rewrite (view_live _ _ _ it) by done. unfold IsTombstone, IsJSON. rewrite !flushed_flag, flushed_version.
  destruct (flush_item_meta k it) as (_ & Hexp & _). rewrite Hexp.
  destruct (has_flag FlagTombstone (entry it)); [cbn [orb]; destruct (v <=? _); eauto with store|].
  destruct (has_flag FlagJSON (entry it)) eqn:Ej; cbn [negb orb]; [|eauto with store].
  rewrite (flush_json k it) by (done || by apply (proj2 Hok k)).
  destruct (ParsePath path) as [p|]; [|eauto with store].
  pose proof (jDoc_warmed now m k it Hok Ek Ex Ej) as H. destruct (jDocLocked m k it) as [[o it'] m'].
  destruct H as (-> & Hdoc & Hw). pose proof Hw as [Hok' Hk' He' Hv' _]. rewrite <- Hv'.
  destruct (Json_Decode (Value (entry it))) as [doc|]; [|eauto with store].
  pose proof (json_del_ok doc p (Hdoc doc eq_refl)) as Hnew.
  destruct (Json_Del doc p) as [d []]; cbn [negb]; [|eauto with store].
  destruct (Json_Encode d) as [blob|] eqn:Eb; [|eauto with store].
  destruct (jWrite_implements now m' k it' blob (Version (entry it') +u 1) x d) as (_ & H2 & H3);
    [done|done|by rewrite He'|by apply encode_doc_blob; [apply Hnew|]|done|].
  unfold commitEntry in H2. rewrite He' in *. by split_and!.
Qed.

Lemma JGet_read now m k path :
  store_ok m ->
  (JGet now m k path).1 = spec_JGet (view now m) k path /\
  view now (JGet now m k path).2 = view now m /\ store_ok (JGet now m k path).2.
Proof.
  intros Hok. unfold JGet, spec_JGet, hasJSONLocked, hasLocked. destruct (items m !! k) as [it|] eqn:Ek; [|by rewrite view_missing].
  destruct (Expired (entry it) now) eqn:Ex.
  { rewrite (view_dead _ _ _ it) by done. split_and!; [done|by apply view_remove_expired|by apply removeElement_ok]. }
  rewrite (view_live _ _ _ it) by done. unfold IsTombstone, IsJSON. rewrite !flushed_flag.
  destruct (has_flag FlagTombstone (entry it)); [done|]. cbn [negb orb andb].
  destruct (has_flag FlagJSON (entry it)) eqn:Ej; cbn [negb]; [|done]. rewrite Ek.
  pose proof (proj2 Hok k it Ek) as Hit. cbn in Hit. destruct (ok_json _ Hit) as [Hd _]. rewrite Hd.
  rewrite (flush_json k it) by done. destruct (ParsePath path) as [p|]; [|done].
  pose proof (jDoc_warmed now m k it Hok Ek Ex Ej) as H. destruct (jDocLocked m k it) as [[o it'] m'].
  destruct H as (-> & _ & [Hok' _ _ Hv' _]). destruct p; [done|]. by destruct (Json_Decode (Value (entry it))).
Qed.

Lemma JInstall_implements now m k blob v x :
  store_ok m -> live_at now x -> bytes_ok blob ->
  implements now (JInstall now m k blob v x)
    (match Json_Decode blob with
     | None => (false, view now m)
     | Some _ => if newer_than (view now m) k v then (true, <[k := mkEntry blob v x FlagJSON]> (view now m))
                 else (false, view now m) end).
Proof.
  intros Hok Hl Hb. unfold JInstall. destruct (Json_Decode blob) as [doc|] eqn:Ed; [|eauto with store]. cbv zeta.
  assert (Hdb : doc_blob doc blob) by (split; [by apply (decode_json_ok blob)|done]).
  destruct (items m !! k) as [it|] eqn:Ek.
  - rewrite (newer_live _ _ _ it) by done.
    assert (Hi : implements now (insertJSONLocked now (removeElement m k it) k (mkEntry blob v x FlagJSON) doc false)
                   (true, <[k := mkEntry blob v x FlagJSON]> (view now m))).
    { rewrite <- (insert_delete_eq (view now m)), <- (view_removed now m k it).
      apply insertJSON_implements; auto using removed_missing with store. }
    destruct (Expired (entry it) now); cbn [orb]; [done|].
    destruct (IsTombstone (entry it)), (IsJSON (entry it)), (v <=? Version (entry it)); cbn; eauto with store.
  - rewrite newer_missing by done. by apply insertJSON_implements.
Qed.

(** ** What a caller observes *)

Lemma view_json_ok now m k e doc :
  store_ok m -> view now m !! k = Some e -> IsJSON e = true -> Json_Decode (Value e) = Some doc -> json_ok doc.
Proof.
  intros Hok Hk Hj Hd. rewrite lookup_view in Hk. destruct (items m !! k) as [it|] eqn:Ek; [|done].
  destruct (Expired (entry it) now) eqn:Ex; [done|]. injection Hk as <-. unfold IsJSON in Hj. rewrite flushed_flag in Hj.
  rewrite flush_json in Hd by (done || by apply (proj2 Hok k)). pose proof (jDoc_warmed now m k it Hok Ek Ex Hj) as H.
  destruct (jDocLocked m k it) as [[o it'] m']. destruct H as (-> & H & _). by apply H.
Qed.

(** An accepted write leaves the encoding of the edited document. *)
Lemma jset_written now m k path raw v x mv p val :
  store_ok m -> live_at now x -> jset_ok path raw -> ParsePath path = Some p -> Json_Decode raw = Some val ->
  (spec_JSet now (view now m) k path raw v x mv).1.1 = true ->
  exists e d, (spec_JSet now (view now m) k path raw v x mv).2 !! k = Some e /\
    IsTombstone e = false /\ IsJSON e = true /\ pinned e = true /\ json_ok d /\ Json_Encode d = Some (Value e) /\ Json_Get d p = Some val.
Proof.
  intros Hok Hl Ha Hp Hval. unfold spec_JSet, spec_upsert. rewrite Hp, Hval.
  assert (Hdone : forall cur r ver ex, (forall d, jsonEdit p val cur = Some d -> json_ok d /\ Json_Get d p = Some val) ->
    r = (match jsonCompute p val mv cur with inl r => (r, view now m)
         | inr (blob, res) => (res true, <[k := mkEntry blob ver ex FlagJSON]> (view now m)) end) -> r.1.1 = true ->
    exists e d, r.2 !! k = Some e /\ IsTombstone e = false /\ IsJSON e = true /\ pinned e = true /\ json_ok d /\
      Json_Encode d = Some (Value e) /\ Json_Get d p = Some val).
  { intros cur r ver ex Hd ->. unfold jsonCompute. destruct (jsonEdit p val cur) as [d|]; [|done].
    destruct (Json_Encode d) as [blob|] eqn:Eb; [|done]. destruct (over mv (len blob)); [done|]. intros _.
    destruct (Hd d eq_refl) as [Hd1 Hd2]. eexists _, d. cbn [snd]. rewrite lookup_insert_eq. by split_and!. }
  assert (Hnew : forall d, jsonEdit p val None = Some d -> json_ok d /\ Json_Get d p = Some val).
  { intros d. unfold jsonEdit. destruct (jSetCreate p val) as [d'|] eqn:Ed; [|done]. intros [= <-].
    split; [by apply (jSetCreate_ok path raw p val)|]. unfold jSetCreate in Ed. destruct p; [by injection Ed as <-|].
    eapply setRec_get, Json_Set_setRec, Ed. }
  destruct (view now m !! k) as [e|] eqn:Ek; [|by eapply Hdone].
  destruct (IsTombstone e); [destruct (v <=? Version e); [done|by eapply Hdone]|].
  destruct (has_flag FlagJSON e) eqn:Ej; [|done]. cbn [negb]. eapply Hdone; [|done].
  intros d. unfold jsonEdit. destruct (Json_Decode (Value e)) as [doc|] eqn:Edoc; [|done].
  destruct (Json_Set doc p val) as [d'|] eqn:Ed; [|done]. intros [= <-]. split; [|by eapply setRec_get, Json_Set_setRec].
  eapply (Json_Set_ok path raw p val); [done..|by apply (view_json_ok now m k e)|done].
Qed.

(** C36: The document methods refine the observable map.  JSet of a value whose
    depth and the length of the path do not exceed 10000 together is the
    versioned upsert of "decode the live blob, write the path, encode"; JDel
    rewrites the blob of the document without the node; JInstall installs any
    newer blob that decodes; JGet reads the document the blob decodes to.
    Writes carry an expiry that has not passed. *)
Theorem json_methods_refine now m k path raw v x mv :
  store_ok m ->
  ((JGet now m k path).1 = spec_JGet (view now m) k path /\ view now (JGet now m k path).2 = view now m) /\
  (live_at now x ->
   (jset_ok path raw ->
    implements now (JSet now m k path raw v x mv) (spec_JSet now (view now m) k path raw v x mv)) /\
   implements now (JDel now m k path v x) (spec_JDel (view now m) k path v x) /\
   (bytes_ok raw ->
    implements now (JInstall now m k raw v x)
      (match Json_Decode raw with
       | None => (false, view now m)
       | Some _ => if newer_than (view now m) k v then (true, <[k := mkEntry raw v x FlagJSON]> (view now m))
                   else (false, view now m) end))).
Proof.
  intros Hok. split; [split; by apply JGet_read|]. intros Hl.
  split_and!; intros; [by apply JSet_implements|by apply JDel_implements|by apply JInstall_implements].
Qed.

(** Read your write: when JSet reports that the value was applied, JGet at
    the same path returns the compact encoding of that value, whatever the
    document was and however hard eviction worked. *)
Theorem jset_then_jget now m k path raw val v x mv :
  store_ok m -> live_at now x -> jset_ok path raw -> Json_Decode raw = Some val ->
  (JSet now m k path raw v x mv).1.1 = true ->
  (JGet now (JSet now m k path raw v x mv).2 k path).1 = Json_Encode val.
Proof.
  intros Hok Hl Ha Hval Happ. destruct (JSet_implements now m k path raw v x mv Hok Hl Ha) as (Hr & Href & Hok').
  rewrite Hr in Happ. destruct (ParsePath path) as [p|] eqn:Ep.
  2: { unfold spec_JSet in Happ. by rewrite Hval, Ep in Happ. }
  destruct (jset_written now m k path raw v x mv p val) as (e & d & He & Ht & Hj & Hpin & Hd & Henc & Hget); try done.
  apply (ref_pinned _ _ _ Href) in He; [|done].
  destruct (JGet_read now (JSet now m k path raw v x mv).2 k path Hok') as (-> & _).
  unfold spec_JGet. rewrite He, Ht, Hj, Ep. cbn [orb negb].
  destruct (encode_doc_blob d (Value e) Hd Henc) as [_ ->]. destruct p as [|s p].
  - injection Hget as <-. by rewrite Henc.
  - by rewrite Hget.
Qed.

(** ** A document Decode refuses to read back *)

(** [nest n] is an array nested [n + 1] deep, and its text. *)
Fixpoint nest (n : nat) : json := match n with O => JArray [] | S n => JArray [nest n] end.
Fixpoint nest_text (n : nat) : bytes := match n with O => [91; 93] | S n => 91 :: nest_text n ++ [93] end.

Lemma nest_encode n : Json_Encode (nest n) = Some (nest_text n).
Proof. induction n as [|n IH]; [done|]. cbn [nest Json_Encode map mapM]. unfold id. rewrite IH. cbn. by rewrite app_nil_r. Qed.

Lemma nest_within n : within (S n) (nest n).
Proof.
  induction n as [|n IH]; apply within_array; intros v; rewrite ?elem_of_cons, elem_of_nil; [done|]. by intros [->|[]].
Qed.

Lemma nest_head n t : exists u, nest_text n ++ t = 91 :: u.
Proof. destruct n; cbn; eauto. Qed.

Lemma read_at_limit n d t : (maxNestingDepth <= d)%nat -> read_value d (nest_text n ++ t) = None.
Proof.
  intros Hm. destruct (nest_head n t) as [u ->]. unfold read_value, value_fuel. rewrite Nat.add_comm.
  cbn [Nat.add parse_value skip_space is_space Z.eqb Pos.eqb orb]. by rewrite (proj2 (Nat.leb_le _ _) Hm).
Qed.

Lemma read_too_deep n d t : (maxNestingDepth <= d + n)%nat -> read_value d (nest_text n ++ t) = None.
Proof.
  revert d t. induction n as [|n IH]; intros d t Hd; [apply read_at_limit; lia|].
  destruct (decide (maxNestingDepth <= d)%nat) as [Hm|Hm]; [by apply read_at_limit|].
  cbn [nest_text app]. rewrite read_array by lia. rewrite <- app_assoc. destruct (nest_head n ([93] ++ t)) as [u Hu].
  assert (Hc : closes 93 (nest_text n ++ [93] ++ t) = None) by (by rewrite Hu).
  by rewrite Hc, read_elems_eq, IH by lia.
Qed.

(** {"a":v} *)
Definition doc_a (v : json) : json := JObject {[ [97] := v ]}.
Definition text_a (b : bytes) : bytes := [123; 34; 97; 34; 58] ++ b ++ [125].

Lemma doc_a_encode v b : Json_Encode v = Some b -> Json_Encode (doc_a v) = Some (text_a b).
Proof.
  intros Hb. unfold doc_a. cbn [Json_Encode]. rewrite map_fmap_singleton, map_to_list_singleton, Hb. cbn [merge_sort].
  cbn. by rewrite app_nil_r.
Qed.

Lemma doc_a_refused n : (maxNestingDepth <= S n)%nat -> Json_Decode (text_a (nest_text n)) = None.
Proof.
  intros Hn. rewrite Json_Decode_read by done. unfold text_a. cbn [app].
  rewrite read_object by (unfold maxNestingDepth; lia).
  assert (Hc : closes 125 (34 :: 97 :: 34 :: 58 :: nest_text n ++ [125]) = None) by done. rewrite Hc.
  assert (Hm : read_members 1 ∅ (34 :: 97 :: 34 :: 58 :: nest_text n ++ [125]) = None); [|by rewrite Hm].
  unfold read_members, value_fuel. rewrite Nat.add_comm. cbn [Nat.add parse_members skip_space is_space Z.eqb Pos.eqb orb].
  assert (Hr : read_string (97 :: 34 :: 58 :: nest_text n ++ [125]) = Some ([97], 58 :: nest_text n ++ [125])) by done.
  rewrite Hr. cbn [skip_space is_space Z.eqb Pos.eqb orb]. rewrite read_value_fuel by (cbn [length]; lia).
  by rewrite read_too_deep by lia.
Qed.

Definition path_a : bytes := [36; 46; 97].
Definition deepest : nat := pred maxNestingDepth.

(** JSet bounds the nesting of the value it is given but not of the
    document it builds: an array nested 10000 deep, which Decode accepts, is
    applied below $.a, and the blob it stores is refused by the JInstall of
    every replica. *)
Theorem jset_too_deep :
  let '(r, m) := JSet 0 (NewMemory 0 0) [107] path_a (nest_text deepest) 1 0 0 in
  r = (true, false) /\
  exists e, view 0 m !! [107] = Some e /\
    (JInstall 0 (NewMemory 0 0) [107] (Value e) (Version e) (ExpireAt e)).1 = false.
Proof.
  assert (Hs : S deepest = maxNestingDepth) by (unfold deepest, maxNestingDepth; lia).
  assert (Hd : Json_Decode (nest_text deepest) = Some (nest deepest)).
  { rewrite <- (app_nil_r (nest_text deepest)). apply decode_encoded; [|apply nest_encode|done|done].
    unfold json_ok. rewrite <- Hs. apply nest_within. }
  unfold JSet. rewrite Hd. change (ParsePath path_a) with (Some [SKey [97]]). cbn [NewMemory items]. rewrite lookup_empty.
  change (jSetCreate [SKey [97]] (nest deepest)) with (inl jerr (doc_a (nest deepest))).
  unfold jCommitInsertLocked. rewrite (doc_a_encode _ _ (nest_encode deepest)). cbn [over Z.ltb Z.compare andb].
  set (e := mkEntry _ _ _ _). unfold insertJSONLocked. rewrite evictLocked_noop by (left; done). split.
  - unfold present. cbn [pushFront with_content items]. rewrite lookup_insert_eq. by rewrite bool_decide_true by eauto.
  - exists e. split.
    + rewrite lookup_view. cbn [pushFront with_content items]. rewrite lookup_insert_eq. by rewrite flush_unkinded.
    + unfold JInstall. cbn [e Value]. by rewrite doc_a_refused by lia.
Qed.

(** [[1]] *)
Definition raw_1 : bytes := [91; 49; 93].

Lemma wit_jset_ok : jset_ok path_a raw_1.
Proof.
  split_and!; [repeat apply Forall_cons_2; try (split; by vm_compute); constructor..|].
  intros p val Hp Hv. vm_compute in Hp. vm_compute in Hv. injection Hp as <-. injection Hv as <-.
  apply Nat.leb_le. by vm_compute.
Qed.

Lemma json_methods_refine_witness :
  implements 5 (JSet 5 (NewMemory 100 0) [107] path_a raw_1 1 0 0)
    (spec_JSet 5 (view 5 (NewMemory 100 0)) [107] path_a raw_1 1 0 0).
Proof.
  exact (proj1 (proj2 (json_methods_refine 5 (NewMemory 100 0) [107] path_a raw_1 1 0 0 (NewMemory_ok 100 0)) (or_introl eq_refl)) wit_jset_ok).
Defined.

Lemma jset_then_jget_witness :
  (JGet 5 (JSet 5 (NewMemory 100 0) [107] path_a raw_1 1 0 0).2 [107] path_a).1 = Some raw_1.
Proof.
  apply (jset_then_jget 5 (NewMemory 100 0) [107] path_a raw_1 (JArray [JNumber [49]]));
    [apply NewMemory_ok|by left|apply wit_jset_ok|by vm_compute|by vm_compute].
Defined.
