(* ===== verification/StoreKeeps.v ===== *)
(** * Every write of a typed value keeps the store well formed

    The store invariant does not depend on the expiry a caller passes: a value
    that is already expired when it is written is filed like any other.  One
    lemma per shared routine of pkg/store's typed files, against the same
    interface [StoreKind] as the refinement lemmas, without a condition on
    time. *)
From S2P Require Import Prelude Wire Collections Scored Scalars Json Sketches Cms.
From S2P Require Import TopK Stream Store StoreInv StoreView StoreProps StoreKinds StoreKindsProps.
From S2P Require Import Vecset StoreScalars StoreScalarsProps JsonText StoreJson.

Create HintDb keep.

Lemma removed_ok m k it : store_ok m -> items m !! k = Some it -> store_ok (removeElement m k it).
Proof. apply removeElement_ok. Qed.

Lemma stale_ok m : store_ok m -> store_ok (add_stale m).
Proof. intros Hok. destruct (implements_stale 0 m tt Hok) as (_ & _ & H). exact H. Qed.
#[export] Hint Resolve removed_ok stale_ok removed_missing : keep.

(** Both tails of a write: the item goes to the front, then eviction runs. *)
Lemma fronted_ok m k it it' :
  store_ok (updateItem m k it it') -> store_ok (moveToFront (updateItem m k it it') k).
Proof. intros Hok. apply moveToFront_ok; [done|]. rewrite lookup_updateItem. eauto. Qed.

Lemma evicted_ok now m : store_ok m -> store_ok (evictLocked now m).
Proof. apply evictLocked_ok. Qed.
#[export] Hint Resolve fronted_ok evicted_ok : keep.

(** ** Kinds with a decoded cache *)

Section typed.
Context {T : Type} `{StoreKind T}.

Lemma insertLocked_keeps now m k e t :
  store_ok m -> items m !! k = None -> Flags e = kflag T -> kok t -> kdecode (Value e) = Some t ->
  store_ok (insertLocked now m k e (Some t) false).2.
Proof.
  intros Hok Hk Hf Ht Hd. unfold insertLocked. rewrite copyEntry_id. apply evictLocked_ok.
  apply pushFront_ok; [done|done|rewrite cost_with; apply entryCost_nonneg|].
  apply (sk_only (T := T)); [by rewrite entry_with| |by rewrite jdirty_with].
  intros _. by rewrite cache_with, dirty_with, entry_with.
Qed.

Lemma storeDirty_keeps now m k it t v x :
  store_ok m -> items m !! k = Some it -> kok t -> store_ok (storeDirty now m k it t v x).
Proof.
  intros Hok Hk Ht. unfold storeDirty. apply evictLocked_ok, fronted_ok.
  apply updateItem_ok; [done|done| |].
  - simpl. rewrite approx_exact by done. pose proof (len_nonneg k). pose proof (len_nonneg (kencode t)). lia.
  - apply (sk_only (T := T)); [done| |simpl; rewrite jdirty_with; by apply (proj2 Hok k)].
    intros _. by rewrite cache_entry, dirty_entry, cache_with, dirty_with.
Qed.

Lemma decoded_ok m k it t :
  store_ok m -> items m !! k = Some it -> has_flag (kflag T) (entry it) = true -> cachedOrDecoded it = Some t -> kok t.
Proof. intros Hok Hk Hf. by apply (cachedOrDecoded_view k it (proj2 Hok k it Hk) Hf). Qed.

Lemma create_keeps now m k v x (mut : T -> option T) :
  store_ok m -> items m !! k = None -> (forall t t', kok t -> mut t = Some t' -> kok t') ->
  store_ok (match mut knew with
            | None => (false, m)
            | Some t => insertLocked now m k (mkEntry (kencode t) v x (kflag T)) (Some t) false end).2.
Proof.
  intros Hok Hk Hmut. destruct (mut knew) as [t|] eqn:Em; [|done].
  assert (kok t) by (eapply Hmut, Em; apply new_ok). apply insertLocked_keeps; try done. by apply decode_encode.
Qed.

Lemma mutateLocked_keeps now m k v x (mut : T -> option T) :
  store_ok m -> (forall t t', kok t -> mut t = Some t' -> kok t') -> store_ok (mutateLocked now m k v x mut).2.
Proof.
  intros Hok Hmut. unfold mutateLocked. cbv zeta. destruct (items m !! k) as [it|] eqn:Ek; [|by apply create_keeps].
  destruct (Expired (entry it) now); [apply create_keeps; eauto with keep|].
  destruct (IsTombstone (entry it)).
  { destruct (v <=? Version (entry it)); [by apply stale_ok|]. apply create_keeps; eauto with keep. }
  destruct (has_flag (kflag T) (entry it)) eqn:Ef; [|done].
  destruct (cachedOrDecoded it) as [t|] eqn:Ec; [|done]. destruct (mut t) as [t'|] eqn:Em; [|done].
  apply storeDirty_keeps; [done|done|]. eapply Hmut, Em. by eapply decoded_ok.
Qed.

Lemma removeLocked_keeps now m k v x (mut : T -> T) :
  store_ok m -> (forall t, kok t -> kok (mut t)) -> store_ok (removeLocked now m k v x mut).2.
Proof.
  intros Hok Hmut. unfold removeLocked. destruct (items m !! k) as [it|] eqn:Ek; [|done].
  destruct (Expired (entry it) now); [by apply removeElement_ok|].
  destruct (IsTombstone (entry it)); [destruct (v <=? Version (entry it)); [by apply stale_ok|done]|].
  destruct (has_flag (kflag T) (entry it)); [|done]. apply mutateLocked_keeps; [done|]. intros t t' Ht [= <-]. auto.
Qed.

Lemma installBlob_keeps now m k blob v x :
  store_ok m -> items m !! k = None -> bytes_ok blob -> store_ok (installBlob (T := T) now m k blob v x).2.
Proof.
  intros Hok Hk Hb. unfold installBlob. destruct (kdecode blob) as [t|] eqn:Ed; [|done].
  apply insertLocked_keeps; try done. by eapply decode_ok.
Qed.

Lemma installLocked_keeps now m k blob v x :
  store_ok m -> bytes_ok blob -> store_ok (installLocked (T := T) now m k blob v x).2.
Proof.
  intros Hok Hb. unfold installLocked. cbv zeta. destruct (items m !! k) as [it|] eqn:Ek; [|by apply installBlob_keeps].
  assert (Hi : store_ok (installBlob (T := T) now (removeElement m k it) k blob v x).2)
    by (apply installBlob_keeps; eauto with keep).
  pose proof (stale_ok m Hok). by repeat case_match.
Qed.
End typed.

Lemma SetInstall_keeps now m k blob v x :
  store_ok m -> bytes_ok blob -> store_ok (SetInstall now m k blob v x).2.
Proof.
  intros Hok Hb. unfold SetInstall. cbv zeta.
  destruct (items m !! k) as [it|] eqn:Ek; [|by apply (installBlob_keeps (T := SetT))].
  assert (Hi : store_ok (installBlob (T := SetT) now (removeElement m k it) k blob v x).2)
    by (apply (installBlob_keeps (T := SetT)); eauto with keep).
  pose proof (stale_ok m Hok). by repeat case_match.
Qed.

Lemma lCreate_keeps now m k v x (mut : ListT -> ListT) :
  store_ok m -> items m !! k = None -> Forall fits (mut List_New) -> store_ok (lCreate now m k v x mut).2.
Proof.
  intros Hok Hk Hf. unfold lCreate, insertListLocked. apply (insertLocked_keeps (T := ListT)); try done.
  by apply List_Decode_Encode.
Qed.

Lemma lMutateLocked_keeps now m k v x (mut : ListT -> ListT) :
  store_ok m -> (forall l, Forall fits l -> Forall fits (mut l)) -> store_ok (lMutateLocked now m k v x mut).2.
Proof.
  intros Hok Hmut. assert (Hn : Forall fits (mut List_New)) by (apply Hmut; constructor).
  unfold lMutateLocked. destruct (items m !! k) as [it|] eqn:Ek; [|by apply lCreate_keeps].
  destruct (Expired (entry it) now); [apply lCreate_keeps; eauto with keep|].
  destruct (IsTombstone (entry it)).
  { destruct (v <=? Version (entry it)); [by apply stale_ok|]. apply lCreate_keeps; eauto with keep. }
  destruct (IsList (entry it)) eqn:Ef; [|done]. destruct (cachedOrDecoded it) as [l|] eqn:Ec; [|done].
  apply (storeDirty_keeps (T := ListT)); [done|done|]. apply Hmut. exact (decoded_ok (T := ListT) m k it l Hok Ek Ef Ec).
Qed.

Lemma lPopLocked_keeps now m k v x left : store_ok m -> store_ok (lPopLocked now m k v x left).2.
Proof.
  intros Hok. unfold lPopLocked. destruct (items m !! k) as [it|] eqn:Ek; [|done].
  destruct (Expired (entry it) now); [by apply removeElement_ok|].
  destruct (IsTombstone (entry it)); [destruct (v <=? Version (entry it)); [by apply stale_ok|done]|].
  destruct (IsList (entry it)) eqn:Ef; [|done]. cbn [negb]. destruct (cachedOrDecoded it) as [l|] eqn:Ec; [|done].
  destruct (if left then List_LPop l else List_RPop l) as [[item|] l'] eqn:Ep; [|done].
  apply (storeDirty_keeps (T := ListT)); [done|done|]. eapply pop_fits, Ep. exact (decoded_ok (T := ListT) m k it l Hok Ek Ef Ec).
Qed.

(** ** Kinds that live in their blob *)

Lemma insertPlain_keeps now m k e :
  store_ok m -> items m !! k = None -> untyped e = true -> store_ok (insertPlainLocked now m k e).2.
Proof.
  intros Hok Hk Hu. apply evictLocked_ok, pushFront_ok; [done|done|apply entryCost_nonneg|].
  rewrite copyEntry_id. by apply item_ok_new_untyped.
Qed.

Lemma commitLocked_keeps flag now m k it blob v x :
  scalar_flag flag -> store_ok m -> items m !! k = Some it -> store_ok (commitLocked now m k it blob v x flag).
Proof.
  intros Hs Hok Hk. unfold commitLocked. cbv zeta. set (e := commitEntry it blob v x flag).
  pose proof (updateEntry_ok m k it e Hok Hk ltac:(apply Hs)) as Hok'. rewrite clampBytes_id by apply Hok'.
  by apply evictLocked_ok, fronted_ok.
Qed.

Lemma upsertLocked_keeps {R : Type} now m k v x flag (reject : R) compute :
  scalar_flag flag -> store_ok m -> store_ok (upsertLocked now m k v x flag reject compute).2.
Proof.
  intros Hs Hok. unfold upsertLocked. cbv zeta.
  assert (Hnew : forall m, store_ok m -> items m !! k = None ->
    store_ok (match compute None with
              | inl r => (r, m)
              | inr (blob, res) => let '(ok, m) := insertPlainLocked now m k (mkEntry blob 1 x flag) in (res ok, m)
              end).2).
  { intros m' Hok' Hk. destruct (compute None) as [r|[blob res]]; [done|].
    pose proof (insertPlain_keeps now m' k (mkEntry blob 1 x flag) Hok' Hk ltac:(apply Hs)) as H.
    by destruct (insertPlainLocked _ _ _ _). }
  destruct (items m !! k) as [it|] eqn:Ek; [|by apply Hnew].
  assert (Hcommit : forall cur,
    store_ok (match compute cur with
              | inl r => (r, m)
              | inr (blob, res) => let m := commitLocked now m k it blob (Version (entry it) +u 1) x flag in
                                   (res (present m k), m) end).2).
  { intros cur. destruct (compute cur) as [r|[blob res]]; [done|]. by apply commitLocked_keeps. }
  destruct (Expired (entry it) now); [apply Hnew; eauto with keep|].
  destruct (IsTombstone (entry it)); [destruct (v <=? Version (entry it)); [by apply stale_ok|apply Hcommit]|].
  destruct (has_flag flag (entry it)); cbn [negb]; [apply Hcommit|done].
Qed.

Lemma installPlain_keeps flag now m k blob v x :
  scalar_flag flag -> store_ok m -> store_ok (installPlain flag now m k blob v x).2.
Proof.
  intros Hs Hok. unfold installPlain. cbv zeta.
  destruct (items m !! k) as [it|] eqn:Ek; [|apply insertPlain_keeps; [done|done|apply Hs]].
  assert (Hi : store_ok (insertPlainLocked now (removeElement m k it) k (mkEntry blob v x flag)).2)
    by (apply insertPlain_keeps; [eauto with keep|eauto with keep|apply Hs]).
  pose proof (stale_ok m Hok). by repeat case_match.
Qed.

Lemma cInsert_keeps now m k val v x :
  store_ok m -> items m !! k = None -> store_ok (cInsertLocked now m k val v x).2.
Proof.
  intros Hok Hk. unfold cInsertLocked.
  pose proof (insertPlain_keeps now m k (mkEntry (Counter_Encode val) v x FlagCounter) Hok Hk eq_refl) as H.
  by destruct (insertPlainLocked _ _ _ _).
Qed.

Lemma CIncr_keeps now m k d v x : store_ok m -> store_ok (CIncr now m k d v x).2.
Proof.
  intros Hok. unfold CIncr. cbv zeta. destruct (items m !! k) as [it|] eqn:Ek; [|by apply cInsert_keeps].
  destruct (Expired (entry it) now); [apply cInsert_keeps; eauto with keep|].
  destruct (IsTombstone (entry it)).
  { destruct (v <=? Version (entry it)); [by apply stale_ok|]. apply cInsert_keeps; eauto with keep. }
  destruct (IsCounter (entry it)); [|done]. cbn [negb]. destruct (Counter_Decode _) as [cur|]; [|done].
  destruct (Counter_Add cur d) as [next|]; [|done]. by apply evictLocked_ok, fronted_ok, updateEntry_ok.
Qed.

Lemma bloomMutate_keeps now m k mBits kk v x (mut : Filter -> Filter) :
  store_ok m -> store_ok (bloomMutateLocked now m k mBits kk v x mut).2.
Proof.
  intros Hok. unfold bloomMutateLocked. cbv zeta.
  assert (Hnew : forall m, store_ok m -> items m !! k = None ->
    store_ok (match Bloom_Open mBits kk (replicate (Z.to_nat (Z.quot (mBits + 7) 8)) 0) with
              | None => (false, m)
              | Some f => insertPlainLocked now m k (mkEntry (fbits (mut f)) v x FlagBloom) end).2).
  { intros m' Hok' Hk. destruct (Bloom_Open _ _ _); [|done]. by apply insertPlain_keeps. }
  destruct (items m !! k) as [it|] eqn:Ek; [|by apply Hnew].
  destruct (Expired (entry it) now); [apply Hnew; eauto with keep|].
  destruct (IsTombstone (entry it)).
  { destruct (v <=? Version (entry it)); [by apply stale_ok|]. apply Hnew; eauto with keep. }
  destruct (IsBloom (entry it)) eqn:Ef; [|done]. destruct (Bloom_Open mBits kk (Value (entry it))) as [f|]; [|done].
  apply fronted_ok, updateItem_ok; [done|done|exact (wf_cost _ (proj1 Hok) k it Ek)|].
  apply item_ok_untyped; [by apply (ok_bloom _ (proj2 Hok k it Ek))|by apply (proj2 Hok k)].
Qed.

Lemma editLocked_keeps flag now m k v x f :
  scalar_flag flag -> store_ok m -> store_ok (editLocked flag now m k v x f).2.
Proof.
  intros Hs Hok. unfold editLocked. destruct (items m !! k) as [it|] eqn:Ek; [|done].
  destruct (Expired (entry it) now); [by apply removeElement_ok|].
  destruct (IsTombstone (entry it)); [destruct (v <=? Version (entry it)); [by apply stale_ok|done]|].
  destruct (has_flag flag (entry it)); [|done]. cbn [negb]. destruct (f (Value (entry it))) as [blob|]; [|done].
  unfold writeLocked. cbn [snd]. set (e := commitEntry it _ _ _ _).
  pose proof (updateEntry_ok m k it e Hok Ek ltac:(apply Hs)) as Hok'. rewrite clampBytes_id by apply Hok'.
  by apply fronted_ok.
Qed.

Lemma SXInstall_keeps now m k blob v x : store_ok m -> store_ok (SXInstall now m k blob v x).2.
Proof.
  intros Hok. unfold SXInstall. destruct (DecodeSnapshot blob); [|done]. cbv zeta.
  destruct (items m !! k) as [it|] eqn:Ek; [|by apply insertPlain_keeps].
  destruct (negb _ && _); [by apply stale_ok|]. apply insertPlain_keeps; eauto with keep.
Qed.

(** ** Documents *)

Lemma insertJSON_keeps now m k blob v x doc :
  store_ok m -> items m !! k = None -> doc_blob doc blob ->
  store_ok (insertJSONLocked now m k (mkEntry blob v x FlagJSON) doc false).2.
Proof.
  intros Hok Hk Hd. unfold insertJSONLocked. cbv zeta. rewrite copyEntry_id. apply evictLocked_ok.
  apply pushFront_ok; [done|done|apply entryCost_nonneg|]. set (e := mkEntry blob v x FlagJSON).
  by apply (item_ok_doc (newItem e (entryCost k e)) e (entryCost k e) doc).
Qed.

Lemma jWrite_keeps now m k it blob v x doc :
  store_ok m -> items m !! k = Some it -> doc_blob doc blob -> store_ok (jWriteLocked now m k it doc blob v x).
Proof.
  intros Hok Hk Hd. unfold jWriteLocked. cbv zeta. set (e := commitEntry it blob v x FlagJSON).
  assert (Hok' : store_ok (updateItem m k it (with_doc (with_entry it e (entryCost k e)) doc false))).
  { apply updateItem_ok; [done|done|apply entryCost_nonneg|by apply item_ok_doc]. }
  rewrite clampBytes_id by apply Hok'. by apply evictLocked_ok, fronted_ok.
Qed.

Lemma jCommitReplace_keeps now m k it doc v x mv :
  store_ok m -> items m !! k = Some it -> json_ok doc -> store_ok (jCommitReplaceLocked now m k it doc v x mv).2.
Proof.
  intros Hok Hk Hd. unfold jCommitReplaceLocked. destruct (Json_Encode doc) as [blob|] eqn:Eb; [|done].
  destruct (over mv (len blob)); [done|]. by apply jWrite_keeps; [..|apply encode_doc_blob].
Qed.

Lemma jCommitInsert_keeps now m k doc v x mv :
  store_ok m -> items m !! k = None -> json_ok doc -> store_ok (jCommitInsertLocked now m k doc v x mv).2.
Proof.
  intros Hok Hk Hd. unfold jCommitInsertLocked. destruct (Json_Encode doc) as [blob|] eqn:Eb; [|done].
  destruct (over mv (len blob)); [done|].
  pose proof (insertJSON_keeps now m k blob v x doc Hok Hk (encode_doc_blob doc blob Hd Eb)) as H.
  by destruct (insertJSONLocked _ _ _ _ _ _).
Qed.

Lemma JSet_keeps now m k path raw v x mv :
  store_ok m -> jset_ok path raw -> store_ok (JSet now m k path raw v x mv).2.
Proof.
  intros Hok Ha. unfold JSet. destruct (Json_Decode raw) as [val|] eqn:Er; [|done].
  destruct (ParsePath path) as [p|] eqn:Ep; [|done]. cbv zeta.
  assert (Hnew : forall m, store_ok m -> items m !! k = None ->
    store_ok (match jSetCreate p val with
              | inr _ => ((false, false), m)
              | inl newDoc => jCommitInsertLocked now m k newDoc 1 x mv end).2).
  { intros m' Hok' Hk. destruct (jSetCreate p val) as [d|] eqn:Ed; [|done].
    apply jCommitInsert_keeps; [done|done|]. by apply (jSetCreate_ok path raw p val). }
  destruct (items m !! k) as [it|] eqn:Ek; [|by apply Hnew].
  destruct (Expired (entry it) now) eqn:Ex; [apply Hnew; eauto with keep|].
  destruct (IsTombstone (entry it)).
  { destruct (v <=? Version (entry it)); [by apply stale_ok|]. destruct (jSetCreate p val) as [d|] eqn:Ed; [|done].
    apply jCommitReplace_keeps; [done|done|]. by apply (jSetCreate_ok path raw p val). }
  destruct (IsJSON (entry it)) eqn:Ej; [|done]. cbn [negb].
  pose proof (jDoc_warmed now m k it Hok Ek Ex Ej) as H. destruct (jDocLocked m k it) as [[o it'] m'].
  destruct H as (-> & Hdoc & [Hok' Hk' _ _ _]). destruct (Json_Decode (Value (entry it))) as [doc|]; [|done].
  destruct (Json_Set doc p val) as [d|] eqn:Ed; [|done]. apply jCommitReplace_keeps; [done|done|].
  eapply (Json_Set_ok path raw p val); [done..| |done]. by apply Hdoc.
Qed.

Lemma JDel_keeps now m k path v x : store_ok m -> store_ok (JDel now m k path v x).2.
Proof.
  intros Hok. unfold JDel. destruct (items m !! k) as [it|] eqn:Ek; [|done].
  destruct (Expired (entry it) now) eqn:Ex; [by apply removeElement_ok|].
  destruct (IsTombstone (entry it)); [destruct (v <=? Version (entry it)); [by apply stale_ok|done]|].
  destruct (IsJSON (entry it)) eqn:Ej; [|done]. cbn [negb]. destruct (ParsePath path) as [p|]; [|done].
  pose proof (jDoc_warmed now m k it Hok Ek Ex Ej) as H. destruct (jDocLocked m k it) as [[o it'] m'].
  destruct H as (-> & Hdoc & [Hok' Hk' _ _ _]). destruct (Json_Decode (Value (entry it))) as [doc|]; [|done].
  pose proof (json_del_ok doc p (Hdoc doc eq_refl)) as Hnew.
  destruct (Json_Del doc p) as [d []]; cbn [negb]; [|done]. destruct (Json_Encode d) as [blob|] eqn:Eb; [|done].
  apply jWrite_keeps; [done|done|]. by apply encode_doc_blob; [apply Hnew|].
Qed.

Lemma JInstall_keeps now m k blob v x : store_ok m -> bytes_ok blob -> store_ok (JInstall now m k blob v x).2.
Proof.
  intros Hok Hb. unfold JInstall. destruct (Json_Decode blob) as [doc|] eqn:Ed; [|done]. cbv zeta.
  assert (Hdb : doc_blob doc blob) by (split; [by apply (decode_json_ok blob)|done]).
  destruct (items m !! k) as [it|] eqn:Ek; [|by apply insertJSON_keeps].
  assert (Hi : store_ok (insertJSONLocked now (removeElement m k it) k (mkEntry blob v x FlagJSON) doc false).2)
    by (apply insertJSON_keeps; eauto with keep).
  pose proof (stale_ok m Hok). by repeat case_match.
Qed.
