(* ===== verification/StoreSafety.v ===== *)
(** * Sequences of store operations

    [op] lists the modelled methods of pkg/store's Memory.  Every method
    preserves the store invariant ([run_op_keeps]), so it holds along any
    sequence of calls, and when the value written is not expired it refines its
    specification on the observable map ([run_op_refined]), so that a live
    tombstone blocks every write that is not newer. *)
From S2P Require Import Prelude Wire Collections Scored Scalars Json Sketches Cms.
From S2P Require Import TopK Stream Store StoreInv StoreView StoreProps StoreKinds StoreKindsProps.
From S2P Require Import Vecset StoreScalars StoreScalarsProps JsonText StoreJson StoreKeeps.

Implicit Types (m : Memory) (e : Entry) (k : bytes) (s : gmap bytes Entry).

(** A versioned write: key, version and expiry as the methods receive them. *)
Record wr := mkWr { wkey : bytes; wver : Z; wexp : Z }.

Inductive op :=
| OGet (k : bytes) | OPeek (k : bytes) | OPeekVersion (k : bytes)
| OSet (k : bytes) (e : Entry) | OAcceptIfNewer (k : bytes) (e : Entry)
| OAcceptNegative (k : bytes) (e : Entry)
| ODelete (k : bytes) | ODeleteIfVersion (k : bytes) (v : Z)
| OSetAdd (w : wr) (item : bytes) | OSetRemove (w : wr) (item : bytes)
| OSetPeek (k : bytes) | OSetInstall (w : wr) (blob : bytes)
| OZAdd (w : wr) (member : bytes) (score : Z) | OZRem (w : wr) (member : bytes)
| OZPeek (k : bytes) | OZInstall (w : wr) (blob : bytes)
| OGeoAdd (w : wr) (member : bytes) (lon lat : Z) | OGeoRem (w : wr) (member : bytes)
| OGPeek (k : bytes) | OGeoInstall (w : wr) (blob : bytes)
| OHSet (w : wr) (field value : bytes) | OHDel (w : wr) (field : bytes)
| OHPeek (k : bytes) | OHInstall (w : wr) (blob : bytes)
| OLPush (w : wr) (item : bytes) | ORPush (w : wr) (item : bytes)
| OLPop (w : wr) | ORPop (w : wr)
| OLPeek (k : bytes) | OLInstall (w : wr) (blob : bytes)
| OCIncr (w : wr) (delta : Z) | OCGet (k : bytes) | OCInstall (w : wr) (blob : bytes)
| OBloomAdd (w : wr) (item : bytes) (mBits kk : Z) | OBloomTest (k item : bytes) (mBits kk : Z)
| OBloomMerge (w : wr) (bits : bytes) (mBits kk : Z)
| OBSet (w : wr) (offset : Z) (bit : bool) (maxValue : Z) | OBInstall (w : wr) (blob : bytes)
| OHLLAdd (w : wr) (item : bytes) (maxValue : Z) | OHLLInstall (w : wr) (blob : bytes)
| OTopKAdd (w : wr) (item : bytes) (kk maxValue : Z) | OTopKInstall (w : wr) (blob : bytes) (kk : Z)
| OCMSIncr (w : wr) (item : bytes) (n maxValue : Z) | OCMSInstall (w : wr) (blob : bytes)
| OXAdd (w : wr) (nowMs : Z) (payload : bytes) (maxValue autoTrim : Z)
| OXDel (w : wr) (id : bytes) | OXTrim (w : wr) (maxLen : Z) | OSXInstall (w : wr) (blob : bytes)
| OVAdd (w : wr) (member : bytes) (vec : list float32) (maxValue : Z) | OVRem (w : wr) (member : bytes)
| OVSInstall (w : wr) (blob : bytes)
| OJSet (w : wr) (path raw : bytes) (maxValue : Z) | OJDel (w : wr) (path : bytes)
| OJGet (k path : bytes) | OJInstall (w : wr) (blob : bytes)
| OBlobRead (flag : Z) (k : bytes).     (* every read that starts with a has*Locked *)

Definition run_op (now : Z) (o : op) (m : Memory) : Memory :=
  match o with
  | OGet k => (Get now m k).2
  | OPeek k => (Peek now m k).2
  | OPeekVersion k => (PeekVersion now m k).2
  | OSet k e => (Store_Set now m k e).2
  | OAcceptIfNewer k e => (AcceptIfNewer now m k e).2
  | OAcceptNegative k e => (AcceptNegative now m k e).2
  | ODelete k => (Delete m k).2
  | ODeleteIfVersion k v => (DeleteIfVersion now m k v).2
  | OSetAdd (mkWr k v x) i => (SetAdd now m k i v x).2
  | OSetRemove (mkWr k v x) i => (SetRemove now m k i v x).2
  | OSetPeek k => (setPeekLocked now m k).2
  | OSetInstall (mkWr k v x) b => (SetInstall now m k b v x).2
  | OZAdd (mkWr k v x) i sc => (ZAdd now m k i sc v x).2
  | OZRem (mkWr k v x) i => (ZRem now m k i v x).2
  | OZPeek k => (zPeekLocked now m k).2
  | OZInstall (mkWr k v x) b => (ZInstall now m k b v x).2
  | OGeoAdd (mkWr k v x) i lon lat => (GeoAdd now m k i lon lat v x).2
  | OGeoRem (mkWr k v x) i => (GeoRem now m k i v x).2
  | OGPeek k => (gPeekLocked now m k).2
  | OGeoInstall (mkWr k v x) b => (GeoInstall now m k b v x).2
  | OHSet (mkWr k v x) f val => (HSet now m k f val v x).2
  | OHDel (mkWr k v x) f => (HDel now m k f v x).2
  | OHPeek k => (hPeekLocked now m k).2
  | OHInstall (mkWr k v x) b => (HInstall now m k b v x).2
  | OLPush (mkWr k v x) i => (LPush now m k i v x).2
  | ORPush (mkWr k v x) i => (RPush now m k i v x).2
  | OLPop (mkWr k v x) => (LPop now m k v x).2
  | ORPop (mkWr k v x) => (RPop now m k v x).2
  | OLPeek k => (lPeekLocked now m k).2
  | OLInstall (mkWr k v x) b => (LInstall now m k b v x).2
  | OCIncr (mkWr k v x) d => (CIncr now m k d v x).2
  | OCGet k => (CGet now m k).2
  | OCInstall (mkWr k v x) b => (CInstall now m k b v x).2
  | OBloomAdd (mkWr k v x) i mb kk => (BloomAdd now m k i mb kk v x).2
  | OBloomTest k i mb kk => (BloomTest now m k i mb kk).2
  | OBloomMerge (mkWr k v x) b mb kk => (BloomMerge now m k b mb kk v x).2
  | OBSet (mkWr k v x) o bit mv => (BSet now m k o bit v x mv).2
  | OBInstall (mkWr k v x) b => (BInstall now m k b v x).2
  | OHLLAdd (mkWr k v x) i mv => (HLLAdd now m k i v x mv).2
  | OHLLInstall (mkWr k v x) b => (HLLInstall now m k b v x).2
  | OTopKAdd (mkWr k v x) i kk mv => (TopKAdd now m k i v x kk mv).2
  | OTopKInstall (mkWr k v x) b kk => (TopKInstall now m k b v x kk).2
  | OCMSIncr (mkWr k v x) i n mv => (CMSIncr now m k i n v x mv).2
  | OCMSInstall (mkWr k v x) b => (CMSInstall now m k b v x).2
  | OXAdd (mkWr k v x) ms p mv tr => (XAdd now ms m k p v x mv tr).2
  | OXDel (mkWr k v x) id => (XDel now m k id v x).2
  | OXTrim (mkWr k v x) n => (XTrim now m k n v x).2
  | OSXInstall (mkWr k v x) b => (SXInstall now m k b v x).2
  | OVAdd (mkWr k v x) i vec mv => (VAdd now m k i vec v x mv).2
  | OVRem (mkWr k v x) i => (VRem now m k i v x).2
  | OVSInstall (mkWr k v x) b => (VSInstall now m k b v x).2
  | OJSet (mkWr k v x) p raw mv => (JSet now m k p raw v x mv).2
  | OJDel (mkWr k v x) p => (JDel now m k p v x).2
  | OJGet k p => (JGet now m k p).2
  | OJInstall (mkWr k v x) b => (JInstall now m k b v x).2
  | OBlobRead flag k => (hasLocked flag now m k).2
  end.

(** ** Specifications of every write on the observable map *)

Definition spec_installPlain (flag : Z) (s : gmap bytes Entry) (w : wr) (blob : bytes)
    : gmap bytes Entry :=
  if newer_than s (wkey w) (wver w) then <[wkey w := mkEntry blob (wver w) (wexp w) flag]> s else s.

Definition spec_guard (b : bool) (s s' : gmap bytes Entry) : gmap bytes Entry := if b then s' else s.

Definition ok_blob {A} (o : option A) : bool := match o with Some _ => true | None => false end.

(** [mb] and [ttl] are the budget and the tombstone TTL of the store. *)
Definition spec_op (now mb ttl : Z) (o : op) (s : gmap bytes Entry) : gmap bytes Entry :=
  let big k e := (0 <? mb) && (mb <? entryCost k e) in
  let upsert (w : wr) flag {R : Type} (rej : R) compute :=
    (spec_upsert now s (wkey w) (wver w) (wexp w) flag rej compute).2 in
  match o with
  | OSet k e => (spec_Set now (big k e) s k e).2
  | OAcceptIfNewer k e => (spec_AcceptIfNewer now (big k e) s k e).2
  | OAcceptNegative k e => (spec_AcceptNegative now (big k e) s k e).2
  | ODelete k => delete k s
  | ODeleteIfVersion k v => (spec_DeleteIfVersion now (msg_tomb now ttl v) s k).2
  | OSetAdd (mkWr k v x) i => (spec_mutate now s k v x (fun t => Some (Set_Add t i))).2
  | OSetRemove (mkWr k v x) i => (spec_remove now s k v x (fun t => Set_Remove t i)).2
  | OSetInstall (mkWr k v x) b => (spec_install (T := SetT) now s k b v x).2
  | OZAdd (mkWr k v x) i sc => (spec_mutate now s k v x (fun t => ZSet_Add t i sc)).2
  | OZRem (mkWr k v x) i => (spec_remove now s k v x (fun t => ZSet_Rem t i)).2
  | OZInstall (mkWr k v x) b => (spec_install (T := ZSetT) now s k b v x).2
  | OGeoAdd (mkWr k v x) i lon lat => (spec_mutate now s k v x (fun t => Geo_Add t i lon lat)).2
  | OGeoRem (mkWr k v x) i => (spec_remove now s k v x (fun t => Geo_Rem t i)).2
  | OGeoInstall (mkWr k v x) b => (spec_install (T := GeoT) now s k b v x).2
  | OHSet (mkWr k v x) f val => (spec_mutate now s k v x (fun t => Some (Hash_Set t f val))).2
  | OHDel (mkWr k v x) f => (spec_remove now s k v x (fun t => Hash_Del t f)).2
  | OHInstall (mkWr k v x) b => (spec_install (T := HashT) now s k b v x).2
  | OLPush (mkWr k v x) i => (spec_lMutate now s k v x (fun l => List_LPush l i)).2
  | ORPush (mkWr k v x) i => (spec_lMutate now s k v x (fun l => List_RPush l i)).2
  | OLPop (mkWr k v x) => (spec_lPop now s k v x true).2
  | ORPop (mkWr k v x) => (spec_lPop now s k v x false).2
  | OLInstall (mkWr k v x) b => (spec_install (T := ListT) now s k b v x).2
  | OCIncr (mkWr k v x) d => (spec_CIncr now s k d v x).2
  | OCInstall w b => spec_guard (ok_blob (Counter_Decode b)) s (spec_installPlain FlagCounter s w b)
  | OBloomAdd (mkWr k v x) i mb kk => (spec_bloom now s k mb kk v x (fun f => Bloom_Add f i)).2
  | OBloomMerge (mkWr k v x) b mb kk =>
      match Bloom_Open mb kk b with
      | None => s
      | Some r => (spec_bloom now s k mb kk v x (fun f => default f (Bloom_Merge f r))).2
      end
  | OBSet w o bit mv =>
      match EncodedLen o with
      | None => s
      | Some need =>
          spec_guard (negb (over mv need)) s
            (upsert w FlagBitmap (false, false) (bitmapCompute o bit mv))
      end
  | OBInstall w b => spec_installPlain FlagBitmap s w b
  | OHLLAdd w i mv =>
      spec_guard (negb (over mv HLL_DenseSize)) s (upsert w FlagHLL (false, false) (hllCompute i))
  | OHLLInstall w b => spec_guard (len b =? HLL_DenseSize) s (spec_installPlain FlagHLL s w b)
  | OTopKAdd w i kk mv =>
      spec_guard (negb (kk <? 1) && negb (len i =? 0)) s
        (upsert w FlagTopK (false, false) (fun cur => topkApply cur i kk mv))
  | OTopKInstall w b kk => spec_guard (ok_blob (TopK_Decode b kk)) s (spec_installPlain FlagTopK s w b)
  | OCMSIncr w i n mv =>
      spec_guard (negb (len i =? 0) && negb (over mv CMS_DenseSize)) s
        (upsert w FlagCMS (false, false) (cmsCompute i n))
  | OCMSInstall w b => spec_guard (len b =? CMS_DenseSize) s (spec_installPlain FlagCMS s w b)
  | OXAdd w ms p mv tr => upsert w FlagStream ([], false, false, false) (xaddCompute p tr mv ms)
  | OXDel (mkWr k v x) id =>
      match ParseID id with
      | None => s
      | Some (ms, sq) => (spec_edit FlagStream s k v x (logEdit (fun lg => Log_Del lg ms sq))).2
      end
  | OXTrim (mkWr k v x) n =>
      spec_guard (negb (n <? 0)) s (spec_edit FlagStream s k v x (logEdit (fun lg => Trim lg n))).2
  | OSXInstall w b => spec_guard (ok_blob (DecodeSnapshot b)) s (spec_installPlain FlagStream s w b)
  | OVAdd w i vec mv =>
      spec_guard (negb (bad_member i || negb (ValidDim (len vec)) || negb (Finite vec))) s
        (upsert w FlagVectorSet (false, false) (vaddCompute i vec mv))
  | OVRem (mkWr k v x) i => (spec_edit FlagVectorSet s k v x (vremEdit i)).2
  | OVSInstall w b => spec_guard (ok_blob (VS_DecodeSnapshot b)) s (spec_installPlain FlagVectorSet s w b)
  | OJSet (mkWr k v x) p raw mv => (spec_JSet now s k p raw v x mv).2
  | OJDel (mkWr k v x) p => (spec_JDel s k p v x).2
  | OJInstall w b => spec_guard (ok_blob (Json_Decode b)) s (spec_installPlain FlagJSON s w b)
  | _ => s                                                   (* reads *)
  end.

(** What a caller owes: bytes are bytes, lengths fit the wire format, floats
    are 64-bit patterns, and a JSON write does not nest deeper than Decode
    reads.  Versions and expiries are arbitrary. *)
Definition args_ok (o : op) : Prop :=
  match o with
  | OSet _ e | OAcceptIfNewer _ e => entry_ok e
  | OAcceptNegative _ e => Flags e = FlagNegative /\ bytes_ok (Value e)
  | OSetAdd _ i | OLPush _ i | ORPush _ i => fits i
  | OZAdd _ i sc => fits i /\ is_f64 sc
  | OGeoAdd _ i lon lat => fits i /\ is_f64 lon /\ is_f64 lat
  | OHSet _ f val => fits f /\ fits val
  | OSetInstall _ b | OZInstall _ b | OGeoInstall _ b | OHInstall _ b | OLInstall _ b | OJInstall _ b => bytes_ok b
  | OJSet _ p raw _ => jset_ok p raw
  | OBlobRead flag _ => scalar_flag flag
  | _ => True
  end.

(** The same, and a new value is not already expired. *)
Definition op_ok (now : Z) (o : op) : Prop :=
  match o with
  | OSet _ e | OAcceptIfNewer _ e => entry_ok e
  | OAcceptNegative _ e => Flags e = FlagNegative /\ bytes_ok (Value e)
  | OSetAdd w i | OLPush w i | ORPush w i => live_at now (wexp w) /\ fits i
  | OZAdd w i sc => live_at now (wexp w) /\ fits i /\ is_f64 sc
  | OGeoAdd w i lon lat => live_at now (wexp w) /\ fits i /\ is_f64 lon /\ is_f64 lat
  | OHSet w f val => live_at now (wexp w) /\ fits f /\ fits val
  | OSetInstall w b | OZInstall w b | OGeoInstall w b | OHInstall w b | OLInstall w b
  | OJInstall w b =>
      live_at now (wexp w) /\ bytes_ok b
  | OSetRemove w _ | OZRem w _ | OGeoRem w _ | OHDel w _ | OLPop w | ORPop w
  | OCIncr w _ | OCInstall w _ | OBloomAdd w _ _ _ | OBloomMerge w _ _ _ | OBSet w _ _ _
  | OBInstall w _ | OHLLAdd w _ _ | OHLLInstall w _ | OTopKAdd w _ _ _ | OTopKInstall w _ _
  | OCMSIncr w _ _ _ | OCMSInstall w _ | OXAdd w _ _ _ _ | OXDel w _ | OXTrim w _ | OSXInstall w _
  | OVAdd w _ _ _ | OVRem w _ | OVSInstall w _ | OJDel w _ =>
      live_at now (wexp w)
  | OJSet w p raw _ => live_at now (wexp w) /\ jset_ok p raw
  | OBlobRead flag _ => scalar_flag flag
  | _ => True
  end.

(** ** One step *)

Definition refined (now : Z) (m : Memory) (s : gmap bytes Entry) : Prop := refines now s m /\ store_ok m.

Lemma implements_refined {R : Type} (now : Z) (r : R * Memory) (sp : R * gmap bytes Entry) :
  implements now r sp -> refined now r.2 sp.2.
Proof. by intros (_ & ? & ?). Qed.

Lemma refined_read now m m' :
  view now m' = view now m -> store_ok m' -> refined now m' (view now m).
Proof. intros <- Hok. split; [apply refines_view|done]. Qed.

Lemma refined_skip now m : store_ok m -> refined now m (view now m).
Proof. by apply refined_read. Qed.
#[export] Hint Resolve refined_skip : store.

Lemma refined_drop now m k it :
  store_ok m -> items m !! k = Some it -> Expired (entry it) now = true ->
  refined now (removeElement m k it) (view now m).
Proof. intros. apply refined_read; [by apply view_remove_expired|by apply removeElement_ok]. Qed.

Lemma Delete_refined now m k : store_ok m -> refined now (Delete m k).2 (delete k (view now m)).
Proof.
  intros Hok. unfold Delete. destruct (items m !! k) as [it|] eqn:Ek.
  - split; [|by apply removeElement_ok]. rewrite <- (view_removed now m k it). apply refines_view.
  - rewrite delete_id by (by apply view_missing). eauto with store.
Qed.

(** The reads that may only drop an expired item. *)
Ltac read_tac :=
  repeat case_match; simplify_eq/=; eauto using refined_drop with store.

Lemma PeekVersion_refined now m k : store_ok m -> refined now (PeekVersion now m k).2 (view now m).
Proof. intros. unfold PeekVersion. read_tac. Qed.

Lemma CGet_refined now m k : store_ok m -> refined now (CGet now m k).2 (view now m).
Proof. intros. unfold CGet. read_tac. Qed.

Lemma BloomTest_refined now m k i mb kk : store_ok m -> refined now (BloomTest now m k i mb kk).2 (view now m).
Proof. intros. unfold BloomTest. read_tac. Qed.

Lemma hasLocked_refined flag now m k : store_ok m -> refined now (hasLocked flag now m k).2 (view now m).
Proof. intros. unfold hasLocked. read_tac. Qed.

Lemma upsert_refined {R : Type} flag now m w (rej : R) compute :
  scalar_flag flag -> store_ok m -> live_at now (wexp w) ->
  refined now (upsertLocked now m (wkey w) (wver w) (wexp w) flag rej compute).2
    (spec_upsert now (view now m) (wkey w) (wver w) (wexp w) flag rej compute).2.
Proof. intros. by apply implements_refined, upsertLocked_implements. Qed.

Lemma installPlain_refined flag now m w b :
  scalar_flag flag -> store_ok m -> live_at now (wexp w) ->
  refined now (installPlain flag now m (wkey w) b (wver w) (wexp w)).2
    (spec_installPlain flag (view now m) w b).
Proof.
  intros Hs Hok Hl.
  pose proof (implements_refined _ _ _ (installPlain_implements flag now m (wkey w) b (wver w) (wexp w) Hs Hok Hl)).
  unfold spec_installPlain. by destruct (newer_than _ _ _).
Qed.

Lemma JInstall_refined now m w b :
  store_ok m -> live_at now (wexp w) -> bytes_ok b ->
  refined now (JInstall now m (wkey w) b (wver w) (wexp w)).2
    (spec_guard (ok_blob (Json_Decode b)) (view now m) (spec_installPlain FlagJSON (view now m) w b)).
Proof.
  intros Hok Hl Hb.
  pose proof (implements_refined _ _ _ (JInstall_implements now m (wkey w) b (wver w) (wexp w) Hok Hl Hb)) as Hr.
  unfold spec_guard, spec_installPlain, ok_blob. destruct (Json_Decode b); [|done].
  by destruct (newer_than _ _ _).
Qed.

Lemma JGet_refined now m k path : store_ok m -> refined now (JGet now m k path).2 (view now m).
Proof. intros Hok. destruct (JGet_read now m k path Hok) as (_ & ? & ?). by apply refined_read. Qed.

Lemma SXInstall_refined now m w b :
  store_ok m -> live_at now (wexp w) ->
  refined now (SXInstall now m (wkey w) b (wver w) (wexp w)).2
    (spec_guard (ok_blob (DecodeSnapshot b)) (view now m) (spec_installPlain FlagStream (view now m) w b)).
Proof.
  intros Hok Hl.
  pose proof (implements_refined _ _ _ (SXInstall_implements now m (wkey w) b (wver w) (wexp w) Hok Hl)) as Hr.
  unfold spec_guard, spec_installPlain, ok_blob. destruct (DecodeSnapshot b); [|done].
  by destruct (newer_than _ _ _).
Qed.

Lemma set_add_fits i t : fits i -> set_fits t -> set_fits (Set_Add t i).
Proof. intros Hi Ht x. unfold Set_Add. intros [->%elem_of_singleton|Hx]%elem_of_union; [done|by apply Ht]. Qed.

Lemma set_remove_fits i t : set_fits t -> set_fits (Set_Remove t i).
Proof. intros Ht x. unfold Set_Remove. intros [Hx _]%elem_of_difference. by apply Ht. Qed.

Lemma hash_set_fits f v t : fits f -> fits v -> hash_fits t -> hash_fits (Hash_Set t f v).
Proof. intros Hf Hv Ht k x. unfold Hash_Set. rewrite lookup_insert_Some. intros [[<- <-]|[_ Hk]]; [done|by apply Ht]. Qed.

Lemma delete_pred {A} (P : bytes -> A -> Prop) (t : gmap bytes A) i :
  (forall k v, t !! k = Some v -> P k v) -> forall k v, delete i t !! k = Some v -> P k v.
Proof. intros Ht k v. rewrite lookup_delete_Some. intros [_ Hk]. by apply Ht. Qed.

Lemma lpush_fits i l : fits i -> Forall fits l -> Forall fits (List_LPush l i).
Proof. by constructor. Qed.

Lemma rpush_fits i l : fits i -> Forall fits l -> Forall fits (List_RPush l i).
Proof. intros. apply Forall_app; auto. Qed.

Ltac typed_tac := first
  [ apply (mutateLocked_implements (T := SetT)) | apply (mutateLocked_implements (T := ZSetT))
  | apply (mutateLocked_implements (T := GeoT)) | apply (mutateLocked_implements (T := HashT))
  | apply (removeLocked_implements (T := SetT)) | apply (removeLocked_implements (T := ZSetT))
  | apply (removeLocked_implements (T := GeoT)) | apply (removeLocked_implements (T := HashT))
  | apply lMutateLocked_implements | apply lPopLocked_implements
  | apply SetInstall_implements | apply (installLocked_implements (T := ZSetT))
  | apply (installLocked_implements (T := GeoT)) | apply (installLocked_implements (T := HashT))
  | apply (installLocked_implements (T := ListT)) ].

#[export] Hint Resolve set_add_fits set_remove_fits hash_set_fits lpush_fits rpush_fits : store.

Lemma Get_refined now m k : store_ok m -> refined now (Get now m k).2 (view now m).
Proof. intros Hok. destruct (Get_Peek now m k Hok) as (_ & ? & ?). by apply refined_read. Qed.

Lemma Peek_refined now m k : store_ok m -> refined now (Peek now m k).2 (view now m).
Proof. intros Hok. destruct (Peek_view now m k Hok) as (_ & ? & ?). by apply refined_read. Qed.

Lemma peekLocked_refined {T : Type} `{StoreKind T} now m k :
  store_ok m -> refined now (peekLocked (T := T) now m k).2 (view now m).
Proof. intros Hok. destruct (peekLocked_read (T := T) now m k Hok) as (_ & ? & ?). by apply refined_read. Qed.

Lemma guard_refined (b : bool) now m m' s :
  store_ok m -> (b = true -> refined now m' s) ->
  refined now (if b then m' else m) (spec_guard b (view now m) s).
Proof. intros Hok Hr. destruct b; simpl; [by apply Hr|by apply refined_skip]. Qed.

#[export] Hint Resolve Get_refined Peek_refined peekLocked_refined PeekVersion_refined CGet_refined
  BloomTest_refined hasLocked_refined Delete_refined : store.

(** The kinds with a decoded cache. *)
Lemma run_typed_refined now o m :
  store_ok m -> op_ok now o ->
  match o with
  | OSetAdd _ _ | OSetRemove _ _ | OSetInstall _ _ | OZAdd _ _ _ | OZRem _ _ | OZInstall _ _
  | OGeoAdd _ _ _ _ | OGeoRem _ _ | OGeoInstall _ _ | OHSet _ _ _ | OHDel _ _ | OHInstall _ _
  | OLPush _ _ | ORPush _ _ | OLPop _ | ORPop _ | OLInstall _ _ =>
      refined now (run_op now o m) (spec_op now (maxBytes m) (tombstoneTTL m) o (view now m))
  | _ => True
  end.
Proof.
  intros Hok Ho. destruct o; try done; destruct w as [wk wv wx]; cbn [run_op spec_op op_ok wexp] in *;
    destruct_and?; apply implements_refined; typed_tac; auto with store.
  - intros t t' ? [= <-]. by apply set_add_fits.
  - intros t ?. by apply set_remove_fits.
  - intros t t' Ht E. by apply (ZSet_Add_ok t member score).
  - intros t Ht. exact (delete_pred _ t _ Ht).
  - intros t t' Ht E. by apply (Geo_Add_ok t member lon lat).
  - intros t Ht. exact (delete_pred _ t _ Ht).
  - intros t t' ? [= <-]. by apply hash_set_fits.
  - intros t Ht. exact (delete_pred _ t _ Ht).
Qed.

(** The kinds that live in their blob. *)
Lemma run_scalar_refined now o m :
  store_ok m -> op_ok now o ->
  match o with
  | OCIncr _ _ | OCInstall _ _ | OBloomAdd _ _ _ _ | OBloomMerge _ _ _ _ | OBSet _ _ _ _ | OBInstall _ _
  | OHLLAdd _ _ _ | OHLLInstall _ _ | OTopKAdd _ _ _ _ | OTopKInstall _ _ _ | OCMSIncr _ _ _ _
  | OCMSInstall _ _ | OXAdd _ _ _ _ _ | OXDel _ _ | OXTrim _ _ | OSXInstall _ _
  | OVAdd _ _ _ _ | OVRem _ _ | OVSInstall _ _ | OJSet _ _ _ _ | OJDel _ _ | OJInstall _ _ =>
      refined now (run_op now o m) (spec_op now (maxBytes m) (tombstoneTTL m) o (view now m))
  | _ => True
  end.
Proof.
  intros Hok Ho.
  assert (Hin : forall flag w b, scalar_flag flag -> live_at now (wexp w) ->
    refined now (installPlain flag now m (wkey w) b (wver w) (wexp w)).2
      (spec_installPlain flag (view now m) w b)) by (intros; by apply installPlain_refined).
  destruct o; try done; destruct w as [wk wv wx]; pose proof (Hin) as Hi; cbn [run_op spec_op op_ok wexp] in *.
  - by apply implements_refined, CIncr_implements.
  - unfold CInstall. destruct (Counter_Decode blob); [|by apply refined_skip].
    apply (Hi FlagCounter (mkWr wk wv wx)); eauto with store.
  - by apply implements_refined, bloomMutate_implements.
  - unfold BloomMerge. destruct (Bloom_Open _ _ _); [|by apply refined_skip].
    by apply implements_refined, bloomMutate_implements.
  - unfold BSet. destruct (EncodedLen offset) as [need|]; [|by apply refined_skip].
    destruct (over maxValue need); [by apply refined_skip|].
    apply (upsert_refined FlagBitmap now m (mkWr wk wv wx)); eauto with store.
  - apply (Hi FlagBitmap (mkWr wk wv wx)); eauto with store.
  - unfold HLLAdd. destruct (over _ _); [by apply refined_skip|].
    apply (upsert_refined FlagHLL now m (mkWr wk wv wx)); eauto with store.
  - unfold HLLInstall. destruct (len blob =? _); [|by apply refined_skip].
    apply (Hi FlagHLL (mkWr wk wv wx)); eauto with store.
  - unfold TopKAdd. destruct (kk <? 1); [by apply refined_skip|].
    destruct (len item =? 0); [by apply refined_skip|].
    apply (upsert_refined FlagTopK now m (mkWr wk wv wx)); eauto with store.
  - unfold TopKInstall. destruct (TopK_Decode blob kk); [|by apply refined_skip].
    apply (Hi FlagTopK (mkWr wk wv wx)); eauto with store.
  - unfold CMSIncr. destruct (len item =? 0); [by apply refined_skip|].
    destruct (over _ _); [by apply refined_skip|].
    apply (upsert_refined FlagCMS now m (mkWr wk wv wx)); eauto with store.
  - unfold CMSInstall. destruct (len blob =? _); [|by apply refined_skip].
    apply (Hi FlagCMS (mkWr wk wv wx)); eauto with store.
  - apply (upsert_refined FlagStream now m (mkWr wk wv wx)); eauto with store.
  - unfold XDel. destruct (ParseID id) as [[ms sq]|]; [|by apply refined_skip].
    apply implements_refined, edit_implements; eauto with store.
  - unfold XTrim. destruct (maxLen <? 0); [by apply refined_skip|].
    apply implements_refined, edit_implements; eauto with store.
  - by apply (SXInstall_refined now m (mkWr wk wv wx)).
  - unfold VAdd. destruct (_ || _); [by apply refined_skip|].
    apply (upsert_refined FlagVectorSet now m (mkWr wk wv wx)); eauto with store.
  - apply implements_refined, edit_implements; eauto with store.
  - unfold VSInstall. destruct (VS_DecodeSnapshot blob); [|by apply refined_skip].
    apply (Hi FlagVectorSet (mkWr wk wv wx)); eauto with store.
  - destruct Ho. by apply implements_refined, JSet_implements.
  - by apply implements_refined, JDel_implements.
  - destruct Ho. by apply (JInstall_refined now m (mkWr wk wv wx)).
Qed.

(** Every modelled method refines its specification and keeps the store
    well-formed. *)
Lemma run_op_refined now o m :
  store_ok m -> op_ok now o ->
  refined now (run_op now o m) (spec_op now (maxBytes m) (tombstoneTTL m) o (view now m)).
Proof.
  intros Hok Ho. pose proof (run_typed_refined now o m Hok Ho) as Ht.
  pose proof (run_scalar_refined now o m Hok Ho) as Hs.
  destruct o; try done; clear Ht Hs; cbn [run_op spec_op op_ok] in *;
    try (first [by apply Get_refined | by apply Peek_refined | by apply PeekVersion_refined
      | by apply Delete_refined | by apply CGet_refined | by apply BloomTest_refined
      | by apply hasLocked_refined | by apply JGet_refined | by apply (peekLocked_refined (T := SetT))
      | by apply (peekLocked_refined (T := ZSetT)) | by apply (peekLocked_refined (T := GeoT))
      | by apply (peekLocked_refined (T := ListT)) | by apply (peekLocked_refined (T := HashT))]);
    apply implements_refined.
  - by apply Store_Set_implements.
  - by apply AcceptIfNewer_implements.
  - destruct Ho. by apply AcceptNegative_implements.
  - by apply DeleteIfVersion_implements.
Qed.

(** Every modelled method keeps the store well-formed, whatever the expiry. *)
Lemma typed_keeps now o m :
  store_ok m -> args_ok o ->
  match o with
  | OSetAdd _ _ | OSetRemove _ _ | OSetInstall _ _ | OZAdd _ _ _ | OZRem _ _ | OZInstall _ _
  | OGeoAdd _ _ _ _ | OGeoRem _ _ | OGeoInstall _ _ | OHSet _ _ _ | OHDel _ _ | OHInstall _ _
  | OLPush _ _ | ORPush _ _ | OLPop _ | ORPop _ | OLInstall _ _ => store_ok (run_op now o m)
  | _ => True
  end.
Proof.
  intros Hok Ho. destruct o; try done; destruct w as [wk wv wx]; cbn [run_op args_ok] in *; destruct_and?.
  - apply (mutateLocked_keeps (T := SetT)); [done|]. intros t t' ? [= <-]. by apply set_add_fits.
  - apply (removeLocked_keeps (T := SetT)); [done|]. intros t ?. by apply set_remove_fits.
  - by apply SetInstall_keeps.
  - apply (mutateLocked_keeps (T := ZSetT)); [done|]. intros t t' Ht E. by apply (ZSet_Add_ok t member score).
  - apply (removeLocked_keeps (T := ZSetT)); [done|]. intros t Ht. exact (delete_pred _ t _ Ht).
  - by apply (installLocked_keeps (T := ZSetT)).
  - apply (mutateLocked_keeps (T := GeoT)); [done|]. intros t t' Ht E. by apply (Geo_Add_ok t member lon lat).
  - apply (removeLocked_keeps (T := GeoT)); [done|]. intros t Ht. exact (delete_pred _ t _ Ht).
  - by apply (installLocked_keeps (T := GeoT)).
  - apply (mutateLocked_keeps (T := HashT)); [done|]. intros t t' ? [= <-]. by apply hash_set_fits.
  - apply (removeLocked_keeps (T := HashT)); [done|]. intros t Ht. exact (delete_pred _ t _ Ht).
  - by apply (installLocked_keeps (T := HashT)).
  - apply lMutateLocked_keeps; auto with store.
  - apply lMutateLocked_keeps; auto with store.
  - by apply lPopLocked_keeps.
  - by apply lPopLocked_keeps.
  - by apply (installLocked_keeps (T := ListT)).
Qed.

Lemma run_op_keeps now o m : store_ok m -> args_ok o -> store_ok (run_op now o m).
Proof.
  intros Hok Ho. pose proof (typed_keeps now o m Hok Ho) as Ht.
  assert (Hr : op_ok now o -> store_ok (run_op now o m)) by (intros; by apply run_op_refined).
  destruct o; try done; try (by apply Hr); clear Ht Hr; destruct w as [wk wv wx]; cbn [run_op args_ok] in *;
    unfold CInstall, BloomMerge, BSet, HLLAdd, HLLInstall, TopKAdd, TopKInstall, CMSIncr, CMSInstall, XAdd, XDel, XTrim,
      VAdd, VRem, VSInstall, BloomAdd, BInstall;
    repeat case_match; try done;
    first [apply CIncr_keeps | apply bloomMutate_keeps | apply SXInstall_keeps | apply JSet_keeps | apply JDel_keeps
      | apply JInstall_keeps | apply upsertLocked_keeps | apply installPlain_keeps | apply editLocked_keeps];
    eauto with store.
Qed.

(** ** Sequences of calls *)

(** Calls in the order the mutex serialises them, each with its clock. *)
Definition run (tr : list (Z * op)) (m : Memory) : Memory :=
  fold_left (fun m c => run_op c.1 c.2 m) tr m.

Lemma run_ok tr m :
  store_ok m -> Forall (fun c => args_ok c.2) tr -> store_ok (run tr m).
Proof.
  intros Hok Htr. revert m Hok. induction Htr as [|[t o] tr Ho _ IH]; intros m Hok; [done|].
  apply IH. by apply run_op_keeps.
Qed.

Definition op_key (o : op) : bytes :=
  match o with
  | OGet k | OPeek k | OPeekVersion k | OSet k _ | OAcceptIfNewer k _ | OAcceptNegative k _
  | ODelete k | ODeleteIfVersion k _ | OSetPeek k | OZPeek k | OGPeek k | OHPeek k | OLPeek k
  | OCGet k | OBloomTest k _ _ _ | OBlobRead _ k | OJGet k _ => k
  | OSetAdd w _ | OSetRemove w _ | OSetInstall w _ | OZAdd w _ _ | OZRem w _ | OZInstall w _
  | OGeoAdd w _ _ _ | OGeoRem w _ | OGeoInstall w _ | OHSet w _ _ | OHDel w _ | OHInstall w _
  | OLPush w _ | ORPush w _ | OLPop w | ORPop w | OLInstall w _ | OCIncr w _ | OCInstall w _
  | OBloomAdd w _ _ _ | OBloomMerge w _ _ _ | OBSet w _ _ _ | OBInstall w _ | OHLLAdd w _ _
  | OHLLInstall w _ | OTopKAdd w _ _ _ | OTopKInstall w _ _ | OCMSIncr w _ _ _ | OCMSInstall w _
  | OXAdd w _ _ _ _ | OXDel w _ | OXTrim w _ | OSXInstall w _ | OVAdd w _ _ _ | OVRem w _ | OVSInstall w _
  | OJSet w _ _ _ | OJDel w _ | OJInstall w _ => wkey w
  end.

(** The call does not carry a version above [v]: a late write, a late delete,
    or a read.  Set and Delete are unconditional and never gated. *)
Definition gated (v : Z) (o : op) : Prop :=
  match o with
  | OSet _ _ | ODelete _ => False
  | OAcceptIfNewer _ e | OAcceptNegative _ e => Version e <= v
  | ODeleteIfVersion _ d => d < v
  | OGet _ | OPeek _ | OPeekVersion _ | OSetPeek _ | OZPeek _ | OGPeek _ | OHPeek _ | OLPeek _
  | OCGet _ | OBloomTest _ _ _ _ | OBlobRead _ _ | OJGet _ _ => True
  | OSetAdd w _ | OSetRemove w _ | OSetInstall w _ | OZAdd w _ _ | OZRem w _ | OZInstall w _
  | OGeoAdd w _ _ _ | OGeoRem w _ | OGeoInstall w _ | OHSet w _ _ | OHDel w _ | OHInstall w _
  | OLPush w _ | ORPush w _ | OLPop w | ORPop w | OLInstall w _ | OCIncr w _ | OCInstall w _
  | OBloomAdd w _ _ _ | OBloomMerge w _ _ _ | OBSet w _ _ _ | OBInstall w _ | OHLLAdd w _ _
  | OHLLInstall w _ | OTopKAdd w _ _ _ | OTopKInstall w _ _ | OCMSIncr w _ _ _ | OCMSInstall w _
  | OXAdd w _ _ _ _ | OXDel w _ | OXTrim w _ | OSXInstall w _ | OVAdd w _ _ _ | OVRem w _ | OVSInstall w _
  | OJSet w _ _ _ | OJDel w _ | OJInstall w _ => wver w <= v
  end.

(** A live tombstone that a write of version [v] does not supersede. *)
Definition blocks (s : gmap bytes Entry) (k : bytes) (v : Z) : Prop :=
  exists e, s !! k = Some e /\ IsTombstone e = true /\ v <= Version e.

(** The lookup of [k'] survives a write of [k]: another key, or blocked. *)
Definition spared (s : gmap bytes Entry) (k k' : bytes) (v : Z) : Prop := k <> k' \/ blocks s k v.

Lemma blocks_newer s k v : blocks s k v -> newer_than s k v = false.
Proof. intros (e & He & _ & Hv). unfold newer_than. rewrite He. by apply Z.ltb_ge. Qed.

Ltac spare_tac := intros [Hne|(e & He & Ht & Hv)];
  [repeat case_match; simpl;
   rewrite ?lookup_insert_ne, ?lookup_delete_ne, ?lookup_insert_ne by done; try done
  |rewrite He, ?Ht, ?(proj2 (Z.leb_le _ _) Hv); done].

Section spared.
Context (now : Z) (s : gmap bytes Entry) (k k' : bytes) (v x : Z).

Lemma spec_mutate_spared {T : Type} `{!Kind T} (mut : T -> option T) :
  spared s k k' v -> (spec_mutate now s k v x mut).2 !! k' = s !! k'.
Proof. unfold spec_mutate, spec_create. spare_tac. Qed.

Lemma spec_remove_spared {T : Type} `{!Kind T} (mut : T -> T) :
  spared s k k' v -> (spec_remove now s k v x mut).2 !! k' = s !! k'.
Proof.
  intros Hs. unfold spec_remove. destruct (s !! k) as [e|] eqn:Ek; [|done].
  destruct (IsTombstone e); [done|]. destruct (has_flag _ _); [|done]. by apply spec_mutate_spared.
Qed.

Lemma spec_install_spared {T : Type} `{!Kind T} b :
  spared s k k' v -> (spec_install (T := T) now s k b v x).2 !! k' = s !! k'.
Proof.
  unfold spec_install. intros [Hne|Hb]; [|by rewrite blocks_newer].
  repeat case_match; simpl; by rewrite ?lookup_insert_ne, ?lookup_delete_ne by done.
Qed.

Lemma spec_lMutate_spared mut :
  spared s k k' v -> (spec_lMutate now s k v x mut).2 !! k' = s !! k'.
Proof. unfold spec_lMutate. spare_tac. Qed.

Lemma spec_lPop_spared left :
  spared s k k' v -> (spec_lPop now s k v x left).2 !! k' = s !! k'.
Proof. unfold spec_lPop. spare_tac. Qed.

Lemma spec_CIncr_spared d :
  spared s k k' v -> (spec_CIncr now s k d v x).2 !! k' = s !! k'.
Proof. unfold spec_CIncr. spare_tac. Qed.

Lemma spec_bloom_spared mb kk mut :
  spared s k k' v -> (spec_bloom now s k mb kk v x mut).2 !! k' = s !! k'.
Proof. unfold spec_bloom. spare_tac. Qed.

Lemma spec_upsert_spared {R : Type} flag (rej : R) compute :
  spared s k k' v -> (spec_upsert now s k v x flag rej compute).2 !! k' = s !! k'.
Proof. unfold spec_upsert. spare_tac. Qed.

Lemma spec_edit_spared flag f :
  spared s k k' v -> (spec_edit flag s k v x f).2 !! k' = s !! k'.
Proof. unfold spec_edit. spare_tac. Qed.

Lemma spec_JSet_spared path raw mv :
  spared s k k' v -> (spec_JSet now s k path raw v x mv).2 !! k' = s !! k'.
Proof.
  intros Hs. unfold spec_JSet. destruct (Json_Decode raw); [|done]. destruct (ParsePath path); [|done].
  by apply spec_upsert_spared.
Qed.

Lemma spec_JDel_spared path :
  spared s k k' v -> (spec_JDel s k path v x).2 !! k' = s !! k'.
Proof. unfold spec_JDel. spare_tac. Qed.

Lemma spec_installPlain_spared flag b :
  spared s k k' v -> spec_installPlain flag s (mkWr k v x) b !! k' = s !! k'.
Proof.
  unfold spec_installPlain. simpl. intros [Hne|Hb]; [|by rewrite blocks_newer].
  case_match; by rewrite ?lookup_insert_ne by done.
Qed.

Lemma spec_Accept_spared big e :
  spared s k k' (Version e) -> (spec_AcceptIfNewer now big s k e).2 !! k' = s !! k'.
Proof.
  unfold spec_AcceptIfNewer, insert_live. intros [Hne|Hb]; [|by rewrite blocks_newer].
  repeat case_match; simpl; by rewrite ?lookup_insert_ne, ?lookup_delete_ne by done.
Qed.

Lemma spec_Negative_spared big e :
  spared s k k' (Version e) -> (spec_AcceptNegative now big s k e).2 !! k' = s !! k'.
Proof.
  unfold spec_AcceptNegative, insert_live. intros [Hne|(e0 & He & Ht & Hv)].
  - repeat case_match; simpl; by rewrite ?lookup_insert_ne, ?lookup_delete_ne by done.
  - rewrite He, Ht. simpl. by rewrite (proj2 (Z.ltb_ge _ _) Hv).
Qed.

Lemma spec_Delete_spared tomb :
  k <> k' \/ blocks s k (Version tomb + 1) -> (spec_DeleteIfVersion now tomb s k).2 !! k' = s !! k'.
Proof.
  unfold spec_DeleteIfVersion, insert_live. intros [Hne|(e0 & He & Ht & Hv)].
  - repeat case_match; simpl; by rewrite ?lookup_insert_ne, ?lookup_delete_ne by done.
  - rewrite He. by rewrite (proj2 (Z.ltb_lt _ _)) by lia.
Qed.
End spared.

Lemma guard_spared b s s' k : s' !! k = s !! k -> spec_guard b s s' !! k = s !! k.
Proof. by destruct b. Qed.

(** A gated call leaves a live tombstone as it is; any call leaves other keys. *)
Lemma spec_op_tombstone now mb ttl o s k e :
  s !! k = Some e -> IsTombstone e = true -> (op_key o = k -> gated (Version e) o) ->
  spec_op now mb ttl o s !! k = Some e.
Proof.
  intros He Ht Hg. rewrite <- He.
  assert (Hw : forall v, (op_key o = k -> v <= Version e) -> spared s (op_key o) k v).
  { intros v Hv. destruct (decide (op_key o = k)) as [Hk|]; [|by left].
    right. rewrite Hk. exists e. auto. }
  destruct o; try destruct w as [wk wv wx]; cbn [spec_op op_key gated wkey wver wexp] in *; try done;
    try (specialize (Hw wv Hg));
    repeat (case_match; try done);
    first [by apply spec_mutate_spared | by apply spec_remove_spared | by apply spec_install_spared
      | by apply spec_lMutate_spared | by apply spec_lPop_spared | by apply spec_CIncr_spared
      | by apply spec_bloom_spared | by apply spec_installPlain_spared
      | by apply spec_upsert_spared | by apply spec_edit_spared | by apply spec_JSet_spared | by apply spec_JDel_spared
      | by apply guard_spared, spec_installPlain_spared | by apply guard_spared, spec_upsert_spared
      | by apply guard_spared, spec_edit_spared
      | by apply spec_Accept_spared, Hw | by apply spec_Negative_spared, Hw | idtac].
  - unfold spec_Set, insert_live.
    repeat case_match; simpl; rewrite ?lookup_insert_ne, ?lookup_delete_ne; auto.
  - apply lookup_delete_ne. auto.
  - apply spec_Delete_spared. apply Hw. simpl. intros Hk%Hg. lia.
Qed.

Lemma view_later t t' m k e :
  view t m !! k = Some e -> Expired e t' = false -> view t' m !! k = Some e.
Proof.
  rewrite !lookup_view. destruct (items m !! k) as [it|]; [|done].
  destruct (Expired (entry it) t); [done|]. intros [= <-].
  rewrite (Expired_ext _ (entry it)) by (by destruct (flush_item_meta k it) as (_ & -> & _)).
  by intros ->.
Qed.

Lemma tombstone_pinned e : IsTombstone e = true -> pinned e = true.
Proof. unfold pinned. by intros ->. Qed.

Lemma run_op_tombstone t t' o m k e :
  store_ok m -> op_ok t o -> view t m !! k = Some e -> IsTombstone e = true ->
  (op_key o = k -> gated (Version e) o) -> Expired e t' = false ->
  view t' (run_op t o m) !! k = Some e.
Proof.
  intros Hok Ho Hk Ht Hg Hx. destruct (run_op_refined t o m Hok Ho) as [Href _].
  apply (view_later t); [|done]. eapply ref_pinned; [done| |by apply tombstone_pinned].
  by apply spec_op_tombstone.
Qed.

(** C1: deletes are not undone by late traffic.  Once a key holds a live
    tombstone, no sequence of store calls changes it in which the calls on that
    key are reads and versioned writes of at most its version (deletes of
    less), the unconditional Set and the hard Delete excepted, whatever is done
    to other keys and however hard eviction works: until the tombstone expires,
    reads of the key miss.  Arguments are well formed and values written are
    not already expired. *)
Theorem tombstone_gate t0 m k e tr t :
  store_ok m -> view t0 m !! k = Some e -> IsTombstone e = true ->
  Forall (fun c => op_ok c.1 c.2 /\ Expired e c.1 = false /\
                   (op_key c.2 = k -> gated (Version e) c.2)) tr ->
  Expired e t = false ->
  view t (run tr m) !! k = Some e /\ (Get t (run tr m) k).1 = None.
Proof.
  intros Hok Hk Ht Htr Hx.
  assert (H : store_ok (run tr m) /\ view t (run tr m) !! k = Some e).
  { revert t0 m Hok Hk. induction Htr as [|[t1 o] tr (Ho & Hx1 & Hg) _ IH]; intros t0 m Hok Hk.
    - split; [done|]. by apply (view_later t0).
    - cbn [run fold_left fst snd]. apply (IH t1); [by apply (run_op_refined t1 o m)|].
      apply run_op_tombstone; try done. by apply (view_later t0). }
  destruct H as [Hok' Hv]. split; [done|].
  destruct (Get_Peek t (run tr m) k Hok') as (-> & _). destruct (Peek_view t (run tr m) k Hok') as (-> & _).
  by rewrite Hv, Ht.
Qed.

Definition wit_key : bytes := [107].
Definition wit_deleted : Memory := (DeleteIfVersion 10 (NewMemory 200 0) wit_key 5).2.
Definition wit_trace : list (Z * op) :=
  [(11, OAcceptIfNewer wit_key (mkEntry [1; 2] 5 0 0));
   (12, OSetAdd (mkWr wit_key 4 0) [97]);
   (13, OAcceptIfNewer [111] (mkEntry (replicate 100 7) 9 0 0));
   (14, OCIncr (mkWr wit_key 5 0) 3)].

Lemma wit_deleted_ok : store_ok wit_deleted.
Proof. apply DeleteIfVersion_implements, NewMemory_ok. Qed.

Lemma op_args now o : op_ok now o -> args_ok o.
Proof. destruct o; cbn; tauto. Qed.

Ltac byte_tac := repeat (apply Forall_cons; split; [unfold is_byte; lia|]); try apply Forall_nil; done.

Lemma wit_ops_ok : forall c, c ∈ wit_trace -> op_ok c.1 c.2.
Proof.
  intros c. unfold wit_trace. rewrite !elem_of_cons, elem_of_nil.
  intros [->|[->|[->|[->|[]]]]]; cbn [op_ok fst snd wexp].
  - split; [byte_tac|done].
  - split; [by left|unfold fits; vm_compute; congruence].
  - split; [apply (Forall_replicate is_byte 100 7); unfold is_byte; lia|done].
  - by left.
Qed.

Lemma tombstone_gate_witness : (Get 20 (run wit_trace wit_deleted) wit_key).1 = None.
Proof.
  apply (tombstone_gate 10 wit_deleted wit_key (mkEntry [] 5 0 FlagTombstone) wit_trace 20).
  - apply wit_deleted_ok.
  - reflexivity.
  - reflexivity.
  - apply Forall_forall. intros c Hc. split; [by apply wit_ops_ok|]. revert c Hc.
    apply (Forall_forall _ wit_trace). unfold wit_trace. rewrite !Forall_cons.
    split_and!; try apply Forall_nil; try done; simpl; intros; lia || congruence.
  - reflexivity.
Defined.

(** C3: the store invariant.  From an empty store, any sequence of calls with
    admissible arguments, at any times and with any versions and expiries, leaves the LRU list a duplicate-free enumeration of
    the keys, the byte counter the sum of the item costs, and every decoded
    value in step with the blob that Get, Peek and replication would ship. *)
Theorem run_invariant tr mb ttl :
  Forall (fun c => args_ok c.2) tr ->
  let m := run tr (NewMemory mb ttl) in
  NoDup (order m) /\ (forall k, k ∈ order m <-> is_Some (items m !! k)) /\
  mbytes m = total (items m) /\ 0 <= mbytes m /\ map_Forall (fun _ it => item_ok it) (items m).
Proof.
  intros Htr. destruct (run_ok tr (NewMemory mb ttl) (NewMemory_ok _ _) Htr) as [Hwf Hit].
  pose proof (wf_total_nonneg _ Hwf). destruct Hwf. split_and!; done.
Qed.

Lemma run_invariant_witness :
  let m := run wit_trace (NewMemory 200 0) in mbytes m = total (items m).
Proof.
  apply run_invariant, Forall_forall. intros c Hc. by eapply op_args, wit_ops_ok.
Defined.
