(* ===== verification/StoreBehaviour.v ===== *)
(** * What callers of the store observe

    Read-your-writes for every kind, the branches on which a write is refused,
    and four behaviours worth knowing: a value recreated over a tombstone
    keeps the tombstone's expiry, an install whose blob does not decode removes
    the older entry, a set add may lower the stored version, and an accepted
    plain value may be its own eviction victim. *)
From S2P Require Import Prelude Wire Collections Scored Scalars Json Sketches Cms.
From S2P Require Import TopK Stream Store StoreInv StoreView StoreProps StoreKinds StoreKindsProps.
From S2P Require Import StoreScalars StoreScalarsProps StoreSafety.

Implicit Types (m : Memory) (e : Entry) (k : bytes) (s : gmap bytes Entry).

(** When a mutation of a decoded kind is accepted, its mutator never failing. *)
Definition accepts (T : Type) `{!Kind T} (s : gmap bytes Entry) (k : bytes) (v : Z) : bool :=
  match s !! k with
  | None => true
  | Some e =>
      if IsTombstone e then Version e <? v
      else has_flag (kflag T) e && ok_blob (kdecode (T := T) (Value e))
  end.

Section typed.
Context {T : Type} `{StoreKind T}.

Lemma mutate_accepts now m k v x (ok : bool) (f : T -> T) (mut : T -> option T) :
  store_ok m -> live_at now x -> (forall t t', kok t -> mut t = Some t' -> kok t') ->
  (forall t, mut t = if ok then Some (f t) else None) ->
  (mutateLocked now m k v x mut).1 = ok && accepts T (view now m) k v.
Proof.
  intros Hok Hl Hmut Hf. destruct (mutateLocked_implements now m k v x mut Hok Hl Hmut) as (-> & _).
  unfold spec_mutate, spec_create, accepts. rewrite Hf. destruct (view now m !! k) as [e|]; [|by destruct ok].
  destruct (IsTombstone e); simpl.
  - destruct (Z.leb_spec v (Version e)), (Z.ltb_spec (Version e) v); try lia; by destruct ok.
  - destruct (has_flag _ _), (kdecode _) as [t|]; simpl; rewrite ?Hf; by destruct ok.
Qed.

Lemma mutate_store_ok now m k v x (mut : T -> option T) :
  store_ok m -> live_at now x -> (forall t t', kok t -> mut t = Some t' -> kok t') ->
  store_ok (mutateLocked now m k v x mut).2.
Proof. intros Hok Hl Hmut. by destruct (mutateLocked_implements now m k v x mut Hok Hl Hmut) as (_ & _ & ?). Qed.

(** A typed read after an accepted mutation, in terms of the read before it. *)
Lemma mutate_with_peek {R : Type} now m m' k v x (mut : T -> option T) (none : R) (f : T -> R) :
  store_ok m -> live_at now x -> (forall t t', kok t -> mut t = Some t' -> kok t') ->
  mutateLocked now m k v x mut = (true, m') ->
  exists t t', mut t = Some t' /\ (with_peek now m' k none f).1 = f t' /\
    (with_peek now m k (f knew) f).1 = f t.
Proof.
  intros Hok Hl Hmut E.
  assert (Hok' : store_ok m') by (pose proof (mutate_store_ok now m k v x mut Hok Hl Hmut) as H1; by rewrite E in H1).
  destruct (mutate_read now m m' k v x mut Hok Hl Hmut E) as (t' & Hm & Hr).
  exists (default knew (spec_read (view now m) k)), t'. split; [done|].
  destruct (with_peek_read now m' k none f Hok') as [-> _]. rewrite Hr. split; [done|].
  destruct (with_peek_read now m k (f knew) f Hok) as [-> _]. by destruct (spec_read _ _).
Qed.
End typed.

(** sets read their writes.  SetAdd is accepted exactly when the key is
    free, its tombstone is older, or it already holds a readable set; then
    SetContains holds for the item and is unchanged for every other item. *)
Theorem set_add_contains now m k item v x :
  store_ok m -> live_at now x -> fits item ->
  (SetAdd now m k item v x).1 = accepts SetT (view now m) k v /\
  ((SetAdd now m k item v x).1 = true ->
   forall y, (SetContains now (SetAdd now m k item v x).2 k y).1
             = bool_decide (y = item) || (SetContains now m k y).1).
Proof.
  intros Hok Hl Hf. split.
  { apply (mutate_accepts (T := SetT) now m k v x true (fun t => Set_Add t item)); [done|done| |done].
    intros t t' ? [= <-]. by apply set_add_fits. }
  intros Ha y. destruct (SetAdd now m k item v x) as [b m'] eqn:E. simpl in Ha. subst b.
  destruct (mutate_with_peek (T := SetT) now m m' k v x (fun t => Some (Set_Add t item)) false
    (fun t => Set_Contains t y) Hok Hl) as (t & t' & [= <-] & H1 & H2); [|exact E|].
  { intros t t' ? [= <-]. by apply set_add_fits. }
  unfold SetContains. simpl. rewrite H1. change false with (Set_Contains knew y). rewrite H2.
  unfold Set_Contains, Set_Add. repeat case_bool_decide; set_solver.
Qed.

Lemma set_add_contains_witness :
  (SetContains 5 (SetAdd 5 (NewMemory 0 0) [115] [1] 1 0).2 [115] [1]).1 = true.
Proof.
  destruct (set_add_contains 5 (NewMemory 0 0) [115] [1] 1 0) as [_ H].
  - apply NewMemory_ok.
  - by left.
  - vm_compute. congruence.
  - rewrite H by (vm_compute; reflexivity). reflexivity.
Defined.

(** hashes read their writes.  HSet is accepted like SetAdd; then HGet
    returns the value for the field and is unchanged for every other field. *)
Theorem hset_hget now m k field value v x :
  store_ok m -> live_at now x -> fits field -> fits value ->
  (HSet now m k field value v x).1 = accepts HashT (view now m) k v /\
  ((HSet now m k field value v x).1 = true ->
   forall f, (HGet now (HSet now m k field value v x).2 k f).1
             = if decide (f = field) then Some value else (HGet now m k f).1).
Proof.
  intros Hok Hl Hf Hv. split.
  { apply (mutate_accepts (T := HashT) now m k v x true (fun t => Hash_Set t field value)); [done|done| |done].
    intros t t' ? [= <-]. by apply hash_set_fits. }
  intros Ha f. destruct (HSet now m k field value v x) as [b m'] eqn:E. simpl in Ha. subst b.
  destruct (mutate_with_peek (T := HashT) now m m' k v x (fun t => Some (Hash_Set t field value)) None
    (fun h => Hash_Get h f) Hok Hl) as (t & t' & [= <-] & H1 & H2); [|exact E|].
  { intros t t' ? [= <-]. by apply hash_set_fits. }
  unfold HGet. simpl. rewrite H1. change None with (Hash_Get knew f). rewrite H2.
  unfold Hash_Get, Hash_Set. case_decide; [subst; apply lookup_insert_eq|by apply lookup_insert_ne].
Qed.

Lemma hset_hget_witness :
  (HGet 5 (HSet 5 (NewMemory 0 0) [104] [1] [2] 1 0).2 [104] [1]).1 = Some [2].
Proof.
  destruct (hset_hget 5 (NewMemory 0 0) [104] [1] [2] 1 0) as [_ H].
  - apply NewMemory_ok.
  - by left.
  - vm_compute. congruence.
  - vm_compute. congruence.
  - rewrite H by (vm_compute; reflexivity). reflexivity.
Defined.

(** sorted sets read their writes, and a NaN score is refused. *)
Theorem zadd_zscore now m k member score v x :
  store_ok m -> live_at now x -> fits member -> is_f64 score ->
  (ZAdd now m k member score v x).1 = negb (IsNaN score) && accepts ZSetT (view now m) k v /\
  ((ZAdd now m k member score v x).1 = true ->
   forall y, (ZScore now (ZAdd now m k member score v x).2 k y).1
             = if decide (y = member) then Some score else (ZScore now m k y).1).
Proof.
  intros Hok Hl Hf Hs.
  assert (Hmut : forall t t' : ZSetT, kok t -> ZSet_Add t member score = Some t' -> kok t').
  { intros t t' Ht E. by apply (ZSet_Add_ok t member score). }
  split.
  - apply (mutate_accepts (T := ZSetT) now m k v x (negb (IsNaN score)) (fun z => <[member := score]> z)); [done|done|done|].
    intros t. unfold ZSet_Add. by destruct (IsNaN score).
  - intros Ha y. destruct (ZAdd now m k member score v x) as [b m'] eqn:E. simpl in Ha. subst b.
    destruct (mutate_with_peek (T := ZSetT) now m m' k v x (fun z => ZSet_Add z member score) None
      (fun z => ZSet_Score z y) Hok Hl Hmut E) as (t & t' & Et & H1 & H2).
    unfold ZScore. simpl. rewrite H1. change None with (ZSet_Score knew y). rewrite H2.
    unfold ZSet_Add in Et. destruct (IsNaN score); [done|]. injection Et as <-.
    unfold ZSet_Score. case_decide; [subst; apply lookup_insert_eq|by apply lookup_insert_ne].
Qed.

Lemma zadd_zscore_witness :
  (ZScore 5 (ZAdd 5 (NewMemory 0 0) [122] [1] f64_90 1 0).2 [122] [1]).1 = Some f64_90.
Proof.
  destruct (zadd_zscore 5 (NewMemory 0 0) [122] [1] f64_90 1 0) as [_ H].
  - apply NewMemory_ok.
  - by left.
  - vm_compute. congruence.
  - split; vm_compute; congruence.
  - rewrite H by (vm_compute; reflexivity). reflexivity.
Defined.

(** geo indexes read their writes, and coordinates out of range are refused. *)
Theorem geoadd_geopos now m k member lon lat v x :
  store_ok m -> live_at now x -> fits member -> is_f64 lon -> is_f64 lat ->
  (GeoAdd now m k member lon lat v x).1 = ValidCoord lon lat && accepts GeoT (view now m) k v /\
  ((GeoAdd now m k member lon lat v x).1 = true ->
   forall y, (GeoPos now (GeoAdd now m k member lon lat v x).2 k y).1
             = if decide (y = member) then Some {| g_lon := lon; g_lat := lat |} else (GeoPos now m k y).1).
Proof.
  intros Hok Hl Hf Hs Hs'.
  assert (Hmut : forall t t' : GeoT, kok t -> Geo_Add t member lon lat = Some t' -> kok t').
  { intros t t' Ht E. by apply (Geo_Add_ok t member lon lat). }
  split.
  - apply (mutate_accepts (T := GeoT) now m k v x (ValidCoord lon lat) (fun z => <[member := {| g_lon := lon; g_lat := lat |}]> z)); [done|done|done|].
    intros t. unfold Geo_Add. by destruct (ValidCoord lon lat).
  - intros Ha y. destruct (GeoAdd now m k member lon lat v x) as [b m'] eqn:E. simpl in Ha. subst b.
    destruct (mutate_with_peek (T := GeoT) now m m' k v x (fun z => Geo_Add z member lon lat) None
      (fun z => Geo_Pos z y) Hok Hl Hmut E) as (t & t' & Et & H1 & H2).
    unfold GeoPos. simpl. rewrite H1. change None with (Geo_Pos knew y). rewrite H2.
    unfold Geo_Add in Et. destruct (ValidCoord lon lat); [|done]. injection Et as <-.
    unfold Geo_Pos. case_decide; [subst; apply lookup_insert_eq|by apply lookup_insert_ne].
Qed.

Lemma geoadd_geopos_witness :
  (GeoPos 5 (GeoAdd 5 (NewMemory 0 0) [103] [1] f64_180 f64_90 1 0).2 [103] [1]).1
  = Some {| g_lon := f64_180; g_lat := f64_90 |}.
Proof.
  destruct (geoadd_geopos 5 (NewMemory 0 0) [103] [1] f64_180 f64_90 1 0) as [_ H].
  - apply NewMemory_ok.
  - by left.
  - vm_compute. congruence.
  - split; vm_compute; congruence.
  - split; vm_compute; congruence.
  - rewrite H by (vm_compute; reflexivity). reflexivity.
Defined.

(** ** Lists *)

Lemma lMutate_read now m m' k v x (mut : ListT -> ListT) :
  store_ok m -> live_at now x -> (forall l, Forall fits l -> Forall fits (mut l)) ->
  lMutateLocked now m k v x mut = (true, m') ->
  store_ok m' /\ spec_read (view now m') k = Some (mut (default List_New (spec_read (view now m) k))).
Proof.
  intros Hok Hl Hmut E.
  destruct (lMutateLocked_implements now m k v x mut Hok Hl Hmut) as (Hr & Href & Hok').
  rewrite E in Hr, Href, Hok'. simpl in Hr, Href, Hok'. split; [done|].
  assert (Hrd : forall l v' x', Forall fits l ->
    (spec_lMutate now (view now m) k v x mut).2 = <[k := typed_entry (mut l) v' x']> (view now m) ->
    spec_read (view now m') k = Some (mut l)).
  { intros l v' x' Hf Es. rewrite Es in Href. apply (read_typed (T := ListT) _ _ _ _ (mut l) v' x' Href).
    - apply lookup_insert_eq.
    - by apply Hmut. }
  revert Hr. unfold spec_lMutate in *. unfold spec_read at 2. change (has_flag (kflag ListT)) with IsList.
  change (kdecode (T := ListT)) with List_Decode.
  destruct (view now m !! k) as [e|] eqn:Ev.
  2:{ intros _. by eapply (Hrd List_New). }
  destruct (IsTombstone e) eqn:Et; simpl.
  { destruct (v <=? Version e); [done|]. intros _. by eapply (Hrd List_New). }
  destruct (IsList e); [|done]. destruct (List_Decode (Value e)) as [l|] eqn:Ed; [|done].
  intros _. eapply (Hrd l); [|done]. by eapply set_decode_loop_fits.
Qed.

Lemma lPop_read now m m' k v x left item :
  store_ok m -> live_at now x -> lPopLocked now m k v x left = ((Some item, true), m') ->
  store_ok m' /\ exists l l', spec_read (view now m) k = Some l /\ spec_read (view now m') k = Some l' /\
    (if left then List_LPop l else List_RPop l) = (Some item, l').
Proof.
  intros Hok Hl E. destruct (lPopLocked_implements now m k v x left Hok Hl) as (Hr & Href & Hok').
  rewrite E in Hr, Href, Hok'. simpl in Hr, Href, Hok'. split; [done|].
  revert Hr Href. unfold spec_lPop. unfold spec_read at 1. change (has_flag (kflag ListT)) with IsList.
  change (kdecode (T := ListT)) with List_Decode.
  destruct (view now m !! k) as [e|]; [|done]. destruct (IsTombstone e); [done|].
  destruct (IsList e); [|done]. simpl. destruct (List_Decode (Value e)) as [l|] eqn:Ed; [|done].
  destruct (if left then List_LPop l else List_RPop l) as [[i|] l'] eqn:Ep; [|done].
  simpl. intros [= <-] Href. exists l, l'. split_and!; [done| |done].
  eapply (read_typed (T := ListT)); [done|apply lookup_insert_eq|].
  eapply pop_fits, Ep. by eapply set_decode_loop_fits.
Qed.

(** The whole list, as LRANGE 0 -1 returns it. *)
Definition list_all (now : Z) (m : Memory) (k : bytes) : list bytes := (LRange now m k 0 (-1)).1.

Lemma List_Range_all l : List_Range l 0 (-1) = l.
Proof.
  destruct l as [|a l]; [done|]. set (l0 := a :: l).
  assert (Hl : 1 <= len l0) by (unfold l0; rewrite len_cons; pose proof (len_nonneg l); lia).
  assert (Hw : redis_window (len l0) 0 (-1) = Some (0, len l0 - 1)).
  { unfold redis_window. repeat case_match; zprop; simpl in *; zprop; try lia; f_equal; f_equal; lia. }
  rewrite (List_Range_segment _ _ _ _ _ Hw). replace (len l0 - 1 - 0 + 1) with (len l0) by lia.
  unfold len. rewrite Nat2Z.id, drop_0. by apply take_ge.
Qed.

Lemma list_all_read now m k : store_ok m -> list_all now m k = default [] (spec_read (T := ListT) (view now m) k).
Proof.
  intros Hok. unfold list_all, LRange.
  destruct (with_peek_read (T := ListT) now m k [] (fun l => List_Range l 0 (-1)) Hok) as [-> _].
  destruct (spec_read _ _); [apply List_Range_all|done].
Qed.

(** lists are double-ended queues.  An accepted push extends the list at
    its end; a pop that returns an item took it from its end, and leaves the
    rest in order. *)
Theorem list_deque now m k v x :
  store_ok m -> live_at now x ->
  (forall item m', fits item -> RPush now m k item v x = (true, m') ->
     list_all now m' k = list_all now m k ++ [item]) /\
  (forall item m', fits item -> LPush now m k item v x = (true, m') ->
     list_all now m' k = item :: list_all now m k) /\
  (forall item m', LPop now m k v x = ((Some item, true), m') ->
     list_all now m k = item :: list_all now m' k) /\
  (forall item m', RPop now m k v x = ((Some item, true), m') ->
     list_all now m k = list_all now m' k ++ [item]).
Proof.
  intros Hok Hl. split_and!.
  - intros item m' Hf [Hok' Hr]%lMutate_read; [|done|done|intros; by apply rpush_fits].
    rewrite !list_all_read by done. by rewrite Hr.
  - intros item m' Hf [Hok' Hr]%lMutate_read; [|done|done|intros; by apply lpush_fits].
    rewrite !list_all_read by done. by rewrite Hr.
  - intros item m' (Hok' & l & l' & H1 & H2 & Hp)%lPop_read; [|done|done].
    rewrite !list_all_read, H1, H2 by done. simpl in *. destruct l; simplify_eq/=; done.
  - intros item m' (Hok' & l & l' & H1 & H2 & Hp)%lPop_read; [|done|done].
    rewrite !list_all_read, H1, H2 by done. simpl in *.
    destruct l as [|a l0] using rev_ind; [done|]. change (l0 ++ [a]) with (List_RPush l0 a) in *.
    rewrite List_RPop_RPush in Hp. by simplify_eq.
Qed.

Lemma list_deque_witness :
  list_all 5 (RPush 5 (NewMemory 0 0) [108] [1] 1 0).2 [108] = [[1]].
Proof.
  destruct (list_deque 5 (NewMemory 0 0) [108] 1 0) as (H & _).
  - apply NewMemory_ok.
  - by left.
  - apply (H [1]); [vm_compute; congruence|vm_compute; reflexivity].
Defined.

(** ** Kinds that live in their blob *)

Definition upsert_accepts (flag : Z) (s : gmap bytes Entry) (k : bytes) (v : Z) : bool :=
  match s !! k with
  | None => true
  | Some e => if IsTombstone e then Version e <? v else has_flag flag e
  end.

(** The result of an upsert and the blob a later read finds. *)
Lemma upsert_read {R : Type} flag now m k v x (rej : R) compute :
  scalar_flag flag -> store_ok m -> live_at now x ->
  let r := upsertLocked now m k v x flag rej compute in
  store_ok r.2 /\
  if upsert_accepts flag (view now m) k v then
    match compute (spec_blob flag (view now m) k) with
    | inl q => r.1 = q
    | inr (blob, res) => r.1 = res true /\ spec_blob flag (view now r.2) k = Some blob
    end
  else r.1 = rej.
Proof.
  intros Hs Hok Hl. cbv zeta.
  destruct (upsertLocked_implements now m k v x flag rej compute Hs Hok Hl) as (Hr & Href & Hok').
  split; [done|]. rewrite Hr. revert Href.
  assert (Hrd : forall (sp : R * gmap bytes Entry) blob v' x',
    refines now sp.2 (upsertLocked now m k v x flag rej compute).2 ->
    sp.2 = <[k := mkEntry blob v' x' flag]> (view now m) ->
    spec_blob flag (view now (upsertLocked now m k v x flag rej compute).2) k = Some blob).
  { intros sp blob v' x' Href E. unfold spec_blob.
    rewrite (ref_pinned _ _ _ Href k (mkEntry blob v' x' flag)); [|by rewrite E, lookup_insert_eq|apply Hs].
    by rewrite (sf_tomb _ Hs), (sf_own _ Hs). }
  unfold spec_upsert, upsert_accepts. unfold spec_blob at 1. cbv zeta.
  destruct (view now m !! k) as [e|].
  2:{ destruct (compute None) as [q|[blob res]]; [done|]. intros Href. split; [done|]. by eapply Hrd. }
  destruct (IsTombstone e); simpl.
  - destruct (Z.leb_spec v (Version e)), (Z.ltb_spec (Version e) v); try lia; [done|].
    destruct (compute None) as [q|[blob res]]; [done|]. intros Href. split; [done|]. by eapply Hrd.
  - destruct (has_flag flag e); simpl; [|done].
    destruct (compute (Some (Value e))) as [q|[blob res]]; [done|]. intros Href. split; [done|]. by eapply Hrd.
Qed.

(** bitmaps read their writes.  A BSet that reports success makes BGet
    return the bit at its offset, and leaves every other offset as it was (an
    absent bitmap reads as zeros). *)
Theorem bset_bget now m k offset bit v x maxValue m' :
  store_ok m -> live_at now x -> offset_ok offset ->
  BSet now m k offset bit v x maxValue = ((true, false), m') ->
  forall o, offset_ok o ->
    (BGet now m' k o).1 = Some (if offset =? o then bit else default false (BGet now m k o).1).
Proof.
  intros Hok Hl Ho E o Ho'. unfold BSet in E. rewrite EncodedLen_ok in E by done.
  destruct (over maxValue (offset / 8 + 1)); [done|].
  destruct (upsert_read FlagBitmap now m k v x (false, false) (bitmapCompute offset bit maxValue)
    bitmap_flag Hok Hl) as [Hok' Hr]. rewrite E in Hok', Hr. simpl in Hok', Hr.
  unfold BGet. destruct (with_blob_read FlagBitmap now m k (fun b => Bitmap_Get b o) bitmap_flag Hok) as [-> _].
  destruct (with_blob_read FlagBitmap now m' k (fun b => Bitmap_Get b o) bitmap_flag Hok') as [-> _].
  destruct (upsert_accepts _ _ _ _); [|done]. unfold bitmapCompute in Hr.
  destruct (over maxValue _); [done|]. destruct Hr as [_ ->]. simpl. f_equal.
  rewrite Bitmap_Get_Set by done. destruct (offset =? o); [done|].
  destruct (spec_blob _ _ _); [done|]. simpl. by apply Bitmap_Get_nil.
Qed.

Lemma bset_bget_witness :
  (BGet 5 (BSet 5 (NewMemory 0 0) [98] 9 true 1 0 0).2 [98] 9).1 = Some true.
Proof.
  assert (Ho : offset_ok 9) by (split; [lia|vm_compute; congruence]).
  refine (bset_bget 5 (NewMemory 0 0) [98] 9 true 1 0 0 _ _ _ Ho _ 9 Ho).
  - apply NewMemory_ok.
  - by left.
  - vm_compute. reflexivity.
Defined.

Lemma CGet_read now m k :
  store_ok m ->
  (CGet now m k).1 = spec_blob FlagCounter (view now m) k ≫= Counter_Decode.
Proof.
  intros Hok. unfold CGet, spec_blob. destruct (items m !! k) as [it|] eqn:Ek; [|by rewrite view_missing].
  destruct (Expired (entry it) now) eqn:Ex; [by rewrite (view_dead _ _ _ it)|].
  rewrite (view_live _ _ _ it) by done. unfold IsTombstone, IsCounter. rewrite !flushed_flag.
  destruct (has_flag FlagTombstone (entry it)); [done|].
  destruct (has_flag FlagCounter (entry it)) eqn:Ef; simpl; [|done].
  by rewrite (flush_scalar FlagCounter) by (apply counter_flag || done || by apply (proj2 Hok k)).
Qed.

Lemma counter_pinned e : has_flag FlagCounter e = true -> pinned e = true.
Proof. revert e. pinned_tac. Qed.

(** A store that only lost unpinned entries shows the same counter. *)
Lemma refines_counter now m m' k :
  refines now (view now m) m' -> store_ok m -> store_ok m' -> (CGet now m' k).1 = (CGet now m k).1.
Proof.
  intros Href Hok Hok'. rewrite !CGet_read by done. f_equal. unfold spec_blob.
  destruct (view now m !! k) as [e|] eqn:Ev.
  - destruct (negb (IsTombstone e) && has_flag FlagCounter e) eqn:E.
    + apply andb_prop in E as [Et Ef]. rewrite (ref_pinned _ _ _ Href k e Ev) by (by apply counter_pinned).
      by rewrite Et, Ef.
    + destruct (view now m' !! k) as [e'|] eqn:Ev'; [|done].
      pose proof (lookup_weaken _ _ _ _ Ev' (ref_sub _ _ _ Href)). simplify_eq. by rewrite E.
  - destruct (view now m' !! k) as [e'|] eqn:Ev'; [|done].
    pose proof (lookup_weaken _ _ _ _ Ev' (ref_sub _ _ _ Href)). simplify_eq.
Qed.

Lemma counter_write now s m k val v x :
  refines now (<[k := mkEntry (Counter_Encode val) v x FlagCounter]> s) m -> store_ok m -> is_i64 val ->
  (CGet now m k).1 = Some val.
Proof.
  intros Href Hok Hv. rewrite CGet_read by done. unfold spec_blob.
  rewrite (ref_pinned _ _ _ Href k (mkEntry (Counter_Encode val) v x FlagCounter)); [|apply lookup_insert_eq|done].
  by apply Counter_Decode_Encode.
Qed.

(** counters add up.  CIncr either stores the exact sum of the value CGet
    reported (0 for a free key) and the delta, which CGet then returns; or
    reports an overflow of int64 together with the unchanged value; or refuses
    the key.  No value is ever wrapped. *)
Theorem counter_incr now m k delta v x :
  store_ok m -> live_at now x -> is_i64 delta ->
  (forall e, view now m !! k = Some e -> bytes_ok (Value e)) ->
  let r := CIncr now m k delta v x in
  match r.1 with
  | (n, true, _) =>
      n = default 0 (CGet now m k).1 + delta /\ is_i64 n /\ (CGet now r.2 k).1 = Some n
  | (n, false, true) =>
      (CGet now m k).1 = Some n /\ ~ is_i64 (n + delta) /\ (CGet now r.2 k).1 = Some n
  | (n, false, false) => n = 0 /\ (CGet now r.2 k).1 = (CGet now m k).1
  end.
Proof.
  intros Hok Hl Hd Hb. cbv zeta.
  destruct (CIncr_implements now m k delta v x Hok Hl) as (-> & Href & Hok').
  rewrite CGet_read by done. revert Href. set (m' := (CIncr now m k delta v x).2) in *.
  assert (Hsame : refines now (view now m) m' ->
    (CGet now m' k).1 = spec_blob FlagCounter (view now m) k ≫= Counter_Decode).
  { intros Href. rewrite <- CGet_read by done. by apply refines_counter. }
  revert Hsame. unfold spec_CIncr, spec_blob. fold IsCounter. cbv zeta.
  assert (Hfresh : forall v', refines now (<[k := mkEntry (Counter_Encode delta) v' x FlagCounter]> (view now m)) m' ->
    delta = 0 + delta /\ is_i64 delta /\ (CGet now m' k).1 = Some delta).
  { intros v' Href. split_and!; [lia|done|by eapply counter_write]. }
  destruct (view now m !! k) as [e|] eqn:Ev; simpl; [|intros _; apply Hfresh].
  destruct (IsTombstone e); simpl.
  { destruct (v <=? Version e); simpl; [by auto|]. intros _. apply Hfresh. }
  destruct (IsCounter e); simpl; [|by auto].
  destruct (Counter_Decode (Value e)) as [cur|] eqn:Ec; simpl; [|by auto].
  assert (Hcur : is_i64 cur) by (eapply Counter_Decode_range, Ec; by apply Hb).
  pose proof (Counter_Add_spec cur delta Hcur Hd) as Hadd. case_bool_decide; rewrite Hadd; simpl.
  - intros _ Href. split_and!; [done|done|]. by eapply counter_write.
  - intros Hs Href. split_and!; [done|done|by apply Hs].
Qed.

Lemma counter_incr_witness :
  let m := (CIncr 5 (NewMemory 0 0) [99] 40 1 0).2 in
  (CGet 5 (CIncr 5 m [99] 2 2 0).2 [99]).1 = Some 42.
Proof.
  assert (Hi : forall d, -100 <= d <= 100 -> is_i64 d) by (unfold is_i64, MinInt64, MaxInt64; lia).
  assert (Hok : store_ok (CIncr 5 (NewMemory 0 0) [99] 40 1 0).2).
  { apply CIncr_implements; [apply NewMemory_ok|by left]. }
  cbv zeta. pose proof (counter_incr 5 (CIncr 5 (NewMemory 0 0) [99] 40 1 0).2 [99] 2 2 0 Hok
    (or_introl eq_refl) (Hi 2 ltac:(lia))) as H.
  apply H. intros e He. vm_compute in He. injection He as <-. simpl. byte_tac.
Defined.

(** ** Bloom filters *)

Lemma Bloom_Open_fbits f : filter_ok f -> Bloom_Open (f_m f) (f_k f) (fbits f) = Some f.
Proof.
  intros (Hm & Hk & Hl & _). unfold Bloom_Open. rewrite Hl, Z.eqb_refl.
  rewrite (proj2 (Z.ltb_ge _ _) Hm), (proj2 (Z.ltb_ge _ _) Hk). by destruct f.
Qed.

Lemma Bloom_Open_params mb kk b f : Bloom_Open mb kk b = Some f -> f_m f = mb /\ f_k f = kk.
Proof. unfold Bloom_Open. repeat case_match; intros; by simplify_eq. Qed.

Lemma BloomTest_read now m k y mb kk :
  store_ok m ->
  (BloomTest now m k y mb kk).1 =
    match spec_blob FlagBloom (view now m) k ≫= Bloom_Open mb kk with
    | None => false
    | Some f => Bloom_Test f y
    end.
Proof.
  intros Hok. unfold BloomTest, spec_blob. destruct (items m !! k) as [it|] eqn:Ek; [|by rewrite view_missing].
  destruct (Expired (entry it) now) eqn:Ex; [by rewrite (view_dead _ _ _ it)|].
  rewrite (view_live _ _ _ it) by done. unfold IsTombstone, IsBloom. rewrite !flushed_flag.
  destruct (has_flag FlagTombstone (entry it)); [done|].
  destruct (has_flag FlagBloom (entry it)) eqn:Ef; simpl; [|done].
  by rewrite (flush_scalar FlagBloom) by (apply bloom_flag || done || by apply (proj2 Hok k)).
Qed.

Lemma bloom_pinned e : has_flag FlagBloom e = true -> pinned e = true.
Proof. revert e. pinned_tac. Qed.

(** The filter a write leaves behind is the one later tests consult. *)
Lemma bloom_write now s m k y f e :
  refines now (<[k := e]> s) m -> store_ok m -> filter_ok f ->
  Value e = fbits f -> IsTombstone e = false -> IsBloom e = true ->
  (BloomTest now m k y (f_m f) (f_k f)).1 = Bloom_Test f y.
Proof.
  intros Href Hok Hf Hv Ht Hb. rewrite BloomTest_read by done. unfold spec_blob.
  rewrite (ref_pinned _ _ _ Href k e); [|apply lookup_insert_eq|by apply bloom_pinned].
  rewrite Ht. fold IsBloom. rewrite Hb. simpl. by rewrite Hv, Bloom_Open_fbits.
Qed.

Definition bloom_zeros (mb : Z) : bytes := replicate (Z.to_nat (Z.quot (mb + 7) 8)) 0.

(** A successful mutation starts from the stored bits, or from zeros. *)
Lemma spec_bloom_true now s k mb kk v x mut :
  (spec_bloom now s k mb kk v x mut).1 = true ->
  exists f e, Bloom_Open mb kk (default (bloom_zeros mb) (spec_blob FlagBloom s k)) = Some f /\
    (spec_bloom now s k mb kk v x mut).2 = <[k := e]> s /\
    Value e = fbits (mut f) /\ IsTombstone e = false /\ IsBloom e = true.
Proof.
  unfold spec_bloom, spec_blob. fold (bloom_zeros mb). fold IsBloom. cbv zeta.
  assert (Hnew : forall f, exists e, <[k := mkEntry (fbits (mut f)) v x FlagBloom]> s = <[k := e]> s /\
    Value e = fbits (mut f) /\ IsTombstone e = false /\ IsBloom e = true) by (intros; by eexists).
  destruct (s !! k) as [e|]; simpl.
  2:{ destruct (Bloom_Open _ _ _) as [f|]; [|done]. intros _. exists f. destruct (Hnew f) as [e He]. by exists e. }
  destruct (IsTombstone e) eqn:Et; simpl.
  { destruct (v <=? Version e); [done|]. destruct (Bloom_Open _ _ _) as [f|]; [|done].
    intros _. exists f. destruct (Hnew f) as [e' He]. by exists e'. }
  destruct (IsBloom e) eqn:Eb; simpl; [|done]. destruct (Bloom_Open _ _ _) as [f|]; [|done].
  intros _. exists f. by eexists.
Qed.

(** a stored Bloom filter has no false negatives.  After a BloomAdd that
    reports success, BloomTest holds for the item and for every item it held
    for before. *)
Theorem bloom_add_test now m k item mb kk v x m' :
  store_ok m -> live_at now x ->
  (forall e, view now m !! k = Some e -> bytes_ok (Value e)) ->
  BloomAdd now m k item mb kk v x = (true, m') ->
  (BloomTest now m' k item mb kk).1 = true /\
  forall y, (BloomTest now m k y mb kk).1 = true -> (BloomTest now m' k y mb kk).1 = true.
Proof.
  intros Hok Hl Hb E.
  destruct (bloomMutate_implements now m k mb kk v x (fun f => Bloom_Add f item) Hok Hl) as (Hr & Href & Hok').
  fold (BloomAdd now m k item mb kk v x) in Hr, Href, Hok'. rewrite E in Hr, Href, Hok'. simpl in Hr, Href, Hok'.
  destruct (spec_bloom_true _ _ _ _ _ _ _ _ (eq_sym Hr)) as (f & e & Ho & E2 & Hv & Ht & Hbl).
  rewrite E2 in Href. destruct (Bloom_Open_params _ _ _ _ Ho) as [Hm Hk].
  assert (Hf : filter_ok f).
  { eapply Bloom_Open_ok, Ho. unfold spec_blob. destruct (view now m !! k) as [e0|] eqn:Ev.
    - destruct (_ && _); [by apply Hb|apply Forall_replicate; unfold is_byte; lia].
    - apply Forall_replicate. unfold is_byte. lia. }
  assert (Hall : forall y, (BloomTest now m' k y mb kk).1 = Bloom_Test (Bloom_Add f item) y).
  { intros y. rewrite <- Hm, <- Hk.
    apply (bloom_write now (view now m) m' k y (Bloom_Add f item) e); auto using Bloom_Add_ok. }
  split; [rewrite Hall; by apply Bloom_Test_Add|]. intros y. rewrite BloomTest_read, Hall by done.
  destruct (spec_blob _ _ _) as [b|]; simpl in *; [|done]. rewrite Ho. by apply Bloom_Test_mono.
Qed.

Lemma bloom_add_test_witness :
  (BloomTest 5 (BloomAdd 5 (NewMemory 0 0) [98] [1; 2] 64 3 1 0).2 [98] [1; 2] 64 3).1 = true.
Proof.
  refine (proj1 (bloom_add_test 5 (NewMemory 0 0) [98] [1; 2] 64 3 1 0
    (BloomAdd 5 (NewMemory 0 0) [98] [1; 2] 64 3 1 0).2 _ _ _ _)).
  - apply NewMemory_ok.
  - by left.
  - intros e He. by vm_compute in He.
  - vm_compute. reflexivity.
Defined.

(** ** Streams *)

Lemma liveStream_read now m k :
  store_ok m ->
  (liveStreamLocked now m k).1 = spec_blob FlagStream (view now m) k ≫= DecodeSnapshot.
Proof.
  intros Hok. unfold liveStreamLocked.
  destruct (with_blob_read FlagStream now m k DecodeSnapshot stream_flag Hok) as [Hr _].
  destruct (with_blob FlagStream now m k DecodeSnapshot) as [r m']; simpl in *. subst r.
  destruct (spec_blob _ _ _) as [b|]; simpl; [|done]. by destruct (DecodeSnapshot b).
Qed.

(** XADD is an append to the log that XRANGE and XLEN read.  On success
    the log stored is the append of the log read before (the empty one for a
    free key), the id returned is the one minted, and it is strictly above
    every id minted before. *)
Theorem xadd_appends now nowMs m k payload v x maxValue autoTrim id m' :
  store_ok m -> live_at now x -> fits payload -> 0 <= nowMs <= MaxUint64 ->
  let lg := default Log_New (liveStreamLocked now m k).1 in
  log_ok lg -> LastSeq lg < MaxUint64 ->
  XAdd now nowMs m k payload v x maxValue autoTrim = ((id, true, false, false), m') ->
  exists lg', Append lg payload nowMs autoTrim = inl (id, lg') /\
    (liveStreamLocked now m' k).1 = Some lg' /\ log_ok lg' /\ id_lt (last_id lg) (last_id lg').
Proof.
  intros Hok Hl Hf Hms. cbv zeta. rewrite liveStream_read by done. intros Hlg Hseq E.
  destruct (upsert_read FlagStream now m k v x ([], false, false, false)
    (xaddCompute payload autoTrim maxValue nowMs) stream_flag Hok Hl) as [Hok' Hr].
  fold (XAdd now nowMs m k payload v x maxValue autoTrim) in Hok', Hr. rewrite E in Hok', Hr. simpl in Hok', Hr.
  destruct (upsert_accepts _ _ _ _); [|done]. unfold xaddCompute in Hr.
  assert (Hlog : match (match spec_blob FlagStream (view now m) k with
      | Some c => DecodeSnapshot c | None => Some Log_New end) with
      | Some lg => lg = default Log_New (spec_blob FlagStream (view now m) k ≫= DecodeSnapshot) | None => True end).
  { destruct (spec_blob _ _ _) as [b|]; simpl; [|done]. by destruct (DecodeSnapshot b). }
  destruct (match spec_blob _ _ _ with Some c => DecodeSnapshot c | None => Some Log_New end) as [lg|]; [|done].
  subst lg. set (lg := default _ _) in *.
  destruct (Append lg payload nowMs autoTrim) as [[id' lg']|err] eqn:Ea; [|by destruct err].
  destruct (over _ _); [done|]. destruct Hr as [[= <-] Hb].
  destruct (Append_ok lg payload nowMs autoTrim id lg') as (Hok2 & Hlt & _); [done..|].
  exists lg'. split_and!; [done| |done|done].
  rewrite liveStream_read, Hb by done. by apply DecodeSnapshot_Encode.
Qed.

Lemma xadd_appends_witness : exists lg',
  Append Log_New [1] 1700 0 = inl (FormatID 1700 0, lg') /\
  (liveStreamLocked 5 (XAdd 5 1700 (NewMemory 0 0) [115] [1] 1 0 0 0).2 [115]).1 = Some lg'.
Proof.
  destruct (xadd_appends 5 1700 (NewMemory 0 0) [115] [1] 1 0 0 0 (FormatID 1700 0)
    (XAdd 5 1700 (NewMemory 0 0) [115] [1] 1 0 0 0).2) as (lg' & H1 & H2 & _).
  - apply NewMemory_ok.
  - by left.
  - unfold fits. vm_compute. congruence.
  - unfold MaxUint64. lia.
  - apply Log_New_ok.
  - done.
  - vm_compute. reflexivity.
  - by exists lg'.
Defined.

(** ** Behaviours at the edges *)

Lemma view_expired t t' m k e :
  view t m !! k = Some e -> Expired e t' = true -> view t' m !! k = None.
Proof.
  rewrite !lookup_view. destruct (items m !! k) as [it|]; [|done].
  destruct (Expired (entry it) t); [done|]. intros [= <-].
  rewrite (Expired_ext _ (entry it)) by (by destruct (flush_item_meta k it) as (_ & -> & _)).
  by intros ->.
Qed.

(** a bitmap recreated over a tombstone inherits its expiry.  Setting a
    bit without a TTL over a live, older tombstone succeeds, but the bitmap
    vanishes when the tombstone would have expired; a counter recreated the
    same way stays. *)
Theorem recreate_expiry now m k e v later offset bit maxValue m1 delta :
  store_ok m -> view now m !! k = Some e -> IsTombstone e = true -> Version e < v ->
  ExpireAt e <> 0 -> ExpireAt e <= later -> offset_ok offset -> is_i64 delta ->
  BSet now m k offset bit v 0 maxValue = ((true, false), m1) ->
  let m2 := (CIncr now m k delta v 0).2 in
  (BGet now m1 k offset).1 = Some bit /\ (BGet later m1 k offset).1 = None /\
  (CGet now m2 k).1 = Some delta /\ (CGet later m2 k).1 = Some delta.
Proof.
  intros Hok Hv Ht Hver Hx Hlate Ho Hd E. cbv zeta.
  assert (Hl : live_at now 0) by (by left).
  pose proof (upsertLocked_implements now m k v 0 FlagBitmap (false, false)
    (bitmapCompute offset bit maxValue) bitmap_flag Hok Hl) as (Hr & Href & Hok1).
  unfold BSet in E. rewrite EncodedLen_ok in E by done. destruct (over maxValue (offset / 8 + 1)); [done|].
  rewrite E in Hr, Href, Hok1. revert Hr Href. unfold spec_upsert, bitmapCompute. cbv zeta. rewrite Hv, Ht.
  rewrite (proj2 (Z.leb_gt _ _) Hver). destruct (over maxValue _); [done|]. simpl. intros _ Href.
  pose proof (ref_pinned _ _ _ Href k _ (lookup_insert_eq _ _ _) eq_refl) as H1.
  destruct (CIncr_implements now m k delta v 0 Hok Hl) as (_ & Href2 & Hok2). revert Href2.
  set (m2 := (CIncr now m k delta v 0).2) in *. unfold spec_CIncr. rewrite Hv, Ht, (proj2 (Z.leb_gt _ _) Hver).
  simpl. intros Href2. pose proof (ref_pinned _ _ _ Href2 k _ (lookup_insert_eq _ _ _) eq_refl) as H2.
  unfold BGet. rewrite !(proj1 (with_blob_read FlagBitmap _ m1 k _ bitmap_flag Hok1)), !CGet_read by done.
  unfold spec_blob. rewrite H1, H2, (view_later _ later _ _ _ H2) by done.
  rewrite (view_expired _ later _ _ _ H1).
  2:{ unfold Expired. simpl. destruct (Z.eqb_spec (ExpireAt e) 0); [done|]. by apply Z.leb_le. }
  simpl. rewrite Counter_Decode_Encode, Bitmap_Get_Set, Z.eqb_refl by done. done.
Qed.

Definition wit_tomb : Memory := (DeleteIfVersion 10 (NewMemory 0 100) wit_key 5).2.

Lemma wit_tomb_ok : store_ok wit_tomb.
Proof. apply DeleteIfVersion_implements, NewMemory_ok. Qed.

Lemma recreate_expiry_witness :
  (BGet 20 (BSet 20 wit_tomb wit_key 3 true 6 0 0).2 wit_key 3).1 = Some true /\
  (BGet 110 (BSet 20 wit_tomb wit_key 3 true 6 0 0).2 wit_key 3).1 = None.
Proof.
  destruct (recreate_expiry 20 wit_tomb wit_key (mkEntry [] 5 110 FlagTombstone) 6 110 3 true 0
    (BSet 20 wit_tomb wit_key 3 true 6 0 0).2 1) as (H1 & H2 & _ & _).
  - apply wit_tomb_ok.
  - reflexivity.
  - reflexivity.
  - reflexivity.
  - done.
  - reflexivity.
  - split; [lia|unfold MaxInt64; vm_compute; congruence].
  - unfold is_i64, MinInt64, MaxInt64. lia.
  - vm_compute. reflexivity.
  - by split.
Defined.

(** an install whose blob does not decode still removes the older entry.
    SetInstall answers false, and the live value or tombstone it found at a
    lower version is gone. *)
Theorem install_bad_blob now m k e blob v x :
  store_ok m -> live_at now x -> bytes_ok blob ->
  view now m !! k = Some e -> Version e < v -> Set_DecodeSet blob = None ->
  (SetInstall now m k blob v x).1 = false /\ (Peek now (SetInstall now m k blob v x).2 k).1 = None.
Proof.
  intros Hok Hl Hb Hv Hlt Hd.
  destruct (SetInstall_implements now m k blob v x Hok Hl Hb) as (-> & Href & Hok'). revert Href.
  unfold spec_install, newer_than. rewrite Hv, (proj2 (Z.ltb_lt _ _) Hlt). simpl. rewrite Hd. simpl.
  intros Href. split; [done|]. destruct (Peek_view now _ k Hok') as (-> & _).
  destruct (view now (SetInstall now m k blob v x).2 !! k) as [e'|] eqn:Ev'; [|done].
  pose proof (lookup_weaken _ _ _ _ Ev' (ref_sub _ _ _ Href)) as H. by rewrite lookup_delete_eq in H.
Qed.

Lemma install_bad_blob_witness :
  (Peek 20 wit_tomb wit_key).1 = Some (mkEntry [] 5 110 FlagTombstone) /\
  (Peek 20 (SetInstall 20 wit_tomb wit_key [7] 6 0).2 wit_key).1 = None.
Proof.
  split; [reflexivity|].
  refine (proj2 (install_bad_blob 20 wit_tomb wit_key (mkEntry [] 5 110 FlagTombstone) [7] 6 0 _ _ _ _ _ _)).
  - apply wit_tomb_ok.
  - by left.
  - byte_tac.
  - reflexivity.
  - reflexivity.
  - vm_compute. reflexivity.
Defined.

Lemma PeekVersion_read now m k : store_ok m -> (PeekVersion now m k).1 = Version <$> view now m !! k.
Proof.
  intros Hok. unfold PeekVersion. destruct (items m !! k) as [it|] eqn:Ek; [|by rewrite view_missing].
  destruct (Expired (entry it) now) eqn:Ex; [by rewrite (view_dead _ _ _ it)|].
  rewrite (view_live _ _ _ it) by done. simpl. by rewrite flushed_version.
Qed.

(** a set add on a live set is not version-gated.  Whatever version the
    live set has, SetAdd applies and the stored version becomes the inbound
    one, lower or not. *)
Theorem set_add_version now m k e t item v x :
  store_ok m -> live_at now x -> fits item ->
  view now m !! k = Some e -> IsTombstone e = false -> IsSet e = true -> Set_DecodeSet (Value e) = Some t ->
  (SetAdd now m k item v x).1 = true /\ (PeekVersion now (SetAdd now m k item v x).2 k).1 = Some v.
Proof.
  intros Hok Hl Hf Hv Ht Hs Hd.
  destruct (mutateLocked_implements (T := SetT) now m k v x (fun t => Some (Set_Add t item)) Hok Hl) as (Hr & Href & Hok').
  { intros t0 t' ? [= <-]. by apply set_add_fits. }
  revert Hr Href. unfold spec_mutate. rewrite Hv, Ht. change (has_flag (kflag SetT) e) with (IsSet e).
  rewrite Hs. simpl. rewrite Hd. simpl. intros Hr Href. split; [done|].
  unfold SetAdd, setMutateLocked. rewrite PeekVersion_read by done.
  by rewrite (ref_pinned _ _ _ Href k _ (lookup_insert_eq _ _ _) eq_refl).
Qed.

Lemma set_add_version_witness :
  let m := (SetAdd 5 (NewMemory 0 0) [115] [1] 10 0).2 in
  (PeekVersion 5 m [115]).1 = Some 10 /\ (PeekVersion 5 (SetAdd 5 m [115] [2] 3 0).2 [115]).1 = Some 3.
Proof.
  cbv zeta. split; [reflexivity|].
  refine (proj2 (set_add_version 5 (SetAdd 5 (NewMemory 0 0) [115] [1] 10 0).2 [115]
    (mkEntry (Set_Encode {[ [1] ]}) 10 0 FlagSet) {[ [1] ]} [2] 3 0 _ _ _ _ _ _ _)).
  - apply (mutate_store_ok (T := SetT)); [apply NewMemory_ok|by left|].
    intros t t' ? [= <-]. apply set_add_fits; [vm_compute; congruence|done].
  - by left.
  - vm_compute. congruence.
  - vm_compute. reflexivity.
  - reflexivity.
  - reflexivity.
  - vm_compute. reflexivity.
Defined.

(** an accepted write may be gone at once.  With the byte budget taken by
    a pinned set, Set and AcceptIfNewer answer true for a plain value that fits
    the budget alone, yet the next Get misses: the value was its own eviction
    victim. *)
Theorem accepted_then_missing :
  let m := (SetAdd 1 (NewMemory 200 0) [115] (replicate 100 7) 1 0).2 in
  let e := mkEntry (replicate 60 0) 2 0 0 in
  (Store_Set 1 m [107] e).1 = true /\ (Get 1 (Store_Set 1 m [107] e).2 [107]).1 = None /\
  (AcceptIfNewer 1 m [107] e).1 = true /\ (Get 1 (AcceptIfNewer 1 m [107] e).2 [107]).1 = None.
Proof. vm_compute. split_and!; reflexivity. Qed.
