(* ===== verification/Ring.v ===== *)
(** * The consistent hash ring: internal/ring/ring.go

    Virtual nodes on a sorted circle of 64-bit hashes.  [Search] is
    sort.Search's binary search and the replica walk is the code's loop; the
    theorems relate both to the clockwise order of the circle: the owner is the
    successor of the key's hash, replicas are the next distinct peers, every
    node that knows the same peers agrees, and removing a peer moves only the
    keys it owned. *)
From S2P Require Import Prelude Wire Sketches.

Record Peer := mkPeer { peer_ID : bytes; peer_Addr : bytes }.

#[global] Instance Peer_eq_dec : EqDecision Peer.
Proof. solve_decision. Defined.

Record Ring := mkRing {
  vnodes : Z;
  rkeys : list Z;                (* sorted hashes *)
  hashToID : gmap Z bytes;
  rpeers : gmap bytes Peer;      (* id -> peer *)
  rgen : Z;                      (* uint64 *)
}.

Definition Ring_New (v : Z) : Ring := mkRing (if v <=? 0 then 64 else v) [] ∅ ∅ 0.

Definition Generation (r : Ring) : Z := rgen r.

(** hash/fnv's New64a over the bytes of the string. *)
Definition hashString (s : bytes) : Z := Hash64 s.

(** Twenty digits hold any int. *)
Fixpoint itoa_loop (fuel : nat) (i : Z) (acc : bytes) : bytes :=
  match fuel with
  | O => acc
  | S f => if 0 <? i then itoa_loop f (i / 10) (48 + i mod 10 :: acc) else acc
  end.

Definition itoa (i : Z) : bytes := if i =? 0 then [48] else itoa_loop 20 i [].

(** hashString(p.ID + "#" + itoa(i)) for i < vnodes *)
Definition vnode_hashes (v : Z) (id : bytes) : list Z :=
  map (fun i => hashString (id ++ 35 :: itoa i)) (seqZ 0 v).

(** The loop body over the peers: (peers, hashToID, keys). *)
Definition addPeer (v : Z) (st : gmap bytes Peer * gmap Z bytes * list Z) (p : Peer)
    : gmap bytes Peer * gmap Z bytes * list Z :=
  let '(ps, h2i, ks) := st in
  if bool_decide (peer_ID p = []) then st
  else
    let hs := vnode_hashes v (peer_ID p) in
    (<[peer_ID p := p]> ps, fold_left (fun m h => <[h := peer_ID p]> m) hs h2i, ks ++ hs).

Definition SetPeers (r : Ring) (peers : list Peer) : Ring :=
  let '(ps, h2i, ks) := fold_left (addPeer (vnodes r)) peers (∅, ∅, []) in
  mkRing (vnodes r) (merge_sort Z.le ks) h2i ps (rgen r +u 1).

(** sort.Search: the loop keeps f(i-1) = false and f(j) = true; the interval
    shrinks in every round, so [n] rounds are enough. *)
Fixpoint search_loop (fuel : nat) (f : Z -> bool) (i j : Z) : Z :=
  match fuel with
  | O => i
  | S fuel =>
      if i <? j then
        let h := (i + j) / 2 in
        if f h then search_loop fuel f i h else search_loop fuel f (h + 1) j
      else i
  end.

Definition Search (n : Z) (f : Z -> bool) : Z := search_loop (Z.to_nat n) f 0 n.

Definition key_at (r : Ring) (i : Z) : Z := default 0 (rkeys r !! Z.to_nat i).

(** The position the walk starts from. *)
Definition start_of (r : Ring) (key : bytes) : Z :=
  let i := Search (len (rkeys r)) (fun i => hashString key <=? key_at r i) in
  if i =? len (rkeys r) then 0 else i.

Definition id_of (r : Ring) (h : Z) : bytes := default [] (hashToID r !! h).

Definition Owner (r : Ring) (key : bytes) : option Peer :=
  if len (rkeys r) =? 0 then None
  else rpeers r !! id_of r (key_at r (start_of r key)).

(** Peers and PeersExcept range over a Go map: any enumeration of it. *)
Definition Peers (r : Ring) : list Peer := (map_to_list (rpeers r)).*2.
Definition PeersExcept (r : Ring) (id : bytes) : list Peer :=
  filter (fun p => peer_ID p <> id) (Peers r).

Definition peer_of (r : Ring) (id : bytes) : Peer := default (mkPeer [] []) (rpeers r !! id).

(** The walk of replicasLocked: [fuel] is len(keys) - walked. *)
Fixpoint replica_walk (fuel : nat) (r : Ring) (n i : Z) (seen : gset bytes) (out : list Peer)
    : list Peer :=
  match fuel with
  | O => out
  | S fuel =>
      if len out <? n then
        let id := id_of r (key_at r i) in
        let i := if i + 1 =? len (rkeys r) then 0 else i + 1 in
        if bool_decide (id ∈ seen) then replica_walk fuel r n i seen out
        else replica_walk fuel r n i ({[id]} ∪ seen) (out ++ [peer_of r id])
      else out
  end.

Definition replicasLocked (r : Ring) (key : bytes) (n : Z) : list Peer :=
  if (n <=? 0) || (len (rkeys r) =? 0) || (Z.of_nat (size (rpeers r)) =? 0) then []
  else
    let n := if Z.of_nat (size (rpeers r)) <? n then Z.of_nat (size (rpeers r)) else n in
    replica_walk (length (rkeys r)) r n (start_of r key) ∅ [].

Definition Replicas (r : Ring) (key : bytes) (n : Z) : list Peer := replicasLocked r key n.

Definition ReplicasExcept (r : Ring) (key id : bytes) (n : Z) : list Peer :=
  let reps := replicasLocked r key n in
  if bool_decide (id = []) || (len reps =? 0) then reps
  else filter (fun p => peer_ID p <> id) reps.

Definition IsReplica (r : Ring) (key id : bytes) (n : Z) : bool :=
  if bool_decide (id = []) || (n <=? 0) || (len (rkeys r) =? 0) then false
  else if Z.of_nat (size (rpeers r)) <=? n then bool_decide (is_Some (rpeers r !! id))
  else existsb (fun p => bool_decide (peer_ID p = id)) (replicasLocked r key n).

Definition Ring_Len (r : Ring) : Z := Z.of_nat (size (rpeers r)).

(** ** Binary search *)

Lemma search_loop_spec fuel f i j :
  0 <= i <= j -> j - i <= Z.of_nat fuel ->
  (forall x y, i <= x <= y -> y < j -> f x = true -> f y = true) ->
  let k := search_loop fuel f i j in
  i <= k <= j /\ (forall x, i <= x < k -> f x = false) /\ (k < j -> f k = true).
Proof.
  revert i j. induction fuel as [|fuel IH]; intros i j Hij Hf Hmono; cbn [search_loop]; cbv zeta.
  { split_and!; intros; lia. }
  destruct (Z.ltb_spec i j); [|split_and!; intros; lia].
  assert (Hh : i <= (i + j) / 2 < j) by (split; [apply Z.div_le_lower_bound|apply Z.div_lt_upper_bound]; lia).
  destruct (f ((i + j) / 2)) eqn:E.
  - destruct (IH i ((i + j) / 2)) as (H1 & H2 & H3); [lia|lia|intros; apply (Hmono x); try done; lia|].
    split_and!; [lia|lia|done|]. intros Hk.
    destruct (Z.eq_dec (search_loop fuel f i ((i + j) / 2)) ((i + j) / 2)) as [->|]; [done|]. apply H3. lia.
  - destruct (IH ((i + j) / 2 + 1) j) as (H1 & H2 & H3); [lia|lia|intros; apply (Hmono x); try done; lia|].
    split_and!; [lia|lia| |done]. intros x Hx.
    destruct (Z.ltb_spec ((i + j) / 2) x); [apply H2; lia|].
    destruct (f x) eqn:Ex; [|done]. rewrite (Hmono x ((i + j) / 2)) in E; [done|lia|lia|done].
Qed.

Lemma Search_spec n f :
  0 <= n -> (forall x y, 0 <= x <= y -> y < n -> f x = true -> f y = true) ->
  0 <= Search n f <= n /\ (forall x, 0 <= x < Search n f -> f x = false) /\
  (Search n f < n -> f (Search n f) = true).
Proof. intros Hn Hm. apply search_loop_spec; [lia|lia|done]. Qed.

(** ** The circle *)

Lemma len_zero {A} (l : list A) : len l = 0 -> l = [].
Proof. destruct l; [done|]. unfold len. simpl. lia. Qed.

Record ring_ok (r : Ring) : Prop := {
  ro_sorted : StronglySorted Z.le (rkeys r);
  ro_keys : forall h, h ∈ rkeys r <-> is_Some (hashToID r !! h);
  ro_peer : forall h id, hashToID r !! h = Some id -> is_Some (rpeers r !! id);
  ro_self : forall id p, rpeers r !! id = Some p -> peer_ID p = id /\ id <> [];
}.

(** The hashes in clockwise order from [h]. *)
Definition clockwise (r : Ring) (h : Z) : list Z :=
  filter (fun x => h <= x) (rkeys r) ++ filter (fun x => x < h) (rkeys r).

(** The peer ids met on the way, with repetitions. *)
Definition successors (r : Ring) (key : bytes) : list bytes :=
  map (id_of r) (clockwise r (hashString key)).

(** First occurrences outside [seen], in order. *)
Fixpoint nub (seen : gset bytes) (l : list bytes) : list bytes :=
  match l with
  | [] => []
  | x :: l => if bool_decide (x ∈ seen) then nub seen l else x :: nub ({[x]} ∪ seen) l
  end.

Lemma sorted_split (l : list Z) h i :
  StronglySorted Z.le l -> 0 <= i <= len l ->
  (forall x, 0 <= x < i -> (h <=? default 0 (l !! Z.to_nat x)) = false) ->
  (i < len l -> (h <=? default 0 (l !! Z.to_nat i)) = true) ->
  filter (fun x => h <= x) l = drop (Z.to_nat i) l /\ filter (fun x => x < h) l = take (Z.to_nat i) l.
Proof.
  intros Hs. revert i. induction Hs as [|a l Hs IH Ha]; intros i Hi Hlow Hup.
  { change (len []) with 0 in Hi. by replace i with 0 by lia. }
  rewrite len_cons in *. rewrite !filter_cons. destruct (Z.eq_dec i 0) as [->|Hne].
  - specialize (Hup ltac:(pose proof (len_nonneg l); lia)). simpl in Hup. zprop.
    rewrite decide_True, decide_False by lia. simpl.
    assert (Hall : Forall (fun x => h <= x) l) by (eapply Forall_impl; [done|simpl; lia]).
    split; [f_equal; by apply filter_all|].
    apply filter_none. eapply Forall_impl; [done|simpl; lia].
  - assert (Hn : Z.to_nat i = S (Z.to_nat (i - 1))) by lia. rewrite Hn. cbn [take drop].
    pose proof (Hlow 0 ltac:(lia)) as H0. simpl in H0. zprop.
    rewrite decide_False, decide_True by lia.
    destruct (IH (i - 1)) as [-> ->]; [lia| | |done].
    + intros x Hx. specialize (Hlow (x + 1) ltac:(lia)).
      replace (Z.to_nat (x + 1)) with (S (Z.to_nat x)) in Hlow by lia. done.
    + intros Hx. specialize (Hup ltac:(lia)). by rewrite Hn in Hup.
Qed.

Lemma sorted_lookup_le (l : list Z) i j x y :
  StronglySorted Z.le l -> (i <= j)%nat -> l !! i = Some x -> l !! j = Some y -> x <= y.
Proof.
  intros Hs. revert i j. induction Hs as [|a l Hs IH Ha]; intros i j Hij Hi Hj; [done|].
  destruct i as [|i], j as [|j]; simpl in *; try lia; simplify_eq; try lia.
  - rewrite Forall_forall in Ha. apply Ha. apply list_elem_of_lookup. eauto.
  - eapply IH; [|done|done]. lia.
Qed.

(** The start position splits the sorted keys at the key's hash. *)
Lemma start_of_clockwise r key :
  StronglySorted Z.le (rkeys r) -> rkeys r <> [] ->
  let i := start_of r key in
  0 <= i < len (rkeys r) /\
  drop (Z.to_nat i) (rkeys r) ++ take (Z.to_nat i) (rkeys r) = clockwise r (hashString key).
Proof.
  intros Hs Hne. cbv zeta. unfold start_of, clockwise. set (h := hashString key).
  set (f := fun i => h <=? key_at r i). pose proof (len_pos _ Hne) as Hpos.
  destruct (Search_spec (len (rkeys r)) f) as (H1 & H2 & H3); [lia| |].
  { intros x y Hx Hy Hfx. unfold f, key_at in *. zprop. apply Z.leb_le.
    destruct (lookup_lt_is_Some_2 (rkeys r) (Z.to_nat x)) as [a Ea]; [unfold len in *; lia|].
    destruct (lookup_lt_is_Some_2 (rkeys r) (Z.to_nat y)) as [b Eb]; [unfold len in *; lia|].
    rewrite Ea in Hfx. rewrite Eb. simpl in *.
    pose proof (sorted_lookup_le _ (Z.to_nat x) (Z.to_nat y) a b Hs ltac:(lia) Ea Eb). lia. }
  destruct (sorted_split (rkeys r) h (Search (len (rkeys r)) f) Hs H1 H2 H3) as [E1 E2].
  rewrite E1, E2. destruct (Z.eqb_spec (Search (len (rkeys r)) f) (len (rkeys r))) as [E|E].
  - split; [lia|]. rewrite E. simpl. rewrite app_nil_r. unfold len. rewrite Nat2Z.id.
    rewrite drop_all, take_ge by done. done.
  - split; [lia|done].
Qed.

Lemma key_at_drop r i :
  0 <= i < len (rkeys r) ->
  drop (Z.to_nat i) (rkeys r) = key_at r i :: drop (Z.to_nat (i + 1)) (rkeys r).
Proof.
  intros Hi. destruct (lookup_lt_is_Some_2 (rkeys r) (Z.to_nat i)) as [a Ea]; [unfold len in *; lia|].
  unfold key_at. rewrite Ea. rewrite (drop_S _ a) by done. simpl. do 2 f_equal. lia.
Qed.

(** The walk visits the keys clockwise from [i]. *)
Lemma replica_walk_spec fuel r n i seen out :
  0 <= i < len (rkeys r) -> Z.of_nat fuel <= len (rkeys r) ->
  replica_walk fuel r n i seen out =
  out ++ map (peer_of r) (take (Z.to_nat (n - len out))
    (nub seen (map (id_of r) (take fuel (drop (Z.to_nat i) (rkeys r) ++ rkeys r))))).
Proof.
  revert i seen out. induction fuel as [|fuel IH]; intros i seen out Hi Hf; cbn [replica_walk].
  { simpl. by rewrite take_nil, app_nil_r. }
  destruct (Z.ltb_spec (len out) n) as [Hn|Hn].
  2:{ replace (Z.to_nat (n - len out)) with 0%nat by lia. simpl. by rewrite app_nil_r. }
  set (i' := if i + 1 =? len (rkeys r) then 0 else i + 1).
  assert (Hi' : 0 <= i' < len (rkeys r)) by (unfold i'; destruct (Z.eqb_spec (i + 1) (len (rkeys r))); lia).
  assert (Hd : take fuel (drop (Z.to_nat (i + 1)) (rkeys r) ++ rkeys r)
               = take fuel (drop (Z.to_nat i') (rkeys r) ++ rkeys r)).
  { unfold i'. destruct (Z.eqb_spec (i + 1) (len (rkeys r))) as [->|]; [|done].
    unfold len. rewrite Nat2Z.id, drop_all. change (Z.to_nat 0) with 0%nat. rewrite drop_0.
    cbn [app]. rewrite take_app_le by (unfold len in *; lia). done. }
  rewrite key_at_drop by done. cbn [app take map nub]. cbv zeta. rewrite Hd.
  case_bool_decide as Hs.
  - apply IH; [done|lia].
  - rewrite IH by (done || lia). rewrite len_app. change (len [peer_of r (id_of r (key_at r i))]) with 1.
    replace (Z.to_nat (n - len out)) with (S (Z.to_nat (n - (len out + 1)))) by lia.
    simpl. by rewrite <- (assoc_L (++)).
Qed.

Lemma rot_clockwise (l : list Z) i :
  (i <= length l)%nat -> take (length l) (drop i l ++ l) = drop i l ++ take i l.
Proof.
  intros Hi. rewrite take_app, length_drop. rewrite take_ge by (rewrite length_drop; lia).
  by replace (length l - (length l - i))%nat with i by lia.
Qed.

(** Replicas are the first [n] distinct successors of the key. *)
Lemma Replicas_spec r key n :
  ring_ok r ->
  Replicas r key n = map (peer_of r)
    (take (Z.to_nat (Z.min n (Ring_Len r))) (nub ∅ (successors r key))).
Proof.
  intros Hok. unfold Replicas, replicasLocked, successors, Ring_Len.
  destruct (Z.leb_spec n 0); [by replace (Z.to_nat (Z.min n _)) with 0%nat by lia|]. simpl.
  destruct (Z.eqb_spec (len (rkeys r)) 0) as [E|E]; simpl.
  { unfold clockwise. rewrite (len_zero _ E).
    simpl. by rewrite take_nil. }
  destruct (Z.eqb_spec (Z.of_nat (size (rpeers r))) 0) as [E0|E0].
  { by replace (Z.to_nat (Z.min n _)) with 0%nat by lia. }
  assert (Hne : rkeys r <> []) by (intros H0; by rewrite H0 in E).
  destruct (start_of_clockwise r key (ro_sorted _ Hok) Hne) as [Hi Hc].
  rewrite replica_walk_spec by (done || unfold len; lia). rewrite rot_clockwise by (unfold len in *; lia).
  rewrite Hc. simpl. do 2 f_equal. change (len []) with 0.
  destruct (Z.ltb_spec (Z.of_nat (size (rpeers r))) n); lia.
Qed.

Lemma Owner_spec r key :
  ring_ok r -> Owner r key = head (successors r key) ≫= (fun id => rpeers r !! id).
Proof.
  intros Hok. unfold Owner, successors. destruct (Z.eqb_spec (len (rkeys r)) 0) as [E|E].
  { unfold clockwise. rewrite (len_zero _ E).
    done. }
  assert (Hne : rkeys r <> []) by (intros H0; by rewrite H0 in E).
  destruct (start_of_clockwise r key (ro_sorted _ Hok) Hne) as [Hi <-].
  by rewrite key_at_drop.
Qed.

(** ** SetPeers *)

Lemma insert_all_lookup (hs : list Z) (id : bytes) (m : gmap Z bytes) h :
  fold_left (fun m h => <[h := id]> m) hs m !! h = if bool_decide (h ∈ hs) then Some id else m !! h.
Proof.
  revert m. induction hs as [|x hs IH]; intros m; cbn [fold_left]; [done|].
  rewrite IH. destruct (decide (x = h)) as [->|Hne].
  - rewrite (bool_decide_true (h ∈ h :: hs)) by (by left). rewrite lookup_insert_eq. by case_match.
  - rewrite lookup_insert_ne by done. repeat case_bool_decide; set_solver.
Qed.

(** A peer list as a cluster uses it: ids are non-empty and distinct, and no
    two virtual nodes collide. *)
Record clean (v : Z) (ps : list Peer) : Prop := {
  cl_ids : NoDup (map peer_ID ps);
  cl_named : Forall (fun p => peer_ID p <> []) ps;
  cl_hashes : NoDup (concat (map (fun p => vnode_hashes v (peer_ID p)) ps));
}.

Definition build (v : Z) (ps : list Peer) : gmap bytes Peer * gmap Z bytes * list Z :=
  fold_left (addPeer v) ps (∅, ∅, []).

Lemma build_snoc v ps p : build v (ps ++ [p]) = addPeer v (build v ps) p.
Proof. unfold build. by rewrite fold_left_app. Qed.

Lemma build_inv v ps :
  let '(m, h2i, ks) := build v ps in
  (forall h, h ∈ ks <-> is_Some (h2i !! h)) /\
  (forall h id, h2i !! h = Some id -> is_Some (m !! id)) /\
  (forall id p, m !! id = Some p -> peer_ID p = id /\ id <> []).
Proof.
  induction ps as [|p ps IH] using rev_ind.
  { cbn. split_and!; intros *; rewrite ?lookup_empty; try done.
    split; [by intros ?%elem_of_nil|by intros [? ?]]. }
  rewrite build_snoc. destruct (build v ps) as [[m h2i] ks]. destruct IH as (H1 & H2 & H3).
  unfold addPeer. case_bool_decide as Hp; [done|]. split_and!.
  - intros h. rewrite elem_of_app, insert_all_lookup. case_bool_decide; [naive_solver|].
    rewrite <- H1. tauto.
  - intros h id. rewrite insert_all_lookup, lookup_insert_is_Some'.
    case_bool_decide; [intros [= <-]; by left|]. intros Hh. right. by eapply H2.
  - intros id q. rewrite lookup_insert_Some. intros [[<- <-]|[_ Hq]]; [done|by apply H3].
Qed.

Lemma SetPeers_ok r ps : ring_ok (SetPeers r ps).
Proof.
  unfold SetPeers. pose proof (build_inv (vnodes r) ps) as H. fold (build (vnodes r) ps).
  destruct (build (vnodes r) ps) as [[m h2i] ks]. destruct H as (H1 & H2 & H3).
  split; simpl; [|intros h; by rewrite merge_sort_Permutation|done|done].
  apply Sorted_StronglySorted; [|apply (Sorted_merge_sort Z.le)]. intros a b c. lia.
Qed.

(** What a clean peer list builds, independent of its order. *)
Lemma build_clean v ps :
  clean v ps ->
  let '(m, h2i, ks) := build v ps in
  ks = concat (map (fun p => vnode_hashes v (peer_ID p)) ps) /\
  (forall h id, h2i !! h = Some id <-> exists p, p ∈ ps /\ peer_ID p = id /\ h ∈ vnode_hashes v id) /\
  (forall id p, m !! id = Some p <-> p ∈ ps /\ peer_ID p = id).
Proof.
  induction ps as [|p ps IH] using rev_ind; intros [Hi Hn Hh].
  { cbn. split_and!; [done| |]; intros *; rewrite lookup_empty; (split; [done|]).
    - by intros (? & ?%elem_of_nil & _).
    - by intros [?%elem_of_nil _]. }
  rewrite map_app in Hi, Hh. rewrite concat_app in Hh. simpl in Hi, Hh. rewrite app_nil_r in Hh.
  apply NoDup_app in Hi as (Hi & Hid & _). apply NoDup_app in Hh as (Hh & Hdis & _).
  apply Forall_app in Hn as [Hn [Hp _]%Forall_cons].
  rewrite build_snoc. specialize (IH (Build_clean v ps Hi Hn Hh)).
  destruct (build v ps) as [[m h2i] ks]. destruct IH as (-> & H2 & H3).
  assert (Hnew : forall q, q ∈ ps -> peer_ID q <> peer_ID p).
  { intros q Hq E. apply (Hid (peer_ID q)); [|rewrite E; by apply list_elem_of_singleton].
    apply list_elem_of_fmap. eauto. }
  unfold addPeer. case_bool_decide; [done|]. split_and!.
  - rewrite map_app, concat_app. simpl. by rewrite app_nil_r.
  - intros h id. rewrite insert_all_lookup. case_bool_decide as Hin.
    + split; [intros [= <-]; exists p; set_solver|]. intros (q & Hq & <- & Hqh).
      apply elem_of_app in Hq as [Hq| ->%list_elem_of_singleton]; [|done]. exfalso.
      apply (Hdis h); [|done]. apply list_elem_of_In, in_concat. exists (vnode_hashes v (peer_ID q)).
      split; [apply in_map_iff; exists q; split; [done|by apply list_elem_of_In]|by apply list_elem_of_In].
    + rewrite H2. split; intros (q & Hq & <- & Hqh); exists q; [set_solver|].
      apply elem_of_app in Hq as [Hq| ->%list_elem_of_singleton]; [done|]. done.
  - intros id q. rewrite lookup_insert_Some, H3, elem_of_app, list_elem_of_singleton. split.
    + intros [[<- <-]|[_ [Hq Hid']]]; auto.
    + intros [[Hq| ->] <-]; [|by left]. right. split; [|done]. intros E. by apply (Hnew q).
Qed.

(** ** Distinct successors *)

Lemma nub_elem seen l x : x ∈ nub seen l <-> x ∈ l /\ x ∉ seen.
Proof.
  revert seen. induction l as [|y l IH]; intros seen; cbn [nub]; [set_solver|].
  case_bool_decide; [rewrite IH; set_solver|]. rewrite elem_of_cons, IH.
  destruct (decide (x = y)) as [->|]; set_solver.
Qed.

Lemma nub_NoDup seen l : NoDup (nub seen l).
Proof.
  revert seen. induction l as [|y l IH]; intros seen; cbn [nub]; [constructor|].
  case_bool_decide; [done|]. constructor; [rewrite nub_elem; set_solver|done].
Qed.

Lemma nub_filter (P : bytes -> Prop) `{!forall x, Decision (P x)} seen l :
  nub seen (filter P l) = filter P (nub seen l).
Proof.
  revert seen. induction l as [|y l IH]; intros seen; [done|]. rewrite filter_cons.
  cbn [nub]. destruct (decide (P y)) as [Hy|Hy]; cbn [nub]; case_bool_decide; rewrite ?filter_cons.
  - done.
  - by rewrite decide_True, IH.
  - done.
  - rewrite decide_False by done. rewrite <- IH.
    (* y is dropped by the filter, so marking it seen changes nothing *)
    assert (Hs : forall s1 s2 l', (forall x, P x -> x ∈ s1 <-> x ∈ s2) ->
      nub s1 (filter P l') = nub s2 (filter P l')).
    { clear. intros s1 s2 l'. revert s1 s2. induction l' as [|z l' IH]; intros s1 s2 Hs; [done|].
      rewrite filter_cons. destruct (decide (P z)) as [Hz|]; [|by apply IH]. cbn [nub].
      rewrite (bool_decide_ext _ _ (Hs z Hz)). case_bool_decide; [by apply IH|]. f_equal. apply IH.
      intros x Hx. specialize (Hs x Hx). set_solver. }
    apply Hs. intros x Hx. set_solver.
Qed.

Lemma NoDup_filter_len (l : list bytes) x :
  NoDup l -> (length l <= S (length (filter (fun y => y <> x) l)))%nat.
Proof.
  induction 1 as [|a l Ha Hl IH]; [simpl; lia|]. rewrite filter_cons. case_decide as D; simpl; [lia|].
  destruct (decide (a = x)) as [->|]; [|tauto]. rewrite filter_all; [lia|].
  apply Forall_forall. intros y Hy ->. done.
Qed.

Lemma take_filter_ne (l : list bytes) x n :
  x ∉ take n l -> (n < length l)%nat \/ x ∉ l ->
  take n (filter (fun y => y <> x) l) = take n l.
Proof.
  revert n. induction l as [|a l IH]; intros n Hx Hl; [done|]. rewrite filter_cons.
  destruct n as [|n]; [done|]. cbn [take] in Hx. apply not_elem_of_cons in Hx as [Hax Hx].
  rewrite decide_True by congruence. cbn [take]. f_equal. apply IH; [done|].
  destruct Hl as [Hl|Hl]; [left; simpl in Hl; lia|right; set_solver].
Qed.

Lemma clockwise_perm r h : clockwise r h ≡ₚ rkeys r.
Proof.
  unfold clockwise. induction (rkeys r) as [|a l IH]; [done|]. rewrite !filter_cons.
  destruct (decide (h <= a)), (decide (a < h)); try lia; simpl.
  - by rewrite IH.
  - rewrite <- Permutation_middle. by rewrite IH.
Qed.

(** Every successor is a known peer. *)
Lemma successors_known r key id :
  ring_ok r -> id ∈ successors r key -> exists p, rpeers r !! id = Some p /\ peer_ID p = id.
Proof.
  intros Hok (h & -> & Hh)%list_elem_of_fmap. rewrite clockwise_perm in Hh.
  apply (ro_keys _ Hok) in Hh as [id Hid]. unfold id_of. rewrite Hid. simpl.
  destruct (ro_peer _ Hok h id Hid) as [p Hp]. exists p. split; [done|]. by apply (ro_self _ Hok id p).
Qed.

Lemma replica_ids r key n :
  ring_ok r ->
  map peer_ID (Replicas r key n) = take (Z.to_nat (Z.min n (Ring_Len r))) (nub ∅ (successors r key)).
Proof.
  intros Hok. rewrite Replicas_spec by done. rewrite map_map.
  rewrite <- (map_id (take _ _)) at 2. apply map_ext_in. intros id Hid%list_elem_of_In.
  assert (Hs : id ∈ successors r key).
  { apply elem_of_take in Hid as (i & Hi & _). apply list_elem_of_lookup_2 in Hi. by apply nub_elem in Hi as [? _]. }
  destruct (successors_known r key id Hok Hs) as (p & Hp & Hpid). unfold peer_of. by rewrite Hp.
Qed.

(** Every peer with a virtual node of its own is some key's successor. *)
Lemma nub_len r key : ring_ok r -> (length (nub ∅ (successors r key)) <= size (rpeers r))%nat.
Proof.
  intros Hok. rewrite <- size_dom, <- (size_list_to_set (C := gset bytes)) by apply nub_NoDup.
  apply subseteq_size. intros id. rewrite elem_of_list_to_set, nub_elem. intros [Hid _].
  destruct (successors_known r key id Hok Hid) as (p & Hp & _). apply elem_of_dom. eauto.
Qed.

(** The clockwise successor of [h] among [ks]: the least hash at or above it,
    or the least of all when none is. *)
Definition is_successor (ks : list Z) (h x : Z) : Prop :=
  x ∈ ks /\ ((h <= x /\ forall y, y ∈ ks -> h <= y -> x <= y) \/
             ((forall y, y ∈ ks -> y < h) /\ forall y, y ∈ ks -> x <= y)).

Lemma sorted_head (l : list Z) a l' (P : Z -> Prop) `{!forall x, Decision (P x)} :
  StronglySorted Z.le l -> filter P l = a :: l' -> a ∈ l /\ P a /\ forall y, y ∈ l -> P y -> a <= y.
Proof.
  intros Hs E. assert (Ha : a ∈ filter P l) by (rewrite E; by left).
  apply list_elem_of_filter in Ha as [HPa Ha]. split_and!; [done|done|]. intros y Hy HPy.
  assert (Hf : StronglySorted Z.le (filter P l)) by (by apply StronglySorted_filter).
  rewrite E in Hf. apply StronglySorted_inv in Hf as [_ Hf]. assert (Hyf : y ∈ a :: l') by (rewrite <- E; by apply list_elem_of_filter).
  apply elem_of_cons in Hyf as [->|Hyf]; [lia|]. by apply (proj1 (Forall_forall _ _) Hf).
Qed.

Lemma clockwise_head r h x l :
  StronglySorted Z.le (rkeys r) -> clockwise r h = x :: l -> is_successor (rkeys r) h x.
Proof.
  intros Hs. unfold clockwise, is_successor. destruct (filter (fun y => h <= y) (rkeys r)) as [|a l'] eqn:E.
  - cbn [app]. intros E'. destruct (sorted_head _ _ _ _ Hs E') as (H1 & H2 & H3). split; [done|]. right.
    assert (Hall : forall y, y ∈ rkeys r -> y < h).
    { intros y Hy. apply Z.lt_nge. intros Hle. eapply filter_nil_not_elem_of; [exact E|exact Hle|exact Hy]. }
    split; [done|]. intros y Hy. apply H3; auto.
  - intros [= <- _]. destruct (sorted_head _ _ _ _ Hs E) as (H1 & H2 & H3). split; [done|]. left. auto.
Qed.

Lemma ring_owner_head r key :
  ring_ok r -> rkeys r <> [] ->
  exists id l p, successors r key = id :: l /\ rpeers r !! id = Some p.
Proof.
  intros Hok Hne. unfold successors. destruct (clockwise r (hashString key)) as [|h l] eqn:E.
  { pose proof (clockwise_perm r (hashString key)) as Hp. rewrite E in Hp. by apply Permutation_nil_l in Hp. }
  assert (Hin : id_of r h ∈ successors r key) by (unfold successors; rewrite E; by left).
  destruct (successors_known r key _ Hok Hin) as (p & Hp & _). simpl. eauto.
Qed.

(** C11: the owner is the clockwise successor.  After SetPeers, a ring with at
    least one virtual node has an owner for every key: the peer whose virtual
    node has the least hash at or above the key's, wrapping around the end of
    the circle.  The binary search over the sorted hashes finds it. *)
Theorem ring_owner r0 ps key :
  let r := SetPeers r0 ps in
  rkeys r <> [] ->
  exists p h, Owner r key = Some p /\ hashToID r !! h = Some (peer_ID p) /\
    is_successor (rkeys r) (hashString key) h.
Proof.
  cbv zeta. pose proof (SetPeers_ok r0 ps) as Hok. set (r := SetPeers r0 ps) in *. intros Hne.
  rewrite Owner_spec by done. unfold successors.
  destruct (clockwise r (hashString key)) as [|h l] eqn:E.
  { pose proof (clockwise_perm r (hashString key)) as Hp. rewrite E in Hp.
    by apply Permutation_nil_l in Hp. }
  pose proof (clockwise_head r _ _ _ (ro_sorted _ Hok) E) as Hs.
  destruct (proj1 (ro_keys _ Hok h) (proj1 Hs)) as [id Hid]. simpl. unfold id_of. rewrite Hid. simpl.
  destruct (ro_peer _ Hok h id Hid) as [p Hp]. exists p, h.
  by rewrite (proj1 (ro_self _ Hok id p Hp)).
Qed.

Definition wit_ring : Ring :=
  SetPeers (Ring_New 2) [mkPeer [97] [1]; mkPeer [98] [2]; mkPeer [99] [3]].

Lemma ring_owner_witness : exists p h,
  Owner wit_ring [107] = Some p /\ hashToID wit_ring !! h = Some (peer_ID p) /\
  is_successor (rkeys wit_ring) (hashString [107]) h.
Proof. apply (ring_owner (Ring_New 2) [mkPeer [97] [1]; mkPeer [98] [2]; mkPeer [99] [3]] [107]). by vm_compute. Defined.

(** ** Clean clusters *)

Definition raw_hashes (v : Z) (ps : list Peer) : list Z :=
  concat (map (fun p => vnode_hashes v (peer_ID p)) ps).

Lemma elem_of_raw v ps h : h ∈ raw_hashes v ps <-> exists p, p ∈ ps /\ h ∈ vnode_hashes v (peer_ID p).
Proof.
  unfold raw_hashes. rewrite list_elem_of_In, in_concat. setoid_rewrite in_map_iff. split.
  - intros (l & (p & <- & Hp) & Hh). exists p. by rewrite !list_elem_of_In.
  - intros (p & Hp & Hh). apply list_elem_of_In in Hp, Hh. eauto.
Qed.

Lemma SetPeers_clean r ps :
  clean (vnodes r) ps ->
  let r' := SetPeers r ps in
  rkeys r' = merge_sort Z.le (raw_hashes (vnodes r) ps) /\
  (forall h id, hashToID r' !! h = Some id <->
     exists p, p ∈ ps /\ peer_ID p = id /\ h ∈ vnode_hashes (vnodes r) id) /\
  (forall id p, rpeers r' !! id = Some p <-> p ∈ ps /\ peer_ID p = id).
Proof.
  intros Hc. cbv zeta. unfold SetPeers. pose proof (build_clean (vnodes r) ps Hc) as H.
  fold (build (vnodes r) ps). destruct (build (vnodes r) ps) as [[m h2i] ks].
  destruct H as (-> & H2 & H3). done.
Qed.

Lemma clean_perm v ps ps' : ps ≡ₚ ps' -> clean v ps -> clean v ps'.
Proof.
  intros Hp [H1 H2 H3]. split; [by rewrite <- Hp|by rewrite <- Hp|].
  unfold raw_hashes in *. by rewrite <- Hp.
Qed.

Lemma sort_unique (l l' : list Z) : l ≡ₚ l' -> merge_sort Z.le l = merge_sort Z.le l'.
Proof.
  intros Hp. apply (Sorted_unique Z.le); try apply (Sorted_merge_sort Z.le).
  by rewrite !merge_sort_Permutation.
Qed.

Lemma SetPeers_perm r r' ps ps' :
  vnodes r = vnodes r' -> clean (vnodes r) ps -> ps ≡ₚ ps' ->
  let a := SetPeers r ps in let b := SetPeers r' ps' in
  rkeys a = rkeys b /\ hashToID a = hashToID b /\ rpeers a = rpeers b.
Proof.
  intros Hv Hc Hp. cbv zeta.
  destruct (SetPeers_clean r ps Hc) as (K1 & H1 & P1).
  destruct (SetPeers_clean r' ps') as (K2 & H2 & P2); [rewrite <- Hv; by eapply clean_perm|].
  split_and!.
  - rewrite K1, K2, <- Hv. apply sort_unique. unfold raw_hashes. by rewrite Hp.
  - apply map_eq. intros h. apply option_eq. intros id. rewrite H1, H2, <- Hv. by setoid_rewrite Hp.
  - apply map_eq. intros id. apply option_eq. intros p. by rewrite P1, P2, Hp.
Qed.

(** Placement reads the hashes, the ids behind them and the peers only. *)
Lemma placement_fields (a b : Ring) (key : bytes) (n : Z) (id : bytes) :
  rkeys a = rkeys b -> hashToID a = hashToID b -> rpeers a = rpeers b ->
  Owner a key = Owner b key /\ Replicas a key n = Replicas b key n /\ IsReplica a key id n = IsReplica b key id n.
Proof.
  destruct a as [va ka ha pa ga], b as [vb kb hb pb gb]. cbn. intros -> -> ->.
  assert (Hw : forall fuel m i seen out,
    replica_walk fuel (mkRing va kb hb pb ga) m i seen out = replica_walk fuel (mkRing vb kb hb pb gb) m i seen out).
  { intros fuel m. induction fuel as [|f IH]; intros; [done|]. cbn [replica_walk].
    unfold id_of, key_at, peer_of in *. simpl. repeat case_match; auto. }
  unfold IsReplica, Replicas, replicasLocked, Owner. cbn [rkeys rpeers]. split_and!; [done| |].
  - destruct (_ || _); [done|]. apply Hw.
  - destruct (_ || _); [done|]. destruct (_ <=? n); [done|]. f_equal.
    destruct (_ || _); [done|]. apply Hw.
Qed.

(** every node computes the same placement.  Two nodes that were given
    the same clean peer list, in whatever order and after whatever history of
    their own rings, agree on every owner, replica set and IsReplica answer. *)
Theorem ring_agreement r r' ps ps' key n id :
  vnodes r = vnodes r' -> clean (vnodes r) ps -> ps ≡ₚ ps' ->
  let a := SetPeers r ps in let b := SetPeers r' ps' in
  Owner a key = Owner b key /\ Replicas a key n = Replicas b key n /\
  IsReplica a key id n = IsReplica b key id n.
Proof.
  intros Hv Hc Hp. cbv zeta. destruct (SetPeers_perm r r' ps ps' Hv Hc Hp) as (H1 & H2 & H3).
  by apply placement_fields.
Qed.

Lemma clean_filter v ps x : clean v ps -> clean v (filter (fun p => peer_ID p <> x) ps).
Proof.
  intros [H1 H2 H3]. induction ps as [|p ps IH]; [done|].
  cbn [map concat] in H1, H3. apply NoDup_cons in H1 as [Hp H1]. apply NoDup_app in H3 as (Hh & Hd & H3).
  apply Forall_cons in H2 as [Hn H2]. specialize (IH H1 H2 H3). rewrite filter_cons.
  case_decide; [|done]. destruct IH as [I1 I2 I3]. split; cbn [map concat].
  - constructor; [|done]. intros (q & E & [_ Hq]%list_elem_of_filter)%list_elem_of_fmap.
    apply Hp, list_elem_of_fmap. eauto.
  - by constructor.
  - apply NoDup_app. split_and!; [done| |done]. intros h Hh1 Hh2. apply (Hd h Hh1).
    apply elem_of_raw in Hh2 as (q & [_ Hq]%list_elem_of_filter & Hhq). apply elem_of_raw. eauto.
Qed.

Lemma filter_comm {A} (P Q : A -> Prop) `{!forall x, Decision (P x)} `{!forall x, Decision (Q x)} (l : list A) :
  filter P (filter Q l) = filter Q (filter P l).
Proof.
  induction l as [|a l IH]; [done|]. rewrite !filter_cons.
  destruct (decide (P a)), (decide (Q a)); rewrite ?filter_cons, ?decide_True, ?decide_False by done; by rewrite IH.
Qed.

Lemma filter_map_comm {A B} (f g : A -> B) (P : B -> Prop) `{!forall x, Decision (P x)} (l : list A) :
  (forall a, a ∈ l -> P (f a) -> g a = f a) ->
  map g (filter (fun a => P (f a)) l) = filter P (map f l).
Proof.
  intros Hfg. induction l as [|a l IH]; [done|]. cbn [map]. rewrite !filter_cons.
  destruct (decide (P (f a))) as [Ha|]; cbn [map].
  - rewrite Hfg by (done || by left). f_equal. apply IH. intros; apply Hfg; [by right|done].
  - apply IH. intros; apply Hfg; [by right|done].
Qed.

Lemma raw_filter v ps x (f : Z -> bytes) :
  (forall p h, p ∈ ps -> h ∈ vnode_hashes v (peer_ID p) -> f h = peer_ID p) ->
  raw_hashes v (filter (fun p => peer_ID p <> x) ps) = filter (fun h => f h <> x) (raw_hashes v ps).
Proof.
  unfold raw_hashes. induction ps as [|p ps IH]; intros Hf; [done|]. rewrite filter_cons.
  cbn [map concat]. rewrite filter_app. rewrite <- IH by (intros; apply Hf; [by right|done]).
  assert (Hp : forall h, h ∈ vnode_hashes v (peer_ID p) -> f h = peer_ID p) by (intros; apply Hf; [by left|done]).
  case_decide as D; cbn [map concat].
  - f_equal. symmetry. apply filter_all, Forall_forall. intros h Hh. by rewrite (Hp h Hh).
  - rewrite (filter_none (fun h => f h <> x) (vnode_hashes v (peer_ID p))); [done|].
    apply Forall_forall. intros h Hh. rewrite (Hp h Hh). tauto.
Qed.

Section disruption.
Context (r r' : Ring) (ps : list Peer) (x : bytes).
Context (Hv : vnodes r = vnodes r') (Hc : clean (vnodes r) ps).
Let a := SetPeers r ps.
Let b := SetPeers r' (filter (fun p => peer_ID p <> x) ps).

Lemma id_of_before p h : p ∈ ps -> h ∈ vnode_hashes (vnodes r) (peer_ID p) -> id_of a h = peer_ID p.
Proof.
  intros Hp Hh. destruct (SetPeers_clean r ps Hc) as (_ & H2 & _). unfold id_of, a.
  by rewrite (proj2 (H2 h (peer_ID p))) by eauto.
Qed.

Lemma keys_after : rkeys b = filter (fun h => id_of a h <> x) (rkeys a).
Proof.
  destruct (SetPeers_clean r ps Hc) as (K1 & _ & _).
  destruct (SetPeers_clean r' (filter (fun p => peer_ID p <> x) ps)) as (K2 & _ & _).
  { rewrite <- Hv. by apply clean_filter. }
  fold a in K1. fold b in K2. rewrite K1, K2, <- Hv.
  apply (StronglySorted_unique Z.le).
  - apply Sorted_StronglySorted; [intros ???; lia|apply (Sorted_merge_sort Z.le)].
  - apply StronglySorted_filter, Sorted_StronglySorted; [intros ???; lia|apply (Sorted_merge_sort Z.le)].
  - rewrite !merge_sort_Permutation. rewrite (raw_filter _ _ _ (id_of a) id_of_before). done.
Qed.

Lemma id_of_after h : h ∈ rkeys a -> id_of a h <> x -> id_of b h = id_of a h.
Proof.
  intros Hh Hx. destruct (SetPeers_clean r ps Hc) as (_ & H1 & _).
  destruct (SetPeers_clean r' (filter (fun p => peer_ID p <> x) ps)) as (_ & H2 & _).
  { rewrite <- Hv. by apply clean_filter. }
  apply (ro_keys _ (SetPeers_ok r ps)) in Hh as [id Hid]. fold a in Hid.
  unfold id_of in *. rewrite Hid in *. simpl in *.
  apply H1 in Hid as (p & Hp & <- & Hh). unfold b.
  rewrite (proj2 (H2 h (peer_ID p))); [done|]. exists p. rewrite <- Hv. split_and!; [|done|done].
  by apply list_elem_of_filter.
Qed.

(** The survivors keep their clockwise order. *)
Lemma successors_after key : successors b key = filter (fun y => y <> x) (successors a key).
Proof.
  unfold successors, clockwise. rewrite keys_after.
  rewrite (filter_comm (fun y => hashString key <= y)), (filter_comm (fun y => y < hashString key)).
  rewrite <- filter_app. fold (clockwise a (hashString key)).
  refine (filter_map_comm (id_of a) (id_of b) (fun y => y <> x) (clockwise a (hashString key)) _).
  intros h Hh Hx. apply id_of_after; [|done]. by rewrite <- (clockwise_perm a (hashString key)).
Qed.

Lemma peers_after id : id <> x -> rpeers b !! id = rpeers a !! id.
Proof.
  intros Hid. destruct (SetPeers_clean r ps Hc) as (_ & _ & H1).
  destruct (SetPeers_clean r' (filter (fun p => peer_ID p <> x) ps)) as (_ & _ & H2).
  { rewrite <- Hv. by apply clean_filter. }
  apply option_eq. intros p. unfold a, b. rewrite H1, H2, list_elem_of_filter. naive_solver.
Qed.
End disruption.

Lemma vnode_hashes_ne v id : 0 < v -> exists h, h ∈ vnode_hashes v id.
Proof.
  intros Hv. exists (hashString (id ++ 35 :: itoa 0)). apply list_elem_of_fmap. exists 0.
  split; [done|]. apply elem_of_seqZ. lia.
Qed.

(** In a clean cluster every peer is a successor of every key. *)
Lemma nub_full r ps key :
  clean (vnodes r) ps -> 0 < vnodes r ->
  Z.of_nat (length (nub ∅ (successors (SetPeers r ps) key))) = Ring_Len (SetPeers r ps).
Proof.
  intros Hc Hv. pose proof (nub_len (SetPeers r ps) key (SetPeers_ok r ps)) as Hle.
  assert (Hge : (size (rpeers (SetPeers r ps)) <= length (nub ∅ (successors (SetPeers r ps) key)))%nat);
    [|unfold Ring_Len; lia].
  rewrite <- size_dom, <- (size_list_to_set (C := gset bytes)) by apply nub_NoDup.
  apply subseteq_size. intros id [p Hp]%elem_of_dom. rewrite elem_of_list_to_set, nub_elem.
  split; [|set_solver]. destruct (SetPeers_clean r ps Hc) as (_ & H2 & H3).
  apply H3 in Hp as [Hp <-]. destruct (vnode_hashes_ne (vnodes r) (peer_ID p) Hv) as [h Hh].
  assert (Hid : hashToID (SetPeers r ps) !! h = Some (peer_ID p)) by (apply H2; eauto).
  apply list_elem_of_fmap. exists h. split; [unfold id_of; by rewrite Hid|].
  rewrite clockwise_perm. apply (ro_keys _ (SetPeers_ok r ps)). eauto.
Qed.

(** C12: replica sets.  Replicas are distinct known peers, at most [n], the
    owner first; asking for more only extends the list, so raising the
    replication factor never reassigns a copy; below the cluster size
    IsReplica answers exactly membership in that list; and in a clean cluster
    exactly min(n, cluster size) replicas come back. *)
Theorem ring_replicas r0 ps key n :
  let r := SetPeers r0 ps in
  let reps := Replicas r key n in
  NoDup (map peer_ID reps) /\
  Forall (fun p => rpeers r !! peer_ID p = Some p) reps /\
  len reps <= Z.max 0 n /\
  (0 < n -> rkeys r <> [] -> head reps = Owner r key) /\
  (forall n', n <= n' -> reps `prefix_of` Replicas r key n') /\
  (forall id, id <> [] -> n < Ring_Len r -> IsReplica r key id n = true <-> id ∈ map peer_ID reps) /\
  (clean (vnodes r0) ps -> 0 < vnodes r0 -> len reps = Z.max 0 (Z.min n (Ring_Len r))).
Proof.
  cbv zeta. pose proof (SetPeers_ok r0 ps) as Hok. set (r := SetPeers r0 ps) in *.
  pose proof (replica_ids r key n Hok) as Hids.
  assert (Hknown : forall id, id ∈ nub ∅ (successors r key) -> exists p, rpeers r !! id = Some p /\ peer_ID p = id).
  { intros id [Hid _]%nub_elem. by apply (successors_known r key). }
  split_and!.
  - rewrite Hids. eapply sublist_NoDup; [apply nub_NoDup|apply sublist_take].
  - rewrite Replicas_spec by done. apply Forall_map, Forall_take, Forall_forall.
    intros id Hid. destruct (Hknown id Hid) as (p & Hp & <-). unfold peer_of. by rewrite Hp.
  - rewrite Replicas_spec by done. unfold len. rewrite length_map, length_take. lia.
  - intros Hn Hne. destruct (ring_owner_head r key Hok Hne) as (id & l & p & Es & Hp).
    rewrite Owner_spec, Replicas_spec, Es by done. cbn [nub]. rewrite bool_decide_false by set_solver.
    assert (0 < Ring_Len r).
    { unfold Ring_Len. assert (size (rpeers r) <> 0%nat); [|lia]. intros E0%map_size_empty_inv.
      by rewrite E0, lookup_empty in Hp. }
    replace (Z.to_nat (Z.min n (Ring_Len r))) with (S (Z.to_nat (Z.min n (Ring_Len r) - 1))) by lia.
    simpl. unfold peer_of. by rewrite Hp.
  - intros n' Hn'. rewrite !Replicas_spec by done. apply take_map_prefix. lia.
  - intros id Hid Hn. unfold IsReplica. rewrite (bool_decide_false (id = [])) by done. simpl.
    destruct (Z.leb_spec n 0) as [Hn0|Hn0].
    { rewrite Hids. replace (Z.to_nat (Z.min n (Ring_Len r))) with 0%nat by lia. simpl. set_solver. }
    simpl. destruct (Z.eqb_spec (len (rkeys r)) 0) as [E|E].
    { rewrite Hids. unfold successors, clockwise. rewrite (len_zero _ E). simpl. rewrite take_nil. set_solver. }
    unfold Ring_Len in Hn. destruct (Z.leb_spec (Z.of_nat (size (rpeers r))) n); [lia|].
    rewrite existsb_exists. setoid_rewrite bool_decide_eq_true. rewrite list_elem_of_fmap.
    setoid_rewrite list_elem_of_In. fold (Replicas r key n). naive_solver.
  - intros Hc Hv. pose proof (nub_full r0 ps key Hc Hv) as Hf. fold r in Hf.
    rewrite Replicas_spec by done. unfold len. rewrite length_map, length_take. unfold Ring_Len in *. lia.
Qed.

(** C13: removing a peer disturbs only its own keys.  In a clean cluster of
    which peer [x] leaves, every key owned by another peer keeps its owner,
    and every key whose [n] replicas do not include [x] keeps all of them, in
    order, on every surviving node. *)
Theorem ring_minimal_disruption r r' ps x key n p :
  vnodes r = vnodes r' -> 0 < vnodes r -> clean (vnodes r) ps ->
  let a := SetPeers r ps in
  let b := SetPeers r' (filter (fun p => peer_ID p <> x) ps) in
  (Owner a key = Some p -> peer_ID p <> x -> Owner b key = Some p) /\
  (n < Ring_Len a -> x ∉ map peer_ID (Replicas a key n) -> Replicas b key n = Replicas a key n).
Proof.
  intros Hv Hpos Hc. cbv zeta. pose proof (SetPeers_ok r ps) as Hoka.
  pose proof (SetPeers_ok r' (filter (fun p => peer_ID p <> x) ps)) as Hokb.
  pose proof (successors_after r r' ps x Hv Hc key) as Hs.
  pose proof (peers_after r r' ps x Hv Hc) as Hp.
  pose proof (nub_full r ps key Hc Hpos) as Hfull. pose proof (replica_ids _ key n Hoka) as Hids.
  pose proof (clean_filter _ _ x Hc) as Hcb. rewrite Hv in Hcb.
  pose proof (nub_full r' _ key Hcb ltac:(lia)) as Hfullb.
  set (a := SetPeers r ps) in *. set (b := SetPeers r' _) in *. split.
  - rewrite !Owner_spec, Hs by done. destruct (successors a key) as [|id l]; [done|]. simpl.
    intros Ha Hx. pose proof (ro_self _ Hoka id p Ha) as [Hid _]. subst id.
    rewrite filter_cons, decide_True by done. simpl. by rewrite Hp.
  - intros Hn Hx. rewrite Hids in Hx. rewrite !Replicas_spec by done.
    rewrite Hs, (nub_filter (fun y => y <> x)) in *.
    assert (Hlen : Ring_Len a - 1 <= Ring_Len b).
    { rewrite <- Hfull, <- Hfullb. pose proof (NoDup_filter_len (nub ∅ (successors a key)) x (nub_NoDup _ _)). lia. }
    replace (Z.min n (Ring_Len b)) with (Z.min n (Ring_Len a)) by lia.
    destruct (Z.le_gt_cases n 0) as [Hn0|Hn0].
    { by replace (Z.to_nat (Z.min n (Ring_Len a))) with 0%nat by lia. }
    rewrite take_filter_ne; [|done|left; lia].
    apply map_ext_in. intros id Hid%list_elem_of_In. unfold peer_of. rewrite Hp; [done|].
    intros ->. done.
Qed.

Definition wit_peers : list Peer := [mkPeer [97] [1]; mkPeer [98] [2]; mkPeer [99] [3]].

Lemma wit_clean : clean 2 wit_peers.
Proof.
  split.
  - apply (bool_decide_unpack _). vm_compute. exact I.
  - apply (bool_decide_unpack _). vm_compute. exact I.
  - apply (bool_decide_unpack _). vm_compute. exact I.
Qed.

Lemma ring_agreement_witness :
  Owner (SetPeers (Ring_New 2) wit_peers) [107] = Owner (SetPeers (Ring_New 2) (reverse wit_peers)) [107].
Proof.
  refine (proj1 (ring_agreement (Ring_New 2) (Ring_New 2) wit_peers (reverse wit_peers) [107] 2 [97] eq_refl wit_clean _)).
  by rewrite reverse_Permutation.
Defined.

Lemma ring_minimal_disruption_witness : exists p,
  Owner (SetPeers (Ring_New 2) wit_peers) [107] = Some p /\
  Owner (SetPeers (Ring_New 2) (filter (fun p => peer_ID p <> [98]) wit_peers)) [107] = Some p.
Proof.
  destruct (Owner (SetPeers (Ring_New 2) wit_peers) [107]) as [p|] eqn:E; [|vm_compute in E; discriminate E].
  exists p. split; [done|].
  refine (proj1 (ring_minimal_disruption (Ring_New 2) (Ring_New 2) wit_peers [98] [107] 1 p eq_refl eq_refl wit_clean) E _).
  vm_compute in E. injection E as <-. done.
Defined.
