(* ===== verification/Hints.v ===== *)
(** * Hinted hand-off: internal/peer/hints.go and the FanoutPool of transport.go

    Replica applies that fail, or that find the job queue full, are remembered
    per peer address in a bounded queue and replayed until the peer accepts
    them.  Every operation that the code runs under [hintMu] is one function
    on the pool; the goroutines interleave these operations, so the reachable
    pools are those of the step relation [hint_step].  The replica RPC is a
    parameter: a function of the request and of the state of the network. *)
From S2P Require Import Prelude Wire Sketches Store Ring.

Definition IsBloomAdd : Entry -> bool := has_flag FlagBloomAdd.

Record fanoutHint := mkHint {
  h_peer : Peer;
  h_ks : bytes;
  h_key : bytes;
  h_ent : Entry;
  h_ringGen : Z;
}.

Record peerHintQ := mkHintQ { order : list bytes; items : gmap bytes fanoutHint }.

Record fanoutJob := mkJob {
  job_peers : list Peer;
  job_ks : bytes;
  job_key : bytes;
  job_ent : Entry;
  job_ringGen : Z;
}.

(** FanoutErrors and FanoutDropped are counters of the Transport; [jobs] is the
    buffer of the job channel. *)
Record FanoutPool := mkPool {
  hintsDisabled : bool;
  closed : bool;
  hintMax : Z;
  jobsCap : Z;
  jobs : list fanoutJob;
  hints : gmap bytes peerHintQ;      (* addr -> queue *)
  HintsFlushed : Z;
  HintsDropped : Z;
  FanoutErrors : Z;
  FanoutDropped : Z;
}.

Definition NewFanoutPool (QueueSize HintMaxPerPeer : Z) (DisableHints : bool) : FanoutPool :=
  mkPool DisableHints false
    (if HintMaxPerPeer <=? 0 then 4096 else HintMaxPerPeer)
    (if QueueSize <=? 0 then 10000 else QueueSize) [] ∅ 0 0 0 0.

Definition with_queue (p : FanoutPool) (addr : bytes) (q : peerHintQ) (dropped : Z) : FanoutPool :=
  mkPool (hintsDisabled p) (closed p) (hintMax p) (jobsCap p) (jobs p)
    (<[addr := q]> (hints p)) (HintsFlushed p) dropped (FanoutErrors p) (FanoutDropped p).

Definition with_hints (p : FanoutPool) (hs : gmap bytes peerHintQ) : FanoutPool :=
  mkPool (hintsDisabled p) (closed p) (hintMax p) (jobsCap p) (jobs p)
    hs (HintsFlushed p) (HintsDropped p) (FanoutErrors p) (FanoutDropped p).

Definition add_flushed (p : FanoutPool) : FanoutPool :=
  mkPool (hintsDisabled p) (closed p) (hintMax p) (jobsCap p) (jobs p)
    (hints p) (HintsFlushed p +u 1) (HintsDropped p) (FanoutErrors p) (FanoutDropped p).

Definition add_error (p : FanoutPool) : FanoutPool :=
  mkPool (hintsDisabled p) (closed p) (hintMax p) (jobsCap p) (jobs p)
    (hints p) (HintsFlushed p) (HintsDropped p) (FanoutErrors p +u 1) (FanoutDropped p).

Definition add_dropped_job (p : FanoutPool) : FanoutPool :=
  mkPool (hintsDisabled p) (closed p) (hintMax p) (jobsCap p) (jobs p)
    (hints p) (HintsFlushed p) (HintsDropped p) (FanoutErrors p) (FanoutDropped p +u 1).

Definition with_jobs (p : FanoutPool) (js : list fanoutJob) : FanoutPool :=
  mkPool (hintsDisabled p) (closed p) (hintMax p) (jobsCap p) js
    (hints p) (HintsFlushed p) (HintsDropped p) (FanoutErrors p) (FanoutDropped p).

Definition hintID (ks key : bytes) (ent : Entry) : bytes :=
  if IsBloomAdd ent then ks ++ 0 :: key ++ 0 :: Value ent else ks ++ 0 :: key.

Definition hintNewer (a b : Entry) : bool :=
  if Version a =? Version b then IsTombstone a && negb (IsTombstone b)
  else Version b <? Version a.

(** old.ks == ks && old.key == key && old.ent.IsBloomAdd() *)
Definition is_add_of (ks key : bytes) (old : fanoutHint) : bool :=
  bool_decide (h_ks old = ks) && bool_decide (h_key old = key) && IsBloomAdd (h_ent old).

(** A tombstone drops the item-adds of its filter and their ids. *)
Definition purgeAdds (ks key : bytes) (q : peerHintQ) : peerHintQ :=
  let its := filter (fun kv => is_add_of ks key (snd kv) = false) (items q) in
  mkHintQ (filter (fun oid => is_Some (its !! oid)) (order q)) its.

(** The loop that makes room: the oldest ids go first.  (The queue is empty
    before hintMax, at least 1, is reached from above.) *)
Fixpoint dropOldest (max : Z) (ord : list bytes) (its : gmap bytes fanoutHint) (dropped : Z)
    : list bytes * gmap bytes fanoutHint * Z :=
  match ord with
  | [] => ([], its, dropped)
  | old :: rest =>
      if max <=? len ord then dropOldest max rest (delete old its) (dropped +u 1)
      else (ord, its, dropped)
  end.

(** A queued tombstone at least as new refuses an item-add. *)
Definition addBlocked (ks key : bytes) (ent : Entry) (q : peerHintQ) : bool :=
  IsBloomAdd ent &&
  match items q !! hintID ks key (mkEntry [] 0 0 FlagTombstone) with
  | Some old => IsTombstone (h_ent old) && (Version ent <=? Version (h_ent old))
  | None => false
  end.

Definition enqueueHint (p : FanoutPool) (peer : Peer) (ks key : bytes) (ent : Entry) (ringGen : Z)
    : FanoutPool :=
  if hintsDisabled p || closed p || bool_decide (peer_Addr peer = []) then p
  else
    let h := mkHint peer ks key (copyEntry ent) ringGen in
    let id := hintID ks key (h_ent h) in
    let q := default (mkHintQ [] ∅) (hints p !! peer_Addr peer) in
    let q := if IsTombstone (h_ent h) then purgeAdds ks key q else q in
    if addBlocked ks key (h_ent h) q then with_queue p (peer_Addr peer) q (HintsDropped p)
    else
      match items q !! id with
      | Some old =>
          if hintNewer (h_ent h) (h_ent old)
          then with_queue p (peer_Addr peer) (mkHintQ (order q) (<[id := h]> (items q))) (HintsDropped p)
          else with_queue p (peer_Addr peer) q (HintsDropped p)
      | None =>
          let '(ord, its, d) := dropOldest (hintMax p) (order q) (items q) (HintsDropped p) in
          with_queue p (peer_Addr peer) (mkHintQ (ord ++ [id]) (<[id := h]> its)) d
      end.

Definition Hint := enqueueHint.

Definition peekHint (p : FanoutPool) (addr : bytes) : option fanoutHint :=
  match hints p !! addr with
  | Some q => match order q with id :: _ => items q !! id | [] => None end
  | None => None
  end.

(** The first occurrence of [id] leaves the order. *)
Fixpoint removeFirst (id : bytes) (l : list bytes) : list bytes :=
  match l with
  | [] => []
  | x :: l => if bool_decide (x = id) then l else x :: removeFirst id l
  end.

Definition popHint (p : FanoutPool) (addr id : bytes) : FanoutPool :=
  match hints p !! addr with
  | None => p
  | Some q =>
      let q := mkHintQ (removeFirst id (order q)) (delete id (items q)) in
      with_hints p (match order q with [] => delete addr (hints p) | _ => <[addr := q]> (hints p) end)
  end.

Definition HintPending (p : FanoutPool) : Z :=
  map_fold (fun _ q n => n + Z.of_nat (size (items q))) 0 (hints p).

(** Close: the flag; the workers drain the channel first ([drain] below). *)
Definition setClosed (p : FanoutPool) : FanoutPool :=
  mkPool (hintsDisabled p) true (hintMax p) (jobsCap p) (jobs p)
    (hints p) (HintsFlushed p) (HintsDropped p) (FanoutErrors p) (FanoutDropped p).

(** The two replica RPCs. *)
Inductive Request :=
  | ApplyPut (addr ks key : bytes) (ent : Entry) (ringGen : Z)
  | ApplyDelete (addr ks key : bytes) (version ringGen : Z).

Definition requestFor (addr ks key : bytes) (ent : Entry) (ringGen : Z) : Request :=
  if IsTombstone ent then ApplyDelete addr ks key (Version ent) ringGen
  else ApplyPut addr ks key ent ringGen.

Section rpc.
  (** One RPC against the network: whether it returned without error. *)
  Context {W : Type} (rpc : W -> Request -> bool * W).

Definition applyToPeer (w : W) (p : FanoutPool) (peer : Peer) (ks key : bytes) (ent : Entry)
    (ringGen : Z) (hintOnFail : bool) : bool * W * FanoutPool :=
  if bool_decide (peer_Addr peer = []) then (false, w, p)
  else
    let ent := copyEntry ent in
    let '(ok, w) := rpc w (requestFor (peer_Addr peer) ks key ent ringGen) in
    if ok then (true, w, p)
    else
      let p := add_error p in
      (false, w, if hintOnFail then enqueueHint p peer ks key ent ringGen else p).

Definition replayHint (w : W) (p : FanoutPool) (addr : bytes) (h : fanoutHint) : bool * W * FanoutPool :=
  let pr := if bool_decide (peer_Addr (h_peer h) = []) then mkPeer (peer_ID (h_peer h)) addr else h_peer h in
  applyToPeer w p pr (h_ks h) (h_key h) (h_ent h) (h_ringGen h) false.

(** The flush loop between two stops of the flusher; [fuel] bounds its rounds. *)
Fixpoint flushPeerHints (fuel : nat) (w : W) (p : FanoutPool) (addr : bytes) : W * FanoutPool :=
  match fuel with
  | O => (w, p)
  | S fuel =>
      match peekHint p addr with
      | None => (w, p)
      | Some h =>
          let '(ok, w, p) := replayHint w p addr h in
          if ok then flushPeerHints fuel w (add_flushed (popHint p addr (hintID (h_ks h) (h_key h) (h_ent h)))) addr
          else (w, add_error p)
      end
  end.

(** Every address in some order (Go ranges over the map). *)
Fixpoint flushAddrs (w : W) (p : FanoutPool) (addrs : list bytes) : W * FanoutPool :=
  match addrs with
  | [] => (w, p)
  | addr :: addrs =>
      if closed p then (w, p)
      else
        let fuel := match hints p !! addr with Some q => S (length (order q)) | None => 1%nat end in
        let '(w, p) := flushPeerHints fuel w p addr in flushAddrs w p addrs
  end.

Definition flushHints (w : W) (p : FanoutPool) : W * FanoutPool :=
  flushAddrs w p (map_to_list (hints p)).*1.

(** The peers of a job in one order of the goroutines that apply them. *)
Definition applyJob (w : W) (p : FanoutPool) (job : fanoutJob) : W * FanoutPool :=
  fold_left (fun '(w, p) peer =>
    if bool_decide (peer_Addr peer = []) then (w, p)
    else let '(_, w, p) := applyToPeer w p peer (job_ks job) (job_key job) (job_ent job) (job_ringGen job) true in (w, p))
    (job_peers job) (w, p).

(** One round of a worker. *)
Definition loop (w : W) (p : FanoutPool) : W * FanoutPool :=
  match jobs p with
  | [] => (w, p)
  | job :: rest => applyJob w (with_jobs p rest) job
  end.

(** Apply: every peer now; the peers that failed. *)
Definition Apply (w : W) (p : FanoutPool) (peers : list Peer) (ks key : bytes) (ent : Entry) (ringGen : Z)
    : W * FanoutPool * list Peer :=
  if closed p then (w, p, [])
  else
    fold_left (fun '(w, p, out) pr =>
      let '(ok, w, p) := applyToPeer w p pr ks key ent ringGen true in
      (w, p, if ok then out else out ++ [pr])) peers (w, p, []).

(** Close: jobs already queued are still sent. *)
Definition Close (w : W) (p : FanoutPool) : W * FanoutPool :=
  if closed p then (w, p)
  else
    let p := setClosed p in
    fold_left (fun '(w, p) job => applyJob w (with_jobs p (drop 1 (jobs p))) job) (jobs p) (w, p).

End rpc.

Definition Submit (p : FanoutPool) (peers : list Peer) (ks key : bytes) (ent : Entry) (ringGen : Z)
    : FanoutPool :=
  if closed p then p
  else
    let job := mkJob peers ks key (copyEntry ent) ringGen in
    if len (jobs p) <? jobsCap p then with_jobs p (jobs p ++ [job])
    else
      fold_left (fun p peer => enqueueHint p peer (job_ks job) (job_key job) (job_ent job) (job_ringGen job))
        (job_peers job) (add_dropped_job p).

(** ** Identities of hints *)

(** Names without a NUL byte, the separator of [hintID]. *)
Definition nul_free (b : bytes) : Prop := 0 ∉ b.

Lemma nul_split a b x y :
  nul_free a -> nul_free b -> a ++ 0 :: x = b ++ 0 :: y -> a = b /\ x = y.
Proof.
  unfold nul_free. revert b. induction a as [|c a IH]; intros [|d b] Ha Hb E; simplify_eq/=; [done|set_solver|set_solver|].
  destruct (IH b) as [-> ->]; [set_solver|set_solver|done|done].
Qed.

Lemma hintID_inj ks1 key1 e1 ks2 key2 e2 :
  nul_free ks1 -> nul_free key1 -> nul_free ks2 -> nul_free key2 ->
  hintID ks1 key1 e1 = hintID ks2 key2 e2 ->
  ks1 = ks2 /\ key1 = key2 /\ IsBloomAdd e1 = IsBloomAdd e2.
Proof.
  unfold hintID. intros Hk1 Hy1 Hk2 Hy2 E.
  destruct (IsBloomAdd e1), (IsBloomAdd e2); apply nul_split in E as [-> E]; try done; subst; try done.
  - by apply nul_split in E as [-> _].
  - exfalso. apply Hy2. set_solver.
  - exfalso. apply Hy1. set_solver.
Qed.

(** With a NUL in a name two different keys share an identity: deleting the
    filter "k\0x" and adding item "x" to the filter "k" coalesce. *)
Lemma hintID_collision :
  hintID [115] [107; 0; 120] (mkEntry [] 7 0 FlagTombstone)
  = hintID [115] [107] (mkEntry [120] 8 0 FlagBloomAdd).
Proof. reflexivity. Qed.

(** ** The invariant of a queue *)

(** [T] deletes the filter that the item-add [B] writes to. *)
Definition rivals (T B : fanoutHint) : Prop :=
  IsTombstone (h_ent T) = true /\ IsBloomAdd (h_ent T) = false /\ is_add_of (h_ks T) (h_key T) B = true.

Record q_ok (max : Z) (addr : bytes) (q : peerHintQ) : Prop := {
  q_nodup : NoDup (order q);
  q_dom : forall id, id ∈ order q <-> is_Some (items q !! id);
  q_hint : forall id h, items q !! id = Some h ->
    id = hintID (h_ks h) (h_key h) (h_ent h) /\ peer_Addr (h_peer h) = addr;
  q_cap : len (order q) <= max;
  (** an item-add queued beside the tombstone of its filter is newer *)
  q_newer : forall a b T B, items q !! a = Some T -> items q !! b = Some B -> rivals T B ->
    Version (h_ent T) < Version (h_ent B);
}.

(** What holds beside it while no name has a NUL byte: the item-add is replayed
    after the tombstone. *)
Record q_clean (q : peerHintQ) : Prop := {
  q_names : forall id h, items q !! id = Some h -> nul_free (h_ks h) /\ nul_free (h_key h);
  q_after : StronglySorted (fun x y => forall B T, items q !! x = Some B -> items q !! y = Some T -> ~ rivals T B)
    (order q);
}.

Definition pool_ok (p : FanoutPool) : Prop :=
  0 < hintMax p /\ hints p !! [] = None /\ map_Forall (q_ok (hintMax p)) (hints p).

Definition pool_clean (p : FanoutPool) : Prop := map_Forall (fun _ => q_clean) (hints p).

Lemma q_ok_empty max addr : 0 <= max -> q_ok max addr (mkHintQ [] ∅).
Proof.
  intros. split; cbn [order items]; try done.
  - apply NoDup_nil_2.
  - intros id. rewrite lookup_empty. split; [set_solver|by intros [? ?]].
Qed.

Lemma q_clean_empty : q_clean (mkHintQ [] ∅).
Proof. split; [done|apply SSorted_nil]. Qed.

Lemma StronglySorted_sub {A} (R S : relation A) l l' :
  l' `sublist_of` l -> StronglySorted R l ->
  (forall x y, x ∈ l' -> y ∈ l' -> R x y -> S x y) -> StronglySorted S l'.
Proof.
  intros Hsub. induction Hsub as [|x l1 l2 Hsub IH|x l1 l2 Hsub IH]; intros Hs HRS; [constructor| |].
  - inversion_clear Hs as [|? ? Hs' Hx]. constructor.
    + apply IH; [done|]. intros; apply HRS; set_solver.
    + apply Forall_forall. intros y Hy. apply HRS; [set_solver|set_solver|].
      apply (proj1 (Forall_forall _ _) Hx). eapply sublist_subseteq; done.
  - inversion_clear Hs. by apply IH.
Qed.

(** Removing hints keeps the invariant. *)
Lemma q_ok_sub max addr q q' :
  q_ok max addr q -> order q' `sublist_of` order q -> items q' ⊆ items q ->
  (forall id, id ∈ order q' <-> is_Some (items q' !! id)) -> q_ok max addr q'.
Proof.
  intros [Hn Hd Hh Hc Hv] Hsub Hits Hd'. split; [by eapply sublist_NoDup|done| | |].
  - intros id h Hl. apply Hh. by eapply lookup_weaken.
  - apply sublist_length in Hsub. unfold len in *. lia.
  - intros a b T B HT HB. apply (Hv a b); by eapply lookup_weaken.
Qed.

Lemma q_clean_sub q q' : q_clean q -> order q' `sublist_of` order q -> items q' ⊆ items q -> q_clean q'.
Proof.
  intros [Hn Ha] Hsub Hits. split; [intros id h Hl; apply (Hn id); by eapply lookup_weaken|].
  eapply StronglySorted_sub; [done|exact Ha|]. cbv beta. intros x y _ _ HR B T HB HT.
  apply HR; by eapply lookup_weaken.
Qed.

(** What makes a hint fit a queue: a tombstone finds no item-add of its filter,
    an item-add only older tombstones. *)
Definition fits (h : fanoutHint) (q : peerHintQ) : Prop :=
  (IsTombstone (h_ent h) = true -> forall id B, items q !! id = Some B -> is_add_of (h_ks h) (h_key h) B = false) /\
  (forall a T, items q !! a = Some T -> rivals T h -> Version (h_ent T) < Version (h_ent h)).

Lemma rivals_irrefl h : ~ rivals h h.
Proof. unfold rivals, is_add_of. intros (_ & -> & H). by rewrite andb_false_r in H. Qed.

Lemma fits_newer q h id a b T B :
  (forall a b T B, items q !! a = Some T -> items q !! b = Some B -> rivals T B ->
     Version (h_ent T) < Version (h_ent B)) ->
  fits h q -> <[id := h]> (items q) !! a = Some T -> <[id := h]> (items q) !! b = Some B ->
  rivals T B -> Version (h_ent T) < Version (h_ent B).
Proof.
  intros Hv [Ht Hb]. rewrite !lookup_insert_Some. intros [[_ <-]|[_ HT]] [[_ <-]|[_ HB]] HR.
  - by apply rivals_irrefl in HR.
  - destruct HR as (Htomb & _ & Hadd). by rewrite (Ht Htomb _ _ HB) in Hadd.
  - by eapply Hb.
  - by eapply Hv.
Qed.

Section insert.
  Context (max : Z) (addr : bytes) (q : peerHintQ) (h : fanoutHint).
  Context (Hq : q_ok max addr q) (Hf : fits h q).
  Context (Haddr : peer_Addr (h_peer h) = addr).
Let id := hintID (h_ks h) (h_key h) (h_ent h).

Lemma q_ok_replace old :
  items q !! id = Some old -> q_ok max addr (mkHintQ (order q) (<[id := h]> (items q))).
Proof using Hq Hf Haddr.
  intros Hold. pose proof Hq as [Hn Hd Hh Hc Hv]. split; cbn [order items]; [done| | |done|].
  - intros i. rewrite Hd, lookup_insert_is_Some'. split; [by right|]. intros [<-|?]; [by eexists|done].
  - intros i h'. rewrite lookup_insert_Some. intros [[<- <-]|[_ ?]]; [done|by apply Hh].
  - intros. by eapply (fits_newer q h id a b).
Qed.

Lemma q_ok_append :
  items q !! id = None -> len (order q) < max ->
  q_ok max addr (mkHintQ (order q ++ [id]) (<[id := h]> (items q))).
Proof using Hq Hf Haddr.
  intros Hnew Hroom. pose proof Hq as [Hn Hd Hh Hc Hv].
  assert (Hnin : id ∉ order q) by (rewrite Hd, Hnew; by intros [? ?]).
  split; cbn [order items].
  - apply NoDup_app. split_and!; [done|set_solver|apply NoDup_singleton].
  - intros i. rewrite elem_of_app, Hd, lookup_insert_is_Some'. set_solver.
  - intros i h'. rewrite lookup_insert_Some. intros [[<- <-]|[_ ?]]; [done|by apply Hh].
  - rewrite len_app, len_cons, len_nil. lia.
  - intros. by eapply (fits_newer q h id a b).
Qed.

Section clean.
  Context (Hc : q_clean q) (Hks : nul_free (h_ks h)) (Hkey : nul_free (h_key h)).

Lemma q_names_insert i h' : <[id := h]> (items q) !! i = Some h' -> nul_free (h_ks h') /\ nul_free (h_key h').
Proof using Hc Hks Hkey. rewrite lookup_insert_Some. intros [[_ <-]|[_ ?]]; [done|by eapply q_names]. Qed.

Lemma q_clean_replace old : items q !! id = Some old -> q_clean (mkHintQ (order q) (<[id := h]> (items q))).
Proof using Hq Hf Hc Hks Hkey.
  intros Hold. split; [apply q_names_insert|]. cbn [order items].
  eapply StronglySorted_sub; [done|exact (q_after _ Hc)|]. cbv beta. intros x y _ _ HR B T.
  rewrite !lookup_insert_Some. intros [[<- <-]|[_ HB]] [[_ <-]|[_ HT]] Hr.
  - by apply rivals_irrefl in Hr.
  - apply (HR old T Hold HT). destruct (q_hint _ _ _ Hq _ _ Hold) as [E _]. destruct (q_names _ Hc _ _ Hold) as [Hok Hoy].
    apply hintID_inj in E as (E1 & E2 & E3); [|done..]. unfold rivals, is_add_of in *.
    by rewrite <- E1, <- E2, <- E3.
  - destruct Hr as (Htomb & _ & Hadd). by rewrite (proj1 Hf Htomb _ _ HB) in Hadd.
  - by apply (HR B T).
Qed.

Lemma q_clean_append : items q !! id = None -> q_clean (mkHintQ (order q ++ [id]) (<[id := h]> (items q))).
Proof using Hq Hf Hc Hks Hkey.
  clear Haddr. intros Hnew. split; [apply q_names_insert|]. cbn [order items].
  assert (Hnin : id ∉ order q) by (rewrite (q_dom _ _ _ Hq), Hnew; by intros [? ?]).
  apply StronglySorted_app_2; [| |repeat constructor].
  - intros x y Hx ->%list_elem_of_singleton B T. rewrite lookup_insert_eq, lookup_insert_ne by set_solver.
    intros HB [= <-] (Htomb & _ & Hadd). by rewrite (proj1 Hf Htomb _ _ HB) in Hadd.
  - eapply StronglySorted_sub; [done|exact (q_after _ Hc)|]. cbv beta. intros x y Hx Hy HR B T.
    rewrite !lookup_insert_ne by set_solver. apply HR.
Qed.
End clean.
End insert.

(** ** Every atomic operation keeps the invariant *)

Lemma purgeAdds_lookup ks key q id h :
  items (purgeAdds ks key q) !! id = Some h <-> items q !! id = Some h /\ is_add_of ks key h = false.
Proof. unfold purgeAdds. cbn [items]. by rewrite map_lookup_filter_Some. Qed.

Lemma purgeAdds_ok max addr ks key q : q_ok max addr q -> q_ok max addr (purgeAdds ks key q).
Proof.
  intros Hq. apply (q_ok_sub _ _ q); [done|apply sublist_filter|apply map_filter_subseteq|].
  intros id. unfold purgeAdds. cbn [order items]. rewrite list_elem_of_filter, (q_dom _ _ _ Hq).
  split; [tauto|]. intros [h Hh]. split; [by eexists|]. exists h. by apply map_lookup_filter_Some in Hh as [? _].
Qed.

Lemma dropOldest_spec max ord its d :
  0 < max ->
  exists l, let '(ord', its', _) := dropOldest max ord its d in
    ord = l ++ ord' /\ len ord' < max /\ its' ⊆ its /\
    (forall id, id ∉ l -> its' !! id = its !! id) /\ (forall id, id ∈ l -> its' !! id = None).
Proof.
  intros Hmax. revert its d. induction ord as [|o ord IH]; intros its d; cbn [dropOldest].
  { exists []. rewrite len_nil. split_and!; try done. set_solver. }
  destruct (Z.leb_spec max (len (o :: ord))).
  - destruct (IH (delete o its) (d +u 1)) as [l Hl].
    destruct (dropOldest max ord (delete o its) (d +u 1)) as [[ord' its'] d'].
    destruct Hl as (-> & Hlen & Hsub & Hout & Hin). exists (o :: l). split_and!; [done|done| | |].
    + etrans; [exact Hsub|apply delete_subseteq].
    + intros id Hid. rewrite Hout, lookup_delete_ne by set_solver. done.
    + intros id [->|Hid]%elem_of_cons; [|by apply Hin].
      destruct (its' !! o) eqn:E; [|done]. exfalso. eapply lookup_weaken in E; [|exact Hsub].
      by rewrite lookup_delete_eq in E.
  - exists []. split_and!; try done. set_solver.
Qed.

Lemma dropOldest_ok max addr q d :
  0 < max -> q_ok max addr q ->
  let '(ord, its, _) := dropOldest max (order q) (items q) d in
  q_ok max addr (mkHintQ ord its) /\ (q_clean q -> q_clean (mkHintQ ord its)) /\ len ord < max /\ its ⊆ items q.
Proof.
  intros Hmax Hq. destruct (dropOldest_spec max (order q) (items q) d Hmax) as [l Hl].
  destruct (dropOldest max (order q) (items q) d) as [[ord its] d'].
  destruct Hl as (E & Hlen & Hsub & Hout & Hin).
  split_and!; [|intros Hc; apply (q_clean_sub q); [done|cbn [order]; rewrite E; by apply sublist_inserts_l|done]|done|done].
  pose proof (q_nodup _ _ _ Hq) as Hn. rewrite E in Hn. apply NoDup_app in Hn as (_ & Hdis & _).
  apply (q_ok_sub _ _ q); [done|cbn [order]; rewrite E; by apply sublist_inserts_l|done|].
  cbn [order items]. intros id. split.
  - intros Hid. rewrite Hout by (intros Hl; by apply (Hdis id)). apply (q_dom _ _ _ Hq). rewrite E. set_solver.
  - intros [h Hh]. destruct (decide (id ∈ l)) as [Hl|Hl]; [by rewrite Hin in Hh|].
    assert (id ∈ order q) as Hid by (apply (q_dom _ _ _ Hq); eexists; by eapply lookup_weaken).
    rewrite E in Hid. set_solver.
Qed.

Lemma fits_sub h q q' : items q' ⊆ items q -> fits h q -> fits h q'.
Proof. intros Hsub [H1 H2]. split; intros; [eapply H1|eapply H2]; eauto using lookup_weaken. Qed.

(** After the purge and the blocking test, the hint fits. *)
Lemma enqueue_fits max addr q h :
  q_ok max addr q ->
  let q' := if IsTombstone (h_ent h) then purgeAdds (h_ks h) (h_key h) q else q in
  addBlocked (h_ks h) (h_key h) (h_ent h) q' = false -> q_ok max addr q' /\ fits h q'.
Proof.
  intros Hq q' Hb. assert (Hq' : q_ok max addr q')
    by (unfold q'; destruct (IsTombstone (h_ent h)); [by apply purgeAdds_ok|done]).
  split; [done|]. split.
  - intros Ht id B. unfold q'. rewrite Ht, purgeAdds_lookup. by intros [_ ?].
  - intros a T HT (Htomb & Hna & Hadd). unfold is_add_of in Hadd.
    apply andb_prop in Hadd as [[E1%bool_decide_eq_true E2%bool_decide_eq_true]%andb_prop Hadd].
    unfold addBlocked in Hb. rewrite Hadd, andb_true_l in Hb.
    destruct (q_hint _ _ _ Hq' _ _ HT) as [E _]. unfold hintID in E. rewrite Hna in E.
    change (hintID (h_ks h) (h_key h) (mkEntry [] 0 0 FlagTombstone)) with (h_ks h ++ 0 :: h_key h) in Hb.
    rewrite E1, E2, <- E, HT, Htomb, andb_true_l in Hb. by apply Z.leb_gt in Hb.
Qed.

Lemma with_queue_ok p addr q d :
  pool_ok p -> addr <> [] -> q_ok (hintMax p) addr q -> pool_ok (with_queue p addr q d).
Proof.
  intros (Hm & H0 & Hall) Haddr Hq. split_and!; cbn; [done|by rewrite lookup_insert_ne|].
  by apply map_Forall_insert_2.
Qed.

Lemma with_queue_clean p addr q d : pool_clean p -> q_clean q -> pool_clean (with_queue p addr q d).
Proof. intros Hp Hq. by apply map_Forall_insert_2. Qed.

Lemma queue_ok p addr : pool_ok p -> q_ok (hintMax p) addr (default (mkHintQ [] ∅) (hints p !! addr)).
Proof.
  intros (Hm & _ & Hall). destruct (hints p !! addr) as [q|] eqn:E; cbn; [by apply Hall|].
  apply q_ok_empty. lia.
Qed.

Lemma queue_clean p addr : pool_clean p -> q_clean (default (mkHintQ [] ∅) (hints p !! addr)).
Proof. intros Hp. destruct (hints p !! addr) as [q|] eqn:E; cbn; [by eapply Hp|apply q_clean_empty]. Qed.

Lemma enqueueHint_keeps p peer ks key ent gen :
  pool_ok p -> pool_ok (enqueueHint p peer ks key ent gen) /\
  (pool_clean p -> nul_free ks -> nul_free key -> pool_clean (enqueueHint p peer ks key ent gen)).
Proof.
  intros Hp. unfold enqueueHint.
  destruct (hintsDisabled p); [done|]. destruct (closed p); [done|].
  destruct (bool_decide_reflect (peer_Addr peer = [])) as [|Haddr]; [done|]. cbn [orb].
  set (h := mkHint peer ks key (copyEntry ent) gen). cbv zeta.
  pose proof (queue_ok p (peer_Addr peer) Hp) as Hq. pose proof (queue_clean p (peer_Addr peer)) as Hq0.
  set (q0 := default _ _) in *.
  pose proof (enqueue_fits _ _ _ h Hq) as Hfit. cbv zeta in Hfit. cbn [h_ks h_key h] in Hfit.
  set (q := if IsTombstone (h_ent h) then _ else _) in *.
  assert (Hqok : q_ok (hintMax p) (peer_Addr peer) q)
    by (unfold q; destruct (IsTombstone (h_ent h)); [by apply purgeAdds_ok|done]).
  assert (Hqc : pool_clean p -> q_clean q).
  { intros Hc. specialize (Hq0 Hc). unfold q. destruct (IsTombstone (h_ent h)); [|done].
    apply (q_clean_sub q0); [done|apply sublist_filter|apply map_filter_subseteq]. }
  assert (Hset : forall q1 d, q_ok (hintMax p) (peer_Addr peer) q1 -> (q_clean q -> nul_free ks -> nul_free key -> q_clean q1) ->
    pool_ok (with_queue p (peer_Addr peer) q1 d) /\
    (pool_clean p -> nul_free ks -> nul_free key -> pool_clean (with_queue p (peer_Addr peer) q1 d))).
  { intros q1 d H1 H2. split; [by apply with_queue_ok|]. intros. apply with_queue_clean; auto. }
  destruct (addBlocked ks key (h_ent h) q); [by apply Hset|].
  destruct (Hfit eq_refl) as [_ Hf]. destruct (items q !! hintID ks key (h_ent h)) as [old|] eqn:E.
  - destruct (hintNewer _ _); [|by apply Hset]. apply Hset.
    + by apply (q_ok_replace _ _ q h Hqok Hf eq_refl old).
    + intros. by apply (q_clean_replace _ _ q h Hqok Hf ltac:(done) ltac:(done) ltac:(done) old).
  - pose proof (dropOldest_ok (hintMax p) (peer_Addr peer) q (HintsDropped p) (proj1 Hp) Hqok) as Hd.
    destruct (dropOldest _ _ _ _) as [[ord its] d]. destruct Hd as (Hd & Hdc & Hlen & Hsub).
    assert (Hf' : fits h (mkHintQ ord its)) by (by apply (fits_sub h q)).
    assert (Hnew : its !! hintID ks key (h_ent h) = None) by (by eapply lookup_weaken_None).
    apply Hset.
    + by apply (q_ok_append _ _ (mkHintQ ord its) h).
    + intros. apply (q_clean_append _ _ (mkHintQ ord its) h Hd Hf'); auto.
Qed.

Lemma enqueueHint_ok p peer ks key ent gen : pool_ok p -> pool_ok (enqueueHint p peer ks key ent gen).
Proof. apply enqueueHint_keeps. Qed.

Lemma removeFirst_sublist id l : removeFirst id l `sublist_of` l.
Proof.
  induction l as [|x l IH]; cbn; [done|]. case_bool_decide; [by apply sublist_cons|by apply sublist_skip].
Qed.

Lemma elem_of_removeFirst id l x : NoDup l -> x ∈ removeFirst id l <-> x ∈ l /\ x <> id.
Proof.
  induction 1 as [|y l Hy Hn IH]; cbn; [set_solver|]. case_bool_decide; [set_solver|]. set_solver.
Qed.

Lemma popHint_ok p addr id : pool_ok p -> pool_ok (popHint p addr id).
Proof.
  intros (Hm & H0 & Hall). unfold popHint. destruct (hints p !! addr) as [q|] eqn:E; [|done].
  cbn [order]. assert (Hq : q_ok (hintMax p) addr (mkHintQ (removeFirst id (order q)) (delete id (items q)))).
  { pose proof (Hall _ _ E) as Hq. apply (q_ok_sub _ _ q); [done|apply removeFirst_sublist|apply delete_subseteq|].
    intros x. cbn [order items]. rewrite elem_of_removeFirst by apply Hq. rewrite (q_dom _ _ _ Hq).
    rewrite lookup_delete_is_Some. naive_solver. }
  split_and!; cbn [hintMax hints with_hints]; [done| |]; destruct (removeFirst id (order q)) eqn:Er.
  - rewrite lookup_delete_None. by right.
  - rewrite lookup_insert_None. split; [done|]. by intros ->; rewrite H0 in E.
  - by apply map_Forall_delete.
  - by apply map_Forall_insert_2.
Qed.
#[export] Hint Resolve enqueueHint_ok popHint_ok : go.

Lemma popHint_clean p addr id : pool_clean p -> pool_clean (popHint p addr id).
Proof.
  intros Hall. unfold popHint. destruct (hints p !! addr) as [q|] eqn:E; [|done]. unfold pool_clean. cbn [order hints with_hints].
  assert (Hq : q_clean (mkHintQ (removeFirst id (order q)) (delete id (items q))))
    by (apply (q_clean_sub q); [by eapply Hall|apply removeFirst_sublist|apply delete_subseteq]).
  destruct (removeFirst id (order q)); [by apply map_Forall_delete|by apply map_Forall_insert_2].
Qed.

(** ** Interleavings

    The flusher is one goroutine: it peeks a hint, sends it with the mutex
    released, and then pops it or gives up; between these three steps any
    other goroutine may enqueue a hint of any keyspace and key.  [acked] is the
    log of acknowledged replays and [named] the log of the names enqueued. *)
Record hstate := mkHstate {
  hpool : FanoutPool;
  inflight : option (bytes * fanoutHint);
  acked : list (bytes * fanoutHint);
  named : list (bytes * bytes);
}.

Inductive hint_step : hstate -> hstate -> Prop :=
  | hs_enqueue p fl log ns peer ks key ent gen :
      hint_step (mkHstate p fl log ns) (mkHstate (enqueueHint p peer ks key ent gen) fl log ((ks, key) :: ns))
  | hs_error p fl log ns : hint_step (mkHstate p fl log ns) (mkHstate (add_error p) fl log ns)
  | hs_submit p fl log ns job : closed p = false -> len (jobs p) < jobsCap p ->
      hint_step (mkHstate p fl log ns) (mkHstate (with_jobs p (jobs p ++ [job])) fl log ns)
  | hs_overflow p fl log ns : closed p = false -> jobsCap p <= len (jobs p) ->
      hint_step (mkHstate p fl log ns) (mkHstate (add_dropped_job p) fl log ns)
  | hs_take p fl log ns job rest : jobs p = job :: rest ->
      hint_step (mkHstate p fl log ns) (mkHstate (with_jobs p rest) fl log ns)
  | hs_peek p log ns addr h : peekHint p addr = Some h ->
      hint_step (mkHstate p None log ns) (mkHstate p (Some (addr, h)) log ns)
  | hs_ack p log ns addr h :
      hint_step (mkHstate p (Some (addr, h)) log ns)
        (mkHstate (add_flushed (popHint p addr (hintID (h_ks h) (h_key h) (h_ent h)))) None (log ++ [(addr, h)]) ns)
  | hs_fail p log ns addr h :
      hint_step (mkHstate p (Some (addr, h)) log ns) (mkHstate (add_error p) None log ns)
  | hs_close p fl log ns : hint_step (mkHstate p fl log ns) (mkHstate (setClosed p) fl log ns).

Definition names_clean (ns : list (bytes * bytes)) : Prop := Forall (fun n => nul_free n.1 /\ nul_free n.2) ns.

Definition run_ok (max : Z) (s : hstate) : Prop :=
  pool_ok (hpool s) /\ hintMax (hpool s) = max /\ (names_clean (named s) -> pool_clean (hpool s)).

Lemma popHint_max p addr id : hintMax (popHint p addr id) = hintMax p.
Proof. unfold popHint. by destruct (hints p !! addr). Qed.

Lemma enqueueHint_max p peer ks key ent gen : hintMax (enqueueHint p peer ks key ent gen) = hintMax p.
Proof. unfold enqueueHint. repeat case_match; done. Qed.

Lemma hint_step_ok max s s' : hint_step s s' -> run_ok max s -> run_ok max s'.
Proof.
  destruct 1; unfold run_ok; cbn [hpool named]; intros (Hp & Hm & Hc); try done.
  - destruct (enqueueHint_keeps p peer ks key ent gen Hp) as [H1 H2]. rewrite enqueueHint_max. split_and!; [done|done|].
    intros [[? ?] Hns]%Forall_cons. apply H2; auto.
  - set (id := hintID _ _ _). cbn [hintMax add_flushed]. rewrite popHint_max. split_and!; [|done|].
    + change (pool_ok (popHint p addr id)). auto with go.
    + intros Hns. change (pool_clean (popHint p addr id)). auto using popHint_clean.
Qed.

Lemma NewFanoutPool_ok qs hm dis : pool_ok (NewFanoutPool qs hm dis).
Proof.
  split_and!; cbn; [|done|apply map_Forall_empty]. zcmp; lia.
Qed.

Lemma q_ok_size max addr q : q_ok max addr q -> Z.of_nat (size (items q)) = len (order q).
Proof.
  intros Hq. unfold len. f_equal. rewrite <- size_dom.
  rewrite <- (size_list_to_set (C := gset bytes) (order q)) by apply Hq. f_equal. apply set_eq. intros id.
  by rewrite elem_of_dom, elem_of_list_to_set, (q_dom _ _ _ Hq).
Qed.

(** C14: in every state the goroutines of a new pool can reach (any interleaving
    of enqueues of any names, job-queue traffic, flush rounds and Close), each
    peer's queue holds at most hintMax hints, its order and its map agree (no id
    twice, no id without its hint), each hint is filed under its own identity and
    address, and where a filter's tombstone and an item-add of the same filter
    are both queued, the add is newer than the tombstone.  As long as no keyspace
    and no key enqueued had a NUL byte, the separator of the identities, the add
    is also replayed after the tombstone. *)
Theorem hint_queues_ok qs hm dis s :
  rtc hint_step (mkHstate (NewFanoutPool qs hm dis) None [] []) s ->
  forall addr q, hints (hpool s) !! addr = Some q ->
    q_ok (if hm <=? 0 then 4096 else hm) addr q /\ Z.of_nat (size (items q)) = len (order q) /\ addr <> [] /\
    (names_clean (named s) -> q_clean q).
Proof.
  intros Hrun.
  assert (Hinv : run_ok (if hm <=? 0 then 4096 else hm) s).
  { revert Hrun. apply (rtc_ind_r (run_ok _)).
    - split_and!; [apply NewFanoutPool_ok|done|]. intros _. apply map_Forall_empty.
    - intros y z _ Hyz. by apply hint_step_ok. }
  destruct Hinv as ((Hm & H0 & Hall) & <- & Hc). intros addr q Hq. pose proof (Hall _ _ Hq) as Hok.
  split_and!; [done|by eapply q_ok_size| |intros Hns; by eapply Hc]. by intros ->; rewrite H0 in Hq.
Qed.

(** ** Flushing replays in order *)

Definition pending (p : FanoutPool) (addr : bytes) : list fanoutHint :=
  match hints p !! addr with Some q => omap (fun id => items q !! id) (order q) | None => [] end.

(** The reference: send the hints one after the other, stop at the first
    failure; what is left. *)
Fixpoint deliver {W} (rpc : W -> Request -> bool * W) (w : W) (addr : bytes) (hs : list fanoutHint)
    : W * list fanoutHint :=
  match hs with
  | [] => (w, [])
  | h :: rest =>
      let '(ok, w) := rpc w (requestFor addr (h_ks h) (h_key h) (h_ent h) (h_ringGen h)) in
      if ok then deliver rpc w addr rest else (w, hs)
  end.

Lemma omap_lookup_all (its : gmap bytes fanoutHint) (l : list bytes) f :
  (forall x, x ∈ l -> f x = its !! x) -> omap f l = omap (fun id => its !! id) l.
Proof.
  induction l as [|x l IH]; intros H; [done|]. cbn [omap list_omap]. rewrite H by set_solver.
  rewrite IH; [done|]. intros; apply H; set_solver.
Qed.

(** A non-empty queue starts with the hint that peek returns; popping it leaves
    the others. *)
Lemma pending_pop p addr h hs :
  pool_ok p -> pending p addr = h :: hs ->
  peekHint p addr = Some h /\ peer_Addr (h_peer h) = addr /\
  pending (popHint p addr (hintID (h_ks h) (h_key h) (h_ent h))) addr = hs.
Proof.
  intros (Hm & H0 & Hall). unfold pending, peekHint, popHint. destruct (hints p !! addr) as [q|] eqn:E; [|done].
  pose proof (Hall _ _ E) as Hq. destruct (order q) as [|id ord] eqn:Eo; [done|].
  assert (is_Some (items q !! id)) as [h' Hh'] by (apply (q_dom _ _ _ Hq); rewrite Eo; set_solver).
  cbn [omap list_omap]. rewrite Hh'. intros [= -> <-]. destruct (q_hint _ _ _ Hq _ _ Hh') as [<- Haddr].
  split_and!; [done|done|]. cbn [removeFirst]. rewrite bool_decide_eq_true_2 by done. cbn [order].
  pose proof (q_nodup _ _ _ Hq) as Hn. rewrite Eo in Hn. apply NoDup_cons in Hn as [Hid _].
  destruct ord as [|id2 ord']; cbn [hints with_hints]; [by rewrite lookup_delete_eq|].
  rewrite lookup_insert_eq. cbn [order items]. apply omap_lookup_all. intros x Hx.
  apply lookup_delete_ne. by intros ->.
Qed.

Lemma pending_nil p addr : pool_ok p -> pending p addr = [] -> peekHint p addr = None.
Proof.
  intros (Hm & H0 & Hall). unfold pending, peekHint. destruct (hints p !! addr) as [q|] eqn:E; [|done].
  destruct (order q) as [|id ord] eqn:Eo; [done|].
  assert (is_Some (items q !! id)) as [h' Hh'] by (apply (q_dom _ _ _ (Hall _ _ E)); rewrite Eo; set_solver).
  cbn [omap list_omap]. by rewrite Hh'.
Qed.

Lemma popHint_other p addr id a : a <> addr -> hints (popHint p addr id) !! a = hints p !! a.
Proof.
  intros. unfold popHint. destruct (hints p !! addr) as [q|]; [|done]. cbn [order hints with_hints].
  destruct (removeFirst id (order q)); [by rewrite lookup_delete_ne|by rewrite lookup_insert_ne].
Qed.

Lemma popHint_counters p addr id :
  HintsFlushed (popHint p addr id) = HintsFlushed p /\ HintsDropped (popHint p addr id) = HintsDropped p /\
  FanoutErrors (popHint p addr id) = FanoutErrors p.
Proof. unfold popHint. by destruct (hints p !! addr). Qed.

Lemma deliver_length {W} (rpc : W -> Request -> bool * W) w addr hs :
  (length (deliver rpc w addr hs).2 <= length hs)%nat.
Proof.
  revert w. induction hs as [|h hs IH]; intros w; cbn; [lia|]. destruct (rpc _ _) as [ok w'].
  destruct ok; [specialize (IH w'); lia|cbn; lia].
Qed.

Lemma u64_shift a b c : u64 a = u64 b -> u64 (a + c) = u64 (b + c).
Proof. unfold u64. intros E. rewrite Zplus_mod, E, <- Zplus_mod. done. Qed.

Lemma u64_u64 a : u64 (u64 a) = u64 a.
Proof. apply Z.mod_mod. lia. Qed.

Lemma flush_spec {W} (rpc : W -> Request -> bool * W) fuel w p addr :
  pool_ok p -> addr <> [] -> (length (pending p addr) < fuel)%nat ->
  let '(w', rest) := deliver rpc w addr (pending p addr) in
  let '(w2, p') := flushPeerHints rpc fuel w p addr in
  w2 = w' /\ pending p' addr = rest /\ pool_ok p' /\
  (forall a, a <> addr -> hints p' !! a = hints p !! a) /\
  u64 (HintsFlushed p') = u64 (HintsFlushed p + (len (pending p addr) - len rest)) /\
  HintsDropped p' = HintsDropped p /\
  u64 (FanoutErrors p') = u64 (FanoutErrors p + match rest with [] => 0 | _ => 2 end).
Proof.
  intros Hp Haddr. revert w p Hp. induction fuel as [|fuel IH]; intros w p Hp Hf; [lia|].
  cbn [flushPeerHints]. destruct (pending p addr) as [|h hs] eqn:E.
  { rewrite (pending_nil _ _ Hp E). cbn [deliver]. rewrite Z.sub_diag, !Z.add_0_r. done. }
  destruct (pending_pop _ _ _ _ Hp E) as (-> & Hpa & Epop). cbn [deliver].
  assert (Hne : peer_Addr (h_peer h) <> []) by congruence. unfold replayHint, applyToPeer. cbv zeta.
  rewrite (bool_decide_eq_false_2 _ Hne). cbv iota. rewrite (bool_decide_eq_false_2 _ Hne). rewrite copyEntry_id, Hpa.
  destruct (rpc w _) as [[] w1]; cycle 1.
  { split_and!; try done; [rewrite Z.sub_diag, Z.add_0_r; done|].
    cbn [FanoutErrors add_error]. rewrite u64_u64. unfold u64. rewrite Zplus_mod_idemp_l. f_equal. lia. }
  set (p1 := popHint p addr _) in *.
  assert (Hp1 : pool_ok (add_flushed p1)) by (change (pool_ok p1); unfold p1; auto with go).
  specialize (IH w1 (add_flushed p1) Hp1). change (pending (add_flushed p1) addr) with (pending p1 addr) in IH.
  rewrite Epop in IH. specialize (IH ltac:(cbn in Hf; lia)).
  destruct (deliver rpc w1 addr hs) as [w' rest]. destruct (flushPeerHints rpc fuel w1 _ addr) as [w2 p'].
  destruct IH as (-> & -> & Hok & Hoth & Hfl & Hdr & Her).
  destruct (popHint_counters p addr (hintID (h_ks h) (h_key h) (h_ent h))) as (C1 & C2 & C3). fold p1 in C1, C2, C3.
  cbn [HintsFlushed HintsDropped FanoutErrors add_flushed] in *. split_and!; try done.
  - intros a Ha. rewrite Hoth by done. by apply popHint_other.
  - rewrite Hfl, C1, len_cons. unfold u64. rewrite Zplus_mod_idemp_l. f_equal. lia.
  - by rewrite Hdr.
  - by rewrite Her, C3.
Qed.

(** C21: flushPeerHints, alone with the pool, replays a peer's hints in queue order, each as
    ApplyDelete when its entry is a tombstone and as ApplyPut otherwise, stops
    at the first RPC that fails and keeps that hint and everything behind it;
    acknowledged hints leave the queue and are counted as flushed, no hint is
    dropped, other peers' queues are untouched, the invariant holds again, and
    the loop ends within one round per hint plus one. *)
Theorem flush_replays_in_order {W} (rpc : W -> Request -> bool * W) w p addr :
  pool_ok p -> addr <> [] ->
  let '(w', rest) := deliver rpc w addr (pending p addr) in
  forall fuel, (length (pending p addr) < fuel)%nat ->
  let '(w2, p') := flushPeerHints rpc fuel w p addr in
  w2 = w' /\ pending p' addr = rest /\ rest `suffix_of` pending p addr /\ pool_ok p' /\
  (forall a, a <> addr -> hints p' !! a = hints p !! a) /\
  u64 (HintsFlushed p') = u64 (HintsFlushed p + (len (pending p addr) - len rest)) /\
  HintsDropped p' = HintsDropped p.
Proof.
  intros Hp Haddr. pose proof (fun fuel => flush_spec rpc fuel w p addr Hp Haddr) as H.
  assert (Hsuf : forall hs w, (deliver rpc w addr hs).2 `suffix_of` hs).
  { induction hs as [|h hs IH]; intros w0; cbn; [done|]. destruct (rpc w0 _) as [[] w1]; [|done].
    apply suffix_cons_r, IH. }
  specialize (Hsuf (pending p addr) w). destruct (deliver rpc w addr (pending p addr)) as [w' rest].
  intros fuel Hf. specialize (H fuel Hf). destruct (flushPeerHints rpc fuel w p addr) as [w2 p'].
  destruct H as (-> & -> & ? & ? & ? & ? & _). split_and!; done.
Qed.

(** A pool with two hints for one peer. *)
Definition two_hints : FanoutPool :=
  enqueueHint
    (enqueueHint (NewFanoutPool 0 2 false) (mkPeer [97] [49]) [115] [107] (mkEntry [1] 5 0 0) 1)
    (mkPeer [97] [49]) [115] [108] (mkEntry [] 6 0 FlagTombstone) 1.

#[global] Instance nul_free_dec b : Decision (nul_free b).
Proof. unfold nul_free. apply _. Defined.

Lemma two_hints_ok : pool_ok two_hints.
Proof. repeat apply enqueueHint_ok. apply NewFanoutPool_ok. Qed.

(** The network accepts the first request only. *)
Definition one_shot (n : Z) (r : Request) : bool * Z := (n =? 0, n + 1).

Lemma flush_replays_in_order_witness :
  let '(_, p') := flushPeerHints one_shot 3 0 two_hints [49] in
  map h_key (pending p' [49]) = [[108]] /\ pool_ok p'.
Proof.
  pose proof (flush_replays_in_order one_shot 0 two_hints [49] two_hints_ok ltac:(done)) as H.
  vm_compute (deliver _ _ _ _) in H. specialize (H 3%nat ltac:(by vm_compute; lia)).
  destruct (flushPeerHints one_shot 3 0 two_hints [49]) as [w p'].
  destruct H as (_ & -> & _ & Hok & _). by split.
Defined.

Lemma hint_queues_ok_witness :
  let s := mkHstate two_hints None [] [([115], [108]); ([115], [107])] in
  rtc hint_step (mkHstate (NewFanoutPool 0 2 false) None [] []) s /\
  exists q, hints two_hints !! [49] = Some q /\ q_ok 2 [49] q /\ q_clean q.
Proof.
  intros s. assert (Hrun : rtc hint_step (mkHstate (NewFanoutPool 0 2 false) None [] []) s)
    by (unfold s, two_hints; do 2 (eapply rtc_r; [|apply hs_enqueue]); apply rtc_refl).
  split; [exact Hrun|]. eexists. split; [vm_compute; reflexivity|].
  destruct (hint_queues_ok 0 2 false s Hrun [49] _ ltac:(vm_compute; reflexivity)) as (H1 & _ & _ & H2).
  split; [exact H1|]. apply H2. repeat constructor; by apply (bool_decide_unpack _).
Defined.

(** ** Last writer wins *)

Definition queued (p : FanoutPool) (addr id : bytes) : option fanoutHint :=
  hints p !! addr ≫= fun q => items q !! id.

Lemma queued_with_queue p addr q d id : queued (with_queue p addr q d) addr id = items q !! id.
Proof. unfold queued. cbn. by rewrite lookup_insert_eq. Qed.

Lemma queued_default p addr id :
  items (default (mkHintQ [] ∅) (hints p !! addr)) !! id = queued p addr id.
Proof. unfold queued. by destruct (hints p !! addr). Qed.

(** [b] is at least as new as [a]: a higher version, or the same version and a
    tombstone if [a] is one. *)
Definition at_least (a b : Entry) : Prop :=
  Version a < Version b \/ (Version a = Version b /\ (IsTombstone a = true -> IsTombstone b = true)).

Lemma hintNewer_false a b : hintNewer a b = false -> at_least a b.
Proof.
  unfold hintNewer, at_least. destruct (Z.eqb_spec (Version a) (Version b)) as [E|Hne].
  - destruct (IsTombstone a), (IsTombstone b); naive_solver.
  - intros ?%Z.ltb_ge. lia.
Qed.

Lemma at_least_refl e : at_least e e.
Proof. by right. Qed.

Lemma at_least_newer a b : hintNewer a b = true -> at_least b a.
Proof.
  unfold hintNewer, at_least. destruct (Z.eqb_spec (Version a) (Version b)) as [E|Hne].
  - destruct (IsTombstone a), (IsTombstone b); naive_solver.
  - intros ?%Z.ltb_lt. lia.
Qed.

(** A plain hint never sits under the identity of an item-add, whatever bytes
    the names have. *)
Lemma plain_not_purged max addr q ks key ent h :
  q_ok max addr q -> IsBloomAdd ent = false ->
  items q !! hintID ks key ent = Some h -> is_add_of ks key h = false.
Proof.
  intros Hq Hb Hh. destruct (is_add_of ks key h) eqn:E; [|done]. exfalso. unfold is_add_of in E.
  apply andb_prop in E as [[<-%bool_decide_eq_true <-%bool_decide_eq_true]%andb_prop Hadd].
  destruct (q_hint _ _ _ Hq _ _ Hh) as [Eid _]. unfold hintID in Eid. rewrite Hadd, Hb in Eid.
  apply (f_equal length) in Eid. rewrite !length_app in Eid. cbn in Eid. rewrite length_app in Eid. cbn in Eid. lia.
Qed.

(** The queue after the purge of a tombstone. *)
Definition purged_queue (p : FanoutPool) (addr ks key : bytes) (ent : Entry) : peerHintQ :=
  let q := default (mkHintQ [] ∅) (hints p !! addr) in
  if IsTombstone ent then purgeAdds ks key q else q.

Lemma purged_lookup p addr ks key ent i h :
  items (purged_queue p addr ks key ent) !! i = Some h <->
  queued p addr i = Some h /\ (IsTombstone ent = true -> is_add_of ks key h = false).
Proof.
  unfold purged_queue. rewrite <- queued_default.
  destruct (IsTombstone ent); [rewrite purgeAdds_lookup|]; naive_solver.
Qed.

Lemma purged_kept p addr ks key ent i h :
  queued p addr i = Some h ->
  items (purged_queue p addr ks key ent) !! i = Some h \/ (IsTombstone ent = true /\ is_add_of ks key h = true).
Proof.
  intros Hh. rewrite purged_lookup. destruct (is_add_of ks key h), (IsTombstone ent); naive_solver.
Qed.

Lemma purged_id p addr ks key ent :
  pool_ok p -> IsTombstone ent && IsBloomAdd ent = false ->
  items (purged_queue p addr ks key ent) !! hintID ks key ent = queued p addr (hintID ks key ent).
Proof.
  intros Hp Hexcl. destruct (queued p addr (hintID ks key ent)) as [h|] eqn:E.
  - apply purged_lookup. split; [done|]. intros Ht. rewrite Ht in Hexcl. rewrite <- queued_default in E.
    eapply plain_not_purged; [by apply queue_ok|exact Hexcl|exact E].
  - destruct (items _ !! _) eqn:E'; [|done]. apply purged_lookup in E' as [E' _]. by rewrite E in E'.
Qed.

Lemma purged_len p addr ks key ent :
  len (order (purged_queue p addr ks key ent)) <= len (order (default (mkHintQ [] ∅) (hints p !! addr))).
Proof.
  unfold purged_queue. destruct (IsTombstone ent); [|done]. set (q := default _ _). cbn [order purgeAdds].
  unfold len. apply Nat2Z.inj_le, sublist_length, sublist_filter.
Qed.

(** The four outcomes of an enqueue on an open pool. *)
Inductive enqueue_outcome (p : FanoutPool) (addr : bytes) (h : fanoutHint) (q : peerHintQ) : FanoutPool -> Prop :=
  | eo_blocked : addBlocked (h_ks h) (h_key h) (h_ent h) q = true ->
      enqueue_outcome p addr h q (with_queue p addr q (HintsDropped p))
  | eo_stale old : items q !! hintID (h_ks h) (h_key h) (h_ent h) = Some old ->
      hintNewer (h_ent h) (h_ent old) = false ->
      enqueue_outcome p addr h q (with_queue p addr q (HintsDropped p))
  | eo_replace old : items q !! hintID (h_ks h) (h_key h) (h_ent h) = Some old ->
      hintNewer (h_ent h) (h_ent old) = true ->
      enqueue_outcome p addr h q (with_queue p addr
        (mkHintQ (order q) (<[hintID (h_ks h) (h_key h) (h_ent h) := h]> (items q))) (HintsDropped p))
  | eo_append l ord its d : items q !! hintID (h_ks h) (h_key h) (h_ent h) = None ->
      order q = l ++ ord -> len ord < hintMax p -> its ⊆ items q ->
      (forall i, i ∉ l -> its !! i = items q !! i) -> (l <> [] -> hintMax p <= len (order q)) ->
      enqueue_outcome p addr h q (with_queue p addr
        (mkHintQ (ord ++ [hintID (h_ks h) (h_key h) (h_ent h)]) (<[hintID (h_ks h) (h_key h) (h_ent h) := h]> its)) d).

Lemma enqueueHint_outcome p peer ks key ent gen :
  0 < hintMax p -> hintsDisabled p = false -> closed p = false -> peer_Addr peer <> [] ->
  enqueue_outcome p (peer_Addr peer) (mkHint peer ks key ent gen) (purged_queue p (peer_Addr peer) ks key ent)
    (enqueueHint p peer ks key ent gen).
Proof.
  intros Hm Hdis Hcl Haddr. unfold enqueueHint. rewrite Hdis, Hcl, (bool_decide_eq_false_2 _ Haddr).
  cbn [orb h_ent]. rewrite copyEntry_id. cbv zeta. fold (purged_queue p (peer_Addr peer) ks key ent).
  set (q := purged_queue _ _ _ _ _). destruct (addBlocked ks key ent q) eqn:Hb; [by apply eo_blocked|].
  destruct (items q !! hintID ks key ent) as [old|] eqn:E.
  { destruct (hintNewer ent (h_ent old)) eqn:En; [by eapply eo_replace|by eapply eo_stale]. }
  destruct (dropOldest_spec (hintMax p) (order q) (items q) (HintsDropped p) Hm) as [l Hl].
  destruct (dropOldest _ _ _ _) as [[ord its] d] eqn:Ed. destruct Hl as (Eo & Hlen & Hsub & Hout & _).
  apply (eo_append _ _ (mkHint peer ks key ent gen) q l); try done. intros Hl.
  destruct (Z.leb_spec (hintMax p) (len (order q))) as [|Hlt]; [done|]. exfalso.
  destruct (order q) as [|o r]; [by destruct l, ord|]. cbn [dropOldest] in Ed.
  rewrite (proj2 (Z.leb_gt _ _) Hlt) in Ed. simplify_eq. apply (f_equal length) in Eo.
  rewrite length_app in Eo. destruct l; [done|]. cbn in Eo. lia.
Qed.

(** enqueueing coalesces per identity and the newest entry wins.  Unless an
    item-add is refused because a queued tombstone of its filter is at least as
    new, the identity then holds the new hint or the one queued before, and that
    entry is not older than either (by version, a tombstone winning a tie);
    every other hint of the peer is kept, except item-adds of the filter a
    tombstone deletes and, when the queue is full, the oldest ones; other peers'
    queues do not change. *)
Theorem hint_last_writer_wins p peer ks key ent gen :
  pool_ok p -> hintsDisabled p = false -> closed p = false -> peer_Addr peer <> [] ->
  IsTombstone ent && IsBloomAdd ent = false ->
  let p' := enqueueHint p peer ks key ent gen in
  let addr := peer_Addr peer in
  let id := hintID ks key ent in
  ((IsBloomAdd ent = true /\ exists T, queued p' addr (ks ++ 0 :: key) = Some T /\
      IsTombstone (h_ent T) = true /\ Version ent <= Version (h_ent T))
   \/ exists h, queued p' addr id = Some h /\
      (h = mkHint peer ks key ent gen \/ queued p addr id = Some h) /\
      at_least ent (h_ent h) /\
      (forall old, queued p addr id = Some old -> at_least (h_ent old) (h_ent h))) /\
  (forall i h, i <> id -> queued p' addr i = Some h -> queued p addr i = Some h) /\
  (forall i h, queued p addr i = Some h ->
     is_Some (queued p' addr i) \/ (IsTombstone ent = true /\ is_add_of ks key h = true) \/
     hintMax p <= len (order (default (mkHintQ [] ∅) (hints p !! addr)))) /\
  (forall a, a <> addr -> hints p' !! a = hints p !! a).
Proof.
  intros Hp Hdis Hcl Haddr Hexcl. cbv zeta.
  pose proof (enqueueHint_outcome p peer ks key ent gen (proj1 Hp) Hdis Hcl Haddr) as Ho.
  pose proof (purged_id p (peer_Addr peer) ks key ent Hp Hexcl) as Hid.
  assert (Hold : forall i h, items (purged_queue p (peer_Addr peer) ks key ent) !! i = Some h ->
    queued p (peer_Addr peer) i = Some h) by (intros i h [? _]%purged_lookup; done).
  pose proof (purged_kept p (peer_Addr peer) ks key ent) as Hkept.
  pose proof (purged_len p (peer_Addr peer) ks key ent) as Hlen.
  destruct Ho as [Hb|old E Hn|old E Hn|l ord its d E Eo Hroom Hsub Hout Hfull]; cbn [h_ks h_key h_ent] in *;
    repeat setoid_rewrite queued_with_queue; cbn [items];
    (split_and!; [| | |intros a Ha; cbn; by rewrite lookup_insert_ne]).
  - left. unfold addBlocked in Hb. apply andb_prop in Hb as [? Hb]. split; [done|].
    change (hintID ks key (mkEntry [] 0 0 FlagTombstone)) with (ks ++ 0 :: key) in Hb.
    destruct (items _ !! (ks ++ 0 :: key)) as [T|]; [|done]. exists T.
    apply andb_prop in Hb as [? ?%Z.leb_le]. done.
  - eauto.
  - intros i h Hh. destruct (Hkept i h Hh) as [->|?]; eauto.
  - right. exists old. rewrite <- Hid, E. split_and!; auto using hintNewer_false. intros ? [= <-]. apply at_least_refl.
  - eauto.
  - intros i h Hh. destruct (Hkept i h Hh) as [->|?]; eauto.
  - right. eexists. rewrite lookup_insert_eq. split_and!; [done|by left|apply at_least_refl|].
    intros o. rewrite <- Hid, E. intros [= <-]. by apply at_least_newer.
  - intros i h Hi. rewrite lookup_insert_ne by done. auto.
  - intros i h Hh. rewrite lookup_insert_is_Some'. destruct (Hkept i h Hh) as [->|?]; eauto.
  - right. eexists. rewrite lookup_insert_eq. split_and!; [done|by left|apply at_least_refl|].
    intros o. by rewrite <- Hid, E.
  - intros i h Hi. rewrite lookup_insert_ne by done. intros Hh. eapply Hold, lookup_weaken; done.
  - intros i h Hh. rewrite lookup_insert_is_Some'. destruct (Hkept i h Hh) as [Hi|?]; [|by auto].
    destruct (decide (i ∈ l)) as [Hl|Hl]; [|rewrite Hout by done; left; right; by eexists].
    right; right. etrans; [|exact Hlen]. apply Hfull. by intros ->; apply not_elem_of_nil in Hl.
Qed.

Lemma hint_last_writer_wins_witness :
  let p' := enqueueHint two_hints (mkPeer [97] [49]) [115] [107] (mkEntry [2] 9 0 0) 1 in
  exists h, queued p' [49] (hintID [115] [107] (mkEntry [2] 9 0 0)) = Some h /\
    at_least (mkEntry [2] 9 0 0) (h_ent h).
Proof.
  destruct (hint_last_writer_wins two_hints (mkPeer [97] [49]) [115] [107] (mkEntry [2] 9 0 0) 1
    two_hints_ok eq_refl eq_refl ltac:(done) eq_refl) as [[[? _]|(h & Hh & _ & Hn & _)] _].
  - vm_compute in *. done.
  - exists h. by split.
Defined.

(** ** A full job queue *)

(** The replica at [addr] will still learn of [ent] or something newer. *)
Definition covered (p : FanoutPool) (addr ks key : bytes) (ent : Entry) : Prop :=
  (exists h, queued p addr (hintID ks key ent) = Some h /\ at_least ent (h_ent h)) \/
  (exists T, queued p addr (ks ++ 0 :: key) = Some T /\ IsBloomAdd ent = true /\
     IsTombstone (h_ent T) = true /\ Version ent <= Version (h_ent T)).

Lemma enqueueHint_flags p peer ks key ent gen :
  hintsDisabled (enqueueHint p peer ks key ent gen) = hintsDisabled p /\
  closed (enqueueHint p peer ks key ent gen) = closed p /\
  jobs (enqueueHint p peer ks key ent gen) = jobs p.
Proof. unfold enqueueHint. repeat case_match; done. Qed.

Lemma enqueueHint_other p peer ks key ent gen a :
  a <> peer_Addr peer -> hints (enqueueHint p peer ks key ent gen) !! a = hints p !! a.
Proof. intros. unfold enqueueHint. repeat case_match; try done; cbn; by rewrite lookup_insert_ne. Qed.

Lemma enqueue_covers p peer ks key ent gen :
  0 < hintMax p -> hintsDisabled p = false -> closed p = false -> peer_Addr peer <> [] ->
  covered (enqueueHint p peer ks key ent gen) (peer_Addr peer) ks key ent.
Proof.
  intros Hm Hdis Hcl Haddr. unfold covered.
  destruct (enqueueHint_outcome p peer ks key ent gen Hm Hdis Hcl Haddr)
    as [Hb|old E Hn|old E Hn|l ord its d E Eo Hroom Hsub Hout Hfull]; cbn [h_ks h_key h_ent] in *;
    repeat setoid_rewrite queued_with_queue; cbn [items].
  - right. unfold addBlocked in Hb. apply andb_prop in Hb as [? Hb].
    change (hintID ks key (mkEntry [] 0 0 FlagTombstone)) with (ks ++ 0 :: key) in Hb.
    destruct (items _ !! (ks ++ 0 :: key)) as [T|]; [|done]. exists T.
    apply andb_prop in Hb as [? ?%Z.leb_le]. done.
  - left. exists old. auto using hintNewer_false.
  - left. eexists. split; [apply lookup_insert_eq|apply at_least_refl].
  - left. eexists. split; [apply lookup_insert_eq|apply at_least_refl].
Qed.

Lemma enqueue_all_cover (peers done' : list Peer) p ks key ent gen :
  pool_ok p -> hintsDisabled p = false -> closed p = false ->
  (forall x, x ∈ done' -> peer_Addr x <> [] -> covered p (peer_Addr x) ks key ent) ->
  let p' := fold_left (fun p peer => enqueueHint p peer ks key ent gen) peers p in
  pool_ok p' /\ jobs p' = jobs p /\
  forall x, x ∈ done' ++ peers -> peer_Addr x <> [] -> covered p' (peer_Addr x) ks key ent.
Proof.
  revert p done'. induction peers as [|peer peers IH]; intros p done' Hp Hdis Hcl Hdone; cbn.
  { split_and!; [done|done|]. intros x. rewrite app_nil_r. apply Hdone. }
  destruct (enqueueHint_flags p peer ks key ent gen) as (F1 & F2 & F3).
  destruct (IH (enqueueHint p peer ks key ent gen) (done' ++ [peer])) as (Hok & Hj & Hcov);
    [auto with go|congruence|congruence| |].
  - intros x [Hx| ->%list_elem_of_singleton]%elem_of_app Hne; [|apply enqueue_covers; try done; apply Hp].
    destruct (decide (peer_Addr x = peer_Addr peer)) as [E|Hd].
    + rewrite E. apply enqueue_covers; [apply Hp|done|done|congruence].
    + specialize (Hdone x Hx Hne). unfold covered, queued in *. by rewrite enqueueHint_other.
  - split_and!; [done|congruence|]. intros x Hx. apply Hcov. set_solver.
Qed.

(** C15: Submit on an open pool with hints enabled never loses a mutation: with room in the job
    channel the job is queued behind the others; with a full channel every peer
    that has an address is covered by its hint queue afterwards, that is, its
    queue holds this entry or one that is at least as new under the same
    identity, or, for an item-add, a tombstone of the filter that is at least as
    new.  The hint invariant is kept. *)
Theorem submit_keeps_mutation p peers ks key ent gen :
  pool_ok p -> hintsDisabled p = false -> closed p = false ->
  let p' := Submit p peers ks key ent gen in
  pool_ok p' /\
  (len (jobs p) < jobsCap p -> jobs p' = jobs p ++ [mkJob peers ks key ent gen] /\ hints p' = hints p) /\
  (jobsCap p <= len (jobs p) -> jobs p' = jobs p /\
     forall x, x ∈ peers -> peer_Addr x <> [] -> covered p' (peer_Addr x) ks key ent).
Proof.
  intros Hp Hdis Hcl. cbv zeta. unfold Submit. rewrite Hcl, copyEntry_id. cbn [job_ks job_key job_ent job_ringGen job_peers].
  destruct (Z.ltb_spec (len (jobs p)) (jobsCap p)); [split_and!; [exact Hp|done|lia]|].
  destruct (enqueue_all_cover peers [] (add_dropped_job p) ks key ent gen) as (Hok & Hj & Hc);
    [exact Hp|done|done|set_solver|].
  split_and!; [done|lia|done].
Qed.

Lemma submit_keeps_mutation_witness :
  let p := mkPool false false 2 0 [] ∅ 0 0 0 0 in
  let p' := Submit p [mkPeer [97] [49]; mkPeer [98] [50]] [115] [107] (mkEntry [1] 5 0 0) 1 in
  covered p' [50] [115] [107] (mkEntry [1] 5 0 0).
Proof.
  intros p p'. assert (Hp : pool_ok p) by (split_and!; cbn; [lia|done|apply map_Forall_empty]).
  destruct (submit_keeps_mutation p [mkPeer [97] [49]; mkPeer [98] [50]] [115] [107] (mkEntry [1] 5 0 0) 1 Hp eq_refl eq_refl)
    as (_ & _ & H).
  apply (H ltac:(done)) with (x := mkPeer [98] [50]); [set_solver|done].
Defined.

(** ** Where the protocol loses an update *)

Lemma purge_plain ks key id h :
  IsBloomAdd (h_ent h) = false -> purgeAdds ks key (mkHintQ [id] {[id := h]}) = mkHintQ [id] {[id := h]}.
Proof.
  intros Hb. unfold purgeAdds. cbn [items order]. assert (Hk : is_add_of ks key h = false)
    by (unfold is_add_of; by rewrite Hb, andb_false_r).
  rewrite map_filter_singleton_True by done. rewrite filter_all; [done|].
  repeat constructor. rewrite lookup_singleton_eq. by eexists.
Qed.

(** The queue of a peer without hints, and then of one with one older hint. *)
Definition one_hint (p : FanoutPool) (h : fanoutHint) : FanoutPool :=
  with_queue p (peer_Addr (h_peer h))
    (mkHintQ [h_ks h ++ 0 :: h_key h] {[h_ks h ++ 0 :: h_key h := h]}) (HintsDropped p).

Lemma enqueue_first p peer ks key e gen :
  hintsDisabled p = false -> closed p = false -> peer_Addr peer <> [] ->
  hints p !! peer_Addr peer = None -> IsBloomAdd e = false ->
  enqueueHint p peer ks key e gen = one_hint p (mkHint peer ks key e gen).
Proof.
  intros Hdis Hcl Haddr Hnone Hb. unfold enqueueHint.
  rewrite Hdis, Hcl, (bool_decide_eq_false_2 _ Haddr), Hnone. cbn [orb default h_ent].
  rewrite copyEntry_id. unfold addBlocked, hintID. rewrite Hb. cbn [andb].
  assert (purgeAdds ks key (mkHintQ [] ∅) = mkHintQ [] ∅) as -> by (unfold purgeAdds; cbn; by rewrite map_filter_empty).
  destruct (IsTombstone e); cbn [items order]; rewrite lookup_empty; cbn [dropOldest app]; by rewrite insert_empty.
Qed.

Lemma enqueue_second p peer ks key e1 e2 gen :
  hintsDisabled p = false -> closed p = false -> peer_Addr peer <> [] ->
  IsBloomAdd e1 = false -> IsBloomAdd e2 = false -> Version e1 < Version e2 ->
  enqueueHint (one_hint p (mkHint peer ks key e1 gen)) peer ks key e2 gen = one_hint p (mkHint peer ks key e2 gen).
Proof.
  intros Hdis Hcl Haddr Hb1 Hb2 Hv. set (h1 := mkHint peer ks key e1 gen).
  assert (Hl : hints (one_hint p h1) !! peer_Addr peer = Some (mkHintQ [ks ++ 0 :: key] {[ks ++ 0 :: key := h1]}))
    by apply lookup_insert_eq.
  assert (Hw : forall q, with_queue (one_hint p h1) (peer_Addr peer) q (HintsDropped p) =
    with_queue p (peer_Addr peer) q (HintsDropped p))
    by (intros; unfold one_hint, with_queue; cbn; by rewrite insert_insert_eq).
  unfold enqueueHint. change (hintsDisabled (one_hint p h1)) with (hintsDisabled p).
  change (closed (one_hint p h1)) with (closed p). change (HintsDropped (one_hint p h1)) with (HintsDropped p).
  rewrite Hdis, Hcl, (bool_decide_eq_false_2 _ Haddr), Hl. cbn [orb h_ent default]. rewrite copyEntry_id.
  unfold id. rewrite (purge_plain ks key (ks ++ 0 :: key) h1 Hb1). unfold addBlocked, hintID. rewrite Hb2. cbn [andb].
  destruct (IsTombstone e2) eqn:Et; cbn [items order]; rewrite lookup_singleton_eq; unfold hintNewer; cbn [h_ent h1];
    rewrite (proj2 (Z.eqb_neq _ _)) by lia; rewrite (proj2 (Z.ltb_lt _ _) Hv), Hw, insert_singleton_eq; done.
Qed.

(** a hint can be lost.  The flusher sends the hint it peeked with the mutex
    released and then pops by identity: when a newer entry for the same key is
    enqueued in between, it replaces the hint in place, and the pop removes it
    although only the older entry was sent.  From any pool without hints for the
    peer, the schedule enqueue e1, peek, enqueue e2, acknowledge ends with no
    hint for the peer, with e1 alone in the log, and no drop counted. *)
Theorem hint_lost_update p peer ks key e1 e2 gen log ns :
  hintsDisabled p = false -> closed p = false -> 0 < hintMax p -> peer_Addr peer <> [] ->
  hints p !! peer_Addr peer = None ->
  IsBloomAdd e1 = false -> IsBloomAdd e2 = false -> Version e1 < Version e2 ->
  exists p', rtc hint_step (mkHstate p None log ns)
    (mkHstate p' None (log ++ [(peer_Addr peer, mkHint peer ks key e1 gen)]) ((ks, key) :: (ks, key) :: ns)) /\
  hints p' !! peer_Addr peer = None /\ HintsDropped p' = HintsDropped p.
Proof.
  intros Hdis Hcl Hm Haddr Hnone Hb1 Hb2 Hv.
  exists (add_flushed (popHint (one_hint p (mkHint peer ks key e2 gen)) (peer_Addr peer) (hintID ks key e1))).
  split; [|unfold popHint, one_hint, with_queue, hintID; cbn [hints h_peer h_ks h_key]; rewrite Hb1, lookup_insert_eq;
    cbn [order removeFirst]; rewrite bool_decide_eq_true_2 by done; cbn; by rewrite lookup_delete_eq].
  eapply rtc_l; [apply hs_enqueue with (ks := ks) (key := key) (peer := peer) (ent := e1) (gen := gen)|].
  rewrite enqueue_first by done. eapply rtc_l; [apply hs_peek with (addr := peer_Addr peer) (h := mkHint peer ks key e1 gen)|].
  { unfold peekHint, one_hint. cbn [hints with_queue h_peer h_ks h_key]. rewrite lookup_insert_eq. apply lookup_singleton_eq. }
  eapply rtc_l; [apply hs_enqueue with (ks := ks) (key := key) (peer := peer) (ent := e2) (gen := gen)|].
  rewrite enqueue_second by done. eapply rtc_l; [apply hs_ack|]. apply rtc_refl.
Qed.

Lemma hint_lost_update_witness :
  exists p', rtc hint_step (mkHstate (NewFanoutPool 0 0 false) None [] [])
    (mkHstate p' None [([49], mkHint (mkPeer [97] [49]) [115] [107] (mkEntry [1] 5 0 0) 1)]
       [([115], [107]); ([115], [107])]) /\
  hints p' !! [49] = None /\ HintsDropped p' = 0.
Proof.
  apply (hint_lost_update (NewFanoutPool 0 0 false) (mkPeer [97] [49]) [115] [107]
    (mkEntry [1] 5 0 0) (mkEntry [2] 6 0 0) 1 [] []); done.
Defined.
