(* ===== verification/Progress.v ===== *)
(** * Progress of the background flusher

    Hints leave a queue only by an acknowledged RPC ([Hints]); here the
    converse: once a peer answers again, the rounds of the flusher deliver
    everything that was queued for it, in order. *)
From S2P Require Import Prelude Wire Store Ring Hints.

Implicit Types (p : FanoutPool) (addr : bytes).

Definition addrOf (r : Request) : bytes := match r with ApplyPut a _ _ _ _ => a | ApplyDelete a _ _ _ _ => a end.

Definition hintRequest addr (h : fanoutHint) : Request := requestFor addr (h_ks h) (h_key h) (h_ent h) (h_ringGen h).

Lemma addrOf_hint addr h : addrOf (hintRequest addr h) = addr.
Proof. unfold hintRequest, requestFor. by destruct (IsTombstone (h_ent h)). Qed.

Section progress.
Context {W : Type} (rpc : W -> Request -> bool * W) (budget : W -> nat) (addr : bytes).

(** The network, with a record of the requests [addr] acknowledged. *)
Definition recording (wl : W * list Request) (r : Request) : bool * (W * list Request) :=
  let '(ok, w) := rpc wl.1 r in
  (ok, (w, if ok && bool_decide (addrOf r = addr) then wl.2 ++ [r] else wl.2)).

(** The peer refuses finitely many more requests: [budget] bounds how many. *)
Definition recovers : Prop :=
  forall w r, (budget (rpc w r).2 <= budget w)%nat /\
    (addrOf r = addr -> (rpc w r).1 = false -> (budget (rpc w r).2 < budget w)%nat).

Context (Hrec : recovers).

Lemma deliver_other a hs wl : a <> addr ->
  let '(wl', _) := deliver recording wl a hs in wl'.2 = wl.2 /\ (budget wl'.1 <= budget wl.1)%nat.
Proof.
  intros Ha. revert wl. induction hs as [|h hs IH]; intros [w log]; [done|]. cbn [deliver].
  unfold recording at 1. cbn [fst snd]. fold (hintRequest a h). destruct (Hrec w (hintRequest a h)) as [Hb _].
  destruct (rpc w (hintRequest a h)) as [ok w1]. cbn [fst snd] in *.
  rewrite addrOf_hint, (bool_decide_eq_false_2 _ Ha), andb_false_r. destruct ok; [|by split].
  specialize (IH (w1, log)). destruct (deliver recording (w1, log) a hs) as [wl' rest]. cbn [fst snd] in *.
  destruct IH. split; [done|lia].
Qed.

Lemma deliver_own hs wl :
  let '(wl', rest) := deliver recording wl addr hs in
  wl'.2 ++ map (hintRequest addr) rest = wl.2 ++ map (hintRequest addr) hs /\
  (budget wl'.1 <= budget wl.1)%nat /\ (rest = [] \/ (budget wl'.1 < budget wl.1)%nat).
Proof.
  revert wl. induction hs as [|h hs IH]; intros [w log]; [cbn; auto|]. cbn [deliver].
  unfold recording at 1. cbn [fst snd]. fold (hintRequest addr h). destruct (Hrec w (hintRequest addr h)) as [Hb Hf].
  rewrite addrOf_hint in Hf. specialize (Hf eq_refl). destruct (rpc w (hintRequest addr h)) as [ok w1]. cbn [fst snd] in *.
  rewrite addrOf_hint, (bool_decide_eq_true_2 _ eq_refl). destruct ok; cbn [andb]; [|cbn [fst snd]; auto].
  specialize (IH (w1, log ++ [hintRequest addr h])). destruct (deliver recording _ addr hs) as [wl' rest]. cbn [fst snd] in *.
  destruct IH as (H1 & H2 & H3). split_and!; [by rewrite H1, <- app_assoc|lia|]. destruct H3; [by left|right; lia].
Qed.

Lemma pending_fuel p a :
  (length (pending p a) < match hints p !! a with Some q => S (length (order q)) | None => 1 end)%nat.
Proof.
  unfold pending. destruct (hints p !! a) as [q|]; [|cbn; lia]. induction (order q) as [|i l IH]; [cbn; lia|].
  cbn [omap list_omap]. destruct (items q !! i); cbn [length]; cbn [length] in IH; lia.
Qed.

Lemma flushPeerHints_closed {V} (f : V -> Request -> bool * V) fuel w p a :
  closed (flushPeerHints f fuel w p a).2 = closed p.
Proof.
  revert w p. induction fuel as [|fuel IH]; intros w p; [done|]. cbn [flushPeerHints].
  destruct (peekHint p a) as [h|]; [|done]. unfold replayHint, applyToPeer. cbv zeta.
  destruct (bool_decide _); [|destruct (bool_decide _)].
  all: try (destruct (f w _) as [[] w1]; [|done]); rewrite ?IH; unfold popHint; by destruct (hints p !! a).
Qed.

(** What a step of the flusher keeps: nothing of [addr]'s hints is lost or
    repeated, and the peer's refusals run down. *)
Record advanced (wl : W * list Request) p (wl' : W * list Request) p' : Prop := {
  ad_ok : pool_ok p';
  ad_closed : closed p' = closed p;
  ad_sent : wl'.2 ++ map (hintRequest addr) (pending p' addr) = wl.2 ++ map (hintRequest addr) (pending p addr);
  ad_budget : (budget wl'.1 <= budget wl.1)%nat;
  ad_dropped : HintsDropped p' = HintsDropped p;
  ad_drained : pending p addr = [] -> pending p' addr = [];
}.

Lemma flush_advances wl p a :
  pool_ok p -> a <> [] ->
  let fuel := match hints p !! a with Some q => S (length (order q)) | None => 1%nat end in
  let '(wl', p') := flushPeerHints recording fuel wl p a in
  advanced wl p wl' p' /\ (a <> addr -> pending p' addr = pending p addr) /\
  (a = addr -> pending p' addr = [] \/ (budget wl'.1 < budget wl.1)%nat).
Proof.
  intros Hp Ha fuel. pose proof (flush_spec recording fuel wl p a Hp Ha (pending_fuel p a)) as H.
  pose proof (flushPeerHints_closed recording fuel wl p a) as Hc.
  destruct (decide (a = addr)) as [->|Hne].
  - pose proof (deliver_own (pending p addr) wl) as Hd. destruct (deliver recording wl addr _) as [wl1 rest] eqn:Ed.
    destruct (flushPeerHints recording fuel wl p addr) as [wl' p']. destruct H as (-> & H2 & H3 & _ & _ & H5 & _).
    destruct Hd as (D1 & D2 & D3). rewrite <- H2 in *.
    split; [split; [done..|]|done]. intros E. rewrite E in Ed. by injection Ed.
  - pose proof (deliver_other a (pending p a) wl Hne) as Hd. destruct (deliver recording wl a _) as [wl1 rest].
    destruct (flushPeerHints recording fuel wl p a) as [wl' p']. destruct H as (-> & H2 & H3 & H4 & _ & H5 & _).
    destruct Hd as (D1 & D2). assert (Hpend : pending p' addr = pending p addr) by (unfold pending; by rewrite H4).
    split; [split; [done|done|by rewrite Hpend, D1|done|done|by rewrite Hpend]|done].
Qed.

Lemma advanced_trans wl p wl1 p1 wl2 p2 : advanced wl p wl1 p1 -> advanced wl1 p1 wl2 p2 -> advanced wl p wl2 p2.
Proof. intros [] []. split; [done|congruence|congruence|lia|congruence|auto]. Qed.

Lemma flushAddrs_advances addrs wl p :
  pool_ok p -> closed p = false -> Forall (fun a => a <> []) addrs ->
  let '(wl', p') := flushAddrs recording wl p addrs in
  advanced wl p wl' p' /\ (addr ∈ addrs -> pending p' addr = [] \/ (budget wl'.1 < budget wl.1)%nat).
Proof.
  revert wl p. induction addrs as [|a addrs IH]; intros wl p Hp Hc Hall; cbn [flushAddrs].
  { split; [by split|]. intros []%elem_of_nil. }
  rewrite Hc. inversion Hall as [|? ? Ha Hall']; subst. pose proof (flush_advances wl p a Hp Ha) as Hf. cbv zeta in Hf.
  destruct (flushPeerHints recording _ wl p a) as [wl1 p1]. destruct Hf as (Hadv & _ & Hown).
  specialize (IH wl1 p1 (ad_ok _ _ _ _ Hadv) (eq_trans (ad_closed _ _ _ _ Hadv) Hc) Hall').
  destruct (flushAddrs recording wl1 p1 addrs) as [wl' p']. destruct IH as [Hadv' Hin].
  split; [by eapply advanced_trans|]. pose proof (ad_budget _ _ _ _ Hadv). pose proof (ad_budget _ _ _ _ Hadv').
  intros [E|Hmem]%elem_of_cons.
  - destruct (Hown (eq_sym E)) as [He|]; [left; by apply (ad_drained _ _ _ _ Hadv')|right; lia].
  - destruct (Hin Hmem); [by left|right; lia].
Qed.

Lemma flushHints_advances wl p :
  pool_ok p -> closed p = false ->
  let '(wl', p') := flushHints recording wl p in
  advanced wl p wl' p' /\ (pending p' addr = [] \/ (budget wl'.1 < budget wl.1)%nat).
Proof.
  intros Hp Hc. unfold flushHints. pose proof (flushAddrs_advances (map_to_list (hints p)).*1 wl p Hp Hc) as H.
  destruct (flushAddrs recording wl p _) as [wl' p']. destruct H as [Hadv Hin].
  { apply Forall_forall. intros a Hm ->. apply list_elem_of_fmap in Hm as ([k q] & E & Hm). cbn in E. subst k.
    apply elem_of_map_to_list in Hm. destruct Hp as (_ & H0 & _). congruence. }
  split; [done|]. destruct (hints p !! addr) as [q|] eqn:E.
  - apply Hin. apply list_elem_of_fmap. exists (addr, q). split; [done|]. by apply elem_of_map_to_list.
  - left. apply (ad_drained _ _ _ _ Hadv). unfold pending. by rewrite E.
Qed.

(** Rounds of the ticker. *)
Fixpoint rounds (n : nat) (wl : W * list Request) p : (W * list Request) * FanoutPool :=
  match n with
  | O => (wl, p)
  | S n => let '(wl, p) := flushHints recording wl p in rounds n wl p
  end.

Lemma rounds_drain n wl p :
  pool_ok p -> closed p = false -> pending p addr = [] \/ (budget wl.1 < n)%nat ->
  let '(wl', p') := rounds n wl p in advanced wl p wl' p' /\ pending p' addr = [].
Proof.
  revert wl p. induction n as [|n IH]; intros wl p Hp Hc Hn; cbn [rounds].
  { destruct Hn; [|lia]. split; [by split|done]. }
  pose proof (flushHints_advances wl p Hp Hc) as H. destruct (flushHints recording wl p) as [wl1 p1].
  destruct H as [Hadv Hor]. specialize (IH wl1 p1 (ad_ok _ _ _ _ Hadv) (eq_trans (ad_closed _ _ _ _ Hadv) Hc)).
  destruct (rounds n wl1 p1) as [wl' p']. destruct IH as [Hadv' Hd].
  - destruct Hn as [Hn|Hn]; [left; by apply (ad_drained _ _ _ _ Hadv)|]. destruct Hor; [by left|right; lia].
  - split; [by eapply advanced_trans|done].
Qed.

(** C29: every queued hint is delivered once its peer answers.  When a peer refuses
    only finitely many requests, whatever the other peers do, then after that
    many rounds of the flusher plus one, in an open pool where nothing is
    enqueued meanwhile, its queue is empty, and what it
    acknowledged meanwhile is exactly the hints that were queued for it, in
    queue order, each once; nothing was dropped. *)
Theorem hints_drain w p n :
  pool_ok p -> closed p = false -> (budget w < n)%nat ->
  let '((w', log), p') := rounds n (w, []) p in
  pending p' addr = [] /\ log = map (hintRequest addr) (pending p addr) /\
  HintsDropped p' = HintsDropped p /\ pool_ok p'.
Proof.
  intros Hp Hc Hn. pose proof (rounds_drain n (w, []) p Hp Hc (or_intror Hn)) as H.
  destruct (rounds n (w, []) p) as [[w' log] p']. destruct H as [[H1 _ H3 _ H5 _] Hd].
  rewrite Hd, app_nil_r in H3. done.
Qed.
End progress.

(** A network that refuses the first two requests. *)
Definition refuses_two (n : nat) (r : Request) : bool * nat := match n with O => (true, O) | S n => (false, n) end.

Lemma refuses_two_recovers addr : recovers refuses_two (fun n => n) addr.
Proof. intros w r. destruct w; cbn; split; intros; (done || lia). Qed.

Lemma hints_drain_witness :
  let '((_, log), p') := rounds refuses_two [49] 3 (2%nat, []) two_hints in
  pending p' [49] = [] /\ log = map (hintRequest [49]) (pending two_hints [49]) /\
  HintsDropped p' = HintsDropped two_hints /\ pool_ok p'.
Proof.
  exact (hints_drain refuses_two (fun n => n) [49] (refuses_two_recovers [49]) 2%nat two_hints 3%nat
    two_hints_ok eq_refl ltac:(cbn; lia)).
Defined.
