(* ===== verification/Protect.v ===== *)
(** * Load protection: pkg/protect/protect.go

    The circuit breaker and the token bucket in front of a data source.  Each
    critical section of the guard's mutex is one function.  [Allow] is a call
    that nobody interleaves; the sections of a call, one at a time, are
    [advance], and [request_step] interleaves the sections of any number of
    calls.  Tokens are IEEE doubles, computed with the Standard
    Library's executable binary64.  The clock is an argument, in nanoseconds. *)
From S2P Require Import Prelude.
From Stdlib Require Import SpecFloat.

(** ** float64 *)

Abbreviation f64 := spec_float (only parsing).

Definition fadd : spec_float -> spec_float -> spec_float := SFadd 53 1024.
Definition fsub : spec_float -> spec_float -> spec_float := SFsub 53 1024.
Definition fmul : spec_float -> spec_float -> spec_float := SFmul 53 1024.
Definition fdiv : spec_float -> spec_float -> spec_float := SFdiv 53 1024.

(** float64(z) *)
Definition f_of_Z (z : Z) : spec_float := binary_normalize 53 1024 z 0 false.

Definition f_zero : spec_float := f_of_Z 0.
Definition f_one : spec_float := f_of_Z 1.

(** int(x): truncation; out of the range of int the result is the one of amd64. *)
Definition f_to_int (x : spec_float) : Z :=
  match x with
  | S754_zero _ => 0
  | S754_finite s m e =>
      let a := if 0 <=? e then Z.pos m * 2 ^ e else Z.pos m / 2 ^ (- e) in
      let v := if s then - a else a in
      if (MinInt64 <=? v) && (v <=? MaxInt64) then v else MinInt64
  | _ => MinInt64
  end.

(** Duration.Seconds() *)
Definition Seconds (d : Z) : spec_float :=
  fadd (f_of_Z (Z.quot d 1000000000)) (fdiv (f_of_Z (Z.rem d 1000000000)) (f_of_Z 1000000000)).

(** ** The guard *)

Record PConfig := mkPConfig {
  RateLimitRPS : spec_float;
  Burst : Z;
  FailureThreshold : Z;
  OpenTimeout : Z;       (* nanoseconds *)
}.

Inductive BState := stateClosed | stateOpen | stateHalfOpen.

#[global] Instance BState_eq_dec : EqDecision BState.
Proof. solve_decision. Defined.

Record Guard := mkGuard {
  gcfg : PConfig;
  tokens : spec_float;
  lastRefill : Z;
  consecutiveFails : Z;
  gstate : BState;
  openedAt : Z;
  probeInFlight : bool;
  limited : Z;
  opens : Z;
}.

Inductive GErr := ErrRateLimited | ErrCircuitOpen.

Definition Guard_New (now : Z) (cfg : PConfig) : Guard :=
  let cfg := if OpenTimeout cfg <=? 0
             then mkPConfig (RateLimitRPS cfg) (Burst cfg) (FailureThreshold cfg) (30 * 1000000000) else cfg in
  let tokens :=
    if SFltb f_zero (RateLimitRPS cfg) then
      let burst := Burst cfg in
      let burst := if burst <=? 0 then
                     let burst := f_to_int (RateLimitRPS cfg) in if burst <? 1 then 1 else burst
                   else burst in
      f_of_Z burst
    else f_zero in
  mkGuard cfg tokens now 0 stateClosed 0 false 0 0.

(** The breaker's fields; the bucket's. *)
Definition with_breaker (g : Guard) (fails : Z) (st : BState) (at_ : Z) (probe : bool) (ops : Z) : Guard :=
  mkGuard (gcfg g) (tokens g) (lastRefill g) fails st at_ probe (limited g) ops.
Definition with_bucket (g : Guard) (t : spec_float) (last : Z) : Guard :=
  mkGuard (gcfg g) t last (consecutiveFails g) (gstate g) (openedAt g) (probeInFlight g) (limited g) (opens g).
Definition add_limited (g : Guard) : Guard :=
  mkGuard (gcfg g) (tokens g) (lastRefill g) (consecutiveFails g) (gstate g) (openedAt g) (probeInFlight g)
    (limited g +u 1) (opens g).

Definition checkBreaker (now : Z) (g : Guard) : option GErr * Guard :=
  if FailureThreshold (gcfg g) <=? 0 then (None, g)
  else
    match gstate g with
    | stateClosed => (None, g)
    | stateOpen =>
        if now - openedAt g <? OpenTimeout (gcfg g) then (Some ErrCircuitOpen, g)
        else (None, with_breaker g (consecutiveFails g) stateHalfOpen (openedAt g) true (opens g))
    | stateHalfOpen =>
        if probeInFlight g then (Some ErrCircuitOpen, g)
        else (None, with_breaker g (consecutiveFails g) stateHalfOpen (openedAt g) true (opens g))
    end.

Definition takeToken (now : Z) (g : Guard) : option GErr * Guard :=
  if SFleb (RateLimitRPS (gcfg g)) f_zero then (None, g)
  else
    let elapsed := Seconds (now - lastRefill g) in
    let t := fadd (tokens g) (fmul elapsed (RateLimitRPS (gcfg g))) in
    let burst := if Burst (gcfg g) <=? 0
                 then if SFltb (RateLimitRPS (gcfg g)) f_one then f_one else RateLimitRPS (gcfg g)
                 else f_of_Z (Burst (gcfg g)) in
    let t := if SFltb burst t then burst else t in
    if SFltb t f_one then (Some ErrRateLimited, with_bucket g t now)
    else (None, with_bucket g (fsub t f_one) now).

Definition releaseProbeSlot (g : Guard) : Guard :=
  if FailureThreshold (gcfg g) <=? 0 then g
  else if bool_decide (gstate g = stateHalfOpen)
  then with_breaker g (consecutiveFails g) (gstate g) (openedAt g) false (opens g) else g.

Definition Allow (now : Z) (g : Guard) : option GErr * Guard :=
  match checkBreaker now g with
  | (Some err, g) => (Some err, g)
  | (None, g) =>
      match takeToken now g with
      | (Some err, g) => (Some err, releaseProbeSlot (add_limited g))
      | (None, g) => (None, g)
      end
  end.

(** *** The sections of Allow *)

(** Where a call stands: before the unlocked look at the state, before the
    locked one, before the bucket, between the refusal of the bucket and the
    count and then the release of the probe slot, or done. *)
Inductive phase :=
  | AtLoad | AtCheck | AtToken | AtCount | AtRelease
  | Granted | Refused (err : GErr).

Definition advance (now : Z) (ph : phase) (g : Guard) : phase * Guard :=
  match ph with
  | AtLoad =>
      if FailureThreshold (gcfg g) <=? 0 then (AtToken, g)
      else match gstate g with stateClosed => (AtToken, g) | _ => (AtCheck, g) end
  | AtCheck =>
      match checkBreaker now g with (Some err, g) => (Refused err, g) | (None, g) => (AtToken, g) end
  | AtToken =>
      match takeToken now g with (Some _, g) => (AtCount, g) | (None, g) => (Granted, g) end
  | AtCount => (AtRelease, add_limited g)
  | AtRelease => (Refused ErrRateLimited, releaseProbeSlot g)
  | Granted | Refused _ => (ph, g)
  end.

(** The calls of any number of goroutines: one begins, or one takes its next
    section at some time. *)
Inductive request_step : list phase * Guard -> list phase * Guard -> Prop :=
  | rs_begin rs g : request_step (rs, g) (rs ++ [AtLoad], g)
  | rs_advance rs g now i ph ph' g' : rs !! i = Some ph -> advance now ph g = (ph', g') ->
      request_step (rs, g) (<[i := ph']> rs, g').

Definition OnSuccess (g : Guard) : Guard :=
  if FailureThreshold (gcfg g) <=? 0 then g
  else with_breaker g 0 stateClosed (openedAt g) false (opens g).

Definition OnFailure (now : Z) (g : Guard) : Guard :=
  if FailureThreshold (gcfg g) <=? 0 then g
  else
    let wasHalfOpen := bool_decide (gstate g = stateHalfOpen) in
    let fails := consecutiveFails g + 1 in
    if wasHalfOpen || (FailureThreshold (gcfg g) <=? fails)
    then with_breaker g fails stateOpen now false (opens g +u 1)
    else with_breaker g fails (gstate g) (openedAt g) false (opens g).

Definition Guard_Stats (g : Guard) : Z * Z := (limited g, opens g).

(** ** The breaker *)

(** A run of admission requests at the given times: how many were admitted. *)
Fixpoint allows (ts : list Z) (g : Guard) : Z * Guard :=
  match ts with
  | [] => (0, g)
  | t :: ts =>
      let '(r, g) := Allow t g in
      let '(n, g) := allows ts g in
      ((match r with None => 1 | Some _ => 0 end) + n, g)
  end.

(** Half-open with the probe out. *)
Definition probing (g : Guard) : Prop :=
  0 < FailureThreshold (gcfg g) /\ gstate g = stateHalfOpen /\ probeInFlight g = true.

Definition tripped (g : Guard) : Prop := 0 < FailureThreshold (gcfg g) /\ gstate g <> stateClosed.

Lemma probing_tripped g : probing g -> tripped g.
Proof. intros (? & Hs & _). split; [done|by rewrite Hs]. Qed.

Lemma takeToken_breaker now g r g' :
  takeToken now g = (r, g') ->
  gcfg g' = gcfg g /\ gstate g' = gstate g /\ probeInFlight g' = probeInFlight g /\
  consecutiveFails g' = consecutiveFails g /\ openedAt g' = openedAt g.
Proof. unfold takeToken. cbv zeta. repeat case_match; intros [= <- <-]; done. Qed.

Lemma probing_Allow now g : probing g -> Allow now g = (Some ErrCircuitOpen, g).
Proof.
  intros (Ht & Hs & Hp). unfold Allow, checkBreaker. rewrite Hs, Hp.
  by destruct (Z.leb_spec (FailureThreshold (gcfg g)) 0); [lia|].
Qed.

(** An admission by a tripped breaker is a probe; a refusal leaves it tripped. *)
Lemma tripped_Allow now g r g' :
  tripped g -> Allow now g = (r, g') -> tripped g' /\ (r = None -> probing g').
Proof.
  intros [Ht Hs]. unfold Allow, checkBreaker.
  destruct (Z.leb_spec (FailureThreshold (gcfg g)) 0); [lia|].
  assert (Hgo : forall g1, gcfg g1 = gcfg g -> gstate g1 = stateHalfOpen -> probeInFlight g1 = true ->
    match takeToken now g1 with
    | (Some err, g) => (Some err, releaseProbeSlot (add_limited g))
    | (None, g) => (None, g)
    end = (r, g') -> tripped g' /\ (r = None -> probing g')).
  { intros g1 Hc H1 Hp. destruct (takeToken now g1) as [r2 g2] eqn:E.
    apply takeToken_breaker in E as (Ec & Es & Ep & _). rewrite Hc in Ec. rewrite H1 in Es. rewrite Hp in Ep.
    destruct r2; intros [= <- <-].
    - unfold releaseProbeSlot, tripped. cbn [gcfg gstate add_limited]. rewrite Ec, Es.
      destruct (Z.leb_spec (FailureThreshold (gcfg g)) 0); [lia|]. rewrite bool_decide_eq_true_2 by done.
      cbn [gcfg gstate with_breaker add_limited]. by rewrite ?Ec, ?Es.
    - unfold tripped, probing. rewrite Ec, Es. done. }
  destruct (gstate g) eqn:Eg; [done| |].
  - destruct (_ <? _); [intros [= <- <-]; split; [by split; rewrite ?Eg|done]|]. by apply Hgo.
  - destruct (probeInFlight g); [intros [= <- <-]; split; [by split; rewrite ?Eg|done]|]. by apply Hgo.
Qed.

Lemma allows_probing ts g : probing g -> allows ts g = (0, g).
Proof. induction ts as [|t ts IH]; intros Hg; cbn; [done|]. by rewrite probing_Allow, IH. Qed.

Lemma allows_tripped ts g : tripped g -> (allows ts g).1 <= 1.
Proof.
  revert g. induction ts as [|t ts IH]; intros g Hg; cbn; [lia|].
  destruct (Allow t g) as [r g'] eqn:E. destruct (tripped_Allow _ _ _ _ Hg E) as [Hg' Hp].
  destruct r.
  - specialize (IH g' Hg'). destruct (allows ts g'). cbn in *. lia.
  - rewrite allows_probing by auto. cbn. lia.
Qed.

(** A call without interference is its sections in a row. *)
Definition section_of (now : Z) (s s' : phase * Guard) : Prop := advance now s.1 s.2 = s'.
Definition verdict (ph : phase) : option (option GErr) :=
  match ph with Granted => Some None | Refused err => Some (Some err) | _ => None end.

Lemma section_l now ph g s s' : advance now ph g = s -> rtc (section_of now) s s' -> rtc (section_of now) (ph, g) s'.
Proof. intros H. by apply rtc_l. Qed.

Lemma takeToken_err now g err g' : takeToken now g = (Some err, g') -> err = ErrRateLimited.
Proof. unfold takeToken. cbv zeta. repeat case_match; by intros [= <- _]. Qed.

Lemma token_sections now g :
  exists ph g', rtc (section_of now) (AtToken, g) (ph, g') /\ verdict ph = Some
    (match takeToken now g with (Some err, g) => (Some err, releaseProbeSlot (add_limited g)) | (None, g) => (None, g) end).1 /\
    g' = (match takeToken now g with (Some err, g) => (Some err, releaseProbeSlot (add_limited g)) | (None, g) => (None, g) end).2.
Proof.
  destruct (takeToken now g) as [[err|] g1] eqn:E.
  - exists (Refused ErrRateLimited), (releaseProbeSlot (add_limited g1)). split; [|by rewrite (takeToken_err _ _ _ _ E)].
    do 3 (eapply section_l; [cbn; rewrite ?E; reflexivity|]). apply rtc_refl.
  - exists Granted, g1. split; [|done]. eapply section_l; [cbn; by rewrite E|apply rtc_refl].
Qed.

Lemma Allow_sections now g :
  exists ph g', rtc (section_of now) (AtLoad, g) (ph, g') /\ verdict ph = Some (Allow now g).1 /\ g' = (Allow now g).2.
Proof.
  unfold Allow. destruct (checkBreaker now g) as [r1 g1] eqn:E1.
  destruct (decide (0 < FailureThreshold (gcfg g) /\ gstate g <> stateClosed)) as [[H1 H2]|Hno].
  - assert (Hl : advance now AtLoad g = (AtCheck, g)).
    { cbn. rewrite (proj2 (Z.leb_gt _ _)) by lia. by destruct (gstate g). }
    destruct r1 as [err|].
    + exists (Refused err), g1. split; [|done]. eapply section_l; [exact Hl|]. eapply section_l; [cbn; by rewrite E1|apply rtc_refl].
    + destruct (token_sections now g1) as (ph & g' & Hr & Hv & Hg). exists ph, g'. split; [|done].
      eapply section_l; [exact Hl|]. eapply section_l; [cbn; rewrite E1; reflexivity|done].
  - assert (Hc : checkBreaker now g = (None, g) /\ advance now AtLoad g = (AtToken, g)).
    { unfold checkBreaker. cbn. destruct (Z.leb_spec (FailureThreshold (gcfg g)) 0); [done|].
      destruct (gstate g); [done|exfalso; apply Hno; by split..]. }
    destruct Hc as [Hc Hl]. rewrite Hc in E1. injection E1 as <- <-.
    destruct (token_sections now g) as (ph & g' & Hr & Hv & Hg). exists ph, g'. split; [|done]. by eapply section_l.
Qed.

(** Past the look at the breaker and not refused. *)
Definition passed (ph : phase) : bool :=
  match ph with AtToken | AtCount | AtRelease | Granted => true | _ => false end.
Definition waiting (ph : phase) : bool := match ph with AtLoad | AtCheck => true | _ => false end.
Definition granted (ph : phase) : bool := match ph with Granted => true | _ => false end.
Definition number (f : phase -> bool) (rs : list phase) : Z := len (filter (fun ph => f ph = true) rs).

(** A tripped breaker has let through at most one call, which holds the probe. *)
Definition one_passed (s : list phase * Guard) : Prop :=
  tripped s.2 /\ (number passed s.1 = 0 \/ number passed s.1 = 1 /\ probing s.2).

Lemma number_cons (f : phase -> bool) ph rs : number f (ph :: rs) = Z.b2z (f ph) + number f rs.
Proof.
  unfold number. rewrite filter_cons. destruct (f ph); [rewrite decide_True, len_cons by done|rewrite decide_False by done]; cbn; lia.
Qed.

Lemma number_nonneg (f : phase -> bool) rs : 0 <= number f rs.
Proof. apply len_nonneg. Qed.

Lemma number_update (f : phase -> bool) rs (i : nat) ph ph' :
  rs !! i = Some ph -> number f (<[i := ph']> rs) = number f rs - Z.b2z (f ph) + Z.b2z (f ph').
Proof.
  revert i. induction rs as [|x rs IH]; intros [|i] Hi; try done.
  - injection Hi as ->. cbn [insert list_insert]. rewrite !number_cons. lia.
  - change (<[S i := ph']> (x :: rs)) with (x :: <[i := ph']> rs). rewrite !number_cons. rewrite IH by done. lia.
Qed.

Lemma number_pos (f : phase -> bool) rs (i : nat) ph : rs !! i = Some ph -> f ph = true -> 1 <= number f rs.
Proof.
  revert i. induction rs as [|x rs IH]; intros [|i] Hi Hf; try done; rewrite number_cons.
  - injection Hi as ->. rewrite Hf. pose proof (number_nonneg f rs). cbn. lia.
  - specialize (IH i Hi Hf). destruct (f x); cbn; lia.
Qed.

(** What a section does to a tripped breaker: a call gets past it by taking the
    free probe slot, and gives the slot back when it is refused. *)
Lemma advance_tripped now ph g ph' g' :
  tripped g -> advance now ph g = (ph', g') -> (passed ph = true -> probing g) ->
  tripped g' /\
  match passed ph, passed ph' with
  | true, true => probing g'
  | true, false => True
  | false, true => ~ probing g /\ probing g'
  | false, false => probing g -> probing g'
  end.
Proof.
  intros Ht. pose proof Ht as [H1 H2].
  assert (H0 : (FailureThreshold (gcfg g) <=? 0) = false) by (apply Z.leb_gt; lia).
  destruct ph; cbn [advance passed].
  - rewrite H0. destruct (gstate g) eqn:Es; [done|..]; intros [= <- <-] _; cbn [passed]; (split; [exact Ht|auto]).
  - unfold checkBreaker. rewrite H0. destruct (gstate g) eqn:Es; [done|destruct (_ <? _)|destruct (probeInFlight g) eqn:Ep];
      intros [= <- <-] _; cbn [passed]; try (by split); (split; [by split|]); split;
      [intros (_ & ? & ?); congruence|by split_and!|intros (_ & ? & ?); congruence|by split_and!].
  - destruct (takeToken now g) as [r g1] eqn:E. apply takeToken_breaker in E as (Ec & Es & Ep & _).
    intros Ha Hp. specialize (Hp eq_refl). assert (Hp1 : probing g1) by (unfold probing; by rewrite Ec, Es, Ep).
    destruct r; injection Ha as <- <-; (split; [by apply probing_tripped|done]).
  - intros [= <- <-] Hp. specialize (Hp eq_refl). by split.
  - intros [= <- <-] Hp. split; [|done]. unfold releaseProbeSlot. rewrite H0. by case_bool_decide.
  - intros [= <- <-] Hp. cbn [passed]. auto.
  - intros [= <- <-] Hp. cbn [passed]. auto.
Qed.

Lemma request_one_passed s s' : request_step s s' -> one_passed s -> one_passed s'.
Proof.
  destruct 1 as [rs g|rs g now i ph ph' g' Hi Ha]; intros [Ht Hn]; cbn [fst snd] in *.
  - split; [done|]. cbn [fst snd]. unfold number in *. rewrite filter_app. cbn. by rewrite app_nil_r.
  - assert (Hp : passed ph = true -> probing g)
      by (intros Hp; pose proof (number_pos passed rs i ph Hi Hp); destruct Hn as [|[_ ?]]; [lia|done]).
    destruct (advance_tripped now ph g ph' g' Ht Ha Hp) as [Ht' Hm]. split; [done|]. cbn [fst snd].
    rewrite (number_update passed rs i ph ph' Hi).
    assert (Hpos : passed ph = true -> number passed rs = 1)
      by (intros E; pose proof (number_pos passed rs i ph Hi E); destruct Hn as [|[? _]]; lia).
    destruct (passed ph), (passed ph'); cbn [Z.b2z].
    + rewrite Hpos by done. right. by split.
    + rewrite Hpos by done. by left.
    + destruct Hn as [->|[_ ?]]; [|tauto]. right. by split; [|apply Hm].
    + destruct Hn as [->|[-> ?]]; [by left|]. right. by split; [|apply Hm].
Qed.

Lemma number_le (f h : phase -> bool) rs : (forall ph, f ph = true -> h ph = true) -> number f rs <= number h rs.
Proof.
  intros Hfh. induction rs as [|ph rs IH]; [done|]. rewrite !number_cons. specialize (Hfh ph).
  destruct (f ph), (h ph); cbn; try lia; by specialize (Hfh eq_refl).
Qed.

Lemma waiting_one_passed rs g : tripped g -> Forall (fun ph => waiting ph = true) rs -> one_passed (rs, g).
Proof.
  intros Ht Hw. split; [done|]. left. cbn [fst]. unfold number. rewrite filter_none; [done|].
  eapply Forall_impl; [exact Hw|]. by intros [].
Qed.

Lemma interleaved_one_probe rs g s' :
  tripped g -> Forall (fun ph => waiting ph = true) rs -> rtc request_step (rs, g) s' ->
  number granted s'.1 <= 1.
Proof.
  intros Ht Hw Hrun. assert (Hs : one_passed s').
  { revert Hrun. apply (rtc_ind_r one_passed); [by apply waiting_one_passed|]. intros y z _ Hyz. by apply request_one_passed. }
  destruct Hs as [_ Hn]. pose proof (number_le granted passed s'.1 ltac:(by intros [])). lia.
Qed.

(** Consecutive failures at the given times. *)
Definition failures (ts : list Z) (g : Guard) : Guard := fold_left (fun g t => OnFailure t g) ts g.

Lemma failures_closed ts g :
  gstate g = stateClosed -> 0 < FailureThreshold (gcfg g) ->
  consecutiveFails g + len ts < FailureThreshold (gcfg g) ->
  gstate (failures ts g) = stateClosed /\ gcfg (failures ts g) = gcfg g /\
  consecutiveFails (failures ts g) = consecutiveFails g + len ts.
Proof.
  revert g. induction ts as [|t ts IH]; intros g Hs Ht Hn.
  { change (len []) with 0. unfold failures. cbn. split_and!; [done|done|lia]. }
  rewrite len_cons in Hn. pose proof (len_nonneg ts).
  assert (E : OnFailure t g = with_breaker g (consecutiveFails g + 1) stateClosed (openedAt g) false (opens g)).
  { unfold OnFailure. destruct (Z.leb_spec (FailureThreshold (gcfg g)) 0); [lia|]. rewrite Hs. cbn [orb].
    rewrite bool_decide_eq_false_2 by done. cbn [orb].
    by destruct (Z.leb_spec (FailureThreshold (gcfg g)) (consecutiveFails g + 1)); [lia|]. }
  unfold failures in *. cbn [fold_left]. rewrite E.
  destruct (IH (with_breaker g (consecutiveFails g + 1) stateClosed (openedAt g) false (opens g))) as (H1 & H2 & H3);
    [done|done|cbn; lia|]. rewrite len_cons. split_and!; [done|done|]. rewrite H3. cbn. lia.
Qed.

(** C35: the circuit breaker.  A closed breaker with the positive threshold [th]
    that has counted no failure stays closed for fewer than [th] consecutive failures and opens at the [th]-th; while it
    is open and the timeout has not passed every request is refused and nothing
    changes.  From then on, until an outcome is reported, at most one request is
    admitted (the probe): of any number of requests one after the other, and of
    any number of concurrent requests, however their critical sections
    interleave and at whatever times, provided none of them had already passed
    the breaker when it tripped ([probe_slot_stolen] shows that the bucket's
    refusal of such a late one frees the slot of another's probe).  None is
    admitted once the probe is out; a success closes the breaker, and a failure
    of the probe opens it again. *)
Theorem breaker_contract g :
  0 < FailureThreshold (gcfg g) ->
  (gstate g = stateClosed -> consecutiveFails g = 0 ->
     (forall ts, len ts < FailureThreshold (gcfg g) -> gstate (failures ts g) = stateClosed) /\
     (forall ts t, len ts + 1 = FailureThreshold (gcfg g) ->
        gstate (failures (ts ++ [t]) g) = stateOpen /\ openedAt (failures (ts ++ [t]) g) = t)) /\
  (gstate g = stateOpen -> forall now, now - openedAt g < OpenTimeout (gcfg g) ->
     Allow now g = (Some ErrCircuitOpen, g)) /\
  (gstate g <> stateClosed -> forall ts, (allows ts g).1 <= 1) /\
  (gstate g <> stateClosed -> forall rs rs' g', Forall (fun ph => waiting ph = true) rs ->
     rtc request_step (rs, g) (rs', g') -> number granted rs' <= 1) /\
  (gstate g = stateHalfOpen -> probeInFlight g = true -> forall ts, allows ts g = (0, g)) /\
  gstate (OnSuccess g) = stateClosed /\
  (gstate g = stateHalfOpen -> forall now, gstate (OnFailure now g) = stateOpen).
Proof.
  intros Ht. assert (Hoff : (FailureThreshold (gcfg g) <=? 0) = false) by (apply Z.leb_gt; lia). split_and!.
  - intros Hs Hf. split.
    + intros ts Hn. by apply failures_closed; [done|done|lia].
    + intros ts t Hn. destruct (failures_closed ts g) as (H1 & H2 & H3); [done|done|lia|].
      unfold failures. rewrite fold_left_app. cbn [fold_left]. fold (failures ts g).
      generalize dependent (failures ts g). intros g' H1 H2 H3. unfold OnFailure. rewrite H2, Hoff, H1, H3.
      cbv zeta. rewrite (proj2 (Z.leb_le _ _)), orb_true_r by lia. done.
  - intros Hs now Hnow. unfold Allow, checkBreaker. rewrite Hoff, Hs. by rewrite (proj2 (Z.ltb_lt _ _)).
  - intros Hs ts. by apply allows_tripped.
  - intros Hs rs rs' g' Hw Hrun. by apply (interleaved_one_probe rs g (rs', g')).
  - intros Hs Hp ts. by apply allows_probing.
  - unfold OnSuccess. by rewrite Hoff.
  - intros Hs now. unfold OnFailure. rewrite Hoff, Hs. by rewrite bool_decide_eq_true_2.
Qed.

Definition wit_guard : Guard := Guard_New 0 (mkPConfig f_zero 0 2 1000).

Lemma breaker_contract_witness :
  gstate (failures [5; 7] wit_guard) = stateOpen /\
  Allow 500 (failures [5; 7] wit_guard) = (Some ErrCircuitOpen, failures [5; 7] wit_guard).
Proof.
  destruct (breaker_contract wit_guard) as (H & _); [by cbn|].
  destruct (breaker_contract (failures [5; 7] wit_guard)) as (_ & H2 & _); [by cbn|].
  split; [by apply (proj2 (H eq_refl eq_refl) [5] 7)|]. by apply H2.
Defined.

(** ** The bucket *)

(** one probe at a time fails under interleaving.  A request that passed
    checkBreaker while the breaker was closed and is refused by the token bucket
    after the breaker has tripped releases the slot of the probe that another
    request holds, and a second probe is admitted while the first is out. *)
Theorem probe_slot_stolen :
  let g0 := Guard_New 0 (mkPConfig f_one 1 1 1000000000) in
  let '(r1, g1) := checkBreaker 0 g0 in                           (* request 1 *)
  let g2 := OnFailure 0 g1 in                                     (* an earlier load fails *)
  let '(r2, g3) := Allow 1000000000 g2 in                         (* request 2: the probe *)
  let '(r1', g4) := takeToken 1000000000 g3 in                    (* request 1 again *)
  let '(r3, g5) := Allow 2000000000 (releaseProbeSlot (add_limited g4)) in
  r1 = None /\ r2 = None /\ r1' = Some ErrRateLimited /\ r3 = None /\ probing g3 /\ probing g5.
Proof. vm_compute. repeat split. Qed.
