(* ===== verification/Config.v ===== *)
(** * Keyspace configuration: pkg/keyspace/config.go

    Modes, defaults and Validate.  ConfigHash (JSON and SHA-256 of the fields)
    is not modelled. *)
From Stdlib Require Import SpecFloat.
From S2P Require Import Prelude Wire Scalars Sketches TopK Vecset Protect.

Inductive Mode :=
  | ModeLoadThrough | ModeCacheOnly | ModeBloom | ModeSet | ModeZSet | ModeGeo | ModeList | ModeHash
  | ModeCounter | ModeJSON | ModeBitmap | ModeHLL | ModeTopK | ModeCMS | ModeVectorSet | ModeStream.

#[global] Instance Mode_eq_dec : EqDecision Mode.
Proof. solve_decision. Defined.

Definition DefaultMaxKeyLen : Z := 512.
Definition DefaultMaxValueSize : Z := Z.shiftl 1 20.
Definition DefaultMaxBatch : Z := 100.
Definition DefaultReplicationFactor : Z := 3.
Definition DefaultTombstoneTTL : Z := 5 * 60 * 1000000000.
Definition DefaultBloomBits : Z := Z.shiftl 1 20.
Definition DefaultBloomHashes : Z := 7.
Definition DefaultTopKSize : Z := 100.
Definition StreamHardCap : Z := 4096.

(** Durations are nanoseconds.  DataSource is only compared with nil here. *)
Record Config := mkConfig {
  Name : bytes;
  cMode : Mode;
  TTL : Z;
  NegativeTTL : Z;
  MaxBytes : Z;
  LoadTimeout : Z;
  PeerTimeout : Z;
  WarmKeys : option (list bytes);     (* None is the nil slice *)
  RefreshInterval : Z;
  cRateLimitRPS : spec_float;
  CircuitBreaker : PConfig;
  hasDataSource : bool;
  MaxKeyLen : Z;
  MaxValueSize : Z;
  ReplicationFactor : Z;
  TombstoneTTL : Z;
  BloomBits : Z;
  BloomHashes : Z;
  TopKSize : Z;
  VectorDim : Z;
  cVectorMetric : Z;
  StreamMaxLen : Z;
}.

Definition EffectiveReplication (c : Config) (peerCount : Z) : Z :=
  if peerCount <=? 0 then 1
  else
    let rf := ReplicationFactor c in
    if rf <? 0 then peerCount
    else
      let rf := if rf =? 0 then DefaultReplicationFactor else rf in
      if peerCount <? rf then peerCount else rf.

Definition EffectiveTombstoneTTL (c : Config) : Z :=
  if TombstoneTTL c <? 0 then 0
  else if TombstoneTTL c =? 0 then DefaultTombstoneTTL else TombstoneTTL c.

Definition EffectiveBloomBits (c : Config) : Z :=
  if BloomBits c <=? 0 then DefaultBloomBits else BloomBits c.

Definition EffectiveBloomHashes (c : Config) : Z :=
  if BloomHashes c <=? 0 then DefaultBloomHashes else BloomHashes c.

Definition EffectiveTopKSize (c : Config) : Z :=
  if TopKSize c <=? 0 then DefaultTopKSize else TopKSize c.

Definition EffectiveStreamMaxLen (c : Config) : Z :=
  if StreamMaxLen c <=? 0 then 0
  else if StreamHardCap <? StreamMaxLen c then StreamHardCap else StreamMaxLen c.

(** The configured item and value limits of a Top-K or vector keyspace. *)
Definition maxItemOf (c : Config) : Z := if 0 <? MaxKeyLen c then MaxKeyLen c else DefaultMaxKeyLen.
Definition maxValOf (c : Config) : Z := if 0 <? MaxValueSize c then MaxValueSize c else DefaultMaxValueSize.

Inductive cfg_err :=
  | CErrName | CErrDataSource | CErrMaxBytes | CErrHLL | CErrCMS | CErrTopKSize | CErrTopKValue
  | CErrVectorDim | CErrVectorMetric | CErrVectorValue | CErrBloom | CErrBloomBytes.

Definition validateTopK (c : Config) : option cfg_err :=
  if TopKSize c <? 0 then Some CErrTopKSize
  else
    let need := WorstEncodedSize (EffectiveTopKSize c) (maxItemOf c) in
    if (0 <? maxValOf c) && (maxValOf c <? need) then Some CErrTopKValue else None.

Definition validateVectorSet (c : Config) : option cfg_err :=
  if (VectorDim c <? 0) || (VectorDim c =? 1) || (MaxDim <? VectorDim c) then Some CErrVectorDim
  else if negb ((cVectorMetric c =? 0) || (cVectorMetric c =? 1) || (cVectorMetric c =? 2)) then Some CErrVectorMetric
  else
    let dim := if VectorDim c =? 0 then MaxDim else VectorDim c in
    let maxItem := if MaxMemberLen <? maxItemOf c then MaxMemberLen else maxItemOf c in
    let need := VS_WorstEncodedSize dim MaxMembers maxItem in
    if (0 <? maxValOf c) && (maxValOf c <? need) then Some CErrVectorValue else None.

(** int64((bits + 7) / 8) *)
Definition validateBloom (c : Config) : option cfg_err :=
  let bits := EffectiveBloomBits c in
  if (bits <? 64) || (EffectiveBloomHashes c <? 1) then Some CErrBloom
  else
    let need := Z.quot (i64 (u64 (bits + 7))) 8 in
    if (0 <? MaxBytes c) && (MaxBytes c <? need) then Some CErrBloomBytes else None.

Definition Validate (c : Config) : option cfg_err :=
  if bool_decide (Name c = []) then Some CErrName
  else if bool_decide (cMode c = ModeLoadThrough) && negb (hasDataSource c) then Some CErrDataSource
  else if MaxBytes c <? 0 then Some CErrMaxBytes
  else if bool_decide (cMode c = ModeHLL) && (0 <? MaxValueSize c) && (MaxValueSize c <? 12288) then Some CErrHLL
  else if bool_decide (cMode c = ModeCMS) && (0 <? MaxValueSize c) && (MaxValueSize c <? 65536) then Some CErrCMS
  else
    match cMode c with
    | ModeTopK => validateTopK c
    | ModeVectorSet => validateVectorSet c
    | ModeBloom => validateBloom c
    | _ => None
    end.

(** ** Defaults *)

Lemma EffectiveReplication_range c n :
  1 <= EffectiveReplication c n /\ (1 <= n -> EffectiveReplication c n <= n).
Proof. unfold EffectiveReplication, DefaultReplicationFactor. zcmp; lia. Qed.

(** ** What a validated keyspace guarantees *)

Lemma Validate_mode c :
  Validate c = None ->
  0 <= MaxBytes c /\
  match cMode c with
  | ModeTopK => validateTopK c = None
  | ModeVectorSet => validateVectorSet c = None
  | ModeBloom => validateBloom c = None
  | ModeHLL => ~ 0 < MaxValueSize c < 12288
  | ModeCMS => ~ 0 < MaxValueSize c < 65536
  | ModeLoadThrough => hasDataSource c = true
  | _ => True
  end.
Proof.
  unfold Validate. case_bool_decide; [done|]. intros Hv.
  destruct (cMode c); cbn in Hv; repeat (destruct (hasDataSource c); [|done]);
    cbn in Hv; zcmp; cbn in Hv; try done; try (split; [lia|done]); split; lia.
Qed.

Lemma maxValOf_pos c : 0 < maxValOf c.
Proof. unfold maxValOf. change DefaultMaxValueSize with 1048576. zcmp; lia. Qed.

Lemma WorstEncodedSize_exact k x :
  1 <= k -> 0 <= x -> k * (10 + uvarintSize x + x) <= MaxInt64 ->
  WorstEncodedSize k x = k * (10 + uvarintSize x + x).
Proof.
  intros Hk Hx Hfit. unfold WorstEncodedSize. destruct (Z.ltb_spec k 1), (Z.ltb_spec x 0); try lia. cbn [orb].
  apply i64_u64. pose proof (uvarintSize_loop_mono 10 x x 1). unfold uvarintSize, is_i64 in *.
  unfold MinInt64. nia.
Qed.

(** a keyspace that passes Validate can hold what its mode may store.  The
    replication factor in force is between 1 and the cluster size; a Top-K table
    of the configured size with items within the configured length encodes
    within the value limit (for sizes whose worst case fits an int); a Bloom
    filter has at least 64 bits and one hash, and its bit string fits the byte
    budget; and the sketches of fixed size fit the value limit. *)
Theorem validate_fits c :
  Validate c = None ->
  (forall n, 1 <= n -> 1 <= EffectiveReplication c n <= n) /\
  (cMode c = ModeTopK -> forall t, table_wf t -> tk t = EffectiveTopKSize c ->
     (forall e, e ∈ slots t -> len (Item e) <= maxItemOf c) ->
     EffectiveTopKSize c * (10 + uvarintSize (maxItemOf c) + maxItemOf c) <= MaxInt64 ->
     len (TopK_Encode t) <= maxValOf c) /\
  (cMode c = ModeBloom -> 64 <= EffectiveBloomBits c /\ 1 <= EffectiveBloomHashes c /\
     (EffectiveBloomBits c + 7 <= MaxInt64 -> 0 < MaxBytes c -> (EffectiveBloomBits c + 7) / 8 <= MaxBytes c)) /\
  (cMode c = ModeHLL -> HLL_DenseSize <= maxValOf c) /\
  (cMode c = ModeCMS -> 65536 <= maxValOf c).
Proof.
  intros Hv. apply Validate_mode in Hv as [Hb Hv]. pose proof (EffectiveReplication_range c) as Hr.
  pose proof (maxValOf_pos c) as Hpos. split_and!.
  - intros n Hn. destruct (Hr n). lia.
  - intros Hm t Hwf Hk Hitem Hfit. rewrite Hm in Hv. unfold validateTopK in Hv.
    destruct (Z.ltb_spec (TopKSize c) 0); [done|]. rewrite (proj2 (Z.ltb_lt _ _) Hpos) in Hv. cbn [andb] in Hv.
    assert (Hi : 0 <= maxItemOf c) by (unfold maxItemOf, DefaultMaxKeyLen; zcmp; lia).
    assert (Hs : 1 <= EffectiveTopKSize c) by (unfold EffectiveTopKSize, DefaultTopKSize; zcmp; lia).
    rewrite WorstEncodedSize_exact in Hv by done. destruct (Z.ltb_spec (maxValOf c)
      (EffectiveTopKSize c * (10 + uvarintSize (maxItemOf c) + maxItemOf c))); [done|].
    etrans; [apply (TopK_Encode_bound t (maxItemOf c) Hwf); [|done]|by rewrite Hk].
    pose proof (uvarintSize_loop_mono 10 (maxItemOf c) (maxItemOf c) 1). unfold uvarintSize in Hfit.
    unfold MaxUint64, MaxInt64 in *. nia.
  - intros Hm. rewrite Hm in Hv. unfold validateBloom in Hv. cbv zeta in Hv.
    destruct (Z.ltb_spec (EffectiveBloomBits c) 64), (Z.ltb_spec (EffectiveBloomHashes c) 1); try done. cbn [orb] in Hv.
    split_and!; [done|done|]. intros Hfit HM. rewrite (proj2 (Z.ltb_lt _ _) HM) in Hv. cbn [andb] in Hv.
    rewrite i64_u64, Z.quot_div_nonneg in Hv by (unfold is_i64, MinInt64; lia).
    by destruct (Z.ltb_spec (MaxBytes c) ((EffectiveBloomBits c + 7) / 8)).
  - intros Hm. rewrite Hm in Hv. unfold maxValOf. change DefaultMaxValueSize with 1048576.
    unfold HLL_DenseSize. zcmp; lia.
  - intros Hm. rewrite Hm in Hv. unfold maxValOf. change DefaultMaxValueSize with 1048576. zcmp; lia.
Qed.

Definition wit_config (mode : Mode) (topk : Z) : Config :=
  mkConfig [107] mode 0 0 0 0 0 None 0 f_zero (mkPConfig f_zero 0 0 0) false 0 0 0 0 0 0 topk 0 0 0.

Lemma validate_fits_witness :
  Validate (wit_config ModeTopK 10) = None /\
  (forall t, table_wf t -> tk t = 10 -> (forall e, e ∈ slots t -> len (Item e) <= 512) ->
     len (TopK_Encode t) <= 1048576).
Proof.
  assert (Hv : Validate (wit_config ModeTopK 10) = None) by reflexivity. split; [exact Hv|].
  intros t Hwf Hk Hitem. destruct (validate_fits (wit_config ModeTopK 10) Hv) as (_ & H & _).
  apply (H eq_refl t Hwf Hk Hitem). by vm_compute.
Defined.

(** A size whose worst case wraps to 0 passes the check. *)
Lemma validate_topk_overflow : Validate (wit_config ModeTopK (2 ^ 62)) = None.
Proof. reflexivity. Qed.
