(* ===== verification/Engine.v ===== *)
(** * The engine: pkg/engine/engine.go and pkg/engine/cluster.go

    Keyspaces with their stores, guards and version counters; routing of Put,
    Delete and Get between the owner and the other nodes; replication through
    the fan-out pool; load-through with negative caching.  An operation is a
    function of the network and the engine.  What the engine calls on other
    nodes and on the data source is a record of functions ([Env]); [env_Load]
    also says what other goroutines did to the engine while the load ran.
    Telemetry, hit recording and spans are left out.  A call of
    singleflight.Group.Do runs its function. *)
From S2P Require Import Prelude Wire Store Ring Hints Protect Config.
From Stdlib Require Import SpecFloat.

(** ** State *)

Record ksRuntime := mkKS {
  cfg : Config;
  kstore : Memory;
  guard : Guard;
  lastVer : gmap bytes Z;
  maxVersionKeys : Z;
}.

(** Transport is only compared with nil here; Ring and Fanout may be nil. *)
Record Cluster := mkCluster {
  SelfID : bytes;
  cRing : option Ring;
  hasTransport : bool;
  Fanout : option FanoutPool;
}.

Record Engine := mkEngine {
  keyspaces : gmap bytes ksRuntime;
  global : option Guard;
  nodeID : bytes;
  eclosed : bool;
  cluster : option Cluster;
  maxKeyLen : Z;
  maxValueSize : Z;
  maxBatch : Z;
  eMaxVersionKeys : Z;
}.

Definition DefaultMaxVersionKeys : Z := 1000000.

(** New with options that only set the global guard. *)
Definition Engine_New (g : option Guard) : Engine :=
  mkEngine ∅ g [] false None DefaultMaxKeyLen DefaultMaxValueSize DefaultMaxBatch DefaultMaxVersionKeys.

Definition with_keyspaces (e : Engine) (kss : gmap bytes ksRuntime) : Engine :=
  mkEngine kss (global e) (nodeID e) (eclosed e) (cluster e) (maxKeyLen e) (maxValueSize e) (maxBatch e) (eMaxVersionKeys e).
Definition with_ks (e : Engine) (name : bytes) (ks : ksRuntime) : Engine :=
  with_keyspaces e (<[name := ks]> (keyspaces e)).
Definition with_global (e : Engine) (g : option Guard) : Engine :=
  mkEngine (keyspaces e) g (nodeID e) (eclosed e) (cluster e) (maxKeyLen e) (maxValueSize e) (maxBatch e) (eMaxVersionKeys e).
Definition with_cluster (e : Engine) (c : option Cluster) : Engine :=
  mkEngine (keyspaces e) (global e) (nodeID e) (eclosed e) c (maxKeyLen e) (maxValueSize e) (maxBatch e) (eMaxVersionKeys e).

Definition with_store (ks : ksRuntime) (m : Memory) : ksRuntime :=
  mkKS (cfg ks) m (guard ks) (lastVer ks) (maxVersionKeys ks).
Definition with_lastVer (ks : ksRuntime) (v : gmap bytes Z) : ksRuntime :=
  mkKS (cfg ks) (kstore ks) (guard ks) v (maxVersionKeys ks).
Definition with_guard (ks : ksRuntime) (g : Guard) : ksRuntime :=
  mkKS (cfg ks) (kstore ks) g (lastVer ks) (maxVersionKeys ks).

(** The gRPC status codes that appear in the sources or come from the runtime. *)
Inductive code := Canceled | Unknown | InvalidArgument | DeadlineExceeded | NotFound | Unavailable | Internal.

#[global] Instance code_eq_dec : EqDecision code.
Proof. solve_decision. Defined.

#[warnings="-register-all"]
Inductive EngErr :=
  | ErrNotFound | ErrKeyspaceNotFound | ErrUnavailable | ErrInvalidArgument
  | ErrValueTooLarge | ErrKeyTooLarge | ErrBatchTooLarge
  | ErrContext                                   (* ctx.Err() *)
  | ErrSource                                    (* an error of the data source *)
  | ErrRPC (c : code)                            (* a status error of a peer call, as it came *)
  | MultiError (peers : list bytes)              (* the peers that failed *)
  | KeyErrors (errs : list (bytes * EngErr)).

(** ** Versions *)

(** The two loops of pruneLastVerLocked over the keys of the map. *)
Fixpoint pruneAbsent (now max : Z) (keys : list bytes) (m : Memory) (lv : gmap bytes Z)
    : Memory * gmap bytes Z :=
  match keys with
  | [] => (m, lv)
  | k :: keys =>
      if Z.of_nat (size lv) <=? max then (m, lv)
      else
        let '(r, m) := Peek now m k in
        match r with
        | Some _ => pruneAbsent now max keys m lv
        | None => pruneAbsent now max keys m (delete k lv)
        end
  end.

Fixpoint pruneAny (max : Z) (keys : list bytes) (lv : gmap bytes Z) : gmap bytes Z :=
  match keys with
  | [] => lv
  | k :: keys => if Z.of_nat (size lv) <=? max then lv else pruneAny max keys (delete k lv)
  end.

Definition pruneLastVerLocked (now : Z) (ks : ksRuntime) : ksRuntime :=
  let max := maxVersionKeys ks in
  if (max <=? 0) || (Z.of_nat (size (lastVer ks)) <=? max) then ks
  else
    let '(m, lv) := pruneAbsent now max (map_to_list (lastVer ks)).*1 (kstore ks) (lastVer ks) in
    with_lastVer (with_store ks m) (pruneAny max (map_to_list lv).*1 lv).

Definition nextVersion (now : Z) (ks : ksRuntime) (key : bytes) (atLeast : Z) : Z * ksRuntime :=
  let cur := default 0 (lastVer ks !! key) in
  let cur := if cur <? atLeast then atLeast else cur in
  let '(pv, m) := PeekVersion now (kstore ks) key in
  let cur := match pv with Some ver => if cur <? ver then ver else cur | None => cur end in
  let n := cur +u 1 in
  (n, pruneLastVerLocked now (with_lastVer (with_store ks m) (<[key := n]> (lastVer ks)))).

Definition observeVersion (now : Z) (ks : ksRuntime) (key : bytes) (v : Z) : ksRuntime :=
  let lv := if default 0 (lastVer ks !! key) <? v then <[key := v]> (lastVer ks) else lastVer ks in
  pruneLastVerLocked now (with_lastVer ks lv).

Definition VersionTrackerSize (e : Engine) (name : bytes) : Z :=
  match keyspaces e !! name with Some ks => Z.of_nat (size (lastVer ks)) | None => -1 end.

(** ** Limits and expiry *)

Definition validateKey (e : Engine) (ksName key : bytes) : option EngErr :=
  if bool_decide (ksName = []) then Some ErrInvalidArgument
  else if bool_decide (key = []) then Some ErrInvalidArgument
  else if maxKeyLen e <? len key then Some ErrKeyTooLarge else None.

Definition validateKeyLen (e : Engine) (ks : ksRuntime) (key : bytes) : option EngErr :=
  let max := if 0 <? MaxKeyLen (cfg ks) then MaxKeyLen (cfg ks) else maxKeyLen e in
  if max <? len key then Some ErrKeyTooLarge else None.

Definition validateValueSize (e : Engine) (ks : ksRuntime) (value : bytes) : option EngErr :=
  let max := if 0 <? MaxValueSize (cfg ks) then MaxValueSize (cfg ks) else maxValueSize e in
  if max <? len value then Some ErrValueTooLarge else None.

Definition expireAt (now ttl : Z) : Z := if ttl <=? 0 then 0 else unixNano (now + ttl).

Definition getKS (e : Engine) (name : bytes) : option ksRuntime := keyspaces e !! name.

(** ** Keyspaces *)

Definition UpdateKeySpace (now : Z) (e : Engine) (c : Config) : option EngErr * Engine :=
  match Validate c with
  | Some _ => (Some ErrInvalidArgument, e)
  | None =>
      let lv := match keyspaces e !! Name c with Some old => lastVer old | None => ∅ end in
      let g := CircuitBreaker c in
      let g := if SFltb f_zero (cRateLimitRPS c)
               then mkPConfig (cRateLimitRPS c) (Burst g) (FailureThreshold g) (OpenTimeout g) else g in
      (None, with_ks e (Name c)
        (mkKS c (NewMemory (MaxBytes c) (EffectiveTombstoneTTL c)) (Guard_New now g) lv (eMaxVersionKeys e)))
  end.

Definition DeleteKeySpace (e : Engine) (name : bytes) : option EngErr * Engine :=
  match keyspaces e !! name with
  | None => (Some ErrKeyspaceNotFound, e)
  | Some _ => (None, with_keyspaces e (delete name (keyspaces e)))
  end.

Definition Engine_Close (e : Engine) : Engine :=
  mkEngine ∅ (global e) (nodeID e) true (cluster e) (maxKeyLen e) (maxValueSize e) (maxBatch e) (eMaxVersionKeys e).

Definition AttachCluster (e : Engine) (c : option Cluster) : Engine :=
  mkEngine (keyspaces e) (global e) (match c with Some c => SelfID c | None => nodeID e end) (eclosed e) c
    (maxKeyLen e) (maxValueSize e) (maxBatch e) (eMaxVersionKeys e).

(** ** Placement *)

(** The ring of an attached cluster. *)
Definition ringOf (e : Engine) : option (Cluster * Ring) :=
  match cluster e with
  | Some c => match cRing c with Some r => Some (c, r) | None => None end
  | None => None
  end.

(** The owner when it is another node: ok && owner.ID != "" && owner.ID != SelfID. *)
Definition foreignOwner (c : Cluster) (r : Ring) (key : bytes) : option Peer :=
  match Owner r key with
  | Some owner =>
      if bool_decide (peer_ID owner = []) || bool_decide (peer_ID owner = SelfID c) then None else Some owner
  | None => None
  end.

Definition OwnerOf (e : Engine) (key : bytes) : option Peer :=
  match ringOf e with Some (_, r) => Owner r key | None => None end.

Definition replicaPeers (e : Engine) (r : Ring) (ksName key except : bytes) : list Peer :=
  match getKS e ksName with
  | None => ReplicasExcept r key except DefaultReplicationFactor
  | Some ks => ReplicasExcept r key except (EffectiveReplication (cfg ks) (Ring_Len r))
  end.

Definition holdsReplica (c : Cluster) (ks : ksRuntime) (key : bytes) : bool :=
  match cRing c with
  | None => true
  | Some r => IsReplica r key (SelfID c) (EffectiveReplication (cfg ks) (Ring_Len r))
  end.

Definition replicaFanout (e : Engine) (ksName key : bytes) (force : bool)
    : option (Cluster * Ring * FanoutPool * list Peer) :=
  match ringOf e with
  | Some (c, r) =>
      match Fanout c with
      | Some fo =>
          let skip := negb force && match Owner r key with
                                    | Some owner => negb (bool_decide (peer_ID owner = SelfID c))
                                    | None => false
                                    end in
          Some (c, r, fo, if skip then [] else replicaPeers e r ksName key (SelfID c))
      | None => None
      end
  | None => None
  end.

Definition with_fanout (e : Engine) (c : Cluster) (fo : FanoutPool) : Engine :=
  with_cluster e (Some (mkCluster (SelfID c) (cRing c) (hasTransport c) (Some fo))).

Definition replicate (e : Engine) (ksName key : bytes) (ent : Entry) (force : bool) : Engine :=
  match replicaFanout e ksName key force with
  | Some (c, r, fo, p :: ps) => with_fanout e c (Submit fo (p :: ps) ksName key ent (Generation r))
  | _ => e
  end.

(** ** Calls that leave the node *)

Inductive LoadResult := Loaded (v : bytes) | LoadNotFound | LoadFailed.

(** A context that is or is not cancelled when an operation starts, and when
    its shared work is done. *)
Record Ctx := mkCtx { cancelled : bool; cancelledAfter : bool }.

(** The runtime a goroutine got from getKS and keeps: its contents, and whether
    the engine still files it under its name.  UpdateKeySpace and DeleteKeySpace
    take it out of the engine, and then what is done to it stays with it. *)
Record Held := mkHeld { held_ks : ksRuntime; held_here : bool }.

Record Env (W : Type) := mkEnv {
  env_rpc : W -> Request -> bool * W;
  (** ForwardPut: addr, keyspace, key, value, TTL option, hop count *)
  env_ForwardPut : W -> bytes -> bytes -> bytes -> bytes -> option Z -> Z -> bool * W;
  (** ForwardDelete: the ids of the peers that failed, or an RPC error *)
  env_ForwardDelete : W -> bytes -> bytes -> bytes -> option (list bytes) * W;
  (** GetOrLoad: found and entry, or an RPC error *)
  env_GetOrLoad : W -> bytes -> bytes -> bytes -> option (bool * Entry) * W;
  (** DataSource.Load, and the engine and the caller's runtime as the other
      goroutines left them *)
  env_Load : W -> Engine -> bytes -> bytes -> LoadResult * W * Engine * Held;
}.
Arguments env_rpc {W} _.
Arguments env_ForwardPut {W} _.
Arguments env_ForwardDelete {W} _.
Arguments env_GetOrLoad {W} _.
Arguments env_Load {W} _.

Section calls.
Context {W : Type} (env : Env W).

(** replicateWait: apply to every replica now; MultiError of the failures. *)
Definition replicateWait (w : W) (e : Engine) (ksName key : bytes) (ent : Entry)
    : option EngErr * W * Engine :=
  match replicaFanout e ksName key true with
  | Some (c, r, fo, p :: ps) =>
      let '(w, fo, fails) := Apply (env_rpc env) w fo (p :: ps) ksName key ent (Generation r) in
      (match fails with [] => None | _ => Some (MultiError (map peer_ID fails)) end, w, with_fanout e c fo)
  | _ => (None, w, e)
  end.

(** *** Put *)

Definition putLocalApply (now : Z) (ctx : Ctx) (e : Engine) (ksName key value : bytes)
    (force : bool) (ttl : option Z) : option EngErr * Engine :=
  match getKS e ksName with
  | None => (Some ErrKeyspaceNotFound, e)
  | Some ks =>
      if cancelled ctx then (Some ErrContext, e)
      else
        let t := match ttl with Some t => t | None => TTL (cfg ks) end in
        let '(v, ks) := nextVersion now ks key 0 in
        let ent := mkEntry value v (expireAt now t) 0 in
        let '(ok, m) := AcceptIfNewer now (kstore ks) key ent in
        if ok then (None, replicate (with_ks e ksName (with_store ks m)) ksName key ent force)
        else
          let '(cur, m) := Peek now m key in
          if match cur with Some c => negb (IsTombstone c) && (v <=? Version c) | None => false end
          then (None, with_ks e ksName (with_store ks m))
          else
            let '(cur, m) := Peek now m key in
            if match cur with Some c => IsTombstone c && (v <=? Version c) | None => false end
            then (None, with_ks e ksName (with_store ks m))
            else (Some ErrInvalidArgument, with_ks e ksName (with_store ks m))
  end.

Definition maxForwardHops : Z := 1.

Definition PutLocalAtHop (now : Z) (ctx : Ctx) (w : W) (e : Engine) (ksName key value : bytes)
    (hopCount : Z) (ttl : option Z) : option EngErr * W * Engine :=
  if cancelled ctx then (Some ErrContext, w, e)
  else
    match validateKey e ksName key with
    | Some err => (Some err, w, e)
    | None =>
        match getKS e ksName with
        | None => (Some ErrKeyspaceNotFound, w, e)
        | Some ks =>
            match validateValueSize e ks value with
            | Some err => (Some err, w, e)
            | None =>
                match validateKeyLen e ks key with
                | Some err => (Some err, w, e)
                | None =>
                    let local (w : W) (force : bool) :=
                      let '(r, e) := putLocalApply now ctx e ksName key value force ttl in (r, w, e) in
                    match ringOf e with
                    | None => local w false
                    | Some (c, r) =>
                        match foreignOwner c r key with
                        | None => local w false
                        | Some owner =>
                            if hasTransport c && negb (bool_decide (peer_Addr owner = [])) && (hopCount <? maxForwardHops) then
                              let '(ok, w) := env_ForwardPut env w (peer_Addr owner) ksName key value ttl (hopCount + 1) in
                              if ok then (None, w, e) else local w true
                            else local w true
                        end
                    end
                end
            end
        end
    end.

Definition PutLocal (now : Z) (ctx : Ctx) (w : W) (e : Engine) (ksName key value : bytes) (ttl : option Z)
    : option EngErr * W * Engine := PutLocalAtHop now ctx w e ksName key value 0 ttl.

Definition putViaCluster (now : Z) (ctx : Ctx) (w : W) (e : Engine) (ksName key value : bytes) (ttl : option Z)
    : option EngErr * W * Engine :=
  match ringOf e with
  | None => PutLocal now ctx w e ksName key value ttl
  | Some (c, r) =>
      match foreignOwner c r key with
      | None => PutLocal now ctx w e ksName key value ttl
      | Some owner =>
          if negb (hasTransport c) || bool_decide (peer_Addr owner = []) then (Some ErrUnavailable, w, e)
          else
            match getKS e ksName with
            | None => (Some ErrKeyspaceNotFound, w, e)
            | Some _ =>
                let '(ok, w) := env_ForwardPut env w (peer_Addr owner) ksName key value ttl 0 in
                (if ok then None else Some ErrUnavailable, w, e)
            end
      end
  end.

(** The modes with commands of their own. *)
Definition typedMode (m : Mode) : bool :=
  match m with ModeLoadThrough | ModeCacheOnly => false | _ => true end.

Definition Put (now : Z) (ctx : Ctx) (w : W) (e : Engine) (ksName key value : bytes) (ttl : option Z)
    : option EngErr * W * Engine :=
  match getKS e ksName with
  | Some ks => if typedMode (cMode (cfg ks)) then (Some ErrInvalidArgument, w, e)
               else putViaCluster now ctx w e ksName key value ttl
  | None => putViaCluster now ctx w e ksName key value ttl
  end.

(** One call per element; the keys that failed with their errors. *)
Definition batch {A} (f : W -> Engine -> A -> option EngErr * W * Engine) (key : A -> bytes)
    (w : W) (e : Engine) (xs : list A) : option EngErr * W * Engine :=
  let '(errs, w, e) := fold_left (fun '(errs, w, e) x =>
    let '(r, w, e) := f w e x in
    (match r with Some err => errs ++ [(key x, err)] | None => errs end, w, e)) xs ([], w, e) in
  (match errs with [] => None | _ => Some (KeyErrors errs) end, w, e).

Definition PutMany (now : Z) (ctx : Ctx) (w : W) (e : Engine) (ksName : bytes) (kvs : list (bytes * bytes)) (ttl : option Z)
    : option EngErr * W * Engine :=
  if maxBatch e <? len kvs then (Some ErrBatchTooLarge, w, e)
  else batch (fun w e kv => Put now ctx w e ksName kv.1 kv.2 ttl) fst w e kvs.

(** *** Delete *)

Definition DeleteAsOwner (now : Z) (ctx : Ctx) (w : W) (e : Engine) (ksName key : bytes)
    : option EngErr * W * Engine :=
  if cancelled ctx then (Some ErrContext, w, e)
  else
    match validateKey e ksName key with
    | Some err => (Some err, w, e)
    | None =>
        match getKS e ksName with
        | None => (Some ErrKeyspaceNotFound, w, e)
        | Some ks =>
            match validateKeyLen e ks key with
            | Some err => (Some err, w, e)
            | None =>
                let '(ver, ks) := nextVersion now ks key 0 in
                let '(_, m) := DeleteIfVersion now (kstore ks) key ver in
                replicateWait w (with_ks e ksName (with_store ks m)) ksName key (mkEntry [] ver 0 FlagTombstone)
            end
        end
    end.

Definition deleteViaCluster (now : Z) (ctx : Ctx) (w : W) (e : Engine) (ksName key : bytes)
    : option EngErr * W * Engine :=
  match ringOf e with
  | None => DeleteAsOwner now ctx w e ksName key
  | Some (c, r) =>
      match foreignOwner c r key with
      | None => DeleteAsOwner now ctx w e ksName key
      | Some owner =>
          if negb (hasTransport c) || bool_decide (peer_Addr owner = []) then DeleteAsOwner now ctx w e ksName key
          else
            let '(r, w) := env_ForwardDelete env w (peer_Addr owner) ksName key in
            match r with
            | None => DeleteAsOwner now ctx w e ksName key
            | Some [] => (None, w, e)
            | Some fails => (Some (MultiError fails), w, e)
            end
      end
  end.

Definition Engine_Delete := deleteViaCluster.

Definition DeleteMany (now : Z) (ctx : Ctx) (w : W) (e : Engine) (ksName : bytes) (keys : list bytes)
    : option EngErr * W * Engine :=
  if maxBatch e <? len keys then (Some ErrBatchTooLarge, w, e)
  else batch (fun w e k => Engine_Delete now ctx w e ksName k) (fun k => k) w e keys.

(** *** Replica side *)

(** ApplyPut of an entry that carries no kind flag. *)
Definition applyUntyped (now : Z) (e : Engine) (ksName key : bytes) (ent : Entry) : bool * option EngErr * Engine :=
  match validateKey e ksName key with
  | Some err => (false, Some err, e)
  | None =>
      match getKS e ksName with
      | None => (false, Some ErrKeyspaceNotFound, e)
      | Some ks =>
          let ks := observeVersion now ks key (Version ent) in
          let '(ok, m) := if IsNegative ent then AcceptNegative now (kstore ks) key ent
                          else AcceptIfNewer now (kstore ks) key ent in
          (ok, None, with_ks e ksName (with_store ks m))
      end
  end.

Definition ApplyDeleteWithRingGen (now : Z) (e : Engine) (ksName key : bytes) (deleteVersion : Z)
    : bool * option EngErr * Engine :=
  match validateKey e ksName key with
  | Some err => (false, Some err, e)
  | None =>
      match getKS e ksName with
      | None => (false, Some ErrKeyspaceNotFound, e)
      | Some ks =>
          let ks := observeVersion now ks key deleteVersion in
          let '(ok, m) := DeleteIfVersion now (kstore ks) key deleteVersion in
          (ok, None, with_ks e ksName (with_store ks m))
      end
  end.

(** *** Reads *)

(** ks.store.Get, the engine with the store it leaves. *)
Definition storeGet (now : Z) (e : Engine) (ksName : bytes) (ks : ksRuntime) (key : bytes)
    : option Entry * Engine * ksRuntime :=
  let '(r, m) := Get now (kstore ks) key in
  (r, with_ks e ksName (with_store ks m), with_store ks m).

(** A change of the held runtime is one of the engine while it is filed there. *)
Definition fileKS (e : Engine) (ksName : bytes) (h : Held) : Engine :=
  if held_here h then with_ks e ksName (held_ks h) else e.
Definition heldTo (h : Held) (ks : ksRuntime) : Held := mkHeld ks (held_here h).

(** ks.store.Get on the held runtime. *)
Definition heldGet (now : Z) (e : Engine) (ksName : bytes) (h : Held) (key : bytes) : option Entry * Engine * Held :=
  let '(r, m) := Get now (kstore (held_ks h)) key in
  let h := heldTo h (with_store (held_ks h) m) in
  (r, fileKS e ksName h, h).

Definition storeNegative (now : Z) (e : Engine) (ksName : bytes) (h : Held) (key : bytes)
    (allowFanout : bool) : Engine * Held :=
  if NegativeTTL (cfg (held_ks h)) <=? 0 then (e, h)
  else
    let '(cur, m) := Peek now (kstore (held_ks h)) key in
    let ks := with_store (held_ks h) m in
    if match cur with Some c => negb (IsNegative c) | None => false end
    then (fileKS e ksName (heldTo h ks), heldTo h ks)
    else
      let '(v, ks) := nextVersion now ks key 0 in
      let ent := mkEntry [] v (expireAt now (NegativeTTL (cfg ks))) FlagNegative in
      let '(ok, m) := AcceptNegative now (kstore ks) key ent in
      let h := heldTo h (with_store ks m) in
      let e := fileKS e ksName h in
      (if ok && allowFanout then replicate e ksName key ent false else e, h).

Definition global_allow (now : Z) (e : Engine) : option GErr * Engine :=
  match global e with
  | None => (None, e)
  | Some g => let '(r, g) := Allow now g in (r, with_global e (Some g))
  end.

(** OnSuccess or OnFailure on both guards. *)
Definition report (ok : bool) (now : Z) (e : Engine) (ksName : bytes) (h : Held) : Engine * Held :=
  let f g := if ok then OnSuccess g else OnFailure now g in
  let e := match global e with Some g => with_global e (Some (f g)) | None => e end in
  let h := heldTo h (with_guard (held_ks h) (f (guard (held_ks h)))) in
  (fileKS e ksName h, h).

(** ok && !ent.IsNegative() *)
Definition positive (r : option Entry) : option Entry :=
  match r with Some c => if IsNegative c then None else Some c | None => None end.

(** What follows a successful load: the fill never replaces a live value. *)
Definition loadFill (now : Z) (e : Engine) (ksName : bytes) (h : Held) (key val : bytes) (allowFanout : bool)
    : (bytes + EngErr) * Engine * Held :=
  match validateValueSize e (held_ks h) val with
  | Some err => (inr err, e, h)
  | None =>
      let '(cur, e, h) := heldGet now e ksName h key in
      match positive cur with
      | Some c => (inl (Value c), e, h)
      | None =>
          let '(v, ks) := nextVersion now (held_ks h) key 0 in
          let ent := mkEntry val v (expireAt now (TTL (cfg ks))) 0 in
          let '(ok, m) := AcceptIfNewer now (kstore ks) key ent in
          let h := heldTo h (with_store ks m) in
          let e := fileKS e ksName h in
          if ok then (inl val, if allowFanout then replicate e ksName key ent false else e, h)
          else
            let '(cur, e, h) := heldGet now e ksName h key in
            (inl match positive cur with Some c => Value c | None => val end, e, h)
      end
  end.

(** The caller goes on with the runtime it holds, also when the keyspace was
    replaced or deleted during the load. *)
Definition loadThrough (now : Z) (ctxErr : bool) (w : W) (e : Engine) (ksName : bytes) (ks : ksRuntime)
    (key : bytes) (allowFanout : bool) : (bytes + EngErr) * W * Engine * Held :=
  if ctxErr then (inr ErrUnavailable, w, e, mkHeld ks true)
  else
    let '(r, e) := global_allow now e in
    match r with
    | Some _ => (inr ErrUnavailable, w, e, mkHeld ks true)
    | None =>
        let '(r, g) := Allow now (guard ks) in
        let e := with_ks e ksName (with_guard ks g) in
        match r with
        | Some _ => (inr ErrUnavailable, w, e, mkHeld (with_guard ks g) true)
        | None =>
            let '(res, w, e, h) := env_Load env w e ksName key in
            match res with
            | LoadFailed => let '(e, h) := report false now e ksName h in (inr ErrSource, w, e, h)
            | LoadNotFound =>
                let '(e, h) := storeNegative now e ksName h key allowFanout in
                let '(e, h) := report true now e ksName h in
                let '(cur, e, h) := heldGet now e ksName h key in
                (match positive cur with Some c => inl (Value c) | None => inr ErrNotFound end, w, e, h)
            | Loaded val =>
                let '(e, h) := report true now e ksName h in
                let '(r, e, h) := loadFill now e ksName h key val allowFanout in (r, w, e, h)
            end
        end
    end.

(** A peer's answer is kept only on replicas, with the owner's version. *)
Definition getViaCluster (now : Z) (w : W) (e : Engine) (ksName : bytes) (ks : ksRuntime) (key : bytes)
    : (bytes + EngErr) * W * Engine :=
  match ringOf e with
  | None => (loadThrough now false w e ksName ks key true).1
  | Some (c, r) =>
      match foreignOwner c r key with
      | None => (loadThrough now false w e ksName ks key true).1
      | Some owner =>
          if negb (hasTransport c) || bool_decide (peer_Addr owner = [])
          then (loadThrough now false w e ksName ks key false).1
          else
            let '(res, w) := env_GetOrLoad env w (peer_Addr owner) ksName key in
            match res with
            | None => (loadThrough now false w e ksName ks key false).1
            | Some (found, ent) =>
                let storeLocal := holdsReplica c ks key in
                let keep (r : bool * Memory) := with_ks e ksName (with_store ks r.2) in
                if negb found then
                  (inr ErrNotFound, w,
                   if storeLocal then
                     if IsNegative ent || (0 <? Version ent) then keep (AcceptNegative now (kstore ks) key ent)
                     else (storeNegative now e ksName (mkHeld ks true) key false).1
                   else e)
                else if IsNegative ent then
                  (inr ErrNotFound, w, if storeLocal then keep (AcceptNegative now (kstore ks) key ent) else e)
                else (inl (Value ent), w, if storeLocal then keep (AcceptIfNewer now (kstore ks) key ent) else e)
            end
      end
  end.

Definition fetchFromOwner (now : Z) (w : W) (e : Engine) (ksName : bytes) (ks : ksRuntime) (key : bytes)
    : (bytes + EngErr) * W * Engine :=
  match ringOf e with
  | None => (inr ErrNotFound, w, e)
  | Some (c, r) =>
      match foreignOwner c r key with
      | None => (inr ErrNotFound, w, e)
      | Some owner =>
          if negb (hasTransport c) || bool_decide (peer_Addr owner = []) then (inr ErrNotFound, w, e)
          else
            let '(res, w) := env_GetOrLoad env w (peer_Addr owner) ksName key in
            match res with
            | None => (inr ErrNotFound, w, e)
            | Some (found, ent) =>
                if negb found || IsNegative ent then (inr ErrNotFound, w, e)
                else
                  (inl (Value ent), w,
                   if holdsReplica c ks key
                   then with_ks e ksName (with_store ks (AcceptIfNewer now (kstore ks) key ent).2) else e)
            end
      end
  end.

Definition Engine_Get (now : Z) (ctx : Ctx) (w : W) (e : Engine) (ksName key : bytes)
    : (bytes + EngErr) * W * Engine :=
  if cancelled ctx then (inr ErrContext, w, e)
  else
    match validateKey e ksName key with
    | Some err => (inr err, w, e)
    | None =>
        match getKS e ksName with
        | None => (inr ErrKeyspaceNotFound, w, e)
        | Some ks =>
            match validateKeyLen e ks key with
            | Some err => (inr err, w, e)
            | None =>
                if typedMode (cMode (cfg ks)) then (inr ErrInvalidArgument, w, e)
                else
                  let hit (c : Entry) (e : Engine) :=
                    (if IsNegative c then inr ErrNotFound else inl (Value c), w, e) in
                  let '(cur, e, ks) := storeGet now e ksName ks key in
                  match cur with
                  | Some c => hit c e
                  | None =>
                      let local := match cluster e with
                                   | Some c => match cRing c with Some _ => negb (hasTransport c) | None => true end
                                   | None => true
                                   end in
                      if bool_decide (cMode (cfg ks) = ModeCacheOnly) && local then (inr ErrNotFound, w, e)
                      else
                        (** inside the flight: look again, then ask *)
                        let '(cur, e, ks) := storeGet now e ksName ks key in
                        let '(res, w, e) :=
                          match cur with
                          | Some c => hit c e
                          | None =>
                              if bool_decide (cMode (cfg ks) = ModeCacheOnly) then fetchFromOwner now w e ksName ks key
                              else getViaCluster now w e ksName ks key
                          end in
                        match res with
                        | inr err => (inr err, w, e)
                        | inl v => (if cancelledAfter ctx then inr ErrContext else inl v, w, e)
                        end
                  end
            end
        end
    end.

(** The flag that GetOrLoadLocal asks of an entry in a typed keyspace. *)
Definition modeFlag (m : Mode) : option Z :=
  match m with
  | ModeLoadThrough | ModeCacheOnly => None
  | ModeBloom => Some FlagBloom | ModeSet => Some FlagSet | ModeZSet => Some FlagZSet
  | ModeGeo => Some FlagGeo | ModeList => Some FlagList | ModeHash => Some FlagHash
  | ModeCounter => Some FlagCounter | ModeJSON => Some FlagJSON | ModeBitmap => Some FlagBitmap
  | ModeHLL => Some FlagHLL | ModeTopK => Some FlagTopK | ModeCMS => Some FlagCMS
  | ModeVectorSet => Some FlagVectorSet | ModeStream => Some FlagStream
  end.

Definition noEntry : Entry := mkEntry [] 0 0 0.

(** The flight of GetOrLoadLocal: look again, then load, then reload the entry. *)
Definition loadAsOwner (now : Z) (w : W) (e : Engine) (ksName : bytes) (ks : ksRuntime) (key : bytes)
    : (Entry * option EngErr) * W * Engine * Held :=
  let '(cur, e, ks) := storeGet now e ksName ks key in
  match cur with
  | Some c => ((c, if IsNegative c then Some ErrNotFound else None), w, e, mkHeld ks true)
  | None =>
      let '(res, w, e, h) := loadThrough now false w e ksName ks key true in
      match res with
      | inr ErrNotFound =>
          let '(cur, e, h) := heldGet now e ksName h key in
          (match cur with
           | Some c => (if IsNegative c then c else noEntry, Some ErrNotFound)
           | None => (noEntry, Some ErrNotFound)
           end, w, e, h)
      | inr err => ((noEntry, Some err), w, e, h)
      | inl val =>
          let '(cur, e, h) := heldGet now e ksName h key in
          ((match positive cur with Some c => c | None => mkEntry val 0 0 0 end, None), w, e, h)
      end
  end.

Definition GetOrLoadLocal (now : Z) (ctx : Ctx) (w : W) (e : Engine) (ksName key : bytes)
    : (Entry * option EngErr) * W * Engine :=
  if cancelled ctx then ((noEntry, Some ErrContext), w, e)
  else
    match validateKey e ksName key with
    | Some err => ((noEntry, Some err), w, e)
    | None =>
        match getKS e ksName with
        | None => ((noEntry, Some ErrKeyspaceNotFound), w, e)
        | Some ks =>
            match validateKeyLen e ks key with
            | Some err => ((noEntry, Some err), w, e)
            | None =>
                match modeFlag (cMode (cfg ks)) with
                | Some f =>
                    let '(cur, m) := Peek now (kstore ks) key in
                    let e := with_ks e ksName (with_store ks m) in
                    match cur with
                    | Some c => if IsTombstone c || negb (has_flag f c) then ((noEntry, Some ErrNotFound), w, e)
                                else ((c, None), w, e)
                    | None => ((noEntry, Some ErrNotFound), w, e)
                    end
                | None =>
                    let '(cur, e, ks) := storeGet now e ksName ks key in
                    match cur with
                    | Some c => ((c, if IsNegative c then Some ErrNotFound else None), w, e)
                    | None =>
                        if bool_decide (cMode (cfg ks) = ModeCacheOnly) then ((noEntry, Some ErrNotFound), w, e)
                        else
                          let '((ent, err), w, e, h) := loadAsOwner now w e ksName ks key in
                          match err with
                          | None => if cancelledAfter ctx then ((noEntry, Some ErrContext), w, e) else ((ent, None), w, e)
                          | Some ErrNotFound =>
                              if IsNegative ent then ((ent, Some ErrNotFound), w, e)
                              else
                                let '(cur, e, _) := heldGet now e ksName h key in
                                match cur with
                                | Some c => ((if IsNegative c then c else noEntry, Some ErrNotFound), w, e)
                                | None => ((noEntry, Some ErrNotFound), w, e)
                                end
                          | Some err => ((noEntry, Some err), w, e)
                          end
                    end
                end
            end
        end
    end.

Definition HasLocal (now : Z) (e : Engine) (ksName key : bytes) : bool * Engine :=
  match getKS e ksName with
  | None => (false, e)
  | Some ks =>
      let '(cur, m) := Peek now (kstore ks) key in
      (match cur with Some c => negb (IsTombstone c) && negb (IsNegative c) | None => false end,
       with_ks e ksName (with_store ks m))
  end.

(** In a keyspace that is not LoadThrough it is a Get whose value is dropped. *)
Definition ForceLoad (now : Z) (ctx : Ctx) (w : W) (e : Engine) (ksName key : bytes)
    : option EngErr * W * Engine :=
  let drop (r : (bytes + EngErr) * W * Engine) :=
    let '(res, w, e) := r in (match res with inl _ => None | inr err => Some err end, w, e) in
  if cancelled ctx then (Some ErrContext, w, e)
  else
    match validateKey e ksName key with
    | Some err => (Some err, w, e)
    | None =>
        match getKS e ksName with
        | None => (Some ErrKeyspaceNotFound, w, e)
        | Some ks =>
            match validateKeyLen e ks key with
            | Some err => (Some err, w, e)
            | None =>
                if negb (bool_decide (cMode (cfg ks) = ModeLoadThrough)) then drop (Engine_Get now ctx w e ksName key)
                else
                  match ringOf e with
                  | Some (c, r) =>
                      match foreignOwner c r key with
                      | Some _ => (None, w, e)
                      | None => drop (loadThrough now (cancelled ctx) w e ksName ks key true).1
                      end
                  | None => drop (loadThrough now (cancelled ctx) w e ksName ks key true).1
                  end
            end
        end
    end.

End calls.
