(* ===== verification/EngineProps.v ===== *)
(** * What the engine guarantees

    Version minting, read-your-writes and deletes on the owner, forwarding, the
    fill after a load, and the guards around it. *)
From S2P Require Import Prelude Wire Collections Scored Json Ring Hints Protect Config Engine.
From S2P Require Import Store StoreInv StoreView StoreProps StoreKinds StoreKindsProps.

Implicit Types (m : Memory) (ks : ksRuntime) (e : Engine).

(** ** Reads of the store *)

(** [m'] is [m] after reads: the same live entries and parameters. *)
Record reads (now : Z) (m m' : Memory) : Prop := {
  rd_view : view now m' = view now m;
  rd_ok : store_ok m';
  rd_max : maxBytes m' = maxBytes m;
  rd_ttl : tombstoneTTL m' = tombstoneTTL m;
}.

Lemma reads_refl now m : store_ok m -> reads now m m.
Proof. by split. Qed.

Lemma reads_trans now m1 m2 m3 : reads now m1 m2 -> reads now m2 m3 -> reads now m1 m3.
Proof. intros [] []. split; congruence. Qed.

Lemma flushValueLocked_params {T} `{Kind T} m k it :
  maxBytes (flushValueLocked (T := T) m k it).1 = maxBytes m /\
  tombstoneTTL (flushValueLocked (T := T) m k it).1 = tombstoneTTL m.
Proof. unfold flushValueLocked. by repeat case_match. Qed.

Lemma flushAll_params m k it :
  maxBytes (flushAll m k it).1 = maxBytes m /\ tombstoneTTL (flushAll m k it).1 = tombstoneTTL m.
Proof.
  unfold flushAll, flushSetValueLocked, flushZSetValueLocked, flushGeoValueLocked, flushListValueLocked,
    flushHashValueLocked.
  assert (Hj : forall m k it, maxBytes (flushJSONValueLocked m k it).1 = maxBytes m /\
    tombstoneTTL (flushJSONValueLocked m k it).1 = tombstoneTTL m).
  { intros. unfold flushJSONValueLocked. by repeat case_match. }
  repeat match goal with |- context [flushValueLocked (T := ?T) ?m ?k ?it] =>
    let H := fresh in pose proof (flushValueLocked_params (T := T) m k it) as H;
    destruct (flushValueLocked (T := T) m k it) as [? ?]; cbn [fst] in H; destruct H as [<- <-] end.
  apply Hj.
Qed.

Lemma Peek_params now m k :
  maxBytes (Peek now m k).2 = maxBytes m /\ tombstoneTTL (Peek now m k).2 = tombstoneTTL m.
Proof.
  unfold Peek. destruct (items m !! k) as [it|]; [|done]. destruct (Expired _ _); [done|].
  pose proof (flushAll_params m k it) as H. by destruct (flushAll m k it).
Qed.

Lemma Peek_reads now m k r m' : store_ok m -> Peek now m k = (r, m') -> r = view now m !! k /\ reads now m m'.
Proof.
  intros Hok E. destruct (Peek_view now m k Hok) as (H1 & H2 & H3). destruct (Peek_params now m k) as [H4 H5].
  rewrite E in *. by split.
Qed.

Lemma Get_params now m k :
  maxBytes (Get now m k).2 = maxBytes m /\ tombstoneTTL (Get now m k).2 = tombstoneTTL m.
Proof.
  unfold Get. destruct (items m !! k) as [it|]; [|done]. destruct (Expired _ _); [done|].
  destruct (IsTombstone _); [done|]. pose proof (flushAll_params m k it) as H. by destruct (flushAll m k it).
Qed.

(** What a reader sees of a key: no tombstone. *)
Definition readable (now : Z) (m : Memory) (k : bytes) : option Entry :=
  match view now m !! k with Some c => if IsTombstone c then None else Some c | None => None end.

Lemma Get_reads now m k r m' : store_ok m -> Get now m k = (r, m') -> r = readable now m k /\ reads now m m'.
Proof.
  intros Hok E. destruct (Get_Peek now m k Hok) as (H1 & H2 & H3). destruct (Get_params now m k) as [H4 H5].
  destruct (Peek_view now m k Hok) as (H6 & _). rewrite H6 in H1. unfold readable. rewrite E in *. by split.
Qed.

Lemma PeekVersion_reads now m k r m' :
  store_ok m -> PeekVersion now m k = (r, m') -> r = Version <$> view now m !! k /\ reads now m m'.
Proof.
  intros Hok. unfold PeekVersion. destruct (items m !! k) as [it|] eqn:Ek.
  - destruct (Expired (entry it) now) eqn:Ex; intros [= <- <-].
    + rewrite (view_dead _ _ _ it) by done. split; [done|]. split; [by apply view_remove_expired|by apply removeElement_ok|done|done].
    + rewrite (view_live _ _ _ it) by done. cbn. rewrite flushed_version. split; [done|by apply reads_refl].
  - intros [= <- <-]. rewrite view_missing by done. split; [done|by apply reads_refl].
Qed.

(** ** Pruning the version map *)

Lemma pruneAbsent_spec now max keys m lv m' lv' :
  store_ok m -> pruneAbsent now max keys m lv = (m', lv') -> reads now m m' /\ lv' ⊆ lv.
Proof.
  revert m lv. induction keys as [|k keys IH]; intros m lv Hok; cbn [pruneAbsent].
  { intros [= <- <-]. split; [by apply reads_refl|done]. }
  destruct (_ <=? _); [intros [= <- <-]; split; [by apply reads_refl|done]|].
  destruct (Peek now m k) as [r m1] eqn:E. apply Peek_reads in E as [_ Hr]; [|done].
  destruct r; intros Hp; apply IH in Hp as [Hr' Hs]; try apply Hr; (split; [by eapply reads_trans|]); [done|].
  etrans; [exact Hs|apply delete_subseteq].
Qed.

Lemma pruneAny_sub max keys lv : pruneAny max keys lv ⊆ lv.
Proof.
  revert lv. induction keys as [|k keys IH]; intros lv; cbn [pruneAny]; [done|].
  destruct (_ <=? _); [done|]. etrans; [apply IH|apply delete_subseteq].
Qed.

Lemma pruneAny_cap max keys lv :
  0 <= max -> (forall k, is_Some (lv !! k) -> k ∈ keys) -> Z.of_nat (size (pruneAny max keys lv)) <= max.
Proof.
  intros Hmax. revert lv. induction keys as [|k keys IH]; intros lv Hk; cbn [pruneAny].
  - assert (lv = ∅) as ->; [|by rewrite map_size_empty].
    apply map_empty. intros i. destruct (lv !! i) eqn:E; [|done].
    exfalso. eapply not_elem_of_nil, Hk. by eexists.
  - destruct (Z.leb_spec (Z.of_nat (size lv)) max); [done|]. apply IH. intros i.
    rewrite lookup_delete_is_Some. intros [Hne Hi]. apply Hk in Hi. set_solver.
Qed.

(** The runtime after a prune: observably the same, with fewer counters. *)
Record pruned (now : Z) ks ks' : Prop := {
  pr_reads : reads now (kstore ks) (kstore ks');
  pr_cfg : cfg ks' = cfg ks;
  pr_guard : guard ks' = guard ks;
  pr_max : maxVersionKeys ks' = maxVersionKeys ks;
  pr_sub : lastVer ks' ⊆ lastVer ks;
  pr_cap : 0 < maxVersionKeys ks -> Z.of_nat (size (lastVer ks')) <= maxVersionKeys ks;
  pr_all : maxVersionKeys ks <= 0 \/ Z.of_nat (size (lastVer ks)) <= maxVersionKeys ks -> ks' = ks;
}.

Lemma prune_spec now ks : store_ok (kstore ks) -> pruned now ks (pruneLastVerLocked now ks).
Proof.
  intros Hok. unfold pruneLastVerLocked.
  destruct (Z.leb_spec (maxVersionKeys ks) 0); cbn [orb].
  { split; try done; try lia; by apply reads_refl. }
  destruct (Z.leb_spec (Z.of_nat (size (lastVer ks))) (maxVersionKeys ks)).
  { split; try done; by apply reads_refl. }
  destruct (pruneAbsent _ _ _ _ _) as [m lv] eqn:E. apply pruneAbsent_spec in E as [Hr Hs]; [|done].
  split; cbn; try done; [etrans; [apply pruneAny_sub|done]| |lia].
  intros _. apply pruneAny_cap; [lia|]. intros k [v Hv]. apply list_elem_of_fmap. exists (k, v).
  split; [done|]. by apply elem_of_map_to_list.
Qed.

(** ** Minting versions *)

(** The versions known for a key leave room for one more. *)
Definition ver_room (now : Z) ks (key : bytes) : Prop :=
  0 <= default 0 (lastVer ks !! key) < MaxUint64 /\
  (forall c, view now (kstore ks) !! key = Some c -> Version c < MaxUint64).

Record minted (now : Z) ks (key : bytes) (v : Z) ks' : Prop := {
  mi_last : default 0 (lastVer ks !! key) < v;
  mi_live : forall c, view now (kstore ks) !! key = Some c -> Version c < v;
  mi_range : 0 < v <= MaxUint64;
  mi_reads : reads now (kstore ks) (kstore ks');
  mi_cfg : cfg ks' = cfg ks;
  mi_guard : guard ks' = guard ks;
  mi_max : maxVersionKeys ks' = maxVersionKeys ks;
  mi_cap : 0 < maxVersionKeys ks -> Z.of_nat (size (lastVer ks')) <= maxVersionKeys ks;
  mi_kept : maxVersionKeys ks <= 0 \/ Z.of_nat (size (<[key := v]> (lastVer ks))) <= maxVersionKeys ks ->
    lastVer ks' = <[key := v]> (lastVer ks);
}.

Lemma nextVersion_spec now ks key atLeast v ks' :
  store_ok (kstore ks) -> ver_room now ks key -> 0 <= atLeast < MaxUint64 ->
  nextVersion now ks key atLeast = (v, ks') -> minted now ks key v ks' /\ atLeast < v.
Proof.
  intros Hok [Hl Hc] Ha. unfold nextVersion. cbv zeta. destruct (PeekVersion now (kstore ks) key) as [pv m] eqn:E.
  apply PeekVersion_reads in E as [-> Hr]; [|done].
  set (cur := match _ with Some _ => _ | None => _ end). intros [= Hv Hks]. subst ks'.
  assert (Hcur : 0 <= cur < MaxUint64 /\ default 0 (lastVer ks !! key) <= cur /\ atLeast <= cur /\
    forall c, view now (kstore ks) !! key = Some c -> Version c <= cur).
  { unfold cur. destruct (view now (kstore ks) !! key) as [c|] eqn:Ec; cbn [fmap option_fmap option_map].
    - specialize (Hc c eq_refl). zcmp; (split_and!; [lia|lia|lia|lia|]; intros ? [= <-]; lia).
    - zcmp; (split_and!; [lia|lia|lia|lia|done]). }
  destruct Hcur as (H1 & H2 & H3 & H4). rewrite u64_succ in Hv by done. subst v.
  pose proof (prune_spec now (with_lastVer (with_store ks m) (<[key := cur + 1]> (lastVer ks)))) as [Q1 Q2 Q3 Q4 Q5 Q6 Q7];
    [apply Hr|]. cbn [kstore cfg guard maxVersionKeys lastVer with_lastVer with_store] in *.
  rewrite u64_succ in * by done. split; [|lia]. split; try done; try lia.
  - intros c Hc'. specialize (H4 c Hc'). lia.
  - by eapply reads_trans.
  - intros Hk. by rewrite Q7.
Qed.

(** C16: minted versions are fresh.  nextVersion returns a version above the last
    one issued or observed for the key, above the version of its live entry and
    above the bound asked for; the store shows the same entries afterwards; the
    version map never exceeds its cap; and unless the cap drops the counter the
    next version minted for the key is higher again, whatever happened to the
    entry in between. *)
Theorem mint_fresh now ks key atLeast v ks' :
  store_ok (kstore ks) -> ver_room now ks key -> 0 <= atLeast < MaxUint64 ->
  nextVersion now ks key atLeast = (v, ks') ->
  default 0 (lastVer ks !! key) < v /\ atLeast < v /\
  (forall c, view now (kstore ks) !! key = Some c -> Version c < v) /\
  view now (kstore ks') = view now (kstore ks) /\ store_ok (kstore ks') /\
  (0 < maxVersionKeys ks -> Z.of_nat (size (lastVer ks')) <= maxVersionKeys ks) /\
  (maxVersionKeys ks <= 0 \/ Z.of_nat (size (<[key := v]> (lastVer ks))) <= maxVersionKeys ks ->
     v < MaxUint64 -> forall now2 m v2 ks2, store_ok m ->
     (forall c, view now2 m !! key = Some c -> Version c < MaxUint64) ->
     nextVersion now2 (with_store ks' m) key 0 = (v2, ks2) -> v < v2).
Proof.
  intros Hok Hroom Ha E. destruct (nextVersion_spec now ks key atLeast v ks' Hok Hroom Ha E) as [Hm Hat].
  split_and!; [apply Hm|done|apply Hm|apply Hm|apply Hm|apply Hm|].
  intros Hk Hv now2 m v2 ks2 Hok2 Hc2 E2. pose proof (mi_kept _ _ _ _ _ Hm Hk) as Hl.
  pose proof (mi_range _ _ _ _ _ Hm) as Hrange.
  assert (Hd : default 0 (lastVer (with_store ks' m) !! key) = v) by (cbn; by rewrite Hl, lookup_insert_eq).
  apply nextVersion_spec in E2 as [Hm2 _]; [|done|split; [rewrite Hd; lia|done]|unfold MaxUint64; lia].
  pose proof (mi_last _ _ _ _ _ Hm2). lia.
Qed.

(** ** Observed versions *)

Lemma observeVersion_spec now ks key v :
  store_ok (kstore ks) ->
  let ks' := observeVersion now ks key v in
  reads now (kstore ks) (kstore ks') /\ cfg ks' = cfg ks /\ guard ks' = guard ks /\
  (maxVersionKeys ks <= 0 \/ Z.of_nat (size (<[key := v]> (lastVer ks))) <= maxVersionKeys ks ->
   v <= default 0 (lastVer ks' !! key)).
Proof.
  intros Hok. cbv zeta. unfold observeVersion. cbv zeta. set (lv := if _ <? v then _ else _).
  destruct (prune_spec now (with_lastVer ks lv)) as [Q1 Q2 Q3 Q4 Q5 Q6 Q7]; [done|].
  cbn [kstore cfg guard maxVersionKeys lastVer with_lastVer] in *. split_and!; [done|done|done|].
  intros Hk. rewrite Q7.
  - unfold lv. cbn [lastVer with_lastVer]. destruct (Z.ltb_spec (default 0 (lastVer ks !! key)) v); [|done].
    by rewrite lookup_insert_eq.
  - destruct Hk as [|Hk]; [by left|right]. etrans; [|exact Hk]. apply Nat2Z.inj_le. unfold lv.
    destruct (_ <? v); [done|]. rewrite map_size_insert. destruct (lastVer ks !! key); cbn; lia.
Qed.

(** ** Writes on the owner *)

(** No other node owns the key: there is no ring, or this node comes first. *)
Definition owned e (key : bytes) : Prop :=
  match ringOf e with Some (c, r) => foreignOwner c r key = None | None => True end.

(** Arguments that pass every check of an operation on a plain keyspace. *)
Record admissible e (ksName : bytes) ks (key : bytes) : Prop := {
  ad_ks : getKS e ksName = Some ks;
  ad_key : validateKey e ksName key = None;
  ad_len : validateKeyLen e ks key = None;
  ad_mode : typedMode (cMode (cfg ks)) = false;
}.

(** What changes when only keyspace [ksName] and the fan-out pool do. *)
Record only_ks e (ksName : bytes) e' ks' : Prop := {
  ok_here : getKS e' ksName = Some ks';
  ok_there : forall n, n <> ksName -> getKS e' n = getKS e n;
  ok_maxKey : maxKeyLen e' = maxKeyLen e;
  ok_maxVal : maxValueSize e' = maxValueSize e;
  ok_owned : forall k, owned e k -> owned e' k;
  ok_global : global e' = global e;
}.

Lemma only_with_ks e n ks : only_ks e n (with_ks e n ks) ks.
Proof.
  split; try done; [apply lookup_insert_eq|]. intros n' Hn. unfold getKS. cbn. by rewrite lookup_insert_ne.
Qed.

Lemma with_fanout_owned e c fo k :
  cluster e = Some c -> owned e k -> owned (with_fanout e c fo) k.
Proof.
  intros Hc. unfold owned, ringOf. cbn [cluster with_fanout with_cluster]. rewrite Hc. by destruct (cRing c).
Qed.

Lemma replicaFanout_cluster e n k f c r fo ps :
  replicaFanout e n k f = Some (c, r, fo, ps) -> cluster e = Some c.
Proof.
  unfold replicaFanout, ringOf. destruct (cluster e) as [c'|]; [|done]. destruct (cRing c'); [|done].
  destruct (Fanout c'); [|done]. by intros [= <- _ _ _].
Qed.

Lemma only_replicate e n e1 ks key ent f : only_ks e n e1 ks -> only_ks e n (replicate e1 n key ent f) ks.
Proof.
  intros []. unfold replicate. destruct (replicaFanout e1 n key f) as [[[[c r] fo] [|p ps]]|] eqn:E; [done| |done].
  apply replicaFanout_cluster in E. split; try done. eauto using with_fanout_owned.
Qed.

Lemma accept_fresh now m key ent :
  store_ok m -> entry_ok ent -> tooBig m (entryCost key ent) = false ->
  (forall c, view now m !! key = Some c -> Version c < Version ent) ->
  exists m', AcceptIfNewer now m key ent = (true, m') /\
    refines now (insert_live now key ent (view now m)) m' /\ store_ok m' /\ maxBytes m' = maxBytes m.
Proof.
  intros Hok He Hbig Hnew. destruct (AcceptIfNewer_implements now m key ent Hok He) as (H1 & H2 & H3).
  pose proof (proj1 (apply_msg_params now m (MPut key ent))) as Hp. cbn [apply_msg] in Hp.
  unfold spec_AcceptIfNewer in *. rewrite Hbig, andb_true_r in *.
  assert (newer_than (view now m) key (Version ent) = true) as Hn.
  { unfold newer_than. destruct (view now m !! key) as [c|] eqn:E; [|done]. apply Z.ltb_lt. by apply Hnew. }
  rewrite Hn in *. destruct (AcceptIfNewer now m key ent) as [b m']. cbn in *. subst b. by exists m'.
Qed.

Lemma plain_entry_ok value v x : bytes_ok value -> entry_ok (mkEntry value v x 0).
Proof. intros. by split. Qed.

Lemma putLocalApply_spec now ctx e n ks key value force ttl :
  getKS e n = Some ks -> store_ok (kstore ks) -> ver_room now ks key -> bytes_ok value -> cancelled ctx = false ->
  tooBig (kstore ks) (len key + (len value + 64)) = false ->
  exists v ks' e', putLocalApply now ctx e n key value force ttl = (None, e') /\ only_ks e n e' ks' /\
    cfg ks' = cfg ks /\ store_ok (kstore ks') /\ maxBytes (kstore ks') = maxBytes (kstore ks) /\
    default 0 (lastVer ks !! key) < v /\ (forall c, view now (kstore ks) !! key = Some c -> Version c < v) /\
    refines now (insert_live now key
      (mkEntry value v (expireAt now (match ttl with Some t => t | None => TTL (cfg ks) end)) 0) (view now (kstore ks)))
      (kstore ks').
Proof.
  intros Hks Hok Hroom Hb Hctx Hbig. unfold putLocalApply. rewrite Hks, Hctx.
  destruct (nextVersion now ks key 0) as [v ks1] eqn:Ev.
  apply nextVersion_spec in Ev as [Hm _]; [|done|done|unfold MaxUint64; lia].
  pose proof (mi_reads _ _ _ _ _ Hm) as [Rv Ro Rm Rt]. rewrite <- (mi_cfg _ _ _ _ _ Hm).
  set (ent := mkEntry value v _ 0).
  destruct (accept_fresh now (kstore ks1) key ent) as (m' & -> & Href & Hok' & Hmax);
    [done|by apply plain_entry_ok|unfold tooBig in *; by rewrite Rm|rewrite Rv; apply Hm|].
  exists v, (with_store ks1 m'). eexists. split; [reflexivity|].
  split; [apply only_replicate, only_with_ks|]. rewrite Rv in Href. cbn [kstore cfg with_store].
  split_and!; [by rewrite (mi_cfg _ _ _ _ _ Hm)|done|congruence|apply Hm|apply Hm|done].
Qed.

(** An expiry that fits int64 is ahead. *)
Lemma live_expireAt now ttl : expiry_fits now ttl -> live_at now (expireAt now ttl).
Proof.
  unfold expiry_fits, live_at, expireAt. intros Hf. destruct (Z.leb_spec ttl 0); [by left|].
  rewrite unixNano_small by lia. lia.
Qed.

Lemma fresh_live now ttl value v f :
  expiry_fits now ttl -> Expired (mkEntry value v (expireAt now ttl) f) now = false.
Proof. intros Hf. by apply live_Expired, live_expireAt. Qed.

(** A live readable entry is what Get returns, whatever the mode and cluster. *)
Lemma Engine_Get_hit {W} (env : Env W) now ctx w e n ks key c :
  admissible e n ks key -> store_ok (kstore ks) -> cancelled ctx = false ->
  readable now (kstore ks) key = Some c -> IsNegative c = false ->
  (Engine_Get env now ctx w e n key).1.1 = inl (Value c).
Proof.
  intros [Hks Hkey Hlen Hmode] Hok Hctx Hr Hn. unfold Engine_Get. rewrite Hctx, Hkey, Hks, Hlen, Hmode.
  unfold storeGet. destruct (Get now (kstore ks) key) as [r m'] eqn:E. apply Get_reads in E as [-> _]; [|done].
  rewrite Hr. cbn. by rewrite Hn.
Qed.

Section put.
Context {W : Type} (env env' : Env W).

(** C17: a node reads its own writes.  On the owner of a key, in a LoadThrough or
    CacheOnly keyspace without a byte budget, a Put with admissible arguments and
    a TTL that ends before the year 2262 (its expiry fits int64) succeeds; the
    key then holds the value under a version above every version the node had
    seen for it, all other keys and keyspaces are as before, and a Get at that
    moment returns the value without consulting another node or the data source. *)
Theorem put_then_get now ctx ctx' w w' e n ks key value ttl :
  expiry_fits now (default (TTL (cfg ks)) ttl) -> admissible e n ks key -> validateValueSize e ks value = None -> owned e key ->
  store_ok (kstore ks) -> ver_room now ks key -> maxBytes (kstore ks) <= 0 -> bytes_ok value ->
  cancelled ctx = false -> cancelled ctx' = false ->
  exists e' ks' v x, Put env now ctx w e n key value ttl = (None, w, e') /\
    getKS e' n = Some ks' /\ (forall n', n' <> n -> getKS e' n' = getKS e n') /\
    view now (kstore ks') = <[key := mkEntry value v x 0]> (view now (kstore ks)) /\
    default 0 (lastVer ks !! key) < v /\ (forall c, view now (kstore ks) !! key = Some c -> Version c < v) /\
    (Engine_Get env' now ctx' w' e' n key).1.1 = inl value.
Proof.
  intros Hnow Had Hval Hown Hok Hroom Hmax Hb Hctx Hctx'. pose proof Had as [Hks Hkey Hlen Hmode].
  destruct (putLocalApply_spec now ctx e n ks key value false ttl)
    as (v & ks' & e' & Ep & Honly & Hcfg & Hok' & Hmax' & Hv1 & Hv2 & Href); try done.
  { unfold tooBig. by destruct (Z.ltb_spec 0 (maxBytes (kstore ks))); [lia|]. }
  exists e', ks', v, (expireAt now (default (TTL (cfg ks)) ttl)).
  assert (Hview : view now (kstore ks') = <[key := mkEntry value v (expireAt now (default (TTL (cfg ks)) ttl)) 0]> (view now (kstore ks))).
  { rewrite (ref_exact _ _ _ Href) by lia. unfold insert_live. by rewrite fresh_live. }
  split_and!; try done; try apply Honly.
  - unfold Put, putViaCluster, PutLocal, PutLocalAtHop. rewrite Hks, Hmode, Hctx, Hkey, Hval, Hlen.
    unfold owned in Hown. destruct (ringOf e) as [[c r]|]; [rewrite Hown|]; by rewrite Ep.
  - pose proof Honly as [Hhere _ Hmk Hmv _ _].
    apply (Engine_Get_hit env' now ctx' w' e' n ks' key (mkEntry value v
      (expireAt now (default (TTL (cfg ks)) ttl)) 0)); try done.
    + split; [done| | |by rewrite Hcfg].
      * unfold validateKey in *. by rewrite Hmk.
      * unfold validateKeyLen in *. by rewrite Hmk, Hcfg.
    + unfold readable. by rewrite Hview, lookup_insert_eq.
Qed.

End put.

Lemma only_replicateWait {W} (env : Env W) w e n e1 ks key ent r w' e' :
  only_ks e n e1 ks -> replicateWait env w e1 n key ent = (r, w', e') -> only_ks e n e' ks.
Proof.
  intros []. unfold replicateWait. destruct (replicaFanout e1 n key true) as [[[[c rg] fo] [|p ps]]|] eqn:E.
  1,3: by intros [= <- <- <-].
  apply replicaFanout_cluster in E. destruct (Apply _ _ _ _ _ _ _ _) as [[w1 fo'] fails]. intros [= <- <- <-].
  split; try done. eauto using with_fanout_owned.
Qed.

Lemma admissible_only e n ks key e' ks' :
  admissible e n ks key -> only_ks e n e' ks' -> cfg ks' = cfg ks -> admissible e' n ks' key.
Proof.
  intros [Hks Hkey Hlen Hmode] [] Hcfg. split; [done| | |by rewrite Hcfg].
  - unfold validateKey in *. by rewrite ok_maxKey0.
  - unfold validateKeyLen in *. by rewrite ok_maxKey0, Hcfg.
Qed.

(** A CacheOnly miss on the owner is final. *)
Lemma Engine_Get_miss {W} (env : Env W) now ctx w e n ks key :
  admissible e n ks key -> store_ok (kstore ks) -> cancelled ctx = false -> owned e key ->
  cMode (cfg ks) = ModeCacheOnly -> readable now (kstore ks) key = None ->
  (Engine_Get env now ctx w e n key).1.1 = inr ErrNotFound.
Proof.
  intros [Hks Hkey Hlen Hmode] Hok Hctx Hown Hco Hr. unfold Engine_Get. rewrite Hctx, Hkey, Hks, Hlen, Hmode.
  unfold storeGet. destruct (Get now (kstore ks) key) as [r m1] eqn:E. apply Get_reads in E as [-> [Rv Ro _ _]]; [|done].
  rewrite Hr. cbn [cfg with_store kstore]. rewrite Hco, bool_decide_eq_true_2 by done. cbn [andb].
  case_match; [done|].
  destruct (Get now m1 key) as [r m2] eqn:E2. apply Get_reads in E2 as [-> _]; [|done].
  unfold readable in *. rewrite Rv, Hr. cbn [cfg with_store kstore].
  rewrite ?Hco, bool_decide_eq_true_2 by done. unfold fetchFromOwner, ringOf in *. cbn [cluster with_ks with_keyspaces].
  unfold owned, ringOf in Hown. destruct (cluster e) as [c|]; [|done]. destruct (cRing c) as [rg|]; [|done].
  by rewrite Hown.
Qed.

Lemma DeleteIfVersion_fresh now m key v :
  expiry_fits now (tombstoneTTL m) -> store_ok m -> (forall c, view now m !! key = Some c -> Version c < v) ->
  exists m', DeleteIfVersion now m key v = (true, m') /\ view now m' !! key = Some (tombstone now m v) /\ store_ok m' /\
    (forall k, k <> key -> maxBytes m <= 0 -> view now m' !! k = view now m !! k).
Proof.
  intros Hnow Hok Hnew. destruct (DeleteIfVersion_implements now m key v Hok) as (H1 & H2 & H3).
  pose proof (proj1 (apply_msg_params now m (MDel key v))) as Hp. cbn [apply_msg] in Hp.
  assert (Hl : Expired (tombstone now m v) now = false) by (apply (tomb_live now (tombstoneTTL m) v Hnow)).
  unfold spec_DeleteIfVersion, insert_live in *. cbn [Version tombstone] in *. rewrite Hl in *.
  assert (Hs : match view now m !! key with
               | Some e0 => if v <? Version e0 then (false, view now m) else (true, <[key := tombstone now m v]> (view now m))
               | None => (true, <[key := tombstone now m v]> (view now m))
               end = (true, <[key := tombstone now m v]> (view now m))).
  { destruct (view now m !! key) as [c|] eqn:E; [|done]. specialize (Hnew c eq_refl).
    by destruct (Z.ltb_spec v (Version c)); [lia|]. }
  rewrite Hs in *. destruct (DeleteIfVersion now m key v) as [b m']. cbn in H1, H2, H3, Hp. subst b.
  exists m'. split_and!; [done| |done|].
  - apply (ref_pinned _ _ _ H2); [apply lookup_insert_eq|done].
  - intros k Hk Hmax. rewrite (ref_exact _ _ _ H2) by lia. by rewrite lookup_insert_ne.
Qed.

(** A replicated put that is not newer than a live entry is refused. *)
Lemma stale_put_refused now e n ks key ent c :
  admissible e n ks key -> store_ok (kstore ks) -> view now (kstore ks) !! key = Some c ->
  entry_ok ent -> IsNegative ent = false -> Version ent <= Version c ->
  let '(applied, err, e2) := applyUntyped now e n key ent in
  applied = false /\ err = None /\
  exists ks2, getKS e2 n = Some ks2 /\ view now (kstore ks2) = view now (kstore ks).
Proof.
  intros [Hks Hkey _ _] Hok Hc He Hneg Hver. unfold applyUntyped. rewrite Hkey, Hks, Hneg.
  destruct (observeVersion_spec now ks key (Version ent) Hok) as ([Rv Ro _ _] & _).
  set (ks1 := observeVersion now ks key (Version ent)) in *.
  destruct (AcceptIfNewer_implements now (kstore ks1) key ent Ro He) as (H1 & H2 & _).
  assert (E : spec_AcceptIfNewer now (tooBig (kstore ks1) (entryCost key ent)) (view now (kstore ks1)) key ent
    = (false, view now (kstore ks1))).
  { unfold spec_AcceptIfNewer, newer_than. rewrite Rv, Hc. by rewrite (proj2 (Z.ltb_ge _ _)). }
  assert (Hun : (AcceptIfNewer now (kstore ks1) key ent).2 = add_stale (kstore ks1)).
  { revert H1. rewrite E. unfold AcceptIfNewer.
    assert (Hi : exists it, Store.items (kstore ks1) !! key = Some it /\ Expired (entry it) now = false /\
      Version (entry it) = Version c).
    { rewrite <- Rv, lookup_view in Hc. destruct (Store.items (kstore ks1) !! key) as [it|]; [|done].
      exists it. destruct (Expired (entry it) now); [done|]. injection Hc as <-. by rewrite flushed_version. }
    destruct Hi as (it & -> & -> & ->). by rewrite (proj2 (Z.leb_le _ _) Hver). }
  destruct (AcceptIfNewer now (kstore ks1) key ent) as [b m']. cbn in H1, Hun. rewrite E in H1. cbn in H1. subst b m'.
  split_and!; [done|done|]. eexists. split; [apply lookup_insert_eq|]. cbn [kstore with_store].
  rewrite <- Rv. by apply view_ext.
Qed.

Section delete.
Context {W : Type} (env env' : Env W).


End delete.

(** ** Ownership changes and forwarding *)

Lemma mint_above now ks key u v ks' :
  store_ok (kstore ks) -> ver_room now ks key -> u <= default 0 (lastVer ks !! key) ->
  nextVersion now ks key 0 = (v, ks') -> u < v.
Proof.
  intros Hok Hroom Hu E. apply nextVersion_spec in E as [Hm _]; [|done|done|unfold MaxUint64; lia].
  pose proof (mi_last _ _ _ _ _ Hm). lia.
Qed.

(** Room for versions survives an accepted or refused write of a smaller version. *)
Lemma room_after now m m' s (key : bytes) u :
  refines now s m' -> u < MaxUint64 ->
  (forall c, view now m !! key = Some c -> Version c < MaxUint64) ->
  (forall c, s !! key = Some c -> view now m !! key = Some c \/ Version c = u) ->
  forall c, view now m' !! key = Some c -> Version c < MaxUint64.
Proof.
  intros Href Hu Hm Hs c Hc. eapply lookup_weaken in Hc; [|apply Href].
  destruct (Hs c Hc) as [H|H]; [by apply Hm|lia].
Qed.

(** The counter keeps an observed version when the map has room. *)
Definition map_room ks (key : bytes) : Prop :=
  maxVersionKeys ks <= 0 \/ forall v, Z.of_nat (size (<[key := v]> (lastVer ks))) <= maxVersionKeys ks.

Lemma observe_room now ks key v :
  store_ok (kstore ks) -> map_room ks key -> ver_room now ks key -> 0 <= v < MaxUint64 ->
  let ks' := observeVersion now ks key v in
  0 <= default 0 (lastVer ks' !! key) < MaxUint64 /\ v <= default 0 (lastVer ks' !! key).
Proof.
  intros Hok Hr [Hl _] Hv. cbv zeta.
  destruct (observeVersion_spec now ks key v Hok) as (_ & _ & _ & Hobs).
  assert (Hcond : maxVersionKeys ks <= 0 \/ Z.of_nat (size (<[key := v]> (lastVer ks))) <= maxVersionKeys ks)
    by (destruct Hr; auto).
  split; [|by apply Hobs]. unfold observeVersion. cbv zeta. set (lv := if _ <? v then _ else _).
  destruct (prune_spec now (with_lastVer ks lv) Hok) as [_ _ _ _ Hsub _ _]. cbn [lastVer with_lastVer] in Hsub.
  destruct (lastVer (pruneLastVerLocked now (with_lastVer ks lv)) !! key) as [x|] eqn:E; cbn; [|unfold MaxUint64; lia].
  eapply lookup_weaken in E; [|exact Hsub]. unfold lv in E.
  destruct (Z.ltb_spec (default 0 (lastVer ks !! key)) v); [rewrite lookup_insert_eq in E|rewrite E in Hl; cbn in Hl]; naive_solver.
Qed.

(** ownership moves without going back in time.  When a replica has been
    offered a put or a delete of some version, whether it stored it or not, the
    first version it mints for that key as the new owner is above it (as long as
    the version map has room for the key), so its writes win on every node that
    saw the old owner's. *)
Theorem failover_versions now e n ks key ent v0 :
  admissible e n ks key -> store_ok (kstore ks) -> ver_room now ks key -> map_room ks key ->
  entry_ok ent -> IsNegative ent = false -> 0 <= Version ent < MaxUint64 -> 0 <= v0 < MaxUint64 ->
  (let '(_, _, e2) := applyUntyped now e n key ent in
   exists ks2, getKS e2 n = Some ks2 /\ forall v ks3, nextVersion now ks2 key 0 = (v, ks3) -> Version ent < v) /\
  (let '(_, _, e2) := ApplyDeleteWithRingGen now e n key v0 in
   exists ks2, getKS e2 n = Some ks2 /\ forall v ks3, nextVersion now ks2 key 0 = (v, ks3) -> v0 < v).
Proof.
  intros [Hks Hkey _ _] Hok Hroom Hmap He Hneg Hv Hv0.
  unfold applyUntyped, ApplyDeleteWithRingGen. rewrite Hkey, Hks, Hneg. split.
  - destruct (observe_room now ks key (Version ent) Hok Hmap Hroom Hv) as [Hl1 Hl2].
    destruct (observeVersion_spec now ks key (Version ent) Hok) as ([Rv Ro _ _] & _).
    set (ks1 := observeVersion now ks key (Version ent)) in *.
    destruct (AcceptIfNewer_implements now (kstore ks1) key ent Ro He) as (_ & Href & Hok').
    destruct (AcceptIfNewer now (kstore ks1) key ent) as [b m']. cbn [snd] in Href, Hok'.
    eexists. split; [apply lookup_insert_eq|]. intros v ks3. apply mint_above; [done| |exact Hl2].
    split; [exact Hl1|]. cbn [kstore with_store]. eapply (room_after _ (kstore ks)); [exact Href|apply Hv|apply Hroom|].
    intros c. unfold spec_AcceptIfNewer, insert_live. rewrite Rv.
    repeat case_match; cbn; rewrite ?lookup_delete_Some, ?lookup_insert_Some; naive_solver.
  - destruct (observe_room now ks key v0 Hok Hmap Hroom Hv0) as [Hl1 Hl2].
    destruct (observeVersion_spec now ks key v0 Hok) as ([Rv Ro _ _] & _).
    set (ks1 := observeVersion now ks key v0) in *.
    destruct (DeleteIfVersion_implements now (kstore ks1) key v0 Ro) as (_ & Href & Hok').
    destruct (DeleteIfVersion now (kstore ks1) key v0) as [b m']. cbn [snd] in Href, Hok'.
    eexists. split; [apply lookup_insert_eq|]. intros v ks3. apply mint_above; [done| |exact Hl2].
    split; [exact Hl1|]. cbn [kstore with_store]. eapply (room_after _ (kstore ks)); [exact Href|apply Hv0|apply Hroom|].
    intros c. unfold spec_DeleteIfVersion, insert_live. rewrite Rv.
    repeat case_match; cbn; rewrite ?lookup_delete_Some, ?lookup_insert_Some; naive_solver.
Qed.

Section forward.
Context {W : Type} (env env' : Env W).

(** a Put is forwarded at most once.  A client-facing node that is not the
    owner forwards and touches nothing of its own; a node that receives a
    forwarded Put (hop count 1 or more) makes no further call: it applies the
    write itself, and if it is not the owner either, it fans the write out all
    the same. *)
Theorem put_forwarding now ctx w e n key value ttl :
  (forall c r owner ks, ringOf e = Some (c, r) -> foreignOwner c r key = Some owner -> getKS e n = Some ks ->
     typedMode (cMode (cfg ks)) = false -> (Put env now ctx w e n key value ttl).2 = e) /\
  (forall hop, 1 <= hop ->
     PutLocalAtHop env now ctx w e n key value hop ttl = PutLocalAtHop env' now ctx w e n key value hop ttl /\
     forall c r owner ks, ringOf e = Some (c, r) -> foreignOwner c r key = Some owner -> admissible e n ks key ->
       validateValueSize e ks value = None -> cancelled ctx = false ->
       PutLocalAtHop env now ctx w e n key value hop ttl =
         let '(res, e') := putLocalApply now ctx e n key value true ttl in (res, w, e')).
Proof.
  split.
  - intros c r owner ks Hr Ho Hks Hmode. unfold Put, putViaCluster. rewrite Hks, Hmode, Hr, Ho.
    destruct (_ || _); [done|]. by destruct (env_ForwardPut env _ _ _ _ _ _ _).
  - intros hop Hhop. assert (Hh : (hop <? maxForwardHops) = false) by (apply Z.ltb_ge; exact Hhop).
    unfold PutLocalAtHop. rewrite Hh. split.
    + destruct (cancelled ctx); [done|]. destruct (validateKey e n key); [done|]. destruct (getKS e n) as [ks|]; [|done].
      destruct (validateValueSize e ks value); [done|]. destruct (validateKeyLen e ks key); [done|].
      destruct (ringOf e) as [[c r]|]; [|done]. destruct (foreignOwner c r key); [|done]. by rewrite andb_false_r.
    + intros c r owner ks Hr Ho [Hks Hkey Hlen _] Hval Hctx. rewrite Hctx, Hkey, Hks, Hval, Hlen, Hr, Ho.
      by rewrite andb_false_r.
Qed.

End forward.

(** ** Loading through *)

Lemma nextVersion_keeps now ks key v :
  store_ok (kstore ks) -> cfg (nextVersion now ks key v).2 = cfg ks /\ store_ok (kstore (nextVersion now ks key v).2).
Proof.
  intros Hok. unfold nextVersion. cbv zeta. destruct (PeekVersion now (kstore ks) key) as [pv m] eqn:E.
  apply PeekVersion_reads in E as [_ Hr]; [|done]. cbn [snd].
  set (ks1 := with_lastVer _ _). destruct (prune_spec now ks1) as [Q1 Q2 _ _ _ _ _]; [apply Hr|].
  split; [done|apply Q1].
Qed.

(** The engine files the held runtime under its name, if it files it at all. *)
Definition holds e (n : bytes) (h : Held) : Prop := held_here h = true -> getKS e n = Some (held_ks h).

(** What a goroutine does to the runtime it holds: the engine follows it when it
    files it, and keeps its keyspaces when it does not. *)
Record held_step e (n : bytes) (h : Held) (e' : Engine) (h' : Held) : Prop := {
  hs_here : held_here h' = held_here h;
  hs_holds : holds e n h -> holds e' n h';
  hs_lost : held_here h = false -> keyspaces e' = keyspaces e;
  hs_cfg : cfg (held_ks h') = cfg (held_ks h);
  hs_value : maxValueSize e' = maxValueSize e;
  hs_key : maxKeyLen e' = maxKeyLen e;
}.

Lemma held_step_refl e n h : held_step e n h e h.
Proof. by split. Qed.

Lemma held_step_trans e n h e1 h1 e2 h2 :
  held_step e n h e1 h1 -> held_step e1 n h1 e2 h2 -> held_step e n h e2 h2.
Proof.
  intros [A1 A2 A3 A4 A5 A6] [B1 B2 B3 B4 B5 B6].
  split; [congruence|tauto|intros Hl; rewrite B3, A3 by congruence; done|congruence..].
Qed.

Lemma held_step_file e n h ks : cfg ks = cfg (held_ks h) -> held_step e n h (fileKS e n (heldTo h ks)) (heldTo h ks).
Proof.
  intros Hc. unfold fileKS, heldTo. cbn [held_here held_ks]. destruct (held_here h) eqn:Eh.
  - split; try done; [|congruence]. intros _ _. apply lookup_insert_eq.
  - by split.
Qed.

Lemma held_step_replicate e n h e1 h1 key ent f :
  held_step e n h e1 h1 -> held_step e n h (replicate e1 n key ent f) h1.
Proof.
  intros [A1 A2 A3 A4 A5 A6].
  assert (Hk : keyspaces (replicate e1 n key ent f) = keyspaces e1 /\ maxValueSize (replicate e1 n key ent f) = maxValueSize e1 /\
    maxKeyLen (replicate e1 n key ent f) = maxKeyLen e1)
    by (unfold replicate; by destruct (replicaFanout e1 n key f) as [[[[c r] fo] [|p ps]]|]).
  destruct Hk as (K1 & K2 & K3). split; unfold holds, getKS in *; rewrite ?K1, ?K2, ?K3; done.
Qed.

Lemma report_spec ok now e n h e' h' :
  report ok now e n h = (e', h') -> held_step e n h e' h' /\ kstore (held_ks h') = kstore (held_ks h) /\
    lastVer (held_ks h') = lastVer (held_ks h) /\ maxVersionKeys (held_ks h') = maxVersionKeys (held_ks h).
Proof.
  unfold report. cbv zeta. set (e1 := match global e with Some _ => _ | None => _ end). intros [= <- <-]. split_and!; [|done..].
  apply (held_step_trans e n h e1 h); [|by apply held_step_file].
  unfold e1. destruct (global e); by split.
Qed.

Lemma validateValueSize_ext e e' ks ks' v :
  maxValueSize e' = maxValueSize e -> cfg ks' = cfg ks -> validateValueSize e' ks' v = validateValueSize e ks v.
Proof. unfold validateValueSize. by intros -> ->. Qed.

Lemma positive_readable now m k c :
  positive (readable now m k) = Some c -> view now m !! k = Some c /\ IsTombstone c = false /\ IsNegative c = false.
Proof.
  unfold positive, readable. intros H. repeat case_match; simplify_eq; done.
Qed.

Lemma storeGet_spec now e n ks key r e' ks' :
  store_ok (kstore ks) -> storeGet now e n ks key = (r, e', ks') ->
  r = readable now (kstore ks) key /\ e' = with_ks e n ks' /\ reads now (kstore ks) (kstore ks') /\
  cfg ks' = cfg ks /\ lastVer ks' = lastVer ks /\ maxVersionKeys ks' = maxVersionKeys ks.
Proof.
  intros Hok. unfold storeGet. destruct (Get now (kstore ks) key) as [r0 m0] eqn:E.
  apply Get_reads in E as [-> Hr]; [|done]. intros [= <- <- <-]. done.
Qed.

Lemma heldGet_spec now e n h key r e' h' :
  store_ok (kstore (held_ks h)) -> heldGet now e n h key = (r, e', h') ->
  r = readable now (kstore (held_ks h)) key /\ held_step e n h e' h' /\
  reads now (kstore (held_ks h)) (kstore (held_ks h')) /\
  lastVer (held_ks h') = lastVer (held_ks h) /\ maxVersionKeys (held_ks h') = maxVersionKeys (held_ks h).
Proof.
  intros Hok. unfold heldGet. destruct (Get now (kstore (held_ks h)) key) as [r0 m0] eqn:E.
  apply Get_reads in E as [-> Hr]; [|done]. intros [= <- <- <-]. split_and!; try done. by apply held_step_file.
Qed.

Lemma storeNegative_step now e n h key fan e' h' :
  store_ok (kstore (held_ks h)) -> storeNegative now e n h key fan = (e', h') -> held_step e n h e' h'.
Proof.
  intros Hok. unfold storeNegative. destruct (_ <=? 0); [intros [= <- <-]; apply held_step_refl|].
  destruct (Peek now (kstore (held_ks h)) key) as [r m] eqn:E. apply Peek_reads in E as [-> Hr]; [|done].
  case_match; [intros [= <- <-]; by apply held_step_file|].
  pose proof (proj1 (nextVersion_keeps now (with_store (held_ks h) m) key 0 (rd_ok _ _ _ Hr))) as Hc.
  destruct (nextVersion now (with_store (held_ks h) m) key 0) as [v ks2]. cbn [snd cfg with_store] in Hc.
  destruct (AcceptNegative _ _ _ _) as [ok m3].
  assert (held_step e n h (fileKS e n (heldTo h (with_store ks2 m3))) (heldTo h (with_store ks2 m3)))
    by (by apply held_step_file).
  destruct (ok && fan); intros [= <- <-]; [by apply held_step_replicate|done].
Qed.

Lemma storeNegative_live now e n h key fan c e' h' :
  store_ok (kstore (held_ks h)) -> view now (kstore (held_ks h)) !! key = Some c -> IsNegative c = false ->
  storeNegative now e n h key fan = (e', h') -> reads now (kstore (held_ks h)) (kstore (held_ks h')).
Proof.
  intros Hok Hc Hn. unfold storeNegative. destruct (_ <=? 0); [intros [= <- <-]; by apply reads_refl|].
  destruct (Peek now (kstore (held_ks h)) key) as [r m] eqn:E. apply Peek_reads in E as [-> Hr]; [|done].
  rewrite Hc, Hn. cbn. by intros [= <- <-].
Qed.

Lemma positive_untouched now s m m' k :
  refines now s m' -> positive (readable now m k) = None ->
  (forall c, s !! k = Some c -> view now m !! k = Some c \/ IsNegative c = true) ->
  positive (readable now m' k) = None.
Proof.
  unfold positive, readable. intros Href Hp Hs. destruct (view now m' !! k) as [c|] eqn:E; [|done].
  eapply lookup_weaken in E; [|apply Href]. destruct (Hs c E) as [H|H].
  - by rewrite H in Hp.
  - destruct (IsTombstone c); [done|]. by rewrite H.
Qed.

Lemma storeNegative_none now e n h key fan e' h' :
  store_ok (kstore (held_ks h)) -> ver_room now (held_ks h) key -> positive (readable now (kstore (held_ks h)) key) = None ->
  storeNegative now e n h key fan = (e', h') ->
  store_ok (kstore (held_ks h')) /\ positive (readable now (kstore (held_ks h')) key) = None.
Proof.
  intros Hok Hroom Hp. unfold storeNegative. destruct (_ <=? 0); [by intros [= <- <-]|].
  destruct (Peek now (kstore (held_ks h)) key) as [r m] eqn:E. apply Peek_reads in E as [-> [Rv Ro Rm Rt]]; [|done].
  case_match.
  { intros [= <- <-]. cbn. split; [done|]. unfold readable. by rewrite Rv. }
  destruct (nextVersion now (with_store (held_ks h) m) key 0) as [v ks2] eqn:Ev.
  apply nextVersion_spec in Ev as [Hm _]; [|done|split; [apply Hroom|cbn; rewrite Rv; apply Hroom]|unfold MaxUint64; lia].
  pose proof (mi_reads _ _ _ _ _ Hm) as [Rv2 Ro2 _ _]. cbn [kstore with_store] in Rv2. set (ent := mkEntry [] v _ FlagNegative).
  destruct (AcceptNegative_implements now (kstore ks2) key ent Ro2 eq_refl (Forall_nil_2 _)) as (_ & Href & Hok3).
  destruct (AcceptNegative now (kstore ks2) key ent) as [ok m3]. cbn [snd] in Href, Hok3.
  intros [= <- <-]. cbn [heldTo held_ks kstore with_store]. split; [done|].
  apply (positive_untouched now _ (kstore (held_ks h)) _ key Href Hp).
  intros c. unfold spec_AcceptNegative, insert_live. rewrite Rv2, Rv.
  repeat case_match; cbn; rewrite ?lookup_delete_Some, ?lookup_insert_Some; naive_solver.
Qed.

Lemma loadFill_live now e n h key val fan c r e' h' :
  store_ok (kstore (held_ks h)) -> validateValueSize e (held_ks h) val = None ->
  positive (readable now (kstore (held_ks h)) key) = Some c -> loadFill now e n h key val fan = (r, e', h') ->
  r = inl (Value c) /\ held_step e n h e' h' /\ reads now (kstore (held_ks h)) (kstore (held_ks h')).
Proof.
  intros Hok Hval Hp. unfold loadFill. rewrite Hval. destruct (heldGet now e n h key) as [[r0 e1] h1] eqn:E.
  apply heldGet_spec in E as (-> & Hs & Hr & _); [|done]. rewrite Hp. by intros [= <- <- <-].
Qed.

Lemma loadFill_step now e n h key val fan r e' h' :
  store_ok (kstore (held_ks h)) -> loadFill now e n h key val fan = (r, e', h') -> held_step e n h e' h'.
Proof.
  intros Hok. unfold loadFill. destruct (validateValueSize e (held_ks h) val); [intros [= <- <- <-]; apply held_step_refl|].
  destruct (heldGet now e n h key) as [[r0 e1] h1] eqn:E. apply heldGet_spec in E as (-> & Hs & Hr & _); [|done].
  destruct (positive _); [by intros [= <- <- <-]|].
  pose proof (proj1 (nextVersion_keeps now (held_ks h1) key 0 (rd_ok _ _ _ Hr))) as Hc.
  destruct (nextVersion now (held_ks h1) key 0) as [v ks2]. cbn [snd] in Hc.
  destruct (AcceptIfNewer _ _ _ _) as [ok m] eqn:Ea.
  assert (Hs2 : held_step e n h (fileKS e1 n (heldTo h1 (with_store ks2 m))) (heldTo h1 (with_store ks2 m)))
    by (eapply held_step_trans; [exact Hs|by apply held_step_file]).
  destruct ok.
  - intros [= <- <- <-]. destruct fan; [by apply held_step_replicate|done].
  - unfold heldGet. destruct (Get _ _ _) as [r1 m1]. intros [= <- <- <-].
    eapply held_step_trans; [exact Hs2|by apply held_step_file].
Qed.

Lemma loadFill_empty now e n h key val fan r e' h' :
  expiry_fits now (TTL (cfg (held_ks h))) -> store_ok (kstore (held_ks h)) ->
  validateValueSize e (held_ks h) val = None -> ver_room now (held_ks h) key ->
  maxBytes (kstore (held_ks h)) <= 0 -> bytes_ok val -> positive (readable now (kstore (held_ks h)) key) = None ->
  loadFill now e n h key val fan = (r, e', h') ->
  r = inl val /\ exists v x,
    view now (kstore (held_ks h')) = <[key := mkEntry val v x 0]> (view now (kstore (held_ks h))) /\
    (forall c, view now (kstore (held_ks h)) !! key = Some c -> Version c < v).
Proof.
  intros Hfit Hok Hval Hroom Hmax Hb Hp. unfold loadFill. rewrite Hval.
  destruct (heldGet now e n h key) as [[r0 e1] h1] eqn:E.
  apply heldGet_spec in E as (-> & Hs & [Rv Ro Rm Rt] & Hlv & Hmv); [|done]. rewrite Hp.
  destruct (nextVersion now (held_ks h1) key 0) as [v ks2] eqn:Ev.
  assert (Hroom1 : ver_room now (held_ks h1) key) by (unfold ver_room; by rewrite Hlv, Rv).
  apply nextVersion_spec in Ev as [Hm _]; [|done|done|unfold MaxUint64; lia].
  pose proof (mi_reads _ _ _ _ _ Hm) as [Rv2 Ro2 Rm2 Rt2]. set (ent := mkEntry val v _ 0).
  destruct (accept_fresh now (kstore ks2) key ent) as (m' & -> & Href & Hok' & Hmax');
    [done|by apply plain_entry_ok| |rewrite Rv2; apply Hm|].
  { unfold tooBig. by destruct (Z.ltb_spec 0 (maxBytes (kstore ks2))); [lia|]. }
  intros [= <- <- <-]. split; [done|]. exists v, (expireAt now (TTL (cfg ks2))). cbn [heldTo held_ks kstore with_store]. split.
  - rewrite (ref_exact _ _ _ Href) by lia. unfold insert_live, ent.
    rewrite fresh_live by (by rewrite (mi_cfg _ _ _ _ _ Hm), (hs_cfg _ _ _ _ _ Hs)). by rewrite Rv2, Rv.
  - rewrite <- Rv. apply Hm.
Qed.

Section load.
Context {W : Type} (env : Env W).

(** The engine as the data source is called: both guards admitted the load. *)
Definition admitted_engine (now : Z) e (n : bytes) ks : Engine :=
  with_ks (global_allow now e).2 n (with_guard ks (Allow now (guard ks)).2).

Lemma loadThrough_admitted now w e n ks key fan res w1 e1 h1 :
  (global_allow now e).1 = None -> (Allow now (guard ks)).1 = None ->
  env_Load env w (admitted_engine now e n ks) n key = (res, w1, e1, h1) ->
  loadThrough env now false w e n ks key fan =
    match res with
    | LoadFailed => let '(e2, h2) := report false now e1 n h1 in (inr ErrSource, w1, e2, h2)
    | LoadNotFound =>
        let '(e2, h2) := storeNegative now e1 n h1 key fan in
        let '(e3, h3) := report true now e2 n h2 in
        let '(cur, e4, h4) := heldGet now e3 n h3 key in
        (match positive cur with Some c => inl (Value c) | None => inr ErrNotFound end, w1, e4, h4)
    | Loaded val =>
        let '(e2, h2) := report true now e1 n h1 in
        let '(r, e3, h3) := loadFill now e2 n h2 key val fan in (r, w1, e3, h3)
    end.
Proof.
  intros Hg Hk Hl. unfold loadThrough, admitted_engine in *. destruct (global_allow now e) as [r e0]. cbn in Hg, Hl. subst r.
  destruct (Allow now (guard ks)) as [r g]. cbn in Hk, Hl. subst r. by rewrite Hl.
Qed.

(** C22: a load never overwrites a value that is there.  Take a load that the
    guards admit and that, if it loads a value, loads one within the size limit.
    Whatever other goroutines did while the data source was asked (env_Load
    returns the engine and the caller's runtime as they left them), if the
    runtime the caller holds then has a live value for the key, the caller gets
    that value and no entry changes, also when the source said not found; if it
    has none and there is no byte budget, a loaded value whose expiry fits int64
    is returned and stored under a version above the tombstone or
    negative entry that was there; not found is returned as such; a failed load
    changes no store.  The engine follows the runtime while it files it; when
    the keyspace was replaced or deleted meanwhile, no keyspace of the engine
    changes. *)
Theorem load_through_fill now w e n ks key fan res w1 e1 h1 :
  (global_allow now e).1 = None -> (Allow now (guard ks)).1 = None ->
  env_Load env w (admitted_engine now e n ks) n key = (res, w1, e1, h1) -> holds e1 n h1 ->
  store_ok (kstore (held_ks h1)) -> ver_room now (held_ks h1) key ->
  (forall val, res = Loaded val -> validateValueSize e1 (held_ks h1) val = None /\ bytes_ok val) ->
  let '(r, _, e', h') := loadThrough env now false w e n ks key fan in
  held_here h' = held_here h1 /\ holds e' n h' /\ (held_here h1 = false -> keyspaces e' = keyspaces e1) /\
  match res, positive (readable now (kstore (held_ks h1)) key) with
  | LoadFailed, _ => r = inr ErrSource /\ kstore (held_ks h') = kstore (held_ks h1)
  | _, Some c => r = inl (Value c) /\ view now (kstore (held_ks h')) = view now (kstore (held_ks h1))
  | Loaded val, None =>
      maxBytes (kstore (held_ks h1)) <= 0 -> expiry_fits now (TTL (cfg (held_ks h1))) -> r = inl val /\
      exists v x, view now (kstore (held_ks h')) = <[key := mkEntry val v x 0]> (view now (kstore (held_ks h1))) /\
        (forall c, view now (kstore (held_ks h1)) !! key = Some c -> Version c < v)
  | LoadNotFound, None => r = inr ErrNotFound
  end.
Proof.
  intros Hg Hk Hl Hh1 Hok Hroom Hval. rewrite (loadThrough_admitted _ _ _ _ _ _ _ _ _ _ _ Hg Hk Hl).
  destruct res as [val| |].
  - destruct (Hval val eq_refl) as [Hv Hb]. destruct (report true now e1 n h1) as [e2 h2] eqn:Er.
    apply report_spec in Er as (Hs & Es & El & Em).
    destruct (loadFill now e2 n h2 key val fan) as [[r e3] h3] eqn:E3.
    assert (Hv2 : validateValueSize e2 (held_ks h2) val = None)
      by (rewrite (validateValueSize_ext e1 _ (held_ks h1)); [done|apply Hs..]).
    pose proof (loadFill_step _ _ _ _ _ _ _ _ _ _ ltac:(by rewrite Es) E3) as Hs3.
    pose proof (held_step_trans _ _ _ _ _ _ _ Hs Hs3) as []. split_and!; [done|auto..|].
    destruct (positive (readable now (kstore (held_ks h1)) key)) as [c|] eqn:Hp.
    + apply (loadFill_live _ _ _ _ _ _ _ c) in E3 as (-> & _ & Hr); [|by rewrite ?Es..]. rewrite Es in Hr. split; [done|apply Hr].
    + intros Hmax Hfit. apply loadFill_empty in E3 as (-> & v & x & Hview & Hver); rewrite ?Es in *;
        try done; [|by rewrite (hs_cfg _ _ _ _ _ Hs)|unfold ver_room; by rewrite Es, El]. split; [done|]. by exists v, x.
  - destruct (storeNegative now e1 n h1 key fan) as [e2 h2] eqn:En. pose proof (storeNegative_step _ _ _ _ _ _ _ _ Hok En) as Hs1.
    destruct (report true now e2 n h2) as [e3 h3] eqn:Er. apply report_spec in Er as (Hs2 & Es & _).
    assert (Hok2 : store_ok (kstore (held_ks h2)) /\
      positive (readable now (kstore (held_ks h2)) key) = positive (readable now (kstore (held_ks h1)) key) /\
      (forall c, positive (readable now (kstore (held_ks h1)) key) = Some c ->
         view now (kstore (held_ks h2)) = view now (kstore (held_ks h1)))).
    { destruct (positive (readable now (kstore (held_ks h1)) key)) as [c|] eqn:Hp.
      - destruct (positive_readable _ _ _ _ Hp) as (Hc & _ & Hn).
        apply (storeNegative_live _ _ _ _ _ _ c) in En as [Rv Ro _ _]; [|done..].
        split_and!; [done| |by intros _ _]. unfold readable in *. by rewrite Rv.
      - apply storeNegative_none in En as [? ?]; [|done..]. by split_and!. }
    destruct Hok2 as (Hok2 & Hp2 & Hv2).
    destruct (heldGet now e3 n h3 key) as [[r e4] h4] eqn:E4. apply heldGet_spec in E4 as (-> & Hs3 & Hr & _); [|by rewrite Es].
    pose proof (held_step_trans _ _ _ _ _ _ _ Hs1 (held_step_trans _ _ _ _ _ _ _ Hs2 Hs3)) as [].
    split_and!; [done|auto..|]. rewrite Es, Hp2.
    destruct (positive (readable now (kstore (held_ks h1)) key)) as [c|] eqn:Hp; [|done]. split; [done|].
    rewrite (rd_view _ _ _ Hr), Es. by apply (Hv2 c).
  - destruct (report false now e1 n h1) as [e2 h2] eqn:Er. apply report_spec in Er as ([] & Es & _). by split_and!; auto.
Qed.

(** ForceLoad does not refresh.  On the owner of a key that holds a live
    value, ForceLoad asks the data source, drops what it answers, reports
    success, and the next Get still returns the old value. *)
Theorem force_load_keeps_old now ctx ctx' w w' e n ks key c val w1 :
  admissible e n ks key -> cMode (cfg ks) = ModeLoadThrough -> owned e key -> store_ok (kstore ks) ->
  cancelled ctx = false -> cancelled ctx' = false ->
  (global_allow now e).1 = None -> (Allow now (guard ks)).1 = None ->
  env_Load env w (admitted_engine now e n ks) n key =
    (Loaded val, w1, admitted_engine now e n ks, mkHeld (with_guard ks (Allow now (guard ks)).2) true) ->
  validateValueSize e ks val = None ->
  readable now (kstore ks) key = Some c -> IsNegative c = false ->
  exists e', ForceLoad env now ctx w e n key = (None, w1, e') /\
    (Engine_Get env now ctx' w' e' n key).1.1 = inl (Value c).
Proof.
  intros Had Hmode Hown Hok Hctx Hctx' Hg Hk Hl Hval Hr Hneg. pose proof Had as [Hks Hkey Hlen Htm].
  assert (Hload : exists e' h', loadThrough env now false w e n ks key true = (inl (Value c), w1, e', h') /\
    getKS e' n = Some (held_ks h') /\ reads now (kstore ks) (kstore (held_ks h')) /\ cfg (held_ks h') = cfg ks /\
    maxKeyLen e' = maxKeyLen e).
  { rewrite (loadThrough_admitted _ _ _ _ _ _ _ _ _ _ _ Hg Hk Hl).
    set (e1 := admitted_engine now e n ks). set (h1 := mkHeld _ true).
    assert (Hl1 : maxValueSize e1 = maxValueSize e /\ maxKeyLen e1 = maxKeyLen e)
      by (unfold e1, admitted_engine, global_allow; destruct (global e) as [g|]; [by destruct (Allow now g)|done]).
    assert (Hh1 : holds e1 n h1) by (intros _; apply lookup_insert_eq).
    destruct (report true now e1 n h1) as [e2 h2] eqn:Er. apply report_spec in Er as (Hs & Es & _).
    destruct (loadFill now e2 n h2 key val true) as [[r e3] h3] eqn:E3.
    apply (loadFill_live _ _ _ _ _ _ _ c) in E3 as (-> & Hs3 & Hrd); [|by rewrite Es| |].
    - pose proof (held_step_trans _ _ _ _ _ _ _ Hs Hs3) as [H1 H2 _ H4 _ H6]. exists e3, h3. rewrite Es in Hrd.
      split_and!; [done|apply H2; [done|by rewrite H1]|done|by rewrite H4|rewrite H6; apply Hl1].
    - rewrite (validateValueSize_ext e _ ks); [done|rewrite (hs_value _ _ _ _ _ Hs); apply Hl1|by rewrite (hs_cfg _ _ _ _ _ Hs)].
    - rewrite Es. cbn [h1 held_ks kstore with_guard]. rewrite Hr. cbn. by rewrite Hneg. }
  destruct Hload as (e' & h' & El & Hks' & [Rv Ro _ _] & Hcfg & Hmk). exists e'. split.
  - unfold ForceLoad. rewrite Hctx, Hkey, Hks, Hlen, Hmode. cbn [negb bool_decide]. rewrite bool_decide_eq_true_2 by done.
    cbn [negb]. unfold owned in Hown. destruct (ringOf e) as [[cl rg]|]; [rewrite Hown|]; by rewrite El.
  - apply (Engine_Get_hit env now ctx' w' e' n (held_ks h')); try done.
    + split; [done| | |by rewrite Hcfg].
      * unfold validateKey in *. by rewrite Hmk.
      * unfold validateKeyLen in *. by rewrite Hmk, Hcfg.
    + unfold readable in *. by rewrite Rv.
Qed.

(** the global breaker can stay half-open for good.  When it admits its probe
    and the keyspace's guard then refuses the load, the probe's slot is never
    given back: from then on every load, on any keyspace and at any time, fails
    with ErrUnavailable and leaves the engine as it is, so no load can report
    the outcome that would close or reopen the breaker. *)
Theorem global_probe_leaks now w e n ks key fan g g' err :
  global e = Some g -> tripped g -> Allow now g = (None, g') -> (Allow now (guard ks)).1 = Some err ->
  exists e', (loadThrough env now false w e n ks key fan).1 = (inr ErrUnavailable, w, e') /\
    forall now2 w2 n2 ks2 key2 fan2,
      (loadThrough env now2 false w2 e' n2 ks2 key2 fan2).1 = (inr ErrUnavailable, w2, e').
Proof.
  intros Hg Ht Ha Hk. destruct (tripped_Allow _ _ _ _ Ht Ha) as [_ Hp]. specialize (Hp eq_refl).
  unfold loadThrough at 1, global_allow. rewrite Hg, Ha. destruct (Allow now (guard ks)) as [r gk]. cbn in Hk. subst r.
  eexists. split; [reflexivity|]. intros. unfold loadThrough, global_allow.
  cbn [global with_ks with_keyspaces with_global]. by rewrite probing_Allow.
Qed.

End load.

(** ** The theorems at concrete engines *)

(** One keyspace "k" on a node without a cluster; [lv] are the versions it has seen. *)
Definition wit_guard_off : Guard := Guard_New 0 (mkPConfig f_zero 0 0 0).
Definition wit_ks (mode : Mode) (lv : gmap bytes Z) (m : Memory) : ksRuntime :=
  mkKS (wit_config mode 0) m wit_guard_off lv DefaultMaxVersionKeys.
Definition wit_blank : ksRuntime := wit_ks ModeCacheOnly ∅ (NewMemory 0 0).

(** Peers that answer, and a data source during whose call [others] runs. *)
Definition wit_env_with (others : Engine -> Engine) (stays : bool) : Env unit :=
  mkEnv unit (fun w _ => (true, w)) (fun w _ _ _ _ _ _ => (true, w)) (fun w _ _ _ => (Some [], w))
    (fun w _ _ _ => (None, w))
    (fun w e n _ => (Loaded [7], w, others e, mkHeld (default wit_blank (getKS e n)) stays)).
Definition wit_env : Env unit := wit_env_with (fun e => e) true.

Definition wit_eng (g : option Guard) (ks : ksRuntime) : Engine := with_ks (Engine_New g) [107] ks.
Definition wit_ctx : Ctx := mkCtx false false.

Definition wit_plain : ksRuntime := wit_ks ModeCacheOnly {[ [1] := 4 ]} (NewMemory 0 0).
Definition wit_load : ksRuntime := wit_ks ModeLoadThrough ∅ (NewMemory 0 0).

Lemma wit_room now mode lv key :
  0 <= default 0 (lv !! key) < MaxUint64 -> ver_room now (wit_ks mode lv (NewMemory 0 0)) key.
Proof. intros H. split; [exact H|]. intros c. cbn [kstore wit_ks]. by rewrite view_missing. Qed.

Lemma mint_fresh_witness :
  default 0 (lastVer wit_plain !! [1]) < (nextVersion 10 wit_plain [1] 6).1 /\ 6 < (nextVersion 10 wit_plain [1] 6).1.
Proof.
  destruct (nextVersion 10 wit_plain [1] 6) as [v ks'] eqn:E.
  destruct (mint_fresh 10 wit_plain [1] 6 v ks') as (H1 & H2 & _); [apply NewMemory_ok| | |exact E|by split].
  - apply wit_room. by vm_compute.
  - by vm_compute.
Defined.

Lemma put_then_get_witness :
  exists e', Put wit_env 10 wit_ctx tt (wit_eng None wit_plain) [107] [1] [9] None = (None, tt, e') /\
    (Engine_Get wit_env 10 wit_ctx tt e' [107] [1]).1.1 = inl [9].
Proof.
  destruct (put_then_get wit_env wit_env 10 wit_ctx wit_ctx tt tt (wit_eng None wit_plain) [107] wit_plain [1] [9] None)
    as (e' & ks' & v & x & H1 & _ & _ & _ & _ & _ & H2); try done.
  all: try apply NewMemory_ok; try (apply wit_room; by vm_compute).
  - by repeat constructor.
  - by exists e'.
Defined.

(** A TTL of about 292 years, which the wire format allows, wraps around in
    UnixNano: the Put succeeds and the value is never seen. *)
Example put_ttl_wraps :
  let '(r, w, e') := Put wit_env 10 wit_ctx tt (wit_eng None wit_plain) [107] [1] [9] (Some MaxInt64) in
  r = None /\ expireAt 10 MaxInt64 = MinInt64 + 9 /\ (Engine_Get wit_env 10 wit_ctx w e' [107] [1]).1.1 = inr ErrNotFound.
Proof. by vm_compute. Qed.


Lemma failover_versions_witness :
  let '(_, _, e2) := ApplyDeleteWithRingGen 10 (wit_eng None wit_plain) [107] [1] 8 in
  exists ks2, getKS e2 [107] = Some ks2 /\ forall v ks3, nextVersion 10 ks2 [1] 0 = (v, ks3) -> 8 < v.
Proof.
  refine (proj2 (failover_versions 10 (wit_eng None wit_plain) [107] wit_plain [1] (mkEntry [5] 7 0 0) 8 _ _ _ _ _ _ _ _)); try done.
  all: try apply NewMemory_ok; try (apply wit_room; by vm_compute).
  - right. intros v. by vm_compute.
  - apply plain_entry_ok. by repeat constructor.
Defined.

(** A ring of this node, "b", and of "a", the owner of the key [2]. *)
Definition wit_ring : Ring := SetPeers (Ring_New 1) [mkPeer [97] [97]; mkPeer [98] [98]].
Definition wit_cluster : Cluster := mkCluster [98] (Some wit_ring) true None.
Definition wit_member : Engine := AttachCluster (wit_eng None wit_plain) (Some wit_cluster).

Lemma put_forwarding_witness :
  (Put wit_env 10 wit_ctx tt wit_member [107] [2] [9] None).2 = wit_member /\
  PutLocalAtHop wit_env 10 wit_ctx tt wit_member [107] [2] [9] 1 None =
    (let '(res, e') := putLocalApply 10 wit_ctx wit_member [107] [2] [9] true None in (res, tt, e')).
Proof.
  assert (Ho : foreignOwner wit_cluster wit_ring [2] = Some (mkPeer [97] [97])) by (vm_compute; reflexivity).
  destruct (put_forwarding wit_env wit_env 10 wit_ctx tt wit_member [107] [2] [9] None) as [H1 H2]. split.
  - exact (H1 wit_cluster wit_ring (mkPeer [97] [97]) wit_plain eq_refl Ho eq_refl eq_refl).
  - destruct (H2 1 ltac:(lia)) as [_ H].
    refine (H wit_cluster wit_ring (mkPeer [97] [97]) wit_plain eq_refl Ho _ eq_refl eq_refl).
    split; reflexivity.
Defined.

(** The keyspace is replaced by an empty one while the source is asked: the
    value goes to the runtime that is no longer the engine's. *)
Definition wit_replaced : Env unit := wit_env_with (fun e => (UpdateKeySpace 10 e (wit_config ModeLoadThrough 0)).2) false.

Lemma load_through_fill_witness :
  (exists v x, view 10 (kstore (held_ks (loadThrough wit_env 10 false tt (wit_eng None wit_load) [107] wit_load [1] true).2)) =
     <[[1] := mkEntry [7] v x 0]> (view 10 (kstore wit_load))) /\
  keyspaces (loadThrough wit_replaced 10 false tt (wit_eng None wit_load) [107] wit_load [1] true).1.2 =
    keyspaces (UpdateKeySpace 10 (admitted_engine 10 (wit_eng None wit_load) [107] wit_load) (wit_config ModeLoadThrough 0)).2.
Proof.
  set (e1 := admitted_engine 10 (wit_eng None wit_load) [107] wit_load). split.
  - pose proof (load_through_fill wit_env 10 tt (wit_eng None wit_load) [107] wit_load [1] true (Loaded [7]) tt e1
      (mkHeld (with_guard wit_load (Allow 10 (guard wit_load)).2) true)) as H.
    destruct (loadThrough wit_env 10 false tt (wit_eng None wit_load) [107] wit_load [1] true) as [[[r w] e'] h'].
    cbn [snd]. destruct H as (_ & _ & _ & H); try done.
    all: try apply NewMemory_ok; try (apply wit_room; by vm_compute).
    + intros val [= <-]. split; [done|by repeat constructor].
    + destruct H as (_ & v & x & H & _); [cbn; lia|done|]. by exists v, x.
  - pose proof (load_through_fill wit_replaced 10 tt (wit_eng None wit_load) [107] wit_load [1] true (Loaded [7]) tt
      (UpdateKeySpace 10 e1 (wit_config ModeLoadThrough 0)).2
      (mkHeld (with_guard wit_load (Allow 10 (guard wit_load)).2) false)) as H.
    destruct (loadThrough wit_replaced 10 false tt (wit_eng None wit_load) [107] wit_load [1] true) as [[[r w] e'] h'].
    cbn [fst snd]. destruct H as (_ & _ & H & _); try done.
    all: try apply NewMemory_ok; try (apply wit_room; by vm_compute).
    + intros val [= <-]. split; [done|by repeat constructor].
    + by apply H.
Defined.

Definition wit_loaded : ksRuntime := wit_ks ModeLoadThrough ∅ (AcceptIfNewer 5 (NewMemory 0 0) [1] (mkEntry [3] 1 0 0)).2.

Lemma force_load_keeps_old_witness :
  exists e', ForceLoad wit_env 10 wit_ctx tt (wit_eng None wit_loaded) [107] [1] = (None, tt, e') /\
    (Engine_Get wit_env 10 wit_ctx tt e' [107] [1]).1.1 = inl [3].
Proof.
  refine (force_load_keeps_old wit_env 10 wit_ctx wit_ctx tt tt (wit_eng None wit_loaded) [107] wit_loaded [1]
    (mkEntry [3] 1 0 0) [7] tt _ _ _ _ _ _ _ _ _ _ _ _); try done.
  apply (AcceptIfNewer_implements 5 (NewMemory 0 0) [1] (mkEntry [3] 1 0 0)); [apply NewMemory_ok|].
  apply plain_entry_ok. by repeat constructor.
Defined.

(** A global breaker that tripped at time 0 and a keyspace whose bucket is empty. *)
Definition wit_tripped : Guard := OnFailure 0 (Guard_New 0 (mkPConfig f_zero 0 1 5)).
Definition wit_empty : ksRuntime :=
  with_guard wit_load (mkGuard (mkPConfig f_one 1 0 5) f_zero 10 0 stateClosed 0 false 0 0).

Lemma global_probe_leaks_witness :
  exists e', (loadThrough wit_env 10 false tt (wit_eng (Some wit_tripped) wit_empty) [107] wit_empty [1] true).1.2 = e' /\
    forall now, (loadThrough wit_env now false tt e' [107] wit_load [1] true).1.1.1 = inr ErrUnavailable.
Proof.
  destruct (global_probe_leaks wit_env 10 tt (wit_eng (Some wit_tripped) wit_empty) [107] wit_empty [1] true
    wit_tripped (Allow 10 wit_tripped).2 ErrRateLimited) as (e' & H1 & H2); try done.
  exists e'. rewrite H1. split; [done|]. intros now. by rewrite H2.
Defined.
