(* ===== verification/Telemetry.v ===== *)
(** * Counters: what a node reports about its reads and writes

    The counters of pkg/telemetry, each an atomic uint64, and the calls that the
    engine makes to them: a traced operation is the operation of the engine with
    the list of its reports, to the counters and to the recorder of hot keys.
    The OpenTelemetry instruments beside the counters are a service of another
    package and are left out. *)
From S2P Require Import Prelude Wire Store StoreView Protect Ring Hints Config Engine EngineProps.

(** ** Metrics *)

Record Metrics := mkMetrics {
  Gets : Z; Hits : Z; Misses : Z; Negative : Z;
  Puts : Z; Deletes : Z; Loads : Z; LoadErrors : Z;
  mUnavailable : Z; OwnerFallback : Z; FanoutErrors : Z; FanoutDropped : Z;
  RingGenMismatch : Z;
}.

(** The counters of New. *)
Definition Metrics_New : Metrics := mkMetrics 0 0 0 0 0 0 0 0 0 0 0 0 0.

(** The third argument of RecordGet; every other string only counts the read. *)
Inductive outcome := hit | miss | negative | other.
#[global] Instance outcome_eq_dec : EqDecision outcome.
Proof. solve_decision. Defined.

Definition one_if (b : bool) : Z := if b then 1 else 0.

Definition RecordGet (o : outcome) (m : Metrics) : Metrics :=
  mkMetrics (Gets m +u 1) (Hits m +u one_if (bool_decide (o = hit)))
    (Misses m +u one_if (bool_decide (o = miss) || bool_decide (o = negative)))
    (Negative m +u one_if (bool_decide (o = negative)))
    (Puts m) (Deletes m) (Loads m) (LoadErrors m) (mUnavailable m) (OwnerFallback m) (FanoutErrors m) (FanoutDropped m)
    (RingGenMismatch m).

Definition RecordPut (m : Metrics) : Metrics :=
  mkMetrics (Gets m) (Hits m) (Misses m) (Negative m) (Puts m +u 1) (Deletes m) (Loads m) (LoadErrors m) (mUnavailable m)
    (OwnerFallback m) (FanoutErrors m) (FanoutDropped m) (RingGenMismatch m).
Definition RecordDelete (m : Metrics) : Metrics :=
  mkMetrics (Gets m) (Hits m) (Misses m) (Negative m) (Puts m) (Deletes m +u 1) (Loads m) (LoadErrors m) (mUnavailable m)
    (OwnerFallback m) (FanoutErrors m) (FanoutDropped m) (RingGenMismatch m).
Definition RecordLoad (failed : bool) (m : Metrics) : Metrics :=
  mkMetrics (Gets m) (Hits m) (Misses m) (Negative m) (Puts m) (Deletes m) (Loads m +u 1) (LoadErrors m +u one_if failed)
    (mUnavailable m) (OwnerFallback m) (FanoutErrors m) (FanoutDropped m) (RingGenMismatch m).
Definition RecordUnavailable (m : Metrics) : Metrics :=
  mkMetrics (Gets m) (Hits m) (Misses m) (Negative m) (Puts m) (Deletes m) (Loads m) (LoadErrors m) (mUnavailable m +u 1)
    (OwnerFallback m) (FanoutErrors m) (FanoutDropped m) (RingGenMismatch m).
Definition RecordOwnerFallback (m : Metrics) : Metrics :=
  mkMetrics (Gets m) (Hits m) (Misses m) (Negative m) (Puts m) (Deletes m) (Loads m) (LoadErrors m) (mUnavailable m)
    (OwnerFallback m +u 1) (FanoutErrors m) (FanoutDropped m) (RingGenMismatch m).
Definition RecordRingGenMismatch (m : Metrics) : Metrics :=
  mkMetrics (Gets m) (Hits m) (Misses m) (Negative m) (Puts m) (Deletes m) (Loads m) (LoadErrors m) (mUnavailable m)
    (OwnerFallback m) (FanoutErrors m) (FanoutDropped m) (RingGenMismatch m +u 1).
Definition SetFanoutStats (errors dropped : Z) (m : Metrics) : Metrics :=
  mkMetrics (Gets m) (Hits m) (Misses m) (Negative m) (Puts m) (Deletes m) (Loads m) (LoadErrors m) (mUnavailable m)
    (OwnerFallback m) errors dropped (RingGenMismatch m).

(** ** Reports *)

(** A call of the engine to its metrics, or to its recorder of hits. *)
Inductive report_call :=
  | CGet (o : outcome) | CPut | CDelete | CLoad (failed : bool) | CUnavailable | COwnerFallback | CRingGen
  | CTouch (keyspace key : bytes).
#[global] Instance report_call_eq_dec : EqDecision report_call.
Proof. solve_decision. Defined.

Definition record (c : report_call) (m : Metrics) : Metrics :=
  match c with
  | CGet o => RecordGet o m
  | CPut => RecordPut m
  | CDelete => RecordDelete m
  | CLoad failed => RecordLoad failed m
  | CUnavailable => RecordUnavailable m
  | COwnerFallback => RecordOwnerFallback m
  | CRingGen => RecordRingGenMismatch m
  | CTouch _ _ => m
  end.

(** The engine's metrics may be nil: then nothing is counted. *)
Definition recordAll (cs : list report_call) (m : option Metrics) : option Metrics :=
  m ← m; Some (foldl (fun m c => record c m) m cs).

Definition Metrics_Snapshot (m : option Metrics) : Metrics := default Metrics_New m.

(** ** Traced operations *)

Section traced.
Context {W : Type} (env : Env W).

Definition loadThrough_traced (now : Z) (ctxErr : bool) (w : W) (e : Engine) (ksName : bytes) (ks : ksRuntime)
    (key : bytes) (allowFanout : bool) : (bytes + EngErr) * W * Engine * Held * list report_call :=
  if ctxErr then (inr ErrUnavailable, w, e, mkHeld ks true, [CUnavailable])
  else
    let '(r, e) := global_allow now e in
    match r with
    | Some _ => (inr ErrUnavailable, w, e, mkHeld ks true, [CUnavailable])
    | None =>
        let '(r, g) := Allow now (guard ks) in
        let e := with_ks e ksName (with_guard ks g) in
        match r with
        | Some _ => (inr ErrUnavailable, w, e, mkHeld (with_guard ks g) true, [CUnavailable])
        | None =>
            let '(res, w, e, h) := env_Load env w e ksName key in
            match res with
            | LoadFailed => let '(e, h) := report false now e ksName h in (inr ErrSource, w, e, h, [CLoad true])
            | LoadNotFound =>
                let '(e, h) := storeNegative now e ksName h key allowFanout in
                let '(e, h) := report true now e ksName h in
                let '(cur, e, h) := heldGet now e ksName h key in
                (match positive cur with Some c => inl (Value c) | None => inr ErrNotFound end, w, e, h, [CLoad false])
            | Loaded val =>
                let '(e, h) := report true now e ksName h in
                let '(r, e, h) := loadFill now e ksName h key val allowFanout in (r, w, e, h, [CLoad false])
            end
        end
    end.

Definition getViaCluster_traced (now : Z) (w : W) (e : Engine) (ksName : bytes) (ks : ksRuntime) (key : bytes)
    : (bytes + EngErr) * W * Engine * list report_call :=
  let load w fan := let '(r, _, cs) := loadThrough_traced now false w e ksName ks key fan in (r, cs) in
  let fallback w := let '(r, cs) := load w false in (r, COwnerFallback :: cs) in
  match ringOf e with
  | None => load w true
  | Some (c, r) =>
      match foreignOwner c r key with
      | None => load w true
      | Some owner =>
          if negb (hasTransport c) || bool_decide (peer_Addr owner = []) then fallback w
          else
            let '(res, w) := env_GetOrLoad env w (peer_Addr owner) ksName key in
            match res with
            | None => fallback w
            | Some (found, ent) =>
                let storeLocal := holdsReplica c ks key in
                let keep (r : bool * Memory) := with_ks e ksName (with_store ks r.2) in
                if negb found then
                  (inr ErrNotFound, w,
                   if storeLocal then
                     if IsNegative ent || (0 <? Version ent) then keep (AcceptNegative now (kstore ks) key ent)
                     else (storeNegative now e ksName (mkHeld ks true) key false).1
                   else e, [])
                else if IsNegative ent then
                  (inr ErrNotFound, w, if storeLocal then keep (AcceptNegative now (kstore ks) key ent) else e, [])
                else (inl (Value ent), w, if storeLocal then keep (AcceptIfNewer now (kstore ks) key ent) else e, [])
            end
      end
  end.

(** What Get reports when a flight of a CacheOnly, or of a LoadThrough, keyspace
    has returned. *)
Definition ownerReports (res : bytes + EngErr) (cancelled : bool) : list report_call :=
  match res with
  | inr ErrNotFound => [CGet miss]
  | inr _ => []
  | inl _ => if cancelled then [] else [CGet miss]
  end.
Definition flightReports (ksName key : bytes) (res : bytes + EngErr) (cancelled : bool) : list report_call :=
  match res with
  | inr ErrNotFound => [CGet negative]
  | inr ErrUnavailable => [CUnavailable]
  | inr _ => []
  | inl _ => if cancelled then [] else [CGet miss; CTouch ksName key]
  end.

Definition Get_traced (now : Z) (ctx : Ctx) (w : W) (e : Engine) (ksName key : bytes)
    : (bytes + EngErr) * W * Engine * list report_call :=
  if cancelled ctx then (inr ErrContext, w, e, [])
  else
    match validateKey e ksName key with
    | Some err => (inr err, w, e, [])
    | None =>
        match getKS e ksName with
        | None => (inr ErrKeyspaceNotFound, w, e, [])
        | Some ks =>
            match validateKeyLen e ks key with
            | Some err => (inr err, w, e, [])
            | None =>
                if typedMode (cMode (cfg ks)) then (inr ErrInvalidArgument, w, e, [])
                else
                  let found (c : Entry) (e : Engine) := (if IsNegative c then inr ErrNotFound else inl (Value c), w, e) in
                  let '(cur, e, ks) := storeGet now e ksName ks key in
                  match cur with
                  | Some c => (found c e, if IsNegative c then [CGet negative] else [CGet hit; CTouch ksName key])
                  | None =>
                      let local := match cluster e with
                                   | Some c => match cRing c with Some _ => negb (hasTransport c) | None => true end
                                   | None => true
                                   end in
                      let cacheOnly := bool_decide (cMode (cfg ks) = ModeCacheOnly) in
                      if cacheOnly && local then (inr ErrNotFound, w, e, [CGet miss])
                      else
                        let '(cur, e, ks) := storeGet now e ksName ks key in
                        let '(res, w, e, cs) :=
                          match cur with
                          | Some c => (found c e, [])
                          | None =>
                              if cacheOnly then (fetchFromOwner env now w e ksName ks key, [])
                              else getViaCluster_traced now w e ksName ks key
                          end in
                        let reports := if cacheOnly then ownerReports else flightReports ksName key in
                        (match res with
                         | inr err => inr err
                         | inl v => if cancelledAfter ctx then inr ErrContext else inl v
                         end, w, e, cs ++ reports res (cancelledAfter ctx))
                  end
            end
        end
    end.

(** RecordPut stands before each successful return of putLocalApply. *)
Definition putLocalApply_traced (now : Z) (ctx : Ctx) (e : Engine) (ksName key value : bytes) (force : bool) (ttl : option Z)
    : option EngErr * Engine * list report_call :=
  let '(r, e) := putLocalApply now ctx e ksName key value force ttl in
  (r, e, match r with None => [CPut] | Some _ => [] end).

Definition DeleteAsOwner_traced (now : Z) (ctx : Ctx) (w : W) (e : Engine) (ksName key : bytes)
    : option EngErr * W * Engine * list report_call :=
  if cancelled ctx then (Some ErrContext, w, e, [])
  else
    match validateKey e ksName key with
    | Some err => (Some err, w, e, [])
    | None =>
        match getKS e ksName with
        | None => (Some ErrKeyspaceNotFound, w, e, [])
        | Some ks =>
            match validateKeyLen e ks key with
            | Some err => (Some err, w, e, [])
            | None =>
                let '(ver, ks) := nextVersion now ks key 0 in
                let '(_, m) := DeleteIfVersion now (kstore ks) key ver in
                (replicateWait env w (with_ks e ksName (with_store ks m)) ksName key (mkEntry [] ver 0 FlagTombstone), [CDelete])
            end
        end
    end.

(** The ring of an attached cluster counts its changes; without one the
    generation of the engine is never set. *)
Definition RingGeneration (e : Engine) : Z := match ringOf e with Some (_, r) => Generation r | None => 0 end.

Definition noteRingGeneration (e : Engine) (wire : Z) : list report_call :=
  if wire =? 0 then []
  else if RingGeneration e =? 0 then []
  else if wire =? RingGeneration e then [] else [CRingGen].

(** ** The trace does not change the operation *)

Lemma loadThrough_erase now ctxErr w e n ks key fan :
  (loadThrough_traced now ctxErr w e n ks key fan).1 = loadThrough env now ctxErr w e n ks key fan.
Proof.
  unfold loadThrough_traced, loadThrough. destruct ctxErr; [done|]. destruct (global_allow now e) as [[?|] e1]; [done|].
  destruct (Allow now (guard ks)) as [[?|] g]; [done|]. destruct (env_Load env w _ n key) as [[[[val| |] w1] e2] h2].
  - destruct (report true now e2 n h2) as [e3 h3]. by destruct (loadFill now e3 n h3 key val fan) as [[? ?] ?].
  - destruct (storeNegative now e2 n h2 key fan) as [e3 h3]. destruct (report true now e3 n h3) as [e4 h4].
    by destruct (heldGet now e4 n h4 key) as [[? ?] ?].
  - by destruct (report false now e2 n h2).
Qed.

Lemma getViaCluster_erase now w e n ks key :
  (getViaCluster_traced now w e n ks key).1 = getViaCluster env now w e n ks key.
Proof.
  unfold getViaCluster_traced, getViaCluster. cbv zeta.
  assert (Hl : forall w fan, (let '(r, _, cs) := loadThrough_traced now false w e n ks key fan in (r, cs)).1 =
    (loadThrough env now false w e n ks key fan).1).
  { intros w0 fan. rewrite <- loadThrough_erase. by destruct (loadThrough_traced now false w0 e n ks key fan) as [[? ?] ?]. }
  assert (Hf : forall w, (let '(r, cs) := (let '(r, _, cs) := loadThrough_traced now false w e n ks key false in (r, cs)) in
    (r, COwnerFallback :: cs)).1 = (loadThrough env now false w e n ks key false).1).
  { intros w0. rewrite <- Hl. by destruct (loadThrough_traced now false w0 e n ks key false) as [[? ?] ?]. }
  destruct (ringOf e) as [[c r]|]; [|apply Hl]. destruct (foreignOwner c r key) as [o|]; [|apply Hl].
  destruct (negb _ || _); [apply Hf|]. destruct (env_GetOrLoad env w _ n key) as [[[[] ent]|] w1]; cbn [negb]; [|done|apply Hf].
  by destruct (IsNegative ent).
Qed.

Lemma Get_erase now ctx w e n key : (Get_traced now ctx w e n key).1 = Engine_Get env now ctx w e n key.
Proof.
  unfold Get_traced, Engine_Get. destruct (cancelled ctx); [done|]. destruct (validateKey e n key); [done|].
  destruct (getKS e n) as [ks|]; [|done]. destruct (validateKeyLen e ks key); [done|]. destruct (typedMode _); [done|].
  cbv zeta. unfold storeGet. destruct (Get now (kstore ks) key) as [[c|] m1]; [done|]. destruct (bool_decide _ && _); [done|].
  destruct (Get now _ key) as [[c|] m2]; [by destruct (IsNegative c)|]. cbn [cfg with_store].
  destruct (bool_decide (cMode (cfg ks) = ModeCacheOnly)).
  - by destruct (fetchFromOwner env now w _ n _ key) as [[[v|err] w3] e3].
  - rewrite <- getViaCluster_erase. by destruct (getViaCluster_traced now w _ n _ key) as [[[[v|err] w3] e3] cs].
Qed.

End traced.

(** ** Tallies *)

(** How many of the reports count towards a counter. *)
Definition tally (p : report_call -> bool) (cs : list report_call) : Z := Z.of_nat (length (List.filter p cs)).

Lemma tally_nil p : tally p [] = 0.
Proof. done. Qed.
Lemma tally_cons p c cs : tally p (c :: cs) = one_if (p c) + tally p cs.
Proof. unfold tally, one_if. cbn. destruct (p c); cbn [length]; lia. Qed.
Lemma tally_app p cs cs' : tally p (cs ++ cs') = tally p cs + tally p cs'.
Proof. unfold tally. rewrite List.filter_app, length_app. lia. Qed.
Lemma tally_nonneg p cs : 0 <= tally p cs.
Proof. unfold tally. lia. Qed.

Definition isGet (c : report_call) : bool := match c with CGet _ => true | _ => false end.
Definition isHit (c : report_call) : bool := match c with CGet hit => true | _ => false end.
Definition isMiss (c : report_call) : bool := match c with CGet (miss | negative) => true | _ => false end.
Definition isNegative (c : report_call) : bool := match c with CGet negative => true | _ => false end.
Definition isLoad (c : report_call) : bool := match c with CLoad _ => true | _ => false end.
Definition isLoadError (c : report_call) : bool := match c with CLoad true => true | _ => false end.
Definition countsUnavailable (c : report_call) : bool := match c with CUnavailable => true | _ => false end.
Definition isOwnerFallback (c : report_call) : bool := match c with COwnerFallback => true | _ => false end.
Definition isTouch (c : report_call) : bool := match c with CTouch _ _ => true | _ => false end.
Definition isWrite (c : report_call) : bool := match c with CPut | CDelete | CRingGen => true | _ => false end.

(** Each counter is the tally of its reports, as long as it does not wrap. *)
Lemma counter_tally (f : Metrics -> Z) (p : report_call -> bool) cs m :
  (forall c m, f (record c m) = f m +u one_if (p c) \/ (p c = false /\ f (record c m) = f m)) ->
  0 <= f m -> f m + tally p cs < 2 ^ 64 -> f (foldl (fun m c => record c m) m cs) = f m + tally p cs.
Proof.
  intros Hf. revert m. induction cs as [|c cs IH]; intros m H0 Hb; cbn [foldl]; [rewrite tally_nil; lia|].
  rewrite tally_cons in *. pose proof (tally_nonneg p cs). assert (Hone : 0 <= one_if (p c)) by (unfold one_if; by destruct (p c)).
  assert (Hr : f (record c m) = f m + one_if (p c)).
  { destruct (Hf c m) as [->|[-> ->]]; [|unfold one_if; lia]. unfold u64. apply Z.mod_small. lia. }
  rewrite IH; lia.
Qed.

Ltac counter := intros [o| | |[]| | | |? ?] ?; try destruct o; cbn; auto.

(** ** What a read reports *)

Definition found_or_not (r : bytes + EngErr) : bool := match r with inl _ | inr ErrNotFound => true | _ => false end.
Definition refused (r : bytes + EngErr) : bool := match r with inr ErrUnavailable => true | _ => false end.
Definition failed (r : bytes + EngErr) : bool := match r with inr ErrSource => true | _ => false end.

Section reads.
Context {W : Type} (env : Env W).

(** One report of a load: refused by a guard, failed, or answered. *)
Definition load_reports (r : bytes + EngErr) (cs : list report_call) : Prop :=
  (cs = [CUnavailable] /\ r = inr ErrUnavailable) \/ (cs = [CLoad true] /\ r = inr ErrSource) \/
  (cs = [CLoad false] /\ refused r = false /\ failed r = false).

Lemma loadThrough_reports now ctxErr w e n ks key fan r w' e' h' cs :
  loadThrough_traced env now ctxErr w e n ks key fan = (r, w', e', h', cs) -> load_reports r cs.
Proof.
  unfold loadThrough_traced, load_reports. intros E. destruct ctxErr; [simplify_eq; auto|].
  destruct (global_allow now e) as [[?|] e1]; [simplify_eq; auto|]. destruct (Allow now (guard ks)) as [[?|] g]; [simplify_eq; auto|].
  destruct (env_Load env w _ n key) as [[[[val| |] w1] e2] h2].
  - right; right. destruct (report true now e2 n h2) as [e3 h3].
    destruct (loadFill now e3 n h3 key val fan) as [[r1 e4] h4] eqn:El. simplify_eq. split; [done|].
    unfold loadFill in El. destruct (validateValueSize _ _ val) as [err|] eqn:Ev.
    + unfold validateValueSize in Ev. destruct (_ <? _); by simplify_eq.
    + destruct (heldGet now e3 n h3 key) as [[cur e5] h5]. destruct (positive cur); [by simplify_eq|].
      destruct (nextVersion now (held_ks h5) key 0) as [v ks3]. destruct (AcceptIfNewer _ _ _ _) as [[] m]; [by simplify_eq|].
      destruct (heldGet _ _ _ _ _) as [[cur2 e6] ?]. by simplify_eq.
  - right; right. destruct (storeNegative now e2 n h2 key fan) as [e3 h3]. destruct (report true now e3 n h3) as [e4 h4].
    destruct (heldGet now e4 n h4 key) as [[cur e5] ?]. simplify_eq. by destruct (positive cur).
  - destruct (report false now e2 n h2). simplify_eq. auto.
Qed.

Lemma getViaCluster_reports now w e n ks key r w' e' cs :
  getViaCluster_traced env now w e n ks key = (r, w', e', cs) ->
  (cs = [] /\ refused r = false /\ failed r = false) \/ (exists cs', (cs = cs' \/ cs = COwnerFallback :: cs') /\ load_reports r cs').
Proof.
  unfold getViaCluster_traced. cbv zeta. intros E.
  assert (Hl : forall w fan r w' e' cs,
    (let '(r, _, cs) := loadThrough_traced env now false w e n ks key fan in (r, cs)) = (r, w', e', cs) -> load_reports r cs).
  { intros w0 fan r0 w0' e0' cs0 H. destruct (loadThrough_traced env now false w0 e n ks key fan) as [[[[r1 w1] e1] h1] cs1] eqn:El.
    simplify_eq. by eapply loadThrough_reports. }
  assert (Hf : forall w, (let '(r, cs) := (let '(r, _, cs) := loadThrough_traced env now false w e n ks key false in (r, cs)) in
      (r, COwnerFallback :: cs)) = (r, w', e', cs) ->
    exists cs', (cs = cs' \/ cs = COwnerFallback :: cs') /\ load_reports r cs').
  { intros w0 H. specialize (Hl w0 false).
    destruct (let '(r, _, cs) := loadThrough_traced env now false w0 e n ks key false in (r, cs)) as [[[r1 w1] e1] cs1] eqn:El.
    injection H as -> -> -> <-. exists cs1. split; [by right|by eapply Hl]. }
  assert (Hw : (let '(r, _, cs) := loadThrough_traced env now false w e n ks key true in (r, cs)) = (r, w', e', cs) ->
    exists cs', (cs = cs' \/ cs = COwnerFallback :: cs') /\ load_reports r cs').
  { intros H. exists cs. split; [by left|by eapply Hl]. }
  destruct (ringOf e) as [[c rg]|]; [|auto]. destruct (foreignOwner c rg key) as [o|]; [|auto].
  destruct (negb _ || _); [right; by eapply Hf|].
  destruct (env_GetOrLoad env w _ n key) as [[[[] ent]|] w1]; cbn [negb] in E; [| |right; by eapply Hf];
    left; [destruct (IsNegative ent)|]; by simplify_eq.
Qed.

(** A read counts once when it returns a value or not found, as a hit or as a
    miss; when a guard refuses the load it counts as unavailable twice. *)
Record accounts (r : bytes + EngErr) (cs : list report_call) : Prop := {
  ac_gets : tally isGet cs = one_if (found_or_not r);
  ac_split : tally isHit cs + tally isMiss cs = tally isGet cs;
  ac_negative : tally isNegative cs <= tally isMiss cs;
  ac_refused : tally countsUnavailable cs = 2 * one_if (refused r);
  ac_failed : tally isLoadError cs = one_if (failed r);
  ac_loads : tally isLoadError cs <= tally isLoad cs <= 1;
  ac_touch : tally isTouch cs <= one_if (found_or_not r);
  ac_fallback : tally isOwnerFallback cs <= 1;
  ac_write : tally isWrite cs = 0;
}.

Ltac accounted := simplify_eq; split; vm_compute; done.

Lemma flight_accounts n key r cancelled cs' :
  (cs' = [] /\ refused r = false /\ failed r = false) \/
    (exists cs, (cs' = cs \/ cs' = COwnerFallback :: cs) /\ load_reports r cs) ->
  accounts (match r with inl v => if cancelled : bool then inr ErrContext else inl v | inr err => inr err end)
    (cs' ++ flightReports n key r cancelled).
Proof.
  intros [(-> & H1 & H2)|(cs & [-> | ->] & [[-> ->]|[[-> ->]|(-> & H1 & H2)]])]; try accounted.
  all: destruct r as [v|[]]; try done; try (destruct cancelled); accounted.
Qed.

Lemma Get_reports now ctx w e n key r w' e' cs :
  Get_traced env now ctx w e n key = (r, w', e', cs) -> accounts r cs.
Proof.
  unfold Get_traced. intros E.
  destruct (cancelled ctx); [accounted|].
  destruct (validateKey e n key) as [err|] eqn:Ek.
  { unfold validateKey in Ek. repeat case_bool_decide; [..|destruct (_ <? _)]; accounted. }
  destruct (getKS e n) as [ks|]; [|accounted].
  destruct (validateKeyLen e ks key) as [err|] eqn:El.
  { unfold validateKeyLen in El. destruct (_ <? len key); accounted. }
  destruct (typedMode _); [accounted|]. cbv zeta in E.
  destruct (storeGet now e n ks key) as [[[c|] e1] ks1]; [destruct (IsNegative c); accounted|].
  destruct (bool_decide (cMode (cfg ks1) = ModeCacheOnly)); cbn [andb] in E.
  - destruct (match cluster e1 with Some c => _ | None => _ end); [accounted|].
    destruct (storeGet now e1 n ks1 key) as [[[c|] e2] ks2].
    + destruct (IsNegative c); cbn in E; [|destruct (cancelledAfter ctx)]; accounted.
    + destruct (fetchFromOwner env now w e2 n ks2 key) as [[r3 w3] e3] eqn:Ef.
      assert (r3 = inr ErrNotFound \/ exists v, r3 = inl v) as [->|[v ->]].
      { unfold fetchFromOwner in Ef. repeat (case_match; simplify_eq; auto); eauto. }
      * cbn in E. simplify_eq. done.
      * cbn in E. destruct (cancelledAfter ctx); accounted.
  - destruct (storeGet now e1 n ks1 key) as [[[c|] e2] ks2].
    { destruct (IsNegative c); cbn in E; [|destruct (cancelledAfter ctx)]; accounted. }
    destruct (getViaCluster_traced env now w e2 n ks2 key) as [[[r3 w3] e3] cs3] eqn:Ev. simplify_eq.
    by eapply flight_accounts, getViaCluster_reports.
Qed.

(** Reads one after the other, each at its time and with its context. *)
Record read := mkRead { rd_now : Z; rd_ctx : Ctx; rd_keyspace : bytes; rd_key : bytes }.

Fixpoint reads_traced (rs : list read) (w : W) (e : Engine) : list (bytes + EngErr) * W * Engine * list report_call :=
  match rs with
  | [] => ([], w, e, [])
  | rd :: rs =>
      let '(r, w, e, cs) := Get_traced env (rd_now rd) (rd_ctx rd) w e (rd_keyspace rd) (rd_key rd) in
      let '(rest, w, e, cs') := reads_traced rs w e in
      (r :: rest, w, e, cs ++ cs')
  end.

Fixpoint reads_plain (rs : list read) (w : W) (e : Engine) : list (bytes + EngErr) * W * Engine :=
  match rs with
  | [] => ([], w, e)
  | rd :: rs =>
      let '(r, w, e) := Engine_Get env (rd_now rd) (rd_ctx rd) w e (rd_keyspace rd) (rd_key rd) in
      let '(rest, w, e) := reads_plain rs w e in
      (r :: rest, w, e)
  end.

Definition how_many (p : bytes + EngErr -> bool) (results : list (bytes + EngErr)) : Z := Z.of_nat (length (List.filter p results)).

Lemma how_many_cons p r results : how_many p (r :: results) = one_if (p r) + how_many p results.
Proof. unfold how_many, one_if. cbn. destruct (p r); cbn [length]; lia. Qed.

Lemma reads_erase rs w e : (reads_traced rs w e).1 = reads_plain rs w e.
Proof.
  revert w e. induction rs as [|rd rs IH]; intros w e; [done|]. cbn.
  rewrite <- Get_erase. destruct (Get_traced env _ _ w e _ _) as [[[r w1] e1] cs]. cbn [fst].
  specialize (IH w1 e1). destruct (reads_traced rs w1 e1) as [[[rest w2] e2] cs']. cbn [fst] in IH. by rewrite <- IH.
Qed.

Lemma reads_tallies rs w e results w' e' cs :
  reads_traced rs w e = (results, w', e', cs) ->
  tally isGet cs = how_many found_or_not results /\ tally isHit cs + tally isMiss cs = tally isGet cs /\
  tally isNegative cs <= tally isMiss cs /\ tally countsUnavailable cs = 2 * how_many refused results /\
  tally isLoadError cs = how_many failed results /\ tally isLoadError cs <= tally isLoad cs <= Z.of_nat (length rs).
Proof.
  revert w e results cs. induction rs as [|rd rs IH]; intros w e results cs E; cbn in E; [by simplify_eq|].
  destruct (Get_traced env _ _ w e _ _) as [[[r w1] e1] cs1] eqn:Eg. apply Get_reports in Eg as [A1 A2 A3 A4 A5 A6 _ _ _].
  destruct (reads_traced rs w1 e1) as [[[rest w2] e2] cs'] eqn:Er. simplify_eq. apply IH in Er as (B1 & B2 & B3 & B4 & B5 & B6).
  rewrite !tally_app, !how_many_cons. cbn [length]. lia.
Qed.
End reads.

(** ** The property *)

(** C34: the counters say what the reads did.  After any reads of an engine, fewer
    than 2^63 and one after the other, the reads are those of the engine without counters; Gets is
    the number of calls that returned a value or not found, each of which is a
    hit or a miss; LoadErrors is the number of calls that returned an error of
    the data source, and Loads is at least that and at most the number of calls;
    and Unavailable is twice the number of calls that a guard refused, although
    RecordUnavailable is documented to count each refusal.  Concurrent reads that
    share a flight are not among them. *)
Theorem reads_accounted {W} (env : Env W) rs w e results w' e' cs :
  Z.of_nat (length rs) < 2 ^ 63 -> reads_traced env rs w e = (results, w', e', cs) ->
  let m := Metrics_Snapshot (recordAll cs (Some Metrics_New)) in
  reads_plain env rs w e = (results, w', e') /\
  Gets m = how_many found_or_not results /\ Hits m + Misses m = Gets m /\ Negative m <= Misses m /\
  LoadErrors m = how_many failed results /\ LoadErrors m <= Loads m <= Z.of_nat (length rs) /\
  mUnavailable m = 2 * how_many refused results.
Proof.
  intros Hlen E m. pose proof (reads_tallies env _ _ _ _ _ _ _ E) as (B1 & B2 & B3 & B4 & B5 & B6).
  pose proof (reads_erase env rs w e) as Her. rewrite E in Her. cbn in Her.
  assert (Hn : forall p, 0 <= how_many p results <= Z.of_nat (length rs)).
  { intros p. assert (length results = length rs) as <-.
    { clear -E. revert w e results cs E. induction rs as [|rd rs IH]; intros w e results cs E; cbn in E; [by simplify_eq|].
      destruct (Get_traced env _ _ w e _ _) as [[[r w1] e1] cs1]. destruct (reads_traced env rs w1 e1) as [[[rest w2] e2] cs2] eqn:Er.
      simplify_eq. cbn. by erewrite IH. }
    unfold how_many. pose proof (List.filter_length_le p results). lia. }
  pose proof (Hn found_or_not). pose proof (Hn refused). pose proof (tally_nonneg isHit cs). pose proof (tally_nonneg isNegative cs).
  change m with (foldl (fun m c => record c m) Metrics_New cs).
  rewrite (counter_tally Gets isGet), (counter_tally Hits isHit), (counter_tally Misses isMiss), (counter_tally Negative isNegative),
    (counter_tally Loads isLoad), (counter_tally LoadErrors isLoadError), (counter_tally mUnavailable countsUnavailable);
    cbn [Metrics_New Gets Hits Misses Negative Loads LoadErrors mUnavailable]; try (counter; fail); try lia.
  split; [done|lia].
Qed.

(** ** At concrete engines *)

(** Three reads of one key: a load, a hit, and an unknown keyspace. *)
Definition wit_reads : list read :=
  [mkRead 10 wit_ctx [107] [1]; mkRead 11 wit_ctx [107] [1]; mkRead 12 wit_ctx [108] [1]].
Definition wit_traced := reads_traced wit_env wit_reads tt (wit_eng None wit_load).

Lemma reads_accounted_witness :
  let m := Metrics_Snapshot (recordAll wit_traced.2 (Some Metrics_New)) in
  Gets m = 2 /\ Hits m + Misses m = Gets m /\ LoadErrors m <= Loads m <= 3 /\ mUnavailable m = 0.
Proof.
  destruct wit_traced as [[[results w'] e'] cs] eqn:E.
  destruct (reads_accounted wit_env wit_reads tt (wit_eng None wit_load) results w' e' cs) as (_ & H1 & H2 & _ & _ & H3 & H4);
    [reflexivity|exact E|].
  assert (Hr : results = [inl [7]; inl [7]; inr ErrKeyspaceNotFound]) by (vm_compute in E; by injection E as <-).
  cbn [snd]. rewrite H1, H4, Hr. split; [reflexivity|]. split; [rewrite <- Hr, <- H1; exact H2|]. split; [exact H3|reflexivity].
Defined.

(** A read that the circuit breaker refuses counts as unavailable twice. *)
Definition wit_open : ksRuntime :=
  mkKS (wit_config ModeLoadThrough 0) (NewMemory 0 0)
    (OnFailure 0 (Guard_New 0 (mkPConfig f_zero 0 1 1000))) ∅ DefaultMaxVersionKeys.
Example refused_counts_twice :
  let '(r, _, _, cs) := Get_traced wit_env 10 wit_ctx tt (wit_eng None wit_open) [107] [1] in
  (r, cs) = (inr ErrUnavailable, [CUnavailable; CUnavailable]).
Proof. vm_compute. reflexivity. Qed.
