(* ===== verification/Flight.v ===== *)
(** * Concurrent reads: Engine.Get and GetOrLoadLocal on a node that loads

    In a LoadThrough keyspace, on a single node or on the owner, any number of
    goroutines read keys at the same time.  A goroutine is a program point and
    the code between two points is one critical section: a method of the store,
    of the version map or of a guard, a send to the fan-out queue.  Misses go
    through singleflight, which is not part of the repository: what the code
    relies on is the class [FlightGroup], that one goroutine at a time runs the
    function of a flight key and that those who come meanwhile wait for its
    result.  The data source may give any answer of the relation [answers], and
    [others] is what other goroutines may do to the engine in between; they
    neither delete nor replace the keyspace (a goroutine keeps the runtime it
    got and its flights; EngineProps.load_through_fill treats that case). *)
From S2P Require Import Prelude Wire Store Protect Ring Hints Config Engine.

(** ** singleflight *)

(** The keys with a call in flight: [fl_enter] says whether the caller is to run
    the function, [fl_leave] is its return. *)
Class FlightGroup (F : Type) := {
  fl_new : F;
  fl_enter : F -> bytes -> bool * F;
  fl_leave : F -> bytes -> F;
  in_flight : F -> bytes -> Prop;
  in_flight_new k : ~ in_flight fl_new k;
  in_flight_enter f k b f' : fl_enter f k = (b, f') ->
    (if b then ~ in_flight f k else in_flight f k) /\ forall k', in_flight f' k' <-> in_flight f k' \/ k' = k;
  in_flight_leave f k k' : in_flight (fl_leave f k) k' <-> in_flight f k' /\ k' <> k;
}.

(** ** Goroutines *)

(** Get, or GetOrLoadLocal on behalf of a peer. *)
Inductive ReadKind := KGet | KGol.
#[global] Instance ReadKind_eq_dec : EqDecision ReadKind.
Proof. solve_decision. Defined.

Inductive Answer := RGet (r : bytes + EngErr) | RGol (ent : Entry) (err : option EngErr).

Inductive point :=
  | PStart                                       (* before the first store.Get *)
  | PDo                                          (* missed: calls flight.Do *)
  | PWait                                        (* behind a call in flight *)
  | PLook                                        (* in the flight: store.Get again *)
  | PGlobal | PGuard                             (* the guards *)
  | PAsk | PAsking                               (* DataSource.Load, called and not returned *)
  | PNegPeek | PNegMint | PNegAccept (v : Z) | PNegSend (ent : Entry)   (* storeNegative *)
  | PReportG (res : LoadResult) | PReportK (res : LoadResult)           (* OnSuccess, OnFailure *)
  | PNotFound                                    (* not found: a put may have won *)
  | PFill (val : bytes) | PMint (val : bytes) | PAccept (val : bytes) (v : Z)
  | PSend (val : bytes) (ent : Entry) | PAgain (val : bytes)
  | PGolNeg | PGolReload (val : bytes)           (* GetOrLoadLocal, after loadThrough *)
  | PLeave (r : Answer)                          (* the function of the flight returns *)
  | PGot (r : Answer)                            (* flight.Do has returned *)
  | PDone (r : Answer).

Record Thread := mkThread {
  t_kind : ReadKind;
  t_key : bytes;
  t_cancel : bool;                               (* the caller's context, after the flight *)
  t_at : point;
}.

Definition at_point (t : Thread) (p : point) : Thread := mkThread (t_kind t) (t_key t) (t_cancel t) p.

(** "get:"+key and "gol:"+key *)
Definition flightKey (t : Thread) : bytes :=
  match t_kind t with KGet => [103; 101; 116; 58] | KGol => [103; 111; 108; 58] end ++ t_key t.

Definition found (t : Thread) (c : Entry) : Answer :=
  match t_kind t with
  | KGet => RGet (if IsNegative c then inr ErrNotFound else inl (Value c))
  | KGol => RGol c (if IsNegative c then Some ErrNotFound else None)
  end.

(** loadThrough returns to the function of the flight. *)
Definition loaded (t : Thread) (r : bytes + EngErr) : point :=
  match t_kind t, r with
  | KGet, _ => PLeave (RGet r)
  | KGol, inr ErrNotFound => PGolNeg
  | KGol, inr err => PLeave (RGol noEntry (Some err))
  | KGol, inl val => PGolReload val
  end.

Definition afterLoad (res : LoadResult) : point :=
  match res with LoadNotFound => PNegPeek | _ => PReportG res end.

Definition report_global (ok : bool) (now : Z) (e : Engine) : Engine :=
  match global e with
  | Some g => with_global e (Some (if ok then OnSuccess g else OnFailure now g))
  | None => e
  end.
Definition report_guard (ok : bool) (now : Z) (e : Engine) (n : bytes) (ks : ksRuntime) : Engine :=
  with_ks e n (with_guard ks (if ok then OnSuccess (guard ks) else OnFailure now (guard ks))).

Definition wasAnswered (res : LoadResult) : bool := match res with LoadFailed => false | _ => true end.

(** One critical section of a goroutine; [None] at the points that wait for
    singleflight or the data source. *)
Definition section (now : Z) (n : bytes) (t : Thread) (e : Engine) : option (point * Engine) :=
  match getKS e n with
  | None => None
  | Some ks =>
      let k := t_key t in
      let stored (m : Memory) := with_ks e n (with_store ks m) in
      let reading (f : option Entry -> point) := let '(cur, m) := Get now (kstore ks) k in Some (f cur, stored m) in
      match t_at t with
      | PDo | PWait | PAsk | PAsking | PLeave _ | PDone _ => None
      | PStart => reading (fun cur => match cur with Some c => PDone (found t c) | None => PDo end)
      | PLook => reading (fun cur => match cur with Some c => PLeave (found t c) | None => PGlobal end)
      | PGlobal =>
          let '(r, e) := global_allow now e in
          Some (match r with Some _ => loaded t (inr ErrUnavailable) | None => PGuard end, e)
      | PGuard =>
          let '(r, g) := Allow now (guard ks) in
          Some (match r with Some _ => loaded t (inr ErrUnavailable) | None => PAsk end, with_ks e n (with_guard ks g))
      | PNegPeek =>
          if NegativeTTL (cfg ks) <=? 0 then Some (PReportG LoadNotFound, e)
          else
            let '(cur, m) := Peek now (kstore ks) k in
            Some (if match cur with Some c => negb (IsNegative c) | None => false end then PReportG LoadNotFound else PNegMint,
                  stored m)
      | PNegMint => let '(v, ks) := nextVersion now ks k 0 in Some (PNegAccept v, with_ks e n ks)
      | PNegAccept v =>
          let ent := mkEntry [] v (expireAt now (NegativeTTL (cfg ks))) FlagNegative in
          let '(ok, m) := AcceptNegative now (kstore ks) k ent in
          Some (if ok then PNegSend ent else PReportG LoadNotFound, stored m)
      | PNegSend ent => Some (PReportG LoadNotFound, replicate e n k ent false)
      | PReportG res => Some (PReportK res, report_global (wasAnswered res) now e)
      | PReportK res =>
          Some (match res with
                | LoadFailed => loaded t (inr ErrSource)
                | LoadNotFound => PNotFound
                | Loaded val => match validateValueSize e ks val with Some err => loaded t (inr err) | None => PFill val end
                end, report_guard (wasAnswered res) now e n ks)
      | PNotFound =>
          reading (fun cur => loaded t (match positive cur with Some c => inl (Value c) | None => inr ErrNotFound end))
      | PFill val =>
          reading (fun cur => match positive cur with Some c => loaded t (inl (Value c)) | None => PMint val end)
      | PMint val => let '(v, ks) := nextVersion now ks k 0 in Some (PAccept val v, with_ks e n ks)
      | PAccept val v =>
          let ent := mkEntry val v (expireAt now (TTL (cfg ks))) 0 in
          let '(ok, m) := AcceptIfNewer now (kstore ks) k ent in
          Some (if ok then PSend val ent else PAgain val, stored m)
      | PSend val ent => Some (loaded t (inl val), replicate e n k ent false)
      | PAgain val => reading (fun cur => loaded t (inl match positive cur with Some c => Value c | None => val end))
      | PGolNeg =>
          reading (fun cur => PLeave (match cur with
                                      | Some c => RGol (if IsNegative c then c else noEntry) (Some ErrNotFound)
                                      | None => RGol noEntry (Some ErrNotFound)
                                      end))
      | PGolReload val =>
          reading (fun cur => PLeave (RGol (match positive cur with Some c => c | None => mkEntry val 0 0 0 end) None))
      | PGot (RGet (inl v)) => Some (PDone (RGet (if t_cancel t then inr ErrContext else inl v)), e)
      | PGot (RGet (inr err)) => Some (PDone (RGet (inr err)), e)
      | PGot (RGol ent None) => Some (PDone (if t_cancel t then RGol noEntry (Some ErrContext) else RGol ent None), e)
      | PGot (RGol ent (Some ErrNotFound)) =>
          if IsNegative ent then Some (PDone (RGol ent (Some ErrNotFound)), e)
          else reading (fun cur => PDone (RGol (match cur with Some c => if IsNegative c then c else noEntry | None => noEntry end)
                                               (Some ErrNotFound)))
      | PGot (RGol _ (Some err)) => Some (PDone (RGol noEntry (Some err)), e)
      end
  end.

(** ** The node *)

Section node.
Context {F : Type} `{!FlightGroup F} (now : Z) (n : bytes).
Context (answers : bytes -> LoadResult -> Prop) (others : Engine -> Engine -> Prop).

Record FWorld := mkFW {
  fw_eng : Engine;
  fw_flights : F;
  fw_threads : list Thread;
  fw_asked : list bytes;                         (* the flight keys under which the source was asked *)
}.

(** Do returns to those who waited: they get the result of the call. *)
Definition release (fk : bytes) (r : Answer) (t : Thread) : Thread :=
  match t_at t with
  | PWait => if bool_decide (flightKey t = fk) then at_point t (PGot r) else t
  | _ => t
  end.

Inductive goes : FWorld -> FWorld -> Prop :=
  | goes_section e f ts a i t p e' :
      ts !! i = Some t -> section now n t e = Some (p, e') ->
      goes (mkFW e f ts a) (mkFW e' f (<[i := at_point t p]> ts) a)
  | goes_do e f ts a i t b f' :
      ts !! i = Some t -> t_at t = PDo -> fl_enter f (flightKey t) = (b, f') ->
      goes (mkFW e f ts a) (mkFW e f' (<[i := at_point t (if b then PLook else PWait)]> ts) a)
  | goes_ask e f ts a i t :
      ts !! i = Some t -> t_at t = PAsk ->
      goes (mkFW e f ts a) (mkFW e f (<[i := at_point t PAsking]> ts) (flightKey t :: a))
  | goes_answer e f ts a i t res :
      ts !! i = Some t -> t_at t = PAsking -> answers (t_key t) res ->
      goes (mkFW e f ts a) (mkFW e f (<[i := at_point t (afterLoad res)]> ts) a)
  | goes_leave e f ts a i t r :
      ts !! i = Some t -> t_at t = PLeave r ->
      goes (mkFW e f ts a)
        (mkFW e (fl_leave f (flightKey t)) (map (release (flightKey t) r) (<[i := at_point t (PGot r)]> ts)) a).

Inductive fstep : FWorld -> FWorld -> Prop :=
  | fstep_goes w w' : goes w w' -> fstep w w'
  | fstep_others e e' f ts a : others e e' -> fstep (mkFW e f ts a) (mkFW e' f ts a).

(** Goroutines that are about to start, and an engine. *)
Definition started (e : Engine) (ts : list Thread) : FWorld := mkFW e fl_new ts [].

End node.

(** ** Schedules *)

(** singleflight with the set of its keys. *)
#[global, program] Instance gset_flights : FlightGroup (gset bytes) := {
  fl_new := ∅;
  fl_enter f k := (negb (bool_decide (k ∈ f)), {[k]} ∪ f);
  fl_leave f k := f ∖ {[k]};
  in_flight f k := k ∈ f;
}.
Next Obligation. intros k H. set_solver. Qed.
Next Obligation. intros f k b f' [= <- <-]. split; [case_bool_decide; done|set_solver]. Qed.
Next Obligation. intros f k k'. set_solver. Qed.

(** Thread [i] makes its next step; [answer] is what the source says. *)
Definition act {F} `{!FlightGroup F} (now : Z) (n : bytes) (answer : bytes -> LoadResult) (i : nat) (w : FWorld (F := F))
    : option (FWorld (F := F)) :=
  t ← fw_threads w !! i;
  let move p := <[i := at_point t p]> (fw_threads w) in
  match t_at t with
  | PDo => let '(b, f) := fl_enter (fw_flights w) (flightKey t) in
           Some (mkFW (fw_eng w) f (move (if b then PLook else PWait)) (fw_asked w))
  | PAsk => Some (mkFW (fw_eng w) (fw_flights w) (move PAsking) (flightKey t :: fw_asked w))
  | PAsking => Some (mkFW (fw_eng w) (fw_flights w) (move (afterLoad (answer (t_key t)))) (fw_asked w))
  | PLeave r => Some (mkFW (fw_eng w) (fl_leave (fw_flights w) (flightKey t)) (map (release (flightKey t) r) (move (PGot r))) (fw_asked w))
  | _ => '(p, e) ← section now n t (fw_eng w); Some (mkFW e (fw_flights w) (move p) (fw_asked w))
  end.

Definition schedule {F} `{!FlightGroup F} now n answer (turns : list nat) (w : FWorld (F := F)) : option (FWorld (F := F)) :=
  foldl (fun w i => w ≫= act now n answer i) (Some w) turns.

Lemma act_goes {F} `{!FlightGroup F} now n answer i (w w' : FWorld (F := F)) :
  act now n answer i w = Some w' -> goes now n (fun k res => res = answer k) w w'.
Proof.
  destruct w as [e f ts a]. unfold act. cbn [fw_eng fw_flights fw_threads fw_asked].
  destruct (ts !! i) as [t|] eqn:Hi; [|done]. cbn. destruct (t_at t) eqn:Hp; intros H.
  all: try (destruct (section now n t e) as [[p e']|] eqn:Hs; [injection H as <-; by eapply goes_section|done]).
  - destruct (fl_enter f (flightKey t)) as [b f'] eqn:He. injection H as <-. by eapply goes_do.
  - injection H as <-. by apply goes_ask.
  - injection H as <-. by eapply goes_answer.
  - injection H as <-. by apply goes_leave.
Qed.

Lemma schedule_steps {F} `{!FlightGroup F} now n answer others turns (w w' : FWorld (F := F)) :
  schedule now n answer turns w = Some w' -> rtc (fstep now n (fun k res => res = answer k) others) w w'.
Proof.
  unfold schedule. revert w. induction turns as [|i turns IH]; cbn; intros w H; [injection H as <-; apply rtc_refl|].
  destruct (act now n answer i w) as [w1|] eqn:E.
  - eapply rtc_l; [apply fstep_goes; by eapply act_goes|by apply IH].
  - exfalso. clear -H. induction turns; [done|by apply IHturns].
Qed.
