(* ===== verification/FlightProps.v ===== *)
(** * Concurrent reads: one load for a herd

    Of the goroutines that read a key, one per flight key is inside the flight,
    whatever the scheduler, the data source and the rest of the node do; no
    goroutine waits without a goroutine that it waits for, so all of them
    return; and when nobody else writes the key, the source is asked once however
    many they are, and all get its answer. *)
From S2P Require Import Prelude Wire Store StoreInv StoreView StoreProps StoreSafety Protect Ring Hints Config Engine.
From S2P Require Import EngineProps Flight.

(** Between the call of the function of a flight and its return. *)
Definition inside (p : point) : bool :=
  match p with PStart | PDo | PWait | PGot _ | PDone _ => false | _ => true end.

Definition waits (p : point) : bool := match p with PWait => true | _ => false end.

Lemma loaded_inside t r : inside (loaded t r) = true /\ waits (loaded t r) = false.
Proof. unfold loaded. destruct (t_kind t), r as [?|[]]; done. Qed.

(** A critical section neither enters nor leaves a flight. *)
Lemma section_inside now n t e p e' :
  section now n t e = Some (p, e') -> inside p = inside (t_at t) /\ waits p = false /\ waits (t_at t) = false.
Proof.
  unfold section. destruct (getKS e n) as [ks|]; [|done].
  destruct (t_at t) eqn:Ep; try done; cbn [inside waits]; intros H;
    repeat match goal with
    | H : context [let '(_, _) := ?x in _] |- _ => destruct x eqn:?
    | H : context [match ?x with _ => _ end] |- _ => destruct x eqn:?
    end; simplify_eq; rewrite ?(proj1 (loaded_inside _ _)), ?(proj2 (loaded_inside _ _)); done.
Qed.

Section group.
Context {F : Type} `{!FlightGroup F} (now : Z) (n : bytes).
Context (answers : bytes -> LoadResult -> Prop) (others : Engine -> Engine -> Prop).
Abbreviation goes := (goes (F := F) now n answers).
Abbreviation fstep := (fstep (F := F) now n answers others).
Abbreviation FWorld := (FWorld (F := F)).

(** ** Exclusion *)

(** Thread [i] is inside the flight [k]. *)
Definition leads (ts : list Thread) (k : bytes) (i : nat) : Prop :=
  exists t, ts !! i = Some t /\ flightKey t = k /\ inside (t_at t) = true.

Record flights_ok (w : FWorld) : Prop := {
  fo_flight k : in_flight (fw_flights w) k <-> exists i, leads (fw_threads w) k i;
  fo_one k i j : leads (fw_threads w) k i -> leads (fw_threads w) k j -> i = j;
  fo_wait i t : fw_threads w !! i = Some t -> waits (t_at t) = true -> in_flight (fw_flights w) (flightKey t);
}.

Lemma leads_insert ts i t p k j :
  ts !! i = Some t ->
  leads (<[i := at_point t p]> ts) k j <->
  (j = i /\ flightKey t = k /\ inside p = true) \/ (j <> i /\ leads ts k j).
Proof.
  intros Hi. unfold leads. destruct (decide (j = i)) as [->|Hne].
  - rewrite list_lookup_insert_eq by (by eapply lookup_lt_Some). split.
    + intros (t' & [= <-] & Hk & Hp). left. by split_and!.
    + intros [(_ & Hk & Hp)|[Hn _]]; [|done]. exists (at_point t p). by split_and!.
  - rewrite list_lookup_insert_ne by done. split; [right; by split|]. intros [(-> & _)|[_ H]]; [done|exact H].
Qed.

Lemma leads_here ts i t : ts !! i = Some t -> inside (t_at t) = true -> leads ts (flightKey t) i.
Proof. intros H Hp. by exists t. Qed.

(** A step inside or outside of the flights. *)
Lemma flights_ok_local e e' f ts a a' i t p :
  flights_ok (mkFW e f ts a) -> ts !! i = Some t ->
  inside p = inside (t_at t) -> waits p = false ->
  flights_ok (mkFW e' f (<[i := at_point t p]> ts) a').
Proof.
  intros [Hf H1 Hw] Hi Hp Hnw. cbn in *.
  assert (Hl : forall k j, leads (<[i := at_point t p]> ts) k j <-> leads ts k j).
  { intros k j. rewrite (leads_insert ts i t p) by done. rewrite Hp. split.
    - intros [(-> & <- & H)|[_ H]]; [by apply leads_here|done].
    - intros H. destruct (decide (j = i)) as [->|]; [left|by right].
      destruct H as (t' & Ht' & Hk & H). rewrite Hi in Ht'. injection Ht' as <-. by split_and!. }
  split; cbn.
  - intros k. rewrite Hf. by setoid_rewrite Hl.
  - intros k j1 j2. rewrite !Hl. apply H1.
  - intros j u Hu Hwu. destruct (decide (j = i)) as [->|].
    + rewrite list_lookup_insert_eq in Hu by (by eapply lookup_lt_Some). injection Hu as <-. cbn in Hwu. congruence.
    + rewrite list_lookup_insert_ne in Hu by done. by eapply Hw.
Qed.

Lemma flights_ok_do e f ts a i t b f' :
  flights_ok (mkFW e f ts a) -> ts !! i = Some t -> t_at t = PDo -> fl_enter f (flightKey t) = (b, f') ->
  flights_ok (mkFW e f' (<[i := at_point t (if b then PLook else PWait)]> ts) a).
Proof.
  intros [Hf H1 Hw] Hi Hp He. cbn in *. apply in_flight_enter in He as [Hb Hin].
  assert (Hold : forall k j, leads ts k j -> j <> i).
  { intros k j (u & Hu & _ & Hin') ->. rewrite Hi in Hu. injection Hu as <-. by rewrite Hp in Hin'. }
  split; cbn.
  - intros k. rewrite Hin. setoid_rewrite (leads_insert ts i t); [|done..]. rewrite Hf. split.
    + intros [[j Hj]| ->]; [exists j; right; split; [by eapply Hold|done]|].
      destruct b; [by exists i; left|]. apply Hf in Hb as [j Hj]. exists j. right. split; [by eapply Hold|done].
    + intros [j [(_ & <- & _)|[_ Hj]]]; [by right|left; by exists j].
  - assert (Hno : forall j, b = true -> leads ts (flightKey t) j -> False).
    { intros j -> Hj. apply Hb, Hf. by exists j. }
    intros k j1 j2. rewrite !(leads_insert ts i t) by done. destruct b; cbn.
    + intros [(-> & <- & _)|[_ L1]] [(-> & E2 & _)|[_ L2]]; try done.
      * by destruct (Hno _ eq_refl L2).
      * subst k. by destruct (Hno _ eq_refl L1).
      * by eapply H1.
    + intros [(_ & _ & [=])|[_ L1]] [(_ & _ & [=])|[_ L2]]. by eapply H1.
  - intros j u Hu Hwu. apply Hin. destruct (decide (j = i)) as [->|].
    + rewrite list_lookup_insert_eq in Hu by (by eapply lookup_lt_Some). injection Hu as <-. by right.
    + rewrite list_lookup_insert_ne in Hu by done. left. by eapply Hw.
Qed.

Lemma release_leads ts fk r k j : leads (map (release fk r) ts) k j <-> leads ts k j.
Proof.
  unfold leads. rewrite list_lookup_fmap. split.
  - intros (t & Ht & Hk & Hp). apply fmap_Some in Ht as (u & Hu & ->). exists u. unfold release in *.
    destruct (t_at u) eqn:E; cbn [inside] in *; try done; try (rewrite E in Hp; done).
    destruct (bool_decide _); [done|by rewrite E in Hp].
  - intros (t & Ht & Hk & Hp). exists t. rewrite Ht. cbn. unfold release. by destruct (t_at t) eqn:E.
Qed.

Lemma flights_ok_leave e f ts a i t r :
  flights_ok (mkFW e f ts a) -> ts !! i = Some t -> t_at t = PLeave r ->
  flights_ok (mkFW e (fl_leave f (flightKey t)) (map (release (flightKey t) r) (<[i := at_point t (PGot r)]> ts)) a).
Proof.
  intros [Hf H1 Hw] Hi Hp. cbn in *.
  assert (Hl : leads ts (flightKey t) i) by (apply leads_here; [done|by rewrite Hp]).
  split; cbn.
  - intros k. rewrite in_flight_leave, Hf. setoid_rewrite release_leads. setoid_rewrite (leads_insert ts i t); [|done..]. split.
    + intros [[j Hj] Hne]. exists j. right. split; [|done]. intros ->. destruct Hj as (u & Hu & <- & _). congruence.
    + intros [j [(_ & _ & [=])|[Hne Hj]]]. split; [by exists j|]. intros ->. by apply Hne, (H1 (flightKey t)).
  - intros k j1 j2. rewrite !release_leads, !(leads_insert ts i t) by done.
    intros [(_ & _ & [=])|[_ L1]] [(_ & _ & [=])|[_ L2]]. by eapply H1.
  - intros j u Hu Hwu. rewrite list_lookup_fmap in Hu. apply fmap_Some in Hu as (x & Hx & ->).
    unfold release in Hwu |- *. destruct (t_at x) eqn:Ex; cbn in Hwu; rewrite ?Ex in Hwu; try done.
    case_bool_decide as Hk; [done|]. rewrite in_flight_leave. split; [|done].
    destruct (decide (j = i)) as [->|].
    + rewrite list_lookup_insert_eq in Hx by (by eapply lookup_lt_Some). by injection Hx as <-.
    + rewrite list_lookup_insert_ne in Hx by done. eapply Hw; [done|]. by rewrite Ex.
Qed.

Lemma fstep_flights w w' : fstep w w' -> flights_ok w -> flights_ok w'.
Proof.
  intros [x y H|e e' f ts a _] Hok; [|by destruct Hok].
  destruct H as [e f ts a i t p e' Hi Hs|e f ts a i t b f' Hi Hp He|e f ts a i t Hi Hp|e f ts a i t res Hi Hp _|e f ts a i t r Hi Hp].
  - apply section_inside in Hs as (H1 & H2 & _). by eapply flights_ok_local.
  - by eapply flights_ok_do.
  - eapply flights_ok_local; [done|done|by rewrite Hp|done].
  - eapply flights_ok_local; [done|done|rewrite Hp; by destruct res|by destruct res].
  - by eapply flights_ok_leave.
Qed.

Lemma started_ok e ts : Forall (fun t => t_at t = PStart) ts -> flights_ok (started e ts).
Proof.
  intros Hs. rewrite Forall_lookup in Hs.
  assert (Hno : forall k i, ~ leads ts k i) by (intros k i (t & Ht & _ & Hp); by rewrite (Hs _ _ Ht) in Hp).
  split; cbn.
  - intros k. split; [intros H; by apply in_flight_new in H|intros [i H]; by apply Hno in H].
  - intros k i j H. by apply Hno in H.
  - intros i t Ht Hw. by rewrite (Hs _ _ Ht) in Hw.
Qed.

Lemma reachable_ok e ts w :
  Forall (fun t => t_at t = PStart) ts -> rtc fstep (started e ts) w -> flights_ok w.
Proof.
  intros Hs H. assert (H0 : flights_ok (started e ts)) by (by apply started_ok).
  induction H as [w|w1 w2 w3 H _ IH]; [done|]. apply IH. by eapply fstep_flights.
Qed.

(** ** Progress *)

(** How many sections a goroutine may still run, at most. *)
Definition togo (p : point) : nat :=
  match p with
  | PStart => 23 | PDo => 22 | PLook => 21 | PGlobal => 20 | PGuard => 19 | PAsk => 18 | PAsking => 17
  | PNegPeek => 16 | PNegMint => 15 | PNegAccept _ => 14 | PNegSend _ => 13
  | PReportG _ => 12 | PReportK _ => 11 | PNotFound => 10
  | PFill _ => 10 | PMint _ => 9 | PAccept _ _ => 8 | PSend _ _ => 7 | PAgain _ => 7
  | PGolNeg => 6 | PGolReload _ => 6 | PLeave _ => 3 | PWait => 2 | PGot _ => 1 | PDone _ => 0
  end%nat.

Definition work (w : FWorld) : nat := sum_list_with (fun t => togo (t_at t)) (fw_threads w).
Definition isDone (p : point) : bool := match p with PDone _ => true | _ => false end.

Lemma loaded_togo t r : (togo (loaded t r) <= 6)%nat.
Proof. unfold loaded. destruct (t_kind t), r as [?|[]]; cbn [togo]; lia. Qed.

Lemma section_togo t e p e' : section now n t e = Some (p, e') -> (togo p < togo (t_at t))%nat.
Proof.
  unfold section. destruct (getKS e n) as [ks|]; [|done].
  destruct (t_at t) eqn:Ep; try done; cbn [togo]; intros H;
    repeat match goal with
    | H : context [let '(_, _) := ?x in _] |- _ => destruct x eqn:?
    | H : context [match ?x with _ => _ end] |- _ => destruct x eqn:?
    end; simplify_eq; cbn [togo];
    repeat match goal with |- context [togo (loaded ?t ?r)] => pose proof (loaded_togo t r); generalize dependent (togo (loaded t r)); intros end; lia.
Qed.

Lemma work_insert ts i t p :
  ts !! i = Some t -> (togo p < togo (t_at t))%nat ->
  (sum_list_with (fun t => togo (t_at t)) (<[i := at_point t p]> ts) < sum_list_with (fun t => togo (t_at t)) ts)%nat.
Proof.
  revert i. induction ts as [|u ts IH]; intros [|i] Hi Hr; try done.
  - injection Hi as ->. cbn. lia.
  - specialize (IH i Hi Hr). change (<[S i := at_point t p]> (u :: ts)) with (u :: <[i := at_point t p]> ts). cbn in *. lia.
Qed.

Lemma work_release fk r ts :
  (sum_list_with (fun t => togo (t_at t)) (map (release fk r) ts) <= sum_list_with (fun t => togo (t_at t)) ts)%nat.
Proof.
  induction ts as [|t ts IH]; cbn; [done|]. assert (togo (t_at (release fk r t)) <= togo (t_at t))%nat; [|lia].
  unfold release. destruct (t_at t) eqn:E; rewrite ?E; try lia. case_bool_decide; cbn; rewrite ?E; cbn; lia.
Qed.

Lemma goes_work w w' : goes w w' -> (work w' < work w)%nat.
Proof.
  intros H. destruct H as [e f ts a i t p e' Hi Hs|e f ts a i t b f' Hi Hp He|e f ts a i t Hi Hp|e f ts a i t res Hi Hp _|e f ts a i t r Hi Hp]; unfold work; cbn [fw_threads].
  - apply section_togo in Hs. by apply work_insert.
  - apply work_insert; [done|]. rewrite Hp. destruct b; cbn; lia.
  - apply work_insert; [done|]. rewrite Hp. cbn; lia.
  - apply work_insert; [done|]. rewrite Hp. destruct res; cbn; lia.
  - eapply Nat.le_lt_trans; [apply work_release|]. apply work_insert; [done|]. rewrite Hp. cbn; lia.
Qed.

(** Points at which [section] is defined. *)
Definition runs (p : point) : bool :=
  match p with PDo | PWait | PAsk | PAsking | PLeave _ | PDone _ => false | _ => true end.

Lemma section_runs t e : is_Some (getKS e n) -> runs (t_at t) = true -> is_Some (section now n t e).
Proof.
  intros [ks Hks] Hr. unfold section. rewrite Hks. destruct (t_at t); try done;
    repeat match goal with
    | |- context [let '(_, _) := ?x in _] => destruct x eqn:?
    | |- context [match ?x with _ => _ end] => destruct x eqn:?
    end; done.
Qed.

Lemma goes_on e f ts a i t :
  is_Some (getKS e n) -> (forall k, exists res, answers k res) ->
  ts !! i = Some t -> isDone (t_at t) = false -> waits (t_at t) = false ->
  exists w', goes (mkFW e f ts a) w'.
Proof.
  intros Hks Ha Hi Hd Hw. destruct (runs (t_at t)) eqn:Hr.
  - destruct (section_runs t e Hks Hr) as [[p e'] Hs]. eexists. by eapply goes_section.
  - destruct (t_at t) eqn:Hp; try done.
    + destruct (fl_enter f (flightKey t)) as [b f'] eqn:He. eexists. by eapply goes_do.
    + eexists. by eapply goes_ask.
    + destruct (Ha (t_key t)) as [res Hres]. eexists. by eapply goes_answer.
    + eexists. by eapply goes_leave.
Qed.

(** Someone who waits has someone to wait for. *)
Lemma not_stuck w :
  flights_ok w -> is_Some (getKS (fw_eng w) n) -> (forall k, exists res, answers k res) ->
  Forall (fun t => isDone (t_at t) = true) (fw_threads w) \/ exists w', goes w w'.
Proof.
  intros Hok Hks Ha. destruct (decide (Exists (fun t => isDone (t_at t) = false) (fw_threads w))) as [Hx|Hx].
  - right. apply Exists_exists in Hx as (t & [i Hi]%list_elem_of_lookup & Hd). destruct w as [e f ts a]. cbn in *.
    destruct (waits (t_at t)) eqn:Hw; [|by eapply goes_on].
    apply (fo_wait _ Hok i t Hi) in Hw. apply (fo_flight _ Hok) in Hw as (j & u & Hu & _ & Hin).
    eapply (goes_on e f ts a j u); try done; by destruct (t_at u).
  - left. apply Forall_forall. intros t Ht. destruct (isDone (t_at t)) eqn:E; [done|]. destruct Hx. apply Exists_exists. by exists t.
Qed.

End group.

(** ** A herd on one key *)

(** nextVersion reads the store, and only the counter of its key may appear or
    change; others may be dropped. *)
Lemma nextVersion_any now ks key v ks' :
  store_ok (kstore ks) -> nextVersion now ks key 0 = (v, ks') ->
  reads now (kstore ks) (kstore ks') /\ cfg ks' = cfg ks /\ lastVer ks' ⊆ <[key := v]> (lastVer ks) /\
  (forall B, 0 <= B < MaxUint64 -> default 0 (lastVer ks !! key) <= B ->
     (forall c, view now (kstore ks) !! key = Some c -> Version c <= B) -> v <= B + 1).
Proof.
  intros Hok. unfold nextVersion. cbv zeta. destruct (PeekVersion now (kstore ks) key) as [pv m] eqn:E.
  apply PeekVersion_reads in E as [-> Hr]; [|done].
  set (cur := match _ with Some _ => _ | None => _ end). intros [= Hv Hks]. subst ks' v.
  pose proof (prune_spec now (with_lastVer (with_store ks m) (<[key := cur +u 1]> (lastVer ks)))) as [Q1 Q2 Q3 Q4 Q5 Q6 Q7];
    [apply Hr|]. cbn [kstore cfg guard maxVersionKeys lastVer with_lastVer with_store] in *.
  split_and!; [by eapply reads_trans|done|done|]. intros B HB Hl Hc.
  assert (0 <= cur <= B).
  { unfold cur. destruct (view now (kstore ks) !! key) as [c|] eqn:Ec; cbn [fmap option_fmap option_map].
    - specialize (Hc c eq_refl). zcmp; lia.
    - zcmp; lia. }
  unfold u64. rewrite Z.mod_small by (unfold MaxUint64 in *; lia). lia.
Qed.

Section herd.
Context (now : Z) (n k : bytes).

(** The keyspace is there with its configuration, and nothing a reader of [k]
    could see has changed. *)
Definition calm (e e' : Engine) : Prop :=
  forall ks, getKS e n = Some ks -> store_ok (kstore ks) -> maxBytes (kstore ks) <= 0 ->
  maxValueSize e' = maxValueSize e /\
  exists ks', getKS e' n = Some ks' /\ cfg ks' = cfg ks /\ store_ok (kstore ks') /\ maxBytes (kstore ks') <= 0 /\
    view now (kstore ks') !! k = view now (kstore ks) !! k /\
    (lastVer ks' !! k = lastVer ks !! k \/ lastVer ks' !! k = None).

Lemma calm_refl e : calm e e.
Proof. intros ks Hks Hok Hm. split; [done|]. exists ks. split_and!; auto. Qed.

Lemma calm_store e ks m :
  getKS e n = Some ks ->
  (store_ok (kstore ks) -> maxBytes (kstore ks) <= 0 ->
   store_ok m /\ maxBytes m <= 0 /\ view now m !! k = view now (kstore ks) !! k) ->
  calm e (with_ks e n (with_store ks m)).
Proof.
  intros Hks H ks0 Hks0 Hok Hmax. rewrite Hks in Hks0. injection Hks0 as <-. destruct (H Hok Hmax) as (H1 & H2 & H3).
  split; [done|]. exists (with_store ks m). split; [apply lookup_insert_eq|]. by split_and!; try left.
Qed.

Lemma calm_reads e ks m :
  getKS e n = Some ks -> (store_ok (kstore ks) -> reads now (kstore ks) m) -> calm e (with_ks e n (with_store ks m)).
Proof.
  intros Hks H. apply calm_store; [done|]. intros Hok Hmax. destruct (H Hok) as [Hv Ho Hm _]. rewrite Hv. split_and!; [done|lia|done].
Qed.

Lemma calm_guard e ks g : getKS e n = Some ks -> calm e (with_ks e n (with_guard ks g)).
Proof.
  intros Hks ks0 Hks0 Hok Hmax. rewrite Hks in Hks0. injection Hks0 as <-. split; [done|].
  exists (with_guard ks g). split; [apply lookup_insert_eq|]. by split_and!; try left.
Qed.

Lemma calm_global e g : calm e (with_global e g).
Proof. intros ks Hks Hok Hm. split; [done|]. exists ks. split_and!; auto. Qed.

Lemma calm_replicate e key ent f : calm e (replicate e n key ent f).
Proof.
  intros ks Hks Hok Hm.
  assert (H : only_ks e n e ks) by (by split).
  destruct (only_replicate e n e ks key ent f H) as [H1 _ _ H2 _ _]. split; [done|]. exists ks. split_and!; auto.
Qed.

Lemma calm_mint e ks key v ks' :
  getKS e n = Some ks -> key <> k -> nextVersion now ks key 0 = (v, ks') -> calm e (with_ks e n ks').
Proof.
  intros Hks Hne Hv ks0 Hks0 Hok Hmax. rewrite Hks in Hks0. injection Hks0 as <-.
  apply nextVersion_any in Hv as ([Hvw Ho Hm _] & Hc & Hl & _); [|done]. split; [done|].
  exists ks'. split; [apply lookup_insert_eq|]. rewrite Hvw. split_and!; [done|done|lia|done|].
  destruct (lastVer ks' !! k) as [x|] eqn:E; [left|by right].
  eapply lookup_weaken in E; [|exact Hl]. by rewrite lookup_insert_ne in E.
Qed.

(** Writes of other keys. *)
Lemma AcceptIfNewer_elsewhere m key ent :
  store_ok m -> maxBytes m <= 0 -> entry_ok ent -> key <> k ->
  let m' := (AcceptIfNewer now m key ent).2 in
  store_ok m' /\ maxBytes m' <= 0 /\ view now m' !! k = view now m !! k.
Proof.
  intros Hok Hmax He Hne. cbv zeta. destruct (AcceptIfNewer_implements now m key ent Hok He) as (_ & Href & Hs).
  pose proof (proj1 (apply_msg_params now m (MPut key ent))) as Hp. cbn [apply_msg] in Hp.
  split_and!; [done|lia|]. rewrite (ref_exact _ _ _ Href) by lia. unfold spec_AcceptIfNewer, insert_live.
  repeat case_match; cbn; rewrite ?lookup_insert_ne, ?lookup_delete_ne by done; done.
Qed.

Lemma AcceptNegative_max m key ent : maxBytes (AcceptNegative now m key ent).2 = maxBytes m.
Proof.
  assert (He : forall m', maxBytes m' = maxBytes m -> maxBytes (evictLocked now m') = maxBytes m).
  { intros m' H. by destruct (evictLocked_params now m') as (-> & _). }
  unfold AcceptNegative. repeat case_match; try done; by apply He.
Qed.

Lemma AcceptNegative_elsewhere m key ent :
  store_ok m -> maxBytes m <= 0 -> Flags ent = FlagNegative -> bytes_ok (Value ent) -> key <> k ->
  let m' := (AcceptNegative now m key ent).2 in
  store_ok m' /\ maxBytes m' <= 0 /\ view now m' !! k = view now m !! k.
Proof.
  intros Hok Hmax Hf Hb Hne. cbv zeta. destruct (AcceptNegative_implements now m key ent Hok Hf Hb) as (_ & Href & Hs).
  rewrite AcceptNegative_max. split_and!; [done|done|]. rewrite (ref_exact _ _ _ Href) by (by rewrite AcceptNegative_max).
  unfold spec_AcceptNegative, insert_live.
  repeat case_match; cbn; rewrite ?lookup_insert_ne, ?lookup_delete_ne by done; done.
Qed.

(** Points at which the version map or the store is written. *)
Definition writes (p : point) : bool :=
  match p with PNegMint | PNegAccept _ | PMint _ | PAccept _ _ => true | _ => false end.

(** The value a point carries is a byte string. *)
Definition payload_ok (p : point) : Prop :=
  match p with
  | PReportG (Loaded val) | PReportK (Loaded val) | PFill val | PMint val | PAccept val _ => bytes_ok val
  | _ => True
  end.

Lemma loaded_payload t r : payload_ok (loaded t r).
Proof. unfold loaded. by destruct (t_kind t), r as [?|[]]. Qed.

Lemma section_payload t e p e' : section now n t e = Some (p, e') -> payload_ok (t_at t) -> payload_ok p.
Proof.
  unfold section. destruct (getKS e n) as [ks|]; [|done].
  destruct (t_at t) eqn:Ep; try done; cbn [payload_ok]; intros H Hp;
    repeat match goal with
    | H : context [let '(_, _) := ?x in _] |- _ => destruct x eqn:?
    | H : context [match ?x with _ => _ end] |- _ => destruct x eqn:?
    end; simplify_eq; first [apply loaded_payload | done].
Qed.

Lemma calm_read e ks key r m :
  getKS e n = Some ks -> Get now (kstore ks) key = (r, m) -> calm e (with_ks e n (with_store ks m)).
Proof. intros Hks E. apply calm_reads; [done|]. intros Hok. by apply Get_reads in E as [_ H]. Qed.

Lemma section_calm t e p e' :
  section now n t e = Some (p, e') -> payload_ok (t_at t) -> t_key t <> k \/ writes (t_at t) = false -> calm e e'.
Proof.
  unfold section. destruct (getKS e n) as [ks|] eqn:Hks; [|done]. intros H Hp Hw.
  destruct (Get now (kstore ks) (t_key t)) as [got mg] eqn:EG. pose proof (calm_read e ks (t_key t) got mg Hks EG) as Hr.
  destruct (t_at t) eqn:Ep; try done; cbv zeta in H; try (injection H as _ <-; done).
  - unfold global_allow in H. destruct (global e); [|simplify_eq; apply calm_refl].
    destruct (Allow now g); simplify_eq; apply calm_global.
  - destruct (Allow now (guard ks)); simplify_eq. by apply calm_guard.
  - destruct (_ <=? 0); [simplify_eq; apply calm_refl|]. destruct (Peek now (kstore ks) (t_key t)) as [r m] eqn:E. simplify_eq.
    apply calm_reads; [done|]. intros Hok. by apply Peek_reads in E as [_ E].
  - destruct Hw as [Hw|[=]]. destruct (nextVersion now ks (t_key t) 0) as [v ks'] eqn:E. simplify_eq. by eapply calm_mint.
  - destruct Hw as [Hw|[=]]. destruct (AcceptNegative _ _ _ _) as [ok m] eqn:E. simplify_eq. apply calm_store; [done|].
    intros Hok Hm. pose proof (AcceptNegative_elsewhere (kstore ks) (t_key t) (mkEntry [] v (expireAt now (NegativeTTL (cfg ks))) FlagNegative)) as H.
    rewrite E in H. by apply H.
  - simplify_eq. apply calm_replicate.
  - simplify_eq. unfold report_global. destruct (global e); [apply calm_global|apply calm_refl].
  - simplify_eq. by apply calm_guard.
  - destruct Hw as [Hw|[=]]. destruct (nextVersion now ks (t_key t) 0) as [v ks'] eqn:E. simplify_eq. by eapply calm_mint.
  - destruct Hw as [Hw|[=]]. destruct (AcceptIfNewer _ _ _ _) as [ok m] eqn:E. simplify_eq. apply calm_store; [done|].
    intros Hok Hm. pose proof (AcceptIfNewer_elsewhere (kstore ks) (t_key t) (mkEntry val v (expireAt now (TTL (cfg ks))) 0)) as H.
    rewrite E in H. apply H; auto. by apply plain_entry_ok.
  - simplify_eq. apply calm_replicate.
  - destruct r as [[v|err]|ent [err|]]; simplify_eq; try apply calm_refl.
    destruct err; simplify_eq; try apply calm_refl. destruct (IsNegative ent); simplify_eq; [apply calm_refl|done].
Qed.

(** *** The key is settled once the answer is in the store *)

Context (r0 : LoadResult) (C : Config) (mv : Z) (v0 : option Entry) (V0 : Z).

(** An entry a reader finds in place of the answer [r0]. *)
Definition good (c : Entry) : Prop :=
  IsTombstone c = false /\
  match r0 with
  | Loaded val => IsNegative c = false /\ Value c = val
  | LoadNotFound => IsNegative c = true
  | LoadFailed => False
  end.

Definition settled (e : Engine) : Prop :=
  exists ks c, getKS e n = Some ks /\ view now (kstore ks) !! k = Some c /\ good c.

(** The keyspace: nobody but the readers has written the key, and no version of it exceeds [b]. *)
Record base (b : Z) (e : Engine) ks : Prop := {
  ba_ks : getKS e n = Some ks;
  ba_cfg : cfg ks = C;
  ba_ok : store_ok (kstore ks);
  ba_max : maxBytes (kstore ks) <= 0;
  ba_val : maxValueSize e = mv;
  ba_view : view now (kstore ks) !! k = v0 \/ settled e;
  ba_last : 0 <= default 0 (lastVer ks !! k) <= b;
  ba_live c : view now (kstore ks) !! k = Some c -> Version c <= b;
}.

Definition fresh (e : Engine) (v : Z) : Prop :=
  forall ks c, getKS e n = Some ks -> view now (kstore ks) !! k = Some c -> Version c < v.

(** What may come back: the answer, or a refusal of a guard. *)
Definition okAns (t : Thread) (r : Answer) : Prop :=
  match t_kind t, r with
  | KGet, RGet (inl v) => r0 = Loaded v
  | KGet, RGet (inr err) => err = ErrUnavailable \/ (r0 = LoadNotFound /\ err = ErrNotFound)
  | KGol, RGol ent None => r0 = Loaded (Value ent) /\ IsNegative ent = false
  | KGol, RGol ent (Some err) =>
      (ent = noEntry /\ err = ErrUnavailable) \/ (r0 = LoadNotFound /\ err = ErrNotFound /\ IsNegative ent = true)
  | _, _ => False
  end.

Definition cancelAns (t : Thread) : Answer :=
  match t_kind t with KGet => RGet (inr ErrContext) | KGol => RGol noEntry (Some ErrContext) end.

Definition returns (t : Thread) (r : Answer) : Prop := okAns t r \/ (t_cancel t = true /\ r = cancelAns t).

(** What holds of a reader of [k] at each point. *)
Definition reader_ok (b : Z) (e : Engine) (t : Thread) : Prop :=
  match t_at t with
  | PReportG res | PReportK res => res = r0 /\ (res = LoadNotFound -> settled e)
  | PFill val | PMint val => r0 = Loaded val
  | PAccept val v => r0 = Loaded val /\ v <= b /\ (settled e \/ fresh e v)
  | PSend val _ | PAgain val => r0 = Loaded val /\ settled e
  | PGolReload val => t_kind t = KGol /\ r0 = Loaded val /\ settled e
  | PNegPeek | PNegMint => r0 = LoadNotFound
  | PNegAccept v => r0 = LoadNotFound /\ v <= b /\ (settled e \/ fresh e v)
  | PNegSend _ | PNotFound => r0 = LoadNotFound /\ settled e
  | PGolNeg => t_kind t = KGol /\ r0 = LoadNotFound /\ settled e
  | PLeave r | PGot r => okAns t r
  | PDone r => returns t r
  | _ => True
  end.

(** Asked and not yet settled; of those, the ones before their version is minted. *)
Definition premint (p : point) : bool :=
  match p with
  | PAsking | PNegPeek | PNegMint | PReportG (Loaded _) | PReportK (Loaded _) | PFill _ | PMint _ => true
  | _ => false
  end.
Definition owing (p : point) : bool := premint p || match p with PNegAccept _ | PAccept _ _ => true | _ => false end.
(** Past the second look and not yet asked. *)
Definition asksNext (p : point) : bool := match p with PGlobal | PGuard | PAsk => true | _ => false end.

(** The engine moves on: the key keeps its entry or is settled. *)
Definition onward (e e' : Engine) : Prop :=
  (settled e -> settled e') /\ (forall v, fresh e v -> fresh e' v \/ settled e').

Lemma settled_calm b e ks e' : base b e ks -> calm e e' -> onward e e' /\ exists ks', base b e' ks'.
Proof.
  intros [B1 B2 B3 B4 B5 B6 B7 B8] Hc. destruct (Hc ks B1 B3 B4) as (Hv & ks' & Hks' & Hcfg & Hok & Hmax & Hview & Hlast).
  assert (Hset : settled e -> settled e').
  { intros (x & c & Hx & Hc1 & Hg). rewrite B1 in Hx. injection Hx as <-. exists ks', c. rewrite Hview. by split_and!. }
  split.
  - split; [done|]. intros v Hf. left. intros x c Hx Hc1. rewrite Hks' in Hx. injection Hx as <-. rewrite Hview in Hc1. by apply (Hf ks).
  - exists ks'. split; try done; try congruence.
    + rewrite Hview. destruct B6; auto.
    + destruct Hlast as [-> | ->]; cbn; lia.
    + intros c. rewrite Hview. apply B8.
Qed.

Lemma reader_onward b b' e e' t : onward e e' -> b <= b' -> reader_ok b e t -> reader_ok b' e' t.
Proof.
  intros [H1 H2] Hb. unfold reader_ok. destruct (t_at t); try done; try naive_solver lia.
  all: intros (Hr & Hv & [H|H]); split_and!; auto; try lia; destruct (H2 _ H); auto.
Qed.

Hypothesis Hfits : expiry_fits now (match r0 with Loaded _ => TTL C | _ => NegativeTTL C end).
Hypothesis Hunread : match v0 with Some c => IsTombstone c = true | None => True end.
Hypothesis Hanswer :
  match r0 with
  | Loaded val => bytes_ok val /\ forall e ks, cfg ks = C -> maxValueSize e = mv -> validateValueSize e ks val = None
  | LoadNotFound => 0 < NegativeTTL C /\ v0 = None
  | LoadFailed => False
  end.

Lemma get_base b e ks r m :
  base b e ks -> Get now (kstore ks) k = (r, m) ->
  (exists c, r = Some c /\ good c /\ settled e) \/ (r = None /\ ~ settled e /\ view now (kstore ks) !! k = v0).
Proof.
  intros [B1 B2 B3 B4 B5 B6 B7 B8] E. apply Get_reads in E as [-> _]; [|done]. unfold readable.
  assert (Hset : forall c, view now (kstore ks) !! k = Some c -> settled e -> good c).
  { intros c Hc (x & c' & Hx & Hc' & Hg). rewrite B1 in Hx. injection Hx as <-. rewrite Hc in Hc'. by injection Hc' as <-. }
  destruct B6 as [Hv|Hs].
  - right. rewrite Hv in *. destruct v0 as [c|]; [rewrite Hunread|].
    + split_and!; try done. intros Hs. by destruct (Hset c eq_refl Hs) as [? _]; congruence.
    + split_and!; try done. intros (x & c' & Hx & Hc' & _). rewrite B1 in Hx. injection Hx as <-. congruence.
  - left. destruct Hs as (x & c & Hx & Hc & Hg). rewrite B1 in Hx. injection Hx as <-. rewrite Hc. exists c.
    destruct Hg as [Ht Hg]. rewrite Ht. split_and!; try done. exists ks, c. by split_and!.
Qed.

Lemma mint_base b e ks v ks' :
  base b e ks -> 0 <= b < MaxUint64 -> nextVersion now ks k 0 = (v, ks') ->
  base (b + 1) (with_ks e n ks') ks' /\ v <= b + 1 /\ fresh (with_ks e n ks') v /\ onward e (with_ks e n ks').
Proof.
  intros [B1 B2 B3 B4 B5 B6 B7 B8] Hb E. pose proof (nextVersion_any now ks k v ks' B3 E) as ([Rv Ro Rm _] & Hcfg & Hl & Hbound).
  destruct (nextVersion_spec now ks k 0 v ks') as [Hm _]; [done|split; [lia|intros c Hc; specialize (B8 c Hc); lia]|unfold MaxUint64; lia|done|].
  assert (Hv : v <= b + 1) by (apply Hbound; [lia|lia|done]).
  assert (Hk : getKS (with_ks e n ks') n = Some ks') by apply lookup_insert_eq.
  assert (Hset : settled e -> settled (with_ks e n ks')).
  { intros (x & c & Hx & Hc & Hg). rewrite B1 in Hx. injection Hx as <-. exists ks', c. rewrite Rv. by split_and!. }
  split_and!; [|done| |].
  - split; try done; try congruence; try lia.
    + rewrite Rv. destruct B6; auto.
    + destruct (lastVer ks' !! k) as [x|] eqn:Ex; cbn; [|lia].
      eapply lookup_weaken in Ex; [|exact Hl]. rewrite lookup_insert_eq in Ex. injection Ex as <-.
      pose proof (mi_range _ _ _ _ _ Hm). lia.
    + intros c. rewrite Rv. intros Hc. specialize (B8 c Hc). lia.
  - intros x c Hx Hc. rewrite Hk in Hx. injection Hx as <-. rewrite Rv in Hc. by apply (mi_live _ _ _ _ _ Hm).
  - split; [done|]. intros v' Hf. left. intros x c Hx Hc. rewrite Hk in Hx. injection Hx as <-. rewrite Rv in Hc. by apply (Hf ks).
Qed.

Lemma settle b e ks m ent :
  base b e ks -> store_ok m -> maxBytes m <= 0 -> Version ent <= b -> good ent ->
  view now m = <[k := ent]> (view now (kstore ks)) \/ (view now m = view now (kstore ks) /\ settled e) ->
  let e' := with_ks e n (with_store ks m) in settled e' /\ base b e' (with_store ks m) /\ onward e e'.
Proof.
  intros [B1 B2 B3 B4 B5 B6 B7 B8] Hok Hmax Hv Hg Hm e'.
  assert (Hk : getKS e' n = Some (with_store ks m)) by apply lookup_insert_eq.
  assert (Hset : settled e').
  { destruct Hm as [Hm|[Hm (x & c & Hx & Hc & Hgc)]].
    - exists (with_store ks m), ent. cbn. rewrite Hm, lookup_insert_eq. by split_and!.
    - rewrite B1 in Hx. injection Hx as <-. exists (with_store ks m), c. cbn. rewrite Hm. by split_and!. }
  split_and!; [done| |split; auto]. split; try done; [by right|].
  intros c. cbn. destruct Hm as [-> | [-> _]]; [|apply B8]. rewrite lookup_insert_eq. by intros [= <-].
Qed.

Lemma accept_settles b e ks val v ok m :
  base b e ks -> r0 = Loaded val -> v <= b -> settled e \/ fresh e v ->
  AcceptIfNewer now (kstore ks) k (mkEntry val v (expireAt now (TTL (cfg ks))) 0) = (ok, m) ->
  let e' := with_ks e n (with_store ks m) in settled e' /\ base b e' (with_store ks m) /\ onward e e'.
Proof.
  intros Hb Hr Hv Hor E. pose proof Hb as [B1 B2 B3 B4 B5 B6 B7 B8]. set (ent := mkEntry val v _ 0) in E.
  assert (Hval : bytes_ok val) by (rewrite Hr in Hanswer; apply Hanswer).
  destruct (AcceptIfNewer_implements now (kstore ks) k ent B3 (plain_entry_ok val v _ Hval)) as (H1 & Href & Hs).
  pose proof (proj1 (apply_msg_params now (kstore ks) (MPut k ent))) as Hp. cbn [apply_msg] in Hp.
  rewrite E in H1, Href, Hs, Hp. cbn [fst snd] in *.
  apply (settle b e ks m ent); try done; [lia|split; [done|by rewrite Hr]|].
  rewrite (ref_exact _ _ _ Href) by lia. unfold spec_AcceptIfNewer, tooBig in *.
  destruct (Z.ltb_spec 0 (maxBytes (kstore ks))); [lia|]. cbn [andb negb] in *. rewrite andb_true_r in *.
  unfold insert_live. replace (Expired ent now) with false
    by (symmetry; apply fresh_live; rewrite B2; by rewrite Hr in Hfits).
  destruct (newer_than (view now (kstore ks)) k (Version ent)) eqn:En; [by left|right]. split; [done|].
  destruct Hor as [Hs2|Hf]; [done|]. unfold newer_than in En. destruct (view now (kstore ks) !! k) as [c|] eqn:Ec; [|done].
  apply Z.ltb_ge in En. specialize (Hf ks c B1 Ec). cbn in En. lia.
Qed.

Lemma negative_settles b e ks v ok m :
  base b e ks -> r0 = LoadNotFound -> v <= b -> settled e \/ fresh e v ->
  AcceptNegative now (kstore ks) k (mkEntry [] v (expireAt now (NegativeTTL (cfg ks))) FlagNegative) = (ok, m) ->
  let e' := with_ks e n (with_store ks m) in settled e' /\ base b e' (with_store ks m) /\ onward e e'.
Proof.
  intros Hb Hr Hv Hor E. pose proof Hb as [B1 B2 B3 B4 B5 B6 B7 B8]. set (ent := mkEntry [] v _ FlagNegative) in E.
  destruct (AcceptNegative_implements now (kstore ks) k ent B3 eq_refl (Forall_nil_2 _)) as (H1 & Href & Hs).
  pose proof (AcceptNegative_max (kstore ks) k ent) as Hp. rewrite E in H1, Href, Hs, Hp. cbn [fst snd] in *.
  apply (settle b e ks m ent); try done; [lia|split; [done|by rewrite Hr]|].
  rewrite (ref_exact _ _ _ Href) by lia. unfold spec_AcceptNegative, tooBig in *.
  destruct (Z.ltb_spec 0 (maxBytes (kstore ks))); [lia|]. cbn [andb negb] in *. rewrite andb_true_r in *.
  unfold insert_live. replace (Expired ent now) with false.
  2:{ symmetry. apply fresh_live. rewrite B2. by rewrite Hr in Hfits. }
  rewrite Hr in Hanswer. destruct Hanswer as [_ Hv0]. destruct B6 as [Hv6|Hst].
  - rewrite Hv6, Hv0. by left.
  - pose proof Hst as (x & c & Hx & Hc & Hg). rewrite B1 in Hx. injection Hx as <-. rewrite Hc.
    unfold good in Hg. rewrite Hr in Hg. destruct Hg as [Ht Hn]. rewrite Ht, Hn. cbn [orb andb].
    destruct (Version c <? Version ent); [by left|by right].
Qed.

Lemma base_mono b b' e ks : base b e ks -> b <= b' -> base b' e ks.
Proof. intros [B1 B2 B3 B4 B5 B6 B7 B8] Hb. split; try done; [lia|]. intros c Hc. specialize (B8 c Hc). lia. Qed.

Lemma reader_payload b e t : reader_ok b e t -> payload_ok (t_at t).
Proof.
  pose proof Hanswer as Ha. unfold reader_ok. destruct (t_at t); try done; cbn.
  1,2: intros [-> _]; revert Ha; destruct r0; [by intros [? _]|done..].
  1,2: intros H; rewrite H in Ha; apply Ha.
  intros [H _]. rewrite H in Ha. apply Ha.
Qed.

Lemma loaded_value b e t val : r0 = Loaded val -> settled e -> reader_ok b e (at_point t (loaded t (inl val))).
Proof. intros Hr Hs. unfold loaded. destruct (t_kind t) eqn:Ek; cbn; [|done]. unfold okAns. cbn. by rewrite Ek. Qed.

Lemma loaded_missing b e t : r0 = LoadNotFound -> settled e -> reader_ok b e (at_point t (loaded t (inr ErrNotFound))).
Proof. intros Hr Hs. unfold loaded. destruct (t_kind t) eqn:Ek; cbn; [|done]. unfold okAns. cbn. rewrite Ek. by right. Qed.

Lemma loaded_refused b e t : reader_ok b e (at_point t (loaded t (inr ErrUnavailable))).
Proof. unfold loaded. destruct (t_kind t) eqn:Ek; cbn; unfold okAns; cbn; rewrite Ek; by left. Qed.

Lemma found_good t c : good c -> okAns t (found t c).
Proof.
  intros [_ Hg]. unfold found, okAns. destruct (t_kind t); destruct r0 as [val| |]; try done.
  - destruct Hg as [-> <-]. done.
  - rewrite Hg. by right.
  - destruct Hg as [-> <-]. by split.
  - rewrite Hg. right. by split_and!.
Qed.

Lemma good_positive c val : good c -> r0 = Loaded val -> positive (Some c) = Some c /\ Value c = val.
Proof. intros [_ Hg] Hr. rewrite Hr in Hg. destruct Hg as [Hn Hv]. cbn. by rewrite Hn. Qed.

Lemma good_negative c : good c -> r0 = LoadNotFound -> IsNegative c = true.
Proof. intros [_ Hg] Hr. by rewrite Hr in Hg. Qed.

Lemma loaded_not t r : owing (loaded t r) = false /\ asksNext (loaded t r) = false /\ premint (loaded t r) = false.
Proof. unfold loaded. by destruct (t_kind t), r as [?|[]]. Qed.

(** What the next point of a reader satisfies. *)
Definition next_ok (b : Z) (e e' : Engine) (t : Thread) (p : point) : Prop :=
  reader_ok b e' (at_point t p) /\
  (owing (t_at t) = true -> owing p = true \/ settled e') /\
  (asksNext p = true -> asksNext (t_at t) = true \/ (t_at t = PLook /\ ~ settled e)) /\
  (premint p = true -> premint (t_at t) = true).

(** loadThrough is over: the key is settled, or the load was refused. *)
Lemma next_loaded b e e' t r :
  (owing (t_at t) = true -> settled e') -> reader_ok b e' (at_point t (loaded t r)) -> next_ok b e e' t (loaded t r).
Proof.
  intros Ho Hr. destruct (loaded_not t r) as (H1 & H2 & H3). split_and!; [done|auto|by rewrite H2|by rewrite H3].
Qed.

(** Sections that leave the key alone. *)
Lemma section_reader b e ks t p e' :
  t_key t = k -> base b e ks -> reader_ok b e t -> writes (t_at t) = false -> (settled e -> settled e') ->
  section now n t e = Some (p, e') -> next_ok b e e' t p.
Proof.
  intros Hk Hb Hr Hw Hs H. pose proof (ba_ks _ _ _ Hb) as Hks. unfold section in H. rewrite Hks, Hk in H.
  destruct (Get now (kstore ks) k) as [got mg] eqn:EG. pose proof (get_base b e ks got mg Hb EG) as Hg.
  unfold reader_ok in Hr. unfold next_ok. destruct (t_at t) eqn:Ep; try done; cbv zeta in H.
  - destruct Hg as [(c & -> & Hg & _)|(-> & _)]; injection H as <- <-; (split_and!; try done). left. exact (found_good t c Hg).
  - destruct Hg as [(c & -> & Hg & _)|(-> & Hn & _)]; injection H as <- <-; (split_and!; try done); [exact (found_good t c Hg)|auto].
  - destruct (global_allow now e) as [r e2]. injection H as <- <-. destruct r; [|by split_and!; auto].
    rewrite <- Ep. apply next_loaded; [by rewrite Ep|apply loaded_refused].
  - destruct (Allow now (guard ks)) as [r g]. injection H as <- <-. destruct r; [|by split_and!; auto].
    rewrite <- Ep. apply next_loaded; [by rewrite Ep|apply loaded_refused].
  - pose proof Hanswer as Ha. rewrite Hr in Ha. destruct Ha as [Ht Hv0]. rewrite (ba_cfg _ _ _ Hb) in H.
    destruct (Z.leb_spec (NegativeTTL C) 0); [lia|]. destruct (Peek now (kstore ks) k) as [cur m] eqn:E.
    apply Peek_reads in E as [-> _]; [|apply Hb]. injection H as <- <-.
    assert (match view now (kstore ks) !! k with Some c => negb (IsNegative c) | None => false end = false) as ->.
    { destruct Hg as [(c & -> & Hg & (x & c' & Hx & Hc' & Hg'))|(_ & _ & ->)]; [|by rewrite Hv0].
      rewrite Hks in Hx. injection Hx as <-. rewrite Hc'. by rewrite (good_negative c'). }
    by split_and!; auto.
  - injection H as <- <-. destruct Hr as [Hr Hst]. split; [split; [congruence|auto]|by split_and!; auto].
  - injection H as <- <-. destruct Hr as [-> Hst]. split; [split; auto|]. split_and!; destruct r0; auto.
  - destruct Hr as [-> Hst]. pose proof Hanswer as Ha. destruct r0 as [val| |] eqn:Er; [|injection H as <- <-|done].
    + destruct Ha as [_ Ha]. rewrite Ha in H; [|apply Hb|apply Hb]. injection H as <- <-. split; [done|by split_and!; auto].
    + split; [split; auto|by split_and!; auto].
  - destruct Hr as [Hr Hst]. destruct Hg as [(c & -> & Hg & _)|(_ & Hn & _)]; [|done]. injection H as <- <-.
    cbn [positive]. rewrite (good_negative c) by done. rewrite <- Ep. apply next_loaded; [auto|]. apply loaded_missing; auto.
  - destruct Hg as [(c & -> & Hg & Hst)|(-> & Hn & _)].
    + destruct (good_positive c val Hg Hr) as [Hp Hv]. rewrite Hp, Hv in H. injection H as <- <-.
      rewrite <- Ep. apply next_loaded; [auto|]. apply loaded_value; auto.
    + injection H as <- <-. by split_and!; auto.
  - injection H as <- <-. destruct Hr as [Hr Hst]. rewrite <- Ep. apply next_loaded; [auto|]. apply loaded_value; auto.
  - destruct Hr as [Hr Hst]. destruct Hg as [(c & -> & Hg & _)|(_ & Hn & _)]; [|done].
    destruct (good_positive c val Hg Hr) as [Hp Hv]. rewrite Hp, Hv in H. injection H as <- <-.
    rewrite <- Ep. apply next_loaded; [auto|]. apply loaded_value; auto.
  - destruct Hr as (Hkd & Hr & Hst). destruct Hg as [(c & -> & Hg & _)|(_ & Hn & _)]; [|done]. injection H as <- <-.
    rewrite (good_negative c) by done. split; [|done]. cbn. unfold okAns. cbn. rewrite Hkd. right. split_and!; [done|done|by apply good_negative].
  - destruct Hr as (Hkd & Hr & Hst). destruct Hg as [(c & -> & Hg & _)|(_ & Hn & _)]; [|done].
    destruct (good_positive c val Hg Hr) as [Hp Hv]. rewrite Hp in H. injection H as <- <-. split; [|done].
    cbn. unfold okAns. cbn. rewrite Hkd, Hv. split; [done|]. cbn in Hp. by destruct (IsNegative c).
  - assert (Hok : forall p0, okAns (at_point t p0) r) by (intros p0; exact Hr).
    assert (Hret : p = PDone r \/ (t_cancel t = true /\ p = PDone (cancelAns t))).
    { unfold okAns in Hr. unfold cancelAns. destruct r as [[v|err]|ent [err|]]; destruct (t_kind t); try done.
      - injection H as <- <-. destruct (t_cancel t); auto.
      - injection H as <- <-. auto.
      - destruct Hr as [[-> ->]|(_ & -> & Hn)]; [injection H as <- <-; auto|]. rewrite Hn in H. injection H as <- <-. auto.
      - injection H as <- <-. destruct (t_cancel t); auto. }
    destruct Hret as [-> |[Hc ->]]; (split; [|done]); cbn; [left; apply Hok|right; by split].
Qed.


(** The bound on the versions after a section. *)
Definition bound_after (b : Z) (p p' : point) : Z := b + (Z.b2z (premint p) - Z.b2z (premint p')).

Lemma section_herd b e ks t p e' :
  t_key t = k -> base b e ks -> 0 <= b < MaxUint64 -> reader_ok b e t -> section now n t e = Some (p, e') ->
  let b' := bound_after b (t_at t) p in
  b <= b' /\ (exists ks', base b' e' ks') /\ onward e e' /\ next_ok b' e e' t p.
Proof.
  intros Hk Hb Hbb Hr H b'. destruct (writes (t_at t)) eqn:Hw.
  - pose proof (ba_ks _ _ _ Hb) as Hks. unfold section in H. rewrite Hks, Hk in H. unfold b', next_ok.
    unfold reader_ok in Hr. destruct (t_at t) eqn:Ep; try done; cbv zeta in H.
    + destruct (nextVersion now ks k 0) as [v ks'] eqn:E. injection H as <- <-.
      destruct (mint_base b e ks v ks' Hb Hbb E) as (H1 & H2 & H3 & H4). unfold bound_after. cbn.
      split; [lia|]. split; [by exists ks'|]. split; [done|]. split; [by split_and!; auto|by split_and!; auto].
    + destruct (AcceptNegative _ _ _ _) as [ok m] eqn:E. injection H as <- <-. destruct Hr as (Hr & Hv & Hor).
      destruct (negative_settles b e ks v ok m Hb Hr Hv Hor E) as (H1 & H2 & H3).
      assert (bound_after b (PNegAccept v) (if ok then PNegSend (mkEntry [] v (expireAt now (NegativeTTL (cfg ks))) FlagNegative) else PReportG LoadNotFound) = b) as -> by (unfold bound_after; destruct ok; cbn; lia).
      split; [lia|]. split; [by eexists|]. split; [done|]. destruct ok; (split; [split; congruence || auto|]); by split_and!; auto.
    + destruct (nextVersion now ks k 0) as [v ks'] eqn:E. injection H as <- <-.
      destruct (mint_base b e ks v ks' Hb Hbb E) as (H1 & H2 & H3 & H4). unfold bound_after. cbn.
      split; [lia|]. split; [by exists ks'|]. split; [done|]. split; [by split_and!; auto|by split_and!; auto].
    + destruct (AcceptIfNewer _ _ _ _) as [ok m] eqn:E. injection H as <- <-. destruct Hr as (Hr & Hv & Hor).
      destruct (accept_settles b e ks val v ok m Hb Hr Hv Hor E) as (H1 & H2 & H3).
      assert (bound_after b (PAccept val v) (if ok then PSend val (mkEntry val v (expireAt now (TTL (cfg ks))) 0) else PAgain val) = b) as -> by (unfold bound_after; destruct ok; cbn; lia).
      split; [lia|]. split; [by eexists|]. split; [done|]. destruct ok; (split; [by split|]); by split_and!; auto.
  - assert (Hc : calm e e') by (eapply section_calm; [done|by eapply reader_payload|by right]).
    destruct (settled_calm b e ks e' Hb Hc) as [Hon [ks' Hb']].
    destruct (section_reader b e ks t p e' Hk Hb Hr Hw (proj1 Hon) H) as (H1 & H2 & H3 & H4).
    assert (Hle : b <= b').
    { unfold b', bound_after. destruct (premint p); [rewrite H4 by done|]; destruct (premint (t_at t)); cbn; lia. }
    split; [done|]. split; [exists ks'; by eapply base_mono|]. split; [done|]. split; [|by split_and!].
    eapply reader_onward; [|exact Hle|exact H1]. split; auto.
Qed.

(** *** The goroutines together *)

Context {F : Type} `{!FlightGroup F}.
Context (answers : bytes -> LoadResult -> Prop) (others : Engine -> Engine -> Prop).
Abbreviation FWorld := (FWorld (F := F)).

Hypothesis Hanswers : forall res, answers k res -> res = r0.
Hypothesis Hpayload : forall key val, answers key (Loaded val) -> bytes_ok val.
Hypothesis Hothers : forall e e', others e e' -> calm e e'.
Hypothesis Hroom : 0 <= V0 /\ V0 + 2 < MaxUint64.

Definition fkey (kd : ReadKind) : bytes := flightKey (mkThread kd k false PStart).

Lemma flightKey_fkey t kd : flightKey t = fkey kd <-> t_kind t = kd /\ t_key t = k.
Proof.
  unfold flightKey, fkey. cbn. destruct (t_kind t), kd; cbn; split; try (intros [=]; by subst); by intros [? ->].
Qed.

Lemma flightKey_same t u : flightKey t = flightKey u -> t_kind t = t_kind u /\ t_key t = t_key u.
Proof. unfold flightKey. destruct (t_kind t), (t_kind u); cbn; intros [=]; done. Qed.

(** How often the source was asked for [k] in flights of one kind. *)
Definition asked (kd : ReadKind) (a : list bytes) : nat := length (filter (fun x => x = fkey kd) a).
Definition pend (t : Thread) : nat := if bool_decide (t_key t = k) && premint (t_at t) then 1 else 0.
Definition bnd (a : list bytes) (ts : list Thread) : Z :=
  V0 + Z.of_nat (asked KGet a + asked KGol a) - Z.of_nat (sum_list_with pend ts).

Record herd_ok (w : FWorld) : Prop := {
  ho_flights : flights_ok w;
  ho_base : exists ks, base (bnd (fw_asked w) (fw_threads w)) (fw_eng w) ks;
  ho_reader i t : fw_threads w !! i = Some t -> t_key t = k -> reader_ok (bnd (fw_asked w) (fw_threads w)) (fw_eng w) t;
  ho_payload i t : fw_threads w !! i = Some t -> payload_ok (t_at t);
  ho_once kd : (asked kd (fw_asked w) <= 1)%nat;
  ho_owed kd : asked kd (fw_asked w) = 1%nat -> settled (fw_eng w) \/
    exists i t, fw_threads w !! i = Some t /\ flightKey t = fkey kd /\ owing (t_at t) = true;
  ho_next i t kd : fw_threads w !! i = Some t -> asksNext (t_at t) = true -> flightKey t = fkey kd ->
    asked kd (fw_asked w) = 0%nat;
}.

Lemma sum_insert (f : Thread -> nat) ts i t u :
  ts !! i = Some t -> (sum_list_with f (<[i := u]> ts) + f t = sum_list_with f ts + f u)%nat.
Proof.
  revert i. induction ts as [|x ts IH]; intros [|i] Hi; try done.
  - injection Hi as ->. cbn. lia.
  - specialize (IH i Hi). change (<[S i := u]> (x :: ts)) with (x :: <[i := u]> ts). cbn in *. lia.
Qed.

Lemma insert_cases (ts : list Thread) (i : nat) t p (j : nat) u :
  ts !! i = Some t -> <[i := at_point t p]> ts !! j = Some u -> (j = i /\ u = at_point t p) \/ (j <> i /\ ts !! j = Some u).
Proof.
  intros Hi Hu. destruct (decide (j = i)) as [->|Hne].
  - rewrite list_lookup_insert_eq in Hu by (by eapply lookup_lt_Some). injection Hu as <-. by left.
  - rewrite list_lookup_insert_ne in Hu by done. by right.
Qed.

(** One goroutine moves from [t_at t] to [p]. *)
Lemma herd_move e f ts a e' f' a' i t p :
  herd_ok (mkFW e f ts a) -> ts !! i = Some t -> flights_ok (mkFW e' f' (<[i := at_point t p]> ts) a') ->
  (exists ks', base (bnd a' (<[i := at_point t p]> ts)) e' ks') -> onward e e' ->
  bnd a ts <= bnd a' (<[i := at_point t p]> ts) -> payload_ok p ->
  (t_key t = k -> reader_ok (bnd a' (<[i := at_point t p]> ts)) e' (at_point t p)) ->
  (forall kd, (asked kd a' <= 1)%nat) ->
  (forall kd, asked kd a' = 1%nat -> asked kd a = 1%nat \/ (flightKey t = fkey kd /\ owing p = true)) ->
  (t_key t = k -> owing (t_at t) = true -> owing p = true \/ settled e') ->
  (forall kd, asksNext p = true -> flightKey t = fkey kd -> asked kd a' = 0%nat) ->
  (forall j u kd, j <> i -> ts !! j = Some u -> asksNext (t_at u) = true -> flightKey u = fkey kd -> asked kd a' = 0%nat) ->
  herd_ok (mkFW e' f' (<[i := at_point t p]> ts) a').
Proof.
  intros [H1 H2 H3 H4 H5 H6 H7] Hi Hf Hb Hon Hle Hpay Hread Honce Howed Howe Hnext Hrest. cbn [fw_eng fw_threads fw_asked] in *.
  split; cbn [fw_eng fw_threads fw_asked]; [done|done| | |done| |].
  - intros j u Hu Hk. destruct (insert_cases ts i t p j u Hi Hu) as [[-> ->]|[Hne Hj]]; [by apply Hread|].
    eapply reader_onward; [done|exact Hle|by eapply H3].
  - intros j u Hu. destruct (insert_cases ts i t p j u Hi Hu) as [[-> ->]|[Hne Hj]]; [done|by eapply H4].
  - assert (Hnew : <[i := at_point t p]> ts !! i = Some (at_point t p)) by (apply list_lookup_insert_eq; by eapply lookup_lt_Some).
    intros kd Ha. destruct (Howed kd Ha) as [Ha'|[Hk Hp]]; [|right; by exists i, (at_point t p)].
    destruct (H6 kd Ha') as [Hs|(j & u & Hj & Hk & Ho)]; [left; by apply Hon|].
    destruct (decide (j = i)) as [->|Hne].
    + rewrite Hi in Hj. injection Hj as <-. destruct Howe as [Hp|Hs]; [by apply flightKey_fkey in Hk as [_ ?]|done| |by left].
      right. by exists i, (at_point t p).
    + right. exists j, u. by rewrite list_lookup_insert_ne.
  - intros j u kd Hu Hn Hk. destruct (insert_cases ts i t p j u Hi Hu) as [[-> ->]|[Hne Hj]]; [by apply Hnext|by eapply Hrest].
Qed.

Lemma onward_refl e : onward e e.
Proof. split; auto. Qed.

(** The goroutine keeps or loses a pending mint. *)
Lemma bnd_insert a ts i t p :
  ts !! i = Some t ->
  bnd a (<[i := at_point t p]> ts) = bnd a ts + Z.of_nat (pend t) - Z.of_nat (pend (at_point t p)).
Proof. intros Hi. pose proof (sum_insert pend ts i t (at_point t p) Hi). unfold bnd. lia. Qed.

Lemma bnd_small a ts : (forall kd, (asked kd a <= 1)%nat) -> bnd a ts < MaxUint64.
Proof. intros H. pose proof (H KGet). pose proof (H KGol). unfold bnd. lia. Qed.

Lemma base_nonneg b e ks : base b e ks -> 0 <= b.
Proof. intros Hb. pose proof (ba_last _ _ _ Hb). lia. Qed.

(** Nobody else is inside the flight of a goroutine that is. *)
Lemma alone_inside (w : FWorld) i j t u :
  flights_ok w -> fw_threads w !! i = Some t -> fw_threads w !! j = Some u -> flightKey t = flightKey u ->
  inside (t_at t) = true -> inside (t_at u) = true -> i = j.
Proof. intros Hf Hi Hj Hk Ht Hu. apply (fo_one _ Hf (flightKey t)); [by exists t|by exists u]. Qed.

Lemma owing_inside p : owing p = true -> inside p = true.
Proof. destruct p; try done; by destruct res. Qed.
Lemma asksNext_inside p : asksNext p = true -> inside p = true.
Proof. by destruct p. Qed.

Lemma herd_section e f ts a i t p e' :
  herd_ok (mkFW e f ts a) -> ts !! i = Some t -> section now n t e = Some (p, e') ->
  herd_ok (mkFW e' f (<[i := at_point t p]> ts) a).
Proof.
  intros H Hi Hs. pose proof H as [H1 [ks H2] H3 H4 H5 H6 H7]. cbn [fw_eng fw_threads fw_asked] in *.
  pose proof (section_inside _ _ _ _ _ _ Hs) as (Hin & Hnw & _).
  assert (Hf : flights_ok (mkFW e' f (<[i := at_point t p]> ts) a)) by (by eapply flights_ok_local).
  pose proof (section_payload _ _ _ _ Hs (H4 i t Hi)) as Hpay.
  destruct (decide (t_key t = k)) as [Hk|Hk].
  - destruct (section_herd (bnd a ts) e ks t p e' Hk H2) as (Hle & Hb & Hon & Hr & Ho & Hn & Hp);
      [split; [by eapply base_nonneg|by apply bnd_small]|by eapply H3|done|].
    assert (Hbe : bound_after (bnd a ts) (t_at t) p = bnd a (<[i := at_point t p]> ts)).
    { rewrite bnd_insert by done. unfold bound_after, pend. cbn [t_key t_at at_point]. rewrite bool_decide_eq_true_2 by done.
      clear. destruct (premint (t_at t)), (premint p); cbn; lia. }
    rewrite Hbe in *. apply (herd_move e f ts a e' f a i t p); auto.
    + intros kd Hq Hkd. destruct (Hn Hq) as [Hq'|[Hat Hns]]; [by eapply H7|].
      destruct (asked kd a) as [|x] eqn:Ea; [done|]. exfalso. specialize (H5 kd). rewrite Ea in H5.
      destruct (H6 kd) as [Hset|(j & u & Hj & Hku & Hou)]; [rewrite Ea; clear -H5; lia|done|].
      assert (i = j) as <-.
      { eapply (alone_inside (mkFW e f ts a)); [done|exact Hi|exact Hj|congruence|by rewrite Hat|by apply owing_inside]. }
      cbn in Hj. rewrite Hi in Hj. injection Hj as <-. by rewrite Hat in Hou.
    + intros j u kd _ Hj. by eapply H7.
  - assert (Hc : calm e e') by (eapply section_calm; [done|by eapply H4|by left]).
    destruct (settled_calm _ e ks e' H2 Hc) as [Hon Hb].
    assert (Hbe : bnd a (<[i := at_point t p]> ts) = bnd a ts).
    { rewrite bnd_insert by done. unfold pend. cbn [t_key at_point]. rewrite bool_decide_eq_false_2 by done. cbn. lia. }
    apply (herd_move e f ts a e' f a i t p); rewrite ?Hbe; auto; try done; try lia.
    + intros kd _ Hkd. apply flightKey_fkey in Hkd as [_ ?]. done.
    + intros j u kd _ Hj. by eapply H7.
Qed.

(** Steps at which the engine stays as it is and nothing is pending or owed. *)
Lemma herd_idle e f ts a f' i t p :
  herd_ok (mkFW e f ts a) -> ts !! i = Some t -> flights_ok (mkFW e f' (<[i := at_point t p]> ts) a) ->
  premint p = premint (t_at t) -> owing p = owing (t_at t) -> payload_ok p -> asksNext p = false ->
  (t_key t = k -> reader_ok (bnd a ts) e (at_point t p)) ->
  herd_ok (mkFW e f' (<[i := at_point t p]> ts) a).
Proof.
  intros H Hi Hf Hpm Ho Hpay Hn Hr. pose proof H as [H1 H2 H3 H4 H5 H6 H7]. cbn [fw_eng fw_threads fw_asked] in *.
  assert (Hbe : bnd a (<[i := at_point t p]> ts) = bnd a ts).
  { rewrite bnd_insert by done. unfold pend. cbn [t_key t_at at_point]. rewrite Hpm. lia. }
  apply (herd_move e f ts a e f' a i t p); rewrite ?Hbe; auto using onward_refl; [done|..].
  - intros _. rewrite Ho. by left.
  - intros kd. by rewrite Hn.
  - intros j u kd _ Hj. by eapply H7.
Qed.

Lemma asked_cons kd x a : asked kd (x :: a) = ((if bool_decide (x = fkey kd) then 1 else 0) + asked kd a)%nat.
Proof. unfold asked. cbn. case_bool_decide as H; [rewrite decide_True by done|rewrite decide_False by done]; done. Qed.

Lemma herd_ask e f ts a i t :
  herd_ok (mkFW e f ts a) -> ts !! i = Some t -> t_at t = PAsk ->
  herd_ok (mkFW e f (<[i := at_point t PAsking]> ts) (flightKey t :: a)).
Proof.
  intros H Hi Hp. pose proof H as [H1 H2 H3 H4 H5 H6 H7]. cbn [fw_eng fw_threads fw_asked] in *.
  assert (Hf : flights_ok (mkFW e f (<[i := at_point t PAsking]> ts) (flightKey t :: a))).
  { eapply flights_ok_local; [done|done|by rewrite Hp|done]. }
  assert (Hz : forall kd, flightKey t = fkey kd -> asked kd a = 0%nat) by (intros kd; eapply H7; [done|by rewrite Hp]).
  assert (Hbe : bnd (flightKey t :: a) (<[i := at_point t PAsking]> ts) = bnd a ts).
  { pose proof (sum_insert pend ts i t (at_point t PAsking) Hi) as Hsum. unfold bnd. rewrite !asked_cons.
    unfold pend in Hsum at 2 4. cbn [t_key t_at at_point premint] in Hsum. rewrite Hp, andb_false_r, andb_true_r in Hsum.
    assert (Hb : ((if bool_decide (flightKey t = fkey KGet) then 1 else 0) + (if bool_decide (flightKey t = fkey KGol) then 1 else 0) =
      if bool_decide (t_key t = k) then 1 else 0)%nat).
    { clear. rewrite (bool_decide_ext _ _ (flightKey_fkey t KGet)), (bool_decide_ext _ _ (flightKey_fkey t KGol)).
      destruct (decide (t_key t = k)) as [Hk|Hk]; destruct (t_kind t).
      all: repeat (first [rewrite bool_decide_eq_true_2 by done | rewrite bool_decide_eq_false_2 by naive_solver]); done. }
    clear -Hsum Hb. lia. }
  apply (herd_move e f ts a e f _ i t PAsking); rewrite ?Hbe; auto using onward_refl; try done.
  - intros kd. rewrite asked_cons. case_bool_decide as Hc; [by rewrite Hz|apply H5].
  - intros kd. rewrite asked_cons. case_bool_decide as Hc; [by right|by left].
  - intros j u kd Hne Hj Hn Hk. rewrite asked_cons, (H7 j u kd) by done. rewrite bool_decide_eq_false_2; [done|].
    intros Hc. apply Hne. symmetry. eapply (alone_inside (mkFW e f ts a)); [done|exact Hi|exact Hj|congruence|by rewrite Hp|by apply asksNext_inside].
Qed.

Lemma herd_answer e f ts a i t res :
  herd_ok (mkFW e f ts a) -> ts !! i = Some t -> t_at t = PAsking -> answers (t_key t) res ->
  herd_ok (mkFW e f (<[i := at_point t (afterLoad res)]> ts) a).
Proof.
  intros H Hi Hp Ha. pose proof (ho_flights _ H) as H1.
  assert (Hf : flights_ok (mkFW e f (<[i := at_point t (afterLoad res)]> ts) a)).
  { eapply flights_ok_local; [done|done|rewrite Hp; by destruct res|by destruct res]. }
  destruct (decide (t_key t = k)) as [Hk|Hk].
  - assert (res = r0) as -> by (apply Hanswers; by rewrite <- Hk). pose proof Hanswer as Hr.
    destruct r0 as [val| |] eqn:Er; [| |done]; apply (herd_idle e f); rewrite ?Hp; try done; cbn; try apply Hr.
  - pose proof H as [_ [ks H2] H3 H4 H5 H6 H7]. cbn [fw_eng fw_threads fw_asked] in *.
    assert (Hbe : bnd a (<[i := at_point t (afterLoad res)]> ts) = bnd a ts).
    { rewrite bnd_insert by done. unfold pend. cbn [t_key at_point]. rewrite bool_decide_eq_false_2 by done. cbn. lia. }
    apply (herd_move e f ts a e f a i t (afterLoad res)); rewrite ?Hbe; auto using onward_refl; try done; try (by exists ks).
    + destruct res; try done. by eapply Hpayload.
    + intros kd _ Hkd. apply flightKey_fkey in Hkd as [_ ?]. done.
    + intros j u kd _ Hj. by eapply H7.
Qed.

Lemma release_same fk r t :
  t_key (release fk r t) = t_key t /\ t_kind (release fk r t) = t_kind t /\ flightKey (release fk r t) = flightKey t /\
  premint (t_at (release fk r t)) = premint (t_at t) /\ owing (t_at (release fk r t)) = owing (t_at t) /\
  asksNext (t_at (release fk r t)) = asksNext (t_at t) /\ (payload_ok (t_at t) -> payload_ok (t_at (release fk r t))).
Proof.
  unfold release. destruct (t_at t) eqn:E; rewrite ?E; try done. destruct (bool_decide _); cbn; rewrite ?E; done.
Qed.

Lemma pend_release fk r ts : sum_list_with pend (map (release fk r) ts) = sum_list_with pend ts.
Proof.
  induction ts as [|t ts IH]; cbn; [done|]. rewrite IH. f_equal. unfold pend.
  by destruct (release_same fk r t) as (-> & _ & _ & -> & _).
Qed.

Lemma herd_leave e f ts a i t r :
  herd_ok (mkFW e f ts a) -> ts !! i = Some t -> t_at t = PLeave r ->
  herd_ok (mkFW e (fl_leave f (flightKey t)) (map (release (flightKey t) r) (<[i := at_point t (PGot r)]> ts)) a).
Proof.
  intros H Hi Hp. pose proof H as [H1 H2 H3 H4 H5 H6 H7]. cbn [fw_eng fw_threads fw_asked] in *.
  pose proof (flights_ok_leave e f ts a i t r H1 Hi Hp) as Hf.
  assert (Hr : t_key t = k -> okAns t r) by (intros Hk; specialize (H3 i t Hi Hk); unfold reader_ok in H3; by rewrite Hp in H3).
  set (ts1 := <[i := at_point t (PGot r)]> ts) in *.
  assert (Hbe : bnd a (map (release (flightKey t) r) ts1) = bnd a ts).
  { unfold bnd. rewrite pend_release. pose proof (sum_insert pend ts i t (at_point t (PGot r)) Hi) as Hsum.
    fold ts1 in Hsum. unfold pend in Hsum at 2 4. cbn [t_key t_at at_point premint] in Hsum. rewrite Hp, !andb_false_r in Hsum.
    clear -Hsum. lia. }
  assert (Hlook : forall j u, map (release (flightKey t) r) ts1 !! j = Some u -> exists x, ts1 !! j = Some x /\ u = release (flightKey t) r x).
  { intros j u Hu. rewrite list_lookup_fmap in Hu. by apply fmap_Some in Hu. }
  split; cbn [fw_eng fw_threads fw_asked]; rewrite ?Hbe; [done|done| | |done| |].
  - intros j u Hu Hk. apply Hlook in Hu as (x & Hx & ->). destruct (release_same (flightKey t) r x) as (Hkx & _).
    rewrite Hkx in Hk. destruct (insert_cases ts i t (PGot r) j x Hi Hx) as [[-> ->]|[Hne Hj]]; [exact (Hr Hk)|].
    specialize (H3 j x Hj Hk). unfold release. destruct (t_at x) eqn:Ex; try done. case_bool_decide as Hc; [|done].
    apply flightKey_same in Hc as [Hkd Hky]. cbn. unfold okAns. cbn [t_kind at_point]. rewrite Hkd. apply Hr. congruence.
  - intros j u Hu. apply Hlook in Hu as (x & Hx & ->). apply release_same.
    destruct (insert_cases ts i t (PGot r) j x Hi Hx) as [[-> ->]|[Hne Hj]]; [done|by eapply H4].
  - intros kd Ha. destruct (H6 kd Ha) as [Hs|(j & u & Hj & Hk & Ho)]; [by left|right].
    exists j, (release (flightKey t) r u). destruct (release_same (flightKey t) r u) as (_ & _ & -> & _ & -> & _).
    split_and!; try done. rewrite list_lookup_fmap. unfold ts1. rewrite list_lookup_insert_ne; [by rewrite Hj|].
    intros <-. rewrite Hi in Hj. injection Hj as <-. by rewrite Hp in Ho.
  - intros j u kd Hu Hn Hk. apply Hlook in Hu as (x & Hx & ->). destruct (release_same (flightKey t) r x) as (_ & _ & Hkx & _ & _ & Hnx & _).
    rewrite Hkx in Hk. rewrite Hnx in Hn.
    destruct (insert_cases ts i t (PGot r) j x Hi Hx) as [[-> ->]|[Hne Hj]]; [done|by eapply H7].
Qed.

Lemma herd_step (w w' : FWorld) : fstep now n answers others w w' -> herd_ok w -> herd_ok w'.
Proof.
  intros [x y H|e e' f ts a Ho] Hok.
  - destruct H as [e f ts a i t p e' Hi Hs|e f ts a i t b f' Hi Hp He|e f ts a i t Hi Hp|e f ts a i t res Hi Hp Ha|e f ts a i t r Hi Hp].
    + by eapply herd_section.
    + pose proof (flights_ok_do e f ts a i t b f' (ho_flights _ Hok) Hi Hp He) as Hf.
      apply (herd_idle e f); auto; rewrite ?Hp; by destruct b.
    + by apply herd_ask.
    + by eapply herd_answer.
    + by apply herd_leave.
  - destruct Hok as [H1 [ks H2] H3 H4 H5 H6 H7]. cbn [fw_eng fw_threads fw_asked] in *.
    destruct (settled_calm _ e ks e' H2 (Hothers e e' Ho)) as [Hon Hb].
    split; cbn [fw_eng fw_threads fw_asked]; auto; [by destruct H1| |].
    + intros i t Hi Hk. eapply reader_onward; [done|done|by eapply H3].
    + intros kd Ha. destruct (H6 kd Ha) as [Hs|Hx]; [left; by apply Hon|by right].
Qed.

Lemma herd_started e ks ts :
  base V0 e ks -> Forall (fun t => t_at t = PStart) ts -> herd_ok (started e ts).
Proof.
  intros Hb Hs. pose proof (started_ok e ts Hs) as Hf. rewrite Forall_lookup in Hs.
  assert (Hp : sum_list_with pend ts = 0%nat).
  { clear -Hs. induction ts as [|t ts IH]; [done|]. cbn. rewrite IH by (intros i u Hi; apply (Hs (S i) u Hi)).
    unfold pend. by rewrite (Hs 0%nat t eq_refl), andb_false_r. }
  assert (Hbe : bnd [] ts = V0) by (unfold bnd, asked; rewrite Hp; cbn; lia).
  split; cbn [fw_eng fw_threads fw_asked started]; rewrite ?Hbe; [done|by exists ks| | |intros kd; apply Nat.le_0_l|done|].
  - intros i t Hi _. unfold reader_ok. by rewrite (Hs i t Hi).
  - intros i t Hi. by rewrite (Hs i t Hi).
  - intros i t kd Hi Hn. by rewrite (Hs i t Hi) in Hn.
Qed.

End herd.

(** ** The properties *)

(** Runs with the number of steps the goroutines made themselves. *)
Inductive frun {F} `{!FlightGroup F} (now : Z) (n : bytes) (answers : bytes -> LoadResult -> Prop)
    (others : Engine -> Engine -> Prop) : nat -> FWorld (F := F) -> FWorld (F := F) -> Prop :=
  | frun_refl w : frun now n answers others 0 w w
  | frun_goes m w1 w2 w3 : goes now n answers w1 w2 -> frun now n answers others m w2 w3 -> frun now n answers others (S m) w1 w3
  | frun_others m e e' f ts a w : others e e' -> frun now n answers others m (mkFW e' f ts a) w ->
      frun now n answers others m (mkFW e f ts a) w.

Lemma section_ks now n t e p e' : section now n t e = Some (p, e') -> is_Some (getKS e' n).
Proof.
  unfold section. destruct (getKS e n) as [ks|] eqn:Hks; [|done].
  assert (Hw : forall x, is_Some (getKS (with_ks e n x) n)) by (intros x; exists x; apply lookup_insert_eq).
  assert (Hr : forall k ent f, is_Some (getKS (replicate e n k ent f) n)).
  { intros k ent f. assert (Ho : only_ks e n e ks) by (by split). destruct (only_replicate e n e ks k ent f Ho) as [Hh _ _ _ _ _]. by exists ks. }
  destruct (t_at t) eqn:Ep; try done; intros H; unfold global_allow, report_global, report_guard in *;
    repeat match goal with
    | H : context [let '(_, _) := ?x in _] |- _ => destruct x eqn:?
    | H : context [match ?x with _ => _ end] |- _ => destruct x eqn:?
    end; simplify_eq; try done; by exists ks.
Qed.

Lemma goes_ks {F} `{!FlightGroup F} now n answers (w w' : FWorld (F := F)) :
  goes now n answers w w' -> is_Some (getKS (fw_eng w) n) -> is_Some (getKS (fw_eng w') n).
Proof. intros H. destruct H; cbn; try done. intros _. by eapply section_ks. Qed.

Lemma frun_spec {F} `{!FlightGroup F} now n answers (others : Engine -> Engine -> Prop) m (w w' : FWorld (F := F)) :
  frun now n answers others m w w' -> flights_ok w -> is_Some (getKS (fw_eng w) n) ->
  (forall e e', others e e' -> is_Some (getKS e n) -> is_Some (getKS e' n)) ->
  flights_ok w' /\ is_Some (getKS (fw_eng w') n) /\ (m + work w' <= work w)%nat.
Proof.
  intros H Hf Hk Ho. induction H as [w|m w1 w2 w3 Hg _ IH|m e e' f ts a w Hoo _ IH]; [done|..].
  - pose proof (goes_work _ _ _ _ _ Hg). destruct IH as (H1 & H2 & H3); [|by eapply goes_ks|split_and!; [done|done|lia]].
    eapply (fstep_flights now n answers others); [by apply fstep_goes|done].
  - apply IH; [by destruct Hf|by apply (Ho e)].
Qed.

Lemma work_started {F} `{!FlightGroup F} e ts :
  Forall (fun t => t_at t = PStart) ts -> work (started (F := F) e ts) = (23 * length ts)%nat.
Proof. intros Hs. unfold work. cbn [fw_threads started]. induction Hs as [|t ts Ht _ IH]; [done|]. cbn in *. rewrite Ht, IH. cbn. lia. Qed.

(** C20: when the data source answers every call, with whatever answer, and
    nobody deletes or replaces the keyspace, then whatever the scheduler does and
    whatever else the node does, of the goroutines that read a key through the
    same kind of call at most one is inside the flight, so at most one of them is
    asking the data source; and no goroutine is stuck: as long as one of them has
    not returned, one of them can make a step, also when the others wait, and
    together they make at most 23 steps each. *)
Theorem flights_return {F} `{!FlightGroup F} now n answers (others : Engine -> Engine -> Prop) e ts m (w : FWorld (F := F)) :
  Forall (fun t => t_at t = PStart) ts -> is_Some (getKS e n) ->
  (forall e e', others e e' -> is_Some (getKS e n) -> is_Some (getKS e' n)) -> (forall k, exists res, answers k res) ->
  frun now n answers others m (started e ts) w ->
  (forall i j t u, fw_threads w !! i = Some t -> fw_threads w !! j = Some u -> flightKey t = flightKey u ->
     inside (t_at t) = true -> inside (t_at u) = true -> i = j) /\
  (Forall (fun t => isDone (t_at t) = true) (fw_threads w) \/ exists w', goes now n answers w w') /\
  (m <= 23 * length ts)%nat.
Proof.
  intros Hs Hk Ho Ha Hr. destruct (frun_spec now n answers others m (started e ts) w Hr) as (H1 & H2 & H3); [by apply started_ok|done|done|].
  rewrite work_started in H3 by done. split_and!; [|by apply not_stuck|lia].
  intros i j t u Hi Hj Hk' Ht Hu. by eapply alone_inside.
Qed.

(** C19: however many goroutines read a key that is missing, at one reading of
    the clock and in whatever interleaving, on a node that loads (single, or the
    owner), in a keyspace without a byte budget that nobody replaces: when the
    source has one answer and nobody else writes the key, the source is asked for
    it at most once by Get and at most once by GetOrLoadLocal, and every call
    returns the answer unless a guard refused the load or the caller's context is
    cancelled.  The answer is a value within the size limit whose TTL fits int64
    (the key may hold a tombstone), or not found, in a keyspace with a negative
    TTL that fits and for a key without a tombstone; it is not a failure. *)
Theorem herd_asks_once {F} `{!FlightGroup F} now n k e ks ts answers (others : Engine -> Engine -> Prop) r0 V0 (w : FWorld (F := F)) :
  getKS e n = Some ks -> store_ok (kstore ks) -> maxBytes (kstore ks) <= 0 ->
  expiry_fits now (match r0 with Loaded _ => TTL (cfg ks) | _ => NegativeTTL (cfg ks) end) ->
  match r0 with
  | Loaded val => bytes_ok val /\ validateValueSize e ks val = None /\ readable now (kstore ks) k = None
  | LoadNotFound => 0 < NegativeTTL (cfg ks) /\ view now (kstore ks) !! k = None
  | LoadFailed => False
  end ->
  0 <= default 0 (lastVer ks !! k) <= V0 -> (forall c, view now (kstore ks) !! k = Some c -> Version c <= V0) -> V0 + 2 < MaxUint64 ->
  (forall res, answers k res -> res = r0) -> (forall key val, answers key (Loaded val) -> bytes_ok val) ->
  (forall e e', others e e' -> calm now n k e e') ->
  Forall (fun t => t_at t = PStart) ts -> rtc (fstep now n answers others) (started e ts) w ->
  (asked k KGet (fw_asked w) <= 1)%nat /\ (asked k KGol (fw_asked w) <= 1)%nat /\
  forall t r, t ∈ fw_threads w -> t_key t = k -> t_at t = PDone r -> returns r0 t r.
Proof.
  intros Hks Hok Hmax Hfits Hr0 Hl Hv Hroom Ha Hp Ho Hs Hrun.
  set (v0 := view now (kstore ks) !! k).
  assert (Hun : match v0 with Some c => IsTombstone c = true | None => True end).
  { unfold v0. destruct r0 as [val| |]; [|by destruct Hr0 as [_ ->]|done]. destruct Hr0 as (_ & _ & Hr). unfold readable in Hr.
    destruct (view now (kstore ks) !! k) as [c|]; [|done]. by destruct (IsTombstone c). }
  assert (Hans : match r0 with
    | Loaded val => bytes_ok val /\ forall e1 ks1, cfg ks1 = cfg ks -> maxValueSize e1 = maxValueSize e -> validateValueSize e1 ks1 val = None
    | LoadNotFound => 0 < NegativeTTL (cfg ks) /\ v0 = None | LoadFailed => False end).
  { destruct r0 as [val| |]; try done. destruct Hr0 as (H1 & H2 & _). split; [done|]. intros e1 ks1 Hc Hm.
    by rewrite (validateValueSize_ext e e1 ks ks1). }
  assert (Hb : base now n k r0 (cfg ks) (maxValueSize e) v0 V0 e ks) by (split; auto).
  assert (Hw : herd_ok now n k r0 (cfg ks) (maxValueSize e) v0 V0 w).
  { assert (H0 : herd_ok now n k r0 (cfg ks) (maxValueSize e) v0 V0 (started (F := F) e ts)) by (eapply herd_started; [exact Hb|done]).
    clear -H0 Hrun Hfits Hun Hans Ha Hp Ho Hroom Hl. induction Hrun as [w|w1 w2 w3 Hst _ IH]; [done|]. apply IH.
    eapply (herd_step now n k r0 (cfg ks) (maxValueSize e) v0 V0); eauto. lia. }
  split_and!; [apply Hw|apply Hw|]. intros t r [i Hi]%list_elem_of_lookup Hk Hd.
  pose proof (ho_reader _ _ _ _ _ _ _ _ _ Hw i t Hi Hk) as H. unfold reader_ok in H. by rewrite Hd in H.
Qed.

(** ** A key that was deleted *)

(** NegativeTTL does not protect a deleted key.  While the tombstone lives, a
    load that finds nothing stores no negative entry: storeNegative takes the
    tombstone for a value that a concurrent Put filled in, so the store shows
    the same entries as before and the next read asks the data source again. *)
Theorem deleted_not_cached {W} (env : Env W) now w e n ks key fan w1 e1 h1 c :
  (global_allow now e).1 = None -> (Allow now (guard ks)).1 = None ->
  env_Load env w (admitted_engine now e n ks) n key = (LoadNotFound, w1, e1, h1) -> store_ok (kstore (held_ks h1)) ->
  view now (kstore (held_ks h1)) !! key = Some c -> IsTombstone c = true -> IsNegative c = false ->
  exists e' h', loadThrough env now false w e n ks key fan = (inr ErrNotFound, w1, e', h') /\
    view now (kstore (held_ks h')) = view now (kstore (held_ks h1)) /\ readable now (kstore (held_ks h')) key = None.
Proof.
  intros Hg Hk Hl Hok Hc Ht Hn. rewrite (loadThrough_admitted _ _ _ _ _ _ _ _ _ _ _ _ Hg Hk Hl).
  destruct (storeNegative now e1 n h1 key fan) as [e2 h2] eqn:En.
  apply (storeNegative_live _ _ _ _ _ _ c) in En as [Rv Ro _ _]; [|done..].
  destruct (report true now e2 n h2) as [e3 h3] eqn:Er. apply report_spec in Er as (_ & Es & _).
  destruct (heldGet now e3 n h3 key) as [[r e4] h4] eqn:E4.
  apply heldGet_spec in E4 as (-> & _ & [Rv4 _ _ _] & _); [|by rewrite Es]. rewrite Es, Rv in Rv4.
  assert (Hr : readable now (kstore (held_ks h3)) key = None) by (unfold readable; by rewrite Es, Rv, Hc, Ht).
  exists e4, h4. rewrite Hr. split_and!; [done|done|]. unfold readable. by rewrite Rv4, Hc, Ht.
Qed.

(** ** Witnesses *)

(** Three readers of a missing key, and a schedule in which the second finds the
    first inside the flight and the third looks before the value is stored and
    enters after the flight. *)
Definition wit_readers : list Thread :=
  [mkThread KGet [1] false PStart; mkThread KGet [1] false PStart; mkThread KGol [1] false PStart].
Definition wit_turns : list nat :=
  ([0; 1; 2; 0; 1; 0; 0; 0; 0; 0; 0; 0; 0; 0; 0; 0; 0; 1; 0; 2; 2; 2; 2])%nat.
Definition wit_says (res : LoadResult) : bytes -> LoadResult := fun _ => res.
Definition wit_end : option (FWorld (F := gset bytes)) :=
  schedule 10 [107] (wit_says (Loaded [7])) wit_turns (started (wit_eng None wit_load) wit_readers).

Example wit_end_done :
  (fun w => (map t_at (fw_threads w), fw_asked w)) <$> wit_end =
  Some ([PDone (RGet (inl [7])); PDone (RGet (inl [7])); PDone (RGol (mkEntry [7] 1 0 0) None)], [[103; 101; 116; 58; 1]]).
Proof. vm_compute. reflexivity. Qed.

Definition wit_world : FWorld (F := gset bytes) := default (started (wit_eng None wit_load) []) wit_end.
Lemma wit_herd_run : wit_end = Some wit_world.
Proof. vm_compute. reflexivity. Qed.
Definition wit_answers (k : bytes) (res : LoadResult) : Prop := res = Loaded [7].
Definition wit_others (e e' : Engine) : Prop := False.

Lemma herd_asks_once_witness :
  (asked [1]%Z KGet (fw_asked wit_world) <= 1)%nat /\ (asked [1]%Z KGol (fw_asked wit_world) <= 1)%nat /\
  forall t r, t ∈ fw_threads wit_world -> t_key t = [1]%Z -> t_at t = PDone r -> returns (Loaded [7]) t r.
Proof.
  apply (herd_asks_once 10 [107] [1] (wit_eng None wit_load) wit_load wit_readers wit_answers wit_others (Loaded [7]) 0).
  - reflexivity.
  - apply NewMemory_ok.
  - vm_compute. discriminate.
  - intros H. vm_compute in H. discriminate H.
  - split; [repeat constructor; lia|]. split; [reflexivity|]. vm_compute. reflexivity.
  - vm_compute. split; discriminate.
  - intros c H. vm_compute in H. discriminate H.
  - vm_compute. reflexivity.
  - intros res H. exact H.
  - intros key val [= ->]. repeat constructor; lia.
  - intros e e' [].
  - repeat constructor.
  - apply (schedule_steps 10 [107] (wit_says (Loaded [7])) wit_others wit_turns), wit_herd_run.
Defined.

Lemma schedule_frun {F} `{!FlightGroup F} now n answer others turns (w w' : FWorld (F := F)) :
  schedule now n answer turns w = Some w' -> frun now n (fun k res => res = answer k) others (length turns) w w'.
Proof.
  unfold schedule. revert w. induction turns as [|i turns IH]; cbn; intros w H; [injection H as <-; apply frun_refl|].
  destruct (act now n answer i w) as [w1|] eqn:E.
  - eapply frun_goes; [by eapply act_goes|by apply IH].
  - exfalso. clear -H. induction turns; [done|by apply IHturns].
Qed.

(** Ten turns: the first reader is inside the flight, the second waits. *)
Definition wit_busy : FWorld (F := gset bytes) :=
  default (started (wit_eng None wit_load) []) (schedule 10 [107] (wit_says (Loaded [7])) (take 10 wit_turns) (started (wit_eng None wit_load) wit_readers)).
Lemma wit_busy_run :
  schedule 10 [107] (wit_says (Loaded [7])) (take 10 wit_turns) (started (wit_eng None wit_load) wit_readers) = Some wit_busy.
Proof. vm_compute. reflexivity. Qed.
Example wit_busy_at : map t_at (fw_threads wit_busy) = [PReportG (Loaded [7]); PWait; PDo].
Proof. vm_compute. reflexivity. Qed.

Lemma flights_return_witness :
  (Forall (fun t => isDone (t_at t) = true) (fw_threads wit_busy) \/ exists w', goes 10 [107] wit_answers wit_busy w') /\
  (10 <= 23 * length wit_readers)%nat.
Proof.
  apply (flights_return 10 [107] wit_answers wit_others (wit_eng None wit_load) wit_readers 10 wit_busy).
  - repeat constructor.
  - by eexists.
  - intros e e' [].
  - intros k. by exists (Loaded [7]).
  - apply (schedule_frun 10 [107] (wit_says (Loaded [7])) wit_others (take 10 wit_turns)), wit_busy_run.
Defined.

(** A keyspace with a negative TTL in which key [1] was deleted at version 3, and
    a source that has nothing: two reads ask it twice, and nothing is kept. *)
Definition wit_gone : ksRuntime :=
  mkKS (mkConfig [107] ModeLoadThrough 0 500 0 0 0 None 0 f_zero (mkPConfig f_zero 0 0 0) true 0 0 0 0 0 0 0 0 0 0)
    (AcceptIfNewer 10 (NewMemory 0 0) [1] (mkEntry [] 3 1000 FlagTombstone)).2 wit_guard_off ∅ DefaultMaxVersionKeys.
Definition wit_counting : Env nat :=
  mkEnv nat (fun w _ => (true, w)) (fun w _ _ _ _ _ _ => (true, w)) (fun w _ _ _ => (Some [], w))
    (fun w _ _ _ => (None, w)) (fun w e n _ => (LoadNotFound, S w, e, mkHeld (default wit_blank (getKS e n)) true)).

Example deleted_asks_twice :
  let '(r1, w, e) := Engine_Get wit_counting 10 wit_ctx 0%nat (wit_eng None wit_gone) [107] [1] in
  let '(r2, w, e) := Engine_Get wit_counting 10 wit_ctx w e [107] [1] in
  (r1, r2, w) = (inr ErrNotFound, inr ErrNotFound, 2%nat).
Proof. vm_compute. reflexivity. Qed.

(** The same reads of a key that was never there ask once. *)
Example missing_asks_once :
  let '(r1, w, e) := Engine_Get wit_counting 10 wit_ctx 0%nat (wit_eng None wit_gone) [107] [2] in
  let '(r2, w, e) := Engine_Get wit_counting 10 wit_ctx w e [107] [2] in
  (r1, r2, w) = (inr ErrNotFound, inr ErrNotFound, 1%nat).
Proof. vm_compute. reflexivity. Qed.
