(* ===== verification/Modes.v ===== *)
(** * Typed modes on a node: pkg/engine/modehost.go, pkg/*/eng and ApplyPut

    How the owner of a name mutates a typed value and what it sends to the
    replicas, and what a node does with an entry a peer sent.  Sets, sorted
    sets, geo indexes, hashes and Bloom filters replicate the delta under the
    version the owner chose; lists, counters, JSON documents, bitmaps,
    sketches, streams and vector sets replicate a snapshot of the blob.

    The packages pkg/*/eng all receive a [modeHost]; its methods run in a small
    state monad over the engine and the keyspace it points to. *)
From S2P Require Import Prelude Wire Collections Scored Scalars Json JsonText Sketches.
From S2P Require Import Cms TopK Stream Vecset Store StoreKinds StoreScalars StoreJson.
From S2P Require Import Ring Hints Config Engine.

(** ** The host *)

Record Host := mkHost { h_e : Engine; h_ks : ksRuntime }.

Definition KeyspaceName (h : Host) : bytes := Name (cfg (h_ks h)).

Definition hm (A : Type) : Type := Host -> A * Host.
#[global] Instance hm_ret : MRet hm := fun A a h => (a, h).
#[global] Instance hm_bind : MBind hm := fun A B f x h => let '(a, h) := x h in f a h.

(** h.ks is a pointer into the engine: an update shows there at once. *)
Definition onKS {A} (f : ksRuntime -> A * ksRuntime) : hm A := fun h =>
  let '(a, ks) := f (h_ks h) in (a, mkHost (with_ks (h_e h) (KeyspaceName h) ks) ks).

Definition onStore {A} (f : Memory -> A * Memory) : hm A :=
  onKS (fun ks => let '(a, m) := f (kstore ks) in (a, with_store ks m)).

Definition asks {A} (f : Host -> A) : hm A := fun h => (f h, h).

Definition Host_ExpireAt (now : Z) : hm Z := asks (fun h => expireAt now (TTL (cfg (h_ks h)))).

Definition ObserveVersion (now : Z) (name : bytes) (ver : Z) : hm unit :=
  onKS (fun ks => (tt, observeVersion now ks name ver)).

Definition replicateAs (ksName name : bytes) (ent : Entry) : hm unit := fun h =>
  (tt, mkHost (replicate (h_e h) ksName name ent false) (h_ks h)).
Definition Replicate (name : bytes) (ent : Entry) : hm unit := fun h =>
  replicateAs (KeyspaceName h) name ent h.

Definition NextVersion (now : Z) (name : bytes) : hm Z :=
  ver ← onStore (fun m => PeekVersion now m name);
  onKS (fun ks => nextVersion now ks name (default 0 ver)).

Definition MaxValue (e : Engine) (ks : ksRuntime) : Z :=
  if 0 <? MaxValueSize (cfg ks) then MaxValueSize (cfg ks) else maxValueSize e.
Definition Host_MaxValue : hm Z := asks (fun h => MaxValue (h_e h) (h_ks h)).

Definition ItemMax (e : Engine) (ks : ksRuntime) : Z :=
  if 0 <? MaxKeyLen (cfg ks) then MaxKeyLen (cfg ks) else maxKeyLen e.
Definition Host_ItemMax : hm Z := asks (fun h => ItemMax (h_e h) (h_ks h)).

Definition BloomMK : hm (Z * Z) :=
  asks (fun h => (EffectiveBloomBits (cfg (h_ks h)), EffectiveBloomHashes (cfg (h_ks h)))).
Definition Host_TopKSize : hm Z := asks (fun h => EffectiveTopKSize (cfg (h_ks h))).
Definition Host_StreamMaxLen : hm Z := asks (fun h => EffectiveStreamMaxLen (cfg (h_ks h))).

Definition HasBloom (now : Z) (name : bytes) : hm bool :=
  cur ← onStore (fun m => Peek now m name);
  mret (match cur with Some ent => IsBloom ent && negb (IsTombstone ent) | None => false end).

Inductive mode_err := Rejected | TooLarge | Overflow | Full | BadID.

Definition succeeded (r : option mode_err) : bool := match r with None => true | Some _ => false end.

(** if expireAt == 0 { expireAt = h.ExpireAt() } *)
Definition defaultExpire (now expireAt : Z) : hm Z :=
  if expireAt =? 0 then Host_ExpireAt now else mret expireAt.

(** The bodies of ApplyAdd, ApplyRemove and ApplyInstall. *)
Definition applyStore (now expireAt : Z) (op : Z -> Memory -> bool * Memory) : hm bool :=
  x ← defaultExpire now expireAt; onStore (op x).

(** ** Modes that replicate deltas *)

(** The shared body of AddLocal and RemoveLocal: a refused removal of a name
    that holds no such value is a success. *)
Definition deltaLocal (now : Z) (name : bytes) (op : Z -> Z -> Memory -> bool * Memory)
    (has : option (Memory -> bool * Memory)) (payload : bytes) (flag : Z) (fanout : bool) : hm (option mode_err) :=
  ver ← NextVersion now name;
  expire ← Host_ExpireAt now;
  ok ← onStore (op ver expire);
  if ok : bool then
    _ ← (if fanout then Replicate name (mkEntry payload ver expire flag) else mret tt);
    mret None
  else
    match has with
    | None => mret (Some Rejected)
    | Some has => live ← onStore has; mret (if live : bool then Some Rejected else None)
    end.

Section delta.
Context (now : Z) (name : bytes).

(** *** pkg/set/eng *)

Definition SetEng_AddLocal (item : bytes) (fanout : bool) : hm (option mode_err) :=
  deltaLocal now name (fun ver x m => SetAdd now m name item ver x) None item FlagSetAdd fanout.
Definition SetEng_RemoveLocal (item : bytes) (fanout : bool) : hm (option mode_err) :=
  deltaLocal now name (fun ver x m => SetRemove now m name item ver x)
    (Some (fun m => HasSet now m name)) item FlagSetRemove fanout.
Definition SetEng_ApplyAdd (item : bytes) (version expireAt : Z) : hm bool :=
  applyStore now expireAt (fun x m => SetAdd now m name item version x).
Definition SetEng_ApplyRemove (item : bytes) (version expireAt : Z) : hm bool :=
  applyStore now expireAt (fun x m => SetRemove now m name item version x).
Definition SetEng_ApplyInstall (blob : bytes) (version expireAt : Z) : hm bool :=
  applyStore now expireAt (fun x m => SetInstall now m name blob version x).

Definition ContainsBlob (blob item : bytes) : bool :=
  match Set_DecodeSet blob with None => false | Some s => Set_Contains s item end.
Definition CardBlob (blob : bytes) : Z :=
  match Set_DecodeSet blob with None => 0 | Some s => Set_Len s end.
Definition MembersBlob (blob : bytes) : list bytes :=
  match Set_DecodeSet blob with None => [] | Some s => Set_Members s end.

(** *** pkg/zset/eng *)

Definition ZSetEng_AddLocal (member : bytes) (score : float64) (fanout : bool) : hm (option mode_err) :=
  deltaLocal now name (fun ver x m => ZAdd now m name member score ver x) None
    (ZSet_EncodeAdd member score) FlagZSetAdd fanout.
Definition ZSetEng_RemLocal (member : bytes) (fanout : bool) : hm (option mode_err) :=
  deltaLocal now name (fun ver x m => ZRem now m name member ver x)
    (Some (fun m => HasZSet now m name)) member FlagZSetRem fanout.
Definition ZSetEng_ApplyAdd (value : bytes) (version expireAt : Z) : hm bool :=
  match ZSet_DecodeAdd value with
  | None => mret false
  | Some (member, score) => applyStore now expireAt (fun x m => ZAdd now m name member score version x)
  end.
Definition ZSetEng_ApplyRem (member : bytes) (version expireAt : Z) : hm bool :=
  applyStore now expireAt (fun x m => ZRem now m name member version x).
Definition ZSetEng_ApplyInstall (blob : bytes) (version expireAt : Z) : hm bool :=
  applyStore now expireAt (fun x m => ZInstall now m name blob version x).

(** *** pkg/geo/eng *)

Definition GeoEng_AddLocal (member : bytes) (lon lat : float64) (fanout : bool) : hm (option mode_err) :=
  deltaLocal now name (fun ver x m => GeoAdd now m name member lon lat ver x) None
    (Geo_EncodeAdd member lon lat) FlagGeoAdd fanout.
Definition GeoEng_RemLocal (member : bytes) (fanout : bool) : hm (option mode_err) :=
  deltaLocal now name (fun ver x m => GeoRem now m name member ver x)
    (Some (fun m => HasGeo now m name)) member FlagGeoRem fanout.
Definition GeoEng_ApplyAdd (value : bytes) (version expireAt : Z) : hm bool :=
  match Geo_DecodeAdd value with
  | None => mret false
  | Some (member, lon, lat) => applyStore now expireAt (fun x m => GeoAdd now m name member lon lat version x)
  end.
Definition GeoEng_ApplyRem (member : bytes) (version expireAt : Z) : hm bool :=
  applyStore now expireAt (fun x m => GeoRem now m name member version x).
Definition GeoEng_ApplyInstall (blob : bytes) (version expireAt : Z) : hm bool :=
  applyStore now expireAt (fun x m => GeoInstall now m name blob version x).

(** *** pkg/hashx/eng *)

Definition HashEng_SetLocal (field value : bytes) (fanout : bool) : hm (option mode_err) :=
  deltaLocal now name (fun ver x m => HSet now m name field value ver x) None
    (Hash_EncodeSet field value) FlagHashSet fanout.
Definition HashEng_DelLocal (field : bytes) (fanout : bool) : hm (option mode_err) :=
  deltaLocal now name (fun ver x m => HDel now m name field ver x)
    (Some (fun m => HasHash now m name)) field FlagHashDel fanout.
Definition HashEng_ApplySet (value : bytes) (version expireAt : Z) : hm bool :=
  match Hash_DecodeSet value with
  | None => mret false
  | Some (field, val) => applyStore now expireAt (fun x m => HSet now m name field val version x)
  end.
Definition HashEng_ApplyDel (field : bytes) (version expireAt : Z) : hm bool :=
  applyStore now expireAt (fun x m => HDel now m name field version x).
Definition HashEng_ApplyInstall (blob : bytes) (version expireAt : Z) : hm bool :=
  applyStore now expireAt (fun x m => HInstall now m name blob version x).

(** *** pkg/bloom/eng: a live filter keeps its version *)

Definition BloomEng_AddLocal (item : bytes) (fanout : bool) : hm (option mode_err) :=
  cur ← onStore (fun m => Peek now m name);
  ver ← match cur with
        | Some c => n ← NextVersion now name;
                    mret (if IsBloom c && negb (IsTombstone c) then Version c else n)
        | None => mret 1
        end;
  expire ← Host_ExpireAt now;
  mk ← BloomMK;
  ok ← onStore (fun m => BloomAdd now m name item mk.1 mk.2 ver expire);
  if ok : bool then
    _ ← (if fanout then Replicate name (mkEntry item ver expire FlagBloomAdd) else mret tt);
    mret None
  else mret (Some Rejected).

Definition BloomEng_ApplyAdd (item : bytes) (version expireAt : Z) : hm bool :=
  mk ← BloomMK; applyStore now expireAt (fun x m => BloomAdd now m name item mk.1 mk.2 version x).
Definition BloomEng_ApplyMerge (bits : bytes) (version expireAt : Z) : hm bool :=
  mk ← BloomMK; applyStore now expireAt (fun x m => BloomMerge now m name bits mk.1 mk.2 version x).
End delta.

(** ** Modes that replicate snapshots *)

Section snapshot.
Context (now : Z) (name : bytes).

(** cur, _ := PeekVersion(name); gate := cur + 1 *)
Definition nextGate : hm Z :=
  cur ← onStore (fun m => PeekVersion now m name); mret (default 0 cur +u 1).

(** ReplicateSnapshot; [shape] is the check of the first byte that pkg/stream
    and pkg/vecset add. *)
Definition ReplicateSnapshot (flag : Z) (shape : bytes -> bool) (ver expire : Z) : hm unit :=
  cur ← onStore (fun m => Peek now m name);
  match cur with
  | Some ent => if has_flag flag ent && shape (Value ent)
                then Replicate name (mkEntry (Value ent) ver expire flag) else mret tt
  | None => mret tt
  end.

Definition any_shape (_ : bytes) : bool := true.
Definition snapshot_shape (b : bytes) : bool :=
  match b with [] => false | c :: _ => c =? PrefixSnapshot end.

(** ver, _ := PeekVersion(name); ObserveVersion(name, ver) *)
Definition observed : hm Z :=
  ver ← onStore (fun m => PeekVersion now m name);
  _ ← ObserveVersion now name (default 0 ver);
  mret (default 0 ver).

(** ver := PeekVersion; ObserveVersion; ReplicateSnapshot *)
Definition publish (flag : Z) (shape : bytes -> bool) (expire : Z) : hm unit :=
  ver ← observed; ReplicateSnapshot flag shape ver expire.

(** The gate, an operation that answers (applied, tooLarge), and the snapshot. *)
Definition upsertLocal (flag : Z) (shape : bytes -> bool) (expire : Z)
    (op : Z -> Memory -> (bool * bool) * Memory) : hm (option mode_err) :=
  gate ← nextGate;
  r ← onStore (op gate);
  if r.2 : bool then mret (Some TooLarge)
  else if negb r.1 then mret (Some Rejected)
  else _ ← publish flag shape expire; mret None.

(** *** pkg/list/eng *)

Definition pushOp (item : bytes) (left : bool) (gate expire : Z) (m : Memory) : bool * Memory :=
  if left then LPush now m name item gate expire else RPush now m name item gate expire.

Definition ListEng_Push (item : bytes) (left fanout : bool) : hm (option mode_err) :=
  expire ← Host_ExpireAt now;
  gate ← nextGate;
  ok ← onStore (pushOp item left gate expire);
  if negb ok then mret (Some Rejected)
  else
    ver ← observed;
    _ ← (if fanout then ReplicateSnapshot FlagList any_shape ver expire else mret tt);
    mret None.

Definition ListEng_Pop (left fanout : bool) : hm (option bytes + mode_err) :=
  expire ← Host_ExpireAt now;
  gate ← nextGate;
  r ← onStore (fun m =>
    let '(item, applied, m) := if left then LPop now m name gate expire else RPop now m name gate expire in
    ((item, applied), m));
  if negb r.2 then
    live ← onStore (fun m => HasList now m name);
    mret (if live : bool then inr Rejected else inl None)
  else
    _ ← match r.1 with
        | Some _ => if fanout then publish FlagList any_shape expire else mret tt
        | None => mret tt
        end;
    mret (inl r.1).

Definition applyPush (left : bool) (item : bytes) (expireAt : Z) : hm bool :=
  x ← defaultExpire now expireAt;
  gate ← nextGate;
  ok ← onStore (pushOp item left gate x);
  if negb ok then mret false else _ ← publish FlagList any_shape x; mret true.

Definition ListEng_ApplyLPush := applyPush true.
Definition ListEng_ApplyRPush := applyPush false.
Definition ListEng_ApplyInstall (blob : bytes) (version expireAt : Z) : hm bool :=
  applyStore now expireAt (fun x m => LInstall now m name blob version x).

Definition LenFromBlob (blob : bytes) : option Z :=
  match List_Decode blob with None => None | Some l => Some (List_Len l) end.
Definition IndexFromBlob (blob : bytes) (idx : Z) : option bytes :=
  match List_Decode blob with None => None | Some l => List_Index l idx end.
Definition RangeFromBlob (blob : bytes) (start stop : Z) : list bytes :=
  match List_Decode blob with None => [] | Some l => List_Range l start stop end.

(** *** pkg/counter/eng *)

Definition CounterEng_ReplicateSnapshot (n ver expire : Z) : hm unit :=
  Replicate name (mkEntry (Counter_Encode n) ver expire FlagCounter).

Definition CounterEng_IncrLocal (delta : Z) (fanout : bool) : hm (Z + mode_err) :=
  expire ← Host_ExpireAt now;
  gate ← nextGate;
  r ← onStore (fun m => CIncr now m name delta gate expire);
  let '(n, applied, overflow) := r in
  if overflow : bool then mret (inr Overflow)
  else if negb applied then mret (inr Rejected)
  else
    ver ← observed;
    _ ← (if fanout then CounterEng_ReplicateSnapshot n ver expire else mret tt);
    mret (inl n).

Definition CounterEng_ApplyInstall (blob : bytes) (version expireAt : Z) : hm bool :=
  applyStore now expireAt (fun x m => CInstall now m name blob version x).

(** *** pkg/bitmapx/eng *)

Definition BitmapEng_set (offset : Z) (bit : bool) (expire : Z) : hm (option mode_err) :=
  max ← Host_MaxValue;
  upsertLocal FlagBitmap any_shape expire (fun gate m => BSet now m name offset bit gate expire max).

Definition BitmapEng_SetLocal (offset : Z) (bit : bool) : hm (option mode_err) :=
  expire ← Host_ExpireAt now; BitmapEng_set offset bit expire.

Definition BitmapEng_ApplySet (inbox : bytes) (expireAt : Z) : hm bool :=
  match Bitmap_DecodeSet inbox with
  | None => mret false
  | Some (offset, bit) => x ← defaultExpire now expireAt; r ← BitmapEng_set offset bit x; mret (succeeded r)
  end.

Definition BitmapEng_ApplyInstall (blob : bytes) (version expireAt : Z) : hm bool :=
  applyStore now expireAt (fun x m => BInstall now m name blob version x).

(** *** pkg/hllx/eng *)

Definition HLLEng_add (item : bytes) (expire : Z) : hm (option mode_err) :=
  max ← Host_MaxValue;
  upsertLocal FlagHLL any_shape expire (fun gate m => HLLAdd now m name item gate expire max).

Definition HLLEng_AddLocal (item : bytes) : hm (option mode_err) :=
  expire ← Host_ExpireAt now; HLLEng_add item expire.

Definition HLLEng_ApplyAdd (item : bytes) (expireAt : Z) : hm bool :=
  if len item =? 0 then mret false
  else x ← defaultExpire now expireAt; r ← HLLEng_add item x; mret (succeeded r).

Definition HLLEng_ApplyInstall (blob : bytes) (version expireAt : Z) : hm bool :=
  applyStore now expireAt (fun x m => HLLInstall now m name blob version x).

(** *** pkg/topkx/eng *)

Definition TopKEng_add (item : bytes) (expire : Z) : hm (option mode_err) :=
  max ← Host_MaxValue;
  k ← Host_TopKSize;
  upsertLocal FlagTopK any_shape expire (fun gate m => TopKAdd now m name item gate expire k max).

Definition TopKEng_AddLocal (item : bytes) : hm (option mode_err) :=
  expire ← Host_ExpireAt now; TopKEng_add item expire.

Definition TopKEng_ApplyAdd (item : bytes) (expireAt : Z) : hm bool :=
  max ← Host_ItemMax;
  if (len item =? 0) || (max <? len item) then mret false
  else x ← defaultExpire now expireAt; r ← TopKEng_add item x; mret (succeeded r).

Definition TopKEng_ApplyInstall (blob : bytes) (version expireAt : Z) : hm bool :=
  k ← Host_TopKSize;
  applyStore now expireAt (fun x m => TopKInstall now m name blob version x k).

(** *** pkg/cmsx/eng *)

Definition CMSEng_incr (item : bytes) (n expire : Z) : hm (option mode_err) :=
  max ← Host_MaxValue;
  upsertLocal FlagCMS any_shape expire (fun gate m => CMSIncr now m name item n gate expire max).

Definition CMSEng_IncrLocal (item : bytes) (n : Z) : hm (option mode_err) :=
  expire ← Host_ExpireAt now; CMSEng_incr item n expire.

Definition CMSEng_ApplyIncr (inbox : bytes) (expireAt : Z) : hm bool :=
  match CMS_DecodeInbox inbox with
  | inr _ => mret false
  | inl (n, item) =>
      if len item =? 0 then mret false
      else x ← defaultExpire now expireAt; r ← CMSEng_incr item n x; mret (succeeded r)
  end.

Definition CMSEng_ApplyInstall (blob : bytes) (version expireAt : Z) : hm bool :=
  applyStore now expireAt (fun x m => CMSInstall now m name blob version x).

(** *** pkg/jsonx/eng: nothing is published when a delete changed nothing *)

Definition JSONEng_set (path value : bytes) (expire : Z) : hm (option mode_err) :=
  max ← Host_MaxValue;
  upsertLocal FlagJSON any_shape expire (fun gate m => JSet now m name path value gate expire max).

Definition JSONEng_SetLocal (path value : bytes) : hm (option mode_err) :=
  expire ← Host_ExpireAt now; JSONEng_set path value expire.

Definition JSONEng_ApplySet (inbox : bytes) (expireAt : Z) : hm bool :=
  match Json_DecodeSet inbox with
  | None => mret false
  | Some (path, raw) => x ← defaultExpire now expireAt; r ← JSONEng_set path raw x; mret (succeeded r)
  end.

Definition JSONEng_del (path : bytes) (expire : Z) : hm (option mode_err) :=
  gate ← nextGate;
  r ← onStore (fun m => JDel now m name path gate expire);
  if negb r.1 then mret (Some Rejected)
  else if negb r.2 then mret None
  else _ ← publish FlagJSON any_shape expire; mret None.

Definition JSONEng_DelLocal (path : bytes) : hm (option mode_err) :=
  expire ← Host_ExpireAt now; JSONEng_del path expire.

Definition JSONEng_ApplyDel (path : bytes) (expireAt : Z) : hm bool :=
  x ← defaultExpire now expireAt; r ← JSONEng_del path x; mret (succeeded r).

Definition JSONEng_ApplyInstall (blob : bytes) (version expireAt : Z) : hm bool :=
  applyStore now expireAt (fun x m => JInstall now m name blob version x).

(** *** pkg/stream/eng: NowMilli() is the clock in milliseconds *)

Definition StreamEng_AddLocal (payload : bytes) : hm (bytes + mode_err) :=
  expire ← Host_ExpireAt now;
  gate ← nextGate;
  max ← Host_MaxValue;
  trim ← Host_StreamMaxLen;
  r ← onStore (fun m => XAdd now (now / 1000000) m name payload gate expire max trim);
  let '(id, applied, tooLarge, full) := r in
  if tooLarge : bool then mret (inr TooLarge)
  else if full : bool then mret (inr Full)
  else if negb applied then mret (inr Rejected)
  else _ ← publish FlagStream snapshot_shape expire; mret (inl id).

(** The shared end of DelLocal, TrimLocal and RemLocal of pkg/vecset/eng. *)
Definition editLocal (flag : Z) (op : Z -> Z -> Memory -> bool * Memory) (has : Memory -> bool * Memory)
    : hm (option mode_err) :=
  expire ← Host_ExpireAt now;
  gate ← nextGate;
  ok ← onStore (op gate expire);
  if negb ok then mret (Some Rejected)
  else
    live ← onStore has;
    if negb live then mret None else _ ← publish flag snapshot_shape expire; mret None.

Definition StreamEng_DelLocal (id : bytes) : hm (option mode_err) :=
  match ParseID id with
  | None => mret (Some BadID)
  | Some _ => editLocal FlagStream (fun gate x m => XDel now m name id gate x) (fun m => HasStream now m name)
  end.

Definition StreamEng_TrimLocal (maxLen : Z) : hm (option mode_err) :=
  if maxLen <? 0 then mret (Some BadID)
  else editLocal FlagStream (fun gate x m => XTrim now m name maxLen gate x) (fun m => HasStream now m name).

(** expireAt is filled in but the local operations read the host's again. *)
Definition StreamEng_ApplyInbox (blob : bytes) : hm bool :=
  match blob with
  | [] => mret false
  | c :: _ =>
      if c =? PrefixAdd then
        match DecodeInboxAdd blob with
        | None => mret false
        | Some payload => r ← StreamEng_AddLocal payload; mret (match r with inl _ => true | inr _ => false end)
        end
      else if c =? PrefixDel then
        match DecodeInboxDel blob with
        | None => mret false
        | Some id => r ← StreamEng_DelLocal id; mret (succeeded r)
        end
      else if c =? PrefixTrim then
        match DecodeInboxTrim blob with
        | None => mret false
        | Some n => r ← StreamEng_TrimLocal n; mret (succeeded r)
        end
      else mret false
  end.

Definition StreamEng_ApplyInstall (blob : bytes) (version expireAt : Z) : hm bool :=
  applyStore now expireAt (fun x m => SXInstall now m name blob version x).

(** *** pkg/vecset/eng: the tags are 'A', 'R' and 'S' *)

Definition VecEng_add (member : bytes) (vec : list float32) (expire : Z) : hm (option mode_err) :=
  max ← Host_MaxValue;
  upsertLocal FlagVectorSet snapshot_shape expire (fun gate m => VAdd now m name member vec gate expire max).

Definition VecEng_AddLocal (member : bytes) (vec : list float32) : hm (option mode_err) :=
  expire ← Host_ExpireAt now; VecEng_add member vec expire.

Definition VecEng_RemLocal (member : bytes) : hm (option mode_err) :=
  editLocal FlagVectorSet (fun gate x m => VRem now m name member gate x) (fun m => HasVectorSet now m name).

Definition VecEng_ApplyInbox (blob : bytes) (expireAt : Z) : hm bool :=
  match blob with
  | [] => mret false
  | c :: _ =>
      x ← defaultExpire now expireAt;
      if c =? 65 then
        match VS_DecodeInboxAdd blob with
        | None => mret false
        | Some (member, vec) => r ← VecEng_add member vec x; mret (succeeded r)
        end
      else if c =? 82 then
        match VS_DecodeInboxRem blob with
        | None => mret false
        | Some member =>
            gate ← nextGate;
            ok ← onStore (fun m => VRem now m name member gate x);
            if negb ok then mret false else _ ← publish FlagVectorSet snapshot_shape x; mret true
        end
      else mret false
  end.

Definition VecEng_ApplyInstall (blob : bytes) (version expireAt : Z) : hm bool :=
  applyStore now expireAt (fun x m => VSInstall now m name blob version x).
End snapshot.

(** ** Entries from a peer: ApplyPutWithRingGen *)

(** The owner of the name is another node. *)
Definition ownedElsewhere (e : Engine) (name : bytes) : bool :=
  match ringOf e with
  | Some (c, r) => match foreignOwner c r name with Some _ => true | None => false end
  | None => false
  end.

(** The ring names this node as the owner. *)
Definition ownedHere (e : Engine) (name : bytes) : bool :=
  match ringOf e with
  | Some (c, r) =>
      match Owner r name with Some owner => bool_decide (peer_ID owner = SelfID c) | None => false end
  | None => false
  end.

(** A delta that was applied goes on to the replicas when this node owns the name. *)
Definition forwardDelta (ksName name : bytes) (ent : Entry) (apply : hm bool) : hm bool :=
  ok ← apply;
  here ← asks (fun h => ownedHere (h_e h) name);
  _ ← (if ok && here then replicateAs ksName name ent else mret tt);
  mret ok.

(** An owner-inbox entry is for the owner only. *)
Definition ownerOnly (name : bytes) (apply : hm bool) : hm bool :=
  away ← asks (fun h => ownedElsewhere (h_e h) name);
  if away : bool then mret false else apply.

Definition applyVectorSet (now : Z) (name : bytes) (ent : Entry) : hm bool :=
  match Value ent with
  | [] => mret false
  | c :: _ =>
      if (c =? 65) || (c =? 82) then ownerOnly name (VecEng_ApplyInbox now name (Value ent) (ExpireAt ent))
      else if c =? 83 then VecEng_ApplyInstall now name (Value ent) (Version ent) (ExpireAt ent)
      else mret false
  end.

Definition applyStream (now : Z) (name : bytes) (ent : Entry) : hm bool :=
  match Value ent with
  | [] => mret false
  | c :: _ =>
      if (c =? PrefixAdd) || (c =? PrefixDel) || (c =? PrefixTrim)
      then ownerOnly name (StreamEng_ApplyInbox now name (Value ent))
      else if c =? PrefixSnapshot then StreamEng_ApplyInstall now name (Value ent) (Version ent) (ExpireAt ent)
      else mret false
  end.

(** The flags in the order ApplyPutWithRingGen tests them, each with its handler. *)
Definition handlers (now : Z) (ksName name : bytes) (ent : Entry) : list (Z * hm bool) :=
  let v := Value ent in let ver := Version ent in let x := ExpireAt ent in
  let fwd := forwardDelta ksName name ent in
  let own := ownerOnly name in
  [ (FlagBloomAdd, fwd (BloomEng_ApplyAdd now name v ver x));
    (FlagBloom, BloomEng_ApplyMerge now name v ver x);
    (FlagSetAdd, fwd (SetEng_ApplyAdd now name v ver x));
    (FlagSetRemove, fwd (SetEng_ApplyRemove now name v ver x));
    (FlagSet, SetEng_ApplyInstall now name v ver x);
    (FlagZSetAdd, fwd (ZSetEng_ApplyAdd now name v ver x));
    (FlagZSetRem, fwd (ZSetEng_ApplyRem now name v ver x));
    (FlagZSet, ZSetEng_ApplyInstall now name v ver x);
    (FlagGeoAdd, fwd (GeoEng_ApplyAdd now name v ver x));
    (FlagGeoRem, fwd (GeoEng_ApplyRem now name v ver x));
    (FlagGeo, GeoEng_ApplyInstall now name v ver x);
    (FlagListLPush, own (ListEng_ApplyLPush now name v x));
    (FlagListRPush, own (ListEng_ApplyRPush now name v x));
    (FlagList, ListEng_ApplyInstall now name v ver x);
    (FlagHashSet, fwd (HashEng_ApplySet now name v ver x));
    (FlagHashDel, fwd (HashEng_ApplyDel now name v ver x));
    (FlagHash, HashEng_ApplyInstall now name v ver x);
    (FlagCounter, CounterEng_ApplyInstall now name v ver x);
    (FlagJSONSet, own (JSONEng_ApplySet now name v x));
    (FlagJSONDel, own (JSONEng_ApplyDel now name v x));
    (FlagJSON, JSONEng_ApplyInstall now name v ver x);
    (FlagBitmapSet, own (BitmapEng_ApplySet now name v x));
    (FlagBitmap, BitmapEng_ApplyInstall now name v ver x);
    (FlagHLLAdd, own (HLLEng_ApplyAdd now name v x));
    (FlagHLL, HLLEng_ApplyInstall now name v ver x);
    (FlagTopKAdd, own (TopKEng_ApplyAdd now name v x));
    (FlagTopK, TopKEng_ApplyInstall now name v ver x);
    (FlagCMSIncr, own (CMSEng_ApplyIncr now name v x));
    (FlagCMS, CMSEng_ApplyInstall now name v ver x);
    (FlagVectorSet, applyVectorSet now name ent);
    (FlagStream, applyStream now name ent);
    (FlagNegative, onStore (fun m => AcceptNegative now m name ent)) ].

Fixpoint dispatch (ent : Entry) (hs : list (Z * hm bool)) (plain : hm bool) : hm bool :=
  match hs with
  | [] => plain
  | (f, act) :: hs => if has_flag f ent then act else dispatch ent hs plain
  end.

Definition applyEntry (now : Z) (ksName name : bytes) (ent : Entry) : hm bool :=
  _ ← ObserveVersion now name (Version ent);
  dispatch ent (handlers now ksName name ent) (onStore (fun m => AcceptIfNewer now m name ent)).

(** The wire generation is only compared for a metric. *)
Definition ApplyPutWithRingGen (now : Z) (e : Engine) (ksName name : bytes) (ent : Entry)
    : bool * option EngErr * Engine :=
  match validateKey e ksName name with
  | Some err => (false, Some err, e)
  | None =>
      match getKS e ksName with
      | None => (false, Some ErrKeyspaceNotFound, e)
      | Some ks => let '(ok, h) := applyEntry now ksName name ent (mkHost e ks) in (ok, None, h_e h)
      end
  end.

Definition ApplyBloomMerge (now : Z) (e : Engine) (ksName name bits : bytes) (version : Z)
    : bool * option EngErr * Engine :=
  match validateKey e ksName name with
  | Some err => (false, Some err, e)
  | None =>
      match getKS e ksName with
      | None => (false, Some ErrKeyspaceNotFound, e)
      | Some ks =>
          let '(ok, h) := (_ ← ObserveVersion now name version; BloomEng_ApplyMerge now name bits version 0)
                            (mkHost e ks) in
          (ok, None, h_e h)
      end
  end.
