(* ===== verification/ModeOps.v ===== *)
(** * Commands of the typed modes: pkg/engine/set.go, zset.go, geo.go, hash.go, list.go, ...

    Every command checks its arguments in the source's order, then a write runs
    on the owner (locally, or through a call to the owner) and a read looks at
    the local store first and asks the owner for a snapshot when the name is
    missing.  GeoDist, GeoRadius and HLLCount, which compute with
    transcendental functions, are in Estimates. *)
From S2P Require Import Prelude Wire Collections Scored Scalars Json JsonText Sketches.
From S2P Require Import Cms TopK Stream Vecset Store StoreKinds StoreScalars StoreJson.
From S2P Require Import Ring Hints Config Engine Modes.

(** ** Transport *)

Record ModeEnv (W : Type) := mkModeEnv {
  me_base : Env W;
  (** addr, keyspace, name, entry, ring generation: applied, or an RPC error *)
  me_ApplyPut : W -> bytes -> bytes -> bytes -> Entry -> Z -> (bool + EngErr) * W;
  me_ListPop : W -> bytes -> bytes -> bytes -> bool -> (option bytes + EngErr) * W;
  me_CounterIncr : W -> bytes -> bytes -> bytes -> Z -> (Z + EngErr) * W;
  me_StreamAdd : W -> bytes -> bytes -> bytes -> bytes -> (bytes + EngErr) * W;
}.
Arguments me_base {W} _.
Arguments me_ApplyPut {W} _.
Arguments me_ListPop {W} _.
Arguments me_CounterIncr {W} _.
Arguments me_StreamAdd {W} _.

(** ** Argument checks *)

(** The first check that fails. *)
Fixpoint first_err (checks : list (option EngErr)) : option EngErr :=
  match checks with
  | [] => None
  | Some err :: _ => Some err
  | None :: rest => first_err rest
  end.

Definition ctxErr (ctx : Ctx) : option EngErr := if cancelled ctx then Some ErrContext else None.
Definition invalid_if (b : bool) : option EngErr := if b then Some ErrInvalidArgument else None.
Definition requireMode (ks : ksRuntime) (m : Mode) : option EngErr :=
  invalid_if (negb (bool_decide (cMode (cfg ks) = m))).
Definition nonempty (b : bytes) : option EngErr := invalid_if (len b =? 0).
(** len(item) > e.maxKeyLen *)
Definition itemLen (e : Engine) (b : bytes) : option EngErr :=
  if maxKeyLen e <? len b then Some ErrKeyTooLarge else None.

Definition checkHashField (e : Engine) (field : bytes) : option EngErr := first_err [nonempty field; itemLen e field].

Definition bitmapNeed (e : Engine) (ks : ksRuntime) (offset : Z) : option EngErr :=
  match EncodedLen offset with
  | None => Some ErrValueTooLarge
  | Some need => if over (MaxValue e ks) need then Some ErrValueTooLarge else None
  end.
Definition hllNeed (e : Engine) (ks : ksRuntime) : option EngErr :=
  if over (MaxValue e ks) HLL_DenseSize then Some ErrValueTooLarge else None.
Definition cmsNeed (e : Engine) (ks : ksRuntime) : option EngErr :=
  if over (MaxValue e ks) CMS_DenseSize then Some ErrValueTooLarge else None.
Definition topkNeed (e : Engine) (ks : ksRuntime) : option EngErr :=
  if over (MaxValue e ks) (WorstEncodedSize (EffectiveTopKSize (cfg ks)) (ItemMax e ks))
  then Some ErrValueTooLarge else None.

(** vsNeed and sxNeed. *)
Definition kindNeed (m : Mode) (e : Engine) (ks : ksRuntime) (name : bytes) : option EngErr :=
  first_err [validateKey e (Name (cfg ks)) name; requireMode ks m; validateKeyLen e ks name].
Definition vsNeed := kindNeed ModeVectorSet.
Definition sxNeed := kindNeed ModeStream.

Definition vsCheckMember (e : Engine) (member : bytes) : option EngErr :=
  first_err [invalid_if ((len member <? 1) || (MaxMemberLen <? len member)); itemLen e member].

Definition VectorMetricCosine : Z := 0.

Definition vsCheckVec (now : Z) (name : bytes) (vec : list float32) : hm (option EngErr) :=
  want ← asks (fun h => VectorDim (cfg (h_ks h)));
  metric ← asks (fun h => cVectorMetric (cfg (h_ks h)));
  if negb (ValidDim (len vec)) || negb (Finite vec) then mret (Some ErrInvalidArgument)
  else if (0 <? want) && negb (len vec =? want) then mret (Some ErrInvalidArgument)
  else
    dim ← onStore (fun m => VDim now m name);
    if match dim with Some dim => negb (dim =? len vec) | None => false end then mret (Some ErrInvalidArgument)
    else mret (invalid_if ((metric =? VectorMetricCosine) && IsZero vec)).

(** vecset.Metric(int(VectorMetric)); Score takes every other number for cosine. *)
Definition metricOf (z : Z) : Metric := if z =? 1 then MetricL2 else if z =? 2 then MetricIP else MetricCosine.

(** ** Routing *)

Definition engineErr (r : mode_err) : EngErr :=
  match r with TooLarge => ErrValueTooLarge | _ => ErrInvalidArgument end.

Definition ackOf (act : hm (option mode_err)) : hm (unit + EngErr) :=
  r ← act; mret (match r with None => inl tt | Some err => inr (engineErr err) end).

Definition valueOf {A} (act : hm (A + mode_err)) : hm (A + EngErr) :=
  r ← act; mret (match r with inl a => inl a | inr err => inr (engineErr err) end).

Section commands.
Context {W : Type} (env : ModeEnv W) (now : Z) (ctx : Ctx).

(** ctx.Err(), the checks before the keyspace lookup, the lookup, the checks after it. *)
Definition guarded {A} (w : W) (e : Engine) (ksName : bytes) (pre : list (option EngErr))
    (post : ksRuntime -> list (option EngErr)) (body : ksRuntime -> (A + EngErr) * W * Engine)
    : (A + EngErr) * W * Engine :=
  match first_err (ctxErr ctx :: pre) with
  | Some err => (inr err, w, e)
  | None =>
      match getKS e ksName with
      | None => (inr ErrKeyspaceNotFound, w, e)
      | Some ks =>
          match first_err (post ks) with
          | Some err => (inr err, w, e)
          | None => body ks
          end
      end
  end.

Definition local {A} (w : W) (e : Engine) (ks : ksRuntime) (act : hm (A + EngErr)) : (A + EngErr) * W * Engine :=
  let '(r, h) := act (mkHost e ks) in (r, w, h_e h).

(** A write: on the owner through a peer call, else here. *)
Definition routed {A} (w : W) (e : Engine) (ks : ksRuntime) (name : bytes)
    (remote : W -> Ring -> Peer -> (A + EngErr) * W) (act : hm (A + EngErr)) : (A + EngErr) * W * Engine :=
  match ringOf e with
  | None => local w e ks act
  | Some (c, r) =>
      match foreignOwner c r name with
      | None => local w e ks act
      | Some owner =>
          if negb (hasTransport c) || bool_decide (peer_Addr owner = []) then (inr ErrUnavailable, w, e)
          else let '(res, w) := remote w r owner in (res, w, e)
      end
  end.

(** setMutViaOwner and its siblings.  The set, sorted set, geo, hash, Bloom and
    list commands drop the answer; the others ([strict]) fail when the owner
    did not apply. *)
Definition mutViaOwner (strict : bool) (ks : ksRuntime) (name value : bytes) (flag version : Z)
    (w : W) (r : Ring) (owner : Peer) : (unit + EngErr) * W :=
  let ent := mkEntry value version 0 flag in
  let '(res, w) := me_ApplyPut env w (peer_Addr owner) (Name (cfg ks)) name ent (Generation r) in
  (match res with
   | inr err => inr err
   | inl applied => if strict && negb applied then inr ErrInvalidArgument else inl tt
   end, w).

(** A write that sends [value] under [flag] to a foreign owner, and runs [act] on the owner. *)
Definition ackWrite (strict : bool) (flag : Z) (value : bytes) (act : hm (option mode_err))
    (w : W) (e : Engine) (name : bytes) (ks : ksRuntime) : (unit + EngErr) * W * Engine :=
  routed w e ks name (mutViaOwner strict ks name value flag 1) (ackOf act).

(** ** Reads *)

(** The owner's entry, when another node owns the name and can be asked. *)
Definition askOwner (w : W) (h : Host) (name : bytes) (flag : Z) : option Entry * W :=
  match ringOf (h_e h) with
  | None => (None, w)
  | Some (c, r) =>
      match foreignOwner c r name with
      | None => (None, w)
      | Some owner =>
          if negb (hasTransport c) || bool_decide (peer_Addr owner = []) then (None, w)
          else
            let '(res, w) := env_GetOrLoad (me_base env) w (peer_Addr owner) (KeyspaceName h) name in
            (match res with
             | Some (true, ent) => if has_flag flag ent then Some ent else None
             | _ => None
             end, w)
      end
  end.

Definition HoldsReplica (name : bytes) : hm bool :=
  asks (fun h => match cluster (h_e h) with None => false | Some c => holdsReplica c (h_ks h) name end).

(** FetchOwner: the snapshot is kept on replicas only. *)
Definition FetchOwner (flag : Z) (valid : bytes -> bool) (install : Entry -> Memory -> bool * Memory)
    (w : W) (name : bytes) : hm (option Entry * W) := fun h =>
  let '(res, w) := askOwner w h name flag in
  match res with
  | None => ((None, w), h)
  | Some ent =>
      if negb (valid (Value ent)) then ((None, w), h)
      else (keep ← HoldsReplica name;
            _ ← (if keep : bool then onStore (install ent) else mret false);
            mret (Some ent, w)) h
  end.

(** The local answer, or the one read from the owner's snapshot. *)
Definition readThrough {A} (mine : hm (option A)) (missing : A) (fetch : W -> bytes -> hm (option Entry * W))
    (fromBlob : bytes -> A) (w : W) (e : Engine) (name : bytes) (ks : ksRuntime) : (A + EngErr) * W * Engine :=
  let '(r, h) := mine (mkHost e ks) in
  match r with
  | Some a => (inl a, w, h_e h)
  | None =>
      let '((ent, w), h) := fetch w name h in
      (inl (match ent with Some ent => fromBlob (Value ent) | None => missing end), w, h_e h)
  end.

(** if has(name) { return read(name) } *)
Definition ifHas {A} (has : Memory -> bool * Memory) (read : Memory -> A * Memory) : hm (option A) :=
  live ← onStore has;
  if live : bool then a ← onStore read; mret (Some a) else mret None.

(** A hit, else a miss when the value is here. *)
Definition hitOrHas {A} (read : Memory -> option A * Memory) (has : Memory -> bool * Memory)
    : hm (option (option A)) :=
  r ← onStore read;
  match r with
  | Some a => mret (Some (Some a))
  | None => live ← onStore has; mret (if live : bool then Some None else None)
  end.

Definition decoded {T A} (decode : bytes -> option T) (bad : A) (f : T -> A) (blob : bytes) : A :=
  match decode blob with None => bad | Some t => f t end.

Definition any_blob (_ : bytes) : bool := true.
Definition decodes {T} (decode : bytes -> option T) (b : bytes) : bool :=
  match decode b with Some _ => true | None => false end.

(** ** Sets (set.go) *)

(** ctx, validateKey, then the mode and the keyspace's own key limit. *)
Definition keyed {A} (w : W) (e : Engine) (ksName name : bytes) (pre : list (option EngErr)) (mode : Mode)
    (post : ksRuntime -> list (option EngErr)) (body : ksRuntime -> (A + EngErr) * W * Engine)
    : (A + EngErr) * W * Engine :=
  guarded w e ksName (validateKey e ksName name :: pre)
    (fun ks => requireMode ks mode :: validateKeyLen e ks name :: post ks) body.

Definition Engine_SetAdd (w : W) (e : Engine) (ksName name item : bytes) : (unit + EngErr) * W * Engine :=
  keyed w e ksName name [nonempty item] ModeSet (fun _ => [itemLen e item])
    (ackWrite false FlagSetAdd item (SetEng_AddLocal now name item true) w e name).

Definition Engine_SetRemove (w : W) (e : Engine) (ksName name item : bytes) : (unit + EngErr) * W * Engine :=
  keyed w e ksName name [nonempty item] ModeSet (fun _ => [itemLen e item])
    (ackWrite false FlagSetRemove item (SetEng_RemoveLocal now name item true) w e name).

(** On a replica the snapshot is installed and the store is read again. *)
Definition setRead {A} (mine : hm (option A)) (missing : A) (again : Memory -> A * Memory) (fromBlob : bytes -> A)
    (w : W) (e : Engine) (name : bytes) (ks : ksRuntime) : (A + EngErr) * W * Engine :=
  let '(r, h) := mine (mkHost e ks) in
  match r with
  | Some a => (inl a, w, h_e h)
  | None =>
      let '(res, w) := askOwner w h name FlagSet in
      match res with
      | None => (inl missing, w, h_e h)
      | Some ent =>
          local w (h_e h) (h_ks h)
            (keep ← HoldsReplica name;
             if keep : bool then
               _ ← onStore (fun m => SetInstall now m name (Value ent) (Version ent) (ExpireAt ent));
               a ← onStore again; mret (inl a)
             else mret (inl (fromBlob (Value ent))))
      end
  end.

Definition Engine_SetContains (w : W) (e : Engine) (ksName name item : bytes) : (bool + EngErr) * W * Engine :=
  keyed w e ksName name [] ModeSet (fun _ => [])
    (setRead
       (hit ← onStore (fun m => SetContains now m name item);
        if hit : bool then mret (Some true)
        else live ← onStore (fun m => HasSet now m name); mret (if live : bool then Some false else None))
       false (fun m => SetContains now m name item) (fun blob => ContainsBlob blob item) w e name).

Definition Engine_SetCard (w : W) (e : Engine) (ksName name : bytes) : (Z + EngErr) * W * Engine :=
  keyed w e ksName name [] ModeSet (fun _ => [])
    (setRead (ifHas (fun m => HasSet now m name) (fun m => SetCard now m name)) 0
       (fun m => SetCard now m name) CardBlob w e name).

Definition Engine_SetMembers (w : W) (e : Engine) (ksName name : bytes) : (list bytes + EngErr) * W * Engine :=
  keyed w e ksName name [] ModeSet (fun _ => [])
    (setRead (ifHas (fun m => HasSet now m name) (fun m => SetMembers now m name)) []
       (fun m => SetMembers now m name) MembersBlob w e name).

(** ** Bloom filters (bloom.go): a fetched filter is never installed *)

Definition Engine_BloomAdd (w : W) (e : Engine) (ksName name item : bytes) : (unit + EngErr) * W * Engine :=
  keyed w e ksName name [nonempty item] ModeBloom (fun _ => [itemLen e item])
    (ackWrite false FlagBloomAdd item (BloomEng_AddLocal now name item true) w e name).

Definition Engine_BloomTest (w : W) (e : Engine) (ksName name item : bytes) : (bool + EngErr) * W * Engine :=
  keyed w e ksName name [] ModeBloom (fun _ => []) (fun ks =>
    let mBits := EffectiveBloomBits (cfg ks) in let k := EffectiveBloomHashes (cfg ks) in
    readThrough
      (hit ← onStore (fun m => BloomTest now m name item mBits k);
       if hit : bool then mret (Some true)
       else live ← HasBloom now name; mret (if live : bool then Some false else None))
      false (fun w name h => let '(ent, w) := askOwner w h name FlagBloom in ((ent, w), h))
      (decoded (Bloom_Open mBits k) false (fun f => Bloom_Test f item)) w e name ks).

(** ** Sorted sets (zset.go) *)

Definition Engine_ZAdd (w : W) (e : Engine) (ksName name member : bytes) (score : float64)
    : (unit + EngErr) * W * Engine :=
  keyed w e ksName name [nonempty member; invalid_if (IsNaN score)] ModeZSet (fun _ => [itemLen e member])
    (ackWrite false FlagZSetAdd (ZSet_EncodeAdd member score) (ZSetEng_AddLocal now name member score true) w e name).

Definition Engine_ZRem (w : W) (e : Engine) (ksName name member : bytes) : (unit + EngErr) * W * Engine :=
  keyed w e ksName name [nonempty member] ModeZSet (fun _ => [itemLen e member])
    (ackWrite false FlagZSetRem member (ZSetEng_RemLocal now name member true) w e name).

Definition zFetch (w : W) (name : bytes) : hm (option Entry * W) :=
  FetchOwner FlagZSet any_blob (fun ent m => ZInstall now m name (Value ent) (Version ent) (ExpireAt ent)) w name.

Definition Engine_ZScore (w : W) (e : Engine) (ksName name member : bytes) : (option float64 + EngErr) * W * Engine :=
  keyed w e ksName name [] ModeZSet (fun _ => [])
    (readThrough (hitOrHas (fun m => ZScore now m name member) (fun m => HasZSet now m name)) None zFetch
       (decoded ZSet_Decode None (fun z => ZSet_Score z member)) w e name).

Definition Engine_ZCard (w : W) (e : Engine) (ksName name : bytes) : (Z + EngErr) * W * Engine :=
  keyed w e ksName name [] ModeZSet (fun _ => [])
    (readThrough (ifHas (fun m => HasZSet now m name) (fun m => ZCard now m name)) 0 zFetch
       (decoded ZSet_Decode 0 ZSet_Card) w e name).

Definition Engine_ZRange (w : W) (e : Engine) (ksName name : bytes) (start stop : Z)
    : (list ZMember + EngErr) * W * Engine :=
  keyed w e ksName name [] ModeZSet (fun _ => [])
    (readThrough (ifHas (fun m => HasZSet now m name) (fun m => ZRange now m name start stop)) [] zFetch
       (decoded ZSet_Decode [] (fun z => ZSet_Range z start stop)) w e name).

Definition Engine_ZRangeByScore (w : W) (e : Engine) (ksName name : bytes) (min max : float64)
    : (list ZMember + EngErr) * W * Engine :=
  keyed w e ksName name [] ModeZSet (fun _ => [])
    (readThrough (ifHas (fun m => HasZSet now m name) (fun m => ZRangeByScore now m name min max)) [] zFetch
       (decoded ZSet_Decode [] (fun z => ZSet_RangeByScore z min max)) w e name).

(** ** Geo indexes (geo.go) *)

Definition Engine_GeoAdd (w : W) (e : Engine) (ksName name member : bytes) (lon lat : float64)
    : (unit + EngErr) * W * Engine :=
  keyed w e ksName name [nonempty member; invalid_if (negb (ValidCoord lon lat))] ModeGeo (fun _ => [itemLen e member])
    (ackWrite false FlagGeoAdd (Geo_EncodeAdd member lon lat) (GeoEng_AddLocal now name member lon lat true) w e name).

Definition Engine_GeoRem (w : W) (e : Engine) (ksName name member : bytes) : (unit + EngErr) * W * Engine :=
  keyed w e ksName name [nonempty member] ModeGeo (fun _ => [itemLen e member])
    (ackWrite false FlagGeoRem member (GeoEng_RemLocal now name member true) w e name).

Definition gFetch (w : W) (name : bytes) : hm (option Entry * W) :=
  FetchOwner FlagGeo any_blob (fun ent m => GeoInstall now m name (Value ent) (Version ent) (ExpireAt ent)) w name.

Definition Engine_GeoPos (w : W) (e : Engine) (ksName name member : bytes) : (option GPoint + EngErr) * W * Engine :=
  keyed w e ksName name [] ModeGeo (fun _ => [])
    (readThrough (hitOrHas (fun m => GeoPos now m name member) (fun m => HasGeo now m name)) None gFetch
       (decoded Geo_Decode None (fun g => Geo_Pos g member)) w e name).

Definition Engine_GeoCard (w : W) (e : Engine) (ksName name : bytes) : (Z + EngErr) * W * Engine :=
  keyed w e ksName name [] ModeGeo (fun _ => [])
    (readThrough (ifHas (fun m => HasGeo now m name) (fun m => GeoCard now m name)) 0 gFetch
       (decoded Geo_Decode 0 Geo_Card) w e name).

(** ** Hashes (hash.go) *)

Definition Engine_HSet (w : W) (e : Engine) (ksName name field value : bytes) : (unit + EngErr) * W * Engine :=
  keyed w e ksName name [checkHashField e field] ModeHash (fun ks => [validateValueSize e ks value])
    (ackWrite false FlagHashSet (Hash_EncodeSet field value) (HashEng_SetLocal now name field value true) w e name).

Definition Engine_HDel (w : W) (e : Engine) (ksName name field : bytes) : (unit + EngErr) * W * Engine :=
  keyed w e ksName name [checkHashField e field] ModeHash (fun _ => [])
    (ackWrite false FlagHashDel field (HashEng_DelLocal now name field true) w e name).

Definition hFetch (w : W) (name : bytes) : hm (option Entry * W) :=
  FetchOwner FlagHash any_blob (fun ent m => HInstall now m name (Value ent) (Version ent) (ExpireAt ent)) w name.

Definition Engine_HGet (w : W) (e : Engine) (ksName name field : bytes) : (option bytes + EngErr) * W * Engine :=
  keyed w e ksName name [checkHashField e field] ModeHash (fun _ => [])
    (readThrough (hitOrHas (fun m => HGet now m name field) (fun m => HasHash now m name)) None hFetch
       (decoded Hash_Decode None (fun h => Hash_Get h field)) w e name).

Definition Engine_HExists (w : W) (e : Engine) (ksName name field : bytes) : (bool + EngErr) * W * Engine :=
  keyed w e ksName name [checkHashField e field] ModeHash (fun _ => [])
    (readThrough (ifHas (fun m => HasHash now m name) (fun m => HExists now m name field)) false hFetch
       (decoded Hash_Decode false (fun h => Hash_Exists h field)) w e name).

Definition Engine_HLen (w : W) (e : Engine) (ksName name : bytes) : (Z + EngErr) * W * Engine :=
  keyed w e ksName name [] ModeHash (fun _ => [])
    (readThrough (ifHas (fun m => HasHash now m name) (fun m => HLen now m name)) 0 hFetch
       (decoded Hash_Decode 0 Hash_Len) w e name).

Definition Engine_HGetAll (w : W) (e : Engine) (ksName name : bytes)
    : (list (bytes * bytes) + EngErr) * W * Engine :=
  keyed w e ksName name [] ModeHash (fun _ => [])
    (readThrough (ifHas (fun m => HasHash now m name) (fun m => HGetAll now m name)) [] hFetch
       (decoded Hash_Decode [] Hash_All) w e name).

(** ** Lists (list.go) *)

Definition lPush (left : bool) (w : W) (e : Engine) (ksName name item : bytes) : (unit + EngErr) * W * Engine :=
  keyed w e ksName name [nonempty item] ModeList (fun _ => [itemLen e item])
    (ackWrite false (if left then FlagListLPush else FlagListRPush) item (ListEng_Push now name item left true) w e name).
Definition Engine_LPush := lPush true.
Definition Engine_RPush := lPush false.

Definition lPop (left : bool) (w : W) (e : Engine) (ksName name : bytes) : (option bytes + EngErr) * W * Engine :=
  keyed w e ksName name [] ModeList (fun _ => []) (fun ks =>
    routed w e ks name
      (fun w _ owner => me_ListPop env w (peer_Addr owner) (Name (cfg ks)) name left)
      (valueOf (ListEng_Pop now name left true))).
Definition Engine_LPop := lPop true.
Definition Engine_RPop := lPop false.

Definition lFetch (w : W) (name : bytes) : hm (option Entry * W) :=
  FetchOwner FlagList any_blob (fun ent m => LInstall now m name (Value ent) (Version ent) (ExpireAt ent)) w name.

Definition Engine_LLen (w : W) (e : Engine) (ksName name : bytes) : (Z + EngErr) * W * Engine :=
  keyed w e ksName name [] ModeList (fun _ => [])
    (readThrough (ifHas (fun m => HasList now m name) (fun m => LLen now m name)) 0 lFetch
       (fun blob => default 0 (LenFromBlob blob)) w e name).

Definition Engine_LIndex (w : W) (e : Engine) (ksName name : bytes) (idx : Z) : (option bytes + EngErr) * W * Engine :=
  keyed w e ksName name [] ModeList (fun _ => [])
    (readThrough (ifHas (fun m => HasList now m name) (fun m => LIndex now m name idx)) None lFetch
       (fun blob => IndexFromBlob blob idx) w e name).

Definition Engine_LRange (w : W) (e : Engine) (ksName name : bytes) (start stop : Z)
    : (list bytes + EngErr) * W * Engine :=
  keyed w e ksName name [] ModeList (fun _ => [])
    (readThrough (ifHas (fun m => HasList now m name) (fun m => LRange now m name start stop)) [] lFetch
       (fun blob => RangeFromBlob blob start stop) w e name).

(** ** Counters (counter.go) *)

Definition Engine_Incr (w : W) (e : Engine) (ksName name : bytes) (delta : Z) : (Z + EngErr) * W * Engine :=
  keyed w e ksName name [] ModeCounter (fun _ => []) (fun ks =>
    routed w e ks name
      (fun w _ owner => me_CounterIncr env w (peer_Addr owner) (Name (cfg ks)) name delta)
      (valueOf (CounterEng_IncrLocal now name delta true))).

Definition Engine_CounterGet (w : W) (e : Engine) (ksName name : bytes) : (option Z + EngErr) * W * Engine :=
  keyed w e ksName name [] ModeCounter (fun _ => [])
    (readThrough (ifHas (fun m => HasCounter now m name) (fun m => CGet now m name)) None
       (FetchOwner FlagCounter (decodes Counter_Decode)
          (fun ent m => CInstall now m name (Value ent) (Version ent) (ExpireAt ent)))
       Counter_Decode w e name).

(** ** JSON documents (json.go) *)

Definition pathChecks (e : Engine) (path : bytes) : list (option EngErr) :=
  [itemLen e path; invalid_if (negb (decodes ParsePath path))].

Definition Engine_JsonSet (w : W) (e : Engine) (ksName name path value : bytes) : (unit + EngErr) * W * Engine :=
  keyed w e ksName name [] ModeJSON
    (fun ks => pathChecks e path ++ [validateValueSize e ks value; invalid_if (negb (decodes Json_Decode value))])
    (ackWrite true FlagJSONSet (Json_EncodeSet path value) (JSONEng_SetLocal now name path value) w e name).

Definition Engine_JsonDel (w : W) (e : Engine) (ksName name path : bytes) : (unit + EngErr) * W * Engine :=
  keyed w e ksName name [] ModeJSON (fun _ => pathChecks e path)
    (ackWrite true FlagJSONDel path (JSONEng_DelLocal now name path) w e name).

Definition jExtract (blob path : bytes) : option bytes :=
  match Json_Decode blob, ParsePath path with
  | Some doc, Some p => match Json_Get doc p with Some node => Json_Encode node | None => None end
  | _, _ => None
  end.

Definition Engine_JsonGet (w : W) (e : Engine) (ksName name path : bytes) : (option bytes + EngErr) * W * Engine :=
  keyed w e ksName name [] ModeJSON (fun _ => pathChecks e path)
    (readThrough (ifHas (fun m => HasJSON now m name) (fun m => JGet now m name path)) None
       (FetchOwner FlagJSON (decodes Json_Decode)
          (fun ent m => JInstall now m name (Value ent) (Version ent) (ExpireAt ent)))
       (fun blob => jExtract blob path) w e name).

(** ** Bitmaps (bitmap.go) *)

Definition Engine_BitSet (w : W) (e : Engine) (ksName name : bytes) (offset : Z) (bit : bool)
    : (unit + EngErr) * W * Engine :=
  keyed w e ksName name [] ModeBitmap (fun ks => [bitmapNeed e ks offset])
    (ackWrite true FlagBitmapSet (Bitmap_EncodeSet offset bit) (BitmapEng_SetLocal now name offset bit) w e name).

Definition bFetch (w : W) (name : bytes) : hm (option Entry * W) :=
  FetchOwner FlagBitmap any_blob (fun ent m => BInstall now m name (Value ent) (Version ent) (ExpireAt ent)) w name.

Definition Engine_BitGet (w : W) (e : Engine) (ksName name : bytes) (offset : Z)
    : (option bool + EngErr) * W * Engine :=
  keyed w e ksName name [] ModeBitmap (fun _ => [])
    (readThrough (ifHas (fun m => HasBitmap now m name) (fun m => BGet now m name offset)) None bFetch
       (fun blob => Some (Bitmap_Get blob offset)) w e name).

Definition Engine_BitCount (w : W) (e : Engine) (ksName name : bytes) (start stop : Z) : (Z + EngErr) * W * Engine :=
  keyed w e ksName name [] ModeBitmap (fun _ => [])
    (readThrough (ifHas (fun m => HasBitmap now m name)
                    (fun m => let '(n, m) := BCount now m name start stop in (default 0 n, m))) 0 bFetch
       (fun blob => Bitmap_Count blob start stop) w e name).

Definition Engine_BitPos (w : W) (e : Engine) (ksName name : bytes) (bit : bool) (start stop : Z)
    : (option Z + EngErr) * W * Engine :=
  keyed w e ksName name [] ModeBitmap (fun _ => [])
    (readThrough (ifHas (fun m => HasBitmap now m name)
                    (fun m => let '(r, m) := BPos now m name bit start stop in (default None r, m))) None bFetch
       (fun blob => Bitmap_Pos blob bit start stop) w e name).

(** ** Sketches (hll.go, topk.go, cms.go): the item is checked before the key *)

Definition Engine_HLLAdd (w : W) (e : Engine) (ksName name item : bytes) : (unit + EngErr) * W * Engine :=
  guarded w e ksName [nonempty item; validateKey e ksName name]
    (fun ks => [requireMode ks ModeHLL; validateKeyLen e ks name; itemLen e item; hllNeed e ks])
    (ackWrite true FlagHLLAdd item (HLLEng_AddLocal now name item) w e name).

Definition Engine_TopKAdd (w : W) (e : Engine) (ksName name item : bytes) : (unit + EngErr) * W * Engine :=
  guarded w e ksName [nonempty item; validateKey e ksName name]
    (fun ks => [requireMode ks ModeTopK; validateKeyLen e ks name;
                if ItemMax e ks <? len item then Some ErrKeyTooLarge else None; topkNeed e ks])
    (ackWrite true FlagTopKAdd item (TopKEng_AddLocal now name item) w e name).

Definition Engine_TopKList (w : W) (e : Engine) (ksName name : bytes)
    : (option (list TEntry) + EngErr) * W * Engine :=
  keyed w e ksName name [] ModeTopK (fun _ => []) (fun ks =>
    let k := EffectiveTopKSize (cfg ks) in
    readThrough (ifHas (fun m => HasTopK now m name) (fun m => TopKList now m name k)) None
      (FetchOwner FlagTopK any_blob
         (fun ent m => TopKInstall now m name (Value ent) (Version ent) (ExpireAt ent) k))
      (decoded (fun b => TopK_Decode b k) None (fun tab => Some (TopK_List tab))) w e name ks).

(** An inbox that cannot be encoded is refused before the call. *)
Definition Engine_CMSIncr (w : W) (e : Engine) (ksName name item : bytes) (n : Z) : (unit + EngErr) * W * Engine :=
  guarded w e ksName [nonempty item; validateKey e ksName name]
    (fun ks => [requireMode ks ModeCMS; validateKeyLen e ks name; itemLen e item; cmsNeed e ks])
    (fun ks => routed w e ks name
       (fun w r owner =>
          match CMS_EncodeInbox n item with
          | inr _ => (inr ErrInvalidArgument, w)
          | inl inbox => mutViaOwner true ks name inbox FlagCMSIncr 1 w r owner
          end)
       (ackOf (CMSEng_IncrLocal now name item n))).

Definition Engine_CMSQuery (w : W) (e : Engine) (ksName name item : bytes) : (option Z + EngErr) * W * Engine :=
  guarded w e ksName [nonempty item; validateKey e ksName name]
    (fun ks => [requireMode ks ModeCMS; validateKeyLen e ks name])
    (readThrough (ifHas (fun m => HasCMS now m name) (fun m => CMSQuery now m name item)) None
       (FetchOwner FlagCMS any_blob (fun ent m => CMSInstall now m name (Value ent) (Version ent) (ExpireAt ent)))
       (fun blob => Some (CMS_Query blob item)) w e name).

(** ** Vector sets (vecset.go) *)

Definition vsMutViaOwner (ks : ksRuntime) (name : bytes) (inbox : option bytes) (w : W) (r : Ring) (owner : Peer)
    : (unit + EngErr) * W :=
  match inbox with
  | None => (inr ErrInvalidArgument, w)
  | Some inbox => mutViaOwner true ks name inbox FlagVectorSet 1 w r owner
  end.

(** A new member of a set that already has MaxMembers. *)
Definition vsFull (name member : bytes) : hm (option EngErr) :=
  n ← onStore (fun m => VCard now m name);
  match n with
  | None => mret None
  | Some n =>
      emb ← onStore (fun m => VEmb now m name member);
      mret (invalid_if (match emb with Some _ => false | None => MaxMembers <=? n end))
  end.

Definition Engine_VAdd (w : W) (e : Engine) (ksName name member : bytes) (vec : list float32)
    : (unit + EngErr) * W * Engine :=
  guarded w e ksName [validateKey e ksName name] (fun ks => [vsNeed e ks name; vsCheckMember e member]) (fun ks =>
    let '(bad, h) := (r ← vsCheckVec now name vec;
                      match r with Some err => mret (Some err) | None => vsFull name member end) (mkHost e ks) in
    match bad with
    | Some err => (inr err, w, h_e h)
    | None => routed w (h_e h) (h_ks h) name
                (vsMutViaOwner (h_ks h) name (VS_EncodeInboxAdd member vec))
                (ackOf (VecEng_AddLocal now name member vec))
    end).

Definition Engine_VRem (w : W) (e : Engine) (ksName name member : bytes) : (unit + EngErr) * W * Engine :=
  guarded w e ksName [] (fun ks => [vsNeed e ks name; vsCheckMember e member]) (fun ks =>
    routed w e ks name (vsMutViaOwner ks name (VS_EncodeInboxRem member)) (ackOf (VecEng_RemLocal now name member))).

Definition vsFetch (w : W) (name : bytes) : hm (option Entry * W) :=
  FetchOwner FlagVectorSet any_blob (fun ent m => VSInstall now m name (Value ent) (Version ent) (ExpireAt ent)) w name.

(** A hit of the store, else the owner's snapshot. *)
Definition vsRead {A} (read : Memory -> option A * Memory) : hm (option (option A)) :=
  r ← onStore read; mret (match r with Some a => Some (Some a) | None => None end).

Definition Engine_VSim (w : W) (e : Engine) (ksName name : bytes) (vec : list float32) (k : Z)
    : (list Hit + EngErr) * W * Engine :=
  guarded w e ksName [] (fun ks => [vsNeed e ks name]) (fun ks =>
    let metric := metricOf (cVectorMetric (cfg ks)) in
    let '(bad, h) := vsCheckVec now name vec (mkHost e ks) in
    match bad with
    | Some err => (inr err, w, h_e h)
    | None => readThrough (onStore (fun m => VSim now m name vec k metric)) [] vsFetch
                (decoded (fun b => match VS_DecodeSnapshot b with Some s => VS_Sim s vec k metric | None => None end)
                   [] (fun hits => hits)) w (h_e h) name (h_ks h)
    end).

Definition vsReadInt (read : Memory -> option Z * Memory) (f : VSet -> Z)
    (w : W) (e : Engine) (ksName name : bytes) : (option Z + EngErr) * W * Engine :=
  guarded w e ksName [] (fun ks => [vsNeed e ks name])
    (readThrough (vsRead read) None vsFetch (decoded VS_DecodeSnapshot None (fun s => Some (f s))) w e name).

Definition Engine_VCard (w : W) (e : Engine) (ksName name : bytes) : (option Z + EngErr) * W * Engine :=
  vsReadInt (fun m => VCard now m name) VS_Card w e ksName name.
Definition Engine_VDim (w : W) (e : Engine) (ksName name : bytes) : (option Z + EngErr) * W * Engine :=
  vsReadInt (fun m => VDim now m name) Dim w e ksName name.

Definition Engine_VEmb (w : W) (e : Engine) (ksName name member : bytes)
    : (option (list float32) + EngErr) * W * Engine :=
  guarded w e ksName [] (fun ks => [vsNeed e ks name; vsCheckMember e member])
    (readThrough (vsRead (fun m => VEmb now m name member)) None vsFetch
       (decoded VS_DecodeSnapshot None (fun s => VS_Emb s member)) w e name).

(** ** Streams (stream.go) *)

Definition Engine_XAdd (w : W) (e : Engine) (ksName name payload : bytes) : (bytes + EngErr) * W * Engine :=
  guarded w e ksName [validateKey e ksName name] (fun ks => [sxNeed e ks name; validateValueSize e ks payload])
    (fun ks => routed w e ks name
       (fun w _ owner => me_StreamAdd env w (peer_Addr owner) (Name (cfg ks)) name payload)
       (valueOf (StreamEng_AddLocal now name payload))).

(** The inbox entry of sxInboxViaOwner has no version. *)
Definition sxWrite (inbox : bytes) (act : hm (option mode_err)) (w : W) (e : Engine) (name : bytes) (ks : ksRuntime)
    : (unit + EngErr) * W * Engine :=
  routed w e ks name (mutViaOwner true ks name inbox FlagStream 0) (ackOf act).

Definition Engine_XDel (w : W) (e : Engine) (ksName name id : bytes) : (unit + EngErr) * W * Engine :=
  guarded w e ksName [] (fun ks => [sxNeed e ks name; invalid_if (negb (decodes ParseID id))])
    (sxWrite (EncodeInboxDel id) (StreamEng_DelLocal now name id) w e name).

Definition Engine_XTrim (w : W) (e : Engine) (ksName name : bytes) (maxLen : Z) : (unit + EngErr) * W * Engine :=
  guarded w e ksName [] (fun ks => [sxNeed e ks name; invalid_if (maxLen <? 0)])
    (sxWrite (EncodeInboxTrim maxLen) (StreamEng_TrimLocal now name maxLen) w e name).

Definition sxFetch (w : W) (name : bytes) : hm (option Entry * W) :=
  FetchOwner FlagStream (decodes DecodeSnapshot)
    (fun ent m => SXInstall now m name (Value ent) (Version ent) (ExpireAt ent)) w name.

Definition rangeRows (lg : Log) (start stop : bytes) (count : Z) (rev : bool) : list (bytes * bytes) :=
  match ParseBound start true, ParseBound stop false with
  | Some sb, Some eb => map (fun e => (FormatID (Ms e) (Seq e), Payload e)) (Log_Range lg sb eb count rev)
  | _, _ => []
  end.

Definition sxRange (rev : bool) (w : W) (e : Engine) (ksName name start stop : bytes) (count : Z)
    : (list (bytes * bytes) + EngErr) * W * Engine :=
  guarded w e ksName []
    (fun ks => [sxNeed e ks name;
                invalid_if (negb (decodes (fun b => ParseBound b true) start));
                invalid_if (negb (decodes (fun b => ParseBound b false) stop))])
    (readThrough
       (rows ← onStore (fun m => XRange now m name start stop count rev); mret (default None rows)) []
       sxFetch (decoded DecodeSnapshot [] (fun lg => rangeRows lg start stop count rev)) w e name).
Definition Engine_XRange := sxRange false.
Definition Engine_XRevRange := sxRange true.

Definition Engine_XLen (w : W) (e : Engine) (ksName name : bytes) : (option Z + EngErr) * W * Engine :=
  guarded w e ksName [] (fun ks => [sxNeed e ks name])
    (readThrough (vsRead (fun m => XLen now m name)) None sxFetch
       (decoded DecodeSnapshot None (fun lg => Some (len (Entries lg)))) w e name).
End commands.
