(* ===== verification/ModesInv.v ===== *)
(** * The typed modes keep every store well-formed

    A small program logic for the host monad ([yields]): every adapter of
    pkg/*/eng, every handler of ApplyPutWithRingGen and every command of the
    engine leads from an engine whose keyspaces hold well-formed stores to such
    an engine. *)
From S2P Require Import Prelude Wire Collections Scored Scalars Json JsonText Sketches.
From S2P Require Import Cms TopK Stream Vecset Store StoreInv StoreView StoreProps.
From S2P Require Import StoreKinds StoreKindsProps StoreScalars StoreScalarsProps StoreJson StoreSafety.
From S2P Require Import Ring Hints Protect Config Engine EngineProps Modes ModeOps.

Implicit Types (m : Memory) (ks : ksRuntime) (e : Engine) (h : Host).

(** ** The invariant *)

(** Every keyspace is filed under its own name and holds a well-formed store. *)
Definition engine_ok e : Prop :=
  forall n ks, getKS e n = Some ks -> Name (cfg ks) = n /\ store_ok (kstore ks).

Record host_ok h : Prop := {
  ho_here : getKS (h_e h) (KeyspaceName h) = Some (h_ks h);
  ho_all : engine_ok (h_e h);
}.

Definition yields {A} (act : hm A) (Q : A -> Prop) : Prop :=
  forall h, host_ok h -> Q (act h).1 /\ host_ok (act h).2.

Definition keeps {A} (act : hm A) : Prop := yields act (fun _ => True).

Lemma yields_ret {A} (a : A) (Q : A -> Prop) : Q a -> yields (mret a) Q.
Proof. by intros HQ h Hh. Qed.

Lemma yields_bind {A B} (x : hm A) (f : A -> hm B) Q R :
  yields x Q -> (forall a, Q a -> yields (f a) R) -> yields (x ≫= f) R.
Proof.
  intros Hx Hf h Hh. unfold mbind, hm_bind. destruct (Hx h Hh) as [HQ Hh'].
  destruct (x h) as [a h']. by apply Hf.
Qed.

Lemma yields_weaken {A} (act : hm A) (Q R : A -> Prop) : (forall a, Q a -> R a) -> yields act Q -> yields act R.
Proof. intros HQR Ha h Hh. destruct (Ha h Hh). auto. Qed.

Lemma keeps_ret {A} (a : A) : keeps (mret a).
Proof. by apply yields_ret. Qed.

Lemma keeps_bind {A B} (x : hm A) (f : A -> hm B) : keeps x -> (forall a, keeps (f a)) -> keeps (x ≫= f).
Proof. intros Hx Hf. eapply yields_bind; [exact Hx|]. intros a _. apply Hf. Qed.

Lemma keeps_after {A B} (x : hm A) (f : A -> hm B) Q : yields x Q -> (forall a, Q a -> keeps (f a)) -> keeps (x ≫= f).
Proof. apply yields_bind. Qed.

Lemma keeps_asks {A} (f : Host -> A) : keeps (asks f).
Proof. by intros h Hh. Qed.

Lemma engine_ok_with_ks e n ks :
  engine_ok e -> Name (cfg ks) = n -> store_ok (kstore ks) -> engine_ok (with_ks e n ks).
Proof.
  intros He Hn Hok n' ks'. unfold getKS. cbn [keyspaces with_ks with_keyspaces].
  rewrite lookup_insert_Some. intros [[<- <-]|[_ H]]; [done|by apply He].
Qed.

Lemma keeps_onKS {A} (f : ksRuntime -> A * ksRuntime) :
  (forall ks, store_ok (kstore ks) -> cfg (f ks).2 = cfg ks /\ store_ok (kstore (f ks).2)) -> keeps (onKS f).
Proof.
  intros Hf h [H1 H2]. destruct (H2 _ _ H1) as [Hn Hok]. destruct (Hf _ Hok) as [Hc Hs].
  unfold onKS. destruct (f (h_ks h)) as [a ks]. cbn in *. split; [done|].
  assert (Hk : Name (cfg ks) = KeyspaceName h) by (unfold KeyspaceName; by rewrite Hc).
  split; cbn [h_e h_ks]; [|by apply engine_ok_with_ks].
  change (KeyspaceName (mkHost _ ks)) with (Name (cfg ks)). rewrite Hk. apply lookup_insert_eq.
Qed.

Lemma keeps_onStore {A} (f : Memory -> A * Memory) :
  (forall m, store_ok m -> store_ok (f m).2) -> keeps (onStore f).
Proof.
  intros Hf. apply keeps_onKS. intros ks Hok. specialize (Hf _ Hok). by destruct (f (kstore ks)).
Qed.

Lemma engine_ok_same e e' : keyspaces e' = keyspaces e -> engine_ok e -> engine_ok e'.
Proof. unfold engine_ok, getKS. by intros ->. Qed.

Lemma replicate_keyspaces e n name ent f : keyspaces (replicate e n name ent f) = keyspaces e.
Proof. unfold replicate. by destruct (replicaFanout e n name f) as [[[[c r] fo] [|p ps]]|]. Qed.

Lemma keeps_replicateAs n name ent : keeps (replicateAs n name ent).
Proof.
  intros h [H1 H2]. split; [done|]. unfold replicateAs. split; cbn [h_e h_ks snd].
  - unfold getKS, KeyspaceName in *. cbn [h_ks]. by rewrite replicate_keyspaces.
  - eapply engine_ok_same; [apply replicate_keyspaces|done].
Qed.

Lemma keeps_Replicate name ent : keeps (Replicate name ent).
Proof. intros h. apply keeps_replicateAs. Qed.

Lemma keeps_ObserveVersion now name v : keeps (ObserveVersion now name v).
Proof.
  apply keeps_onKS. intros ks Hok. destruct (observeVersion_spec now ks name v Hok) as (Hr & Hc & _).
  split; [done|apply Hr].
Qed.

(** ** Store operations *)

Lemma op_keeps now o m : store_ok m -> args_ok o -> store_ok (run_op now o m).
Proof. apply run_op_keeps. Qed.

Lemma peek_keeps {T R} `{StoreKind T} now m k (none : R) (f : T -> R) :
  store_ok m -> store_ok (with_peek now m k none f).2.
Proof.
  intros Hok. unfold with_peek. destruct (peekLocked_refined (T := T) now m k Hok) as [_ Hs].
  by destruct (peekLocked now m k).
Qed.

Lemma has_keeps flag now m k : store_ok m -> store_ok (hasLocked flag now m k).2.
Proof. intros Hok. by apply (hasLocked_refined flag now m k). Qed.

Lemma blob_keeps {R} flag now m k (f : bytes -> R) : store_ok m -> store_ok (with_blob flag now m k f).2.
Proof.
  intros Hok. unfold with_blob. pose proof (has_keeps flag now m k Hok). by destruct (hasLocked flag now m k).
Qed.

(** The operation behind a store call, with what its caller owes. *)
Ltac store_call :=
  lazymatch goal with
  | |- store_ok (PeekVersion ?now ?m ?k).2 => apply (op_keeps now (OPeekVersion k) m)
  | |- store_ok (Peek ?now ?m ?k).2 => apply (op_keeps now (OPeek k) m)
  | |- store_ok (AcceptIfNewer ?now ?m ?k ?e).2 => apply (op_keeps now (OAcceptIfNewer k e) m)
  | |- store_ok (AcceptNegative ?now ?m ?k ?e).2 => apply (op_keeps now (OAcceptNegative k e) m)
  | |- store_ok (SetAdd ?now ?m ?k ?i ?v ?x).2 => apply (op_keeps now (OSetAdd (mkWr k v x) i) m)
  | |- store_ok (SetRemove ?now ?m ?k ?i ?v ?x).2 => apply (op_keeps now (OSetRemove (mkWr k v x) i) m)
  | |- store_ok (SetInstall ?now ?m ?k ?b ?v ?x).2 => apply (op_keeps now (OSetInstall (mkWr k v x) b) m)
  | |- store_ok (ZAdd ?now ?m ?k ?i ?s ?v ?x).2 => apply (op_keeps now (OZAdd (mkWr k v x) i s) m)
  | |- store_ok (ZRem ?now ?m ?k ?i ?v ?x).2 => apply (op_keeps now (OZRem (mkWr k v x) i) m)
  | |- store_ok (ZInstall ?now ?m ?k ?b ?v ?x).2 => apply (op_keeps now (OZInstall (mkWr k v x) b) m)
  | |- store_ok (GeoAdd ?now ?m ?k ?i ?lon ?lat ?v ?x).2 => apply (op_keeps now (OGeoAdd (mkWr k v x) i lon lat) m)
  | |- store_ok (GeoRem ?now ?m ?k ?i ?v ?x).2 => apply (op_keeps now (OGeoRem (mkWr k v x) i) m)
  | |- store_ok (GeoInstall ?now ?m ?k ?b ?v ?x).2 => apply (op_keeps now (OGeoInstall (mkWr k v x) b) m)
  | |- store_ok (HSet ?now ?m ?k ?f ?i ?v ?x).2 => apply (op_keeps now (OHSet (mkWr k v x) f i) m)
  | |- store_ok (HDel ?now ?m ?k ?f ?v ?x).2 => apply (op_keeps now (OHDel (mkWr k v x) f) m)
  | |- store_ok (HInstall ?now ?m ?k ?b ?v ?x).2 => apply (op_keeps now (OHInstall (mkWr k v x) b) m)
  | |- store_ok (LPush ?now ?m ?k ?i ?v ?x).2 => apply (op_keeps now (OLPush (mkWr k v x) i) m)
  | |- store_ok (RPush ?now ?m ?k ?i ?v ?x).2 => apply (op_keeps now (ORPush (mkWr k v x) i) m)
  | |- store_ok (LInstall ?now ?m ?k ?b ?v ?x).2 => apply (op_keeps now (OLInstall (mkWr k v x) b) m)
  | |- store_ok (CIncr ?now ?m ?k ?d ?v ?x).2 => apply (op_keeps now (OCIncr (mkWr k v x) d) m)
  | |- store_ok (CGet ?now ?m ?k).2 => apply (op_keeps now (OCGet k) m)
  | |- store_ok (CInstall ?now ?m ?k ?b ?v ?x).2 => apply (op_keeps now (OCInstall (mkWr k v x) b) m)
  | |- store_ok (BloomAdd ?now ?m ?k ?i ?mb ?kk ?v ?x).2 => apply (op_keeps now (OBloomAdd (mkWr k v x) i mb kk) m)
  | |- store_ok (BloomTest ?now ?m ?k ?i ?mb ?kk).2 => apply (op_keeps now (OBloomTest k i mb kk) m)
  | |- store_ok (BloomMerge ?now ?m ?k ?i ?mb ?kk ?v ?x).2 => apply (op_keeps now (OBloomMerge (mkWr k v x) i mb kk) m)
  | |- store_ok (BSet ?now ?m ?k ?o ?b ?v ?x ?mv).2 => apply (op_keeps now (OBSet (mkWr k v x) o b mv) m)
  | |- store_ok (BInstall ?now ?m ?k ?b ?v ?x).2 => apply (op_keeps now (OBInstall (mkWr k v x) b) m)
  | |- store_ok (HLLAdd ?now ?m ?k ?i ?v ?x ?mv).2 => apply (op_keeps now (OHLLAdd (mkWr k v x) i mv) m)
  | |- store_ok (HLLInstall ?now ?m ?k ?b ?v ?x).2 => apply (op_keeps now (OHLLInstall (mkWr k v x) b) m)
  | |- store_ok (TopKAdd ?now ?m ?k ?i ?v ?x ?kk ?mv).2 => apply (op_keeps now (OTopKAdd (mkWr k v x) i kk mv) m)
  | |- store_ok (TopKInstall ?now ?m ?k ?b ?v ?x ?kk).2 => apply (op_keeps now (OTopKInstall (mkWr k v x) b kk) m)
  | |- store_ok (CMSIncr ?now ?m ?k ?i ?n ?v ?x ?mv).2 => apply (op_keeps now (OCMSIncr (mkWr k v x) i n mv) m)
  | |- store_ok (CMSInstall ?now ?m ?k ?b ?v ?x).2 => apply (op_keeps now (OCMSInstall (mkWr k v x) b) m)
  | |- store_ok (XAdd ?now ?ms ?m ?k ?p ?v ?x ?mv ?t).2 => apply (op_keeps now (OXAdd (mkWr k v x) ms p mv t) m)
  | |- store_ok (XDel ?now ?m ?k ?i ?v ?x).2 => apply (op_keeps now (OXDel (mkWr k v x) i) m)
  | |- store_ok (XTrim ?now ?m ?k ?i ?v ?x).2 => apply (op_keeps now (OXTrim (mkWr k v x) i) m)
  | |- store_ok (SXInstall ?now ?m ?k ?b ?v ?x).2 => apply (op_keeps now (OSXInstall (mkWr k v x) b) m)
  | |- store_ok (VAdd ?now ?m ?k ?i ?vec ?v ?x ?mv).2 => apply (op_keeps now (OVAdd (mkWr k v x) i vec mv) m)
  | |- store_ok (VRem ?now ?m ?k ?i ?v ?x).2 => apply (op_keeps now (OVRem (mkWr k v x) i) m)
  | |- store_ok (VSInstall ?now ?m ?k ?b ?v ?x).2 => apply (op_keeps now (OVSInstall (mkWr k v x) b) m)
  | |- store_ok (JSet ?now ?m ?k ?p ?r ?v ?x ?mv).2 => apply (op_keeps now (OJSet (mkWr k v x) p r mv) m)
  | |- store_ok (JDel ?now ?m ?k ?p ?v ?x).2 => apply (op_keeps now (OJDel (mkWr k v x) p) m)
  | |- store_ok (JGet ?now ?m ?k ?p).2 => apply (op_keeps now (OJGet k p) m)
  | |- store_ok (JInstall ?now ?m ?k ?b ?v ?x).2 => apply (op_keeps now (OJInstall (mkWr k v x) b) m)
  | |- store_ok (hasLocked _ _ _ _).2 => apply has_keeps
  | |- store_ok (with_blob _ _ _ _ _).2 => apply blob_keeps
  | |- store_ok (with_peek _ _ _ _ _).2 => apply peek_keeps
  end.

(** ** Adapters *)

Lemma expire_keeps now : keeps (Host_ExpireAt now).
Proof. apply keeps_asks. Qed.

Lemma defaultExpire_keeps now x : keeps (defaultExpire now x).
Proof. unfold defaultExpire. destruct (x =? 0); [apply expire_keeps|apply keeps_ret]. Qed.

Lemma NextVersion_keeps now name : keeps (NextVersion now name).
Proof.
  apply keeps_bind; [apply keeps_onStore; intros m Hok; by store_call|]. intros v.
  apply keeps_onKS. intros ks. apply nextVersion_keeps.
Qed.

Lemma applyStore_keeps now x (op : Z -> Memory -> bool * Memory) :
  (forall x m, store_ok m -> store_ok (op x m).2) -> keeps (applyStore now x op).
Proof.
  intros Hop. apply keeps_bind; [apply defaultExpire_keeps|]. intros x'.
  apply keeps_onStore. intros m. by apply Hop.
Qed.

Lemma deltaLocal_keeps now name op has payload flag fan :
  (forall v x m, store_ok m -> store_ok (op v x m).2) ->
  (forall f m, has = Some f -> store_ok m -> store_ok (f m).2) ->
  keeps (deltaLocal now name op has payload flag fan).
Proof.
  intros Hop Hhas. apply keeps_bind; [apply NextVersion_keeps|]. intros v.
  apply keeps_bind; [apply expire_keeps|]. intros x.
  apply keeps_bind; [apply keeps_onStore; intros m; by apply Hop|]. intros [|].
  - apply keeps_bind; [destruct fan; [apply keeps_Replicate|apply keeps_ret]|]. intros _. apply keeps_ret.
  - destruct has as [f|]; [|apply keeps_ret].
    apply keeps_bind; [apply keeps_onStore; intros m; by apply Hhas|]. intros live. apply keeps_ret.
Qed.

Lemma nextGate_keeps now name : keeps (nextGate now name).
Proof. apply keeps_bind; [apply keeps_onStore; intros m Hok; by store_call|]. intros ?. apply keeps_ret. Qed.

Lemma ReplicateSnapshot_keeps now name flag shape v x : keeps (ReplicateSnapshot now name flag shape v x).
Proof.
  apply keeps_bind; [apply keeps_onStore; intros m Hok; by store_call|]. intros [ent|]; [|apply keeps_ret].
  destruct (_ && _); [apply keeps_Replicate|apply keeps_ret].
Qed.

Lemma observed_keeps now name : keeps (observed now name).
Proof.
  apply keeps_bind; [apply keeps_onStore; intros m Hok; by store_call|]. intros v.
  apply keeps_bind; [apply keeps_ObserveVersion|]. intros _. apply keeps_ret.
Qed.

Lemma publish_keeps now name flag shape x : keeps (publish now name flag shape x).
Proof. apply keeps_bind; [apply observed_keeps|]. intros v. apply ReplicateSnapshot_keeps. Qed.

Lemma upsertLocal_keeps now name flag shape x (op : Z -> Memory -> (bool * bool) * Memory) :
  (forall v m, store_ok m -> store_ok (op v m).2) -> keeps (upsertLocal now name flag shape x op).
Proof.
  intros Hop. apply keeps_bind; [apply nextGate_keeps|]. intros gate.
  apply keeps_bind; [apply keeps_onStore; intros m; by apply Hop|]. intros [[|] [|]]; cbn; try apply keeps_ret.
  apply keeps_bind; [apply publish_keeps|]. intros _. apply keeps_ret.
Qed.

Lemma editLocal_keeps now name flag op has :
  (forall v x m, store_ok m -> store_ok (op v x m).2) ->
  (forall m, store_ok m -> store_ok (has m).2) -> keeps (editLocal now name flag op has).
Proof.
  intros Hop Hhas. apply keeps_bind; [apply expire_keeps|]. intros x.
  apply keeps_bind; [apply nextGate_keeps|]. intros gate.
  apply keeps_bind; [apply keeps_onStore; intros m; by apply Hop|]. intros [|]; cbn [negb]; [|apply keeps_ret].
  apply keeps_bind; [apply keeps_onStore; intros m; by apply Hhas|]. intros [|]; cbn [negb]; [|apply keeps_ret].
  apply keeps_bind; [apply publish_keeps|]. intros _. apply keeps_ret.
Qed.

Create HintDb modes.
#[export] Hint Resolve @keeps_ret @keeps_asks keeps_Replicate keeps_replicateAs keeps_ObserveVersion expire_keeps
  defaultExpire_keeps NextVersion_keeps nextGate_keeps ReplicateSnapshot_keeps observed_keeps publish_keeps : modes.

(** The head of a program or of a store call is a definition: open it. *)
Ltac head_of t := lazymatch t with ?f _ => head_of f | _ => t end.
Ltac unfold_step :=
  lazymatch goal with
  | |- keeps ?act => let f := head_of act in unfold f
  | |- store_ok ?r.2 => let f := head_of r in unfold f
  end.

(** One step through a host program. *)
Ltac host_step :=
  lazymatch goal with
  | |- keeps (mret _) => apply keeps_ret
  | |- keeps (asks _) => apply keeps_asks
  | |- keeps (onStore _) => apply keeps_onStore; intros ? ?
  | |- keeps (applyStore _ _ _) => apply applyStore_keeps; intros ? ? ?
  | |- keeps (deltaLocal _ _ _ _ _ _ _) => apply deltaLocal_keeps; [intros ? ? ? ?|intros ? ? [= <-] ?]
  | |- keeps (upsertLocal _ _ _ _ _ _) => apply upsertLocal_keeps; intros ? ? ?
  | |- keeps (editLocal _ _ _ _ _) => apply editLocal_keeps; [intros ? ? ? ?|intros ? ?]
  | |- keeps (_ ≫= _) => apply keeps_bind; [|intros ?]
  | |- keeps (match ?x with _ => _ end) => destruct x eqn:?
  | |- store_ok (let '(_, _) := ?x in _).2 => let H := fresh in
      assert (H : store_ok x.2); [|destruct x; exact H]
  | |- store_ok (if ?b then _ else _).2 => destruct b
  | |- store_ok (match ?x with Some _ => _ | None => _ end).2 => destruct x
  | |- store_ok _.2 => first [store_call | solve [eauto with modes] | unfold_step]
  | |- keeps _ => first [solve [eauto with modes] | unfold_step]
  end.
Ltac host_tac := repeat host_step; try done; eauto with modes.

(** The owner's side of every mode. *)
Section local.
Context (now : Z) (name : bytes).

Lemma SetEng_add_keeps item fan (Hi : Wire.fits item) : keeps (SetEng_AddLocal now name item fan).
Proof. host_tac. Qed.

Lemma SetEng_remove_keeps item fan : keeps (SetEng_RemoveLocal now name item fan).
Proof. host_tac. Qed.

Lemma ZSetEng_add_keeps member score fan (Hi : Wire.fits member) (Hs : is_f64 score) :
  keeps (ZSetEng_AddLocal now name member score fan).
Proof. host_tac. Qed.

Lemma ZSetEng_rem_keeps member fan : keeps (ZSetEng_RemLocal now name member fan).
Proof. host_tac. Qed.

Lemma GeoEng_add_keeps member lon lat fan (Hi : Wire.fits member) (Hlon : is_f64 lon) (Hlat : is_f64 lat) :
  keeps (GeoEng_AddLocal now name member lon lat fan).
Proof. host_tac. Qed.

Lemma GeoEng_rem_keeps member fan : keeps (GeoEng_RemLocal now name member fan).
Proof. host_tac. Qed.

Lemma HashEng_set_keeps field value fan (Hf : Wire.fits field) (Hv : Wire.fits value) :
  keeps (HashEng_SetLocal now name field value fan).
Proof. host_tac. Qed.

Lemma HashEng_del_keeps field fan : keeps (HashEng_DelLocal now name field fan).
Proof. host_tac. Qed.

Lemma BloomEng_add_keeps item fan : keeps (BloomEng_AddLocal now name item fan).
Proof. host_tac. Qed.

Lemma pushOp_keeps item left gate x m (Hi : Wire.fits item) :
  store_ok m -> store_ok (pushOp now name item left gate x m).2.
Proof. intros. unfold pushOp. host_tac. Qed.

Lemma ListEng_push_keeps item left fan (Hi : Wire.fits item) : keeps (ListEng_Push now name item left fan).
Proof. host_tac; by apply pushOp_keeps. Qed.

Lemma pop_keeps (left : bool) gate x m :
  store_ok m ->
  store_ok (let '(item, applied, m) := if left then LPop now m name gate x else RPop now m name gate x in
            ((item, applied), m)).2.
Proof.
  intros Hok. destruct left.
  - pose proof (op_keeps now (OLPop (mkWr name gate x)) m Hok I) as H. cbn in H.
    by destruct (LPop now m name gate x) as [[? ?] ?].
  - pose proof (op_keeps now (ORPop (mkWr name gate x)) m Hok I) as H. cbn in H.
    by destruct (RPop now m name gate x) as [[? ?] ?].
Qed.

Lemma ListEng_pop_keeps left fan : keeps (ListEng_Pop now name left fan).
Proof.
  unfold ListEng_Pop. do 2 host_step; [eauto with modes|]. host_step.
  { apply keeps_onStore. intros m Hok. by apply pop_keeps. }
  host_tac.
Qed.

Lemma CounterEng_keeps delta fan : keeps (CounterEng_IncrLocal now name delta fan).
Proof. host_tac. Qed.

Lemma BitmapEng_keeps offset bit : keeps (BitmapEng_SetLocal now name offset bit).
Proof. host_tac. Qed.

Lemma HLLEng_keeps item : keeps (HLLEng_AddLocal now name item).
Proof. host_tac. Qed.

Lemma TopKEng_keeps item : keeps (TopKEng_AddLocal now name item).
Proof. host_tac. Qed.

Lemma CMSEng_keeps item n : keeps (CMSEng_IncrLocal now name item n).
Proof. host_tac. Qed.

Lemma JSONEng_set_keeps path raw (Hj : jset_ok path raw) : keeps (JSONEng_SetLocal now name path raw).
Proof. host_tac. Qed.

Lemma JSONEng_del_keeps path : keeps (JSONEng_DelLocal now name path).
Proof. host_tac. Qed.

Lemma liveStream_keeps m k : store_ok m -> store_ok (liveStreamLocked now m k).2.
Proof.
  intros Hok. unfold liveStreamLocked. pose proof (blob_keeps FlagStream now m k DecodeSnapshot Hok).
  by destruct (with_blob _ _ _ _ _).
Qed.

Lemma liveVS_keeps m k : store_ok m -> store_ok (liveVSLocked now m k).2.
Proof.
  intros Hok. unfold liveVSLocked. pose proof (blob_keeps FlagVectorSet now m k VS_DecodeSnapshot Hok).
  by destruct (with_blob _ _ _ _ _).
Qed.
End local.
#[export] Hint Resolve liveStream_keeps liveVS_keeps : modes.

Section stream.
Context (now : Z) (name : bytes).

Lemma StreamEng_add_keeps payload : keeps (StreamEng_AddLocal now name payload).
Proof. host_tac. Qed.

Lemma StreamEng_del_keeps id : keeps (StreamEng_DelLocal now name id).
Proof. host_tac. Qed.

Lemma StreamEng_trim_keeps n : keeps (StreamEng_TrimLocal now name n).
Proof. host_tac. Qed.

Lemma StreamEng_inbox_keeps blob : keeps (StreamEng_ApplyInbox now name blob).
Proof. host_tac. Qed.

Lemma VecEng_add_keeps member vec : keeps (VecEng_AddLocal now name member vec).
Proof. host_tac. Qed.

Lemma VecEng_rem_keeps member : keeps (VecEng_RemLocal now name member).
Proof. host_tac. Qed.

Lemma VecEng_inbox_keeps blob x : keeps (VecEng_ApplyInbox now name blob x).
Proof. host_tac. Qed.
End stream.

(** ** Payloads from the wire *)

Lemma ZSet_DecodeAdd_ok b member score :
  bytes_ok b -> ZSet_DecodeAdd b = Some (member, score) -> Wire.fits member /\ is_f64 score.
Proof.
  intros Hb. unfold ZSet_DecodeAdd. destruct (ZSet_Decode b) as [z|] eqn:E; [|done].
  apply ZSet_Decode_ok in E; [|done]. destruct (ZSet_ordered z) as [|x [|]] eqn:Eo; try done. intros [= <- <-].
  assert (Hx : z !! zm_member x = Some (zm_score x)) by (apply elem_of_ordered; rewrite Eo; by left).
  by destruct (E _ _ Hx) as (? & ? & ?).
Qed.

Lemma Geo_DecodeAdd_ok b member lon lat :
  bytes_ok b -> Geo_DecodeAdd b = Some (member, lon, lat) -> Wire.fits member /\ is_f64 lon /\ is_f64 lat.
Proof.
  intros Hb. unfold Geo_DecodeAdd. destruct (Geo_Decode b) as [g|] eqn:E; [|done].
  apply Geo_Decode_ok in E; [|done]. destruct (Geo_orderedMembers g) as [|[k p] [|]] eqn:Eo; try done. intros [= <- <- <-].
  assert (Hx : g !! k = Some p) by (apply elem_of_by_key; unfold Geo_orderedMembers in Eo; rewrite Eo; by left).
  by destruct (E _ _ Hx) as (? & ? & ? & ?).
Qed.

Lemma Hash_DecodeSet_ok b field value :
  Hash_DecodeSet b = Some (field, value) -> Wire.fits field /\ Wire.fits value.
Proof.
  unfold Hash_DecodeSet. destruct b as [|c b]; [done|]. unfold consumePair.
  destruct (unframe (c :: b)) as [[f b1]|] eqn:E1; [|done]. destruct (unframe b1) as [[v [|]]|] eqn:E2; try done.
  intros [= <- <-]. eauto using unframe_fits.
Qed.

(** The flags a peer puts on an entry: none, or exactly one. *)
Definition wire_flags : list Z :=
  [0; FlagNegative; FlagTombstone; FlagBloom; FlagBloomAdd; FlagSet; FlagSetAdd; FlagSetRemove; FlagZSet; FlagZSetAdd;
   FlagZSetRem; FlagGeo; FlagGeoAdd; FlagGeoRem; FlagList; FlagListLPush; FlagListRPush; FlagHash; FlagHashSet;
   FlagHashDel; FlagCounter; FlagJSON; FlagJSONSet; FlagJSONDel; FlagBitmap; FlagBitmapSet; FlagHLL; FlagHLLAdd;
   FlagTopK; FlagTopKAdd; FlagCMS; FlagCMSIncr; FlagVectorSet; FlagStream].

(** What the sender of an entry owes: bytes, one flag, and a JSON write whose
    result still decodes.  Versions and expiries are arbitrary. *)
Record wire_ok (ent : Entry) : Prop := {
  wi_flag : Flags ent ∈ wire_flags;
  wi_bytes : bytes_ok (Value ent);
  wi_fits : Wire.fits (Value ent);
  wi_json : forall path raw, Flags ent = FlagJSONSet -> Json_DecodeSet (Value ent) = Some (path, raw) -> jset_ok path raw;
}.

Lemma forwardDelta_keeps n name ent act : keeps act -> keeps (forwardDelta n name ent act).
Proof. intros Ha. unfold forwardDelta. host_tac. Qed.

Lemma ownerOnly_keeps name act : keeps act -> keeps (ownerOnly name act).
Proof. intros Ha. unfold ownerOnly. host_tac. Qed.
#[export] Hint Resolve forwardDelta_keeps ownerOnly_keeps : modes.

Section handlers.
Context (now : Z) (n name : bytes) (ent : Entry).
Context (Hb : bytes_ok (Value ent)) (Hf : Wire.fits (Value ent)).

Lemma handlers_keep :
  (forall path raw, Flags ent = FlagJSONSet -> Json_DecodeSet (Value ent) = Some (path, raw) -> jset_ok path raw) ->
  forall f act, (f, act) ∈ handlers now n name ent -> Flags ent = f -> keeps act.
Proof.
  intros Hj f act Hin Hflag. unfold handlers in Hin. cbv zeta in Hin.
  repeat (apply elem_of_cons in Hin as [[= -> ->]|Hin]); [..|by apply elem_of_nil in Hin];
    try apply forwardDelta_keeps; try apply ownerOnly_keeps.
  all: try solve [host_tac].
  - unfold ZSetEng_ApplyAdd. destruct (ZSet_DecodeAdd _) as [[i s]|] eqn:E; [|host_tac].
    apply ZSet_DecodeAdd_ok in E as [? ?]; [|done]. host_tac.
  - unfold GeoEng_ApplyAdd. destruct (Geo_DecodeAdd _) as [[[i lon] lat]|] eqn:E; [|host_tac].
    apply Geo_DecodeAdd_ok in E as (? & ? & ?); [|done]. host_tac.
  - unfold HashEng_ApplySet. destruct (Hash_DecodeSet _) as [[i v]|] eqn:E; [|host_tac].
    apply Hash_DecodeSet_ok in E as [? ?]. host_tac.
  - unfold JSONEng_ApplySet. destruct (Json_DecodeSet _) as [[p r]|] eqn:E; [|host_tac].
    pose proof (Hj _ _ Hflag eq_refl). host_tac.
Qed.
End handlers.

Lemma dispatch_cases ent hs plain :
  dispatch ent hs plain = plain \/
  exists f act, (f, act) ∈ hs /\ has_flag f ent = true /\ dispatch ent hs plain = act.
Proof.
  induction hs as [|[f act] hs IH]; [by left|]. cbn [dispatch]. destruct (has_flag f ent) eqn:E.
  - right. exists f, act. split; [by left|done].
  - destruct IH as [?|(f' & act' & ? & ? & ?)]; [by left|]. right. exists f', act'. split; [by right|done].
Qed.

(** Every flag is a bit of its own. *)
Definition known_flags : list Z := tail wire_flags.

Lemma flags_disjoint f g : f ∈ known_flags -> g ∈ wire_flags -> Z.land g f <> 0 -> g = f.
Proof.
  intros Hf Hg.
  assert (H : forallb (fun f => forallb (fun g => bool_decide (g = f) || (Z.land g f =? 0)) wire_flags) known_flags = true)
    by reflexivity.
  rewrite forallb_forall in H. apply list_elem_of_In in Hf, Hg. specialize (H f Hf). rewrite forallb_forall in H.
  specialize (H g Hg). apply orb_true_iff in H as [H|H]; [by apply bool_decide_eq_true in H|].
  apply Z.eqb_eq in H. done.
Qed.

Lemma one_flag f ent : f ∈ known_flags -> Flags ent ∈ wire_flags -> has_flag f ent = true -> Flags ent = f.
Proof.
  intros Hf He H. apply flags_disjoint; [done|done|]. unfold has_flag in H.
  apply negb_true_iff, Z.eqb_neq in H. done.
Qed.

Lemma elem_of_checked (x : Z) (l k : list Z) :
  forallb (fun y => bool_decide (y ∈ k)) l = true -> x ∈ l -> x ∈ k.
Proof. rewrite forallb_forall. intros H Hx. apply list_elem_of_In, H in Hx. by apply bool_decide_eq_true in Hx. Qed.

Lemma handlers_known now n name ent f act : (f, act) ∈ handlers now n name ent -> f ∈ known_flags.
Proof.
  intros Hin. apply (elem_of_checked f (map fst (handlers now n name ent))); [reflexivity|].
  apply list_elem_of_fmap. by exists (f, act).
Qed.

Lemma wire_entry_ok ent : wire_ok ent -> entry_ok ent.
Proof.
  intros [Hf Hb _ _]. split; [done|]. intros Hbl. apply (one_flag FlagBloom) in Hbl; [|set_solver|done].
  unfold untyped, unkinded, IsJSON, IsSet, IsZSet, IsGeo, IsList, IsHash, has_flag. by rewrite Hbl.
Qed.

Lemma applyEntry_keeps now n name ent : wire_ok ent -> keeps (applyEntry now n name ent).
Proof.
  intros Hw. apply keeps_bind; [apply keeps_ObserveVersion|]. intros _.
  destruct (dispatch_cases ent (handlers now n name ent) (onStore (fun m => AcceptIfNewer now m name ent)))
    as [->|(f & act & Hin & Hflag & ->)].
  - apply keeps_onStore. intros m Hok. store_call; [done|]. by apply wire_entry_ok.
  - destruct Hw as [H1 H2 H3 H4]. eapply handlers_keep; [done|done|done|exact Hin|].
    apply one_flag; [by eapply handlers_known|done|done].
Qed.

(** An entry from a peer, whatever its kind, leaves every store well-formed. *)
Lemma ApplyPut_keeps now e n name ent :
  engine_ok e -> wire_ok ent -> engine_ok (ApplyPutWithRingGen now e n name ent).2.
Proof.
  intros He Hw. unfold ApplyPutWithRingGen. destruct (validateKey e n name); [done|].
  destruct (getKS e n) as [ks|] eqn:E; [|done].
  destruct (applyEntry_keeps now n name ent Hw (mkHost e ks)) as [_ Hh].
  { split; [|done]. unfold KeyspaceName. cbn [h_e h_ks]. destruct (He _ _ E) as [-> _]. done. }
  destruct (applyEntry now n name ent (mkHost e ks)) as [ok h]. apply Hh.
Qed.

Lemma ApplyDelete_keeps now e n name v :
  engine_ok e -> engine_ok (ApplyDeleteWithRingGen now e n name v).2.
Proof.
  intros He. unfold ApplyDeleteWithRingGen. destruct (validateKey e n name); [done|].
  destruct (getKS e n) as [ks|] eqn:E; [|done]. destruct (He _ _ E) as [Hn Hok]. cbv zeta.
  destruct (observeVersion_spec now ks name v Hok) as (Hr & Hc & _).
  pose proof (op_keeps now (ODeleteIfVersion name v) _ (rd_ok _ _ _ Hr) I) as Hd. cbn [run_op] in Hd.
  destruct (DeleteIfVersion now _ name v) as [ok m]. apply engine_ok_with_ks; [done|cbn; by rewrite Hc|done].
Qed.

Lemma UpdateKeySpace_keeps now e c : engine_ok e -> engine_ok (UpdateKeySpace now e c).2.
Proof.
  intros He. unfold UpdateKeySpace. destruct (Validate c); [done|]. cbn [snd].
  apply engine_ok_with_ks; [done|done|]. apply NewMemory_ok.
Qed.

Lemma DeleteKeySpace_keeps e n : engine_ok e -> engine_ok (DeleteKeySpace e n).2.
Proof.
  intros He. unfold DeleteKeySpace. destruct (keyspaces e !! n); [|done]. intros n' ks'.
  unfold getKS. cbn. rewrite lookup_delete_Some. intros [_ H]. by apply He.
Qed.
