(* ===== verification/ModesProps.v ===== *)
(** * What the typed modes guarantee

    One datatype for the commands of pkg/engine on typed keyspaces ([Cmd]) and
    their execution ([exec]); refusals, routing, the invariant along any
    sequence of steps, replication by snapshots and by deltas. *)
From S2P Require Import Prelude Wire Collections Scored Scalars Json JsonText Sketches.
From S2P Require Import Cms TopK Stream Vecset Store StoreInv StoreView StoreProps.
From S2P Require Import StoreKinds StoreKindsProps StoreScalars StoreScalarsProps StoreJson StoreSafety.
From S2P Require Import Ring Hints Protect Config Engine EngineProps Modes ModeOps.
From S2P Require Import ModesInv.

Implicit Types (m : Memory) (ks : ksRuntime) (e : Engine) (h : Host).

(** ** Commands *)

#[warnings="-register-all"]
Inductive Cmd :=
  | CmdSetAdd (item : bytes) | CmdSetRemove (item : bytes) | CmdSetContains (item : bytes) | CmdSetCard | CmdSetMembers
  | CmdBloomAdd (item : bytes) | CmdBloomTest (item : bytes)
  | CmdZAdd (member : bytes) (score : float64) | CmdZRem (member : bytes) | CmdZScore (member : bytes) | CmdZCard
  | CmdZRange (start stop : Z) | CmdZRangeByScore (min max : float64)
  | CmdGeoAdd (member : bytes) (lon lat : float64) | CmdGeoRem (member : bytes) | CmdGeoPos (member : bytes) | CmdGeoCard
  | CmdHSet (field value : bytes) | CmdHDel (field : bytes) | CmdHGet (field : bytes) | CmdHExists (field : bytes)
  | CmdHLen | CmdHGetAll
  | CmdPush (left : bool) (item : bytes) | CmdPop (left : bool) | CmdLLen | CmdLIndex (idx : Z) | CmdLRange (start stop : Z)
  | CmdIncr (delta : Z) | CmdCounterGet
  | CmdJsonSet (path value : bytes) | CmdJsonDel (path : bytes) | CmdJsonGet (path : bytes)
  | CmdBitSet (offset : Z) (bit : bool) | CmdBitGet (offset : Z) | CmdBitCount (start stop : Z)
  | CmdBitPos (bit : bool) (start stop : Z)
  | CmdHLLAdd (item : bytes) | CmdTopKAdd (item : bytes) | CmdTopKList
  | CmdCMSIncr (item : bytes) (n : Z) | CmdCMSQuery (item : bytes)
  | CmdVAdd (member : bytes) (vec : list float32) | CmdVRem (member : bytes) | CmdVSim (vec : list float32) (k : Z)
  | CmdVCard | CmdVDim | CmdVEmb (member : bytes)
  | CmdXAdd (payload : bytes) | CmdXDel (id : bytes) | CmdXTrim (maxLen : Z)
  | CmdXRange (rev : bool) (start stop : bytes) (count : Z) | CmdXLen.

Definition cmdMode (c : Cmd) : Mode :=
  match c with
  | CmdSetAdd _ | CmdSetRemove _ | CmdSetContains _ | CmdSetCard | CmdSetMembers => ModeSet
  | CmdBloomAdd _ | CmdBloomTest _ => ModeBloom
  | CmdZAdd _ _ | CmdZRem _ | CmdZScore _ | CmdZCard | CmdZRange _ _ | CmdZRangeByScore _ _ => ModeZSet
  | CmdGeoAdd _ _ _ | CmdGeoRem _ | CmdGeoPos _ | CmdGeoCard => ModeGeo
  | CmdHSet _ _ | CmdHDel _ | CmdHGet _ | CmdHExists _ | CmdHLen | CmdHGetAll => ModeHash
  | CmdPush _ _ | CmdPop _ | CmdLLen | CmdLIndex _ | CmdLRange _ _ => ModeList
  | CmdIncr _ | CmdCounterGet => ModeCounter
  | CmdJsonSet _ _ | CmdJsonDel _ | CmdJsonGet _ => ModeJSON
  | CmdBitSet _ _ | CmdBitGet _ | CmdBitCount _ _ | CmdBitPos _ _ _ => ModeBitmap
  | CmdHLLAdd _ => ModeHLL
  | CmdTopKAdd _ | CmdTopKList => ModeTopK
  | CmdCMSIncr _ _ | CmdCMSQuery _ => ModeCMS
  | CmdVAdd _ _ | CmdVRem _ | CmdVSim _ _ | CmdVCard | CmdVDim | CmdVEmb _ => ModeVectorSet
  | CmdXAdd _ | CmdXDel _ | CmdXTrim _ | CmdXRange _ _ _ _ | CmdXLen => ModeStream
  end.

Definition is_write (c : Cmd) : bool :=
  match c with
  | CmdSetAdd _ | CmdSetRemove _ | CmdBloomAdd _ | CmdZAdd _ _ | CmdZRem _ | CmdGeoAdd _ _ _ | CmdGeoRem _
  | CmdHSet _ _ | CmdHDel _ | CmdPush _ _ | CmdPop _ | CmdIncr _ | CmdJsonSet _ _ | CmdJsonDel _ | CmdBitSet _ _
  | CmdHLLAdd _ | CmdTopKAdd _ | CmdCMSIncr _ _ | CmdVAdd _ _ | CmdVRem _ | CmdXAdd _ | CmdXDel _ | CmdXTrim _ => true
  | _ => false
  end.

(** The error of a result, its value dropped. *)
Definition errOf {A W} (r : (A + EngErr) * W * Engine) : option EngErr * W * Engine :=
  let '(res, w, e) := r in (match res with inl _ => None | inr err => Some err end, w, e).

Definition exec {W} (env : ModeEnv W) (now : Z) (ctx : Ctx) (w : W) (e : Engine) (n name : bytes) (c : Cmd)
    : option EngErr * W * Engine :=
  match c with
  | CmdSetAdd i => errOf (Engine_SetAdd env now ctx w e n name i)
  | CmdSetRemove i => errOf (Engine_SetRemove env now ctx w e n name i)
  | CmdSetContains i => errOf (Engine_SetContains env now ctx w e n name i)
  | CmdSetCard => errOf (Engine_SetCard env now ctx w e n name)
  | CmdSetMembers => errOf (Engine_SetMembers env now ctx w e n name)
  | CmdBloomAdd i => errOf (Engine_BloomAdd env now ctx w e n name i)
  | CmdBloomTest i => errOf (Engine_BloomTest env now ctx w e n name i)
  | CmdZAdd i s => errOf (Engine_ZAdd env now ctx w e n name i s)
  | CmdZRem i => errOf (Engine_ZRem env now ctx w e n name i)
  | CmdZScore i => errOf (Engine_ZScore env now ctx w e n name i)
  | CmdZCard => errOf (Engine_ZCard env now ctx w e n name)
  | CmdZRange a b => errOf (Engine_ZRange env now ctx w e n name a b)
  | CmdZRangeByScore a b => errOf (Engine_ZRangeByScore env now ctx w e n name a b)
  | CmdGeoAdd i lon lat => errOf (Engine_GeoAdd env now ctx w e n name i lon lat)
  | CmdGeoRem i => errOf (Engine_GeoRem env now ctx w e n name i)
  | CmdGeoPos i => errOf (Engine_GeoPos env now ctx w e n name i)
  | CmdGeoCard => errOf (Engine_GeoCard env now ctx w e n name)
  | CmdHSet f v => errOf (Engine_HSet env now ctx w e n name f v)
  | CmdHDel f => errOf (Engine_HDel env now ctx w e n name f)
  | CmdHGet f => errOf (Engine_HGet env now ctx w e n name f)
  | CmdHExists f => errOf (Engine_HExists env now ctx w e n name f)
  | CmdHLen => errOf (Engine_HLen env now ctx w e n name)
  | CmdHGetAll => errOf (Engine_HGetAll env now ctx w e n name)
  | CmdPush lft i => errOf (lPush env now ctx lft w e n name i)
  | CmdPop lft => errOf (lPop env now ctx lft w e n name)
  | CmdLLen => errOf (Engine_LLen env now ctx w e n name)
  | CmdLIndex i => errOf (Engine_LIndex env now ctx w e n name i)
  | CmdLRange a b => errOf (Engine_LRange env now ctx w e n name a b)
  | CmdIncr d => errOf (Engine_Incr env now ctx w e n name d)
  | CmdCounterGet => errOf (Engine_CounterGet env now ctx w e n name)
  | CmdJsonSet p v => errOf (Engine_JsonSet env now ctx w e n name p v)
  | CmdJsonDel p => errOf (Engine_JsonDel env now ctx w e n name p)
  | CmdJsonGet p => errOf (Engine_JsonGet env now ctx w e n name p)
  | CmdBitSet o b => errOf (Engine_BitSet env now ctx w e n name o b)
  | CmdBitGet o => errOf (Engine_BitGet env now ctx w e n name o)
  | CmdBitCount a b => errOf (Engine_BitCount env now ctx w e n name a b)
  | CmdBitPos bit a b => errOf (Engine_BitPos env now ctx w e n name bit a b)
  | CmdHLLAdd i => errOf (Engine_HLLAdd env now ctx w e n name i)
  | CmdTopKAdd i => errOf (Engine_TopKAdd env now ctx w e n name i)
  | CmdTopKList => errOf (Engine_TopKList env now ctx w e n name)
  | CmdCMSIncr i k => errOf (Engine_CMSIncr env now ctx w e n name i k)
  | CmdCMSQuery i => errOf (Engine_CMSQuery env now ctx w e n name i)
  | CmdVAdd i v => errOf (Engine_VAdd env now ctx w e n name i v)
  | CmdVRem i => errOf (Engine_VRem env now ctx w e n name i)
  | CmdVSim v k => errOf (Engine_VSim env now ctx w e n name v k)
  | CmdVCard => errOf (Engine_VCard env now ctx w e n name)
  | CmdVDim => errOf (Engine_VDim env now ctx w e n name)
  | CmdVEmb i => errOf (Engine_VEmb env now ctx w e n name i)
  | CmdXAdd p => errOf (Engine_XAdd env now ctx w e n name p)
  | CmdXDel id => errOf (Engine_XDel env now ctx w e n name id)
  | CmdXTrim k => errOf (Engine_XTrim env now ctx w e n name k)
  | CmdXRange rev a b k => errOf (sxRange env now ctx rev w e n name a b k)
  | CmdXLen => errOf (Engine_XLen env now ctx w e n name)
  end.

(** ** Refusals *)

Section refused.
Context {W A : Type} (env : ModeEnv W) (now : Z) (ctx : Ctx) (w : W) (e : Engine) (n name : bytes).

(** What every command checks before it does anything. *)
Definition refusable (mode : Mode) : Prop :=
  cancelled ctx = true \/ validateKey e n name <> None \/
  match getKS e n with None => True | Some ks => cMode (cfg ks) <> mode \/ validateKeyLen e ks name <> None end.

Definition refused (r : (A + EngErr) * W * Engine) : Prop := exists err, r = (inr err, w, e).

Lemma first_err_in checks : (exists err, Some err ∈ checks) -> exists err, first_err checks = Some err.
Proof.
  intros [err Hin]. induction checks as [|[x|] checks IH]; [by apply elem_of_nil in Hin|by exists x|].
  apply elem_of_cons in Hin as [?|Hin]; [done|]. by apply IH.
Qed.

Lemma not_none (o : option EngErr) : o <> None -> exists err, o = Some err.
Proof. destruct o as [x|]; [by exists x|done]. Qed.

Lemma requireMode_other ks mode : cMode (cfg ks) <> mode -> requireMode ks mode = Some ErrInvalidArgument.
Proof. intros. unfold requireMode, invalid_if. by rewrite bool_decide_eq_false_2. Qed.

(** The lists hold the check of the context, the key and the mode somewhere. *)
Lemma guarded_refused mode pre post body :
  (forall x, x = validateKey e n name -> x ∈ pre \/
     forall ks, getKS e n = Some ks -> x <> None -> exists y, Some y ∈ post ks) ->
  (forall ks, getKS e n = Some ks -> cMode (cfg ks) <> mode \/ validateKeyLen e ks name <> None ->
     exists y, Some y ∈ post ks) ->
  refusable mode -> refused (guarded (A := A) ctx w e n pre post body).
Proof.
  intros Hk Hm Hr. unfold refused, guarded.
  destruct (first_err (ctxErr ctx :: pre)) as [err|] eqn:E1; [by exists err|].
  destruct (getKS e n) as [ks|] eqn:E2; [|by eexists].
  destruct (first_err (post ks)) as [err|] eqn:E3; [by exists err|]. exfalso.
  assert (Hno : forall y, ~ Some y ∈ ctxErr ctx :: pre).
  { intros y Hy. destruct (first_err_in (ctxErr ctx :: pre)) as [err He]; [by exists y|congruence]. }
  assert (Hpost : ~ exists y, Some y ∈ post ks).
  { intros Hy. apply first_err_in in Hy as [err He]. congruence. }
  unfold refusable in Hr. rewrite E2 in Hr. destruct Hr as [Hc|[Hv|Hmode]]; [| |by eapply Hpost, Hm].
  - apply (Hno ErrContext). unfold ctxErr. rewrite Hc. by left.
  - destruct (Hk _ eq_refl) as [Hin|Hin]; [|by eapply Hpost, Hin].
    destruct (not_none _ Hv) as [y Hy]. rewrite Hy in Hin. apply (Hno y). by right.
Qed.

Lemma keyed_refused mode pre post body :
  refusable mode -> refused (keyed (A := A) ctx w e n name pre mode post body).
Proof.
  apply guarded_refused.
  - intros x ->. left. by left.
  - intros ks _ [Hm|Hl]; [|apply not_none in Hl as [y Hy]].
    + exists ErrInvalidArgument. rewrite (requireMode_other _ _ Hm). by left.
    + exists y. rewrite Hy. right. by left.
Qed.

(** The checks of the sketches list the item first. *)
Lemma sketch_refused mode item more body :
  refusable mode ->
  refused (guarded (A := A) ctx w e n [nonempty item; validateKey e n name]
             (fun ks => requireMode ks mode :: validateKeyLen e ks name :: more ks) body).
Proof.
  apply guarded_refused.
  - intros x ->. left. right. by left.
  - intros ks _ [Hm|Hl]; [|apply not_none in Hl as [y Hy]].
    + exists ErrInvalidArgument. rewrite (requireMode_other _ _ Hm). by left.
    + exists y. rewrite Hy. right. by left.
Qed.

(** vsNeed and sxNeed check the key, the mode and the length in one step. *)
Lemma kindNeed_refused mode pre more body :
  engine_ok e -> refusable mode ->
  refused (guarded (A := A) ctx w e n pre (fun ks => kindNeed mode e ks name :: more ks) body).
Proof.
  intros He. apply guarded_refused.
  - intros x ->. right. intros ks Hks Hv. destruct (He _ _ Hks) as [Hn _]. unfold kindNeed. rewrite Hn.
    apply not_none in Hv as [y Hy]. exists y. rewrite Hy. by left.
  - intros ks Hks Hm. destruct (first_err_in [validateKey e (Name (cfg ks)) name; requireMode ks mode; validateKeyLen e ks name])
      as [err He']; [|exists err; unfold kindNeed; rewrite He'; by left].
    destruct Hm as [Hm|Hl]; [|apply not_none in Hl as [y Hy]].
    + exists ErrInvalidArgument. rewrite (requireMode_other _ _ Hm). right. by left.
    + exists y. rewrite Hy. do 2 right. by left.
Qed.
End refused.

Lemma errOf_refused {A W} (w : W) e (r : (A + EngErr) * W * Engine) : refused w e r -> exists err, errOf r = (Some err, w, e).
Proof. intros [err ->]. by exists err. Qed.

(** C28: a command is refused before it can touch anything: with a cancelled
    context, a bad keyspace name or key, an unknown keyspace, a keyspace of
    another mode or a key over the keyspace's limit, every typed command returns
    an error, makes no call to a peer and leaves the engine as it was. *)
Theorem commands_refused {W} (env : ModeEnv W) now ctx w e n name c :
  engine_ok e -> refusable ctx e n name (cmdMode c) ->
  exists err, exec env now ctx w e n name c = (Some err, w, e).
Proof.
  intros He Hr. destruct c; cbn [exec cmdMode] in *; apply errOf_refused;
    first [by apply keyed_refused | by apply sketch_refused | by apply kindNeed_refused].
Qed.

(** ** The invariant along any sequence of steps *)

(** What peers answer to GetOrLoad is made of bytes. *)
Definition answers_ok {W} (env : ModeEnv W) : Prop :=
  forall w addr n name ent w',
    env_GetOrLoad (me_base env) w addr n name = (Some (true, ent), w') -> bytes_ok (Value ent).

Definition cmd_ok (c : Cmd) : Prop :=
  match c with
  | CmdSetAdd i | CmdPush _ i => Wire.fits i
  | CmdZAdd i s => Wire.fits i /\ is_f64 s
  | CmdGeoAdd i lon lat => Wire.fits i /\ is_f64 lon /\ is_f64 lat
  | CmdHSet f v => Wire.fits f /\ Wire.fits v
  | CmdJsonSet p v => jset_ok p v
  | _ => True
  end.

Section invariant.
Context {W : Type} (env : ModeEnv W) (now : Z) (ctx : Ctx).
Context (Hans : answers_ok env).

Definition safe {A} (r : (A + EngErr) * W * Engine) : Prop := engine_ok r.2.

Lemma host_of e n ks : engine_ok e -> getKS e n = Some ks -> host_ok (mkHost e ks).
Proof. intros He Hks. split; [|done]. unfold KeyspaceName. cbn. by destruct (He _ _ Hks) as [-> _]. Qed.

Lemma guarded_safe {A} w e n pre post (body : ksRuntime -> (A + EngErr) * W * Engine) :
  engine_ok e -> (forall ks, host_ok (mkHost e ks) -> safe (body ks)) -> safe (guarded ctx w e n pre post body).
Proof.
  intros He Hb. unfold guarded, safe. destruct (first_err _); [done|].
  destruct (getKS e n) as [ks|] eqn:E; [|done]. destruct (first_err _); [done|]. eapply Hb, host_of, E. done.
Qed.

Lemma local_safe {A} w e ks (act : hm (A + EngErr)) : host_ok (mkHost e ks) -> keeps act -> safe (local w e ks act).
Proof.
  intros Hh Ha. unfold local, safe. destruct (Ha _ Hh) as [_ Hh']. destruct (act (mkHost e ks)). apply Hh'.
Qed.

Lemma routed_safe {A} w e ks name (remote : W -> Ring -> Peer -> (A + EngErr) * W) act :
  host_ok (mkHost e ks) -> keeps act -> safe (routed w e ks name remote act).
Proof.
  intros Hh Ha. unfold routed. destruct (ringOf e) as [[c r]|]; [|by apply local_safe].
  destruct (foreignOwner c r name) as [o|]; [|by apply local_safe].
  destruct (_ || _); [apply Hh|]. destruct (remote w r o). apply Hh.
Qed.

Lemma ackOf_keeps act : keeps act -> keeps (ackOf act).
Proof. intros. unfold ackOf. host_tac. Qed.

Lemma valueOf_keeps {A} (act : hm (A + mode_err)) : keeps act -> keeps (valueOf act).
Proof. intros. unfold valueOf. host_tac. Qed.

Lemma ackWrite_safe strict flag value act w e name ks :
  host_ok (mkHost e ks) -> keeps act -> safe (ackWrite env strict flag value act w e name ks).
Proof. intros. by apply routed_safe, ackOf_keeps. Qed.

Lemma askOwner_ok w h name flag ent w' :
  askOwner env w h name flag = (Some ent, w') -> bytes_ok (Value ent).
Proof.
  unfold askOwner. destruct (ringOf _) as [[c r]|]; [|done]. destruct (foreignOwner c r name); [|done].
  destruct (_ || _); [done|]. destruct (env_GetOrLoad _ _ _ _ _) as [[[[|] ent']|] w''] eqn:Ea; try done.
  destruct (has_flag flag ent'); [|done]. intros [= <- _]. by eapply Hans.
Qed.

Lemma FetchOwner_keeps flag valid install w name :
  (forall ent m, bytes_ok (Value ent) -> store_ok m -> store_ok (install ent m).2) ->
  keeps (FetchOwner env flag valid install w name).
Proof.
  intros Hi h Hh. unfold FetchOwner. destruct (askOwner env w h name flag) as [[ent|] w'] eqn:E; [|done].
  destruct (negb (valid (Value ent))); [done|]. apply askOwner_ok in E. revert h Hh.
  change (keeps (keep ← HoldsReplica name;
    _ ← (if keep : bool then onStore (install ent) else mret false); mret (Some ent, w'))). host_tac.
Qed.

Lemma readThrough_safe {A} (mine : hm (option A)) missing fetch fromBlob w e name ks :
  host_ok (mkHost e ks) -> keeps mine -> (forall w, keeps (fetch w name)) ->
  safe (readThrough mine missing fetch fromBlob w e name ks).
Proof.
  intros Hh Hm Hf. unfold readThrough, safe. destruct (Hm _ Hh) as [_ H1].
  destruct (mine (mkHost e ks)) as [[a|] h]; [apply H1|]. cbn [snd] in H1.
  destruct (Hf w h H1) as [_ H2]. destruct (fetch w name h) as [[ent w'] h']. apply H2.
Qed.

Lemma setRead_safe {A} (mine : hm (option A)) missing again fromBlob w e name ks :
  host_ok (mkHost e ks) -> keeps mine -> (forall m, store_ok m -> store_ok (again m).2) ->
  safe (setRead env now mine missing again fromBlob w e name ks).
Proof.
  intros Hh Hm Ha. unfold setRead, safe. destruct (Hm _ Hh) as [_ H1].
  destruct (mine (mkHost e ks)) as [[a|] h]; [apply H1|]. cbn [snd] in H1.
  destruct (askOwner env w h name FlagSet) as [[ent|] w'] eqn:E; [|apply H1]. apply local_safe; [by destruct h|].
  apply askOwner_ok in E. unfold HoldsReplica. host_tac.
Qed.

Lemma vsCheckVec_keeps name vec : keeps (vsCheckVec now name vec).
Proof. host_tac. Qed.

Lemma vsFull_keeps name member : keeps (vsFull now name member).
Proof. host_tac. Qed.

Lemma errOf_safe {A} (r : (A + EngErr) * W * Engine) : safe r -> engine_ok (errOf r).2.
Proof. by destruct r as [[? ?] ?]. Qed.

(** A command, step by step. *)
Ltac safe_step :=
  lazymatch goal with
  | |- safe (keyed _ _ _ _ _ _ _ _ _) => apply guarded_safe; [done|intros ks Hh]
  | |- safe (guarded _ _ _ _ _ _ _) => apply guarded_safe; [done|intros ks Hh]
  | |- safe (ackWrite _ _ _ _ _ _ _ _ _) => apply ackWrite_safe; [done|]
  | |- safe (routed _ _ _ _ _ _) => apply routed_safe; [done|]
  | |- safe (readThrough _ _ _ _ _ _ _ _) => apply readThrough_safe; [done| |intros ?]
  | |- safe (setRead _ _ _ _ _ _ _ _ _ _) => apply setRead_safe; [done| |intros ? ?]
  | |- keeps (ackOf _) => apply ackOf_keeps
  | |- keeps (valueOf _) => apply valueOf_keeps
  | |- keeps (FetchOwner _ _ _ _ _ _) => apply FetchOwner_keeps; intros ? ? ? ?
  | |- safe ?r => let f := head_of r in unfold f
  | |- keeps ?act => let f := head_of act in
      lazymatch f with
      | @zFetch => unfold f | @gFetch => unfold f | @hFetch => unfold f | @lFetch => unfold f
      | @bFetch => unfold f | @vsFetch => unfold f | @sxFetch => unfold f
      end
  end.
Ltac safe_tac := repeat safe_step; eauto with modes; try solve [host_tac].

Lemma exec_safe w e n name c : engine_ok e -> cmd_ok c -> engine_ok (exec env now ctx w e n name c).2.
Proof.
  intros He Hc. destruct c; cbn [exec cmd_ok] in *; apply errOf_safe; destruct_and?.
  all: try solve [safe_tac].
  - unfold Engine_BloomTest. do 2 safe_step; [host_tac|]. intros h Hh'. unfold askOwner.
    repeat case_match; simplify_eq; done.
  - unfold lPop. safe_tac. apply ListEng_pop_keeps.
  - unfold Engine_VAdd. safe_step.
    match goal with |- context [(?x ≫= ?f) (mkHost e ks)] =>
      assert (Hk : keeps (x ≫= f)); [|destruct (Hk _ Hh) as [_ H1]; destruct ((x ≫= f) (mkHost e ks)) as [[err|] h]] end.
    { apply keeps_bind; [apply vsCheckVec_keeps|]. intros [err|]; [host_tac|apply vsFull_keeps]. }
    + apply H1.
    + cbn [snd] in H1. apply routed_safe; [by destruct h|]. apply ackOf_keeps, VecEng_add_keeps.
  - unfold Engine_VSim. safe_step. cbv zeta. destruct (vsCheckVec_keeps name vec _ Hh) as [_ H1].
    destruct (vsCheckVec now name vec (mkHost e ks)) as [[err|] [e' ks']]; [apply H1|]. cbn [snd h_e h_ks] in *.
    safe_tac.
Qed.
End invariant.

(** What a node can be asked to do, with the clock at that moment. *)
Inductive Step :=
  | StepCmd (ctx : Ctx) (n name : bytes) (c : Cmd)
  | StepApplyPut (n name : bytes) (ent : Entry)
  | StepApplyDelete (n name : bytes) (v : Z)
  | StepUpdateKeySpace (c : Config)
  | StepDeleteKeySpace (n : bytes)
  | StepAttachCluster (c : option Cluster).

Definition do_step {W} (env : ModeEnv W) (now : Z) (st : W * Engine) (s : Step) : W * Engine :=
  let '(w, e) := st in
  match s with
  | StepCmd ctx n name c => let '(_, w, e) := exec env now ctx w e n name c in (w, e)
  | StepApplyPut n name ent => (w, (ApplyPutWithRingGen now e n name ent).2)
  | StepApplyDelete n name v => (w, (ApplyDeleteWithRingGen now e n name v).2)
  | StepUpdateKeySpace c => (w, (UpdateKeySpace now e c).2)
  | StepDeleteKeySpace n => (w, (DeleteKeySpace e n).2)
  | StepAttachCluster c => (w, AttachCluster e c)
  end.

Definition do_steps {W} (env : ModeEnv W) (st : W * Engine) (tr : list (Z * Step)) : W * Engine :=
  fold_left (fun st ts => do_step env ts.1 st ts.2) tr st.

Definition step_ok (s : Step) : Prop :=
  match s with
  | StepCmd _ _ _ c => cmd_ok c
  | StepApplyPut _ _ ent => wire_ok ent
  | _ => True
  end.

Lemma do_step_ok {W} (env : ModeEnv W) now w e s :
  answers_ok env -> engine_ok e -> step_ok s -> engine_ok (do_step env now (w, e) s).2.
Proof.
  intros Ha He Hs. destruct s as [ctx n name c|n name ent|n name v|c|n|c]; cbn [do_step step_ok] in *.
  - pose proof (exec_safe env now ctx Ha w e n name c He Hs) as H.
    by destruct (exec env now ctx w e n name c) as [[? ?] ?].
  - by apply ApplyPut_keeps.
  - by apply ApplyDelete_keeps.
  - by apply UpdateKeySpace_keeps.
  - by apply DeleteKeySpace_keeps.
  - by apply (engine_ok_same e).
Qed.

(** C23: the engine's stores stay well-formed along any sequence of typed
    commands, entries and deletes from peers, keyspace updates and cluster
    changes, at any times, from an empty engine: each keyspace is filed under its
    own name, its LRU list and byte count match its items, and every decoded
    cache agrees with its blob.  Items, fields and members are of lengths that fit
    the wire format and scores are 64-bit floats; a JSON write does not exceed
    10000 levels together with its path; an entry that a peer sends
    carries no flag or one known flag, with any version and any expiry, also one that has passed. *)
Theorem modes_invariant {W} (env : ModeEnv W) (w : W) g tr :
  answers_ok env -> Forall (fun ts => step_ok ts.2) tr ->
  forall n ks, getKS (do_steps env (w, Engine_New g) tr).2 n = Some ks ->
    Name (cfg ks) = n /\ store_ok (kstore ks).
Proof.
  intros Ha Htr. assert (H : engine_ok (do_steps env (w, Engine_New g) tr).2).
  { assert (Hst : engine_ok (w, Engine_New g).2) by done. unfold do_steps. revert Hst.
    generalize (w, Engine_New g) as st. induction Htr as [|[t s] tr Hs _ IH]; intros [w0 e0] Hst; [done|].
    cbn [fold_left]. apply IH. by apply do_step_ok. }
  intros n ks Hks. by apply H.
Qed.

(** ** The theorems at concrete engines *)

Definition wit_menv : ModeEnv unit :=
  mkModeEnv unit wit_env (fun w _ _ _ _ _ => (inl true, w)) (fun w _ _ _ _ => (inl None, w))
    (fun w _ _ _ d => (inl d, w)) (fun w _ _ _ _ => (inl [], w)).

Definition wit_mode (mode : Mode) : ksRuntime := wit_ks mode ∅ (NewMemory 0 0).

Lemma wit_eng_ok g ks : Name (cfg ks) = [107] -> store_ok (kstore ks) -> engine_ok (wit_eng g ks).
Proof. intros Hn Hok. by apply engine_ok_with_ks. Qed.

Lemma wit_answers : answers_ok wit_menv.
Proof. by intros w addr n name ent w'. Qed.

(** A list push on a keyspace of sets. *)
Lemma commands_refused_witness :
  exists err, exec wit_menv 10 wit_ctx tt (wit_eng None (wit_mode ModeSet)) [107] [1] (CmdPush true [9]) =
    (Some err, tt, wit_eng None (wit_mode ModeSet)).
Proof.
  apply (commands_refused wit_menv 10 wit_ctx tt (wit_eng None (wit_mode ModeSet)) [107] [1] (CmdPush true [9])).
  - apply wit_eng_ok; [reflexivity|apply NewMemory_ok].
  - right. right. left. discriminate.
Defined.

(** A keyspace of sets is made, an item added, and two deltas of a peer applied,
    the second after it expired. *)
Definition wit_trace : list (Z * Step) :=
  [(1, StepUpdateKeySpace (wit_config ModeSet 0)); (2, StepCmd wit_ctx [107] [1] (CmdSetAdd [9]));
   (3, StepApplyPut [107] [1] (mkEntry [8] 2 0 FlagSetAdd)); (9, StepApplyPut [107] [2] (mkEntry [8] 2 5 FlagSetAdd))].

Definition wit_end : Engine := (do_steps wit_menv (tt, Engine_New None) wit_trace).2.

Lemma modes_invariant_witness :
  match getKS wit_end [107] with Some ks => true | None => false end = true /\
  forall ks, getKS wit_end [107] = Some ks -> Name (cfg ks) = [107] /\ store_ok (kstore ks).
Proof.
  split; [reflexivity|]. intros ks. apply (modes_invariant wit_menv tt None wit_trace).
  { apply wit_answers. }
  repeat (constructor; [try exact I; try by vm_compute|]); [..|constructor];
    (split; [by apply (bool_decide_unpack _)|by repeat constructor|by vm_compute|intros path raw Hf; discriminate Hf]).
Defined.
