(* ===== verification/Replication.v ===== *)
(** * Replication of typed values

    What a node does with a snapshot or a delta from a peer, what the owner of
    a name sends after a write, and how the two fit together: an owner's
    snapshot makes a replica hold the same blob under the same version. *)
From S2P Require Import Prelude Wire Collections Scored Scalars Json JsonText Sketches.
From S2P Require Import Cms TopK Stream Vecset Store StoreInv StoreView StoreProps.
From S2P Require Import StoreKinds StoreKindsProps StoreScalars StoreScalarsProps StoreJson StoreSafety.
From S2P Require Import Ring Hints Protect Config Engine EngineProps Modes ModeOps.
From S2P Require Import ModesInv ModesProps.

Implicit Types (m : Memory) (ks : ksRuntime) (e : Engine) (h : Host).

(** ** Dispatch on the flag *)

Lemma dispatch_pick ent hs plain f act :
  NoDup (map fst hs) -> (f, act) ∈ hs -> has_flag f ent = true ->
  (forall g, g ∈ map fst hs -> has_flag g ent = true -> g = f) -> dispatch ent hs plain = act.
Proof.
  intros Hnd Hin Hf Hg. induction hs as [|[g a] hs IH]; [by apply elem_of_nil in Hin|]. cbn [dispatch map fst] in *.
  apply NoDup_cons in Hnd as [Hni Hnd]. apply elem_of_cons in Hin as [[= -> ->]|Hin].
  - by rewrite Hf.
  - destruct (has_flag g ent) eqn:E.
    + rewrite (Hg g) in Hni by (done || by left). destruct Hni. apply list_elem_of_fmap. by exists (f, act).
    + apply IH; [done|done|]. intros g' Hg'. apply Hg. by right.
Qed.

Lemma handlers_nodup now n name ent : NoDup (map fst (handlers now n name ent)).
Proof. apply (bool_decide_unpack _). reflexivity. Qed.

Lemma has_own_flag f ent : f ∈ known_flags -> Flags ent = f -> has_flag f ent = true.
Proof.
  intros Hf He. unfold has_flag. rewrite He, Z.land_diag. apply negb_true_iff, Z.eqb_neq. intros ->.
  assert (H : forallb (fun x => negb (x =? 0)) known_flags = true) by reflexivity.
  rewrite forallb_forall in H. apply list_elem_of_In, H in Hf. done.
Qed.

(** An entry with one flag goes to the handler of that flag. *)
Lemma applyEntry_pick now n name ent f act :
  (f, act) ∈ handlers now n name ent -> Flags ent = f ->
  applyEntry now n name ent = (ObserveVersion now name (Version ent) ≫= fun _ => act).
Proof.
  intros Hin Hf. unfold applyEntry. pose proof (handlers_known _ _ _ _ _ _ Hin) as Hk.
  rewrite (dispatch_pick ent _ _ f act); [done|apply handlers_nodup|done|by apply has_own_flag|].
  intros g Hg Hfl. apply list_elem_of_fmap in Hg as ([g' a] & -> & Hg).
  apply one_flag in Hfl; [cbn in *; congruence|by eapply handlers_known|]. rewrite Hf. by right.
Qed.

Lemma ApplyPut_eq now e n ks name ent :
  validateKey e n name = None -> getKS e n = Some ks ->
  ApplyPutWithRingGen now e n name ent =
    let '(ok, h) := applyEntry now n name ent (mkHost e ks) in (ok, None, h_e h).
Proof. intros Hv Hks. unfold ApplyPutWithRingGen. by rewrite Hv, Hks. Qed.

(** ** The owner inbox *)

Definition inbox_flags : list Z :=
  [FlagListLPush; FlagListRPush; FlagJSONSet; FlagJSONDel; FlagBitmapSet; FlagHLLAdd; FlagTopKAdd; FlagCMSIncr].

(** Meant for the owner: an inbox flag, or a vector or stream entry whose first
    byte says so. *)
Definition for_owner (ent : Entry) : Prop :=
  Flags ent ∈ inbox_flags \/
  (exists c rest, Value ent = c :: rest /\
     (Flags ent = FlagVectorSet /\ (c = 65 \/ c = 82) \/
      Flags ent = FlagStream /\ (c = PrefixAdd \/ c = PrefixDel \/ c = PrefixTrim))).

Lemma ownerOnly_away name act h : ownedElsewhere (h_e h) name = true -> ownerOnly name act h = (false, h).
Proof. intros Ha. unfold ownerOnly, mbind, hm_bind, asks. by rewrite Ha. Qed.

Lemma ownerOnly_home name act h : ownedElsewhere (h_e h) name = false -> ownerOnly name act h = act h.
Proof. intros Ha. unfold ownerOnly, mbind, hm_bind, asks. by rewrite Ha. Qed.

Lemma applyVectorSet_inbox now name ent c rest :
  Value ent = c :: rest -> c = 65 \/ c = 82 ->
  applyVectorSet now name ent = ownerOnly name (VecEng_ApplyInbox now name (Value ent) (ExpireAt ent)).
Proof. intros Hv Hc. unfold applyVectorSet. rewrite Hv. by destruct Hc as [-> | ->]. Qed.

Lemma applyStream_inbox now name ent c rest :
  Value ent = c :: rest -> c = PrefixAdd \/ c = PrefixDel \/ c = PrefixTrim ->
  applyStream now name ent = ownerOnly name (StreamEng_ApplyInbox now name (Value ent)).
Proof. intros Hv Hc. unfold applyStream. rewrite Hv. by destruct Hc as [-> | [-> | ->]]. Qed.

Ltac handler_at := unfold handlers; cbv zeta; repeat first [apply list_elem_of_here | apply list_elem_of_further].

Lemma for_owner_handler now n name ent :
  for_owner ent -> exists act,
    applyEntry now n name ent = (ObserveVersion now name (Version ent) ≫= fun _ => ownerOnly name act).
Proof.
  intros [Hf|(c & rest & Hv & [[Hf Hc]|[Hf Hc]])].
  - unfold inbox_flags in Hf. repeat (apply elem_of_cons in Hf as [Hf|Hf]); [..|by apply elem_of_nil in Hf].
    all: eexists; eapply applyEntry_pick; [|exact Hf]; handler_at.
  - eexists. rewrite (applyEntry_pick now n name ent FlagVectorSet (applyVectorSet now name ent)); [|handler_at|done].
    by erewrite applyVectorSet_inbox.
  - eexists. rewrite (applyEntry_pick now n name ent FlagStream (applyStream now name ent)); [|handler_at|done].
    by erewrite applyStream_inbox.
Qed.

(** C27: owner-inbox entries take effect on the owner only.  A push, path write,
    bit write, sketch observation, vector or stream mutation that reaches a node
    which does not own the name is answered with applied = false; its stores
    show the same entries as before, nothing is queued for replication, and
    only the version counter of the name is noted. *)
Theorem inbox_owner_only now e n ks name ent :
  engine_ok e -> getKS e n = Some ks -> validateKey e n name = None ->
  ownedElsewhere e name = true -> for_owner ent ->
  ApplyPutWithRingGen now e n name ent =
    (false, None, with_ks e n (observeVersion now ks name (Version ent))) /\
  view now (kstore (observeVersion now ks name (Version ent))) = view now (kstore ks).
Proof.
  intros He Hks Hv Ha Hfo. destruct (He _ _ Hks) as [Hn Hok]. split.
  - rewrite (ApplyPut_eq now e n ks) by done.
    destruct (for_owner_handler now n name ent Hfo) as [act ->].
    unfold mbind, hm_bind, ObserveVersion, onKS. cbn [h_e h_ks]. unfold KeyspaceName. cbn [h_ks]. rewrite Hn.
    rewrite ownerOnly_away; [done|]. cbn [h_e]. exact Ha.
  - apply (observeVersion_spec now ks name (Version ent) Hok).
Qed.

(** ** Host programs on the store *)

(** [act] only moves the keyspace's store: the answer and the store it leaves. *)
Lemma onStore_eq {A} (f : Memory -> A * Memory) h :
  onStore f h = ((f (kstore (h_ks h))).1,
    mkHost (with_ks (h_e h) (KeyspaceName h) (with_store (h_ks h) (f (kstore (h_ks h))).2))
           (with_store (h_ks h) (f (kstore (h_ks h))).2)).
Proof. unfold onStore, onKS. by destruct (f (kstore (h_ks h))). Qed.

Lemma bind_eq {A B} (x : hm A) (f : A -> hm B) h a h' : x h = (a, h') -> (x ≫= f) h = f a h'.
Proof. intros E. unfold mbind, hm_bind. by rewrite E. Qed.

(** ** Snapshots from a peer *)

(** Blobs that the install of their kind accepts; [k] is the Top-K size. *)
Inductive snapshot (k : Z) : Z -> bytes -> Prop :=
  | snap_set b s : Set_DecodeSet b = Some s -> snapshot k FlagSet b
  | snap_zset b z : ZSet_Decode b = Some z -> snapshot k FlagZSet b
  | snap_geo b g : Geo_Decode b = Some g -> snapshot k FlagGeo b
  | snap_list b l : List_Decode b = Some l -> snapshot k FlagList b
  | snap_hash b t : Hash_Decode b = Some t -> snapshot k FlagHash b
  | snap_counter b v : Counter_Decode b = Some v -> snapshot k FlagCounter b
  | snap_json b doc : Json_Decode b = Some doc -> snapshot k FlagJSON b
  | snap_bitmap b : snapshot k FlagBitmap b
  | snap_hll b : len b = HLL_DenseSize -> snapshot k FlagHLL b
  | snap_topk b tab : TopK_Decode b k = Some tab -> snapshot k FlagTopK b
  | snap_cms b : len b = CMS_DenseSize -> snapshot k FlagCMS b
  | snap_vec rest s : VS_DecodeSnapshot (83 :: rest) = Some s -> snapshot k FlagVectorSet (83 :: rest)
  | snap_stream rest lg : DecodeSnapshot (PrefixSnapshot :: rest) = Some lg -> snapshot k FlagStream (PrefixSnapshot :: rest).

(** A newer snapshot replaces the live entry; another one changes nothing. *)
Definition spec_snapshot (s : gmap bytes Entry) (name : bytes) (ent : Entry) : bool * gmap bytes Entry :=
  if newer_than s name (Version ent) then (true, <[name := ent]> s) else (false, s).

Definition at_expiry (ent : Entry) (x : Z) : Entry := mkEntry (Value ent) (Version ent) x (Flags ent).

Definition expiry (now : Z) ks (ent : Entry) : Z :=
  if ExpireAt ent =? 0 then expireAt now (TTL (cfg ks)) else ExpireAt ent.

(** What an install does with a blob of its kind. *)
Definition installs (now : Z) (name : bytes) (ent : Entry) (op : Z -> Memory -> bool * Memory) : Prop :=
  forall x m, store_ok m -> live_at now x ->
    implements now (op x m) (spec_snapshot (view now m) name (at_expiry ent x)) /\
    tombstoneTTL (op x m).2 = tombstoneTTL m.

(** A store operation leaves the settings of the store alone. *)
Ltac ttl_kept :=
  intros; unfold SetInstall, ZInstall, GeoInstall, LInstall, HInstall, installLocked, installBlob, installPlain, JInstall,
    SXInstall, bloomMutateLocked, insertJSONLocked, insertLocked, insertPlainLocked;
  cbv zeta; repeat case_match; cbn [snd];
  repeat match goal with |- context [tombstoneTTL (evictLocked ?n ?m)] => rewrite (proj1 (proj2 (evictLocked_params n m))) end;
  done.

Lemma typed_installs {T} `{StoreKind T} now name ent (install : Z -> Memory -> bool * Memory) t :
  (forall x m, tombstoneTTL (install x m).2 = tombstoneTTL m) ->
  (forall x m, store_ok m -> live_at now x ->
     implements now (install x m) (spec_install (T := T) now (view now m) name (Value ent) (Version ent) x)) ->
  kdecode (Value ent) = Some t -> Flags ent = kflag T -> installs now name ent install.
Proof.
  intros Ht Hi Hd Hf x m Hok Hl. split; [|done]. specialize (Hi x m Hok Hl). unfold spec_install in Hi. rewrite Hd in Hi.
  unfold spec_snapshot, at_expiry. cbn [Version]. by rewrite Hf.
Qed.

Lemma plain_installs now name ent flag :
  scalar_flag flag -> Flags ent = flag ->
  installs now name ent (fun x m => installPlain flag now m name (Value ent) (Version ent) x).
Proof.
  intros Hs Hf x m Hok Hl. split; [|ttl_kept]. pose proof (installPlain_implements flag now m name (Value ent) (Version ent) x Hs Hok Hl).
  unfold spec_snapshot, at_expiry. cbn [Version]. by rewrite Hf.
Qed.

Lemma installs_ext now name ent op op' :
  (forall x m, op' x m = op x m) -> installs now name ent op -> installs now name ent op'.
Proof. intros He Hi x m Hok Hl. rewrite He. by apply Hi. Qed.

Lemma snapshot_handler now n name ent ks :
  snapshot (EffectiveTopKSize (cfg ks)) (Flags ent) (Value ent) -> bytes_ok (Value ent) ->
  exists op act, (Flags ent, act) ∈ handlers now n name ent /\
    (forall h, cfg (h_ks h) = cfg ks -> act h = applyStore now (ExpireAt ent) op h) /\ installs now name ent op.
Proof.
  intros Hs Hb. set (ver := Version ent).
  remember (Flags ent) as f eqn:Ef. remember (Value ent) as b eqn:Ev.
  destruct Hs as [b s Hd|b z Hd|b g Hd|b l Hd|b t Hd|b v Hd|b doc Hd|b|b Hd|b tab Hd|b Hd|rest s Hd|rest lg Hd];
    try rewrite Ev in Hd; rewrite Ev in Hb.
  - exists (fun x m => SetInstall now m name (Value ent) ver x). eexists. split_and!; [handler_at|done|].
    eapply (typed_installs (T := SetT)); [ttl_kept| |exact Hd|done]. intros. by apply SetInstall_implements.
  - exists (fun x m => ZInstall now m name (Value ent) ver x). eexists. split_and!; [handler_at|done|].
    eapply (typed_installs (T := ZSetT)); [ttl_kept| |exact Hd|done]. intros. by apply (installLocked_implements (T := ZSetT)).
  - exists (fun x m => GeoInstall now m name (Value ent) ver x). eexists. split_and!; [handler_at|done|].
    eapply (typed_installs (T := GeoT)); [ttl_kept| |exact Hd|done]. intros. by apply (installLocked_implements (T := GeoT)).
  - exists (fun x m => LInstall now m name (Value ent) ver x). eexists. split_and!; [handler_at|done|].
    eapply (typed_installs (T := ListT)); [ttl_kept| |exact Hd|done]. intros. by apply (installLocked_implements (T := ListT)).
  - exists (fun x m => HInstall now m name (Value ent) ver x). eexists. split_and!; [handler_at|done|].
    eapply (typed_installs (T := HashT)); [ttl_kept| |exact Hd|done]. intros. by apply (installLocked_implements (T := HashT)).
  - exists (fun x m => CInstall now m name (Value ent) ver x). eexists. split_and!; [handler_at|done|].
    eapply installs_ext; [|by apply (plain_installs now name ent FlagCounter counter_flag)].
    intros. unfold CInstall. by rewrite Hd.
  - exists (fun x m => JInstall now m name (Value ent) ver x). eexists. split_and!; [handler_at|done|].
    intros x m Hok Hl. split; [|ttl_kept]. pose proof (JInstall_implements now m name (Value ent) ver x Hok Hl Hb) as H.
    rewrite Hd in H. unfold spec_snapshot, at_expiry. cbn [Version]. by rewrite <- Ef.
  - exists (fun x m => BInstall now m name (Value ent) ver x). eexists. split_and!; [handler_at|done|].
    by apply (plain_installs now name ent FlagBitmap bitmap_flag).
  - exists (fun x m => HLLInstall now m name (Value ent) ver x). eexists. split_and!; [handler_at|done|].
    eapply installs_ext; [|by apply (plain_installs now name ent FlagHLL hll_flag)].
    intros. unfold HLLInstall. by rewrite Hd, Z.eqb_refl.
  - exists (fun x m => TopKInstall now m name (Value ent) ver x (EffectiveTopKSize (cfg ks))). eexists.
    split_and!; [handler_at| |].
    + intros h Hc. unfold TopKEng_ApplyInstall, mbind, hm_bind, Host_TopKSize, asks. by rewrite Hc.
    + eapply installs_ext; [|by apply (plain_installs now name ent FlagTopK topk_flag)].
      intros. unfold TopKInstall. by rewrite Hd.
  - exists (fun x m => CMSInstall now m name (Value ent) ver x). eexists. split_and!; [handler_at|done|].
    eapply installs_ext; [|by apply (plain_installs now name ent FlagCMS cms_flag)].
    intros. unfold CMSInstall. by rewrite Hd, Z.eqb_refl.
  - exists (fun x m => VSInstall now m name (Value ent) ver x), (applyVectorSet now name ent). split_and!; [handler_at| |].
    + intros h _. unfold applyVectorSet. by rewrite <- Ev.
    + eapply installs_ext; [|by apply (plain_installs now name ent FlagVectorSet vecset_flag)].
      intros. unfold VSInstall. by rewrite Hd.
  - exists (fun x m => SXInstall now m name (Value ent) ver x), (applyStream now name ent). split_and!; [handler_at| |].
    + intros h _. unfold applyStream. by rewrite <- Ev.
    + intros x m Hok Hl. split; [|ttl_kept]. pose proof (SXInstall_implements now m name (Value ent) ver x Hok Hl) as H.
      rewrite Hd in H. unfold spec_snapshot, at_expiry. cbn [Version]. by rewrite <- Ef.
Qed.

Lemma snapshot_pinned k flag b ent : snapshot k flag b -> Flags ent = flag -> pinned ent = true.
Proof.
  intros Hs Hf. unfold pinned, IsTombstone, IsBloom, IsSet, IsZSet, IsGeo, IsList, IsHash, IsCounter, IsJSON, IsBitmap,
    IsHLL, IsTopK, IsCMS, IsVectorSet, IsStream, has_flag. rewrite Hf. by destruct Hs.
Qed.

Lemma applyStore_eq now x (op : Z -> Memory -> bool * Memory) h :
  let x' := if x =? 0 then expireAt now (TTL (cfg (h_ks h))) else x in
  applyStore now x op h = onStore (op x') h.
Proof. unfold applyStore, mbind, hm_bind, defaultExpire, Host_ExpireAt, asks. by destruct (x =? 0). Qed.

Lemma live_expiry now ks ent :
  live_at now (ExpireAt ent) -> expiry_fits now (TTL (cfg ks)) -> live_at now (expiry now ks ent).
Proof. intros Hl Hf. unfold expiry. destruct (_ =? 0); [by apply live_expireAt|done]. Qed.

(** C25: a snapshot from a peer is applied exactly when it is newer.  For each of
    the thirteen kinds, an entry whose blob decodes is accepted if and only if
    the node has no live entry of the name (value or tombstone) with that
    version or a higher one; accepted, the live entry is the sender's blob,
    version and kind, with the sender's expiry or, when it has none, the
    keyspace's TTL; the other live entries that are never evicted stay as they
    are.  The expiry it is stored under has not passed. *)
Theorem snapshot_applied now e n ks name ent :
  engine_ok e -> getKS e n = Some ks -> validateKey e n name = None ->
  snapshot (EffectiveTopKSize (cfg ks)) (Flags ent) (Value ent) ->
  bytes_ok (Value ent) -> live_at now (expiry now ks ent) ->
  let newer := newer_than (view now (kstore ks)) name (Version ent) in
  exists e' ks', ApplyPutWithRingGen now e n name ent = (newer, None, e') /\ getKS e' n = Some ks' /\
    (newer = true -> view now (kstore ks') !! name = Some (at_expiry ent (expiry now ks ent))) /\
    (forall k c, k <> name \/ newer = false -> view now (kstore ks) !! k = Some c -> pinned c = true ->
       view now (kstore ks') !! k = Some c).
Proof.
  intros He Hks Hv Hs Hb Hl newer. destruct (He _ _ Hks) as [Hn Hok].
  destruct (snapshot_handler now n name ent ks Hs Hb) as (op & act & Hin & Hact & Hop).
  rewrite (ApplyPut_eq now e n ks) by done. rewrite (applyEntry_pick now n name ent _ act Hin eq_refl).
  destruct (observeVersion_spec now ks name (Version ent) Hok) as (Hr & Hc & _).
  set (ks0 := observeVersion now ks name (Version ent)) in *.
  set (h0 := mkHost (with_ks e n ks0) ks0).
  rewrite (bind_eq _ _ _ tt h0).
  2:{ unfold ObserveVersion, onKS, h0, ks0, KeyspaceName. cbn [h_e h_ks]. by rewrite Hn. }
  rewrite (Hact h0) by done. rewrite applyStore_eq, onStore_eq. cbn [h_ks h0].
  assert (Hx : (if ExpireAt ent =? 0 then expireAt now (TTL (cfg ks0)) else ExpireAt ent) = expiry now ks ent)
    by (unfold expiry; by rewrite Hc). rewrite Hx.
  destruct (Hop (expiry now ks ent) (kstore ks0) (rd_ok _ _ _ Hr) Hl) as [(H1 & H2 & H3) _].
  rewrite (rd_view _ _ _ Hr) in H1, H2. unfold spec_snapshot in H1, H2. cbn [Version at_expiry] in H1, H2. fold newer in H1, H2.
  destruct (op (expiry now ks ent) (kstore ks0)) as [ok m]. cbn [fst snd] in *.
  eexists _, (with_store ks0 m). split_and!.
  - f_equal. f_equal. rewrite H1. by destruct newer.
  - unfold h0, KeyspaceName. cbn [h_e h_ks]. rewrite Hc, Hn. apply lookup_insert_eq.
  - intros Hnew. rewrite Hnew in H2. cbn [kstore with_store snd] in *. apply (ref_pinned _ _ _ H2); [apply lookup_insert_eq|].
    by eapply snapshot_pinned.
  - intros k c Hk Hlive Hp. cbn [kstore with_store]. apply (ref_pinned _ _ _ H2); [|done].
    destruct newer; [|done]. destruct Hk as [Hk|]; [|done]. cbn [snd]. by rewrite lookup_insert_ne.
Qed.

(** ** What a write leaves in the owner's store *)

(** The version after a snapshot write: one above the live entry's, or 1. *)
Definition bumped (now : Z) m (name : bytes) : Z := default 0 (Version <$> view now m !! name) +u 1.

(** The live entry after a write of kind [flag]. *)
Definition wrote (now : Z) m (name : bytes) (flag : Z) (shape : bytes -> bool) m' : Prop :=
  exists c, view now m' !! name = Some c /\ Flags c = flag /\ shape (Value c) = true /\ Version c = bumped now m name.

Lemma implements_wrote {R} now m name flag shape (r : R * Memory) (res : R) s c :
  implements now r (res, s) -> s !! name = Some c -> pinned c = true -> Flags c = flag -> shape (Value c) = true ->
  Version c = bumped now m name -> wrote now m name flag shape r.2.
Proof. intros (_ & Hr & _) Hs Hp Hf Hsh Hv. exists c. split_and!; [by apply (ref_pinned _ _ _ Hr)|done..]. Qed.

(** An upsert that took effect: the refusals of [compute] are told from its successes by [good]. *)
Lemma spec_upsert_wrote {R : Type} now m name v x flag (reject : R) compute (good : R -> bool) shape (r : R * Memory) :
  scalar_flag flag \/ flag = FlagJSON ->
  implements now r (spec_upsert now (view now m) name v x flag reject compute) ->
  (forall cur res, compute cur = inl res -> good res = false) -> good reject = false ->
  (forall cur blob res, compute cur = inr (blob, res) -> shape blob = true) ->
  good r.1 = true -> wrote now m name flag shape r.2.
Proof.
  intros Hflag Hi Hinl Hrej Hsh Hg.
  assert (Hp : forall b v x, pinned (mkEntry b v x flag) = true) by (intros; destruct Hflag as [[]| ->]; done).
  assert (Hres : good (spec_upsert now (view now m) name v x flag reject compute).1 = true).
  { destruct Hi as (<- & _). done. }
  assert (Hw : forall cur ver x', ver = bumped now m name ->
    implements now r (match compute cur with
      | inl res => (res, view now m)
      | inr (blob, res) => (res true, <[name := mkEntry blob ver x' flag]> (view now m)) end) ->
    good (match compute cur with
      | inl res => (res, view now m)
      | inr (blob, res) => (res true, <[name := mkEntry blob ver x' flag]> (view now m)) end).1 = true ->
    wrote now m name flag shape r.2).
  { intros cur ver x' Hver. destruct (compute cur) as [res|[blob res]] eqn:Eq.
    - cbn. intros _ H. erewrite Hinl in H by exact Eq. done.
    - intros Hi' _. eapply implements_wrote; [exact Hi'|apply lookup_insert_eq|apply Hp|done|by eapply Hsh|done]. }
  revert Hi Hres. unfold spec_upsert. cbv zeta. unfold bumped in Hw. destruct (view now m !! name) as [c|] eqn:Ec.
  - destruct (IsTombstone c); [destruct (v <=? Version c); [cbn; congruence|]|destruct (negb _); [cbn; congruence|]];
      by apply Hw.
  - by apply Hw.
Qed.

(** (applied, tooLarge) *)
Definition applied2 (r : bool * bool) : bool := negb r.2 && r.1.

Section wrote.
Context (now : Z) (m : Memory) (name : bytes) (v x : Z).
Context (Hok : store_ok m) (Hx : live_at now x).

Ltac refusals := intros; repeat (case_match; simplify_eq); done.

Lemma BSet_wrote offset bit mv :
  let r := BSet now m name offset bit v x mv in applied2 r.1 = true -> wrote now m name FlagBitmap any_shape r.2.
Proof.
  cbv zeta. unfold BSet. destruct (EncodedLen offset); [|done]. destruct (over mv z); [done|].
  eapply spec_upsert_wrote; [left; apply bitmap_flag|by apply upsertLocked_implements; [apply bitmap_flag|..]|..];
    [unfold bitmapCompute; refusals|done|done].
Qed.

Lemma HLLAdd_wrote item mv :
  let r := HLLAdd now m name item v x mv in applied2 r.1 = true -> wrote now m name FlagHLL any_shape r.2.
Proof.
  cbv zeta. unfold HLLAdd. destruct (over mv HLL_DenseSize); [done|].
  eapply spec_upsert_wrote; [left; apply hll_flag|by apply upsertLocked_implements; [apply hll_flag|..]|..]; done.
Qed.

Lemma TopKAdd_wrote item k mv :
  let r := TopKAdd now m name item v x k mv in applied2 r.1 = true -> wrote now m name FlagTopK any_shape r.2.
Proof.
  cbv zeta. unfold TopKAdd. destruct (k <? 1); [done|]. destruct (len item =? 0); [done|].
  eapply spec_upsert_wrote; [left; apply topk_flag|by apply upsertLocked_implements; [apply topk_flag|..]|..];
    [unfold topkApply; refusals|done|done].
Qed.

Lemma CMSIncr_wrote item n mv :
  let r := CMSIncr now m name item n v x mv in applied2 r.1 = true -> wrote now m name FlagCMS any_shape r.2.
Proof.
  cbv zeta. unfold CMSIncr. destruct (len item =? 0); [done|]. destruct (over mv CMS_DenseSize); [done|].
  eapply spec_upsert_wrote; [left; apply cms_flag|by apply upsertLocked_implements; [apply cms_flag|..]|..];
    [|reflexivity|intros; reflexivity].
  intros [c|] res; unfold cmsCompute; [destruct (negb _); [by intros [= <-]|]|];
    destruct (CMS_Incr _ _ _); intros [= <-]; reflexivity.
Qed.

Lemma VAdd_wrote member vec mv :
  let r := VAdd now m name member vec v x mv in applied2 r.1 = true -> wrote now m name FlagVectorSet snapshot_shape r.2.
Proof.
  cbv zeta. unfold VAdd. destruct (_ || _ || _); [done|].
  eapply spec_upsert_wrote; [left; apply vecset_flag|by apply upsertLocked_implements; [apply vecset_flag|..]|..];
    [unfold vaddCompute; refusals|done|unfold vaddCompute; refusals].
Qed.

Lemma JSet_wrote path raw mv (Hj : jset_ok path raw) :
  let r := JSet now m name path raw v x mv in applied2 r.1 = true -> wrote now m name FlagJSON any_shape r.2.
Proof.
  cbv zeta. pose proof (JSet_implements now m name path raw v x mv Hok Hx Hj) as Hi. revert Hi. unfold spec_JSet.
  destruct (Json_Decode raw) as [val|]; [destruct (ParsePath path) as [p|]|]; intros Hi.
  - eapply spec_upsert_wrote; [by right|exact Hi|unfold jsonCompute; refusals|done|done].
  - destruct Hi as (-> & _). done.
  - destruct Hi as (-> & _). done.
Qed.

(** (id, applied, tooLarge, full) *)
Definition applied4 (r : bytes * bool * bool * bool) : bool :=
  let '(_, applied, tooLarge, full) := r in negb tooLarge && negb full && applied.

Lemma XAdd_wrote ms payload mv trim :
  let r := XAdd now ms m name payload v x mv trim in applied4 r.1 = true -> wrote now m name FlagStream snapshot_shape r.2.
Proof.
  cbv zeta. unfold XAdd.
  eapply spec_upsert_wrote; [left; apply stream_flag|by apply upsertLocked_implements; [apply stream_flag|..]|..];
    [unfold xaddCompute; refusals|done|unfold xaddCompute; refusals].
Qed.

Lemma push_wrote item left (Hi : Wire.fits item) :
  let r := pushOp now name item left v x m in r.1 = true -> wrote now m name FlagList any_shape r.2.
Proof.
  cbv zeta. unfold pushOp.
  assert (Hl : forall mut, (forall l, Forall Wire.fits l -> Forall Wire.fits (mut l)) ->
    let r := lMutateLocked now m name v x mut in r.1 = true -> wrote now m name FlagList any_shape r.2).
  { intros mut Hmut. cbv zeta. pose proof (lMutateLocked_implements now m name v x mut Hok Hx Hmut) as Himp.
    revert Himp. unfold spec_lMutate. cbv zeta. unfold wrote, bumped.
    destruct (view now m !! name) as [c|] eqn:Ec; cbn [fmap option_fmap option_map default].
    - destruct (IsTombstone c); [destruct (v <=? Version c)|destruct (IsList c); [destruct (List_Decode (Value c))|]];
        intros Himp Hg; try (destruct Himp as (Hr & _); rewrite Hr in Hg; done).
      all: destruct Himp as (_ & Hr & _); eexists; split_and!;
        [apply (ref_pinned _ _ _ Hr); [apply lookup_insert_eq|done]|done|done|done].
    - intros (_ & Hr & _) _. eexists; split_and!; [apply (ref_pinned _ _ _ Hr); [apply lookup_insert_eq|done]|done|done|done]. }
  destruct left; apply Hl; intros l Hf; eauto with store.
Qed.
End wrote.

Lemma CIncr_wrote now m name delta v x n m' :
  store_ok m -> live_at now x -> CIncr now m name delta v x = ((n, true, false), m') ->
  exists c, view now m' !! name = Some c /\ Flags c = FlagCounter /\ Value c = Counter_Encode n /\
    Version c = bumped now m name.
Proof.
  intros Hok Hx E. pose proof (CIncr_implements now m name delta v x Hok Hx) as Hi. rewrite E in Hi. revert Hi.
  unfold spec_CIncr. cbv zeta. unfold bumped.
  destruct (view now m !! name) as [c|] eqn:Ec; cbn [fmap option_fmap option_map default].
  - destruct (IsTombstone c); [destruct (v <=? Version c)|destruct (negb _); [|destruct (Counter_Decode (Value c)) as [cur|];
      [destruct (Counter_Add cur delta)|]]]; intros ([= ->] & Hr & _).
    all: eexists; split_and!; [apply (ref_pinned _ _ _ Hr); [apply lookup_insert_eq|done]|done|done|done].
  - intros ([= ->] & Hr & _). eexists; split_and!; [apply (ref_pinned _ _ _ Hr); [apply lookup_insert_eq|done]|done|done|done].
Qed.

(** ** The owner's side of a snapshot write *)

(** [h'] is [h] after steps that show the same live entries of the keyspace and
    send nothing. *)
Record after (now : Z) h h' : Prop := {
  af_host : host_ok h';
  af_cfg : cfg (h_ks h') = cfg (h_ks h);
  af_cluster : cluster (h_e h') = cluster (h_e h);
  af_view : view now (kstore (h_ks h')) = view now (kstore (h_ks h));
}.

Lemma after_refl now h : host_ok h -> after now h h.
Proof. by split. Qed.

Lemma after_trans now h1 h2 h3 : after now h1 h2 -> after now h2 h3 -> after now h1 h3.
Proof. intros [] []. split; [done|congruence..]. Qed.

Lemma after_name now h h' : after now h h' -> KeyspaceName h' = KeyspaceName h.
Proof. intros []. unfold KeyspaceName. by rewrite af_cfg0. Qed.

Lemma onKS_after {A} now (f : ksRuntime -> A * ksRuntime) h :
  host_ok h -> reads now (kstore (h_ks h)) (kstore (f (h_ks h)).2) -> cfg (f (h_ks h)).2 = cfg (h_ks h) ->
  exists h', onKS f h = ((f (h_ks h)).1, h') /\ after now h h'.
Proof.
  intros [H1 H2] Hr Hc. unfold onKS. destruct (H2 _ _ H1) as [Hn _]. destruct (f (h_ks h)) as [a ks]. cbn [fst snd] in *.
  eexists. split; [done|]. assert (Hk : Name (cfg ks) = KeyspaceName h) by (unfold KeyspaceName; by rewrite Hc).
  split; cbn [h_e h_ks]; [|done|done|apply Hr]. split; cbn [h_e h_ks].
  - change (KeyspaceName (mkHost _ ks)) with (Name (cfg ks)). rewrite Hk. apply lookup_insert_eq.
  - apply engine_ok_with_ks; [done|done|apply Hr].
Qed.

Lemma onStore_after {A} now (f : Memory -> A * Memory) h :
  host_ok h -> reads now (kstore (h_ks h)) (f (kstore (h_ks h))).2 ->
  exists h', onStore f h = ((f (kstore (h_ks h))).1, h') /\ after now h h'.
Proof.
  intros Hh Hr. destruct (onKS_after now (fun ks => let '(a, m) := f (kstore ks) in (a, with_store ks m)) h Hh) as (h' & E & Ha).
  - by destruct (f (kstore (h_ks h))).
  - by destruct (f (kstore (h_ks h))).
  - exists h'. split; [|done]. unfold onStore. rewrite E. by destruct (f (kstore (h_ks h))).
Qed.

Lemma host_store h : host_ok h -> store_ok (kstore (h_ks h)).
Proof. intros [H1 H2]. apply H2 in H1. apply H1. Qed.

Lemma nextGate_after now name h :
  host_ok h -> exists h', nextGate now name h = (bumped now (kstore (h_ks h)) name, h') /\ after now h h'.
Proof.
  intros Hh. destruct (PeekVersion now (kstore (h_ks h)) name) as [v m'] eqn:E.
  apply PeekVersion_reads in E as Hr; [|by apply host_store]. destruct Hr as [Hv Hr].
  destruct (onStore_after now (fun m => PeekVersion now m name) h Hh) as (h' & E' & Ha); [by rewrite E|].
  exists h'. split; [|done]. unfold nextGate. rewrite (bind_eq _ _ _ _ _ E'), E. cbn. by rewrite Hv.
Qed.

Lemma observed_after now name h :
  host_ok h ->
  exists h', observed now name h = (default 0 (Version <$> view now (kstore (h_ks h)) !! name), h') /\ after now h h'.
Proof.
  intros Hh. destruct (PeekVersion now (kstore (h_ks h)) name) as [v m'] eqn:E.
  apply PeekVersion_reads in E as Hr; [|by apply host_store]. destruct Hr as [Hv Hr].
  destruct (onStore_after now (fun m => PeekVersion now m name) h Hh) as (h1 & E1 & Ha1); [by rewrite E|].
  rewrite E in E1. cbn [fst] in E1. rewrite Hv in E1.
  unfold observed. rewrite (bind_eq _ _ _ _ _ E1).
  destruct (onKS_after now (fun ks => (tt, observeVersion now ks name (default 0 (Version <$> view now (kstore (h_ks h)) !! name)))) h1)
    as (h2 & E2 & Ha2); [apply Ha1| | |].
  - apply observeVersion_spec, host_store, Ha1.
  - apply observeVersion_spec, host_store, Ha1.
  - unfold ObserveVersion. rewrite (bind_eq _ _ _ _ _ E2). exists h2. split; [done|by eapply after_trans].
Qed.

Lemma Peek_after now name h :
  host_ok h ->
  exists h', onStore (fun m => Peek now m name) h = (view now (kstore (h_ks h)) !! name, h') /\ after now h h'.
Proof.
  intros Hh. destruct (Peek now (kstore (h_ks h)) name) as [v m'] eqn:E.
  apply Peek_reads in E as Hr; [|by apply host_store]. destruct Hr as [Hv Hr].
  destruct (onStore_after now (fun m => Peek now m name) h Hh) as (h' & E' & Ha); [by rewrite E|].
  exists h'. split; [|done]. rewrite E', E. cbn. by rewrite Hv.
Qed.

(** What was sent: the entry is queued for the replicas of the name. *)
Definition sent h (name : bytes) (ent : Entry) : Host :=
  mkHost (replicate (h_e h) (KeyspaceName h) name ent false) (h_ks h).

Lemma publish_spec now name flag shape x h c :
  host_ok h -> view now (kstore (h_ks h)) !! name = Some c -> has_flag flag c = true -> shape (Value c) = true ->
  exists h1, after now h h1 /\
    publish now name flag shape x h = (tt, sent h1 name (mkEntry (Value c) (Version c) x flag)).
Proof.
  intros Hh Hc Hf Hs. unfold publish. destruct (observed_after now name h Hh) as (h1 & E1 & Ha1).
  rewrite (bind_eq _ _ _ _ _ E1), Hc. cbn [fmap option_fmap option_map default].
  unfold ReplicateSnapshot. destruct (Peek_after now name h1 (af_host _ _ _ Ha1)) as (h2 & E2 & Ha2).
  rewrite (bind_eq _ _ _ _ _ E2), (af_view _ _ _ Ha1), Hc, Hf, Hs. exists h2. split; [by eapply after_trans|done].
Qed.

(** The outcome of a snapshot write on the owner: the live entry [c], of kind
    [flag] and one version up, is what went out to the replicas. *)
Definition published (now : Z) h (name : bytes) (flag x : Z) h' : Prop :=
  exists h1 c, host_ok h1 /\ cfg (h_ks h1) = cfg (h_ks h) /\ cluster (h_e h1) = cluster (h_e h) /\
    view now (kstore (h_ks h1)) !! name = Some c /\ Flags c = flag /\
    Version c = bumped now (kstore (h_ks h)) name /\
    h' = sent h1 name (mkEntry (Value c) (Version c) x flag).

Lemma published_after now h h0 name flag x h' :
  after now h h0 -> published now h0 name flag x h' -> published now h name flag x h'.
Proof.
  intros Ha (h1 & c & H1 & H2 & H3 & H4 & H5 & H6 & H7). exists h1, c. destruct Ha as [? Hc Hcl Hv].
  split_and!; try done; [congruence|congruence|]. unfold bumped in *. by rewrite <- Hv.
Qed.

(** A write that left a live entry, then the publication. *)
Lemma write_published {A} now name flag shape x (f : Memory -> A * Memory) h :
  host_ok h -> flag ∈ known_flags -> store_ok (f (kstore (h_ks h))).2 ->
  wrote now (kstore (h_ks h)) name flag shape (f (kstore (h_ks h))).2 ->
  exists h2, onStore f h = ((f (kstore (h_ks h))).1, h2) /\
    (publish now name flag shape x h2).1 = tt /\ published now h name flag x (publish now name flag shape x h2).2.
Proof.
  intros Hh Hk Hok (c & Hc & Hf & Hs & Hv). rewrite onStore_eq. eexists. split; [done|].
  set (m2 := (f (kstore (h_ks h))).2) in *. set (h2 := mkHost _ (with_store (h_ks h) m2)).
  assert (Hh2 : host_ok h2).
  { destruct Hh as [H1 H2]. destruct (H2 _ _ H1) as [Hn _].
    split; cbn [h_e h_ks]; [apply lookup_insert_eq|by apply engine_ok_with_ks]. }
  destruct (publish_spec now name flag shape x h2 c Hh2 Hc) as (h3 & Ha & E); [by apply has_own_flag|done|].
  rewrite E. split; [done|]. exists h3, c. destruct Ha as [Ha1 Ha2 Ha3 Ha4].
  split_and!; try done. by rewrite Ha4.
Qed.

Lemma upsertLocal_published now name flag shape x (op : Z -> Memory -> (bool * bool) * Memory) h :
  host_ok h -> flag ∈ known_flags ->
  (forall v m, store_ok m -> store_ok (op v m).2) ->
  (forall v m, store_ok m -> applied2 (op v m).1 = true -> wrote now m name flag shape (op v m).2) ->
  (upsertLocal now name flag shape x op h).1 = None ->
  published now h name flag x (upsertLocal now name flag shape x op h).2.
Proof.
  intros Hh Hk Hok Hw. unfold upsertLocal. destruct (nextGate_after now name h Hh) as (h1 & E1 & Ha1).
  rewrite (bind_eq _ _ _ _ _ E1). set (gate := bumped _ _ _).
  pose proof (host_store _ (af_host _ _ _ Ha1)) as Hs1.
  destruct (applied2 (op gate (kstore (h_ks h1))).1) eqn:Ea.
  - destruct (write_published now name flag shape x (op gate) h1) as (h2 & E2 & E3 & Hp);
      [apply Ha1|done|by apply Hok|by apply Hw|].
    rewrite (bind_eq _ _ _ _ _ E2). destruct (op gate (kstore (h_ks h1))) as [[a t] m]. unfold applied2 in Ea.
    cbn [fst snd] in *. destruct t, a; try done. cbn [negb].
    destruct (publish now name flag shape x h2) as [[] h3] eqn:Ep. rewrite (bind_eq _ _ _ _ _ Ep).
    intros _. by eapply published_after.
  - rewrite (bind_eq _ _ _ _ _ (onStore_eq (op gate) h1)). unfold applied2 in Ea.
    destruct (op gate (kstore (h_ks h1))) as [[[|] [|]] m]; done.
Qed.

Ltac known_flag := lazymatch goal with |- ?f ∈ _ => apply (elem_of_checked f [f]); [reflexivity|by left] end.

Section adapters.
Context (now : Z) (name : bytes) (h : Host) (Hh : host_ok h) (Hfit : expiry_fits now (TTL (cfg (h_ks h)))).

Definition own_expiry : Z := expireAt now (TTL (cfg (h_ks h))).

Lemma BitmapEng_published offset bit :
  (BitmapEng_SetLocal now name offset bit h).1 = None ->
  published now h name FlagBitmap own_expiry (BitmapEng_SetLocal now name offset bit h).2.
Proof.
  apply upsertLocal_published; [done|known_flag|intros; by store_call|].
  intros v m Hok. apply BSet_wrote; [done|by apply live_expireAt].
Qed.

Lemma HLLEng_published item :
  (HLLEng_AddLocal now name item h).1 = None ->
  published now h name FlagHLL own_expiry (HLLEng_AddLocal now name item h).2.
Proof.
  apply upsertLocal_published; [done|known_flag|intros; by store_call|].
  intros v m Hok. apply HLLAdd_wrote; [done|by apply live_expireAt].
Qed.

Lemma TopKEng_published item :
  (TopKEng_AddLocal now name item h).1 = None ->
  published now h name FlagTopK own_expiry (TopKEng_AddLocal now name item h).2.
Proof.
  apply upsertLocal_published; [done|known_flag|intros; by store_call|].
  intros v m Hok. apply TopKAdd_wrote; [done|by apply live_expireAt].
Qed.

Lemma CMSEng_published item n :
  (CMSEng_IncrLocal now name item n h).1 = None ->
  published now h name FlagCMS own_expiry (CMSEng_IncrLocal now name item n h).2.
Proof.
  apply upsertLocal_published; [done|known_flag|intros; by store_call|].
  intros v m Hok. apply CMSIncr_wrote; [done|by apply live_expireAt].
Qed.

Lemma JSONEng_published path raw (Hj : jset_ok path raw) :
  (JSONEng_SetLocal now name path raw h).1 = None ->
  published now h name FlagJSON own_expiry (JSONEng_SetLocal now name path raw h).2.
Proof.
  apply upsertLocal_published; [done|known_flag|intros; by store_call|].
  intros v m Hok. apply JSet_wrote; [done|by apply live_expireAt|done].
Qed.

Lemma VecEng_published member vec :
  (VecEng_AddLocal now name member vec h).1 = None ->
  published now h name FlagVectorSet own_expiry (VecEng_AddLocal now name member vec h).2.
Proof.
  apply upsertLocal_published; [done|known_flag|intros; by store_call|].
  intros v m Hok. apply VAdd_wrote; [done|by apply live_expireAt].
Qed.

Lemma StreamEng_published payload id :
  (StreamEng_AddLocal now name payload h).1 = inl id ->
  published now h name FlagStream own_expiry (StreamEng_AddLocal now name payload h).2.
Proof.
  unfold StreamEng_AddLocal. rewrite (bind_eq (Host_ExpireAt now) _ h own_expiry h eq_refl).
  destruct (nextGate_after now name h Hh) as (h1 & E1 & Ha1). rewrite (bind_eq _ _ _ _ _ E1). set (gate := bumped _ _ _).
  rewrite (bind_eq Host_MaxValue _ h1 _ h1 eq_refl), (bind_eq Host_StreamMaxLen _ h1 _ h1 eq_refl).
  set (op := fun m => XAdd now (now / 1000000) m name payload gate own_expiry _ _).
  pose proof (host_store _ (af_host _ _ _ Ha1)) as Hs1.
  assert (Hok : store_ok (op (kstore (h_ks h1))).2) by (unfold op; by store_call).
  destruct (applied4 (op (kstore (h_ks h1))).1) eqn:Ea.
  - destruct (write_published now name FlagStream snapshot_shape own_expiry op h1) as (h2 & E2 & E3 & Hp);
      [apply Ha1|known_flag|done|apply XAdd_wrote; [done|by apply live_expireAt|done]|].
    rewrite (bind_eq _ _ _ _ _ E2). destruct (op (kstore (h_ks h1))) as [[[[i a] t] f] m]. unfold applied4 in Ea.
    cbn [fst snd] in *. destruct t, f, a; try done. cbn [negb].
    destruct (publish now name FlagStream snapshot_shape own_expiry h2) as [[] h3] eqn:Ep.
    rewrite (bind_eq _ _ _ _ _ Ep). intros _. by eapply published_after.
  - rewrite (bind_eq _ _ _ _ _ (onStore_eq op h1)). unfold applied4 in Ea.
    destruct (op (kstore (h_ks h1))) as [[[[i [|]] [|]] [|]] m]; done.
Qed.

Lemma ListEng_published item left (Hi : Wire.fits item) :
  (ListEng_Push now name item left true h).1 = None ->
  published now h name FlagList own_expiry (ListEng_Push now name item left true h).2.
Proof.
  unfold ListEng_Push. rewrite (bind_eq (Host_ExpireAt now) _ h own_expiry h eq_refl).
  destruct (nextGate_after now name h Hh) as (h1 & E1 & Ha1). rewrite (bind_eq _ _ _ _ _ E1). set (gate := bumped _ _ _).
  pose proof (host_store _ (af_host _ _ _ Ha1)) as Hs1. set (op := pushOp now name item left gate own_expiry).
  assert (Hok : store_ok (op (kstore (h_ks h1))).2) by (by apply pushOp_keeps).
  destruct (op (kstore (h_ks h1))).1 eqn:Ea.
  - destruct (write_published now name FlagList any_shape own_expiry op h1) as (h2 & E2 & _ & Hp);
      [apply Ha1|known_flag|done|apply push_wrote; [done|by apply live_expireAt|done|done]|].
    rewrite (bind_eq _ _ _ _ _ E2), Ea. cbn [negb]. revert Hp. unfold publish, mbind, hm_bind.
    destruct (observed now name h2) as [v h3]. cbn beta iota.
    destruct (ReplicateSnapshot now name FlagList any_shape v own_expiry h3) as [[] h4].
    intros Hp _. by eapply published_after.
  - rewrite (bind_eq _ _ _ _ _ (onStore_eq op h1)), Ea. done.
Qed.

Lemma CounterEng_published delta n :
  (CounterEng_IncrLocal now name delta true h).1 = inl n ->
  published now h name FlagCounter own_expiry (CounterEng_IncrLocal now name delta true h).2.
Proof.
  unfold CounterEng_IncrLocal. rewrite (bind_eq (Host_ExpireAt now) _ h own_expiry h eq_refl).
  destruct (nextGate_after now name h Hh) as (h1 & E1 & Ha1). rewrite (bind_eq _ _ _ _ _ E1). set (gate := bumped _ _ _).
  pose proof (host_store _ (af_host _ _ _ Ha1)) as Hs1. set (op := fun m => CIncr now m name delta gate own_expiry).
  assert (Hok : store_ok (op (kstore (h_ks h1))).2) by (unfold op; by store_call).
  rewrite (bind_eq _ _ _ _ _ (onStore_eq op h1)).
  destruct (op (kstore (h_ks h1))) as [[[n' a] o] m2] eqn:Eo. cbn [fst snd] in *.
  destruct o; [done|]. destruct a; [|done]. cbn [negb].
  apply CIncr_wrote in Eo as (c & Hc & Hf & Hv & Hver); [|done|by apply live_expireAt].
  set (h2 := mkHost _ (with_store (h_ks h1) m2)).
  assert (Hh2 : host_ok h2).
  { destruct (af_host _ _ _ Ha1) as [H1 H2]. destruct (H2 _ _ H1) as [Hn _].
    split; cbn [h_e h_ks]; [apply lookup_insert_eq|by apply engine_ok_with_ks]. }
  destruct (observed_after now name h2 Hh2) as (h3 & E3 & Ha3).
  rewrite (bind_eq _ _ _ _ _ E3). intros Hr. eapply published_after; [exact Ha1|].
  assert (Hview : view now (kstore (h_ks h2)) !! name = Some c) by done. rewrite Hview in E3 |- *.
  destruct Ha3 as [G1 G2 G3 G4]. exists h3, c. split_and!; try done; [by rewrite G4|]. by rewrite Hv.
Qed.
End adapters.

(** ** Commands on the owner *)

(** The kind that a snapshot write leaves. *)
Definition snapshotFlag (c : Cmd) : option Z :=
  match c with
  | CmdPush _ _ => Some FlagList
  | CmdIncr _ => Some FlagCounter
  | CmdJsonSet _ _ => Some FlagJSON
  | CmdBitSet _ _ => Some FlagBitmap
  | CmdHLLAdd _ => Some FlagHLL
  | CmdTopKAdd _ => Some FlagTopK
  | CmdCMSIncr _ _ => Some FlagCMS
  | CmdVAdd _ _ => Some FlagVectorSet
  | CmdXAdd _ => Some FlagStream
  | _ => None
  end.

Section owner.
Context {W : Type} (env : ModeEnv W) (now : Z) (ctx : Ctx).

Definition sent_by (e : Engine) (n name : bytes) (flag : Z) (e' : Engine) : Prop :=
  exists ks h', getKS e n = Some ks /\ published now (mkHost e ks) name flag (expireAt now (TTL (cfg ks))) h' /\ e' = h_e h'.

Lemma guarded_ok {A} (w w' : W) e n pre post (body : ksRuntime -> (A + EngErr) * W * Engine) a e' :
  guarded ctx w e n pre post body = (inl a, w', e') -> exists ks, getKS e n = Some ks /\ body ks = (inl a, w', e').
Proof.
  unfold guarded. destruct (first_err _); [done|]. destruct (getKS e n) as [ks|]; [|done].
  destruct (first_err _); [done|]. by exists ks.
Qed.

Lemma routed_owned {A} w e ks name (remote : W -> Ring -> Peer -> (A + EngErr) * W) act :
  owned e name -> routed w e ks name remote act = local w e ks act.
Proof.
  unfold owned, routed. destruct (ringOf e) as [[c r]|]; [|done]. by intros ->.
Qed.

Lemma local_ack (w w' : W) e ks act u e' :
  local w e ks (ackOf act) = (inl u, w', e') ->
  (act (mkHost e ks)).1 = None /\ e' = h_e (act (mkHost e ks)).2 /\ w' = w.
Proof.
  unfold local, ackOf, mbind, hm_bind, mret, hm_ret. destruct (act (mkHost e ks)) as [[err|] h]; [done|].
  by intros [= _ <- <-].
Qed.

Lemma local_value {A} (w w' : W) e ks (act : hm (A + mode_err)) a e' :
  local w e ks (valueOf act) = (inl a, w', e') ->
  (act (mkHost e ks)).1 = inl a /\ e' = h_e (act (mkHost e ks)).2 /\ w' = w.
Proof.
  unfold local, valueOf, mbind, hm_bind, mret, hm_ret. destruct (act (mkHost e ks)) as [[x|err] h]; [|done].
  by intros [= <- <- <-].
Qed.

Lemma errOf_ok {A} (r : (A + EngErr) * W * Engine) w' e' :
  errOf r = (None, w', e') -> exists a, r = (inl a, w', e').
Proof. destruct r as [[[a|err] w] e]; [|done]. intros [= <- <-]. by exists a. Qed.

(** A command whose body is a routed acknowledgement or value. *)
Lemma ack_sent strict flag inbox f (act : hm (option mode_err)) w e n ks name u w' e' :
  engine_ok e -> owned e name -> getKS e n = Some ks ->
  ((act (mkHost e ks)).1 = None ->
   published now (mkHost e ks) name f (expireAt now (TTL (cfg ks))) (act (mkHost e ks)).2) ->
  ackWrite env strict flag inbox act w e name ks = (inl u, w', e') -> sent_by e n name f e' /\ w' = w.
Proof.
  intros He Ho Hks Hp. unfold ackWrite. rewrite routed_owned by done. intros (H1 & -> & ->)%local_ack.
  split; [|done]. exists ks, (act (mkHost e ks)).2. auto.
Qed.

(** Host programs that only read. *)
Definition quiet {A} (act : hm A) : Prop := forall h, host_ok h -> after now h (act h).2.

Lemma quiet_ret {A} (a : A) : quiet (mret a).
Proof. intros h Hh. by apply after_refl. Qed.

Lemma quiet_asks {A} (f : Host -> A) : quiet (asks f).
Proof. intros h Hh. by apply after_refl. Qed.

Lemma quiet_bind {A B} (act : hm A) (f : A -> hm B) : quiet act -> (forall a, quiet (f a)) -> quiet (act ≫= f).
Proof.
  intros Ha Hf h Hh. unfold mbind, hm_bind. pose proof (Ha h Hh) as H1. destruct (act h) as [a h1].
  eapply after_trans; [exact H1|]. apply Hf, H1.
Qed.

Lemma quiet_onStore {A} (f : Memory -> A * Memory) :
  (forall m, store_ok m -> reads now m (f m).2) -> quiet (onStore f).
Proof.
  intros Hf h Hh. destruct (onStore_after now f h Hh) as (h' & -> & Ha); [|done]. by apply Hf, host_store.
Qed.

Lemma hasLocked_reads flag m k : store_ok m -> reads now m (hasLocked flag now m k).2.
Proof.
  intros Hok. unfold hasLocked. destruct (Store.items m !! k) as [it|] eqn:Ek; [|by apply reads_refl].
  destruct (Expired (entry it) now) eqn:Ex; [|by apply reads_refl].
  split; [by apply view_remove_expired|by apply removeElement_ok|done|done].
Qed.

Lemma liveVS_reads m k : store_ok m -> reads now m (liveVSLocked now m k).2.
Proof.
  intros Hok. unfold liveVSLocked, with_blob. pose proof (hasLocked_reads FlagVectorSet m k Hok).
  by destruct (hasLocked FlagVectorSet now m k).
Qed.

Lemma vecCheck_quiet name member vec :
  quiet (r ← vsCheckVec now name vec; match r with Some err => mret (Some err) | None => vsFull now name member end).
Proof.
  assert (Hl : forall {A} (f : option VSet -> option A),
    quiet (onStore (fun m => let '(s, m) := liveVSLocked now m name in (f s, m)))).
  { intros A f. apply quiet_onStore. intros m Hok. pose proof (liveVS_reads m name Hok).
    by destruct (liveVSLocked now m name). }
  apply quiet_bind; [unfold vsCheckVec|intros [err|]; [apply quiet_ret|unfold vsFull]].
  - apply quiet_bind; [apply quiet_asks|]. intros want. apply quiet_bind; [apply quiet_asks|]. intros metric.
    destruct (_ || _); [apply quiet_ret|]. destruct (_ && _); [apply quiet_ret|].
    apply quiet_bind; [apply Hl|]. intros dim. destruct (match dim with Some _ => _ | None => _ end); apply quiet_ret.
  - apply quiet_bind; [apply Hl|]. intros [n|]; [|apply quiet_ret].
    apply quiet_bind; [apply Hl|]. intros emb. apply quiet_ret.
Qed.

(** [e'] is an engine in which the live entry [ent] of the name, of kind [flag]
    and one version above the entry [e] had, has been handed to the fan-out. *)
Definition publishes (e : Engine) (n name : bytes) (flag : Z) (e' : Engine) : Prop :=
  exists ks ks1 e1 ent, getKS e n = Some ks /\ getKS e' n = Some ks1 /\ cfg ks1 = cfg ks /\
    view now (kstore ks1) !! name = Some ent /\ Flags ent = flag /\ Version ent = bumped now (kstore ks) name /\
    cluster e1 = cluster e /\
    e' = replicate e1 n name (mkEntry (Value ent) (Version ent) (expireAt now (TTL (cfg ks))) flag) false.

Lemma sent_publishes e n name flag e' : engine_ok e -> sent_by e n name flag e' -> publishes e n name flag e'.
Proof.
  intros He (ks & h' & Hks & (h1 & ent & H1 & H2 & H3 & H4 & H5 & H6 & ->) & ->).
  exists ks, (h_ks h1), (h_e h1), ent. destruct (He _ _ Hks) as [Hn _]. cbn [h_e h_ks sent] in *.
  assert (Hk : KeyspaceName h1 = n) by (unfold KeyspaceName; by rewrite H2).
  split_and!; try done; [|by rewrite Hk]. unfold getKS. rewrite replicate_keyspaces, <- Hk. apply H1.
Qed.

Lemma VAdd_sent w e n name member vec u w' e' :
  engine_ok e -> owned e name -> (forall ks, getKS e n = Some ks -> expiry_fits now (TTL (cfg ks))) ->
  Engine_VAdd env now ctx w e n name member vec = (inl u, w', e') -> sent_by e n name FlagVectorSet e' /\ w' = w.
Proof.
  intros He Ho Hfit (ks & Hks & Hx)%guarded_ok. pose proof (host_of e n ks He Hks) as Hh.
  pose proof (vecCheck_quiet name member vec _ Hh) as Ha.
  destruct ((vsCheckVec now name vec ≫= _) (mkHost e ks)) as [[err|] h1]; [done|]. cbn [snd] in Ha.
  assert (Ho1 : owned (h_e h1) name) by (unfold owned, ringOf in *; by rewrite (af_cluster _ _ _ Ha)).
  rewrite routed_owned in Hx by done. apply local_ack in Hx as (H1 & -> & ->). split; [|done].
  destruct h1 as [e1 ks1]. cbn [h_e h_ks] in *. eexists ks, _. split_and!; [done| |done].
  eapply published_after; [exact Ha|]. pose proof (af_cfg _ _ _ Ha) as Hc. cbn [h_ks] in Hc. rewrite <- Hc.
  apply (VecEng_published now name (mkHost e1 ks1)); [apply Ha|cbn [h_ks]; rewrite Hc; by apply Hfit|done].
Qed.

(** C24: a successful snapshot write on the owner publishes what it stored.  After
    a list push, a counter increment, a JSON or bit write, a sketch observation,
    a vector or a stream append on the node that owns the name, the live entry
    has the kind of the command and a version one above the entry it replaces (1
    for a new name), and the entry handed to the fan-out for the replicas has
    exactly that blob, version and kind and the keyspace's expiry; no peer was
    called.  (The keyspace's TTL from now on ends before the year 2262.) *)
Theorem owner_publishes w e n name c flag w' e' :
  engine_ok e -> owned e name -> cmd_ok c -> snapshotFlag c = Some flag ->
  (forall ks, getKS e n = Some ks -> expiry_fits now (TTL (cfg ks))) ->
  exec env now ctx w e n name c = (None, w', e') ->
  w' = w /\ publishes e n name flag e'.
Proof.
  intros He Ho Hc Hf Hfit Hx. assert (Hs : sent_by e n name flag e' /\ w' = w); [|destruct Hs; auto using sent_publishes].
  destruct c; try done; injection Hf as <-; cbn [exec cmd_ok] in *; apply errOf_ok in Hx as [u Hx];
    try (by eapply VAdd_sent); apply guarded_ok in Hx as (ks & Hks & Hx); pose proof (host_of e n ks He Hks) as Hh; specialize (Hfit ks Hks).
  - eapply ack_sent; [done..| |exact Hx]. by apply ListEng_published.
  - rewrite routed_owned in Hx by done. apply local_value in Hx as (H1 & -> & ->).
    split; [|done]. eexists ks, _. split_and!; [done|by eapply CounterEng_published|done].
  - eapply ack_sent; [done..| |exact Hx]. by apply JSONEng_published.
  - eapply ack_sent; [done..| |exact Hx]. by apply BitmapEng_published.
  - eapply ack_sent; [done..| |exact Hx]. by apply HLLEng_published.
  - eapply ack_sent; [done..| |exact Hx]. by apply TopKEng_published.
  - rewrite routed_owned in Hx by done. apply local_ack in Hx as (H1 & -> & ->).
    split; [|done]. eexists ks, _. split_and!; [done|by apply CMSEng_published|done].
  - rewrite routed_owned in Hx by done. apply local_value in Hx as (H1 & -> & ->).
    split; [|done]. eexists ks, _. split_and!; [done|by eapply StreamEng_published|done].
Qed.
End owner.

(** ** Writes on a node that does not own the name *)

Section foreign.
Context {W : Type} (env : ModeEnv W) (now : Z) (ctx : Ctx) (w : W) (e : Engine) (n name : bytes).
Context (cl : Cluster) (r : Ring) (owner : Peer).
Context (He : engine_ok e) (Hr : ringOf e = Some (cl, r)) (Hf : foreignOwner cl r name = Some owner).

(** Nothing of this node moved, and without a way to reach the owner nothing
    was asked of anyone. *)
Definition untouched {A} (res : (A + EngErr) * W * Engine) : Prop :=
  cluster res.2 = cluster e /\
  (forall ks, getKS e n = Some ks -> exists ks', getKS res.2 n = Some ks' /\ cfg ks' = cfg ks /\
     view now (kstore ks') = view now (kstore ks)) /\
  (hasTransport cl = false \/ peer_Addr owner = [] -> res.1.2 = w /\ exists err, res.1.1 = inr err).

Lemma untouched_err {A} err : untouched (A := A) (inr err, w, e).
Proof. split; [done|]. split; [|intros _; split; [done|by exists err]]. intros ks Hks. by exists ks. Qed.

Lemma untouched_routed {A} e1 ks (remote : W -> Ring -> Peer -> (A + EngErr) * W) act :
  cluster e1 = cluster e ->
  (forall ks, getKS e n = Some ks -> exists ks', getKS e1 n = Some ks' /\ cfg ks' = cfg ks /\
     view now (kstore ks') = view now (kstore ks)) ->
  untouched (routed w e1 ks name remote act).
Proof.
  intros Hc Hv. unfold routed. assert (ringOf e1 = Some (cl, r)) as -> by (unfold ringOf in *; by rewrite Hc). rewrite Hf.
  destruct (negb (hasTransport cl) || bool_decide (peer_Addr owner = [])) eqn:Eb.
  - split; [done|]. split; [done|]. intros _. split; [done|by eexists].
  - apply orb_false_iff in Eb as [H1%negb_false_iff H2%bool_decide_eq_false].
    destruct (remote w r owner) as [res w']. split; [done|]. split; [done|]. intros [H|H]; congruence.
Qed.

Lemma guarded_untouched {A} pre post (body : ksRuntime -> (A + EngErr) * W * Engine) :
  (forall ks, getKS e n = Some ks -> untouched (body ks)) -> untouched (guarded ctx w e n pre post body).
Proof.
  intros Hb. unfold guarded. destruct (first_err _); [apply untouched_err|].
  destruct (getKS e n) as [ks|] eqn:E; [|apply untouched_err]. destruct (first_err _); [apply untouched_err|]. by apply Hb.
Qed.

Lemma same_engine : forall ks, getKS e n = Some ks -> exists ks', getKS e n = Some ks' /\ cfg ks' = cfg ks /\
  view now (kstore ks') = view now (kstore ks).
Proof. intros ks Hks. by exists ks. Qed.

Lemma VAdd_untouched member vec : untouched (Engine_VAdd env now ctx w e n name member vec).
Proof.
  apply guarded_untouched. intros ks Hks. pose proof (host_of e n ks He Hks) as Hh.
  pose proof (vecCheck_quiet now name member vec _ Hh) as Ha.
  assert (Hv : forall h1, after now (mkHost e ks) h1 -> cluster (h_e h1) = cluster e /\
    forall ks0, getKS e n = Some ks0 -> exists ks', getKS (h_e h1) n = Some ks' /\ cfg ks' = cfg ks0 /\
      view now (kstore ks') = view now (kstore ks0)).
  { intros h1 Ha1. pose proof (after_name _ _ _ Ha1) as Hn. destruct Ha1 as [[Ho _] Hc Hcl Hv1]. split; [done|].
    intros ks0 Hks0. rewrite Hks in Hks0. injection Hks0 as <-. exists (h_ks h1).
    destruct (He _ _ Hks) as [Hname _]. unfold KeyspaceName at 2 in Hn. cbn [h_ks] in Hn. rewrite Hn, Hname in Ho. done. }
  destruct ((vsCheckVec now name vec ≫= _) (mkHost e ks)) as [[err|] h1]; cbn [snd] in Ha; destruct (Hv h1 Ha) as [Hcl Hvw].
  - split; [done|]. split; [done|]. intros _. split; [done|by exists err].
  - by apply untouched_routed.
Qed.

Lemma errOf_untouched {A} (res : (A + EngErr) * W * Engine) err w' e' :
  untouched res -> errOf res = (err, w', e') ->
  cluster e' = cluster e /\
  (forall ks, getKS e n = Some ks -> exists ks', getKS e' n = Some ks' /\ cfg ks' = cfg ks /\
     view now (kstore ks') = view now (kstore ks)) /\
  (hasTransport cl = false \/ peer_Addr owner = [] -> w' = w /\ err <> None).
Proof.
  destruct res as [[[a|x] w0] e0]; intros (H1 & H2 & H3) [= <- <- <-]; (split; [done|split; [done|]]);
    intros H; destruct (H3 H) as [? [y Hy]]; done.
Qed.
End foreign.

(** a typed write never takes effect on a node that does not own the name.
    When the ring names another owner, the node's live entries stay the same
    and nothing is queued for its replicas; the write is left to the owner, and
    when the owner cannot be reached (no transport, no address) it fails
    without a call. *)
Theorem foreign_writes {W} (env : ModeEnv W) now ctx w e n name c cl r owner err w' e' :
  engine_ok e -> ringOf e = Some (cl, r) -> foreignOwner cl r name = Some owner -> is_write c = true ->
  exec env now ctx w e n name c = (err, w', e') ->
  cluster e' = cluster e /\
  (forall ks, getKS e n = Some ks -> exists ks', getKS e' n = Some ks' /\ cfg ks' = cfg ks /\
     view now (kstore ks') = view now (kstore ks)) /\
  (hasTransport cl = false \/ peer_Addr owner = [] -> w' = w /\ err <> None).
Proof.
  intros He Hr Hf Hw. destruct c; try done; cbn [exec]; apply errOf_untouched; try (by eapply VAdd_untouched).
  all: apply guarded_untouched; intros ks Hks; eapply untouched_routed; [exact Hr|exact Hf|done|].
  all: intros ks0 Hks0; by exists ks0.
Qed.

(** ** The theorems at concrete engines *)

(** The node "b" of a ring in which "a" owns the name 2. *)
Definition wit_replica (mode : Mode) : Engine := AttachCluster (wit_eng None (wit_mode mode)) (Some wit_cluster).

Lemma wit_replica_ok mode : engine_ok (wit_replica mode).
Proof. apply (engine_ok_same (wit_eng None (wit_mode mode))); [done|]. apply wit_eng_ok; [done|apply NewMemory_ok]. Qed.

Lemma wit_foreign : foreignOwner wit_cluster wit_ring [2] = Some (mkPeer [97] [97]).
Proof. by vm_compute. Qed.

Lemma inbox_owner_only_witness :
  (ApplyPutWithRingGen 10 (wit_replica ModeList) [107] [2] (mkEntry [9] 3 0 FlagListLPush)).1 = (false, None).
Proof.
  rewrite (proj1 (inbox_owner_only 10 (wit_replica ModeList) [107] (wit_mode ModeList) [2] (mkEntry [9] 3 0 FlagListLPush)
    (wit_replica_ok _) eq_refl eq_refl ltac:(by vm_compute) ltac:(by left; left))). reflexivity.
Defined.

Lemma snapshot_applied_witness :
  exists e', ApplyPutWithRingGen 10 (wit_replica ModeBitmap) [107] [2] (mkEntry [5] 3 0 FlagBitmap) = (true, None, e').
Proof.
  destruct (snapshot_applied 10 (wit_replica ModeBitmap) [107] (wit_mode ModeBitmap) [2] (mkEntry [5] 3 0 FlagBitmap))
    as (e' & _ & H & _).
  - apply wit_replica_ok.
  - reflexivity.
  - reflexivity.
  - apply snap_bitmap.
  - by repeat constructor.
  - by left.
  - exists e'. exact H.
Defined.

Lemma owner_publishes_witness :
  exists e', exec wit_menv 10 wit_ctx tt (wit_eng None (wit_mode ModeCounter)) [107] [1] (CmdIncr 4) = (None, tt, e') /\
    publishes 10 (wit_eng None (wit_mode ModeCounter)) [107] [1] FlagCounter e'.
Proof.
  assert (Hx : exists e', exec wit_menv 10 wit_ctx tt (wit_eng None (wit_mode ModeCounter)) [107] [1] (CmdIncr 4) =
    (None, tt, e')) by (eexists; reflexivity).
  destruct Hx as [e' Hx]. exists e'. split; [exact Hx|].
  refine (proj2 (owner_publishes wit_menv 10 wit_ctx tt (wit_eng None (wit_mode ModeCounter)) [107] [1] (CmdIncr 4)
    FlagCounter tt e' _ I I eq_refl _ Hx)).
  - apply wit_eng_ok; [done|apply NewMemory_ok].
  - intros ks H. vm_compute in H. injection H as <-. by vm_compute.
Defined.

Lemma foreign_writes_witness :
  exists err w' e', exec wit_menv 10 wit_ctx tt (wit_replica ModeSet) [107] [2] (CmdSetAdd [9]) = (err, w', e') /\
    cluster e' = cluster (wit_replica ModeSet).
Proof.
  destruct (exec wit_menv 10 wit_ctx tt (wit_replica ModeSet) [107] [2] (CmdSetAdd [9])) as [[err w'] e'] eqn:Hx.
  exists err, w', e'. split; [reflexivity|].
  exact (proj1 (foreign_writes wit_menv 10 wit_ctx tt (wit_replica ModeSet) [107] [2] (CmdSetAdd [9]) wit_cluster wit_ring
    (mkPeer [97] [97]) err w' e' (wit_replica_ok _) eq_refl wit_foreign eq_refl Hx)).
Defined.
