(* ===== verification/Deltas.v ===== *)
(** * Replication by deltas

    Sets, sorted sets, geo indexes and hashes send each mutation to the
    replicas.  A replica in step with the owner stays in step when the owner's
    delta reaches it; deltas that arrive out of order, and deltas forwarded to
    an owner that holds a tombstone, are where the scheme loses writes. *)
From S2P Require Import Prelude Wire Collections Scored Scalars Json JsonText Sketches.
From S2P Require Import Cms TopK Stream Vecset Store StoreInv StoreView StoreProps.
From S2P Require Import StoreKinds StoreKindsProps StoreScalars StoreScalarsProps StoreJson StoreKeeps StoreSafety.
From S2P Require Import Ring Hints Protect Config Engine EngineProps Modes ModeOps.
From S2P Require Import ModesInv ModesProps Replication.

Implicit Types (m : Memory) (ks : ksRuntime) (e : Engine) (h : Host).

(** ** The owner's side *)

Lemma nextVersion_reads now ks key v :
  store_ok (kstore ks) ->
  reads now (kstore ks) (kstore (nextVersion now ks key v).2) /\ cfg (nextVersion now ks key v).2 = cfg ks.
Proof.
  intros Hok. unfold nextVersion. cbv zeta. destruct (PeekVersion now (kstore ks) key) as [pv m] eqn:E.
  apply PeekVersion_reads in E as [_ Hr]; [|done]. cbn [snd].
  set (ks1 := with_lastVer _ _). destruct (prune_spec now ks1) as [Q1 Q2 _ _ _ _ _]; [apply Hr|].
  split; [|done]. by eapply reads_trans.
Qed.

Lemma NextVersion_after now name h : host_ok h -> exists v h1, NextVersion now name h = (v, h1) /\ after now h h1.
Proof.
  intros Hh. unfold NextVersion. pose proof (host_store h Hh) as Hok.
  destruct (onStore_after now (fun m => PeekVersion now m name) h Hh) as (h0 & E0 & Ha0).
  { destruct (PeekVersion now (kstore (h_ks h)) name) as [pv m'] eqn:E. by apply PeekVersion_reads in E as [_ Hr]. }
  rewrite (bind_eq _ _ _ _ _ E0). set (v0 := default 0 _).
  destruct (onKS_after now (fun ks => nextVersion now ks name v0) h0) as (h1 & E1 & Ha1);
    [apply Ha0|apply nextVersion_reads, host_store, Ha0|apply nextVersion_reads, host_store, Ha0|].
  eexists _, h1. split; [exact E1|by eapply after_trans].
Qed.

(** A local mutation that succeeded: the store method accepted it, on a store
    that shows what [h] showed, and the delta is on its way to the replicas; or
    a removal found no value to remove from. *)
Lemma deltaLocal_cases now name op has payload flag h :
  host_ok h -> (forall v x m, store_ok m -> store_ok (op v x m).2) ->
  (deltaLocal now name op has payload flag true h).1 = None ->
  let x := expireAt now (TTL (cfg (h_ks h))) in
  exists v m1, view now m1 = view now (kstore (h_ks h)) /\ store_ok m1 /\
  ((op v x m1).1 = true /\
   (exists h1, host_ok h1 /\ kstore (h_ks h1) = (op v x m1).2 /\ cfg (h_ks h1) = cfg (h_ks h) /\
     cluster (h_e h1) = cluster (h_e h) /\
     (deltaLocal now name op has payload flag true h).2 = sent h1 name (mkEntry payload v x flag)) \/
   (op v x m1).1 = false /\ exists hs, has = Some hs /\ (hs (op v x m1).2).1 = false).
Proof.
  intros Hh Hop. cbv zeta. unfold deltaLocal. destruct (NextVersion_after now name h Hh) as (v & h1 & E1 & Ha1).
  rewrite (bind_eq _ _ _ _ _ E1). rewrite (bind_eq (Host_ExpireAt now) _ h1 _ h1 eq_refl).
  pose proof (af_cfg _ _ _ Ha1) as Hc. rewrite Hc. set (x := expireAt now _).
  rewrite (bind_eq _ _ _ _ _ (onStore_eq (op v x) h1)).
  pose proof (host_store _ (af_host _ _ _ Ha1)) as Hok1.
  set (h2 := mkHost _ (with_store (h_ks h1) _)). intros Hr. exists v, (kstore (h_ks h1)).
  split; [apply Ha1|]. split; [done|]. destruct ((op v x (kstore (h_ks h1))).1) eqn:Eop.
  - left. split; [done|]. exists h2.
    assert (Hok2 : store_ok (op v x (kstore (h_ks h1))).2) by (by apply Hop).
    destruct (af_host _ _ _ Ha1) as [H1 H2]. destruct (H2 _ _ H1) as [Hn _].
    split_and!; [|done|done|apply Ha1|done].
    split; cbn [h_e h_ks h2]; [apply lookup_insert_eq|by apply engine_ok_with_ks].
  - right. split; [done|]. destruct has as [hs|]; [|done]. exists hs. split; [done|].
    rewrite (bind_eq _ _ _ _ _ (onStore_eq hs h2)) in Hr. cbn [h2 h_ks kstore with_store] in Hr.
    by destruct ((hs (op v x (kstore (h_ks h1))).2).1).
Qed.

(** ** In step *)

(** The same blob and kind under the name, or nothing on either side. *)
Definition in_step (s s2 : gmap bytes Entry) (name : bytes) : Prop :=
  match s !! name, s2 !! name with
  | None, None => True
  | Some c, Some c2 => Value c = Value c2 /\ Flags c = Flags c2 /\ IsTombstone c = false
  | _, _ => False
  end.

(** And the same version. *)
Definition in_sync (s s2 : gmap bytes Entry) (name : bytes) : Prop :=
  in_step s s2 name /\ Version <$> s !! name = Version <$> s2 !! name.

Definition pinned_at (s : gmap bytes Entry) (name : bytes) : Prop := forall c, s !! name = Some c -> pinned c = true.

(** A pinned entry, or a missing one, shows through whatever is evicted. *)
Lemma implements_at {R} (now : Z) (r : R * Memory) (spec : R * gmap bytes Entry) (name : bytes) :
  implements now r spec -> pinned_at spec.2 name -> view now r.2 !! name = spec.2 !! name.
Proof.
  intros (_ & Hr & _) Hp. destruct (spec.2 !! name) as [c|] eqn:E; [by apply (ref_pinned _ _ _ Hr), Hp|].
  destruct (view now r.2 !! name) as [c|] eqn:E2; [|done].
  pose proof (lookup_weaken _ _ _ _ E2 (ref_sub _ _ _ Hr)). congruence.
Qed.

Lemma in_sync_at s s2 t t2 name : s !! name = t !! name -> s2 !! name = t2 !! name -> in_sync t t2 name -> in_sync s s2 name.
Proof. intros E1 E2. unfold in_sync, in_step. by rewrite E1, E2. Qed.

(** What two maps do in step with each other. *)
Definition accepted_alike (r r2 : bool * gmap bytes Entry) (name : bytes) : Prop :=
  r2.1 = true /\ in_sync r.2 r2.2 name /\ pinned_at r.2 name /\ pinned_at r2.2 name.

Section spec.
Context {T : Type} `{StoreKind T}.

Lemma inserted_alike (t : T) v x x2 s s2 name :
  accepted_alike (true, <[name := typed_entry t v x]> s) (true, <[name := typed_entry t v x2]> s2) name.
Proof.
  split; [done|]. unfold in_sync, in_step, pinned_at. cbn [snd]. rewrite !lookup_insert_eq.
  split_and!; try done; [apply flag_tomb|intros c [= <-]; apply flag_pinned, flag_own..].
Qed.

(** Two maps in step accept a mutation alike and end in sync. *)
Lemma mutate_alike now now2 s s2 name v x x2 (mut : T -> option T) :
  in_step s s2 name -> (spec_mutate now s name v x mut).1 = true ->
  accepted_alike (spec_mutate now s name v x mut) (spec_mutate now2 s2 name v x2 mut) name.
Proof.
  unfold in_step, spec_mutate, spec_create.
  destruct (s !! name) as [c|] eqn:E1, (s2 !! name) as [c2|] eqn:E2; try done.
  - intros (Hv & Hf & Ht). assert (Ht2 : IsTombstone c2 = false) by (unfold IsTombstone, has_flag in *; by rewrite <- Hf).
    rewrite Ht, Ht2. assert (has_flag (kflag T) c2 = has_flag (kflag T) c) as -> by (unfold has_flag; by rewrite Hf).
    destruct (has_flag (kflag T) c); [|done]. rewrite <- Hv. destruct (kdecode (Value c)) as [t|]; [|done].
    destruct (mut t) as [t'|]; [|done]. intros _. apply inserted_alike.
  - intros _. destruct (mut knew) as [t|]; [|done]. intros _. apply inserted_alike.
Qed.

Lemma remove_alike now now2 s s2 name v x x2 (mut : T -> T) :
  in_step s s2 name -> (spec_remove now s name v x mut).1 = true ->
  accepted_alike (spec_remove now s name v x mut) (spec_remove now2 s2 name v x2 mut) name.
Proof.
  intros Hs. pose proof (mutate_alike now now2 s s2 name v x x2 (fun t => Some (mut t)) Hs) as Hm. revert Hs Hm.
  unfold in_step, spec_remove. destruct (s !! name) as [c|] eqn:E1, (s2 !! name) as [c2|] eqn:E2; try done.
  - intros (Hv & Hf & Ht). assert (Ht2 : IsTombstone c2 = false) by (unfold IsTombstone, has_flag in *; by rewrite <- Hf).
    rewrite Ht, Ht2. assert (has_flag (kflag T) c2 = has_flag (kflag T) c) as -> by (unfold has_flag; by rewrite Hf).
    by destruct (has_flag (kflag T) c).
  - intros _ _ _. split; [done|]. unfold in_sync, in_step, pinned_at. cbn [snd]. by rewrite E1, E2.
Qed.
End spec.

(** The owner's and the replica's call of a store method, at their own clocks. *)
Definition tracks (now now2 : Z) (name : bytes) (op op2 : Z -> Z -> Memory -> bool * Memory) : Prop :=
  forall v x x2 m m2, store_ok m -> store_ok m2 -> live_at now x -> live_at now2 x2 ->
    in_step (view now m) (view now2 m2) name -> (op v x m).1 = true ->
    (op2 v x2 m2).1 = true /\ in_sync (view now (op v x m).2) (view now2 (op2 v x2 m2).2) name.

Lemma implements_alike now now2 name r r2 spec spec2 :
  implements now r spec -> implements now2 r2 spec2 -> accepted_alike spec spec2 name ->
  r2.1 = true /\ in_sync (view now r.2) (view now2 r2.2) name.
Proof.
  intros H1 H2 (Ha & Hs & Hp & Hp2). split; [by destruct H2 as (-> & _)|].
  eapply in_sync_at; [by eapply implements_at|by eapply implements_at|done].
Qed.

Section tracks.
Context {T : Type} `{StoreKind T} (now now2 : Z) (name : bytes).

Lemma mutate_tracks (mut : T -> option T) :
  (forall t t', kok t -> mut t = Some t' -> kok t') ->
  tracks now now2 name (fun v x m => mutateLocked now m name v x mut) (fun v x m => mutateLocked now2 m name v x mut).
Proof.
  intros Hmut v x x2 m m2 Hok Hok2 Hl Hl2 Hs Ha.
  pose proof (mutateLocked_implements now m name v x mut Hok Hl Hmut) as H1.
  pose proof (mutateLocked_implements now2 m2 name v x2 mut Hok2 Hl2 Hmut) as H2.
  eapply implements_alike; [exact H1|exact H2|]. apply mutate_alike; [done|]. destruct H1 as (<- & _). done.
Qed.

Lemma remove_tracks (mut : T -> T) :
  (forall t, kok t -> kok (mut t)) ->
  tracks now now2 name (fun v x m => removeLocked now m name v x mut) (fun v x m => removeLocked now2 m name v x mut).
Proof.
  intros Hmut v x x2 m m2 Hok Hok2 Hl Hl2 Hs Ha.
  pose proof (removeLocked_implements now m name v x mut Hok Hl Hmut) as H1.
  pose proof (removeLocked_implements now2 m2 name v x2 mut Hok2 Hl2 Hmut) as H2.
  eapply implements_alike; [exact H1|exact H2|]. apply remove_alike; [done|]. destruct H1 as (<- & _). done.
Qed.
End tracks.

(** ** The two sides *)

Section kind.
Context {T : Type} `{StoreKind T} (now : Z) (name : bytes).

Definition hasKind (m : Memory) : bool * Memory := with_peek now m name false (fun _ : T => true).

(** A removal that is refused had no value of its kind to remove from. *)
Lemma remove_refused v x m (mut : T -> T) :
  store_ok m -> live_at now x -> (forall t, kok t -> kok (mut t)) ->
  (removeLocked now m name v x mut).1 = false -> (hasKind m).1 = false.
Proof.
  intros Hok Hl Hmut Hr. destruct (removeLocked_implements now m name v x mut Hok Hl Hmut) as (Hi & _ & _).
  rewrite Hr in Hi. unfold hasKind. destruct (with_peek_read (T := T) now m name false (fun _ => true) Hok) as [-> _].
  unfold spec_read. unfold spec_remove, spec_mutate in Hi. destruct (view now m !! name) as [c|]; [|done].
  destruct (IsTombstone c); [done|]. destruct (has_flag (kflag T) c); [|done]. cbn [orb negb].
  by destruct (kdecode (Value c)).
Qed.

Lemma hasKind_view m m1 : store_ok m -> store_ok m1 -> view now m = view now m1 -> (hasKind m).1 = (hasKind m1).1.
Proof.
  intros Hok Hok1 Hv. unfold hasKind.
  destruct (with_peek_read (T := T) now m name false (fun _ => true) Hok) as [-> _].
  destruct (with_peek_read (T := T) now m1 name false (fun _ => true) Hok1) as [-> _]. by rewrite Hv.
Qed.
End kind.

(** What an owner's mutation came to: the delta [ent] was queued from a store
    that holds the new value, and a replica that applies it with [apply] is in
    sync whenever it was in step. *)
Definition delta_shipped (now : Z) h (name : bytes) (payload : bytes) (flag : Z)
    (apply : Z -> Z -> Z -> hm bool) h' : Prop :=
  exists v x h1, host_ok h1 /\ cfg (h_ks h1) = cfg (h_ks h) /\ cluster (h_e h1) = cluster (h_e h) /\
    h' = sent h1 name (mkEntry payload v x flag) /\
    forall now2 h2, host_ok h2 -> live_at now2 (if x =? 0 then expireAt now2 (TTL (cfg (h_ks h2))) else x) ->
      in_step (view now (kstore (h_ks h))) (view now2 (kstore (h_ks h2))) name ->
      (apply now2 v x h2).1 = true /\
      in_sync (view now (kstore (h_ks h1))) (view now2 (kstore (h_ks (apply now2 v x h2).2))) name.

Lemma shipped_by now h name op has payload flag (op2 : Z -> Z -> Z -> Memory -> bool * Memory) :
  host_ok h -> expiry_fits now (TTL (cfg (h_ks h))) -> (forall v x m, store_ok m -> store_ok (op v x m).2) ->
  (forall now2, tracks now now2 name op (op2 now2)) ->
  (forall v x m hs, has = Some hs -> store_ok m -> live_at now x -> (op v x m).1 = false ->
     (hs (kstore (h_ks h))).1 = true -> view now m = view now (kstore (h_ks h)) -> False) ->
  (deltaLocal now name op has payload flag true h).1 = None ->
  delta_shipped now h name payload flag (fun now2 v x => applyStore now2 x (fun x m => op2 now2 v x m))
    (deltaLocal now name op has payload flag true h).2 \/
  exists hs, has = Some hs /\ (hs (kstore (h_ks h))).1 = false.
Proof.
  intros Hh Hfit Hop Ht Hhas Hr. destruct (deltaLocal_cases now name op has payload flag h Hh Hop Hr)
    as (v & m1 & Hv & Hok1 & [[Ha (h1 & H1 & H2 & H3 & H4 & ->)]|[Ha (hs & -> & Hf)]]).
  - left. eexists v, _, h1. split_and!; [done..|]. intros now2 h2 Hh2 Hl Hs. rewrite applyStore_eq, onStore_eq. cbn [fst snd h_ks].
    rewrite H2. cbn [kstore with_store]. apply (Ht now2); [done|by apply host_store|by apply live_expireAt|exact Hl|by rewrite Hv|done].
  - right. exists hs. split; [done|]. destruct ((hs (kstore (h_ks h))).1) eqn:E; [|done].
    exfalso. eapply Hhas; [done|exact Hok1|by apply live_expireAt|exact Ha|exact E|exact Hv].
Qed.

Section shipped.
Context {T : Type} `{StoreKind T} (now : Z) (name : bytes) (h : Host) (payload : bytes) (flag : Z) (Hh : host_ok h).
Context (Hfit : expiry_fits now (TTL (cfg (h_ks h)))).

Lemma add_shipped (mut : T -> option T) :
  (forall t t', kok t -> mut t = Some t' -> kok t') ->
  (deltaLocal now name (fun v x m => mutateLocked now m name v x mut) None payload flag true h).1 = None ->
  delta_shipped now h name payload flag (fun now2 v x => applyStore now2 x (fun x m => mutateLocked now2 m name v x mut))
    (deltaLocal now name (fun v x m => mutateLocked now m name v x mut) None payload flag true h).2.
Proof.
  intros Hmut Hr. destruct (shipped_by now h name (fun v x m => mutateLocked now m name v x mut) None payload flag
    (fun now2 v x m => mutateLocked now2 m name v x mut)) as [?|(hs & ? & _)]; try done.
  - intros v x m Hok. by apply mutateLocked_keeps.
  - intros now2. by apply mutate_tracks.
Qed.

Lemma remove_shipped (mut : T -> T) :
  (forall t, kok t -> kok (mut t)) ->
  let act := deltaLocal now name (fun v x m => removeLocked now m name v x mut) (Some (hasKind (T := T) now name)) payload flag true in
  (act h).1 = None ->
  delta_shipped now h name payload flag (fun now2 v x => applyStore now2 x (fun x m => removeLocked now2 m name v x mut))
    (act h).2 \/ (hasKind (T := T) now name (kstore (h_ks h))).1 = false.
Proof.
  intros Hmut act Hr. destruct (shipped_by now h name (fun v x m => removeLocked now m name v x mut)
    (Some (hasKind (T := T) now name)) payload flag (fun now2 v x m => removeLocked now2 m name v x mut)) as [?|(hs & [= <-] & ?)]; auto.
  - intros v x m Hok. by apply removeLocked_keeps.
  - intros now2. by apply remove_tracks.
  - intros v x m hs [= <-] Hok Hl Ha Hhas Hv. apply remove_refused in Ha; [|done..].
    rewrite (hasKind_view now name _ m) in Hhas; [congruence|by apply host_store|done|done].
Qed.
End shipped.

(** ** The replica's side *)

Lemma replicate_maxKeyLen e n name ent f : maxKeyLen (replicate e n name ent f) = maxKeyLen e.
Proof. unfold replicate. by destruct (replicaFanout e n name f) as [[[[c r] fo] [|p ps]]|]. Qed.

Lemma ApplyPut_delta now e n ks name ent act op :
  engine_ok e -> getKS e n = Some ks -> validateKey e n name = None ->
  (Flags ent, forwardDelta n name ent act) ∈ handlers now n name ent ->
  act = applyStore now (ExpireAt ent) op ->
  exists h0, after now (mkHost e ks) h0 /\ let r := applyStore now (ExpireAt ent) op h0 in
    exists e', ApplyPutWithRingGen now e n name ent = (r.1, None, e') /\ getKS e' n = Some (h_ks r.2) /\
      maxKeyLen e' = maxKeyLen e.
Proof.
  intros He Hks Hv Hin ->. destruct (He _ _ Hks) as [Hn Hok]. pose proof (host_of e n ks He Hks) as Hh.
  rewrite (ApplyPut_eq now e n ks) by done. rewrite (applyEntry_pick now n name ent _ _ Hin eq_refl).
  destruct (observeVersion_spec now ks name (Version ent) Hok) as (Hr & Hc & _).
  set (ks0 := observeVersion now ks name (Version ent)) in *. set (h0 := mkHost (with_ks e n ks0) ks0).
  exists h0. split.
  { split; [|done|done|apply Hr]. split; cbn [h_e h_ks h0].
    - change (getKS (with_ks e n ks0) (Name (cfg ks0)) = Some ks0). rewrite Hc, Hn. apply lookup_insert_eq.
    - by apply engine_ok_with_ks; [|congruence|apply Hr]. }
  rewrite (bind_eq _ _ _ tt h0).
  2:{ unfold ObserveVersion, onKS, h0, ks0, KeyspaceName. cbn [h_e h_ks]. by rewrite Hn. }
  cbv zeta. rewrite applyStore_eq, onStore_eq. set (x := if _ =? 0 then _ else _).
  unfold forwardDelta. rewrite (bind_eq _ _ h0 _ _ (eq_trans (applyStore_eq _ _ _ _) (onStore_eq _ _))).
  fold x. unfold mbind, hm_bind, asks, mret, hm_ret, replicateAs. cbn [h_e h_ks].
  set (e1 := with_ks _ _ (with_store _ _)).
  assert (Hg : getKS e1 n = Some (with_store (h_ks h0) (op x (kstore (h_ks h0))).2)).
  { unfold e1, h0, KeyspaceName. cbn [h_e h_ks]. rewrite Hc, Hn. apply lookup_insert_eq. }
  destruct (_ && _); eexists; (split; [reflexivity|]); cbn [h_e]; [|by split].
  unfold getKS in *. by rewrite replicate_keyspaces, replicate_maxKeyLen.
Qed.

(** ** Commands *)

(** The delta a command sends. *)
Definition deltaOf (c : Cmd) : option (bytes * Z) :=
  match c with
  | CmdSetAdd i => Some (i, FlagSetAdd)
  | CmdSetRemove i => Some (i, FlagSetRemove)
  | CmdZAdd m s => Some (ZSet_EncodeAdd m s, FlagZSetAdd)
  | CmdZRem m => Some (m, FlagZSetRem)
  | CmdGeoAdd m lon lat => Some (Geo_EncodeAdd m lon lat, FlagGeoAdd)
  | CmdGeoRem m => Some (m, FlagGeoRem)
  | CmdHSet f v => Some (Hash_EncodeSet f v, FlagHashSet)
  | CmdHDel f => Some (f, FlagHashDel)
  | _ => None
  end.

(** A removal from a name that holds no value of its kind. *)
Definition nothing_there (now : Z) ks (name : bytes) (c : Cmd) : Prop :=
  match c with
  | CmdSetRemove _ => (HasSet now (kstore ks) name).1 = false
  | CmdZRem _ => (HasZSet now (kstore ks) name).1 = false
  | CmdGeoRem _ => (HasGeo now (kstore ks) name).1 = false
  | CmdHDel _ => (HasHash now (kstore ks) name).1 = false
  | _ => False
  end.

(** [e'] queued the delta for the replicas; any replica that was in step and
    gets it in time applies it and holds the owner's blob, kind and version. *)
Definition ships (now : Z) e ks (n name payload : bytes) (flag : Z) e' : Prop :=
  exists ks1 e1 ent, getKS e' n = Some ks1 /\ cluster e1 = cluster e /\ Value ent = payload /\ Flags ent = flag /\
    e' = replicate e1 n name ent false /\
    forall now2 e2 ks2, engine_ok e2 -> getKS e2 n = Some ks2 -> validateKey e2 n name = None ->
      live_at now2 (expiry now2 ks2 ent) -> in_step (view now (kstore ks)) (view now2 (kstore ks2)) name ->
      exists e2' ks2', ApplyPutWithRingGen now2 e2 n name ent = (true, None, e2') /\ getKS e2' n = Some ks2' /\
        in_sync (view now (kstore ks1)) (view now2 (kstore ks2')) name.

Lemma shipped_ships now e n ks name payload flag (op : Z -> Z -> Z -> Memory -> bool * Memory) h' :
  engine_ok e -> getKS e n = Some ks ->
  (forall now2 v x, let ent := mkEntry payload v x flag in
     exists act, (flag, forwardDelta n name ent act) ∈ handlers now2 n name ent /\ act = applyStore now2 x (op now2 v)) ->
  delta_shipped now (mkHost e ks) name payload flag (fun now2 v x => applyStore now2 x (op now2 v)) h' ->
  ships now e ks n name payload flag (h_e h').
Proof.
  intros He Hks Hact (v & x & h1 & H1 & H2 & H3 & -> & Hrep). destruct (He _ _ Hks) as [Hn _].
  assert (Hk : KeyspaceName h1 = n) by (unfold KeyspaceName; rewrite H2; exact Hn).
  exists (h_ks h1), (h_e h1), (mkEntry payload v x flag). cbn [h_e sent]. split_and!; try done.
  - unfold getKS. rewrite replicate_keyspaces, <- Hk. apply H1.
  - by rewrite Hk.
  - intros now2 e2 ks2 He2 Hks2 Hv2 Hl Hs. destruct (Hact now2 v x) as (act & Hin & Hact').
    destruct (ApplyPut_delta now2 e2 n ks2 name (mkEntry payload v x flag) act (op now2 v) He2 Hks2 Hv2 Hin Hact')
      as (h0 & [G1 Gc _ G2] & e2' & E & Hg & _).
    cbn [ExpireAt] in *. destruct (Hrep now2 h0 G1) as [Ha Hsync]; [by rewrite Gc|by rewrite G2|].
    rewrite Ha in E. eauto.
Qed.

(** The replica's handler of each delta is the store method the owner ran. *)
Ltac delta_handler lemma :=
  intros now2 v x ent; eexists; split; [cbn [Flags]; handler_at|]; cbn [ent Value Version ExpireAt];
  unfold ZSetEng_ApplyAdd, GeoEng_ApplyAdd, HashEng_ApplySet; rewrite ?lemma by done; reflexivity.

Section commands.
Context {W : Type} (env : ModeEnv W) (now : Z) (ctx : Ctx) (w : W) (e : Engine) (n name : bytes) (ks : ksRuntime).
Context (He : engine_ok e) (Ho : owned e name) (Hks : getKS e n = Some ks).
Context (Hfit : expiry_fits now (TTL (cfg ks))).

Lemma keyed_ok {A} pre mode post (body : ksRuntime -> (A + EngErr) * W * Engine) a w' e' :
  keyed ctx w e n name pre mode post body = (inl a, w', e') -> first_err pre = None /\ body ks = (inl a, w', e').
Proof.
  intros Hx. unfold keyed, guarded in Hx. rewrite Hks in Hx.
  destruct (first_err (ctxErr ctx :: _)) eqn:E1; [done|]. destruct (first_err (requireMode _ _ :: _)); [done|].
  split; [|done]. cbn [first_err] in E1. destruct (ctxErr ctx); [done|]. by destruct (validateKey e n name).
Qed.

Lemma ack_local strict flag inbox act u w' e' :
  ackWrite env strict flag inbox act w e name ks = (inl u, w', e') ->
  (act (mkHost e ks)).1 = None /\ e' = h_e (act (mkHost e ks)).2 /\ w' = w.
Proof. unfold ackWrite. rewrite routed_owned by done. apply local_ack. Qed.

(** C26: a delta keeps a replica in step.  A successful add or removal on a set,
    sorted set, geo index or hash on the owner, whose TTL from now on ends before
    the year 2262, queues a delta; any replica that held the same blob and kind
    (or nothing, like the owner) and applies it at a time at which the expiry it
    stores has not passed then holds the blob, kind and version of the owner.  A
    removal that queues nothing found no value of its kind. *)
Theorem delta_in_step c payload flag w' e' :
  cmd_ok c -> deltaOf c = Some (payload, flag) -> exec env now ctx w e n name c = (None, w', e') ->
  w' = w /\ (ships now e ks n name payload flag e' \/ nothing_there now ks name c).
Proof.
  intros Hc Hd Hx. pose proof (host_of e n ks He Hks) as Hh.
  destruct c; try done; injection Hd as <- <-; cbn [exec cmd_ok nothing_there] in *; apply errOf_ok in Hx as [u Hx];
    apply keyed_ok in Hx as [Hpre Hx]; apply ack_local in Hx as (Hr & -> & ->); (split; [done|]).
  - left. eapply (shipped_ships _ _ _ _ _ _ _ (fun now2 v x m => SetAdd now2 m name item v x)); [done..| |].
    + delta_handler I.
    + apply (add_shipped (T := SetT)); [done|done| |done]. intros t t' Ht [= <-]. by apply set_add_fits.
  - apply (remove_shipped (T := SetT)) in Hr as [Hr|Hr]; [left|by right|done|done|by intros t; apply set_remove_fits].
    eapply (shipped_ships _ _ _ _ _ _ _ (fun now2 v x m => SetRemove now2 m name item v x)); [done..| |exact Hr].
    delta_handler I.
  - left. destruct Hc as [Hf Hs]. assert (Hnan : IsNaN score = false) by (by destruct (nonempty member), (IsNaN score)).
    eapply (shipped_ships _ _ _ _ _ _ _ (fun now2 v x m => ZAdd now2 m name member score v x)); [done..| |].
    + delta_handler ZSet_DecodeAdd_EncodeAdd.
    + apply (add_shipped (T := ZSetT)); [done|done| |done]. intros t t' Ht E. by apply (ZSet_Add_ok t member score).
  - apply (remove_shipped (T := ZSetT)) in Hr as [Hr|Hr]; [left|by right|done|done|intros t Ht; exact (delete_pred _ t _ Ht)].
    eapply (shipped_ships _ _ _ _ _ _ _ (fun now2 v x m => ZRem now2 m name member v x)); [done..| |exact Hr].
    delta_handler I.
  - left. destruct Hc as (Hf & Hlon & Hlat).
    assert (Hval : ValidCoord lon lat = true) by (by destruct (nonempty member), (ValidCoord lon lat)).
    eapply (shipped_ships _ _ _ _ _ _ _ (fun now2 v x m => GeoAdd now2 m name member lon lat v x)); [done..| |].
    + delta_handler Geo_DecodeAdd_EncodeAdd.
    + apply (add_shipped (T := GeoT)); [done|done| |done]. intros t t' Ht E. by apply (Geo_Add_ok t member lon lat).
  - apply (remove_shipped (T := GeoT)) in Hr as [Hr|Hr]; [left|by right|done|done|intros t Ht; exact (delete_pred _ t _ Ht)].
    eapply (shipped_ships _ _ _ _ _ _ _ (fun now2 v x m => GeoRem now2 m name member v x)); [done..| |exact Hr].
    delta_handler I.
  - left. destruct Hc as [Hf Hv].
    eapply (shipped_ships _ _ _ _ _ _ _ (fun now2 v x m => HSet now2 m name field value v x)); [done..| |].
    + delta_handler Hash_DecodeSet_EncodeSet.
    + apply (add_shipped (T := HashT)); [done|done| |done]. intros t t' Ht [= <-]. by apply hash_set_fits.
  - apply (remove_shipped (T := HashT)) in Hr as [Hr|Hr]; [left|by right|done|done|intros t Ht; exact (delete_pred _ t _ Ht)].
    eapply (shipped_ships _ _ _ _ _ _ _ (fun now2 v x m => HDel now2 m name field v x)); [done..| |exact Hr].
    delta_handler I.
Qed.
End commands.

(** ** Where deltas are lost *)

(** What a node does with the delta of a set, on the observable map. *)
Lemma ApplyPut_set now e n ks name item v (add : bool) :
  engine_ok e -> getKS e n = Some ks -> validateKey e n name = None -> Wire.fits item -> bytes_ok item ->
  expiry_fits now (TTL (cfg ks)) ->
  let ent := mkEntry item v 0 (if add then FlagSetAdd else FlagSetRemove) in
  let s := view now (kstore ks) in
  let x := expireAt now (TTL (cfg ks)) in
  let spec := if add then spec_mutate now s name v x (fun t => Some (Set_Add t item))
              else spec_remove now s name v x (fun t : SetT => Set_Remove t item) in
  exists e' ks', ApplyPutWithRingGen now e n name ent = (spec.1, None, e') /\ engine_ok e' /\
    getKS e' n = Some ks' /\ cfg ks' = cfg ks /\ validateKey e' n name = None /\ (pinned_at spec.2 name -> view now (kstore ks') !! name = spec.2 !! name).
Proof.
  intros He Hks Hv Hf Hb Hfit ent s x spec.
  set (op := fun x m => if add then SetAdd now m name item v x else SetRemove now m name item v x).
  assert (Hin : exists act, (Flags ent, forwardDelta n name ent act) ∈ handlers now n name ent /\
    act = applyStore now (ExpireAt ent) op).
  { destruct add; eexists; (split; [cbn [ent Flags]; handler_at|reflexivity]). }
  destruct Hin as (act & Hin & Hact).
  destruct (ApplyPut_delta now e n ks name ent act op He Hks Hv Hin Hact) as (h0 & [G1 G2 _ G4] & e' & E & Hg & Hmax).
  rewrite applyStore_eq, onStore_eq in E, Hg. cbn [fst snd h_ks ExpireAt ent Z.eqb] in *. rewrite G2 in E, Hg. fold x in E, Hg.
  assert (Hi : implements now (op x (kstore (h_ks h0))) spec).
  { pose proof (host_store _ G1) as Hok. unfold op, spec, s. rewrite <- G4. destruct add.
    - apply (mutateLocked_implements (T := SetT)); [done|by apply live_expireAt|].
      intros t t' Ht [= <-]. by apply set_add_fits.
    - apply (removeLocked_implements (T := SetT)); [done|by apply live_expireAt|]. intros t. by apply set_remove_fits. }
  exists e', (with_store (h_ks h0) (op x (kstore (h_ks h0))).2). split_and!; [|  |done|done| |intros Hp; by apply implements_at].
  - rewrite E. by destruct Hi as (-> & _).
  - replace e' with (ApplyPutWithRingGen now e n name ent).2 by (by rewrite E). apply ApplyPut_keeps; [done|].
    split; [destruct add; by apply (bool_decide_unpack _)|done|done|by destruct add].
  - unfold validateKey in *. by rewrite Hmax.
Qed.

Lemma contains_at (now : Z) m (name item : bytes) (t : SetT) (v x : Z) :
  store_ok m -> set_fits t -> view now m !! name = Some (typed_entry t v x) ->
  (SetContains now m name item).1 = Set_Contains t item.
Proof.
  intros Hok Ht Hv. unfold SetContains.
  destruct (with_peek_read (T := SetT) now m name false (fun s => Set_Contains s item) Hok) as [-> _].
  unfold spec_read. rewrite Hv.
  change (match kdecode (kencode t) with Some t => Set_Contains t item | None => false end = Set_Contains t item).
  by rewrite (decode_encode (KindLaws := SetLaws) t Ht).
Qed.

Lemma spec_remove_typed (now : Z) (s : gmap bytes Entry) (name : bytes) (v v0 x x0 : Z) (t : SetT) (f : SetT -> SetT) :
  s !! name = Some (typed_entry t v0 x0) -> set_fits t ->
  spec_remove now s name v x f = (true, <[name := typed_entry (f t) v (if x =? 0 then x0 else x)]> s).
Proof.
  intros Hs Ht. unfold spec_remove, spec_mutate. rewrite Hs.
  change (match kdecode (kencode t) with
    | None => (false, s)
    | Some t => (true, <[name := typed_entry (f t) v (if x =? 0 then x0 else x)]> s) end =
    (true, <[name := typed_entry (f t) v (if x =? 0 then x0 else x)]> s)).
  by rewrite (decode_encode (KindLaws := SetLaws) t Ht).
Qed.

Lemma inserted_pinned (t : SetT) (v x : Z) (s : gmap bytes Entry) (name : bytes) : pinned_at (<[name := typed_entry t v x]> s) name.
Proof. intros c Hc. rewrite lookup_insert_eq in Hc. injection Hc as <-. reflexivity. Qed.

(** deltas do not commute, and nothing orders them on a replica.  An owner that
    adds an item to a new set and removes it again sends an add with version v1
    and a removal with the higher version v2.  A node that gets them in this
    order ends without the item; a node that gets the removal first applies
    both, and ends with the item in its set under the lower version. *)
Theorem deltas_out_of_order now e n ks name item v1 v2 :
  engine_ok e -> getKS e n = Some ks -> validateKey e n name = None -> Wire.fits item -> bytes_ok item ->
  view now (kstore ks) !! name = None -> expiry_fits now (TTL (cfg ks)) ->
  let add := mkEntry item v1 0 FlagSetAdd in
  let rem := mkEntry item v2 0 FlagSetRemove in
  (exists e1 e2 ks2, ApplyPutWithRingGen now e n name add = (true, None, e1) /\
     ApplyPutWithRingGen now e1 n name rem = (true, None, e2) /\ getKS e2 n = Some ks2 /\
     (SetContains now (kstore ks2) name item).1 = false) /\
  (exists e1 e2 ks2, ApplyPutWithRingGen now e n name rem = (true, None, e1) /\
     ApplyPutWithRingGen now e1 n name add = (true, None, e2) /\ getKS e2 n = Some ks2 /\
     (SetContains now (kstore ks2) name item).1 = true /\ Version <$> view now (kstore ks2) !! name = Some v1).
Proof.
  intros He Hks Hv Hf Hb Hnone Hfit add rem.
  assert (Ht : set_fits (Set_Add Set_New item)) by (apply set_add_fits; [done|exact (new_ok (KindLaws := SetLaws))]).
  split.
  - destruct (ApplyPut_set now e n ks name item v1 true He Hks Hv Hf Hb Hfit) as (e1 & ks1 & E1 & He1 & Hk1 & Hcfg & Hval & Hv1).
    cbn [fst snd] in *. unfold spec_mutate, spec_create in E1, Hv1. rewrite Hnone in E1, Hv1. cbn [fst snd] in *.
    specialize (Hv1 (inserted_pinned _ _ _ _ _)). rewrite lookup_insert_eq in Hv1.
    destruct (ApplyPut_set now e1 n ks1 name item v2 false He1 Hk1 Hval Hf Hb ltac:(by rewrite Hcfg)) as (e2 & ks2 & E2 & He2 & Hk2 & _ & _ & Hv2).
    cbn [fst snd] in *. erewrite spec_remove_typed in E2, Hv2 by done. cbn [fst snd] in *.
    specialize (Hv2 (inserted_pinned _ _ _ _ _)). rewrite lookup_insert_eq in Hv2.
    exists e1, e2, ks2. split_and!; try done. erewrite contains_at; [|apply (He2 _ _ Hk2)|by apply set_remove_fits|done].
    apply bool_decide_eq_false. unfold Set_Remove. set_solver.
  - destruct (ApplyPut_set now e n ks name item v2 false He Hks Hv Hf Hb Hfit) as (e1 & ks1 & E1 & He1 & Hk1 & Hcfg & Hval & Hv1).
    cbn [fst snd] in *. unfold spec_remove in E1, Hv1. rewrite Hnone in E1, Hv1. cbn [fst snd] in *.
    assert (Hn1 : view now (kstore ks1) !! name = None) by (rewrite Hv1; [done|intros c; by rewrite Hnone]).
    destruct (ApplyPut_set now e1 n ks1 name item v1 true He1 Hk1 Hval Hf Hb ltac:(by rewrite Hcfg)) as (e2 & ks2 & E2 & He2 & Hk2 & _ & _ & Hv2).
    cbn [fst snd] in *. unfold spec_mutate, spec_create in E2, Hv2. rewrite Hn1 in E2, Hv2. cbn [fst snd] in *.
    specialize (Hv2 (inserted_pinned _ _ _ _ _)). rewrite lookup_insert_eq in Hv2.
    exists e1, e2, ks2. split_and!; try done; [|by rewrite Hv2].
    erewrite contains_at; [|apply (He2 _ _ Hk2)|exact Ht|exact Hv2]. apply bool_decide_eq_true. unfold Set_Add. set_solver.
Qed.

(** A transport that hands the entry to the engine of the owner. *)
Definition delivers (now : Z) (env : ModeEnv Engine) (addr : bytes) : Prop :=
  forall owner n name ent gen, me_ApplyPut env owner addr n name ent gen =
    let '(ok, err, owner') := ApplyPutWithRingGen now owner n name ent in
    (match err with Some x => inr x | None => inl ok end, owner').

(** a forwarded add can be lost and reported as done.  A node that does not own a
    set forwards SetAdd with version 1 and ignores whether it was applied; while
    the owner holds the tombstone of a Delete, whose version is at least 1, it
    refuses the delta.  The caller gets no error and the item is nowhere: the
    tombstone stays and the owner does not contain it. *)
Theorem forwarded_add_lost now (env : ModeEnv Engine) ctx owner e n ks oks name item cl r peer c :
  engine_ok owner -> getKS owner n = Some oks -> validateKey owner n name = None ->
  view now (kstore oks) !! name = Some c -> IsTombstone c = true -> 1 <= Version c ->
  delivers now env (peer_Addr peer) ->
  ringOf e = Some (cl, r) -> foreignOwner cl r name = Some peer -> hasTransport cl = true -> peer_Addr peer <> [] ->
  cancelled ctx = false -> validateKey e n name = None -> getKS e n = Some ks -> Name (cfg ks) = n ->
  cMode (cfg ks) = ModeSet -> validateKeyLen e ks name = None ->
  item <> [] -> len item <= maxKeyLen e -> Wire.fits item -> bytes_ok item -> expiry_fits now (TTL (cfg oks)) ->
  exists owner' oks', Engine_SetAdd env now ctx owner e n name item = (inl tt, owner', e) /\
    getKS owner' n = Some oks' /\ view now (kstore oks') !! name = Some c /\
    (SetContains now (kstore oks') name item).1 = false.
Proof.
  intros He Hoks Hov Hc Ht Hver Hd Hr Ho Htr Haddr Hctx Hv Hks Hn Hm Hl Hi Hlen Hf Hb Hfit.
  destruct (ApplyPut_set now owner n oks name item 1 true He Hoks Hov Hf Hb Hfit) as (owner' & oks' & E & He' & Hk' & _ & _ & Hv').
  cbn [fst snd] in *. unfold spec_mutate in E, Hv'. rewrite Hc, Ht, (proj2 (Z.leb_le _ _) Hver) in E, Hv'. cbn [fst snd] in *.
  assert (Hp : pinned_at (view now (kstore oks)) name).
  { intros c' Hc'. rewrite Hc in Hc'. injection Hc' as <-. unfold pinned. by rewrite Ht. }
  specialize (Hv' Hp). rewrite Hc in Hv'. exists owner', oks'. split_and!; [|done|done|].
  - assert (Hne : (len item =? 0) = false) by (destruct item; [done|]; apply Z.eqb_neq; unfold len; cbn [length]; lia).
    unfold Engine_SetAdd, keyed, guarded, ctxErr, nonempty, requireMode, itemLen, invalid_if.
    rewrite Hctx, Hv, Hne, Hks. cbn [first_err]. rewrite Hm, Hl, (bool_decide_eq_true_2 _ eq_refl).
    rewrite (proj2 (Z.ltb_ge _ _) Hlen). cbn [negb first_err]. unfold ackWrite, routed.
    rewrite Hr, Ho, Htr, (bool_decide_eq_false_2 _ Haddr). cbn [negb orb]. unfold mutViaOwner. by rewrite Hd, Hn, E.
  - destruct (with_peek_read (T := SetT) now (kstore oks') name false (fun s => Set_Contains s item)) as [H _];
      [apply (He' _ _ Hk')|]. unfold SetContains. rewrite H. unfold spec_read. by rewrite Hv', Ht.
Qed.

(** hints of deltas coalesce.  Of two deltas of one name that a replica
    missed, only the later stays queued: its identity is the name alone for
    every kind but Bloom adds.  The first mutation is lost on that replica and
    no drop is counted. *)
Theorem delta_hints_coalesce p peer (ks key : bytes) d1 d2 gen :
  hintsDisabled p = false -> closed p = false -> peer_Addr peer <> [] -> hints p !! peer_Addr peer = None ->
  IsBloomAdd d1 = false -> IsBloomAdd d2 = false -> IsTombstone d1 = false -> IsTombstone d2 = false ->
  Version d1 < Version d2 ->
  let p' := enqueueHint (enqueueHint p peer ks key d1 gen) peer ks key d2 gen in
  let hid := ks ++ 0 :: key in
  hints p' !! peer_Addr peer = Some (mkHintQ [hid] {[hid := mkHint peer ks key d2 gen]}) /\
  HintsDropped p' = HintsDropped p.
Proof.
  intros Hdis Hcl Ha Hq B1 B2 T1 T2 Hv p' hid.
  assert (E1 : enqueueHint p peer ks key d1 gen =
    with_queue p (peer_Addr peer) (mkHintQ [hid] {[hid := mkHint peer ks key d1 gen]}) (HintsDropped p)).
  { unfold enqueueHint. rewrite Hdis, Hcl, (bool_decide_eq_false_2 _ Ha), Hq. cbn [orb h_ent default].
    rewrite copyEntry_id, T1. unfold addBlocked, hintID. rewrite B1. cbn [andb items order]. fold hid. by rewrite lookup_empty. }
  unfold p'. rewrite E1. unfold enqueueHint. cbn [hintsDisabled closed with_queue hints h_ent].
  rewrite Hdis, Hcl, (bool_decide_eq_false_2 _ Ha), lookup_insert_eq. cbn [orb default]. rewrite copyEntry_id, T2.
  unfold addBlocked, hintID, from_option, id. rewrite B2. cbn [andb items order]. fold hid. rewrite lookup_singleton_eq.
  unfold hintNewer. cbn [h_ent]. destruct (Z.eqb_spec (Version d2) (Version d1)); [lia|].
  rewrite (proj2 (Z.ltb_lt _ _) Hv). cbn [with_queue hints HintsDropped]. rewrite lookup_insert_eq.
  by rewrite insert_singleton_eq.
Qed.

(** ** The theorems at concrete engines *)

Definition wit_sets : Engine := wit_eng None (wit_mode ModeSet).

Lemma wit_sets_ok : engine_ok wit_sets.
Proof. apply wit_eng_ok; [done|apply NewMemory_ok]. Qed.

Lemma delta_in_step_witness :
  exists e', exec wit_menv 10 wit_ctx tt wit_sets [107] [1] (CmdSetAdd [9]) = (None, tt, e') /\
    ships 10 wit_sets (wit_mode ModeSet) [107] [1] [9] FlagSetAdd e'.
Proof.
  destruct (exec wit_menv 10 wit_ctx tt wit_sets [107] [1] (CmdSetAdd [9])) as [[err w'] e'] eqn:Hx.
  assert (Herr : err = None).
  { assert (H : (exec wit_menv 10 wit_ctx tt wit_sets [107] [1] (CmdSetAdd [9])).1.1 = None) by reflexivity.
    rewrite Hx in H. exact H. }
  subst err. destruct w'. exists e'. split; [reflexivity|].
  destruct (delta_in_step wit_menv 10 wit_ctx tt wit_sets [107] [1] (wit_mode ModeSet) wit_sets_ok I eq_refl ltac:(done)
    (CmdSetAdd [9]) [9] FlagSetAdd tt e' ltac:(by vm_compute) eq_refl Hx) as [_ [H|[]]]. exact H.
Defined.

Lemma deltas_out_of_order_witness :
  exists e1 e2 ks2, ApplyPutWithRingGen 10 wit_sets [107] [1] (mkEntry [9] 2 0 FlagSetRemove) = (true, None, e1) /\
    ApplyPutWithRingGen 10 e1 [107] [1] (mkEntry [9] 1 0 FlagSetAdd) = (true, None, e2) /\ getKS e2 [107] = Some ks2 /\
    (SetContains 10 (kstore ks2) [1] [9]).1 = true /\ Version <$> view 10 (kstore ks2) !! [1] = Some 1.
Proof.
  refine (proj2 (deltas_out_of_order 10 wit_sets [107] (wit_mode ModeSet) [1] [9] 1 2 wit_sets_ok eq_refl eq_refl _ _ _ _)).
  - by vm_compute.
  - by repeat constructor.
  - apply view_missing. reflexivity.
  - done.
Defined.

(** The owner "a" of name 2 has deleted it; node "b" forwards to it. *)
Definition wit_deleted : ksRuntime :=
  wit_ks ModeSet ∅ (AcceptIfNewer 5 (NewMemory 0 0) [2] (mkEntry [] 3 0 FlagTombstone)).2.

Definition wit_delivery : ModeEnv Engine :=
  mkModeEnv Engine
    (mkEnv Engine (fun w _ => (true, w)) (fun w _ _ _ _ _ _ => (true, w)) (fun w _ _ _ => (Some [], w))
       (fun w _ _ _ => (None, w)) (fun w e n _ => (Loaded [7], w, e, mkHeld (default wit_blank (getKS e n)) true)))
    (fun w _ n name ent _ =>
       let '(ok, err, w') := ApplyPutWithRingGen 10 w n name ent in (match err with Some x => inr x | None => inl ok end, w'))
    (fun w _ _ _ _ => (inl None, w)) (fun w _ _ _ d => (inl d, w)) (fun w _ _ _ _ => (inl [], w)).

Lemma forwarded_add_lost_witness :
  exists owner' oks', Engine_SetAdd wit_delivery 10 wit_ctx (wit_eng None wit_deleted) (wit_replica ModeSet) [107] [2] [9] =
      (inl tt, owner', wit_replica ModeSet) /\
    getKS owner' [107] = Some oks' /\ view 10 (kstore oks') !! [2] = Some (mkEntry [] 3 0 FlagTombstone) /\
    (SetContains 10 (kstore oks') [2] [9]).1 = false.
Proof.
  apply (forwarded_add_lost 10 wit_delivery wit_ctx (wit_eng None wit_deleted) (wit_replica ModeSet) [107] (wit_mode ModeSet)
    wit_deleted [2] [9] wit_cluster wit_ring (mkPeer [97] [97]) (mkEntry [] 3 0 FlagTombstone)); try done.
  - apply wit_eng_ok; [done|].
    apply (AcceptIfNewer_implements 5 (NewMemory 0 0) [2] (mkEntry [] 3 0 FlagTombstone)); [apply NewMemory_ok|by split].
  - by repeat constructor.
Defined.

Lemma delta_hints_coalesce_witness :
  hints (enqueueHint (enqueueHint (NewFanoutPool 4 0 false) (mkPeer [97] [97]) [107] [1] (mkEntry [8] 1 0 FlagSetAdd) 0)
    (mkPeer [97] [97]) [107] [1] (mkEntry [9] 2 0 FlagSetAdd) 0) !! [97] =
  Some (mkHintQ [[107; 0; 1]] {[ [107; 0; 1] := mkHint (mkPeer [97] [97]) [107] [1] (mkEntry [9] 2 0 FlagSetAdd) 0 ]}).
Proof.
  exact (proj1 (delta_hints_coalesce (NewFanoutPool 4 0 false) (mkPeer [97] [97]) [107] [1] (mkEntry [8] 1 0 FlagSetAdd)
    (mkEntry [9] 2 0 FlagSetAdd) 0 eq_refl eq_refl ltac:(discriminate) eq_refl eq_refl eq_refl eq_refl eq_refl ltac:(done))).
Defined.
