(* ===== verification/Mesh.v ===== *)
(** * The peer mesh: internal/grpcmap, internal/peerserver and the calls of internal/peer/transport.go

    The handlers of the Peer service run the engine of the node that is called
    and turn its errors into status codes; the methods of Transport are the
    calling side.  A mesh is the engines by address.  [mesh] closes the network
    parameter of the engine with these handlers: a call that finds no engine at
    its address fails with Unavailable, and [depth] is the number of nested
    calls that fit into the deadline.  The gRPC runtime delivers a request and
    its reply, or a status; connections, credentials and time-outs are not part
    of the model.  Within a call only the node that runs the command changes its
    own engine: a node that passes a call on leaves its engine as it is. *)
From S2P Require Import Prelude Wire Store Ring Hints Protect Config Engine Modes ModeOps.

(** ** Status codes (grpcmap/status.go) *)

(** errors.Is for the sentinels in [p], through joined errors. *)
Fixpoint errorsIs (p : EngErr -> bool) (err : EngErr) : bool :=
  p err || match err with
           | KeyErrors errs => existsb (fun ke => errorsIs p ke.2) errs
           | _ => false
           end.

Definition isAbsent (err : EngErr) : bool :=
  match err with ErrNotFound | ErrKeyspaceNotFound => true | _ => false end.
Definition isInvalid (err : EngErr) : bool :=
  match err with ErrInvalidArgument | ErrKeyTooLarge | ErrValueTooLarge | ErrBatchTooLarge => true | _ => false end.
Definition isUnavailable (err : EngErr) : bool := match err with ErrUnavailable => true | _ => false end.

Definition Status (err : EngErr) : code :=
  if errorsIs isAbsent err then NotFound
  else if errorsIs isInvalid err then InvalidArgument
  else if errorsIs isUnavailable err then Unavailable
  else Internal.

Definition statusOf {A : Type} (r : A + EngErr) : A + code :=
  match r with inl a => inl a | inr err => inr (Status err) end.

(** ** Handlers (peerserver/server.go) *)

Section handlers.
Context {W : Type} (env : ModeEnv W) (now : Z) (ctx : Ctx).

(** The ring generation is not looked at. *)
Definition peer_ApplyPut (e : Engine) (ksName key : bytes) (entry : option Entry) (ringGen : Z) : (bool + code) * Engine :=
  let '(applied, err, e) := ApplyPutWithRingGen now e ksName key (default noEntry entry) in
  (match err with Some err => inr (Status err) | None => inl applied end, e).

Definition peer_ApplyDelete (e : Engine) (ksName key : bytes) (version ringGen : Z) : (bool + code) * Engine :=
  let '(applied, err, e) := ApplyDeleteWithRingGen now e ksName key version in
  (match err with Some err => inr (Status err) | None => inl applied end, e).

Definition peer_ForwardPut (w : W) (e : Engine) (ksName key value : bytes) (ttlNanos : Z) (ttlSet : bool) (hopCount : Z)
    : (unit + code) * W * Engine :=
  let '(err, w, e) := PutLocalAtHop (me_base env) now ctx w e ksName key value hopCount
                        (if ttlSet then Some ttlNanos else None) in
  (match err with Some err => inr (Status err) | None => inl tt end, w, e).

(** The peers that did not apply the delete are a reply, not an error. *)
Definition peer_ForwardDelete (w : W) (e : Engine) (ksName key : bytes) : (list bytes + code) * W * Engine :=
  let '(err, w, e) := DeleteAsOwner (me_base env) now ctx w e ksName key in
  (match err with
   | None => inl []
   | Some (MultiError peers) => inl peers
   | Some err => inr (Status err)
   end, w, e).

(** A missing key is a reply; its negative entry goes with it. *)
Definition peer_GetOrLoad (w : W) (e : Engine) (ksName key : bytes) : ((bool * option Entry) + code) * W * Engine :=
  let '((ent, err), w, e) := GetOrLoadLocal (me_base env) now ctx w e ksName key in
  (match err with
   | None => inl (true, Some ent)
   | Some err =>
       if errorsIs (fun x => match x with ErrNotFound => true | _ => false end) err
       then inl (false, if IsNegative ent || (0 <? Version ent) then Some ent else None)
       else inr (Status err)
   end, w, e).

Definition peer_ListPop (w : W) (e : Engine) (ksName name : bytes) (left : bool) : (option bytes + code) * W * Engine :=
  let '(r, w, e) := if left then Engine_LPop env now ctx w e ksName name else Engine_RPop env now ctx w e ksName name in
  (statusOf r, w, e).

Definition peer_CounterIncr (w : W) (e : Engine) (ksName name : bytes) (delta : Z) : (Z + code) * W * Engine :=
  let '(r, w, e) := Engine_Incr env now ctx w e ksName name delta in (statusOf r, w, e).

Definition peer_StreamAdd (w : W) (e : Engine) (ksName name payload : bytes) : (bytes + code) * W * Engine :=
  let '(r, w, e) := Engine_XAdd env now ctx w e ksName name payload in (statusOf r, w, e).

End handlers.

(** ** Calls (transport.go) *)

Abbreviation Mesh := (gmap bytes Engine).

Section transport.
Context (now : Z) (ctx : Ctx) (source : bytes -> bytes -> LoadResult).

(** One unary call: the handler runs at the engine of the address. *)
Definition rpc {A : Type} (w : Mesh) (addr : bytes) (h : Mesh -> Engine -> (A + code) * Mesh * Engine) : (A + EngErr) * Mesh :=
  match w !! addr with
  | None => (inr (ErrRPC Unavailable), w)
  | Some e =>
      let '(r, w, e) := h w e in
      (match r with inl a => inl a | inr c => inr (ErrRPC c) end, <[addr := e]> w)
  end.

(** A handler that calls no other node. *)
Definition alone {A : Type} (h : Engine -> (A + code) * Engine) (w : Mesh) (e : Engine) : (A + code) * Mesh * Engine :=
  let '(r, e) := h e in (r, w, e).

Definition succeeded {A : Type} (r : (A + EngErr) * Mesh) : bool * Mesh :=
  (match r.1 with inl _ => true | inr _ => false end, r.2).

Definition answered {A B : Type} (f : A -> B) (r : (A + EngErr) * Mesh) : option B * Mesh :=
  (match r.1 with inl a => Some (f a) | inr _ => None end, r.2).

Definition Transport_ApplyPut (w : Mesh) (addr ksName key : bytes) (ent : Entry) (ringGen : Z) : (bool + EngErr) * Mesh :=
  rpc w addr (alone (fun e => peer_ApplyPut now e ksName key (Some ent) ringGen)).

Definition Transport_ApplyDelete (w : Mesh) (addr ksName key : bytes) (version ringGen : Z) : (bool + EngErr) * Mesh :=
  rpc w addr (alone (fun e => peer_ApplyDelete now e ksName key version ringGen)).

Definition noConfig : Config :=
  mkConfig [] ModeCacheOnly 0 0 0 0 0 None 0 f_zero (mkPConfig f_zero 0 0 0) false 0 0 0 0 0 0 0 0 0 0.

(** The runtime a loading caller keeps; it loads only for a keyspace that is filed. *)
Definition filedHere (e : Engine) (ksName : bytes) : Held :=
  match getKS e ksName with
  | Some ks => mkHeld ks true
  | None => mkHeld (mkKS noConfig (NewMemory 0 0) (Guard_New 0 (mkPConfig f_zero 0 0 0)) ∅ 0) false
  end.

Section nested.
Context (inner : ModeEnv Mesh).

Definition Transport_ForwardPut (w : Mesh) (addr ksName key value : bytes) (ttl : option Z) (hopCount : Z)
    : (unit + EngErr) * Mesh :=
  rpc w addr (fun w e => peer_ForwardPut inner now ctx w e ksName key value
                           (default 0 ttl) (match ttl with Some _ => true | None => false end) hopCount).

Definition Transport_ForwardDelete (w : Mesh) (addr ksName key : bytes) : (list bytes + EngErr) * Mesh :=
  rpc w addr (fun w e => peer_ForwardDelete inner now ctx w e ksName key).

Definition Transport_GetOrLoad (w : Mesh) (addr ksName key : bytes) : ((bool * option Entry) + EngErr) * Mesh :=
  rpc w addr (fun w e => peer_GetOrLoad inner now ctx w e ksName key).

Definition Transport_ListPop (w : Mesh) (addr ksName name : bytes) (left : bool) : (option bytes + EngErr) * Mesh :=
  rpc w addr (fun w e => peer_ListPop inner now ctx w e ksName name left).

Definition Transport_CounterIncr (w : Mesh) (addr ksName name : bytes) (delta : Z) : (Z + EngErr) * Mesh :=
  rpc w addr (fun w e => peer_CounterIncr inner now ctx w e ksName name delta).

Definition Transport_StreamAdd (w : Mesh) (addr ksName name payload : bytes) : (bytes + EngErr) * Mesh :=
  rpc w addr (fun w e => peer_StreamAdd inner now ctx w e ksName name payload).

(** The network of an engine: the calls above, and a data source, during whose
    answer nobody else runs, so that the caller's runtime is the one still filed. *)
Definition meshBase : Env Mesh := {|
  env_rpc w req :=
    match req with
    | ApplyPut addr ks key ent gen => succeeded (Transport_ApplyPut w addr ks key ent gen)
    | ApplyDelete addr ks key v gen => succeeded (Transport_ApplyDelete w addr ks key v gen)
    end;
  env_ForwardPut w addr ks key value ttl hop := succeeded (Transport_ForwardPut w addr ks key value ttl hop);
  env_ForwardDelete w addr ks key := answered (fun fails => fails) (Transport_ForwardDelete w addr ks key);
  env_GetOrLoad w addr ks key := answered (fun r => (r.1, default noEntry r.2)) (Transport_GetOrLoad w addr ks key);
  env_Load w e ks key := (source ks key, w, e, filedHere e ks);
|}.

Definition meshOver : ModeEnv Mesh := {|
  me_base := meshBase;
  me_ApplyPut w addr ks name ent gen := Transport_ApplyPut w addr ks name ent gen;
  me_ListPop := Transport_ListPop;
  me_CounterIncr := Transport_CounterIncr;
  me_StreamAdd := Transport_StreamAdd;
|}.
End nested.

(** No time is left for a call. *)
Definition expired : ModeEnv Mesh := {|
  me_base := {|
    env_rpc w _ := (false, w);
    env_ForwardPut w _ _ _ _ _ _ := (false, w);
    env_ForwardDelete w _ _ _ := (None, w);
    env_GetOrLoad w _ _ _ := (None, w);
    env_Load w e ks key := (source ks key, w, e, filedHere e ks);
  |};
  me_ApplyPut w _ _ _ _ _ := (inr (ErrRPC DeadlineExceeded), w);
  me_ListPop w _ _ _ _ := (inr (ErrRPC DeadlineExceeded), w);
  me_CounterIncr w _ _ _ _ := (inr (ErrRPC DeadlineExceeded), w);
  me_StreamAdd w _ _ _ _ := (inr (ErrRPC DeadlineExceeded), w);
|}.

Fixpoint mesh (depth : nat) : ModeEnv Mesh :=
  match depth with O => expired | S d => meshOver (mesh d) end.

End transport.
