(* ===== verification/MeshProps.v ===== *)
(** * A cluster of nodes that call each other

    What a client sees when it talks to a node that does not own the name: a
    put is read back anywhere, increments of a counter from any node add up
    without loss, an acknowledged delete has reached every replica; and where
    the calls lose information: status codes, and calls without a hop limit. *)
From S2P Require Import Prelude Wire Collections Scored Scalars Json Store StoreInv.
From S2P Require Import StoreView StoreProps StoreKinds StoreKindsProps StoreScalars StoreScalarsProps StoreBehaviour Ring.
From S2P Require Import Hints Protect.
From S2P Require Import Config Engine EngineProps Modes ModeOps ModesInv ModesProps Replication.
From S2P Require Import Deltas Mesh.

Implicit Types (m : Memory) (ks : ksRuntime) (e : Engine) (w : Mesh).

(** ** Plain keyspaces *)

Lemma typedMode_flag mode : typedMode mode = false -> modeFlag mode = None.
Proof. by destruct mode. Qed.

(** A live readable entry is what the owner hands out. *)
Lemma GetOrLoadLocal_hit {W} (env : Env W) now ctx (w : W) e n ks key c :
  admissible e n ks key -> store_ok (kstore ks) -> cancelled ctx = false ->
  readable now (kstore ks) key = Some c -> IsNegative c = false ->
  exists e', GetOrLoadLocal env now ctx w e n key = ((c, None), w, e').
Proof.
  intros [Hks Hkey Hlen Hmode] Hok Hctx Hr Hn. unfold GetOrLoadLocal.
  rewrite Hctx, Hkey, Hks, Hlen, (typedMode_flag _ Hmode). unfold storeGet.
  destruct (Get now (kstore ks) key) as [r m'] eqn:E. apply Get_reads in E as [-> _]; [|done].
  rewrite Hr, Hn. eauto.
Qed.

Section mesh.
Context (now : Z) (sctx : Ctx) (source : bytes -> bytes -> LoadResult) (Hs : cancelled sctx = false).

(** The engine [eo] owns [key] and answers at the address that [e] knows. *)
Record asks_owner (w : Mesh) (e : Engine) (key : bytes) (c : Cluster) (r : Ring) (owner : Peer) (eo : Engine) : Prop := {
  ao_ring : ringOf e = Some (c, r);
  ao_owner : foreignOwner c r key = Some owner;
  ao_transport : hasTransport c = true;
  ao_addr : peer_Addr owner <> [];
  ao_node : w !! peer_Addr owner = Some eo;
  ao_owned : owned eo key;
}.

(** A Get on a node without a copy returns what the owner has. *)
Lemma Get_from_owner d ctx w e n ks key c r owner eo oks ent :
  cancelled ctx = false -> cancelledAfter ctx = false -> asks_owner w e key c r owner eo ->
  admissible e n ks key -> store_ok (kstore ks) -> readable now (kstore ks) key = None ->
  admissible eo n oks key -> store_ok (kstore oks) -> readable now (kstore oks) key = Some ent -> IsNegative ent = false ->
  (Engine_Get (me_base (mesh now sctx source (S d))) now ctx w e n key).1.1 = inl (Value ent).
Proof.
  intros Hctx Hctx' [Hring Howner Htr Haddr Hnode Howned] [Hks Hkey Hlen Hmode] Hok Hmiss Had Hoko Hent Hneg.
  unfold Engine_Get. rewrite Hctx, Hkey, Hks, Hlen, Hmode. unfold storeGet at 1.
  destruct (Get now (kstore ks) key) as [r1 m1] eqn:E1. apply Get_reads in E1 as [-> [Rv1 Ro1 _ _]]; [|done].
  rewrite Hmiss. cbn [cfg with_store kstore].
  assert (Hring' : forall e', cluster e' = cluster e -> ringOf e' = Some (c, r)) by (unfold ringOf in *; by intros e' ->).
  assert (Hlocal : match cluster (with_ks e n (with_store ks m1)) with
                   | Some c => match cRing c with Some _ => negb (hasTransport c) | None => true end
                   | None => true end = false).
  { unfold ringOf in Hring. cbn [cluster with_ks with_keyspaces]. destruct (cluster e) as [c'|]; [|done].
    destruct (cRing c'); [|done]. injection Hring as -> _. by rewrite Htr. }
  rewrite Hlocal, andb_false_r. unfold storeGet. cbn [kstore with_store].
  destruct (Get now m1 key) as [r2 m2] eqn:E2. apply Get_reads in E2 as [-> [Rv2 Ro2 _ _]]; [|done].
  assert (Hmiss' : readable now m1 key = None) by (unfold readable in *; by rewrite Rv1). rewrite Hmiss'.
  cbn [cfg with_store kstore].
  destruct (GetOrLoadLocal_hit (me_base (mesh now sctx source d)) now sctx w eo n oks key ent Had Hoko Hs Hent Hneg) as (eo' & Hg).
  assert (Hcall :
    env_GetOrLoad (me_base (mesh now sctx source (S d))) w (peer_Addr owner) n key = (Some (true, ent), <[peer_Addr owner := eo']> w)).
  { cbn. unfold Transport_GetOrLoad, rpc. rewrite Hnode. unfold peer_GetOrLoad. by rewrite Hg. }
  destruct (bool_decide (cMode (cfg ks) = ModeCacheOnly)); [unfold fetchFromOwner|unfold getViaCluster];
    match goal with |- context [ringOf ?e'] => rewrite (Hring' e' eq_refl) end;
    rewrite Howner, Htr, bool_decide_eq_false_2, Hcall by done; cbn [negb orb andb]; rewrite Hneg; cbn [orb];
    by rewrite Hctx'.
Qed.

(** C4: a write through any node is read through any node.  A client of a node
    that does not own a key of an untyped keyspace puts a value.  When the owner
    answers at the address the node knows for it, has no byte budget for the
    keyspace and a version left for the key, the value is within its size limit,
    and the expiry of the TTL that applies fits int64, the Put runs on the owner,
    whose engine is the only one that changes, and succeeds.  Until something
    else happens a Get on the owner then returns the value, and so does a Get on
    the node that was asked if it has no copy of its own, in LoadThrough and
    CacheOnly keyspaces.  No context is cancelled meanwhile. *)
Theorem mesh_put_get d ctx w e n ks key value ttl c r owner eo oks :
  expiry_fits now (default (TTL (cfg oks)) ttl) ->
  cancelled ctx = false -> cancelledAfter ctx = false -> asks_owner w e key c r owner eo ->
  admissible e n ks key -> store_ok (kstore ks) -> readable now (kstore ks) key = None ->
  admissible eo n oks key -> store_ok (kstore oks) -> ver_room now oks key -> maxBytes (kstore oks) <= 0 ->
  validateValueSize eo oks value = None -> bytes_ok value ->
  let env := me_base (mesh now sctx source (S d)) in
  exists eo' oks' v x,
    Put env now ctx w e n key value ttl = (None, <[peer_Addr owner := eo']> w, e) /\
    getKS eo' n = Some oks' /\ view now (kstore oks') = <[key := mkEntry value v x 0]> (view now (kstore oks)) /\
    (Engine_Get env now ctx (<[peer_Addr owner := eo']> w) eo' n key).1.1 = inl value /\
    (Engine_Get env now ctx (<[peer_Addr owner := eo']> w) e n key).1.1 = inl value.
Proof.
  intros Hnow Hctx Hctx' Hask Had Hok Hmiss Hado Hoko Hroom Hmax Hval Hb env.
  pose proof Hask as [Hring Howner Htr Haddr Hnode Howned]. pose proof Had as [Hks Hkey Hlen Hmode].
  pose proof Hado as [Hkso Hkeyo Hleno Hmodeo].
  destruct (putLocalApply_spec now sctx eo n oks key value false ttl)
    as (v & oks' & eo' & Ep & Honly & Hcfg & Hok' & Hmax' & Hv1 & Hv2 & Href); try done.
  { unfold tooBig. by destruct (Z.ltb_spec 0 (maxBytes (kstore oks))); [lia|]. }
  set (x := expireAt now (match ttl with Some t => t | None => TTL (cfg oks) end)) in *.
  assert (Hview : view now (kstore oks') = <[key := mkEntry value v x 0]> (view now (kstore oks))).
  { rewrite (ref_exact _ _ _ Href) by lia. unfold insert_live. unfold x. by rewrite fresh_live. }
  assert (Hread : readable now (kstore oks') key = Some (mkEntry value v x 0))
    by (unfold readable; by rewrite Hview, lookup_insert_eq).
  assert (Hado' : admissible eo' n oks' key) by (by eapply admissible_only).
  exists eo', oks', v, x. split_and!; [|apply Honly|done| |].
  - unfold Put, putViaCluster. rewrite Hks, Hmode, Hring, Howner, Htr, bool_decide_eq_false_2 by done. cbn [negb orb].
    unfold env. cbn. unfold Transport_ForwardPut, rpc. rewrite Hnode. unfold peer_ForwardPut, PutLocalAtHop.
    rewrite Hs, Hkeyo, Hkso, Hval, Hleno.
    assert (Httl : (if match ttl with Some _ => true | None => false end then Some (default 0 ttl) else None) = ttl)
      by (by destruct ttl). rewrite Httl.
    unfold owned in Howned. destruct (ringOf eo) as [[co ro]|]; [rewrite Howned|]; by rewrite Ep.
  - by apply (Engine_Get_hit _ _ _ _ _ _ oks' key (mkEntry value v x 0)).
  - apply (Get_from_owner d ctx _ e n ks key c r owner eo' oks' (mkEntry value v x 0)); try done.
    split; try done; [apply lookup_insert_eq|by apply Honly].
Qed.
End mesh.

(** ** Host programs and the place of a node *)

(** Nothing about the node but its stores, versions and fan-out pool changes. *)
Record stays e e' : Prop := {
  st_self : SelfID <$> cluster e' = SelfID <$> cluster e;
  st_ring : cRing <$> cluster e' = cRing <$> cluster e;
  st_transport : hasTransport <$> cluster e' = hasTransport <$> cluster e;
  st_key : maxKeyLen e' = maxKeyLen e;
  st_cfg : forall n, cfg <$> getKS e' n = cfg <$> getKS e n;
}.

#[global] Instance stays_preorder : PreOrder stays.
Proof. split; [by split|]. intros ? ? ? [] []. split; intros; etrans; eauto. Qed.

Definition settled {A} (act : hm A) : Prop :=
  forall h, getKS (h_e h) (KeyspaceName h) = Some (h_ks h) ->
    stays (h_e h) (h_e (act h).2) /\ getKS (h_e (act h).2) (KeyspaceName (act h).2) = Some (h_ks (act h).2) /\
    KeyspaceName (act h).2 = KeyspaceName h.

Lemma settled_ret {A} (a : A) : settled (mret a).
Proof. intros h Hh. split; [reflexivity|done]. Qed.

Lemma settled_asks {A} (f : Host -> A) : settled (asks f).
Proof. intros h Hh. split; [reflexivity|done]. Qed.

Lemma settled_bind {A B} (x : hm A) (f : A -> hm B) : settled x -> (forall a, settled (f a)) -> settled (x ≫= f).
Proof.
  intros Hx Hf h Hh. unfold mbind, hm_bind. destruct (Hx h Hh) as (H1 & H2 & H3). destruct (x h) as [a h1]. cbn [snd] in *.
  destruct (Hf a h1 H2) as (H4 & H5 & H6). split; [by etrans|]. split; [done|congruence].
Qed.

Lemma settled_onKS {A} (f : ksRuntime -> A * ksRuntime) : (forall ks, cfg (f ks).2 = cfg ks) -> settled (onKS f).
Proof.
  intros Hf h Hh. unfold onKS. specialize (Hf (h_ks h)). destruct (f (h_ks h)) as [a ks]. cbn [snd] in *.
  assert (Hn : KeyspaceName (mkHost (with_ks (h_e h) (KeyspaceName h) ks) ks) = KeyspaceName h) by (unfold KeyspaceName; cbn; by rewrite Hf).
  rewrite Hn. cbn [h_e h_ks]. split; [|split; [apply lookup_insert_eq|done]]. split; try done.
  intros n. unfold getKS in *. cbn [keyspaces with_ks with_keyspaces].
  destruct (decide (KeyspaceName h = n)) as [<-|]; [|by rewrite lookup_insert_ne].
  rewrite lookup_insert_eq, Hh. cbn. by rewrite Hf.
Qed.

Lemma settled_onStore {A} (f : Memory -> A * Memory) : settled (onStore f).
Proof. apply settled_onKS. intros ks. by destruct (f (kstore ks)). Qed.

Lemma observeVersion_cfg now ks key v : cfg (observeVersion now ks key v) = cfg ks.
Proof.
  unfold observeVersion, pruneLastVerLocked. cbv zeta. destruct (_ || _); [done|]. by destruct (pruneAbsent _ _ _ _ _).
Qed.

Lemma settled_ObserveVersion now name v : settled (ObserveVersion now name v).
Proof. apply settled_onKS. intros ks. apply observeVersion_cfg. Qed.

Lemma stays_replicate e n name ent f : stays e (replicate e n name ent f).
Proof.
  unfold replicate. destruct (replicaFanout e n name f) as [[[[c r] fo] [|p ps]]|] eqn:E; [reflexivity| |reflexivity].
  apply replicaFanout_cluster in E. split; cbn [cluster with_fanout with_cluster]; rewrite ?E; done.
Qed.

Lemma settled_Replicate name ent : settled (Replicate name ent).
Proof.
  intros h Hh. unfold Replicate, replicateAs. cbn [snd h_e h_ks]. split; [apply stays_replicate|]. split; [|done].
  unfold KeyspaceName, getKS in *. cbn [h_ks]. by rewrite replicate_keyspaces.
Qed.

Create HintDb settled discriminated.
#[export] Hint Resolve settled_ret settled_asks settled_bind settled_onStore settled_ObserveVersion settled_Replicate : settled.

(** ** Counters *)

(** A counter as its clients know it: the value and the expiry, 0 for none. *)
Definition standing (t : Z) (s : option (Z * Z)) : option (Z * Z) :=
  match s with
  | Some (v, x) => if negb (x =? 0) && (x <=? t) then None else s
  | None => None
  end.
Definition count_value (s : option (Z * Z)) : Z := match s with Some (v, _) => v | None => 0 end.

(** What an increment at [t] leaves: the sum, with the expiry slid on, or on an
    overflow what was there. *)
Definition incr_state (ttl t : Z) (s : option (Z * Z)) (delta : Z) : option (Z * Z) :=
  if bool_decide (is_i64 (count_value s + delta))
  then Some (count_value s + delta, if 0 <? ttl then t + ttl else match s with Some (_, x) => x | None => 0 end)
  else s.

(** The counter [name] at the time [now]; a deleted one is none. *)
Definition counter_is (now : Z) m (name : bytes) (s : option (Z * Z)) : Prop :=
  match view now m !! name with
  | None => s = None
  | Some c => if IsTombstone c then s = None /\ 0 <= Version c < MaxUint64
              else IsCounter c = true /\ exists v, Counter_Decode (Value c) = Some v /\ s = Some (v, ExpireAt c)
  end.

Lemma counter_is_view now m m' name s : view now m' = view now m -> counter_is now m name s -> counter_is now m' name s.
Proof. unfold counter_is. by intros ->. Qed.

Lemma counter_later t t' m name s : t <= t' -> counter_is t m name s -> counter_is t' m name (standing t' s).
Proof.
  intros Ht. unfold counter_is. rewrite !lookup_view. destruct (Store.items m !! name) as [it|]; [|by intros ->].
  destruct (Expired (entry it) t) eqn:Ex; [rewrite (Expired_later _ t t') by done; by intros ->|].
  destruct (IsTombstone (entry (flush_item name it))) eqn:Et.
  - intros [-> Hv]. by destruct (Expired (entry it) t'); [|rewrite Et].
  - intros (Hc & v & Hd & ->). cbn [standing].
    assert (Hx : negb (ExpireAt (entry (flush_item name it)) =? 0) && (ExpireAt (entry (flush_item name it)) <=? t') = Expired (entry it) t').
    { unfold Expired. destruct (flush_item_meta name it) as (_ & -> & _). by destruct (_ =? 0). }
    rewrite Hx. destruct (Expired (entry it) t'); [done|]. rewrite Et. eauto.
Qed.

Lemma CIncr_counts now m name delta ttl s :
  store_ok m -> 0 <= now -> expiry_fits now ttl -> counter_is now m name s -> is_i64 (count_value s) -> is_i64 delta ->
  exists m', store_ok m' /\ counter_is now m' name (incr_state ttl now s delta) /\
  if bool_decide (is_i64 (count_value s + delta))
  then CIncr now m name delta (bumped now m name) (expireAt now ttl) = ((count_value s + delta, true, false), m')
  else exists cur, CIncr now m name delta (bumped now m name) (expireAt now ttl) = ((cur, false, true), m').
Proof.
  intros Hok Hnow Hfit Hc Hv Hd.
  pose proof (CIncr_implements now m name delta (bumped now m name) (expireAt now ttl) Hok (live_expireAt _ _ Hfit)) as Hi.
  assert (Hx : expireAt now ttl = if 0 <? ttl then now + ttl else 0).
  { unfold expireAt, expiry_fits in *. zcmp; try lia. rewrite unixNano_small by lia. done. }
  assert (Hw : forall m' v ver x, is_i64 v ->
    refines now (<[name := mkEntry (Counter_Encode v) ver x FlagCounter]> (view now m)) m' ->
    counter_is now m' name (Some (v, x))).
  { intros m' v ver x Hr Href. unfold counter_is. rewrite (ref_pinned _ _ _ Href name _ (lookup_insert_eq _ _ _)) by done.
    split; [done|]. exists v. cbn [Value ExpireAt]; by rewrite Counter_Decode_Encode. }
  destruct (CIncr now m name delta (bumped now m name) (expireAt now ttl)) as [[[n a] o] m'].
  exists m'. destruct Hi as (Hr & Href & Hok'). split; [done|]. cbn [fst snd] in *.
  unfold spec_CIncr, counter_is, bumped, incr_state in *. cbv zeta in *. rewrite Hx in *.
  assert (H0 : s = None -> bool_decide (is_i64 (count_value s + delta)) = true) by (intros ->; by apply bool_decide_eq_true_2).
  destruct (view now m !! name) as [c|] eqn:Ec; cbn [fmap option_fmap option_map default from_option id] in *.
  - destruct (IsTombstone c) eqn:Et.
    + destruct Hc as [-> Hlt]. rewrite H0 by done. rewrite (u64_succ (Version c)) in Hr, Href by done.
      destruct (Z.leb_spec (Version c + 1) (Version c)); [lia|]. cbn [fst snd] in *. injection Hr as -> -> ->.
      split; [|done]. by eapply Hw.
    + destruct Hc as (Hic & v & Hdec & ->). cbn [count_value] in *.
      rewrite Hic, Hdec, Counter_Add_spec in Hr, Href by done. cbn [negb] in *.
      case_bool_decide; cbn [fst snd] in *; injection Hr as -> -> ->.
      * split; [|done]. destruct (Z.ltb_spec 0 ttl).
        -- rewrite (proj2 (Z.eqb_neq _ _)) in Href by lia. by eapply Hw.
        -- by eapply Hw.
      * split; [|by eexists]. rewrite (ref_pinned _ _ _ Href name c); [|done|by apply counter_pinned]. rewrite Et. eauto.
  - subst s. rewrite H0 by done. injection Hr as -> -> ->. split; [|done]. by eapply Hw.
Qed.

Lemma host_after_store h m :
  host_ok h -> store_ok m -> host_ok (mkHost (with_ks (h_e h) (KeyspaceName h) (with_store (h_ks h) m)) (with_store (h_ks h) m)).
Proof.
  intros [H1 H2] Hok. destruct (H2 _ _ H1) as [Hn _].
  split; cbn [h_e h_ks]; [apply lookup_insert_eq|by apply engine_ok_with_ks].
Qed.

(** What IncrLocal answers. *)
Definition incr_result (v delta : Z) : Z + mode_err :=
  if bool_decide (is_i64 (v + delta)) then inl (v + delta) else inr Overflow.

Lemma IncrLocal_counts now name delta h s :
  host_ok h -> 0 <= now -> expiry_fits now (TTL (cfg (h_ks h))) -> counter_is now (kstore (h_ks h)) name s ->
  is_i64 (count_value s) -> is_i64 delta ->
  (CounterEng_IncrLocal now name delta true h).1 = incr_result (count_value s) delta /\
  host_ok (CounterEng_IncrLocal now name delta true h).2 /\
  counter_is now (kstore (h_ks (CounterEng_IncrLocal now name delta true h).2)) name
    (incr_state (TTL (cfg (h_ks h))) now s delta).
Proof.
  intros Hh Hnow Hfit Hc Hv Hd. unfold CounterEng_IncrLocal, incr_result.
  set (ttl := TTL (cfg (h_ks h))) in *.
  rewrite (bind_eq (Host_ExpireAt now) _ h (expireAt now ttl) h eq_refl).
  destruct (nextGate_after now name h Hh) as (h1 & E1 & Ha1). rewrite (bind_eq _ _ _ _ _ E1).
  pose proof Ha1 as [Hh1 _ _ Hv1]. pose proof (host_store _ Hh1) as Hs1.
  assert (Hb : bumped now (kstore (h_ks h)) name = bumped now (kstore (h_ks h1)) name) by (unfold bumped; by rewrite Hv1).
  rewrite Hb. apply (counter_is_view _ _ _ _ _ Hv1) in Hc.
  destruct (CIncr_counts now (kstore (h_ks h1)) name delta ttl s Hs1 Hnow Hfit Hc Hv Hd) as (m' & Hok & Hc' & Hm).
  set (op := fun m => CIncr now m name delta (bumped now (kstore (h_ks h1)) name) (expireAt now ttl)) in *.
  rewrite (bind_eq _ _ _ _ _ (onStore_eq op h1)).
  pose proof (host_after_store h1 m' Hh1 Hok) as Hh2.
  case_bool_decide.
  - change (CIncr _ _ _ _ _ _) with (op (kstore (h_ks h1))) in Hm. rewrite Hm. cbn [fst snd negb].
    destruct (observed_after now name _ Hh2) as (h3 & E3 & Ha3). rewrite (bind_eq _ _ _ _ _ E3).
    unfold CounterEng_ReplicateSnapshot, Replicate, replicateAs, mbind, hm_bind, mret, hm_ret. cbn [fst snd h_e h_ks].
    split; [done|]. split; [|apply (counter_is_view _ m'); [apply Ha3|done]].
    apply (keeps_replicateAs (KeyspaceName h3)). apply Ha3.
  - destruct Hm as [cur Eo]. change (CIncr _ _ _ _ _ _) with (op (kstore (h_ks h1))) in Eo. rewrite Eo. done.
Qed.

Lemma settled_IncrLocal now name delta : settled (CounterEng_IncrLocal now name delta true).
Proof.
  unfold CounterEng_IncrLocal, nextGate, observed, CounterEng_ReplicateSnapshot, Host_ExpireAt.
  repeat first [apply settled_bind; [|intros ?] | case_match | solve [auto with settled]].
Qed.

(** ** A cluster that agrees *)

(** The engine of a member: its ring, its keyspace, and that the name is within its limits. *)
Record member (r : Ring) (n name : bytes) (mode : Mode) (id : bytes) e : Prop := {
  me_ok : engine_ok e;
  me_cluster : exists c, cluster e = Some c /\ SelfID c = id /\ cRing c = Some r /\ hasTransport c = true;
  me_ks : exists ks, getKS e n = Some ks /\ cMode (cfg ks) = mode /\
            validateKey e n name = None /\ validateKeyLen e ks name = None;
}.

Lemma member_stays r n name mode id e e' : member r n name mode id e -> stays e e' -> engine_ok e' -> member r n name mode id e'.
Proof.
  intros [_ (c & Hc & H1 & H2 & H3) (ks & Hks & H4 & H5 & H6)] [S1 S2 S3 S4 S5] Hok. split; [done| |].
  - rewrite Hc in S1, S2, S3. destruct (cluster e') as [c'|]; [|done]. exists c'.
    injection S1 as ->. injection S2 as ->. injection S3 as ->. done.
  - specialize (S5 n). rewrite Hks in S5. destruct (getKS e' n) as [ks'|]; [|done]. injection S5 as Hcfg.
    exists ks'. unfold validateKey, validateKeyLen in *. by rewrite S4, Hcfg.
Qed.

(** Every node knows the ring [r]; the owner's node is the one at its address. *)
Record agreed (r : Ring) (n name : bytes) (mode : Mode) (owner : Peer) (w : Mesh) : Prop := {
  ag_owner : Owner r name = Some owner;
  ag_named : peer_ID owner <> [] /\ peer_Addr owner <> [];
  ag_there : is_Some (w !! peer_Addr owner);
  ag_member : forall addr e, w !! addr = Some e ->
    exists id, member r n name mode id e /\ (id = peer_ID owner <-> addr = peer_Addr owner);
}.

Section counter.
Context (ctx sctx : Ctx) (source : bytes -> bytes -> LoadResult).
Context (Hctx : cancelled ctx = false) (Hs : cancelled sctx = false).

(** The increments of clients of different nodes, one after the other, each at
    its time, at a node, of an amount. *)
Fixpoint incr_all (d : nat) (n name : bytes) (w : Mesh) (ops : list (Z * bytes * Z)) : list (Z + EngErr) * Mesh :=
  match ops with
  | [] => ([], w)
  | (t, addr, delta) :: ops =>
      match w !! addr with
      | None => ([], w)
      | Some e =>
          let '(res, w, e) := Engine_Incr (mesh t sctx source d) t ctx w e n name delta in
          let '(rest, w) := incr_all d n name (<[addr := e]> w) ops in
          (res :: rest, w)
      end
  end.

(** The answers of one counter that starts as [s] in a keyspace of TTL [ttl]. *)
Fixpoint counter_answers (owner : bytes) (ttl : Z) (s : option (Z * Z)) (ops : list (Z * bytes * Z)) : list (Z + EngErr) :=
  match ops with
  | [] => []
  | (t, addr, delta) :: ops =>
      let s := standing t s in
      (if bool_decide (is_i64 (count_value s + delta)) then inl (count_value s + delta)
       else inr (if bool_decide (addr = owner) then ErrInvalidArgument else ErrRPC InvalidArgument))
      :: counter_answers owner ttl (incr_state ttl t s delta) ops
  end.

(** The keyspace [n] of the engine has the TTL [ttl] and the counter stands at [s]. *)
Definition counts (now ttl : Z) (n name : bytes) (s : option (Z * Z)) e : Prop :=
  forall ks, getKS e n = Some ks -> TTL (cfg ks) = ttl /\ counter_is now (kstore ks) name s.

Lemma counts_later t t' ttl n name s e : t <= t' -> counts t ttl n name s e -> counts t' ttl n name (standing t' s) e.
Proof. intros Ht Hc ks Hks. destruct (Hc ks Hks). split; [done|]. by eapply counter_later. Qed.

(** On the owner. *)
Lemma Incr_owner (now ttl : Z) (env : ModeEnv Mesh) ctx' w r n name owner e s delta :
  cancelled ctx' = false -> Owner r name = Some owner -> member r n name ModeCounter (peer_ID owner) e ->
  0 <= now -> expiry_fits now ttl -> is_i64 (count_value s) -> is_i64 delta -> counts now ttl n name s e ->
  exists e', Engine_Incr env now ctx' w e n name delta =
      (match incr_result (count_value s) delta with inl z => inl z | inr _ => inr ErrInvalidArgument end, w, e') /\
    member r n name ModeCounter (peer_ID owner) e' /\ counts now ttl n name (incr_state ttl now s delta) e'.
Proof.
  intros Hc' Hown Hm Hnow Hfit Hv Hd Hcnt.
  pose proof Hm as [Hok (c & Hcl & Hid & Hr & Ht) (ks & Hks & Hmode & Hkey & Hlen)].
  destruct (Hok _ _ Hks) as [Hn _]. pose proof (host_of e n ks Hok Hks) as Hh. destruct (Hcnt ks Hks) as [<- Hcs].
  destruct (IncrLocal_counts now name delta (mkHost e ks) s Hh Hnow Hfit Hcs Hv Hd) as (Hres & Hh' & Hc2).
  destruct (settled_IncrLocal now name delta (mkHost e ks) (ho_here _ Hh)) as (Hst & Hhere & Hname).
  destruct (CounterEng_IncrLocal now name delta true (mkHost e ks)) as [res h'] eqn:E. cbn [fst snd h_e h_ks] in *.
  exists (h_e h'). split; [|split].
  - unfold Engine_Incr, keyed, guarded, ctxErr. rewrite Hc', Hkey, Hks. cbn [first_err].
    unfold requireMode, invalid_if. rewrite Hmode, bool_decide_eq_true_2, Hlen by done. cbn [negb first_err].
    rewrite routed_owned.
    + unfold local, valueOf. rewrite (bind_eq _ _ _ _ _ E). unfold mret, hm_ret. rewrite Hres.
      unfold incr_result. by case_bool_decide.
    + unfold owned, ringOf, foreignOwner. rewrite Hcl, Hr, Hown, Hid, (bool_decide_eq_true_2 (peer_ID owner = peer_ID owner)) by done.
      by rewrite orb_true_r.
  - by eapply member_stays; [exact Hm|exact Hst|apply Hh'].
  - intros ks' Hks'. pose proof (st_cfg _ _ Hst n) as Hcfg. rewrite Hks, Hks' in Hcfg. injection Hcfg as Hcfg.
    assert (Hk : KeyspaceName (mkHost e ks) = n) by exact Hn. rewrite Hname, Hk in Hhere.
    rewrite Hks' in Hhere. injection Hhere as ->. by rewrite Hcfg.
Qed.

(** The counter at the owner's address. *)
Definition owner_counts (now ttl : Z) (n name : bytes) (owner : Peer) (w : Mesh) (s : option (Z * Z)) : Prop :=
  forall e, w !! peer_Addr owner = Some e -> counts now ttl n name s e.

(** On another node: the call runs at the owner. *)
Lemma Incr_via (now ttl : Z) d w r n name owner id e eo s delta :
  agreed r n name ModeCounter owner w -> member r n name ModeCounter id e -> id <> peer_ID owner ->
  w !! peer_Addr owner = Some eo -> 0 <= now -> expiry_fits now ttl -> is_i64 (count_value s) -> is_i64 delta ->
  owner_counts now ttl n name owner w s ->
  exists eo', Engine_Incr (mesh now sctx source (S d)) now ctx w e n name delta =
      (match incr_result (count_value s) delta with inl z => inl z | inr _ => inr (ErrRPC InvalidArgument) end,
       <[peer_Addr owner := eo']> w, e) /\
    member r n name ModeCounter (peer_ID owner) eo' /\ counts now ttl n name (incr_state ttl now s delta) eo'.
Proof.
  intros [Hown [Hid Haddr] _ Hall] Hm Hne Heo Hnow Hfit Hv Hd Hcnt.
  destruct (Hall _ _ Heo) as (id' & Hmo & Hiff). rewrite (proj2 Hiff eq_refl) in Hmo.
  destruct (Incr_owner now ttl (mesh now sctx source d) sctx w r n name owner eo s delta) as (eo' & E & Hmo' & Hc'); auto.
  exists eo'. split; [|done]. pose proof Hm as [Hok (c & Hcl & Hself & Hr & Ht) (ks & Hks & Hmode & Hkey & Hlen)].
  destruct (Hok _ _ Hks) as [Hn _].
  unfold Engine_Incr, keyed, guarded, ctxErr. rewrite Hctx, Hkey, Hks. cbn [first_err].
  unfold requireMode, invalid_if. rewrite Hmode, bool_decide_eq_true_2, Hlen by done. cbn [negb first_err].
  unfold routed, ringOf, foreignOwner. rewrite Hcl, Hr, Hown, Hself, !bool_decide_eq_false_2 by congruence. cbn [orb].
  rewrite Ht, bool_decide_eq_false_2 by done. cbn [negb orb]. cbn [mesh meshOver me_CounterIncr].
  unfold Transport_CounterIncr, rpc, peer_CounterIncr. rewrite Heo, Hn, E.
  unfold incr_result. by case_bool_decide.
Qed.

Lemma agreed_insert r n name mode owner w addr e id :
  agreed r n name mode owner w -> member r n name mode id e -> (id = peer_ID owner <-> addr = peer_Addr owner) ->
  agreed r n name mode owner (<[addr := e]> w).
Proof.
  intros [H1 H2 H3 H4] Hm Hiff. split; [done|done| |].
  - apply lookup_insert_is_Some. destruct (decide (addr = peer_Addr owner)); auto.
  - intros addr' e'. rewrite lookup_insert_Some. intros [[<- <-]|[_ Hl]]; [by exists id|by apply H4].
Qed.

Lemma incr_state_range ttl t s delta : is_i64 (count_value s) -> is_i64 (count_value (incr_state ttl t s delta)).
Proof. unfold incr_state. by case_bool_decide. Qed.

Lemma standing_range t s : is_i64 (count_value s) -> is_i64 (count_value (standing t s)).
Proof. destruct s as [[v x]|]; [|done]. cbn [standing]. by destruct (_ && _). Qed.

(** One increment at any node of the mesh: the answer, and the mesh it leaves. *)
Lemma Incr_anywhere (t ttl : Z) d w r n name owner addr e s delta :
  agreed r n name ModeCounter owner w -> owner_counts t ttl n name owner w s -> w !! addr = Some e ->
  0 <= t -> expiry_fits t ttl -> is_i64 (count_value s) -> is_i64 delta ->
  exists w' e', Engine_Incr (mesh t sctx source (S d)) t ctx w e n name delta =
      (if bool_decide (is_i64 (count_value s + delta)) then inl (count_value s + delta)
       else inr (if bool_decide (addr = peer_Addr owner) then ErrInvalidArgument else ErrRPC InvalidArgument), w', e') /\
    let w1 := <[addr := e']> w' in
    agreed r n name ModeCounter owner w1 /\ owner_counts t ttl n name owner w1 (incr_state ttl t s delta) /\
    forall a, is_Some (w !! a) -> is_Some (w1 !! a).
Proof.
  intros Hag Hcnt He Ht Hfit Hv Hd. destruct (ag_member _ _ _ _ _ _ Hag addr e He) as (id & Hm & Hiff).
  destruct (decide (addr = peer_Addr owner)) as [Ha|Ha].
  - rewrite (proj2 Hiff Ha) in Hm.
    destruct (Incr_owner t ttl (mesh t sctx source (S d)) ctx w r n name owner e s delta) as (e' & -> & Hm' & Hc'); try done.
    { by apply (ag_owner _ _ _ _ _ _ Hag). }
    { apply Hcnt. by rewrite <- Ha. }
    exists w, e'. split; [rewrite (bool_decide_eq_true_2 (addr = _)) by done; unfold incr_result; by case_bool_decide|].
    split_and!; [by eapply agreed_insert| |].
    + intros e2. rewrite Ha, lookup_insert_eq. by intros [= <-].
    + intros a Hsome. apply lookup_insert_is_Some. destruct (decide (addr = a)); auto.
  - destruct (ag_there _ _ _ _ _ _ Hag) as [eo Heo].
    destruct (Incr_via t ttl d w r n name owner id e eo s delta) as (eo' & -> & Hm' & Hc'); try done; [tauto|].
    exists (<[peer_Addr owner := eo']> w), e.
    split; [rewrite (bool_decide_eq_false_2 (addr = _)) by done; unfold incr_result; by case_bool_decide|].
    split_and!; [eapply agreed_insert; [by eapply agreed_insert|done..]| |].
    + intros e2. rewrite lookup_insert_ne, lookup_insert_eq by done. by intros [= <-].
    + intros a Hsome. rewrite !lookup_insert_is_Some. destruct (decide (addr = a)), (decide (peer_Addr owner = a)); auto.
Qed.

(** C5: a counter is one counter.  In a mesh whose nodes agree on the ring and
    do not fail, clients of any nodes increment a name one after the other, each
    at its own time, the clock not going back.  They get the values of a single
    counter that restarts at 0 once its expiry has passed: each answer is the
    value that still stands plus the amount, whichever node was asked, and each
    increment slides the expiry to its time plus the owner's TTL; with no TTL
    nothing expires.  An increment that would leave int64 is refused, as
    InvalidArgument, and changes nothing.  The expiries fit int64. *)
Theorem mesh_counter d w r n name owner (ttl t0 : Z) s ops :
  agreed r n name ModeCounter owner w -> owner_counts t0 ttl n name owner w s -> is_i64 (count_value s) ->
  0 <= t0 -> Sorted Z.le (t0 :: map (fun op => op.1.1) ops) ->
  (forall t addr delta, (t, addr, delta) ∈ ops -> is_Some (w !! addr) /\ is_i64 delta /\ expiry_fits t ttl) ->
  (incr_all (S d) n name w ops).1 = counter_answers (peer_Addr owner) ttl s ops.
Proof.
  revert w t0 s. induction ops as [|[[t addr] delta] ops IH]; intros w t0 s Hag Hcnt Hv Ht0 Hsort Hops; [done|].
  cbn [incr_all counter_answers]. destruct (Hops t addr delta ltac:(constructor)) as ([e He] & Hd & Hfit). rewrite He.
  cbn [map] in Hsort. apply Sorted_inv in Hsort as [Hsort Hhd]. apply HdRel_inv in Hhd. cbn [fst] in Hhd, Hsort.
  destruct (Incr_anywhere t ttl d w r n name owner addr e (standing t s) delta) as (w' & e' & -> & Hag' & Hcnt' & Hthere);
    [done|intros e1 He1; by eapply counts_later, Hcnt|done|lia|done|by apply standing_range|done|].
  specialize (IH (<[addr := e']> w') t (incr_state ttl t (standing t s) delta)).
  destruct (incr_all (S d) n name (<[addr := e']> w') ops) as [rest w2]. cbn [fst] in *. f_equal.
  apply IH; [done|done|by apply incr_state_range, standing_range|lia|done|].
  intros t2 a2 d2 Hin. destruct (Hops t2 a2 d2 ltac:(by constructor)) as (? & ? & ?). auto.
Qed.
End counter.

(** ** Deletes *)

(** Nothing of [key] at version [v] or below can be read at [e]. *)
Definition deleted_at (now : Z) e (n key : bytes) (v : Z) : Prop :=
  exists ks c, getKS e n = Some ks /\ view now (kstore ks) !! key = Some c /\
    ((IsTombstone c = true /\ v <= Version c) \/ v < Version c).

(** The expiry of a tombstone fits int64 in every keyspace of the node. *)
Definition tombs_fit (now : Z) e : Prop := forall n ks, getKS e n = Some ks -> expiry_fits now (tombstoneTTL (kstore ks)).

Definition mesh_ok (now : Z) (w : Mesh) : Prop := map_Forall (fun _ e => engine_ok e /\ tombs_fit now e) w.

(** A delete leaves a tombstone of its version, or a newer entry as it was. *)
Lemma DeleteIfVersion_at now m key v :
  expiry_fits now (tombstoneTTL m) -> store_ok m ->
  let m' := (DeleteIfVersion now m key v).2 in store_ok m' /\ tombstoneTTL m' = tombstoneTTL m /\
  ((view now m' !! key = Some (tombstone now m v) /\ forall c, view now m !! key = Some c -> Version c <= v) \/
   (view now m' = view now m /\ exists c, view now m !! key = Some c /\ v < Version c)).
Proof.
  intros Hnow Hok. cbv zeta. destruct (DeleteIfVersion_implements now m key v Hok) as (H1 & H2 & H3). split; [done|].
  split; [exact (proj2 (apply_msg_params now m (MDel key v)))|].
  assert (Hl : Expired (tombstone now m v) now = false) by (apply (tomb_live now (tombstoneTTL m) v Hnow)).
  unfold spec_DeleteIfVersion, insert_live in *. rewrite Hl in *. cbn [Version tombstone] in *.
  assert (Hins : refines now (<[key := tombstone now m v]> (view now m)) (DeleteIfVersion now m key v).2 ->
    view now (DeleteIfVersion now m key v).2 !! key = Some (tombstone now m v))
    by (intros Hr; apply (ref_pinned _ _ _ Hr); [apply lookup_insert_eq|done]).
  destruct (view now m !! key) as [c|] eqn:E; [|left; split; [by apply Hins|done]].
  destruct (Z.ltb_spec v (Version c)); [right|left; split; [by apply Hins|by intros ? [= <-]]].
  split; [|by exists c]. rewrite lookup_view in E. unfold DeleteIfVersion.
  destruct (Store.items m !! key) as [it|]; [|done]. destruct (Expired (entry it) now); [done|]. injection E as <-.
  rewrite flushed_version in *. rewrite (proj2 (Z.ltb_lt _ _)) by done. by apply view_ext.
Qed.

Lemma ApplyDelete_applied now e n key v applied err e' :
  tombs_fit now e -> engine_ok e -> ApplyDeleteWithRingGen now e n key v = (applied, err, e') ->
  (engine_ok e' /\ tombs_fit now e') /\ (err = None -> deleted_at now e' n key v) /\ (deleted_at now e n key v -> deleted_at now e' n key v).
Proof.
  intros Hfit Hok. unfold ApplyDeleteWithRingGen. destruct (validateKey e n key); [by intros [= _ <- <-]|].
  destruct (getKS e n) as [ks|] eqn:Hks; [|by intros [= _ <- <-]]. destruct (Hok _ _ Hks) as [Hn Hst].
  destruct (observeVersion_spec now ks key v Hst) as ([Rv Ro _ Rt] & Hc & _).
  set (ks1 := observeVersion now ks key v) in *.
  destruct (DeleteIfVersion_at now (kstore ks1) key v) as (Hok' & Httl & Hdel); [rewrite Rt; by eapply Hfit|done|].
  destruct (DeleteIfVersion now (kstore ks1) key v) as [b m']. cbn [snd] in *. intros [= <- <- <-].
  assert (Hd : deleted_at now (with_ks e n (with_store ks1 m')) n key v).
  { exists (with_store ks1 m'). destruct Hdel as [[Ht _]|[Hv (c & Hcv & Hlt)]].
    - eexists. split; [apply lookup_insert_eq|]. split; [exact Ht|]. left. split; [done|]. cbn. lia.
    - exists c. split; [apply lookup_insert_eq|]. cbn [kstore with_store]. rewrite Hv. auto. }
  split; [|done]. split; [by apply engine_ok_with_ks; [|cbn; congruence|]|]. intros n' ks'.
  unfold getKS in *. cbn [keyspaces with_ks with_keyspaces].
  rewrite lookup_insert_Some. intros [[<- <-]|[_ Hks']]; [|by eapply Hfit]. cbn [kstore with_store]. rewrite Httl, Rt. by eapply Hfit.
Qed.

Section delete.
Context (now : Z) (sctx : Ctx) (source : bytes -> bytes -> LoadResult) (Hs : cancelled sctx = false).
Context (n key : bytes) (v : Z).

Definition deleted_in (w : Mesh) (addr : bytes) : Prop := exists e, w !! addr = Some e /\ deleted_at now e n key v.

(** One replica call of a delete. *)
Lemma delete_call d w addr gen ok w' :
  mesh_ok now w -> env_rpc (me_base (mesh now sctx source (S d))) w (ApplyDelete addr n key v gen) = (ok, w') ->
  mesh_ok now w' /\ (ok = true -> deleted_in w' addr) /\ (forall a, deleted_in w a -> deleted_in w' a).
Proof.
  intros Hw. cbn. unfold Transport_ApplyDelete, rpc, succeeded, alone, peer_ApplyDelete.
  destruct (w !! addr) as [e|] eqn:He; [|by intros [= <- <-]].
  destruct (ApplyDeleteWithRingGen now e n key v) as [[applied err] e'] eqn:E.
  destruct (ApplyDelete_applied _ _ _ _ _ _ _ _ (proj2 (Hw _ _ He)) (proj1 (Hw _ _ He)) E) as (H1 & H2 & H3). cbn [fst snd]. intros [= Hr <-].
  split; [by apply map_Forall_insert_2|]. split.
  - intros ->. exists e'. split; [apply lookup_insert_eq|]. destruct err; [done|by apply H2].
  - intros a (e0 & He0 & Hd). destruct (decide (addr = a)) as [<-|Hne].
    + exists e'. split; [apply lookup_insert_eq|]. apply H3. by rewrite He in He0; injection He0 as <-.
    + exists e0. by rewrite lookup_insert_ne.
Qed.

(** The calls of one delete to the peers of a replica set. *)
Lemma delete_calls d w p peers gen x :
  closed p = false -> mesh_ok now w ->
  let '(w', _, fails) := Apply (env_rpc (me_base (mesh now sctx source (S d)))) w p peers n key
                           (mkEntry [] v x FlagTombstone) gen in
  mesh_ok now w' /\ (forall a, deleted_in w a -> deleted_in w' a) /\
  (fails = [] -> forall pr, pr ∈ peers -> deleted_in w' (peer_Addr pr)).
Proof.
  intros Hp Hw. unfold Apply. rewrite Hp. clear Hp.
  cut (forall out, mesh_ok now w ->
    let '(w', _, fails) := fold_left (fun '(w, p, out) pr =>
      let '(ok, w, p) := applyToPeer (env_rpc (me_base (mesh now sctx source (S d)))) w p pr n key
                           (mkEntry [] v x FlagTombstone) gen true in
      (w, p, if ok then out else out ++ [pr])) peers (w, p, out) in
    mesh_ok now w' /\ (forall a, deleted_in w a -> deleted_in w' a) /\
    (exists more, fails = out ++ more) /\
    (fails = [] -> forall pr, pr ∈ peers -> deleted_in w' (peer_Addr pr))).
  { intros H. specialize (H [] Hw). destruct (fold_left _ peers (w, p, [])) as [[w' p'] fails]. tauto. }
  clear Hw. revert w p. induction peers as [|pr peers IH]; intros w p out Hw; cbn [fold_left].
  { split_and!; [done|done|exists []; by rewrite app_nil_r|]. intros _ pr Hpr. by apply elem_of_nil in Hpr. }
  destruct (applyToPeer _ w p pr n key _ gen true) as [[ok w1] p1] eqn:E.
  assert (Hcall : mesh_ok now w1 /\ (ok = true -> deleted_in w1 (peer_Addr pr)) /\ (forall a, deleted_in w a -> deleted_in w1 a)).
  { unfold applyToPeer in E. destruct (bool_decide (peer_Addr pr = [])); [by injection E as <- <- _|].
    change (requestFor _ _ _ _ _) with (ApplyDelete (peer_Addr pr) n key v gen) in E.
    destruct (env_rpc _ w _) as [ok' w2] eqn:Er. apply delete_call in Er; [|done].
    destruct ok'; by injection E as <- <- _. }
  destruct Hcall as (Hw1 & Hok & Hmono). specialize (IH w1 p1 (if ok then out else out ++ [pr]) Hw1).
  destruct (fold_left _ peers (w1, p1, _)) as [[w' p'] fails]. destruct IH as (I1 & I2 & (more & I3) & I4).
  split; [done|]. split; [auto|]. split.
  - destruct ok; [by exists more|]. exists (pr :: more). by rewrite I3, <- app_assoc.
  - intros Hf pr' [->|Hin]%elem_of_cons; [|by apply I4]. apply I2, Hok. destruct ok; [done|].
    rewrite I3 in Hf. by destruct out.
Qed.
End delete.

Section acknowledged.
Context (now : Z) (sctx : Ctx) (source : bytes -> bytes -> LoadResult) (Hs : cancelled sctx = false).

Lemma replicaPeers_cfg e e' r n key except ks ks' :
  getKS e n = Some ks -> getKS e' n = Some ks' -> cfg ks' = cfg ks ->
  replicaPeers e' r n key except = replicaPeers e r n key except.
Proof. unfold replicaPeers. by intros -> -> ->. Qed.

(** The owner's part: the tombstone here, then at every replica. *)
Lemma DeleteAsOwner_acked d ctx w eo n oks key co ro fo :
  cancelled ctx = false -> admissible eo n oks key -> store_ok (kstore oks) -> ver_room now oks key ->
  expiry_fits now (tombstoneTTL (kstore oks)) -> ringOf eo = Some (co, ro) -> Fanout co = Some fo -> closed fo = false -> mesh_ok now w ->
  exists r w' eo' v, DeleteAsOwner (me_base (mesh now sctx source (S d))) now ctx w eo n key = (r, w', eo') /\
    (r = None \/ exists p ps, r = Some (MultiError (p :: ps))) /\ deleted_at now eo' n key v /\
    default 0 (lastVer oks !! key) < v /\ (forall c, view now (kstore oks) !! key = Some c -> Version c < v) /\
    (r = None -> forall p, p ∈ replicaPeers eo ro n key (SelfID co) -> deleted_in now n key v w' (peer_Addr p)).
Proof.
  intros Hctx [Hks Hkey Hlen Hmode] Hok Hroom Hfit Hring Hfo Hopen Hw. unfold DeleteAsOwner. rewrite Hctx, Hkey, Hks, Hlen.
  destruct (nextVersion now oks key 0) as [v ks1] eqn:Ev.
  pose proof Ev as Ev'. apply nextVersion_spec in Ev' as [Hm _]; [|done|done|unfold MaxUint64; lia].
  pose proof (mi_reads _ _ _ _ _ Hm) as [Rv Ro Rm Rt]. pose proof (mi_cfg _ _ _ _ _ Hm) as Hcfg.
  destruct (DeleteIfVersion_fresh now (kstore ks1) key v ltac:(by rewrite Rt) Ro) as (m' & -> & Htomb & Hok' & _); [rewrite Rv; apply Hm|].
  set (e1 := with_ks eo n (with_store ks1 m')).
  assert (Hd1 : deleted_at now e1 n key v).
  { exists (with_store ks1 m'). eexists. split; [apply lookup_insert_eq|]. split; [exact Htomb|]. left. split; [done|]. cbn. lia. }
  assert (Hfan : replicaFanout e1 n key true = Some (co, ro, fo, replicaPeers eo ro n key (SelfID co))).
  { unfold replicaFanout. change (ringOf e1) with (ringOf eo). rewrite Hring, Hfo. cbn [negb andb].
    by rewrite (replicaPeers_cfg eo e1 ro n key (SelfID co) oks (with_store ks1 m') Hks (lookup_insert_eq _ _ _) Hcfg). }
  unfold replicateWait. rewrite Hfan. destruct (replicaPeers eo ro n key (SelfID co)) as [|p ps].
  { exists None, w, e1, v. split_and!; [done|by left|done|apply Hm|apply Hm|]. intros _ p Hp. by apply elem_of_nil in Hp. }
  pose proof (delete_calls now sctx source n key v d w fo (p :: ps) (Generation ro) 0 Hopen Hw) as Hcalls.
  destruct (Apply _ w fo (p :: ps) n key _ _) as [[w' fo'] fails]. destruct Hcalls as (_ & _ & Hall).
  eexists _, w', (with_fanout e1 co fo'), v. split; [done|]. split_and!.
  - destruct fails; [by left|right; by eexists _, _].
  - destruct Hd1 as (ks' & c & H1 & H2 & H3). by exists ks', c.
  - apply Hm.
  - apply Hm.
  - destruct fails; [|done]. intros _. by apply Hall.
Qed.

End acknowledged.

(** ** Where a call loses information *)

Section lossy.
Context (now : Z) (ctx sctx : Ctx) (source : bytes -> bytes -> LoadResult).
Context (Hctx : cancelled ctx = false) (Hs : cancelled sctx = false).

(** The status that a client sees depends on the node it asked: an increment
    that would overflow is InvalidArgument on the owner and Internal on every
    other node, because the status error of the peer call is none of the
    engine's sentinels. *)
Theorem overflow_code_differs d w r n name owner addr id e eo ttl s delta :
  agreed r n name ModeCounter owner w -> owner_counts now ttl n name owner w s -> 0 <= now -> expiry_fits now ttl ->
  is_i64 (count_value s) -> is_i64 delta -> ~ is_i64 (count_value s + delta) -> w !! peer_Addr owner = Some eo ->
  w !! addr = Some e -> member r n name ModeCounter id e -> id <> peer_ID owner ->
  exists err err', (Engine_Incr (mesh now sctx source (S d)) now ctx w eo n name delta).1.1 = inr err /\
    (Engine_Incr (mesh now sctx source (S d)) now ctx w e n name delta).1.1 = inr err' /\
    Status err = InvalidArgument /\ Status err' = Internal.
Proof.
  intros Hag Hcnt Hnow Hfit Hv Hd Hover Heo He Hm Hne.
  destruct (ag_member _ _ _ _ _ _ Hag _ _ Heo) as (id' & Hmo & Hiff). rewrite (proj2 Hiff eq_refl) in Hmo.
  destruct (Incr_owner now ttl (mesh now sctx source (S d)) ctx w r n name owner eo s delta Hctx (ag_owner _ _ _ _ _ _ Hag) Hmo)
    as (eo1 & -> & _ & _); auto.
  destruct (Incr_via ctx sctx source Hctx Hs now ttl d w r n name owner id e eo s delta) as (eo2 & -> & _ & _); try done.
  unfold incr_result. rewrite bool_decide_eq_false_2 by done. by eexists _, _.
Qed.

(** A node that passes an increment on to [p]. *)
Definition passes (e : Engine) (n name : bytes) (p : Peer) : Prop :=
  exists c r ks, ringOf e = Some (c, r) /\ foreignOwner c r name = Some p /\ hasTransport c = true /\ peer_Addr p <> [] /\
    getKS e n = Some ks /\ Name (cfg ks) = n /\ cMode (cfg ks) = ModeCounter /\
    validateKey e n name = None /\ validateKeyLen e ks name = None.

Lemma Incr_passed env ctx' w e n name delta p :
  cancelled ctx' = false -> passes e n name p ->
  Engine_Incr env now ctx' w e n name delta =
    let '(res, w) := me_CounterIncr env w (peer_Addr p) n name delta in (res, w, e).
Proof.
  intros Hc (c & r & ks & Hring & Hf & Ht & Ha & Hks & Hn & Hmode & Hkey & Hlen).
  unfold Engine_Incr, keyed, guarded, ctxErr. rewrite Hc, Hkey, Hks. cbn [first_err].
  unfold requireMode, invalid_if. rewrite Hmode, bool_decide_eq_true_2, Hlen by done. cbn [negb first_err].
  unfold routed. rewrite Hring, Hf, Ht, bool_decide_eq_false_2 by done. cbn [negb orb]. by rewrite Hn.
Qed.

(** Two nodes that take each other for the owner pass an increment to and fro
    until the deadline: CounterIncr, unlike ForwardPut, has no hop count, and
    no number of nested calls is enough. *)
Theorem incr_bounces d w ea eb n name delta pa pb :
  passes ea n name pb -> passes eb n name pa -> w !! peer_Addr pa = Some ea -> w !! peer_Addr pb = Some eb ->
  exists c, Engine_Incr (mesh now sctx source d) now ctx w ea n name delta = (inr (ErrRPC c), w, ea).
Proof.
  intros Hab Hba Ha Hb.
  cut (forall ctx', cancelled ctx' = false ->
    (exists c, Engine_Incr (mesh now sctx source d) now ctx' w ea n name delta = (inr (ErrRPC c), w, ea)) /\
    (exists c, Engine_Incr (mesh now sctx source d) now ctx' w eb n name delta = (inr (ErrRPC c), w, eb))).
  { intros H. by apply H. }
  induction d as [|d IH]; intros ctx' Hc; rewrite (Incr_passed _ ctx' w ea n name delta pb Hc Hab), (Incr_passed _ ctx' w eb n name delta pa Hc Hba).
  { split; eexists; reflexivity. }
  destruct (IH sctx Hs) as [[c1 IH1] [c2 IH2]]. cbn [mesh meshOver me_CounterIncr].
  unfold Transport_CounterIncr, rpc, peer_CounterIncr. rewrite Ha, Hb, IH1, IH2.
  cbn [statusOf Status errorsIs isAbsent isInvalid isUnavailable orb].
  rewrite !insert_id by done. by split; eexists.
Qed.
End lossy.

(** ** The theorems at a concrete mesh *)

(** Two nodes that know the ring of [wit_ring]; "a" owns the name 2. *)
Definition wit_place (id : bytes) : Cluster := mkCluster id (Some wit_ring) true (Some (NewFanoutPool 4 4 false)).
Definition wit_node (mode : Mode) (id : bytes) : Engine :=
  AttachCluster (wit_eng None (wit_mode mode)) (Some (wit_place id)).
Definition wit_mesh (mode : Mode) : Mesh := {[ [97] := wit_node mode [97]; [98] := wit_node mode [98] ]}.
Definition wit_source (_ _ : bytes) : LoadResult := LoadNotFound.

Lemma wit_node_ok mode id : engine_ok (wit_node mode id).
Proof. apply (engine_ok_same (wit_eng None (wit_mode mode))); [done|]. apply wit_eng_ok; [done|apply NewMemory_ok]. Qed.

Lemma wit_owner : Owner wit_ring [2] = Some (mkPeer [97] [97]).
Proof. by vm_compute. Qed.

Lemma wit_asks mode :
  asks_owner (wit_mesh mode) (wit_node mode [98]) [2] (wit_place [98]) wit_ring (mkPeer [97] [97]) (wit_node mode [97]).
Proof.
  split; try done; unfold owned, ringOf, foreignOwner; cbn [wit_node AttachCluster cluster cRing SelfID]; by rewrite wit_owner.
Qed.

Lemma wit_member mode id : member wit_ring [107] [2] mode id (wit_node mode id).
Proof. split; [apply wit_node_ok|by eexists|]. exists (wit_mode mode). by destruct mode. Qed.

Lemma wit_agreed mode : agreed wit_ring [107] [2] mode (mkPeer [97] [97]) (wit_mesh mode).
Proof.
  split; [apply wit_owner|done|by eexists|]. intros addr e. unfold wit_mesh. rewrite lookup_insert_Some.
  intros [[<- <-]|[_ [<- <-]%lookup_singleton_Some]]; eexists; (split; [apply wit_member|done]).
Qed.

Lemma wit_admissible id : admissible (wit_node ModeCacheOnly id) [107] (wit_mode ModeCacheOnly) [2].
Proof. by split. Qed.

Lemma wit_mode_room : ver_room 10 (wit_mode ModeCacheOnly) [2].
Proof. apply wit_room. split; discriminate || reflexivity. Qed.

Lemma mesh_put_get_witness :
  exists w' , Put (me_base (mesh 10 wit_ctx wit_source 1)) 10 wit_ctx (wit_mesh ModeCacheOnly) (wit_node ModeCacheOnly [98])
      [107] [2] [9] None = (None, w', wit_node ModeCacheOnly [98]) /\
    (Engine_Get (me_base (mesh 10 wit_ctx wit_source 1)) 10 wit_ctx w' (wit_node ModeCacheOnly [98]) [107] [2]).1.1 = inl [9].
Proof.
  destruct (mesh_put_get 10 wit_ctx wit_source eq_refl 0 wit_ctx (wit_mesh ModeCacheOnly) (wit_node ModeCacheOnly [98]) [107]
    (wit_mode ModeCacheOnly) [2] [9] None _ _ _ _ (wit_mode ModeCacheOnly) ltac:(done) eq_refl eq_refl (wit_asks ModeCacheOnly)
    (wit_admissible [98]) (NewMemory_ok _ _) eq_refl (wit_admissible [97]) (NewMemory_ok _ _))
    as (eo' & _ & _ & _ & H1 & _ & _ & _ & H2).
  - apply wit_mode_room.
  - discriminate.
  - reflexivity.
  - by repeat constructor.
  - eexists. split; [exact H1|exact H2].
Defined.

(** The keyspace of [wit_mesh] with a TTL of 100. *)
Definition wit_timed : ksRuntime :=
  mkKS (mkConfig [107] ModeCounter 100 0 0 0 0 None 0 f_zero (mkPConfig f_zero 0 0 0) false 0 0 0 0 0 0 0 0 0 0)
    (NewMemory 0 0) wit_guard_off ∅ DefaultMaxVersionKeys.
Definition wit_timed_node (id : bytes) : Engine := AttachCluster (wit_eng None wit_timed) (Some (wit_place id)).
Definition wit_timed_mesh : Mesh := {[ [97] := wit_timed_node [97]; [98] := wit_timed_node [98] ]}.

Lemma wit_timed_agreed : agreed wit_ring [107] [2] ModeCounter (mkPeer [97] [97]) wit_timed_mesh.
Proof.
  assert (Hm : forall id, member wit_ring [107] [2] ModeCounter id (wit_timed_node id)).
  { intros id. split; [|by eexists|by exists wit_timed].
    apply (engine_ok_same (wit_eng None wit_timed)); [done|]. apply wit_eng_ok; [done|apply NewMemory_ok]. }
  split; [apply wit_owner|done|by eexists|]. intros addr e. unfold wit_timed_mesh. rewrite lookup_insert_Some.
  intros [[<- <-]|[_ [<- <-]%lookup_singleton_Some]]; eexists; (split; [apply Hm|done]).
Qed.

Lemma mesh_counter_witness :
  (incr_all wit_ctx wit_ctx wit_source 1 [107] [2] wit_timed_mesh
     [(10, [98], 4); (60, [97], 5); (159, [98], -1); (300, [98], 7); (300, [97], MaxInt64)]).1 =
    [inl 4; inl 9; inl 8; inl 7; inr ErrInvalidArgument].
Proof.
  rewrite (mesh_counter wit_ctx wit_ctx wit_source eq_refl eq_refl 0 wit_timed_mesh wit_ring [107] [2]
    (mkPeer [97] [97]) 100 10 None _ wit_timed_agreed).
  - reflexivity.
  - intros e [= <-] ks [= <-]. split; reflexivity.
  - done.
  - lia.
  - cbn [map fst]. repeat (apply Sorted_cons || apply Sorted_nil || apply HdRel_cons || apply HdRel_nil || lia).
  - intros t addr delta Hin.
    repeat (apply elem_of_cons in Hin as [[= -> -> ->]|Hin];
      [split; [by eexists|split; [done|unfold expiry_fits, MinInt64, MaxInt64; lia]]|]).
    by apply elem_of_nil in Hin.
Defined.

Lemma wit_mesh_ok mode : mesh_ok 10 (wit_mesh mode).
Proof.
  assert (Hn : forall id, engine_ok (wit_node mode id) /\ tombs_fit 10 (wit_node mode id)).
  { intros id. split; [apply wit_node_ok|]. intros n ks Hks. unfold getKS in Hks. cbn in Hks.
    apply lookup_insert_Some in Hks as [[_ <-]|[_ Hks]]; [done|by rewrite lookup_empty in Hks]. }
  apply map_Forall_insert_2; [apply Hn|]. apply map_Forall_singleton, Hn.
Qed.

