(* ===== verification/Membership.v ===== *)
(** * Membership: pkg/membership/membership.go

    Gossip membership keeps the ring.  The gossip library gives a list of nodes,
    each a name and a metadata blob in which the node put the address of its
    peer service; the list is an argument of the functions that read it, as the
    library computes it.  The two directions of encoding/json for the metadata
    record, Marshal and Unmarshal of [metaPayload], are arguments as well; what
    is used of them is that the second reads what the first wrote. *)
From S2P Require Import Prelude Wire Stream Ring.

Record MConfig := mkMConfig {
  NodeID : bytes;
  BindAddr : bytes;
  BindPort : Z;
  AdvertiseAddr : bytes;
  AdvertisePort : Z;
  PeerGRPCAddr : bytes;
  Seeds : list bytes;
}.

Inductive EventType := EventJoin | EventLeave | EventUpdate.
Record Event := mkEvent { ev_Type : EventType; ev_Peer : Peer }.

(** memberlist.Node, as far as it is read. *)
Record mlNode := mkMlNode { n_Name : bytes; n_Meta : bytes }.

(** The channel of events is its buffer. *)
Record Membership := mkMembership { m_cfg : MConfig; m_ring : Ring; m_events : list Event; m_closed : bool }.

Definition eventCap : Z := 64.

(** The start of New: required fields and defaults. *)
Definition withDefaults (c : MConfig) : option MConfig :=
  if bool_decide (NodeID c = []) || bool_decide (PeerGRPCAddr c = []) then None
  else
    let bindPort := if BindPort c =? 0 then 7946 else BindPort c in
    Some (mkMConfig (NodeID c)
      (if bool_decide (BindAddr c = []) then [48; 46; 48; 46; 48; 46; 48] else BindAddr c)
      bindPort
      (if bool_decide (AdvertiseAddr c = []) then BindAddr c else AdvertiseAddr c)
      (if AdvertisePort c =? 0 then bindPort else AdvertisePort c)
      (PeerGRPCAddr c) (Seeds c)).

Definition Self (m : Membership) : Peer := mkPeer (NodeID (m_cfg m)) (PeerGRPCAddr (m_cfg m)).

(** ** Metadata *)

Fixpoint LastIndexByte (s : bytes) (c : byte) : Z :=
  match s with
  | [] => -1
  | x :: s => let i := LastIndexByte s c in if 0 <=? i then i + 1 else if x =? c then 0 else -1
  end.

(** net.SplitHostPort, as far as the error goes. *)
Definition SplitHostPort_ok (s : bytes) : bool :=
  let i := LastIndexByte s 58 in
  if i <? 0 then false
  else
    let rest (j k : Z) :=
      (IndexByte (drop (Z.to_nat j) s) 91 <? 0) && (IndexByte (drop (Z.to_nat k) s) 93 <? 0) in
    match s with
    | 91 :: _ =>
        let fin := IndexByte s 93 in
        if (fin <? 0) || negb (fin + 1 =? i) then false else rest 1 (fin + 1)
    | _ => if 0 <=? IndexByte (take (Z.to_nat i) s) 58 then false else rest 0 0
    end.

Definition looksLikeHostPort (s : bytes) : bool :=
  match s with
  | [] => false
  | c :: _ =>
      if 253 <? len s then false
      else if (c =? 123) || (c =? 91) then false
      else SplitHostPort_ok s
  end.

(** The ids on a ring: those of the peers it was given. *)
Lemma build_keeps v ps id : is_Some ((build v ps).1.1 !! id) <-> id <> [] /\ exists p, p ∈ ps /\ peer_ID p = id.
Proof.
  induction ps as [|p ps IH] using rev_ind.
  { split; [by intros [? ?]|]. intros (_ & p & Hp & _). by apply elem_of_nil in Hp. }
  rewrite build_snoc. destruct (build v ps) as [[m h2i] ks]. cbn [fst] in IH. unfold addPeer.
  setoid_rewrite elem_of_app. setoid_rewrite list_elem_of_singleton. case_bool_decide as Hp; cbn [fst].
  - rewrite IH. naive_solver.
  - rewrite lookup_insert_is_Some'. rewrite IH. split; [naive_solver|].
    intros (Hid & q & [Hq| ->] & E); [right; split; [done|by exists q]|by left].
Qed.

Section meta.
Context (Marshal : bytes -> option bytes) (Unmarshal : bytes -> option bytes).

Definition NodeMeta (c : MConfig) (limit : Z) : bytes :=
  let compact := if len (PeerGRPCAddr c) <=? limit then PeerGRPCAddr c else [] in
  match Marshal (PeerGRPCAddr c) with
  | Some b => if len b <=? limit then b else compact
  | None => compact
  end.

Definition peerFromNode (n : mlNode) : Peer :=
  mkPeer (n_Name n)
    (match n_Meta n with
     | [] => []
     | meta =>
         let raw := if looksLikeHostPort meta then meta else [] in
         match Unmarshal meta with
         | Some addr => if negb (bool_decide (addr = [])) then addr else raw
         | None => raw
         end
     end).

(** ** The ring *)

(** The peers of a view: named and with an address, and self. *)
Definition viewPeers (self : Peer) (members : list mlNode) : list Peer :=
  let peers := filter (fun p => peer_ID p <> [] /\ peer_Addr p <> []) (map peerFromNode members) in
  if existsb (fun p => bool_decide (peer_ID p = peer_ID self)) peers then peers else peers ++ [self].

(** [None]: the library has not returned its list yet. *)
Definition rebuildRing (m : Membership) (view : option (list mlNode)) : Membership :=
  mkMembership (m_cfg m)
    (SetPeers (m_ring m) (match view with None => [Self m] | Some members => viewPeers (Self m) members end))
    (m_events m) (m_closed m).

Definition emit (m : Membership) (t : EventType) (p : Peer) : Membership :=
  let ev := mkEvent t p in
  mkMembership (m_cfg m) (m_ring m)
    (if len (m_events m) <? eventCap then m_events m ++ [ev] else tail (m_events m) ++ [ev])
    (m_closed m).

(** The goroutine of NotifyJoin, NotifyLeave and NotifyUpdate; [view] is the
    list of members at the time it runs. *)
Definition notify (t : EventType) (m : Membership) (n : mlNode) (view : option (list mlNode)) : Membership :=
  emit (rebuildRing m view) t (peerFromNode n).

(** New, once the library has been set up; [view] is its list of members. *)
Definition Membership_New (c : MConfig) (view : list mlNode) : option Membership :=
  match withDefaults c with
  | None => None
  | Some c => Some (rebuildRing (mkMembership c (Ring_New 64) [] false) (Some view))
  end.

Definition Membership_Close (m : Membership) : Membership := mkMembership (m_cfg m) (m_ring m) (m_events m) true.

(** ** The view of a converged cluster *)

(** What the gossip carries of a node. *)
Definition gossiped (limit : Z) (c : MConfig) : mlNode := mkMlNode (NodeID c) (NodeMeta c limit).
Definition peerOf (c : MConfig) : Peer := mkPeer (NodeID c) (PeerGRPCAddr c).

(** A node whose metadata fits: its name and address are set, and the record
    that Marshal writes is at most [limit] bytes and read back by Unmarshal. *)
Definition announces (limit : Z) (c : MConfig) : Prop :=
  NodeID c <> [] /\ PeerGRPCAddr c <> [] /\
  exists b, Marshal (PeerGRPCAddr c) = Some b /\ b <> [] /\ len b <= limit /\ Unmarshal b = Some (PeerGRPCAddr c).

Lemma peerFromNode_gossiped limit c : announces limit c -> peerFromNode (gossiped limit c) = peerOf c.
Proof.
  intros (_ & Ha & b & Hm & Hb & Hl & Hu). unfold peerFromNode, gossiped, NodeMeta, peerOf. cbn [n_Name n_Meta].
  rewrite Hm, (proj2 (Z.leb_le _ _) Hl). destruct b as [|x b]; [done|]. rewrite Hu, bool_decide_false by done. done.
Qed.

Lemma viewPeers_gossiped limit self cs members :
  Forall (announces limit) cs -> members ≡ₚ map (gossiped limit) cs -> self ∈ cs ->
  viewPeers (peerOf self) members ≡ₚ map peerOf cs.
Proof.
  intros Hcs Hm Hself.
  assert (Hp : map peerFromNode members ≡ₚ map peerOf cs).
  { rewrite Hm, map_map, (map_ext_in _ peerOf); [done|].
    intros c Hc. apply (peerFromNode_gossiped limit). rewrite Forall_forall in Hcs. by apply Hcs, list_elem_of_In. }
  assert (Hall : Forall (fun p => peer_ID p <> [] /\ peer_Addr p <> []) (map peerFromNode members)).
  { rewrite Hp. apply Forall_map. eapply Forall_impl; [exact Hcs|]. by intros c (H1 & H2 & _). }
  unfold viewPeers. rewrite filter_all by done.
  replace (existsb _ (map peerFromNode members)) with true; [done|]. symmetry. apply existsb_exists.
  exists (peerOf self). split; [|by apply bool_decide_eq_true].
  apply list_elem_of_In. rewrite Hp. by apply list_elem_of_fmap_2.
Qed.

(** C9: the members of a cluster whose gossip has converged place every key
    alike.  When two nodes with rings of 64 virtual nodes per peer see the same
    members, in whatever order, every member's metadata fits the limit of the
    gossip library as JSON, and no two virtual nodes of the members have the same
    hash, both rings hold exactly the members under the
    addresses they announced, and the nodes agree on the owner and the replicas
    of every key, whatever their rings held before. *)
Theorem members_agree (limit : Z) (cs : list MConfig) (m1 m2 : Membership) (view1 view2 : list mlNode) (key : bytes) (n : Z) :
  Forall (announces limit) cs -> clean 64 (map peerOf cs) ->
  m_cfg m1 ∈ cs -> m_cfg m2 ∈ cs -> vnodes (m_ring m1) = 64 -> vnodes (m_ring m2) = 64 ->
  view1 ≡ₚ map (gossiped limit) cs -> view2 ≡ₚ map (gossiped limit) cs ->
  let r1 := m_ring (rebuildRing m1 (Some view1)) in let r2 := m_ring (rebuildRing m2 (Some view2)) in
  (forall id p, rpeers r1 !! id = Some p <-> exists c, c ∈ cs /\ p = peerOf c /\ NodeID c = id) /\
  Owner r1 key = Owner r2 key /\ Replicas r1 key n = Replicas r2 key n.
Proof.
  intros Hcs Hclean H1 H2 Hv1 Hv2 P1 P2. cbv zeta. cbn [rebuildRing m_ring].
  change (Self m1) with (peerOf (m_cfg m1)). change (Self m2) with (peerOf (m_cfg m2)).
  pose proof (viewPeers_gossiped limit (m_cfg m1) cs view1 Hcs P1 H1) as V1.
  pose proof (viewPeers_gossiped limit (m_cfg m2) cs view2 Hcs P2 H2) as V2.
  assert (C1 : clean (vnodes (m_ring m1)) (viewPeers (peerOf (m_cfg m1)) view1)) by (rewrite Hv1; by eapply clean_perm; [symmetry|]).
  destruct (SetPeers_perm (m_ring m1) (m_ring m2) _ _ (eq_trans Hv1 (eq_sym Hv2)) C1 (Permutation_trans V1 (Permutation_sym V2))) as (E1 & E2 & E3).
  split; [|split; by apply placement_fields].
  destruct (SetPeers_clean (m_ring m1) _ C1) as (_ & _ & HP). intros id p. rewrite HP, V1, list_elem_of_fmap.
  split; [intros [(c & -> & Hc) <-]; by exists c|intros (c & Hc & -> & <-)]. split; [by exists c|done].
Qed.

(** ** Self *)

(** a node is always on its own ring: whatever the gossip library reports,
    also before it has reported anything or while the node's own metadata is
    missing, the ring has a peer under its id; and every other peer on it was
    reported with a name and an address. *)
Theorem self_on_ring (m : Membership) (view : option (list mlNode)) :
  NodeID (m_cfg m) <> [] ->
  is_Some (rpeers (m_ring (rebuildRing m view)) !! NodeID (m_cfg m)) /\
  (forall id, is_Some (rpeers (m_ring (rebuildRing m view)) !! id) -> id <> NodeID (m_cfg m) ->
     exists members nd, view = Some members /\ nd ∈ members /\ n_Name nd = id /\ peer_Addr (peerFromNode nd) <> []).
Proof.
  intros Hne. cbn [rebuildRing m_ring]. unfold SetPeers. set (ps := match view with None => _ | Some _ => _ end).
  assert (Hb : forall id, rpeers (let '(ps', h2i, ks) := fold_left (addPeer (vnodes (m_ring m))) ps (∅, ∅, []) in
      mkRing (vnodes (m_ring m)) (merge_sort Z.le ks) h2i ps' (rgen (m_ring m) +u 1)) !! id = (build (vnodes (m_ring m)) ps).1.1 !! id)
    by (intros id; unfold build; by destruct (fold_left _ ps _) as [[? ?] ?]).
  split; [|intros id]; rewrite Hb, build_keeps.
  - split; [done|]. subst ps. destruct view as [members|]; [|exists (Self m); split; [by left|done]].
    unfold viewPeers. destruct (existsb _ _) eqn:E.
    + apply existsb_exists in E as (p & Hp & Ep). exists p. rewrite list_elem_of_In. by apply bool_decide_eq_true in Ep.
    + exists (Self m). split; [|done]. apply elem_of_app. right. by left.
  - intros (_ & p & Hp & <-) Hother. subst ps. destruct view as [members|]; [|by apply list_elem_of_singleton in Hp as ->].
    exists members. assert (Hp' : p ∈ filter (fun p => peer_ID p <> [] /\ peer_Addr p <> []) (map peerFromNode members)).
    { unfold viewPeers in Hp. destruct (existsb _ _); [done|]. apply elem_of_app in Hp as [Hp|Hp]; [done|].
      by apply list_elem_of_singleton in Hp as ->. }
    apply list_elem_of_filter in Hp' as ((_ & Ha) & (nd & -> & Hnd)%list_elem_of_fmap). by exists nd.
Qed.

(** ** Events *)

Definition newest (l : list Event) : list Event := drop (length l - 64) l.

Lemma emit_newest_step (m : Membership) (l : list Event) t p :
  m_events m = newest l -> m_events (emit m t p) = newest (l ++ [mkEvent t p]).
Proof.
  intros Hm. cbn [emit m_events]. rewrite Hm. unfold newest, len, eventCap. rewrite length_drop, length_app. cbn [length].
  destruct (Z.ltb_spec (Z.of_nat (length l - (length l - 64))) 64) as [Hlt|Hge].
  - replace (length l - 64)%nat with 0%nat by lia. replace (length l + 1 - 64)%nat with 0%nat by lia. done.
  - replace (length l + 1 - 64)%nat with (length l - 64 + 1)%nat by lia. rewrite drop_app_le by lia. f_equal.
    rewrite <- drop_drop. by destruct (drop (length l - 64) l).
Qed.

(** The buffer holds the newest events, at most 64, oldest first. *)
Theorem emit_newest (m : Membership) (evs : list (EventType * Peer)) :
  m_events m = [] ->
  m_events (fold_left (fun m e => emit m e.1 e.2) evs m) = newest (map (fun e => mkEvent e.1 e.2) evs).
Proof.
  intros Hm. induction evs as [|e evs IH] using rev_ind; [done|].
  rewrite fold_left_app, map_app. by apply emit_newest_step.
Qed.
End meta.

(** ** A concrete cluster *)

(** {"peer_grpc":"..."} for addresses without characters to escape, and back. *)
Definition wit_open : bytes := [123; 34; 112; 101; 101; 114; 95; 103; 114; 112; 99; 34; 58; 34].
Definition wit_Marshal (a : bytes) : option bytes := Some (wit_open ++ a ++ [34; 125]).
Definition wit_Unmarshal (b : bytes) : option bytes :=
  if bool_decide (take 14 b = wit_open) then Some (take (length b - 16) (drop 14 b)) else None.

Definition wit_mcfg (id : Z) : MConfig := mkMConfig [id] [] 0 [] 0 [104; 58; id] [].
Definition wit_membership (id : Z) : Membership := mkMembership (wit_mcfg id) (Ring_New 64) [] false.
Definition wit_cs : list MConfig := [wit_mcfg 97; wit_mcfg 98].

Lemma wit_announces : Forall (announces wit_Marshal wit_Unmarshal 512) wit_cs.
Proof.
  assert (H : forall id, announces wit_Marshal wit_Unmarshal 512 (wit_mcfg id)).
  { intros id. split_and!; [done|done|]. exists (wit_open ++ [104; 58; id] ++ [34; 125]). by split_and!. }
  constructor; [apply H|constructor; [apply H|constructor]].
Qed.

Lemma members_agree_witness :
  Owner (m_ring (rebuildRing wit_Unmarshal (wit_membership 97) (Some (map (gossiped wit_Marshal 512) wit_cs)))) [107] =
  Owner (m_ring (rebuildRing wit_Unmarshal (wit_membership 98) (Some (reverse (map (gossiped wit_Marshal 512) wit_cs))))) [107].
Proof.
  refine (proj1 (proj2 (members_agree wit_Marshal wit_Unmarshal 512 wit_cs (wit_membership 97) (wit_membership 98)
    (map (gossiped wit_Marshal 512) wit_cs) (reverse (map (gossiped wit_Marshal 512) wit_cs)) [107] 2
    wit_announces _ _ _ eq_refl eq_refl _ _))).
  - split; apply (bool_decide_unpack _); vm_compute; exact I.
  - by left.
  - by right; left.
  - done.
  - by rewrite reverse_Permutation.
Defined.

Lemma self_on_ring_witness :
  is_Some (rpeers (m_ring (rebuildRing wit_Unmarshal (wit_membership 97) None)) !! [97]).
Proof. apply (self_on_ring wit_Unmarshal (wit_membership 97) None). done. Defined.

(** The compact form is not read back where it is needed: with the library's
    limit of 512 bytes a plain address whose record does not fit has more than
    253 bytes, which looksLikeHostPort refuses. *)
Theorem compact_meta_dropped (a : bytes) :
  512 < len (wit_open ++ a ++ [34; 125]) -> looksLikeHostPort a = false.
Proof.
  intros H. unfold len in H. rewrite !length_app in H. cbn in H. destruct a as [|c a]; [done|]. cbn [looksLikeHostPort].
  unfold len. cbn [length] in *. by destruct (Z.ltb_spec 253 (Z.of_nat (S (length a)))); [|lia].
Qed.
