(* ===== verification/Tracker.v ===== *)
(** * Hot keys: pkg/warmup/tracker.go

    A bounded counter of key accesses.  Go ranges over the map in an order of
    its own, so the scan for the coldest key takes the pairs in the order in
    which they are visited; the keys that come out of [Top] do not depend on
    it.  The theorems: the bound, what the counts mean, which key makes room,
    what [Top] returns, and keys that never get in. *)
From S2P Require Import Prelude Wire.

Record Tracker := mkTracker { counts : gmap bytes Z; maxKeys : Z }.

Definition DefaultTopK : Z := 1024.

Definition NewTracker (max : Z) : Tracker := mkTracker ∅ (if max <=? 0 then DefaultTopK else max).

(** The scan keeps the first pair and every later one that is strictly colder. *)
Definition colder (best : option (bytes * Z)) (kc : bytes * Z) : option (bytes * Z) :=
  match best with
  | Some (_, minC) => if kc.2 <? minC then Some kc else best
  | None => Some kc
  end.

Definition evictOneLocked (visited : list (bytes * Z)) (m : gmap bytes Z) : gmap bytes Z :=
  match fold_left colder visited None with
  | Some (minK, _) => if bool_decide (minK = []) then m else delete minK m
  | None => m
  end.

Definition Hit (visited : list (bytes * Z)) (t : Tracker) (key : bytes) : Tracker :=
  if bool_decide (key = []) then t
  else
    let m := match counts t !! key with
             | None => if maxKeys t <=? Z.of_nat (size (counts t)) then evictOneLocked visited (counts t) else counts t
             | Some _ => counts t
             end in
    mkTracker (<[key := default 0 (m !! key) +u 1]> m) (maxKeys t).

(** The order of sort.Slice: more hits first, then the smaller key. *)
Definition hotter (a b : bytes * Z) : Prop := b.2 < a.2 \/ (a.2 = b.2 /\ bytes_le a.1 b.1).

#[global] Instance hotter_dec : RelDecision hotter.
Proof. intros a b. unfold hotter. apply _. Defined.

Definition Top (t : Tracker) (n : Z) : list bytes :=
  if n <=? 0 then []
  else
    let items := merge_sort hotter (map_to_list (counts t)) in
    let n := if len items <? n then len items else n in
    map fst (take (Z.to_nat n) items).

Definition Snapshot (t : Tracker) : gmap bytes Z := counts t.

(** ** The order *)

#[global] Instance hotter_total : Total hotter.
Proof.
  intros a b. unfold hotter. destruct (Z.lt_total a.2 b.2) as [|[->|]]; [auto| |auto].
  destruct (total bytes_le a.1 b.1); auto.
Qed.

#[global] Instance hotter_trans : Transitive hotter.
Proof.
  intros a b c [|[? H1]] [|[? H2]]; unfold hotter; [left; lia|left; lia|left; lia|].
  right. split; [lia|]. by etrans.
Qed.

#[global] Instance hotter_antisymm : AntiSymm (=) hotter.
Proof.
  intros [a m] [b n] [|[? H1]] [|[? H2]]; simpl in *; try lia. f_equal; [|done].
  by apply (anti_symm bytes_le).
Qed.

(** ** The coldest key *)

Lemma colder_min visited best :
  match fold_left colder visited best with
  | Some kc => (kc ∈ visited \/ best = Some kc) /\
               Forall (fun kc' => kc.2 <= kc'.2) visited /\
               (forall b, best = Some b -> kc.2 <= b.2)
  | None => visited = [] /\ best = None
  end.
Proof.
  revert best. induction visited as [|a visited IH]; intros best; cbn [fold_left].
  { destruct best as [b|]; [|done]. split_and!; [by right|constructor|by intros ? [= ->]]. }
  specialize (IH (colder best a)).
  destruct (fold_left colder visited (colder best a)) as [kc|]; [|by destruct IH as [_ IH], best as [[]|]; simpl in *; try case_match].
  destruct IH as (Hin & Hall & Hle). unfold colder in *.
  destruct best as [[bk bc]|]; [|split_and!; [|constructor; [by apply Hle|done]|done]].
  - destruct (Z.ltb_spec a.2 bc); (split_and!;
      [destruct Hin as [|Heq]; [left; by constructor|try injection Heq as <-; auto with datatypes]
      |constructor; [|done]|intros b [= <-]]); simpl in *.
    + left. constructor.
    + by apply Hle.
    + specialize (Hle _ eq_refl). lia.
    + specialize (Hle _ eq_refl). simpl in Hle. lia.
    + by apply (Hle (bk, bc)).
  - destruct Hin as [|[= <-]]; left; by constructor.
Qed.

Record tracker_ok (t : Tracker) : Prop := {
  to_key : forall k c, counts t !! k = Some c -> k <> [] /\ 0 <= c <= MaxUint64;
  to_cap : 1 <= maxKeys t /\ Z.of_nat (size (counts t)) <= maxKeys t;
}.

Lemma evict_coldest visited m :
  visited ≡ₚ map_to_list m -> m <> ∅ -> m !! [] = None ->
  exists k c, m !! k = Some c /\ evictOneLocked visited m = delete k m /\
    map_Forall (fun _ c' => c <= c') m.
Proof.
  intros Hp Hne Hm. unfold evictOneLocked. pose proof (colder_min visited None) as Hc.
  destruct (fold_left colder visited None) as [[k c]|].
  - destruct Hc as ([Hin|?] & Hall & _); [|done].
    rewrite Hp in Hin. apply elem_of_map_to_list in Hin. exists k, c. split; [done|].
    rewrite bool_decide_eq_false_2 by congruence. split; [done|].
    intros k' c' Hk. rewrite Forall_forall in Hall. apply (Hall (k', c')).
    by rewrite Hp, elem_of_map_to_list.
  - destruct Hc as [-> _]. destruct Hne. apply map_to_list_empty_iff, Permutation_nil. done.
Qed.

(** ** One access *)

(** The range statement visits every pair of the map once, in some order. *)
Definition visits (visited : list (bytes * Z)) (t : Tracker) : Prop := visited ≡ₚ map_to_list (counts t).

(** A counted key, room for a new one, or the coldest key makes room. *)
Lemma Hit_cases visited t key :
  tracker_ok t -> visits visited t -> key <> [] ->
  exists m, Hit visited t key = mkTracker (<[key := default 0 (m !! key) +u 1]> m) (maxKeys t) /\
  ( (m = counts t /\ (is_Some (m !! key) \/ Z.of_nat (size m) < maxKeys t)) \/
    (counts t !! key = None /\ Z.of_nat (size (counts t)) = maxKeys t /\
     exists k c, counts t !! k = Some c /\ m = delete k (counts t) /\ map_Forall (fun _ c' => c <= c') (counts t)) ).
Proof.
  intros Hok Hv Hk. unfold Hit. rewrite bool_decide_eq_false_2 by done.
  destruct (to_cap t Hok) as [H1 H2].
  destruct (counts t !! key) as [c|] eqn:E; [eexists; split; [done|]; left; by eauto|].
  destruct (Z.leb_spec (maxKeys t) (Z.of_nat (size (counts t)))); [|eexists; split; [done|]; left; by auto].
  destruct (evict_coldest visited (counts t)) as (k & c & Hkc & -> & Hmin).
  - done.
  - intros He. rewrite He, map_size_empty in *. lia.
  - destruct (counts t !! []) as [c|] eqn:E0; [by destruct (to_key t Hok _ _ E0)|done].
  - eexists. split; [done|]. right. split_and!; [done|lia|by eauto].
Qed.

Lemma Hit_ok visited t key : tracker_ok t -> visits visited t -> tracker_ok (Hit visited t key).
Proof.
  intros Hok Hv. destruct (decide (key = [])) as [->|Hk]; [done|].
  destruct (Hit_cases visited t key Hok Hv Hk) as (m & -> & Hm).
  assert (Hsub : m ⊆ counts t) by (destruct Hm as [[-> _]|(_ & _ & k & c & _ & -> & _)]; [done|apply delete_subseteq]).
  split; cbn [counts maxKeys].
  - intros k c. rewrite lookup_insert. case_decide as Hkey; [|intros Hl; by eapply to_key, lookup_weaken].
    intros [= <-]. split; [congruence|]. apply u64_range.
  - destruct (to_cap t Hok) as [H1 H2]. split; [done|].
    destruct Hm as [[-> [Hs|Hs]]|(Hn & Hs & k & c & Hkc & -> & _)].
    + rewrite map_size_insert_Some by done. lia.
    + destruct (counts t !! key) eqn:E; [rewrite map_size_insert_Some by (by rewrite E); lia|].
      rewrite map_size_insert_None by done. lia.
    + rewrite map_size_insert_None by (rewrite lookup_delete_ne by congruence; done).
      rewrite map_size_delete_Some by (by rewrite Hkc).
      assert (size (counts t) <> 0%nat) by (intros Hz; apply map_size_empty_inv in Hz; by rewrite Hz in Hkc). lia.
Qed.

(** ** Sequences of accesses *)

(** [hits max ks t]: a new tracker after the accesses [ks]. *)
Inductive hits (max : Z) : list bytes -> Tracker -> Prop :=
  | hits_new : hits max [] (NewTracker max)
  | hits_hit ks t visited key :
      hits max ks t -> visits visited t -> hits max (ks ++ [key]) (Hit visited t key).

(** How often a key was accessed. *)
Definition occ (k : bytes) (ks : list bytes) : Z := len (filter (fun k' => k' = k) ks).

Lemma occ_snoc k ks key : occ k (ks ++ [key]) = occ k ks + (if decide (key = k) then 1 else 0).
Proof. unfold occ. rewrite filter_app, len_app. f_equal. rewrite filter_cons. by destruct (decide (key = k)). Qed.

Lemma occ_pos k ks : k ∈ ks -> 1 <= occ k ks.
Proof.
  intros Hk. unfold occ. assert (k ∈ filter (fun k' => k' = k) ks) by (by apply list_elem_of_filter).
  destruct (filter _ _); [by apply elem_of_nil in H|]. unfold len. simpl. lia.
Qed.

Lemma occ_le k ks : 0 <= occ k ks <= len ks.
Proof. unfold occ, len. pose proof (length_filter (fun k' => k' = k) ks). lia. Qed.

Lemma hits_ok max ks t : hits max ks t -> tracker_ok t /\ maxKeys t = maxKeys (NewTracker max).
Proof.
  induction 1 as [|ks t visited key H [IH <-] Hv].
  - split; [|done]. split; [done|]. unfold NewTracker, DefaultTopK. cbn [maxKeys counts]. rewrite map_size_empty. zcmp; lia.
  - split; [by apply Hit_ok|]. unfold Hit. by destruct (bool_decide _).
Qed.

(** The keys accessed, the empty one left out. *)
Definition distinct (ks : list bytes) : Z := Z.of_nat (size (list_to_set ks ∖ {[ [] ]} : gset bytes)).

Lemma distinct_snoc ks key : distinct ks <= distinct (ks ++ [key]).
Proof. apply inj_le, subseteq_size. set_solver +. Qed.

(** Where the counts are exact, an untracked key is one more distinct key. *)
Lemma distinct_room ks t key :
  tracker_ok t -> (forall k, k <> [] -> counts t !! k = if decide (k ∈ ks) then Some (occ k ks) else None) ->
  key <> [] -> counts t !! key = None -> Z.of_nat (size (counts t)) < distinct (ks ++ [key]).
Proof.
  intros Hok Hc Hk Hn.
  assert (Hnew : key ∉ ks) by (rewrite Hc in Hn by done; by case_decide).
  assert (Hdom : dom (counts t) = list_to_set ks ∖ {[ [] ]}).
  { apply set_eq. intros x. rewrite elem_of_dom, elem_of_difference, elem_of_list_to_set, not_elem_of_singleton.
    split.
    - intros [c Hx]. destruct (to_key t Hok x c Hx) as [Hne _]. rewrite Hc in Hx by done. by case_decide.
    - intros [Hx Hx0]. by rewrite Hc, decide_True by done. }
  rewrite <- size_dom, Hdom. unfold distinct.
  assert (Hkey : key ∉ (list_to_set ks ∖ {[ [] ]} : gset bytes)) by set_solver + Hnew.
  assert (Hsz : (size ({[key]} ∪ (list_to_set ks ∖ {[ [] ]}) : gset bytes) <=
                 size (list_to_set (ks ++ [key]) ∖ {[ [] ]} : gset bytes))%nat) by (apply subseteq_size; set_solver + Hk).
  rewrite size_union, size_singleton in Hsz by set_solver + Hkey. lia.
Qed.

Lemma hits_counts max ks t :
  hits max ks t -> len ks <= MaxUint64 ->
  (forall k c, counts t !! k = Some c -> 1 <= c <= occ k ks) /\
  (distinct ks <= maxKeys t ->
   forall k, k <> [] -> counts t !! k = if decide (k ∈ ks) then Some (occ k ks) else None).
Proof.
  induction 1 as [|ks t visited key H IH Hv]; intros Hlen.
  { split; [done|]. intros _ k _. rewrite decide_False by apply not_elem_of_nil. done. }
  rewrite len_app, len_cons, len_nil in Hlen.
  destruct (hits_ok _ _ _ H) as [Hok _]. destruct (IH ltac:(lia)) as [IH1 IH2].
  destruct (decide (key = [])) as [->|Hk].
  { unfold Hit. rewrite bool_decide_eq_true_2 by done. split.
    - intros k c Hc. rewrite occ_snoc. apply IH1 in Hc. case_decide; lia.
    - intros Hs k Hk. rewrite occ_snoc, (decide_False (P := [] = k)), Z.add_0_r by done.
      rewrite IH2; [apply decide_ext; rewrite elem_of_app, list_elem_of_singleton; naive_solver|by etrans; [apply distinct_snoc|]|done]. }
  destruct (Hit_cases visited t key Hok Hv Hk) as (m & -> & Hm). cbn [counts maxKeys].
  assert (Hsub : m ⊆ counts t) by (destruct Hm as [[-> _]|(_ & _ & k & c & _ & -> & _)]; [done|apply delete_subseteq]).
  split.
  - intros k c. rewrite lookup_insert, occ_snoc. case_decide as Hkey.
    + intros [= <-]. pose proof (occ_le k ks). subst k.
      destruct (m !! key) as [c|] eqn:E; simpl; [|by rewrite u64_small; unfold MaxUint64; lia].
      destruct (IH1 key c ltac:(by eapply lookup_weaken)). rewrite u64_succ; lia.
    + intros Hc. rewrite Z.add_0_r. by eapply IH1, lookup_weaken.
  - intros Hs k Hne.
    specialize (IH2 ltac:(by etrans; [apply distinct_snoc|])).
    assert (Hm' : m = counts t).
    { destruct Hm as [[? _]|(Hn & Heq & _)]; [done|].
      pose proof (distinct_room ks t key Hok IH2 Hk Hn). lia. }
    subst m. rewrite lookup_insert, occ_snoc. case_decide as Hkey.
    + subst k. rewrite decide_True by set_solver +. f_equal. rewrite IH2 by done.
      case_decide as Hin; simpl; [pose proof (occ_le key ks); rewrite u64_succ; lia|].
      assert (occ key ks = 0) as ->; [|by rewrite u64_small; unfold MaxUint64; lia].
      unfold occ. rewrite filter_none; [done|]. apply Forall_forall. by intros x Hx ->.
    + rewrite IH2, Z.add_0_r by done. apply decide_ext.
      rewrite elem_of_app, list_elem_of_singleton. naive_solver.
Qed.

(** what the hot-key counter counts.  After any sequence of accesses, in
    whatever order the scans for a cold key visited the map, the tracker holds
    at most its bound of keys, none of them empty; a count is at least one and
    never more than the real number of accesses; a key just accessed is
    tracked; and as long as no more different keys than the bound were accessed
    every count is exact. *)
Theorem tracker_counts max ks t :
  hits max ks t -> len ks <= MaxUint64 ->
  let bound := if max <=? 0 then DefaultTopK else max in
  Z.of_nat (size (counts t)) <= bound /\
  (forall k c, counts t !! k = Some c -> k <> [] /\ 1 <= c <= occ k ks) /\
  (forall k, last ks = Some k -> k <> [] -> is_Some (counts t !! k)) /\
  (distinct ks <= bound ->
   forall k, k <> [] -> counts t !! k = if decide (k ∈ ks) then Some (occ k ks) else None).
Proof.
  intros H Hl bound. destruct (hits_ok _ _ _ H) as [Hok Hm]. destruct (hits_counts _ _ _ H Hl) as [H1 H2].
  change (maxKeys (NewTracker max)) with bound in Hm. rewrite Hm in H2.
  split_and!; [rewrite <- Hm; apply Hok| |clear H1 H2|done].
  - intros k c Hc. split; [by eapply to_key|by apply H1].
  - intros k Hk Hne. destruct H as [|ks t visited key]; [done|].
    rewrite last_snoc in Hk. injection Hk as ->. unfold Hit. rewrite bool_decide_eq_false_2 by done.
    cbn [counts]. by rewrite lookup_insert_eq.
Qed.

(** ** The hottest keys *)

Lemma hotter_sorted items l :
  items ≡ₚ l -> StronglySorted hotter items -> merge_sort hotter l = items.
Proof.
  intros Hp Hs. apply (StronglySorted_unique hotter); [|done|etrans; [apply merge_sort_Permutation|done]].
  apply StronglySorted_merge_sort; apply _.
Qed.

Lemma Top_take t n :
  Top t n = map fst (take (Z.to_nat n) (merge_sort hotter (map_to_list (counts t)))).
Proof.
  unfold Top. destruct (Z.leb_spec n 0); [by rewrite Z2Nat.nonpos|]. cbv zeta.
  destruct (Z.ltb_spec (len (merge_sort hotter (map_to_list (counts t)))) n); [|done].
  unfold len in *. rewrite !take_ge by lia. done.
Qed.

(** what Top returns.  Whatever order the map was visited in and however
    sort.Slice moves the pairs, the result is the same: the first n of the
    tracked keys sorted by count, highest first, and by key among equal counts.
    It has min(n, tracked) different keys, all of them tracked, and every
    tracked key left out is no hotter than any key returned. *)
Theorem top_hottest t n :
  let l := Top t n in
  len l = Z.min (Z.max n 0) (Z.of_nat (size (counts t))) /\ NoDup l /\
  (forall items, items ≡ₚ map_to_list (counts t) -> StronglySorted hotter items ->
     l = map fst (take (Z.to_nat n) items)) /\
  (forall k, k ∈ l -> is_Some (counts t !! k)) /\
  (forall k c k' c', k ∈ l -> counts t !! k = Some c -> k' ∉ l -> counts t !! k' = Some c' ->
     c' < c \/ (c' = c /\ bytes_le k k')).
Proof.
  cbv zeta. rewrite Top_take. set (items := merge_sort hotter (map_to_list (counts t))).
  assert (Hp : items ≡ₚ map_to_list (counts t)) by apply merge_sort_Permutation.
  assert (Hs : StronglySorted hotter items) by (apply StronglySorted_merge_sort; apply _).
  assert (Hnd : NoDup items.*1) by (rewrite Hp; apply NoDup_fst_map_to_list).
  assert (Hmem : forall k c, (k, c) ∈ items <-> counts t !! k = Some c)
    by (intros k c; by rewrite Hp, elem_of_map_to_list).
  assert (Htop : forall k, k ∈ map fst (take (Z.to_nat n) items) <-> exists c, (k, c) ∈ take (Z.to_nat n) items)
    by (intros k; rewrite list_elem_of_fmap; split; [intros [[? c] [-> ?]]; by eauto|intros [c ?]; by exists (k, c)]).
  assert (Hin : forall x, x ∈ take (Z.to_nat n) items -> x ∈ items)
    by (intros x Hx; rewrite <- (take_drop (Z.to_nat n) items); apply elem_of_app; by left).
  split_and!.
  - unfold len. rewrite length_fmap, length_take.
    assert (length items = size (counts t)) as -> by (rewrite Hp; by rewrite length_map_to_list). lia.
  - change (map fst) with (fmap (M := list) (fst (A := bytes) (B := Z))). rewrite <- (take_drop (Z.to_nat n) items), fmap_app in Hnd.
    by apply NoDup_app in Hnd as [? _].
  - intros items' Hp' Hs'. f_equal. f_equal. by apply hotter_sorted.
  - intros k [c Hc]%Htop. exists c. by apply Hmem, Hin.
  - intros k c k' c' [c1 Hk]%Htop Hc Hk' Hc'.
    assert (c1 = c) as -> by (apply Hin, Hmem in Hk; congruence).
    apply Hmem in Hc'. rewrite <- (take_drop (Z.to_nat n) items) in Hc', Hs.
    apply elem_of_app in Hc' as [?|Hd]; [destruct Hk'; apply Htop; by eauto|].
    destruct (StronglySorted_app_1_elem_of _ _ _ _ _ Hs Hk Hd) as [|[? ?]]; simpl in *; [left; lia|right; done].
Qed.

(** Every sequence of accesses has an execution. *)
Definition hitAll (t : Tracker) (ks : list bytes) : Tracker :=
  fold_left (fun t k => Hit (map_to_list (counts t)) t k) ks t.

Lemma hits_all max ks : hits max ks (hitAll (NewTracker max) ks).
Proof.
  induction ks as [|k ks IH] using rev_ind; [constructor|].
  unfold hitAll. rewrite fold_left_app. cbn [fold_left].
  apply (hits_hit max ks (hitAll (NewTracker max) ks)); [exact IH|exact (Permutation_refl _)].
Qed.

Lemma tracker_counts_witness :
  let t := hitAll (NewTracker 2) [[97]; [98]; [97]; [99]] in
  counts t !! [99] = Some 1 /\ counts t !! [98] = None /\ Z.of_nat (size (counts t)) <= 2.
Proof.
  cbv zeta. split; [reflexivity|]. split; [reflexivity|].
  exact (proj1 (tracker_counts 2 _ _ (hits_all 2 [[97]; [98]; [97]; [99]]) ltac:(discriminate))).
Defined.
