(* ===== verification/Warmup.v ===== *)
(** * Warm-up: pkg/warmup/manager.go and pkg/engine/warmup_hook.go

    The manager counts accesses, and on a change of the topology queues
    prefetches and the hand-off of the local entries: warm and hot keys in one
    queue, the rest in another.  Workers take jobs from both.  The engine is
    seen through the interface [Cache], as in the source; [engineCache] is its
    implementation.  A select with several ready cases may take any of them, so
    the workers are a step relation ([wstep]); enqueueing under the manager's
    own control is a function. *)
From S2P Require Import Prelude Wire Tracker Store Ring Config Engine.

(** ** The interface of the cache *)

Record LocalEntry := mkLocalEntry { le_Key : bytes; le_Entry : Entry }.

Record WarmTarget := mkWarmTarget {
  wt_Name : bytes;
  wt_Mode : Mode;
  wt_WarmKeys : list bytes;
  wt_RefreshInterval : Z;
}.

(** A state [C] and the methods the manager calls on it. *)
Class Cache (C : Type) := {
  cache_Get : C -> bytes -> bytes -> (bytes + EngErr) * C;
  cache_GetOrLoadLocal : C -> bytes -> bytes -> (Entry * option EngErr) * C;
  cache_ForceLoad : C -> bytes -> bytes -> option EngErr * C;
  cache_OwnerOf : C -> bytes -> option Peer;
  cache_NodeID : C -> bytes;
  cache_WarmTargets : C -> list WarmTarget;
  cache_LocalEntries : C -> bytes -> list LocalEntry * C;
  cache_ReplicateToPeers : C -> bytes -> bytes -> Entry -> C;
}.

(** ** State *)

Record WConfig := mkWConfig {
  Workers : Z;
  TopN : Z;
  TrackMax : Z;
  DisableHandoff : bool;
  HandoffMaxEntries : Z;
  JobQueueSize : Z;
}.

Inductive jobKind := jobPrefetch | jobRefresh | jobHandoff.

#[global] Instance jobKind_eq_dec : EqDecision jobKind.
Proof. solve_decision. Defined.

(** The entry is used by hand-off jobs only. *)
Record job := mkWJob { j_kind : jobKind; j_keyspace : bytes; j_key : bytes; j_entry : Entry }.

(** The channels are their buffers; both have the capacity [queueCap]. *)
Record Manager := mkManager {
  wcfg : WConfig;
  trackers : gmap bytes Tracker;
  queueCap : Z;
  hotJobs : list job;
  restJobs : list job;
  wclosed : bool;
  Prefetches : Z;
  Refreshs : Z;
  Handoffs : Z;
  Errors : Z;
}.

Definition NewManager (c : WConfig) : Manager :=
  let c := mkWConfig
    (if Workers c <=? 0 then 8 else Workers c)
    (if TopN c <=? 0 then 64 else TopN c)
    (if TrackMax c <=? 0 then DefaultTopK else TrackMax c)
    (DisableHandoff c) (HandoffMaxEntries c) (JobQueueSize c) in
  mkManager c ∅ (if JobQueueSize c <=? 0 then 4096 else JobQueueSize c) [] [] false 0 0 0 0.

Definition with_trackers (m : Manager) (ts : gmap bytes Tracker) : Manager :=
  mkManager (wcfg m) ts (queueCap m) (hotJobs m) (restJobs m) (wclosed m)
    (Prefetches m) (Refreshs m) (Handoffs m) (Errors m).
Definition with_queues (m : Manager) (hot rest : list job) : Manager :=
  mkManager (wcfg m) (trackers m) (queueCap m) hot rest (wclosed m)
    (Prefetches m) (Refreshs m) (Handoffs m) (Errors m).
Definition with_counters (m : Manager) (p r h err : Z) : Manager :=
  mkManager (wcfg m) (trackers m) (queueCap m) (hotJobs m) (restJobs m) (wclosed m) p r h err.

Definition add_prefetch (m : Manager) : Manager := with_counters m (Prefetches m +u 1) (Refreshs m) (Handoffs m) (Errors m).
Definition add_refresh (m : Manager) : Manager := with_counters m (Prefetches m) (Refreshs m +u 1) (Handoffs m) (Errors m).
Definition add_handoff (m : Manager) : Manager := with_counters m (Prefetches m) (Refreshs m) (Handoffs m +u 1) (Errors m).
Definition add_werror (m : Manager) : Manager := with_counters m (Prefetches m) (Refreshs m) (Handoffs m) (Errors m +u 1).

(** Stop: the flag; the workers leave when their context is cancelled. *)
Definition Stop (m : Manager) : Manager :=
  mkManager (wcfg m) (trackers m) (queueCap m) (hotJobs m) (restJobs m) true
    (Prefetches m) (Refreshs m) (Handoffs m) (Errors m).

(** Stats and HandoffStats *)
Definition WStats (m : Manager) : Z * Z * Z := (Prefetches m, Refreshs m, Errors m).
Definition HandoffStats (m : Manager) : Z := Handoffs m.

(** ** Hot keys *)

(** The tracker of a keyspace is made on first use. *)
Definition tracker (m : Manager) (ks : bytes) : Tracker * Manager :=
  match trackers m !! ks with
  | Some t => (t, m)
  | None => let t := NewTracker (TrackMax (wcfg m)) in (t, with_trackers m (<[ks := t]> (trackers m)))
  end.

Definition RecordHit (visited : list (bytes * Z)) (m : Manager) (keyspace key : bytes) : Manager :=
  if bool_decide (keyspace = []) || bool_decide (key = []) then m
  else
    let '(t, m) := tracker m keyspace in
    with_trackers m (<[keyspace := Hit visited t key]> (trackers m)).

Definition HotKeys (m : Manager) (keyspace : bytes) (n : Z) : list bytes * Manager :=
  let '(t, m) := tracker m keyspace in (Top t n, m).

(** The warm keys of the configuration, then the tracked ones. *)
Definition candidates (m : Manager) (t : WarmTarget) : list bytes * Manager :=
  let '(tr, m) := tracker m (wt_Name t) in (wt_WarmKeys t ++ Top tr (TopN (wcfg m)), m).

Definition hotPrioritySet (m : Manager) (t : WarmTarget) : gset bytes * Manager :=
  let '(ks, m) := candidates m t in (list_to_set (filter (fun k => k <> []) ks), m).

(** add: the owner is looked up, but does not change what is added. *)
Definition add (st : gset bytes * list bytes) (k : bytes) : gset bytes * list bytes :=
  let '(seen, out) := st in
  if bool_decide (k = []) then st
  else if bool_decide (k ∈ seen) then st
  else ({[k]} ∪ seen, out ++ [k]).

Definition prefetchSet (m : Manager) (t : WarmTarget) : list bytes * Manager :=
  let '(ks, m) := candidates m t in ((fold_left add ks (∅, [])).2, m).

(** ** Queues *)

Definition enqueueHot (m : Manager) (j : job) : Manager :=
  if wclosed m then m
  else if len (hotJobs m) <? queueCap m then with_queues m (hotJobs m ++ [j]) (restJobs m)
  else add_werror m.

Definition enqueueRest (m : Manager) (j : job) : Manager :=
  if wclosed m then m
  else if len (restJobs m) <? queueCap m then with_queues m (hotJobs m) (restJobs m ++ [j])
  else add_werror m.

Definition PrefetchNow (m : Manager) (keyspace key : bytes) : Manager :=
  enqueueHot m (mkWJob jobPrefetch keyspace key noEntry).

Definition prefetchJob (ks k : bytes) : job := mkWJob jobPrefetch ks k noEntry.
Definition refreshJob (ks k : bytes) : job := mkWJob jobRefresh ks k noEntry.
Definition handoffJob (ks : bytes) (e : LocalEntry) : job := mkWJob jobHandoff ks (le_Key e) (le_Entry e).

(** for i, e := range rest { if limit > 0 && i >= limit { break } ... } *)
Definition capped (limit : Z) {A} (l : list A) : list A := if 0 <? limit then take (Z.to_nat limit) l else l.

Section manager.
Context {C : Type} `{!Cache C}.

Definition scheduleHandoff (m : Manager) (c : C) (t : WarmTarget) : Manager * C :=
  let '(entries, c) := cache_LocalEntries c (wt_Name t) in
  match entries with
  | [] => (m, c)
  | _ =>
      let '(hotSet, m) := hotPrioritySet m t in
      let entries := filter (fun e => le_Key e <> []) entries in
      let hot := filter (fun e => le_Key e ∈ hotSet) entries in
      let rest := filter (fun e => le_Key e ∉ hotSet) entries in
      let m := fold_left (fun m e => enqueueHot m (handoffJob (wt_Name t) e)) hot m in
      (fold_left (fun m e => enqueueRest m (handoffJob (wt_Name t) e)) (capped (HandoffMaxEntries (wcfg m)) rest) m, c)
  end.

Definition topologyTarget (st : Manager * C) (t : WarmTarget) : Manager * C :=
  let '(m, c) := st in
  let '(ks, m) := prefetchSet m t in
  let m := fold_left (fun m k => enqueueHot m (prefetchJob (wt_Name t) k)) ks m in
  if DisableHandoff (wcfg m) then (m, c) else scheduleHandoff m c t.

Definition OnTopologyChange (m : Manager) (c : C) : Manager * C :=
  if wclosed m then (m, c) else fold_left topologyTarget (cache_WarmTargets c) (m, c).

(** ** Jobs *)

Definition isNotFound (err : EngErr) : bool := match err with ErrNotFound => true | _ => false end.

Definition ownsKey (c : C) (key : bytes) : bool :=
  match cache_OwnerOf c key with
  | None => true
  | Some owner =>
      if bool_decide (peer_ID owner = []) then true
      else bool_decide (cache_NodeID c = []) || bool_decide (peer_ID owner = cache_NodeID c)
  end.

(** A missing key is no error. *)
Definition jobDone (m : Manager) (err : option EngErr) (ok : Manager -> Manager) : Manager :=
  match err with
  | Some err => if isNotFound err then m else add_werror m
  | None => ok m
  end.

Definition runJob (m : Manager) (c : C) (j : job) : Manager * C :=
  match j_kind j with
  | jobHandoff => (add_handoff m, cache_ReplicateToPeers c (j_keyspace j) (j_key j) (j_entry j))
  | jobRefresh =>
      if negb (ownsKey c (j_key j)) then (m, c)
      else let '(err, c) := cache_ForceLoad c (j_keyspace j) (j_key j) in (jobDone m err add_refresh, c)
  | jobPrefetch =>
      let '(err, c) :=
        if ownsKey c (j_key j) then
          let '((_, err), c) := cache_GetOrLoadLocal c (j_keyspace j) (j_key j) in (err, c)
        else
          let '(r, c) := cache_Get c (j_keyspace j) (j_key j) in
          (match r with inl _ => None | inr err => Some err end, c) in
      (jobDone m err add_prefetch, c)
  end.

(** ** Refresh-ahead *)

(** One target of a tick of refreshLoop; [last] is the loop's map of last refreshes. *)
Definition refreshTarget (now : Z) (st : Manager * gmap bytes Z) (t : WarmTarget) : Manager * gmap bytes Z :=
  let '(m, last) := st in
  if (wt_RefreshInterval t <=? 0) || negb (bool_decide (wt_Mode t = ModeLoadThrough)) then st
  else if match last !! wt_Name t with Some prev => now - prev <? wt_RefreshInterval t | None => false end then st
  else
    let '(ks, m) := prefetchSet m t in
    (fold_left (fun m k => enqueueHot m (refreshJob (wt_Name t) k)) ks m, <[wt_Name t := now]> last).

Definition refreshTick (now : Z) (m : Manager) (c : C) (last : gmap bytes Z) : Manager * gmap bytes Z :=
  fold_left (refreshTarget now) (cache_WarmTargets c) (m, last).

End manager.

(** ** Workers *)

(** Where a worker is in its loop: before the select that only looks at the hot
    queue, in the select that blocks on both, running a job, or gone. *)
Inductive wpc := Polling | Waiting | Running (j : job) | Exited.

#[global] Instance wpc_waiting_dec (p : wpc) : Decision (p = Waiting).
Proof. destruct p; (by left) || (by right). Defined.

Record WState (C : Type) := mkWState { ws_m : Manager; ws_c : C; ws_pcs : list wpc; ws_cancelled : bool }.
Arguments mkWState {C}.
Arguments ws_m {C}.
Arguments ws_c {C}.
Arguments ws_pcs {C}.
Arguments ws_cancelled {C}.

(** Start: cfg.Workers goroutines. *)
Definition Start {C} (m : Manager) (c : C) : WState C :=
  mkWState m c (repeat Polling (Z.to_nat (Workers (wcfg m)))) false.

Section workers.
Context {C : Type} `{!Cache C}.

(** One step of worker [i]; the jobs it received, tagged with whether they came
    from the hot queue.  The first select falls through only when nothing is
    ready; the second takes any case that is. *)
Inductive wstep (s : WState C) : list (bool * job) -> WState C -> Prop :=
  | w_done i p :
      ws_pcs s !! i = Some p -> p = Polling \/ p = Waiting -> ws_cancelled s = true ->
      wstep s [] (mkWState (ws_m s) (ws_c s) (<[i := Exited]> (ws_pcs s)) true)
  | w_hot i p j q :
      ws_pcs s !! i = Some p -> p = Polling \/ p = Waiting -> hotJobs (ws_m s) = j :: q ->
      wstep s [(true, j)] (mkWState (with_queues (ws_m s) q (restJobs (ws_m s))) (ws_c s)
                             (<[i := Running j]> (ws_pcs s)) (ws_cancelled s))
  | w_fall i :
      ws_pcs s !! i = Some Polling -> hotJobs (ws_m s) = [] -> ws_cancelled s = false ->
      wstep s [] (mkWState (ws_m s) (ws_c s) (<[i := Waiting]> (ws_pcs s)) false)
  | w_rest i j q :
      ws_pcs s !! i = Some Waiting -> restJobs (ws_m s) = j :: q ->
      wstep s [(false, j)] (mkWState (with_queues (ws_m s) (hotJobs (ws_m s)) q) (ws_c s)
                              (<[i := Running j]> (ws_pcs s)) (ws_cancelled s))
  | w_run i j m c :
      ws_pcs s !! i = Some (Running j) -> runJob (ws_m s) (ws_c s) j = (m, c) ->
      wstep s [] (mkWState m c (<[i := Polling]> (ws_pcs s)) (ws_cancelled s)).

(** [n] steps of the workers, nothing being enqueued meanwhile, and the jobs
    received, first to last. *)
Inductive wsteps (s : WState C) : nat -> list (bool * job) -> WState C -> Prop :=
  | ws_nil : wsteps s 0 [] s
  | ws_snoc n tk s1 tk1 s2 : wsteps s n tk s1 -> wstep s1 tk1 s2 -> wsteps s (S n) (tk ++ tk1) s2.

End workers.

(** ** The engine as a cache (warmup_hook.go) *)

Definition warmTarget (ks : ksRuntime) : WarmTarget :=
  mkWarmTarget (Name (cfg ks)) (cMode (cfg ks)) (default [] (WarmKeys (cfg ks))) (RefreshInterval (cfg ks)).

(** Go ranges over the map of keyspaces: in any order. *)
Definition WarmTargets (e : Engine) : list WarmTarget := map warmTarget (map_to_list (keyspaces e)).*2.

Definition LocalEntries (now : Z) (e : Engine) (ksName : bytes) : list LocalEntry * Engine :=
  match getKS e ksName with
  | None => ([], e)
  | Some ks =>
      let '(out, m) := RangeAll (fun out key ent => (out ++ [mkLocalEntry key (copyEntry ent)], true)) now (kstore ks)
                         (map_to_list (items (kstore ks))).*1 [] in
      (out, with_ks e ksName (with_store ks m))
  end.

Definition ReplicateToPeers (e : Engine) (ksName key : bytes) (ent : Entry) : Engine :=
  replicate e ksName key ent true.

(** The calls of a worker at one time, in one world. *)
#[global] Instance engineCache {W} (env : Env W) (now : Z) (ctx : Ctx) : Cache (W * Engine) := {
  cache_Get c ks k := let '(r, w, e) := Engine_Get env now ctx c.1 c.2 ks k in (r, (w, e));
  cache_GetOrLoadLocal c ks k := let '(r, w, e) := GetOrLoadLocal env now ctx c.1 c.2 ks k in (r, (w, e));
  cache_ForceLoad c ks k := let '(r, w, e) := ForceLoad env now ctx c.1 c.2 ks k in (r, (w, e));
  cache_OwnerOf c k := OwnerOf c.2 k;
  cache_NodeID c := nodeID c.2;
  cache_WarmTargets c := WarmTargets c.2;
  cache_LocalEntries c ks := let '(l, e) := LocalEntries now c.2 ks in (l, (c.1, e));
  cache_ReplicateToPeers c ks k ent := (c.1, ReplicateToPeers c.2 ks k ent);
}.
