(* ===== verification/WarmupProps.v ===== *)
(** * What the warm-up manager does

    The queues after a change of the topology; the bound on how far the two
    priorities can be inverted; the hand-off of a node's entries to a node that
    joins. *)
From S2P Require Import Prelude Wire Tracker Store StoreInv StoreView StoreProps Ring.
From S2P Require Import Config Engine EngineProps ModesInv ModesProps Warmup.

(** ** Queues *)

(** The queue [q] of capacity [cap] after the attempts [js]: what fits. *)
Definition pushed (cap : Z) (q js : list job) : list job := take (Z.to_nat cap) (q ++ js).

(** Attempts that found the queue full. *)
Definition lost (cap : Z) (q js : list job) : Z := len q + len js - len (pushed cap q js).

Lemma pushed_nil cap q : len q <= cap -> pushed cap q [] = q.
Proof. intros. unfold pushed, len in *. rewrite app_nil_r. apply take_ge. lia. Qed.

Lemma pushed_fits cap q js : len q + len js <= cap -> pushed cap q js = q ++ js.
Proof. intros. unfold pushed, len in *. apply take_ge. rewrite length_app. lia. Qed.

Lemma pushed_empty cap js : len js <= cap -> pushed cap [] js = js /\ lost cap [] js = 0.
Proof.
  intros. assert (Hp : pushed cap [] js = js) by (apply pushed_fits; change (len []) with 0; lia).
  split; [done|]. unfold lost. rewrite Hp. change (len []) with 0. lia.
Qed.

Lemma pushed_len cap q js : 0 <= cap -> len (pushed cap q js) = Z.min cap (len q + len js).
Proof. intros. unfold pushed, len. rewrite length_take, length_app. lia. Qed.

Lemma pushed_app cap q js js' : pushed cap (pushed cap q js) js' = pushed cap q (js ++ js').
Proof.
  unfold pushed. rewrite app_assoc. generalize (q ++ js) as l. intros l. revert l.
  induction (Z.to_nat cap) as [|n IH]; intros [|x l]; simpl; try done. by rewrite IH.
Qed.

Lemma lost_app cap q js js' :
  lost cap q (js ++ js') = lost cap q js + lost cap (pushed cap q js) js'.
Proof. unfold lost. rewrite pushed_app, len_app. lia. Qed.

(** What enqueueing leaves alone. *)
Definition same_manager (m m' : Manager) : Prop :=
  wcfg m' = wcfg m /\ queueCap m' = queueCap m /\ wclosed m' = wclosed m /\
  Prefetches m' = Prefetches m /\ Refreshs m' = Refreshs m /\ Handoffs m' = Handoffs m.

(** [m'] is [m] after the attempts [hot] and [rest]. *)
Record queued (m : Manager) (hot rest : list job) (m' : Manager) : Prop := {
  q_same : same_manager m m';
  q_hot : hotJobs m' = pushed (queueCap m) (hotJobs m) hot;
  q_rest : restJobs m' = pushed (queueCap m) (restJobs m) rest;
  q_errors : Errors m' = u64 (Errors m + lost (queueCap m) (hotJobs m) hot + lost (queueCap m) (restJobs m) rest);
}.

(** An open manager whose queues are within their capacity. *)
Record manager_ok (m : Manager) : Prop := {
  mo_open : wclosed m = false;
  mo_hot : len (hotJobs m) <= queueCap m;
  mo_rest : len (restJobs m) <= queueCap m;
  mo_errors : 0 <= Errors m <= MaxUint64;
}.

Lemma lost_nil cap q : len q <= cap -> lost cap q [] = 0.
Proof. intros. unfold lost. rewrite pushed_nil by done. rewrite len_nil. lia. Qed.

Lemma queued_refl m : manager_ok m -> queued m [] [] m.
Proof.
  intros []. split; [done|by rewrite pushed_nil|by rewrite pushed_nil|].
  rewrite !lost_nil by done. rewrite u64_small; lia.
Qed.

Lemma queued_ok m hot rest m' : manager_ok m -> queued m hot rest m' -> manager_ok m'.
Proof.
  intros [Ho Hh Hr He] [(_ & Hc & Hcl & _) H1 H2 H3].
  pose proof (len_nonneg (hotJobs m)).
  split; [by rewrite Hcl|rewrite H1, Hc, pushed_len by lia; lia|rewrite H2, Hc, pushed_len by lia; lia|].
  rewrite H3. apply u64_range.
Qed.

Lemma queued_trans m1 h1 r1 m2 h2 r2 m3 :
  queued m1 h1 r1 m2 -> queued m2 h2 r2 m3 -> queued m1 (h1 ++ h2) (r1 ++ r2) m3.
Proof.
  intros [Hs1 Hh1 Hr1 He1] [Hs2 Hh2 Hr2 He2].
  destruct Hs1 as (? & Hc & ? & ? & ? & ?), Hs2 as (? & ? & ? & ? & ? & ?).
  rewrite Hc, ?Hh1, ?Hr1 in *. split; [by split_and!; etrans|by rewrite Hh2, pushed_app|by rewrite Hr2, pushed_app|].
  rewrite He2, He1, !lost_app. unfold u64.
  rewrite <- !Z.add_assoc, (Z.add_mod (_ mod _)), Zmod_mod, <- Z.add_mod by done. f_equal. lia.
Qed.

Lemma queued_from m ts hot rest m' : queued (with_trackers m ts) hot rest m' -> queued m hot rest m'.
Proof. by intros [? ? ? ?]; split. Qed.

(** One attempt, when there is room and when there is none. *)
Lemma push_one cap (q : list job) j :
  len q <= cap -> pushed cap q [j] = (if len q <? cap then q ++ [j] else q) /\
                  lost cap q [j] = (if len q <? cap then 0 else 1).
Proof.
  intros Hq. assert (Hp : pushed cap q [j] = if len q <? cap then q ++ [j] else q).
  { destruct (Z.ltb_spec (len q) cap); [apply pushed_fits; rewrite len_cons, len_nil; lia|].
    unfold pushed. rewrite take_app_le by (unfold len in *; lia). apply take_ge. unfold len in *. lia. }
  split; [done|]. unfold lost. rewrite Hp. destruct (len q <? cap); rewrite ?len_app, len_cons, len_nil; lia.
Qed.

Lemma enqueueHot_queued m j : manager_ok m -> queued m [j] [] (enqueueHot m j) /\ trackers (enqueueHot m j) = trackers m.
Proof.
  intros [Ho Hh Hr He]. unfold enqueueHot. rewrite Ho.
  destruct (push_one (queueCap m) (hotJobs m) j Hh) as [Hp Hl].
  destruct (len (hotJobs m) <? queueCap m); (split; [split|]);
    cbn; rewrite ?Hp, ?Hl, ?pushed_nil, ?lost_nil by done; try done.
  - rewrite u64_small; lia.
  - f_equal. lia.
Qed.

Lemma enqueueRest_queued m j : manager_ok m -> queued m [] [j] (enqueueRest m j) /\ trackers (enqueueRest m j) = trackers m.
Proof.
  intros [Ho Hh Hr He]. unfold enqueueRest. rewrite Ho.
  destruct (push_one (queueCap m) (restJobs m) j Hr) as [Hp Hl].
  destruct (len (restJobs m) <? queueCap m); (split; [split|]);
    cbn; rewrite ?Hp, ?Hl, ?pushed_nil, ?lost_nil by done; try done.
  - rewrite u64_small; lia.
  - f_equal. lia.
Qed.

(** The loops that enqueue. *)
Lemma enqueue_loop {A} (f : A -> job) (xs : list A) m :
  manager_ok m ->
  (let m' := fold_left (fun m x => enqueueHot m (f x)) xs m in queued m (map f xs) [] m' /\ trackers m' = trackers m) /\
  (let m' := fold_left (fun m x => enqueueRest m (f x)) xs m in queued m [] (map f xs) m' /\ trackers m' = trackers m).
Proof.
  intros Hok. split; revert m Hok; (induction xs as [|x xs IH]; intros m Hok; [by split; [apply queued_refl|]|]); cbn [fold_left map].
  - destruct (enqueueHot_queued m (f x) Hok) as [Hq Ht]. destruct (IH _ (queued_ok _ _ _ _ Hok Hq)) as [Hq' Ht'].
    split; [exact (queued_trans _ _ _ _ _ _ _ Hq Hq')|congruence].
  - destruct (enqueueRest_queued m (f x) Hok) as [Hq Ht]. destruct (IH _ (queued_ok _ _ _ _ Hok Hq)) as [Hq' Ht'].
    split; [exact (queued_trans _ _ _ _ _ _ _ Hq Hq')|congruence].
Qed.

(** ** Candidates *)

(** The tracked keys of a keyspace, best first. *)
Definition tracked (m : Manager) (n : bytes) : list bytes :=
  match trackers m !! n with Some t => Top t (TopN (wcfg m)) | None => [] end.

(** The keys that are warmed first, without repetition. *)
Definition warmKeys (m : Manager) (t : WarmTarget) : list bytes :=
  nub ∅ (filter (fun k => k <> []) (wt_WarmKeys t ++ tracked m (wt_Name t))).

Lemma add_loop ks seen out :
  (fold_left add ks (seen, out)).2 = out ++ nub seen (filter (fun k => k <> []) ks).
Proof.
  revert seen out. induction ks as [|k ks IH]; intros seen out; cbn [fold_left]; [by rewrite app_nil_r|].
  rewrite filter_cons. unfold add at 2. case_bool_decide as Hk.
  - rewrite IH, decide_False by (by intros []). done.
  - rewrite decide_True by done. cbn [nub]. case_bool_decide; rewrite IH; [done|]. by rewrite <- app_assoc.
Qed.

Lemma Top_new max n : Top (NewTracker max) n = [].
Proof. rewrite Top_take. unfold NewTracker. cbn [counts]. rewrite map_to_list_empty. by destruct (Z.to_nat n). Qed.

(** Looking at the candidates may create the tracker, which is empty. *)
Lemma candidates_spec m t :
  exists ts, candidates m t = (wt_WarmKeys t ++ tracked m (wt_Name t), with_trackers m ts) /\
    forall n, tracked (with_trackers m ts) n = tracked m n.
Proof.
  unfold candidates, tracker, tracked. destruct (trackers m !! wt_Name t) as [tr|] eqn:E.
  - exists (trackers m). by destruct m.
  - eexists. split; [by rewrite Top_new|]. intros n. cbn [trackers with_trackers wcfg].
    destruct (decide (wt_Name t = n)) as [<-|]; [by rewrite lookup_insert_eq, E, Top_new|by rewrite lookup_insert_ne].
Qed.

Lemma prefetchSet_spec m t :
  exists ts, prefetchSet m t = (warmKeys m t, with_trackers m ts) /\ forall n, tracked (with_trackers m ts) n = tracked m n.
Proof.
  destruct (candidates_spec m t) as (ts & Hc & Ht). exists ts. unfold prefetchSet. rewrite Hc. split; [|done].
  by rewrite add_loop.
Qed.

Lemma hotPrioritySet_spec m t :
  exists ts hs, hotPrioritySet m t = (hs, with_trackers m ts) /\ (forall k, k ∈ hs <-> k ∈ warmKeys m t) /\
    forall n, tracked (with_trackers m ts) n = tracked m n.
Proof.
  destruct (candidates_spec m t) as (ts & Hc & Ht). unfold hotPrioritySet. rewrite Hc. eexists _, _. split_and!; [done| |done].
  intros k. unfold warmKeys. rewrite nub_elem, elem_of_list_to_set. set_solver.
Qed.

(** ** A change of the topology *)

(** Reading the entries of one keyspace leaves the others as they are. *)
Class CacheLaws (C : Type) `{!Cache C} : Prop :=
  law_entries : forall c n n', n <> n' ->
    (cache_LocalEntries (cache_LocalEntries c n).2 n').1 = (cache_LocalEntries c n').1.

(** Only one block of a concatenation passes the filter. *)
Lemma filter_concat_one {A B} (P : B -> Prop) `{!forall x, Decision (P x)} (f : A -> list B) (key : A -> bytes) ts t :
  NoDup (map key ts) -> t ∈ ts -> (forall t', key t' <> key t -> filter P (f t') = []) ->
  filter P (concat (map f ts)) = filter P (f t).
Proof.
  intros Hnd Ht Hf. induction ts as [|t0 ts IH]; [by apply elem_of_nil in Ht|]. cbn [map concat]. inv Hnd.
  rewrite filter_app. destruct (decide (key t0 = key t)) as [He|He].
  - assert (t0 = t) as ->.
    { apply elem_of_cons in Ht as [|Ht]; [done|]. match goal with H : key t0 ∉ _ |- _ => destruct H end.
      rewrite He. apply list_elem_of_fmap. by exists t. }
    cut (filter P (concat (map f ts)) = []); [intros ->; by rewrite app_nil_r|].
    clear IH Ht. match goal with H : key t ∉ _ |- _ => revert H end. clear -Hf.
    induction ts as [|t1 ts IH]; [done|]. cbn [map concat]. rewrite not_elem_of_cons. intros [Hne Hin].
    by rewrite filter_app, Hf, IH.
  - rewrite (Hf t0 He). apply IH; [done|]. by apply elem_of_cons in Ht as [->|].
Qed.

Section topology.
Context {C : Type} `{!Cache C, !CacheLaws C}.

Definition entriesOf (c : C) (t : WarmTarget) : list LocalEntry := (cache_LocalEntries c (wt_Name t)).1.

(** Prefetches, then the warm entries to hand off. *)
Definition hotAttempts (m : Manager) (c : C) (t : WarmTarget) : list job :=
  map (prefetchJob (wt_Name t)) (warmKeys m t) ++
  (if DisableHandoff (wcfg m) then []
   else map (handoffJob (wt_Name t)) (filter (fun e => le_Key e ∈ warmKeys m t) (entriesOf c t))).

(** The other entries, up to the limit. *)
Definition restAttempts (m : Manager) (c : C) (t : WarmTarget) : list job :=
  if DisableHandoff (wcfg m) then []
  else map (handoffJob (wt_Name t)) (capped (HandoffMaxEntries (wcfg m))
         (filter (fun e => le_Key e <> [] /\ le_Key e ∉ warmKeys m t) (entriesOf c t))).

(** [m'] has the trackers' content and the configuration of [m]. *)
Definition alike (m m' : Manager) : Prop := wcfg m' = wcfg m /\ forall n, tracked m' n = tracked m n.

Lemma warmKeys_alike m m' t : alike m m' -> warmKeys m' t = warmKeys m t.
Proof. intros [_ Ht]. unfold warmKeys. by rewrite Ht. Qed.

Lemma warmKeys_ne m t k : k ∈ warmKeys m t -> k <> [].
Proof. unfold warmKeys. rewrite nub_elem, list_elem_of_filter. tauto. Qed.

Lemma tracked_ext m m' n : wcfg m' = wcfg m -> trackers m' = trackers m -> tracked m' n = tracked m n.
Proof. unfold tracked. by intros -> ->. Qed.

Lemma scheduleHandoff_spec m c t :
  manager_ok m -> DisableHandoff (wcfg m) = false ->
  exists m', scheduleHandoff m c t = (m', (cache_LocalEntries c (wt_Name t)).2) /\ alike m m' /\
    queued m (map (handoffJob (wt_Name t)) (filter (fun e => le_Key e ∈ warmKeys m t) (entriesOf c t)))
      (restAttempts m c t) m'.
Proof.
  intros Hok Hd. unfold scheduleHandoff, restAttempts, entriesOf. rewrite Hd.
  destruct (cache_LocalEntries c (wt_Name t)) as [entries c']. cbn [fst snd].
  destruct entries as [|e0 es].
  { exists m. split; [done|]. split; [done|]. rewrite !filter_nil. unfold capped. destruct (0 <? _); rewrite ?take_nil; by apply queued_refl. }
  set (entries := e0 :: es). clearbody entries.
  destruct (hotPrioritySet_spec m t) as (ts & hs & Hh & Hmem & Ht). rewrite Hh.
  set (m0 := with_trackers m ts) in *.
  assert (Hok0 : manager_ok m0) by (by destruct Hok).
  rewrite !list_filter_filter.
  match goal with |- context [fold_left _ (filter ?P entries) m0] => set (hot := filter P entries) end.
  destruct (enqueue_loop (handoffJob (wt_Name t)) hot m0 Hok0) as [[Hq1 Ht1] _].
  set (m1 := fold_left _ hot m0) in *. pose proof (queued_ok _ _ _ _ Hok0 Hq1) as Hok1.
  assert (Hc1 : wcfg m1 = wcfg m) by apply Hq1. rewrite Hc1.
  match goal with |- context [capped ?l (filter ?P entries)] => set (rest := capped l (filter P entries)) end.
  destruct (enqueue_loop (handoffJob (wt_Name t)) rest m1 Hok1) as [_ [Hq2 Ht2]].
  eexists. split; [done|]. set (m2 := fold_left _ rest m1) in *.
  assert (Hc2 : wcfg m2 = wcfg m) by (rewrite <- Hc1; apply Hq2).
  split; [split; [done|]; intros n; rewrite (tracked_ext m0); [apply Ht|done|congruence]|].
  pose proof (queued_trans _ _ _ _ _ _ _ Hq1 Hq2) as Hq. rewrite app_nil_r in Hq.
  assert (Hhot : filter (fun e => le_Key e ∈ warmKeys m t) entries = hot).
  { apply list_filter_iff. intros e. rewrite Hmem. split; [intros He; split; [done|by eapply warmKeys_ne]|tauto]. }
  rewrite Hhot. match goal with |- queued _ _ ?r _ => replace r with (map (handoffJob (wt_Name t)) rest) end.
  - exact (queued_from _ _ _ _ _ Hq).
  - unfold rest. f_equal. f_equal. apply list_filter_iff. intros e. rewrite Hmem. tauto.
Qed.

Lemma topologyTarget_spec m c t :
  manager_ok m ->
  exists m' c', topologyTarget (m, c) t = (m', c') /\ alike m m' /\
    queued m (hotAttempts m c t) (restAttempts m c t) m' /\
    (c' = c \/ c' = (cache_LocalEntries c (wt_Name t)).2).
Proof.
  intros Hok. unfold topologyTarget, hotAttempts.
  destruct (prefetchSet_spec m t) as (ts & -> & Ht). set (m0 := with_trackers m ts) in *.
  assert (Hok0 : manager_ok m0) by (by destruct Hok).
  destruct (enqueue_loop (prefetchJob (wt_Name t)) (warmKeys m t) m0 Hok0) as [[Hq1 Ht1] _].
  set (m1 := fold_left _ _ m0) in *. pose proof (queued_ok _ _ _ _ Hok0 Hq1) as Hok1.
  assert (Ha : alike m m1) by (split; [apply Hq1|intros n; rewrite (tracked_ext m0); [apply Ht|apply Hq1|done]]).
  destruct Ha as [Hc Htr]. rewrite Hc. destruct (DisableHandoff (wcfg m)) eqn:Hd.
  - exists m1, c. rewrite app_nil_r. unfold restAttempts. rewrite Hd. split; [done|]. split; [done|]. split; [|by left].
    exact (queued_from _ _ _ _ _ Hq1).
  - rewrite <- Hc in Hd. destruct (scheduleHandoff_spec m1 c t Hok1 Hd) as (m' & -> & [Hc' Ht'] & Hq2).
    eexists _, _. split; [done|]. split; [split; [congruence|intros n; by rewrite Ht']|]. split; [|by right].
    pose proof (queued_trans _ _ _ _ _ _ _ Hq1 Hq2) as Hq. unfold restAttempts in *.
    rewrite (warmKeys_alike m m1), Hc in Hq by done. by eapply queued_from.
Qed.

Lemma attempts_ext m c m0 c0 t :
  alike m0 m -> entriesOf c t = entriesOf c0 t ->
  hotAttempts m c t = hotAttempts m0 c0 t /\ restAttempts m c t = restAttempts m0 c0 t.
Proof.
  intros Ha He. unfold hotAttempts, restAttempts. rewrite (warmKeys_alike m0 m t Ha), He. by destruct Ha as [-> _].
Qed.

Lemma topology_loop ts m c m0 c0 :
  manager_ok m -> alike m0 m -> NoDup (map wt_Name ts) ->
  (forall t, t ∈ ts -> entriesOf c t = entriesOf c0 t) ->
  exists m' c', fold_left topologyTarget ts (m, c) = (m', c') /\ alike m0 m' /\
    queued m (concat (map (hotAttempts m0 c0) ts)) (concat (map (restAttempts m0 c0) ts)) m'.
Proof.
  revert m c. induction ts as [|t ts IH]; intros m c Hok Ha Hnd He; cbn [fold_left map concat].
  { exists m, c. split; [done|]. split; [done|]. by apply queued_refl. }
  inv Hnd. destruct (topologyTarget_spec m c t Hok) as (m1 & c1 & -> & [Hc1 Ht1] & Hq1 & Hcc).
  destruct (attempts_ext m c m0 c0 t Ha (He t ltac:(constructor))) as [Hh Hr]. rewrite Hh, Hr in Hq1.
  destruct (IH m1 c1) as (m' & c' & -> & Ha' & Hq).
  - by eapply queued_ok.
  - destruct Ha as [Hc Ht]. split; [congruence|]. intros n. by rewrite Ht1.
  - done.
  - intros t' Hin. rewrite <- (He t') by (by constructor). destruct Hcc as [->| ->]; [done|].
    apply law_entries. intros Heq. match goal with H : wt_Name t ∉ _ |- _ => apply H end.
    rewrite Heq. apply list_elem_of_fmap. by exists t'.
  - eexists _, _. split; [done|]. split; [done|]. exact (queued_trans _ _ _ _ _ _ _ Hq1 Hq).
Qed.

(** what a change of the topology schedules.  For every keyspace the manager
    tries to queue, at hot priority, a prefetch of each configured or tracked
    key, once, and then the hand-off of every local entry with such a key; at
    low priority it tries the hand-off of every other entry, in order, up to
    the limit.  Each queue then holds its old jobs followed by as many of the
    attempts as fit, the attempts that did not fit are counted as errors, and
    nothing else of the manager changes. *)
Theorem topology_schedules m (c : C) :
  manager_ok m -> NoDup (map wt_Name (cache_WarmTargets c)) ->
  let '(m', _) := OnTopologyChange m c in
  let hot := concat (map (hotAttempts m c) (cache_WarmTargets c)) in
  let rest := concat (map (restAttempts m c) (cache_WarmTargets c)) in
  queued m hot rest m' /\ forall n, tracked m' n = tracked m n.
Proof.
  intros Hok Hnd. unfold OnTopologyChange. rewrite (mo_open m Hok).
  destruct (topology_loop (cache_WarmTargets c) m c m c) as (m' & c' & -> & [_ Ht] & Hq); done.
Qed.

(** The hand-off is complete.  When both queues have room and no limit is
    set, the hand-off jobs queued for a keyspace are exactly its local entries,
    each once, warm keys in the hot queue and all others in the other one. *)
Lemma handoff_complete m (c : C) t :
  manager_ok m -> hotJobs m = [] -> restJobs m = [] ->
  DisableHandoff (wcfg m) = false -> HandoffMaxEntries (wcfg m) <= 0 ->
  NoDup (map wt_Name (cache_WarmTargets c)) -> t ∈ cache_WarmTargets c ->
  (forall e, e ∈ entriesOf c t -> le_Key e <> []) ->
  len (concat (map (hotAttempts m c) (cache_WarmTargets c))) <= queueCap m ->
  len (concat (map (restAttempts m c) (cache_WarmTargets c))) <= queueCap m ->
  let '(m', _) := OnTopologyChange m c in
  let mine := filter (fun j => j_kind j = jobHandoff /\ j_keyspace j = wt_Name t) in
  mine (hotJobs m') = map (handoffJob (wt_Name t)) (filter (fun e => le_Key e ∈ warmKeys m t) (entriesOf c t)) /\
  mine (restJobs m') = map (handoffJob (wt_Name t)) (filter (fun e => le_Key e ∉ warmKeys m t) (entriesOf c t)) /\
  mine (hotJobs m' ++ restJobs m') ≡ₚ map (handoffJob (wt_Name t)) (entriesOf c t) /\
  Errors m' = Errors m.
Proof.
  intros Hok Hh Hr Hd Hl Hnd Ht Hne Hc1 Hc2. pose proof (topology_loop (cache_WarmTargets c) m c m c Hok) as H.
  unfold OnTopologyChange. rewrite (mo_open m Hok).
  destruct H as (m' & c' & -> & _ & Hq); [done|done|done|]. destruct Hq as [_ Qh Qr Qe].
  destruct (pushed_empty _ _ Hc1) as [P1 L1], (pushed_empty _ _ Hc2) as [P2 L2].
  rewrite Hh, P1 in Qh. rewrite Hr, P2 in Qr. rewrite Hh, Hr, L1, L2 in Qe.
  cbv zeta. set (mine := fun j => j_kind j = jobHandoff /\ j_keyspace j = wt_Name t).
  assert (Hmine : forall n es, n = wt_Name t -> filter mine (map (handoffJob n) es) = map (handoffJob n) es)
    by (intros n es ->; apply filter_all, Forall_fmap, Forall_forall; by intros).
  assert (Hother : forall n es, n <> wt_Name t -> filter mine (map (handoffJob n) es) = [])
    by (intros n es Hn; apply filter_none, Forall_fmap, Forall_forall; by intros e _ [_ ?]).
  assert (Hpre : forall n ks, filter mine (map (prefetchJob n) ks) = [])
    by (intros n ks; apply filter_none, Forall_fmap, Forall_forall; by intros e _ [? _]).
  assert (E1 : filter mine (hotJobs m') = map (handoffJob (wt_Name t)) (filter (fun e => le_Key e ∈ warmKeys m t) (entriesOf c t))).
  { rewrite Qh, (filter_concat_one mine _ wt_Name _ t) by
      (done || (intros t' Hn; unfold hotAttempts; rewrite Hd, filter_app, Hpre; by apply Hother)).
    unfold hotAttempts. rewrite Hd, filter_app, Hpre. by apply Hmine. }
  assert (E2 : filter mine (restJobs m') = map (handoffJob (wt_Name t)) (filter (fun e => le_Key e ∉ warmKeys m t) (entriesOf c t))).
  { rewrite Qr, (filter_concat_one mine _ wt_Name _ t) by
      (done || (intros t' Hn; unfold restAttempts; rewrite Hd; by apply Hother)).
    unfold restAttempts, capped. rewrite Hd. destruct (Z.ltb_spec 0 (HandoffMaxEntries (wcfg m))); [lia|].
    rewrite Hmine by done. f_equal.
    rewrite <- (filter_all (fun e => le_Key e <> []) (entriesOf c t)) at 2 by (by apply Forall_forall).
    rewrite list_filter_filter. apply list_filter_iff. naive_solver. }
  split; [done|]. split; [done|]. split.
  - rewrite filter_app, E1, E2, <- fmap_app. apply fmap_Permutation. symmetry.
    by rewrite <- (filter_app_complement (fun e => le_Key e ∈ warmKeys m t)) at 1.
  - rewrite Qe. destruct Hok. rewrite u64_small; lia.
Qed.
End topology.

(** ** The entries of the engine *)

Lemma rangeAll_collect now m keys out :
  store_ok m ->
  exists m', RangeAll (fun out key ent => (out ++ [mkLocalEntry key (copyEntry ent)], true)) now m keys out =
    (out ++ omap (fun k => mkLocalEntry k <$> view now m !! k) keys, m') /\ reads now m m'.
Proof.
  unfold RangeAll. revert m out. induction keys as [|k keys IH]; intros m out Hok; cbn [range_keys omap list_omap].
  { exists m. rewrite app_nil_r. split; [done|by apply reads_refl]. }
  destruct (Peek now m k) as [r m1] eqn:Ep. destruct (Peek_reads now m k r m1 Hok Ep) as [Hr Hrd].
  pose proof (rd_view _ _ _ Hrd) as Hv. rewrite <- Hr. destruct r as [ent|]; cbn [negb andb fmap option_fmap option_map].
  - destruct (IH m1 (out ++ [mkLocalEntry k (copyEntry ent)]) (rd_ok _ _ _ Hrd)) as (m' & -> & Hrd').
    exists m'. rewrite Hv, copyEntry_id, <- app_assoc. split; [done|by eapply reads_trans].
  - destruct (IH m1 out (rd_ok _ _ _ Hrd)) as (m' & -> & Hrd').
    exists m'. rewrite Hv. split; [done|by eapply reads_trans].
Qed.

(** LocalEntries lists the live entries, tombstones included, each once. *)
Lemma LocalEntries_spec now e n ks :
  getKS e n = Some ks -> store_ok (kstore ks) ->
  exists m', LocalEntries now e n =
    (omap (fun k => mkLocalEntry k <$> view now (kstore ks) !! k) (map_to_list (items (kstore ks))).*1,
     with_ks e n (with_store ks m')) /\ reads now (kstore ks) m'.
Proof.
  intros Hks Hok. unfold LocalEntries. rewrite Hks.
  destruct (rangeAll_collect now (kstore ks) (map_to_list (items (kstore ks))).*1 [] Hok) as (m' & -> & Hr). eauto.
Qed.

Lemma LocalEntries_elem now e n ks le :
  getKS e n = Some ks -> store_ok (kstore ks) ->
  le ∈ (LocalEntries now e n).1 <-> view now (kstore ks) !! le_Key le = Some (le_Entry le).
Proof.
  intros Hks Hok. destruct (LocalEntries_spec now e n ks Hks Hok) as (m' & -> & _). cbn [fst].
  rewrite list_elem_of_omap. split.
  - intros (k & _ & Hk). destruct (view now (kstore ks) !! k) eqn:E; [|done]. by injection Hk as <-.
  - intros Hv. exists (le_Key le). split; [|rewrite Hv; by destruct le].
    rewrite list_elem_of_fmap. rewrite lookup_view in Hv. destruct (items (kstore ks) !! le_Key le) as [it|] eqn:E; [|done].
    exists (le_Key le, it). split; [done|]. by apply elem_of_map_to_list.
Qed.

Lemma LocalEntries_NoDup now e n ks :
  getKS e n = Some ks -> store_ok (kstore ks) -> NoDup (map le_Key (LocalEntries now e n).1).
Proof.
  intros Hks Hok. destruct (LocalEntries_spec now e n ks Hks Hok) as (m' & -> & _). cbn [fst].
  pose proof (NoDup_fst_map_to_list (items (kstore ks))) as Hnd. revert Hnd. generalize (map_to_list (items (kstore ks))).*1.
  intros keys. induction keys as [|k keys IH]; intros Hnd; [constructor|]. inv Hnd. cbn [omap list_omap].
  destruct (view now (kstore ks) !! k); cbn [fmap option_fmap option_map]; [|by apply IH].
  cbn [map]. constructor; [|by apply IH]. cbn [le_Key]. intros Hin.
  apply list_elem_of_fmap in Hin as (le & -> & Hin). apply list_elem_of_omap in Hin as (k' & Hk' & He).
  destruct (view now (kstore ks) !! k'); [|done]. injection He as <-. done.
Qed.

(** The targets are the keyspaces, each under its own name. *)
Lemma WarmTargets_elem e n ks : getKS e n = Some ks -> warmTarget ks ∈ WarmTargets e.
Proof.
  intros Hks. unfold WarmTargets. apply list_elem_of_fmap. exists ks. split; [done|].
  apply list_elem_of_fmap. exists (n, ks). split; [done|]. by apply elem_of_map_to_list.
Qed.

Lemma WarmTargets_names e : engine_ok e -> NoDup (map wt_Name (WarmTargets e)).
Proof.
  intros He. unfold WarmTargets. rewrite !map_map.
  rewrite (map_ext_in _ fst).
  - apply NoDup_fst_map_to_list.
  - intros [n ks] Hin. apply list_elem_of_In, elem_of_map_to_list in Hin. by destruct (He _ _ Hin).
Qed.

#[global] Instance engineCache_laws {W} (env : Env W) now ctx : CacheLaws (W * Engine) (Cache0 := engineCache env now ctx).
Proof.
  intros [w e] n n' Hne. cbn. unfold LocalEntries.
  destruct (getKS e n) as [ks|] eqn:E; [|done]. destruct (RangeAll _ _ _ _ _) as [out m]. cbn.
  assert (Hg : getKS (with_ks e n (with_store ks m)) n' = getKS e n') by (by apply lookup_insert_ne).
  rewrite Hg. destruct (getKS e n') as [ks'|]; [|done]. by destruct (RangeAll _ _ _ _ _).
Qed.

(** ** Workers *)

Section workers.
Context {C : Type} `{!Cache C}.
Implicit Types (s : WState C).

Lemma runJob_queues m (c : C) j m' c' :
  runJob m c j = (m', c') -> hotJobs m' = hotJobs m /\ restJobs m' = restJobs m.
Proof.
  assert (Hd : forall err ok, (forall m, hotJobs (ok m) = hotJobs m /\ restJobs (ok m) = restJobs m) ->
    hotJobs (jobDone m err ok) = hotJobs m /\ restJobs (jobDone m err ok) = restJobs m).
  { intros [err|] ok Hok; simpl; [by destruct (isNotFound err)|apply Hok]. }
  unfold runJob. destruct (j_kind j).
  - destruct (if ownsKey c (j_key j) then _ else _) as [err c1]. intros [= <- <-]. by apply Hd.
  - destruct (negb _); [by intros [= <- <-]|]. destruct (cache_ForceLoad _ _ _) as [err c1].
    intros [= <- <-]. by apply Hd.
  - by intros [= <- <-].
Qed.

(** Workers blocked on both queues. *)
Definition waiting s : Z := len (filter (fun p => p = Waiting) (ws_pcs s)).

Definition wait1 (p : wpc) : Z := match p with Waiting => 1 | _ => 0 end.

Lemma waiting_sum s : waiting s = zsum (map wait1 (ws_pcs s)).
Proof.
  unfold waiting. induction (ws_pcs s) as [|p l IH]; [done|]. rewrite filter_cons.
  destruct p; simpl; rewrite ?len_cons, IH; unfold zsum; simpl; lia.
Qed.

(** What is left to do, as a number of steps. *)
Definition work1 (p : wpc) : Z := match p with Running _ => 3 | Polling => 2 | Waiting => 1 | Exited => 0 end.
Definition work s : Z := 3 * len (hotJobs (ws_m s)) + 3 * len (restJobs (ws_m s)) + zsum (map work1 (ws_pcs s)).

Lemma zsum_update {A} (f : A -> Z) (l : list A) i p q :
  l !! i = Some p -> zsum (map f (<[i := q]> l)) = zsum (map f l) - f p + f q.
Proof.
  revert i. induction l as [|x l IH]; intros [|i] Hi; simpl in *; try done.
  - injection Hi as ->. unfold zsum. simpl. lia.
  - specialize (IH i Hi). unfold zsum in *. simpl. lia.
Qed.

(** Jobs of one priority among those received. *)
Definition taken (hot : bool) (tk : list (bool * job)) : list job := (filter (fun x => x.1 = hot) tk).*2.

Lemma taken_app hot tk tk' : taken hot (tk ++ tk') = taken hot tk ++ taken hot tk'.
Proof. unfold taken. by rewrite filter_app, fmap_app. Qed.

(** What one step does to the queues and to the blocked workers. *)
Lemma wstep_spec s tk s' :
  wstep s tk s' ->
  hotJobs (ws_m s) = taken true tk ++ hotJobs (ws_m s') /\
  restJobs (ws_m s) = taken false tk ++ restJobs (ws_m s') /\
  work s' < work s /\
  (hotJobs (ws_m s) <> [] -> len (taken false tk) + waiting s' <= waiting s).
Proof.
  rewrite !waiting_sum. unfold work.
  destruct 1 as [i p Hi Hp Hc|i p j q Hi Hp Hq|i Hi Hq Hc|i j q Hi Hq|i j m c Hi Hr];
    cbn [ws_m ws_pcs ws_c with_queues hotJobs restJobs]; rewrite ?(zsum_update _ _ _ _ _ Hi).
  all: repeat match goal with H : _ \/ _ |- _ => destruct H as [-> | ->] end; cbn [work1 wait1].
  all: change (taken true []) with (@nil job); change (taken false []) with (@nil job);
    change (taken ?b [(?b, ?x)]) with [x]; change (taken true [(false, ?x)]) with (@nil job);
    change (taken false [(true, ?x)]) with (@nil job); try destruct (runJob_queues _ _ _ _ _ Hr) as [-> ->];
    rewrite ?Hq, ?len_cons; change (len (@nil job)) with 0; (split_and!; [done|done|lia|]); intros ?; done || lia.
Qed.

Lemma wstep_single s tk s' : wstep s tk s' -> tk = [] \/ exists x, tk = [x].
Proof. destruct 1; eauto. Qed.

Lemma wsteps_spec s n tk s' :
  wsteps s n tk s' ->
  hotJobs (ws_m s) = taken true tk ++ hotJobs (ws_m s') /\
  restJobs (ws_m s) = taken false tk ++ restJobs (ws_m s') /\
  Z.of_nat n + work s' <= work s /\
  (hotJobs (ws_m s') <> [] -> len (taken false tk) + waiting s' <= waiting s) /\
  (forall pre j post, tk = pre ++ (true, j) :: post -> len (taken false pre) <= waiting s).
Proof.
  induction 1 as [|n tk s1 tk1 s2 H IH Hs].
  { split_and!; [done|done|lia|intros _; unfold len; simpl; lia|by intros []]. }
  destruct IH as (H1 & H2 & H3 & H4 & H5). destruct (wstep_spec _ _ _ Hs) as (S1 & S2 & S3 & S4).
  rewrite !taken_app, H1, H2, S1, S2. split_and!; [by rewrite app_assoc|by rewrite app_assoc|lia| |].
  - intros Hne. rewrite len_app. specialize (H4 ltac:(rewrite S1; by destruct (taken true tk1))).
    specialize (S4 ltac:(rewrite S1; by destruct (taken true tk1))). lia.
  - intros pre j post Heq. assert (Hw : 0 <= waiting s1) by apply len_nonneg.
    destruct (wstep_single _ _ _ Hs) as [->|[x ->]]; [rewrite app_nil_r in Heq; by eapply H5|].
    destruct post as [|y post _] using rev_ind.
    + apply app_inj_tail in Heq as [-> ->]. specialize (H4 ltac:(by rewrite S1)). lia.
    + rewrite app_comm_cons, app_assoc in Heq. apply app_inj_tail in Heq as [-> _]. by eapply H5.
Qed.

(** priorities are inverted only by workers that were already waiting.  In
    any interleaving of the workers, with nothing enqueued meanwhile, jobs
    leave each queue in order and none is lost; and before any hot job is
    received, at most as many other jobs have been received as there were
    workers blocked on both queues at the start. *)
Theorem hot_jobs_first s n tk s' :
  wsteps s n tk s' ->
  hotJobs (ws_m s) = taken true tk ++ hotJobs (ws_m s') /\
  restJobs (ws_m s) = taken false tk ++ restJobs (ws_m s') /\
  (forall pre j post, tk = pre ++ (true, j) :: post ->
     len (taken false pre) <= len (filter (fun p => p = Waiting) (ws_pcs s))).
Proof. intros H. destruct (wsteps_spec _ _ _ _ H) as (? & ? & _ & _ & ?). done. Qed.

(** A blocked worker may still take a job of the other queue first. *)
Theorem rest_before_hot s i jh qh jr qr :
  ws_pcs s !! i = Some Waiting -> hotJobs (ws_m s) = jh :: qh -> restJobs (ws_m s) = jr :: qr ->
  exists s', wsteps s 1 [(false, jr)] s' /\ hotJobs (ws_m s') = jh :: qh.
Proof. intros Hi Hh Hr. eexists. split; [eapply (ws_snoc _ _ []); [constructor|by eapply w_rest]|done]. Qed.

(** A worker with nothing to do is blocked on empty queues. *)
Lemma stuck_idle s :
  ws_cancelled s = false -> (exists i p, ws_pcs s !! i = Some p /\ p <> Exited) ->
  (forall tk s', ~ wstep s tk s') ->
  hotJobs (ws_m s) = [] /\ restJobs (ws_m s) = [] /\ forall i j, ws_pcs s !! i <> Some (Running j).
Proof.
  intros Hc (i & p & Hi & Hp) Hstuck.
  assert (Hrun : forall i j, ws_pcs s !! i <> Some (Running j)).
  { intros i' j Hj. destruct (runJob (ws_m s) (ws_c s) j) as [m c] eqn:E. by eapply Hstuck, w_run. }
  assert (Hhot : hotJobs (ws_m s) = []).
  { destruct (hotJobs (ws_m s)) as [|j q] eqn:E; [done|]. exfalso.
    destruct p as [| |j'|]; [| |by eapply Hrun|done]; eapply Hstuck, (w_hot s i); eauto. }
  assert (Hw : p = Waiting).
  { destruct p as [| |j'|]; [exfalso; eapply Hstuck, (w_fall s i); eauto|done|by destruct (Hrun i j')|done]. }
  subst p. split_and!; [done| |done].
  destruct (restJobs (ws_m s)) as [|j q] eqn:E; [done|]. exfalso. by eapply Hstuck, w_rest.
Qed.

(** C30: the workers finish.  With nothing enqueued meanwhile, every run of the
    workers is finite, its length bounded by the jobs and the workers; and
    where no worker can make a step, unless the manager was stopped, both
    queues are empty and every job that was queued has been received and run. *)
Theorem workers_drain s n tk s' :
  wsteps s n tk s' ->
  Z.of_nat n <= 3 * (len (hotJobs (ws_m s)) + len (restJobs (ws_m s)) + len (ws_pcs s)) /\
  (ws_cancelled s' = false -> (exists i p, ws_pcs s' !! i = Some p /\ p <> Exited) ->
   (forall tk1 s1, ~ wstep s' tk1 s1) ->
   taken true tk = hotJobs (ws_m s) /\ taken false tk = restJobs (ws_m s) /\
   forall i j, ws_pcs s' !! i <> Some (Running j)).
Proof.
  intros H. destruct (wsteps_spec _ _ _ _ H) as (H1 & H2 & H3 & _ & _). split.
  - unfold work in H3. assert (Hb : forall l, 0 <= zsum (map work1 l) <= 3 * len l).
    { clear. intros l. induction l as [|p l IH]; [done|]. rewrite len_cons. unfold zsum in *. destruct p; simpl; lia. }
    pose proof (Hb (ws_pcs s)). pose proof (Hb (ws_pcs s')).
    pose proof (len_nonneg (hotJobs (ws_m s'))). pose proof (len_nonneg (restJobs (ws_m s'))). lia.
  - intros Hc Hl Hs. destruct (stuck_idle s' Hc Hl Hs) as (E1 & E2 & E3).
    rewrite H1, H2, E1, E2, !app_nil_r. done.
Qed.
End workers.

(** ** The theorems at a concrete manager *)

Definition wit_manager : Manager := NewManager (mkWConfig 2 0 0 false 0 0).

Lemma wit_manager_ok : manager_ok wit_manager.
Proof. by split. Qed.

(** An engine with one keyspace; [engineCache] over a network that never answers. *)
Definition wit_cache : Cache (unit * Engine) := engineCache wit_env 10 wit_ctx.
Definition wit_node0 : unit * Engine := (tt, wit_eng None wit_plain).

Lemma topology_schedules_witness :
  let '(m', _) := OnTopologyChange (Cache0 := wit_cache) wit_manager wit_node0 in
  hotJobs m' = pushed 4096 [] (concat (map (hotAttempts (Cache0 := wit_cache) wit_manager wit_node0) (WarmTargets wit_node0.2))).
Proof.
  pose proof (topology_schedules (Cache0 := wit_cache) (CacheLaws0 := engineCache_laws wit_env 10 wit_ctx)
    wit_manager wit_node0 wit_manager_ok (WarmTargets_names (wit_eng None wit_plain) (wit_eng_ok None wit_plain eq_refl (NewMemory_ok 0 0)))) as H.
  destruct (OnTopologyChange (Cache0 := wit_cache) wit_manager wit_node0) as [m' c']. exact (q_hot _ _ _ _ (proj1 H)).
Defined.

(** One worker is blocked on both queues, one is about to poll. *)
Definition wit_hot : job := prefetchJob [107] [1].
Definition wit_rest : job := prefetchJob [107] [2].
Definition wit_workers : WState (unit * Engine) :=
  mkWState (with_queues wit_manager [wit_hot] [wit_rest]) wit_node0 [Waiting; Polling] false.

Lemma wit_run : exists s', wsteps (Cache0 := wit_cache) wit_workers 2 [(false, wit_rest); (true, wit_hot)] s'.
Proof.
  eexists. eapply (ws_snoc _ 1 [_] _ [_]).
  - eapply (ws_snoc _ 0 [] _ [_]); [apply ws_nil|]. by apply (w_rest wit_workers 0 wit_rest []).
  - by eapply (w_hot _ 1 Polling wit_hot []); [|left|].
Qed.

Lemma hot_jobs_first_witness :
  exists s', wsteps (Cache0 := wit_cache) wit_workers 2 [(false, wit_rest); (true, wit_hot)] s' /\
    len (taken false [(false, wit_rest)]) <= len (filter (fun p => p = Waiting) (ws_pcs wit_workers)).
Proof.
  destruct wit_run as [s' H]. exists s'. split; [exact H|].
  destruct (hot_jobs_first wit_workers 2 _ s' H) as (_ & _ & Hb). exact (Hb [(false, wit_rest)] wit_hot [] eq_refl).
Defined.

Lemma rest_before_hot_witness :
  exists s', wsteps (Cache0 := wit_cache) wit_workers 1 [(false, wit_rest)] s' /\ hotJobs (ws_m s') = [wit_hot].
Proof. exact (rest_before_hot wit_workers 0 wit_hot [] wit_rest [] eq_refl eq_refl eq_refl). Defined.

Lemma workers_drain_witness :
  exists s', wsteps (Cache0 := wit_cache) wit_workers 2 [(false, wit_rest); (true, wit_hot)] s' /\ Z.of_nat 2 <= 12.
Proof.
  destruct wit_run as [s' H]. exists s'. split; [exact H|].
  exact (proj1 (workers_drain wit_workers 2 _ s' H)).
Defined.
