(* ===== verification/Join.v ===== *)
(** * A node that joins

    The hand-off of the warm-up manager, end to end: the entries of a node that
    was there, the jobs the manager queues for them, the calls of the Peer
    service that carry them, and what the joining node holds afterwards. *)
From S2P Require Import Prelude Wire Store StoreInv StoreView StoreProps StoreKinds StoreKindsProps.
From S2P Require Import StoreSafety Ring Hints Config Engine EngineProps Modes ModeOps.
From S2P Require Import ModesInv ModesProps Replication Deltas Mesh MeshProps Tracker Warmup.
From S2P Require Import WarmupProps StoreScalars StoreScalarsProps StoreBehaviour StoreJson Sketches.

Implicit Types (m : Memory) (ks jks : ksRuntime) (e j : Engine) (h : Host) (ent c : Entry) (key k n : bytes) (now gen : Z).

(** ** One call *)

(** What applyToPeer sends for an entry, handled by the engine [j]. *)
Definition receive (now gen : Z) (n : bytes) (j : Engine) (le : LocalEntry) : Engine :=
  match requestFor [] n (le_Key le) (le_Entry le) gen with
  | ApplyPut _ ks key ent gen => (peer_ApplyPut now j ks key (Some ent) gen).2
  | ApplyDelete _ ks key v gen => (peer_ApplyDelete now j ks key v gen).2
  end.

(** What a keyspace of the configuration [C] takes from a peer: a tombstone, a
    plain or negative value, the blob of a typed value, or the bits of a Bloom
    filter of its size. *)
Inductive transferable (C : Config) (ent : Entry) : Prop :=
  | tr_tombstone : IsTombstone ent = true -> transferable C ent
  | tr_plain : Flags ent = 0 -> bytes_ok (Value ent) -> transferable C ent
  | tr_negative : Flags ent = FlagNegative -> bytes_ok (Value ent) -> transferable C ent
  | tr_snapshot : snapshot (EffectiveTopKSize C) (Flags ent) (Value ent) -> bytes_ok (Value ent) -> transferable C ent
  | tr_bloom f : Flags ent = FlagBloom -> Bloom_Open (EffectiveBloomBits C) (EffectiveBloomHashes C) (Value ent) = Some f ->
      transferable C ent.

(** [c] is [ent] as it arrives: a tombstone of the same version, or the same
    value, version and flags with the keyspace's expiry when there was none. *)
Definition arrived (now : Z) ks (ent c : Entry) : Prop :=
  if IsTombstone ent then IsTombstone c = true /\ Version c = Version ent
  else c = at_expiry ent (expiry now ks ent).

(** The engine after a store operation that may only change [name]. *)
Record touched (now : Z) (n name : bytes) e ks e' ks' : Prop := {
  to_ok : engine_ok e';
  to_ks : getKS e' n = Some ks';
  to_cfg : cfg ks' = cfg ks;
  to_keylen : maxKeyLen e' = maxKeyLen e;
  to_ttl : tombstoneTTL (kstore ks') = tombstoneTTL (kstore ks);
  to_sub : forall k c, k <> name -> view now (kstore ks') !! k = Some c -> view now (kstore ks) !! k = Some c;
  to_pinned : forall k c, k <> name -> view now (kstore ks) !! k = Some c -> pinned c = true ->
                view now (kstore ks') !! k = Some c;
}.

(** A store operation that refines a change of one name touches only that name. *)
Lemma touched_by now n name e ks ks0 m s :
  engine_ok e -> getKS e n = Some ks -> reads now (kstore ks) (kstore ks0) -> cfg ks0 = cfg ks ->
  store_ok m -> tombstoneTTL m = tombstoneTTL (kstore ks0) -> refines now s m ->
  (forall k, k <> name -> s !! k = view now (kstore ks) !! k) ->
  touched now n name e ks (with_ks (with_ks e n ks0) n (with_store ks0 m)) (with_store ks0 m).
Proof.
  intros He Hks Hr Hc Hm Ht Href Hs. destruct (He _ _ Hks) as [Hn _]. split; [| |done|done| | |].
  - apply engine_ok_with_ks; [apply engine_ok_with_ks; [done|congruence|apply Hr]|cbn; congruence|done].
  - apply lookup_insert_eq.
  - cbn [kstore with_store]. rewrite Ht. apply Hr.
  - intros k c Hk Hv. rewrite <- Hs by done. cbn [kstore with_store] in Hv. by eapply lookup_weaken, ref_sub.
  - intros k c Hk Hv Hp. cbn [kstore with_store]. apply (ref_pinned _ _ _ Href); [by rewrite Hs|done].
Qed.

(** ApplyPut of an entry whose handler is the store operation [op]. *)
Lemma ApplyPut_store now e n ks (name : bytes) (ent : Entry) (act : hm bool) (op : Memory -> bool * Memory) :
  engine_ok e -> getKS e n = Some ks -> validateKey e n name = None ->
  applyEntry now n name ent = (ObserveVersion now name (Version ent) ≫= fun _ => act) ->
  (forall h, cfg (h_ks h) = cfg ks -> act h = onStore op h) ->
  exists ks0, reads now (kstore ks) (kstore ks0) /\ cfg ks0 = cfg ks /\
    ApplyPutWithRingGen now e n name ent =
      ((op (kstore ks0)).1, None, with_ks (with_ks e n ks0) n (with_store ks0 (op (kstore ks0)).2)).
Proof.
  intros He Hks Hv Hact Hop. destruct (He _ _ Hks) as [Hn Hok].
  destruct (observeVersion_spec now ks name (Version ent) Hok) as (Hr & Hc & _).
  set (ks0 := observeVersion now ks name (Version ent)) in *. set (h0 := mkHost (with_ks e n ks0) ks0).
  exists ks0. split; [done|]. split; [done|]. rewrite (ApplyPut_eq now e n ks), Hact by done.
  rewrite (bind_eq _ _ _ tt h0).
  2:{ unfold ObserveVersion, onKS, h0, ks0, KeyspaceName. cbn [h_e h_ks]. by rewrite Hn. }
  rewrite (Hop h0), onStore_eq by done. unfold h0, KeyspaceName. cbn [h_e h_ks]. by rewrite Hc, Hn.
Qed.

Lemma no_flags now n name ent : Flags ent = 0 -> dispatch ent (handlers now n name ent)
  (onStore (fun m => AcceptIfNewer now m name ent)) = onStore (fun m => AcceptIfNewer now m name ent).
Proof.
  intros Hf. generalize (handlers now n name ent). intros hs. induction hs as [|[f act] hs IH]; [done|].
  cbn [dispatch]. unfold has_flag. rewrite Hf. by rewrite Z.land_0_l.
Qed.

Lemma with_ks_twice e n ks ks' : with_ks (with_ks e n ks) n ks' = with_ks e n ks'.
Proof. unfold with_ks, with_keyspaces. cbn [keyspaces]. by rewrite insert_insert_eq. Qed.

(** Neither accepting nor deleting reaches another key. *)
Lemma insert_live_other now k (ent : Entry) s k' : k' <> k -> insert_live now k ent s !! k' = s !! k'.
Proof. intros Hk. unfold insert_live. destruct (Expired ent now); [by rewrite lookup_delete_ne|by rewrite lookup_insert_ne]. Qed.

(** The tombstone of a deleted key. *)
Lemma receive_tombstone now n j jks key v :
  expiry_fits now (tombstoneTTL (kstore jks)) -> engine_ok j -> getKS j n = Some jks -> validateKey j n key = None ->
  exists jks', touched now n key j jks (peer_ApplyDelete now j n key v 0).2 jks' /\
    (view now (kstore jks) !! key = None ->
     exists c, view now (kstore jks') !! key = Some c /\ IsTombstone c = true /\ Version c = v).
Proof.
  intros Hnow Hj Hks Hkey. destruct (Hj _ _ Hks) as [Hn Hok]. unfold peer_ApplyDelete, ApplyDeleteWithRingGen. rewrite Hkey, Hks.
  destruct (observeVersion_spec now jks key v Hok) as (Hr & Hc & _). set (ks0 := observeVersion now jks key v) in *.
  pose proof (rd_view _ _ _ Hr) as Rv. pose proof (rd_ok _ _ _ Hr) as Ro.
  destruct (DeleteIfVersion_implements now (kstore ks0) key v Ro) as (_ & H2 & H3).
  destruct (DeleteIfVersion_at now (kstore ks0) key v) as (_ & Ht & Hat); [by rewrite (rd_ttl _ _ _ Hr)|done|].
  destruct (DeleteIfVersion now (kstore ks0) key v) as [b m']. cbn [fst snd] in *.
  exists (with_store ks0 m'). split.
  - rewrite <- (with_ks_twice j n ks0). eapply touched_by; try done. intros k Hk. rewrite <- Rv.
    unfold spec_DeleteIfVersion. repeat case_match; cbn [snd]; by rewrite ?insert_live_other.
  - intros Hnone. destruct Hat as [[Hat _]|[_ (c & Hcv & _)]]; [|rewrite Rv in Hcv; congruence].
    by eexists.
Qed.

Lemma unpinned ent : Flags ent = 0 \/ Flags ent = FlagNegative -> pinned ent = false.
Proof.
  intros Hf. unfold pinned, IsTombstone, IsBloom, IsSet, IsZSet, IsGeo, IsList, IsHash, IsCounter, IsJSON, IsBitmap,
    IsHLL, IsTopK, IsCMS, IsVectorSet, IsStream, has_flag. by destruct Hf as [-> | ->].
Qed.

(** ApplyPut of an entry whose handler refines [s], a change of [key] alone. *)
Lemma ApplyPut_touches (now : Z) (n : bytes) j jks (key : bytes) (ent : Entry) (gen : Z) (act : hm bool) (op : Memory -> bool * Memory) (s : Memory -> gmap bytes Entry) :
  engine_ok j -> getKS j n = Some jks -> validateKey j n key = None ->
  applyEntry now n key ent = (ObserveVersion now key (Version ent) ≫= fun _ => act) ->
  (forall h, cfg (h_ks h) = cfg jks -> act h = onStore op h) ->
  (forall m, store_ok m -> refines now (s m) (op m).2 /\ store_ok (op m).2 /\ tombstoneTTL (op m).2 = tombstoneTTL m) ->
  (forall m k, k <> key -> s m !! k = view now m !! k) ->
  exists jks' m0, touched now n key j jks (peer_ApplyPut now j n key (Some ent) gen).2 jks' /\
    view now m0 = view now (kstore jks) /\ refines now (s m0) (kstore jks').
Proof.
  intros Hj Hks Hkey Hact Hop Hspec Hs. unfold peer_ApplyPut. cbn [default from_option id].
  destruct (ApplyPut_store now j n jks key ent act op Hj Hks Hkey Hact Hop) as (ks0 & Hr & Hc & ->). cbn [snd].
  destruct (Hspec (kstore ks0) (rd_ok _ _ _ Hr)) as (Href & Hok' & Ht).
  exists (with_store ks0 (op (kstore ks0)).2), (kstore ks0). split; [|split; [apply Hr|done]].
  eapply touched_by; try done. intros k Hk. by rewrite Hs, (rd_view _ _ _ Hr).
Qed.

(** Merged into a filter without any bits, a filter is itself. *)
Lemma Bloom_Merge_zeros mb kk b f :
  Bloom_Open mb kk b = Some f ->
  exists z, Bloom_Open mb kk (bloom_zeros mb) = Some z /\ Bloom_Merge z f = Some f /\ fbits f = b.
Proof.
  unfold Bloom_Open, bloom_zeros. destruct ((mb <? 8) || (kk <? 1)) eqn:E1; [done|]. apply orb_false_iff in E1 as [E1%Z.ltb_ge _].
  rewrite Z.quot_div_nonneg by lia. assert (0 <= (mb + 7) / 8) by (apply Z.div_pos; lia).
  assert (Hl : len (list.replicate (Z.to_nat ((mb + 7) / 8)) 0 : bytes) = (mb + 7) / 8) by (unfold len; rewrite length_replicate; lia).
  rewrite Hl, Z.eqb_refl. destruct (Z.eqb_spec (len b) ((mb + 7) / 8)) as [E2|]; [|done]. cbn [negb]. intros [= <-].
  eexists. split; [done|]. split; [|done]. unfold Bloom_Merge. cbn [fbits f_m f_k].
  rewrite Hl, E2, !Z.eqb_refl. cbn [negb orb]. do 2 f_equal. unfold len in E2.
  rewrite <- E2, Nat2Z.id. clear. induction b as [|x b IH]; [done|]. cbn. by rewrite IH.
Qed.

Lemma BloomEng_merge_store now name ent mb kk h :
  EffectiveBloomBits (cfg (h_ks h)) = mb -> EffectiveBloomHashes (cfg (h_ks h)) = kk ->
  BloomEng_ApplyMerge now name (Value ent) (Version ent) (ExpireAt ent) h =
    onStore (fun m => BloomMerge now m name (Value ent) mb kk (Version ent) (expiry now (h_ks h) ent)) h.
Proof.
  intros <- <-. unfold BloomEng_ApplyMerge. rewrite (bind_eq BloomMK _ h _ h eq_refl), applyStore_eq. done.
Qed.

(** The bits of a Bloom filter. *)
Lemma receive_bloom now n j jks key ent gen f :
  engine_ok j -> getKS j n = Some jks -> validateKey j n key = None -> live_at now (expiry now jks ent) ->
  Flags ent = FlagBloom -> Bloom_Open (EffectiveBloomBits (cfg jks)) (EffectiveBloomHashes (cfg jks)) (Value ent) = Some f ->
  exists jks', touched now n key j jks (peer_ApplyPut now j n key (Some ent) gen).2 jks' /\
    (view now (kstore jks) !! key = None ->
     view now (kstore jks') !! key = Some (at_expiry ent (expiry now jks ent))).
Proof.
  intros Hj Hks Hkey Hl Hf Hopen. destruct (Bloom_Merge_zeros _ _ _ _ Hopen) as (z & Hz & Hm & Hb).
  set (mb := EffectiveBloomBits (cfg jks)) in *. set (kk := EffectiveBloomHashes (cfg jks)) in *. set (x := expiry now jks ent) in *.
  destruct (ApplyPut_touches now n j jks key ent gen (BloomEng_ApplyMerge now key (Value ent) (Version ent) (ExpireAt ent))
    (fun m => BloomMerge now m key (Value ent) mb kk (Version ent) x)
    (fun m => (spec_bloom now (view now m) key mb kk (Version ent) x (fun g => default g (Bloom_Merge g f))).2))
    as (jks' & m0 & Hto & Hv & Href); try done.
  - apply (applyEntry_pick now n key ent FlagBloom); [handler_at|done].
  - intros h Hc. rewrite (BloomEng_merge_store now key ent mb kk) by (by rewrite Hc). unfold x, expiry. by rewrite Hc.
  - intros m Hok. unfold BloomMerge. rewrite Hopen.
    destruct (bloomMutate_implements now m key mb kk (Version ent) x (fun g => default g (Bloom_Merge g f)) Hok Hl) as (_ & ? & ?).
    split_and!; [done|done|ttl_kept].
  - intros m k Hk. unfold spec_bloom. repeat case_match; cbn [snd]; by rewrite ?lookup_insert_ne, ?lookup_delete_ne.
  - exists jks'. split; [done|]. intros Hnone. apply (ref_pinned _ _ _ Href).
    + unfold spec_bloom. fold (bloom_zeros mb). rewrite Hv, Hnone, Hz, Hm. cbn [snd default from_option id].
      rewrite lookup_insert_eq, Hb. unfold at_expiry. by rewrite Hf.
    + apply bloom_pinned. unfold has_flag. cbn [Flags at_expiry]. by rewrite Hf.
Qed.

(** A value that is not a tombstone. *)
Lemma receive_value now n j jks key ent gen :
  expiry_fits now (TTL (cfg jks)) -> engine_ok j -> getKS j n = Some jks -> validateKey j n key = None ->
  transferable (cfg jks) ent -> IsTombstone ent = false -> Expired ent now = false ->
  exists jks', touched now n key j jks (peer_ApplyPut now j n key (Some ent) gen).2 jks' /\
    (pinned ent = true -> view now (kstore jks) !! key = None ->
     view now (kstore jks') !! key = Some (at_expiry ent (expiry now jks ent))).
Proof.
  intros Hfit Hj Hks Hkey Htr Ht Hexp.
  assert (Hl : live_at now (expiry now jks ent)) by (by apply live_expiry; [apply live_Expired|]).
  destruct Htr as [?|Hf Hb|Hf Hb|Hsn Hb|f Hf Hopen]; [congruence| | | |].
  - destruct (ApplyPut_touches now n j jks key ent gen (onStore (fun m => AcceptIfNewer now m key ent))
      (fun m => AcceptIfNewer now m key ent) (fun m => (spec_AcceptIfNewer now (tooBig m (entryCost key ent)) (view now m) key ent).2))
      as (jks' & _ & Hto & _); try done.
    + unfold applyEntry. by rewrite no_flags.
    + intros m Hok. destruct (AcceptIfNewer_implements now m key ent Hok) as (_ & ? & ?).
      2:{ split_and!; [done|done|]. exact (proj2 (apply_msg_params now m (MPut key ent))). }
      split; [done|]. unfold one_kind, IsBloom, has_flag. by rewrite Hf.
    + intros m k Hk. unfold spec_AcceptIfNewer. case_match; cbn [snd]; by rewrite ?insert_live_other.
    + exists jks'. split; [done|]. by rewrite unpinned by auto.
  - destruct (ApplyPut_touches now n j jks key ent gen (onStore (fun m => AcceptNegative now m key ent))
      (fun m => AcceptNegative now m key ent) (fun m => (spec_AcceptNegative now (tooBig m (entryCost key ent)) (view now m) key ent).2))
      as (jks' & _ & Hto & _); try done.
    + apply (applyEntry_pick now n key ent FlagNegative); [handler_at|done].
    + intros m Hok. destruct (AcceptNegative_implements now m key ent Hok Hf Hb) as (_ & ? & ?).
      split_and!; [done|done|]. unfold AcceptNegative. ttl_kept.
    + intros m k Hk. unfold spec_AcceptNegative. case_match; cbn [snd]; by rewrite ?insert_live_other.
    + exists jks'. split; [done|]. by rewrite unpinned by auto.
  - destruct (snapshot_handler now n key ent jks Hsn Hb) as (op & act & Hin & Hact & Hop).
    destruct (ApplyPut_touches now n j jks key ent gen act (op (expiry now jks ent))
      (fun m => (spec_snapshot (view now m) key (at_expiry ent (expiry now jks ent))).2)) as (jks' & m0 & Hto & Hv & Href); try done.
    + by apply (applyEntry_pick now n key ent (Flags ent)).
    + intros h Hc. rewrite (Hact h Hc), applyStore_eq. unfold expiry. by rewrite Hc.
    + intros m Hok. by destruct (Hop (expiry now jks ent) m Hok Hl) as [(_ & ? & ?) ?].
    + intros m k Hk. unfold spec_snapshot. case_match; cbn [snd]; [by rewrite lookup_insert_ne|done].
    + exists jks'. split; [done|]. intros Hp Hnone. apply (ref_pinned _ _ _ Href); [|by rewrite (pinned_ext _ ent)].
      unfold spec_snapshot, newer_than. rewrite Hv, Hnone. apply lookup_insert_eq.
  - destruct (receive_bloom now n j jks key ent gen f Hj Hks Hkey Hl Hf Hopen) as (jks' & Hto & Hv).
    exists jks'. split; [done|auto].
Qed.

(** The expiries that the keyspace gives out fit int64. *)
Definition expiries_fit (now : Z) ks : Prop := expiry_fits now (TTL (cfg ks)) /\ expiry_fits now (tombstoneTTL (kstore ks)).

(** What the joining node makes of one entry. *)
Lemma receive_touches now gen n j jks le :
  expiries_fit now jks -> engine_ok j -> getKS j n = Some jks -> validateKey j n (le_Key le) = None ->
  transferable (cfg jks) (le_Entry le) -> Expired (le_Entry le) now = false ->
  exists jks', touched now n (le_Key le) j jks (receive now gen n j le) jks' /\
    (pinned (le_Entry le) = true -> view now (kstore jks) !! le_Key le = None ->
     exists c, view now (kstore jks') !! le_Key le = Some c /\ arrived now jks (le_Entry le) c).
Proof.
  intros [Hfit Htfit] Hj Hks Hkey Htr Hexp. unfold receive, requestFor, arrived. destruct (IsTombstone (le_Entry le)) eqn:Et.
  - destruct (receive_tombstone now n j jks (le_Key le) (Version (le_Entry le)) Htfit Hj Hks Hkey) as (jks' & Hto & Hc).
    exists jks'. split; [exact Hto|]. intros _ Hn. by apply Hc.
  - destruct (receive_value now n j jks (le_Key le) (le_Entry le) gen Hfit Hj Hks Hkey Htr Et Hexp) as (jks' & Hto & Hc).
    exists jks'. split; [exact Hto|]. eauto.
Qed.

(** ** All of them *)

(** The joining node after the entries [les], in that order. *)
Definition receiveAll (now gen : Z) (n : bytes) (j : Engine) (les : list LocalEntry) : Engine :=
  fold_left (receive now gen n) les j.

Lemma receive_all now gen n les j jks :
  expiries_fit now jks -> engine_ok j -> getKS j n = Some jks -> NoDup (map le_Key les) ->
  (forall le, le ∈ les -> validateKey j n (le_Key le) = None /\
     transferable (cfg jks) (le_Entry le) /\ Expired (le_Entry le) now = false /\
     view now (kstore jks) !! le_Key le = None) ->
  exists jks', getKS (receiveAll now gen n j les) n = Some jks' /\ cfg jks' = cfg jks /\
    (forall k c, k ∉ map le_Key les -> view now (kstore jks) !! k = Some c -> pinned c = true ->
       view now (kstore jks') !! k = Some c) /\
    (forall le, le ∈ les -> pinned (le_Entry le) = true ->
       exists c, view now (kstore jks') !! le_Key le = Some c /\ arrived now jks (le_Entry le) c).
Proof.
  revert j jks. induction les as [|le les IH]; intros j jks Hfit Hj Hks Hnd Hall.
  { exists jks. split_and!; [done|done|done|]. intros le Hle. by apply elem_of_nil in Hle. }
  cbn [map] in Hnd. inv Hnd. destruct (Hall le ltac:(constructor)) as (Hkey & Htr & Hexp & Hnone).
  destruct (receive_touches now gen n j jks le Hfit Hj Hks Hkey Htr Hexp) as (jks1 & Hto & Harr).
  destruct Hto as [T1 T2 T3 T4 Tt T5 T6]. set (j1 := receive now gen n j le) in *.
  assert (Hother : forall le', le' ∈ les -> le_Key le' <> le_Key le).
  { intros le' Hle' Heq. match goal with H : le_Key le ∉ _ |- _ => apply H end. rewrite <- Heq.
    apply list_elem_of_fmap. by exists le'. }
  destruct (IH j1 jks1 ltac:(unfold expiries_fit; by rewrite T3, Tt) T1 T2) as (jks' & K1 & K2 & K3 & K4); [done| |].
  { intros le' Hle'. destruct (Hall le' ltac:(by constructor)) as (G1 & G2 & G3 & G4).
    rewrite T3. split_and!; [|done|done|].
    - unfold validateKey in *. by rewrite T4.
    - destruct (view now (kstore jks1) !! le_Key le') as [c|] eqn:E; [|done]. apply T5 in E; [congruence|by apply Hother]. }
  exists jks'. cbn [receiveAll fold_left]. split; [exact K1|]. split; [congruence|]. split.
  - intros k c Hk Hv Hp. cbn [map] in Hk. apply not_elem_of_cons in Hk as [Hk1 Hk2]. apply K3; [done| |done]. by apply T6.
  - intros le' [->|Hle']%elem_of_cons Hp.
    + destruct (Harr Hp Hnone) as (c & Hc & Ha). exists c. split; [|done]. apply K3; [done|done|].
      unfold arrived in Ha. destruct (IsTombstone (le_Entry le)) eqn:Et.
      * apply tombstone_pinned, Ha.
      * subst c. by rewrite (pinned_ext _ (le_Entry le)).
    + destruct (K4 le' Hle' Hp) as (c & Hc & Ha). exists c. split; [done|].
      unfold arrived, expiry in *. by rewrite T3 in Ha.
Qed.

(** C7: a node that joins is seeded.  A node [e] learns that the topology
    changed; its manager, with handoff on, no limit on the entries, queues that
    were empty and room in them, queues jobs.  Let every job of a keyspace reach
    a node [j] whose keyspace holds nothing live, each once and in any order, and
    let [j] accept what [e] holds: the names pass its validation, the blobs
    decode, Bloom filters have its size, and the expiries it gives out fit int64.
    Then [j] holds every live typed value of [e], of any of the fourteen kinds,
    with its bytes and version and with its expiry, or the keyspace's when it had
    none, and a tombstone for every key deleted at [e] with the version of the
    delete, whatever the byte budget of [j].  (Plain values may be evicted.) *)
Theorem join_handoff {W} (env : Env W) (w : W) (ctx : Ctx) now gen mg e j n ks jks js :
  engine_ok e -> getKS e n = Some ks -> expiries_fit now jks ->
  manager_ok mg -> hotJobs mg = [] -> restJobs mg = [] ->
  DisableHandoff (wcfg mg) = false -> HandoffMaxEntries (wcfg mg) <= 0 ->
  len (concat (map (hotAttempts (Cache0 := engineCache env now ctx) mg (w, e)) (WarmTargets e))) <= queueCap mg ->
  len (concat (map (restAttempts (Cache0 := engineCache env now ctx) mg (w, e)) (WarmTargets e))) <= queueCap mg ->
  engine_ok j -> getKS j n = Some jks -> view now (kstore jks) = ∅ ->
  (forall k ent, view now (kstore ks) !! k = Some ent ->
     validateKey j n k = None /\ transferable (cfg jks) ent) ->
  let mg' := (OnTopologyChange (Cache0 := engineCache env now ctx) mg (w, e)).1 in
  js ≡ₚ filter (fun x : job => j_kind x = jobHandoff /\ j_keyspace x = n) (hotJobs mg' ++ restJobs mg') ->
  let j' := receiveAll now gen n j (map (fun x => mkLocalEntry (j_key x) (j_entry x)) js) in
  exists jks', getKS j' n = Some jks' /\
    forall k ent, view now (kstore ks) !! k = Some ent -> pinned ent = true ->
      exists c, view now (kstore jks') !! k = Some c /\ arrived now jks ent c.
Proof.
  intros He Hks Hfit Hm Hh Hr Hd Hl Hc1 Hc2 Hj Hjks Hempty Hall mg' Hjs. destruct (He _ _ Hks) as [Hn Hok].
  set (entries := (LocalEntries now e n).1).
  assert (Hent : entriesOf (Cache0 := engineCache env now ctx) (w, e) (warmTarget ks) = entries).
  { unfold entriesOf, entries. cbn. rewrite Hn. by destruct (LocalEntries now e n). }
  pose proof (handoff_complete (Cache0 := engineCache env now ctx) mg (w, e) (warmTarget ks) Hm Hh Hr Hd Hl
    (WarmTargets_names e He) (WarmTargets_elem e n ks Hks)) as Hq. rewrite Hent in Hq.
  assert (Hne : forall le, le ∈ entries -> le_Key le <> []).
  { intros le Hle. apply (LocalEntries_elem now e n ks le Hks Hok) in Hle. destruct (Hall _ _ Hle) as [Hv _].
    intros Hk. rewrite Hk in Hv. unfold validateKey in Hv. by destruct (bool_decide (n = [])). }
  specialize (Hq Hne Hc1 Hc2). fold mg' in Hq. unfold mg' in Hjs.
  destruct (OnTopologyChange mg (w, e)) as [mg1 c1]. cbn [fst] in *. destruct Hq as (_ & _ & Hperm & _).
  change (wt_Name (warmTarget ks)) with (Name (cfg ks)) in Hperm. rewrite Hn in Hperm. rewrite Hperm in Hjs.
  set (les := map (fun x => mkLocalEntry (j_key x) (j_entry x)) js).
  assert (Hles : les ≡ₚ entries).
  { unfold les. rewrite Hjs, map_map. cbn. rewrite (map_ext _ (fun x => x)), map_id by (by intros []). done. }
  destruct (receive_all now gen n les j jks Hfit Hj Hjks) as (jks' & K1 & _ & _ & K4).
  - rewrite Hles. by eapply LocalEntries_NoDup.
  - intros le Hle. rewrite Hles in Hle. apply (LocalEntries_elem now e n ks le Hks Hok) in Hle.
    destruct (Hall _ _ Hle) as [Hv Ht]. rewrite Hempty. split_and!; [done|done| |done].
    rewrite lookup_view in Hle. destruct (Store.items (kstore ks) !! le_Key le) as [it|]; [|done].
    destruct (Expired (entry it) now) eqn:Ex; [done|]. injection Hle as <-. 
    rewrite (Expired_ext _ (entry it)) by (by destruct (flush_item_meta (le_Key le) it) as (_ & -> & _)). done.
  - exists jks'. split; [exact K1|]. intros k ent Hk Hp. apply (K4 (mkLocalEntry k ent)); [|done].
    rewrite Hles. by apply (LocalEntries_elem now e n ks (mkLocalEntry k ent) Hks Hok).
Qed.

(** ** The theorem at a concrete pair of nodes *)

(** A node with one bitmap of version 3, and one without any. *)
Definition wit_stored : Memory := (installPlain FlagBitmap 10 (NewMemory 0 0) [1] [5] 3 0).2.
Definition wit_seeder : Engine := wit_eng None (wit_ks ModeBitmap ∅ wit_stored).
Definition wit_joiner : Engine := wit_eng None (wit_mode ModeBitmap).

Lemma wit_stored_spec : implements 10 (installPlain FlagBitmap 10 (NewMemory 0 0) [1] [5] 3 0)
  (true, {[ [1] := mkEntry [5] 3 0 FlagBitmap ]}).
Proof.
  pose proof (installPlain_implements FlagBitmap 10 (NewMemory 0 0) [1] [5] 3 0 bitmap_flag (NewMemory_ok 0 0) ltac:(by left)) as H.
  exact H.
Qed.

Lemma wit_seeder_ok : engine_ok wit_seeder.
Proof. apply wit_eng_ok; [done|]. apply wit_stored_spec. Qed.

Lemma join_handoff_witness :
  let mg := (OnTopologyChange (Cache0 := engineCache wit_env 10 wit_ctx) wit_manager (tt, wit_seeder)).1 in
  let js := filter (fun x : job => j_kind x = jobHandoff /\ j_keyspace x = [107]) (hotJobs mg ++ restJobs mg) in
  exists jks' c, getKS (receiveAll 10 0 [107] wit_joiner (map (fun x => mkLocalEntry (j_key x) (j_entry x)) js)) [107] = Some jks' /\
    view 10 (kstore jks') !! [1] = Some c /\ Value c = [5] /\ Version c = 3.
Proof.
  intros mg js.
  destruct (join_handoff wit_env tt wit_ctx 10 0 wit_manager wit_seeder wit_joiner [107]
    (wit_ks ModeBitmap ∅ wit_stored) (wit_mode ModeBitmap) js wit_seeder_ok eq_refl ltac:(by split) wit_manager_ok
    eq_refl eq_refl eq_refl ltac:(discriminate) ltac:(vm_compute; discriminate) ltac:(vm_compute; discriminate)
    (wit_eng_ok None (wit_mode ModeBitmap) eq_refl (NewMemory_ok 0 0)) eq_refl eq_refl) as (jks' & H1 & H2).
  - intros k ent Hk.
    assert (Hs : view 10 wit_stored ⊆ {[ [1] := mkEntry [5] 3 0 FlagBitmap ]}) by (apply ref_sub, wit_stored_spec).
    apply (lookup_weaken _ _ _ _ Hk) in Hs. apply lookup_singleton_Some in Hs as [<- <-].
    split; [reflexivity|]. apply tr_snapshot; [apply snap_bitmap|by repeat constructor].
  - reflexivity.
  - destruct (H2 [1] (mkEntry [5] 3 0 FlagBitmap)) as (c & Hc & Ha); [|reflexivity|].
    + apply (ref_pinned 10 {[ [1] := mkEntry [5] 3 0 FlagBitmap ]} wit_stored); [apply wit_stored_spec|apply lookup_singleton_eq|reflexivity].
    + exists jks', c. split; [exact H1|]. split; [exact Hc|]. 
      change (c = at_expiry (mkEntry [5] 3 0 FlagBitmap) (expiry 10 (wit_mode ModeBitmap) (mkEntry [5] 3 0 FlagBitmap))) in Ha.
      rewrite Ha. by split.
Defined.
