(* ===== verification/CacheApi.v ===== *)
(** * The application interface: internal/cacheserver and pkg/client

    The handlers of the Cache service call the engine and turn its results into
    replies and its errors into status codes; the client turns its arguments
    into requests and replies into results.  A handler is a function of the
    engine and the fields of its request; a pair (value, ok) of the source is an
    option here and a presence bit with a zero value on the wire.  The gRPC
    runtime is the argument [delivery]: the request and the reply arrive, or one
    of them is lost and the caller gets a status.  Error texts are left out.
    GeoDist, GeoRadius and HLLCount are in Estimates. *)
From S2P Require Import Prelude Wire Collections Scored Scalars Sketches TopK Stream.
From S2P Require Import Vecset Store Ring Hints Config Engine Modes ModeOps.
From S2P Require Import Mesh.

(** ** Wire types *)

(** int32(n) *)
Definition i32 (x : Z) : Z := let y := x mod 2 ^ 32 in if y <? 2 ^ 31 then y else y - 2 ^ 32.
Definition MaxInt32 : Z := 2 ^ 31 - 1.
Definition MinInt32 : Z := - 2 ^ 31.

(** A presence bit and a value, zero when absent. *)
Definition presence {A} (zero : A) (r : option A) : bool * A :=
  match r with Some a => (true, a) | None => (false, zero) end.
Definition fromPresence {A} (r : bool * A) : option A := if r.1 then Some r.2 else None.

Definition zMembersToProto (l : list ZMember) : list (bytes * float64) := map (fun m => (zm_member m, zm_score m)) l.
Definition zMembersFromProto (l : list (bytes * float64)) : list ZMember :=
  map (fun p => {| zm_member := p.1; zm_score := p.2 |}) l.
Definition engineTopKToProto (l : list TEntry) : list (bytes * Z) := map (fun t => (Item t, Count t)) l.
Definition clientTopK (l : list (bytes * Z)) : list TEntry := map (fun p => mkTEntry p.1 p.2) l.
Definition vsimToProto (l : list Hit) : list (bytes * float32) := map (fun h => (h_member h, h_score h)) l.
Definition vsimFromProto (l : list (bytes * float32)) : list Hit := map (fun p => mkHit p.1 p.2) l.
Definition hashFieldsToProto (l : list (bytes * bytes)) : list (bytes * bytes) := map (fun f => (f.1, f.2)) l.
Definition hashFieldsFromProto (l : list (bytes * bytes)) : list (bytes * bytes) := map (fun f => (f.1, f.2)) l.
Definition streamEntries (l : list (bytes * bytes)) : list (bytes * bytes) := map (fun r => (r.1, r.2)) l.
Definition clientStream (l : list (bytes * bytes)) : list (bytes * bytes) := map (fun r => (r.1, r.2)) l.

(** The peers of a MultiError inside the error of one key. *)
Definition keyErrorToProto (ke : bytes * EngErr) : bytes * list bytes :=
  (ke.1, match ke.2 with MultiError peers => peers | _ => [] end).

(** ** The server *)

Section server.
Context {W : Type} (env : ModeEnv W) (now : Z) (ctx : Ctx).

Definition served {A R} (reply : A -> R) (r : (A + EngErr) * W * Engine) : (R + code) * W * Engine :=
  let '(res, w, e) := r in (match res with inl a => inl (reply a) | inr err => inr (Status err) end, w, e).

Definition ack (_ : unit) : unit := tt.

(** A missing key is a reply. *)
Definition srv_Get (w : W) (e : Engine) (ks key : bytes) : ((bool * bytes) + code) * W * Engine :=
  let '(res, w, e) := Engine_Get (me_base env) now ctx w e ks key in
  (match res with
   | inl v => inl (true, v)
   | inr err => if errorsIs (fun x => match x with ErrNotFound => true | _ => false end) err
                then inl (false, []) else inr (Status err)
   end, w, e).

Definition ttlOpt (ttlNanos : Z) (ttlSet : bool) : option Z := if ttlSet then Some ttlNanos else None.

Definition srv_Put (w : W) (e : Engine) (ks key value : bytes) (ttlNanos : Z) (ttlSet : bool)
    : (unit + code) * W * Engine :=
  let '(err, w, e) := Put (me_base env) now ctx w e ks key value (ttlOpt ttlNanos ttlSet) in
  (match err with Some err => inr (Status err) | None => inl tt end, w, e).

(** The keys that failed are a reply. *)
Definition srv_PutMany (w : W) (e : Engine) (ks : bytes) (items : list (bytes * bytes)) (ttlNanos : Z) (ttlSet : bool)
    : (list (bytes * list bytes) + code) * W * Engine :=
  let '(err, w, e) := PutMany (me_base env) now ctx w e ks (map (fun it => (it.1, it.2)) items) (ttlOpt ttlNanos ttlSet) in
  (match err with
   | None => inl []
   | Some (KeyErrors errs) => inl (map (fun ke => (ke.1, [])) errs)
   | Some err => inr (Status err)
   end, w, e).

(** The peers that failed are a reply. *)
Definition srv_Delete (w : W) (e : Engine) (ks key : bytes) : (list bytes + code) * W * Engine :=
  let '(err, w, e) := Engine_Delete (me_base env) now ctx w e ks key in
  (match err with
   | None => inl []
   | Some (MultiError peers) => inl peers
   | Some err => inr (Status err)
   end, w, e).

Definition srv_DeleteMany (w : W) (e : Engine) (ks : bytes) (keys : list bytes)
    : (list (bytes * list bytes) + code) * W * Engine :=
  let '(err, w, e) := DeleteMany (me_base env) now ctx w e ks keys in
  (match err with
   | None => inl []
   | Some (KeyErrors errs) => inl (map keyErrorToProto errs)
   | Some err => inr (Status err)
   end, w, e).

Definition srv_BloomAdd (w : W) (e : Engine) (ks name : bytes) (item : bytes) : (unit + code) * W * Engine :=
  served ack (Engine_BloomAdd env now ctx w e ks name item).
Definition srv_BloomTest (w : W) (e : Engine) (ks name : bytes) (item : bytes) : (bool + code) * W * Engine :=
  served (fun b => b) (Engine_BloomTest env now ctx w e ks name item).
Definition srv_SetAdd (w : W) (e : Engine) (ks name : bytes) (item : bytes) : (unit + code) * W * Engine :=
  served ack (Engine_SetAdd env now ctx w e ks name item).
Definition srv_SetRemove (w : W) (e : Engine) (ks name : bytes) (item : bytes) : (unit + code) * W * Engine :=
  served ack (Engine_SetRemove env now ctx w e ks name item).
Definition srv_SetContains (w : W) (e : Engine) (ks name : bytes) (item : bytes) : (bool + code) * W * Engine :=
  served (fun b => b) (Engine_SetContains env now ctx w e ks name item).
Definition srv_SetCard (w : W) (e : Engine) (ks name : bytes) : (Z + code) * W * Engine :=
  served (fun n => n) (Engine_SetCard env now ctx w e ks name).
Definition srv_SetMembers (w : W) (e : Engine) (ks name : bytes) : (list bytes + code) * W * Engine :=
  served (fun l => l) (Engine_SetMembers env now ctx w e ks name).
Definition srv_ZAdd (w : W) (e : Engine) (ks name : bytes) (member : bytes) (score : float64) : (unit + code) * W * Engine :=
  served ack (Engine_ZAdd env now ctx w e ks name member score).
Definition srv_ZRem (w : W) (e : Engine) (ks name : bytes) (member : bytes) : (unit + code) * W * Engine :=
  served ack (Engine_ZRem env now ctx w e ks name member).
Definition srv_ZScore (w : W) (e : Engine) (ks name : bytes) (member : bytes) : (bool * float64 + code) * W * Engine :=
  served (presence 0) (Engine_ZScore env now ctx w e ks name member).
Definition srv_ZCard (w : W) (e : Engine) (ks name : bytes) : (Z + code) * W * Engine :=
  served (fun n => n) (Engine_ZCard env now ctx w e ks name).
Definition srv_ZRange (w : W) (e : Engine) (ks name : bytes) (start stop : Z) : (list (bytes * float64) + code) * W * Engine :=
  served zMembersToProto (Engine_ZRange env now ctx w e ks name start stop).
Definition srv_ZRangeByScore (w : W) (e : Engine) (ks name : bytes) (min max : float64) : (list (bytes * float64) + code) * W * Engine :=
  served zMembersToProto (Engine_ZRangeByScore env now ctx w e ks name min max).
Definition srv_GeoAdd (w : W) (e : Engine) (ks name : bytes) (member : bytes) (lon lat : float64) : (unit + code) * W * Engine :=
  served ack (Engine_GeoAdd env now ctx w e ks name member lon lat).
Definition srv_GeoRem (w : W) (e : Engine) (ks name : bytes) (member : bytes) : (unit + code) * W * Engine :=
  served ack (Engine_GeoRem env now ctx w e ks name member).
Definition srv_GeoPos (w : W) (e : Engine) (ks name : bytes) (member : bytes) : (bool * GPoint + code) * W * Engine :=
  served (presence {| g_lon := 0; g_lat := 0 |}) (Engine_GeoPos env now ctx w e ks name member).
Definition srv_GeoCard (w : W) (e : Engine) (ks name : bytes) : (Z + code) * W * Engine :=
  served (fun n => n) (Engine_GeoCard env now ctx w e ks name).
Definition srv_LPush (w : W) (e : Engine) (ks name : bytes) (item : bytes) : (unit + code) * W * Engine :=
  served ack (Engine_LPush env now ctx w e ks name item).
Definition srv_RPush (w : W) (e : Engine) (ks name : bytes) (item : bytes) : (unit + code) * W * Engine :=
  served ack (Engine_RPush env now ctx w e ks name item).
Definition srv_LPop (w : W) (e : Engine) (ks name : bytes) : (bool * bytes + code) * W * Engine :=
  served (presence []) (Engine_LPop env now ctx w e ks name).
Definition srv_RPop (w : W) (e : Engine) (ks name : bytes) : (bool * bytes + code) * W * Engine :=
  served (presence []) (Engine_RPop env now ctx w e ks name).
Definition srv_LLen (w : W) (e : Engine) (ks name : bytes) : (Z + code) * W * Engine :=
  served (fun n => n) (Engine_LLen env now ctx w e ks name).
Definition srv_LIndex (w : W) (e : Engine) (ks name : bytes) (idx : Z) : (bool * bytes + code) * W * Engine :=
  served (presence []) (Engine_LIndex env now ctx w e ks name idx).
Definition srv_LRange (w : W) (e : Engine) (ks name : bytes) (start stop : Z) : (list bytes + code) * W * Engine :=
  served (fun l => l) (Engine_LRange env now ctx w e ks name start stop).
Definition srv_HSet (w : W) (e : Engine) (ks name : bytes) (field value : bytes) : (unit + code) * W * Engine :=
  served ack (Engine_HSet env now ctx w e ks name field value).
Definition srv_HGet (w : W) (e : Engine) (ks name : bytes) (field : bytes) : (bool * bytes + code) * W * Engine :=
  served (presence []) (Engine_HGet env now ctx w e ks name field).
Definition srv_HDel (w : W) (e : Engine) (ks name : bytes) (field : bytes) : (unit + code) * W * Engine :=
  served ack (Engine_HDel env now ctx w e ks name field).
Definition srv_HExists (w : W) (e : Engine) (ks name : bytes) (field : bytes) : (bool + code) * W * Engine :=
  served (fun b => b) (Engine_HExists env now ctx w e ks name field).
Definition srv_HLen (w : W) (e : Engine) (ks name : bytes) : (Z + code) * W * Engine :=
  served (fun n => n) (Engine_HLen env now ctx w e ks name).
Definition srv_HGetAll (w : W) (e : Engine) (ks name : bytes) : (list (bytes * bytes) + code) * W * Engine :=
  served hashFieldsToProto (Engine_HGetAll env now ctx w e ks name).
Definition srv_Incr (w : W) (e : Engine) (ks name : bytes) (delta : Z) : (Z + code) * W * Engine :=
  served (fun n => n) (Engine_Incr env now ctx w e ks name delta).
Definition srv_CounterGet (w : W) (e : Engine) (ks name : bytes) : (bool * Z + code) * W * Engine :=
  served (presence 0) (Engine_CounterGet env now ctx w e ks name).
Definition srv_JsonSet (w : W) (e : Engine) (ks name : bytes) (path value : bytes) : (unit + code) * W * Engine :=
  served ack (Engine_JsonSet env now ctx w e ks name path value).
Definition srv_JsonGet (w : W) (e : Engine) (ks name : bytes) (path : bytes) : (bool * bytes + code) * W * Engine :=
  served (presence []) (Engine_JsonGet env now ctx w e ks name path).
Definition srv_JsonDel (w : W) (e : Engine) (ks name : bytes) (path : bytes) : (unit + code) * W * Engine :=
  served ack (Engine_JsonDel env now ctx w e ks name path).
Definition srv_BitSet (w : W) (e : Engine) (ks name : bytes) (offset : Z) (bit : bool) : (unit + code) * W * Engine :=
  served ack (Engine_BitSet env now ctx w e ks name offset bit).
Definition srv_BitGet (w : W) (e : Engine) (ks name : bytes) (offset : Z) : (bool * bool + code) * W * Engine :=
  served (presence false) (Engine_BitGet env now ctx w e ks name offset).
Definition srv_BitCount (w : W) (e : Engine) (ks name : bytes) (start stop : Z) : (Z + code) * W * Engine :=
  served (fun n => n) (Engine_BitCount env now ctx w e ks name start stop).
Definition srv_BitPos (w : W) (e : Engine) (ks name : bytes) (bit : bool) (start stop : Z) : (bool * Z + code) * W * Engine :=
  served (presence 0) (Engine_BitPos env now ctx w e ks name bit start stop).
Definition srv_HLLAdd (w : W) (e : Engine) (ks name : bytes) (item : bytes) : (unit + code) * W * Engine :=
  served ack (Engine_HLLAdd env now ctx w e ks name item).
Definition srv_TopKAdd (w : W) (e : Engine) (ks name : bytes) (item : bytes) : (unit + code) * W * Engine :=
  served ack (Engine_TopKAdd env now ctx w e ks name item).
Definition srv_TopKList (w : W) (e : Engine) (ks name : bytes) : (bool * list (bytes * Z) + code) * W * Engine :=
  served (fun r => presence [] (engineTopKToProto <$> r)) (Engine_TopKList env now ctx w e ks name).
Definition srv_CMSIncr (w : W) (e : Engine) (ks name : bytes) (item : bytes) (n : Z) : (unit + code) * W * Engine :=
  served ack (Engine_CMSIncr env now ctx w e ks name item n).
Definition srv_CMSQuery (w : W) (e : Engine) (ks name : bytes) (item : bytes) : (bool * Z + code) * W * Engine :=
  served (presence 0) (Engine_CMSQuery env now ctx w e ks name item).
Definition srv_VAdd (w : W) (e : Engine) (ks name : bytes) (member : bytes) (vec : list float32) : (unit + code) * W * Engine :=
  served ack (Engine_VAdd env now ctx w e ks name member vec).
Definition srv_VRem (w : W) (e : Engine) (ks name : bytes) (member : bytes) : (unit + code) * W * Engine :=
  served ack (Engine_VRem env now ctx w e ks name member).
Definition srv_VSim (w : W) (e : Engine) (ks name : bytes) (vec : list float32) (k : Z) : (list (bytes * float32) + code) * W * Engine :=
  served vsimToProto (Engine_VSim env now ctx w e ks name vec k).
Definition srv_VCard (w : W) (e : Engine) (ks name : bytes) : (bool * Z + code) * W * Engine :=
  served (presence 0) (Engine_VCard env now ctx w e ks name).
Definition srv_VDim (w : W) (e : Engine) (ks name : bytes) : (bool * Z + code) * W * Engine :=
  served (fun r => presence 0 (i32 <$> r)) (Engine_VDim env now ctx w e ks name).
Definition srv_VEmb (w : W) (e : Engine) (ks name : bytes) (member : bytes) : (bool * list float32 + code) * W * Engine :=
  served (presence []) (Engine_VEmb env now ctx w e ks name member).
Definition srv_XAdd (w : W) (e : Engine) (ks name : bytes) (payload : bytes) : (bytes + code) * W * Engine :=
  served (fun i => i) (Engine_XAdd env now ctx w e ks name payload).
Definition srv_XRange (w : W) (e : Engine) (ks name : bytes) (start stop : bytes) (count : Z) : (list (bytes * bytes) + code) * W * Engine :=
  served streamEntries (Engine_XRange env now ctx w e ks name start stop count).
Definition srv_XRevRange (w : W) (e : Engine) (ks name : bytes) (start stop : bytes) (count : Z) : (list (bytes * bytes) + code) * W * Engine :=
  served streamEntries (Engine_XRevRange env now ctx w e ks name start stop count).
Definition srv_XLen (w : W) (e : Engine) (ks name : bytes) : (bool * Z + code) * W * Engine :=
  served (presence 0) (Engine_XLen env now ctx w e ks name).
Definition srv_XDel (w : W) (e : Engine) (ks name : bytes) (id : bytes) : (unit + code) * W * Engine :=
  served ack (Engine_XDel env now ctx w e ks name id).
Definition srv_XTrim (w : W) (e : Engine) (ks name : bytes) (maxLen : Z) : (unit + code) * W * Engine :=
  served ack (Engine_XTrim env now ctx w e ks name maxLen).

End server.

(** ** The client *)

(** What the runtime did with a call. *)
Inductive delivery := Delivered | LostRequest (c : code) | LostReply (c : code).

(** ErrNotFound, KeyErrors and PeerFailures of pkg/client, a status error, or a
    refused argument. *)
Inductive CliErr :=
  | CNotFound | CKeyErrors (errs : list (bytes * list bytes)) | CPeerFailures (ids : list bytes)
  | CStatus (c : code) | CInvalidArgument.

Section client.
Context {W : Type} (env : ModeEnv W) (now : Z) (ctx : Ctx).

Definition called {R A} (d : delivery) (decode : R -> A + CliErr) (h : W -> Engine -> (R + code) * W * Engine)
    (w : W) (e : Engine) : (A + CliErr) * W * Engine :=
  match d with
  | LostRequest c => (inr (CStatus c), w, e)
  | Delivered =>
      let '(r, w, e) := h w e in (match r with inl x => decode x | inr c => inr (CStatus c) end, w, e)
  | LostReply c => let '(_, w, e) := h w e in (inr (CStatus c), w, e)
  end.

Definition keyErrorsFromProto (errs : list (bytes * list bytes)) : CliErr :=
  CKeyErrors (map (fun ke => (ke.1, map (fun p => p) ke.2)) errs).
Definition peerFailuresFromProto (ids : list bytes) : CliErr := CPeerFailures (map (fun p => p) ids).

(** if len(resp.Errors) == 0 { return nil } *)
Definition anyOf {R} (toErr : list R -> CliErr) (l : list R) : unit + CliErr :=
  match l with [] => inl tt | _ => inr (toErr l) end.

Definition cli_Get (d : delivery) (w : W) (e : Engine) (ks key : bytes) : (bytes + CliErr) * W * Engine :=
  called d (fun r => if r.1 : bool then inl r.2 else inr CNotFound) (fun w e => srv_Get env now ctx w e ks key) w e.

(** WithTTL: the zero value and a clear bit without the option. *)
Definition cli_Put (d : delivery) (w : W) (e : Engine) (ks key value : bytes) (ttl : option Z) : (unit + CliErr) * W * Engine :=
  called d inl (fun w e => srv_Put env now ctx w e ks key value (default 0 ttl) (bool_decide (is_Some ttl))) w e.

Definition cli_PutMany (d : delivery) (w : W) (e : Engine) (ks : bytes) (items : list (bytes * bytes)) (ttl : option Z)
    : (unit + CliErr) * W * Engine :=
  called d (anyOf keyErrorsFromProto)
    (fun w e => srv_PutMany env now ctx w e ks (map (fun it => (it.1, it.2)) items) (default 0 ttl) (bool_decide (is_Some ttl))) w e.

Definition cli_Delete (d : delivery) (w : W) (e : Engine) (ks key : bytes) : (unit + CliErr) * W * Engine :=
  called d (anyOf peerFailuresFromProto) (fun w e => srv_Delete env now ctx w e ks key) w e.

Definition cli_DeleteMany (d : delivery) (w : W) (e : Engine) (ks : bytes) (keys : list bytes) : (unit + CliErr) * W * Engine :=
  called d (anyOf keyErrorsFromProto) (fun w e => srv_DeleteMany env now ctx w e ks keys) w e.

(** Larger counts are refused before the call. *)
Definition int32Arg (n : Z) : option Z := if MaxInt32 <? n then None else Some (i32 n).

Definition cli_BloomAdd (d : delivery) (w : W) (e : Engine) (ks name : bytes) (item : bytes) : (unit + CliErr) * W * Engine :=
  called d inl (fun w e => srv_BloomAdd env now ctx w e ks name item) w e.
Definition cli_BloomTest (d : delivery) (w : W) (e : Engine) (ks name : bytes) (item : bytes) : (bool + CliErr) * W * Engine :=
  called d inl (fun w e => srv_BloomTest env now ctx w e ks name item) w e.
Definition cli_SetAdd (d : delivery) (w : W) (e : Engine) (ks name : bytes) (item : bytes) : (unit + CliErr) * W * Engine :=
  called d inl (fun w e => srv_SetAdd env now ctx w e ks name item) w e.
Definition cli_SetRemove (d : delivery) (w : W) (e : Engine) (ks name : bytes) (item : bytes) : (unit + CliErr) * W * Engine :=
  called d inl (fun w e => srv_SetRemove env now ctx w e ks name item) w e.
Definition cli_SetContains (d : delivery) (w : W) (e : Engine) (ks name : bytes) (item : bytes) : (bool + CliErr) * W * Engine :=
  called d inl (fun w e => srv_SetContains env now ctx w e ks name item) w e.
Definition cli_SetCard (d : delivery) (w : W) (e : Engine) (ks name : bytes) : (Z + CliErr) * W * Engine :=
  called d inl (fun w e => srv_SetCard env now ctx w e ks name) w e.
Definition cli_SetMembers (d : delivery) (w : W) (e : Engine) (ks name : bytes) : (list bytes + CliErr) * W * Engine :=
  called d inl (fun w e => srv_SetMembers env now ctx w e ks name) w e.
Definition cli_ZAdd (d : delivery) (w : W) (e : Engine) (ks name : bytes) (member : bytes) (score : float64) : (unit + CliErr) * W * Engine :=
  called d inl (fun w e => srv_ZAdd env now ctx w e ks name member score) w e.
Definition cli_ZRem (d : delivery) (w : W) (e : Engine) (ks name : bytes) (member : bytes) : (unit + CliErr) * W * Engine :=
  called d inl (fun w e => srv_ZRem env now ctx w e ks name member) w e.
Definition cli_ZScore (d : delivery) (w : W) (e : Engine) (ks name : bytes) (member : bytes) : (option float64 + CliErr) * W * Engine :=
  called d (fun r => inl (fromPresence r)) (fun w e => srv_ZScore env now ctx w e ks name member) w e.
Definition cli_ZCard (d : delivery) (w : W) (e : Engine) (ks name : bytes) : (Z + CliErr) * W * Engine :=
  called d inl (fun w e => srv_ZCard env now ctx w e ks name) w e.
Definition cli_ZRange (d : delivery) (w : W) (e : Engine) (ks name : bytes) (start stop : Z) : (list ZMember + CliErr) * W * Engine :=
  called d (fun l => inl (zMembersFromProto l)) (fun w e => srv_ZRange env now ctx w e ks name (i32 start) (i32 stop)) w e.
Definition cli_ZRangeByScore (d : delivery) (w : W) (e : Engine) (ks name : bytes) (min max : float64) : (list ZMember + CliErr) * W * Engine :=
  called d (fun l => inl (zMembersFromProto l)) (fun w e => srv_ZRangeByScore env now ctx w e ks name min max) w e.
Definition cli_GeoAdd (d : delivery) (w : W) (e : Engine) (ks name : bytes) (member : bytes) (lon lat : float64) : (unit + CliErr) * W * Engine :=
  called d inl (fun w e => srv_GeoAdd env now ctx w e ks name member lon lat) w e.
Definition cli_GeoRem (d : delivery) (w : W) (e : Engine) (ks name : bytes) (member : bytes) : (unit + CliErr) * W * Engine :=
  called d inl (fun w e => srv_GeoRem env now ctx w e ks name member) w e.
Definition cli_GeoPos (d : delivery) (w : W) (e : Engine) (ks name : bytes) (member : bytes) : (option GPoint + CliErr) * W * Engine :=
  called d (fun r => inl (fromPresence r)) (fun w e => srv_GeoPos env now ctx w e ks name member) w e.
Definition cli_GeoCard (d : delivery) (w : W) (e : Engine) (ks name : bytes) : (Z + CliErr) * W * Engine :=
  called d inl (fun w e => srv_GeoCard env now ctx w e ks name) w e.
Definition cli_LPush (d : delivery) (w : W) (e : Engine) (ks name : bytes) (item : bytes) : (unit + CliErr) * W * Engine :=
  called d inl (fun w e => srv_LPush env now ctx w e ks name item) w e.
Definition cli_RPush (d : delivery) (w : W) (e : Engine) (ks name : bytes) (item : bytes) : (unit + CliErr) * W * Engine :=
  called d inl (fun w e => srv_RPush env now ctx w e ks name item) w e.
Definition cli_LPop (d : delivery) (w : W) (e : Engine) (ks name : bytes) : (option bytes + CliErr) * W * Engine :=
  called d (fun r => inl (fromPresence r)) (fun w e => srv_LPop env now ctx w e ks name) w e.
Definition cli_RPop (d : delivery) (w : W) (e : Engine) (ks name : bytes) : (option bytes + CliErr) * W * Engine :=
  called d (fun r => inl (fromPresence r)) (fun w e => srv_RPop env now ctx w e ks name) w e.
Definition cli_LLen (d : delivery) (w : W) (e : Engine) (ks name : bytes) : (Z + CliErr) * W * Engine :=
  called d inl (fun w e => srv_LLen env now ctx w e ks name) w e.
Definition cli_LIndex (d : delivery) (w : W) (e : Engine) (ks name : bytes) (idx : Z) : (option bytes + CliErr) * W * Engine :=
  called d (fun r => inl (fromPresence r)) (fun w e => srv_LIndex env now ctx w e ks name (i32 idx)) w e.
Definition cli_LRange (d : delivery) (w : W) (e : Engine) (ks name : bytes) (start stop : Z) : (list bytes + CliErr) * W * Engine :=
  called d inl (fun w e => srv_LRange env now ctx w e ks name (i32 start) (i32 stop)) w e.
Definition cli_HSet (d : delivery) (w : W) (e : Engine) (ks name : bytes) (field value : bytes) : (unit + CliErr) * W * Engine :=
  called d inl (fun w e => srv_HSet env now ctx w e ks name field value) w e.
Definition cli_HGet (d : delivery) (w : W) (e : Engine) (ks name : bytes) (field : bytes) : (option bytes + CliErr) * W * Engine :=
  called d (fun r => inl (fromPresence r)) (fun w e => srv_HGet env now ctx w e ks name field) w e.
Definition cli_HDel (d : delivery) (w : W) (e : Engine) (ks name : bytes) (field : bytes) : (unit + CliErr) * W * Engine :=
  called d inl (fun w e => srv_HDel env now ctx w e ks name field) w e.
Definition cli_HExists (d : delivery) (w : W) (e : Engine) (ks name : bytes) (field : bytes) : (bool + CliErr) * W * Engine :=
  called d inl (fun w e => srv_HExists env now ctx w e ks name field) w e.
Definition cli_HLen (d : delivery) (w : W) (e : Engine) (ks name : bytes) : (Z + CliErr) * W * Engine :=
  called d inl (fun w e => srv_HLen env now ctx w e ks name) w e.
Definition cli_HGetAll (d : delivery) (w : W) (e : Engine) (ks name : bytes) : (list (bytes * bytes) + CliErr) * W * Engine :=
  called d (fun l => inl (hashFieldsFromProto l)) (fun w e => srv_HGetAll env now ctx w e ks name) w e.
Definition cli_Incr (d : delivery) (w : W) (e : Engine) (ks name : bytes) (delta : Z) : (Z + CliErr) * W * Engine :=
  called d inl (fun w e => srv_Incr env now ctx w e ks name delta) w e.
Definition cli_CounterGet (d : delivery) (w : W) (e : Engine) (ks name : bytes) : (option Z + CliErr) * W * Engine :=
  called d (fun r => inl (fromPresence r)) (fun w e => srv_CounterGet env now ctx w e ks name) w e.
Definition cli_JsonSet (d : delivery) (w : W) (e : Engine) (ks name : bytes) (path value : bytes) : (unit + CliErr) * W * Engine :=
  called d inl (fun w e => srv_JsonSet env now ctx w e ks name path value) w e.
Definition cli_JsonGet (d : delivery) (w : W) (e : Engine) (ks name : bytes) (path : bytes) : (option bytes + CliErr) * W * Engine :=
  called d (fun r => inl (fromPresence r)) (fun w e => srv_JsonGet env now ctx w e ks name path) w e.
Definition cli_JsonDel (d : delivery) (w : W) (e : Engine) (ks name : bytes) (path : bytes) : (unit + CliErr) * W * Engine :=
  called d inl (fun w e => srv_JsonDel env now ctx w e ks name path) w e.
Definition cli_BitSet (d : delivery) (w : W) (e : Engine) (ks name : bytes) (offset : Z) (bit : bool) : (unit + CliErr) * W * Engine :=
  called d inl (fun w e => srv_BitSet env now ctx w e ks name offset bit) w e.
Definition cli_BitGet (d : delivery) (w : W) (e : Engine) (ks name : bytes) (offset : Z) : (option bool + CliErr) * W * Engine :=
  called d (fun r => inl (fromPresence r)) (fun w e => srv_BitGet env now ctx w e ks name offset) w e.
Definition cli_BitCount (d : delivery) (w : W) (e : Engine) (ks name : bytes) (start stop : Z) : (Z + CliErr) * W * Engine :=
  called d inl (fun w e => srv_BitCount env now ctx w e ks name (i32 start) (i32 stop)) w e.
Definition cli_BitPos (d : delivery) (w : W) (e : Engine) (ks name : bytes) (bit : bool) (start stop : Z) : (option Z + CliErr) * W * Engine :=
  called d (fun r => inl (fromPresence r)) (fun w e => srv_BitPos env now ctx w e ks name bit (i32 start) (i32 stop)) w e.
Definition cli_HLLAdd (d : delivery) (w : W) (e : Engine) (ks name : bytes) (item : bytes) : (unit + CliErr) * W * Engine :=
  called d inl (fun w e => srv_HLLAdd env now ctx w e ks name item) w e.
Definition cli_TopKAdd (d : delivery) (w : W) (e : Engine) (ks name : bytes) (item : bytes) : (unit + CliErr) * W * Engine :=
  called d inl (fun w e => srv_TopKAdd env now ctx w e ks name item) w e.
Definition cli_TopKList (d : delivery) (w : W) (e : Engine) (ks name : bytes) : (option (list TEntry) + CliErr) * W * Engine :=
  called d (fun r => inl (clientTopK <$> fromPresence r)) (fun w e => srv_TopKList env now ctx w e ks name) w e.
Definition cli_CMSIncr (d : delivery) (w : W) (e : Engine) (ks name : bytes) (item : bytes) (n : Z) : (unit + CliErr) * W * Engine :=
  called d inl (fun w e => srv_CMSIncr env now ctx w e ks name item n) w e.
Definition cli_CMSQuery (d : delivery) (w : W) (e : Engine) (ks name : bytes) (item : bytes) : (option Z + CliErr) * W * Engine :=
  called d (fun r => inl (fromPresence r)) (fun w e => srv_CMSQuery env now ctx w e ks name item) w e.
Definition cli_VAdd (d : delivery) (w : W) (e : Engine) (ks name : bytes) (member : bytes) (vec : list float32) : (unit + CliErr) * W * Engine :=
  called d inl (fun w e => srv_VAdd env now ctx w e ks name member vec) w e.
Definition cli_VRem (d : delivery) (w : W) (e : Engine) (ks name : bytes) (member : bytes) : (unit + CliErr) * W * Engine :=
  called d inl (fun w e => srv_VRem env now ctx w e ks name member) w e.
Definition cli_VSim (d : delivery) (w : W) (e : Engine) (ks name : bytes) (vec : list float32) (k : Z) : (list Hit + CliErr) * W * Engine :=
  called d (fun l => inl (vsimFromProto l)) (fun w e => srv_VSim env now ctx w e ks name vec (i32 k)) w e.
Definition cli_VCard (d : delivery) (w : W) (e : Engine) (ks name : bytes) : (option Z + CliErr) * W * Engine :=
  called d (fun r => inl (fromPresence r)) (fun w e => srv_VCard env now ctx w e ks name) w e.
Definition cli_VDim (d : delivery) (w : W) (e : Engine) (ks name : bytes) : (option Z + CliErr) * W * Engine :=
  called d (fun r => inl (fromPresence r)) (fun w e => srv_VDim env now ctx w e ks name) w e.
Definition cli_VEmb (d : delivery) (w : W) (e : Engine) (ks name : bytes) (member : bytes) : (option (list float32) + CliErr) * W * Engine :=
  called d (fun r => inl (fromPresence r)) (fun w e => srv_VEmb env now ctx w e ks name member) w e.
Definition cli_XAdd (d : delivery) (w : W) (e : Engine) (ks name : bytes) (payload : bytes) : (bytes + CliErr) * W * Engine :=
  called d inl (fun w e => srv_XAdd env now ctx w e ks name payload) w e.
Definition cli_XRange (d : delivery) (w : W) (e : Engine) (ks name : bytes) (start stop : bytes) (count : Z) : (list (bytes * bytes) + CliErr) * W * Engine :=
  match int32Arg count with
  | None => (inr CInvalidArgument, w, e)
  | Some count => called d (fun l => inl (clientStream l)) (fun w e => srv_XRange env now ctx w e ks name start stop count) w e
  end.
Definition cli_XRevRange (d : delivery) (w : W) (e : Engine) (ks name : bytes) (start stop : bytes) (count : Z) : (list (bytes * bytes) + CliErr) * W * Engine :=
  match int32Arg count with
  | None => (inr CInvalidArgument, w, e)
  | Some count => called d (fun l => inl (clientStream l)) (fun w e => srv_XRevRange env now ctx w e ks name start stop count) w e
  end.
Definition cli_XLen (d : delivery) (w : W) (e : Engine) (ks name : bytes) : (option Z + CliErr) * W * Engine :=
  called d (fun r => inl (fromPresence r)) (fun w e => srv_XLen env now ctx w e ks name) w e.
Definition cli_XDel (d : delivery) (w : W) (e : Engine) (ks name : bytes) (id : bytes) : (unit + CliErr) * W * Engine :=
  called d inl (fun w e => srv_XDel env now ctx w e ks name id) w e.
Definition cli_XTrim (d : delivery) (w : W) (e : Engine) (ks name : bytes) (maxLen : Z) : (unit + CliErr) * W * Engine :=
  if maxLen <? 0 then (inr CInvalidArgument, w, e)
  else match int32Arg maxLen with
  | None => (inr CInvalidArgument, w, e)
  | Some maxLen => called d inl (fun w e => srv_XTrim env now ctx w e ks name maxLen) w e
  end.

End client.
