(* ===== verification/ApiProps.v ===== *)
(** * The client sees the engine

    [Call] is the type of the client's methods, indexed by their results;
    [clientCall] and [engineCall] run one through the service or directly.  When
    the runtime delivers, the two agree on the result and on the engine that is
    left, for arguments that fit their wire types; two calls whose arguments are
    narrowed without a check show what happens otherwise. *)
From S2P Require Import Prelude Wire Collections Scored Scalars Sketches TopK Stream.
From S2P Require Import Vecset Store Ring Hints Config Engine Modes ModeOps.
From S2P Require Import EngineProps ModesInv ModesProps Mesh MeshProps CacheApi.

(** ** Calls *)

#[warnings="-register-all"]
Inductive Call : Type -> Type :=
  | CallGet (key : bytes) : Call bytes
  | CallPut (key value : bytes) (ttl : option Z) : Call unit
  | CallPutMany (items : list (bytes * bytes)) (ttl : option Z) : Call unit
  | CallDelete (key : bytes) : Call unit
  | CallDeleteMany (keys : list bytes) : Call unit
  | CallBloomAdd (name : bytes) (item : bytes) : Call unit
  | CallBloomTest (name : bytes) (item : bytes) : Call bool
  | CallSetAdd (name : bytes) (item : bytes) : Call unit
  | CallSetRemove (name : bytes) (item : bytes) : Call unit
  | CallSetContains (name : bytes) (item : bytes) : Call bool
  | CallSetCard (name : bytes) : Call Z
  | CallSetMembers (name : bytes) : Call (list bytes)
  | CallZAdd (name : bytes) (member : bytes) (score : float64) : Call unit
  | CallZRem (name : bytes) (member : bytes) : Call unit
  | CallZScore (name : bytes) (member : bytes) : Call (option float64)
  | CallZCard (name : bytes) : Call Z
  | CallZRange (name : bytes) (start stop : Z) : Call (list ZMember)
  | CallZRangeByScore (name : bytes) (min max : float64) : Call (list ZMember)
  | CallGeoAdd (name : bytes) (member : bytes) (lon lat : float64) : Call unit
  | CallGeoRem (name : bytes) (member : bytes) : Call unit
  | CallGeoPos (name : bytes) (member : bytes) : Call (option GPoint)
  | CallGeoCard (name : bytes) : Call Z
  | CallLPush (name : bytes) (item : bytes) : Call unit
  | CallRPush (name : bytes) (item : bytes) : Call unit
  | CallLPop (name : bytes) : Call (option bytes)
  | CallRPop (name : bytes) : Call (option bytes)
  | CallLLen (name : bytes) : Call Z
  | CallLIndex (name : bytes) (idx : Z) : Call (option bytes)
  | CallLRange (name : bytes) (start stop : Z) : Call (list bytes)
  | CallHSet (name : bytes) (field value : bytes) : Call unit
  | CallHGet (name : bytes) (field : bytes) : Call (option bytes)
  | CallHDel (name : bytes) (field : bytes) : Call unit
  | CallHExists (name : bytes) (field : bytes) : Call bool
  | CallHLen (name : bytes) : Call Z
  | CallHGetAll (name : bytes) : Call (list (bytes * bytes))
  | CallIncr (name : bytes) (delta : Z) : Call Z
  | CallCounterGet (name : bytes) : Call (option Z)
  | CallJsonSet (name : bytes) (path value : bytes) : Call unit
  | CallJsonGet (name : bytes) (path : bytes) : Call (option bytes)
  | CallJsonDel (name : bytes) (path : bytes) : Call unit
  | CallBitSet (name : bytes) (offset : Z) (bit : bool) : Call unit
  | CallBitGet (name : bytes) (offset : Z) : Call (option bool)
  | CallBitCount (name : bytes) (start stop : Z) : Call Z
  | CallBitPos (name : bytes) (bit : bool) (start stop : Z) : Call (option Z)
  | CallHLLAdd (name : bytes) (item : bytes) : Call unit
  | CallTopKAdd (name : bytes) (item : bytes) : Call unit
  | CallTopKList (name : bytes) : Call (option (list TEntry))
  | CallCMSIncr (name : bytes) (item : bytes) (n : Z) : Call unit
  | CallCMSQuery (name : bytes) (item : bytes) : Call (option Z)
  | CallVAdd (name : bytes) (member : bytes) (vec : list float32) : Call unit
  | CallVRem (name : bytes) (member : bytes) : Call unit
  | CallVSim (name : bytes) (vec : list float32) (k : Z) : Call (list Hit)
  | CallVCard (name : bytes) : Call (option Z)
  | CallVDim (name : bytes) : Call (option Z)
  | CallVEmb (name : bytes) (member : bytes) : Call (option (list float32))
  | CallXAdd (name : bytes) (payload : bytes) : Call bytes
  | CallXRange (name : bytes) (start stop : bytes) (count : Z) : Call (list (bytes * bytes))
  | CallXRevRange (name : bytes) (start stop : bytes) (count : Z) : Call (list (bytes * bytes))
  | CallXLen (name : bytes) : Call (option Z)
  | CallXDel (name : bytes) (id : bytes) : Call unit
  | CallXTrim (name : bytes) (maxLen : Z) : Call unit.

Definition i32_ok (x : Z) : Prop := MinInt32 <= x <= MaxInt32.

(** The integers that travel as int32 fit. *)
Definition fits_wire {A} (c : Call A) : Prop :=
  match c with
  | CallZRange _ start stop => i32_ok start /\ i32_ok stop
  | CallLIndex _ idx => i32_ok idx
  | CallLRange _ start stop => i32_ok start /\ i32_ok stop
  | CallBitCount _ start stop => i32_ok start /\ i32_ok stop
  | CallBitPos _ _ start stop => i32_ok start /\ i32_ok stop
  | CallVSim _ _ k => i32_ok k
  | CallXRange _ _ _ count => i32_ok count
  | CallXRevRange _ _ _ count => i32_ok count
  | CallXTrim _ maxLen => 0 <= maxLen /\ i32_ok maxLen
  | _ => True
  end.

(** A result without its error, as the engine's methods return it. *)
Definition errOnly {W} (r : option EngErr * W * Engine) : (unit + EngErr) * W * Engine :=
  let '(err, w, e) := r in (match err with Some err => inr err | None => inl tt end, w, e).

Section calls.
Context {W : Type} (env : ModeEnv W) (now : Z) (ctx : Ctx) (ks : bytes).

Definition engineCall {A} (c : Call A) (w : W) (e : Engine) : (A + EngErr) * W * Engine :=
  match c in Call A return (A + EngErr) * W * Engine with
  | CallGet key => Engine_Get (me_base env) now ctx w e ks key
  | CallPut key value ttl => errOnly (Put (me_base env) now ctx w e ks key value ttl)
  | CallPutMany items ttl => errOnly (PutMany (me_base env) now ctx w e ks items ttl)
  | CallDelete key => errOnly (Engine_Delete (me_base env) now ctx w e ks key)
  | CallDeleteMany keys => errOnly (DeleteMany (me_base env) now ctx w e ks keys)
  | CallBloomAdd name item => Engine_BloomAdd env now ctx w e ks name item
  | CallBloomTest name item => Engine_BloomTest env now ctx w e ks name item
  | CallSetAdd name item => Engine_SetAdd env now ctx w e ks name item
  | CallSetRemove name item => Engine_SetRemove env now ctx w e ks name item
  | CallSetContains name item => Engine_SetContains env now ctx w e ks name item
  | CallSetCard name => Engine_SetCard env now ctx w e ks name
  | CallSetMembers name => Engine_SetMembers env now ctx w e ks name
  | CallZAdd name member score => Engine_ZAdd env now ctx w e ks name member score
  | CallZRem name member => Engine_ZRem env now ctx w e ks name member
  | CallZScore name member => Engine_ZScore env now ctx w e ks name member
  | CallZCard name => Engine_ZCard env now ctx w e ks name
  | CallZRange name start stop => Engine_ZRange env now ctx w e ks name start stop
  | CallZRangeByScore name min max => Engine_ZRangeByScore env now ctx w e ks name min max
  | CallGeoAdd name member lon lat => Engine_GeoAdd env now ctx w e ks name member lon lat
  | CallGeoRem name member => Engine_GeoRem env now ctx w e ks name member
  | CallGeoPos name member => Engine_GeoPos env now ctx w e ks name member
  | CallGeoCard name => Engine_GeoCard env now ctx w e ks name
  | CallLPush name item => Engine_LPush env now ctx w e ks name item
  | CallRPush name item => Engine_RPush env now ctx w e ks name item
  | CallLPop name => Engine_LPop env now ctx w e ks name
  | CallRPop name => Engine_RPop env now ctx w e ks name
  | CallLLen name => Engine_LLen env now ctx w e ks name
  | CallLIndex name idx => Engine_LIndex env now ctx w e ks name idx
  | CallLRange name start stop => Engine_LRange env now ctx w e ks name start stop
  | CallHSet name field value => Engine_HSet env now ctx w e ks name field value
  | CallHGet name field => Engine_HGet env now ctx w e ks name field
  | CallHDel name field => Engine_HDel env now ctx w e ks name field
  | CallHExists name field => Engine_HExists env now ctx w e ks name field
  | CallHLen name => Engine_HLen env now ctx w e ks name
  | CallHGetAll name => Engine_HGetAll env now ctx w e ks name
  | CallIncr name delta => Engine_Incr env now ctx w e ks name delta
  | CallCounterGet name => Engine_CounterGet env now ctx w e ks name
  | CallJsonSet name path value => Engine_JsonSet env now ctx w e ks name path value
  | CallJsonGet name path => Engine_JsonGet env now ctx w e ks name path
  | CallJsonDel name path => Engine_JsonDel env now ctx w e ks name path
  | CallBitSet name offset bit => Engine_BitSet env now ctx w e ks name offset bit
  | CallBitGet name offset => Engine_BitGet env now ctx w e ks name offset
  | CallBitCount name start stop => Engine_BitCount env now ctx w e ks name start stop
  | CallBitPos name bit start stop => Engine_BitPos env now ctx w e ks name bit start stop
  | CallHLLAdd name item => Engine_HLLAdd env now ctx w e ks name item
  | CallTopKAdd name item => Engine_TopKAdd env now ctx w e ks name item
  | CallTopKList name => Engine_TopKList env now ctx w e ks name
  | CallCMSIncr name item n => Engine_CMSIncr env now ctx w e ks name item n
  | CallCMSQuery name item => Engine_CMSQuery env now ctx w e ks name item
  | CallVAdd name member vec => Engine_VAdd env now ctx w e ks name member vec
  | CallVRem name member => Engine_VRem env now ctx w e ks name member
  | CallVSim name vec k => Engine_VSim env now ctx w e ks name vec k
  | CallVCard name => Engine_VCard env now ctx w e ks name
  | CallVDim name => Engine_VDim env now ctx w e ks name
  | CallVEmb name member => Engine_VEmb env now ctx w e ks name member
  | CallXAdd name payload => Engine_XAdd env now ctx w e ks name payload
  | CallXRange name start stop count => Engine_XRange env now ctx w e ks name start stop count
  | CallXRevRange name start stop count => Engine_XRevRange env now ctx w e ks name start stop count
  | CallXLen name => Engine_XLen env now ctx w e ks name
  | CallXDel name id => Engine_XDel env now ctx w e ks name id
  | CallXTrim name maxLen => Engine_XTrim env now ctx w e ks name maxLen
  end.

Definition clientCall {A} (d : delivery) (c : Call A) (w : W) (e : Engine) : (A + CliErr) * W * Engine :=
  match c in Call A return (A + CliErr) * W * Engine with
  | CallGet key => cli_Get env now ctx d w e ks key
  | CallPut key value ttl => cli_Put env now ctx d w e ks key value ttl
  | CallPutMany items ttl => cli_PutMany env now ctx d w e ks items ttl
  | CallDelete key => cli_Delete env now ctx d w e ks key
  | CallDeleteMany keys => cli_DeleteMany env now ctx d w e ks keys
  | CallBloomAdd name item => cli_BloomAdd env now ctx d w e ks name item
  | CallBloomTest name item => cli_BloomTest env now ctx d w e ks name item
  | CallSetAdd name item => cli_SetAdd env now ctx d w e ks name item
  | CallSetRemove name item => cli_SetRemove env now ctx d w e ks name item
  | CallSetContains name item => cli_SetContains env now ctx d w e ks name item
  | CallSetCard name => cli_SetCard env now ctx d w e ks name
  | CallSetMembers name => cli_SetMembers env now ctx d w e ks name
  | CallZAdd name member score => cli_ZAdd env now ctx d w e ks name member score
  | CallZRem name member => cli_ZRem env now ctx d w e ks name member
  | CallZScore name member => cli_ZScore env now ctx d w e ks name member
  | CallZCard name => cli_ZCard env now ctx d w e ks name
  | CallZRange name start stop => cli_ZRange env now ctx d w e ks name start stop
  | CallZRangeByScore name min max => cli_ZRangeByScore env now ctx d w e ks name min max
  | CallGeoAdd name member lon lat => cli_GeoAdd env now ctx d w e ks name member lon lat
  | CallGeoRem name member => cli_GeoRem env now ctx d w e ks name member
  | CallGeoPos name member => cli_GeoPos env now ctx d w e ks name member
  | CallGeoCard name => cli_GeoCard env now ctx d w e ks name
  | CallLPush name item => cli_LPush env now ctx d w e ks name item
  | CallRPush name item => cli_RPush env now ctx d w e ks name item
  | CallLPop name => cli_LPop env now ctx d w e ks name
  | CallRPop name => cli_RPop env now ctx d w e ks name
  | CallLLen name => cli_LLen env now ctx d w e ks name
  | CallLIndex name idx => cli_LIndex env now ctx d w e ks name idx
  | CallLRange name start stop => cli_LRange env now ctx d w e ks name start stop
  | CallHSet name field value => cli_HSet env now ctx d w e ks name field value
  | CallHGet name field => cli_HGet env now ctx d w e ks name field
  | CallHDel name field => cli_HDel env now ctx d w e ks name field
  | CallHExists name field => cli_HExists env now ctx d w e ks name field
  | CallHLen name => cli_HLen env now ctx d w e ks name
  | CallHGetAll name => cli_HGetAll env now ctx d w e ks name
  | CallIncr name delta => cli_Incr env now ctx d w e ks name delta
  | CallCounterGet name => cli_CounterGet env now ctx d w e ks name
  | CallJsonSet name path value => cli_JsonSet env now ctx d w e ks name path value
  | CallJsonGet name path => cli_JsonGet env now ctx d w e ks name path
  | CallJsonDel name path => cli_JsonDel env now ctx d w e ks name path
  | CallBitSet name offset bit => cli_BitSet env now ctx d w e ks name offset bit
  | CallBitGet name offset => cli_BitGet env now ctx d w e ks name offset
  | CallBitCount name start stop => cli_BitCount env now ctx d w e ks name start stop
  | CallBitPos name bit start stop => cli_BitPos env now ctx d w e ks name bit start stop
  | CallHLLAdd name item => cli_HLLAdd env now ctx d w e ks name item
  | CallTopKAdd name item => cli_TopKAdd env now ctx d w e ks name item
  | CallTopKList name => cli_TopKList env now ctx d w e ks name
  | CallCMSIncr name item n => cli_CMSIncr env now ctx d w e ks name item n
  | CallCMSQuery name item => cli_CMSQuery env now ctx d w e ks name item
  | CallVAdd name member vec => cli_VAdd env now ctx d w e ks name member vec
  | CallVRem name member => cli_VRem env now ctx d w e ks name member
  | CallVSim name vec k => cli_VSim env now ctx d w e ks name vec k
  | CallVCard name => cli_VCard env now ctx d w e ks name
  | CallVDim name => cli_VDim env now ctx d w e ks name
  | CallVEmb name member => cli_VEmb env now ctx d w e ks name member
  | CallXAdd name payload => cli_XAdd env now ctx d w e ks name payload
  | CallXRange name start stop count => cli_XRange env now ctx d w e ks name start stop count
  | CallXRevRange name start stop count => cli_XRevRange env now ctx d w e ks name start stop count
  | CallXLen name => cli_XLen env now ctx d w e ks name
  | CallXDel name id => cli_XDel env now ctx d w e ks name id
  | CallXTrim name maxLen => cli_XTrim env now ctx d w e ks name maxLen
  end.


(** ** What the caller should see *)

Definition wrapsNotFound (err : EngErr) : bool :=
  errorsIs (fun x => match x with ErrNotFound => true | _ => false end) err.

(** The result of a call whose errors have no form of their own: the error's code. *)
Definition plainView {A} (r : A + EngErr) : A + CliErr :=
  match r with inl a => inl a | inr err => inr (CStatus (Status err)) end.

(** The keys or peers that failed come back as such, a miss as ErrNotFound; a
    dimension travels as an int32. *)
Definition clientView {A} (c : Call A) : A + EngErr -> A + CliErr :=
  match c in Call A return A + EngErr -> A + CliErr with
  | CallGet _ => fun r =>
      match r with inr err => if wrapsNotFound err then inr CNotFound else plainView r | _ => plainView r end
  | CallPutMany _ _ => fun r =>
      match r with
      | inr (KeyErrors []) => inl tt
      | inr (KeyErrors errs) => inr (CKeyErrors (map (fun ke => (ke.1, [])) errs))
      | _ => plainView r
      end
  | CallDelete _ => fun r =>
      match r with
      | inr (MultiError []) => inl tt
      | inr (MultiError peers) => inr (CPeerFailures peers)
      | _ => plainView r
      end
  | CallDeleteMany _ => fun r =>
      match r with
      | inr (KeyErrors []) => inl tt
      | inr (KeyErrors errs) => inr (CKeyErrors (map keyErrorToProto errs))
      | _ => plainView r
      end
  | CallVDim _ => fun r => plainView (match r with inl d => inl (i32 <$> d) | inr err => inr err end)
  | _ => plainView
  end.

(** A call through the service [call] against the engine's result [r] from [w]
    and [e]: delivered, it gives the view of the result; a lost reply leaves
    the engine's effect and a lost request nothing. *)
Definition transparent {A} (view : A + EngErr -> A + CliErr) (w : W) (e : Engine)
    (call : delivery -> (A + CliErr) * W * Engine) (r : (A + EngErr) * W * Engine) : Prop :=
  call Delivered = (view r.1.1, r.1.2, r.2) /\
  forall c, call (LostReply c) = (inr (CStatus c), r.1.2, r.2) /\ call (LostRequest c) = (inr (CStatus c), w, e).

(** ** Wire lemmas *)

Lemma i32_fits (x : Z) : i32_ok x -> i32 x = x.
Proof.
  unfold i32_ok, i32, MinInt32, MaxInt32. intros H.
  destruct (Z_lt_le_dec x 0).
  - replace (x mod 2 ^ 32) with (x + 2 ^ 32) by (apply (Z.mod_unique _ _ (-1)); lia). case_match; lia.
  - rewrite Z.mod_small by lia. case_match; lia.
Qed.

Lemma not_negative (n : Z) : 0 <= n -> (n <? 0) = false.
Proof. intros. by apply Z.ltb_ge. Qed.

Lemma int32Arg_fits (n : Z) : i32_ok n -> int32Arg n = Some n.
Proof. intros H. unfold int32Arg. rewrite i32_fits by done. case_match; [|done]. unfold i32_ok in H. lia. Qed.

Lemma fromPresence_presence {B} (zero : B) (r : option B) : fromPresence (presence zero r) = r.
Proof. by destruct r. Qed.

Lemma map_inverse {B C} (f : B -> C) (g : C -> B) (l : list B) : (forall b, g (f b) = b) -> map g (map f l) = l.
Proof. intros H. rewrite map_map. rewrite <- (map_id l) at 2. apply map_ext, H. Qed.
Lemma zMembers_wire (l : list ZMember) : zMembersFromProto (zMembersToProto l) = l.
Proof. apply map_inverse. by intros []. Qed.
Lemma vsim_wire (l : list Hit) : vsimFromProto (vsimToProto l) = l.
Proof. apply map_inverse. by intros []. Qed.
Lemma pairs_wire {B C} (l : list (B * C)) : map (fun p => (p.1, p.2)) l = l.
Proof. rewrite <- (map_id l) at 2. apply map_ext. by intros []. Qed.
Lemma topk_wire (r : option (list TEntry)) : clientTopK <$> fromPresence (presence [] (engineTopKToProto <$> r)) = r.
Proof. destruct r as [l|]; [|done]. cbn. f_equal. apply map_inverse. by intros []. Qed.
Lemma hashFields_wire (l : list (bytes * bytes)) : hashFieldsFromProto (hashFieldsToProto l) = l.
Proof. unfold hashFieldsFromProto, hashFieldsToProto. by rewrite !pairs_wire. Qed.
Lemma stream_wire (l : list (bytes * bytes)) : clientStream (streamEntries l) = l.
Proof. unfold clientStream, streamEntries. by rewrite !pairs_wire. Qed.
Lemma ttl_wire (ttl : option Z) : ttlOpt (default 0 ttl) (bool_decide (is_Some ttl)) = ttl.
Proof. by destruct ttl. Qed.

(** ** Transparency of one call *)

(** A handler [h] that runs [f] and packs its result. *)
Lemma transparent_by {A B R} (decode : R -> A + CliErr) (pack : B -> R + code) (unpack : B -> A + EngErr) view
    (f : W -> Engine -> B * W * Engine) (w : W) (e : Engine) :
  (forall b, match pack b with inl x => decode x | inr c => inr (CStatus c) end = view (unpack b)) ->
  transparent view w e (fun d => called d decode (fun w e => let '(b, w, e) := f w e in (pack b, w, e)) w e)
    (let '(b, w, e) := f w e in (unpack b, w, e)).
Proof. intros H. unfold transparent, called. destruct (f w e) as [[b w1] e1]. by rewrite H. Qed.


(** A handler that only re-packs, and a client that undoes it. *)
Lemma transparent_served {A R} (decode : R -> A + CliErr) (reply : A -> R)
    (f : W -> Engine -> (A + EngErr) * W * Engine) (w : W) (e : Engine) :
  (forall a, decode (reply a) = inl a) ->
  transparent plainView w e (fun d => called d decode (fun w e => served reply (f w e)) w e) (f w e).
Proof.
  intros H. unfold transparent, called, served. destruct (f w e) as [[[a|err] w1] e1]; by rewrite ?H.
Qed.

Lemma keyErrors_view (errs : list (bytes * list bytes)) :
  anyOf keyErrorsFromProto errs = match errs with [] => inl tt | _ => inr (CKeyErrors errs) end.
Proof.
  unfold anyOf, keyErrorsFromProto. destruct errs as [|ke errs]; [done|]. do 2 f_equal.
  rewrite <- (map_id (ke :: errs)) at 2. apply map_ext. intros [k ids]. cbn [fst snd]. by rewrite map_id.
Qed.

(** The calls with error forms of their own. *)
Lemma core_transparent {A} (c : Call A) (w : W) (e : Engine) :
  match c with CallGet _ | CallPut _ _ _ | CallPutMany _ _ | CallDelete _ | CallDeleteMany _ => True | _ => False end ->
  transparent (clientView c) w e (fun d => clientCall d c w e) (engineCall c w e).
Proof.
  destruct c; intros []; cbn [clientCall engineCall clientView].
  - unfold transparent, called, cli_Get, called, srv_Get.
    destruct (Engine_Get _ _ _ _ _ _ _) as [[[v|err] w1] e1]; [done|]. 
    cbn [fst snd]. unfold wrapsNotFound. by destruct (errorsIs _ err).
  - unfold cli_Put, srv_Put, errOnly. rewrite ttl_wire.
    apply (transparent_by inl (fun err => match err with Some err => inr (Status err) | None => inl tt end)). by intros [err|].
  - unfold cli_PutMany, srv_PutMany, errOnly. rewrite ttl_wire, !pairs_wire.
    apply (transparent_by (anyOf keyErrorsFromProto) (fun err => match err with
      | None => inl [] | Some (KeyErrors errs) => inl (map (fun ke => (ke.1, [])) errs) | Some err => inr (Status err) end)).
    intros [[]|]; try done. rewrite keyErrors_view. by destruct errs.
  - unfold cli_Delete, srv_Delete, errOnly.
    apply (transparent_by (anyOf peerFailuresFromProto) (fun err => match err with
      | None => inl [] | Some (MultiError peers) => inl peers | Some err => inr (Status err) end)).
    intros [[]|]; try done. unfold anyOf, peerFailuresFromProto. rewrite map_id. by case_match.
  - unfold cli_DeleteMany, srv_DeleteMany, errOnly.
    apply (transparent_by (anyOf keyErrorsFromProto) (fun err => match err with
      | None => inl [] | Some (KeyErrors errs) => inl (map keyErrorToProto errs) | Some err => inr (Status err) end)).
    intros [[]|]; try done. rewrite keyErrors_view. by destruct errs.
Qed.

Lemma vdim_transparent (name : bytes) (w : W) (e : Engine) :
  transparent (clientView (CallVDim name)) w e (fun d => clientCall d (CallVDim name) w e) (engineCall (CallVDim name) w e).
Proof.
  unfold transparent. cbn [clientCall engineCall clientView]. unfold cli_VDim, called, srv_VDim, served.
  destruct (Engine_VDim _ _ _ _ _ _ _) as [[[d|err] w1] e1]; cbn; by rewrite ?fromPresence_presence.
Qed.

End calls.

(** ** The client sees the engine *)

Create Rewrite HintDb wire.
#[export] Hint Rewrite @fromPresence_presence zMembers_wire vsim_wire topk_wire hashFields_wire stream_wire : wire.
#[export] Hint Rewrite i32_fits int32Arg_fits not_negative using done : wire.

(** One call: find the engine's operation, then undo the packing. *)
Ltac repack :=
  match goal with
  | |- transparent _ ?w ?e _ ?r =>
      let r' := eval pattern w, e in r in
      match r' with
      | ?run _ _ => apply transparent_served with (f := run); intros a; cbv beta; autorewrite with wire; first [reflexivity | by destruct a]
      end
  end.

(** C8: a call through pkg/client and the Cache service, whose int32 arguments
    fit, has the effect of the engine's own operation and the caller gets the
    engine's result: the value unchanged, a miss as ErrNotFound, the failed keys
    and peers as KeyErrors and PeerFailures, any other error as its status code.
    When the reply is lost the engine has done the operation all the same, and
    when the request is lost it has done nothing; the caller then gets the
    runtime's code. *)
Theorem client_exact {W A} (env : ModeEnv W) (now : Z) (ctx : Ctx) (ks : bytes) (c : Call A) (w : W) (e : Engine) :
  fits_wire c ->
  transparent (clientView c) w e (fun d => clientCall env now ctx ks d c w e) (engineCall env now ctx ks c w e).
Proof.
  destruct c; intros Hfit; try (by apply core_transparent); try apply vdim_transparent;
    cbn [clientCall engineCall clientView fits_wire] in *.
  all: unfold cli_ZRange, cli_LIndex, cli_LRange, cli_BitCount, cli_BitPos, cli_VSim, cli_XRange, cli_XRevRange, cli_XTrim;
    repeat match goal with H : _ /\ _ |- _ => destruct H end; autorewrite with wire;
    repack.
Qed.

(** ** Witnesses *)

Definition wit_api : ModeEnv Mesh := mesh 10 wit_ctx wit_source 1.
Definition wit_list : Mesh * Engine :=
  let '(_, w, e) := engineCall wit_api 10 wit_ctx [107] (CallRPush [2] [9]) ∅ (wit_node ModeList [97]) in (w, e).

Lemma client_exact_witness :
  fits_wire (CallLRange [2] 0 (-1)) /\
  (clientCall wit_api 10 wit_ctx [107] Delivered (CallLRange [2] 0 (-1)) wit_list.1 wit_list.2).1.1 = inl [[9]].
Proof.
  assert (H : fits_wire (CallLRange [2] 0 (-1))) by (split; split; vm_compute; discriminate).
  split; [exact H|].
  rewrite (proj1 (client_exact wit_api 10 wit_ctx [107] (CallLRange [2] 0 (-1)) wit_list.1 wit_list.2 H)).
  vm_compute. reflexivity.
Defined.

(** A stop index of 2^31 is narrowed to -2^31 by the client: the engine's range
    of a list of one item is the item, the client's is empty. *)
Theorem narrowed_range :
  (engineCall wit_api 10 wit_ctx [107] (CallLRange [2] 0 (2 ^ 31)) wit_list.1 wit_list.2).1.1 = inl [[9]] /\
  (clientCall wit_api 10 wit_ctx [107] Delivered (CallLRange [2] 0 (2 ^ 31)) wit_list.1 wit_list.2).1.1 = inl [].
Proof. split; vm_compute; reflexivity. Qed.
