(* ===== verification/Estimates.v ===== *)
(** * Distances and estimates: the floating-point reads

    geo.Haversine, Dist and Radius, hllx.Count, and the store, engine, server
    and client methods that return them.  Sums, products, quotients and square
    roots are those of IEEE binary64 without fused multiply-add, on bit
    patterns; sin, cos, asin and log of the math package, which IEEE does not
    determine, and the conversion of a float64 beyond uint64 are the record [Math]
    of arguments.  Radius is shown to return
    exactly the members within the radius, nearest first, and Count to depend on
    the set of items only. *)
From Stdlib Require Import SpecFloat.
From S2P Require Import Prelude Wire Scored Scalars Sketches Vecset Store StoreKinds.
From S2P Require Import StoreScalars Ring Hints Config Engine Modes ModeOps Mesh.
From S2P Require Import CacheApi ApiProps.

(** ** float64 *)

Definition f64_bits (x : spec_float) : float64 :=
  let bit (s : bool) := if s then sign_bit else 0 in
  match x with
  | S754_nan => 0x7FF8000000000001
  | S754_infinity s => bit s + f64_inf
  | S754_zero s => bit s
  | S754_finite s m e =>
      if Zpos m <? 2 ^ 52 then bit s + Zpos m else bit s + (e + 1075) * 2 ^ 52 + (Zpos m - 2 ^ 52)
  end.

Definition f64_value (x : float64) : spec_float :=
  let s := negb (x <? sign_bit) in
  let e := f64_mag x / 2 ^ 52 in
  let f := f64_mag x mod 2 ^ 52 in
  if e =? 2047 then if f =? 0 then S754_infinity s else S754_nan
  else if e =? 0 then binary_normalize 53 1024 (signed s f) (-1074) s
  else binary_normalize 53 1024 (signed s (2 ^ 52 + f)) (e - 1075) s.

Definition bin64 (op : spec_float -> spec_float -> spec_float) (x y : float64) : float64 :=
  f64_bits (op (f64_value x) (f64_value y)).
Definition f_add := bin64 add64.
Definition f_sub := bin64 sub64.
Definition f_mul := bin64 mul64.
Definition f_div := bin64 div64.
Definition f_sqrt (x : float64) : float64 := f64_bits (sqrt64 (f64_value x)).
Definition f_int (z : Z) : float64 := f64_bits (binary_normalize 53 1024 z 0 false).

Definition f_Pi : float64 := 0x400921FB54442D18.
Definition f_1 : float64 := 0x3FF0000000000000.
Definition f_2 : float64 := 0x4000000000000000.
(** 2 * EarthRadiusM, folded by the compiler. *)
Definition f_2R : float64 := 0x41684DB033333333.

(** math.Min(1, x) *)
Definition f_min1 (x : float64) : float64 := if IsNaN x then f64_bits S754_nan else if f64_lt f_1 x then f_1 else x.

Record Math := mkMath {
  math_Sin : float64 -> float64;
  math_Cos : float64 -> float64;
  math_Asin : float64 -> float64;
  math_Log : float64 -> float64;
  unfit : float64 -> Z;
}.

(** uint64(math.Floor(x)).  The language leaves the conversion of a value that
    does not fit to the implementation: that is [unfit]. *)
Definition f_uint (M : Math) (x : float64) : Z :=
  match f64_value x with
  | S754_finite false m e =>
      let v := if 0 <=? e then Zpos m * 2 ^ e else Zpos m / 2 ^ (- e) in
      if v <=? MaxUint64 then v else unfit M x
  | S754_zero _ => 0
  | _ => unfit M x
  end.

Section estimates.
Context (M : Math).

(** ** geo.go *)

Definition radians (x : float64) : float64 := f_div (f_mul x f_Pi) f64_180.

Definition Haversine (lon1 lat1 lon2 lat2 : float64) : float64 :=
  let p1 := radians lat1 in
  let p2 := radians lat2 in
  let sinP := math_Sin M (f_div (radians (f_sub lat2 lat1)) f_2) in
  let sinL := math_Sin M (f_div (radians (f_sub lon2 lon1)) f_2) in
  let h := f_add (f_mul sinP sinP) (f_mul (f_mul (f_mul (math_Cos M p1) (math_Cos M p2)) sinL) sinL) in
  f_mul f_2R (math_Asin M (f_min1 (f_sqrt h))).

Definition Geo_Dist (g : GeoT) (a b : bytes) : option float64 :=
  match Geo_Pos g a, Geo_Pos g b with
  | Some pa, Some pb => Some (Haversine (g_lon pa) (g_lat pa) (g_lon pb) (g_lat pb))
  | _, _ => None
  end.

Record GeoMember := mkGeoMember { gm_member : bytes; gm_lon : float64; gm_lat : float64; gm_dist : float64 }.

(** The [less] of sort.Slice: by distance, then by name. *)
Definition gless (a b : GeoMember) : bool :=
  if negb (f64_eq (gm_dist a) (gm_dist b)) then f64_lt (gm_dist a) (gm_dist b) else bytes_ltb (gm_member a) (gm_member b).

Definition gle (a b : GeoMember) : Prop := gless b a = false.
#[global] Instance gle_dec : RelDecision gle.
Proof. intros a b. unfold gle. apply _. Defined.

Definition measured (lon lat : float64) (kp : bytes * GPoint) : GeoMember :=
  mkGeoMember kp.1 (g_lon kp.2) (g_lat kp.2) (Haversine lon lat (g_lon kp.2) (g_lat kp.2)).

(** Go ranges over the map; the sort makes the order the one below. *)
Definition Geo_Radius (g : GeoT) (lon lat radiusM : float64) (limit : Z) : list GeoMember :=
  let out := merge_sort gle (filter (fun m => f64_lt radiusM (gm_dist m) = false) (map (measured lon lat) (map_to_list g))) in
  if (0 <? limit) && (limit <? len out) then take (Z.to_nat limit) out else out.

(** ** hllx.go *)

(** math.Ldexp(1, -r) for a register *)
Definition f_pow (r : Z) : float64 := (1023 - r) * 2 ^ 52.

Definition f_m : float64 := f_int Registers.

(** The number of zero registers and the raw estimate. *)
Definition hll_raw (rs : list Z) : Z * float64 :=
  let zeros := len (filter (fun r => r = 0) rs) in
  let sum := fold_left (fun sum r => f_add sum (f_pow r)) rs 0 in
  let alpha := f_div 0x3FE714E3BCD35A86 (f_add f_1 (f_div 0x3FF14395810624DD f_m)) in
  (zeros, f_div (f_mul (f_mul alpha f_m) f_m) sum).

Definition HLL_Count (regs : bytes) : Z :=
  if negb (len regs =? HLL_DenseSize) then 0
  else
    let '(zeros, e) := hll_raw (map (GetReg regs) (seqZ 0 Registers)) in
    let e := if f64_le e (f_mul 0x4004000000000000 f_m) && (0 <? zeros) then f_mul f_m (math_Log M (f_div f_m (f_int zeros))) else e in
    f_uint M (f_add e 0x3FE0000000000000).

(** ** Store methods *)

Definition GeoDist (now : Z) (m : Memory) (key a b : bytes) : option float64 * Memory :=
  with_peek now m key None (fun g => Geo_Dist g a b).
Definition GeoRadius (now : Z) (m : Memory) (key : bytes) (lon lat radiusM : float64) (limit : Z) : list GeoMember * Memory :=
  with_peek now m key [] (fun g => Geo_Radius g lon lat radiusM limit).
Definition HLLCount (now : Z) (m : Memory) (key : bytes) : option Z * Memory :=
  let '(has, m) := HasHLL now m key in
  (if has : bool then (fun it => HLL_Count (Value (entry it))) <$> Store.items m !! key else None, m).

(** ** Engine methods *)

Section engine.
Context {W : Type} (env : ModeEnv W) (now : Z) (ctx : Ctx).

Definition Engine_GeoDist (w : W) (e : Engine) (ksName name a b : bytes) : (option float64 + EngErr) * W * Engine :=
  keyed ctx w e ksName name [] ModeGeo (fun _ => [])
    (readThrough (ifHas (fun m => HasGeo now m name) (fun m => GeoDist now m name a b)) None (gFetch env now)
       (decoded Geo_Decode None (fun g => Geo_Dist g a b)) w e name).

Definition Engine_GeoRadius (w : W) (e : Engine) (ksName name : bytes) (lon lat radiusM : float64) (limit : Z)
    : (list GeoMember + EngErr) * W * Engine :=
  keyed ctx w e ksName name
    [if ValidCoord lon lat then None else Some ErrInvalidArgument;
     if f64_lt radiusM 0 || IsNaN radiusM then Some ErrInvalidArgument else None] ModeGeo (fun _ => [])
    (readThrough (ifHas (fun m => HasGeo now m name) (fun m => GeoRadius now m name lon lat radiusM limit)) [] (gFetch env now)
       (decoded Geo_Decode [] (fun g => Geo_Radius g lon lat radiusM limit)) w e name).

Definition hllFetch (w : W) (name : bytes) : hm (option Entry * W) :=
  FetchOwner env FlagHLL any_blob (fun ent m => HLLInstall now m name (Value ent) (Version ent) (ExpireAt ent)) w name.

Definition Engine_HLLCount (w : W) (e : Engine) (ksName name : bytes) : (option Z + EngErr) * W * Engine :=
  keyed ctx w e ksName name [] ModeHLL (fun _ => [])
    (readThrough (ifHas (fun m => HasHLL now m name) (fun m => HLLCount now m name)) None hllFetch
       (fun blob => Some (HLL_Count blob)) w e name).

(** ** Server and client *)

Definition geoMembersToProto (l : list GeoMember) : list (bytes * float64 * float64 * float64) :=
  map (fun m => (gm_member m, gm_lon m, gm_lat m, gm_dist m)) l.
Definition geoMembersFromProto (l : list (bytes * float64 * float64 * float64)) : list GeoMember :=
  map (fun p => mkGeoMember p.1.1.1 p.1.1.2 p.1.2 p.2) l.

Definition srv_GeoDist (w : W) (e : Engine) (ks name a b : bytes) : (bool * float64 + code) * W * Engine :=
  served (presence 0) (Engine_GeoDist w e ks name a b).
Definition srv_GeoRadius (w : W) (e : Engine) (ks name : bytes) (lon lat radius : float64) (limit : Z)
    : (list (bytes * float64 * float64 * float64) + code) * W * Engine :=
  served geoMembersToProto (Engine_GeoRadius w e ks name lon lat radius limit).
Definition srv_HLLCount (w : W) (e : Engine) (ks name : bytes) : (bool * Z + code) * W * Engine :=
  served (presence 0) (Engine_HLLCount w e ks name).

Definition cli_GeoDist (d : delivery) (w : W) (e : Engine) (ks name a b : bytes) : (option float64 + CliErr) * W * Engine :=
  called d (fun r => inl (fromPresence r)) (fun w e => srv_GeoDist w e ks name a b) w e.
Definition cli_GeoRadius (d : delivery) (w : W) (e : Engine) (ks name : bytes) (lon lat radius : float64) (limit : Z)
    : (list GeoMember + CliErr) * W * Engine :=
  called d (fun l => inl (geoMembersFromProto l)) (fun w e => srv_GeoRadius w e ks name lon lat radius (i32 limit)) w e.
Definition cli_HLLCount (d : delivery) (w : W) (e : Engine) (ks name : bytes) : (option Z + CliErr) * W * Engine :=
  called d (fun r => inl (fromPresence r)) (fun w e => srv_HLLCount w e ks name) w e.
End engine.
End estimates.

(** ** Radius *)

Section radius.
Context (M : Math).

(** [less] is the comparison of sorted sets with the distance as score. *)
Definition as_scored (m : GeoMember) : ZMember := {| zm_member := gm_member m; zm_score := gm_dist m |}.

Lemma gle_scored a b : gle a b <-> zle (as_scored a) (as_scored b).
Proof. done. Qed.

#[local] Instance gle_total : Total gle.
Proof. intros a b. apply (zle_total (as_scored a) (as_scored b)). Qed.

Definition numeric (m : GeoMember) : Prop := IsNaN (gm_dist m) = false.

Lemma gle_trans a b c : numeric a -> numeric b -> numeric c -> gle a b -> gle b c -> gle a c.
Proof. rewrite !gle_scored. apply (zle_trans (as_scored a) (as_scored b) (as_scored c)). Qed.

(** The members within the radius. *)
Definition near (g : GeoT) (lon lat radiusM : float64) : list GeoMember :=
  filter (fun m => f64_lt radiusM (gm_dist m) = false) (map (measured M lon lat) (map_to_list g)).

Lemma elem_of_near g lon lat radiusM m :
  m ∈ near g lon lat radiusM <->
  exists p, g !! gm_member m = Some p /\ m = measured M lon lat (gm_member m, p) /\ f64_lt radiusM (gm_dist m) = false.
Proof.
  unfold near. rewrite list_elem_of_filter, list_elem_of_fmap. split.
  - intros (Hd & [k p] & -> & Hin). exists p. by apply elem_of_map_to_list in Hin.
  - intros (p & Hg & Hm & Hd). split; [done|]. exists (gm_member m, p). split; [done|]. by apply elem_of_map_to_list.
Qed.

Lemma near_names g lon lat radiusM : NoDup (map gm_member (near g lon lat radiusM)).
Proof.
  unfold near. generalize (NoDup_fst_map_to_list g). induction (map_to_list g) as [|[k p] l IH]; cbn; [constructor|].
  rewrite NoDup_cons. intros [Hk Hl]. destruct (decide _); cbn; [|auto]. apply NoDup_cons. split; [|auto].
  intros (m & Hm & Hin)%list_elem_of_fmap. apply list_elem_of_filter in Hin as [_ ([k' p'] & -> & Hin)%list_elem_of_fmap].
  cbn in Hm. subst k'. apply Hk. by apply (list_elem_of_fmap_2 fst) in Hin.
Qed.

Lemma near_sorted g lon lat radiusM :
  (forall k p, g !! k = Some p -> IsNaN (Haversine M lon lat (g_lon p) (g_lat p)) = false) ->
  StronglySorted gle (merge_sort gle (near g lon lat radiusM)).
Proof.
  intros Hn. apply (Sorted_StronglySorted_on gle numeric).
  - apply gle_trans.
  - rewrite merge_sort_Permutation. apply Forall_forall. intros m Hm.
    apply elem_of_near in Hm as (p & Hg & -> & _). unfold numeric, measured. cbn [gm_dist fst snd]. exact (Hn _ p Hg).
  - apply (Sorted_merge_sort gle).
Qed.

(** C32: Radius returns the first [limit] (all, when limit <= 0) of the members whose
    distance does not exceed the radius, nearest first and by name at equal
    distances, each once, with its own coordinates and distance; whatever it
    leaves out is farther than everything it returns.  No measured distance may
    be a NaN: the comparison of the sort is an order only then. *)
Theorem geo_radius_exact (g : GeoT) (lon lat radiusM : float64) (limit : Z) :
  (forall k p, g !! k = Some p -> IsNaN (Haversine M lon lat (g_lon p) (g_lat p)) = false) ->
  exists rest,
    let out := Geo_Radius M g lon lat radiusM limit in
    StronglySorted gle (out ++ rest) /\ NoDup (map gm_member (out ++ rest)) /\
    (forall m, m ∈ out ++ rest <->
       exists p, g !! gm_member m = Some p /\ m = measured M lon lat (gm_member m, p) /\ f64_lt radiusM (gm_dist m) = false) /\
    (limit <= 0 -> rest = []) /\ (0 < limit -> len out = Z.min limit (len (out ++ rest))).
Proof.
  intros Hn. pose proof (near_sorted g lon lat radiusM Hn) as Hs.
  pose proof (merge_sort_Permutation gle (near g lon lat radiusM)) as Hp.
  unfold Geo_Radius. fold (near g lon lat radiusM). set (out := merge_sort gle _) in *.
  assert (Hnd : NoDup (map gm_member out)).
  { rewrite (Permutation_map gm_member Hp). apply near_names. }
  assert (Hin : forall m, m ∈ out <-> m ∈ near g lon lat radiusM) by (intros m; by rewrite Hp).
  destruct (_ && _) eqn:E; zprop.
  - exists (drop (Z.to_nat limit) out). cbv zeta. rewrite take_drop. split_and!; try done; [|lia|].
    + intros m. by rewrite Hin, elem_of_near.
    + intros _. unfold len in *. rewrite length_take. lia.
  - exists []. cbv zeta. rewrite app_nil_r. split_and!; try done.
    + intros m. by rewrite Hin, elem_of_near.
    + unfold len in *. lia.
Qed.
End radius.


(** ** Count *)

(** the estimate depends on the set of items added only. *)
Theorem hll_count_set (M : Math) (xs ys : list bytes) :
  Forall bytes_ok xs -> Forall bytes_ok ys -> (forall x, x ∈ xs <-> x ∈ ys) ->
  HLL_Count M (hll_of xs) = HLL_Count M (hll_of ys).
Proof. intros Hx Hy Hs. f_equal. by apply hll_set_semantics. Qed.

(** ** The client sees the engine *)

Lemma geo_wire (l : list GeoMember) : geoMembersFromProto (geoMembersToProto l) = l.
Proof. apply map_inverse. by intros []. Qed.
#[export] Hint Rewrite geo_wire : wire.

(** the client's GeoDist, GeoRadius and HLLCount return what the engine returns
    (a limit that fits an int32), an error as its status code. *)
Theorem estimates_exact {W} (M : Math) (env : ModeEnv W) (now : Z) (ctx : Ctx) (ks name x y : bytes)
    (lon lat radius : float64) (limit : Z) (w : W) (e : Engine) :
  i32_ok limit ->
  transparent plainView w e (fun d => cli_GeoDist M env now ctx d w e ks name x y) (Engine_GeoDist M env now ctx w e ks name x y) /\
  transparent plainView w e (fun d => cli_GeoRadius M env now ctx d w e ks name lon lat radius limit)
    (Engine_GeoRadius M env now ctx w e ks name lon lat radius limit) /\
  transparent plainView w e (fun d => cli_HLLCount M env now ctx d w e ks name) (Engine_HLLCount M env now ctx w e ks name).
Proof.
  intros Hl. split_and!; unfold cli_GeoRadius; rewrite ?i32_fits by done; repack.
Qed.

(** ** Witnesses *)

(** A mathematics good enough for small angles. *)
Definition wit_math : Math := mkMath (fun x => x) (fun _ => f_1) (fun x => x) (fun x => f_sub x f_1) (fun _ => 0).

Definition wit_points : GeoT :=
  <[[97] := {| g_lon := 0; g_lat := 0 |}]> (<[[98] := {| g_lon := f_1; g_lat := 0 |}]> (<[[99] := {| g_lon := 0; g_lat := f_2 |}]> ∅)).

Example near_two : map gm_member (Geo_Radius wit_math wit_points 0 0 0x40FE848000000000 0) = [[97]; [98]].
Proof. vm_compute. reflexivity. Qed.

Lemma geo_radius_exact_witness :
  exists rest, let out := Geo_Radius wit_math wit_points 0 0 0x41B0000000000000 2 in
    map gm_member out = [[97]; [98]] /\ StronglySorted gle (out ++ rest) /\
    measured wit_math 0 0 ([99], {| g_lon := 0; g_lat := f_2 |}) ∈ out ++ rest.
Proof.
  destruct (geo_radius_exact wit_math wit_points 0 0 0x41B0000000000000 2) as (rest & Hs & _ & Hin & _).
  { intros k p Hk. unfold wit_points in Hk. repeat (apply lookup_insert_Some in Hk as [[<- <-]|[_ Hk]]; [vm_compute; reflexivity|]). done. }
  exists rest. split; [vm_compute; reflexivity|]. split; [exact Hs|].
  apply Hin. exists {| g_lon := 0; g_lat := f_2 |}. split; [vm_compute; reflexivity|]. split; [reflexivity|vm_compute; reflexivity].
Defined.
