(* ===== verification/Owners.v ===== *)
(** * Asking and telling the owner: pkg/*/eng/local.go and pkg/engine/*_cluster.go

    A package pkg/*/eng reaches its node only through an interface Host.  Here
    FetchOwner is written against that interface ([ModeHost]), with what it
    guarantees of any host; modehost.go is the instance, and over it FetchOwner
    is the [FetchOwner] the commands of ModeOps use.  The engine keeps a second
    copy of the reads and of the snapshot fan-out in its *_cluster.go files:
    they agree with the packages.

    The writes to the owner (zMutViaOwner and its siblings) take the cluster
    snapshot and the owner again, after the command has checked them, and use
    both unchecked.  [None] is a nil dereference; as long as the cluster is not
    replaced between the two reads no routed command meets it, and the write
    goes to the owner the command checked. *)
From S2P Require Import Prelude Wire Collections Scored Scalars Json JsonText Sketches.
From S2P Require Import Cms TopK Stream Vecset Store StoreKinds StoreScalars StoreJson.
From S2P Require Import Ring Hints Config Engine Modes ModeOps Estimates.

(** ** The host interface *)

Class ModeHost (W H : Type) := {
  mh_KeyspaceName : H -> bytes;
  mh_TopKSize : H -> Z;
  (** id, addr, isSelf, ok *)
  mh_Owner : H -> bytes -> bytes * bytes * bool * bool;
  (** addr, keyspace, name: the entry and whether it was found, or an error *)
  mh_GetOrLoad : H -> W -> bytes -> bytes -> bytes -> option (Entry * bool) * W;
  mh_HoldsReplica : H -> bytes -> bool;
  mh_Install : H -> (Memory -> bool * Memory) -> H;
}.

Section over_host.
Context {W H : Type} `{!ModeHost W H}.

(** FetchOwner of pkg/*/eng: [kind] tests the entry, [install] keeps it. *)
Definition Host_FetchOwner (kind : Entry -> bool) (install : Entry -> Memory -> bool * Memory) (w : W) (h : H) (name : bytes)
    : option Entry * W * H :=
  let '(_, addr, isSelf, ok) := mh_Owner h name in
  if negb ok || isSelf || bool_decide (addr = []) then (None, w, h)
  else
    let '(res, w) := mh_GetOrLoad h w addr (mh_KeyspaceName h) name in
    match res with
    | Some (ent, true) =>
        if kind ent then
          (Some ent, w, if mh_HoldsReplica h name then mh_Install h (install ent) else h)
        else (None, w, h)
    | _ => (None, w, h)
    end.

(** pkg/set/eng, pkg/jsonx/eng, pkg/topkx/eng and pkg/cmsx/eng *)
Definition SetEng_FetchOwner (now : Z) (w : W) (h : H) (name : bytes) : option Entry * W * H :=
  Host_FetchOwner IsSet
    (fun ent m => SetInstall now m name (Value ent) (Version ent) (ExpireAt ent)) w h name.
Definition JSONEng_FetchOwner (now : Z) (w : W) (h : H) (name : bytes) : option Entry * W * H :=
  Host_FetchOwner (fun ent => IsJSON ent && decodes Json_Decode (Value ent))
    (fun ent m => JInstall now m name (Value ent) (Version ent) (ExpireAt ent)) w h name.
Definition TopKEng_FetchOwner (now : Z) (w : W) (h : H) (name : bytes) : option Entry * W * H :=
  Host_FetchOwner IsTopK
    (fun ent m => TopKInstall now m name (Value ent) (Version ent) (ExpireAt ent) (mh_TopKSize h)) w h name.
Definition CMSEng_FetchOwner (now : Z) (w : W) (h : H) (name : bytes) : option Entry * W * H :=
  Host_FetchOwner IsCMS
    (fun ent m => CMSInstall now m name (Value ent) (Version ent) (ExpireAt ent)) w h name.

(** What a read of the owner guarantees, whatever the host: a node that owns
    the name, or knows no owner, calls nobody; an answer is an entry of the
    kind that the owner returned; and the store changes only on a replica. *)
Definition fetch_contract (kind : Entry -> bool) (w : W) (h : H) (name : bytes) (res : option Entry * W * H) : Prop :=
  let '(_, addr, isSelf, ok) := mh_Owner h name in
  let '(ent, w', h') := res in
  (ok = false \/ isSelf = true -> ent = None /\ w' = w /\ h' = h) /\
  (forall x, ent = Some x -> kind x = true /\ mh_GetOrLoad h w addr (mh_KeyspaceName h) name = (Some (x, true), w')) /\
  (mh_HoldsReplica h name = false -> h' = h).

Lemma Host_FetchOwner_contract kind install w h name :
  fetch_contract kind w h name (Host_FetchOwner kind install w h name).
Proof.
  unfold fetch_contract, Host_FetchOwner. destruct (mh_Owner h name) as [[[id addr] isSelf] ok].
  destruct ok, isSelf; cbn [negb orb]; try (split_and!; naive_solver).
  case_bool_decide; [split_and!; naive_solver|].
  destruct (mh_GetOrLoad h w addr _ name) as [[[ent []]|] w'] eqn:E; try (split_and!; naive_solver).
  destruct (kind ent) eqn:Ei; [|split_and!; naive_solver].
  split_and!; [naive_solver| |by intros ->].
  intros x [= <-]. done.
Qed.
End over_host.

(** ** modeHost (modehost.go) *)

Section mode_host.
Context {W : Type} (env : ModeEnv W).

Definition modeHost_Owner (h : Host) (name : bytes) : bytes * bytes * bool * bool :=
  match cluster (h_e h) with
  | None => ([], [], false, false)
  | Some c =>
      match cRing c with
      | None => ([], [], false, false)
      | Some r =>
          match Owner r name with
          | None => ([], [], false, false)
          | Some owner =>
              if bool_decide (peer_ID owner = []) then ([], [], false, false)
              else (peer_ID owner, peer_Addr owner, bool_decide (peer_ID owner = SelfID c), true)
          end
      end
  end.

Definition modeHost_GetOrLoad (h : Host) (w : W) (addr keyspace name : bytes) : option (Entry * bool) * W :=
  match cluster (h_e h) with
  | None => (Some (mkEntry [] 0 0 0, false), w)
  | Some c =>
      if negb (hasTransport c) then (Some (mkEntry [] 0 0 0, false), w)
      else
        let '(res, w) := env_GetOrLoad (me_base env) w addr keyspace name in
        (match res with
         | None => None
         | Some (found, ent) => if found : bool then Some (ent, true) else Some (mkEntry [] 0 0 0, false)
         end, w)
  end.

Definition modeHost_HoldsReplica (h : Host) (name : bytes) : bool :=
  match cluster (h_e h) with None => false | Some c => holdsReplica c (h_ks h) name end.

#[export] Instance modeHost : ModeHost W Host := {
  mh_KeyspaceName := KeyspaceName;
  mh_TopKSize h := EffectiveTopKSize (cfg (h_ks h));
  mh_Owner := modeHost_Owner;
  mh_GetOrLoad := modeHost_GetOrLoad;
  mh_HoldsReplica := modeHost_HoldsReplica;
  mh_Install h f := snd (onStore f h);
}.

Lemma modeHost_FetchOwner flag valid install w h name :
  FetchOwner env flag valid install w name h =
  Host_FetchOwner (fun ent => has_flag flag ent && valid (Value ent)) install w h name.
Proof.
  unfold FetchOwner, askOwner, Host_FetchOwner, HoldsReplica, ringOf, foreignOwner. cbn [mh_Owner mh_GetOrLoad mh_HoldsReplica modeHost].
  unfold modeHost_Owner, modeHost_GetOrLoad, modeHost_HoldsReplica.
  destruct (cluster (h_e h)) as [c|] eqn:Ec; [|done]. destruct (cRing c) as [r|] eqn:Er; [|done].
  destruct (Owner r name) as [owner|]; [|done].
  destruct (bool_decide (peer_ID owner = [])); [done|]. cbn [orb].
  destruct (bool_decide (peer_ID owner = SelfID c)); [done|]. cbn [negb orb].
  destruct (bool_decide (peer_Addr owner = [])); [by rewrite orb_true_r|]. rewrite orb_false_r.
  destruct (hasTransport c); [|done]. cbn [negb mh_KeyspaceName].
  destruct (env_GetOrLoad _ w _ _ name) as [[[[] ent]|] w']; try done.
  destruct (has_flag flag ent); [|done]. cbn [andb]. destruct (valid (Value ent)); [|done]. cbn [negb].
  unfold mbind, hm_bind, asks, mret, hm_ret. rewrite Ec.
  destruct (holdsReplica c (h_ks h) name); [|done]. cbn [mh_Install modeHost]. by destruct (onStore (install ent) h).
Qed.
End mode_host.

(** ** The engine's copies: pkg/engine/*_cluster.go *)

Section engine_copies.
Context {W : Type} (env : ModeEnv W) (now : Z).

(** The body the seven xFetchOwner share; [h] is the engine and its keyspace. *)
Definition engineFetchOwner (kind : Entry -> bool) (install : Entry -> Memory -> bool * Memory)
    (w : W) (h : Host) (name : bytes) : option Entry * W * Host :=
  match cluster (h_e h) with
  | None => (None, w, h)
  | Some c =>
      match cRing c with
      | None => (None, w, h)
      | Some r =>
          if negb (hasTransport c) then (None, w, h)
          else
            match Owner r name with
            | None => (None, w, h)
            | Some owner =>
                if bool_decide (peer_ID owner = []) || bool_decide (peer_ID owner = SelfID c)
                   || bool_decide (peer_Addr owner = []) then (None, w, h)
                else
                  let '(res, w) := env_GetOrLoad (me_base env) w (peer_Addr owner) (Name (cfg (h_ks h))) name in
                  match res with
                  | Some (true, ent) =>
                      if kind ent then
                        (Some ent, w, if holdsReplica c (h_ks h) name then snd (onStore (install ent) h) else h)
                      else (None, w, h)
                  | _ => (None, w, h)
                  end
            end
      end
  end.

Definition zFetchOwner (w : W) (h : Host) (name : bytes) : option Entry * W * Host :=
  engineFetchOwner IsZSet (fun ent m => ZInstall now m name (Value ent) (Version ent) (ExpireAt ent)) w h name.
Definition gFetchOwner (w : W) (h : Host) (name : bytes) : option Entry * W * Host :=
  engineFetchOwner IsGeo (fun ent m => GeoInstall now m name (Value ent) (Version ent) (ExpireAt ent)) w h name.
Definition hFetchOwner (w : W) (h : Host) (name : bytes) : option Entry * W * Host :=
  engineFetchOwner IsHash (fun ent m => HInstall now m name (Value ent) (Version ent) (ExpireAt ent)) w h name.
Definition bFetchOwner (w : W) (h : Host) (name : bytes) : option Entry * W * Host :=
  engineFetchOwner IsBitmap (fun ent m => BInstall now m name (Value ent) (Version ent) (ExpireAt ent)) w h name.
Definition hllFetchOwner (w : W) (h : Host) (name : bytes) : option Entry * W * Host :=
  engineFetchOwner IsHLL (fun ent m => HLLInstall now m name (Value ent) (Version ent) (ExpireAt ent)) w h name.
Definition topkFetchOwner (w : W) (h : Host) (name : bytes) : option Entry * W * Host :=
  engineFetchOwner IsTopK
    (fun ent m => TopKInstall now m name (Value ent) (Version ent) (ExpireAt ent) (EffectiveTopKSize (cfg (h_ks h)))) w h name.
Definition jFetchOwner (w : W) (h : Host) (name : bytes) : option Entry * W * Host :=
  engineFetchOwner (fun ent => IsJSON ent && decodes Json_Decode (Value ent))
    (fun ent m => JInstall now m name (Value ent) (Version ent) (ExpireAt ent)) w h name.

(** xReplicateSnapshot: the entry of the local store, under the version and the
    expiry of the write. *)
Definition engineReplicateSnapshot (kind : Entry -> bool) (flag : Z) (name : bytes) (ver expire : Z) : hm unit := fun h =>
  let '(cur, h') := onStore (fun m => Peek now m name) h in
  match cur with
  | Some ent =>
      if negb (kind ent) then (tt, h')
      else replicateAs (Name (cfg (h_ks h))) name (mkEntry (Value ent) ver expire flag) h'
  | None => (tt, h')
  end.
Definition bReplicateSnapshot := engineReplicateSnapshot IsBitmap FlagBitmap.
Definition hllReplicateSnapshot := engineReplicateSnapshot IsHLL FlagHLL.
Definition topkReplicateSnapshot := engineReplicateSnapshot IsTopK FlagTopK.
Definition jReplicateSnapshot := engineReplicateSnapshot IsJSON FlagJSON.

(** ReplicateSnapshot of the packages that send snapshots. *)
Definition BitmapEng_ReplicateSnapshot (name : bytes) := ReplicateSnapshot now name FlagBitmap any_shape.
Definition HLLEng_ReplicateSnapshot (name : bytes) := ReplicateSnapshot now name FlagHLL any_shape.
Definition TopKEng_ReplicateSnapshot (name : bytes) := ReplicateSnapshot now name FlagTopK any_shape.
Definition CMSEng_ReplicateSnapshot (name : bytes) := ReplicateSnapshot now name FlagCMS any_shape.
Definition JSONEng_ReplicateSnapshot (name : bytes) := ReplicateSnapshot now name FlagJSON any_shape.
Definition StreamEng_ReplicateSnapshot (name : bytes) := ReplicateSnapshot now name FlagStream snapshot_shape.
Definition VecEng_ReplicateSnapshot (name : bytes) := ReplicateSnapshot now name FlagVectorSet snapshot_shape.

(** The copies do what the packages do. *)
Lemma engineFetchOwner_host kind install w h name :
  engineFetchOwner kind install w h name = Host_FetchOwner (ModeHost0 := modeHost env) kind install w h name.
Proof.
  unfold engineFetchOwner, Host_FetchOwner. cbn [mh_Owner mh_GetOrLoad mh_HoldsReplica mh_KeyspaceName mh_Install modeHost].
  unfold modeHost_Owner, modeHost_GetOrLoad, modeHost_HoldsReplica.
  destruct (cluster (h_e h)) as [c|]; [|done]. destruct (cRing c) as [r|]; [|done].
  destruct (Owner r name) as [owner|]; [|by destruct (negb _)].
  destruct (bool_decide (peer_ID owner = [])); [by destruct (negb _)|]. cbn [negb orb].
  destruct (bool_decide (peer_ID owner = SelfID c)); [by destruct (negb _)|]. cbn [orb].
  destruct (bool_decide (peer_Addr owner = [])); [by destruct (negb _)|].
  destruct (hasTransport c); [|done]. cbn [negb].
  by destruct (env_GetOrLoad _ w _ _ name) as [[[[] ent]|] w'].
Qed.

(** A FetchOwner that accepts any blob is the package's test of the flag. *)
Lemma any_blob_fetch flag install w h name :
  FetchOwner env flag any_blob install w name h = engineFetchOwner (has_flag flag) install w h name.
Proof.
  rewrite modeHost_FetchOwner, engineFetchOwner_host. unfold Host_FetchOwner.
  destruct (mh_Owner h name) as [[[id addr] isSelf] ok]. destruct (negb ok || isSelf || _); [done|].
  destruct (mh_GetOrLoad h w addr _ name) as [[[ent []]|] w']; try done. unfold any_blob. by rewrite andb_true_r.
Qed.

Lemma engine_copies_agree w h name :
  zFetchOwner w h name = zFetch env now w name h /\ gFetchOwner w h name = gFetch env now w name h /\
  hFetchOwner w h name = hFetch env now w name h /\ bFetchOwner w h name = bFetch env now w name h /\
  hllFetchOwner w h name = hllFetch env now w name h /\
  topkFetchOwner w h name = TopKEng_FetchOwner (ModeHost0 := modeHost env) now w h name /\
  jFetchOwner w h name = JSONEng_FetchOwner (ModeHost0 := modeHost env) now w h name.
Proof.
  unfold zFetch, gFetch, hFetch, bFetch, hllFetch. rewrite !any_blob_fetch.
  repeat split; try done; apply engineFetchOwner_host.
Qed.

(** The reads of JSON documents, Top-K and Count-Min sketches in ModeOps. *)
Lemma package_fetches w h name :
  FetchOwner env FlagJSON (decodes Json_Decode) (fun ent m => JInstall now m name (Value ent) (Version ent) (ExpireAt ent)) w name h
    = JSONEng_FetchOwner (ModeHost0 := modeHost env) now w h name /\
  FetchOwner env FlagTopK any_blob
    (fun ent m => TopKInstall now m name (Value ent) (Version ent) (ExpireAt ent) (EffectiveTopKSize (cfg (h_ks h)))) w name h
    = TopKEng_FetchOwner (ModeHost0 := modeHost env) now w h name /\
  FetchOwner env FlagCMS any_blob (fun ent m => CMSInstall now m name (Value ent) (Version ent) (ExpireAt ent)) w name h
    = CMSEng_FetchOwner (ModeHost0 := modeHost env) now w h name.
Proof.
  rewrite !any_blob_fetch, !engineFetchOwner_host, modeHost_FetchOwner. by repeat split.
Qed.

Lemma engineReplicateSnapshot_host flag name ver expire h :
  engineReplicateSnapshot (has_flag flag) flag name ver expire h = ReplicateSnapshot now name flag any_shape ver expire h.
Proof.
  unfold engineReplicateSnapshot, ReplicateSnapshot, mbind, hm_bind, Replicate, onStore, onKS, KeyspaceName.
  destruct (Peek now (kstore (h_ks h)) name) as [[ent|] m]; [|done]. cbn [h_ks]. unfold any_shape. rewrite andb_true_r.
  by destruct (has_flag flag ent).
Qed.

Lemma engine_snapshots_agree name ver expire h :
  bReplicateSnapshot name ver expire h = BitmapEng_ReplicateSnapshot name ver expire h /\
  hllReplicateSnapshot name ver expire h = HLLEng_ReplicateSnapshot name ver expire h /\
  topkReplicateSnapshot name ver expire h = TopKEng_ReplicateSnapshot name ver expire h /\
  jReplicateSnapshot name ver expire h = JSONEng_ReplicateSnapshot name ver expire h.
Proof. repeat split; apply engineReplicateSnapshot_host. Qed.
End engine_copies.

(** ** Writes to the owner *)

Section writes.
Context {W : Type} (env : ModeEnv W).

(** The owner's node: a ring without one gives the zero Peer. *)
Definition sendOwner (w : W) (e : Engine) (ks : ksRuntime) (name : bytes) (ent : Entry)
    : option ((bool + EngErr) * W) :=
  match cluster e with
  | None => None
  | Some c =>
      match cRing c with
      | None => None
      | Some r =>
          let owner := default (mkPeer [] []) (Owner r name) in
          if hasTransport c
          then Some (me_ApplyPut env w (peer_Addr owner) (Name (cfg ks)) name ent (Generation r))
          else None
      end
  end.

(** _, err := ApplyPut(...); return err *)
Definition dropApplied (res : option ((bool + EngErr) * W)) : option ((unit + EngErr) * W) :=
  match res with
  | None => None
  | Some (inr err, w) => Some (inr err, w)
  | Some (inl _, w) => Some (inl tt, w)
  end.

(** if !applied { return ErrInvalidArgument } *)
Definition needApplied (res : option ((bool + EngErr) * W)) : option ((unit + EngErr) * W) :=
  match res with
  | None => None
  | Some (inr err, w) => Some (inr err, w)
  | Some (inl applied, w) => Some (if applied then inl tt else inr ErrInvalidArgument, w)
  end.

Definition setMutViaOwner (w : W) (e : Engine) (ks : ksRuntime) (name item : bytes) (flag : Z) :=
  dropApplied (sendOwner w e ks name (mkEntry item 1 0 flag)).
Definition zMutViaOwner (w : W) (e : Engine) (ks : ksRuntime) (name value : bytes) (flag : Z) :=
  dropApplied (sendOwner w e ks name (mkEntry value 1 0 flag)).
Definition gMutViaOwner (w : W) (e : Engine) (ks : ksRuntime) (name value : bytes) (flag : Z) :=
  dropApplied (sendOwner w e ks name (mkEntry value 1 0 flag)).
Definition hMutViaOwner (w : W) (e : Engine) (ks : ksRuntime) (name value : bytes) (flag : Z) :=
  dropApplied (sendOwner w e ks name (mkEntry value 1 0 flag)).
Definition bloomAddViaOwner (w : W) (e : Engine) (ks : ksRuntime) (name item : bytes) :=
  dropApplied (sendOwner w e ks name (mkEntry item 1 0 FlagBloomAdd)).
Definition jMutViaOwner (w : W) (e : Engine) (ks : ksRuntime) (name value : bytes) (flag : Z) :=
  needApplied (sendOwner w e ks name (mkEntry value 1 0 flag)).
Definition bMutViaOwner (w : W) (e : Engine) (ks : ksRuntime) (name value : bytes) :=
  needApplied (sendOwner w e ks name (mkEntry value 1 0 FlagBitmapSet)).
Definition hllMutViaOwner (w : W) (e : Engine) (ks : ksRuntime) (name item : bytes) :=
  needApplied (sendOwner w e ks name (mkEntry item 1 0 FlagHLLAdd)).
Definition topkMutViaOwner (w : W) (e : Engine) (ks : ksRuntime) (name item : bytes) :=
  needApplied (sendOwner w e ks name (mkEntry item 1 0 FlagTopKAdd)).

(** The snapshot and the owner are read before the inbox is encoded. *)
Definition cmsMutViaOwner (w : W) (e : Engine) (ks : ksRuntime) (name item : bytes) (n : Z)
    : option ((unit + EngErr) * W) :=
  match ringOf e with
  | None => None
  | Some _ =>
      match CMS_EncodeInbox n item with
      | inr _ => Some (inr ErrInvalidArgument, w)
      | inl inbox => needApplied (sendOwner w e ks name (mkEntry inbox 1 0 FlagCMSIncr))
      end
  end.

(** The routing of a write command around [via], one of the functions above. *)
Definition routedVia (w : W) (e : Engine) (ks : ksRuntime) (name : bytes)
    (via : W -> option ((unit + EngErr) * W)) (act : hm (unit + EngErr)) : option ((unit + EngErr) * W * Engine) :=
  match cluster e with
  | None => Some (local w e ks act)
  | Some c =>
      match cRing c with
      | None => Some (local w e ks act)
      | Some r =>
          match Owner r name with
          | None => Some (local w e ks act)
          | Some owner =>
              if negb (bool_decide (peer_ID owner = [])) && negb (bool_decide (peer_ID owner = SelfID c)) then
                if negb (hasTransport c) || bool_decide (peer_Addr owner = []) then Some (inr ErrUnavailable, w, e)
                else match via w with None => None | Some (res, w) => Some (res, w, e) end
              else Some (local w e ks act)
          end
      end
  end.

(** [via] answers what [remote] does, wherever the command has checked the
    cluster, the transport and the owner. *)
Definition sends (e : Engine) (name : bytes) (via : W -> option ((unit + EngErr) * W))
    (remote : W -> Ring -> Peer -> (unit + EngErr) * W) : Prop :=
  forall w c r owner, cluster e = Some c -> cRing c = Some r -> hasTransport c = true ->
    Owner r name = Some owner -> via w = Some (remote w r owner).

Lemma routedVia_routed e ks name via remote act w :
  sends e name via remote -> routedVia w e ks name via act = Some (routed w e ks name remote act).
Proof.
  intros Hs. unfold routedVia, routed, ringOf, foreignOwner.
  destruct (cluster e) as [c|] eqn:Ec; [|done]. destruct (cRing c) as [r|] eqn:Er; [|done].
  destruct (Owner r name) as [owner|] eqn:Eo; [|done].
  destruct (bool_decide (peer_ID owner = [])), (bool_decide (peer_ID owner = SelfID c)); try done. cbn [negb andb orb].
  destruct (hasTransport c) eqn:Et; [|done]. cbn [negb orb].
  destruct (bool_decide (peer_Addr owner = [])); [done|].
  rewrite (Hs w c r owner Ec Er Et Eo). by destruct (remote w r owner).
Qed.

Lemma sendOwner_sends e ks name ent w c r owner :
  cluster e = Some c -> cRing c = Some r -> hasTransport c = true -> Owner r name = Some owner ->
  sendOwner w e ks name ent = Some (me_ApplyPut env w (peer_Addr owner) (Name (cfg ks)) name ent (Generation r)).
Proof. intros Hc Hr Ht Ho. unfold sendOwner. by rewrite Hc, Hr, Ht, Ho. Qed.

Lemma dropApplied_sends e ks name value flag :
  sends e name (fun w => dropApplied (sendOwner w e ks name (mkEntry value 1 0 flag)))
    (mutViaOwner env false ks name value flag 1).
Proof.
  intros w c r owner Hc Hr Ht Ho. rewrite (sendOwner_sends e ks name _ w c r owner) by done. unfold mutViaOwner.
  by destruct (me_ApplyPut env w _ _ name _ _) as [[applied|err] w'].
Qed.

Lemma needApplied_sends e ks name value flag :
  sends e name (fun w => needApplied (sendOwner w e ks name (mkEntry value 1 0 flag)))
    (mutViaOwner env true ks name value flag 1).
Proof.
  intros w c r owner Hc Hr Ht Ho. rewrite (sendOwner_sends e ks name _ w c r owner) by done. unfold mutViaOwner.
  by destruct (me_ApplyPut env w _ _ name _ _) as [[[]|err] w'].
Qed.

Lemma cmsMutViaOwner_sends e ks name item n :
  sends e name (fun w => cmsMutViaOwner w e ks name item n)
    (fun w r owner => match CMS_EncodeInbox n item with
                      | inr _ => (inr ErrInvalidArgument, w)
                      | inl inbox => mutViaOwner env true ks name inbox FlagCMSIncr 1 w r owner
                      end).
Proof.
  intros w c r owner Hc Hr Ht Ho. unfold cmsMutViaOwner, ringOf. rewrite Hc, Hr.
  destruct (CMS_EncodeInbox n item) as [inbox|]; [|done].
  by apply (needApplied_sends e ks name inbox FlagCMSIncr w c r owner).
Qed.

Lemma cms_write_reaches_owner (w : W) (e : Engine) (ks : ksRuntime) (name item : bytes) (n : Z) (act : hm (option mode_err)) :
  routedVia w e ks name (fun w => cmsMutViaOwner w e ks name item n) (ackOf act)
    = Some (routed w e ks name (fun w r owner =>
        match CMS_EncodeInbox n item with
        | inr _ => (inr ErrInvalidArgument, w)
        | inl inbox => mutViaOwner env true ks name inbox FlagCMSIncr 1 w r owner
        end) (ackOf act)).
Proof. apply routedVia_routed, cmsMutViaOwner_sends. Qed.

(** No routed write dereferences a nil cluster, ring or transport, and each
    sends to the owner its command checked: [ackWrite] is what the commands of
    the lenient kinds and of the strict kinds do. *)
Theorem writes_reach_owner (w : W) (e : Engine) (ks : ksRuntime) (name value : bytes) (flag : Z)
    (act : hm (option mode_err)) :
  routedVia w e ks name (fun w => zMutViaOwner w e ks name value flag) (ackOf act)
    = Some (ackWrite env false flag value act w e name ks) /\
  routedVia w e ks name (fun w => jMutViaOwner w e ks name value flag) (ackOf act)
    = Some (ackWrite env true flag value act w e name ks).
Proof.
  unfold ackWrite. split; apply routedVia_routed; [apply dropApplied_sends|apply needApplied_sends].
Qed.
End writes.
