(* ===== verification/ShellText.v ===== *)
(** * Text handling of the command-line client: cmd/sc

    The tokenizer of the shell, the split of an argument list into flags and
    positional arguments, the peeling of flags from a shell line, the seed
    list, and the functions of strings, strconv and encoding/base64 they use.
    The main theorem is that a line made of quoted arguments is read back as
    those arguments; the tokenizer looks at single bytes, so unquoted text is
    also split inside some characters. *)
From stdpp Require Import strings.
From S2P Require Import Prelude Wire Json.

(** A literal of the source as its bytes. *)
Definition str (s : string) : bytes := map (fun a => Z.of_N (Ascii.N_of_ascii a)) (String.list_ascii_of_string s).
Arguments str s%_string.

(** ** tokenize.go *)

Inductive tokErr := TrailingBackslash | UnclosedQuote.

Record tok := mkTok {
  t_args : list bytes;
  t_cur : bytes;
  inSingle : bool;
  inDouble : bool;
  escaped : bool;
  started : bool;
}.

Definition flush (t : tok) : tok :=
  if started t then mkTok (t_args t ++ [t_cur t]) [] (inSingle t) (inDouble t) (escaped t) false else t.

(** cur.WriteByte(c); started = true *)
Definition writeByte (t : tok) (c : byte) : tok :=
  mkTok (t_args t) (t_cur t ++ [c]) (inSingle t) (inDouble t) (escaped t) true.
Definition quoteState (t : tok) (single double esc started : bool) : tok :=
  mkTok (t_args t) (t_cur t) single double esc started.

(** unicode.IsSpace(rune(c)) of a byte: the Latin-1 spaces, 0x85 and 0xA0 among them. *)
Definition isSpaceByte (c : byte) : bool := (9 <=? c) && (c <=? 13) || (c =? 32) || (c =? 133) || (c =? 160).

Definition tokStep (t : tok) (c : byte) : tok :=
  if escaped t then quoteState (writeByte t c) (inSingle t) (inDouble t) false true
  else if (c =? 92) && negb (inSingle t) then quoteState t (inSingle t) (inDouble t) true true
  else if inSingle t then
    if c =? 39 then quoteState t false (inDouble t) (escaped t) (started t) else writeByte t c
  else if inDouble t then
    if c =? 34 then quoteState t (inSingle t) false (escaped t) (started t) else writeByte t c
  else if c =? 39 then quoteState t true (inDouble t) (escaped t) true
  else if c =? 34 then quoteState t (inSingle t) true (escaped t) true
  else if isSpaceByte c then flush t
  else writeByte t c.

Definition tokenize (line : bytes) : list bytes + tokErr :=
  let t := fold_left tokStep line (mkTok [] [] false false false false) in
  if escaped t then inr TrailingBackslash
  else if inSingle t || inDouble t then inr UnclosedQuote
  else inl (t_args (flush t)).

(** ** Functions of the standard library *)

(** strings.ToLower, exact on the ASCII letters of the result: besides A to Z
    the Kelvin sign and the dotted capital I have ASCII lower cases. *)
Fixpoint ToLower (s : bytes) : bytes :=
  match s with
  | 226 :: 132 :: 170 :: s => 107 :: ToLower s
  | 196 :: 176 :: s => 105 :: ToLower s
  | c :: s => (if (65 <=? c) && (c <=? 90) then c + 32 else c) :: ToLower s
  | [] => []
  end.

(** The encodings of the white space characters of Unicode. *)
Definition spaces : list bytes :=
  map (fun c => [c]) [9; 10; 11; 12; 13; 32] ++ map (fun c => [194; c]) [133; 160] ++ [[225; 154; 128]]
  ++ map (fun c => [226; 128; c]) [128; 129; 130; 131; 132; 133; 134; 135; 136; 137; 138; 168; 169; 175]
  ++ [[226; 129; 159]; [227; 128; 128]].

Definition hasPrefix (p s : bytes) : bool := bool_decide (take (length p) s = p).

(** One white space character less in front, if there is one. *)
Definition trimOne (ws : list bytes) (s : bytes) : option bytes :=
  match find (fun p => hasPrefix p s) ws with Some p => Some (drop (length p) s) | None => None end.
Fixpoint trimLeft (fuel : nat) (ws : list bytes) (s : bytes) : bytes :=
  match fuel with
  | O => s
  | S f => match trimOne ws s with Some s => trimLeft f ws s | None => s end
  end.

Definition TrimSpace (s : bytes) : bytes :=
  let s := trimLeft (length s) spaces s in
  rev (trimLeft (length s) (map (@rev Z) spaces) (rev s)).

(** strings.Split(s, sep) for a one-byte separator *)
Fixpoint split (sep : byte) (s : bytes) : list bytes :=
  match s with
  | [] => [[]]
  | c :: s =>
      if c =? sep then [] :: split sep s
      else match split sep s with [] => [[c]] | p :: ps => (c :: p) :: ps end
  end.

(** strings.Join(parts, sep) for a one-byte separator *)
Fixpoint join (sep : byte) (parts : list bytes) : bytes :=
  match parts with
  | [] => []
  | [p] => p
  | p :: ps => p ++ [sep] ++ join sep ps
  end.

Fixpoint contains (s sub : bytes) : bool :=
  hasPrefix sub s || match s with [] => false | _ :: s => contains s sub end.

(** strconv.ParseInt(s, 10, 64) and Atoi: an optional sign and digits in range. *)
Definition ParseInt (s : bytes) : option Z :=
  let '(neg, ds) := match s with 45 :: ds => (true, ds) | 43 :: ds => (false, ds) | _ => (false, s) end in
  match ParseUint ds with
  | None => None
  | Some n =>
      if neg then if 2 ^ 63 <? n then None else Some (- n)
      else if MaxInt64 <? n then None else Some n
  end.

(** strconv.FormatInt, which ParseInt reads back. *)
Definition FormatInt (z : Z) : bytes := if z <? 0 then 45 :: FormatUint (- z) else FormatUint z.

Lemma FormatUint_cons (n : Z) : exists c l, FormatUint n = c :: l /\ is_digit c = true.
Proof.
  pose proof (FormatUint_digits n) as H. pose proof (format_loop_ne 19 n []) as Hn. fold (FormatUint n) in Hn. destruct (FormatUint n) as [|c l]; [done|].
  exists c, l. split; [done|]. by apply Forall_cons in H as [? _].
Qed.

Lemma ParseInt_FormatInt (z : Z) : MinInt64 <= z <= MaxInt64 -> ParseInt (FormatInt z) = Some z.
Proof.
  unfold MinInt64, MaxInt64, FormatInt. intros Hz. destruct (Z.ltb_spec z 0).
  - unfold ParseInt. rewrite ParseUint_Format by (unfold MaxUint64; lia). destruct (Z.ltb_spec (2 ^ 63) (- z)); [lia|]. f_equal. lia.
  - pose proof (ParseUint_Format z ltac:(unfold MaxUint64; lia)) as Hp.
    destruct (FormatUint_cons z) as (c & l & E & Hc). unfold ParseInt. rewrite E in *.
    assert (Hs : match c :: l with 45 :: ds => (true, ds) | 43 :: ds => (false, ds) | _ => (false, c :: l) end = (false, c :: l)).
    { unfold is_digit in Hc. zcmp; try done. destruct c as [|p|p]; try lia. do 6 (destruct p as [p|p|]; try done; try lia). }
    rewrite Hs, Hp. unfold MaxInt64. by destruct (Z.ltb_spec (2 ^ 63 - 1) z); [lia|].
Qed.

(** utf8.Valid *)
Fixpoint utf8_valid_loop (fuel : nat) (s : bytes) : bool :=
  match fuel, s with
  | _, [] => true
  | O, _ => false
  | S f, _ => match rune_len s with O => false | n => utf8_valid_loop f (drop n s) end
  end.
Definition utf8_Valid (s : bytes) : bool := utf8_valid_loop (length s) s.

(** *** base64.StdEncoding *)

Definition b64_char (v : Z) : byte :=
  if v <? 26 then 65 + v else if v <? 52 then 71 + v else if v <? 62 then v - 4 else if v =? 62 then 43 else 47.
Definition b64_value (c : byte) : option Z :=
  if (65 <=? c) && (c <=? 90) then Some (c - 65)
  else if (97 <=? c) && (c <=? 122) then Some (c - 71)
  else if (48 <=? c) && (c <=? 57) then Some (c + 4)
  else if c =? 43 then Some 62 else if c =? 47 then Some 63 else None.

Fixpoint EncodeToString (b : bytes) : bytes :=
  match b with
  | x :: y :: z :: b =>
      let v := x * 65536 + y * 256 + z in
      b64_char (v / 262144) :: b64_char (v / 4096 mod 64) :: b64_char (v / 64 mod 64) :: b64_char (v mod 64)
      :: EncodeToString b
  | [x; y] => let v := x * 65536 + y * 256 in [b64_char (v / 262144); b64_char (v / 4096 mod 64); b64_char (v / 64 mod 64); 61]
  | [x] => let v := x * 65536 in [b64_char (v / 262144); b64_char (v / 4096 mod 64); 61; 61]
  | [] => []
  end.

(** Quanta of four; padding only at the end, its unused bits ignored. *)
Fixpoint decode_quanta (s : bytes) : option bytes :=
  match s with
  | [] => Some []
  | a :: b :: c :: d :: s =>
      match b64_value a, b64_value b with
      | Some a, Some b =>
          match b64_value c, b64_value d with
          | Some c, Some d =>
              let v := a * 262144 + b * 4096 + c * 64 + d in
              (fun out => v / 65536 :: v / 256 mod 256 :: v mod 256 :: out) <$> decode_quanta s
          | Some c, None =>
              if (d =? 61) && bool_decide (s = []) then let v := a * 4096 + b * 64 + c in Some [v / 1024; v / 4 mod 256]
              else None
          | None, _ =>
              if (c =? 61) && (d =? 61) && bool_decide (s = []) then Some [(a * 64 + b) / 16] else None
          end
      | _, _ => None
      end
  | _ => None
  end.

(** Line breaks are skipped. *)
Definition DecodeString (s : bytes) : option bytes := decode_quanta (filter (fun c => c <> 10 /\ c <> 13) s).

(** ** main.go *)

(** parseList: a comma-separated list, trimmed, without empties and repeats. *)
Definition addSeed (st : list bytes) (p : bytes) : list bytes :=
  let p := TrimSpace p in
  if bool_decide (p = []) || bool_decide (p ∈ st) then st else st ++ [p].
Definition parseList (s : bytes) : list bytes :=
  if bool_decide (TrimSpace s = []) then [] else fold_left addSeed (split 44 s) [].

Definition takesValue (name : bytes) : bool :=
  bool_decide (name ∈ map str ["-addr"; "-admin"; "-keyspace"; "-timeout"; "-ttl"; "-file"; "-tls-ca"; "-tls-cert";
                               "-tls-key"; "-tls-server-name"]%string).

(** The flags a token contributes, and the tokens left; [None]: its value is missing. *)
Definition takeFlag (a : bytes) (rest : list bytes) : option (list bytes * list bytes) :=
  if bool_decide (61 ∈ a) then Some ([a], rest)
  else if takesValue a then match rest with [] => None | v :: rest => Some ([a; v], rest) end
  else Some ([a], rest).

(** The first loop of splitArgs, up to the subcommand: the flags, the subcommand
    and the tokens after it. *)
Fixpoint splitHead (fuel : nat) (tokens flagArgs : list bytes) : option (bytes * list bytes * list bytes) :=
  match fuel, tokens with
  | S f, a :: rest =>
      if bool_decide (a = str "--") then Some ([], flagArgs, rest)
      else if hasPrefix [45] a then
        match takeFlag a rest with None => None | Some (fl, rest) => splitHead f rest (flagArgs ++ fl) end
      else Some (a, flagArgs, rest)
  | _, _ => Some ([], flagArgs, tokens)
  end.

(** The second loop: flags and positional arguments, all positional after "--". *)
Fixpoint splitTail (fuel : nat) (tokens flagArgs posArgs : list bytes) : option (list bytes * list bytes) :=
  match fuel, tokens with
  | S f, a :: rest =>
      if bool_decide (a = str "--") then Some (flagArgs, posArgs ++ rest)
      else if hasPrefix [45] a && negb (bool_decide (a = [45])) then
        match takeFlag a rest with None => None | Some (fl, rest) => splitTail f rest (flagArgs ++ fl) posArgs end
      else splitTail f rest flagArgs (posArgs ++ [a])
  | _, _ => Some (flagArgs, posArgs)
  end.

Definition splitArgs (args : list bytes) : option (bytes * list bytes * list bytes) :=
  match splitHead (length args) args [] with
  | None => None
  | Some (cmd, flagArgs, rest) =>
      match splitTail (length rest) rest flagArgs [] with
      | None => None
      | Some (flagArgs, posArgs) => Some (cmd, flagArgs, posArgs)
      end
  end.

Record config := mkConfig {
  addrs : list bytes;
  admins : list bytes;
  keyspace : bytes;
  timeout : Z;
  ttl : Z;
  ttlSet : bool;
  filePath : bytes;
  base64 : bool;
  jsonOut : bool;
  raw : bool;
  quiet : bool;
  tlsCA : bytes;
  tlsCert : bytes;
  tlsKey : bytes;
  tlsServer : bytes;
}.

Definition with_keyspace (c : config) (k : bytes) : config :=
  mkConfig (addrs c) (admins c) k (timeout c) (ttl c) (ttlSet c) (filePath c) (base64 c) (jsonOut c) (raw c) (quiet c)
    (tlsCA c) (tlsCert c) (tlsKey c) (tlsServer c).
Definition with_timeout (c : config) (d : Z) : config :=
  mkConfig (addrs c) (admins c) (keyspace c) d (ttl c) (ttlSet c) (filePath c) (base64 c) (jsonOut c) (raw c) (quiet c)
    (tlsCA c) (tlsCert c) (tlsKey c) (tlsServer c).
Definition with_ttl (c : config) (d : Z) (set : bool) : config :=
  mkConfig (addrs c) (admins c) (keyspace c) (timeout c) d set (filePath c) (base64 c) (jsonOut c) (raw c) (quiet c)
    (tlsCA c) (tlsCert c) (tlsKey c) (tlsServer c).
Definition with_input (c : config) (file : bytes) (b64 : bool) : config :=
  mkConfig (addrs c) (admins c) (keyspace c) (timeout c) (ttl c) (ttlSet c) file b64 (jsonOut c) (raw c) (quiet c)
    (tlsCA c) (tlsCert c) (tlsKey c) (tlsServer c).
Definition with_output (c : config) (json raw quiet : bool) : config :=
  mkConfig (addrs c) (admins c) (keyspace c) (timeout c) (ttl c) (ttlSet c) (filePath c) (base64 c) json raw quiet
    (tlsCA c) (tlsCert c) (tlsKey c) (tlsServer c).

(** configFromFlags, from the parsed values of the flags; [None]: no cache address. *)
Definition configFromFlags (addr admin ks : bytes) (tmo d : Z) (noExpiry : bool) (file : bytes)
    (b64 json rw q : bool) (ca cert key server : bytes) : option config :=
  match parseList addr with
  | [] => None
  | seeds =>
      let c := mkConfig seeds (parseList admin) ks tmo d (noExpiry || negb (d =? 0)) file b64 json rw q ca cert key server in
      Some (if noExpiry then with_ttl c 0 true else c)
  end.

(** ** repl.go *)

Section flags.
(** time.ParseDuration *)
Context (ParseDuration : bytes -> option Z).

(** The configuration as far as it was changed, and the arguments left, or
    [None] for an unknown flag or a flag without its value. *)
Fixpoint applyREPLFlags (cfg : config) (args : list bytes) : config * option (list bytes) :=
  match args with
  | [] => (cfg, Some [])
  | a :: rest =>
      if bool_decide (a = str "-file") then
        match rest with [] => (cfg, None) | v :: rest => applyREPLFlags (with_input cfg v (base64 cfg)) rest end
      else if bool_decide (a = str "-base64") then applyREPLFlags (with_input cfg (filePath cfg) true) rest
      else if bool_decide (a = str "-json") then applyREPLFlags (with_output cfg true (raw cfg) (quiet cfg)) rest
      else if bool_decide (a = str "-q") then applyREPLFlags (with_output cfg (jsonOut cfg) (raw cfg) true) rest
      else if bool_decide (a = str "-raw") then applyREPLFlags (with_output cfg (jsonOut cfg) true (quiet cfg)) rest
      else if bool_decide (a = str "-ttl") then
        match rest with
        | [] => (cfg, None)
        | v :: rest =>
            match ParseDuration v with None => (cfg, None) | Some d => applyREPLFlags (with_ttl cfg d true) rest end
        end
      else if bool_decide (a = str "-no-expiry") then applyREPLFlags (with_ttl cfg 0 true) rest
      else if hasPrefix [45] a && negb (bool_decide (a = [45])) then (cfg, None)
      else let '(cfg, out) := applyREPLFlags cfg rest in (cfg, (fun out => a :: out) <$> out)
  end.
End flags.

Definition shortAddr (addr : bytes) : bytes :=
  if hasPrefix (str "127.0.0.1:") addr then drop (length (str "127.0.0.1")) addr
  else if hasPrefix (str "localhost:") addr then drop (length (str "localhost")) addr
  else addr.

(** ** cmds.go *)

Definition isMostlyPrintable (b : bytes) : bool :=
  match b with
  | [] => true
  | _ => len (filter (fun c => (c < 32 \/ c = 127) /\ c <> 10 /\ c <> 13 /\ c <> 9) b) * 10 <=? len b
  end.

(** The needles of isDialRetryable (session.go). *)
Definition needles : list bytes := map str
  ["connection refused"; "connection reset"; "broken pipe"; "transport is closing"; "unavailable";
   "no servers available"; "error reading from server"; "connection error"; "i/o timeout"; "deadline exceeded";
   "name resolver error"; "failed to exit idle mode"]%string.
Definition isDialRetryable (text : bytes) : bool := existsb (contains (ToLower text)) needles.

(** ** What the user can type *)

(** Bytes with no meaning of their own outside quotes. *)
Definition plain (c : byte) : Prop := c <> 92 /\ c <> 39 /\ c <> 34 /\ isSpaceByte c = false.

(** A byte between double quotes. *)
Definition escapeByte (c : byte) : bytes := if (c =? 34) || (c =? 92) then [92; c] else [c].

(** [spells text arg]: the word [text] stands for the argument [arg]. *)
Inductive spells : bytes -> bytes -> Prop :=
  | sp_bare w : w <> [] -> Forall plain w -> spells w w
  | sp_single w : Forall (fun c => c <> 39) w -> spells (39 :: w ++ [39]) w
  | sp_double w : spells (34 :: flat_map escapeByte w ++ [34]) w.

(** A line: every word preceded by white space, which may be missing before the first. *)
Inductive spelled : bytes -> list bytes -> Prop :=
  | spd_end sp : Forall (fun c => isSpaceByte c = true) sp -> spelled sp []
  | spd_last sp text arg : Forall (fun c => isSpaceByte c = true) sp -> spells text arg -> spelled (sp ++ text) [arg]
  | spd_word sp text arg c line args :
      Forall (fun c => isSpaceByte c = true) sp -> spells text arg -> isSpaceByte c = true -> spelled line args ->
      spelled (sp ++ text ++ c :: line) (arg :: args).

(** The tokenizer between two words, and after one. *)
Definition idle (args : list bytes) : tok := mkTok args [] false false false false.
Definition inWord (args : list bytes) (w : bytes) : tok := mkTok args w false false false true.

Lemma tok_spaces sp args : Forall (fun c => isSpaceByte c = true) sp -> fold_left tokStep sp (idle args) = idle args.
Proof.
  induction 1 as [|c sp Hc Hsp IH]; [done|]. cbn [fold_left]. replace (tokStep (idle args) c) with (idle args); [done|].
  unfold tokStep, idle. cbn. rewrite Hc. unfold isSpaceByte in Hc. repeat case_match; zcmp; (done || lia).
Qed.

Lemma tok_plain w args w0 b :
  Forall plain w -> fold_left tokStep w (mkTok args w0 false false false b) = mkTok args (w0 ++ w) false false false (match w with [] => b | _ => true end).
Proof.
  intros H. revert w0 b. induction H as [|c w (H1 & H2 & H3 & H4) Hw IH]; intros w0 b; [by rewrite app_nil_r|].
  cbn [fold_left]. unfold tokStep at 2. cbn.
  rewrite (proj2 (Z.eqb_neq c 92)), (proj2 (Z.eqb_neq c 39)), (proj2 (Z.eqb_neq c 34)), H4 by done.
  unfold writeByte. cbn. rewrite IH, <- app_assoc. cbn. by destruct w.
Qed.

Lemma tok_single w args w0 :
  Forall (fun c => c <> 39) w -> fold_left tokStep w (mkTok args w0 true false false true) = mkTok args (w0 ++ w) true false false true.
Proof.
  intros H. revert w0. induction H as [|c w Hc Hw IH]; intros w0; [by rewrite app_nil_r|].
  cbn [fold_left]. unfold tokStep at 2. cbn. rewrite andb_false_r. rewrite (proj2 (Z.eqb_neq c 39)) by done.
  unfold writeByte. cbn. by rewrite IH, <- app_assoc.
Qed.

Lemma tok_double w args w0 :
  fold_left tokStep (flat_map escapeByte w) (mkTok args w0 false true false true) = mkTok args (w0 ++ w) false true false true.
Proof.
  revert w0. induction w as [|c w IH]; intros w0; [by rewrite app_nil_r|].
  cbn [flat_map]. rewrite fold_left_app.
  replace (fold_left tokStep (escapeByte c) (mkTok args w0 false true false true)) with (mkTok args (w0 ++ [c]) false true false true);
    [by rewrite IH, <- app_assoc|].
  unfold escapeByte. destruct (Z.eqb_spec c 34) as [->|H1]; [done|]. destruct (Z.eqb_spec c 92) as [->|H2]; [done|].
  cbn. unfold tokStep. cbn. by rewrite (proj2 (Z.eqb_neq c 34)), (proj2 (Z.eqb_neq c 92)) by done.
Qed.

Lemma tok_word text arg args : spells text arg -> fold_left tokStep text (idle args) = inWord args arg.
Proof.
  intros [w Hne Hw|w Hw|w].
  - unfold idle. rewrite tok_plain by done. by destruct w.
  - cbn [fold_left]. rewrite fold_left_app. change (tokStep (idle args) 39) with (mkTok args [] true false false true).
    by rewrite tok_single.
  - cbn [fold_left]. rewrite fold_left_app. change (tokStep (idle args) 34) with (mkTok args [] false true false true).
    by rewrite tok_double.
Qed.

Lemma tok_space c args arg : isSpaceByte c = true -> tokStep (inWord args arg) c = idle (args ++ [arg]).
Proof. intros Hc. unfold tokStep, inWord. cbn. rewrite Hc. unfold isSpaceByte in Hc. repeat case_match; zcmp; (done || lia). Qed.

Lemma tok_line line args args0 :
  spelled line args -> exists t, fold_left tokStep line (idle args0) = t /\
    escaped t = false /\ inSingle t || inDouble t = false /\ t_args (flush t) = args0 ++ args.
Proof.
  intros H. revert args0. induction H as [sp Hsp|sp text arg Hsp Ht|sp text arg c line args Hsp Ht Hc Hline IH]; intros args0.
  - exists (idle args0). by rewrite tok_spaces, app_nil_r.
  - exists (inWord args0 arg). by rewrite fold_left_app, tok_spaces, (tok_word text arg).
  - destruct (IH (args0 ++ [arg])) as (t & Ht' & He & Hq & Ha). exists t. rewrite !fold_left_app. cbn [fold_left].
    rewrite tok_spaces, (tok_word text arg), tok_space by done. by rewrite Ht', Ha, <- app_assoc.
Qed.

(** a line whose words are bare words, texts between single quotes or texts
    between double quotes with the quote and the backslash escaped, separated by
    white space, is split into exactly the arguments the words stand for;
    between double quotes every sequence of bytes can be written, the empty one
    included. *)
Lemma tokenize_spelled (line : bytes) (args : list bytes) : spelled line args -> tokenize line = inl args.
Proof.
  intros H. destruct (tok_line line args [] H) as (t & Ht & He & Hq & Ha). unfold tokenize. fold (idle []).
  by rewrite Ht, He, Hq, Ha.
Qed.

Lemma tokenize_spelled_witness :
  tokenize (str "put 'a b' " ++ [34; 92; 34; 195; 160; 34; 32]) = inl [str "put"; str "a b"; [34; 195; 160]].
Proof.
  apply tokenize_spelled.
  apply (spd_word [] (str "put") (str "put") 32 (str "'a b' " ++ [34; 92; 34; 195; 160; 34; 32])); [constructor| |done|].
  { apply sp_bare; [done|]. repeat constructor; done. }
  apply (spd_word [] (str "'a b'") (str "a b") 32 [34; 92; 34; 195; 160; 34; 32]); [constructor| |done|].
  { apply (sp_single (str "a b")). repeat constructor; done. }
  apply (spd_word [] [34; 92; 34; 195; 160; 34] [34; 195; 160] 32 []); [constructor|apply (sp_double [34; 195; 160])|done|].
  constructor. constructor.
Defined.

(** An unquoted "voilà" loses its last byte: 0xA0 is taken for a space. *)
Lemma tokenize_splits_utf8 :
  tokenize (str "get voil" ++ [195; 160]) = inl [str "get"; str "voil" ++ [195]].
Proof. reflexivity. Qed.

(** ** base64 *)

Lemma b64_char_value (v : Z) : 0 <= v < 64 -> b64_value (b64_char v) = Some v /\ b64_char v <> 10 /\ b64_char v <> 13.
Proof. intros H. unfold b64_char, b64_value. repeat (case_match; zcmp; try lia); split_and!; f_equal; lia. Qed.

(** The four digits of a 24-bit number, and back. *)
Lemma quantum (v : Z) :
  0 <= v < 2 ^ 24 ->
  v / 262144 * 262144 + v / 4096 mod 64 * 4096 + v / 64 mod 64 * 64 + v mod 64 = v /\
  0 <= v / 262144 < 64 /\ 0 <= v / 4096 mod 64 < 64 /\ 0 <= v / 64 mod 64 < 64 /\ 0 <= v mod 64 < 64.
Proof. intros H. Z.to_euclidean_division_equations. lia. Qed.

(** One quantum: whole, with one and with two bytes of padding. *)
Lemma decode_chars (v : Z) (s : bytes) :
  0 <= v < 2 ^ 24 ->
  decode_quanta (b64_char (v / 262144) :: b64_char (v / 4096 mod 64) :: b64_char (v / 64 mod 64) :: b64_char (v mod 64) :: s)
  = (fun out => v / 65536 :: v / 256 mod 256 :: v mod 256 :: out) <$> decode_quanta s.
Proof.
  intros Hr. destruct (quantum v Hr) as (Hv & Ha & Hb & Hc & Hd). cbn [decode_quanta].
  rewrite (proj1 (b64_char_value _ Ha)), (proj1 (b64_char_value _ Hb)), (proj1 (b64_char_value _ Hc)), (proj1 (b64_char_value _ Hd)).
  cbv zeta. by rewrite Hv.
Qed.
Lemma decode_pad1 (v : Z) :
  0 <= v < 2 ^ 16 ->
  decode_quanta [b64_char (v * 256 / 262144); b64_char (v * 256 / 4096 mod 64); b64_char (v * 256 / 64 mod 64); 61] = Some [v / 256; v mod 256].
Proof.
  intros Hr. destruct (quantum (v * 256)) as (Hv & Ha & Hb & Hc & Hd); [lia|]. cbn [decode_quanta].
  rewrite (proj1 (b64_char_value _ Ha)), (proj1 (b64_char_value _ Hb)), (proj1 (b64_char_value _ Hc)).
  change (b64_value 61) with (@None Z). cbv beta iota zeta. rewrite bool_decide_true by done. cbn [andb Z.eqb Pos.eqb].
  do 2 f_equal; [|f_equal]; Z.to_euclidean_division_equations; lia.
Qed.
Lemma decode_pad2 (x : Z) :
  is_byte x -> decode_quanta [b64_char (x * 65536 / 262144); b64_char (x * 65536 / 4096 mod 64); 61; 61] = Some [x].
Proof.
  intros Hr. unfold is_byte in Hr. destruct (quantum (x * 65536)) as (Hv & Ha & Hb & Hc & Hd); [lia|]. cbn [decode_quanta].
  rewrite (proj1 (b64_char_value _ Ha)), (proj1 (b64_char_value _ Hb)).
  change (b64_value 61) with (@None Z). cbv beta iota zeta. rewrite bool_decide_true by done. cbn [andb Z.eqb Pos.eqb].
  do 2 f_equal. Z.to_euclidean_division_equations; lia.
Qed.

Lemma no_break (v : Z) : 0 <= v < 64 -> b64_char v <> 10 /\ b64_char v <> 13.
Proof. apply b64_char_value. Qed.

Lemma EncodeToString_spec (n : nat) (b : bytes) :
  (length b <= n)%nat -> bytes_ok b ->
  decode_quanta (EncodeToString b) = Some b /\ Forall (fun c => c <> 10 /\ c <> 13) (EncodeToString b).
Proof.
  revert b. induction n as [|n IH]; intros b Hlen Hb; [by destruct b; [split; [done|constructor]|cbn in Hlen; lia]|].
  destruct b as [|x [|y [|z b]]]; [split; [done|constructor]|..];
    repeat match goal with H : Forall _ (_ :: _) |- _ => apply Forall_cons_1 in H as [? ?] end;
    cbn [EncodeToString]; cbv zeta; unfold is_byte in *.
  - destruct (quantum (x * 65536)) as (_ & ? & ? & _); [lia|].
    split; [by apply decode_pad2|]. by repeat (constructor; [auto using no_break|]).
  - replace (x * 65536 + y * 256) with ((x * 256 + y) * 256) by lia. destruct (quantum ((x * 256 + y) * 256)) as (_ & ? & ? & ? & _); [lia|].
    split; [|by repeat (constructor; [auto using no_break|])]. rewrite decode_pad1 by lia.
    do 2 f_equal; [|f_equal]; Z.to_euclidean_division_equations; lia.
  - destruct (quantum (x * 65536 + y * 256 + z)) as (_ & ? & ? & ? & ?); [lia|]. destruct (IH b) as [Hd Hf]; [cbn in Hlen; lia|done|].
    split; [|by repeat (constructor; [auto using no_break|])]. rewrite decode_chars, Hd by lia. cbn.
    f_equal. f_equal; [|f_equal; [|f_equal]]; Z.to_euclidean_division_equations; lia.
Qed.

(** What -base64 prints is what -base64 reads. *)
Theorem base64_roundtrip (b : bytes) : bytes_ok b -> DecodeString (EncodeToString b) = Some b.
Proof.
  intros Hb. destruct (EncodeToString_spec (length b) b (le_n _) Hb) as [Hd Hf]. unfold DecodeString.
  by rewrite filter_all.
Qed.
