(* ===== verification/Shell.v ===== *)
(** * The command-line client: cmd/sc

    The session with its seeds and its one retry, the commands, and the
    interactive loop.  A command is a function of the session, its arguments
    and the world; it returns an exit code and what it prints, as data: colours
    and number formats are left out.  The argument [env] stands for what the
    program calls: dialling a seed, a call of the client at a seed (the calls of
    [Call] and the three of Estimates) with the text
    of its error, an HTTP GET, reading a file, and the parsers of floats and
    durations of the standard library. *)
From stdpp Require Import strings.
From S2P Require Import Prelude Wire Collections Scored Scalars Sketches TopK Stream.
From S2P Require Import Vecset Store Ring Hints Config Engine Modes ModeOps.
From S2P Require Import Mesh CacheApi ApiProps Estimates ShellText.

(** ** What the program calls *)

#[warnings="-register-all"]
Inductive ShCall : Type -> Type :=
  | Typed {A} (c : Call A) : ShCall A
  | CallGeoDist (name a b : bytes) : ShCall (option float64)
  | CallGeoRadius (name : bytes) (lon lat radius : float64) (limit : Z) : ShCall (list GeoMember)
  | CallHLLCount (name : bytes) : ShCall (option Z).

Record ShEnv (W : Type) := mkShEnv {
  sh_dial : bytes -> W -> bool;
  sh_dialTLS : config -> bytes -> W -> bool;
  sh_call : forall A, bytes -> bytes -> ShCall A -> W -> (A + CliErr * bytes) * W;
  sh_http : bytes -> W -> option (Z * bytes);
  sh_read : bytes -> W -> option bytes;
  sh_ParseFloat : bytes -> option float64;
  sh_ParseFloat32 : bytes -> option float32;
  sh_ParseDuration : bytes -> option Z;
}.
Arguments sh_dial {W}.
Arguments sh_dialTLS {W}.
Arguments sh_call {W} _ {A}.
Arguments sh_http {W}.
Arguments sh_read {W}.
Arguments sh_ParseFloat {W}.
Arguments sh_ParseFloat32 {W}.
Arguments sh_ParseDuration {W}.

(** ** session.go *)

Inductive ShErr := NoSeeds | SeedsFailed | CallErr (e : CliErr) (text : bytes) | Redial (e : CliErr) (text : bytes).

Record session := mkSession { s_cfg : config; s_cli : bool; s_addr : bytes; seedIdx : Z }.

Definition newSession (cfg : config) : session := mkSession cfg false [] 0.
Definition with_cfg (s : session) (cfg : config) : session := mkSession cfg (s_cli s) (s_addr s) (seedIdx s).
Definition ConnectedAddr (s : session) : bytes := s_addr s.
Definition session_Close (s : session) : session := mkSession (s_cfg s) false (s_addr s) (seedIdx s).

Section shell.
Context {W : Type} (env : ShEnv W).

Definition dialOne (cfg : config) (addr : bytes) (w : W) : bool :=
  if negb (bool_decide (tlsCA cfg = [])) then sh_dialTLS env cfg addr w
  else if negb (bool_decide (tlsCert cfg = [])) || negb (bool_decide (tlsKey cfg = [])) then false
  else sh_dial env addr w.

(** The loop of dialLocked over the indexes it tries. *)
Fixpoint dialSeeds (s : session) (idxs : list Z) (w : W) : (bytes + ShErr) * session :=
  match idxs with
  | [] => (inr SeedsFailed, s)
  | idx :: idxs =>
      let a := default [] (addrs (s_cfg s) !! Z.to_nat idx) in
      if dialOne (s_cfg s) a w then (inl a, mkSession (s_cfg s) true a idx) else dialSeeds s idxs w
  end.

Definition dialLocked (s : session) (w : W) : (bytes + ShErr) * session :=
  let n := len (addrs (s_cfg s)) in
  if n =? 0 then (inr NoSeeds, s)
  else dialSeeds s (map (fun i => (seedIdx s mod n + Z.of_nat i) mod n) (seq 0 (Z.to_nat n))) w.

Definition Client (s : session) (w : W) : (bytes + ShErr) * session :=
  if s_cli s then (inl (s_addr s), s) else dialLocked s w.

Definition Invalidate (s : session) : session :=
  let n := len (addrs (s_cfg s)) in
  mkSession (s_cfg s) false [] (if 0 <? n then (seedIdx s + 1) mod n else seedIdx s).

(** One retry at the next seed when the error looks like one of the transport. *)
Definition withClient {A} (fn : bytes -> W -> (A + CliErr * bytes) * W) (s : session) (w : W) : (A + ShErr) * session * W :=
  match Client s w with
  | (inr err, s) => (inr err, s, w)
  | (inl addr, s) =>
      match fn addr w with
      | (inl a, w) => (inl a, s, w)
      | (inr (e, text), w) =>
          if negb (isDialRetryable text) then (inr (CallErr e text), s, w)
          else
            match Client (Invalidate s) w with
            | (inr _, s) => (inr (Redial e text), s, w)
            | (inl addr, s) =>
                match fn addr w with
                | (inl a, w) => (inl a, s, w)
                | (inr (e, text), w) => (inr (CallErr e text), s, w)
                end
            end
      end
  end.

(** ** Output *)

Record item := mkItem { it_Key : bytes; it_Found : bool; it_Value : bytes; it_Base64 : bool; it_Error : bytes }.

Inductive Out :=
  | OUsage | OBad (arg : bytes) | OUnknown (cmd : bytes) | OErr (err : ShErr) | OWarn (err : CliErr) | ONoFile
  | OOk | OBool (b : bool) | ONil | OInt (n : Z) | OLine (b : bytes) | ORaw (b : bytes) | ONote
  | OItem (it : item) | OFloat (x : float64) | OScored (score : float64) (m : bytes) | OPoint (p : GPoint)
  | OGeo (m : GeoMember) | OField (field value : bytes) | OCount (t : TEntry) | OHit (h : Hit) | OVec (v : list float32)
  | OEntry (id payload : bytes)
  | OGetJSON (seed : bytes) (items : list item) | OPutJSON (seed key : bytes) (n : Z) (ttl : option Z)
  | ODelJSON (seed : bytes) (keys : list bytes) (warning : option CliErr)
  | OAdmin (used : bytes) (code : Z) (body : bytes) | OAdminDown | OPing (addr : bytes)
  | OHelp | OVersion | OKeyspace (ks : bytes) | OSeeds (cur : bytes) (addrs admins : list bytes) | OConnected (addr : bytes)
  | ONotConnected (err : ShErr) | OUnknownSeed (target : bytes) | OTTL (d : option Z) | OJSONMode (b : bool)
  | OTimeout (d : Z) | OClear | OParse (e : tokErr) | OFlag.

(** The exit code and the output of a command, and what it leaves. *)
Definition Res : Type := (Z * list Out) * session * W.

Definition usage (s : session) (w : W) : Res := ((2, [OUsage]), s, w).

(** withClient around one call, then print. *)
Definition ask {A} (c : ShCall A) (show : A -> Z * list Out) (s : session) (w : W) : Res :=
  let '(r, s, w) := withClient (fun addr w => sh_call env addr (keyspace (s_cfg s)) c w) s w in
  (match r with inl a => show a | inr err => (1, [OErr err]) end, s, w).

Definition okLine (s : session) {A} (_ : A) : Z * list Out := (0, if quiet (s_cfg s) then [] else [OOk]).
Definition printInt (n : Z) : Z * list Out := (0, [OInt n]).
Definition boolExit (b : bool) : Z * list Out := (if b then 0 else 1, [OBool b]).
Definition orNil {A} (show : A -> list Out) (r : option A) : Z * list Out :=
  match r with Some a => (0, show a) | None => (1, [ONil]) end.

Definition withInt (arg : bytes) (k : Z -> Res) (s : session) (w : W) : Res :=
  match ParseInt arg with Some n => k n | None => ((2, [OBad arg]), s, w) end.
Definition withUint (arg : bytes) (k : Z -> Res) (s : session) (w : W) : Res :=
  match ParseUint arg with Some n => k n | None => ((2, [OBad arg]), s, w) end.
Definition withFloat (arg : bytes) (k : float64 -> Res) (s : session) (w : W) : Res :=
  match sh_ParseFloat env arg with Some x => k x | None => ((2, [OBad arg]), s, w) end.

(** ** get, put, del *)

Definition getItem (cfg : config) (k v : bytes) : item :=
  if base64 cfg then mkItem k true (EncodeToString v) true []
  else if utf8_Valid v && isMostlyPrintable v then mkItem k true v false []
  else mkItem k true (EncodeToString v) true [].

(** The loop over the keys; a retryable error ends it. *)
Fixpoint getKeys (cfg : config) (addr : bytes) (keys : list bytes) (w : W) : (list item * Z + CliErr * bytes) * W :=
  match keys with
  | [] => (inl ([], 0), w)
  | k :: keys =>
      let '(r, w) := sh_call env addr (keyspace cfg) (Typed (CallGet k)) w in
      let continue (it : item) (missed : Z) :=
        let '(rest, w) := getKeys cfg addr keys w in
        (match rest with inl (its, m) => inl (it :: its, missed + m) | inr err => inr err end, w) in
      match r with
      | inl v => continue (getItem cfg k v) 0
      | inr (CNotFound, _) => continue (mkItem k false [] false []) 1
      | inr (e, text) => if isDialRetryable text then (inr (e, text), w) else continue (mkItem k false [] false text) 1
      end
  end.

Definition printItem (cfg : config) (single : bool) (it : item) : list Out :=
  if negb (bool_decide (it_Error it = [])) then [OItem it]
  else if negb (it_Found it) then [if single then ONil else OItem it]
  else if single then
    if raw cfg then [ORaw (it_Value it)]
    else OLine (it_Value it) :: (if it_Base64 it && negb (base64 cfg) then [ONote] else [])
  else [OItem it].

Definition cmdGet (s : session) (keys : list bytes) (w : W) : Res :=
  match keys with
  | [] => usage s w
  | _ =>
      let '(r, s, w) := withClient (fun addr w => getKeys (s_cfg s) addr keys w) s w in
      (match r with
       | inr err => (1, [OErr err])
       | inl (items, missing) =>
           (if 0 <? missing then 1 else 0,
            if jsonOut (s_cfg s) then [OGetJSON (ConnectedAddr s) items]
            else flat_map (printItem (s_cfg s) (len keys =? 1)) items)
       end, s, w)
  end.

Definition putOpts (cfg : config) : option Z := if ttlSet cfg then Some (ttl cfg) else None.

Definition putValue (s : session) (key value : bytes) (w : W) : Res :=
  let '(r, s, w) := withClient (fun addr w => sh_call env addr (keyspace (s_cfg s)) (Typed (CallPut key value (putOpts (s_cfg s)))) w) s w in
  (match r with
   | inr err => (1, [OErr err])
   | inl _ => (0, if jsonOut (s_cfg s) then [OPutJSON (ConnectedAddr s) key (len value) (putOpts (s_cfg s))]
                  else if quiet (s_cfg s) then [] else [OOk])
   end, s, w).

Definition cmdPut (s : session) (args : list bytes) (w : W) : Res :=
  match args with
  | [] => usage s w
  | key :: rest =>
      if negb (bool_decide (filePath (s_cfg s) = [])) then
        match sh_read env (filePath (s_cfg s)) w with None => ((1, [ONoFile]), s, w) | Some value => putValue s key value w end
      else
        match rest with
        | [] => usage s w
        | _ =>
            if base64 (s_cfg s) then
              match DecodeString (join 32 rest) with None => ((1, [OBad (join 32 rest)]), s, w) | Some value => putValue s key value w end
            else putValue s key (join 32 rest) w
        end
  end.

(** Partial failures are not failures of the transport. *)
Definition isPartial (e : CliErr) : bool := match e with CPeerFailures _ | CKeyErrors _ => true | _ => false end.

Definition deleteKeys (cfg : config) (addr : bytes) (keys : list bytes) (w : W) : (option (CliErr * bytes) + CliErr * bytes) * W :=
  let '(r, w) := match keys with
    | [k] => sh_call env addr (keyspace cfg) (Typed (CallDelete k)) w
    | _ => sh_call env addr (keyspace cfg) (Typed (CallDeleteMany keys)) w
    end in
  (match r with
   | inl _ => inl None
   | inr (e, text) => if negb (isPartial e) && isDialRetryable text then inr (e, text) else inl (Some (e, text))
   end, w).

Definition cmdDel (s : session) (keys : list bytes) (w : W) : Res :=
  match keys with
  | [] => usage s w
  | _ =>
      let '(r, s, w) := withClient (fun addr w => deleteKeys (s_cfg s) addr keys w) s w in
      let ok warning := if jsonOut (s_cfg s) then [ODelJSON (ConnectedAddr s) keys warning] else if quiet (s_cfg s) then [] else [OOk] in
      (match r with
       | inr err => (1, [OErr err])
       | inl None => (0, ok None)
       | inl (Some (e, text)) => if isPartial e then (0, OWarn e :: ok (Some e)) else (1, [OErr (CallErr e text)])
       end, s, w)
  end.

(** ** Typed commands *)

Definition cmdBloom (s : session) (args : list bytes) (w : W) : Res :=
  match args with
  | op :: name :: item :: _ =>
      if bool_decide (ToLower op = str "add") then ask (Typed (CallBloomAdd name item)) (okLine s) s w
      else if bool_decide (ToLower op = str "test") then ask (Typed (CallBloomTest name item)) (fun b => (0, [OBool b])) s w
      else usage s w
  | _ => usage s w
  end.

Definition cmdSAdd (s : session) (args : list bytes) (w : W) : Res :=
  match args with name :: item :: _ => ask (Typed (CallSetAdd name item)) (okLine s) s w | _ => usage s w end.
Definition cmdSRem (s : session) (args : list bytes) (w : W) : Res :=
  match args with name :: item :: _ => ask (Typed (CallSetRemove name item)) (okLine s) s w | _ => usage s w end.
Definition cmdSIsMember (s : session) (args : list bytes) (w : W) : Res :=
  match args with name :: item :: _ => ask (Typed (CallSetContains name item)) boolExit s w | _ => usage s w end.
Definition cmdSCard (s : session) (args : list bytes) (w : W) : Res :=
  match args with name :: _ => ask (Typed (CallSetCard name)) printInt s w | _ => usage s w end.
Definition cmdSMembers (s : session) (args : list bytes) (w : W) : Res :=
  match args with name :: _ => ask (Typed (CallSetMembers name)) (fun l => (0, map OLine l)) s w | _ => usage s w end.

Definition printZMembers (l : list ZMember) : Z * list Out := (0, map (fun m => OScored (zm_score m) (zm_member m)) l).

Definition cmdZAdd (s : session) (args : list bytes) (w : W) : Res :=
  match args with
  | name :: scoreStr :: member :: _ =>
      withFloat scoreStr (fun score => ask (Typed (CallZAdd name member score)) (okLine s) s w) s w
  | _ => usage s w
  end.
Definition cmdZRem (s : session) (args : list bytes) (w : W) : Res :=
  match args with name :: member :: _ => ask (Typed (CallZRem name member)) (okLine s) s w | _ => usage s w end.
Definition cmdZScore (s : session) (args : list bytes) (w : W) : Res :=
  match args with name :: member :: _ => ask (Typed (CallZScore name member)) (orNil (fun x => [OFloat x])) s w | _ => usage s w end.
Definition cmdZCard (s : session) (args : list bytes) (w : W) : Res :=
  match args with name :: _ => ask (Typed (CallZCard name)) printInt s w | _ => usage s w end.
Definition cmdZRange (s : session) (args : list bytes) (w : W) : Res :=
  match args with
  | name :: a :: b :: _ =>
      withInt a (fun start => withInt b (fun stop => ask (Typed (CallZRange name start stop)) printZMembers s w) s w) s w
  | _ => usage s w
  end.
Definition cmdZRangeByScore (s : session) (args : list bytes) (w : W) : Res :=
  match args with
  | name :: a :: b :: _ =>
      withFloat a (fun min => withFloat b (fun max => ask (Typed (CallZRangeByScore name min max)) printZMembers s w) s w) s w
  | _ => usage s w
  end.

Definition cmdGeoAdd (s : session) (args : list bytes) (w : W) : Res :=
  match args with
  | name :: a :: b :: member :: _ =>
      withFloat a (fun lon => withFloat b (fun lat => ask (Typed (CallGeoAdd name member lon lat)) (okLine s) s w) s w) s w
  | _ => usage s w
  end.
Definition cmdGeoRem (s : session) (args : list bytes) (w : W) : Res :=
  match args with name :: member :: _ => ask (Typed (CallGeoRem name member)) (okLine s) s w | _ => usage s w end.
Definition cmdGeoPos (s : session) (args : list bytes) (w : W) : Res :=
  match args with name :: member :: _ => ask (Typed (CallGeoPos name member)) (orNil (fun p => [OPoint p])) s w | _ => usage s w end.
Definition cmdGeoCard (s : session) (args : list bytes) (w : W) : Res :=
  match args with name :: _ => ask (Typed (CallGeoCard name)) printInt s w | _ => usage s w end.
Definition cmdGeoDist (s : session) (args : list bytes) (w : W) : Res :=
  match args with name :: a :: b :: _ => ask (CallGeoDist name a b) (orNil (fun x => [OFloat x])) s w | _ => usage s w end.
Definition cmdGeoRadius (s : session) (args : list bytes) (w : W) : Res :=
  match args with
  | name :: a :: b :: r :: rest =>
      let go limit lon lat rad := ask (CallGeoRadius name lon lat rad limit) (fun l => (0, map OGeo l)) s w in
      withFloat a (fun lon => withFloat b (fun lat => withFloat r (fun rad =>
        match rest with [] => go 0 lon lat rad | n :: _ => withInt n (fun limit => go limit lon lat rad) s w end) s w) s w) s w
  | _ => usage s w
  end.

Definition cmdLPush (s : session) (args : list bytes) (w : W) : Res :=
  match args with name :: item :: _ => ask (Typed (CallLPush name item)) (okLine s) s w | _ => usage s w end.
Definition cmdRPush (s : session) (args : list bytes) (w : W) : Res :=
  match args with name :: item :: _ => ask (Typed (CallRPush name item)) (okLine s) s w | _ => usage s w end.
Definition cmdLPop (s : session) (args : list bytes) (w : W) : Res :=
  match args with name :: _ => ask (Typed (CallLPop name)) (orNil (fun i => [OLine i])) s w | _ => usage s w end.
Definition cmdRPop (s : session) (args : list bytes) (w : W) : Res :=
  match args with name :: _ => ask (Typed (CallRPop name)) (orNil (fun i => [OLine i])) s w | _ => usage s w end.
Definition cmdLLen (s : session) (args : list bytes) (w : W) : Res :=
  match args with name :: _ => ask (Typed (CallLLen name)) printInt s w | _ => usage s w end.
Definition cmdLIndex (s : session) (args : list bytes) (w : W) : Res :=
  match args with
  | name :: a :: _ => withInt a (fun idx => ask (Typed (CallLIndex name idx)) (orNil (fun i => [OLine i])) s w) s w
  | _ => usage s w
  end.
Definition cmdLRange (s : session) (args : list bytes) (w : W) : Res :=
  match args with
  | name :: a :: b :: _ =>
      withInt a (fun start => withInt b (fun stop =>
        ask (Typed (CallLRange name start stop)) (fun l => (0, map OLine l)) s w) s w) s w
  | _ => usage s w
  end.

Definition cmdHSet (s : session) (args : list bytes) (w : W) : Res :=
  match args with
  | name :: field :: (_ :: _) as value => ask (Typed (CallHSet name field (join 32 value))) (okLine s) s w
  | _ => usage s w
  end.
Definition cmdHGet (s : session) (args : list bytes) (w : W) : Res :=
  match args with name :: field :: _ => ask (Typed (CallHGet name field)) (orNil (fun v => [OLine v])) s w | _ => usage s w end.
Definition cmdHDel (s : session) (args : list bytes) (w : W) : Res :=
  match args with name :: field :: _ => ask (Typed (CallHDel name field)) (okLine s) s w | _ => usage s w end.
Definition cmdHExists (s : session) (args : list bytes) (w : W) : Res :=
  match args with name :: field :: _ => ask (Typed (CallHExists name field)) boolExit s w | _ => usage s w end.
Definition cmdHLen (s : session) (args : list bytes) (w : W) : Res :=
  match args with name :: _ => ask (Typed (CallHLen name)) printInt s w | _ => usage s w end.
Definition cmdHGetAll (s : session) (args : list bytes) (w : W) : Res :=
  match args with name :: _ => ask (Typed (CallHGetAll name)) (fun l => (0, map (fun f => OField f.1 f.2) l)) s w | _ => usage s w end.

Definition cmdIncr (s : session) (args : list bytes) (w : W) : Res :=
  match args with
  | [name] => ask (Typed (CallIncr name 1)) printInt s w
  | [name; d] => withInt d (fun delta => ask (Typed (CallIncr name delta)) printInt s w) s w
  | _ => usage s w
  end.
Definition cmdCGet (s : session) (args : list bytes) (w : W) : Res :=
  match args with name :: _ => ask (Typed (CallCounterGet name)) (orNil (fun n => [OInt n])) s w | _ => usage s w end.

Definition cmdJSONSet (s : session) (args : list bytes) (w : W) : Res :=
  match args with
  | name :: path :: (_ :: _) as value => ask (Typed (CallJsonSet name path (join 32 value))) (okLine s) s w
  | _ => usage s w
  end.
Definition pathArg (rest : list bytes) : bytes := match rest with path :: _ => path | [] => str "$" end.
Definition cmdJSONGet (s : session) (args : list bytes) (w : W) : Res :=
  match args with name :: rest => ask (Typed (CallJsonGet name (pathArg rest))) (orNil (fun v => [OLine v])) s w | _ => usage s w end.
Definition cmdJSONDel (s : session) (args : list bytes) (w : W) : Res :=
  match args with name :: rest => ask (Typed (CallJsonDel name (pathArg rest))) (okLine s) s w | _ => usage s w end.

Definition bitArg (a : bytes) : option bool :=
  if bool_decide (a = str "0") then Some false else if bool_decide (a = str "1") then Some true else None.
Definition cmdBitSet (s : session) (args : list bytes) (w : W) : Res :=
  match args with
  | [name; o; b] =>
      withUint o (fun off => match bitArg b with None => usage s w | Some bit => ask (Typed (CallBitSet name off bit)) (okLine s) s w end) s w
  | _ => usage s w
  end.
Definition cmdBitGet (s : session) (args : list bytes) (w : W) : Res :=
  match args with
  | [name; o] => withUint o (fun off => ask (Typed (CallBitGet name off)) (orNil (fun b : bool => [OInt (if b then 1 else 0)])) s w) s w
  | _ => usage s w
  end.
Definition cmdBitCount (s : session) (args : list bytes) (w : W) : Res :=
  match args with
  | [name] => ask (Typed (CallBitCount name 0 (-1))) printInt s w
  | [name; a; b] => withInt a (fun start => withInt b (fun stop => ask (Typed (CallBitCount name start stop)) printInt s w) s w) s w
  | _ => usage s w
  end.
Definition cmdBitPos (s : session) (args : list bytes) (w : W) : Res :=
  let go name bit start stop := ask (Typed (CallBitPos name bit start stop)) (orNil (fun n => [OInt n])) s w in
  match args with
  | [name; b] => match bitArg b with None => usage s w | Some bit => go name bit 0 (-1) end
  | [name; b; x; y] =>
      match bitArg b with
      | None => usage s w
      | Some bit => withInt x (fun start => withInt y (fun stop => go name bit start stop) s w) s w
      end
  | _ => usage s w
  end.

(** One call per item; a failure ends the loop. *)
Fixpoint askEach (c : bytes -> ShCall unit) (items : list bytes) (s : session) (w : W) : Res :=
  match items with
  | [] => ((0, []), s, w)
  | item :: items =>
      let '((code, out), s, w) := ask (c item) (okLine s) s w in
      if code =? 0 then let '((code, out'), s, w) := askEach c items s w in ((code, out ++ out'), s, w)
      else ((code, out), s, w)
  end.
Definition cmdHLLAdd (s : session) (args : list bytes) (w : W) : Res :=
  match args with name :: (_ :: _) as items => askEach (fun item => Typed (CallHLLAdd name item)) items s w | _ => usage s w end.
Definition cmdHLLCount (s : session) (args : list bytes) (w : W) : Res :=
  match args with [name] => ask (CallHLLCount name) (orNil (fun n => [OInt n])) s w | _ => usage s w end.
Definition cmdTopKAdd (s : session) (args : list bytes) (w : W) : Res :=
  match args with name :: (_ :: _) as items => askEach (fun item => Typed (CallTopKAdd name item)) items s w | _ => usage s w end.
Definition cmdTopKList (s : session) (args : list bytes) (w : W) : Res :=
  match args with [name] => ask (Typed (CallTopKList name)) (orNil (map OCount)) s w | _ => usage s w end.
Definition cmdCMSIncr (s : session) (args : list bytes) (w : W) : Res :=
  match args with
  | [name; item] => ask (Typed (CallCMSIncr name item 1)) (okLine s) s w
  | [name; item; a] => withUint a (fun n => ask (Typed (CallCMSIncr name item n)) (okLine s) s w) s w
  | _ => usage s w
  end.
Definition cmdCMSQuery (s : session) (args : list bytes) (w : W) : Res :=
  match args with [name; item] => ask (Typed (CallCMSQuery name item)) (orNil (fun n => [OInt n])) s w | _ => usage s w end.

(** *** Vector sets *)

Fixpoint parseParts (parts : list bytes) : option (list float32) :=
  match parts with
  | [] => Some []
  | p :: ps =>
      match sh_ParseFloat32 env (TrimSpace p) with
      | None => None
      | Some f => (fun fs => f :: fs) <$> parseParts ps
      end
  end.
Definition parseVec (a : bytes) : option (list float32) := parseParts (split 44 a).

Definition withVec (arg : bytes) (k : list float32 -> Res) (s : session) (w : W) : Res :=
  match parseVec arg with Some v => k v | None => ((2, [OBad arg]), s, w) end.

Definition cmdVAdd (s : session) (args : list bytes) (w : W) : Res :=
  match args with
  | [name; member; v] => withVec v (fun vec => ask (Typed (CallVAdd name member vec)) (okLine s) s w) s w
  | _ => usage s w
  end.
Definition cmdVRem (s : session) (args : list bytes) (w : W) : Res :=
  match args with [name; member] => ask (Typed (CallVRem name member)) (okLine s) s w | _ => usage s w end.
Definition cmdVSim (s : session) (args : list bytes) (w : W) : Res :=
  let go name vec k := ask (Typed (CallVSim name vec k)) (fun l => (0, map OHit l)) s w in
  match args with
  | [name; v] => withVec v (fun vec => go name vec 0) s w
  | [name; v; a] => withVec v (fun vec => withInt a (fun k => go name vec k) s w) s w
  | _ => usage s w
  end.
(** The presence bit is dropped: a missing name has card 0. *)
Definition cmdVCard (s : session) (args : list bytes) (w : W) : Res :=
  match args with [name] => ask (Typed (CallVCard name)) (fun n => printInt (default 0 n)) s w | _ => usage s w end.
Definition cmdVDim (s : session) (args : list bytes) (w : W) : Res :=
  match args with [name] => ask (Typed (CallVDim name)) (orNil (fun n => [OInt n])) s w | _ => usage s w end.
Definition cmdVEmb (s : session) (args : list bytes) (w : W) : Res :=
  match args with [name; member] => ask (Typed (CallVEmb name member)) (orNil (fun v => [OVec v])) s w | _ => usage s w end.

(** *** Streams *)

Definition cmdXAdd (s : session) (args : list bytes) (w : W) : Res :=
  match args with
  | name :: star :: (_ :: _) as payload =>
      if bool_decide (star = str "*") then
        ask (Typed (CallXAdd name (join 32 payload))) (fun id => (0, if quiet (s_cfg s) then [] else [OLine id])) s w
      else usage s w
  | _ => usage s w
  end.
Definition cmdXLen (s : session) (args : list bytes) (w : W) : Res :=
  match args with [name] => ask (Typed (CallXLen name)) (orNil (fun n => [OInt n])) s w | _ => usage s w end.
Definition cmdXRangeDir (rev : bool) (s : session) (args : list bytes) (w : W) : Res :=
  let go name start stop count :=
    ask (Typed (if rev then CallXRevRange name start stop count else CallXRange name start stop count))
      (fun rows => (0, map (fun r => OEntry r.1 r.2) rows)) s w in
  match args with
  | [name; start; stop] => go name start stop 0
  | [name; start; stop; a] => match ParseInt a with Some count => go name start stop count | None => usage s w end
  | _ => usage s w
  end.
Definition cmdXRange : session -> list bytes -> W -> Res := cmdXRangeDir false.
Definition cmdXRevRange : session -> list bytes -> W -> Res := cmdXRangeDir true.
Definition cmdXDel (s : session) (args : list bytes) (w : W) : Res :=
  match args with [name; id] => ask (Typed (CallXDel name id)) (okLine s) s w | _ => usage s w end.
Definition cmdXTrim (s : session) (args : list bytes) (w : W) : Res :=
  match args with
  | [name; a] => match ParseInt a with Some n => ask (Typed (CallXTrim name n)) (okLine s) s w | None => usage s w end
  | _ => usage s w
  end.

(** ** Admin and ping *)

(** adminGETOne: the base URL without its trailing slashes, and the path. *)
Fixpoint trimSlashes (rs : bytes) : bytes := match rs with 47 :: rs => trimSlashes rs | _ => rs end.
Definition adminURL (admin path : bytes) : bytes :=
  let base := if hasPrefix (str "http://") admin || hasPrefix (str "https://") admin then admin else str "http://" ++ admin in
  rev (trimSlashes (rev base)) ++ path.
Definition adminGETOne (admin path : bytes) (w : W) : option (Z * bytes) := sh_http env (adminURL admin path) w.

(** The first seed that answers. *)
Fixpoint adminGET (admins : list bytes) (path : bytes) (w : W) : option (bytes * Z * bytes) :=
  match admins with
  | [] => None
  | a :: admins =>
      match adminGETOne a path w with Some (code, body) => Some (a, code, body) | None => adminGET admins path w end
  end.

Definition cmdAdmin (path : bytes) (s : session) (_ : list bytes) (w : W) : Res :=
  (match adminGET (admins (s_cfg s)) path w with
   | None => (1, [OAdminDown])
   | Some (used, code, body) => (if 400 <=? code then 1 else 0, [OAdmin used code body])
   end, s, w).

Definition cmdPing (s : session) (_ : list bytes) (w : W) : Res :=
  let '(r, s, w) := withClient (fun addr w =>
      let '(r, w) := sh_call env addr (keyspace (s_cfg s)) (Typed (CallGet (str "__sc_ping__"))) w in
      (match r with inl _ | inr (CNotFound, _) => inl addr | inr err => inr err end, w)) s w in
  (match r with
   | inr err => (1, [OErr err])
   | inl addr =>
       (0, OPing addr :: match adminGET (admins (s_cfg s)) (str "/healthz") w with
                         | None => [OAdminDown]
                         | Some (used, code, body) => [OAdmin used code (if jsonOut (s_cfg s) then body else [])]
                         end)
   end, s, w).

(** ** dispatch *)

Definition commands : list (string * (session -> list bytes -> W -> Res)) :=
  [("get", cmdGet); ("put", cmdPut); ("set", cmdPut); ("del", cmdDel); ("delete", cmdDel); ("rm", cmdDel); ("ping", cmdPing);
   ("peers", cmdAdmin (str "/peers")); ("keyspaces", cmdAdmin (str "/keyspaces")); ("ks", cmdAdmin (str "/keyspaces"));
   ("metrics", cmdAdmin (str "/metrics")); ("health", cmdAdmin (str "/healthz")); ("healthz", cmdAdmin (str "/healthz"));
   ("ready", cmdAdmin (str "/readyz")); ("readyz", cmdAdmin (str "/readyz")); ("bloom", cmdBloom); ("sadd", cmdSAdd);
   ("srem", cmdSRem); ("sismember", cmdSIsMember); ("scard", cmdSCard); ("smembers", cmdSMembers); ("zadd", cmdZAdd);
   ("zrem", cmdZRem); ("zscore", cmdZScore); ("zcard", cmdZCard); ("zrange", cmdZRange); ("zrangebyscore", cmdZRangeByScore);
   ("geoadd", cmdGeoAdd); ("georem", cmdGeoRem); ("geopos", cmdGeoPos); ("geocard", cmdGeoCard); ("geodist", cmdGeoDist);
   ("georadius", cmdGeoRadius); ("lpush", cmdLPush); ("rpush", cmdRPush); ("lpop", cmdLPop); ("rpop", cmdRPop);
   ("llen", cmdLLen); ("lindex", cmdLIndex); ("lrange", cmdLRange); ("hset", cmdHSet); ("hget", cmdHGet); ("hdel", cmdHDel);
   ("hexists", cmdHExists); ("hlen", cmdHLen); ("hgetall", cmdHGetAll); ("incr", cmdIncr); ("cget", cmdCGet);
   ("jsonset", cmdJSONSet); ("jsonget", cmdJSONGet); ("jsondel", cmdJSONDel); ("bitset", cmdBitSet); ("bitget", cmdBitGet);
   ("bitcount", cmdBitCount); ("bitpos", cmdBitPos); ("hlladd", cmdHLLAdd); ("hllcount", cmdHLLCount); ("topkadd", cmdTopKAdd);
   ("topklist", cmdTopKList); ("cmsincr", cmdCMSIncr); ("cmsquery", cmdCMSQuery); ("vadd", cmdVAdd); ("vrem", cmdVRem);
   ("vsim", cmdVSim); ("vcard", cmdVCard); ("vdim", cmdVDim); ("xadd", cmdXAdd); ("xlen", cmdXLen); ("xrange", cmdXRange);
   ("xrevrange", cmdXRevRange); ("xdel", cmdXDel); ("xtrim", cmdXTrim); ("vemb", cmdVEmb)]%string.

Definition dispatch (cmd : bytes) (s : session) (args : list bytes) (w : W) : Res :=
  match find (fun c => bool_decide (str c.1 = ToLower cmd)) commands with
  | Some (_, h) => h s args w
  | None => ((2, [OUnknown cmd; ONote]), s, w)
  end.

(** ** repl.go *)

(** What a line does to the loop: an exit code, or go on. *)
Definition LineRes : Type := (option Z * list Out) * session * W.
Definition said (out : list Out) (s : session) (w : W) : LineRes := ((None, out), s, w).

Definition tryConnect (s : session) (w : W) : LineRes :=
  match Client s w with
  | (inr err, s) => said [OErr err] s w
  | (inl addr, s) => said [OConnected addr] s w
  end.

(** The seed a connect names: exactly, or by a part of it. *)
Definition findSeed (seeds : list bytes) (target : bytes) : option nat :=
  match list_find (fun a => a = target) seeds with
  | Some (i, _) => Some i
  | None => fst <$> list_find (fun a => contains a target = true) seeds
  end.

Definition replConnect (s : session) (rest : list bytes) (w : W) : LineRes :=
  let s := Invalidate s in
  match rest with
  | [target] =>
      match findSeed (addrs (s_cfg s)) target with
      | None => said [OUnknownSeed target] s w
      | Some i => tryConnect (mkSession (s_cfg s) (s_cli s) (s_addr s) (Z.of_nat i)) w
      end
  | _ => tryConnect s w
  end.

Definition ttlShown (c : config) : option Z := if ttlSet c then Some (ttl c) else None.

Definition replTTL (s : session) (rest : list bytes) (w : W) : LineRes :=
  match rest with
  | [] => said [OTTL (ttlShown (s_cfg s))] s w
  | a :: _ =>
      if bool_decide (a = str "default") || bool_decide (a = str "off") then said [OTTL None] (with_cfg s (with_ttl (s_cfg s) 0 false)) w
      else match sh_ParseDuration env a with
      | None => said [OBad a] s w
      | Some d => said [OTTL (Some d)] (with_cfg s (with_ttl (s_cfg s) d true)) w
      end
  end.

Definition onOff (a : bytes) : option bool :=
  let a := ToLower a in
  if bool_decide (a ∈ map str ["on"; "1"; "true"]%string) then Some true
  else if bool_decide (a ∈ map str ["off"; "0"; "false"]%string) then Some false else None.

Definition replJSON (s : session) (rest : list bytes) (w : W) : LineRes :=
  match rest with
  | [a] =>
      match onOff a with
      | None => said [OUsage] s w
      | Some b => said [OJSONMode b] (with_cfg s (with_output (s_cfg s) b (raw (s_cfg s)) (quiet (s_cfg s)))) w
      end
  | _ => said [OJSONMode (jsonOut (s_cfg s))] s w
  end.

Definition replTimeout (s : session) (rest : list bytes) (w : W) : LineRes :=
  match rest with
  | [a] =>
      match sh_ParseDuration env a with
      | None => said [OBad a] s w
      | Some d => said [OTimeout d] (with_cfg s (with_timeout (s_cfg s) d)) w
      end
  | _ => said [OTimeout (timeout (s_cfg s))] s w
  end.

(** A cache command: the file and the encoding are reset, the flags peeled off. *)
Definition replCommand (cmd : bytes) (s : session) (rest : list bytes) (w : W) : LineRes :=
  match applyREPLFlags (sh_ParseDuration env) (with_input (s_cfg s) [] false) rest with
  | (cfg, None) => said [OFlag] (with_cfg s cfg) w
  | (cfg, Some args) => let '((_, out), s, w) := dispatch cmd (with_cfg s cfg) args w in said out s w
  end.

Definition isOneOf (cmd : bytes) (names : list string) : bool := bool_decide (cmd ∈ map str names).

(** One line of the loop of runREPL. *)
Definition replLine (s : session) (text : bytes) (w : W) : LineRes :=
  let line := TrimSpace text in
  if bool_decide (line = []) then said [] s w
  else match tokenize line with
  | inr e => said [OParse e] s w
  | inl [] => said [] s w
  | inl (a :: rest) =>
      let cmd := ToLower a in
      if isOneOf cmd ["quit"; "exit"; "q"]%string then ((Some 0, []), s, w)
      else if isOneOf cmd ["help"; "?"]%string then said [OHelp] s w
      else if isOneOf cmd ["version"]%string then said [OVersion] s w
      else if isOneOf cmd ["keyspace"; "use"; "ks"]%string then
        match rest with
        | [k] => said [OKeyspace k] (with_cfg s (with_keyspace (s_cfg s) k)) w
        | _ => said [OUsage] s w
        end
      else if isOneOf cmd ["seeds"; "addrs"]%string then said [OSeeds (ConnectedAddr s) (addrs (s_cfg s)) (admins (s_cfg s))] s w
      else if isOneOf cmd ["connect"; "reconnect"]%string then replConnect s rest w
      else if isOneOf cmd ["ttl"]%string then replTTL s rest w
      else if isOneOf cmd ["json"]%string then replJSON s rest w
      else if isOneOf cmd ["timeout"]%string then replTimeout s rest w
      else if isOneOf cmd ["clear"]%string then said [OClear] s w
      else replCommand cmd s rest w
  end.

(** The loop over the lines of the input. *)
Fixpoint replLoop (s : session) (input : list bytes) (w : W) : Res :=
  match input with
  | [] => ((0, []), s, w)
  | line :: input =>
      let '((exit, out), s, w) := replLine s line w in
      match exit with
      | Some code => ((code, out), s, w)
      | None => let '((code, out'), s, w) := replLoop s input w in ((code, out ++ out'), s, w)
      end
  end.

Definition runREPL (cfg : config) (input : list bytes) (w : W) : Res :=
  let '(r, s) := Client (newSession cfg) w in
  let '((code, out), s, w) := replLoop s input w in
  ((code, match r with inl addr => OConnected addr | inr err => ONotConnected err end :: out), session_Close s, w).

End shell.
