(* ===== verification/ShellProps.v ===== *)
(** * What the command-line client guarantees

    The session stays on one of the configured seeds whatever is typed, and
    connects when any seed can be reached; a line that spells a command makes
    exactly that call of the client, once, or twice when the first failure looks
    like one of the transport.  Concrete runs show where this goes wrong: an
    increment applied twice, negative numbers taken for flags, flags that
    outlive their command. *)
From stdpp Require Import strings.
From S2P Require Import Prelude Wire Collections Scored Scalars Sketches TopK Stream.
From S2P Require Import Vecset Store Ring Hints Config Engine Modes ModeOps.
From S2P Require Import EngineProps ModesInv ModesProps Mesh MeshProps CacheApi ApiProps Estimates ShellText.
From S2P Require Import Shell.

Section shell.
Context {W : Type} (env : ShEnv W).

(** ** The session *)

(** There are seeds, the index is of one of them, and a connection is to it. *)
Definition session_ok (s : session) : Prop :=
  0 <= seedIdx s < len (addrs (s_cfg s)) /\
  (s_cli s = true -> addrs (s_cfg s) !! Z.to_nat (seedIdx s) = Some (s_addr s)).

(** [s'] is [s] after some calls: the same configuration, still well formed. *)
Definition follows (s s' : session) : Prop := s_cfg s' = s_cfg s /\ session_ok s'.

(** The order in which dialLocked tries the seeds. *)
Definition tried (s : session) : list Z :=
  let n := len (addrs (s_cfg s)) in map (fun i => (seedIdx s mod n + Z.of_nat i) mod n) (seq 0 (Z.to_nat n)).

Definition seedAt (s : session) (idx : Z) : bytes := default [] (addrs (s_cfg s) !! Z.to_nat idx).

(** The first seed of [idxs] that can be dialled. *)
Lemma dialSeeds_spec (s : session) (idxs : list Z) (w : W) :
  match list_find (fun i => dialOne env (s_cfg s) (seedAt s i) w = true) idxs with
  | Some (_, i) => dialSeeds env s idxs w = (inl (seedAt s i), mkSession (s_cfg s) true (seedAt s i) i)
  | None => dialSeeds env s idxs w = (inr SeedsFailed, s)
  end.
Proof.
  induction idxs as [|i idxs IH]; [done|]. cbn [list_find dialSeeds]. fold (seedAt s i).
  destruct (decide (dialOne env (s_cfg s) (seedAt s i) w = true)) as [H|H]; [by rewrite H|].
  apply not_true_is_false in H. rewrite H. destruct (list_find _ idxs) as [[? j]|]; exact IH.
Qed.

Lemma tried_range (s : session) (i : Z) : 0 < len (addrs (s_cfg s)) -> i ∈ tried s -> 0 <= i < len (addrs (s_cfg s)).
Proof. intros Hn (j & -> & _)%list_elem_of_fmap. by apply Z.mod_pos_bound. Qed.

(** Every seed is tried. *)
Lemma tried_all (s : session) (i : Z) : 0 <= seedIdx s -> 0 <= i < len (addrs (s_cfg s)) -> i ∈ tried s.
Proof.
  intros Hs Hi. set (n := len (addrs (s_cfg s))) in *. apply list_elem_of_fmap.
  exists (Z.to_nat ((i - seedIdx s) mod n)). pose proof (Z.mod_pos_bound (i - seedIdx s) n ltac:(lia)).
  split; [|apply elem_of_seq; fold n; lia]. fold n. rewrite Z2Nat.id by lia. rewrite <- Zplus_mod.
  replace (seedIdx s + (i - seedIdx s)) with i by lia. by rewrite Z.mod_small.
Qed.

Lemma seedAt_lookup (s : session) (i : Z) :
  0 <= i < len (addrs (s_cfg s)) -> addrs (s_cfg s) !! Z.to_nat i = Some (seedAt s i).
Proof.
  intros Hi. unfold seedAt. destruct (lookup_lt_is_Some_2 (addrs (s_cfg s)) (Z.to_nat i)) as [a Ha]; [unfold len in Hi; lia|].
  by rewrite Ha.
Qed.

Lemma Client_ok (s : session) (w : W) :
  session_ok s -> follows s (Client env s w).2 /\ (forall a, (Client env s w).1 = inl a -> s_cli (Client env s w).2 = true).
Proof.
  intros Hs. unfold Client. destruct (s_cli s) eqn:Hc; [done|]. unfold dialLocked. destruct Hs as [Hi Hcl].
  destruct (Z.eqb_spec (len (addrs (s_cfg s))) 0) as [|Hn]; [lia|]. fold (tried s).
  pose proof (dialSeeds_spec s (tried s) w) as H. destruct (list_find _ (tried s)) as [[k i]|] eqn:E; rewrite H; [|done].
  apply list_find_Some in E as (E & _ & _). apply list_elem_of_lookup_2, tried_range in E; [|lia].
  split; [|done]. split; [done|]. split; [done|]. intros _. by apply seedAt_lookup.
Qed.

(** whenever some configured seed can be dialled, Client returns a
    connection: the one it has, or one to the first seed at or after the sticky
    index, in cyclic order, that can be dialled; it fails only when no seed
    can. *)
Theorem client_connects (s : session) (w : W) :
  session_ok s -> s_cli s = false ->
  (forall a, a ∈ addrs (s_cfg s) -> dialOne env (s_cfg s) a w = false) /\ Client env s w = (inr SeedsFailed, s) \/
  exists k i, list_find (fun i => dialOne env (s_cfg s) (seedAt s i) w = true) (tried s) = Some (k, i) /\
    Client env s w = (inl (seedAt s i), mkSession (s_cfg s) true (seedAt s i) i).
Proof.
  intros [Hi _] Hc. unfold Client, dialLocked. rewrite Hc.
  destruct (Z.eqb_spec (len (addrs (s_cfg s))) 0) as [|Hn]; [lia|]. fold (tried s).
  pose proof (dialSeeds_spec s (tried s) w) as H. destruct (list_find _ (tried s)) as [[k i]|] eqn:E; [right; by exists k, i|left].
  split; [|done]. apply list_find_None in E. intros a [j Hj]%list_elem_of_lookup.
  pose proof (lookup_lt_Some _ _ _ Hj) as Hlt. rewrite Forall_forall in E.
  specialize (E (Z.of_nat j) (tried_all s (Z.of_nat j) ltac:(lia) ltac:(unfold len; lia))).
  unfold seedAt in E. rewrite Nat2Z.id, Hj in E. by apply not_true_is_false.
Qed.

(** ** Calls *)

Lemma Invalidate_ok (s : session) : session_ok s -> follows s (Invalidate s).
Proof.
  intros [Hi _]. split; [done|]. unfold Invalidate, session_ok. cbn. split; [|done].
  destruct (Z.ltb_spec 0 (len (addrs (s_cfg s)))); [by apply Z.mod_pos_bound|lia].
Qed.

Lemma follows_trans (s1 s2 s3 : session) : follows s1 s2 -> follows s2 s3 -> follows s1 s3.
Proof. intros [H1 _] [H2 H3]. split; [congruence|done]. Qed.

Lemma withClient_ok {A} (fn : bytes -> W -> (A + CliErr * bytes) * W) (s : session) (w : W) :
  session_ok s -> follows s (withClient env fn s w).1.2.
Proof.
  intros Hs. unfold withClient. destruct (Client_ok s w Hs) as [Hf _]. destruct (Client env s w) as [[addr|err] s1]; [|done].
  cbn [fst snd] in Hf. destruct (fn addr w) as [[a|[e text]] w1]; [done|]. destruct (isDialRetryable text); [|done]. cbn [negb].
  pose proof (Invalidate_ok s1 (proj2 Hf)) as Hi. destruct (Client_ok (Invalidate s1) w1 (proj2 Hi)) as [Hf2 _].
  destruct (Client env (Invalidate s1) w1) as [[addr2|err2] s2]; cbn [fst snd] in Hf2;
    [destruct (fn addr2 w1) as [[a2|[e2 text2]] w2]|]; cbn [fst snd];
    (eapply follows_trans; [exact Hf|]); (eapply follows_trans; [exact Hi|exact Hf2]).
Qed.

(** The calls a command made, by where they left the world: one, or two when
    the first failed with a retryable text. *)
Lemma withClient_calls {A} (fn : bytes -> W -> (A + CliErr * bytes) * W) (s : session) (w : W) :
  let '(r, s', w') := withClient env fn s w in
  (exists err, r = inr err /\ w' = w /\ (Client env s w).1 = inr err) \/
  exists a1, (Client env s w).1 = inl a1 /\
    ((fn a1 w).2 = w' /\ match (fn a1 w).1 with inl a => r = inl a | inr (e, t) => isDialRetryable t = false /\ r = inr (CallErr e t) \/ isDialRetryable t = true /\ r = inr (Redial e t) end \/
     exists a2 e t, (fn a1 w).1 = inr (e, t) /\ isDialRetryable t = true /\
       (fn a2 (fn a1 w).2).2 = w' /\
       r = match (fn a2 (fn a1 w).2).1 with inl a => inl a | inr (e, t) => inr (CallErr e t) end).
Proof.
  unfold withClient. destruct (Client env s w) as [[a1|err] s1]; [|left; by exists err]. cbn [fst].
  destruct (fn a1 w) as [[a|[e t]] w1] eqn:E; [right; exists a1; rewrite E; by split; [|left]|].
  destruct (isDialRetryable t) eqn:Et; cbn [negb]; [|right; exists a1; rewrite E; split; [done|left; split; [done|by left]]].
  destruct (Client env (Invalidate s1) w1) as [[a2|err2] s2].
  - destruct (fn a2 w1) as [[b|[e2 t2]] w2] eqn:E2; right; exists a1; rewrite E; (split; [done|right]);
      exists a2, e, t; cbn [fst snd]; by rewrite E2.
  - right. exists a1. rewrite E. split; [done|left]. split; [done|by right].
Qed.

(** ** Commands keep the session *)

Definition keeps (f : session -> W -> Res (W := W)) : Prop := forall s w, session_ok s -> follows s (f s w).1.2.

Lemma follows_refl (s : session) : session_ok s -> follows s s.
Proof. done. Qed.

Lemma ask_keeps {A} (c : ShCall A) show (s : session) (w : W) : session_ok s -> follows s (ask env c show s w).1.2.
Proof.
  intros Hs. unfold ask. match goal with |- context [withClient env ?f s w] => pose proof (withClient_ok f s w Hs) as H end.
  by destruct (withClient env _ s w) as [[[a|err] s1] w1].
Qed.

Lemma askEach_keeps c items (s : session) (w : W) : session_ok s -> follows s (askEach env c items s w).1.2.
Proof.
  revert s w. induction items as [|i items IH]; intros s w Hs; [done|]. cbn [askEach].
  pose proof (ask_keeps (c i) (okLine s) s w Hs) as H. destruct (ask env (c i) (okLine s) s w) as [[[code out] s1] w1].
  cbn [fst snd] in H. destruct (code =? 0); [|done]. specialize (IH s1 w1 (proj2 H)).
  destruct (askEach env c items s1 w1) as [[[? ?] s2] w2]. by eapply follows_trans.
Qed.

Lemma withClient_keeps {A} (fn : bytes -> W -> (A + CliErr * bytes) * W) (show : A + ShErr -> session -> W -> Z * list Out) s w :
  session_ok s -> follows s (let '(r, s, w) := withClient env fn s w in (show r s w, s, w) : Res).1.2.
Proof. intros Hs. pose proof (withClient_ok fn s w Hs) as H. by destruct (withClient env fn s w) as [[? ?] ?]. Qed.

(** Down to the calls of a command. *)
Ltac keep :=
  repeat first
    [ done
    | apply ask_keeps; done
    | apply askEach_keeps; done
    | apply follows_refl; done
    | match goal with
      | |- context [match ?x with _ => _ end] =>
          lazymatch x with withClient _ _ _ _ => fail | _ => destruct x end
      end ].

Lemma putValue_keeps key value (s : session) (w : W) : session_ok s -> follows s (putValue env s key value w).1.2.
Proof. intros Hs. by apply (withClient_keeps _ (fun r s w => match r with inr err => (1, [OErr err]) | inl _ => _ end)). Qed.

Definition command_keeps (c : string * (session -> list bytes -> W -> @Res W)) : Prop :=
  forall args s w, session_ok s -> follows s (c.2 s args w).1.2.

Lemma cmdGet_keeps name : command_keeps (name, cmdGet env).
Proof.
  intros [|k keys] s w Hs; [done|]. unfold cmdGet. cbn [snd].
  match goal with |- context [withClient env ?f s w] => pose proof (withClient_ok f s w Hs) as H end.
  by destruct (withClient env _ s w) as [[[[its m]|err] s1] w1].
Qed.
Lemma cmdPut_keeps name : command_keeps (name, cmdPut env).
Proof. intros args s w Hs. cbn [snd]. unfold cmdPut. repeat (case_match; try done; try (by apply putValue_keeps)). Qed.
Lemma cmdDel_keeps name : command_keeps (name, cmdDel env).
Proof.
  intros [|k keys] s w Hs; [done|]. unfold cmdDel. cbn [snd].
  match goal with |- context [withClient env ?f s w] => pose proof (withClient_ok f s w Hs) as H end.
  by destruct (withClient env _ s w) as [[[[[e t]|]|err] s1] w1].
Qed.
Lemma cmdPing_keeps name : command_keeps (name, cmdPing env).
Proof.
  intros args s w Hs. unfold cmdPing. cbn [snd].
  match goal with |- context [withClient env ?f s w] => pose proof (withClient_ok f s w Hs) as H end.
  by destruct (withClient env _ s w) as [[[a|err] s1] w1].
Qed.
Lemma cmdAdmin_keeps path name : command_keeps (name, cmdAdmin env path).
Proof. by intros args s w Hs. Qed.
#[local] Hint Resolve cmdGet_keeps cmdPut_keeps cmdDel_keeps cmdPing_keeps cmdAdmin_keeps : core.

Lemma commands_keep : Forall command_keeps (commands env).
Proof.
  unfold commands. repeat (apply Forall_cons; split); [..|constructor]; auto.
  all: intros args s w Hs; cbn [snd];
    unfold cmdBloom, cmdSAdd, cmdSRem, cmdSIsMember, cmdSCard, cmdSMembers, cmdZAdd, cmdZRem, cmdZScore, cmdZCard, cmdZRange,
    cmdZRangeByScore, cmdGeoAdd, cmdGeoRem, cmdGeoPos, cmdGeoCard, cmdGeoDist, cmdGeoRadius, cmdLPush, cmdRPush,
    cmdLPop, cmdRPop, cmdLLen, cmdLIndex, cmdLRange, cmdHSet, cmdHGet, cmdHDel, cmdHExists, cmdHLen, cmdHGetAll,
    cmdIncr, cmdCGet, cmdJSONSet, cmdJSONGet, cmdJSONDel, cmdBitSet, cmdBitGet, cmdBitCount, cmdBitPos, cmdHLLAdd,
    cmdHLLCount, cmdTopKAdd, cmdTopKList, cmdCMSIncr, cmdCMSQuery, cmdVAdd, cmdVRem, cmdVSim, cmdVCard, cmdVDim,
    cmdVEmb, cmdXAdd, cmdXLen, cmdXRangeDir, cmdXRange, cmdXRevRange, cmdXDel, cmdXTrim;
    unfold cmdXRangeDir, withInt, withUint, withFloat, withVec, bitArg; keep.
Qed.

Lemma dispatch_keeps (cmd : bytes) (args : list bytes) (s : session) (w : W) :
  session_ok s -> follows s (dispatch env cmd s args w).1.2.
Proof.
  intros Hs. unfold dispatch. destruct (find _ (commands env)) as [[name h]|] eqn:E; [|done].
  apply find_some in E as [E _]. apply (proj1 (List.Forall_forall _ _) commands_keep) in E. by apply E.
Qed.

(** ** The interactive loop *)

(** Well formed, over the same seeds. *)
Definition same_seeds (s s' : session) : Prop := session_ok s' /\ addrs (s_cfg s') = addrs (s_cfg s).

Lemma with_cfg_ok (s : session) (cfg : config) : session_ok s -> addrs cfg = addrs (s_cfg s) -> same_seeds s (with_cfg s cfg).
Proof. intros Hs Ha. split; [|done]. unfold session_ok in *. cbn. by rewrite Ha. Qed.

Lemma follows_seeds (s s1 s2 : session) : same_seeds s s1 -> follows s1 s2 -> same_seeds s s2.
Proof. intros [_ H] [Hc Hs]. split; [done|]. by rewrite Hc. Qed.

Lemma applyREPLFlags_addrs (PD : bytes -> option Z) (n : nat) (args : list bytes) (cfg : config) :
  (length args <= n)%nat -> addrs (applyREPLFlags PD cfg args).1 = addrs cfg.
Proof.
  revert args cfg. induction n as [|n IH]; intros args cfg Hn; [by destruct args; [|cbn in Hn; lia]|].
  destruct args as [|a rest]; [done|]. cbn in Hn.
  assert (H : forall rest' cfg', (length rest' <= length rest)%nat -> addrs cfg' = addrs cfg -> addrs (applyREPLFlags PD cfg' rest').1 = addrs cfg)
    by (intros rest' cfg' Hl <-; apply IH; lia).
  cbn [applyREPLFlags]. pose proof (H rest cfg (le_n _) eq_refl) as Hr.
  repeat case_match; try done; try (apply H; cbn; (done || lia)).
Qed.

Lemma tryConnect_ok (s : session) (w : W) : session_ok s -> same_seeds s (tryConnect env s w).1.2.
Proof.
  intros Hs. unfold tryConnect. destruct (Client_ok s w Hs) as [[Hc Hf] _].
  destruct (Client env s w) as [[a|err] s1]; cbn in *; (split; [done|by rewrite Hc]).
Qed.

Lemma replConnect_ok (s : session) rest (w : W) : session_ok s -> same_seeds s (replConnect env s rest w).1.2.
Proof.
  intros Hs. pose proof (Invalidate_ok s Hs) as [Hc Hi]. unfold replConnect.
  assert (H : same_seeds s (Invalidate s)) by (split; [done|by rewrite Hc]).
  assert (Ht : forall s1, same_seeds s s1 -> same_seeds s (tryConnect env s1 w).1.2).
  { intros s1 [H1 H2]. destruct (tryConnect_ok s1 w H1) as [H3 H4]. split; [done|by rewrite H4]. }
  destruct rest as [|target [|]]; [by apply Ht| |by apply Ht].
  destruct (findSeed _ target) as [i|] eqn:E; [|done]. apply Ht. split; [|done]. split; [|by cbn].
  cbn. unfold findSeed in E. repeat case_match; simplify_eq;
    try (apply fmap_Some in E as ([j a] & E & ->));
    try match goal with H : list_find _ _ = Some _ |- _ => apply list_find_Some in H as (H & _); apply lookup_lt_Some in H; unfold len; cbn in *; lia end.
Qed.

Lemma replCommand_ok cmd (s : session) rest (w : W) : session_ok s -> same_seeds s (replCommand env cmd s rest w).1.2.
Proof.
  intros Hs. unfold replCommand. pose proof (applyREPLFlags_addrs (sh_ParseDuration env) (length rest) rest (with_input (s_cfg s) [] false) (le_n _)) as H.
  destruct (applyREPLFlags _ _ rest) as [cfg [args|]]; [|by apply with_cfg_ok].
  pose proof (with_cfg_ok s cfg Hs H) as Hc. pose proof (dispatch_keeps cmd args (with_cfg s cfg) w (proj1 Hc)) as Hd.
  destruct (dispatch env cmd (with_cfg s cfg) args w) as [[[? out] s1] w1]. by eapply follows_seeds.
Qed.

Lemma replLine_ok (s : session) (text : bytes) (w : W) : session_ok s -> same_seeds s (replLine env s text w).1.2.
Proof.
  intros Hs. unfold replLine. cbv zeta. destruct (bool_decide _); [done|].
  destruct (tokenize _) as [[|a rest]|]; [done| |done].
  repeat match goal with |- context [isOneOf ?c ?l] => destruct (isOneOf c l); [try done|] end;
    try (by apply replConnect_ok); try (by apply replCommand_ok);
    unfold replTTL, replJSON, replTimeout; repeat case_match; try done; by apply with_cfg_ok.
Qed.

(** whatever is typed, the interactive session stays on its seeds: the list
    of seeds never changes, the sticky index is of one of them, and a connection
    is to the seed of the index. *)
Theorem repl_keeps_session (s : session) (input : list bytes) (w : W) :
  session_ok s -> same_seeds s (replLoop env s input w).1.2.
Proof.
  intros Hs. revert s w Hs. induction input as [|line input IH]; intros s w Hs; [done|]. cbn [replLoop].
  pose proof (replLine_ok s line w Hs) as [H1 H2]. destruct (replLine env s line w) as [[[[code|] out] s1] w1]; [done|].
  cbn [fst snd] in *. specialize (IH s1 w1 H1) as [H3 H4].
  destruct (replLoop env s1 input w1) as [[[? ?] s2] w2]. cbn [fst snd] in *. split; [done|]. by rewrite H4.
Qed.

(** ** Lines that spell a call *)

(** The words of a call: the command and its arguments.  Calls with vectors and
    scores, whose texts the parsers of the library decide, and get, put and del,
    which take lists of keys, are not among them. *)
Definition words {A} (c : Call A) : option (list bytes) :=
  match c with
  | CallBloomAdd name item => Some [str "bloom"; str "add"; name; item]
  | CallBloomTest name item => Some [str "bloom"; str "test"; name; item]
  | CallSetAdd name item => Some [str "sadd"; name; item]
  | CallSetRemove name item => Some [str "srem"; name; item]
  | CallSetContains name item => Some [str "sismember"; name; item]
  | CallSetCard name => Some [str "scard"; name]
  | CallSetMembers name => Some [str "smembers"; name]
  | CallZRem name member => Some [str "zrem"; name; member]
  | CallZScore name member => Some [str "zscore"; name; member]
  | CallZCard name => Some [str "zcard"; name]
  | CallZRange name start stop => Some [str "zrange"; name; FormatInt start; FormatInt stop]
  | CallGeoRem name member => Some [str "georem"; name; member]
  | CallGeoPos name member => Some [str "geopos"; name; member]
  | CallGeoCard name => Some [str "geocard"; name]
  | CallLPush name item => Some [str "lpush"; name; item]
  | CallRPush name item => Some [str "rpush"; name; item]
  | CallLPop name => Some [str "lpop"; name]
  | CallRPop name => Some [str "rpop"; name]
  | CallLLen name => Some [str "llen"; name]
  | CallLIndex name idx => Some [str "lindex"; name; FormatInt idx]
  | CallLRange name start stop => Some [str "lrange"; name; FormatInt start; FormatInt stop]
  | CallHSet name field value => Some [str "hset"; name; field; value]
  | CallHGet name field => Some [str "hget"; name; field]
  | CallHDel name field => Some [str "hdel"; name; field]
  | CallHExists name field => Some [str "hexists"; name; field]
  | CallHLen name => Some [str "hlen"; name]
  | CallHGetAll name => Some [str "hgetall"; name]
  | CallIncr name delta => Some [str "incr"; name; FormatInt delta]
  | CallCounterGet name => Some [str "cget"; name]
  | CallJsonSet name path value => Some [str "jsonset"; name; path; value]
  | CallJsonGet name path => Some [str "jsonget"; name; path]
  | CallJsonDel name path => Some [str "jsondel"; name; path]
  | CallBitSet name offset bit => Some [str "bitset"; name; FormatUint offset; if bit : bool then str "1" else str "0"]
  | CallBitGet name offset => Some [str "bitget"; name; FormatUint offset]
  | CallBitCount name start stop => Some [str "bitcount"; name; FormatInt start; FormatInt stop]
  | CallBitPos name bit start stop =>
      Some [str "bitpos"; name; if bit : bool then str "1" else str "0"; FormatInt start; FormatInt stop]
  | CallHLLAdd name item => Some [str "hlladd"; name; item]
  | CallTopKAdd name item => Some [str "topkadd"; name; item]
  | CallTopKList name => Some [str "topklist"; name]
  | CallCMSIncr name item n => Some [str "cmsincr"; name; item; FormatUint n]
  | CallCMSQuery name item => Some [str "cmsquery"; name; item]
  | CallVRem name member => Some [str "vrem"; name; member]
  | CallVCard name => Some [str "vcard"; name]
  | CallVDim name => Some [str "vdim"; name]
  | CallVEmb name member => Some [str "vemb"; name; member]
  | CallXAdd name payload => Some [str "xadd"; name; str "*"; payload]
  | CallXRange name start stop count => Some [str "xrange"; name; start; stop; FormatInt count]
  | CallXRevRange name start stop count => Some [str "xrevrange"; name; start; stop; FormatInt count]
  | CallXLen name => Some [str "xlen"; name]
  | CallXDel name id => Some [str "xdel"; name; id]
  | CallXTrim name maxLen => Some [str "xtrim"; name; FormatInt maxLen]
  | _ => None
  end.

(** The numbers of a call are ints, offsets and counts uint64s. *)
Definition int_ok (z : Z) : Prop := MinInt64 <= z <= MaxInt64.
Definition uint_ok (z : Z) : Prop := 0 <= z <= MaxUint64.
Definition fits_word {A} (c : Call A) : Prop :=
  match c with
  | CallZRange _ a b | CallLRange _ a b | CallBitCount _ a b | CallBitPos _ _ a b => int_ok a /\ int_ok b
  | CallLIndex _ a | CallIncr _ a | CallXRange _ _ _ a | CallXRevRange _ _ _ a | CallXTrim _ a => int_ok a
  | CallBitSet _ a _ | CallBitGet _ a | CallCMSIncr _ _ a => uint_ok a
  | _ => True
  end.

(** An argument that is not taken for a flag. *)
Definition positional (a : bytes) : Prop := hasPrefix [45] a && negb (bool_decide (a = [45])) = false.

Lemma applyREPLFlags_positional (PD : bytes -> option Z) (cfg : config) (args : list bytes) :
  Forall positional args -> applyREPLFlags PD cfg args = (cfg, Some args).
Proof.
  induction 1 as [|a args Ha _ IH]; [done|]. cbn [applyREPLFlags]. rewrite IH.
  repeat match goal with |- context [bool_decide (a = str ?f)] => destruct (decide (a = str f)) as [->|]; [by vm_compute in Ha|]; rewrite bool_decide_false by done end.
  by rewrite Ha.
Qed.

(** The commands of the loop itself. *)
Definition metas : list string :=
  ["quit"; "exit"; "q"; "help"; "?"; "version"; "keyspace"; "use"; "ks"; "seeds"; "addrs"; "connect"; "reconnect"; "ttl"; "json";
   "timeout"; "clear"]%string.
Definition isMeta (cmd : bytes) : bool := isOneOf cmd metas.

Lemma isOneOf_meta (cmd : bytes) (names : list string) : isMeta cmd = false -> Forall (fun n => n ∈ metas) names -> isOneOf cmd names = false.
Proof.
  unfold isMeta, isOneOf. rewrite !bool_decide_eq_false. intros H Hn Hin. apply H.
  apply list_elem_of_fmap in Hin as (n & -> & Hin). apply list_elem_of_fmap. exists n. split; [done|].
  rewrite Forall_forall in Hn. by apply Hn.
Qed.

(** A line of a cache command runs its handler, with the file and the encoding reset. *)
Lemma replLine_command (s : session) (text cmd : bytes) (args : list bytes) (w : W) name h :
  spelled (TrimSpace text) (cmd :: args) -> Forall positional args -> isMeta (ToLower cmd) = false ->
  find (fun c => bool_decide (str c.1 = ToLower (ToLower cmd))) (commands env) = Some (name, h) ->
  replLine env s text w = let '((_, out), s1, w1) := h (with_cfg s (with_input (s_cfg s) [] false)) args w in said out s1 w1.
Proof.
  intros Hsp Hargs Hmeta Hfind. unfold replLine. cbv zeta. rewrite (tokenize_spelled _ _ Hsp).
  rewrite bool_decide_false by (intros E; rewrite E in Hsp; apply tokenize_spelled in Hsp; done).
  rewrite !(isOneOf_meta (ToLower cmd)) by (done || (apply (bool_decide_unpack _); vm_compute; exact I)).
  unfold replCommand. rewrite applyREPLFlags_positional by done. unfold dispatch. by rewrite Hfind.
Qed.

(** How the shell shows the result of a call; [q] is the quiet flag. *)
Definition orNone {A} (show : A -> list Out) (r : option A) : list Out :=
  match r with Some a => show a | None => [ONil] end.

Definition rendering {A} (q : bool) (c : Call A) : A -> list Out :=
  match c in Call A return A -> list Out with
  | CallPut _ _ _ | CallPutMany _ _ | CallDelete _ | CallDeleteMany _ | CallBloomAdd _ _ | CallSetAdd _ _ | CallSetRemove _ _
  | CallZAdd _ _ _ | CallZRem _ _ | CallGeoAdd _ _ _ _ | CallGeoRem _ _ | CallLPush _ _ | CallRPush _ _ | CallHSet _ _ _
  | CallHDel _ _ | CallJsonSet _ _ _ | CallJsonDel _ _ | CallBitSet _ _ _ | CallHLLAdd _ _ | CallTopKAdd _ _
  | CallCMSIncr _ _ _ | CallVAdd _ _ _ | CallVRem _ _ | CallXDel _ _ | CallXTrim _ _ => fun _ => if q then [] else [OOk]
  | CallGet _ => fun v => [OLine v]
  | CallXAdd _ _ => fun id => if q then [] else [OLine id]
  | CallBloomTest _ _ | CallSetContains _ _ | CallHExists _ _ => fun b => [OBool b]
  | CallSetCard _ | CallZCard _ | CallGeoCard _ | CallLLen _ | CallHLen _ | CallIncr _ _ | CallBitCount _ _ _ => fun n => [OInt n]
  | CallVCard _ => fun n => [OInt (default 0 n)]
  | CallCounterGet _ | CallBitPos _ _ _ _ | CallCMSQuery _ _ | CallVDim _ | CallXLen _ => orNone (fun n => [OInt n])
  | CallBitGet _ _ => orNone (fun b : bool => [OInt (if b then 1 else 0)])
  | CallSetMembers _ | CallLRange _ _ _ => map OLine
  | CallLPop _ | CallRPop _ | CallLIndex _ _ | CallHGet _ _ | CallJsonGet _ _ => orNone (fun b => [OLine b])
  | CallZScore _ _ => orNone (fun x => [OFloat x])
  | CallZRange _ _ _ | CallZRangeByScore _ _ _ => map (fun m => OScored (zm_score m) (zm_member m))
  | CallGeoPos _ _ => orNone (fun p => [OPoint p])
  | CallHGetAll _ => map (fun f => OField f.1 f.2)
  | CallTopKList _ => orNone (map OCount)
  | CallVSim _ _ _ => map OHit
  | CallVEmb _ _ => orNone (fun v => [OVec v])
  | CallXRange _ _ _ _ | CallXRevRange _ _ _ _ => map (fun r => OEntry r.1 r.2)
  end.

(** What a line that makes the call [c] does: withClient around the call; what
    is printed is its error, or its result as the shell shows it. *)
Definition makes_call {A} (c : Call A) (s : session) (w : W) (res : @LineRes W) : Prop :=
  let '(r, s', w') := withClient env (fun addr w => sh_call env addr (keyspace (s_cfg s)) (Typed c) w)
                        (with_cfg s (with_input (s_cfg s) [] false)) w in
  res = ((None, match r with inl a => rendering (quiet (s_cfg s)) c a | inr err => [OErr err] end), s', w').

Lemma ask_makes {A} (c : Call A) show (s : session) (w : W) :
  (forall a, (show a).2 = rendering (quiet (s_cfg s)) c a) ->
  makes_call c s w (let '((_, out), s1, w1) := ask env (Typed c) show (with_cfg s (with_input (s_cfg s) [] false)) w in said out s1 w1).
Proof.
  intros Hshow. unfold makes_call, ask. cbn [with_cfg s_cfg with_input keyspace].
  destruct (withClient env _ _ w) as [[[a|err] s1] w1]; [|done]. rewrite <- Hshow. by destruct (show a) as [code out].
Qed.

Lemma bitArg_bit (bit : bool) : bitArg (if bit then str "1" else str "0") = Some bit.
Proof. by destruct bit. Qed.

Lemma askEach_makes (c : bytes -> Call unit) (item : bytes) (s : session) (w : W) :
  (forall a, rendering (quiet (s_cfg s)) (c item) a = if quiet (s_cfg s) then [] else [OOk]) ->
  makes_call (c item) s w
    (let '((_, out), s1, w1) := askEach env (fun i => Typed (c i)) [item] (with_cfg s (with_input (s_cfg s) [] false)) w in said out s1 w1).
Proof.
  intros Hc. cbn [askEach]. pose proof (ask_makes (c item) (okLine (with_cfg s (with_input (s_cfg s) [] false))) s w) as H.
  destruct (ask env (Typed (c item)) _ _ w) as [[[code out] s1] w1].
  destruct (code =? 0); [rewrite app_nil_r|]; apply H; intros a; by rewrite Hc.
Qed.


End shell.

(** ** Concrete runs *)

(** A node behind two seeds; the deliveries of the calls to come. *)
Definition ShWorld : Type := (Mesh * Engine) * list delivery.

(** The text of a status error of the runtime. *)
Definition statusText (e : CliErr) : bytes :=
  match e with CStatus Unavailable => str "rpc error: code = Unavailable desc = transport is closing" | _ => [] end.

Definition wit_call A (_ ks : bytes) (c : ShCall A) (w : ShWorld) : (A + CliErr * bytes) * ShWorld :=
  match c in ShCall A return (A + CliErr * bytes) * ShWorld with
  | Typed c =>
      let '(r, m, e) := clientCall wit_api 10 wit_ctx ks (hd Delivered w.2) c w.1.1 w.1.2 in
      (match r with inl a => inl a | inr err => inr (err, statusText err) end, ((m, e), tail w.2))
  | _ => (inr (CStatus Internal, []), w)
  end.

Definition wit_shell : ShEnv ShWorld :=
  mkShEnv _ (fun a _ => bool_decide (a = str "b:1")) (fun _ _ _ => false) wit_call (fun _ _ => None) (fun _ _ => None)
    (fun _ => None) (fun _ => None) (fun d => if bool_decide (d = str "5s") then Some 5000000000 else None).

Definition wit_cfg : config :=
  mkConfig [str "a:1"; str "b:1"] [] [107] 1 0 false [] false false false false [] [] [] [].
Definition wit_session : session := mkSession wit_cfg true (str "b:1") 1.
Definition wit_world (mode : Mode) (ds : list delivery) : ShWorld := ((∅, wit_node mode [97]), ds).

Lemma wit_session_ok : session_ok wit_session.
Proof. split; [|done]. vm_compute. by split. Qed.

Lemma client_connects_witness :
  Client wit_shell (newSession wit_cfg) (wit_world ModeCounter []) = (inl (str "b:1"), mkSession wit_cfg true (str "b:1") 1).
Proof.
  destruct (client_connects wit_shell (newSession wit_cfg) (wit_world ModeCounter [])) as [[H _]|(k & i & Hf & ->)].
  - split; [|done]. vm_compute. by split.
  - done.
  - specialize (H (str "b:1")). vm_compute in H. assert (true = false) as E; [apply H; right; left|discriminate E].
  - vm_compute in Hf. injection Hf as <- <-. reflexivity.
Defined.

Lemma repl_keeps_session_witness :
  session_ok wit_session /\ same_seeds wit_session
    (replLoop wit_shell wit_session [str "connect a:1"; str "keyspace z"; str "get k"] (wit_world ModeCounter [])).1.2.
Proof. split; [exact wit_session_ok|]. apply repl_keeps_session. exact wit_session_ok. Defined.


(** The reply of the first call is lost with a text that looks like a failure
    of the transport; the retry counts again. *)
Theorem incr_counted_twice :
  (replLine wit_shell wit_session (str "incr " ++ [2] ++ str " 5") (wit_world ModeCounter [LostReply Unavailable; Delivered])).1.1
  = (None, [OInt 10]).
Proof. vm_compute. reflexivity. Qed.

(** A negative number is taken for a flag: refused in the shell, and a flag, not
    an argument, on the command line. *)
Theorem negative_argument_refused {W} (env : ShEnv W) (s : session) (w : W) :
  (replLine env s (str "zrange lb 0 -1") w).1.1 = (None, [OFlag]) /\ (replLine env s (str "zrange lb 0 -1") w).2 = w /\
  splitArgs (map str ["zrange"; "lb"; "0"; "-1"]%string) = Some (str "zrange", [str "-1"], [str "lb"; str "0"]).
Proof. split_and!; vm_compute; reflexivity. Qed.

(** A TTL given with one put stays for the puts that follow. *)
Theorem ttl_flag_stays {W} (env : ShEnv W) (s : session) (w : W) (d : Z) :
  session_ok s -> sh_ParseDuration env (str "5s") = Some d ->
  putOpts (s_cfg (replLine env s (str "put a 1 -ttl 5s") w).1.2) = Some d.
Proof.
  intros Hs Hd.
  change (replLine env s (str "put a 1 -ttl 5s") w) with (replCommand env (str "put") s (map str ["a"; "1"; "-ttl"; "5s"]%string) w).
  unfold replCommand.
  assert (applyREPLFlags (sh_ParseDuration env) (with_input (s_cfg s) [] false) (map str ["a"; "1"; "-ttl"; "5s"]%string)
          = (with_ttl (with_input (s_cfg s) [] false) d true, Some [str "a"; str "1"])) as E.
  { cbn [map applyREPLFlags].
    repeat match goal with |- context [bool_decide ?p] => let b := eval vm_compute in (bool_decide p) in change (bool_decide p) with b end.
    cbv beta iota. rewrite Hd. reflexivity. }
  rewrite E. pose proof (with_cfg_ok s (with_ttl (with_input (s_cfg s) [] false) d true) Hs eq_refl) as [Hc _].
  pose proof (dispatch_keeps env (str "put") [str "a"; str "1"] _ w Hc) as [Hcfg _].
  destruct (dispatch env (str "put") _ _ w) as [[[? out] s1] w1]. cbn [said fst snd] in *. by rewrite Hcfg.
Qed.
