(* ===== verification/Drift.v ===== *)
(** * Configuration drift: the digest of a keyspace's configuration

    ConfigHash writes the fields of a configuration, all but the data source, as
    JSON and takes the first eight bytes of the SHA-256 of the text.  Nodes show
    it so that operators see when they disagree.  The text of a float
    (strconv.AppendFloat with the fewest digits) is an argument. *)
From stdpp Require Import strings.
From S2P Require Import Prelude Wire Json JsonText Protect Config ShellText.
From Stdlib Require Import SpecFloat.

(** ** SHA-256 (crypto/sha256) *)

Definition w32 (x : Z) : Z := x mod 2 ^ 32.
Definition rotr (x n : Z) : Z := Z.lor (Z.shiftr x n) (w32 (Z.shiftl x (32 - n))).

(** The constants are the first 32 bits of the fractions of the cube roots of the
    first 64 primes and of the square roots of the first eight. *)
Definition is_prime (n : Z) : bool := forallb (fun d => negb (n mod Z.of_nat d =? 0)) (seq 2 (Z.to_nat (Z.sqrt n) - 1)).
Definition primes (k : nat) : list Z := take k (List.filter is_prime (map Z.of_nat (seq 2 310))).

(** The cube root rounded down, bit by bit. *)
Fixpoint cbrt (bit : nat) (r n : Z) : Z :=
  let r' := r + 2 ^ Z.of_nat bit in
  let r := if r' * r' * r' <=? n then r' else r in
  match bit with O => r | S bit => cbrt bit r n end.

Definition sha_k : list Z := Eval vm_compute in map (fun p => w32 (cbrt 36 0 (p * 2 ^ 96))) (primes 64).
Definition sha_init : list Z := Eval vm_compute in map (fun p => w32 (Z.sqrt (p * 2 ^ 64))) (primes 8).

Fixpoint be_bytes (n : nat) (x : Z) : bytes :=
  match n with O => [] | S n => be_bytes n (x / 256) ++ [x mod 256] end.
Definition be_word (bs : bytes) : Z := foldl (fun acc b => acc * 256 + b) 0 bs.

(** The message, a one bit, zeros up to a multiple of 64 bytes, its length in bits. *)
Definition sha_pad (msg : bytes) : bytes :=
  let n := len msg in
  msg ++ [128] ++ List.repeat 0 (Z.to_nat ((55 - n) mod 64)) ++ be_bytes 8 (8 * n).

Fixpoint chunks (fuel : nat) (k : nat) (bs : bytes) : list bytes :=
  match fuel, bs with
  | S f, _ :: _ => take k bs :: chunks f k (drop k bs)
  | _, _ => []
  end.

(** The schedule of a block: [w] holds the words so far, the last one first. *)
Fixpoint sha_extend (n : nat) (w : list Z) : list Z :=
  match n with
  | O => w
  | S n =>
      let at_ i := nth i w 0 in
      let s0 := Z.lxor (Z.lxor (rotr (at_ 14%nat) 7) (rotr (at_ 14%nat) 18)) (Z.shiftr (at_ 14%nat) 3) in
      let s1 := Z.lxor (Z.lxor (rotr (at_ 1%nat) 17) (rotr (at_ 1%nat) 19)) (Z.shiftr (at_ 1%nat) 10) in
      sha_extend n (w32 (at_ 15%nat + s0 + at_ 6%nat + s1) :: w)
  end.

Definition sha_round (st : list Z) (kw : Z * Z) : list Z :=
  match st with
  | [a; b; c; d; e; f; g; h] =>
      let s1 := Z.lxor (Z.lxor (rotr e 6) (rotr e 11)) (rotr e 25) in
      let ch := Z.lxor (Z.land e f) (Z.land (2 ^ 32 - 1 - e) g) in
      let t1 := h + s1 + ch + kw.1 + kw.2 in
      let s0 := Z.lxor (Z.lxor (rotr a 2) (rotr a 13)) (rotr a 22) in
      let maj := Z.lxor (Z.lxor (Z.land a b) (Z.land a c)) (Z.land b c) in
      [w32 (t1 + s0 + maj); a; b; c; w32 (d + t1); e; f; g]
  | _ => st
  end.

Definition sha_block (st : list Z) (block : bytes) : list Z :=
  let w := rev (sha_extend 48 (rev (map be_word (chunks 16 4 block)))) in
  zip_with (fun x y => w32 (x + y)) st (foldl sha_round st (zip sha_k w)).

Definition Sum256 (msg : bytes) : bytes :=
  let p := sha_pad msg in
  mjoin (map (be_bytes 4) (foldl sha_block sha_init (chunks (length p) 64 p))).

(** hex.EncodeToString *)
Definition hex_string (bs : bytes) : bytes := mjoin (map (fun b => [hexdigit (b / 16); hexdigit (b mod 16)]) bs).

Example sum256_abc : hex_string (Sum256 (str "abc")) = str "ba7816bf8f01cfea414140de5dae2223b00361a396177a9cb410ff61f20015ad".
Proof. vm_compute. reflexivity. Qed.
Example sum256_empty : hex_string (Sum256 []) = str "e3b0c44298fc1c149afbf4c8996fb92427ae41e4649b934ca495991b7852b855".
Proof. vm_compute. reflexivity. Qed.
Example sum256_two_blocks :
  hex_string (Sum256 (str "abcdbcdecdefdefgefghfghighijhijkijkljklmklmnlmnomnopnopq")) =
  str "248d6a61d20638b8e5c026930c3e6039a33ce45964ff2167f6ecedd419db06c1".
Proof. vm_compute. reflexivity. Qed.

(** ** The text of a configuration (json.Marshal of a struct) *)

(** '<', '>' and '&' are escaped too. *)
Definition html (e : bytes) : bytes :=
  match e with
  | [b] => if (b =? 60) || (b =? 62) || (b =? 38) then [92; 117; 48; 48; hexdigit (b / 16); hexdigit (b mod 16)] else e
  | _ => e
  end.

Fixpoint marshal_runes (fuel : nat) (s : bytes) : bytes :=
  match fuel, s with
  | S f, _ :: _ => let '(e, n) := escape_rune s in html e ++ marshal_runes f (drop n s)
  | _, _ => []
  end.
Definition marshal_string (s : bytes) : bytes := 34 :: marshal_runes (length s) s ++ [34].

(** A field: an integer, a string, a slice of strings or nil, a float. *)
Inductive wire := WInt (z : Z) | WStr (s : bytes) | WStrs (l : option (list bytes)) | WFloat (f : spec_float).

Definition mode_int (m : Mode) : Z :=
  match m with
  | ModeLoadThrough => 0 | ModeCacheOnly => 1 | ModeBloom => 2 | ModeSet => 3 | ModeZSet => 4 | ModeGeo => 5 | ModeList => 6
  | ModeHash => 7 | ModeCounter => 8 | ModeJSON => 9 | ModeBitmap => 10 | ModeHLL => 11 | ModeTopK => 12 | ModeCMS => 13
  | ModeVectorSet => 14 | ModeStream => 15
  end.

Definition config_wire (c : Config) : list (bytes * wire) :=
  [(str "Name", WStr (Name c));
   (str "Mode", WInt (mode_int (cMode c)));
   (str "TTL", WInt (TTL c));
   (str "NegativeTTL", WInt (NegativeTTL c));
   (str "MaxBytes", WInt (MaxBytes c));
   (str "LoadTimeout", WInt (LoadTimeout c));
   (str "PeerTimeout", WInt (PeerTimeout c));
   (str "WarmKeys", WStrs (WarmKeys c));
   (str "RefreshInterval", WInt (RefreshInterval c));
   (str "RateLimitRPS", WFloat (cRateLimitRPS c));
   (str "BreakerRPS", WFloat (RateLimitRPS (CircuitBreaker c)));
   (str "BreakerBurst", WInt (Burst (CircuitBreaker c)));
   (str "BreakerThreshold", WInt (FailureThreshold (CircuitBreaker c)));
   (str "BreakerOpen", WInt (OpenTimeout (CircuitBreaker c)));
   (str "MaxKeyLen", WInt (MaxKeyLen c));
   (str "MaxValueSize", WInt (MaxValueSize c));
   (str "ReplicationFactor", WInt (ReplicationFactor c));
   (str "TombstoneTTL", WInt (TombstoneTTL c));
   (str "BloomBits", WInt (BloomBits c));
   (str "BloomHashes", WInt (BloomHashes c));
   (str "TopKSize", WInt (TopKSize c));
   (str "VectorDim", WInt (VectorDim c));
   (str "VectorMetric", WInt (cVectorMetric c));
   (str "StreamMaxLen", WInt (StreamMaxLen c))].

Section text.
Context (floatText : spec_float -> bytes).

(** NaN and the infinities have no JSON text: Marshal returns an error.  A nil
    slice is null, an empty one is []. *)
Definition wire_text (v : wire) : option bytes :=
  match v with
  | WInt z => Some (FormatInt z)
  | WStr s => Some (marshal_string s)
  | WStrs None => Some (str "null")
  | WStrs (Some l) => Some (91 :: join 44 (map marshal_string l) ++ [93])
  | WFloat (S754_nan | S754_infinity _) => None
  | WFloat f => Some (floatText f)
  end.

Fixpoint fields_text (fs : list (bytes * wire)) : option bytes :=
  match fs with
  | [] => Some [125]
  | (name, v) :: fs =>
      b ← wire_text v; rest ← fields_text fs;
      Some (marshal_string name ++ 58 :: b ++ (match fs with [] => rest | _ => 44 :: rest end))
  end.

Definition config_text (c : Config) : option bytes := b ← fields_text (config_wire c); Some (123 :: b).

(** The error of Marshal is dropped: the text is then empty. *)
Definition ConfigHash (c : Config) : bytes := hex_string (take 8 (Sum256 (default [] (config_text c)))).

(** ** Reading the text back *)

(** What follows a value. *)
Definition stop (c : byte) : Prop := c = 44 \/ c = 93 \/ c = 125.

Lemma split_stop b1 b2 c1 c2 t1 t2 :
  Forall (fun x => ~ stop x) b1 -> Forall (fun x => ~ stop x) b2 -> stop c1 -> stop c2 ->
  b1 ++ c1 :: t1 = b2 ++ c2 :: t2 -> b1 = b2 /\ c1 = c2 /\ t1 = t2.
Proof.
  intros H1. revert b2. induction H1 as [|x b1 Hx _ IH]; intros [|y b2] H2 Hc1 Hc2 E; cbn in E; simplify_eq; try done.
  - by inv H2.
  - inv H2. destruct (IH b2) as (-> & -> & ->); done.
Qed.

Lemma FormatInt_clean z : Forall (fun x => ~ stop x) (FormatInt z).
Proof.
  assert (H : forall n, Forall (fun x => ~ stop x) (FormatUint n)).
  { intros n. eapply Forall_impl; [apply FormatUint_digits|]. intros c Hc. unfold is_digit, stop in *. lia. }
  unfold FormatInt. destruct (z <? 0); [|done]. constructor; [unfold stop; lia|done].
Qed.

Lemma FormatInt_inj x y : MinInt64 <= x <= MaxInt64 -> MinInt64 <= y <= MaxInt64 -> FormatInt x = FormatInt y -> x = y.
Proof. intros Hx Hy E. apply ParseInt_FormatInt in Hx, Hy. rewrite E in Hx. congruence. Qed.

Lemma read_html_rune r t : is_rune r -> read_string (html (escape_rune r).1 ++ t) = prepend r (read_string t).
Proof.
  intros Hr. pose proof (read_rune r t Hr) as H. destruct (escape_rune r) as [[|b [|? ?]] n] eqn:E; try done.
  cbn [html fst] in *. destruct ((b =? 60) || (b =? 62) || (b =? 38)) eqn:Eb; [|done]. rewrite <- H.
  assert (b = 60 \/ b = 62 \/ b = 38) as [-> | [-> | ->]] by lia; cbn [app]; rewrite !read_string_cons; done.
Qed.

Lemma marshal_app f r s :
  is_rune r -> (length (r ++ s) <= f)%nat ->
  exists f', marshal_runes f (r ++ s) = html (escape_rune r).1 ++ marshal_runes f' s /\ (length s <= f')%nat.
Proof.
  intros Hr Hf. pose proof Hr as (Hb & Hne & Hl).
  destruct r as [|c r]; [done|]. cbn [app length] in Hf. destruct f as [|f]; [lia|].
  exists f. rewrite length_app in Hf. split; [|lia]. cbn [app marshal_runes].
  assert (E : escape_rune (c :: r ++ s) = ((escape_rune (c :: r)).1, length (c :: r))) by exact (escape_rune_app (c :: r) s Hr).
  rewrite E. change (c :: r ++ s) with ((c :: r) ++ s). by rewrite drop_app_length.
Qed.

Lemma read_marshal s f t : utf8 s -> (length s <= f)%nat -> read_string (marshal_runes f s ++ 34 :: t) = Some (s, t).
Proof.
  intros Hu. revert f. induction Hu as [|r s Hr Hu IH]; intros f Hf; [by destruct f|].
  destruct (marshal_app f r s Hr Hf) as (f' & -> & Hf'). rewrite <- app_assoc, (read_html_rune r _ Hr), IH by done. done.
Qed.

Lemma marshal_string_inj s1 s2 t1 t2 :
  utf8 s1 -> utf8 s2 -> marshal_string s1 ++ t1 = marshal_string s2 ++ t2 -> s1 = s2 /\ t1 = t2.
Proof.
  intros H1 H2 E. unfold marshal_string in E. cbn [app] in E. rewrite <- !app_assoc in E. injection E as E.
  apply (f_equal read_string) in E. cbn [app] in E. rewrite !read_marshal in E by done. by injection E as -> ->.
Qed.

Lemma join_cons (x y : bytes) l : join 44 (x :: y :: l) = x ++ 44 :: join 44 (y :: l).
Proof. done. Qed.

Lemma marshal_list_inj l1 l2 c1 c2 t1 t2 :
  Forall utf8 l1 -> Forall utf8 l2 ->
  join 44 (map marshal_string l1) ++ 93 :: c1 :: t1 = join 44 (map marshal_string l2) ++ 93 :: c2 :: t2 ->
  l1 = l2 /\ c1 = c2 /\ t1 = t2.
Proof.
  intros H1. revert l2. induction H1 as [|x l1 Hx H1 IH]; intros l2 H2 E.
  { destruct l2 as [|y [|y1 l2]]; cbn [map] in E; rewrite ?join_cons in E; by simplify_eq/=. }
  destruct l2 as [|y l2]; [destruct l1; cbn [map] in E; rewrite ?join_cons in E; by simplify_eq/=|]. inv H2. cbn [map] in E.
  destruct l1 as [|x1 l1], l2 as [|y1 l2]; cbn [map] in E; rewrite ?join_cons, <- ?app_assoc in E; cbn [app] in E;
    apply marshal_string_inj in E as [-> E]; try done; simplify_eq; [done|].
  destruct (IH (y1 :: l2)) as (-> & -> & ->); done.
Qed.

(** Values of the same field of two configurations, in the range of their types. *)
Definition wire_ok (v : wire) : Prop :=
  match v with
  | WInt z => MinInt64 <= z <= MaxInt64
  | WStr s => utf8 s
  | WStrs l => Forall utf8 (default [] l)
  | WFloat _ => True
  end.
Definition same_type (v v' : wire) : Prop :=
  match v, v' with WInt _, WInt _ | WStr _, WStr _ | WStrs _, WStrs _ | WFloat _, WFloat _ => True | _, _ => False end.

Definition finite (f : spec_float) : Prop := match f with S754_nan | S754_infinity _ => False | _ => True end.
Context (floatText_inj : forall f g, finite f -> finite g -> floatText f = floatText g -> f = g).
Context (floatText_clean : forall f, finite f -> Forall (fun x => ~ stop x) (floatText f)).

Lemma wire_text_inj v1 v2 b1 b2 c1 c2 t1 t2 :
  same_type v1 v2 -> wire_ok v1 -> wire_ok v2 -> wire_text v1 = Some b1 -> wire_text v2 = Some b2 -> stop c1 -> stop c2 ->
  b1 ++ c1 :: t1 = b2 ++ c2 :: t2 -> v1 = v2 /\ c1 = c2 /\ t1 = t2.
Proof.
  intros Ht H1 H2 E1 E2 Hc1 Hc2 E. destruct v1 as [z|s|l|f], v2 as [z'|s'|l'|f']; try done; cbn [wire_text wire_ok] in *.
  - simplify_eq. apply split_stop in E as (E & -> & ->); try done; try apply FormatInt_clean. by apply FormatInt_inj in E as ->.
  - injection E1 as <-. injection E2 as <-. apply marshal_string_inj in E as [-> E]; try done. by simplify_eq.
  - destruct l as [l|], l' as [l'|]; cbn [default] in *; injection E1 as <-; injection E2 as <-; cbn [app] in E; try (by inv E).
    injection E as E. rewrite <- !app_assoc in E. apply marshal_list_inj in E as (-> & -> & ->); done.
  - assert (Hf : finite f) by (by destruct f). assert (Hf' : finite f') by (by destruct f').
    assert (b1 = floatText f) as -> by (by destruct f; simplify_eq). assert (b2 = floatText f') as -> by (by destruct f'; simplify_eq).
    apply split_stop in E as (E & -> & ->); auto. by apply floatText_inj in E as ->.
Qed.

Lemma fields_text_inj fs1 fs2 b1 b2 :
  Forall2 (fun p q => p.1 = q.1 /\ same_type p.2 q.2 /\ wire_ok p.2 /\ wire_ok q.2) fs1 fs2 ->
  fields_text fs1 = Some b1 -> fields_text fs2 = Some b2 -> b1 = b2 -> fs1 = fs2.
Proof.
  intros H. revert b1 b2. induction H as [|[n1 v1] [n2 v2] fs1 fs2 (Hn & Ht & Ho1 & Ho2) H IH]; intros b1 b2 E1 E2 E; [done|].
  cbn [fields_text fst snd] in *. subst n2.
  destruct (wire_text v1) as [t1|] eqn:Ev1; [|done]. destruct (wire_text v2) as [t2|] eqn:Ev2; [|done]. cbn in E1, E2.
  destruct (fields_text fs1) as [r1|] eqn:Ef1; [|done]. destruct (fields_text fs2) as [r2|] eqn:Ef2; [|done]. cbn [mbind option_bind] in E1, E2.
  apply (inj Some) in E1, E2. rewrite <- E1, <- E2 in E. apply (app_inv_head (marshal_string n1)) in E. injection E as E.
  destruct H as [|p q fs1' fs2' Hpq Hrest].
  - cbn in Ef1, Ef2. simplify_eq. eapply wire_text_inj in E as (-> & _ & _); eauto; by right; right.
  - eapply wire_text_inj in E as (-> & _ & E); eauto; try (by left). f_equal. by eapply IH.
Qed.

(** ** Drift *)

Definition with_source (c : Config.Config) (b : bool) : Config.Config :=
  Config.mkConfig (Name c) (cMode c) (TTL c) (NegativeTTL c) (MaxBytes c) (LoadTimeout c) (PeerTimeout c) (WarmKeys c)
    (RefreshInterval c) (cRateLimitRPS c) (CircuitBreaker c) b (MaxKeyLen c) (MaxValueSize c) (ReplicationFactor c)
    (TombstoneTTL c) (BloomBits c) (BloomHashes c) (TopKSize c) (VectorDim c) (cVectorMetric c) (StreamMaxLen c).

Lemma mode_int_inj m m' : mode_int m = mode_int m' -> m = m'.
Proof. by destruct m, m'. Qed.

Lemma config_wire_inj c c' : config_wire c = config_wire c' -> c' = with_source c (hasDataSource c').
Proof.
  intros E. injection E as ? Hm%mode_int_inj. destruct c as [? ? ? ? ? ? ? ? ? ? [] ? ? ? ? ? ? ? ? ? ? ?],
    c' as [? ? ? ? ? ? ? ? ? ? [] ? ? ? ? ? ? ? ? ? ? ?]; cbn in *; by subst.
Qed.

(** Configurations a program can hold: valid UTF-8, fields of machine width. *)
Definition config_ok (c : Config) : Prop := Forall (fun f => wire_ok f.2) (config_wire c).

Lemma config_text_inj c c' b :
  config_ok c -> config_ok c' -> config_text c = Some b -> config_text c' = Some b -> c' = with_source c (hasDataSource c').
Proof.
  intros H H' E E'. apply config_wire_inj. unfold config_text in *.
  destruct (fields_text (config_wire c)) as [t|] eqn:Et; [|done]. destruct (fields_text (config_wire c')) as [t'|] eqn:Et'; [|done].
  cbn in E, E'. simplify_eq. eapply fields_text_inj; [|done|done|done]. unfold config_ok in *.
  repeat (apply Forall_cons in H as [? H]; apply Forall_cons in H' as [? H']). repeat (constructor; [done|]). constructor.
Qed.

Lemma config_text_source c b : config_text (with_source c b) = config_text c.
Proof. done. Qed.
End text.

Lemma hex_string_cons x l : hex_string (x :: l) = hexdigit (x / 16) :: hexdigit (x mod 16) :: hex_string l.
Proof. done. Qed.

Lemma hex_string_inj l l' : bytes_ok l -> bytes_ok l' -> hex_string l = hex_string l' -> l = l'.
Proof.
  assert (Hd : forall x y, 0 <= x < 16 -> 0 <= y < 16 -> hexdigit x = hexdigit y -> x = y).
  { intros x y Hx Hy. unfold hexdigit. destruct (Z.ltb_spec x 10), (Z.ltb_spec y 10); lia. }
  intros H. revert l'. induction H as [|x l Hx H IH]; intros [|y l'] Hl' E; try done.
  apply Forall_cons in Hl' as [Hy Hl']. rewrite !hex_string_cons in E. injection E as E1 E2 E. unfold is_byte in *.
  apply Hd in E1; [|Z.to_euclidean_division_equations; lia..]. apply Hd in E2; [|Z.to_euclidean_division_equations; lia..].
  f_equal; [Z.to_euclidean_division_equations; lia|]. by apply IH.
Qed.

Lemma be_bytes_ok n x : bytes_ok (be_bytes n x).
Proof.
  revert x. induction n as [|n IH]; intros x; [constructor|]. cbn. apply Forall_app. split; [done|].
  constructor; [|constructor]. unfold is_byte. apply Z.mod_pos_bound. lia.
Qed.

Lemma Sum256_ok msg : bytes_ok (Sum256 msg).
Proof.
  unfold Sum256. cbv zeta. generalize (foldl sha_block sha_init (chunks (length (sha_pad msg)) 64 (sha_pad msg))).
  intros l. induction l as [|x l IH]; [constructor|]. change (bytes_ok (be_bytes 4 x ++ mjoin (map (be_bytes 4) l))).
  apply Forall_app. split; [apply be_bytes_ok|done].
Qed.

(** the digest shows drift.  Two configurations that differ only in their
    data source have the same hash; two with the same hash are equal but for the
    data source, unless their texts are a collision of the first eight bytes of
    SHA-256.  (Names and warm keys are valid UTF-8 and the rate limits are
    finite; otherwise the text does not determine the configuration.) *)
Theorem drift_seen (floatText : spec_float -> bytes) c c' t t' :
  (forall f g, finite f -> finite g -> floatText f = floatText g -> f = g) ->
  (forall f, finite f -> Forall (fun x => ~ stop x) (floatText f)) ->
  config_ok c -> config_ok c' -> config_text floatText c = Some t -> config_text floatText c' = Some t' ->
  (c' = with_source c (hasDataSource c') -> ConfigHash floatText c' = ConfigHash floatText c) /\
  (ConfigHash floatText c' = ConfigHash floatText c ->
     c' = with_source c (hasDataSource c') \/ (t <> t' /\ take 8 (Sum256 t) = take 8 (Sum256 t'))).
Proof.
  intros Hinj Hclean Hc Hc' Ht Ht'. split; [by intros ->|]. unfold ConfigHash. rewrite Ht, Ht'. cbn [default]. intros E.
  apply hex_string_inj in E; [|apply Forall_take, Sum256_ok..].
  destruct (decide (t = t')) as [<-|Hne]; [left; by eapply config_text_inj|by right].
Qed.

Lemma fields_text_all floatText fs b : fields_text floatText fs = Some b -> Forall (fun f => is_Some (wire_text floatText f.2)) fs.
Proof.
  revert b. induction fs as [|[name v] fs IH]; intros b E; [constructor|]. cbn [fields_text] in E.
  destruct (wire_text floatText v) as [x|] eqn:Ev; [|done]. cbn in E. destruct (fields_text floatText fs) as [r|] eqn:Ef; [|done].
  constructor; [by eexists|by eapply IH].
Qed.

Lemma config_text_finite floatText c :
  finite (cRateLimitRPS c) -> finite (RateLimitRPS (CircuitBreaker c)) -> is_Some (config_text floatText c).
Proof.
  intros H1 H2. assert (Hs : forall fs, Forall (fun f => is_Some (wire_text floatText f.2)) fs -> is_Some (fields_text floatText fs)).
  { induction 1 as [|[name v] fs [b Hb] _ [r IH]]; [by eexists|]. cbn [fields_text snd] in *. rewrite Hb, IH. by eexists. }
  unfold config_text. destruct (Hs (config_wire c)) as [b ->]; [|by eexists]. unfold config_wire.
  repeat (apply Forall_cons; split; [cbn [snd wire_text]; try by eexists|]); [..|constructor].
  - destruct (WarmKeys c); by eexists.
  - destruct (cRateLimitRPS c); try done; by eexists.
  - destruct (RateLimitRPS (CircuitBreaker c)); try done; by eexists.
Qed.

(** A rate limit that is not finite hides every other field: Marshal fails and
    the hash is that of the empty text. *)
Theorem drift_hidden (floatText : spec_float -> bytes) c :
  ~ finite (cRateLimitRPS c) -> ConfigHash floatText c = str "e3b0c44298fc1c14".
Proof.
  intros Hf. assert (Hn : config_text floatText c = None).
  { unfold config_text. destruct (fields_text floatText (config_wire c)) as [b|] eqn:E; [exfalso|done]. apply Hf.
    apply fields_text_all in E. unfold config_wire in E. do 9 apply Forall_cons in E as [_ E]. apply Forall_cons in E as [[x Hx] _].
    cbn in Hx. by destruct (cRateLimitRPS c). }
  unfold ConfigHash. rewrite Hn. vm_compute. reflexivity.
Qed.

(** ** At a concrete configuration *)

(** Some text of a float, one to one: the mantissa and the exponent in binary. *)
Fixpoint bits (p : positive) : bytes := match p with xH => [50] | xO p => 48 :: bits p | xI p => 49 :: bits p end.
Definition zbits (z : Z) : bytes := match z with Z0 => [48] | Zpos p => 43 :: bits p | Zneg p => 45 :: bits p end.
Definition wit_floatText (f : spec_float) : bytes :=
  match f with
  | S754_zero s => [if s then 45 else 43]
  | S754_finite s m e => 101 :: (if s then 45 else 43) :: bits m ++ zbits e
  | _ => []
  end.

Lemma bits_inj p q t t' : bits p ++ t = bits q ++ t' -> p = q /\ t = t'.
Proof. revert q. induction p as [p IH|p IH|]; intros [q|q|] E; cbn in E; injection E as E; try done; apply IH in E as [-> ->]; done. Qed.

Lemma wit_floatText_inj f g : finite f -> finite g -> wit_floatText f = wit_floatText g -> f = g.
Proof.
  assert (Hz : forall x y, zbits x = zbits y -> x = y).
  { intros [|p|p] [|q|q] E; cbn in E; try done; injection E as E;
      rewrite <- (app_nil_r (bits p)), <- (app_nil_r (bits q)) in E; by apply bits_inj in E as [-> _]. }
  destruct f as [s| | |s m e], g as [s'| | |s' m' e']; try done; intros _ _ E; cbn in E.
  - by destruct s, s'.
  - injection E as Es E. apply bits_inj in E as [-> ->%Hz]. by destruct s, s'.
Qed.

Lemma wit_floatText_clean f : finite f -> Forall (fun x => ~ stop x) (wit_floatText f).
Proof.
  intros _. assert (Hb : forall p, Forall (fun x => ~ stop x) (bits p)).
  { induction p as [p IH|p IH|]; cbn; repeat constructor; try done; unfold stop; lia. }
  assert (Hs : forall (s : bool) l, Forall (fun x => ~ stop x) l -> Forall (fun x => ~ stop x) ((if s then 45 else 43) :: l)).
  { intros s l Hl. constructor; [destruct s; unfold stop; lia|done]. }
  destruct f as [s| | |s m e]; cbn; try constructor; try (by apply Hs); [destruct s; unfold stop; lia|done|unfold stop; lia|].
  apply Hs, Forall_app. split; [done|]. destruct e; cbn; constructor; try apply Hb; try constructor; unfold stop; lia.
Qed.

Lemma drift_seen_witness :
  ConfigHash wit_floatText (with_source (wit_config ModeSet 10) true) = ConfigHash wit_floatText (wit_config ModeSet 10).
Proof.
  assert (Hok : forall b, config_ok (with_source (wit_config ModeSet 10) b)).
  { intros b. unfold config_ok. cbn. repeat (constructor; [cbn; unfold MinInt64, MaxInt64; try done; try lia|]); [|constructor].
    apply (utf8_app [107] []); [|constructor]. repeat split; [repeat constructor; lia|done]. }
  apply (drift_seen wit_floatText (wit_config ModeSet 10) (with_source (wit_config ModeSet 10) true)
    (default [] (config_text wit_floatText (wit_config ModeSet 10))) (default [] (config_text wit_floatText (wit_config ModeSet 10)))).
  - apply wit_floatText_inj.
  - apply wit_floatText_clean.
  - apply (Hok false).
  - apply (Hok true).
  - vm_compute. reflexivity.
  - vm_compute. reflexivity.
  - reflexivity.
Defined.

(** The hash that a node shows for a keyspace "k" of sets with zero for every
    other field (and the TopK size 10). *)
Example config_hash_differs :
  bool_decide (ConfigHash wit_floatText (wit_config ModeSet 10) = ConfigHash wit_floatText (wit_config ModeSet 11)) = false.
Proof. vm_compute. reflexivity. Qed.
