(* ===== verification/Status.v ===== *)
(** * What a node shows: the reports of the engine and the admin server

    pkg/engine/status.go collects what a node says about itself, and the
    handlers of pkg/admin serve it over HTTP.  The server asks its node through
    an interface, the class [StatusProvider].  A response is its status code and
    the data that is written as JSON; the JSON text, the uptime and the texts of
    durations are display and left out.  The embedded documents are arguments. *)
From stdpp Require Import strings.
From S2P Require Import Prelude Wire Store StoreView StoreProps Protect Ring Hints Config Engine Tracker Warmup.
From S2P Require Import Telemetry ShellText Drift.
From Stdlib Require Import SpecFloat.

(** ** One key on this node *)

Inductive LocalKind := LocalMissing | LocalLive | LocalTombstone | LocalNegative.

Definition LocalKind_String (k : LocalKind) : bytes :=
  match k with
  | LocalLive => str "live"
  | LocalTombstone => str "tombstone"
  | LocalNegative => str "negative"
  | LocalMissing => str "missing"
  end.

Record LocalView := mkLocalView { lv_Kind : LocalKind; lv_Version : Z; lv_Flags : Z; lv_Bytes : Z }.

Definition Engine_LocalView (now : Z) (e : Engine) (ksName key : bytes) : LocalView * Engine :=
  let missing := mkLocalView LocalMissing 0 0 0 in
  match getKS e ksName with
  | None => (missing, e)
  | Some ks =>
      let '(cur, m) := Peek now (kstore ks) key in
      (match cur with
       | None => missing
       | Some ent =>
           mkLocalView (if IsTombstone ent then LocalTombstone else if IsNegative ent then LocalNegative else LocalLive)
             (Version ent) (Flags ent) (len (Value ent))
       end, with_ks e ksName (with_store ks m))
  end.

(** The bits, m and k of a filter. *)
Definition BloomDump (now : Z) (e : Engine) (ksName name : bytes) : (option bytes * Z * Z) * Engine :=
  match getKS e ksName with
  | None => ((None, 0, 0), e)
  | Some ks =>
      let m := EffectiveBloomBits (cfg ks) in
      let k := EffectiveBloomHashes (cfg ks) in
      let '(cur, st) := Peek now (kstore ks) name in
      (match cur with
       | Some ent => if IsTombstone ent || negb (IsBloom ent) then (None, m, k) else (Some (Value ent), m, k)
       | None => (None, m, k)
       end, with_ks e ksName (with_store ks st))
  end.

Definition Engine_Stats (e : Engine) (ksName : bytes) : Stats + EngErr :=
  match getKS e ksName with Some ks => inl (Memory_Stats (kstore ks)) | None => inr ErrKeyspaceNotFound end.

(** ** The node *)

Record PeerInfo := mkPeerInfo { pi_ID : bytes; pi_Address : bytes }.

(** The fields of the engine that only reports and hooks use are beside it: the
    address, the metrics and the warm-up manager that records hits. *)
Record Node := mkNode {
  nd_engine : Engine;
  nd_addr : bytes;
  nd_metrics : option Metrics;
  nd_recorder : option Manager;
}.

Definition SetNodeInfo (nd : Node) (id address : bytes) : Node :=
  let e := nd_engine nd in
  mkNode (mkEngine (keyspaces e) (global e) id (eclosed e) (cluster e) (maxKeyLen e) (maxValueSize e) (maxBatch e) (eMaxVersionKeys e))
    address (nd_metrics nd) (nd_recorder nd).

Definition AttachWarmup (nd : Node) (rec : option Manager) : Node := mkNode (nd_engine nd) (nd_addr nd) (nd_metrics nd) rec.

Definition NodeID (nd : Node) : bytes := nodeID (nd_engine nd).

Definition Node_Peers (nd : Node) : list PeerInfo :=
  match ringOf (nd_engine nd) with
  | Some (_, r) => map (fun p => mkPeerInfo (peer_ID p) (peer_Addr p)) (Ring.Peers r)
  | None => if bool_decide (NodeID nd = []) then [] else [mkPeerInfo (NodeID nd) (nd_addr nd)]
  end.

Definition Ready (nd : Node) : bool := negb (eclosed (nd_engine nd)).

(** The counters of the transport, which the fan-out pool keeps. *)
Definition FanoutStats (e : Engine) : Z * Z :=
  match cluster e with
  | Some c =>
      if hasTransport c
      then match Fanout c with Some fo => (Hints.FanoutErrors fo, Hints.FanoutDropped fo) | None => (0, 0) end
      else (0, 0)
  | None => (0, 0)
  end.

Definition Node_Metrics (nd : Node) : Metrics * Node :=
  match nd_metrics nd with
  | None => (Metrics_New, nd)
  | Some m =>
      let '(fe, fd) := FanoutStats (nd_engine nd) in
      let m := SetFanoutStats fe fd m in
      (Metrics_Snapshot (Some m), mkNode (nd_engine nd) (nd_addr nd) (Some m) (nd_recorder nd))
  end.

(** ** Keyspaces *)

Definition Mode_String (m : Mode) : bytes :=
  match m with
  | ModeLoadThrough => str "LoadThrough" | ModeCacheOnly => str "CacheOnly" | ModeBloom => str "Bloom" | ModeSet => str "Set"
  | ModeZSet => str "ZSet" | ModeGeo => str "Geo" | ModeList => str "List" | ModeHash => str "Hash"
  | ModeCounter => str "Counter" | ModeJSON => str "JSON" | ModeBitmap => str "Bitmap" | ModeHLL => str "HLL"
  | ModeTopK => str "TopK" | ModeCMS => str "CMS" | ModeVectorSet => str "VectorSet" | ModeStream => str "Stream"
  end.

Definition Guard_State (g : Guard) : bytes :=
  match gstate g with stateOpen => str "open" | stateHalfOpen => str "half-open" | stateClosed => str "closed" end.

Record KeySpaceSnapshot := mkSnap {
  ss_Name : bytes; ss_Mode : bytes; ss_ConfigHash : bytes; ss_MaxBytes : Z; ss_TTL : Z; ss_NegTTL : Z; ss_Stats : Stats;
  ss_Breaker : bytes; ss_RateLimited : Z; ss_BreakerOpens : Z; ss_HotKeys : list bytes; ss_ReplicationFactor : Z; ss_TombstoneTTL : Z;
}.

Section status.
Context (floatText : spec_float -> bytes).

Definition snapshot_of (peerN : Z) (ks : ksRuntime) : KeySpaceSnapshot :=
  let '(limited, opens) := Guard_Stats (guard ks) in
  mkSnap (Name (cfg ks)) (Mode_String (cMode (cfg ks))) (ConfigHash floatText (cfg ks)) (MaxBytes (cfg ks)) (TTL (cfg ks))
    (NegativeTTL (cfg ks)) (Memory_Stats (kstore ks)) (Guard_State (guard ks)) limited opens []
    (EffectiveReplication (cfg ks) peerN) (EffectiveTombstoneTTL (cfg ks)).

Definition with_hot (s : KeySpaceSnapshot) (ks : list bytes) : KeySpaceSnapshot :=
  mkSnap (ss_Name s) (ss_Mode s) (ss_ConfigHash s) (ss_MaxBytes s) (ss_TTL s) (ss_NegTTL s) (ss_Stats s) (ss_Breaker s)
    (ss_RateLimited s) (ss_BreakerOpens s) ks (ss_ReplicationFactor s) (ss_TombstoneTTL s).

(** The second loop: hot keys of each keyspace from the recorder. *)
Fixpoint add_hot (rec : Manager) (ss : list KeySpaceSnapshot) : list KeySpaceSnapshot * Manager :=
  match ss with
  | [] => ([], rec)
  | s :: ss =>
      let '(hot, rec) := HotKeys rec (ss_Name s) 16 in
      let '(ss, rec) := add_hot rec ss in
      (with_hot s hot :: ss, rec)
  end.

Definition KeySpaceSnapshots (nd : Node) : list KeySpaceSnapshot * Node :=
  let e := nd_engine nd in
  let peerN := match ringOf e with Some (_, r) => Ring_Len r | None => 0 end in
  let peerN := if peerN <=? 0 then 1 else peerN in
  let ss := map (fun p => snapshot_of peerN p.2) (map_to_list (keyspaces e)) in
  match nd_recorder nd with
  | None => (ss, nd)
  | Some rec => let '(ss, rec) := add_hot rec ss in (ss, mkNode e (nd_addr nd) (nd_metrics nd) (Some rec))
  end.

Definition Engine_ConfigHash (e : Engine) (ksName : bytes) : bytes + EngErr :=
  match getKS e ksName with Some ks => inl (ConfigHash floatText (cfg ks)) | None => inr ErrKeyspaceNotFound end.
End status.

(** ** The admin server *)

Class StatusProvider (P : Type) := {
  sp_Ready : P -> bool;
  sp_NodeID : P -> bytes;
  sp_Peers : P -> list PeerInfo;
  sp_RingGeneration : P -> Z;
  sp_KeySpaceSnapshots : P -> list KeySpaceSnapshot * P;
  sp_Metrics : P -> Metrics * P;
}.

Inductive Method := GET | HEAD | POST | PUT | DELETE | OtherMethod.
#[global] Instance Method_eq_dec : EqDecision Method.
Proof. solve_decision. Defined.

Inductive Body :=
  | BText (s : bytes)                                       (* http.Error *)
  | BHealth (node_id : bytes)
  | BReady (ready : bool)
  | BPeers (node_id : bytes) (ring_generation : Z) (peers : list PeerInfo) (keyspace_hashes : gmap bytes bytes)
  | BKeyspaces (ss : list KeySpaceSnapshot)
  | BMetrics (m : Metrics)
  | BDocument (body : bytes) | BNone
  | BLocation (url : bytes).

Record Response := mkResponse { rs_Code : Z; rs_Body : Body }.

Record AdminServer (P : Type) := mkAdmin { ad_provider : option P; ad_ready : bool }.
Arguments mkAdmin {P}. Arguments ad_provider {P}. Arguments ad_ready {P}.

Section admin.
Context {P : Type} `{!StatusProvider P}.
Context (indexHTML adminSpec cacheSpec : bytes).
Abbreviation Server := (AdminServer P).

Definition Admin_New (p : option P) : Server := mkAdmin p (match p with Some p => sp_Ready p | None => false end).
Definition SetReady (s : Server) (v : bool) : Server := mkAdmin (ad_provider s) v.

Definition notAllowed : Response := mkResponse 405 (BText (str "method not allowed")).
Definition safeNodeID (p : option P) : bytes := match p with Some p => sp_NodeID p | None => [] end.

Definition handleHealthz (s : Server) (m : Method) : Response :=
  if bool_decide (m = GET) then mkResponse 200 (BHealth (safeNodeID (ad_provider s))) else notAllowed.

Definition handleReadyz (s : Server) (m : Method) : Response :=
  if bool_decide (m = GET) then
    let ready := ad_ready s && match ad_provider s with Some p => sp_Ready p | None => false end in
    if ready then mkResponse 200 (BReady true) else mkResponse 503 (BReady false)
  else notAllowed.

Definition hashes_of (ss : list KeySpaceSnapshot) : gmap bytes bytes :=
  foldl (fun h s => <[ss_Name s := ss_ConfigHash s]> h) ∅ ss.

Definition handlePeers (s : Server) (m : Method) : Response * Server :=
  if bool_decide (m = GET) then
    match ad_provider s with
    | None => (mkResponse 200 (BPeers [] 0 [] ∅), s)
    | Some p =>
        let '(ss, p') := sp_KeySpaceSnapshots p in
        (mkResponse 200 (BPeers (sp_NodeID p') (sp_RingGeneration p) (sp_Peers p) (hashes_of ss)), mkAdmin (Some p') (ad_ready s))
    end
  else (notAllowed, s).

Definition handleKeyspaces (s : Server) (m : Method) : Response * Server :=
  if bool_decide (m = GET) then
    match ad_provider s with
    | None => (mkResponse 200 (BKeyspaces []), s)
    | Some p => let '(ss, p) := sp_KeySpaceSnapshots p in (mkResponse 200 (BKeyspaces ss), mkAdmin (Some p) (ad_ready s))
    end
  else (notAllowed, s).

Definition handleMetrics (s : Server) (m : Method) : Response * Server :=
  if bool_decide (m = GET) then
    match ad_provider s with
    | None => (mkResponse 200 (BMetrics Metrics_New), s)
    | Some p => let '(snap, p) := sp_Metrics p in (mkResponse 200 (BMetrics snap), mkAdmin (Some p) (ad_ready s))
    end
  else (notAllowed, s).

Definition getOrHead (m : Method) : bool := bool_decide (m = GET) || bool_decide (m = HEAD).

Definition serveYAML (body : bytes) (m : Method) : Response :=
  if getOrHead m then mkResponse 200 (if bool_decide (m = HEAD) then BNone else BDocument body) else notAllowed.

Definition notFound : Response := mkResponse 404 (BText (str "404 page not found")).

(** strings.TrimPrefix *)
Definition TrimPrefix (s p : bytes) : bytes := if hasPrefix p s then drop (length p) s else s.

Definition handleDocs (path : bytes) (m : Method) : Response :=
  if getOrHead m then
    let path := TrimPrefix (TrimPrefix path (str "/docs")) (str "/") in
    if bool_decide (path = []) || bool_decide (path = str "index.html")
    then mkResponse 200 (if bool_decide (m = HEAD) then BNone else BDocument indexHTML)
    else if bool_decide (path = str "admin.openapi.yaml") || bool_decide (path = str "openapi.yaml") then serveYAML adminSpec m
    else if bool_decide (path = str "cache.openapi.yaml") then serveYAML cacheSpec m
    else notFound
  else notAllowed.

(** The mux of Handler and mountDocs, on a path that is already clean: the exact
    patterns, then the subtree of "/docs/". *)
Definition serve (s : Server) (m : Method) (path : bytes) : Response * Server :=
  if bool_decide (path = str "/healthz") then (handleHealthz s m, s)
  else if bool_decide (path = str "/readyz") then (handleReadyz s m, s)
  else if bool_decide (path = str "/peers") then handlePeers s m
  else if bool_decide (path = str "/keyspaces") then handleKeyspaces s m
  else if bool_decide (path = str "/metrics") then handleMetrics s m
  else if bool_decide (path = str "/docs") then (mkResponse 302 (BLocation (str "/docs/")), s)
  else if bool_decide (path = str "/openapi.yaml") then (serveYAML adminSpec m, s)
  else if bool_decide (path = str "/openapi/admin.yaml") then (serveYAML adminSpec m, s)
  else if bool_decide (path = str "/openapi/cache.yaml") then (serveYAML cacheSpec m, s)
  else if hasPrefix (str "/docs/") path then (handleDocs path m, s)
  else (notFound, s).
End admin.

(** The engine as the provider of the server, as the node command wires them. *)
#[global] Instance Node_provider (floatText : spec_float -> bytes) : StatusProvider Node := {
  sp_Ready := Ready;
  sp_NodeID := NodeID;
  sp_Peers := Node_Peers;
  sp_RingGeneration nd := RingGeneration (nd_engine nd);
  sp_KeySpaceSnapshots := KeySpaceSnapshots floatText;
  sp_Metrics := Node_Metrics;
}.

(** ** What the reports say *)

(** A local view shows the entry of the store, and changes nothing that a read
    would see. *)
Lemma LocalView_spec now e n ks key :
  getKS e n = Some ks -> store_ok (kstore ks) ->
  exists v ks', Engine_LocalView now e n key = (v, with_ks e n ks') /\ view now (kstore ks') = view now (kstore ks) /\
  match view now (kstore ks) !! key with
  | None => lv_Kind v = LocalMissing
  | Some c => lv_Version v = Version c /\ lv_Flags v = Flags c /\ lv_Bytes v = len (Value c) /\
      lv_Kind v = if IsTombstone c then LocalTombstone else if IsNegative c then LocalNegative else LocalLive
  end.
Proof.
  intros Hks Hok. unfold Engine_LocalView. rewrite Hks. pose proof (Peek_view now (kstore ks) key) as HP.
  destruct (Peek now (kstore ks) key) as [cur m]. destruct (HP Hok) as (Hc & Hv & _). cbn in Hc, Hv.
  do 2 eexists. split; [reflexivity|]. split; [done|]. rewrite <- Hc. by destruct cur.
Qed.

(** *** Configuration drift *)

(** Keyspaces are registered under their names. *)
Definition named (e : Engine) : Prop := forall n ks, getKS e n = Some ks -> Name (cfg ks) = n.

Lemma UpdateKeySpace_named now e c : named e -> named (UpdateKeySpace now e c).2.
Proof.
  intros H n ks. unfold UpdateKeySpace. destruct (Validate c); [apply H|]. cbn. unfold getKS. cbn.
  intros [[<- <-]|[Hn Hk]]%lookup_insert_Some; [done|by apply H].
Qed.
Lemma DeleteKeySpace_named e n : named e -> named (DeleteKeySpace e n).2.
Proof.
  intros H k ks. unfold DeleteKeySpace. destruct (keyspaces e !! n); [|apply H]. cbn. unfold getKS. cbn.
  intros [_ Hk]%lookup_delete_Some. by apply H.
Qed.

#[local] Opaque Sum256 hex_string.

Section drift.
Context (floatText : spec_float -> bytes).

(** The hash of each keyspace, by its name. *)
Definition config_hashes (e : Engine) : gmap bytes bytes := (fun ks => ConfigHash floatText (cfg ks)) <$> keyspaces e.

Definition label (s : KeySpaceSnapshot) : bytes * bytes := (ss_Name s, ss_ConfigHash s).

Lemma hashes_labels ss : hashes_of ss = foldl (fun h p => <[p.1 := p.2]> h) ∅ (map label ss).
Proof. unfold hashes_of. generalize (∅ : gmap bytes bytes). induction ss as [|s ss IH]; intros h; cbn; [done|apply IH]. Qed.

Lemma insert_all (l : list (bytes * bytes)) (h : gmap bytes bytes) :
  NoDup l.*1 -> foldl (fun h p => <[p.1 := p.2]> h) h l = list_to_map l ∪ h.
Proof.
  revert h. induction l as [|[k v] l IH]; intros h Hn; cbn; [by rewrite map_empty_union|]. inv Hn.
  rewrite IH by done. rewrite <- insert_union_l, insert_union_r; [done|]. by apply not_elem_of_list_to_map_1.
Qed.

Lemma add_hot_labels rec ss : map label (add_hot rec ss).1 = map label ss.
Proof.
  revert rec. induction ss as [|s ss IH]; intros rec; cbn; [done|]. destruct (HotKeys rec (ss_Name s) 16) as [hot rec1].
  specialize (IH rec1). destruct (add_hot rec1 ss) as [ss' rec2]. cbn in *. by rewrite IH.
Qed.

Lemma snapshots_hashes nd : named (nd_engine nd) -> hashes_of (KeySpaceSnapshots floatText nd).1 = config_hashes (nd_engine nd).
Proof.
  intros Hn. unfold KeySpaceSnapshots. cbv zeta. set (peerN := if _ <=? 0 then _ else _).
  set (ss := map (fun p => snapshot_of floatText peerN p.2) (map_to_list (keyspaces (nd_engine nd)))).
  assert (Hl : forall ss', map label ss' = map label ss -> hashes_of ss' = config_hashes (nd_engine nd)).
  { intros ss' E. rewrite hashes_labels, E. unfold ss. rewrite map_map.
    assert (El : map (fun p => label (snapshot_of floatText peerN p.2)) (map_to_list (keyspaces (nd_engine nd))) =
      map_to_list (config_hashes (nd_engine nd))).
    { unfold config_hashes. rewrite map_to_list_fmap. apply map_ext_in. intros [n ks] Hi.
      apply list_elem_of_In, elem_of_map_to_list in Hi. unfold label. cbn. by rewrite (Hn n ks Hi). }
    rewrite El, insert_all, list_to_map_to_list, map_union_empty; [done|]. apply NoDup_fst_map_to_list. }
  destruct (nd_recorder nd) as [rec|]; [|by apply Hl].
  pose proof (add_hot_labels rec ss) as Ha. destruct (add_hot rec ss) as [ss' rec']. by apply Hl.
Qed.

(** The hashes that a node shows on /peers. *)
Lemma peers_hashes s nd (Hp : ad_provider s = Some nd) : named (nd_engine nd) ->
  (handlePeers (StatusProvider0 := Node_provider floatText) s GET).1 =
  mkResponse 200 (BPeers (NodeID nd) (RingGeneration (nd_engine nd)) (Node_Peers nd) (config_hashes (nd_engine nd))).
Proof.
  intros Hn. unfold handlePeers. cbn [bool_decide]. rewrite bool_decide_eq_true_2 by done. rewrite Hp. cbn [sp_KeySpaceSnapshots Node_provider].
  rewrite <- (snapshots_hashes nd Hn). destruct (KeySpaceSnapshots floatText nd) as [ss nd'] eqn:E. cbn [fst].
  change (sp_NodeID nd') with (NodeID nd'). assert (NodeID nd' = NodeID nd) as ->; [|done]. unfold KeySpaceSnapshots in E. cbv zeta in E.
  destruct (nd_recorder nd) as [rec|]; [destruct (add_hot _ _)|]; by simplify_eq.
Qed.
End drift.

(** C33: operators see drift.  Take two nodes whose keyspaces all have finite rate
    limits and names and warm keys of valid UTF-8 (a configuration without a JSON
    text is hashed as the empty text, [drift_hidden]), and a text of floats that
    is one to one.  When they show the same keyspace hashes on /peers, they have
    the same keyspaces, and each of them has the same configuration on both nodes
    but for its data source, nil and empty warm keys told apart, unless two texts
    collide in the first eight bytes of SHA-256; and nodes with the same
    configurations show the same hashes. *)
Theorem drift_shown (floatText : spec_float -> bytes) s s' nd nd' :
  (forall f g, finite f -> finite g -> floatText f = floatText g -> f = g) ->
  (forall f, finite f -> Forall (fun x => ~ stop x) (floatText f)) ->
  ad_provider s = Some nd -> ad_provider s' = Some nd' -> named (nd_engine nd) -> named (nd_engine nd') ->
  (forall n ks, getKS (nd_engine nd) n = Some ks \/ getKS (nd_engine nd') n = Some ks ->
     config_ok (cfg ks) /\ is_Some (config_text floatText (cfg ks))) ->
  exists id gen peers hashes id' gen' peers' hashes',
    (handlePeers (StatusProvider0 := Node_provider floatText) s GET).1 = mkResponse 200 (BPeers id gen peers hashes) /\
    (handlePeers (StatusProvider0 := Node_provider floatText) s' GET).1 = mkResponse 200 (BPeers id' gen' peers' hashes') /\
    (hashes = hashes' -> forall n,
       match getKS (nd_engine nd) n, getKS (nd_engine nd') n with
       | Some ks, Some ks' =>
           cfg ks' = with_source (cfg ks) (hasDataSource (cfg ks')) \/
           exists t t', t <> t' /\ config_text floatText (cfg ks) = Some t /\ config_text floatText (cfg ks') = Some t' /\
             take 8 (Sum256 t) = take 8 (Sum256 t')
       | None, None => True
       | _, _ => False
       end) /\
    ((forall n, (fun ks => with_source (cfg ks) true) <$> getKS (nd_engine nd) n = (fun ks => with_source (cfg ks) true) <$> getKS (nd_engine nd') n) ->
       hashes = hashes').
Proof.
  intros Hinj Hclean Hp Hp' Hn Hn' Hok. do 8 eexists.
  rewrite (peers_hashes floatText s nd Hp Hn), (peers_hashes floatText s' nd' Hp' Hn'). split; [reflexivity|]. split; [reflexivity|].
  unfold config_hashes. split.
  - intros E n. apply (f_equal (lookup n)) in E. rewrite !lookup_fmap in E. unfold getKS in *.
    destruct (keyspaces (nd_engine nd) !! n) as [ks|] eqn:Ek, (keyspaces (nd_engine nd') !! n) as [ks'|] eqn:Ek'; try done.
    injection E as E. destruct (Hok n ks) as (Hc & t & Ht); [by left|]. destruct (Hok n ks') as (Hc' & t' & Ht'); [by right|].
    destruct (drift_seen floatText (cfg ks) (cfg ks') t t' Hinj Hclean Hc Hc' Ht Ht') as [_ H].
    destruct (H (eq_sym E)) as [|[? ?]]; [by left|right; by exists t, t'].
  - intros E. apply map_eq. intros n. specialize (E n). rewrite !lookup_fmap. unfold getKS in E.
    destruct (keyspaces (nd_engine nd) !! n) as [ks|], (keyspaces (nd_engine nd') !! n) as [ks'|]; try done.
    apply (inj Some) in E. cbn. f_equal. change (ConfigHash floatText (cfg ks)) with (ConfigHash floatText (with_source (cfg ks) true)).
    change (ConfigHash floatText (cfg ks')) with (ConfigHash floatText (with_source (cfg ks') true)). by rewrite E.
Qed.

(** *** The admin server only reads *)

Section readonly.
Context (floatText : spec_float -> bytes) (indexHTML adminSpec cacheSpec : bytes).
Abbreviation serve := (serve (StatusProvider0 := Node_provider floatText) indexHTML adminSpec cacheSpec).

Lemma KeySpaceSnapshots_engine nd : nd_engine (KeySpaceSnapshots floatText nd).2 = nd_engine nd.
Proof. unfold KeySpaceSnapshots. cbv zeta. destruct (nd_recorder nd) as [rec|]; [|done]. by destruct (add_hot rec _). Qed.
Lemma Node_Metrics_engine nd : nd_engine (Node_Metrics nd).2 = nd_engine nd.
Proof. unfold Node_Metrics. destruct (nd_metrics nd) as [m|]; [|done]. by destruct (FanoutStats (nd_engine nd)). Qed.

(** A request changes neither the engine nor the readiness of the server, and a
    path that serves node data answers with 405 to every method but GET. *)
Lemma serve_reads s m path :
  ad_ready (serve s m path).2 = ad_ready s /\ nd_engine <$> ad_provider (serve s m path).2 = nd_engine <$> ad_provider s.
Proof.
  assert (Hk : forall (f : list KeySpaceSnapshot -> Node -> Response) p,
    let '(ss, p') := KeySpaceSnapshots floatText p in nd_engine p' = nd_engine p).
  { intros f p. pose proof (KeySpaceSnapshots_engine p). by destruct (KeySpaceSnapshots floatText p). }
  unfold serve, Status.serve. repeat (case_bool_decide; [try done|]); try (by destruct (hasPrefix _ _)).
  - unfold handlePeers. case_bool_decide; [|done]. destruct (ad_provider s) as [p|] eqn:Ep; [|by cbn; rewrite ?Ep].
    specialize (Hk (fun _ _ => notAllowed) p). cbn [sp_KeySpaceSnapshots Node_provider]. destruct (KeySpaceSnapshots floatText p). cbn. by rewrite Hk.
  - unfold handleKeyspaces. case_bool_decide; [|done]. destruct (ad_provider s) as [p|] eqn:Ep; [|by cbn; rewrite ?Ep].
    specialize (Hk (fun _ _ => notAllowed) p). cbn [sp_KeySpaceSnapshots Node_provider]. destruct (KeySpaceSnapshots floatText p). cbn. by rewrite Hk.
  - unfold handleMetrics. case_bool_decide; [|done]. destruct (ad_provider s) as [p|] eqn:Ep; [|by cbn; rewrite ?Ep].
    pose proof (Node_Metrics_engine p) as Hm. cbn [sp_Metrics Node_provider]. destruct (Node_Metrics p). cbn in *. by rewrite Hm.
Qed.

(** Any requests one after the other. *)
Definition serveAll (s : AdminServer Node) (rs : list (Method * bytes)) : AdminServer Node :=
  foldl (fun s r => (serve s r.1 r.2).2) s rs.

Lemma serveAll_reads s rs :
  ad_ready (serveAll s rs) = ad_ready s /\ nd_engine <$> ad_provider (serveAll s rs) = nd_engine <$> ad_provider s.
Proof.
  revert s. induction rs as [|r rs IH]; intros s; [done|]. change (serveAll s (r :: rs)) with (serveAll (serve s r.1 r.2).2 rs).
  destruct (IH (serve s r.1 r.2).2) as [H1 H2]. rewrite H1, H2. apply serve_reads.
Qed.

(** /readyz answers 200 exactly while the server was told that the node is ready
    and the engine is open, whatever was asked before. *)
Lemma readyz_exact s rs nd : ad_provider s = Some nd ->
  rs_Code (handleReadyz (StatusProvider0 := Node_provider floatText) (serveAll s rs) GET) =
    if ad_ready s && negb (eclosed (nd_engine nd)) then 200 else 503.
Proof.
  intros Hp. destruct (serveAll_reads s rs) as [Hr He]. rewrite Hp in He. unfold handleReadyz.
  rewrite bool_decide_eq_true_2, Hr by done. destruct (ad_provider (serveAll s rs)) as [nd'|]; [|done].
  apply (inj Some) in He. cbn [sp_Ready Node_provider]. unfold Ready. rewrite He. by destruct (ad_ready s), (eclosed (nd_engine nd)).
Qed.
End readonly.

(** ** At concrete nodes *)

Definition wit_node (ttl : Z) (src : bool) : Node :=
  let c := Config.mkConfig [107] ModeSet ttl 0 0 0 0 None 0 f_zero (mkPConfig f_zero 0 0 0) src 0 0 0 0 0 0 10 0 0 0 in
  mkNode (with_ks (Engine_New None) [107] (mkKS c (NewMemory 0 0) (Guard_New 0 (CircuitBreaker c)) ∅ DefaultMaxVersionKeys)) [] None None.

Lemma wit_node_named ttl src : named (nd_engine (wit_node ttl src)).
Proof.
  intros n ks H. unfold getKS, wit_node, with_ks in H. cbn [nd_engine keyspaces with_keyspaces] in H.
  by apply lookup_insert_Some in H as [[<- <-]|[_ H]].
Qed.

Lemma wit_nodes_ok ttl src n ks :
  MinInt64 <= ttl <= MaxInt64 -> getKS (nd_engine (wit_node ttl src)) n = Some ks ->
  config_ok (cfg ks) /\ is_Some (config_text wit_floatText (cfg ks)).
Proof.
  intros Ht H. unfold getKS, wit_node, with_ks in H. cbn [nd_engine keyspaces with_keyspaces] in H.
  apply lookup_insert_Some in H as [[_ <-]|[_ H]]; [|done]. cbn [cfg]. split; [|by apply config_text_finite].
  unfold config_ok. cbn. repeat (constructor; [cbn; unfold MinInt64, MaxInt64 in *; try done; try lia|]); [|constructor].
  apply (JsonText.utf8_app [107] []); [|constructor]. repeat split; [repeat constructor; lia|done].
Qed.

Lemma drift_shown_witness :
  exists id gen peers hashes id' gen' peers' hashes',
    (handlePeers (StatusProvider0 := Node_provider wit_floatText) (Admin_New (StatusProvider0 := Node_provider wit_floatText) (Some (wit_node 5 true))) GET).1
      = mkResponse 200 (BPeers id gen peers hashes) /\
    (handlePeers (StatusProvider0 := Node_provider wit_floatText) (Admin_New (StatusProvider0 := Node_provider wit_floatText) (Some (wit_node 5 false))) GET).1
      = mkResponse 200 (BPeers id' gen' peers' hashes') /\ hashes = hashes'.
Proof.
  destruct (drift_shown wit_floatText (Admin_New (StatusProvider0 := Node_provider wit_floatText) (Some (wit_node 5 true)))
    (Admin_New (StatusProvider0 := Node_provider wit_floatText) (Some (wit_node 5 false))) (wit_node 5 true) (wit_node 5 false))
    as (i & g & p & h & i' & g' & p' & h' & E & E' & _ & H).
  - apply wit_floatText_inj.
  - apply wit_floatText_clean.
  - reflexivity.
  - reflexivity.
  - apply wit_node_named.
  - apply wit_node_named.
  - intros n ks [H|H]; eapply wit_nodes_ok; try exact H; vm_compute; split; discriminate.
  - exists i, g, p, h, i', g', p', h'. split; [exact E|]. split; [exact E'|]. apply H. intros n.
    unfold getKS, wit_node, with_ks. cbn [nd_engine keyspaces with_keyspaces].
    destruct (decide (n = [107])) as [->|Hn]; [by rewrite !lookup_insert_eq|by rewrite !lookup_insert_ne].
Defined.
