(* ===== verification/Node.v ===== *)
(** * The node command: TLS, demo keyspaces, options

    cmd/supercache-node with pkg/tlsconfig and pkg/datasource: what the flags of
    a node make of its servers and its engine.  Files, certificates and pools of
    certificates belong to the operating system and the crypto packages and are
    arguments.  Listening and serving are I/O. *)
From stdpp Require Import strings.
From S2P Require Import Prelude Wire Store Protect Ring Hints Config Engine Membership ShellText Drift Status.
From Stdlib Require Import SpecFloat.

(** ** pkg/tlsconfig *)

Inductive ClientAuthType := NoClientCert | VerifyClientCertIfGiven | RequireAndVerifyClientCert.

Definition VersionTLS12 : Z := 771.

Section tls.
Context {Cert Pool : Type}.
Context (LoadX509KeyPair : bytes -> bytes -> option Cert).
Context (ReadFile : bytes -> option bytes) (AppendCertsFromPEM : bytes -> option Pool).

Record TLSConfig := mkTLS {
  MinVersion : Z;
  Certificates : list Cert;
  ClientCAs : option Pool;
  ClientAuth : ClientAuthType;
  RootCAs : option Pool;
  ServerName : bytes;
}.

Definition loadCertPool (caFile : bytes) : option Pool := pem ← ReadFile caFile; AppendCertsFromPEM pem.

Definition ServerFiles (certFile keyFile clientCAFile : bytes) (requireClientCert : bool) : option TLSConfig :=
  if bool_decide (certFile = []) || bool_decide (keyFile = []) then None
  else
    cert ← LoadX509KeyPair certFile keyFile;
    if bool_decide (clientCAFile = []) then Some (mkTLS VersionTLS12 [cert] None NoClientCert None [])
    else
      pool ← loadCertPool clientCAFile;
      Some (mkTLS VersionTLS12 [cert] (Some pool)
              (if requireClientCert then RequireAndVerifyClientCert else VerifyClientCertIfGiven) None []).

Definition ClientFiles (caFile serverName certFile keyFile : bytes) : option TLSConfig :=
  if bool_decide (caFile = []) then None
  else
    pool ← loadCertPool caFile;
    if bool_decide (certFile = []) && bool_decide (keyFile = [])
    then Some (mkTLS VersionTLS12 [] None NoClientCert (Some pool) serverName)
    else if bool_decide (certFile = []) || bool_decide (keyFile = []) then None
    else
      cert ← LoadX509KeyPair certFile keyFile;
      Some (mkTLS VersionTLS12 [cert] None NoClientCert (Some pool) serverName).

(** ** buildTLS *)

Record TLSFlags := mkFlags {
  tlsCert : bytes; tlsKey : bytes; tlsClientCA : bytes; peerMTLS : bool;
  cacheClientCA : bytes; cacheMTLS : bool;
  peerClientCert : bytes; peerClientKey : bytes; peerServerName : bytes;
}.

(** The credentials of the Cache server, of the Peer server and of outbound peer
    calls, each [None] for plaintext; [None] on an error. *)
Definition buildTLS (f : TLSFlags) : option (option TLSConfig * option TLSConfig * option TLSConfig) :=
  let empty (s : bytes) := bool_decide (s = []) in
  if empty (tlsCert f) && empty (tlsKey f) then
    if peerMTLS f || cacheMTLS f || negb (empty (tlsClientCA f)) || negb (empty (cacheClientCA f)) then None
    else Some (None, None, None)
  else if empty (tlsCert f) || empty (tlsKey f) then None
  else
    let cacheCA := if empty (cacheClientCA f) && cacheMTLS f then tlsClientCA f else cacheClientCA f in
    cacheTLS ← ServerFiles (tlsCert f) (tlsKey f) cacheCA (cacheMTLS f && negb (empty cacheCA));
    let peerCA := tlsClientCA f in
    if peerMTLS f && empty peerCA then None
    else
      peerTLS ← ServerFiles (tlsCert f) (tlsKey f) peerCA (peerMTLS f);
      peerDial ←
        (if negb (empty peerCA) || peerMTLS f then
           ClientFiles peerCA (peerServerName f)
             (if empty (peerClientCert f) then tlsCert f else peerClientCert f)
             (if empty (peerClientKey f) then tlsKey f else peerClientKey f)
         else ClientFiles (tlsCert f) (peerServerName f) [] []);
      Some (Some cacheTLS, Some peerTLS, Some peerDial).

(** *** What the flags guarantee *)

Lemma ServerFiles_spec cert key ca req c :
  ServerFiles cert key ca req = Some c ->
  MinVersion c = VersionTLS12 /\ (exists x, LoadX509KeyPair cert key = Some x /\ Certificates c = [x]) /\
  ClientCAs c = (if bool_decide (ca = []) then None else loadCertPool ca) /\
  ClientAuth c = (if bool_decide (ca = []) then NoClientCert else if req then RequireAndVerifyClientCert else VerifyClientCertIfGiven).
Proof.
  unfold ServerFiles. destruct (_ || _); [done|]. destruct (LoadX509KeyPair cert key) as [x|]; [|done]. cbn [mbind option_bind].
  case_bool_decide; [intros [= <-]; cbn; split_and!; eauto|].
  destruct (loadCertPool ca) as [p|]; cbn; [|discriminate]. intros [= <-]. cbn. split_and!; eauto.
Qed.

Lemma ClientFiles_spec ca name cert key c :
  ClientFiles ca name cert key = Some c ->
  MinVersion c = VersionTLS12 /\ ServerName c = name /\ (exists p, loadCertPool ca = Some p /\ RootCAs c = Some p) /\
  (cert <> [] \/ key <> [] -> exists x, LoadX509KeyPair cert key = Some x /\ Certificates c = [x]).
Proof.
  unfold ClientFiles. destruct (bool_decide (ca = [])); [done|]. destruct (loadCertPool ca) as [p|]; [|done]. cbn [mbind option_bind].
  destruct (decide (cert = [])) as [->|Hc], (decide (key = [])) as [->|Hk].
  - rewrite !bool_decide_eq_true_2 by done. intros [= <-]. cbn. split_and!; eauto. by intros [|].
  - rewrite (bool_decide_eq_true_2 ([] = [])), (bool_decide_eq_false_2 (key = [])) by done. done.
  - rewrite (bool_decide_eq_false_2 (cert = [])), (bool_decide_eq_true_2 ([] = [])) by done. done.
  - rewrite !bool_decide_eq_false_2 by done. cbn [andb orb]. destruct (LoadX509KeyPair cert key) as [x|]; [|done].
    intros [= <-]. cbn. split_and!; eauto.
Qed.

(** The node runs in plaintext only when no TLS flag asks for more, and when it
    has a certificate both servers present it.  With -peer-mtls the Peer server
    refuses callers without a certificate of the CA, and the node's own peer
    calls present one; with -cache-mtls the Cache server does so exactly when one
    of the two CA flags is set. *)
Lemma buildTLS_spec f cache peer dial :
  buildTLS f = Some (cache, peer, dial) ->
  (cache = None /\ peer = None /\ dial = None /\ tlsCert f = [] /\ tlsKey f = [] /\ peerMTLS f = false /\ cacheMTLS f = false) \/
  (exists x c p d, cache = Some c /\ peer = Some p /\ dial = Some d /\ LoadX509KeyPair (tlsCert f) (tlsKey f) = Some x /\
     Certificates c = [x] /\ Certificates p = [x] /\ is_Some (RootCAs d) /\
     (peerMTLS f = true -> ClientAuth p = RequireAndVerifyClientCert /\ ClientCAs p = loadCertPool (tlsClientCA f) /\
        tlsClientCA f <> [] /\ exists y, Certificates d = [y]) /\
     (cacheMTLS f = true ->
        if bool_decide (cacheClientCA f = [] /\ tlsClientCA f = []) then ClientAuth c = NoClientCert
        else ClientAuth c = RequireAndVerifyClientCert)).
Proof.
  unfold buildTLS. destruct (decide (tlsCert f = [])) as [Hc|Hc], (decide (tlsKey f = [])) as [Hk|Hk].
  { rewrite Hc, Hk, !(bool_decide_eq_true_2 ([] = [])) by done. cbn [andb].
    destruct (peerMTLS f), (cacheMTLS f); cbn [orb]; try done. destruct (_ || _); [done|]. intros [= <- <- <-]. left. done. }
  { rewrite Hc, (bool_decide_eq_true_2 ([] = [])), (bool_decide_eq_false_2 (tlsKey f = [])) by done. done. }
  { rewrite Hk, (bool_decide_eq_false_2 (tlsCert f = [])), (bool_decide_eq_true_2 ([] = [])) by done. done. }
  rewrite (bool_decide_eq_false_2 (tlsCert f = [])), (bool_decide_eq_false_2 (tlsKey f = [])) by done. cbn [andb orb].
  set (cacheCA := if bool_decide (cacheClientCA f = []) && cacheMTLS f then tlsClientCA f else cacheClientCA f).
  destruct (ServerFiles (tlsCert f) (tlsKey f) cacheCA _) as [c|] eqn:Ec; [|done]. cbn [mbind option_bind].
  destruct (peerMTLS f && bool_decide (tlsClientCA f = [])) eqn:Em; [done|].
  destruct (ServerFiles (tlsCert f) (tlsKey f) (tlsClientCA f) (peerMTLS f)) as [p|] eqn:Ep; [|done]. cbn [mbind option_bind].
  destruct (if negb _ || _ then _ else _) as [d|] eqn:Ed; [|done]. cbn [mbind option_bind]. intros [= <- <- <-]. right.
  apply ServerFiles_spec in Ec as (_ & (x & Hx & Hcc) & _ & Hca), Ep as (_ & (x' & Hx' & Hpc) & Hpp & Hpa).
  rewrite Hx in Hx'. injection Hx' as <-. exists x, c, p, d.
  assert (Hd : is_Some (RootCAs d) /\ (peerMTLS f = true -> exists y, Certificates d = [y])).
  { destruct (negb (bool_decide (tlsClientCA f = [])) || peerMTLS f) eqn:Eb; apply ClientFiles_spec in Ed as (_ & _ & (q & _ & Hq) & Hcert).
    - split; [by eexists|]. intros _. destruct Hcert as (y & _ & Hy); [|by eexists]. left. by destruct (bool_decide_reflect (peerClientCert f = [])).
    - split; [by eexists|]. intros Hm. rewrite Hm, orb_true_r in Eb. done. }
  split_and!; try done; [apply Hd| |].
  - intros Hm. rewrite Hm in *. cbn [andb] in Em. apply bool_decide_eq_false in Em.
    rewrite bool_decide_eq_false_2 in Hpp, Hpa by done. split_and!; try done. by apply Hd.
  - intros Hm. unfold cacheCA in Hca. rewrite Hm, andb_true_r in Hca. cbn [andb] in Hca. rewrite Hca.
    destruct (decide (cacheClientCA f = [])) as [E1|E1].
    + rewrite E1, (bool_decide_eq_true_2 ([] = [])) by done. destruct (decide (tlsClientCA f = [])) as [E2|E2].
      * rewrite E2, !bool_decide_eq_true_2; done.
      * rewrite !bool_decide_eq_false_2; [done|done|naive_solver].
    + rewrite (bool_decide_eq_false_2 (cacheClientCA f = [])) by done. rewrite !bool_decide_eq_false_2; [done|done|naive_solver].
Qed.
End tls.

(** The flag -cache-mtls says that it needs one of the CA flags, but does not ask
    for them: without one the node starts and takes callers without certificates. *)
Example cache_mtls_ignored :
  match buildTLS (fun _ _ => Some tt) (fun _ => Some []) (fun _ => Some tt) (mkFlags (str "cert") (str "key") [] false [] true [] [] []) with
  | Some (Some c, _, _) => ClientAuth c = NoClientCert
  | _ => False
  end.
Proof. vm_compute. reflexivity. Qed.

(** ** pkg/datasource *)

(** Map is a data source over a map; Func passes the call on. *)
Definition Map_Load (m : gmap bytes bytes) (key : bytes) : LoadResult :=
  match m !! key with Some v => Loaded v | None => LoadNotFound end.

(** ** Options of the engine *)

Inductive EngOption :=
  | WithGlobalProtect (g : option Guard)
  | WithLimits (maxKeyLen maxValueSize maxBatch : Z)
  | WithMaxVersionKeys (n : Z).

Definition applyOption (e : Engine) (o : EngOption) : Engine :=
  match o with
  | WithGlobalProtect g => with_global e g
  | WithLimits k v b =>
      mkEngine (keyspaces e) (global e) (nodeID e) (eclosed e) (cluster e) (if 0 <? k then k else maxKeyLen e)
        (if 0 <? v then v else maxValueSize e) (if 0 <? b then b else maxBatch e) (eMaxVersionKeys e)
  | WithMaxVersionKeys n =>
      mkEngine (keyspaces e) (global e) (nodeID e) (eclosed e) (cluster e) (maxKeyLen e) (maxValueSize e) (maxBatch e)
        (if 0 <? n then n else eMaxVersionKeys e)
  end.

Definition Engine_NewWith (opts : list EngOption) : Engine := foldl applyOption (Engine_New None) opts.

(** Limits stay positive whatever the options say. *)
Lemma options_positive opts :
  let e := Engine_NewWith opts in 0 < maxKeyLen e /\ 0 < maxValueSize e /\ 0 < maxBatch e /\ 0 < eMaxVersionKeys e /\ keyspaces e = ∅.
Proof.
  unfold Engine_NewWith. assert (H0 : let e := Engine_New None in
    0 < maxKeyLen e /\ 0 < maxValueSize e /\ 0 < maxBatch e /\ 0 < eMaxVersionKeys e /\ keyspaces e = ∅) by (by vm_compute).
  revert H0. generalize (Engine_New None). cbv zeta. induction opts as [|o opts IH]; intros e (H1 & H2 & H3 & H4 & H5); [done|].
  cbn. apply IH. destruct o; cbn; zcmp; split_and!; try done; lia.
Qed.

(** ** cmd/supercache-node *)

(** -seeds: comma-separated, trimmed, without empties. *)
Definition seedList (seeds : bytes) : list bytes :=
  if bool_decide (seeds = []) then []
  else filter (fun s => s <> []) (map TrimSpace (split 44 seeds)).

Lemma seedList_clean seeds s : s ∈ seedList seeds -> s <> [].
Proof. unfold seedList. case_bool_decide; [by intros ?%list_elem_of_In|]. by intros [? _]%list_elem_of_filter. Qed.

Definition demoKeyspaceName (m : Mode) : bytes := ToLower (Mode_String m).

Definition minute : Z := 60 * 1000000000.
Definition demoConfig (m : Mode) (maxBytes ttl : Z) : Config.Config :=
  Config.mkConfig (demoKeyspaceName m) m ttl 0 maxBytes 0 0 None 0 f_zero (mkPConfig f_zero 0 0 0) false 0 0 0 0 0 0 0 0 0 0.

Definition demoKeyspaceConfigs : list Config.Config :=
  demoConfig ModeCacheOnly (64 * 2 ^ 20) (5 * minute) ::
  map (fun m => demoConfig m (16 * 2 ^ 20) (30 * minute)) [ModeSet; ModeZSet; ModeHash; ModeJSON; ModeBitmap; ModeVectorSet].

Definition demoKeyspaceNames : list bytes := map (fun c => Name c ++ [61] ++ Mode_String (cMode c)) demoKeyspaceConfigs.

Fixpoint registerAll (now : Z) (e : Engine) (cs : list Config.Config) : option EngErr * Engine :=
  match cs with
  | [] => (None, e)
  | c :: cs => let '(r, e) := UpdateKeySpace now e c in match r with Some err => (Some err, e) | None => registerAll now e cs end
  end.
Definition registerDemoKeyspaces (now : Z) (e : Engine) : option EngErr * Engine := registerAll now e demoKeyspaceConfigs.

Lemma registerAll_spec now cs e :
  Forall (fun c => Validate c = None) cs -> NoDup (map Name cs) ->
  (registerAll now e cs).1 = None /\
  (forall c, c ∈ cs -> exists ks, getKS (registerAll now e cs).2 (Name c) = Some ks /\ cfg ks = c) /\
  (forall n, n ∉ map Name cs -> getKS (registerAll now e cs).2 n = getKS e n).
Proof.
  revert e. induction cs as [|c cs IH]; intros e Hv Hd; [split; [done|]; split; [by intros ? ?%list_elem_of_In|done]|].
  apply Forall_cons in Hv as [Hc Hv]. apply NoDup_cons in Hd as [Hn Hd]. cbn [registerAll map].
  unfold UpdateKeySpace. rewrite Hc. cbv zeta iota beta. set (e1 := with_ks e (Name c) _).
  destruct (IH e1 Hv Hd) as (H1 & H2 & H3). split; [done|]. split.
  - intros c' [->|Hc']%elem_of_cons; [|by apply H2]. eexists. rewrite H3 by done. split; [apply lookup_insert_eq|done].
  - intros n [Hne Hn']%not_elem_of_cons. rewrite H3 by done. by apply lookup_insert_ne.
Qed.

(** The demo keyspaces register on every engine, each under the lower-case name
    of its mode and with that mode. *)
Lemma demo_registers now e :
  (registerDemoKeyspaces now e).1 = None /\
  Forall (fun m => exists ks, getKS (registerDemoKeyspaces now e).2 (ToLower (Mode_String m)) = Some ks /\ cMode (cfg ks) = m)
    [ModeCacheOnly; ModeSet; ModeZSet; ModeHash; ModeJSON; ModeBitmap; ModeVectorSet].
Proof.
  assert (Hv : Forall (fun c => Validate c = None) demoKeyspaceConfigs) by (repeat constructor).
  assert (Hd : NoDup (map Name demoKeyspaceConfigs)) by (apply (bool_decide_unpack (NoDup _)); vm_compute; done).
  destruct (registerAll_spec now demoKeyspaceConfigs e Hv Hd) as (H1 & H2 & _). split; [exact H1|].
  change [ModeCacheOnly; ModeSet; ModeZSet; ModeHash; ModeJSON; ModeBitmap; ModeVectorSet] with (map cMode demoKeyspaceConfigs).
  assert (Hn : Forall (fun c => Name c = ToLower (Mode_String (cMode c))) demoKeyspaceConfigs) by (repeat constructor).
  apply Forall_map, Forall_forall. intros c Hc. rewrite Forall_forall in Hn. rewrite <- (Hn c Hc).
  destruct (H2 c Hc) as (ks & Hk & Hcfg). exists ks. split; [exact Hk|by rewrite Hcfg].
Qed.

(** The bridge from membership events to the events of the engine. *)
Inductive EngineEventType := PeerJoined | PeerLeft | PeerUpdated.
Definition bridgeEvent (t : EventType) : EngineEventType :=
  match t with EventJoin => PeerJoined | EventLeave => PeerLeft | EventUpdate => PeerUpdated end.
