(* ===== verification/Bench.v ===== *)
(** * The benchmark commands: cmd/scbench and cmd/scbench-diff

    What a measurement is made of: the presets and the matrix of cells, the split
    of latency samples over workers, the generator of keys, the choice of a
    connection, percentiles and medians, and the comparison of two reports.
    Floats are 64-bit patterns.  Opening connections, the clock and printing are
    I/O; time.ParseDuration and math.Pow are arguments. *)
From stdpp Require Import strings sorting.
From S2P Require Import Prelude Wire Collections Scored Estimates ShellText.

(** ** Presets (main.go) *)

Definition second : Z := 1000000000.

Record BenchFlags := mkBench {
  bf_compare : bool; bf_suite : bool; bf_trials : Z; bf_duration : Z; bf_warmup : Z; bf_keys : Z }.

Definition defaultFlags : BenchFlags := mkBench false false 5 (15 * second) (5 * second) 50000.

(** -reliable *)
Definition reliable (f : BenchFlags) : BenchFlags :=
  mkBench true true (if bf_trials f <? 5 then 5 else bf_trials f)
    (if bf_duration f <? 15 * second then 20 * second else bf_duration f)
    (if bf_warmup f <? 3 * second then 5 * second else bf_warmup f)
    (if bf_keys f <? 10000 then 50000 else bf_keys f).

(** -reliable-matrix *)
Definition reliableMatrix (f : BenchFlags) : BenchFlags :=
  mkBench (bf_compare f) (bf_suite f) (if bf_trials f <? 5 then 5 else bf_trials f)
    (if bf_duration f <? 20 * second then 20 * second else bf_duration f)
    (if bf_warmup f <? 5 * second then 5 * second else bf_warmup f)
    (if bf_keys f <? 50000 then 50000 else bf_keys f).

Definition validOp (o : bytes) : bool := bool_decide (o ∈ map str ["get"; "set"; "mixed"; "delete"; "miss"]%string).

(** The help of -reliable promises trials of 20 seconds; with the default of 15
    they stay at 15. *)
Example reliable_keeps_15s : bf_duration (reliable defaultFlags) = 15 * second.
Proof. reflexivity. Qed.

(** ** Samples and workers (load.go, backend.go) *)

Definition sampleCapPerWorker (cap concurrency : Z) : list Z :=
  if concurrency <? 1 then []
  else
    let cap := if cap <? 0 then 0 else cap in
    let base := cap / concurrency in
    let rem := cap mod concurrency in
    map (fun i => base + (if Z.of_nat i <? rem then 1 else 0)) (seq 0 (Z.to_nat concurrency)).

Definition zsum (l : list Z) : Z := foldr Z.add 0 l.

Lemma zsum_seq n base rem k :
  zsum (map (fun i => base + (if Z.of_nat i <? rem then 1 else 0)) (seq k n)) =
    Z.of_nat n * base + Z.max 0 (Z.min (Z.of_nat n) (rem - Z.of_nat k)).
Proof.
  revert k. induction n as [|n IH]; intros k; [cbn; lia|]. cbn [seq map zsum foldr]. fold (zsum (map (fun i => base + (if Z.of_nat i <? rem then 1 else 0)) (seq (S k) n))).
  rewrite IH. destruct (Z.ltb_spec (Z.of_nat k) rem); lia.
Qed.

(** The caps of the workers add up to the cap, and no worker gets more than one
    sample more than another. *)
Lemma caps_sum cap concurrency :
  0 <= cap -> 1 <= concurrency ->
  zsum (sampleCapPerWorker cap concurrency) = cap /\ Z.of_nat (length (sampleCapPerWorker cap concurrency)) = concurrency /\
  forall x y, x ∈ sampleCapPerWorker cap concurrency -> y ∈ sampleCapPerWorker cap concurrency -> x <= y + 1.
Proof.
  intros Hc Hn. unfold sampleCapPerWorker. destruct (Z.ltb_spec concurrency 1); [lia|]. destruct (Z.ltb_spec cap 0); [lia|].
  rewrite zsum_seq, length_map, length_seq. pose proof (Z.mod_pos_bound cap concurrency ltac:(lia)).
  split_and!; [pose proof (Z.div_mod cap concurrency ltac:(lia)); lia|lia|].
  intros x y (i & -> & _)%list_elem_of_fmap (j & -> & _)%list_elem_of_fmap. destruct (_ <? _), (_ <? _); lia.
Qed.

(** Worker [w] talks to address w mod addresses over connection w mod connections. *)
Definition pick {A} (cs : list (list A)) (worker : Z) : option A :=
  let nAddr := len cs in
  let nConn := match cs with row :: _ => len row | [] => 0 end in
  let addrIdx := if 1 <? nAddr then worker mod nAddr else 0 in
  row ← cs !! Z.to_nat addrIdx; row !! Z.to_nat (worker mod nConn).

(** With a row of the same length for every address every worker has a client. *)
Lemma pick_some {A} (cs : list (list A)) n worker :
  cs <> [] -> (0 < n)%nat -> Forall (fun row => length row = n) cs -> 0 <= worker -> is_Some (pick cs worker).
Proof.
  intros Hne Hn Hrows Hw. unfold pick. destruct cs as [|row0 cs']; [done|]. set (cs := row0 :: cs') in *.
  assert (H0 : length row0 = n) by (by inv Hrows).
  set (idx := if 1 <? len cs then worker mod len cs else 0).
  assert (Hi : (Z.to_nat idx < length cs)%nat).
  { unfold idx. destruct (Z.ltb_spec 1 (len cs)) as [H1|H1]; [|cbn; lia].
    pose proof (Z.mod_pos_bound worker (len cs) ltac:(lia)). unfold len in *. lia. }
  apply lookup_lt_is_Some in Hi as [row Hr]. rewrite Hr. cbn [mbind option_bind]. apply lookup_lt_is_Some.
  rewrite Forall_lookup in Hrows. rewrite (Hrows _ _ Hr). unfold len. rewrite H0.
  pose proof (Z.mod_pos_bound worker (Z.of_nat n) ltac:(lia)). lia.
Qed.

(** ** The generator of keys *)

(** xorshift64*: the state is never zero. *)
Definition newRNG (seed : Z) : Z := if seed =? 0 then 1 else seed.
Definition rng_next (s : Z) : Z :=
  let x := Z.lxor s (Z.shiftr s 12) in
  let x := Z.lxor x (u64 (Z.shiftl x 25)) in
  Z.lxor x (Z.shiftr x 27).
Definition rng_Uint64 (s : Z) : Z * Z := let x := rng_next s in (u64 (x * 0x2545F4914F6CDD1D), x).

(** float64(r.Uint64()>>11) / (1 << 53) *)
Definition rng_Float64 (s : Z) : float64 * Z :=
  let '(x, s) := rng_Uint64 s in (f_div (f_int (Z.shiftr x 11)) (f_int (2 ^ 53)), s).

(** The seed of a worker. *)
Definition workerSeed (seed worker : Z) : Z := newRNG (Z.lxor seed (u64 ((worker + 1) * 0x9e3779b97f4a7c15))).

Lemma xor_shiftr_zero x k : 0 <= x -> 0 < k -> Z.lxor x (Z.shiftr x k) = 0 -> x = 0.
Proof.
  intros Hx Hk E. apply Z.lxor_eq in E. rewrite Z.shiftr_div_pow2 in E by lia.
  assert (2 <= 2 ^ k) by (change 2 with (2 ^ 1) at 1; apply Z.pow_le_mono_r; lia).
  destruct (Z.eq_dec x 0); [done|]. exfalso. assert (x / 2 ^ k < x); [|lia]. apply Z.div_lt; lia.
Qed.

Lemma xor_shiftl_zero x : 0 <= x < 2 ^ 64 -> Z.lxor x (u64 (Z.shiftl x 25)) = 0 -> x = 0.
Proof.
  intros Hx E. apply Z.lxor_eq in E. unfold u64 in E. rewrite Z.shiftl_mul_pow2 in E by lia.
  assert (Hd : (2 ^ 64 | (2 ^ 25 - 1) * x)).
  { apply Z.mod_divide; [lia|]. replace ((2 ^ 25 - 1) * x) with (x * 2 ^ 25 - x) by lia.
    rewrite Zminus_mod, <- E, (Z.mod_small x), Z.sub_diag by lia. done. }
  assert (Hg : Z.gcd (2 ^ 64) (2 ^ 25 - 1) = 1) by reflexivity. pose proof (Z.gauss _ _ _ Hd Hg) as Hx64.
  destruct (Z.eq_dec x 0); [done|]. apply Z.divide_pos_le in Hx64; lia.
Qed.

Lemma lxor_u64 x y : 0 <= x < 2 ^ 64 -> 0 <= y < 2 ^ 64 -> 0 <= Z.lxor x y < 2 ^ 64.
Proof.
  intros Hx Hy. split; [apply Z.lxor_nonneg; lia|]. destruct (Z.eq_dec (Z.lxor x y) 0) as [->|Hn]; [lia|].
  assert (0 <= Z.lxor x y) by (apply Z.lxor_nonneg; lia). apply Z.log2_lt_pow2; [lia|].
  pose proof (Z.log2_lxor x y ltac:(lia) ltac:(lia)).
  assert (Hl : forall z, 0 <= z < 2 ^ 64 -> Z.log2 z < 64).
  { intros z Hz. destruct (Z.eq_dec z 0) as [->|]; [done|]. apply Z.log2_lt_pow2; lia. }
  pose proof (Hl x Hx). pose proof (Hl y Hy). lia.
Qed.

(** The state of a generator never becomes zero, whatever the seed. *)
Lemma rng_alive s : 0 < s < 2 ^ 64 -> 0 < rng_next s < 2 ^ 64.
Proof.
  intros Hs. unfold rng_next.
  assert (Hr : forall x k, 0 <= x < 2 ^ 64 -> 0 < k -> 0 <= Z.shiftr x k < 2 ^ 64).
  { intros x k Hx Hk. rewrite Z.shiftr_div_pow2 by lia. assert (0 < 2 ^ k) by (apply Z.pow_pos_nonneg; lia).
    split; [apply Z.div_pos; lia|]. apply Z.le_lt_trans with x; [|lia]. apply Z.div_le_upper_bound; nia. }
  assert (Hstep : forall x y, 0 < x < 2 ^ 64 -> 0 <= y < 2 ^ 64 -> (Z.lxor x y = 0 -> x = 0) -> 0 < Z.lxor x y < 2 ^ 64).
  { intros x y Hx Hy Hz. pose proof (lxor_u64 x y ltac:(lia) Hy). destruct (Z.eq_dec (Z.lxor x y) 0) as [E|]; [apply Hz in E; lia|lia]. }
  assert (H1 : 0 < Z.lxor s (Z.shiftr s 12) < 2 ^ 64).
  { apply Hstep; [lia|apply Hr; lia|]. apply xor_shiftr_zero; lia. }
  set (x1 := Z.lxor s (Z.shiftr s 12)) in *.
  assert (H2 : 0 < Z.lxor x1 (u64 (Z.shiftl x1 25)) < 2 ^ 64).
  { apply Hstep; [lia|pose proof (u64_range (Z.shiftl x1 25)); unfold MaxUint64 in *; lia|]. apply xor_shiftl_zero. lia. }
  set (x2 := Z.lxor x1 (u64 (Z.shiftl x1 25))) in *.
  apply Hstep; [lia|apply Hr; lia|]. apply xor_shiftr_zero; lia.
Qed.

(** Workers have seeds of their own (a seed of zero is moved to one). *)
Lemma worker_seeds seed i j :
  0 <= i < 2 ^ 63 -> 0 <= j < 2 ^ 63 ->
  Z.lxor seed (u64 ((i + 1) * 0x9e3779b97f4a7c15)) = Z.lxor seed (u64 ((j + 1) * 0x9e3779b97f4a7c15)) -> i = j.
Proof.
  intros Hi Hj E. assert (E' : u64 ((i + 1) * 0x9e3779b97f4a7c15) = u64 ((j + 1) * 0x9e3779b97f4a7c15)).
  { apply (f_equal (Z.lxor seed)) in E. by rewrite <- !Z.lxor_assoc, !Z.lxor_nilpotent, !Z.lxor_0_l in E. }
  unfold u64 in E'. assert (Hd : (2 ^ 64 | 0x9e3779b97f4a7c15 * (i - j))).
  { apply Z.mod_divide; [lia|]. replace (0x9e3779b97f4a7c15 * (i - j)) with ((i + 1) * 0x9e3779b97f4a7c15 - (j + 1) * 0x9e3779b97f4a7c15) by lia.
    rewrite Zminus_mod, E', Z.sub_diag. done. }
  assert (Hg : Z.gcd (2 ^ 64) 0x9e3779b97f4a7c15 = 1) by reflexivity. pose proof (Z.gauss _ _ _ Hd Hg) as [k Hk]. nia.
Qed.

(** *** Zipf *)

(** The running sums of 1/(i+1)^s; [pow] is math.Pow. *)
Definition f_001 : float64 := 0x3F847AE147AE147B.        (* 0.01 *)
Definition newZipf (pow : float64 -> float64 -> float64) (n : Z) (s : float64) : list float64 * float64 :=
  let n := if n <? 1 then 1 else n in
  let s := if f64_lt s f_001 then f_001 else s in
  foldl (fun '(har, sum) i => let sum := f_add sum (f_div f_1 (pow (f_int (Z.of_nat i + 1)) s)) in (har ++ [sum], sum))
    ([], 0) (seq 0 (Z.to_nat n)).

(** The binary search of Next. *)
Fixpoint zipf_search (fuel : nat) (har : list float64) (u : float64) (lo hi : Z) : Z :=
  match fuel with
  | O => lo
  | S fuel =>
      if lo <? hi then
        let mid := (lo + hi) / 2 in
        if f64_lt (nth (Z.to_nat mid) har 0) u then zipf_search fuel har u (mid + 1) hi else zipf_search fuel har u lo mid
      else lo
  end.
Definition zipf_Next (har : list float64) (tot : float64) (s : Z) : Z * Z :=
  let '(x, s) := rng_Float64 s in
  (zipf_search (length har) har (f_mul x tot) 0 (len har - 1), s).

(** The search ends within its fuel at the first sum that is not below [u], or
    at the last key. *)
Lemma zipf_search_spec fuel har u lo hi :
  0 <= lo <= hi -> (Z.to_nat (hi - lo) <= fuel)%nat ->
  (forall i j, 0 <= i <= j -> j <= hi -> f64_lt (nth (Z.to_nat j) har 0) u = true -> f64_lt (nth (Z.to_nat i) har 0) u = true) ->
  lo <= zipf_search fuel har u lo hi <= hi /\
  (forall i, lo <= i < zipf_search fuel har u lo hi -> f64_lt (nth (Z.to_nat i) har 0) u = true) /\
  (zipf_search fuel har u lo hi < hi -> f64_lt (nth (Z.to_nat (zipf_search fuel har u lo hi)) har 0) u = false).
Proof.
  revert lo hi. induction fuel as [|fuel IH]; intros lo hi Hlo Hf Hmono; cbn [zipf_search]; [split_and!; lia|].
  destruct (Z.ltb_spec lo hi) as [Hlt|Hge]; [|split_and!; lia].
  set (mid := (lo + hi) / 2). assert (Hm : lo <= mid < hi) by (unfold mid; Z.to_euclidean_division_equations; lia).
  destruct (f64_lt (nth (Z.to_nat mid) har 0) u) eqn:El.
  - destruct (IH (mid + 1) hi) as (H1 & H2 & H3); [lia|lia|done|]. split_and!; [lia|lia| |done].
    intros i Hi. destruct (Z_le_gt_dec i mid); [|apply H2; lia]. apply (Hmono i mid); [lia|lia|done].
  - destruct (IH lo mid) as (H1 & H2 & H3); [lia|unfold mid in *; Z.to_euclidean_division_equations; lia|intros i j ? ?; apply Hmono; lia|].
    split_and!; [lia|lia|done|]. intros _. destruct (Z.eq_dec (zipf_search fuel har u lo mid) mid) as [->|]; [done|]. apply H3. lia.
Qed.

(** The index of a key, uniform or by Zipf, is one of the keys. *)
Definition uniform_index (keys s : Z) : Z * Z := let '(x, s) := rng_Uint64 s in (x mod keys, s).

Lemma index_in_range keys har tot s :
  1 <= keys -> len har = keys -> (0 <= (uniform_index keys s).1 < keys) /\ (0 <= (zipf_Next har tot s).1 < keys).
Proof.
  intros Hk Hl. split; [unfold uniform_index; cbn; apply Z.mod_pos_bound; lia|].
  unfold zipf_Next. destruct (rng_Float64 s) as [x s']. cbn [fst]. set (u := f_mul x tot).
  assert (H : forall fuel lo hi, 0 <= lo <= hi -> lo <= zipf_search fuel har u lo hi <= hi).
  { induction fuel as [|fuel IH]; intros lo hi Hlo; cbn; [lia|]. destruct (Z.ltb_spec lo hi); [|lia].
    assert (lo <= (lo + hi) / 2 < hi) by (Z.to_euclidean_division_equations; lia).
    destruct (f64_lt _ u); [specialize (IH ((lo + hi) / 2 + 1) hi ltac:(lia))|specialize (IH lo ((lo + hi) / 2) ltac:(lia))]; lia. }
  specialize (H (length har) 0 (len har - 1) ltac:(lia)). lia.
Qed.

(** ** One operation of a worker *)

(** What the store said. *)
Inductive OpResult := OpOk | OpNotFound | OpFailed.

(** Whether the operation counts as an error: a miss does only for a get that
    requires hits. *)
Definition isError (op : bytes) (read requireHit : bool) (r : OpResult) : bool :=
  match r with
  | OpOk => false
  | OpFailed => true
  | OpNotFound =>
      if bool_decide (op = str "get") || bool_decide (op = str "miss") then requireHit
      else if bool_decide (op = str "mixed") then negb read
      else negb (bool_decide (op = str "delete"))
  end.

Record workerBuf := mkBuf { lats : list Z; wops : Z; errs : Z }.

Definition account (op : bytes) (read requireHit : bool) (capN : Z) (b : workerBuf) (r : OpResult * Z) : workerBuf :=
  if isError op read requireHit r.1 then mkBuf (lats b) (wops b) (errs b + 1)
  else mkBuf (if (0 <? capN) && (len (lats b) <? capN) then lats b ++ [r.2] else lats b) (wops b + 1) (errs b).

(** Every operation is counted once, and a worker keeps the latencies of its
    first operations, at most as many as its cap. *)
Lemma account_counts op read requireHit capN rs b :
  0 <= capN -> len (lats b) <= capN ->
  let b' := foldl (account op read requireHit capN) b rs in
  wops b' + errs b' = wops b + errs b + len rs /\ len (lats b') <= capN /\ wops b <= wops b' /\
  len (lats b') - len (lats b) <= wops b' - wops b.
Proof.
  intros Hc. revert b. induction rs as [|r rs IH]; intros b Hl; cbv zeta in *; cbn [foldl]; [unfold len in *; cbn; lia|].
  set (b1 := account op read requireHit capN b r).
  assert (H1 : len (lats b1) <= capN /\ wops b1 + errs b1 = wops b + errs b + 1 /\ wops b <= wops b1 /\ len (lats b1) - len (lats b) <= wops b1 - wops b).
  { unfold b1, account. destruct (isError op read requireHit r.1); cbn [lats wops errs]; [lia|].
    destruct ((0 <? capN) && (len (lats b) <? capN)) eqn:E; [|lia]. unfold len in *. rewrite length_app. cbn. lia. }
  destruct H1 as (H1 & H2 & H3 & H4). specialize (IH b1 H1). destruct IH as (H5 & H6 & H7 & H8).
  unfold len in *. cbn [length]. lia.
Qed.

(** ** Percentiles and medians (report.go) *)

(** int(math.Ceil(x)) of a float that is not negative *)
Definition f_ceil (x : float64) : Z :=
  match f64_value x with
  | SpecFloat.S754_finite false m e => if 0 <=? e then Zpos m * 2 ^ e else - ((- Zpos m) / 2 ^ (- e))
  | _ => 0
  end.

Definition f_50 : float64 := 0x3FE0000000000000.
Definition f_95 : float64 := 0x3FEE666666666666.
Definition f_99 : float64 := 0x3FEFAE147AE147AE.
Definition f_999 : float64 := 0x3FEFF7CED916872B.

(** The nearest rank: the index of the ⌈p n⌉-th sample, kept in range. *)
Definition nearestRank (p : float64) (n : Z) : Z :=
  if n =? 1 then 0
  else
    let idx := f_ceil (f_mul p (f_int n)) - 1 in
    let idx := if idx <? 0 then 0 else idx in
    if n <=? idx then n - 1 else idx.

Definition pct (cp : list Z) (p : float64) : Z := nth (Z.to_nat (nearestRank p (len cp))) cp 0.

(** Sums of durations wrap; the mean rounds towards zero. *)
Definition i64_sum (l : list Z) : Z := i64 (u64 (zsum l)).
Definition latencyStats (ds : list Z) : Z * Z * Z * Z * Z :=
  match ds with
  | [] => (0, 0, 0, 0, 0)
  | _ =>
      let cp := merge_sort Z.le ds in
      (pct cp f_50, pct cp f_95, pct cp f_99, pct cp f_999, Z.quot (i64_sum cp) (len cp))
  end.

Example ranks_1000 : map (fun p => nearestRank p 1000) [f_50; f_95; f_99; f_999] = [499; 949; 989; 998].
Proof. vm_compute. reflexivity. Qed.

Lemma nearestRank_range p n : 1 <= n -> 0 <= nearestRank p n < n.
Proof. intros Hn. unfold nearestRank. zcmp; lia. Qed.

(** A percentile is one of the samples. *)
Lemma pct_sample ds p : ds <> [] -> pct (merge_sort Z.le ds) p ∈ ds.
Proof.
  intros Hd. assert (Hl : len (merge_sort Z.le ds) = len ds) by apply merge_sort_len.
  assert (Hpos : 1 <= len ds) by (destruct ds; [done|unfold len; cbn; lia]).
  pose proof (nearestRank_range p (len ds) Hpos) as Hr. unfold pct. rewrite Hl. apply (merge_sort_elem Z.le).
  apply list_elem_of_In, nth_In. unfold len in *. lia.
Qed.

Lemma sorted_nth l i j : StronglySorted Z.le l -> (i <= j < length l)%nat -> nth i l 0 <= nth j l 0.
Proof.
  intros H. revert i j. induction H as [|x l _ IH Hx]; intros i j Hij; [cbn in *; lia|].
  destruct i as [|i], j as [|j]; cbn in *; try lia; [|apply IH; lia].
  rewrite List.Forall_forall in Hx. apply Hx, nth_In. lia.
Qed.

(** A later rank is no smaller a sample: percentiles are ordered as their ranks. *)
Lemma pct_ordered ds p q : ds <> [] -> nearestRank p (len ds) <= nearestRank q (len ds) ->
  pct (merge_sort Z.le ds) p <= pct (merge_sort Z.le ds) q.
Proof.
  intros Hd Hpq. assert (Hl : len (merge_sort Z.le ds) = len ds) by apply merge_sort_len.
  assert (Hpos : 1 <= len ds) by (destruct ds; [done|unfold len; cbn; lia]).
  pose proof (nearestRank_range p (len ds) Hpos) as Hp. pose proof (nearestRank_range q (len ds) Hpos) as Hq. unfold pct. rewrite Hl.
  apply sorted_nth; [apply (StronglySorted_merge_sort Z.le); apply _|]. unfold len in *. lia.
Qed.

(** The mean of samples whose sum does not overflow lies between the least and
    the greatest. *)
Lemma mean_between ds lo hi :
  ds <> [] -> 0 <= lo -> Forall (fun d => lo <= d <= hi) ds -> zsum ds < 2 ^ 63 ->
  lo <= Z.quot (i64_sum (merge_sort Z.le ds)) (len (merge_sort Z.le ds)) <= hi.
Proof.
  intros Hd Hlo Hf Hs. assert (Hp : forall l l', Permutation l l' -> zsum l = zsum l').
  { intros l l' HP. unfold zsum. induction HP; cbn [foldr]; lia. }
  pose proof (merge_sort_Permutation Z.le ds) as HP. unfold i64_sum.
  rewrite (Hp _ _ HP), (merge_sort_len Z.le ds).
  assert (Hb : len ds * lo <= zsum ds <= len ds * hi).
  { clear -Hf. unfold len, zsum. induction Hf as [|x l Hx _ IH]; cbn [length foldr]; lia. }
  assert (1 <= len ds) by (destruct ds; [done|unfold len; cbn; lia]).
  assert (0 <= zsum ds) by nia. rewrite u64_small by (unfold MaxUint64; lia). unfold i64. destruct (Z.ltb_spec (zsum ds) (2 ^ 63)); [|lia].
  rewrite Z.quot_div_nonneg by lia. split; [apply Z.div_le_lower_bound; lia|apply Z.div_le_upper_bound; lia].
Qed.

(** The median of durations. *)
Definition medD (xs : list Z) : Z :=
  let n := len xs in
  let at_ i := nth (Z.to_nat i) xs 0 in
  if n mod 2 =? 1 then at_ (n / 2) else Z.quot (i64 (u64 (at_ (n / 2 - 1) + at_ (n / 2)))) 2.

(** The median of ops per second. *)
Definition medF (xs : list float64) : float64 :=
  let n := len xs in
  let at_ i := nth (Z.to_nat i) xs 0 in
  if n mod 2 =? 1 then at_ (n / 2) else f_div (f_add (at_ (n / 2 - 1)) (at_ (n / 2))) f_2.

(** The median lies between the least and the greatest trial. *)
Lemma medD_between ds lo hi :
  ds <> [] -> 0 <= lo -> hi < 2 ^ 62 -> Forall (fun d => lo <= d <= hi) ds -> lo <= medD (merge_sort Z.le ds) <= hi.
Proof.
  intros Hd Hlo Hhi Hf. assert (Hl : len (merge_sort Z.le ds) = len ds) by apply merge_sort_len.
  assert (Hpos : 1 <= len ds) by (destruct ds; [done|unfold len; cbn; lia]).
  assert (Hat : forall i, 0 <= i < len ds -> lo <= nth (Z.to_nat i) (merge_sort Z.le ds) 0 <= hi).
  { intros i Hi. rewrite Forall_forall in Hf. apply Hf, (merge_sort_elem Z.le), list_elem_of_In, nth_In. unfold len in *. lia. }
  unfold medD. rewrite Hl. pose proof (Z.div_mod (len ds) 2 ltac:(lia)). pose proof (Z.mod_pos_bound (len ds) 2 ltac:(lia)).
  destruct (Z.eqb_spec (len ds mod 2) 1); [apply Hat; lia|].
  pose proof (Hat (len ds / 2 - 1) ltac:(lia)) as H1. pose proof (Hat (len ds / 2) ltac:(lia)) as H2. 
  set (a := nth (Z.to_nat (len ds / 2 - 1)) (merge_sort Z.le ds) 0) in *. set (b := nth (Z.to_nat (len ds / 2)) (merge_sort Z.le ds) 0) in *.
  rewrite u64_small by (unfold MaxUint64; lia). unfold i64. destruct (Z.ltb_spec (a + b) (2 ^ 63)); [|lia].
  assert (Hab : 0 <= a + b) by (clear -H1 H2 Hlo; lia). rewrite Z.quot_div_nonneg by lia. clear -H1 H2. Z.to_euclidean_division_equations; lia.
Qed.

Record trialResult := mkTrial { OpsPerSec : float64; P50 : Z; P95 : Z; P99 : Z; P999 : Z }.
Record trialAgg := mkAgg { medOps : float64; minOps : float64; maxOps : float64; medP50 : Z; medP95 : Z; medP99 : Z; medP999 : Z }.

(** sort.Float64s; the rates are not NaN. *)
Definition f64_leP (x y : float64) : Prop := f64_le x y = true.
#[global] Instance f64_leP_dec : RelDecision f64_leP.
Proof. intros x y. unfold f64_leP. apply _. Defined.

Definition aggregateTrials (trials : list trialResult) : trialAgg :=
  match trials with
  | [] => mkAgg 0 0 0 0 0 0 0
  | _ =>
      let ops := merge_sort f64_leP (map OpsPerSec trials) in
      let med (f : trialResult -> Z) := medD (merge_sort Z.le (map f trials)) in
      mkAgg (medF ops) (nth 0 ops 0) (nth (length ops - 1) ops 0) (med P50) (med P95) (med P99) (med P999)
  end.

(** ** The matrix of cells (matrix.go) *)

Record matrixCell := mkCell {
  mc_Op : bytes; mc_Path : bytes; mc_Nodes : Z; mc_Concurrency : Z; mc_Conns : Z; mc_Sticky : bool; mc_Dist : bytes;
  mc_Keys : Z; mc_Trials : Z; mc_Duration : bytes; mc_Warmup : bytes }.

Record matrixFile := mkMatrix {
  mf_Trials : Z; mf_Duration : bytes; mf_Warmup : bytes; mf_Keys : Z; mf_ValueBytes : Z; mf_Dist : bytes; mf_Seed : Z;
  mf_Embed : bool; mf_CollectRuntime : bool; mf_Conns : Z; mf_Prefix : bytes; mf_Cells : list matrixCell }.

Record resolvedCell := mkResolved {
  rc_Op : bytes; rc_Path : bytes; rc_Dist : bytes; rc_Prefix : bytes; rc_Nodes : Z; rc_Concurrency : Z; rc_Conns : Z; rc_Keys : Z;
  rc_Trials : Z; rc_ValueBytes : Z; rc_Sticky : bool; rc_Embed : bool; rc_CollectRuntime : bool; rc_RequireHit : bool;
  rc_Duration : Z; rc_Warmup : Z; rc_Seed : Z }.

Definition defaultPath (op : bytes) : bytes :=
  if bool_decide (op = str "get") then str "hit"
  else if bool_decide (op = str "set") then str "put"
  else if bool_decide (op = str "delete") then str "delete"
  else if bool_decide (op = str "miss") then str "miss-cacheonly"
  else op.

Definition validPath (p : bytes) : bool :=
  bool_decide (p ∈ map str ["hit"; "put"; "delete"; "miss-cacheonly"; "miss-loadthrough"; "mixed"]%string).

Definition validateCell (c : resolvedCell) : bool :=
  validOp (rc_Op c) && validPath (rc_Path c) && ((rc_Nodes c =? 1) || (rc_Nodes c =? 3) || (rc_Nodes c =? 10))
  && (negb (bool_decide (rc_Path c = str "miss-loadthrough")) || rc_Embed c).

Section matrix.
Context (ParseDuration : bytes -> option Z).

Definition parseDur (s : bytes) (def : Z) : option Z := if bool_decide (s = []) then Some def else ParseDuration s.

Definition atLeast (x def : Z) : Z := if x <? 1 then def else x.
Definition orElse (s def : bytes) : bytes := if bool_decide (s = []) then def else s.

Lemma atLeast_pos x def : 1 <= def -> 1 <= atLeast x def.
Proof. intros H. unfold atLeast. destruct (Z.ltb_spec x 1); lia. Qed.
Lemma given_pos x y def : 1 <= def -> 1 <= (if 0 <? x then x else atLeast y def).
Proof. intros H. destruct (Z.ltb_spec 0 x); [lia|by apply atLeast_pos]. Qed.
Lemma nodes_valid n : (n =? 1) || (n =? 3) || (n =? 10) = true -> n ∈ [1; 3; 10].
Proof. intros H. assert (n = 1 \/ n = 3 \/ n = 10) as [-> | [-> | ->]] by lia; set_solver. Qed.

(** One round of the loop over the cells; [dur] and [warm] are those of the file. *)
Definition resolveCell (mf : matrixFile) (dur warm : Z) (c : matrixCell) : option resolvedCell :=
  d ← parseDur (mc_Duration c) dur;
  wu ← parseDur (mc_Warmup c) warm;
  if mc_Concurrency c <? 1 then None
  else
    let op := ToLower (mc_Op c) in
    let path := ToLower (mc_Path c) in
    let path := if bool_decide (path = []) then defaultPath op else path in
    let isHit := bool_decide (path = str "hit") || bool_decide (path = str "get-hit") in
    let path := if isHit then str "hit" else path in
    let op := if isHit && bool_decide (op = []) then str "get" else op in
    let op := if bool_decide (path = str "put") && bool_decide (op = []) then str "set" else op in
    let op := if hasPrefix (str "miss") path && bool_decide (op = []) then str "miss" else op in
    let rc := mkResolved op path (orElse (mc_Dist c) (orElse (mf_Dist mf) (str "uniform"))) (orElse (mf_Prefix mf) (str "scbench:"))
      (atLeast (mc_Nodes c) 1) (mc_Concurrency c)
      (if 0 <? mc_Conns c then mc_Conns c else atLeast (mf_Conns mf) 1)
      (if 0 <? mc_Keys c then mc_Keys c else atLeast (mf_Keys mf) 5000)
      (if 0 <? mc_Trials c then mc_Trials c else atLeast (mf_Trials mf) 1)
      (atLeast (mf_ValueBytes mf) 256) (mc_Sticky c) (mf_Embed mf) (mf_CollectRuntime mf) isHit d wu (mf_Seed mf) in
    if validateCell rc then Some rc else None.

Definition resolveCells (mf : matrixFile) : option (list resolvedCell) :=
  dur ← parseDur (mf_Duration mf) (15 * second);
  warm ← parseDur (mf_Warmup mf) (5 * second);
  out ← mapM (resolveCell mf dur warm) (mf_Cells mf);
  match out with [] => None | _ => Some out end.

(** A resolved matrix has one cell per cell of the file, in order, and each of
    them can run: a known operation and path, one, three or ten nodes, and at
    least one worker, connection, key, trial and byte; cells that load through
    run embedded, and hits are required on the hit path only. *)
Theorem matrix_resolves mf cells :
  resolveCells mf = Some cells ->
  length cells = length (mf_Cells mf) /\ cells <> [] /\
  Forall (fun c =>
    validOp (rc_Op c) = true /\ validPath (rc_Path c) = true /\ rc_Nodes c ∈ [1; 3; 10] /\
    1 <= rc_Concurrency c /\ 1 <= rc_Conns c /\ 1 <= rc_Keys c /\ 1 <= rc_Trials c /\ 1 <= rc_ValueBytes c /\
    rc_Dist c <> [] /\ rc_Prefix c <> [] /\
    (rc_Path c = str "miss-loadthrough" -> rc_Embed c = true) /\ (rc_RequireHit c = true <-> rc_Path c = str "hit")) cells.
Proof.
  unfold resolveCells. destruct (parseDur (mf_Duration mf) _) as [dur|]; [|done]. destruct (parseDur (mf_Warmup mf) _) as [warm|]; [|done].
  cbn [mbind option_bind]. destruct (mapM (resolveCell mf dur warm) (mf_Cells mf)) as [out|] eqn:Em; [|done]. cbn [mbind option_bind].
  intros Hc. apply mapM_Some in Em. assert (out = cells /\ cells <> []) as [-> Hne] by (destruct out; by simplify_eq).
  split; [by rewrite (Forall2_length _ _ _ Em)|]. split; [done|]. clear Hc Hne.
  induction Em as [|c rc cs rcs Hrc _ IH]; constructor; [|done]. clear IH. unfold resolveCell in Hrc.
  destruct (parseDur (mc_Duration c) dur) as [d|]; [|done]. destruct (parseDur (mc_Warmup c) warm) as [wu|]; [|done].
  cbn [mbind option_bind] in Hrc. destruct (Z.ltb_spec (mc_Concurrency c) 1) as [|Hcc]; [done|]. cbv zeta in Hrc.
  set (path0 := if bool_decide (ToLower (mc_Path c) = []) then _ else _) in Hrc.
  destruct (validateCell _) eqn:Hv; [|done]. injection Hrc as <-. cbn [rc_Op rc_Path rc_Nodes rc_Concurrency rc_Conns rc_Keys rc_Trials
    rc_ValueBytes rc_Dist rc_Prefix rc_Embed rc_RequireHit] in *.
  unfold validateCell in Hv. cbn [rc_Op rc_Path rc_Nodes rc_Embed] in Hv.
  apply andb_true_iff in Hv as [Hv He]. apply andb_true_iff in Hv as [Hv Hn]. apply andb_true_iff in Hv as [Ho Hp].
  assert (Hor : forall s d, d <> [] -> orElse s d <> []) by (intros s x Hx; unfold orElse; by destruct (bool_decide_reflect (s = []))).
  clear -Hcc Ho Hp Hn He Hor. split_and!; try done.
  - by apply nodes_valid.
  - by apply given_pos.
  - by apply given_pos.
  - by apply given_pos.
  - by apply atLeast_pos.
  - by apply Hor, Hor.
  - by apply Hor.
  - intros E. rewrite E, bool_decide_eq_true_2 in He by done. exact He.
  - destruct (bool_decide (path0 = str "hit") || bool_decide (path0 = str "get-hit")) eqn:Eh; [done|].
    split; [done|]. intros E. rewrite E, bool_decide_eq_true_2 in Eh by done. done.
Qed.
End matrix.

(** ** Comparing two reports (scbench-diff) *)

Record runRecord := mkRun {
  rr_Op : bytes; rr_Path : bytes; rr_Nodes : Z; rr_Concurrency : Z; rr_Dist : bytes; rr_Ops : float64; rr_P50 : Z; rr_P99 : Z }.

Definition cellKey (r : runRecord) : bytes :=
  let path := if bool_decide (rr_Path r = []) then rr_Op r else rr_Path r in
  let dist := if bool_decide (rr_Dist r = []) then str "uniform" else rr_Dist r in
  let nodes := if rr_Nodes r =? 0 then 1 else rr_Nodes r in
  rr_Op r ++ str "/" ++ path ++ str " n=" ++ FormatInt nodes ++ str " c=" ++ FormatInt (rr_Concurrency r) ++ str " " ++ dist.

(** The keys in order of appearance, each once. *)
Definition addKeys (keys : list bytes) (runs : list runRecord) : list bytes :=
  foldl (fun ks r => if bool_decide (cellKey r ∈ ks) then ks else ks ++ [cellKey r]) keys runs.

Definition collectKeys (cur : list runRecord) (prev : option (list runRecord)) : list bytes :=
  merge_sort bytes_le (addKeys (addKeys [] cur) (default [] prev)).

Definition findRun (runs : list runRecord) (key : bytes) : option runRecord := List.find (fun r => bool_decide (cellKey r = key)) runs.

(** A row: the key, the run of main if there is one, the run of the change. *)
Definition diffRows (cur : list runRecord) (prev : option (list runRecord)) : list (bytes * option runRecord * runRecord) :=
  omap (fun k => n ← findRun cur k; Some (k, prev ≫= (fun p => findRun p k), n)) (collectKeys cur prev).

Definition shortSHA (s : bytes) : bytes :=
  if 7 <? len s then take 7 s else if bool_decide (s = []) then str "unknown" else s.

Lemma addKeys_spec ks runs :
  NoDup ks -> NoDup (addKeys ks runs) /\ forall k, k ∈ addKeys ks runs <-> k ∈ ks \/ k ∈ map cellKey runs.
Proof.
  revert ks. induction runs as [|r runs IH]; intros ks Hn; cbn; [split; [done|]; intros k; set_solver|].
  case_bool_decide as Hk.
  - destruct (IH ks Hn) as [H1 H2]. split; [done|]. intros k. rewrite H2. set_solver.
  - destruct (IH (ks ++ [cellKey r])) as [H1 H2].
    { apply NoDup_app. split_and!; [done|set_solver|apply NoDup_singleton]. }
    split; [done|]. intros k. rewrite H2. set_solver.
Qed.

Lemma findRun_spec runs k :
  match findRun runs k with Some r => r ∈ runs /\ cellKey r = k | None => k ∉ map cellKey runs end.
Proof.
  unfold findRun. induction runs as [|r runs IH]; cbn; [set_solver|]. case_bool_decide as Hk; [set_solver|].
  destruct (List.find _ runs) as [x|]; set_solver.
Qed.

(** The table has one row per cell key of the new report, in the order of the
    keys; a row shows runs of its key, and no run of main when main has none. *)
Theorem diff_rows cur prev :
  StronglySorted bytes_le (diffRows cur prev).*1.*1 /\ NoDup (diffRows cur prev).*1.*1 /\
  (forall k, k ∈ (diffRows cur prev).*1.*1 <-> k ∈ map cellKey cur) /\
  (forall k o n, (k, o, n) ∈ diffRows cur prev ->
     n ∈ cur /\ cellKey n = k /\
     match o with
     | Some r => exists p, prev = Some p /\ r ∈ p /\ cellKey r = k
     | None => forall p, prev = Some p -> k ∉ map cellKey p
     end).
Proof.
  set (keys := collectKeys cur prev).
  assert (Hkeys : NoDup keys /\ StronglySorted bytes_le keys /\ forall k, k ∈ keys <-> k ∈ map cellKey cur \/ k ∈ map cellKey (default [] prev)).
  { unfold keys, collectKeys. destruct (addKeys_spec [] cur ltac:(constructor)) as [H1 H2].
    destruct (addKeys_spec (addKeys [] cur) (default [] prev) H1) as [H3 H4]. split_and!.
    - by rewrite (merge_sort_Permutation bytes_le).
    - apply (StronglySorted_merge_sort bytes_le); apply _.
    - intros k. rewrite (merge_sort_elem bytes_le), H4, H2. set_solver. }
  destruct Hkeys as (Hnd & Hs & Hin).
  assert (Hrows : (diffRows cur prev).*1.*1 = filter (fun k => k ∈ map cellKey cur) keys).
  { unfold diffRows. fold keys. clear. induction keys as [|k keys IH]; [done|]. rewrite filter_cons. cbn [omap list_omap].
    pose proof (findRun_spec cur k) as Hf. destruct (findRun cur k) as [r|]; cbn [mbind option_bind].
    - rewrite decide_True by (destruct Hf as [Hr <-]; by apply list_elem_of_fmap_2). by rewrite <- IH.
    - by rewrite decide_False. }
  rewrite Hrows. split_and!.
  - by apply StronglySorted_filter.
  - by apply NoDup_filter.
  - intros k. rewrite list_elem_of_filter, Hin. naive_solver.
  - intros k o n (k' & Hk' & Hrow)%list_elem_of_omap. pose proof (findRun_spec cur k') as Hf.
    destruct (findRun cur k') as [r|]; [|done]. cbn in Hrow. injection Hrow as -> <- <-. destruct Hf as [Hr Hk]. split_and!; try done.
    destruct prev as [p|]; cbn; [|done]. pose proof (findRun_spec p k) as Hp. destruct (findRun p k) as [r'|]; [by exists p|].
    by intros ? [= <-].
Qed.

(** Two cells that differ only in sticky connections, as the full matrix has,
    have one key: of the two runs the table shows the first. *)
Example sticky_run_hidden :
  let cell ops := mkRun (str "get") (str "hit") 3 100 (str "uniform") ops 0 0 in
  diffRows [cell (f_int 900); cell (f_int 100)] None = [(str "get/hit n=3 c=100 uniform", None, cell (f_int 900))].
Proof. vm_compute. reflexivity. Qed.

(** ** Process metrics (internal/benchmetrics) *)

Record ProcSnapshot := mkProc {
  CPUUserSeconds : float64; CPUSystemSeconds : float64; HeapAllocs : Z; HeapAllocBytes : Z; GCCycles : Z;
  PauseBuckets : list float64; PauseCounts : list Z }.

Record ProcReport := mkReport {
  CPUUserNsPerOp : float64; CPUSystemNsPerOp : float64; AllocsPerOp : float64; BytesPerOp : float64;
  GCP50Ns : float64; GCP99Ns : float64; GCFrac : float64; rGCCycles : Z; WallNs : Z; rOps : Z }.

(** A counter that went back counts as nothing. *)
Definition since (before after : Z) : Z := if before <=? after then after - before else 0.

(** The bound that stands for a bucket: its upper one, or its lower one when that
    is infinite. *)
Definition bucketSeconds (buckets : list float64) (i : nat) : option float64 :=
  let usable (x : float64) := if IsNaN x || f64_lt x 0 then None else Some x in
  match buckets !! S i with
  | Some hi => if IsInf hi then
                 match buckets !! i with Some lo => if IsInf lo then None else usable lo | None => None end
               else usable hi
  | None => match buckets !! i with Some lo => if IsInf lo then None else usable lo | None => None end
  end.

Definition histDeltaSeconds (before after : ProcSnapshot) : list float64 :=
  if bool_decide (PauseCounts after = []) || bool_decide (PauseBuckets after = []) then []
  else
    let n := length (PauseCounts after) in
    let counts :=
      if bool_decide (length (PauseCounts before) = n) && bool_decide (length (PauseBuckets before) = length (PauseBuckets after))
      then PauseCounts before else List.repeat 0 n in
    mjoin (map (fun i =>
      match bucketSeconds (PauseBuckets after) i with
      | Some sec => List.repeat sec (Z.to_nat (since (nth i counts 0) (nth i (PauseCounts after) 0)))
      | None => []
      end) (seq 0 n)).

Definition f_1e9 : float64 := f_int 1000000000.

Definition percentileNs (secs : list float64) (p : float64) : float64 :=
  match secs with
  | [] => 0
  | _ =>
      let cp := merge_sort f64_leP secs in
      let idx := f_ceil (f_mul p (f_int (len cp))) - 1 in
      let idx := if idx <? 0 then 0 else idx in
      let idx := if len cp <=? idx then len cp - 1 else idx in
      f_mul (nth (Z.to_nat idx) cp 0) f_1e9
  end.

(** [seconds] is Duration.Seconds of the wall time. *)
Definition Delta (before after : ProcSnapshot) (wall : Z) (seconds : float64) (ops : Z) : ProcReport :=
  let cpu (b a : float64) := if f64_le b a && (0 <? ops) then f_div (f_mul (f_sub a b) f_1e9) (f_int ops) else 0 in
  let perOp (b a : Z) := if (b <=? a) && (0 <? ops) then f_div (f_int (a - b)) (f_int ops) else 0 in
  let pauses := histDeltaSeconds before after in
  mkReport (cpu (CPUUserSeconds before) (CPUUserSeconds after)) (cpu (CPUSystemSeconds before) (CPUSystemSeconds after))
    (perOp (HeapAllocs before) (HeapAllocs after)) (perOp (HeapAllocBytes before) (HeapAllocBytes after))
    (percentileNs pauses f_50) (percentileNs pauses f_99)
    (match pauses with [] => 0 | _ => if 0 <? wall then f_div (foldl f_add 0 pauses) seconds else 0 end)
    (since (GCCycles before) (GCCycles after)) wall ops.

(** Every pause of the window is counted in its bucket: as many as the bucket
    grew, unless it has no finite bound. *)
Lemma hist_counts before after :
  length (PauseCounts before) = length (PauseCounts after) -> length (PauseBuckets before) = length (PauseBuckets after) ->
  PauseCounts after <> [] -> PauseBuckets after <> [] ->
  (forall i, (i < length (PauseCounts after))%nat -> is_Some (bucketSeconds (PauseBuckets after) i)) ->
  len (histDeltaSeconds before after) = zsum (zip_with since (PauseCounts before) (PauseCounts after)).
Proof.
  intros Hc Hb Hn Hnb Hs. unfold histDeltaSeconds. rewrite !bool_decide_eq_false_2 by done. rewrite !bool_decide_eq_true_2 by done.
  cbn [orb andb]. cbv zeta. revert Hs. generalize (PauseBuckets after) as bk. intros bk Hs.
  assert (H : forall cs cs' k, length cs = length cs' ->
    (forall i, (i < length cs')%nat -> is_Some (bucketSeconds bk (k + i))) ->
    len (mjoin (map (fun i => match bucketSeconds bk (k + i) with
      | Some sec => List.repeat sec (Z.to_nat (since (nth i cs 0) (nth i cs' 0))) | None => [] end) (seq 0 (length cs')))) =
    zsum (zip_with since cs cs')).
  { clear. induction cs as [|c cs IH]; intros [|c' cs'] k Hl Hs; try done. cbn [length seq map zip_with].
    change (mjoin (?x :: ?l)) with (x ++ mjoin l). destruct (Hs 0%nat ltac:(cbn; lia)) as [sec Hsec]. rewrite Hsec. cbn [nth].
    unfold len in *. rewrite length_app, repeat_length, <- seq_shift, map_map.
    specialize (IH cs' (S k)). cbn [zsum foldr]. fold (zsum (zip_with since cs cs')). rewrite <- IH.
    - rewrite Nat2Z.inj_add. f_equal; [unfold since; zcmp; lia|]. f_equal. f_equal. f_equal. apply map_ext. intros i.
      by replace (k + S i)%nat with (S k + i)%nat by lia.
    - by injection Hl.
    - intros i Hi. replace (S k + i)%nat with (k + S i)%nat by lia. apply Hs. cbn. lia. }
  apply (H (PauseCounts before) (PauseCounts after) 0%nat Hc Hs).
Qed.
